(* ===== verification/_CoqProject ===== *)
-Q . S2P
Prelude.v
Ord.v
Identifier.v
State.v
PoolTx.v
SubPools.v
Parked.v
Blob.v
Pending.v
Best.v
AllTxs.v
Chain.v
Forks.v
ForkId.v
Errors.v
Events.v
BlobStore.v
Compact.v
Derive.v
Transaction.v
Header.v
Codecs.v
TxCodec.v
NetErrors.v
Peer.v
Peers.v
Sessions.v
PeersSteps.v
NetSteps.v
Consensus.v
ConsensusSteps.v
Links.v
Lru.v
BlockBuffer.v
TreeState.v
InvalidHeaders.v
InMemory.v
EngineTypes.v
PayloadValidator.v
Engine.v
EngineLogic.v
EngineInv.v
EngineSteps.v
EngineExamples.v
Revm.v
L1Info.v
OpExecute.v
OpPayload.v
OpPayloadSteps.v
PayloadService.v
PayloadSteps.v
OpJobs.v
TxPool.v
Inner.v
Validate.v
PoolOps.v
PoolFees.v
PoolEvict.v
PoolReturns.v
PoolSteps.v
InnerOps.v
InnerSteps.v
ValidateSteps.v
PoolExamples.v
InnerExamples.v
OpPool.v
OpValidate.v
OpExamples.v
JobsExamples.v
