(* ===== verification/Prelude.v ===== *)
(** * Verification of the sequencer node

    The repository holds the OP stack and, under [src/reth], the Rust node that runs as its
    sequencer ([src/world-id-sequencer] only starts it).  This library models the parts of the
    node that decide which transactions it keeps, which blocks and headers it accepts, how it
    follows the consensus client, which blocks it builds as the sequencer, which peers it talks
    to, and how it writes values into its database.  Paths are relative to [src/reth/crates].

    ** How the parts work together

    A peer, or the RPC server, hands a transaction to the pool.  The validator
    ([transaction-pool/src/validate/eth.rs]) checks it against the account and the active hard
    forks; [PoolInner] ([pool/mod.rs]) assigns identifiers to senders, stores sidecars of blob
    transactions, tells listeners what happened, and calls [TxPool] ([pool/txpool.rs]).
    [TxPool] keeps every transaction twice: in [AllTransactions], with its state flags, and in
    the sub-pool the flags select (pending, base-fee, queued, blob).  A new block prunes mined
    transactions and moves the others.  The block builder reads the pending sub-pool through the
    iterators of [best.rs].  Headers and blocks that come from the network pass the consensus
    checks ([consensus], [ethereum/consensus], [optimism/consensus]) and are written to the
    database with the Compact codec ([storage/codecs]).  The consensus client drives the engine
    tree ([engine/tree/src/tree/mod.rs]) with payloads and forkchoice updates: a payload is
    checked ([payload/validator]), and its block is executed and put into the tree of executed
    blocks if its parent is known, or into the buffer of disconnected blocks otherwise, whose
    ancestors are then downloaded; a forkchoice update makes a block of the tree canonical,
    which readers see through the chain in memory ([chain-state]) until the persistence task has
    saved it; if the head is too far away the engine asks for a backfill.  With attributes for
    the next block, a forkchoice update also starts a job of the payload service
    ([payload/builder], [payload/basic]); the job runs the builder of the OP stack
    ([optimism/payload]) again and again, which executes the transactions of the attributes and
    then the best ones of the pool in the environment of the new block ([evm], [optimism/evm]),
    and keeps the payload with the highest fees until the consensus client asks for it; other
    nodes execute the block with the executor of [optimism/evm/src/execute.rs].  Transactions
    for the pool of such a node are charged for their L1 fee by the validator of
    [optimism/node/src/txpool.rs].  The network ([net]) keeps sessions with peers whose fork
    identifier ([ethereum-forks/src/forkid.rs]) is compatible; the peers manager decides whom to
    dial, accept, back off from and ban.

    ** Files

    - [Prelude]: outcomes of code that may panic or loop, machine integers, sums over maps.
      [Ord]: [Ord::cmp] with its laws, [BTreeSet], [BTreeMap].
    - [Identifier] ([identifier.rs]), [State] ([pool/state.rs], [pool/update.rs]), [PoolTx]
      ([traits.rs], [validate/mod.rs], [ordering.rs], [config.rs], [pool/size.rs]): the data.
    - [SubPools]: the interface [SubPoolLaws] through which the pool relies on a sub-pool.
      [Parked] ([parked.rs]), [Blob] ([blob.rs]), [Pending] ([pending.rs]) implement it.
      [Best] ([best.rs]): the iterators, against a class of their operations.
    - [AllTxs] ([txpool.rs], [AllTransactions]) and [Chain]: insertion, recheck and removal;
      what an insertion computes for a sender's chain of transactions.
    - [TxPool] ([txpool.rs], [TxPool]): all operations.  [PoolOps], [PoolFees], [PoolEvict] (when
      eviction ends), [PoolReturns] (what it has done whenever it ends), [PoolSteps]: their
      theorems; [PoolExamples]: concrete pools.
    - [Errors] ([error.rs]), [Events] ([pool/events.rs], [pool/listener.rs]), [BlobStore]
      ([blobstore]), [Inner] ([pool/mod.rs], [PoolInner]); [InnerOps], [InnerSteps]: their
      theorems over the requests that callers make ([inner_step]) and over the single actions
      that requests are made of ([inner_action]); [InnerExamples]: concrete runs.
    - [Forks] ([ethereum-forks]: head, conditions, the table of forks), [ForkId] ([forkid.rs],
      and [fork_id], [fork_filter] of [chainspec/src/spec.rs]).
    - [Transaction] ([primitives/src/transaction], [EthPooledTransaction]), [Validate]
      ([validate/eth.rs]), [ValidateSteps]: the validator in front of the pool.
    - [Compact] ([storage/codecs/src/lib.rs]), [Derive] ([storage/codecs/derive]: the code the
      macro writes, as a function of the list of fields), [Header]
      ([primitives-traits/src/header], [account.rs]), [Codecs] and [TxCodec] (the stored
      types).
    - [Consensus] ([consensus/consensus], [consensus/common], [ethereum/consensus],
      [optimism/consensus], [primitives/src/proofs.rs]) and [ConsensusSteps].
    - [Links]: blocks linked by hashes.  [Lru] ([net/network/src/cache.rs]), [BlockBuffer]
      ([blockchain-tree/src/block_buffer.rs]), [TreeState] (the tree of executed blocks and
      [on_new_head] of [engine/tree/src/tree/mod.rs]), [InvalidHeaders]
      ([consensus/beacon/src/engine]: [invalid_headers.rs], [forkchoice.rs]), [InMemory]
      ([chain-state/src]), [PayloadValidator] ([payload/validator/src/lib.rs]).
    - [EngineTypes] and [Engine] ([EngineApiTreeHandler] of [engine/tree/src/tree/mod.rs], as a
      state monad); [EngineLogic]: a program logic for it; [EngineInv]: its invariant;
      [EngineSteps]: its theorems over every run; [EngineExamples]: a concrete run.
    - [Revm] ([evm/src], [primitives/src/transaction/compat.rs], [optimism/evm/src/config.rs]):
      the environments of blocks and transactions, and the virtual machine as the class
      [EvmState]; [L1Info] ([optimism/evm/src/l1.rs]); [OpExecute]
      ([optimism/evm/src/execute.rs], [evm/src/state_change.rs],
      [consensus/common/src/calc.rs]): the executor.
    - [OpPayload] ([optimism/payload/src/builder.rs], [payload.rs]): the builder;
      [OpPayloadSteps]: its theorems, against the iterator class [BestIteratorLaws], which
      [OpPool] discharges for the iterators of the pool.  [PayloadService]
      ([payload/basic/src/lib.rs], [payload/builder/src/service.rs]): jobs, their tasks and the
      service, against the class [PayloadBuilder]; [PayloadSteps]: their theorems over every
      run; [OpJobs]: the builder of the OP stack as such a builder.  [OpValidate]
      ([optimism/node/src/txpool.rs]): the validator with L1 fees.  [OpExamples] and
      [JobsExamples]: a block of a small chain, built and served.
    - [NetErrors] ([net/network/src/error.rs], [net/eth-wire/src/errors]), [Peer]
      ([net/network-types/src/peers], [net/p2p/src/reputation.rs], [net/banlist]), [Peers]
      ([net/network/src/peers.rs]), [Sessions] ([net/network/src/session], and the handlers
      of [swarm.rs], [state.rs] and [manager.rs] that reach the peers manager), [PeersSteps]
      and [NetSteps]: their theorems and concrete runs.

    ** What the theorems show

    - Each operation of the pool refines the same operation on a map from sender and nonce to
      transactions ([PoolSteps]); every operation keeps the set of all transactions and the sub-pools in agreement, and does
      on every branch what its name says ([PoolOps], [PoolFees], [PoolEvict]); the chain of a
      sender's transactions carries the right costs and flags after an insertion ([Chain]).
      Eviction may run forever (an example shows a pool): the steps are those that return, and
      that it returns is shown for pools whose pending sub-pool has no local transaction and whose
      set of highest nonces misses no sender ([evictable] in [PoolEvict]).
    - [PoolInner] answers every submission, keeps the sidecars of what stays, tells
      subscribers of every departure, never announces a private transaction ([InnerSteps],
      [Events]); peers are blamed by the validator only ([ValidateSteps]); the validator
      accepts exactly what the rules allow ([Validate]).
    - Fork filters follow EIP-2124, may be updated incrementally, and accept nodes of the
      same chain ([ForkId]), at heads that are orderly: no fork by time is active while one by
      block number is not.  Examples show that the first two fail at other heads.
    - A value written with the Compact codec is read back ([Codecs], [TxCodec]).
    - Headers and blocks pass exactly if they keep the rules, which are stated as
      propositions; a range that passes is hash-linked, with the bounds on time and gas
      ([ConsensusSteps]).
    - Over every run of the engine with messages that satisfy [message_ok]: a round of its loop
      ends without a panic, the tree holds only blocks that were validated or that were handed in
      as executed, readers of the memory see the canonical chain, the answers to payloads and forkchoice updates mean what the protocol says, a known
      head becomes canonical, the batches for the persistence task are the right part of the
      chain, and no backfill runs while blocks are saved ([EngineSteps]).  A reorganisation
      starts at the nearest common ancestor ([TreeState]), the buffer stays within its limit
      with exact indices ([BlockBuffer]), and the payloads that are well formed are
      characterised ([PayloadValidator]).
    - A block that the builder makes for a job that satisfies [job_ok] is executed by the executor
      with the same receipts, gas and state root, and passes the consensus checks; it holds the
      transactions it should, with the fees it claims; and building ends ([OpPayloadSteps]).  Over
      every run of the payload service a round ends without a panic and gives every command the
      answer that the jobs at that point determine, a payload is replaced by better ones only, and
      a request is answered with the best payload ([PayloadSteps]), which is a valid block if the
      jobs satisfy [job_ok] ([OpJobs]).  The L1 parameters are read back from the call data that carries
      them ([L1Info]), and the validator accepts exactly the senders that can pay the L1 fee
      ([OpValidate]).
    - Over every run of the network the counters of connections are never too small, a listed
      peer that holds a slot has a session whose end gives the slot back (examples show how slots
      of peers that are no longer listed leak), dialing ends with the best choice, and trusted peers are
      not banned lightly ([PeersSteps], [NetSteps]).

    Where the code does not do what its comments say, a lemma or example shows the state in
    which it happens, next to the theorem that holds.

    ** What is assumed of the environment

    [job_ok] ([OpPayloadSteps]): the forks of the chain are by time, Bedrock to Ecotone and Cancun
    are active and Prague is not; the parent has a base fee and the blob fields of its time and is
    older than the new block; the gas limit of the attributes is that of the parent, or there is
    none; the transactions of the attributes fit in it; the extra data is at most 32 bytes long.
    The builder checks none of this, and examples in [OpExamples] show what it makes otherwise.

    [message_ok] ([EngineSteps]): the headers in messages do not collide in their hashes; an
    executed block that is handed in is numbered after its parent, and satisfies an arbitrary
    predicate, [trusted], which the theorems name where it matters; a backfill starts only if it
    was asked for or no blocks are being saved, and the bad blocks that it names satisfy an
    arbitrary predicate, [unwound].  [memory_is_canonical] also needs that the environment is
    [sound]: the engine starts at or below the last saved block, saving goes forward, and the
    database has the header of the block at which a backfill has ended.

    ** Conventions, bounds and fuel

    Integers are [Z], wrapped at their width where an operation can leave it (the release
    profile has no overflow checks).  A function that may panic or loop returns [outcome].
    [NoFuel] is never the result a theorem is content with: the loops of eviction take fuel and
    the theorems show that the number of transactions suffices; the variable-length integers
    take the logarithm of the number; the loop that dials takes the number of peers, and its
    theorem shows that it stops for the reasons of the code; a walk along parents takes the
    number of blocks in the map, which suffices since no block is its own ancestor, and the walk
    down a buffer the number of its entries; the search for a valid ancestor takes a budget
    computed from the block numbers and the hits that are left in the cache of invalid headers;
    the loop of the builder has no bound of its own, since transactions may keep arriving:
    [builder_ends] shows that some fuel suffices once they stop, and its other theorems speak of
    every fuel with which it returns.  Methods run one at a time: the code holds a lock, or owns
    the state, throughout.  Channels of [tokio] are represented by what the code can see of
    them, the answer of a send, which an arbitrary schedule decides.  The clock is an argument.
    The tasks of network sessions are the environment of [net_step].  The engine owns its state,
    but the database it reads is written by another task: each read sees a database of a later
    time.  Identifiers of submissions are 64 bits wide, and theorems that depend on their order
    ask for room.  A build of a payload runs in a task of its own: a run of the service
    interleaves its rounds with the ends of tasks and the polls of the callers in any order, and
    its timers are arguments.

    Code outside the repository is a parameter with its documented behaviour as laws: the
    intrinsic gas and fee formulas of [revm] and [alloy], KZG verification, trie roots and
    hashes, the CRC, [modular-bitfield], the compression, the LRU map, the executor, and the
    order in which a hash map is visited.  Of hashes the engine needs that those of the blocks
    it ever sees determine the block and its number ([BlockHashesLaws]); of the database, that
    it holds such blocks; of the consensus rules, that a header they accept continues its
    parent.  Of the virtual machine the builder needs that it is a function of the environment
    and of the visible state, that the gas used does not exceed the limit and that an accepted
    transaction pays the base fee ([EvmStateLaws]); of the hash of a state, that it does not
    depend on the reverts that are kept ([BuilderLaws]); of the roots and blooms, their values
    for empty lists and that receipts enter by what their encoding holds ([ExternalsLaws]).
    Every theorem about such a parameter is applied to a concrete one.

    ** Not modelled

    Metrics and tracing.  The maintenance task of the pool ([maintain.rs]), the validation
    tasks, the RPC servers, discovery, downloaders and the wire protocols: asynchronous I/O over
    streams.  The tasks around the engine (orchestration, download, backfill pipeline,
    persistence): their messages are modelled, their polling is not.  The cached reads of
    payload jobs, which only save time.  The formats of attributes and payloads on the RPC
    interface.  The database, static files, pruning and the blob store on disk: bindings to MDBX
    and the file system.  The blockchain tree and the legacy beacon engine, which the engine
    tree replaces.  RLP, hashing and signatures: libraries.  The specifications of the known
    chains: data. *)
From stdpp Require Import prelude gmap list sorting.
#[global] Open Scope Z_scope.

(** ** Outcomes of Rust code

    A Rust function that may panic ([assert!], [expect], [unreachable!]) or loop
    is a function into [outcome]: [Done] carries its result, [Panics] stands for
    an unwinding panic, [NoFuel] for a loop whose fuel ran out. *)
Inductive outcome (A : Type) : Type :=
| Done (a : A)
| Panics
| NoFuel.
Arguments Done {A} a.
Arguments Panics {A}.
Arguments NoFuel {A}.

#[export] Instance outcome_ret : MRet outcome := @Done.
#[export] Instance outcome_bind : MBind outcome := λ A B f m,
  match m with Done a => f a | Panics => Panics | NoFuel => NoFuel end.
#[export] Instance outcome_fmap : FMap outcome := λ A B f m,
  match m with Done a => Done (f a) | Panics => Panics | NoFuel => NoFuel end.

(** [assert!(b)]. *)
Definition assert_ (b : bool) : outcome unit := if b then Done tt else Panics.

(** [Option::expect]. *)
Definition expect {A} (o : option A) : outcome A :=
  match o with Some a => Done a | None => Panics end.

(** [for x in l { st = f(x, st) }] where the body may panic. *)
Fixpoint for_each {A S} (f : A → S → outcome S) (l : list A) (s : S) : outcome S :=
  match l with
  | [] => Done s
  | x :: l' => s' ← f x s; for_each f l' s'
  end.

(** The result of a run that is known to be [Done]. *)
Definition run_or {A} (d : A) (o : outcome A) : A := match o with Done a => a | _ => d end.

Lemma bind_Done {A B} (f : A → outcome B) a : (Done a ≫= f) = f a.
Proof. done. Qed.

Lemma bind_Done_inv {A B} (m : outcome A) (f : A → outcome B) b :
  (m ≫= f) = Done b → ∃ a, m = Done a ∧ f a = Done b.
Proof. destruct m; simpl; try done; eauto. Qed.

(** Rule for loops: an invariant indexed by the elements still to be visited. *)
Lemma for_each_ind {A S} (I : list A → S → Prop) (f : A → S → outcome S) l s :
  (∀ x l' s0, I (x :: l') s0 → ∃ s1, f x s0 = Done s1 ∧ I l' s1) →
  I l s → ∃ s', for_each f l s = Done s' ∧ I [] s'.
Proof.
  intros Hstep. revert s; induction l as [|x l IH]; intros s Hs; simpl; [by eauto|].
  destruct (Hstep x l s Hs) as (s1 & -> & H1). by apply IH.
Qed.

Lemma for_each_app {A S} (f : A → S → outcome S) l1 l2 s :
  for_each f (l1 ++ l2) s = (s' ← for_each f l1 s; for_each f l2 s').
Proof.
  revert s; induction l1 as [|x l1 IH]; intros s; simpl; [done|].
  destruct (f x s); simpl; [apply IH|done|done].
Qed.

(** ** Machine integers

    Fees, costs, nonces and sizes are [Z]; an operation that can leave its width
    applies the wrap-around of the release profile. *)
Definition U64 : Z := 2 ^ 64.
Definition U128 : Z := 2 ^ 128.
Definition U256 : Z := 2 ^ 256.
Definition u64_max : Z := U64 - 1.

Definition wrap_u32 (x : Z) : Z := x `mod` 2 ^ 32.
Definition wrap_u64 (x : Z) : Z := x `mod` U64.
Definition wrap_u128 (x : Z) : Z := x `mod` U128.
Definition wrap_u256 (x : Z) : Z := x `mod` U256.
(** Two's complement 64-bit reading ([isize], [as isize]). *)
Definition wrap_i64 (x : Z) : Z := (x + 2 ^ 63) `mod` U64 - 2 ^ 63.
(** [u64::saturating_add(x, 1)]. *)
Definition saturating_succ_u64 (x : Z) : Z := Z.min (x + 1) u64_max.

Definition is_u64 (x : Z) : Prop := 0 ≤ x < U64.
Definition is_u128 (x : Z) : Prop := 0 ≤ x < U128.

Lemma U64_pos : 0 < U64. Proof. done. Qed.

Lemma wrap_i64_add_l x y : wrap_i64 (wrap_i64 x + y) = wrap_i64 (x + y).
Proof.
  unfold wrap_i64. f_equal.
  replace ((x + 2 ^ 63) `mod` U64 - 2 ^ 63 + y + 2 ^ 63)
    with ((x + 2 ^ 63) `mod` U64 + y) by lia.
  rewrite Z.add_mod_idemp_l by done. f_equal. lia.
Qed.

Lemma wrap_i64_add_r x y : wrap_i64 (x + wrap_i64 y) = wrap_i64 (x + y).
Proof. by rewrite (Z.add_comm x), wrap_i64_add_l, Z.add_comm. Qed.

Lemma wrap_i64_sub_r x y : wrap_i64 (x - wrap_i64 y) = wrap_i64 (x - y).
Proof.
  unfold wrap_i64. f_equal.
  replace (x - ((y + 2 ^ 63) `mod` U64 - 2 ^ 63) + 2 ^ 63)
    with ((x + 2 ^ 64) - (y + 2 ^ 63) `mod` U64) by lia.
  rewrite Zminus_mod_idemp_r.
  replace (x + 2 ^ 64 - (y + 2 ^ 63)) with (x - y + 2 ^ 63) by lia. done.
Qed.

Lemma wrap_u64_wrap_i64 x : wrap_u64 (wrap_i64 x) = wrap_u64 x.
Proof.
  unfold wrap_u64, wrap_i64. rewrite Zminus_mod_idemp_l. f_equal. lia.
Qed.

Lemma wrap_u64_id x : is_u64 x → wrap_u64 x = x.
Proof. unfold is_u64. intros. by apply Z.mod_small. Qed.

Lemma wrap_u64_range x : is_u64 (wrap_u64 x).
Proof. apply Z.mod_pos_bound, U64_pos. Qed.

(** ** Sums over finite maps *)
Section map_sum.
Context {K V : Type} `{Countable K}.
Implicit Types (m : gmap K V) (f : V → Z).

Definition map_sum f m : Z := map_fold (λ _ v s, f v + s) 0 m.

Lemma map_sum_empty f : map_sum f (∅ : gmap K V) = 0.
Proof. apply map_fold_empty. Qed.

Lemma map_sum_insert f m k v :
  m !! k = None → map_sum f (<[k := v]> m) = f v + map_sum f m.
Proof.
  intros Hk. unfold map_sum. rewrite map_fold_insert_L; [done|intros; lia|done].
Qed.

Lemma map_sum_delete f m k v :
  m !! k = Some v → map_sum f m = f v + map_sum f (delete k m).
Proof.
  intros Hk. rewrite <-(insert_delete_id m k v) at 1 by done.
  apply map_sum_insert, lookup_delete_eq.
Qed.

Lemma map_sum_nonneg f m :
  (∀ k v, m !! k = Some v → 0 ≤ f v) → 0 ≤ map_sum f m.
Proof.
  induction m as [|k v m Hk IH] using map_ind; intros Hf.
  - by rewrite map_sum_empty.
  - rewrite map_sum_insert by done.
    assert (0 ≤ f v) by (apply (Hf k); apply lookup_insert_eq).
    assert (0 ≤ map_sum f m); [|lia].
    apply IH. intros k' v' Hl. apply (Hf k').
    rewrite lookup_insert_ne; [done|]. intros ->. congruence.
Qed.

Lemma map_sum_ext f g m :
  (∀ k v, m !! k = Some v → f v = g v) → map_sum f m = map_sum g m.
Proof.
  induction m as [|k v m Hk IH] using map_ind; intros Hf; [by rewrite !map_sum_empty|].
  rewrite !map_sum_insert by done. f_equal; [apply (Hf k); apply lookup_insert_eq|].
  apply IH. intros k' v' Hl. apply (Hf k').
  rewrite lookup_insert_ne; [done|]. intros ->. congruence.
Qed.

Lemma map_sum_subseteq f m m' :
  m' ⊆ m → (∀ k v, m !! k = Some v → 0 ≤ f v) → map_sum f m' ≤ map_sum f m.
Proof.
  revert m; induction m' as [|k v m' Hk IH] using map_ind; intros m Hsub Hf.
  { rewrite map_sum_empty. by apply map_sum_nonneg. }
  assert (Hm : m !! k = Some v) by (eapply lookup_weaken; [apply lookup_insert_eq|done]).
  rewrite map_sum_insert, (map_sum_delete f m k v Hm) by done. apply Z.add_le_mono_l, IH.
  - apply map_subseteq_spec. intros j w Hj. rewrite lookup_delete_ne by congruence.
    eapply lookup_weaken; [|exact Hsub]. by rewrite lookup_insert_ne by congruence.
  - intros j w [_ Hj]%lookup_delete_Some. by apply (Hf j).
Qed.
End map_sum.

Lemma map_sum_fmap {K V W} `{Countable K} (f : W → Z) (g : V → W) (m : gmap K V) :
  map_sum f (g <$> m) = map_sum (f ∘ g) m.
Proof.
  induction m as [|k v m Hk IH] using map_ind; [by rewrite fmap_empty, !map_sum_empty|].
  rewrite fmap_insert, !map_sum_insert by (rewrite ?lookup_fmap, ?Hk; done).
  by rewrite IH.
Qed.
