(* ===== verification/Ord.v ===== *)
(** * Ordered collections of the Rust standard library

    [Cmp] is the [Ord::cmp] of a type, [CmpOrd] the laws that trait documents.
    [BTreeSet] is modelled by its strictly increasing list of elements
    ([bset_*]); a [BTreeMap] is a [gmap] together with the ascending enumeration
    of its entries ([bmap_iter]), on which [range] and the mutable iterators are
    defined.  Two elements for which [cmp] answers [Eq] are the same element for
    a [BTreeSet], even where they differ as Rust values, and the lemmas keep
    that distinction. *)

From stdpp Require Import prelude gmap list sorting.
From S2P Require Import Prelude.

Class Cmp (A : Type) := cmp : A → A → comparison.
#[global] Hint Mode Cmp ! : typeclass_instances.

Class CmpOrd (A : Type) `{Cmp A} : Prop := {
  cmp_opp (x y : A) : cmp y x = CompOpp (cmp x y);
  cmp_lt_trans (x y z : A) : cmp x y = Lt → cmp y z = Lt → cmp x z = Lt;
  cmp_eq_subst (x y z : A) : cmp x y = Eq → cmp x z = cmp y z;
}.

(** [Ordering::then_with]. *)
Definition then_with (o1 o2 : comparison) : comparison :=
  match o1 with Eq => o2 | _ => o1 end.

#[export] Instance Z_cmp : Cmp Z := Z.compare.
#[export] Instance Z_cmp_ord : CmpOrd Z.
Proof.
  split; unfold cmp, Z_cmp; intros.
  - apply Z.compare_antisym.
  - rewrite Z.compare_lt_iff in *. lia.
  - apply Z.compare_eq in H. by subst.
Qed.

(** The order that compares by a key first and by a second key on ties; the
    second key may be taken in reverse. *)
Section lex.
Context {A B C : Type} `{CmpOrd B} `{CmpOrd C} (f : A → B) (g : A → C).

Definition lex_cmp (x y : A) : comparison :=
  then_with (cmp (f x) (f y)) (cmp (g x) (g y)).

Lemma lex_cmp_ord : @CmpOrd A lex_cmp.
Proof.
  split; unfold cmp, lex_cmp; intros.
  - rewrite (cmp_opp (f x)), (cmp_opp (g x)). by destruct (cmp (f x) (f y)).
  - destruct (cmp (f x) (f y)) eqn:E1, (cmp (f y) (f z)) eqn:E2; simpl in *; try done.
    + rewrite (cmp_eq_subst (f x) (f y)), E2 by done. simpl.
      by eapply cmp_lt_trans.
    + by rewrite (cmp_eq_subst (f x) (f y)), E2 by done.
    + assert (cmp (f z) (f y) = Eq) as E3 by (rewrite cmp_opp, E2; done).
      rewrite (cmp_opp (f z)), (cmp_eq_subst (f z) (f y)) by done.
      by rewrite <-cmp_opp, E1.
    + by rewrite (cmp_lt_trans (f x) (f y) (f z)).
  - destruct (cmp (f x) (f y)) eqn:E1; simpl in *; try done.
    rewrite (cmp_eq_subst (f x) (f y)) by done.
    destruct (cmp (f y) (f z)); simpl; try done. by apply cmp_eq_subst.
Qed.
End lex.

(** [std::cmp::Reverse]. *)
Definition rev_cmp {A} (c : Cmp A) : Cmp A := λ x y, c y x.

Lemma rev_cmp_ord {A} (c : Cmp A) : CmpOrd A → @CmpOrd A (rev_cmp c).
Proof.
  intros Hc. split; unfold rev_cmp; intros x y.
  - apply (cmp_opp y x).
  - intros z Hxy Hyz. exact (cmp_lt_trans z y x Hyz Hxy).
  - intros z Hxy. change (c y x = Eq) in Hxy. change (c z x = c z y).
    pose proof (cmp_opp x z) as E1. pose proof (cmp_opp y z) as E2.
    pose proof (cmp_eq_subst y x z Hxy) as E3.
    unfold cmp in *. by rewrite E1, E2, E3.
Qed.

(** ** BTreeSet *)
Section bset.
Context {A : Type} `{CmpOrd A}.
Implicit Types (x y z : A) (l : list A).

(** [BTreeSet::insert]: an element equal to [x] for [cmp] is kept. *)
Fixpoint bset_insert x l : list A :=
  match l with
  | [] => [x]
  | y :: l' =>
    match cmp x y with
    | Lt => x :: y :: l'
    | Eq => y :: l'
    | Gt => y :: bset_insert x l'
    end
  end.

(** [BTreeSet::remove]. *)
Fixpoint bset_remove x l : list A :=
  match l with
  | [] => []
  | y :: l' =>
    match cmp x y with
    | Lt => y :: l'
    | Eq => l'
    | Gt => y :: bset_remove x l'
    end
  end.

(** [BTreeSet::contains], also the boolean [BTreeSet::remove] returns. *)
Fixpoint bset_contains x l : bool :=
  match l with
  | [] => false
  | y :: l' =>
    match cmp x y with Lt => false | Eq => true | Gt => bset_contains x l' end
  end.

(** [BTreeSet::pop_last]. *)
Definition bset_pop_last l : option (A * list A) :=
  match last l with
  | Some x => Some (x, take (length l - 1) l)
  | None => None
  end.

Definition bset_wf l : Prop := StronglySorted (λ x y, cmp x y = Lt) l.

Lemma cmp_refl x : cmp x x = Eq.
Proof.
  pose proof (cmp_opp x x) as Hx. by destruct (cmp x x).
Qed.

Lemma cmp_gt_lt x y : cmp x y = Gt → cmp y x = Lt.
Proof. intros Hc. by rewrite cmp_opp, Hc. Qed.

Lemma cmp_lt_gt x y : cmp x y = Lt → cmp y x = Gt.
Proof. intros Hc. by rewrite cmp_opp, Hc. Qed.

Lemma cmp_eq_sym x y : cmp x y = Eq → cmp y x = Eq.
Proof. intros Hc. by rewrite cmp_opp, Hc. Qed.

Lemma bset_insert_incl x y l : y ∈ bset_insert x l → y = x ∨ y ∈ l.
Proof.
  induction l as [|z l IH]; simpl; [set_solver|].
  destruct (cmp x z); set_solver.
Qed.

Lemma bset_insert_mono x y l : y ∈ l → y ∈ bset_insert x l.
Proof.
  induction l as [|z l IH]; simpl; [set_solver|].
  destruct (cmp x z); set_solver.
Qed.

(** The element is in the set after [insert], unless an equal one was. *)
Lemma bset_insert_new x l : (∀ y, y ∈ l → cmp x y = Eq → y = x) → x ∈ bset_insert x l.
Proof.
  induction l as [|z l IH]; simpl; intros Hd; [set_solver|].
  destruct (cmp x z) eqn:E; [|set_solver|].
  - rewrite (Hd z); [set_solver..|done].
  - apply list_elem_of_further, IH. intros y Hy. apply Hd. set_solver.
Qed.

Lemma elem_of_bset_insert x y l :
  (∀ y, y ∈ l → cmp x y = Eq → y = x) → y ∈ bset_insert x l ↔ y = x ∨ y ∈ l.
Proof.
  intros Hd. split; [apply bset_insert_incl|].
  intros [->|?]; [by apply bset_insert_new|by apply bset_insert_mono].
Qed.

Lemma bset_insert_wf x l : bset_wf l → bset_wf (bset_insert x l).
Proof.
  induction 1 as [|z l Hl IH Hz]; simpl; [by repeat constructor|].
  destruct (cmp x z) eqn:E.
  - by constructor.
  - constructor; [by constructor|]. constructor; [done|].
    eapply Forall_impl; [done|]. intros y Hy. by eapply cmp_lt_trans.
  - constructor; [done|]. apply Forall_forall. intros y Hy.
    apply bset_insert_incl in Hy as [->|Hy]; [by apply cmp_gt_lt|].
    by eapply Forall_forall in Hz.
Qed.

Lemma bset_remove_incl x y l : y ∈ bset_remove x l → y ∈ l.
Proof.
  induction l as [|z l IH]; simpl; [done|]. destruct (cmp x z); set_solver.
Qed.

Lemma bset_remove_wf x l : bset_wf l → bset_wf (bset_remove x l).
Proof.
  induction 1 as [|z l Hl IH Hz]; simpl; [by constructor|].
  destruct (cmp x z) eqn:E; [done|by constructor|].
  constructor; [done|]. apply Forall_forall. intros y Hy.
  apply bset_remove_incl in Hy. by eapply Forall_forall in Hz.
Qed.

Lemma bset_remove_keep x y l : y ∈ l → cmp x y ≠ Eq → y ∈ bset_remove x l.
Proof.
  intros Hy Hne. induction l as [|z l IH]; simpl; [done|].
  apply elem_of_cons in Hy as [->|Hy].
  - destruct (cmp x z); [done|by left|by left].
  - destruct (cmp x z); [done|by right|right; by apply IH].
Qed.

Lemma bset_remove_gone x y l : bset_wf l → y ∈ bset_remove x l → cmp x y ≠ Eq.
Proof.
  induction 1 as [|z l Hl IH Hz]; simpl; [set_solver|].
  rewrite Forall_forall in Hz.
  destruct (cmp x z) eqn:E.
  - intros Hy Hxy. specialize (Hz y Hy).
    rewrite <-(cmp_eq_subst x z), Hxy in Hz by done. done.
  - intros [->|Hy]%elem_of_cons; [by rewrite E|].
    by rewrite (cmp_lt_trans x z y) by auto.
  - intros [->|Hy]%elem_of_cons; [by rewrite E|by apply IH].
Qed.

Lemma elem_of_bset_remove x y l :
  bset_wf l → (∀ y, y ∈ l → cmp x y = Eq → y = x) →
  y ∈ bset_remove x l ↔ y ∈ l ∧ y ≠ x.
Proof.
  intros Hwf Hd. split.
  - intros Hy. split; [by eapply bset_remove_incl|].
    intros ->. by apply (bset_remove_gone x x l Hwf Hy), cmp_refl.
  - intros [Hy Hne]. apply bset_remove_keep; [done|]. intros E. by apply Hne, Hd.
Qed.

Lemma bset_contains_spec x l :
  bset_wf l → bset_contains x l = true ↔ ∃ y, y ∈ l ∧ cmp x y = Eq.
Proof.
  induction 1 as [|z l Hl IH Hz]; simpl.
  { split; [done|]. intros (y & Hy & _). by apply elem_of_nil in Hy. }
  rewrite Forall_forall in Hz.
  destruct (cmp x z) eqn:E.
  - split; [|done]. intros _. exists z. set_solver.
  - split; [done|]. intros (y & [->|Hy]%elem_of_cons & Hxy); [congruence|].
    rewrite (cmp_lt_trans x z y) in Hxy by auto. done.
  - rewrite IH. split; intros (y & Hy & Hxy); exists y; [set_solver|].
    apply elem_of_cons in Hy as [->|Hy]; [congruence|done].
Qed.

Lemma bset_wf_NoDup l : bset_wf l → NoDup l.
Proof.
  induction 1 as [|z l Hl IH Hz]; constructor; [|done].
  intros Hin. rewrite Forall_forall in Hz. specialize (Hz z Hin).
  by rewrite cmp_refl in Hz.
Qed.

Lemma bset_wf_app_inv l1 l2 : bset_wf (l1 ++ l2) → bset_wf l1 ∧ bset_wf l2.
Proof.
  induction l1 as [|x l1 IH]; simpl; [split; [constructor|done]|].
  intros Hs. inversion Hs as [|? ? Hs' Hf]; subst.
  destruct (IH Hs') as [? ?]. split; [|done]. constructor; [done|].
  rewrite Forall_app in Hf. tauto.
Qed.

Lemma bset_pop_last_spec l x l' : bset_pop_last l = Some (x, l') → l = l' ++ [x].
Proof.
  unfold bset_pop_last. destruct (last l) as [y|] eqn:E; [|done].
  intros [= <- <-]. apply last_Some in E as [k ->].
  rewrite length_app. simpl. rewrite Nat.add_sub.
  by rewrite take_app_length.
Qed.

Lemma bset_pop_last_None l : bset_pop_last l = None ↔ l = [].
Proof.
  unfold bset_pop_last. destruct (last l) eqn:E.
  - split; [done|]. intros ->. done.
  - apply last_None in E. by subst.
Qed.

(** The popped element is the greatest one. *)
Lemma bset_pop_last_max l x l' y :
  bset_wf l → bset_pop_last l = Some (x, l') → y ∈ l' → cmp y x = Lt.
Proof.
  intros Hwf ->%bset_pop_last_spec Hy.
  induction l' as [|z l' IH]; [by apply elem_of_nil in Hy|].
  simpl in Hwf. inversion Hwf as [|? ? Hs Hf]; subst.
  apply elem_of_cons in Hy as [->|Hy]; [|by apply IH].
  rewrite Forall_forall in Hf. apply Hf. set_solver.
Qed.

Lemma bset_last_max l x y : bset_wf l → last l = Some x → y ∈ l → y = x ∨ cmp y x = Lt.
Proof.
  intros Hwf Hl Hy.
  assert (bset_pop_last l = Some (x, take (length l - 1) l)) as Hp
    by (unfold bset_pop_last; by rewrite Hl).
  pose proof (bset_pop_last_spec _ _ _ Hp) as E. rewrite E in Hy.
  apply elem_of_app in Hy as [Hy|Hy%list_elem_of_singleton]; [|by left].
  right. by eapply bset_pop_last_max.
Qed.

Lemma bset_insert_length x l : (length (bset_insert x l) ≤ S (length l))%nat.
Proof. induction l as [|y l IH]; simpl; [lia|]. destruct (cmp x y); simpl; lia. Qed.

Lemma bset_remove_length x l :
  length (bset_remove x l) = (length l - if bset_contains x l then 1 else 0)%nat.
Proof.
  induction l as [|y l IH]; simpl; [done|]. destruct (cmp x y); simpl; [lia..|].
  rewrite IH. destruct (bset_contains x l) eqn:E; simpl; [|lia].
  destruct l; simpl in *; [done|lia].
Qed.

Lemma bset_remove_last l x : bset_wf (l ++ [x]) → bset_remove x (l ++ [x]) = l.
Proof.
  induction l as [|y l IH]; simpl; intros Hwf; [by rewrite cmp_refl|].
  inversion Hwf as [|? ? Hs Hf]; subst. rewrite Forall_forall in Hf.
  assert (cmp y x = Lt) as Hy by (apply Hf, elem_of_app; right; by left).
  rewrite (cmp_lt_gt y x Hy). f_equal. by apply IH.
Qed.

Lemma bset_wf_app_l l1 l2 : bset_wf (l1 ++ l2) → bset_wf l1.
Proof.
  induction l1 as [|y l1 IH]; simpl; intros Hwf; [constructor|].
  inversion Hwf as [|? ? Hs Hf]; subst. constructor; [by apply IH|].
  by apply Forall_app in Hf as [? _].
Qed.

(** Collecting an iterator into a [BTreeSet]: of equal elements the last one
    stays. *)
Definition bset_collect l : list A :=
  foldl (λ acc x, bset_insert x (bset_remove x acc)) [] l.

Lemma bset_collect_acc l acc :
  bset_wf acc → (∀ x y, x ∈ acc ++ l → y ∈ acc ++ l → cmp x y = Eq → x = y) →
  bset_wf (foldl (λ acc x, bset_insert x (bset_remove x acc)) acc l) ∧
  ∀ x, x ∈ foldl (λ acc x, bset_insert x (bset_remove x acc)) acc l ↔ x ∈ acc ++ l.
Proof.
  revert acc; induction l as [|y l IH]; intros acc Hwf Hd; simpl.
  { split; [done|]. intros x. by rewrite app_nil_r. }
  assert (Hy : ∀ z, z ∈ acc → cmp y z = Eq → z = y).
  { intros z Hz E. symmetry. apply Hd; [| |done]; rewrite elem_of_app, ?elem_of_cons; auto. }
  assert (Hin : ∀ x, x ∈ bset_insert y (bset_remove y acc) ↔ x = y ∨ x ∈ acc).
  { intros x. rewrite elem_of_bset_insert.
    - rewrite elem_of_bset_remove by done. split; [tauto|].
      intros [->|Hx]; [by left|]. destruct (cmp y x) eqn:E; [left; by apply Hy|right..].
      all: split; [done|]; intros ->; rewrite cmp_refl in E; done.
    - intros z Hz%bset_remove_incl. by apply Hy. }
  destruct (IH (bset_insert y (bset_remove y acc))) as [IHw IHe].
  - by apply bset_insert_wf, bset_remove_wf.
  - intros x z. rewrite !elem_of_app, !Hin. intros Hx Hz.
    apply Hd; rewrite elem_of_app, elem_of_cons; tauto.
  - split; [done|]. intros x. rewrite IHe, !elem_of_app, Hin, elem_of_cons. tauto.
Qed.

Lemma bset_collect_spec l :
  (∀ x y, x ∈ l → y ∈ l → cmp x y = Eq → x = y) →
  bset_wf (bset_collect l) ∧ ∀ x, x ∈ bset_collect l ↔ x ∈ l.
Proof. intros Hd. apply (bset_collect_acc l []); [constructor|done]. Qed.
End bset.

#[global] Hint Resolve bset_insert_wf bset_remove_wf : core.

(** ** BTreeMap *)
Class CmpLeibniz (A : Type) `{Cmp A} : Prop :=
  cmp_eq_leibniz (x y : A) : cmp x y = Eq → x = y.

#[export] Instance Z_cmp_leibniz : CmpLeibniz Z.
Proof. intros x y. apply Z.compare_eq. Qed.

Section bmap.
Context {K : Type} `{Countable K} `{!Cmp K, !CmpOrd K, !CmpLeibniz K}.
Context {V : Type}.
Implicit Types (m : gmap K V) (k : K) (l : list (K * V)).

Definition key_le (p q : K * V) : Prop := cmp p.1 q.1 ≠ Gt.
Definition key_lt (p q : K * V) : Prop := cmp p.1 q.1 = Lt.

#[local] Instance key_le_dec : RelDecision key_le.
Proof. intros p q. unfold key_le. destruct (cmp p.1 q.1); [left|left|right]; congruence. Defined.

#[local] Instance key_le_total : Total key_le.
Proof.
  intros p q. unfold key_le. rewrite (cmp_opp p.1 q.1).
  destruct (cmp p.1 q.1); simpl; auto.
Qed.

#[local] Instance key_le_trans : Transitive key_le.
Proof.
  intros p q r. unfold key_le. intros Hpq Hqr.
  destruct (cmp p.1 q.1) eqn:E1; [|clear Hpq|done].
  - by rewrite (cmp_eq_subst p.1 q.1).
  - destruct (cmp q.1 r.1) eqn:E2; [|clear Hqr|done].
    + apply cmp_eq_leibniz in E2. by rewrite <-E2, E1.
    + by rewrite (cmp_lt_trans p.1 q.1 r.1).
Qed.

(** [BTreeMap::iter]: the entries in ascending key order. *)
Definition bmap_iter m : list (K * V) := merge_sort key_le (map_to_list m).

(** [BTreeMap::range((Included(k), Unbounded))] and with [Excluded(k)]. *)
Definition bmap_range_from k m : list (K * V) :=
  filter (λ p, cmp k p.1 ≠ Gt) (bmap_iter m).
Definition bmap_range_after k m : list (K * V) :=
  filter (λ p, cmp k p.1 = Lt) (bmap_iter m).

Lemma bmap_iter_perm m : bmap_iter m ≡ₚ map_to_list m.
Proof. apply merge_sort_Permutation. Qed.

Lemma elem_of_bmap_iter m k v : (k, v) ∈ bmap_iter m ↔ m !! k = Some v.
Proof. by rewrite bmap_iter_perm, elem_of_map_to_list. Qed.

Lemma bmap_iter_NoDup m : NoDup (bmap_iter m).*1.
Proof. rewrite bmap_iter_perm. apply NoDup_fst_map_to_list. Qed.

Lemma bmap_iter_length m : length (bmap_iter m) = size m.
Proof. by rewrite bmap_iter_perm, length_map_to_list. Qed.

Lemma list_to_map_bmap_iter m : list_to_map (bmap_iter m) = m.
Proof.
  rewrite <-(list_to_map_to_list m) at 2.
  apply list_to_map_proper; [apply bmap_iter_NoDup|apply bmap_iter_perm].
Qed.

Lemma bmap_iter_sorted m : StronglySorted key_lt (bmap_iter m).
Proof.
  pose proof (StronglySorted_merge_sort key_le (map_to_list m)) as Hs.
  pose proof (bmap_iter_NoDup m) as Hnd. fold (bmap_iter m) in Hs.
  induction Hs as [|p l Hl IH Hp]; [constructor|].
  rewrite fmap_cons in Hnd. apply NoDup_cons in Hnd as [Hp' Hnd].
  constructor; [by apply IH|].
  rewrite Forall_forall in Hp |- *. intros q Hq.
  specialize (Hp q Hq). unfold key_le, key_lt in *.
  destruct (cmp p.1 q.1) eqn:E; try done.
  apply cmp_eq_leibniz in E. destruct Hp'. rewrite E.
  by apply list_elem_of_fmap_2.
Qed.

#[export] Instance key_lt_antisymm : AntiSymm (=) key_lt.
Proof.
  intros p q. unfold key_lt. intros Hpq Hqp. rewrite (cmp_opp p.1 q.1), Hpq in Hqp. done.
Qed.

(** A sorted list with the entries of a map is its iteration. *)
Lemma bmap_iter_unique m l : StronglySorted key_lt l → l ≡ₚ map_to_list m → bmap_iter m = l.
Proof.
  intros Hs Hp. apply (StronglySorted_unique key_lt); [apply bmap_iter_sorted|done|].
  by rewrite bmap_iter_perm, Hp.
Qed.

Lemma bmap_iter_delete_head m k v l : bmap_iter m = (k, v) :: l → bmap_iter (delete k m) = l.
Proof.
  intros E. apply bmap_iter_unique.
  - pose proof (bmap_iter_sorted m) as Hs. rewrite E in Hs. by apply StronglySorted_inv in Hs as [? _].
  - pose proof (bmap_iter_perm m) as Hp. rewrite E in Hp.
    assert (Hk : m !! k = Some v) by (apply elem_of_bmap_iter; rewrite E; by left).
    apply (Permutation_cons_inv (a:=(k, v))). by rewrite map_to_list_delete.
Qed.

Lemma elem_of_bmap_range_from k m k' v :
  (k', v) ∈ bmap_range_from k m ↔ m !! k' = Some v ∧ cmp k k' ≠ Gt.
Proof.
  unfold bmap_range_from. rewrite list_elem_of_filter, elem_of_bmap_iter. simpl. tauto.
Qed.

Lemma elem_of_bmap_range_after k m k' v :
  (k', v) ∈ bmap_range_after k m ↔ m !! k' = Some v ∧ cmp k k' = Lt.
Proof.
  unfold bmap_range_after. rewrite list_elem_of_filter, elem_of_bmap_iter. simpl. tauto.
Qed.
End bmap.

(** [Iterator::take_while]. *)
Fixpoint take_while {A} (p : A → bool) (l : list A) : list A :=
  match l with
  | [] => []
  | x :: l' => if p x then x :: take_while p l' else []
  end.

Lemma take_while_incl {A} (p : A → bool) x l :
  x ∈ take_while p l → x ∈ l ∧ p x = true.
Proof.
  induction l as [|y l IH]; simpl; [by intros ?%elem_of_nil|].
  destruct (p y) eqn:E; [|by intros ?%elem_of_nil].
  rewrite !elem_of_cons. naive_solver.
Qed.
(** In a sorted list a test that holds downwards selects everything that passes it. *)
Lemma take_while_sorted {A} (R : A → A → Prop) (p : A → bool) x l :
  StronglySorted R l → (∀ x y, R x y → p y = true → p x = true) → x ∈ take_while p l ↔ x ∈ l ∧ p x = true.
Proof.
  intros Hs Hp. split; [apply take_while_incl|]. induction Hs as [|y l Hs IH Hy]; intros [Hx Hpx]; [by apply elem_of_nil in Hx|].
  simpl. apply elem_of_cons in Hx as [->|Hx]; [rewrite Hpx; left|].
  rewrite (Hp y x); [right; by apply IH| |done]. by eapply Forall_forall in Hy.
Qed.

(** ** Hash maps

    The order in which a hash map or a hash set is visited is not specified: it is a class,
    with the law that every entry is visited once. *)
Class HashOrder := iter : ∀ {K A} `{Countable K}, gmap K A → list (K * A).
Class HashOrderLaws `{HashOrder} : Prop :=
  iter_perm : ∀ {K A} `{Countable K} (m : gmap K A), iter m ≡ₚ map_to_list m.

(** One such order. *)
Definition in_key_order : HashOrder := λ K A _ _, map_to_list.
Lemma in_key_order_laws : @HashOrderLaws in_key_order.
Proof. by intros K A ? ? m. Qed.

Definition iter_set `{HashOrder} {K} `{Countable K} (s : gset K) : list K := (iter (gset_to_gmap tt s)).*1.
Section iter_set.
Context `{HashOrder} `{!HashOrderLaws} {K} `{Countable K}.
Lemma elem_of_iter_set (s : gset K) x : x ∈ iter_set s ↔ x ∈ s.
Proof.
  unfold iter_set. rewrite iter_perm, list_elem_of_fmap. split.
  - intros ([y []] & -> & Hy%elem_of_map_to_list). by apply lookup_gset_to_gmap_Some in Hy as [? _].
  - intros Hx. exists (x, tt). split; [done|]. by apply elem_of_map_to_list, lookup_gset_to_gmap_Some.
Qed.
Lemma iter_set_NoDup (s : gset K) : NoDup (iter_set s).
Proof. unfold iter_set. rewrite iter_perm. apply NoDup_fst_map_to_list. Qed.
End iter_set.
