(* ===== verification/Identifier.v ===== *)
(** * Identifiers of senders and transactions

    [reth/crates/transaction-pool/src/identifier.rs]: the mapping that assigns a
    [SenderId] to every address and the [(sender, nonce)] pair that orders and
    links the transactions of a sender. *)

From stdpp Require Import prelude gmap list countable.
From S2P Require Import Prelude.
From S2P Require Import Ord.

(** [Address] (20 bytes) is only compared and hashed by the pool. *)
Abbreviation Address := Z (only parsing).
(** [SenderId] is a newtype of [u64]. *)
Abbreviation SenderId := Z (only parsing).

Record TransactionId := mkTransactionId { sender : SenderId; nonce : Z }.
Add Printing Constructor TransactionId.

#[export] Instance TransactionId_eq_dec : EqDecision TransactionId.
Proof. solve_decision. Defined.

#[export] Instance TransactionId_countable : Countable TransactionId.
Proof.
  apply (inj_countable' (λ i, (sender i, nonce i)) (λ p, mkTransactionId p.1 p.2)).
  by intros [].
Defined.

(** [#[derive(Ord)]]: by sender, then by nonce. *)
#[export] Instance TransactionId_cmp : Cmp TransactionId := lex_cmp sender nonce.
#[export] Instance TransactionId_cmp_ord : CmpOrd TransactionId := lex_cmp_ord sender nonce.
#[export] Instance TransactionId_cmp_leibniz : CmpLeibniz TransactionId.
Proof.
  intros [s1 n1] [s2 n2]. unfold cmp, TransactionId_cmp, lex_cmp, cmp, Z_cmp. simpl.
  destruct (Z.compare_spec s1 s2), (Z.compare_spec n1 n2); simpl; congruence.
Qed.

Lemma tid_cmp_lt s1 n1 s2 n2 :
  cmp (mkTransactionId s1 n1) (mkTransactionId s2 n2) = Lt ↔ s1 < s2 ∨ (s1 = s2 ∧ n1 < n2).
Proof.
  unfold cmp, TransactionId_cmp, lex_cmp, cmp, Z_cmp. simpl.
  destruct (Z.compare_spec s1 s2), (Z.compare_spec n1 n2);
    simpl; (split; [intros [=]; lia || (intros; lia)|lia || done]).
Qed.

Lemma tid_cmp_gt s1 n1 s2 n2 :
  cmp (mkTransactionId s1 n1) (mkTransactionId s2 n2) = Gt ↔ s2 < s1 ∨ (s1 = s2 ∧ n2 < n1).
Proof.
  pose proof (tid_cmp_lt s2 n2 s1 n1) as Hlt.
  rewrite (cmp_opp (mkTransactionId s1 n1)) in Hlt.
  transitivity (CompOpp (cmp (mkTransactionId s1 n1) (mkTransactionId s2 n2)) = Lt);
    [by destruct (cmp _ _)|]. rewrite Hlt. naive_solver.
Qed.

(** [TransactionId::ancestor]. *)
Definition ancestor (transaction_nonce on_chain_nonce : Z) (s : SenderId) : option TransactionId :=
  if bool_decide (on_chain_nonce < transaction_nonce)
  then Some (mkTransactionId s (Z.max (transaction_nonce - 1) 0)) else None.

(** [TransactionId::unchecked_ancestor]. *)
Definition unchecked_ancestor (i : TransactionId) : option TransactionId :=
  if bool_decide (nonce i ≠ 0) then Some (mkTransactionId (sender i) (nonce i - 1)) else None.

(** [TransactionId::next_nonce]: [self.nonce + 1] on [u64]. *)
Definition next_nonce (i : TransactionId) : Z := wrap_u64 (nonce i + 1).

(** [TransactionId::descendant]. *)
Definition descendant (i : TransactionId) : TransactionId :=
  mkTransactionId (sender i) (next_nonce i).

(** [SenderId::start_bound]: [Included] of this identifier. *)
Definition start_bound (s : SenderId) : TransactionId := mkTransactionId s 0.

(** A nonce the protocol allows (EIP-2681): one below the maximum, so that the
    successor does not wrap. *)
Definition nonce_ok (i : TransactionId) : Prop := 0 ≤ nonce i < u64_max.

Lemma next_nonce_ok i : nonce_ok i → next_nonce i = nonce i + 1.
Proof. unfold nonce_ok, next_nonce, u64_max. intros. apply wrap_u64_id. unfold is_u64. lia. Qed.

Lemma ancestor_descendant i :
  nonce_ok i → unchecked_ancestor (descendant i) = Some i.
Proof.
  intros Hi. unfold unchecked_ancestor, descendant. simpl. rewrite next_nonce_ok by done.
  unfold nonce_ok in Hi. rewrite bool_decide_eq_true_2 by lia.
  f_equal. destruct i; simpl. f_equal. lia.
Qed.

Lemma unchecked_ancestor_Some i j :
  unchecked_ancestor i = Some j ↔ nonce i ≠ 0 ∧ j = mkTransactionId (sender i) (nonce i - 1).
Proof.
  unfold unchecked_ancestor. case_bool_decide; naive_solver.
Qed.

Lemma descendant_ancestor i j :
  is_u64 (nonce i) → unchecked_ancestor i = Some j → descendant j = i.
Proof.
  intros Hi [Hne ->]%unchecked_ancestor_Some. unfold descendant, next_nonce. simpl.
  destruct i as [s n]; simpl in *. f_equal.
  replace (n - 1 + 1) with n by lia. by apply wrap_u64_id.
Qed.

(** ** SenderIdentifiers *)
Record SenderIdentifiers := mkSenderIdentifiers {
  si_id : Z;
  address_to_id : gmap Address SenderId;
  sender_to_address : gmap SenderId Address;
}.

Definition SenderIdentifiers_default : SenderIdentifiers := mkSenderIdentifiers 0 ∅ ∅.

(** [SenderIdentifiers::address]. *)
Definition address (t : SenderIdentifiers) (i : SenderId) : option Address :=
  sender_to_address t !! i.

(** [SenderIdentifiers::sender_id]. *)
Definition sender_id (t : SenderIdentifiers) (a : Address) : option SenderId :=
  address_to_id t !! a.

(** [SenderIdentifiers::next_id]: returns the counter and advances it with
    [wrapping_add]. *)
Definition next_id (t : SenderIdentifiers) : SenderId * SenderIdentifiers :=
  (si_id t, mkSenderIdentifiers (wrap_u64 (si_id t + 1)) (address_to_id t) (sender_to_address t)).

(** [SenderIdentifiers::sender_id_or_create]. *)
Definition sender_id_or_create (t : SenderIdentifiers) (a : Address) : SenderId * SenderIdentifiers :=
  match sender_id t a with
  | Some i => (i, t)
  | None =>
    let '(i, t') := next_id t in
    (i, mkSenderIdentifiers (si_id t') (<[a := i]> (address_to_id t')) (<[i := a]> (sender_to_address t')))
  end.

(** The two maps are inverse to each other and every identifier in use is below
    the counter. *)
Record identifiers_wf (t : SenderIdentifiers) : Prop := {
  idwf_u64 : is_u64 (si_id t);
  idwf_inv a i : address_to_id t !! a = Some i ↔ sender_to_address t !! i = Some a;
  idwf_below a i : address_to_id t !! a = Some i → 0 ≤ i < si_id t;
}.

Lemma identifiers_default_wf : identifiers_wf SenderIdentifiers_default.
Proof. by split. Qed.

(** Resolving an address leaves every identifier already assigned in place. *)
Lemma sender_id_or_create_stable t a b i :
  identifiers_wf t → sender_id t b = Some i →
  sender_id (sender_id_or_create t a).2 b = Some i.
Proof.
  intros Hwf Hb. unfold sender_id_or_create.
  destruct (sender_id t a) eqn:Ha; [done|]. simpl. unfold sender_id in *. simpl.
  rewrite lookup_insert_ne; [done|congruence].
Qed.

Lemma sender_id_or_create_wf t a :
  identifiers_wf t → si_id t + 1 < U64 → identifiers_wf (sender_id_or_create t a).2.
Proof.
  intros [Hid Hinv Hlt] Hnw. unfold sender_id_or_create.
  destruct (sender_id t a) eqn:Ha; [by split|]. unfold sender_id in Ha.
  assert (Hw : wrap_u64 (si_id t + 1) = si_id t + 1)
    by (unfold is_u64 in Hid; apply wrap_u64_id; unfold is_u64; lia).
  simpl. unfold is_u64 in Hid. split; simpl; rewrite ?Hw.
  - unfold is_u64; lia.
  - intros b i.
    assert (Hfresh : ∀ c, address_to_id t !! c ≠ Some (si_id t)).
    { intros c Hc. specialize (Hlt c _ Hc). lia. }
    destruct (decide (b = a)) as [->|Hb], (decide (i = si_id t)) as [->|Hi];
      rewrite ?lookup_insert_eq, ?lookup_insert_ne by congruence; try naive_solver.
  - intros b i. destruct (decide (b = a)) as [->|Hb].
    + rewrite lookup_insert_eq. intros [= <-]. lia.
    + rewrite lookup_insert_ne by done. intros Hl. specialize (Hlt b i Hl). lia.
Qed.

Lemma sender_id_or_create_next t a :
  identifiers_wf t → si_id (sender_id_or_create t a).2 ≤ si_id t + 1.
Proof.
  intros [Hid _ _]. unfold sender_id_or_create, is_u64 in *.
  destruct (sender_id t a); simpl; [lia|].
  unfold wrap_u64. pose proof (Z.mod_le (si_id t + 1) U64). unfold U64 in *. lia.
Qed.

Lemma sender_id_or_create_found t a :
  sender_id (sender_id_or_create t a).2 a = Some (sender_id_or_create t a).1.
Proof.
  unfold sender_id_or_create. destruct (sender_id t a) eqn:E; simpl; [done|].
  unfold sender_id. simpl. apply lookup_insert_eq.
Qed.

(** Only the resolved address is new. *)
Lemma sender_id_or_create_only t a b i :
  sender_id (sender_id_or_create t a).2 b = Some i → b ≠ a → sender_id t b = Some i.
Proof.
  unfold sender_id_or_create. destruct (sender_id t a); simpl; [done|].
  unfold sender_id. simpl. intros Hb Hne. by rewrite lookup_insert_ne in Hb.
Qed.

(** The identifiers handed out for a list of addresses. *)
Fixpoint assign_all (t : SenderIdentifiers) (l : list Address) : list SenderId * SenderIdentifiers :=
  match l with
  | [] => ([], t)
  | a :: l' =>
    let '(i, t1) := sender_id_or_create t a in
    let '(is', t2) := assign_all t1 l' in (i :: is', t2)
  end.

Lemma assign_all_stable t l b i :
  identifiers_wf t → si_id t + Z.of_nat (length l) < U64 → sender_id t b = Some i →
  sender_id (assign_all t l).2 b = Some i.
Proof.
  revert t; induction l as [|a l IH]; intros t Hwf Hl Hb; simpl in *; [done|].
  pose proof (sender_id_or_create_wf t a Hwf ltac:(lia)) as Hwf1.
  pose proof (sender_id_or_create_stable t a b i Hwf Hb) as Hb1.
  pose proof (sender_id_or_create_next t a Hwf) as Hn.
  destruct (sender_id_or_create t a) as [j t1]; simpl in *.
  specialize (IH t1 Hwf1 ltac:(lia) Hb1). by destruct (assign_all t1 l).
Qed.

Lemma assign_all_wf t l :
  identifiers_wf t → si_id t + Z.of_nat (length l) < U64 → identifiers_wf (assign_all t l).2.
Proof.
  revert t; induction l as [|a l IH]; intros t Hwf Hl; simpl in *; [done|].
  pose proof (sender_id_or_create_wf t a Hwf ltac:(lia)) as Hwf1.
  pose proof (sender_id_or_create_next t a Hwf) as Hn.
  destruct (sender_id_or_create t a) as [j t1]; simpl in *.
  specialize (IH t1 Hwf1 ltac:(lia)). by destruct (assign_all t1 l).
Qed.

Lemma assign_all_found t l k a :
  identifiers_wf t → si_id t + Z.of_nat (length l) < U64 → l !! k = Some a →
  sender_id (assign_all t l).2 a = (assign_all t l).1 !! k.
Proof.
  revert t k; induction l as [|b l IH]; intros t k Hwf Hl Hk; simpl in *; [done|].
  pose proof (sender_id_or_create_wf t b Hwf ltac:(lia)) as Hwf1.
  pose proof (sender_id_or_create_next t b Hwf) as Hn.
  pose proof (sender_id_or_create_found t b) as Hf.
  destruct (sender_id_or_create t b) as [j t1]; simpl in *.
  pose proof (assign_all_stable t1 l b j Hwf1 ltac:(lia) Hf) as Hs.
  specialize (IH t1). destruct (assign_all t1 l) as [is' t2]; simpl in *.
  destruct k as [|k]; simpl in *; [by simplify_eq|]. apply IH; [done|lia|done].
Qed.

(** Sender identifiers are unique: for any sequence of addresses resolved
    one after the other against a well-formed table with room left in its 64-bit
    counter, two positions receive the same [SenderId] exactly when they carry the
    same address, and the reverse lookup of each identifier gives the address
    back. *)
Theorem sender_ids_unique t l j k a b i i' :
  identifiers_wf t → si_id t + Z.of_nat (length l) < U64 →
  l !! j = Some a → l !! k = Some b →
  (assign_all t l).1 !! j = Some i → (assign_all t l).1 !! k = Some i' →
  (i = i' ↔ a = b) ∧ address (assign_all t l).2 i = Some a.
Proof.
  intros Hwf Hl Ha Hb Hi Hi'.
  pose proof (assign_all_found t l j a Hwf Hl Ha) as Fa. rewrite Hi in Fa.
  pose proof (assign_all_found t l k b Hwf Hl Hb) as Fb. rewrite Hi' in Fb.
  destruct (assign_all_wf t l Hwf Hl) as [_ Hinv _]. unfold sender_id, address in *.
  split; [|by apply Hinv]. split; [|naive_solver].
  intros ->. apply Hinv in Fa, Fb. congruence.
Qed.

Lemma sender_ids_unique_witness :
  (0 = 1 ↔ 7 = 9) ∧ address (assign_all SenderIdentifiers_default [7; 9; 7]).2 0 = Some 7.
Proof.
  apply (sender_ids_unique SenderIdentifiers_default [7; 9; 7] 2 1 7 9 0 1);
    [apply identifiers_default_wf|by vm_compute..].
Defined.
