(* ===== verification/State.v ===== *)
(** * Transaction state flags and sub-pools

    [reth/crates/transaction-pool/src/pool/state.rs] and [pool/update.rs].  A
    [TxState] is the [u8] of the [bitflags!] type: [st_insert], [st_remove],
    [st_contains] and [st_intersects] are the operations that macro generates. *)

From stdpp Require Import prelude gmap list.
From S2P Require Import Prelude.
From S2P Require Import Ord.
From S2P Require Import Identifier.

Abbreviation TxState := Z (only parsing).

Definition NO_PARKED_ANCESTORS : TxState := 128.
Definition NO_NONCE_GAPS : TxState := 64.
Definition ENOUGH_BALANCE : TxState := 32.
Definition NOT_TOO_MUCH_GAS : TxState := 16.
Definition ENOUGH_FEE_CAP_BLOCK : TxState := 8.
Definition ENOUGH_BLOB_FEE_CAP_BLOCK : TxState := 4.
Definition BLOB_TRANSACTION : TxState := 2.

Definition BASE_FEE_POOL_BITS : TxState :=
  Z.lor (Z.lor (Z.lor NO_PARKED_ANCESTORS NO_NONCE_GAPS) ENOUGH_BALANCE) NOT_TOO_MUCH_GAS.
Definition PENDING_POOL_BITS : TxState :=
  Z.lor (Z.lor BASE_FEE_POOL_BITS ENOUGH_FEE_CAP_BLOCK) ENOUGH_BLOB_FEE_CAP_BLOCK.
Definition QUEUED_POOL_BITS : TxState := NO_PARKED_ANCESTORS.
Definition BLOB_POOL_BITS : TxState := BLOB_TRANSACTION.

Definition st_insert (s f : TxState) : TxState := Z.lor s f.
Definition st_remove (s f : TxState) : TxState := Z.ldiff s f.
Definition st_contains (s f : TxState) : bool := Z.land s f =? f.
Definition st_intersects (s f : TxState) : bool := negb (Z.land s f =? 0).
(** [state.insert(f)] or [state.remove(f)], depending on a condition. *)
Definition st_set (b : bool) (s f : TxState) : TxState :=
  if b then st_insert s f else st_remove s f.

(** [TxState::is_pending]: compares the raw bits. *)
Definition is_pending (s : TxState) : bool := PENDING_POOL_BITS <=? s.
Definition is_blob (s : TxState) : bool := st_contains s BLOB_TRANSACTION.
Definition has_nonce_gap (s : TxState) : bool := negb (st_intersects s NO_NONCE_GAPS).

Inductive SubPool := Queued | BaseFee | Blob | Pending.

#[export] Instance SubPool_eq_dec : EqDecision SubPool.
Proof. solve_decision. Defined.

(** The [#[repr(u8)]] discriminant, which the derived order compares. *)
Definition SubPool_repr (p : SubPool) : Z :=
  match p with Queued => 0 | BaseFee => 1 | Blob => 2 | Pending => 3 end.

(** [SubPool::is_promoted]. *)
Definition is_promoted (p other : SubPool) : bool := SubPool_repr other <? SubPool_repr p.

(** [impl From<TxState> for SubPool]. *)
Definition subpool_of (s : TxState) : SubPool :=
  if is_pending s then Pending
  else if is_blob s then Blob
  else if s <? BASE_FEE_POOL_BITS then Queued
  else BaseFee.

(** [pool/update.rs]. *)
Inductive Destination := Discard | Pool (p : SubPool).

#[export] Instance Destination_eq_dec : EqDecision Destination.
Proof. solve_decision. Defined.

Record PoolUpdate := mkPoolUpdate {
  pu_id : TransactionId;
  pu_hash : Z;
  pu_current : SubPool;
  pu_destination : Destination;
}.

(** The states the flags generate: bit 0 of the [u8] is never set. *)
Definition tx_state_ok (s : TxState) : Prop := 0 ≤ s < 256 ∧ Z.even s = true.

Definition all_states : list TxState := (λ n, 2 * Z.of_nat n) <$> seq 0 128.

Lemma all_states_complete s : tx_state_ok s → s ∈ all_states.
Proof.
  intros [Hr He]. apply Zeven_bool_iff, Zeven_ex in He as [k ->].
  apply list_elem_of_fmap. exists (Z.to_nat k). split; [lia|].
  apply elem_of_seq. lia.
Qed.

(** Facts about all states are decided by enumeration. *)
Lemma tx_state_check (P : TxState → bool) s :
  forallb P all_states = true → tx_state_ok s → P s = true.
Proof.
  intros Hall Hs%all_states_complete. rewrite forallb_forall in Hall.
  by apply Hall, list_elem_of_In.
Qed.

Definition state_flags : list TxState :=
  [NO_PARKED_ANCESTORS; NO_NONCE_GAPS; ENOUGH_BALANCE; NOT_TOO_MUCH_GAS;
   ENOUGH_FEE_CAP_BLOCK; ENOUGH_BLOB_FEE_CAP_BLOCK].

Ltac by_states s :=
  match goal with
  | H : tx_state_ok s |- ?b = true =>
    let P := constr:(ltac:(let t := eval pattern s in b in
                           match t with ?f _ => exact f end)) in
    exact (tx_state_check P s ltac:(vm_compute; reflexivity) H)
  end.

Definition tx_state_okb (s : TxState) : bool := (0 <=? s) && (s <? 256) && Z.even s.

Lemma tx_state_okb_spec s : tx_state_okb s = true ↔ tx_state_ok s.
Proof. unfold tx_state_okb, tx_state_ok. rewrite !andb_true_iff, Z.leb_le, Z.ltb_lt. tauto. Qed.

Lemma tx_state_ok_0 : tx_state_ok 0.
Proof. by apply tx_state_okb_spec. Qed.

(** Setting or clearing a flag other than the blob marker keeps a state valid
    and keeps the marker. *)
Lemma st_set_ok b s f :
  f ∈ state_flags → tx_state_ok s → tx_state_ok (st_set b s f) ∧ is_blob (st_set b s f) = is_blob s.
Proof.
  intros Hf Hs.
  assert (Hc : forallb (λ f, forallb (λ b, tx_state_okb (st_set b s f) &&
            Bool.eqb (is_blob (st_set b s f)) (is_blob s)) [true; false]) state_flags = true).
  { by_states s. }
  rewrite forallb_forall in Hc. apply list_elem_of_In, Hc in Hf.
  rewrite forallb_forall in Hf. specialize (Hf b ltac:(destruct b; simpl; auto)).
  rewrite andb_true_iff, tx_state_okb_spec, eqb_true_iff in Hf. done.
Qed.

Lemma st_set_blob s :
  tx_state_ok s → tx_state_ok (st_insert s BLOB_TRANSACTION) ∧
  is_blob (st_insert s BLOB_TRANSACTION) = true.
Proof.
  intros Hs. rewrite <-tx_state_okb_spec.
  assert (Hc : tx_state_okb (st_insert s BLOB_TRANSACTION) &&
            is_blob (st_insert s BLOB_TRANSACTION) = true) by by_states s.
  by rewrite andb_true_iff in Hc.
Qed.

(** The numeric comparisons by which the code derives a transaction's
    sub-pool decide what its documentation says, for each of the 128 states the
    flags can form: the pending sub-pool is chosen exactly when all six
    executability flags are set, otherwise the blob sub-pool exactly for blob
    transactions, otherwise the base-fee sub-pool exactly when the four
    non-fee flags are set, and the queued sub-pool in the remaining cases. *)
Theorem subpool_of_spec s :
  tx_state_ok s →
  subpool_of s =
    if st_contains s NO_PARKED_ANCESTORS && st_contains s NO_NONCE_GAPS &&
       st_contains s ENOUGH_BALANCE && st_contains s NOT_TOO_MUCH_GAS &&
       st_contains s ENOUGH_FEE_CAP_BLOCK && st_contains s ENOUGH_BLOB_FEE_CAP_BLOCK
    then Pending
    else if st_contains s BLOB_TRANSACTION then Blob
    else if st_contains s NO_PARKED_ANCESTORS && st_contains s NO_NONCE_GAPS &&
            st_contains s ENOUGH_BALANCE && st_contains s NOT_TOO_MUCH_GAS
    then BaseFee else Queued.
Proof.
  intros Hs. eapply bool_decide_eq_true_1. by_states s.
Qed.

Lemma subpool_of_spec_witness :
  tx_state_ok 246 ∧ subpool_of 246 = Blob.
Proof.
  split; [by apply tx_state_okb_spec|].
  rewrite (subpool_of_spec 246) by (by apply tx_state_okb_spec). reflexivity.
Defined.

Lemma subpool_of_pending s : subpool_of s = Pending ↔ is_pending s = true.
Proof. unfold subpool_of. destruct (is_pending s), (is_blob s), (s <? BASE_FEE_POOL_BITS); naive_solver. Qed.

Lemma subpool_of_blob s : subpool_of s = Blob → is_blob s = true.
Proof. unfold subpool_of. destruct (is_pending s), (is_blob s), (s <? BASE_FEE_POOL_BITS); naive_solver. Qed.

(** Clearing a fee flag demotes, whatever the other flags are. *)
Lemma st_remove_fee_not_pending s f :
  tx_state_ok s → f = ENOUGH_FEE_CAP_BLOCK ∨ f = ENOUGH_BLOB_FEE_CAP_BLOCK →
  subpool_of (st_remove s f) ≠ Pending.
Proof.
  intros Hs Hf. rewrite subpool_of_pending. apply not_true_iff_false.
  assert (Hc : negb (is_pending (st_remove s ENOUGH_FEE_CAP_BLOCK)) &&
               negb (is_pending (st_remove s ENOUGH_BLOB_FEE_CAP_BLOCK)) = true) by by_states s.
  apply andb_true_iff in Hc as [H1%negb_true_iff H2%negb_true_iff].
  by destruct Hf as [-> | ->].
Qed.
