(* ===== verification/PoolTx.v ===== *)
(** * Transactions, priorities, limits and size accounting

    The types the sub-pools share: [PoolTransaction] ([traits.rs]),
    [ValidPoolTransaction] ([validate/mod.rs]), [Priority] and the ordering trait
    ([ordering.rs]), the pool configuration ([config.rs]) and [SizeTracker]
    ([pool/size.rs]). *)

From stdpp Require Import prelude gmap list.
From S2P Require Import Prelude.
From S2P Require Import Ord.
From S2P Require Import Identifier.
From S2P Require Import State.

Definition EIP4844_TX_TYPE_ID : Z := 3.

(** ** PoolTransaction

    Every method of the trait the pool calls is a pure getter, so a transaction
    is the record of their results. *)
Record PoolTransaction := mkPoolTransaction {
  tx_hash : Z;
  tx_sender : Address;
  tx_nonce : Z;
  tx_cost : Z;
  tx_gas_limit : Z;
  tx_max_fee_per_gas : Z;
  tx_max_priority_fee_per_gas : option Z;
  tx_max_fee_per_blob_gas : option Z;
  tx_size : Z;
  tx_type : Z;
}.

#[export] Instance PoolTransaction_eq_dec : EqDecision PoolTransaction.
Proof. solve_decision. Defined.

(** [PoolTransaction::is_eip4844]. *)
Definition tx_is_eip4844 (t : PoolTransaction) : bool := tx_type t =? EIP4844_TX_TYPE_ID.

(** [Transaction::effective_tip_per_gas(Some(base_fee))]. *)
Definition effective_tip_per_gas (t : PoolTransaction) (base_fee : Z) : option Z :=
  if tx_max_fee_per_gas t <? base_fee then None
  else
    let fee := tx_max_fee_per_gas t - base_fee in
    match tx_max_priority_fee_per_gas t with
    | Some priority_fee => Some (Z.min fee priority_fee)
    | None => Some fee
    end.

Inductive TransactionOrigin := Local | External | Private.

#[export] Instance TransactionOrigin_eq_dec : EqDecision TransactionOrigin.
Proof. solve_decision. Defined.

Definition origin_is_local (o : TransactionOrigin) : bool :=
  match o with Local => true | _ => false end.

(** ** ValidPoolTransaction *)
Record ValidPoolTransaction := mkValidPoolTransaction {
  transaction : PoolTransaction;
  transaction_id : TransactionId;
  propagate : bool;
  timestamp : Z;
  origin : TransactionOrigin;
}.

#[export] Instance ValidPoolTransaction_eq_dec : EqDecision ValidPoolTransaction.
Proof. solve_decision. Defined.

Definition hash (t : ValidPoolTransaction) : Z := tx_hash (transaction t).
Definition vtx_nonce (t : ValidPoolTransaction) : Z := tx_nonce (transaction t).
Definition vtx_sender_id (t : ValidPoolTransaction) : SenderId := sender (transaction_id t).
Definition cost (t : ValidPoolTransaction) : Z := tx_cost (transaction t).
Definition max_fee_per_gas (t : ValidPoolTransaction) : Z := tx_max_fee_per_gas (transaction t).
Definition max_fee_per_blob_gas (t : ValidPoolTransaction) : option Z :=
  tx_max_fee_per_blob_gas (transaction t).
Definition gas_limit (t : ValidPoolTransaction) : Z := tx_gas_limit (transaction t).
Definition vtx_size (t : ValidPoolTransaction) : Z := tx_size (transaction t).
Definition is_eip4844 (t : ValidPoolTransaction) : bool := tx_is_eip4844 (transaction t).
Definition is_local (t : ValidPoolTransaction) : bool := origin_is_local (origin t).
(** [ValidPoolTransaction::tx_type_conflicts_with]. *)
Definition tx_type_conflicts_with (t other : ValidPoolTransaction) : bool :=
  negb (Bool.eqb (is_eip4844 t) (is_eip4844 other)).

(** What [PoolInner::add_transaction] guarantees of the transactions it builds:
    the identifier carries the transaction's own nonce, and the numbers are in
    the range of their types. *)
Record vtx_ok (t : ValidPoolTransaction) : Prop := {
  vtx_ok_nonce : nonce (transaction_id t) = vtx_nonce t;
  vtx_ok_u64 : nonce_ok (transaction_id t);
  vtx_ok_size : is_u64 (vtx_size t);
  vtx_ok_fee : is_u128 (max_fee_per_gas t);
  vtx_ok_blob_fee : is_u128 (default 0 (max_fee_per_blob_gas t));
}.

(** [Option<u128>] comparison [o < Some(x)]: [None] is the least value. *)
Definition opt_lt_some (o : option Z) (x : Z) : bool :=
  match o with None => true | Some y => y <? x end.

(** ** Priority

    [#[derive(PartialOrd, Ord)]] on an enum compares the variants by their
    position: [Value] is declared before [None]. *)
Inductive Priority (T : Type) := Value (v : T) | PNone.
Arguments Value {T} v.
Arguments PNone {T}.

Section priority.
Context {T : Type} `{CmpOrd T}.

#[global] Instance Priority_cmp : Cmp (Priority T) := λ p q,
  match p, q with
  | Value a, Value b => cmp a b
  | Value _, PNone => Lt
  | PNone, Value _ => Gt
  | PNone, PNone => Eq
  end.

#[global] Instance Priority_cmp_ord : CmpOrd (Priority T).
Proof.
  split.
  - intros [a|] [b|]; try done. apply (cmp_opp a b).
  - intros [a|] [b|] [d|]; try done. apply (cmp_lt_trans a b d).
  - intros [a|] [b|] [d|]; try done. apply (cmp_eq_subst a b d).
Qed.

(** [impl From<Option<T>> for Priority<T>]. *)
Definition priority_from (o : option T) : Priority T :=
  match o with Some v => Value v | None => PNone end.
End priority.

(** [trait TransactionOrdering]: the priority type with its total order and the
    scoring function. *)
Class TransactionOrdering := {
  PriorityValue : Type;
  PriorityValue_cmp :: Cmp PriorityValue;
  PriorityValue_ord :: CmpOrd PriorityValue;
  priority : PoolTransaction → Z → Priority PriorityValue;
}.

(** [CoinbaseTipOrdering]: the effective tip as a [U256]. *)
#[export] Instance CoinbaseTipOrdering : TransactionOrdering := {|
  PriorityValue := Z;
  priority t base_fee := priority_from (effective_tip_per_gas t base_fee);
|}.

(** ** Configuration *)
Record SubPoolLimit := mkSubPoolLimit { max_txs : Z; max_size : Z }.

(** [SubPoolLimit::is_exceeded]. *)
Definition limit_is_exceeded (l : SubPoolLimit) (txs size : Z) : bool :=
  (max_txs l <? txs) || (max_size l <? size).

Definition TXPOOL_SUBPOOL_MAX_TXS_DEFAULT : Z := 10000.
Definition TXPOOL_SUBPOOL_MAX_SIZE_MB_DEFAULT : Z := 20.
Definition TXPOOL_MAX_ACCOUNT_SLOTS_PER_SENDER : Z := 16.
Definition DEFAULT_PRICE_BUMP : Z := 10.
Definition REPLACE_BLOB_PRICE_BUMP : Z := 100.

Definition SubPoolLimit_default : SubPoolLimit :=
  mkSubPoolLimit TXPOOL_SUBPOOL_MAX_TXS_DEFAULT (TXPOOL_SUBPOOL_MAX_SIZE_MB_DEFAULT * 1024 * 1024).

Record PriceBumpConfig := mkPriceBumpConfig {
  default_price_bump : Z;
  replace_blob_tx_price_bump : Z;
}.

Definition PriceBumpConfig_default : PriceBumpConfig :=
  mkPriceBumpConfig DEFAULT_PRICE_BUMP REPLACE_BLOB_PRICE_BUMP.

(** [PriceBumpConfig::price_bump]. *)
Definition price_bump (c : PriceBumpConfig) (ty : Z) : Z :=
  if ty =? EIP4844_TX_TYPE_ID then replace_blob_tx_price_bump c else default_price_bump c.

Record LocalTransactionConfig := mkLocalTransactionConfig {
  no_exemptions : bool;
  local_addresses : gset Address;
  propagate_local_transactions : bool;
}.

Definition LocalTransactionConfig_default : LocalTransactionConfig :=
  mkLocalTransactionConfig false ∅ true.

(** [LocalTransactionConfig::is_local]. *)
Definition config_is_local (c : LocalTransactionConfig) (o : TransactionOrigin) (a : Address) : bool :=
  if no_exemptions c then false
  else origin_is_local o || bool_decide (a ∈ local_addresses c).

Record PoolConfig := mkPoolConfig {
  pending_limit : SubPoolLimit;
  basefee_limit : SubPoolLimit;
  queued_limit : SubPoolLimit;
  blob_limit : SubPoolLimit;
  cfg_max_account_slots : Z;
  cfg_price_bumps : PriceBumpConfig;
  cfg_local_transactions_config : LocalTransactionConfig;
}.

Definition PoolConfig_default : PoolConfig :=
  mkPoolConfig SubPoolLimit_default SubPoolLimit_default SubPoolLimit_default SubPoolLimit_default
    TXPOOL_MAX_ACCOUNT_SLOTS_PER_SENDER PriceBumpConfig_default LocalTransactionConfig_default.

Record PoolSize := mkPoolSize {
  ps_pending : Z; ps_pending_size : Z;
  ps_blob : Z; ps_blob_size : Z;
  ps_basefee : Z; ps_basefee_size : Z;
  ps_queued : Z; ps_queued_size : Z;
  ps_total : Z;
}.

(** [PoolConfig::is_exceeded]. *)
Definition config_is_exceeded (c : PoolConfig) (s : PoolSize) : bool :=
  limit_is_exceeded (blob_limit c) (ps_blob s) (ps_blob_size s) ||
  limit_is_exceeded (pending_limit c) (ps_pending s) (ps_pending_size s) ||
  limit_is_exceeded (basefee_limit c) (ps_basefee s) (ps_basefee_size s) ||
  limit_is_exceeded (queued_limit c) (ps_queued s) (ps_queued_size s).

(** [BlockInfo] and [BestTransactionsAttributes] ([traits.rs]), [PendingFees]
    ([txpool.rs]). *)
Record BlockInfo := mkBlockInfo {
  bi_last_seen_block_hash : Z;
  bi_last_seen_block_number : Z;
  bi_pending_basefee : Z;
  bi_pending_blob_fee : option Z;
}.

Record BestTransactionsAttributes := mkBestTransactionsAttributes {
  basefee : Z;
  blob_fee : option Z;
}.

Record PendingFees := mkPendingFees { pf_base_fee : Z; pf_blob_fee : Z }.

(** ** SizeTracker: an [isize] that wraps. *)
Definition SizeTracker_add (s rhs : Z) : Z := wrap_i64 (s + wrap_i64 rhs).
Definition SizeTracker_sub (s rhs : Z) : Z := wrap_i64 (s - wrap_i64 rhs).
(** [impl From<SizeTracker> for usize]. *)
Definition SizeTracker_usize (s : Z) : Z := wrap_u64 s.

(** The tracker holds a total when it is that total's [isize] reading. *)
Definition tracks (s total : Z) : Prop := s = wrap_i64 total.

Lemma tracks_0 : tracks 0 0.
Proof. done. Qed.

Lemma tracks_add s total x : tracks s total → tracks (SizeTracker_add s x) (x + total).
Proof.
  unfold tracks, SizeTracker_add. intros ->.
  by rewrite wrap_i64_add_l, wrap_i64_add_r, Z.add_comm.
Qed.

Lemma tracks_sub s total x : tracks s (x + total) → tracks (SizeTracker_sub s x) total.
Proof.
  unfold tracks, SizeTracker_sub. intros ->.
  rewrite wrap_i64_sub_r. unfold Z.sub. rewrite wrap_i64_add_l. f_equal. lia.
Qed.

(** What the tracker reports is the true total, as long as that fits a [usize],
    even if the running value passed outside the range of [isize]. *)
Lemma tracks_usize s total : tracks s total → is_u64 total → SizeTracker_usize s = total.
Proof.
  unfold tracks, SizeTracker_usize. intros -> Ht.
  by rewrite wrap_u64_wrap_i64, wrap_u64_id.
Qed.

(** A transaction the ordering has no score for, because its fee cap is below
    the base fee, compares greater than every transaction that has one: in a
    sub-pool ordered by priority it is the best element, not the worst. *)
Theorem missing_priority_ranks_highest t t' base_fee v :
  tx_max_fee_per_gas t < base_fee →
  @priority CoinbaseTipOrdering t' base_fee = Value v →
  cmp (@priority CoinbaseTipOrdering t base_fee) (@priority CoinbaseTipOrdering t' base_fee) = Gt.
Proof.
  intros Hlt Hv. rewrite Hv. simpl.
  assert (effective_tip_per_gas t base_fee = None) as ->; [|done].
  unfold effective_tip_per_gas. by rewrite (proj2 (Z.ltb_lt _ _)).
Qed.

Definition example_tx (h s n fee : Z) : PoolTransaction :=
  mkPoolTransaction h s n 100 21000 fee (Some fee) None 128 2.

Lemma missing_priority_ranks_highest_witness :
  cmp (@priority CoinbaseTipOrdering (example_tx 1 1 0 5) 10)
      (@priority CoinbaseTipOrdering (example_tx 2 2 0 90) 10) = Gt.
Proof.
  apply (missing_priority_ranks_highest (example_tx 1 1 0 5) (example_tx 2 2 0 90) 10 80);
    [simpl; lia|reflexivity].
Defined.

(** Example transactions, for the witnesses. *)
Definition example_vtx (h s n fee : Z) : ValidPoolTransaction :=
  mkValidPoolTransaction (example_tx h s n fee) (mkTransactionId s n) true h External.

Definition example_blob_vtx (h s n fee blobfee : Z) : ValidPoolTransaction :=
  mkValidPoolTransaction (mkPoolTransaction h s n 100 21000 fee (Some fee) (Some blobfee) 128 3)
    (mkTransactionId s n) true h External.

Lemma example_vtx_ok h s n fee :
  0 ≤ n < u64_max → is_u128 fee → vtx_ok (example_vtx h s n fee).
Proof. intros Hn Hf. by split; [done|apply Hn|..]. Qed.

Lemma example_blob_vtx_ok h s n fee blobfee :
  0 ≤ n < u64_max → is_u128 fee → is_u128 blobfee → vtx_ok (example_blob_vtx h s n fee blobfee).
Proof. intros Hn Hf Hb. by split; [done|apply Hn|..]. Qed.
