(* ===== verification/SubPools.v ===== *)
(** * What the four sub-pools have in common

    Walking the entries of a sub-pool in [(sender, nonce)] order and cutting off
    the rest of a sender's transactions at the first one that fails a test; the
    number of transactions of a sender; and the interface ([SubPoolLaws]) through
    which the pool relies on its sub-pools. *)

From stdpp Require Import prelude gmap list sorting.
From S2P Require Import Prelude.
From S2P Require Import Ord.
From S2P Require Import Identifier.
From S2P Require Import State.
From S2P Require Import PoolTx.

(** ** The sender-wise cut

    The loop [while let Some((id, tx)) = iter.next()] with its inner
    [while let Some((peek, _)) = iter.peek()] that skips to the next sender.
    [skip] is the sender being skipped.  The first list holds the entries that
    passed the test, the second one the failing entries and those skipped after
    them. *)
Fixpoint cut_loop {V} (bad : V → bool) (skip : option SenderId) (l : list (TransactionId * V))
  : list (TransactionId * V) * list (TransactionId * V) :=
  match l with
  | [] => ([], [])
  | (id, tx) :: l' =>
    if bool_decide (skip = Some (sender id)) then
      let '(kept, cut) := cut_loop bad skip l' in (kept, (id, tx) :: cut)
    else if bad tx then
      let '(kept, cut) := cut_loop bad (Some (sender id)) l' in (kept, (id, tx) :: cut)
    else
      let '(kept, cut) := cut_loop bad None l' in ((id, tx) :: kept, cut)
  end.

Definition cut_kept {V} (bad : V → bool) (m : gmap TransactionId V) : list (TransactionId * V) :=
  (cut_loop bad None (bmap_iter m)).1.
Definition cut_dropped {V} (bad : V → bool) (m : gmap TransactionId V) : list (TransactionId * V) :=
  (cut_loop bad None (bmap_iter m)).2.

(** A sender's entries [range((sender.start_bound(), Unbounded))] cut by
    [take_while(|(other, _)| sender == other.sender)]. *)
Definition txs_of_sender {V} (s : SenderId) (m : gmap TransactionId V) : list (TransactionId * V) :=
  take_while (λ p, s =? sender p.1) (bmap_range_from (start_bound s) m).

(** The number of entries of a sender. *)
Definition nb_of_sender {V} (s : SenderId) (m : gmap TransactionId V) : Z :=
  Z.of_nat (size (filter (λ p : TransactionId * V, sender p.1 = s) m)).

Lemma StronglySorted_sublist {A} (R : relation A) l k :
  l `sublist_of` k → StronglySorted R k → StronglySorted R l.
Proof.
  induction 1 as [|x l k Hsub IH|x l k Hsub IH]; intros Hs; [constructor| |].
  - inversion Hs as [|? ? Hs' Hf]; subst. constructor; [by apply IH|].
    rewrite Forall_forall in Hf |- *. intros y Hy. apply Hf. by eapply elem_of_sublist.
  - inversion Hs; subst. by apply IH.
Qed.

Section cut.
Context {V : Type} (bad : V → bool).
Implicit Types (m : gmap TransactionId V) (l : list (TransactionId * V)).

Lemma cut_loop_perm skip l :
  (cut_loop bad skip l).1 ++ (cut_loop bad skip l).2 ≡ₚ l.
Proof.
  revert skip; induction l as [|[i v] l IH]; intros skip; simpl; [done|].
  case_bool_decide.
  - specialize (IH skip). destruct (cut_loop bad skip l); simpl in *.
    by rewrite <-Permutation_middle, IH.
  - destruct (bad v).
    + specialize (IH (Some (sender i))). destruct (cut_loop bad _ l); simpl in *.
      by rewrite <-Permutation_middle, IH.
    + specialize (IH None). destruct (cut_loop bad _ l); simpl in *. by rewrite IH.
Qed.

Lemma cut_loop_kept_sublist skip l : (cut_loop bad skip l).1 `sublist_of` l.
Proof.
  revert skip; induction l as [|[i v] l IH]; intros skip; simpl; [done|].
  case_bool_decide.
  - specialize (IH skip). destruct (cut_loop bad skip l); simpl in *. by constructor.
  - destruct (bad v).
    + specialize (IH (Some (sender i))). destruct (cut_loop bad _ l); by constructor.
    + specialize (IH None). destruct (cut_loop bad _ l); by constructor.
Qed.

(** In a strictly ascending list, the kept entries are those all of whose
    predecessors of the same sender, and themselves, pass the test; while
    [skip] is active the skipped sender only has entries at the front. *)
Lemma cut_loop_kept_spec skip l i v :
  StronglySorted key_lt l →
  (∀ s, skip = Some s → ∀ p, p ∈ l → s ≤ sender p.1) →
  (i, v) ∈ (cut_loop bad skip l).1 ↔
    (i, v) ∈ l ∧ skip ≠ Some (sender i) ∧
    ∀ j w, (j, w) ∈ l → sender j = sender i → nonce j ≤ nonce i → bad w = false.
Proof.
  intros Hs. revert skip. induction Hs as [|[j w] l Hl IH Hj]; intros skip Hskip.
  { simpl. rewrite elem_of_nil. naive_solver. }
  assert (Hlt : ∀ p, p ∈ l → sender j < sender p.1 ∨ sender j = sender p.1 ∧ nonce j < nonce p.1).
  { intros p Hp. rewrite Forall_forall in Hj. specialize (Hj p Hp).
    destruct j, p as [[] ?]. by apply tid_cmp_lt in Hj. }
  assert (Hfirst : ∀ p, p ∈ l → sender j ≤ sender p.1).
  { intros p Hp. destruct (Hlt p Hp); lia. }
  simpl. case_bool_decide as Hsk.
  - specialize (IH skip ltac:(naive_solver set_solver)).
    destruct (cut_loop bad skip l) as [k c] eqn:E; simpl in *. rewrite IH, Hsk.
    rewrite elem_of_cons. split.
    + intros (Hi & Hne & Hall). split_and!; [by right|done|].
      intros j' w' [[= -> ->]|Hj']%elem_of_cons; [|by apply Hall].
      intros Heq. congruence.
    + intros ([[= -> ->]|Hi] & Hne & Hall); [congruence|]. split_and!; [done..|].
      intros j' w' Hj'. apply Hall. by right.
  - destruct (bad w) eqn:Hw.
    + specialize (IH (Some (sender j)) ltac:(naive_solver)).
      destruct (cut_loop bad _ l) as [k c] eqn:E; simpl in *. rewrite IH.
      rewrite elem_of_cons. split.
      * intros (Hi & Hne & Hall). split_and!; [by right| |].
        { intros Hs'. specialize (Hskip _ Hs' (j, w) ltac:(left)). simpl in Hskip.
          pose proof (Hfirst _ Hi). simpl in *. assert (sender i = sender j) by lia. congruence. }
        intros j' w' [[= -> ->]|Hj']%elem_of_cons; [congruence|by apply Hall].
      * intros ([[= -> ->]|Hi] & Hne & Hall).
        { specialize (Hall j w ltac:(left) eq_refl ltac:(lia)). congruence. }
        split_and!; [done| |intros j' w' Hj'; apply Hall; by right].
        intros [= Heq]. specialize (Hall j w ltac:(left) Heq).
        destruct (Hlt _ Hi) as [?|[_ ?]]; simpl in *; [lia|].
        rewrite Hall in Hw; [done|lia].
    + specialize (IH None ltac:(done)).
      destruct (cut_loop bad _ l) as [k c] eqn:E; simpl in *. rewrite elem_of_cons, IH, elem_of_cons.
      split.
      * intros [[= -> ->]|(Hi & _ & Hall)].
        { split_and!; [by left|done|].
          intros j' w' [[= -> ->]|Hj']%elem_of_cons; [done|].
          intros ? ?. destruct (Hlt _ Hj'); simpl in *; lia. }
        split_and!; [by right| |].
        { intros Hs'. specialize (Hskip _ Hs' (j, w) ltac:(left)). simpl in Hskip.
          pose proof (Hfirst _ Hi). simpl in *. assert (sender i = sender j) by lia. congruence. }
        intros j' w' [[= -> ->]|Hj']%elem_of_cons; [done|by apply Hall].
      * intros ([?|Hi] & Hne & Hall); [by left|right].
        split_and!; [done..|]. intros j' w' Hj'. apply Hall. by right.
Qed.

(** The entries a cut keeps. *)
Lemma elem_of_cut_kept m i v :
  (i, v) ∈ cut_kept bad m ↔
    m !! i = Some v ∧
    ∀ j w, m !! j = Some w → sender j = sender i → nonce j ≤ nonce i → bad w = false.
Proof.
  unfold cut_kept. rewrite cut_loop_kept_spec; [|apply bmap_iter_sorted|done].
  rewrite elem_of_bmap_iter. setoid_rewrite elem_of_bmap_iter. naive_solver.
Qed.

Lemma cut_perm m : cut_kept bad m ++ cut_dropped bad m ≡ₚ map_to_list m.
Proof. unfold cut_kept, cut_dropped. rewrite cut_loop_perm. apply bmap_iter_perm. Qed.

Lemma cut_kept_sorted m : StronglySorted key_lt (cut_kept bad m).
Proof. eapply StronglySorted_sublist; [apply cut_loop_kept_sublist|apply bmap_iter_sorted]. Qed.

Lemma cut_NoDup m : NoDup (cut_kept bad m ++ cut_dropped bad m).*1.
Proof. rewrite cut_perm. apply NoDup_fst_map_to_list. Qed.

(** The entries a cut drops are the others. *)
Lemma elem_of_cut_dropped m i v :
  (i, v) ∈ cut_dropped bad m ↔
    m !! i = Some v ∧
    ¬ ∀ j w, m !! j = Some w → sender j = sender i → nonce j ≤ nonce i → bad w = false.
Proof.
  pose proof (cut_NoDup m) as Hnd. rewrite fmap_app in Hnd. apply NoDup_app in Hnd as (_ & Hd & _).
  assert (Hin : (i, v) ∈ cut_kept bad m ∨ (i, v) ∈ cut_dropped bad m ↔ m !! i = Some v)
    by (by rewrite <-elem_of_app, cut_perm, elem_of_map_to_list).
  pose proof (elem_of_cut_kept m i v) as Hk. split.
  - intros Hdr. split; [tauto|]. intros Hall.
    apply (Hd i); [apply (list_elem_of_fmap_2 fst _ (i, v)); tauto|].
    by apply (list_elem_of_fmap_2 fst _ (i, v)).
  - intros [Hi Hn]. tauto.
Qed.
End cut.

(** ** The transactions of one sender *)
Section of_sender.
Context {V : Type}.
Implicit Types (m : gmap TransactionId V) (s : SenderId).

Lemma nb_of_sender_insert s m i v :
  m !! i = None →
  nb_of_sender s (<[i := v]> m) = (if bool_decide (sender i = s) then 1 else 0) + nb_of_sender s m.
Proof.
  intros Hi. unfold nb_of_sender. case_bool_decide as Hs.
  - rewrite map_filter_insert_True by done.
    rewrite map_size_insert_None; [lia|]. by apply map_lookup_filter_None; left.
  - rewrite map_filter_insert_False by done. by rewrite delete_id.
Qed.

Lemma nb_of_sender_delete s m i v :
  m !! i = Some v →
  nb_of_sender s m = (if bool_decide (sender i = s) then 1 else 0) + nb_of_sender s (delete i m).
Proof.
  intros Hi. rewrite <-(insert_delete_id m i v) at 1 by done.
  apply nb_of_sender_insert, lookup_delete_eq.
Qed.

Lemma nb_of_sender_empty s : nb_of_sender s (∅ : gmap TransactionId V) = 0.
Proof. unfold nb_of_sender. by rewrite map_filter_empty. Qed.

Lemma nb_of_sender_nonneg s m : 0 ≤ nb_of_sender s m.
Proof. unfold nb_of_sender. lia. Qed.

Lemma nb_of_sender_zero s m :
  nb_of_sender s m = 0 ↔ ∀ i v, m !! i = Some v → sender i ≠ s.
Proof.
  unfold nb_of_sender.
  transitivity (size (filter (λ p : TransactionId * V, sender p.1 = s) m) = 0%nat); [lia|].
  rewrite map_size_empty_iff, map_empty. split.
  - intros Hn i v Hi Hs. specialize (Hn i). apply map_lookup_filter_None in Hn as [Hn|Hn];
      [congruence|by apply (Hn v)].
  - intros Hn i. apply map_lookup_filter_None. right. intros v Hv. by apply (Hn i v).
Qed.

Lemma nb_of_sender_pos s m i v : m !! i = Some v → sender i = s → 0 < nb_of_sender s m.
Proof.
  intros Hi Hs. pose proof (nb_of_sender_nonneg s m).
  destruct (decide (nb_of_sender s m = 0)) as [E|]; [|lia].
  by destruct (proj1 (nb_of_sender_zero s m) E i v Hi).
Qed.

Lemma take_while_prefix_closed {A} (R : relation A) (p : A → bool) l x :
  StronglySorted R l → x ∈ l → p x = true → (∀ y, y ∈ l → R y x → p y = true) →
  x ∈ take_while p l.
Proof.
  induction 1 as [|y l Hl IH Hy]; [done|]. intros Hx Hp Hdown. simpl.
  apply elem_of_cons in Hx as [->|Hx]; [rewrite Hp; by left|].
  rewrite Forall_forall in Hy. rewrite Hdown; [|by left|by apply Hy].
  right. apply IH; [done..|]. intros z Hz. apply Hdown. by right.
Qed.

Lemma StronglySorted_filter {A} (R : relation A) (P : A → Prop) `{∀ x, Decision (P x)} l :
  StronglySorted R l → StronglySorted R (filter P l).
Proof.
  induction 1 as [|y l Hl IH Hy]; [constructor|]. rewrite filter_cons.
  destruct (decide (P y)); [|done]. constructor; [done|].
  rewrite Forall_forall in Hy |- *. intros z Hz. apply Hy.
  by apply list_elem_of_filter in Hz as [_ ?].
Qed.

Lemma StronglySorted_take_while {A} (R : relation A) (p : A → bool) l :
  StronglySorted R l → StronglySorted R (take_while p l).
Proof.
  induction 1 as [|y l Hl IH Hy]; simpl; [constructor|].
  destruct (p y); [|constructor]. constructor; [done|].
  rewrite Forall_forall in Hy |- *. intros z [Hz _]%take_while_incl. by apply Hy.
Qed.

Lemma txs_of_sender_sorted s m : StronglySorted key_lt (txs_of_sender s m).
Proof.
  apply StronglySorted_take_while, StronglySorted_filter, bmap_iter_sorted.
Qed.

Lemma StronglySorted_reverse {A} (R : relation A) l :
  StronglySorted R l → StronglySorted (flip R) (reverse l).
Proof.
  induction 1 as [|x l Hl IH Hx]; [constructor|]. rewrite reverse_cons.
  apply StronglySorted_app_2; [|done|by repeat constructor].
  intros y z Hy ->%list_elem_of_singleton. rewrite elem_of_reverse in Hy.
  rewrite Forall_forall in Hx. exact (Hx y Hy).
Qed.

Lemma elem_of_txs_of_sender_1 s m i v :
  (i, v) ∈ txs_of_sender s m → m !! i = Some v ∧ sender i = s.
Proof.
  intros [Hi Hs]%take_while_incl. apply elem_of_bmap_range_from in Hi as [? _].
  apply Z.eqb_eq in Hs. done.
Qed.

Lemma elem_of_txs_of_sender s m i v :
  0 ≤ nonce i → (i, v) ∈ txs_of_sender s m ↔ m !! i = Some v ∧ sender i = s.
Proof.
  intros Hn. split; [apply elem_of_txs_of_sender_1|]. intros [Hi Hs].
  eapply (take_while_prefix_closed key_lt).
  - apply StronglySorted_filter, bmap_iter_sorted.
  - apply elem_of_bmap_range_from. split; [done|].
    destruct i as [si ni]; simpl in *. unfold start_bound. rewrite tid_cmp_gt. lia.
  - simpl. by apply Z.eqb_eq.
  - intros [j w] Hj Hlt. apply elem_of_bmap_range_from in Hj as [_ Hj].
    apply Z.eqb_eq. destruct i as [si ni], j as [sj nj]; unfold key_lt, start_bound in *; simpl in *.
    rewrite tid_cmp_gt in Hj. rewrite tid_cmp_lt in Hlt. lia.
Qed.

(** The identifiers of a sender from the highest nonce down. *)
Lemma txs_of_sender_reverse_sorted s m :
  StronglySorted (λ i j, nonce j < nonce i) (reverse (txs_of_sender s m).*1).
Proof.
  assert (Hs : StronglySorted (λ i j, nonce i < nonce j) (txs_of_sender s m).*1).
  { assert (Hall : Forall (λ p, sender p.1 = s) (txs_of_sender s m)).
    { apply Forall_forall. intros [i v] [_ Hs]%elem_of_txs_of_sender_1. exact Hs. }
    pose proof (txs_of_sender_sorted s m) as Hsort.
    induction Hsort as [|[i v] l Hl IH Hp]; simpl; [constructor|].
    apply Forall_cons in Hall as [Hi Hall]. constructor; [by apply IH|].
    apply Forall_fmap, Forall_forall. intros [j w] Hj.
    rewrite Forall_forall in Hp, Hall. specialize (Hp _ Hj). specialize (Hall _ Hj).
    destruct i, j; simpl in *. apply tid_cmp_lt in Hp. lia. }
  by apply StronglySorted_reverse in Hs.
Qed.
End of_sender.

Lemma map_difference_delete_r {V} (m0 m : gmap TransactionId V) i t :
  m ⊆ m0 → m !! i = Some t → m0 ∖ delete i m = <[i := t]> (m0 ∖ m).
Proof.
  intros Hsub Hi. apply map_eq. intros j. apply option_eq. intros u.
  rewrite lookup_difference_Some, lookup_delete_None, lookup_insert_Some, lookup_difference_Some.
  pose proof (lookup_weaken _ _ _ _ Hi Hsub).
  destruct (decide (i = j)) as [<-|]; naive_solver.
Qed.

(** ** The index of a sub-pool

    Every sub-pool keeps its entries twice, in a map by identifier and in a set
    ordered by how soon they would be evicted or executed, with the total size of
    the transactions on the side.  [etx] is the transaction of an entry and [esub]
    its submission id, which breaks the ties of the order. *)
Section index.
Context {E : Type} `{CmpOrd E} (etx : E → ValidPoolTransaction) (esub : E → Z).
Implicit Types (m : gmap TransactionId E) (b : list E).

Record index_wf m (n : Z) b (sz : Z) : Prop := {
  iw_key i t : m !! i = Some t → transaction_id (etx t) = i ∧ vtx_ok (etx t);
  iw_sub i t : m !! i = Some t → 0 ≤ esub t < n;
  iw_inj i j t u : m !! i = Some t → m !! j = Some u → esub t = esub u → i = j;
  iw_sorted : bset_wf b;
  iw_best t : t ∈ b ↔ ∃ i, m !! i = Some t;
  iw_size : tracks sz (map_sum (λ t, vtx_size (etx t)) m);
}.

Context (cmp_sub : ∀ t u, cmp t u = Eq → esub t = esub u).

Lemma index_wf_empty : index_wf ∅ 0 [] 0.
Proof using.
  split; try (intros *; rewrite ?lookup_empty; done); [constructor|].
  intros t. rewrite elem_of_nil. setoid_rewrite lookup_empty. naive_solver.
Qed.

Lemma index_wf_distinct m n b sz t :
  index_wf m n b sz → (∃ i, m !! i = Some t) → ∀ u, u ∈ b → cmp t u = Eq → u = t.
Proof using All.
  intros W [i Hi] u [j Hj]%(iw_best _ _ _ _ W) Eq%cmp_sub.
  assert (i = j) as <- by (by eapply (iw_inj _ _ _ _ W)). congruence.
Qed.

(** Adding an entry whose submission id is not in use. *)
Lemma index_wf_insert m n n' b sz e :
  index_wf m n b sz → n ≤ n' → 0 ≤ esub e < n' →
  (∀ j u, m !! j = Some u → esub u ≠ esub e) →
  m !! transaction_id (etx e) = None → vtx_ok (etx e) →
  index_wf (<[transaction_id (etx e) := e]> m) n' (bset_insert e b)
    (SizeTracker_add sz (vtx_size (etx e))).
Proof using All.
  intros W Hn He Hfresh Hnone Hok. split.
  - intros i t [[<- <-]|[_ Ht]]%lookup_insert_Some; [done|by apply (iw_key _ _ _ _ W)].
  - intros i t [[<- <-]|[_ Ht]]%lookup_insert_Some; [lia|].
    apply (iw_sub _ _ _ _ W) in Ht. lia.
  - intros i j t u [[<- <-]|[_ Ht]]%lookup_insert_Some [[<- <-]|[_ Hu]]%lookup_insert_Some E1.
    + done.
    + by destruct (Hfresh _ _ Hu).
    + by destruct (Hfresh _ _ Ht).
    + by eapply (iw_inj _ _ _ _ W).
  - apply bset_insert_wf, W.
  - intros t. rewrite elem_of_bset_insert, (iw_best _ _ _ _ W).
    2:{ intros u [j Hj]%(iw_best _ _ _ _ W) Eq%cmp_sub. by destruct (Hfresh _ _ Hj). }
    setoid_rewrite lookup_insert_Some. split; [|naive_solver].
    intros [->|[i Hi]]; [naive_solver|]. exists i. right. split; [|done]. congruence.
  - rewrite map_sum_insert by done. by apply tracks_add, W.
Qed.

(** Adding an entry with the next submission id. *)
Lemma index_wf_add m n b sz e :
  index_wf m n b sz → 0 ≤ n → esub e = n → m !! transaction_id (etx e) = None → vtx_ok (etx e) →
  index_wf (<[transaction_id (etx e) := e]> m) (n + 1) (bset_insert e b)
    (SizeTracker_add sz (vtx_size (etx e))).
Proof using All.
  intros W Hn He. apply (index_wf_insert m n); [done|lia|lia|].
  intros j u Hj%(iw_sub _ _ _ _ W). lia.
Qed.

Lemma index_wf_remove m n b sz i t :
  index_wf m n b sz → m !! i = Some t →
  index_wf (delete i m) n (bset_remove t b) (SizeTracker_sub sz (vtx_size (etx t))).
Proof using All.
  intros W Hi. split.
  - intros j u [_ Hu]%lookup_delete_Some. by apply (iw_key _ _ _ _ W).
  - intros j u [_ Hu]%lookup_delete_Some. by apply (iw_sub _ _ _ _ W) in Hu.
  - intros j k u v [_ Hu]%lookup_delete_Some [_ Hv]%lookup_delete_Some.
    by eapply (iw_inj _ _ _ _ W).
  - apply bset_remove_wf, W.
  - intros u. rewrite elem_of_bset_remove, (iw_best _ _ _ _ W);
      [|apply W|by eapply index_wf_distinct; eauto].
    setoid_rewrite lookup_delete_Some. split.
    + intros [[j Hj] Hne]. exists j. split; [|done]. intros ->. congruence.
    + intros (j & Hne & Hj). split; [by eauto|]. intros ->. apply Hne.
      by eapply (iw_inj _ _ _ _ W).
  - apply tracks_sub. pose proof (iw_size _ _ _ _ W) as Hsz.
    by rewrite (map_sum_delete _ m i t Hi) in Hsz.
Qed.

(** Recomputing the entries, without touching their transactions and submission
    ids, and collecting the ordered set anew. *)
Lemma index_wf_map m n b sz (f : E → E) :
  index_wf m n b sz → (∀ e, etx (f e) = etx e ∧ esub (f e) = esub e) →
  index_wf (f <$> m) n (bset_collect (f <$> b)) sz.
Proof using All.
  intros W Hf.
  assert (Hin : ∀ t, t ∈ f <$> b ↔ ∃ i, (f <$> m) !! i = Some t).
  { intros t. rewrite list_elem_of_fmap. setoid_rewrite lookup_fmap_Some. split.
    - intros (e & -> & [i Hi]%(iw_best _ _ _ _ W)). eauto.
    - intros (i & e & <- & Hi). exists e. split; [done|]. apply (iw_best _ _ _ _ W). eauto. }
  assert (Hinj : ∀ i j t u, (f <$> m) !! i = Some t → (f <$> m) !! j = Some u →
            esub t = esub u → i = j).
  { intros i j t u (t0 & <- & Ht)%lookup_fmap_Some (u0 & <- & Hu)%lookup_fmap_Some.
    rewrite (proj2 (Hf t0)), (proj2 (Hf u0)). by apply (iw_inj _ _ _ _ W). }
  destruct (bset_collect_spec (f <$> b)) as [Hs He].
  { intros x y [i Hi]%Hin [j Hj]%Hin Hc%cmp_sub.
    assert (i = j) as <- by eauto. congruence. }
  split.
  - intros i t (e & <- & Hi)%lookup_fmap_Some. rewrite (proj1 (Hf e)). by apply (iw_key _ _ _ _ W).
  - intros i t (e & <- & Hi)%lookup_fmap_Some. rewrite (proj2 (Hf e)). by eapply (iw_sub _ _ _ _ W).
  - done.
  - done.
  - intros t. by rewrite He, Hin.
  - rewrite map_sum_fmap. pose proof (iw_size _ _ _ _ W) as Hsz.
    enough (map_sum (λ t, vtx_size (etx t)) m = map_sum ((λ t, vtx_size (etx t)) ∘ f) m) as <- by done.
    apply map_sum_ext. intros i v _. simpl. by rewrite (proj1 (Hf v)).
Qed.
End index.
Arguments iw_key {E _ etx esub m n b sz}.
Arguments iw_sub {E _ etx esub m n b sz}.
Arguments iw_inj {E _ etx esub m n b sz}.
Arguments iw_sorted {E _ etx esub m n b sz}.
Arguments iw_best {E _ etx esub m n b sz}.
Arguments iw_size {E _ etx esub m n b sz}.

(** ** The interface of a sub-pool

    [sp_txs] is the abstract content of a sub-pool, a finite map from identifiers
    to transactions; [sp_inv] its internal invariant; [sp_room] says that its
    64-bit submission counter has not been exhausted; [sp_accepts] the
    precondition a sub-pool puts on the transactions it takes.  The laws say what
    the operations do to the content and that they do not panic. *)
Class SubPoolOps (P : Type) := {
  sp_txs : P → gmap TransactionId ValidPoolTransaction;
  sp_inv : P → Prop;
  sp_sub_id : P → Z;
  sp_accepts : ValidPoolTransaction → Prop;
  sp_add : ValidPoolTransaction → Z → P → outcome P;
  sp_remove : TransactionId → P → outcome (option ValidPoolTransaction * P);
  sp_len : P → Z;
  sp_size : P → Z;
}.

Class SubPoolLaws (P : Type) `{SubPoolOps P} : Prop := {
  sp_key (p : P) i t : sp_inv p → sp_txs p !! i = Some t → transaction_id t = i;
  sp_add_ok (p : P) t fee :
    sp_inv p → sp_sub_id p + 1 < U64 → vtx_ok t → sp_accepts t →
    sp_txs p !! transaction_id t = None →
    ∃ p', sp_add t fee p = Done p' ∧ sp_inv p' ∧ sp_sub_id p' = sp_sub_id p + 1 ∧
          sp_txs p' = <[transaction_id t := t]> (sp_txs p);
  sp_add_dup (p : P) t fee :
    is_Some (sp_txs p !! transaction_id t) → sp_add t fee p = Panics;
  sp_remove_ok (p : P) i :
    sp_inv p →
    ∃ p', sp_remove i p = Done (sp_txs p !! i, p') ∧ sp_inv p' ∧ sp_sub_id p' = sp_sub_id p ∧
          sp_txs p' = delete i (sp_txs p);
  sp_len_ok (p : P) : sp_len p = Z.of_nat (size (sp_txs p));
  sp_size_ok (p : P) :
    sp_inv p → is_u64 (map_sum vtx_size (sp_txs p)) → sp_size p = map_sum vtx_size (sp_txs p);
}.

(** The sub-pool content [m] is split into [removed] and what remains, [m']. *)
Record split_off (m m' : gmap TransactionId ValidPoolTransaction) (removed : list ValidPoolTransaction) : Prop := {
  sf_NoDup : NoDup (transaction_id <$> removed);
  sf_in tx : tx ∈ removed → m !! transaction_id tx = Some tx;
  sf_rest i tx : m' !! i = Some tx ↔ m !! i = Some tx ∧ i ∉ transaction_id <$> removed;
}.

(** Two ways to describe a split: by the identifiers removed in order, and by the
    difference of the contents. *)
Lemma split_off_filter m ids :
  (∀ i tx, m !! i = Some tx → transaction_id tx = i) → NoDup ids → (∀ i, i ∈ ids → is_Some (m !! i)) →
  split_off m (filter (λ x : TransactionId * ValidPoolTransaction, x.1 ∉ ids) m) (omap (λ i, m !! i) ids).
Proof.
  intros Hkey Hnd Hin.
  assert (Hids : transaction_id <$> omap (λ i, m !! i) ids = ids).
  { clear Hnd. induction ids as [|i ids IH]; [done|]. destruct (Hin i ltac:(left)) as [tx Htx].
    simpl. rewrite Htx. simpl. rewrite (Hkey i tx Htx). f_equal. apply IH. intros j Hj. apply Hin. by right. }
  split; rewrite ?Hids.
  - done.
  - intros tx (i & Hi & Htx)%list_elem_of_omap. by rewrite (Hkey i tx Htx).
  - intros i tx. by rewrite map_lookup_filter_Some.
Qed.

Lemma split_off_difference m m' removed :
  (∀ i tx, m !! i = Some tx → transaction_id tx = i) → m' ⊆ m →
  removed ≡ₚ (map_to_list (m ∖ m')).*2 → split_off m m' removed.
Proof.
  intros Hkey Hsub Hr.
  assert (Hids : transaction_id <$> removed ≡ₚ (map_to_list (m ∖ m')).*1).
  { rewrite Hr. enough (transaction_id <$> (map_to_list (m ∖ m')).*2 = (map_to_list (m ∖ m')).*1) as -> by done.
    rewrite <-list_fmap_compose. apply list_fmap_ext. intros n [i tx] Hn%list_elem_of_lookup_2%elem_of_map_to_list.
    apply lookup_difference_Some in Hn as [Hn _]. by apply Hkey. }
  split.
  - rewrite Hids. apply NoDup_fst_map_to_list.
  - intros tx. rewrite Hr, list_elem_of_fmap.
    intros ([i u] & -> & Hi%elem_of_map_to_list). apply lookup_difference_Some in Hi as [Hi _]. simpl.
    by rewrite (Hkey i u Hi).
  - intros i tx. rewrite Hids, list_elem_of_fmap. split.
    + intros Hi. split; [by eapply lookup_weaken|].
      intros ([j u] & -> & Hj%elem_of_map_to_list). apply lookup_difference_Some in Hj as [_ Hj].
      simpl in *. congruence.
    + intros [Hi Hn]. destruct (m' !! i) as [u|] eqn:Hu.
      * apply (lookup_weaken _ m) in Hu; [|done]. congruence.
      * destruct Hn. exists (i, tx). split; [done|]. apply elem_of_map_to_list.
        by apply lookup_difference_Some.
Qed.

Lemma split_off_entries {E} (etx : E → ValidPoolTransaction) (m m' : gmap TransactionId E) removed :
  (∀ i t, m !! i = Some t → transaction_id (etx t) = i) → m' ⊆ m →
  removed ≡ₚ (λ e, etx e.2) <$> map_to_list (m ∖ m') →
  split_off (etx <$> m) (etx <$> m') removed.
Proof.
  intros Hkey Hsub Hr.
  assert (Hd : (etx <$> m) ∖ (etx <$> m') = etx <$> (m ∖ m')).
  { apply map_eq. intros i. apply option_eq. intros tx.
    rewrite lookup_difference_Some, !lookup_fmap, fmap_None, !fmap_Some.
    setoid_rewrite lookup_difference_Some. naive_solver. }
  apply split_off_difference.
  - intros i tx (t & <- & Ht)%lookup_fmap_Some. by apply Hkey.
  - apply map_subseteq_spec. intros i tx (t & <- & Ht)%lookup_fmap_Some.
    apply lookup_fmap_Some. exists t. split; [done|]. by eapply lookup_weaken.
  - rewrite Hr, Hd, map_to_list_fmap, <-list_fmap_compose. done.
Qed.

(** The loop body [removed.push(self.remove_transaction(&id).expect(..))] over an
    arbitrary sub-pool. *)
Definition sp_remove_existing `{SubPoolOps P} (i : TransactionId) (st : list ValidPoolTransaction * P)
  : outcome (list ValidPoolTransaction * P) :=
  '(otx, p) ← sp_remove i st.2;
  tx ← expect otx;
  Done (st.1 ++ [tx], p).

(** Removing a list of distinct entries removes exactly them, in that order. *)
Lemma sp_remove_list `{SubPoolLaws P} (ids : list TransactionId) (acc : list ValidPoolTransaction) (p : P) :
  sp_inv p → NoDup ids → (∀ i, i ∈ ids → is_Some (sp_txs p !! i)) →
  ∃ p', for_each sp_remove_existing ids (acc, p) = Done (acc ++ omap (λ i, sp_txs p !! i) ids, p') ∧
    sp_inv p' ∧ sp_sub_id p' = sp_sub_id p ∧
    sp_txs p' = filter (λ x : TransactionId * ValidPoolTransaction, x.1 ∉ ids) (sp_txs p).
Proof.
  revert acc p; induction ids as [|i ids IH]; intros acc p Hinv Hnd Hin.
  { exists p. simpl. rewrite app_nil_r. split_and!; [done..|].
    symmetry. apply map_filter_id. intros j t _. apply not_elem_of_nil. }
  apply NoDup_cons in Hnd as [Hi Hnd]. destruct (Hin i ltac:(left)) as [t Ht].
  destruct (sp_remove_ok p i Hinv) as (p1 & Hr & Hinv1 & Hs1 & Htx1).
  destruct (IH (acc ++ [t]) p1 Hinv1 Hnd) as (p' & Hf & Hinv' & Hs' & Htx').
  { intros j Hj. rewrite Htx1, lookup_delete_ne by congruence. apply Hin. by right. }
  exists p'. split_and!; [|done|by rewrite Hs'|].
  - assert (sp_remove_existing i (acc, p) = Done (acc ++ [t], p1)) as E
      by (unfold sp_remove_existing; simpl; by rewrite Hr, Ht).
    simpl. rewrite E. simpl. rewrite Hf, Ht.
    f_equal. f_equal. rewrite <-app_assoc. simpl. f_equal. f_equal.
    apply list_omap_ext, Forall_Forall2_diag, Forall_forall. intros j Hj. rewrite Htx1.
    apply lookup_delete_ne. congruence.
  - rewrite Htx', Htx1. apply map_eq. intros j. apply option_eq. intros u.
    rewrite !map_lookup_filter_Some, lookup_delete_Some. simpl. rewrite not_elem_of_cons. naive_solver.
Qed.
