(* ===== verification/Parked.v ===== *)
(** * The parked sub-pools (queued and base-fee)

    [reth/crates/transaction-pool/src/pool/parked.rs]: the generic [ParkedPool]
    with its two orders.  [add_transaction], [remove_transaction],
    [truncate_pool] and [enforce_basefee] are the operations that change it. *)

From stdpp Require Import prelude gmap list sorting.
From S2P Require Import Prelude.
From S2P Require Import Ord.
From S2P Require Import Identifier.
From S2P Require Import State.
From S2P Require Import PoolTx.
From S2P Require Import SubPools.

(** ** Orders on parked transactions *)

(** [trait ParkedOrd]: a wrapper around a transaction with its own [Ord]. *)
Class ParkedOrd := {
  parked_cmp : Cmp ValidPoolTransaction;
  parked_ord : @CmpOrd _ parked_cmp;
}.

(** [impl Ord for BasefeeOrd]. *)
Definition BasefeeOrd_cmp : Cmp ValidPoolTransaction := λ t u,
  (max_fee_per_gas t ?= max_fee_per_gas u)%Z.

(** [impl Ord for QueuedOrd]: both operands of the first comparison are [self]. *)
Definition QueuedOrd_cmp : Cmp ValidPoolTransaction := λ t u,
  then_with (max_fee_per_gas t ?= max_fee_per_gas t)%Z (timestamp u ?= timestamp t)%Z.

Lemma BasefeeOrd_ord : @CmpOrd _ BasefeeOrd_cmp.
Proof.
  split; unfold BasefeeOrd_cmp, cmp; intros.
  - apply Z.compare_antisym.
  - rewrite Z.compare_lt_iff in *. lia.
  - apply Z.compare_eq in H. by rewrite H.
Qed.

Lemma QueuedOrd_ord : @CmpOrd _ QueuedOrd_cmp.
Proof.
  split; unfold QueuedOrd_cmp, cmp; intros; rewrite ?Z.compare_refl in *; simpl in *.
  - apply Z.compare_antisym.
  - rewrite Z.compare_lt_iff in *. lia.
  - apply Z.compare_eq in H. by rewrite H.
Qed.

Definition BasefeeOrd : ParkedOrd := {| parked_ord := BasefeeOrd_ord |}.
Definition QueuedOrd : ParkedOrd := {| parked_ord := QueuedOrd_ord |}.

(** ** Data *)
Record ParkedPoolTransaction := mkParkedPoolTransaction {
  submission_id : Z;
  ptransaction : ValidPoolTransaction;
}.

(** [impl Ord for ParkedPoolTransaction]. *)
#[export] Instance ParkedPoolTransaction_cmp `{ParkedOrd} : Cmp ParkedPoolTransaction := λ t u,
  then_with (parked_cmp (ptransaction t) (ptransaction u)) (submission_id u ?= submission_id t)%Z.

#[export] Instance ParkedPoolTransaction_ord `{PO : ParkedOrd} : CmpOrd ParkedPoolTransaction :=
  @lex_cmp_ord _ _ _ parked_cmp parked_ord (rev_cmp Z_cmp) (rev_cmp_ord Z_cmp Z_cmp_ord)
    ptransaction submission_id.

Record SenderTransactionCount := mkSenderTransactionCount {
  count : Z;
  last_submission_id : Z;
}.

Record SubmissionSenderId := mkSubmissionSenderId {
  ss_sender_id : SenderId;
  ss_submission_id : Z;
}.

(** [impl Ord for SubmissionSenderId]: the reverse order of the submission ids. *)
#[export] Instance SubmissionSenderId_cmp : Cmp SubmissionSenderId := λ a b,
  (ss_submission_id b ?= ss_submission_id a)%Z.

#[export] Instance SubmissionSenderId_ord : CmpOrd SubmissionSenderId.
Proof.
  split; unfold cmp, SubmissionSenderId_cmp; intros.
  - apply Z.compare_antisym.
  - rewrite Z.compare_lt_iff in *. lia.
  - apply Z.compare_eq in H. by rewrite H.
Qed.

Record ParkedPool := mkParkedPool {
  pk_submission_id : Z;
  by_id : gmap TransactionId ParkedPoolTransaction;
  best : list ParkedPoolTransaction;
  last_sender_submission : list SubmissionSenderId;
  sender_transaction_count : gmap SenderId SenderTransactionCount;
  size_of : Z;
}.

(** [impl Default for ParkedPool]. *)
Definition ParkedPool_default : ParkedPool := mkParkedPool 0 ∅ [] [] ∅ 0.

(** [ParkedPool::len], [size], [exceeds], [contains]. *)
Definition len (p : ParkedPool) : Z := Z.of_nat (size (by_id p)).
Definition pool_size (p : ParkedPool) : Z := SizeTracker_usize (size_of p).
Definition exceeds (p : ParkedPool) (limit : SubPoolLimit) : bool :=
  limit_is_exceeded limit (len p) (pool_size p).
Definition contains (p : ParkedPool) (i : TransactionId) : bool := bool_decide (is_Some (by_id p !! i)).

(** [ParkedPool::all]. *)
Definition all (p : ParkedPool) : list ValidPoolTransaction :=
  (λ e, ptransaction e.2) <$> bmap_iter (by_id p).

(** [ParkedPool::next_id]. *)
Definition next_id (p : ParkedPool) : Z * ParkedPool :=
  (pk_submission_id p,
   mkParkedPool (wrap_u64 (pk_submission_id p + 1)) (by_id p) (best p) (last_sender_submission p)
     (sender_transaction_count p) (size_of p)).

(** [ParkedPool::add_sender_count]. *)
Definition add_sender_count (s : SenderId) (sub : Z) (p : ParkedPool) : ParkedPool :=
  let '(lss, counts) :=
    match sender_transaction_count p !! s with
    | Some value =>
      (bset_remove (mkSubmissionSenderId s (last_submission_id value)) (last_sender_submission p),
       <[s := mkSenderTransactionCount (count value + 1) sub]> (sender_transaction_count p))
    | None =>
      (last_sender_submission p,
       <[s := mkSenderTransactionCount 1 sub]> (sender_transaction_count p))
    end in
  mkParkedPool (pk_submission_id p) (by_id p) (best p)
    (bset_insert (mkSubmissionSenderId s sub) lss) counts (size_of p).

(** [ParkedPool::remove_sender_count]: panics when the sender is unknown or its
    last submission is not tracked. *)
Definition remove_sender_count (s : SenderId) (p : ParkedPool) : outcome ParkedPool :=
  match sender_transaction_count p !! s with
  | None => Panics
  | Some value =>
    if count value - 1 =? 0 then
      let key := mkSubmissionSenderId s (last_submission_id value) in
      _ ← assert_ (bset_contains key (last_sender_submission p));
      Done (mkParkedPool (pk_submission_id p) (by_id p) (best p)
              (bset_remove key (last_sender_submission p))
              (delete s (sender_transaction_count p)) (size_of p))
    else
      Done (mkParkedPool (pk_submission_id p) (by_id p) (best p) (last_sender_submission p)
              (<[s := mkSenderTransactionCount (count value - 1) (last_submission_id value)]>
                 (sender_transaction_count p)) (size_of p))
  end.

Section ops.
Context {PO : ParkedOrd}.

(** [ParkedPool::add_transaction]. *)
Definition add_transaction (tx : ValidPoolTransaction) (p : ParkedPool) : outcome ParkedPool :=
  let id := transaction_id tx in
  _ ← assert_ (negb (contains p id));
  let '(sub, p) := next_id p in
  let p := mkParkedPool (pk_submission_id p) (by_id p) (best p) (last_sender_submission p)
             (sender_transaction_count p) (SizeTracker_add (size_of p) (vtx_size tx)) in
  let p := add_sender_count (vtx_sender_id tx) sub p in
  let entry := mkParkedPoolTransaction sub tx in
  Done (mkParkedPool (pk_submission_id p) (<[id := entry]> (by_id p)) (bset_insert entry (best p))
          (last_sender_submission p) (sender_transaction_count p) (size_of p)).

(** [ParkedPool::remove_transaction]. *)
Definition remove_transaction (id : TransactionId) (p : ParkedPool)
  : outcome (option ValidPoolTransaction * ParkedPool) :=
  match by_id p !! id with
  | None => Done (None, p)
  | Some tx =>
    let p := mkParkedPool (pk_submission_id p) (delete id (by_id p)) (bset_remove tx (best p))
               (last_sender_submission p) (sender_transaction_count p) (size_of p) in
    p ← remove_sender_count (vtx_sender_id (ptransaction tx)) p;
    Done (Some (ptransaction tx),
          mkParkedPool (pk_submission_id p) (by_id p) (best p) (last_sender_submission p)
            (sender_transaction_count p) (SizeTracker_sub (size_of p) (vtx_size (ptransaction tx))))
  end.

(** [ParkedPool::get_txs_by_sender]. *)
Definition get_txs_by_sender (s : SenderId) (p : ParkedPool) : list TransactionId :=
  (txs_of_sender s (by_id p)).*1.

(** The inner [for] loop of [truncate_pool], with its [break]. *)
Fixpoint truncate_sender (limit : SubPoolLimit) (ids : list TransactionId)
  (removed : list ValidPoolTransaction) (p : ParkedPool)
  : outcome (list ValidPoolTransaction * ParkedPool) :=
  match ids with
  | [] => Done (removed, p)
  | i :: ids' =>
    '(otx, p) ← remove_transaction i p;
    let removed := removed ++ option_list otx in
    if negb (exceeds p limit) then Done (removed, p)
    else truncate_sender limit ids' removed p
  end.

(** The outer [while] loop of [truncate_pool]. *)
Fixpoint truncate_loop (fuel : nat) (limit : SubPoolLimit) (removed : list ValidPoolTransaction)
  (p : ParkedPool) : outcome (list ValidPoolTransaction * ParkedPool) :=
  if exceeds p limit && negb (bool_decide (last_sender_submission p = [])) then
    match fuel with
    | O => NoFuel
    | S fuel' =>
      e ← expect (last (last_sender_submission p));
      '(removed, p) ← truncate_sender limit (reverse (get_txs_by_sender (ss_sender_id e) p)) removed p;
      truncate_loop fuel' limit removed p
    end
  else Done (removed, p).

(** [ParkedPool::truncate_pool]. *)
Definition truncate_pool (fuel : nat) (limit : SubPoolLimit) (p : ParkedPool)
  : outcome (list ValidPoolTransaction * ParkedPool) :=
  if negb (exceeds p limit) then Done ([], p) else truncate_loop fuel limit [] p.

(** [ParkedPool::<BasefeeOrd>::satisfy_base_fee_ids]. *)
Definition satisfy_base_fee_ids (basefee : Z) (p : ParkedPool) : list TransactionId :=
  (cut_kept (λ t, max_fee_per_gas (ptransaction t) <? basefee) (by_id p)).*1.

(** [ParkedPool::<BasefeeOrd>::satisfy_base_fee_transactions]. *)
Definition satisfy_base_fee_transactions (basefee : Z) (p : ParkedPool)
  : outcome (list ValidPoolTransaction) :=
  for_each (λ i txs, t ← expect (by_id p !! i); Done (txs ++ [ptransaction t]))
    (satisfy_base_fee_ids basefee p) [].

(** The body of the removal loops: [removed.push(self.remove_transaction(&id).expect(..))]. *)
Definition remove_existing (i : TransactionId) (st : list ValidPoolTransaction * ParkedPool)
  : outcome (list ValidPoolTransaction * ParkedPool) :=
  '(otx, p) ← remove_transaction i st.2;
  tx ← expect otx;
  Done (st.1 ++ [tx], p).

(** [ParkedPool::<BasefeeOrd>::enforce_basefee]. *)
Definition enforce_basefee (basefee : Z) (p : ParkedPool)
  : outcome (list ValidPoolTransaction * ParkedPool) :=
  for_each remove_existing (satisfy_base_fee_ids basefee p) ([], p).
End ops.

(** ** Invariant *)

(** The per-sender bookkeeping against the set of entries [m] and the submission
    counter [n]. *)
Record senders_wf (m : gmap TransactionId ParkedPoolTransaction) (n : Z)
  (lss : list SubmissionSenderId) (counts : gmap SenderId SenderTransactionCount) : Prop := {
  sw_sorted : bset_wf lss;
  sw_lss e : e ∈ lss ↔
    ∃ c, counts !! ss_sender_id e = Some c ∧ last_submission_id c = ss_submission_id e;
  sw_count s c : counts !! s = Some c → count c = nb_of_sender s m ∧ 0 < count c;
  sw_none s : counts !! s = None → nb_of_sender s m = 0;
  sw_last s c : counts !! s = Some c → 0 ≤ last_submission_id c < n;
  sw_last_inj s s' c c' : counts !! s = Some c → counts !! s' = Some c' →
    last_submission_id c = last_submission_id c' → s = s';
  sw_last_max i t c : m !! i = Some t → counts !! sender i = Some c →
    submission_id t ≤ last_submission_id c;
}.

Record parked_wf `{PO : ParkedOrd} (p : ParkedPool) : Prop := {
  pw_u64 : is_u64 (pk_submission_id p);
  pw_index : index_wf ptransaction submission_id (by_id p) (pk_submission_id p) (best p) (size_of p);
  pw_senders : senders_wf (by_id p) (pk_submission_id p) (last_sender_submission p)
                 (sender_transaction_count p);
}.

Lemma ss_cmp_eq a b : cmp a b = Eq ↔ ss_submission_id a = ss_submission_id b.
Proof.
  unfold cmp, SubmissionSenderId_cmp. rewrite Z.compare_eq_iff. naive_solver.
Qed.

Lemma ss_eta e : mkSubmissionSenderId (ss_sender_id e) (ss_submission_id e) = e.
Proof. by destruct e. Qed.

Lemma senders_wf_distinct m n lss counts :
  senders_wf m n lss counts →
  ∀ e e', e ∈ lss → e' ∈ lss → cmp e e' = Eq → e' = e.
Proof.
  intros W [s a] [s' a'] (c & Hc & Ha)%(sw_lss _ _ _ _ W) (c' & Hc' & Ha')%(sw_lss _ _ _ _ W).
  rewrite ss_cmp_eq. simpl in *. intros ->.
  f_equal. eapply (sw_last_inj _ _ _ _ W); [done..|congruence].
Qed.

(** The submission set without the entry of one sender. *)
Definition lss_without (s : SenderId) (counts : gmap SenderId SenderTransactionCount)
  (lss : list SubmissionSenderId) : list SubmissionSenderId :=
  match counts !! s with
  | Some c => bset_remove (mkSubmissionSenderId s (last_submission_id c)) lss
  | None => lss
  end.

Lemma lss_without_spec m n lss counts s :
  senders_wf m n lss counts →
  bset_wf (lss_without s counts lss) ∧
  ∀ e, e ∈ lss_without s counts lss ↔ e ∈ lss ∧ ss_sender_id e ≠ s.
Proof.
  intros W. pose proof (senders_wf_distinct _ _ _ _ W) as Hd.
  unfold lss_without. destruct (counts !! s) as [c|] eqn:Hs.
  - assert (Hin : mkSubmissionSenderId s (last_submission_id c) ∈ lss)
      by (apply (sw_lss _ _ _ _ W); simpl; eauto).
    split; [apply bset_remove_wf, W|]. intros e.
    rewrite elem_of_bset_remove; [|apply W|intros y Hy; by apply Hd].
    split; intros [He Hne]; (split; [done|]).
    + intros Hse. apply Hne. destruct e as [s' a]; simpl in *. subst s'.
      apply (sw_lss _ _ _ _ W) in He as (c' & Hc' & Ha). simpl in *.
      rewrite Hs in Hc'. by simplify_eq.
    + by intros ->.
  - split; [apply W|]. intros e. split; [|tauto]. intros He. split; [done|].
    intros Hse. apply (sw_lss _ _ _ _ W) in He as (c' & Hc' & _). congruence.
Qed.

Lemma senders_wf_sub m n lss counts i t :
  senders_wf m n lss counts → m !! i = Some t → submission_id t < n.
Proof.
  intros W Hi. destruct (counts !! sender i) as [c|] eqn:Hc.
  - pose proof (sw_last_max _ _ _ _ W _ _ _ Hi Hc).
    apply (sw_last _ _ _ _ W) in Hc. lia.
  - apply (sw_none _ _ _ _ W) in Hc.
    pose proof (nb_of_sender_pos _ _ _ _ Hi eq_refl). lia.
Qed.

(** Registering a submission keeps the bookkeeping in step with the entries. *)
Lemma senders_wf_add m n lss counts i t :
  senders_wf m n lss counts → m !! i = None → submission_id t = n → 0 ≤ n →
  let s := sender i in
  senders_wf (<[i := t]> m) (n + 1)
    (bset_insert (mkSubmissionSenderId s n) (lss_without s counts lss))
    (<[s := mkSenderTransactionCount
              (match counts !! s with Some c => count c + 1 | None => 1 end) n]> counts).
Proof.
  intros W Hi Ht Hn s. destruct (lss_without_spec m n lss counts s W) as [Holdwf Hold].
  assert (Hnb : ∀ s', nb_of_sender s' (<[i := t]> m) =
    (if bool_decide (s = s') then 1 else 0) + nb_of_sender s' m)
    by (intros; by apply nb_of_sender_insert).
  split.
  - by apply bset_insert_wf.
  - intros e. rewrite elem_of_bset_insert, Hold, (sw_lss _ _ _ _ W).
    2:{ intros y [(c & Hc & Hl)%(sw_lss _ _ _ _ W) _]%Hold E%ss_cmp_eq.
        apply (sw_last _ _ _ _ W) in Hc. simpl in E. lia. }
    destruct (decide (ss_sender_id e = s)) as [Hes|Hne].
    + rewrite Hes, lookup_insert_eq. split; [naive_solver|].
      intros (c & [= <-] & Hl). left. destruct e; simpl in *. by rewrite Hes, Hl.
    + rewrite lookup_insert_ne by done. naive_solver.
  - intros s' c. rewrite Hnb. destruct (decide (s = s')) as [<-|Hne].
    + rewrite lookup_insert_eq, bool_decide_eq_true_2 by done. intros [= <-]. simpl.
      destruct (counts !! s) as [c|] eqn:Hs.
      * apply (sw_count _ _ _ _ W) in Hs. lia.
      * apply (sw_none _ _ _ _ W) in Hs. lia.
    + rewrite lookup_insert_ne, bool_decide_eq_false_2 by done. apply (sw_count _ _ _ _ W).
  - intros s' [Hc Hne]%lookup_insert_None.
    rewrite Hnb, bool_decide_eq_false_2 by done. by apply (sw_none _ _ _ _ W).
  - intros s' c [[<- <-]|[Hne Hc]]%lookup_insert_Some; simpl; [lia|].
    apply (sw_last _ _ _ _ W) in Hc. lia.
  - intros s1 s2 c1 c2 [[<- <-]|[Hne1 Hc1]]%lookup_insert_Some [[<- <-]|[Hne2 Hc2]]%lookup_insert_Some;
      simpl; [done| | |by apply (sw_last_inj _ _ _ _ W)].
    + apply (sw_last _ _ _ _ W) in Hc2. lia.
    + apply (sw_last _ _ _ _ W) in Hc1. lia.
  - intros j u c [[<- <-]|[Hne Hu]]%lookup_insert_Some [[Es <-]|[Hne' Hc]]%lookup_insert_Some; simpl.
    + lia.
    + by destruct Hne'.
    + apply (senders_wf_sub _ _ _ _ _ _ W) in Hu. lia.
    + by eapply (sw_last_max _ _ _ _ W).
Qed.

(** Dropping an entry and decrementing its sender's count. *)
Lemma senders_wf_remove m n lss counts i t c :
  senders_wf m n lss counts → m !! i = Some t → counts !! sender i = Some c →
  let s := sender i in
  senders_wf (delete i m) n
    (if count c - 1 =? 0 then lss_without s counts lss else lss)
    (if count c - 1 =? 0 then delete s counts
     else <[s := mkSenderTransactionCount (count c - 1) (last_submission_id c)]> counts).
Proof.
  intros W Hi Hc s. destruct (lss_without_spec m n lss counts s W) as [Holdwf Hold].
  assert (Hnb : ∀ s', nb_of_sender s' m =
    (if bool_decide (s = s') then 1 else 0) + nb_of_sender s' (delete i m))
    by (intros; by eapply nb_of_sender_delete).
  pose proof (sw_count _ _ _ _ W _ _ Hc) as [Hcnt Hpos]. fold s in Hcnt, Hc.
  pose proof (Hnb s) as Hs. rewrite bool_decide_eq_true_2 in Hs by done.
  destruct (count c - 1 =? 0) eqn:E; [apply Z.eqb_eq in E|apply Z.eqb_neq in E]; split.
  - done.
  - intros e. rewrite Hold, (sw_lss _ _ _ _ W).
    setoid_rewrite lookup_delete_Some. naive_solver.
  - intros s' c' [Hne Hc']%lookup_delete_Some. apply (sw_count _ _ _ _ W) in Hc' as Hc2.
    rewrite Hnb, bool_decide_eq_false_2 in Hc2 by done. lia.
  - intros s' [->|Hc']%lookup_delete_None; [lia|].
    apply (sw_none _ _ _ _ W) in Hc'. rewrite Hnb in Hc'.
    pose proof (nb_of_sender_nonneg s' (delete i m)). case_bool_decide; lia.
  - intros s' c' [_ Hc']%lookup_delete_Some. by eapply (sw_last _ _ _ _ W).
  - intros s1 s2 c1 c2 [_ H1]%lookup_delete_Some [_ H2]%lookup_delete_Some.
    by eapply (sw_last_inj _ _ _ _ W).
  - intros j u c' [_ Hj]%lookup_delete_Some [_ Hc']%lookup_delete_Some.
    by eapply (sw_last_max _ _ _ _ W).
  - apply W.
  - intros e. rewrite (sw_lss _ _ _ _ W). destruct (decide (ss_sender_id e = s)) as [->|Hne].
    + rewrite lookup_insert_eq. fold s. rewrite Hc. naive_solver.
    + by rewrite lookup_insert_ne.
  - intros s' c' [[<- <-]|[Hne Hc']]%lookup_insert_Some; simpl; [lia|].
    apply (sw_count _ _ _ _ W) in Hc' as Hc2.
    rewrite Hnb, bool_decide_eq_false_2 in Hc2 by done. lia.
  - intros s' [Hc' Hne]%lookup_insert_None.
    apply (sw_none _ _ _ _ W) in Hc'. rewrite Hnb, bool_decide_eq_false_2 in Hc' by done. lia.
  - intros s' c' [[<- <-]|[Hne Hc']]%lookup_insert_Some; simpl; by eapply (sw_last _ _ _ _ W).
  - intros s1 s2 c1 c2 [[<- <-]|[_ H1]]%lookup_insert_Some [[<- <-]|[_ H2]]%lookup_insert_Some;
      simpl; first [done|by eapply (sw_last_inj _ _ _ _ W)].
  - intros j u c' [_ Hj]%lookup_delete_Some [[Es <-]|[_ Hc']]%lookup_insert_Some; simpl;
      [|by eapply (sw_last_max _ _ _ _ W)].
    eapply (sw_last_max _ _ _ _ W); [done|]. by rewrite <-Es.
Qed.

Section proofs.
Context {PO : ParkedOrd}.
Implicit Types (p : ParkedPool) (m : gmap TransactionId ParkedPoolTransaction).

Lemma ppt_cmp_eq t u : cmp t u = Eq → submission_id t = submission_id u.
Proof.
  unfold cmp, ParkedPoolTransaction_cmp, then_with.
  destruct (parked_cmp _ _); [|done..]. by intros ->%Z.compare_eq.
Qed.

Lemma parked_default_wf : parked_wf ParkedPool_default.
Proof.
  split; simpl; [done| |].
  - apply index_wf_empty.
  - split; try (intros *; rewrite ?lookup_empty; done); [constructor|].
    intros e. rewrite elem_of_nil. setoid_rewrite lookup_empty. naive_solver.
Qed.

(** [add_transaction] of a transaction that is not in the pool. *)
Lemma parked_add_ok p tx :
  parked_wf p → pk_submission_id p + 1 < U64 → vtx_ok tx → by_id p !! transaction_id tx = None →
  ∃ p', add_transaction tx p = Done p' ∧ parked_wf p' ∧
    pk_submission_id p' = pk_submission_id p + 1 ∧
    by_id p' = <[transaction_id tx := mkParkedPoolTransaction (pk_submission_id p) tx]> (by_id p).
Proof.
  intros [Hu Wi Ws] Hroom Hok Hnone. destruct Hu as [Hu0 Hu1].
  assert (Hw : wrap_u64 (pk_submission_id p + 1) = pk_submission_id p + 1)
    by (apply wrap_u64_id; unfold is_u64; lia).
  unfold add_transaction, contains. rewrite bool_decide_eq_false_2 by (rewrite Hnone; by intros []).
  simpl. eexists. split; [done|].
  pose proof (senders_wf_add _ _ _ _ (transaction_id tx)
    (mkParkedPoolTransaction (pk_submission_id p) tx) Ws Hnone eq_refl Hu0) as Hs.
  pose proof (index_wf_add ptransaction submission_id ppt_cmp_eq _ _ _ _
    (mkParkedPoolTransaction (pk_submission_id p) tx) Wi Hu0 eq_refl Hnone Hok) as Hi.
  unfold add_sender_count, vtx_sender_id, lss_without in *; simpl in *.
  destruct (sender_transaction_count p !! sender (transaction_id tx)) as [c|]; simpl; rewrite Hw;
    (split_and!; [split; simpl; [unfold is_u64; lia|done|done]|done|done]).
Qed.

Lemma parked_add_dup p tx :
  is_Some (by_id p !! transaction_id tx) → add_transaction tx p = Panics.
Proof.
  intros Hs. unfold add_transaction, contains. by rewrite bool_decide_eq_true_2.
Qed.

(** [remove_transaction] never panics and removes exactly the entry. *)
Lemma parked_remove_ok p i :
  parked_wf p →
  ∃ p', remove_transaction i p = Done (ptransaction <$> by_id p !! i, p') ∧ parked_wf p' ∧
    pk_submission_id p' = pk_submission_id p ∧ by_id p' = delete i (by_id p) ∧
    (∀ s c, sender_transaction_count p' !! s = Some c → ∃ c0,
      sender_transaction_count p !! s = Some c0 ∧ last_submission_id c0 = last_submission_id c).
Proof.
  intros [Hu Wi Ws]. unfold remove_transaction.
  destruct (by_id p !! i) as [t|] eqn:Hi; simpl.
  2:{ exists p. rewrite delete_id by done. split_and!; [done|by split|done|done|by eauto]. }
  destruct (iw_key Wi i t Hi) as [Hkey _]. unfold vtx_sender_id. rewrite Hkey.
  destruct (sender_transaction_count p !! sender i) as [c|] eqn:Hc.
  2:{ apply (sw_none _ _ _ _ Ws) in Hc.
      pose proof (nb_of_sender_pos _ _ _ _ Hi eq_refl). lia. }
  pose proof (senders_wf_remove _ _ _ _ i t c Ws Hi Hc) as Hs.
  pose proof (index_wf_remove _ _ ppt_cmp_eq _ _ _ _ i t Wi Hi) as Hx.
  unfold remove_sender_count; simpl. rewrite Hc.
  unfold lss_without in Hs. rewrite Hc in Hs.
  destruct (count c - 1 =? 0); simpl.
  - assert (bset_contains (mkSubmissionSenderId (sender i) (last_submission_id c))
              (last_sender_submission p) = true) as ->.
    { apply bset_contains_spec; [apply Ws|]. eexists. split; [|by apply ss_cmp_eq].
      apply (sw_lss _ _ _ _ Ws). simpl. eauto. }
    simpl. eexists. split_and!; [done|by split|done|done|].
    simpl. intros s c' [_ Hc']%lookup_delete_Some. eauto.
  - eexists. split_and!; [done|by split|done|done|].
    simpl. intros s c' [[<- <-]|[_ Hc']]%lookup_insert_Some; eauto.
Qed.

(** What the pool reports as its length and size. *)
Lemma parked_size_ok p :
  parked_wf p → is_u64 (map_sum (λ t, vtx_size (ptransaction t)) (by_id p)) →
  pool_size p = map_sum (λ t, vtx_size (ptransaction t)) (by_id p).
Proof. intros W. apply tracks_usize, W. Qed.

(** The parked pools as sub-pools. *)
#[local] Instance parked_ops : SubPoolOps ParkedPool := {|
  sp_txs p := ptransaction <$> by_id p;
  sp_inv := parked_wf;
  sp_sub_id := pk_submission_id;
  sp_accepts _ := True;
  sp_add t _ p := add_transaction t p;
  sp_remove := remove_transaction;
  sp_len := len;
  sp_size := pool_size;
|}.

#[local] Instance parked_laws : SubPoolLaws ParkedPool.
Proof.
  split; simpl.
  - intros p i t Hinv. rewrite lookup_fmap_Some. intros (e & <- & He).
    by apply (iw_key (pw_index _ Hinv)) in He as [? _].
  - intros p t _ Hinv Hroom Hok _ Hnone.
    rewrite lookup_fmap, fmap_None in Hnone.
    destruct (parked_add_ok p t Hinv Hroom Hok Hnone) as (p' & -> & Hinv' & Hs & Hb).
    exists p'. split_and!; [done..|]. by rewrite Hb, fmap_insert.
  - intros p t _. rewrite lookup_fmap, fmap_is_Some. apply parked_add_dup.
  - intros p i Hinv. destruct (parked_remove_ok p i Hinv) as (p' & -> & Hinv' & Hs & Hb & _).
    exists p'. rewrite lookup_fmap. split_and!; [done..|]. by rewrite Hb, fmap_delete.
  - intros p. unfold len. by rewrite map_size_fmap.
  - intros p Hinv. rewrite map_sum_fmap. by apply parked_size_ok.
Qed.

(** ** Base fee *)

(** The transactions the base fee admits: every lower nonce of the sender that is
    parked as well can pay it, too. *)
Definition unlocked_by (basefee : Z) (p : ParkedPool) (i : TransactionId) : Prop :=
  ∀ j u, by_id p !! j = Some u → sender j = sender i → nonce j ≤ nonce i →
    basefee ≤ max_fee_per_gas (ptransaction u).

Lemma elem_of_satisfy_base_fee_ids fee p i :
  i ∈ satisfy_base_fee_ids fee p ↔ is_Some (by_id p !! i) ∧ unlocked_by fee p i.
Proof.
  unfold satisfy_base_fee_ids, unlocked_by. rewrite list_elem_of_fmap.
  split.
  - intros ([j t] & -> & [Hi Hall]%elem_of_cut_kept). split; [by eauto|].
    intros j' u Hj Hs Hn. apply Z.ltb_ge. by eapply Hall.
  - intros [[t Ht] Hall]. exists (i, t). split; [done|].
    apply elem_of_cut_kept. split; [done|].
    intros j u Hj Hs Hn. apply Z.ltb_ge. by eapply Hall.
Qed.

Lemma satisfy_base_fee_ids_NoDup fee p : NoDup (satisfy_base_fee_ids fee p).
Proof.
  unfold satisfy_base_fee_ids. eapply sublist_NoDup; [apply (bmap_iter_NoDup (by_id p))|].
  apply fmap_sublist, cut_loop_kept_sublist.
Qed.

(** [enforce_basefee] neither panics nor loses a transaction: it returns
    exactly the transactions unlocked by the new base fee, those that can pay it
    and whose parked predecessors of the same sender all can, and leaves exactly
    the others, with the sub-pool's invariant intact. *)
Theorem enforce_basefee_ok p fee :
  parked_wf p →
  ∃ removed p', enforce_basefee fee p = Done (removed, p') ∧ parked_wf p' ∧
    (∀ t, t ∈ removed ↔ ∃ i e, by_id p !! i = Some e ∧ ptransaction e = t ∧ unlocked_by fee p i) ∧
    (∀ i t, sp_txs p' !! i = Some t ↔ sp_txs p !! i = Some t ∧ ¬ unlocked_by fee p i).
Proof.
  intros Hwf. pose proof (satisfy_base_fee_ids_NoDup fee p) as Hnd.
  destruct (@sp_remove_list ParkedPool parked_ops parked_laws (satisfy_base_fee_ids fee p) [] p Hwf Hnd)
    as (p' & Hf & Hinv' & _ & Htx').
  { intros i Hi. apply elem_of_satisfy_base_fee_ids in Hi as [? _].
    simpl. by rewrite lookup_fmap, fmap_is_Some. }
  eexists _, p'. split; [exact Hf|]. split; [done|]. split.
  - intros t. simpl. rewrite list_elem_of_omap. setoid_rewrite elem_of_satisfy_base_fee_ids.
    setoid_rewrite lookup_fmap_Some. split.
    + intros (i & [_ Hu] & e & <- & He). eauto.
    + intros (i & e & He & <- & Hu). exists i. split; [split; [by eauto|done]|by eauto].
  - intros i t. rewrite Htx', map_lookup_filter_Some. simpl.
    rewrite elem_of_satisfy_base_fee_ids. split; [|naive_solver].
    intros [Hi Hn]. split; [done|]. intros Hu. apply Hn. split; [|done].
    apply lookup_fmap_Some in Hi as (e & _ & He). eauto.
Qed.

(** ** Truncation *)

(** [p] results from [p0] by evictions in the documented order: only the highest
    nonces of a sender are gone, and a sender loses transactions only after every
    sender whose last submission is older has lost all of its own. *)
Record evicted (p0 p : ParkedPool) (removed : list ValidPoolTransaction) : Prop := {
  ev_wf : parked_wf p;
  ev_sub : by_id p ⊆ by_id p0;
  ev_counter : pk_submission_id p = pk_submission_id p0;
  ev_removed : removed ≡ₚ (λ e, ptransaction e.2) <$> map_to_list (by_id p0 ∖ by_id p);
  ev_suffix i j : is_Some (by_id p0 !! i) → is_Some (by_id p !! j) →
    sender i = sender j → nonce i ≤ nonce j → is_Some (by_id p !! i);
  ev_last s c : sender_transaction_count p !! s = Some c → ∃ c0,
    sender_transaction_count p0 !! s = Some c0 ∧ last_submission_id c0 = last_submission_id c;
  ev_order s s' c c' i : sender_transaction_count p0 !! s = Some c →
    sender_transaction_count p0 !! s' = Some c' → last_submission_id c < last_submission_id c' →
    is_Some (by_id p0 !! i) → sender i = s' → by_id p !! i = None →
    nb_of_sender s (by_id p) = 0;
}.

Lemma evicted_refl p : parked_wf p → evicted p p [].
Proof.
  intros W. split; [done|done|done| |naive_solver|naive_solver|].
  - by rewrite map_difference_diag, map_to_list_empty.
  - intros s s' c c' i _ _ _ [t Ht] _ Hn. congruence.
Qed.

(** Evicting one transaction, the highest nonce of the sender with the oldest last
    submission. *)
Lemma evicted_step p0 p removed i t L :
  evicted p0 p removed → by_id p !! i = Some t →
  (∀ j, is_Some (by_id p !! j) → sender j = sender i → nonce j ≤ nonce i) →
  (∀ c, sender_transaction_count p !! sender i = Some c → last_submission_id c = L) →
  (∀ s c, sender_transaction_count p !! s = Some c → L ≤ last_submission_id c) →
  ∃ p', remove_transaction i p = Done (Some (ptransaction t), p') ∧
    by_id p' = delete i (by_id p) ∧ evicted p0 p' (removed ++ [ptransaction t]) ∧
    (∀ s c, sender_transaction_count p' !! s = Some c → L ≤ last_submission_id c) ∧
    (∀ c, sender_transaction_count p' !! sender i = Some c → last_submission_id c = L).
Proof.
  intros E Hi Htop HL Hmin.
  destruct (parked_remove_ok p i (ev_wf _ _ _ E)) as (p' & Hr & Hwf' & Hcnt & Hb & Hlast).
  rewrite Hi in Hr. simpl in Hr. exists p'. split_and!; [done|done| |
    by intros s c (c0 & ? & <-)%Hlast; eauto|by intros c (c0 & ? & <-)%Hlast; eauto].
  split; [done| |by rewrite Hcnt, (ev_counter _ _ _ E)| | | |].
  - rewrite Hb. etrans; [apply delete_subseteq|apply E].
  - rewrite Hb, (map_difference_delete_r _ _ i t) by (done || apply E).
    rewrite map_to_list_insert by (apply lookup_difference_None; right; eauto).
    rewrite (ev_removed _ _ _ E), fmap_cons. simpl.
    by rewrite Permutation_app_comm.
  - intros j k Hj Hk Hs Hn. rewrite Hb in Hk |- *.
    destruct Hk as [u [Hne Hk]%lookup_delete_Some].
    pose proof (ev_suffix _ _ _ E j k Hj ltac:(eauto) Hs Hn) as Hj'.
    rewrite lookup_delete_ne; [done|]. intros <-. destruct Hne.
    assert (nonce i = nonce k) by (pose proof (Htop k ltac:(eauto) ltac:(done)); lia).
    destruct i, k; simpl in *; congruence.
  - intros s c (c1 & (c0 & ? & ?)%(ev_last _ _ _ E) & ?)%Hlast. exists c0. split; [done|congruence].
  - intros s s' c c' j Hs Hs' Hlt Hj Hsj Hgone. rewrite Hb in Hgone.
    assert (Hle : nb_of_sender s (by_id p') ≤ nb_of_sender s (by_id p)).
    { rewrite Hb, (nb_of_sender_delete s (by_id p) i t Hi). case_bool_decide; lia. }
    pose proof (nb_of_sender_nonneg s (by_id p')).
    enough (nb_of_sender s (by_id p) = 0) by lia.
    apply lookup_delete_None in Hgone as [<-|Hgone]; [|by eapply (ev_order _ _ _ E)].
    destruct (sender_transaction_count p !! s) as [c1|] eqn:Hc1;
      [|by apply (sw_none _ _ _ _ (pw_senders _ (ev_wf _ _ _ E)))].
    destruct (sender_transaction_count p !! sender i) as [c2|] eqn:Hc2.
    2:{ apply (sw_none _ _ _ _ (pw_senders _ (ev_wf _ _ _ E))) in Hc2.
        pose proof (nb_of_sender_pos _ _ _ _ Hi eq_refl). lia. }
    pose proof (Hmin _ _ Hc1). pose proof (HL _ eq_refl).
    apply (ev_last _ _ _ E) in Hc1 as (? & ? & ?). apply (ev_last _ _ _ E) in Hc2 as (? & ? & ?).
    simplify_eq. lia.
Qed.

(** The inner loop: [ids] holds the sender's remaining transactions from the
    highest nonce down. *)
Lemma truncate_sender_ok limit p0 s L ids removed p :
  evicted p0 p removed →
  (∀ i, i ∈ ids ↔ is_Some (by_id p !! i) ∧ sender i = s) →
  StronglySorted (λ i j, nonce j < nonce i) ids →
  (∀ c, sender_transaction_count p !! s = Some c → last_submission_id c = L) →
  (∀ s' c, sender_transaction_count p !! s' = Some c → L ≤ last_submission_id c) →
  ∃ removed' p', truncate_sender limit ids removed p = Done (removed', p') ∧ evicted p0 p' removed' ∧
    (ids ≠ [] → size (by_id p') < size (by_id p))%nat ∧ (size (by_id p') ≤ size (by_id p))%nat.
Proof.
  revert removed p; induction ids as [|i ids IH]; intros removed p E Hids Hsort HL Hmin; simpl.
  { eexists _, p. by split_and!. }
  destruct (proj1 (Hids i) ltac:(left)) as [[t Ht] Hs]. subst s.
  inversion Hsort as [|? ? Hsort' Hhd]; subst. rewrite Forall_forall in Hhd.
  destruct (evicted_step p0 p removed i t L E Ht) as (p1 & Hr & Hb & E1 & Hmin1 & HL1); [|done..|].
  { intros j Hj Hsj.
    destruct (proj1 (elem_of_cons ids j i) (proj2 (Hids j) (conj Hj Hsj))) as [->|Hin]; [done|].
    specialize (Hhd j Hin). lia. }
  assert (Hsz : size (by_id p) = S (size (by_id p1))).
  { rewrite Hb, <-(insert_delete_id (by_id p) i t) at 1 by done.
    apply map_size_insert_None, lookup_delete_eq. }
  rewrite Hr. simpl. destruct (exceeds p1 limit); simpl.
  2:{ eexists _, p1. split_and!; [done..|lia|lia]. }
  destruct (IH (removed ++ [ptransaction t]) p1) as (r' & p' & Hf & E' & _ & Hle); [done| |done..|].
  - intros j. rewrite Hb. split.
    + intros Hj. destruct (proj1 (Hids j) ltac:(by right)) as [? ?]. split; [|done].
      rewrite lookup_delete_ne; [done|]. intros <-. specialize (Hhd i Hj). lia.
    + intros [[u [Hne Hu]%lookup_delete_Some] Hsj].
      assert (j ∈ i :: ids) as [->|?]%elem_of_cons by (apply Hids; eauto); done.
  - rewrite Hf. eexists _, p'. split_and!; [done..|lia|lia].
Qed.

Lemma elem_of_get_txs_by_sender p s i :
  parked_wf p → i ∈ get_txs_by_sender s p ↔ is_Some (by_id p !! i) ∧ sender i = s.
Proof.
  intros W. unfold get_txs_by_sender. rewrite list_elem_of_fmap. split.
  - intros ([j t] & -> & [? ?]%elem_of_txs_of_sender_1). eauto.
  - intros [[t Ht] Hs]. exists (i, t). split; [done|].
    destruct (iw_key (pw_index _ W) i t Ht) as [<- Hok].
    apply elem_of_txs_of_sender; [apply Hok|done].
Qed.

(** The sender at the end of the submission set is the one whose last submission
    is the oldest. *)
Lemma last_sender_oldest p e :
  parked_wf p → last (last_sender_submission p) = Some e →
  (∀ c, sender_transaction_count p !! ss_sender_id e = Some c →
    last_submission_id c = ss_submission_id e) ∧
  (∀ s c, sender_transaction_count p !! s = Some c → ss_submission_id e ≤ last_submission_id c) ∧
  0 < nb_of_sender (ss_sender_id e) (by_id p).
Proof.
  intros W He. pose proof (pw_senders _ W) as Ws.
  pose proof (proj1 (sw_lss _ _ _ _ Ws e) (last_Some_elem_of _ _ He)) as (c & Hc & Hl).
  split_and!.
  - intros c' Hc'. by simplify_eq.
  - intros s c' Hc'.
    assert (mkSubmissionSenderId s (last_submission_id c') ∈ last_sender_submission p) as Hin
      by (apply (sw_lss _ _ _ _ Ws); simpl; eauto).
    destruct (bset_last_max _ _ _ (sw_sorted _ _ _ _ Ws) He Hin) as [<-|Hlt]; [simpl; lia|].
    unfold cmp, SubmissionSenderId_cmp in Hlt. simpl in Hlt.
    rewrite Z.compare_lt_iff in Hlt. lia.
  - destruct (sw_count _ _ _ _ Ws _ _ Hc). lia.
Qed.

Lemma truncate_loop_ok fuel limit p0 removed p :
  evicted p0 p removed → (size (by_id p) ≤ fuel)%nat →
  ∃ removed' p', truncate_loop fuel limit removed p = Done (removed', p') ∧ evicted p0 p' removed' ∧
    exceeds p' limit && negb (bool_decide (last_sender_submission p' = [])) = false.
Proof.
  revert removed p; induction fuel as [|fuel IH]; intros removed p E Hfuel; simpl;
    destruct (exceeds p limit && _) eqn:Hc; try by eauto 10.
  all: pose proof (ev_wf _ _ _ E) as W; apply andb_true_iff in Hc as [_ Hc].
  all: apply negb_true_iff, bool_decide_eq_false in Hc.
  all: destruct (last (last_sender_submission p)) as [e|] eqn:He; [|by apply last_None in He].
  all: destruct (last_sender_oldest p e W He) as (HL & Hmin & Hnb).
  - assert (size (by_id p) = 0%nat) as Hz by lia.
    apply map_size_empty_inv in Hz. rewrite Hz, nb_of_sender_empty in Hnb. lia.
  - destruct (truncate_sender_ok limit p0 (ss_sender_id e) (ss_submission_id e)
      (reverse (get_txs_by_sender (ss_sender_id e) p)) removed p)
      as (r1 & p1 & Hts & E1 & Hlt & _); [done| | |done..|].
    { intros i. rewrite elem_of_reverse. by apply elem_of_get_txs_by_sender. }
    { apply txs_of_sender_reverse_sorted. }
    simpl. rewrite Hts. simpl. apply IH; [done|].
    enough (size (by_id p1) < size (by_id p))%nat by lia. apply Hlt.
    intros Hnil. destruct (decide (nb_of_sender (ss_sender_id e) (by_id p) = 0)) as [|Hnz]; [lia|].
    apply Hnz, nb_of_sender_zero. intros i t Hi Hs.
    assert (i ∈ reverse (get_txs_by_sender (ss_sender_id e) p)) as Hin.
    { rewrite elem_of_reverse. apply elem_of_get_txs_by_sender; eauto. }
    rewrite Hnil in Hin. by apply elem_of_nil in Hin.
Qed.

Lemma no_senders_within_limit p limit :
  parked_wf p → last_sender_submission p = [] → 0 ≤ max_txs limit → 0 ≤ max_size limit →
  exceeds p limit = false.
Proof.
  intros W Hnil Ht Hs.
  assert (Hemp : by_id p = ∅).
  { apply map_empty. intros i. destruct (by_id p !! i) as [t|] eqn:Hi; [|done].
    destruct (sender_transaction_count p !! sender i) as [c|] eqn:Hc.
    - assert (mkSubmissionSenderId (sender i) (last_submission_id c) ∈ last_sender_submission p) as Hin
        by (apply (sw_lss _ _ _ _ (pw_senders _ W)); simpl; eauto).
      rewrite Hnil in Hin. by apply elem_of_nil in Hin.
    - apply (sw_none _ _ _ _ (pw_senders _ W)) in Hc.
      pose proof (nb_of_sender_pos _ _ _ _ Hi eq_refl). lia. }
  unfold exceeds, limit_is_exceeded, len.
  rewrite parked_size_ok by (done || by rewrite Hemp, map_sum_empty).
  rewrite Hemp, map_size_empty, map_sum_empty.
  apply orb_false_iff. split; apply Z.ltb_ge; done.
Qed.

Lemma parked_truncated p limit fuel :
  parked_wf p → (size (by_id p) ≤ fuel)%nat → 0 ≤ max_txs limit → 0 ≤ max_size limit →
  ∃ removed p', truncate_pool fuel limit p = Done (removed, p') ∧
    exceeds p' limit = false ∧ evicted p p' removed.
Proof.
  intros W Hfuel Ht Hs. unfold truncate_pool.
  destruct (exceeds p limit) eqn:Hx; simpl.
  2:{ exists [], p. split_and!; [done..|by apply evicted_refl]. }
  destruct (truncate_loop_ok fuel limit p [] p (evicted_refl p W) Hfuel)
    as (r & p' & Hl & E & Hc). exists r, p'. split_and!; [done| |done].
  destruct (exceeds p' limit) eqn:Hx'; [|done]. simpl in Hc.
  apply negb_false_iff, bool_decide_eq_true in Hc.
  rewrite <-Hx'. apply no_senders_within_limit; [apply E|done..].
Qed.

(** Truncating a parked sub-pool to a limit terminates within as many rounds
    as it holds transactions, never panics, and leaves a well-formed sub-pool
    within the limit.  The transactions it returns are exactly those that are
    gone; per sender only the highest nonces are evicted; and a sender loses a
    transaction only if every sender with an older last submission has lost all
    of its own. *)
Theorem parked_truncate_pool_ok p limit fuel :
  parked_wf p → (size (by_id p) ≤ fuel)%nat → 0 ≤ max_txs limit → 0 ≤ max_size limit →
  ∃ removed p', truncate_pool fuel limit p = Done (removed, p') ∧
    exceeds p' limit = false ∧ evicted p p' removed.
Proof. apply parked_truncated. Qed.
(** What the pool needs to know of the two operations that take several
    transactions out. *)
Lemma enforce_basefee_split p fee :
  parked_wf p →
  ∃ removed p', enforce_basefee fee p = Done (removed, p') ∧ parked_wf p' ∧
    pk_submission_id p' = pk_submission_id p ∧ split_off (sp_txs p) (sp_txs p') removed ∧
    (∀ tx, tx ∈ removed → fee ≤ max_fee_per_gas tx).
Proof.
  intros Hwf. assert (Hin : ∀ i, i ∈ satisfy_base_fee_ids fee p → is_Some (sp_txs p !! i)).
  { intros i [? _]%elem_of_satisfy_base_fee_ids. simpl. by rewrite lookup_fmap, fmap_is_Some. }
  destruct (@sp_remove_list ParkedPool parked_ops parked_laws (satisfy_base_fee_ids fee p) [] p Hwf
    (satisfy_base_fee_ids_NoDup fee p) Hin) as (p' & Hf & Hinv' & Hs & Htx').
  eexists _, p'. split; [exact Hf|]. split_and!; [done..| |].
  - rewrite Htx'. apply split_off_filter; [|apply satisfy_base_fee_ids_NoDup|done].
    intros i tx. by apply sp_key.
  - intros tx (i & [_ Hu]%elem_of_satisfy_base_fee_ids & Htx)%list_elem_of_omap. simpl in Htx.
    apply lookup_fmap_Some in Htx as (e & <- & He). by apply (Hu i e).
Qed.

Lemma evicted_split p p' removed :
  parked_wf p → evicted p p' removed → split_off (sp_txs p) (sp_txs p') removed.
Proof.
  intros W E. apply split_off_entries; [|apply E|apply E].
  intros i t Hi. by apply (iw_key (pw_index _ W)).
Qed.
End proofs.

(** ** Witnesses *)

(** Three parked transactions of two senders: sender 1 with nonces 0 and 1, sender
    2 with nonce 0. *)
Definition example_parked : ParkedPool :=
  run_or ParkedPool_default
    (for_each (@add_transaction BasefeeOrd)
       [example_vtx 1 1 0 50; example_vtx 2 1 1 20; example_vtx 3 2 0 40] ParkedPool_default).

Lemma example_parked_wf : @parked_wf BasefeeOrd example_parked.
Proof.
  unfold example_parked, for_each.
  destruct (@parked_add_ok BasefeeOrd ParkedPool_default (example_vtx 1 1 0 50) (@parked_default_wf _))
    as (p1 & -> & W1 & S1 & B1); [done|by apply example_vtx_ok|done|]. cbn [mbind outcome_bind].
  destruct (@parked_add_ok BasefeeOrd p1 (example_vtx 2 1 1 20) W1)
    as (p2 & -> & W2 & S2 & B2); [by rewrite S1|by apply example_vtx_ok|by rewrite B1|].
  cbn [mbind outcome_bind].
  destruct (@parked_add_ok BasefeeOrd p2 (example_vtx 3 2 0 40) W2)
    as (p3 & -> & W3 & S3 & B3); [by rewrite S2, S1|by apply example_vtx_ok|by rewrite B2, B1|].
  done.
Qed.

Lemma enforce_basefee_ok_witness :
  ∃ removed p', @enforce_basefee BasefeeOrd 30 example_parked = Done (removed, p') ∧
    map hash removed = [1; 3].
Proof.
  destruct (@enforce_basefee_ok BasefeeOrd example_parked 30 example_parked_wf) as (r & p' & E & _).
  exists r, p'. split; [exact E|]. vm_compute in E. by injection E as <- _.
Defined.

Lemma parked_truncate_pool_ok_witness :
  ∃ removed p', @truncate_pool BasefeeOrd 3 (mkSubPoolLimit 2 1000) example_parked = Done (removed, p') ∧
    map hash removed = [2] ∧ exceeds p' (mkSubPoolLimit 2 1000) = false.
Proof.
  destruct (@parked_truncate_pool_ok BasefeeOrd example_parked (mkSubPoolLimit 2 1000) 3 example_parked_wf)
    as (r & p' & E & X & _); [vm_compute; lia|done|done|].
  exists r, p'. split; [exact E|]. split; [|exact X]. vm_compute in E. by injection E as <- _.
Defined.
