(* ===== verification/Blob.v ===== *)
(** * The blob sub-pool

    [reth/crates/transaction-pool/src/pool/blob.rs]: blob transactions that are not
    pending, ordered by how many fee jumps separate them from being executable.
    The priority is computed with [f64] arithmetic; it is modelled with the
    executable IEEE-754 specification of the standard library at binary64
    precision. *)

From stdpp Require Import prelude gmap list sorting.
From Stdlib Require Import SpecFloat.
From S2P Require Import Prelude.
From S2P Require Import Ord.
From S2P Require Import Identifier.
From S2P Require Import State.
From S2P Require Import PoolTx.
From S2P Require Import SubPools.

(** ** Floating point *)
Definition f64 : Type := spec_float.
Definition f64_prec : Z := 53.
Definition f64_emax : Z := 1024.
Definition f64_of_Z (n : Z) : f64 := binary_normalize f64_prec f64_emax n 0 false.
Definition f64_div : f64 → f64 → f64 := SFdiv f64_prec f64_emax.
Definition f64_sub : f64 → f64 → f64 := SFsub f64_prec f64_emax.

(** [x as i64], [x.ceil() as i64] and [x.floor() as i64] for the magnitudes that
    occur here, far inside the range of [i64]. *)
Definition f64_trunc (x : f64) : Z :=
  match x with
  | S754_finite s m e => (if s then -1 else 1) * Z.shiftr (Zpos m * 2 ^ Z.max e 0) (Z.max (- e) 0)
  | _ => 0
  end.
Definition f64_floor (x : f64) : Z :=
  match x with
  | S754_finite s m e => Z.shiftr ((if s then -1 else 1) * Zpos m * 2 ^ Z.max e 0) (Z.max (- e) 0)
  | _ => 0
  end.
Definition f64_ceil (x : f64) : Z :=
  match x with
  | S754_finite s m e => - Z.shiftr ((if s then 1 else -1) * Zpos m * 2 ^ Z.max e 0) (Z.max (- e) 0)
  | _ => 0
  end.

(** ** Priorities *)

(** The literal [0.16992500144231237], the closest binary64 number. *)
Definition LOG_2_1_125 : f64 := S754_finite false 6122193385412232 (-55).

(** [ilog2] of an [i64], which panics on a number that is not positive. *)
Definition ilog2 (x : Z) : outcome Z := if 0 <? x then Done (Z.log2 x) else Panics.

(** The number of jumps to a fee, zero for the fee zero. *)
Definition fee_jumps (fee : Z) : f64 :=
  if fee =? 0 then f64_of_Z 0 else f64_div (f64_of_Z (Z.log2 fee)) LOG_2_1_125.

(** [fee_delta]. *)
Definition fee_delta (max_tx_fee current_fee : Z) : outcome Z :=
  if max_tx_fee =? current_fee then Done 0
  else
    let jumps := f64_sub (fee_jumps max_tx_fee) (fee_jumps current_fee) in
    match (f64_trunc jumps ?= 0)%Z with
    | Eq => Done 0
    | Gt => ilog2 (f64_ceil jumps)
    | Lt => Z.opp <$> ilog2 (- f64_floor jumps)
    end.

(** [blob_tx_priority]. *)
Definition blob_tx_priority (blob_fee_cap blob_fee max_priority_fee base_fee : Z) : outcome Z :=
  delta_blob_fee ← fee_delta blob_fee_cap blob_fee;
  delta_priority_fee ← fee_delta max_priority_fee base_fee;
  Done (Z.min (Z.min delta_blob_fee delta_priority_fee) 0).

(** ** Data *)
Record BlobOrd := mkBlobOrd { submission_id : Z; bpriority : Z }.

(** [impl Ord for BlobOrd]: the priorities in reverse, then the submission ids. *)
Definition BlobOrd_cmp (a b : BlobOrd) : comparison :=
  then_with (bpriority b ?= bpriority a)%Z (submission_id a ?= submission_id b)%Z.

Record BlobTransaction := mkBlobTransaction {
  btransaction : ValidPoolTransaction;
  bord : BlobOrd;
}.

(** [impl Ord for BlobTransaction]. *)
#[export] Instance BlobTransaction_cmp : Cmp BlobTransaction := λ a b,
  BlobOrd_cmp (bord a) (bord b).

#[export] Instance BlobTransaction_ord : CmpOrd BlobTransaction :=
  @lex_cmp_ord _ _ _ (rev_cmp Z_cmp) (rev_cmp_ord Z_cmp Z_cmp_ord) Z_cmp Z_cmp_ord
    (λ t, bpriority (bord t)) (λ t, submission_id (bord t)).

(** The arguments with which both callers compute a transaction's priority. *)
Definition priority_of (tx : ValidPoolTransaction) (fees : PendingFees) : outcome Z :=
  blob_tx_priority (pf_blob_fee fees) (default 0 (max_fee_per_blob_gas tx))
    (pf_base_fee fees) (max_fee_per_gas tx).

(** [BlobTransaction::new]. *)
Definition BlobTransaction_new (tx : ValidPoolTransaction) (sub : Z) (fees : PendingFees)
  : outcome BlobTransaction :=
  prio ← priority_of tx fees;
  Done (mkBlobTransaction tx (mkBlobOrd sub prio)).

(** [BlobTransaction::update_priority]. *)
Definition update_priority (fees : PendingFees) (t : BlobTransaction) : outcome BlobTransaction :=
  prio ← priority_of (btransaction t) fees;
  Done (mkBlobTransaction (btransaction t) (mkBlobOrd (submission_id (bord t)) prio)).

Record BlobTransactions := mkBlobTransactions {
  bl_submission_id : Z;
  by_id : gmap TransactionId BlobTransaction;
  all : list BlobTransaction;
  pending_fees : PendingFees;
  size_of : Z;
}.

(** [impl Default for BlobTransactions]; the default blob fee is the protocol
    constant [BLOB_TX_MIN_BLOB_GASPRICE]. *)
Definition BlobTransactions_default (min_blob_gasprice : Z) : BlobTransactions :=
  mkBlobTransactions 0 ∅ [] (mkPendingFees 0 min_blob_gasprice) 0.

Definition len (p : BlobTransactions) : Z := Z.of_nat (size (by_id p)).
Definition pool_size (p : BlobTransactions) : Z := SizeTracker_usize (size_of p).
Definition exceeds (p : BlobTransactions) (limit : SubPoolLimit) : bool :=
  limit_is_exceeded limit (len p) (pool_size p).
Definition contains (p : BlobTransactions) (i : TransactionId) : bool :=
  bool_decide (is_Some (by_id p !! i)).

(** [BlobTransactions::next_id]. *)
Definition next_id (p : BlobTransactions) : Z * BlobTransactions :=
  (bl_submission_id p,
   mkBlobTransactions (wrap_u64 (bl_submission_id p + 1)) (by_id p) (all p) (pending_fees p) (size_of p)).

(** [BlobTransactions::add_transaction]. *)
Definition add_transaction (tx : ValidPoolTransaction) (p : BlobTransactions) : outcome BlobTransactions :=
  _ ← assert_ (is_eip4844 tx);
  let id := transaction_id tx in
  _ ← assert_ (negb (contains p id));
  let '(sub, p) := next_id p in
  let size_of' := SizeTracker_add (size_of p) (vtx_size tx) in
  entry ← BlobTransaction_new tx sub (pending_fees p);
  Done (mkBlobTransactions (bl_submission_id p) (<[id := entry]> (by_id p)) (bset_insert entry (all p))
          (pending_fees p) size_of').

(** [BlobTransactions::remove_transaction]. *)
Definition remove_transaction (id : TransactionId) (p : BlobTransactions)
  : outcome (option ValidPoolTransaction * BlobTransactions) :=
  match by_id p !! id with
  | None => Done (None, p)
  | Some tx =>
    Done (Some (btransaction tx),
          mkBlobTransactions (bl_submission_id p) (delete id (by_id p)) (bset_remove tx (all p))
            (pending_fees p) (SizeTracker_sub (size_of p) (vtx_size (btransaction tx))))
  end.

(** [BlobTransactions::satisfy_attributes]. *)
Definition satisfy_attributes (attrs : BestTransactionsAttributes) (p : BlobTransactions)
  : list ValidPoolTransaction :=
  match blob_fee attrs with
  | None => []
  | Some blob_fee_to_satisfy =>
    (λ e, btransaction e.2) <$>
      cut_kept (λ t, (default 0 (max_fee_per_blob_gas (btransaction t)) <? blob_fee_to_satisfy) ||
                     (max_fee_per_gas (btransaction t) <? basefee attrs)) (by_id p)
  end.

(** [BlobTransactions::satisfy_pending_fee_ids]. *)
Definition satisfy_pending_fee_ids (fees : PendingFees) (p : BlobTransactions) : list TransactionId :=
  (cut_kept (λ t, opt_lt_some (max_fee_per_blob_gas (btransaction t)) (pf_blob_fee fees) ||
                  (max_fee_per_gas (btransaction t) <? pf_base_fee fees)) (by_id p)).*1.

(** Mapping a fallible function over a list or the values of a map. *)
Fixpoint map_outcome {A B} (f : A → outcome B) (l : list A) : outcome (list B) :=
  match l with
  | [] => Done []
  | x :: l' => y ← f x; ys ← map_outcome f l'; Done (y :: ys)
  end.

(** [BlobTransactions::reprioritize]. *)
Definition reprioritize (p : BlobTransactions) : outcome BlobTransactions :=
  all' ← map_outcome (update_priority (pending_fees p)) (all p);
  entries ← map_outcome
    (λ e : TransactionId * BlobTransaction, t ← update_priority (pending_fees p) e.2; Done (e.1, t))
    (bmap_iter (by_id p));
  Done (mkBlobTransactions (bl_submission_id p) (list_to_map entries) (bset_collect all')
          (pending_fees p) (size_of p)).

(** The loop body [removed.push(self.remove_transaction(&id).expect(..))]. *)
Definition remove_existing (i : TransactionId) (st : list ValidPoolTransaction * BlobTransactions)
  : outcome (list ValidPoolTransaction * BlobTransactions) :=
  '(otx, p) ← remove_transaction i st.2;
  tx ← expect otx;
  Done (st.1 ++ [tx], p).

(** [BlobTransactions::enforce_pending_fees]. *)
Definition enforce_pending_fees (fees : PendingFees) (p : BlobTransactions)
  : outcome (list ValidPoolTransaction * BlobTransactions) :=
  '(removed, p) ← for_each remove_existing (satisfy_pending_fee_ids fees p) ([], p);
  p ← reprioritize (mkBlobTransactions (bl_submission_id p) (by_id p) (all p) fees (size_of p));
  Done (removed, p).

(** The [while] loop of [BlobTransactions::truncate_pool]. *)
Fixpoint truncate_loop (fuel : nat) (limit : SubPoolLimit) (removed : list ValidPoolTransaction)
  (p : BlobTransactions) : outcome (list ValidPoolTransaction * BlobTransactions) :=
  if exceeds p limit then
    match fuel with
    | O => NoFuel
    | S fuel' =>
      tx ← expect (last (all p));
      '(removed, p) ← remove_existing (transaction_id (btransaction tx)) (removed, p);
      truncate_loop fuel' limit removed p
    end
  else Done (removed, p).

(** [BlobTransactions::truncate_pool]. *)
Definition truncate_pool (fuel : nat) (limit : SubPoolLimit) (p : BlobTransactions)
  : outcome (list ValidPoolTransaction * BlobTransactions) :=
  truncate_loop fuel limit [] p.

(** ** The fee distance *)

(** The test vectors of [priority_tests] in [blob.rs]. *)
Example fee_delta_vectors :
  (fee_delta 10 7, fee_delta 17200000000 17200000000, fee_delta 11085092510 9853941692,
   fee_delta 10356781100 11544106391, fee_delta 7 17200000000, fee_delta 17200000000 7)
  = (Done 2, Done 0, Done 0, Done 0, Done (-7), Done 7).
Proof. vm_compute. reflexivity. Qed.

(** The binary logarithm the code takes of a fee, zero for the fee zero. *)
Definition fee_log (fee : Z) : Z := if fee =? 0 then 0 else Z.log2 fee.

(** [fee_delta] sees the fees only through the jumps to their logarithms. *)
Definition jumps_delta (a b : f64) : outcome Z :=
  let jumps := f64_sub a b in
  match (f64_trunc jumps ?= 0)%Z with
  | Eq => Done 0
  | Gt => ilog2 (f64_ceil jumps)
  | Lt => Z.opp <$> ilog2 (- f64_floor jumps)
  end.

Definition log_jumps (a : Z) : f64 := f64_div (f64_of_Z a) LOG_2_1_125.

Lemma fee_log_range x : is_u128 x → 0 ≤ fee_log x < 128.
Proof.
  unfold is_u128, fee_log. intros Hx. destruct (x =? 0) eqn:E; [lia|apply Z.eqb_neq in E].
  split; [apply Z.log2_nonneg|]. apply Z.log2_lt_pow2; [lia|]. apply Hx.
Qed.

Lemma fee_jumps_log x : fee_jumps x = log_jumps (fee_log x).
Proof. unfold fee_jumps, fee_log. by destruct (x =? 0). Qed.

(** The least number of steps of 12.5% that multiply a fee by [2 ^ n]. *)
Definition least_jumps (n k : Z) : Prop :=
  0 ≤ k ∧ 2 ^ n * 8 ^ k ≤ 9 ^ k ∧ (∀ k', 0 ≤ k' < k → 9 ^ k' < 2 ^ n * 8 ^ k').

Fixpoint count_jumps (fuel : nat) (target k n8 n9 : Z) : Z :=
  match fuel with
  | O => k
  | S fuel' => if target * n8 <=? n9 then k else count_jumps fuel' target (k + 1) (n8 * 8) (n9 * 9)
  end.

Definition jumps_table : list Z :=
  Eval vm_compute in (λ n, count_jumps 760 (2 ^ Z.of_nat n) 0 1 1) <$> seq 0 128.

Definition jumps_to (n : Z) : Z := nth (Z.to_nat n) jumps_table 0.

Definition log_delta_exact (a b : Z) : Z := Z.sgn (a - b) * Z.log2 (jumps_to (Z.abs (a - b))).

Definition logs : list Z := Z.of_nat <$> seq 0 128.

Lemma elem_of_logs a : 0 ≤ a < 128 → In a logs.
Proof.
  intros Ha. apply list_elem_of_In, list_elem_of_fmap. exists (Z.to_nat a).
  split; [lia|]. apply elem_of_seq. lia.
Qed.

(** The quotients for the 128 logarithms of [u128] fees, evaluated once. *)
Definition log_jumps_table : list (Z * f64) :=
  Eval vm_compute in (λ a, (a, log_jumps a)) <$> logs.

Lemma log_jumps_table_ok : ((λ a, (a, log_jumps a)) <$> logs) = log_jumps_table.
Proof. vm_compute. reflexivity. Qed.

Lemma log_delta_table :
  forallb (λ a, forallb (λ b,
    match jumps_delta a.2 b.2 with Done d => d =? log_delta_exact a.1 b.1 | _ => false end)
    log_jumps_table) log_jumps_table = true.
Proof. vm_compute. reflexivity. Qed.

(** One walk over the powers of 9/8 checks the whole table: [n2], [n8] and [n9]
    are [2 ^ n], [8 ^ k] and [9 ^ k]. *)
Fixpoint check_jumps (fuel : nat) (k n2 n8 n9 : Z) (table : list Z) : bool :=
  match fuel, table with
  | _, [] => true
  | O, _ => false
  | S fuel', j :: table' =>
    if n2 * n8 <=? n9 then (j =? k) && check_jumps fuel' k (2 * n2) n8 n9 table'
    else check_jumps fuel' (k + 1) n2 (8 * n8) (9 * n9) table
  end.

Lemma check_jumps_ok fuel n k table m j :
  check_jumps fuel k (2 ^ n) (8 ^ k) (9 ^ k) table = true → 0 ≤ n → 0 ≤ k →
  (∀ k', 0 ≤ k' < k → 9 ^ k' < 2 ^ n * 8 ^ k') →
  table !! m = Some j → least_jumps (n + Z.of_nat m) j.
Proof.
  revert n k table m; induction fuel as [|fuel IH]; intros n k table m; simpl; [by destruct table|].
  destruct table as [|j' table]; [done|]. destruct (_ <=? _) eqn:E; intros Hc Hn Hk Hlt Hm.
  - apply Z.leb_le in E. apply andb_true_iff in Hc as [Hj%Z.eqb_eq Hc]. subst j'.
    destruct m as [|m]; simpl in Hm.
    + simplify_eq. rewrite Z.add_0_r. by split_and!.
    + replace (n + Z.of_nat (S m)) with (Z.succ n + Z.of_nat m) by lia.
      rewrite <-Z.pow_succ_r in Hc by done. apply (IH _ _ _ _ Hc); [lia|done| |done].
      intros k' Hk'. specialize (Hlt k' Hk'). rewrite Z.pow_succ_r by done.
      pose proof (Z.pow_pos_nonneg 2 n ltac:(lia) Hn).
      pose proof (Z.pow_pos_nonneg 8 k' ltac:(lia) ltac:(lia)). nia.
  - apply Z.leb_gt in E. rewrite <-!Z.pow_succ_r in Hc by done. rewrite Z.add_1_r in Hc.
    apply (IH _ _ _ m Hc); [done|lia| |done].
    intros k' Hk'. destruct (decide (k' = k)) as [->|]; [done|]. apply Hlt. lia.
Qed.

Lemma jumps_to_least n : 0 ≤ n < 128 → least_jumps n (jumps_to n).
Proof.
  intros Hn.
  assert (check_jumps 1000 0 1 1 1 jumps_table = true) as Hc by (vm_compute; reflexivity).
  replace n with (0 + Z.of_nat (Z.to_nat n)) at 1 by lia.
  apply (check_jumps_ok 1000 0 0 jumps_table); [done|lia|lia|lia|].
  unfold jumps_to. rewrite nth_lookup.
  destruct (jumps_table !! Z.to_nat n) eqn:E; [done|].
  apply lookup_ge_None in E. change (length jumps_table) with 128%nat in E. lia.
Qed.

Lemma log_delta_ok a b :
  0 ≤ a < 128 → 0 ≤ b < 128 → jumps_delta (log_jumps a) (log_jumps b) = Done (log_delta_exact a b).
Proof.
  assert (Hin : ∀ a, 0 ≤ a < 128 → In (a, log_jumps a) log_jumps_table).
  { intros c Hc%elem_of_logs. rewrite <-log_jumps_table_ok. by apply in_map_iff; eauto. }
  intros Ha%Hin Hb%Hin. pose proof log_delta_table as Ht. rewrite forallb_forall in Ht.
  specialize (Ht _ Ha). rewrite forallb_forall in Ht. specialize (Ht _ Hb). simpl in Ht.
  destruct (jumps_delta _ _); [|done..]. apply Z.eqb_eq in Ht. by rewrite Ht.
Qed.

Lemma fee_delta_log x y :
  is_u128 x → is_u128 y → fee_delta x y = Done (log_delta_exact (fee_log x) (fee_log y)).
Proof.
  intros Hx%fee_log_range Hy%fee_log_range. unfold fee_delta. destruct (x =? y) eqn:E.
  - apply Z.eqb_eq in E as ->. unfold log_delta_exact. by rewrite Z.sub_diag.
  - rewrite !fee_jumps_log. by apply log_delta_ok.
Qed.

(** The floating-point computation of [fee_delta] is exact: for all [u128]
    fees it returns, without panicking, the sign of the difference of the two
    binary logarithms times the binary logarithm of the least number of 12.5% fee
    steps that bridge that difference. *)
Theorem fee_delta_exact max_tx_fee current_fee :
  is_u128 max_tx_fee → is_u128 current_fee →
  let n := fee_log max_tx_fee - fee_log current_fee in
  ∃ k, least_jumps (Z.abs n) k ∧ fee_delta max_tx_fee current_fee = Done (Z.sgn n * Z.log2 k).
Proof.
  intros Hx Hy n. exists (jumps_to (Z.abs n)). split; [|by apply fee_delta_log].
  apply jumps_to_least. pose proof (fee_log_range _ Hx). pose proof (fee_log_range _ Hy). lia.
Qed.

Lemma fee_delta_exact_witness :
  ∃ k, least_jumps 32 k ∧ fee_delta 7 17200000000 = Done (-1 * Z.log2 k).
Proof. apply (fee_delta_exact 7 17200000000); done. Defined.

(** ** Priorities *)
Definition fees_ok (fees : PendingFees) : Prop :=
  is_u128 (pf_blob_fee fees) ∧ is_u128 (pf_base_fee fees).

(** The exact priority of a transaction. *)
Definition priority_exact (tx : ValidPoolTransaction) (fees : PendingFees) : Z :=
  Z.min (Z.min
    (log_delta_exact (fee_log (pf_blob_fee fees)) (fee_log (default 0 (max_fee_per_blob_gas tx))))
    (log_delta_exact (fee_log (pf_base_fee fees)) (fee_log (max_fee_per_gas tx)))) 0.

Lemma priority_of_exact tx fees :
  vtx_ok tx → fees_ok fees → priority_of tx fees = Done (priority_exact tx fees).
Proof.
  intros Hok [Hb Hf]. unfold priority_of, blob_tx_priority.
  rewrite !fee_delta_log by (done || apply Hok). done.
Qed.

(** A nonzero difference of the logarithms takes at least two jumps. *)
Lemma log_delta_exact_neg a b :
  0 ≤ a < 128 → 0 ≤ b < 128 → log_delta_exact a b < 0 ↔ a < b.
Proof.
  intros Ha Hb. unfold log_delta_exact.
  destruct (decide (a = b)) as [->|Hne]; [rewrite Z.sub_diag; simpl; lia|].
  destruct (jumps_to_least (Z.abs (a - b)) ltac:(lia)) as (H0 & H1 & _).
  set (k := jumps_to _) in *.
  assert (Hpow : 2 ≤ 2 ^ Z.abs (a - b)).
  { change 2 with (2 ^ 1) at 1. apply Z.pow_le_mono_r; lia. }
  assert (2 ≤ k).
  { destruct (decide (k = 0)) as [->|]; [simpl in H1; lia|].
    destruct (decide (k = 1)) as [->|]; [simpl in H1; lia|]. lia. }
  pose proof (Z.log2_pos k ltac:(lia)). nia.
Qed.

(** The priority under which blob transactions are ranked is inverted: both
    callers of [blob_tx_priority] pass the current fees where it expects the
    transaction's caps.  A transaction gets the best priority, zero, exactly when
    the logarithms of both its caps are at most those of the current fees, and a
    negative one, which makes it an eviction candidate, as soon as the
    logarithm of one of its caps exceeds that of the fee. *)
Theorem blob_priority_inverted tx fees :
  vtx_ok tx → fees_ok fees →
  let blob_cap := fee_log (default 0 (max_fee_per_blob_gas tx)) in
  let fee_cap := fee_log (max_fee_per_gas tx) in
  ∃ prio, priority_of tx fees = Done prio ∧ prio ≤ 0 ∧
    (prio = 0 ↔ blob_cap ≤ fee_log (pf_blob_fee fees) ∧ fee_cap ≤ fee_log (pf_base_fee fees)).
Proof.
  intros Hok Hfees blob_cap fee_cap. exists (priority_exact tx fees).
  split; [by apply priority_of_exact|]. unfold priority_exact. split; [lia|].
  pose proof (fee_log_range _ (vtx_ok_fee _ Hok)).
  pose proof (fee_log_range _ (vtx_ok_blob_fee _ Hok)).
  destruct Hfees as [Hb%fee_log_range Hf%fee_log_range].
  pose proof (log_delta_exact_neg (fee_log (pf_blob_fee fees)) blob_cap Hb ltac:(done)).
  pose proof (log_delta_exact_neg (fee_log (pf_base_fee fees)) fee_cap Hf ltac:(done)).
  fold blob_cap fee_cap. lia.
Qed.

Lemma blob_priority_inverted_witness :
  ∃ prio, priority_of (example_blob_vtx 1 1 0 10 5) (mkPendingFees 1000 1000) = Done prio ∧ prio ≤ 0 ∧
    (prio = 0 ↔ 2 ≤ 9 ∧ 3 ≤ 9).
Proof.
  apply (blob_priority_inverted (example_blob_vtx 1 1 0 10 5) (mkPendingFees 1000 1000));
    [by apply example_blob_vtx_ok|done].
Defined.

(** ** Invariant *)
Record blob_wf (p : BlobTransactions) : Prop := {
  bw_u64 : is_u64 (bl_submission_id p);
  bw_index : index_wf btransaction (λ t, submission_id (bord t)) (by_id p) (bl_submission_id p)
               (all p) (size_of p);
  bw_blob i t : by_id p !! i = Some t → is_eip4844 (btransaction t) = true;
  bw_priority i t : by_id p !! i = Some t → bpriority (bord t) = priority_exact (btransaction t) (pending_fees p);
  bw_fees : fees_ok (pending_fees p);
}.

Lemma blob_cmp_eq (t u : BlobTransaction) : cmp t u = Eq → submission_id (bord t) = submission_id (bord u).
Proof.
  unfold cmp, BlobTransaction_cmp, BlobOrd_cmp, then_with.
  destruct (_ ?= _); [|done..]. by intros ->%Z.compare_eq.
Qed.

Lemma blob_default_wf min_blob_gasprice :
  is_u128 min_blob_gasprice → blob_wf (BlobTransactions_default min_blob_gasprice).
Proof.
  intros Hm. split; simpl; [done|apply index_wf_empty| | |by split];
    intros i t; by rewrite lookup_empty.
Qed.

Lemma blob_add_ok p tx :
  blob_wf p → bl_submission_id p + 1 < U64 → vtx_ok tx → is_eip4844 tx = true →
  by_id p !! transaction_id tx = None →
  ∃ p' e, add_transaction tx p = Done p' ∧ blob_wf p' ∧
    bl_submission_id p' = bl_submission_id p + 1 ∧ pending_fees p' = pending_fees p ∧
    btransaction e = tx ∧ by_id p' = <[transaction_id tx := e]> (by_id p).
Proof.
  intros [[Hu0 Hu1] Wi Hblob Hprio Hfees] Hroom Hok H4844 Hnone.
  assert (Hw : wrap_u64 (bl_submission_id p + 1) = bl_submission_id p + 1)
    by (apply wrap_u64_id; unfold is_u64; lia).
  unfold add_transaction, contains, BlobTransaction_new. rewrite H4844. simpl.
  rewrite bool_decide_eq_false_2 by (rewrite Hnone; by intros []). simpl.
  rewrite priority_of_exact by done. simpl. rewrite Hw.
  eexists _, (mkBlobTransaction tx (mkBlobOrd (bl_submission_id p) (priority_exact tx (pending_fees p)))).
  split; [done|]. split_and!; [|done..]. split; simpl.
  - unfold is_u64; lia.
  - apply (index_wf_add btransaction (λ t, submission_id (bord t)) blob_cmp_eq _ _ _ _
      (mkBlobTransaction tx (mkBlobOrd (bl_submission_id p) (priority_exact tx (pending_fees p)))));
      done.
  - intros i t [[_ <-]|[_ Ht]]%lookup_insert_Some; [done|by eapply Hblob].
  - intros i t [[_ <-]|[_ Ht]]%lookup_insert_Some; [done|by eapply Hprio].
  - done.
Qed.

Lemma blob_add_dup p tx :
  is_Some (by_id p !! transaction_id tx) → add_transaction tx p = Panics.
Proof.
  intros Hs. unfold add_transaction, contains. rewrite bool_decide_eq_true_2 by done.
  by destruct (is_eip4844 tx).
Qed.

Lemma blob_remove_ok p i :
  blob_wf p →
  ∃ p', remove_transaction i p = Done (btransaction <$> by_id p !! i, p') ∧ blob_wf p' ∧
    bl_submission_id p' = bl_submission_id p ∧ by_id p' = delete i (by_id p) ∧
    pending_fees p' = pending_fees p ∧
    all p' = match by_id p !! i with Some t => bset_remove t (all p) | None => all p end.
Proof.
  intros W. pose proof W as [Hu Wi Hblob Hprio Hfees]. unfold remove_transaction.
  destruct (by_id p !! i) as [t|] eqn:Hi; simpl.
  2:{ exists p. by rewrite delete_id. }
  eexists. split; [done|]. split_and!; [|done..]. split; simpl; [done| | | |done].
  - by apply (index_wf_remove _ _ blob_cmp_eq _ _ _ _ i t Wi Hi).
  - intros j u [_ Hu']%lookup_delete_Some. by eapply Hblob.
  - intros j u [_ Hu']%lookup_delete_Some. by eapply Hprio.
Qed.

Lemma blob_size_ok p :
  blob_wf p → is_u64 (map_sum (λ t, vtx_size (btransaction t)) (by_id p)) →
  pool_size p = map_sum (λ t, vtx_size (btransaction t)) (by_id p).
Proof. intros W. apply tracks_usize, W. Qed.

(** The blob pool as a sub-pool. *)
#[local] Instance blob_ops : SubPoolOps BlobTransactions := {|
  sp_txs p := btransaction <$> by_id p;
  sp_inv := blob_wf;
  sp_sub_id := bl_submission_id;
  sp_accepts tx := is_eip4844 tx = true;
  sp_add t _ p := add_transaction t p;
  sp_remove := remove_transaction;
  sp_len := len;
  sp_size := pool_size;
|}.

#[local] Instance blob_laws : SubPoolLaws BlobTransactions.
Proof.
  split; simpl.
  - intros p i t Hinv (e & <- & He)%lookup_fmap_Some.
    by apply (iw_key (bw_index _ Hinv)) in He as [? _].
  - intros p t _ Hinv Hroom Hok Hacc Hnone. rewrite lookup_fmap, fmap_None in Hnone.
    destruct (blob_add_ok p t Hinv Hroom Hok Hacc Hnone) as (p' & e & -> & Hinv' & Hs & _ & He & Hb).
    exists p'. split_and!; [done..|]. by rewrite Hb, fmap_insert, He.
  - intros p t _. rewrite lookup_fmap, fmap_is_Some. apply blob_add_dup.
  - intros p i Hinv. destruct (blob_remove_ok p i Hinv) as (p' & -> & Hinv' & Hs & Hb & _).
    exists p'. rewrite lookup_fmap. split_and!; [done..|]. by rewrite Hb, fmap_delete.
  - intros p. unfold len. by rewrite map_size_fmap.
  - intros p Hinv. rewrite map_sum_fmap. by apply blob_size_ok.
Qed.

(** ** Changing the fees *)
Definition set_priority (fees : PendingFees) (t : BlobTransaction) : BlobTransaction :=
  mkBlobTransaction (btransaction t)
    (mkBlobOrd (submission_id (bord t)) (priority_exact (btransaction t) fees)).

Lemma map_outcome_Done {A B} (f : A → outcome B) (g : A → B) l :
  (∀ x, x ∈ l → f x = Done (g x)) → map_outcome f l = Done (g <$> l).
Proof.
  induction l as [|x l IH]; intros Hf; simpl; [done|].
  rewrite (Hf x) by left. simpl. rewrite IH; [done|]. intros y Hy. apply Hf. by right.
Qed.

Lemma list_to_map_bmap_iter_fmap {V W} (g : V → W) (m : gmap TransactionId V) :
  list_to_map ((λ e : TransactionId * V, (e.1, g e.2)) <$> bmap_iter m) = g <$> m.
Proof.
  rewrite <-(list_to_map_bmap_iter m) at 2. generalize (bmap_iter m) as l.
  induction l as [|[i v] l IH]; simpl; [by rewrite fmap_empty|]. by rewrite fmap_insert, <-IH.
Qed.

Lemma update_priority_ok fees t :
  vtx_ok (btransaction t) → fees_ok fees → update_priority fees t = Done (set_priority fees t).
Proof. intros Hok Hf. unfold update_priority. by rewrite priority_of_exact. Qed.

(** Only the order of the entries changes. *)
Lemma reprioritize_ok p fees :
  blob_wf p → fees_ok fees →
  ∃ p', reprioritize (mkBlobTransactions (bl_submission_id p) (by_id p) (all p) fees (size_of p)) = Done p' ∧
    blob_wf p' ∧ bl_submission_id p' = bl_submission_id p ∧
    by_id p' = set_priority fees <$> by_id p ∧ pending_fees p' = fees.
Proof.
  intros [Hu Wi Hblob Hprio _] Hf. unfold reprioritize. simpl.
  rewrite (map_outcome_Done _ (set_priority fees)).
  2:{ intros t [i Hi]%(iw_best Wi). apply update_priority_ok; [|done].
      by apply (iw_key Wi) in Hi as [_ ?]. }
  simpl. rewrite (map_outcome_Done _ (λ e, (e.1, set_priority fees e.2))).
  2:{ intros [i t] Hi%elem_of_bmap_iter. simpl. rewrite update_priority_ok; [done| |done].
      by apply (iw_key Wi) in Hi as [_ ?]. }
  simpl. rewrite list_to_map_bmap_iter_fmap. eexists. split; [done|]. split_and!; [|done..].
  split; simpl; [done| | | |done].
  - by apply (index_wf_map _ _ blob_cmp_eq).
  - intros i t (u & <- & Hi)%lookup_fmap_Some. simpl. by eapply Hblob.
  - intros i t (u & <- & Hi)%lookup_fmap_Some. done.
Qed.

(** The transaction can pay both fees. *)
Definition pays (fees : PendingFees) (tx : ValidPoolTransaction) : Prop :=
  (∃ cap, max_fee_per_blob_gas tx = Some cap ∧ pf_blob_fee fees ≤ cap) ∧
  pf_base_fee fees ≤ max_fee_per_gas tx.

(** The transaction and all transactions of its sender with a lower nonce in the
    sub-pool can. *)
Definition unlocked_by (fees : PendingFees) (p : BlobTransactions) (i : TransactionId) : Prop :=
  ∀ j u, by_id p !! j = Some u → sender j = sender i → nonce j ≤ nonce i → pays fees (btransaction u).

Lemma pays_spec fees tx :
  opt_lt_some (max_fee_per_blob_gas tx) (pf_blob_fee fees) ||
    (max_fee_per_gas tx <? pf_base_fee fees) = false ↔ pays fees tx.
Proof.
  unfold pays, opt_lt_some. rewrite orb_false_iff, Z.ltb_ge.
  destruct (max_fee_per_blob_gas tx); [rewrite Z.ltb_ge|]; naive_solver.
Qed.

Lemma elem_of_satisfy_pending_fee_ids fees p i :
  i ∈ satisfy_pending_fee_ids fees p ↔ is_Some (by_id p !! i) ∧ unlocked_by fees p i.
Proof.
  unfold satisfy_pending_fee_ids, unlocked_by. rewrite list_elem_of_fmap. split.
  - intros ([j t] & -> & [Hi Hall]%elem_of_cut_kept). split; [by eauto|].
    intros j' u Hj Hs Hn. apply pays_spec. by eapply Hall.
  - intros [[t Ht] Hall]. exists (i, t). split; [done|].
    apply elem_of_cut_kept. split; [done|].
    intros j u Hj Hs Hn. apply pays_spec. by eapply Hall.
Qed.

Lemma satisfy_pending_fee_ids_NoDup fees p : NoDup (satisfy_pending_fee_ids fees p).
Proof.
  eapply sublist_NoDup; [apply (bmap_iter_NoDup (by_id p))|].
  apply fmap_sublist, cut_loop_kept_sublist.
Qed.

(** [enforce_pending_fees] never panics; it returns exactly the transactions
    that can pay both new fees and whose predecessors of the same sender in the
    sub-pool can, keeps exactly the others, and re-establishes the invariant, under
    which every stored priority and the order of the set are those of the new
    fees. *)
Theorem enforce_pending_fees_ok p fees :
  blob_wf p → fees_ok fees →
  ∃ removed p', enforce_pending_fees fees p = Done (removed, p') ∧ blob_wf p' ∧
    pending_fees p' = fees ∧
    (∀ t, t ∈ removed ↔ ∃ i e, by_id p !! i = Some e ∧ btransaction e = t ∧ unlocked_by fees p i) ∧
    (∀ i t, sp_txs p' !! i = Some t ↔ sp_txs p !! i = Some t ∧ ¬ unlocked_by fees p i).
Proof.
  intros Hwf Hfees. unfold enforce_pending_fees.
  destruct (@sp_remove_list BlobTransactions blob_ops blob_laws (satisfy_pending_fee_ids fees p) [] p Hwf)
    as (p1 & Hf & Hinv1 & _ & Htx1); [apply satisfy_pending_fee_ids_NoDup| |].
  { intros i Hi. apply elem_of_satisfy_pending_fee_ids in Hi as [? _].
    simpl. by rewrite lookup_fmap, fmap_is_Some. }
  change (for_each remove_existing) with (for_each (@sp_remove_existing BlobTransactions blob_ops)).
  rewrite Hf. simpl.
  destruct (reprioritize_ok p1 fees Hinv1 Hfees) as (p' & -> & Hwf' & _ & Hb & Hpf). simpl.
  eexists _, p'. split; [done|]. split_and!; [done..| |].
  - intros t. simpl. rewrite list_elem_of_omap. setoid_rewrite elem_of_satisfy_pending_fee_ids.
    setoid_rewrite lookup_fmap_Some. split.
    + intros (i & [_ Hu] & e & <- & He). eauto.
    + intros (i & e & He & <- & Hu). exists i. split; [split; [by eauto|done]|by eauto].
  - intros i t. simpl in Htx1 |- *.
    rewrite Hb, <-map_fmap_compose. change (btransaction ∘ set_priority fees) with btransaction.
    rewrite Htx1, map_lookup_filter_Some. simpl.
    rewrite elem_of_satisfy_pending_fee_ids. split; [|naive_solver].
    intros [Hi Hn]. split; [done|]. intros Hu. apply Hn. split; [|done].
    apply lookup_fmap_Some in Hi as (e & _ & He). eauto.
Qed.

(** ** Truncation *)
Lemma blob_truncate_loop_ok fuel limit removed p :
  blob_wf p → (size (by_id p) ≤ fuel)%nat → 0 ≤ max_txs limit → 0 ≤ max_size limit →
  ∃ p' evicted, truncate_loop fuel limit removed p = Done (removed ++ (btransaction <$> reverse evicted), p') ∧
    blob_wf p' ∧ exceeds p' limit = false ∧ all p = all p' ++ evicted ∧
    bl_submission_id p' = bl_submission_id p.
Proof.
  intros Hwf Hfuel Ht Hs. revert removed p Hwf Hfuel.
  induction fuel as [|fuel IH]; intros removed p Hwf Hfuel; simpl; destruct (exceeds p limit) eqn:Hx.
  2,4: exists p, []; rewrite !app_nil_r; by split_and!.
  all: destruct (last (all p)) as [t|] eqn:Hlast.
  2,4: assert (Hemp : by_id p = ∅) by
    (apply map_empty; intros i; destruct (by_id p !! i) eqn:Hi; [|done];
     apply last_None in Hlast; assert (b ∈ all p) as Hin by (apply (iw_best (bw_index _ Hwf)); eauto);
     rewrite Hlast in Hin; by apply elem_of_nil in Hin);
    unfold exceeds, limit_is_exceeded, len in Hx;
    rewrite blob_size_ok, Hemp, map_size_empty, map_sum_empty in Hx by (done || by rewrite Hemp);
    apply orb_true_iff in Hx as [Hx%Z.ltb_lt|Hx%Z.ltb_lt]; simpl in Hx; lia.
  all: destruct (proj1 (iw_best (bw_index _ Hwf) t) (last_Some_elem_of _ _ Hlast)) as [i Hi].
  { assert (size (by_id p) = 0%nat) as Hz by lia. apply map_size_empty_inv in Hz.
    by rewrite Hz, lookup_empty in Hi. }
  destruct (iw_key (bw_index _ Hwf) i t Hi) as [Hkey _]. simpl.
  unfold remove_existing. simpl. rewrite Hkey.
  destruct (blob_remove_ok p i Hwf) as (p1 & -> & Hwf1 & Hcnt & Hb & _ & Hall). rewrite Hi in *. simpl.
  destruct (IH (removed ++ [btransaction t]) p1 Hwf1) as (p' & ev & -> & Hwf' & Hx' & Hev & Hcnt').
  { rewrite Hb. rewrite map_size_delete_Some by eauto. lia. }
  assert (Hsplit : all p = all p1 ++ [t]).
  { apply last_Some in Hlast as [l Hl]. rewrite Hall, Hl.
    rewrite bset_remove_last; [done|]. rewrite <-Hl. apply Hwf. }
  exists p', (ev ++ [t]). rewrite reverse_snoc, fmap_cons.
  split; [by rewrite <-app_assoc|]. split_and!; [done|done| |congruence].
  by rewrite Hsplit, Hev, <-app_assoc.
Qed.

Lemma blob_truncated p limit fuel :
  blob_wf p → (size (by_id p) ≤ fuel)%nat → 0 ≤ max_txs limit → 0 ≤ max_size limit →
  ∃ evicted p', truncate_pool fuel limit p = Done (btransaction <$> reverse evicted, p') ∧
    blob_wf p' ∧ exceeds p' limit = false ∧ all p = all p' ++ evicted ∧
    bl_submission_id p' = bl_submission_id p.
Proof.
  intros Hwf Hfuel Ht Hs.
  destruct (blob_truncate_loop_ok fuel limit [] p Hwf Hfuel Ht Hs) as (p' & ev & H1 & H2 & H3 & H4 & H5).
  by exists ev, p'.
Qed.

(** Truncating the blob sub-pool terminates within as many rounds as it holds
    transactions, never panics, leaves it well-formed and within the limit, and
    evicts exactly a tail of the priority order, worst transaction first. *)
Theorem blob_truncate_pool_ok p limit fuel :
  blob_wf p → (size (by_id p) ≤ fuel)%nat → 0 ≤ max_txs limit → 0 ≤ max_size limit →
  ∃ evicted p', truncate_pool fuel limit p = Done (btransaction <$> reverse evicted, p') ∧
    blob_wf p' ∧ exceeds p' limit = false ∧ all p = all p' ++ evicted ∧
    bl_submission_id p' = bl_submission_id p.
Proof. apply blob_truncated. Qed.

(** What the pool needs to know of the two operations that take several
    transactions out. *)
Lemma enforce_pending_fees_split p fees :
  blob_wf p → fees_ok fees →
  ∃ removed p', enforce_pending_fees fees p = Done (removed, p') ∧ blob_wf p' ∧
    bl_submission_id p' = bl_submission_id p ∧ split_off (sp_txs p) (sp_txs p') removed ∧
    (∀ tx, tx ∈ removed → pays fees tx).
Proof.
  intros Hwf Hfees. unfold enforce_pending_fees.
  assert (Hin : ∀ i, i ∈ satisfy_pending_fee_ids fees p → is_Some (sp_txs p !! i)).
  { intros i [? _]%elem_of_satisfy_pending_fee_ids. simpl. by rewrite lookup_fmap, fmap_is_Some. }
  destruct (@sp_remove_list BlobTransactions blob_ops blob_laws (satisfy_pending_fee_ids fees p) [] p Hwf
    (satisfy_pending_fee_ids_NoDup fees p) Hin) as (p1 & Hf & Hinv1 & Hs1 & Htx1).
  change (for_each remove_existing) with (for_each (@sp_remove_existing BlobTransactions blob_ops)).
  rewrite Hf. simpl. simpl in Hs1.
  destruct (reprioritize_ok p1 fees Hinv1 Hfees) as (p' & -> & Hwf' & Hs & Hb & _). simpl.
  eexists _, p'. split; [done|]. split_and!; [done|congruence| |].
  - assert (E : btransaction <$> by_id p' = btransaction <$> by_id p1) by (rewrite Hb, <-map_fmap_compose; done).
    rewrite E. simpl in Htx1. rewrite Htx1.
    apply split_off_filter; [|apply satisfy_pending_fee_ids_NoDup|done].
    intros i tx. exact (sp_key p i tx Hwf).
  - intros tx (i & [_ Hu]%elem_of_satisfy_pending_fee_ids & Htx)%list_elem_of_omap.
    apply lookup_fmap_Some in Htx as (e & <- & He). by apply (Hu i e).
Qed.

Lemma blob_truncate_split p p' evicted :
  blob_wf p → blob_wf p' → all p = all p' ++ evicted →
  split_off (sp_txs p) (sp_txs p') (btransaction <$> reverse evicted).
Proof.
  intros W W' Ha. pose proof (bw_index _ W) as Wi. pose proof (bw_index _ W') as Wi'.
  assert (Hsub : by_id p' ⊆ by_id p).
  { apply map_subseteq_spec. intros i t Hi.
    assert (t ∈ all p) as [j Hj]%(iw_best Wi) by (rewrite Ha; apply elem_of_app; left; apply (iw_best Wi'); eauto).
    destruct (iw_key Wi j t Hj) as [<- _], (iw_key Wi' i t Hi) as [<- _]. done. }
  apply split_off_entries; [intros i t Hi; by apply (iw_key Wi)|done|].
  rewrite reverse_Permutation.
  change (λ e : TransactionId * BlobTransaction, btransaction e.2) 
    with (btransaction ∘ @snd TransactionId BlobTransaction).
  rewrite list_fmap_compose.
  apply fmap_Permutation, NoDup_Permutation.
  - pose proof (bset_wf_NoDup _ (iw_sorted Wi)) as Hnd. rewrite Ha in Hnd. by apply NoDup_app in Hnd as (_ & _ & ?).
  - apply NoDup_fmap_2_strong; [|apply NoDup_map_to_list].
    intros [i t] [j u] Hi%elem_of_map_to_list Hj%elem_of_map_to_list E. simpl in E. subst u.
    apply lookup_difference_Some in Hi as [Hi _]. apply lookup_difference_Some in Hj as [Hj _].
    f_equal. by apply (iw_inj Wi i j t t).
  - intros t. rewrite list_elem_of_fmap. split.
    + intros Ht. assert (t ∈ all p) as [i Hi]%(iw_best Wi) by (rewrite Ha; apply elem_of_app; by right).
      exists (i, t). split; [done|]. apply elem_of_map_to_list, lookup_difference_Some. split; [done|].
      apply eq_None_not_Some. intros [u Hu]. pose proof (lookup_weaken _ _ _ _ Hu Hsub) as Hu'.
      assert (u = t) as -> by congruence.
      pose proof (bset_wf_NoDup _ (iw_sorted Wi)) as Hnd. rewrite Ha in Hnd. apply NoDup_app in Hnd as (_ & Hd & _).
      apply (Hd t); [|done]. apply (iw_best Wi'). eauto.
    + intros ([i u] & -> & Hi%elem_of_map_to_list). apply lookup_difference_Some in Hi as [Hi Hn]. simpl.
      assert (u ∈ all p) as Hin by (apply (iw_best Wi); eauto). rewrite Ha in Hin.
      apply elem_of_app in Hin as [Hin|?]; [|done]. apply (iw_best Wi') in Hin as [j Hj].
      pose proof (lookup_weaken _ _ _ _ Hj Hsub) as Hj'.
      assert (i = j) as <- by (by apply (iw_inj Wi i j u u)). congruence.
Qed.

(** ** Witnesses *)
Definition example_blob : BlobTransactions :=
  run_or (BlobTransactions_default 1)
    (for_each add_transaction
       [example_blob_vtx 1 1 0 50 10; example_blob_vtx 2 1 1 20 5; example_blob_vtx 3 2 0 90 90]
       (BlobTransactions_default 1)).

Lemma example_blob_wf : blob_wf example_blob.
Proof.
  unfold example_blob, for_each.
  destruct (blob_add_ok (BlobTransactions_default 1) (example_blob_vtx 1 1 0 50 10))
    as (p1 & e1 & -> & W1 & S1 & _ & E1 & B1); [by apply blob_default_wf|done|by apply example_blob_vtx_ok|done..|].
  cbn [mbind outcome_bind].
  destruct (blob_add_ok p1 (example_blob_vtx 2 1 1 20 5) W1)
    as (p2 & e2 & -> & W2 & S2 & _ & E2 & B2);
    [by rewrite S1|by apply example_blob_vtx_ok|done|by rewrite B1|].
  cbn [mbind outcome_bind].
  destruct (blob_add_ok p2 (example_blob_vtx 3 2 0 90 90) W2)
    as (p3 & e3 & -> & W3 & S3 & _ & E3 & B3);
    [by rewrite S2, S1|by apply example_blob_vtx_ok|done|by rewrite B2, B1|].
  done.
Qed.

Lemma enforce_pending_fees_ok_witness :
  ∃ removed p', enforce_pending_fees (mkPendingFees 30 8) example_blob = Done (removed, p') ∧
    map hash removed = [1; 3].
Proof.
  destruct (enforce_pending_fees_ok example_blob (mkPendingFees 30 8) example_blob_wf) as (r & p' & E & _);
    [by split|].
  exists r, p'. split; [exact E|]. vm_compute in E. by injection E as <- _.
Defined.

Lemma blob_truncate_pool_ok_witness :
  ∃ evicted p', truncate_pool 3 (mkSubPoolLimit 2 1000) example_blob
      = Done (btransaction <$> reverse evicted, p') ∧
    map (λ t, hash (btransaction t)) evicted = [3] ∧ exceeds p' (mkSubPoolLimit 2 1000) = false.
Proof.
  destruct (blob_truncate_pool_ok example_blob (mkSubPoolLimit 2 1000) 3 example_blob_wf)
    as (ev & p' & E & _ & X & A & _); [vm_compute; lia|done|done|].
  exists ev, p'. split; [exact E|]. split; [|exact X]. vm_compute in E. injection E as Hr Hp.
  rewrite <-Hp in A. vm_compute in A. by injection A as <-.
Defined.
