(* ===== verification/Pending.v ===== *)
(** * The pending sub-pool

    [reth/crates/transaction-pool/src/pool/pending.rs]: the executable
    transactions, ordered by priority, with the set of transactions that can be
    executed right away ([independent_transactions]) and the set of the highest
    nonce of each sender ([highest_nonces]) from which the pool is truncated. *)

From stdpp Require Import prelude gmap list sorting.
From S2P Require Import Prelude.
From S2P Require Import Ord.
From S2P Require Import Identifier.
From S2P Require Import State.
From S2P Require Import PoolTx.
From S2P Require Import SubPools.

Section model.
Context {TO : TransactionOrdering}.

(** ** Data *)
Record PendingTransaction := mkPendingTransaction {
  submission_id : Z;
  ptransaction : ValidPoolTransaction;
  ppriority : Priority PriorityValue;
}.

(** [impl Ord for PendingTransaction]. *)
#[global] Instance PendingTransaction_cmp : Cmp PendingTransaction := λ a b,
  then_with (cmp (ppriority a) (ppriority b)) (submission_id b ?= submission_id a)%Z.

#[global] Instance PendingTransaction_ord : CmpOrd PendingTransaction :=
  @lex_cmp_ord _ _ _ Priority_cmp Priority_cmp_ord (rev_cmp Z_cmp) (rev_cmp_ord Z_cmp Z_cmp_ord)
    ppriority submission_id.

(** [PendingTransaction::unlocks]. *)
Definition unlocks (t : PendingTransaction) : TransactionId :=
  descendant (transaction_id (ptransaction t)).

(** The broadcast channel is seen from the sender's side: how many receivers it
    has, which the iterators change by subscribing and by being dropped, and what
    has been sent. *)
Record PendingPool := mkPendingPool {
  pd_submission_id : Z;
  by_id : gmap TransactionId PendingTransaction;
  all : list PendingTransaction;
  highest_nonces : list PendingTransaction;
  independent_transactions : list PendingTransaction;
  size_of : Z;
  receiver_count : Z;
  sent : list PendingTransaction;
}.

(** [PendingPool::new]. *)
Definition PendingPool_new : PendingPool := mkPendingPool 0 ∅ [] [] [] 0 0 [].

(** [PendingPool::clear_transactions]. *)
Definition clear_transactions (p : PendingPool) : gmap TransactionId PendingTransaction * PendingPool :=
  (by_id p, mkPendingPool (pd_submission_id p) ∅ [] [] [] 0 (receiver_count p) (sent p)).

Definition len (p : PendingPool) : Z := Z.of_nat (size (by_id p)).
Definition pool_size (p : PendingPool) : Z := SizeTracker_usize (size_of p).
Definition exceeds (p : PendingPool) (limit : SubPoolLimit) : bool :=
  limit_is_exceeded limit (len p) (pool_size p).
Definition contains (p : PendingPool) (i : TransactionId) : bool :=
  bool_decide (is_Some (by_id p !! i)).

(** [PendingPool::all]. *)
Definition all_txs (p : PendingPool) : list ValidPoolTransaction :=
  (λ e, ptransaction e.2) <$> bmap_iter (by_id p).

(** [PendingPool::ancestor]. *)
Definition ancestor_in (m : gmap TransactionId PendingTransaction) (i : TransactionId)
  : option PendingTransaction :=
  j ← unchecked_ancestor i; m !! j.

(** [PendingPool::next_id]. *)
Definition next_id (p : PendingPool) : Z * PendingPool :=
  (pd_submission_id p,
   mkPendingPool (wrap_u64 (pd_submission_id p + 1)) (by_id p) (all p) (highest_nonces p)
     (independent_transactions p) (size_of p) (receiver_count p) (sent p)).

(** [PendingPool::update_independents_and_highest_nonces]. *)
Definition update_independents_and_highest_nonces (tx : PendingTransaction) (tx_id : TransactionId)
  (p : PendingPool) : PendingPool :=
  let '(highest, independent) :=
    match ancestor_in (by_id p) tx_id with
    | Some ancestor => (bset_remove ancestor (highest_nonces p), independent_transactions p)
    | None => (highest_nonces p, bset_insert tx (independent_transactions p))
    end in
  mkPendingPool (pd_submission_id p) (by_id p) (all p) (bset_insert tx highest) independent
    (size_of p) (receiver_count p) (sent p).

(** [self.all.insert(tx.clone())] followed by [self.by_id.insert(id, tx)]. *)
Definition insert_entry (id : TransactionId) (tx : PendingTransaction) (p : PendingPool) : PendingPool :=
  mkPendingPool (pd_submission_id p) (<[id := tx]> (by_id p)) (bset_insert tx (all p))
    (highest_nonces p) (independent_transactions p) (size_of p) (receiver_count p) (sent p).

Definition add_size (x : Z) (p : PendingPool) : PendingPool :=
  mkPendingPool (pd_submission_id p) (by_id p) (all p) (highest_nonces p)
    (independent_transactions p) (SizeTracker_add (size_of p) x) (receiver_count p) (sent p).

(** [if self.new_transaction_notifier.receiver_count() > 0 { send }]. *)
Definition notify (tx : PendingTransaction) (p : PendingPool) : PendingPool :=
  if 0 <? receiver_count p then
    mkPendingPool (pd_submission_id p) (by_id p) (all p) (highest_nonces p)
      (independent_transactions p) (size_of p) (receiver_count p) (sent p ++ [tx])
  else p.

(** The [else] branch of [update_blob_fee] and [update_base_fee]. *)
Definition reinsert (id : TransactionId) (tx : PendingTransaction) (p : PendingPool) : PendingPool :=
  insert_entry id tx
    (update_independents_and_highest_nonces tx id (add_size (vtx_size (ptransaction tx)) p)).

(** [PendingPool::update_blob_fee]: drains the pool, puts back what passes. *)
Definition update_blob_fee (blob_fee : Z) (p : PendingPool) : list ValidPoolTransaction * PendingPool :=
  let '(entries, p) := clear_transactions p in
  let bad t := opt_lt_some (max_fee_per_blob_gas (ptransaction t)) blob_fee in
  ((λ e, ptransaction e.2) <$> cut_dropped bad entries,
   foldl (λ p e, reinsert e.1 e.2 p) p (cut_kept bad entries)).

(** The entry with the priority for a base fee. *)
Definition with_priority (base_fee : Z) (t : PendingTransaction) : PendingTransaction :=
  mkPendingTransaction (submission_id t) (ptransaction t)
    (priority (transaction (ptransaction t)) base_fee).

(** [PendingPool::update_base_fee]. *)
Definition update_base_fee (base_fee : Z) (p : PendingPool) : list ValidPoolTransaction * PendingPool :=
  let '(entries, p) := clear_transactions p in
  let bad t := max_fee_per_gas (ptransaction t) <? base_fee in
  ((λ e, ptransaction e.2) <$> cut_dropped bad entries,
   foldl (λ p e, reinsert e.1 (with_priority base_fee e.2) p) p (cut_kept bad entries)).

(** [PendingPool::add_transaction]. *)
Definition add_transaction (tx : ValidPoolTransaction) (base_fee : Z) (p : PendingPool)
  : outcome PendingPool :=
  _ ← assert_ (negb (contains p (transaction_id tx)));
  let p := add_size (vtx_size tx) p in
  let tx_id := transaction_id tx in
  let '(sub, p) := next_id p in
  let entry := mkPendingTransaction sub tx (priority (transaction tx) base_fee) in
  Done (insert_entry tx_id entry (notify entry (update_independents_and_highest_nonces entry tx_id p))).

(** [PendingPool::remove_transaction]: the descendant is unlocked first, also when
    the transaction itself is unknown. *)
Definition remove_transaction (id : TransactionId) (p : PendingPool)
  : option ValidPoolTransaction * PendingPool :=
  let independent :=
    match by_id p !! descendant id with
    | Some unlocked => bset_insert unlocked (independent_transactions p)
    | None => independent_transactions p
    end in
  match by_id p !! id with
  | None =>
    (None, mkPendingPool (pd_submission_id p) (by_id p) (all p) (highest_nonces p) independent
             (size_of p) (receiver_count p) (sent p))
  | Some tx =>
    let by_id' := delete id (by_id p) in
    let highest :=
      if bset_contains tx (highest_nonces p) then
        let h := bset_remove tx (highest_nonces p) in
        match ancestor_in by_id' id with Some a => bset_insert a h | None => h end
      else bset_remove tx (highest_nonces p) in
    (Some (ptransaction tx),
     mkPendingPool (pd_submission_id p) by_id' (bset_remove tx (all p)) highest
       (bset_remove tx independent) (SizeTracker_sub (size_of p) (vtx_size (ptransaction tx)))
       (receiver_count p) (sent p))
  end.

(** [PendingPool::get_txs_by_sender]. *)
Definition get_txs_by_sender (s : SenderId) (p : PendingPool) : list TransactionId :=
  (txs_of_sender s (by_id p)).*1.

(** ** Truncation *)

(** The mutable variables of [remove_to_limit]. *)
Record Truncation := mkTruncation {
  non_local_senders : Z;
  unique_senders : Z;
  total_removed : Z;
  total_size : Z;
}.

(** The [for tx in &self.highest_nonces] loop: whether it was left early, the
    variables and the identifiers to remove. *)
Fixpoint scan_highest (limit : SubPoolLimit) (remove_locals : bool) (original_length original_size : Z)
  (l : list PendingTransaction) (v : Truncation) (removed : list TransactionId)
  : bool * Truncation * list TransactionId :=
  match l with
  | [] => (false, v, removed)
  | tx :: l' =>
    if negb (limit_is_exceeded limit (wrap_u64 (original_length - total_removed v))
               (wrap_u64 (original_size - total_size v))) || (non_local_senders v =? 0)
    then (true, v, removed)
    else if negb remove_locals && is_local (ptransaction tx) then
      scan_highest limit remove_locals original_length original_size l'
        (mkTruncation (wrap_u64 (non_local_senders v - 1)) (unique_senders v) (total_removed v)
           (total_size v)) removed
    else
      scan_highest limit remove_locals original_length original_size l'
        (mkTruncation (non_local_senders v) (unique_senders v) (wrap_u64 (total_removed v + 1))
           (wrap_u64 (total_size v + vtx_size (ptransaction tx))))
        (removed ++ [transaction_id (ptransaction tx)])
  end.

(** [for id in &removed { if let Some(tx) = self.remove_transaction(id) { end_removed.push(tx) } }]. *)
Definition remove_ids (ids : list TransactionId) (st : list ValidPoolTransaction * PendingPool)
  : list ValidPoolTransaction * PendingPool :=
  foldl (λ st i, let '(otx, p) := remove_transaction i st.2 in (st.1 ++ option_list otx, p)) st ids.

(** The [loop] of [remove_to_limit]; the subtractions are on [usize]. *)
Fixpoint remove_loop (fuel : nat) (limit : SubPoolLimit) (remove_locals : bool)
  (original_length original_size : Z) (v : Truncation)
  (st : list ValidPoolTransaction * PendingPool)
  : outcome (list ValidPoolTransaction * PendingPool) :=
  match fuel with
  | O => NoFuel
  | S fuel' =>
    let senders := Z.of_nat (length (highest_nonces st.2)) in
    let unique_removed := wrap_u64 (unique_senders v - senders) in
    let v := mkTruncation (wrap_u64 (non_local_senders v - unique_removed)) senders
               (total_removed v) (total_size v) in
    let '(early, v, removed) :=
      scan_highest limit remove_locals original_length original_size (highest_nonces st.2) v [] in
    let st := remove_ids removed st in
    if early || negb (exceeds st.2 limit) || (non_local_senders v =? 0) then Done st
    else remove_loop fuel' limit remove_locals original_length original_size v st
  end.

(** [PendingPool::remove_to_limit]. *)
Definition remove_to_limit (fuel : nat) (limit : SubPoolLimit) (remove_locals : bool)
  (st : list ValidPoolTransaction * PendingPool) : outcome (list ValidPoolTransaction * PendingPool) :=
  let senders := Z.of_nat (length (highest_nonces st.2)) in
  remove_loop fuel limit remove_locals (len st.2) (pool_size st.2) (mkTruncation senders senders 0 0) st.

(** [PendingPool::truncate_pool]. *)
Definition truncate_pool (fuel : nat) (limit : SubPoolLimit) (p : PendingPool)
  : outcome (list ValidPoolTransaction * PendingPool) :=
  if negb (exceeds p limit) then Done ([], p)
  else
    st ← remove_to_limit fuel limit false ([], p);
    if negb (exceeds st.2 limit) then Done st
    else remove_to_limit fuel limit true st.
End model.

(** ** Invariant *)

(** A transaction without its predecessor, without its successor in the pool. *)
Definition is_root {V} (m : gmap TransactionId V) (i : TransactionId) : Prop :=
  ∀ j, unchecked_ancestor i = Some j → m !! j = None.
Definition is_top {V} (m : gmap TransactionId V) (i : TransactionId) : Prop :=
  m !! descendant i = None.

Section proofs.
Context {TO : TransactionOrdering}.
Implicit Types (p : PendingPool) (m : gmap TransactionId PendingTransaction) (t u : PendingTransaction).

(** A set that only holds entries of [m]. *)
Record view_wf m (l : list PendingTransaction) : Prop := {
  vw_sorted : bset_wf l;
  vw_sub t : t ∈ l → ∃ i, m !! i = Some t;
}.

Record pending_wf p : Prop := {
  pd_u64 : is_u64 (pd_submission_id p);
  pd_index : index_wf ptransaction submission_id (by_id p) (pd_submission_id p) (all p) (size_of p);
  pd_independent : view_wf (by_id p) (independent_transactions p);
  pd_highest : view_wf (by_id p) (highest_nonces p);
  pd_roots i t : by_id p !! i = Some t → is_root (by_id p) i → t ∈ independent_transactions p;
}.

(** The independent set holds nothing but the roots; the highest-nonce set holds
    all tops; it holds nothing else. *)
Definition roots_exact m (l : list PendingTransaction) : Prop :=
  ∀ i t, m !! i = Some t → t ∈ l → is_root m i.
Definition tops_covered m (l : list PendingTransaction) : Prop :=
  ∀ i t, m !! i = Some t → is_top m i → t ∈ l.
Definition tops_exact m (l : list PendingTransaction) : Prop :=
  ∀ i t, m !! i = Some t → t ∈ l → is_top m i.

Lemma pt_cmp_eq t u : cmp t u = Eq → submission_id t = submission_id u.
Proof.
  unfold cmp, PendingTransaction_cmp, then_with.
  destruct (cmp _ _); [|done..]. by intros ->%Z.compare_eq.
Qed.

Lemma ancestor_in_Some m i t :
  ancestor_in m i = Some t ↔ ∃ j, unchecked_ancestor i = Some j ∧ m !! j = Some t.
Proof. unfold ancestor_in. by rewrite bind_Some. Qed.

Lemma ancestor_in_None m i : ancestor_in m i = None ↔ is_root m i.
Proof.
  unfold ancestor_in, is_root. destruct (unchecked_ancestor i) as [j|]; simpl; [|by split].
  split; [by intros Hn k [= <-]|]. intros Hn. by apply Hn.
Qed.

Section entries.
Context {m : gmap TransactionId PendingTransaction} {n : Z} {b : list PendingTransaction} {sz : Z}.
Context (W : index_wf ptransaction submission_id m n b sz).

Lemma entry_inj i j t : m !! i = Some t → m !! j = Some t → i = j.
Proof using W. intros Hi Hj. by apply (iw_inj W i j t t). Qed.

Lemma entry_nonce i t : m !! i = Some t → nonce_ok i.
Proof using W. intros [<- Hok]%(iw_key W). apply Hok. Qed.

(** Elements of a view are told apart by the order. *)
Lemma view_distinct l i t u : view_wf m l → m !! i = Some t → u ∈ l → cmp t u = Eq → u = t.
Proof using W.
  intros V Ht [j Hj]%(vw_sub _ _ V) E%pt_cmp_eq.
  assert (i = j) as <- by (by eapply (iw_inj W)). congruence.
Qed.

Lemma view_fresh l t u : view_wf m l → submission_id t = n → u ∈ l → cmp t u = Eq → u = t.
Proof using W.
  intros V Ht [j Hj]%(vw_sub _ _ V) E%pt_cmp_eq. apply (iw_sub W) in Hj. lia.
Qed.

Lemma elem_of_view_insert l i t u :
  view_wf m l → m !! i = Some t → u ∈ bset_insert t l ↔ u = t ∨ u ∈ l.
Proof using W. intros V Ht. apply elem_of_bset_insert. intros y. by eapply view_distinct. Qed.

Lemma elem_of_view_remove l i t u :
  view_wf m l → m !! i = Some t → u ∈ bset_remove t l ↔ u ∈ l ∧ u ≠ t.
Proof using W.
  intros V Ht. apply elem_of_bset_remove; [apply V|]. intros y. by eapply view_distinct.
Qed.

Lemma view_contains l i t :
  view_wf m l → m !! i = Some t → bset_contains t l = true ↔ t ∈ l.
Proof using W.
  intros V Ht. rewrite bset_contains_spec by apply V. split.
  - intros (y & Hy & E). by rewrite <-(view_distinct l i t y V Ht Hy E).
  - intros Hin. exists t. split; [done|]. apply cmp_refl.
Qed.

Lemma view_insert l i t : view_wf m l → m !! i = Some t → view_wf m (bset_insert t l).
Proof using W.
  intros V Ht. split; [apply bset_insert_wf, V|].
  intros u [->|Hu]%bset_insert_incl; [by eauto|by apply V].
Qed.

(** Dropping entry [i] from the map and from the view. *)
Lemma view_delete l i t : view_wf m l → m !! i = Some t → view_wf (delete i m) (bset_remove t l).
Proof using W.
  intros V Ht. split; [apply bset_remove_wf, V|].
  intros u [Hu Hne]%(elem_of_view_remove l i t u V Ht).
  apply V in Hu as [j Hj]. exists j. apply lookup_delete_Some. split; [|done]. congruence.
Qed.

Lemma root_delete i j t : m !! j = Some t → is_root (delete i m) j → j = descendant i ∨ is_root m j.
Proof using W.
  intros Hj Hr. destruct (unchecked_ancestor j) as [k|] eqn:Ek.
  2:{ right. intros k. by rewrite Ek. }
  destruct (decide (k = i)) as [->|Hne].
  - left. symmetry. apply (descendant_ancestor j i); [|done].
    apply entry_nonce in Hj. unfold nonce_ok, u64_max in Hj. unfold is_u64. lia.
  - right. intros k' Hk'. specialize (Hr k' Hk'). rewrite Ek in Hk'. simplify_eq.
    by rewrite lookup_delete_ne in Hr.
Qed.

Lemma top_delete i j t : m !! j = Some t → is_top (delete i m) j → descendant j = i ∨ is_top m j.
Proof using W.
  unfold is_top. intros Hj [E|E]%lookup_delete_None; [by left|by right].
Qed.

Lemma descendant_not_self i t : m !! i = Some t → descendant i ≠ i.
Proof using W.
  intros Hi%entry_nonce E. apply (f_equal nonce) in E. simpl in E.
  rewrite next_nonce_ok in E by done. lia.
Qed.

Lemma ancestor_of_descendant j t : m !! j = Some t → unchecked_ancestor (descendant j) = Some j.
Proof using W. intros Hj%entry_nonce. by apply ancestor_descendant. Qed.
End entries.

Lemma view_weaken m m' l : view_wf m l → m ⊆ m' → view_wf m' l.
Proof.
  intros V Hsub. split; [apply V|]. intros t [i Hi]%(vw_sub _ _ V). exists i.
  by eapply lookup_weaken.
Qed.

Lemma view_empty m : view_wf m [].
Proof. split; [constructor|]. by intros t ?%elem_of_nil. Qed.

Lemma pending_new_wf : pending_wf PendingPool_new.
Proof.
  split; simpl; [done|apply index_wf_empty|apply view_empty|apply view_empty|].
  intros i t. by rewrite lookup_empty.
Qed.

(** The two derived sets against the entries [m]. *)
Record sets_wf m (ind hi : list PendingTransaction) : Prop := {
  st_ind : view_wf m ind;
  st_hi : view_wf m hi;
  st_roots i t : m !! i = Some t → is_root m i → t ∈ ind;
}.

(** What an insertion with [update_independents_and_highest_nonces] keeps: the
    sets stay exact if the successor of the new transaction is not in the pool. *)
Record sets_grow m (ind hi : list PendingTransaction) i t (ind' hi' : list PendingTransaction) : Prop := {
  sg_wf : sets_wf (<[i := t]> m) ind' hi';
  sg_roots : is_top m i → roots_exact m ind → roots_exact (<[i := t]> m) ind';
  sg_covered : tops_covered m hi → tops_covered (<[i := t]> m) hi';
  sg_tops : is_top m i → tops_exact m hi → tops_exact (<[i := t]> m) hi';
}.

Lemma sets_insert m n b sz ind hi i t :
  index_wf ptransaction submission_id m n b sz → sets_wf m ind hi →
  m !! i = None → nonce_ok i → (∀ j u, m !! j = Some u → submission_id u ≠ submission_id t) →
  sets_grow m ind hi i t
    (match ancestor_in m i with Some _ => ind | None => bset_insert t ind end)
    (bset_insert t (if ancestor_in m i is Some a then bset_remove a hi else hi)).
Proof.
  intros W [Vi Vh Hroots] Hi Hok Hfresh.
  assert (Hfv : ∀ l y, view_wf m l → y ∈ l → cmp t y = Eq → y = t).
  { intros l y V [j Hj]%(vw_sub _ _ V) E%pt_cmp_eq. by destruct (Hfresh _ _ Hj). }
  assert (Hsub : m ⊆ <[i := t]> m) by by apply insert_subseteq.
  assert (Hne : ∀ j u, m !! j = Some u → j ≠ i) by (intros j u Hj ->; congruence).
  assert (Hget : ∀ j u, m !! j = Some u → <[i := t]> m !! j = Some u)
    by (intros; by eapply lookup_weaken).
  set (hi1 := if ancestor_in m i is Some a then bset_remove a hi else hi).
  assert (V1 : view_wf m hi1).
  { unfold hi1. destruct (ancestor_in m i) as [a|] eqn:Ha; [|done].
    split; [apply bset_remove_wf, Vh|]. intros u Hu%bset_remove_incl. by apply Vh. }
  assert (Hhi1 : ∀ u, u ∈ hi1 ↔ u ∈ hi ∧ ancestor_in m i ≠ Some u).
  { intros u. unfold hi1. destruct (ancestor_in m i) as [a|] eqn:Ha; [|naive_solver].
    apply ancestor_in_Some in Ha as (j & _ & Hj).
    rewrite (elem_of_view_remove W hi j a u Vh Hj). naive_solver. }
  assert (Hhi : ∀ u, u ∈ bset_insert t hi1 ↔ u = t ∨ u ∈ hi1)
    by (intros u; apply elem_of_bset_insert; intros y; by apply Hfv).
  set (ind' := match ancestor_in m i with Some _ => ind | None => bset_insert t ind end).
  assert (Hind : ∀ u, u ∈ ind' ↔ u ∈ ind ∨ (u = t ∧ is_root m i)).
  { intros u. unfold ind'. destruct (ancestor_in m i) as [a|] eqn:Ha.
    - split; [by left|]. intros [?|[_ Hr%ancestor_in_None]]; [done|congruence].
    - apply ancestor_in_None in Ha. rewrite elem_of_bset_insert; [naive_solver|].
      intros y. by apply Hfv. }
  assert (Hroot' : ∀ j, is_root (<[i := t]> m) j → is_root m j).
  { intros j Hr k Hk. specialize (Hr k Hk). by apply lookup_insert_None in Hr as [? _]. }
  assert (Hmem : ∀ l u, view_wf m l → u ∈ l → ∃ j, m !! j = Some u ∧ j ≠ i).
  { intros l u V [j Hj]%(vw_sub _ _ V). exists j. split; [done|by eapply Hne]. }
  split; [split| | |].
  - split; [unfold ind'; destruct (ancestor_in m i); [apply Vi|apply bset_insert_wf, Vi]|].
    intros u [(j & Hj & Hji)%(Hmem ind u Vi)|[-> _]]%Hind; [exists j; auto|].
    exists i. apply lookup_insert_eq.
  - split; [apply bset_insert_wf, V1|].
    intros u [->|(j & Hj & Hji)%(Hmem hi1 u V1)]%Hhi; [exists i; apply lookup_insert_eq|exists j; auto].
  - intros j u [[<- <-]|[Hji Hj]]%lookup_insert_Some Hr%Hroot'; apply Hind; [by right|].
    left. by apply (Hroots j).
  - intros Htop Hex j u Hj Hu k Hk. apply lookup_insert_Some in Hj as [[<- <-]|[Hji Hj]].
    + apply lookup_insert_None. split; [|intros ->].
      * apply Hind in Hu as [(j & Hj & Hji)%(Hmem ind _ Vi)|[_ Hr]]; [|by apply Hr].
        by destruct (Hfresh _ _ Hj).
      * apply unchecked_ancestor_Some in Hk as [_ Hk]. apply (f_equal nonce) in Hk. simpl in Hk. lia.
    + apply lookup_insert_None. apply Hind in Hu as [Hu|[-> _]]; [|by destruct (Hfresh _ _ Hj)].
      split; [by eapply Hex|]. intros ->.
      assert (descendant k = j) as E.
      { apply descendant_ancestor; [|done]. pose proof (entry_nonce W _ _ Hj) as Hn.
        unfold nonce_ok, u64_max in Hn. unfold is_u64. lia. }
      unfold is_top in Htop. congruence.
  - intros Hcov j u Hj [Hd Hdi]%lookup_insert_None. apply Hhi.
    apply lookup_insert_Some in Hj as [[<- <-]|[Hji Hj]]; [by left|]. right.
    apply Hhi1. split; [by apply (Hcov j)|]. intros (k & Hk & Hmk)%ancestor_in_Some.
    assert (j = k) as -> by (by eapply (entry_inj W)).
    apply Hdi. symmetry. apply descendant_ancestor; [|done].
    unfold nonce_ok, u64_max in Hok. unfold is_u64. lia.
  - intros Htop Hex j u Hj Hu. apply lookup_insert_None.
    apply lookup_insert_Some in Hj as [[<- <-]|[Hji Hj]].
    + split; [done|]. intros E. apply (f_equal nonce) in E. simpl in E.
      rewrite next_nonce_ok in E by done. lia.
    + apply Hhi in Hu as [->|[Hu Hna]%Hhi1]; [by destruct (Hfresh _ _ Hj)|].
      split; [by eapply Hex|]. intros E. apply Hna, ancestor_in_Some. exists j.
      split; [|done]. rewrite E. by eapply (ancestor_of_descendant W).
Qed.

(** What unlocking the descendant of [i] does to the independent set. *)
Definition unlock m i (ind : list PendingTransaction) : list PendingTransaction :=
  match m !! descendant i with Some d => bset_insert d ind | None => ind end.

Lemma elem_of_unlock m n b sz ind i u :
  index_wf ptransaction submission_id m n b sz → view_wf m ind →
  u ∈ unlock m i ind ↔ u ∈ ind ∨ m !! descendant i = Some u.
Proof.
  intros W V. unfold unlock. destruct (m !! descendant i) as [d|] eqn:Hd; [|naive_solver].
  rewrite (elem_of_view_insert W ind _ d u V Hd). naive_solver.
Qed.

Lemma unlock_view m n b sz ind i :
  index_wf ptransaction submission_id m n b sz → view_wf m ind → view_wf m (unlock m i ind).
Proof.
  intros W V. unfold unlock. destruct (m !! descendant i) as [d|] eqn:Hd; [|done].
  by eapply (view_insert W).
Qed.

(** The highest-nonce set without [t], with its predecessor in its place. *)
Definition highest_without m i t (hi : list PendingTransaction) : list PendingTransaction :=
  if bset_contains t hi then
    match ancestor_in (delete i m) i with
    | Some a => bset_insert a (bset_remove t hi)
    | None => bset_remove t hi
    end
  else bset_remove t hi.

Lemma elem_of_highest_without m n b sz hi i t u :
  index_wf ptransaction submission_id m n b sz → view_wf m hi → m !! i = Some t →
  u ∈ highest_without m i t hi ↔
    (u ∈ hi ∧ u ≠ t) ∨ (t ∈ hi ∧ ∃ j, unchecked_ancestor i = Some j ∧ delete i m !! j = Some u).
Proof.
  intros W V Ht. unfold highest_without.
  pose proof (view_contains W hi i t V Ht) as Hc.
  pose proof (view_delete W hi i t V Ht) as V'.
  pose proof (index_wf_remove _ _ pt_cmp_eq _ _ _ _ i t W Ht) as W'.
  pose proof (elem_of_view_remove W hi i t u V Ht) as Hr.
  destruct (bset_contains t hi).
  2:{ rewrite Hr. split; [by left|]. intros [?|[Hin _]]; [done|]. by apply Hc in Hin. }
  destruct (ancestor_in (delete i m) i) as [a|] eqn:Ha.
  - pose proof Ha as (j & Hj & Hja)%ancestor_in_Some.
    rewrite (elem_of_view_insert W' _ j a u V' Hja), Hr. split.
    + intros [->|?]; [right|by left]. split; [by apply Hc|eauto].
    + intros [?|[_ (j' & Hj' & Hu)]]; [by right|left]. congruence.
  - rewrite Hr. split; [by left|]. intros [?|[_ (j & Hj & Hu)]]; [done|].
    apply ancestor_in_None in Ha. rewrite (Ha j Hj) in Hu. done.
Qed.

Lemma highest_without_view m n b sz hi i t :
  index_wf ptransaction submission_id m n b sz → view_wf m hi → m !! i = Some t →
  view_wf (delete i m) (highest_without m i t hi).
Proof.
  intros W V Ht. pose proof (view_delete W hi i t V Ht) as V'.
  unfold highest_without. destruct (bset_contains t hi); [|done].
  destruct (ancestor_in (delete i m) i) as [a|] eqn:Ha; [|done].
  apply ancestor_in_Some in Ha as (j & _ & Hj).
  pose proof (index_wf_remove _ _ pt_cmp_eq _ _ _ _ i t W Ht) as W'.
  by eapply (view_insert W').
Qed.

(** What a removal keeps: the independent set stays exact, and the highest-nonce
    set keeps covering the tops if the removed transaction was in it or had no
    predecessor. *)
Record sets_shrink m (ind hi : list PendingTransaction) i t (ind' hi' : list PendingTransaction) : Prop := {
  sk_wf : sets_wf (delete i m) ind' hi';
  sk_roots : roots_exact m ind → roots_exact (delete i m) ind';
  sk_covered : t ∈ hi ∨ is_root m i → tops_covered m hi → tops_covered (delete i m) hi';
  sk_tops : tops_exact m hi → tops_exact (delete i m) hi';
  sk_keep u : u ∈ hi → u ≠ t → u ∈ hi';
}.

Lemma sets_delete m n b sz ind hi i t :
  index_wf ptransaction submission_id m n b sz → sets_wf m ind hi → m !! i = Some t →
  sets_shrink m ind hi i t (bset_remove t (unlock m i ind)) (highest_without m i t hi).
Proof.
  intros W [Vi Vh Hroots] Ht.
  pose proof (unlock_view _ _ _ _ ind i W Vi) as Vu.
  assert (Hind : ∀ u, u ∈ bset_remove t (unlock m i ind) ↔ (u ∈ ind ∨ m !! descendant i = Some u) ∧ u ≠ t).
  { intros u. rewrite (elem_of_view_remove W _ i t u Vu Ht).
    by rewrite (elem_of_unlock _ _ _ _ _ i u W Vi). }
  pose proof (λ u, elem_of_highest_without _ _ _ _ hi i t u W Vh Ht) as Hhi.
  assert (Hni : ∀ j u, delete i m !! j = Some u → u ≠ t).
  { intros j u [Hne Hj]%lookup_delete_Some ->. by apply Hne, (entry_inj W i j t). }
  split; [split| | | |].
  - by eapply (view_delete W).
  - by eapply highest_without_view.
  - intros j u Hj Hr. apply Hind. split; [|by eapply Hni].
    apply lookup_delete_Some in Hj as [_ Hj].
    destruct (root_delete W i j u Hj Hr) as [->|Hr']; [by right|left; by apply (Hroots j)].
  - intros Hex j u Hj [Hu _]%Hind k Hk. pose proof Hj as [Hji Hj']%lookup_delete_Some.
    apply lookup_delete_None. destruct Hu as [Hu|Hu]; [right; by eapply Hex|].
    assert (j = descendant i) as -> by (by eapply (entry_inj W)).
    rewrite (ancestor_of_descendant W i t Ht) in Hk. left. congruence.
  - intros Hor Hcov j u Hj Htop. apply Hhi. pose proof Hj as [Hji Hj']%lookup_delete_Some.
    destruct (top_delete W i j u Hj' Htop) as [<-|Htop'].
    + destruct Hor as [Hin|Hr].
      * right. split; [done|]. exists j. split; [|done]. by apply (ancestor_of_descendant W j u).
      * pose proof (Hr j (ancestor_of_descendant W j u Hj')). congruence.
    + left. split; [by eapply Hcov|by eapply Hni].
  - intros Hex j u Hj Hu. pose proof Hj as [Hji Hj']%lookup_delete_Some.
    apply lookup_delete_None. apply Hhi in Hu as [[Hu _]|(_ & k & Hk & Hu)].
    + right. by eapply Hex.
    + left. apply lookup_delete_Some in Hu as [_ Hu].
      assert (k = j) as -> by (by eapply (entry_inj W)). symmetry.
      apply descendant_ancestor; [|done]. pose proof (entry_nonce W _ _ Ht) as Hn.
      unfold nonce_ok, u64_max in Hn. unfold is_u64. lia.
  - intros u Hu Hne. apply Hhi. by left.
Qed.

Lemma pending_sets p : pending_wf p → sets_wf (by_id p) (independent_transactions p) (highest_nonces p).
Proof. intros [_ _ ? ? ?]. by split. Qed.

Lemma pending_add_ok p tx fee :
  pending_wf p → pd_submission_id p + 1 < U64 → vtx_ok tx → by_id p !! transaction_id tx = None →
  let e := mkPendingTransaction (pd_submission_id p) tx (priority (transaction tx) fee) in
  ∃ p', add_transaction tx fee p = Done p' ∧ pending_wf p' ∧
    pd_submission_id p' = pd_submission_id p + 1 ∧
    by_id p' = <[transaction_id tx := e]> (by_id p) ∧
    sets_grow (by_id p) (independent_transactions p) (highest_nonces p) (transaction_id tx) e
      (independent_transactions p') (highest_nonces p').
Proof.
  intros Wp Hroom Hok Hnone e. pose proof (pending_sets p Wp) as Ws.
  pose proof Wp as [[Hu0 Hu1] Wi _ _ _].
  assert (Hw : wrap_u64 (pd_submission_id p + 1) = pd_submission_id p + 1)
    by (apply wrap_u64_id; unfold is_u64; lia).
  assert (Hfresh : ∀ j u, by_id p !! j = Some u → submission_id u ≠ submission_id e)
    by (intros j u Hj%(iw_sub Wi); simpl; lia).
  pose proof (sets_insert _ _ _ _ _ _ (transaction_id tx) e Wi Ws Hnone (vtx_ok_u64 _ Hok) Hfresh) as G.
  pose proof (index_wf_add _ _ pt_cmp_eq _ _ _ _ e Wi Hu0 eq_refl Hnone Hok) as Wi'.
  unfold add_transaction, contains. rewrite bool_decide_eq_false_2 by (rewrite Hnone; by intros []).
  simpl. eexists. split; [done|]. fold e.
  unfold notify, update_independents_and_highest_nonces, insert_entry. simpl. revert G.
  destruct (ancestor_in (by_id p) (transaction_id tx)); simpl;
    destruct (0 <? receiver_count p); simpl; rewrite Hw; intros G; (split_and!; [|done..]); destruct G as [[Gi Gh Gr] _ _ _];
    (split; simpl; [unfold is_u64; lia|done..]).
Qed.

Lemma pending_add_dup p tx fee :
  is_Some (by_id p !! transaction_id tx) → add_transaction tx fee p = Panics.
Proof.
  intros Hs. unfold add_transaction, contains. by rewrite bool_decide_eq_true_2.
Qed.

Lemma pending_remove_ok p i :
  pending_wf p →
  ∃ p', remove_transaction i p = (ptransaction <$> by_id p !! i, p') ∧ pending_wf p' ∧
    pd_submission_id p' = pd_submission_id p ∧ by_id p' = delete i (by_id p) ∧
    (∀ t, by_id p !! i = Some t →
      sets_shrink (by_id p) (independent_transactions p) (highest_nonces p) i t
        (independent_transactions p') (highest_nonces p')).
Proof.
  intros Wp. pose proof (pending_sets p Wp) as Ws. pose proof Wp as [Hu Wi Vi Vh Hr].
  unfold remove_transaction. fold (unlock (by_id p) i (independent_transactions p)).
  destruct (by_id p !! i) as [t|] eqn:Ht; simpl.
  - eexists. split; [done|]. pose proof (sets_delete _ _ _ _ _ _ i t Wi Ws Ht) as G.
    pose proof (index_wf_remove _ _ pt_cmp_eq _ _ _ _ i t Wi Ht) as Wi'.
    split_and!; [|done|done|].
    + destruct G as [[Gi Gh Gr] _ _ _ _]. by split.
    + intros t' [= <-]. exact G.
  - eexists. split; [done|]. rewrite delete_id by done. split_and!; [|done..].
    split; simpl; [done|done|by eapply unlock_view|done|].
    intros j u Hj Hroot. rewrite (elem_of_unlock _ _ _ _ _ i u Wi Vi). left. by apply (Hr j).
Qed.

Lemma pending_size_ok p :
  pending_wf p → is_u64 (map_sum (λ t, vtx_size (ptransaction t)) (by_id p)) →
  pool_size p = map_sum (λ t, vtx_size (ptransaction t)) (by_id p).
Proof. intros W. apply tracks_usize, W. Qed.

(** The pending pool as a sub-pool. *)
#[local] Instance pending_ops : SubPoolOps PendingPool := {|
  sp_txs p := ptransaction <$> by_id p;
  sp_inv := pending_wf;
  sp_sub_id := pd_submission_id;
  sp_accepts _ := True;
  sp_add := add_transaction;
  sp_remove i p := Done (remove_transaction i p);
  sp_len := len;
  sp_size := pool_size;
|}.

#[local] Instance pending_laws : SubPoolLaws PendingPool.
Proof.
  split; simpl.
  - intros p i t Hinv (e & <- & He)%lookup_fmap_Some.
    by apply (iw_key (pd_index _ Hinv)) in He as [? _].
  - intros p t fee Hinv Hroom Hok _ Hnone. rewrite lookup_fmap, fmap_None in Hnone.
    destruct (pending_add_ok p t fee Hinv Hroom Hok Hnone) as (p' & -> & Hinv' & Hs & Hb & _).
    exists p'. split_and!; [done..|]. by rewrite Hb, fmap_insert.
  - intros p t fee. rewrite lookup_fmap, fmap_is_Some. apply pending_add_dup.
  - intros p i Hinv. destruct (pending_remove_ok p i Hinv) as (p' & -> & Hinv' & Hs & Hb & _).
    exists p'. rewrite lookup_fmap. split_and!; [done..|]. by rewrite Hb, fmap_delete.
  - intros p. unfold len. by rewrite map_size_fmap.
  - intros p Hinv. rewrite map_sum_fmap. by apply pending_size_ok.
Qed.

(** ** Changing the fees *)
Lemma reinsert_ok p i t :
  pending_wf p → transaction_id (ptransaction t) = i → vtx_ok (ptransaction t) →
  by_id p !! i = None → 0 ≤ submission_id t < pd_submission_id p →
  (∀ j u, by_id p !! j = Some u → submission_id u ≠ submission_id t) →
  pending_wf (reinsert i t p) ∧ pd_submission_id (reinsert i t p) = pd_submission_id p ∧
  by_id (reinsert i t p) = <[i := t]> (by_id p) ∧
  sets_grow (by_id p) (independent_transactions p) (highest_nonces p) i t
    (independent_transactions (reinsert i t p)) (highest_nonces (reinsert i t p)).
Proof.
  intros Wp Hi Hok Hnone Hsub Hfresh. pose proof (pending_sets p Wp) as Ws.
  pose proof Wp as [Hu Wi _ _ _].
  assert (Hnonce : nonce_ok i) by (rewrite <-Hi; apply Hok).
  pose proof (sets_insert _ _ _ _ _ _ i t Wi Ws Hnone Hnonce Hfresh) as G.
  rewrite <-Hi in Hnone.
  pose proof (index_wf_insert _ _ pt_cmp_eq _ _ (pd_submission_id p) _ _ t Wi ltac:(lia) Hsub Hfresh
    Hnone Hok) as Wi'. rewrite Hi in Wi'.
  unfold reinsert, update_independents_and_highest_nonces, insert_entry, add_size. simpl. revert G.
  destruct (ancestor_in (by_id p) i); simpl; intros G; (split_and!; [|done..]);
    destruct G as [[Gi Gh Gr] _ _ _]; by split.
Qed.

Record sets_exact p : Prop := {
  se_roots : roots_exact (by_id p) (independent_transactions p);
  se_covered : tops_covered (by_id p) (highest_nonces p);
  se_tops : tops_exact (by_id p) (highest_nonces p);
}.

(** Putting drained entries back in ascending order builds exact sets. *)
Lemma rebuild_ok (f : PendingTransaction → PendingTransaction) m0 b0 sz0 l p :
  (∀ t, ptransaction (f t) = ptransaction t ∧ submission_id (f t) = submission_id t) →
  index_wf ptransaction submission_id m0 (pd_submission_id p) b0 sz0 →
  (∀ e, e ∈ l → m0 !! e.1 = Some e.2) → StronglySorted key_lt l →
  (∀ j u, by_id p !! j = Some u → ∃ t, m0 !! j = Some t ∧ u = f t) →
  (∀ j u e, by_id p !! j = Some u → e ∈ l → cmp j e.1 = Lt) →
  pending_wf p → sets_exact p →
  let p' := foldl (λ p e, reinsert e.1 (f e.2) p) p l in
  pending_wf p' ∧ sets_exact p' ∧ pd_submission_id p' = pd_submission_id p ∧
  (∀ j u, by_id p' !! j = Some u ↔ by_id p !! j = Some u ∨ ∃ t, (j, t) ∈ l ∧ u = f t).
Proof.
  intros Hf W0. revert p W0. induction l as [|[i t] l IH]; intros p W0 Hl Hs Hsrc Hlt Wp Ep; simpl.
  { split_and!; [done..|]. intros j u. split; [by left|]. intros [?|(? & []%elem_of_nil & _)]; done. }
  inversion Hs as [|? ? Hs' Hhd]; subst. rewrite Forall_forall in Hhd.
  pose proof (Hl (i, t) ltac:(left)) as Ht. simpl in Ht.
  destruct (iw_key W0 i t Ht) as [Hid Hok]. destruct (Hf t) as [Hft Hfs].
  assert (Hnone : ∀ j, by_id p !! j ≠ None → cmp j i = Lt).
  { intros j Hj. destruct (by_id p !! j) as [u|] eqn:Hu; [|done]. by apply (Hlt j u (i, t) Hu); left. }
  assert (Hi : by_id p !! i = None).
  { destruct (by_id p !! i) eqn:E; [|done]. pose proof (Hnone i ltac:(by rewrite E)) as C.
    by rewrite cmp_refl in C. }
  destruct (reinsert_ok p i (f t)) as (W1 & S1 & B1 & G).
  { done. } { by rewrite Hft. } { by rewrite Hft. } { done. }
  { rewrite Hfs. by eapply (iw_sub W0). }
  { intros j u Hu. destruct (Hsrc j u Hu) as (t' & Ht' & ->). rewrite Hfs, (proj2 (Hf t')).
    intros E. assert (i = j) as <- by (by apply (iw_inj W0 _ _ _ _ Ht Ht')). congruence. }
  assert (Htop : is_top (by_id p) i).
  { unfold is_top. destruct (by_id p !! descendant i) eqn:E; [|done].
    pose proof (Hnone (descendant i) ltac:(by rewrite E)) as C. pose proof (entry_nonce W0 i t Ht).
    unfold descendant in C. rewrite next_nonce_ok in C by done. destruct i as [s k].
    apply tid_cmp_lt in C. simpl in C. lia. }
  destruct (IH (reinsert i (f t) p)) as (W' & E' & S' & B').
  - by rewrite S1.
  - intros e He. apply Hl. by right.
  - done.
  - rewrite B1. intros j u [[<- <-]|[_ Hu]]%lookup_insert_Some; eauto.
  - rewrite B1. intros j u e [[<- <-]|[_ Hu]]%lookup_insert_Some He; [by apply Hhd|].
    apply (Hlt j u); [done|by right].
  - done.
  - destruct G as [_ G1 G2 G3], Ep as [E1 E2 E3]. split; rewrite B1; auto.
  - rewrite S1 in S'. split_and!; [done..|]. intros j u. rewrite B', B1, lookup_insert_Some.
    setoid_rewrite elem_of_cons. split.
    + intros [[[<- <-]|[_ Hu]]|(t' & Ht' & ->)]; [right; eauto|by left|right; eauto].
    + intros [Hu|(t' & [[= <- <-]|Ht'] & ->)]; [left; right|left; left|right; eauto]; [|done].
      split; [|done]. intros <-. congruence.
Qed.

(** Draining the pool and putting back what passes a test. *)
Lemma drain_ok (f : PendingTransaction → PendingTransaction) (bad : PendingTransaction → bool) p :
  (∀ t, ptransaction (f t) = ptransaction t ∧ submission_id (f t) = submission_id t) →
  pending_wf p →
  let p' := foldl (λ p e, reinsert e.1 (f e.2) p) (clear_transactions p).2 (cut_kept bad (by_id p)) in
  pending_wf p' ∧ sets_exact p' ∧ pd_submission_id p' = pd_submission_id p ∧
  (∀ j u, by_id p' !! j = Some u ↔ ∃ t, (j, t) ∈ cut_kept bad (by_id p) ∧ u = f t).
Proof.
  intros Hf Wp. pose proof Wp as [Hu Wi _ _ _].
  destruct (rebuild_ok f (by_id p) (all p) (size_of p) (cut_kept bad (by_id p)) (clear_transactions p).2)
    as (W & E & S' & B); [done|done| |apply cut_kept_sorted|..].
  - intros [i t] [Hi _]%elem_of_cut_kept. done.
  - intros j u. simpl. by rewrite lookup_empty.
  - intros j u e. simpl. by rewrite lookup_empty.
  - split; simpl; [done| |apply view_empty|apply view_empty|intros i t; by rewrite lookup_empty].
    split; try (intros *; rewrite ?lookup_empty; done); [constructor|].
    intros t. rewrite elem_of_nil. setoid_rewrite lookup_empty. naive_solver.
  - split; intros i t; simpl; by rewrite lookup_empty.
  - split_and!; [done..|]. intros j u. rewrite B. simpl. rewrite lookup_empty. naive_solver.
Qed.

(** The transaction and every predecessor of its sender in the pool can pay. *)
Definition affordable (base_fee : Z) p (i : TransactionId) : Prop :=
  ∀ j u, by_id p !! j = Some u → sender j = sender i → nonce j ≤ nonce i →
    base_fee ≤ max_fee_per_gas (ptransaction u).

(** [update_base_fee] splits the pending sub-pool exactly: it keeps the
    transactions that can pay the new base fee and whose predecessors of the same
    sender can, returns all others, and leaves a well-formed sub-pool in which
    every entry carries its priority under the new base fee, the independent set
    is exactly the set of transactions without predecessor and the highest-nonce
    set exactly that of transactions without successor, whatever they were
    before. *)
Theorem update_base_fee_ok p base_fee :
  pending_wf p →
  pending_wf (update_base_fee base_fee p).2 ∧ sets_exact (update_base_fee base_fee p).2 ∧
  (∀ tx, tx ∈ (update_base_fee base_fee p).1 ↔
    ∃ i e, by_id p !! i = Some e ∧ ptransaction e = tx ∧ ¬ affordable base_fee p i) ∧
  (∀ i u, by_id (update_base_fee base_fee p).2 !! i = Some u ↔
    ∃ e, by_id p !! i = Some e ∧ affordable base_fee p i ∧ u = with_priority base_fee e).
Proof.
  intros Wp. set (bad t := max_fee_per_gas (ptransaction t) <? base_fee).
  destruct (drain_ok (with_priority base_fee) bad p) as (W & E & _ & B); [done|done|].
  assert (Hb : ∀ i, (∀ j w, by_id p !! j = Some w → sender j = sender i → nonce j ≤ nonce i → bad w = false)
    ↔ affordable base_fee p i).
  { intros i. unfold affordable, bad. by setoid_rewrite Z.ltb_ge. }
  split_and!; [exact W|exact E| |].
  - intros t. simpl. rewrite list_elem_of_fmap. split.
    + intros ([i e] & -> & [Hi Hn]%elem_of_cut_dropped). exists i, e.
      split_and!; [done..|]. intros Ha. apply Hn. by apply Hb.
    + intros (i & e & Hi & <- & Hn). exists (i, e). split; [done|].
      apply elem_of_cut_dropped. split; [done|]. by intros Hall%Hb.
  - intros i u. etrans; [apply B|]. setoid_rewrite elem_of_cut_kept. setoid_rewrite Hb. naive_solver.
Qed.

(** [update_blob_fee] evicts from the pending sub-pool every transaction that
    is not a blob transaction, whatever the new blob fee is, since a missing blob
    fee cap compares less than any fee; it keeps exactly the blob transactions that
    can pay the fee and whose predecessors of the same sender are such
    transactions. *)
Theorem update_blob_fee_drops_non_blob p blob_fee :
  pending_wf p →
  pending_wf (update_blob_fee blob_fee p).2 ∧ sets_exact (update_blob_fee blob_fee p).2 ∧
  (∀ i t, by_id p !! i = Some t → max_fee_per_blob_gas (ptransaction t) = None →
    ptransaction t ∈ (update_blob_fee blob_fee p).1 ∧ by_id (update_blob_fee blob_fee p).2 !! i = None) ∧
  (∀ i t, by_id (update_blob_fee blob_fee p).2 !! i = Some t ↔
    by_id p !! i = Some t ∧
    ∀ j u, by_id p !! j = Some u → sender j = sender i → nonce j ≤ nonce i →
      ∃ cap, max_fee_per_blob_gas (ptransaction u) = Some cap ∧ blob_fee ≤ cap).
Proof.
  intros Wp. set (bad t := opt_lt_some (max_fee_per_blob_gas (ptransaction t)) blob_fee).
  destruct (drain_ok id bad p) as (W & E & _ & B); [done|done|].
  assert (Hbad : ∀ u, bad u = false ↔ ∃ cap, max_fee_per_blob_gas (ptransaction u) = Some cap ∧ blob_fee ≤ cap).
  { intros u. unfold bad, opt_lt_some. destruct (max_fee_per_blob_gas _); [rewrite Z.ltb_ge|]; naive_solver. }
  split_and!; [exact W|exact E| |].
  - intros i t Hi Hnone. assert (Hbt : bad t = true) by (unfold bad, opt_lt_some; by rewrite Hnone).
    split.
    + simpl. apply (list_elem_of_fmap_2 (λ e : TransactionId * PendingTransaction, ptransaction e.2) _ (i, t)).
      apply elem_of_cut_dropped. split; [done|]. intros Hall.
      specialize (Hall i t Hi eq_refl ltac:(lia)). by change (bad t = false) in Hall; rewrite Hbt in Hall.
    + apply eq_None_not_Some. intros [u (t' & [Hi' Hall]%elem_of_cut_kept & _)%B].
      specialize (Hall i t Hi eq_refl ltac:(lia)). by change (bad t = false) in Hall; rewrite Hbt in Hall.
  - intros i u. etrans; [apply B|]. setoid_rewrite elem_of_cut_kept. setoid_rewrite Hbad. naive_solver.
Qed.

(** ** Truncation *)

(** [p] results from [p0] by evictions: every transaction that is gone was
    returned; if the highest-nonce set was exact, no transaction was evicted whose
    successor is still there. *)
Record shrunk (p0 p : PendingPool) (removed : list ValidPoolTransaction) : Prop := {
  sh_wf : pending_wf p;
  sh_sub : by_id p ⊆ by_id p0;
  sh_counter : pd_submission_id p = pd_submission_id p0;
  sh_removed : removed ≡ₚ (λ e, ptransaction e.2) <$> map_to_list (by_id p0 ∖ by_id p);
  sh_covered : tops_covered (by_id p) (highest_nonces p);
  sh_exact : tops_exact (by_id p0) (highest_nonces p0) → tops_exact (by_id p) (highest_nonces p);
  sh_closed i : tops_exact (by_id p0) (highest_nonces p0) →
    is_Some (by_id p0 !! i) → by_id p !! i = None → by_id p !! descendant i = None;
}.

Lemma shrunk_refl p : pending_wf p → tops_covered (by_id p) (highest_nonces p) → shrunk p p [].
Proof.
  intros W C. split; [done|done|done| |done|done|].
  - by rewrite map_difference_diag, map_to_list_empty.
  - intros i _ [t Ht] Hn. congruence.
Qed.

Lemma shrunk_step p0 p removed i t :
  shrunk p0 p removed → by_id p !! i = Some t → t ∈ highest_nonces p →
  ∃ p', remove_transaction i p = (Some (ptransaction t), p') ∧
    by_id p' = delete i (by_id p) ∧ shrunk p0 p' (removed ++ [ptransaction t]) ∧
    (∀ u, u ∈ highest_nonces p → u ≠ t → u ∈ highest_nonces p').
Proof.
  intros E Ht Hin. destruct (pending_remove_ok p i (sh_wf _ _ _ E)) as (p' & Hr & W' & Hcnt & Hb & G).
  rewrite Ht in Hr. specialize (G t Ht). exists p'. split_and!; [done|done| |apply G].
  split; [done| |by rewrite Hcnt, (sh_counter _ _ _ E)| | | |].
  - rewrite Hb. etrans; [apply delete_subseteq|apply E].
  - rewrite Hb, (map_difference_delete_r _ _ i t) by (done || apply E).
    rewrite map_to_list_insert by (apply lookup_difference_None; right; eauto).
    rewrite (sh_removed _ _ _ E), fmap_cons. simpl. by rewrite Permutation_app_comm.
  - rewrite Hb. apply G; [by left|apply E].
  - intros Hex. rewrite Hb. by apply G, E.
  - intros j Hex Hj Hgone. rewrite Hb in Hgone |- *. apply lookup_delete_None.
    apply lookup_delete_None in Hgone as [<-|Hgone]; right; [|by apply (sh_closed _ _ _ E)].
    by apply (sh_exact _ _ _ E Hex i t).
Qed.

Definition entry_id t : TransactionId := transaction_id (ptransaction t).
Definition entries_size (l : list PendingTransaction) : Z :=
  foldr (λ t s, vtx_size (ptransaction t) + s) 0 l.
Definition total (m : gmap TransactionId PendingTransaction) : Z :=
  map_sum (λ t, vtx_size (ptransaction t)) m.

(** Removing a part of the highest-nonce set. *)
Lemma remove_ids_ok p0 l removed p :
  shrunk p0 p removed → NoDup l → (∀ t, t ∈ l → t ∈ highest_nonces p) →
  let st := remove_ids (entry_id <$> l) (removed, p) in
  shrunk p0 st.2 st.1 ∧ len st.2 = len p - Z.of_nat (length l) ∧
  total (by_id st.2) = total (by_id p) - entries_size l.
Proof.
  revert removed p; induction l as [|t l IH]; intros removed p E Hnd Hin st.
  { simpl in st. split_and!; [done|simpl; lia|simpl; lia]. }
  apply NoDup_cons in Hnd as [Htl Hnd].
  destruct (vw_sub _ _ (pd_highest _ (sh_wf _ _ _ E)) t (Hin t ltac:(left))) as [i Ht].
  destruct (iw_key (pd_index _ (sh_wf _ _ _ E)) i t Ht) as [Hkey _].
  destruct (shrunk_step p0 p removed i t E Ht (Hin t ltac:(left))) as (p' & Hr & Hb & E' & Hkeep).
  assert (st = remove_ids (entry_id <$> l) (removed ++ [ptransaction t], p')) as ->.
  { unfold st, remove_ids. rewrite fmap_cons. simpl. change (entry_id t) with (transaction_id (ptransaction t)).
    by rewrite Hkey, Hr. }
  destruct (IH (removed ++ [ptransaction t]) p' E' Hnd) as (E2 & L2 & T2).
  { intros u Hu. apply Hkeep; [apply Hin; by right|]. by intros ->. }
  split; [exact E2|]. rewrite L2, T2. unfold len, total. simpl length. simpl entries_size.
  rewrite Hb, (map_sum_delete _ (by_id p) i t Ht), map_size_delete_Some by eauto.
  assert (size (by_id p) ≠ 0%nat).
  { intros Hz%map_size_empty_inv. by rewrite Hz, lookup_empty in Ht. }
  split; lia.
Qed.

Lemma view_length m l : view_wf m l → (length l ≤ size m)%nat.
Proof.
  intros V. rewrite <-length_map_to_list, <-(length_fmap snd (map_to_list m)).
  apply submseteq_length, NoDup_submseteq; [by eapply bset_wf_NoDup, V|].
  intros t [i Hi]%(vw_sub _ _ V). apply list_elem_of_fmap. exists (i, t).
  split; [done|]. by apply elem_of_map_to_list.
Qed.

(** A pool whose highest-nonce set covers the tops is empty when the set is. *)
Lemma no_tops_empty p :
  pending_wf p → tops_covered (by_id p) (highest_nonces p) → highest_nonces p = [] → by_id p = ∅.
Proof.
  intros W C Hnil. destruct (last (bmap_iter (by_id p))) as [[i t]|] eqn:Hl.
  2:{ apply last_None in Hl. apply map_size_empty_inv. by rewrite <-bmap_iter_length, Hl. }
  assert (Hi : by_id p !! i = Some t) by (by apply elem_of_bmap_iter, last_Some_elem_of).
  enough (t ∈ highest_nonces p) as Hin by (rewrite Hnil in Hin; by apply elem_of_nil in Hin).
  apply (C i t Hi). unfold is_top. destruct (by_id p !! descendant i) as [u|] eqn:Hd; [|done].
  apply elem_of_bmap_iter in Hd. apply last_Some in Hl as [l Hl].
  pose proof (entry_nonce (pd_index _ W) i t Hi) as Hn.
  pose proof (bmap_iter_sorted (by_id p)) as Hs. rewrite Hl in Hs, Hd.
  apply elem_of_app in Hd as [Hd|[= E _]%list_elem_of_singleton].
  - assert (cmp (descendant i) i = Lt) as Hlt.
    { clear -Hs Hd. induction l as [|[j w] l IH]; [by apply elem_of_nil in Hd|].
      inversion Hs as [|? ? Hs' Hf]; subst. apply elem_of_cons in Hd as [[= <- <-]|Hd]; [|by apply IH].
      rewrite Forall_forall in Hf. apply (Hf (i, t)). apply elem_of_app. right. by left. }
    unfold descendant in Hlt. rewrite next_nonce_ok in Hlt by done. destruct i as [s k].
    apply tid_cmp_lt in Hlt. simpl in Hlt. lia.
  - by destruct (descendant_not_self (pd_index _ W) i t Hi).
Qed.

Lemma wrap_sub_wrap a b : wrap_u64 (a - wrap_u64 b) = wrap_u64 (a - b).
Proof. unfold wrap_u64. apply Zminus_mod_idemp_r. Qed.

Lemma wrap_sub_step a b c d : wrap_u64 (a - wrap_u64 (b + c) - d) = wrap_u64 (a - b - (c + d)).
Proof.
  replace (a - wrap_u64 (b + c) - d) with ((a - d) - wrap_u64 (b + c)) by lia.
  rewrite wrap_sub_wrap. f_equal. lia.
Qed.

(** A scan without local transactions in its way picks a prefix of the set: all of
    it, or what brings the pool within the limit. *)
Lemma scan_highest_ok limit remove_locals ol os l v removed :
  remove_locals = true ∨ (∀ t, t ∈ l → is_local (ptransaction t) = false) →
  non_local_senders v ≠ 0 →
  ∃ l1 l2 early v', l = l1 ++ l2 ∧
    scan_highest limit remove_locals ol os l v removed = (early, v', removed ++ (entry_id <$> l1)) ∧
    non_local_senders v' = non_local_senders v ∧ unique_senders v' = unique_senders v ∧
    wrap_u64 (ol - total_removed v') = wrap_u64 (ol - total_removed v - Z.of_nat (length l1)) ∧
    wrap_u64 (os - total_size v') = wrap_u64 (os - total_size v - entries_size l1) ∧
    (if early then limit_is_exceeded limit (wrap_u64 (ol - total_removed v')) (wrap_u64 (os - total_size v')) = false
     else l2 = []) ∧
    (l ≠ [] → limit_is_exceeded limit (wrap_u64 (ol - total_removed v)) (wrap_u64 (os - total_size v)) = true →
     l1 ≠ []).
Proof.
  intros Hloc. revert v removed; induction l as [|t l IH]; intros v removed Hnls; simpl.
  { exists [], [], false, v. simpl. rewrite app_nil_r, !Z.sub_0_r. by split_and!. }
  rewrite (proj2 (Z.eqb_neq _ _) Hnls), orb_false_r.
  destruct (limit_is_exceeded limit _ _) eqn:Hx; simpl.
  2:{ exists [], (t :: l), true, v. simpl. rewrite app_nil_r, !Z.sub_0_r.
      split_and!; congruence. }
  assert (negb remove_locals && is_local (ptransaction t) = false) as ->.
  { destruct Hloc as [->|Hl]; [done|]. rewrite (Hl t) by left. by rewrite andb_false_r. }
  assert (Hloc' : remove_locals = true ∨ (∀ u, u ∈ l → is_local (ptransaction u) = false)).
  { destruct Hloc as [?|Hl]; [by left|right]. intros u Hu. apply Hl. by right. }
  destruct (IH Hloc' (mkTruncation (non_local_senders v) (unique_senders v) (wrap_u64 (total_removed v + 1))
    (wrap_u64 (total_size v + vtx_size (ptransaction t)))) (removed ++ [entry_id t]) Hnls)
    as (l1 & l2 & early & v' & -> & Hscan & H1 & H2 & H3 & H4 & H5 & _).
  exists (t :: l1), l2, early, v'. split; [done|].
  split; [rewrite fmap_cons; unfold entry_id in Hscan at 1; by rewrite Hscan, <-app_assoc|].
  simpl in *. rewrite wrap_sub_step in H3, H4. do 2 (split; [done|]).
  split; [rewrite H3; f_equal; lia|]. split; [rewrite H4; f_equal; lia|]. by split.
Qed.

Lemma pool_size_wrap p : pending_wf p → pool_size p = wrap_u64 (total (by_id p)).
Proof.
  intros W. pose proof (iw_size (pd_index _ W)) as Hs. unfold tracks in Hs.
  unfold pool_size, SizeTracker_usize. rewrite Hs. apply wrap_u64_wrap_i64.
Qed.

Definition no_locals p : Prop :=
  ∀ i t, by_id p !! i = Some t → is_local (ptransaction t) = false.

Lemma remove_loop_ok fuel limit remove_locals ol os v p0 removed p :
  shrunk p0 p removed → (size (by_id p) < fuel)%nat → len p < U64 →
  0 ≤ max_txs limit → 0 ≤ max_size limit → remove_locals = true ∨ no_locals p0 →
  non_local_senders v = unique_senders v →
  wrap_u64 (ol - total_removed v) = len p → wrap_u64 (os - total_size v) = pool_size p →
  ∃ removed' p', remove_loop fuel limit remove_locals ol os v (removed, p) = Done (removed', p') ∧
    shrunk p0 p' removed' ∧ exceeds p' limit = false.
Proof.
  revert v removed p; induction fuel as [|fuel IH]; intros v removed p E Hfuel Hlen Ht Hs Hloc Hv Hl Hz; [lia|].
  pose proof (sh_wf _ _ _ E) as W. pose proof (view_length _ _ (pd_highest _ W)) as Hvl.
  simpl. unfold len in Hlen. rewrite Hv, wrap_sub_wrap.
  replace (unique_senders v - (unique_senders v - Z.of_nat (length (highest_nonces p))))
    with (Z.of_nat (length (highest_nonces p))) by lia.
  rewrite wrap_u64_id by (unfold is_u64; lia).
  set (v1 := mkTruncation _ _ _ _).
  destruct (decide (highest_nonces p = [])) as [Hnil|Hne].
  { pose proof (no_tops_empty p W (sh_covered _ _ _ E) Hnil) as Hemp. 
    rewrite Hnil. simpl. rewrite Hnil, orb_true_r. exists removed, p. split_and!; [done|done|].
    unfold exceeds, limit_is_exceeded, len. rewrite pending_size_ok by (done || by rewrite Hemp, map_sum_empty).
    rewrite Hemp, map_size_empty, map_sum_empty. apply orb_false_iff. split; apply Z.ltb_ge; done. }
  assert (Hhi : ∀ t, t ∈ highest_nonces p → ∃ i, by_id p !! i = Some t) by apply W.
  destruct (scan_highest_ok limit remove_locals ol os (highest_nonces p) v1 [])
    as (l1 & l2 & early & v' & Hsplit & -> & H1 & H2 & H3 & H4 & H5 & H6).
  { destruct Hloc as [?|Hn]; [by left|right]. intros t [i Hi]%Hhi.
    apply (Hn i t). by eapply lookup_weaken; [|apply E]. }
  { simpl. destruct (highest_nonces p); [done|simpl; lia]. }
  simpl in H1, H2, H3, H4, H6. simpl.
  pose proof (bset_wf_NoDup _ (vw_sorted _ _ (pd_highest _ W))) as Hnd.
  rewrite Hsplit in Hnd. apply NoDup_app in Hnd as [Hnd _].
  destruct (remove_ids_ok p0 l1 removed p E Hnd) as (E' & L' & T').
  { intros t Hin. rewrite Hsplit. apply elem_of_app. by left. }
  set (st := remove_ids (entry_id <$> l1) (removed, p)) in *.
  assert (Hl' : wrap_u64 (ol - total_removed v') = len st.2).
  { rewrite H3. unfold wrap_u64. rewrite <-Zminus_mod_idemp_l. fold (wrap_u64 (ol - total_removed v)).
    rewrite Hl, <-L'. apply (wrap_u64_id (len st.2)). unfold is_u64, len in *. lia. }
  assert (Hz' : wrap_u64 (os - total_size v') = pool_size st.2).
  { rewrite H4, (pool_size_wrap _ (sh_wf _ _ _ E')), T'. rewrite (pool_size_wrap _ W) in Hz.
    unfold wrap_u64 in *. rewrite <-Zminus_mod_idemp_l, Hz, Zminus_mod_idemp_l. done. }
  destruct early.
  { simpl. exists st.1, st.2. rewrite <-surjective_pairing. split_and!; [done..|].
    unfold exceeds. by rewrite <-Hl', <-Hz'. }
  subst l2. rewrite app_nil_r in Hsplit. simpl. destruct (exceeds st.2 limit) eqn:Hx; simpl.
  2:{ exists st.1, st.2. rewrite <-surjective_pairing. by split_and!. }
  rewrite H1, (proj2 (Z.eqb_neq _ _)) by (destruct (highest_nonces p); [done|simpl; lia]).
  destruct st as [removed' p'] eqn:Est. simpl in *.
  assert (0 < length l1)%nat by (rewrite <-Hsplit; destruct (highest_nonces p); [done|simpl; lia]).
  unfold len in L'. apply IH; try done; [lia|unfold len; lia|congruence].
Qed.

Lemma remove_to_limit_ok fuel limit remove_locals p0 removed p :
  shrunk p0 p removed → (size (by_id p) < fuel)%nat → len p < U64 →
  0 ≤ max_txs limit → 0 ≤ max_size limit → remove_locals = true ∨ no_locals p0 →
  ∃ removed' p', remove_to_limit fuel limit remove_locals (removed, p) = Done (removed', p') ∧
    shrunk p0 p' removed' ∧ exceeds p' limit = false.
Proof.
  intros E Hfuel Hlen Ht Hs Hloc. unfold remove_to_limit. apply remove_loop_ok; try done; simpl.
  - rewrite Z.sub_0_r. apply wrap_u64_id. unfold is_u64, len in *. lia.
  - rewrite Z.sub_0_r. apply wrap_u64_id. unfold pool_size. apply wrap_u64_range.
Qed.

Lemma pending_truncated p limit fuel :
  pending_wf p → tops_covered (by_id p) (highest_nonces p) → no_locals p →
  (size (by_id p) < fuel)%nat → len p < U64 → 0 ≤ max_txs limit → 0 ≤ max_size limit →
  ∃ removed p', truncate_pool fuel limit p = Done (removed, p') ∧
    shrunk p p' removed ∧ exceeds p' limit = false.
Proof.
  intros W C Hloc Hfuel Hlen Ht Hs. unfold truncate_pool.
  destruct (exceeds p limit) eqn:Hx; simpl.
  2:{ exists [], p. split_and!; [done|by apply shrunk_refl|done]. }
  destruct (remove_to_limit_ok fuel limit false p [] p) as (r & p' & -> & E & Hx'); try done.
  { by apply shrunk_refl. } { by right. }
  simpl. rewrite Hx'. simpl. eauto.
Qed.

(** If no pending transaction is local, truncating the pending sub-pool
    terminates within one round per transaction and leaves a well-formed sub-pool
    within the limit; what it returns is exactly what is gone; and if the
    highest-nonce set was exact, no transaction is evicted while its successor
    stays. *)
Theorem pending_truncate_pool_ok p limit fuel :
  pending_wf p → tops_covered (by_id p) (highest_nonces p) → no_locals p →
  (size (by_id p) < fuel)%nat → len p < U64 → 0 ≤ max_txs limit → 0 ≤ max_size limit →
  ∃ removed p', truncate_pool fuel limit p = Done (removed, p') ∧
    shrunk p p' removed ∧ exceeds p' limit = false.
Proof. apply pending_truncated. Qed.

(** What the pool needs to know of the operations that take several transactions
    out. *)
Lemma drain_split (f : PendingTransaction → PendingTransaction) (bad : PendingTransaction → bool) p :
  (∀ t, ptransaction (f t) = ptransaction t ∧ submission_id (f t) = submission_id t) →
  pending_wf p →
  split_off (sp_txs p)
    (sp_txs (foldl (λ p e, reinsert e.1 (f e.2) p) (clear_transactions p).2 (cut_kept bad (by_id p))))
    ((λ e, ptransaction e.2) <$> cut_dropped bad (by_id p)).
Proof.
  intros Hf Wp. destruct (drain_ok f bad p Hf Wp) as (_ & _ & _ & B).
  set (p' := foldl _ _ _) in *. pose proof (pd_index _ Wp) as Wi.
  assert (Hids : transaction_id <$> ((λ e, ptransaction e.2) <$> cut_dropped bad (by_id p))
                 = (cut_dropped bad (by_id p)).*1).
  { rewrite <-list_fmap_compose. apply list_fmap_ext. intros n [i t] Hn%list_elem_of_lookup_2.
    apply elem_of_cut_dropped in Hn as [Hn _]. by apply (iw_key Wi) in Hn as [? _]. }
  pose proof (cut_NoDup bad (by_id p)) as Hnd. rewrite fmap_app in Hnd.
  apply NoDup_app in Hnd as (_ & Hd & Hnd).
  split; rewrite ?Hids.
  - done.
  - intros tx ([i t] & -> & [Hi _]%elem_of_cut_dropped)%list_elem_of_fmap. simpl.
    destruct (iw_key Wi i t Hi) as [-> _]. apply lookup_fmap_Some. eauto.
  - intros i tx. simpl. rewrite !lookup_fmap_Some. split.
    + intros (u & <- & (t & Hk & ->)%B). destruct (Hf t) as [-> _]. split.
      * exists t. split; [done|]. by apply elem_of_cut_kept in Hk as [? _].
      * apply (Hd i). by apply (list_elem_of_fmap_2 fst _ (i, t)).
    + intros [(t & <- & Hi) Hn]. exists (f t). split; [apply Hf|]. apply B. exists t. split; [|done].
      assert (Hor : (i, t) ∈ cut_kept bad (by_id p) ++ cut_dropped bad (by_id p))
        by (by rewrite cut_perm, elem_of_map_to_list).
      apply elem_of_app in Hor as [?|Hdr]; [done|]. destruct Hn.
      by apply (list_elem_of_fmap_2 fst _ (i, t)).
Qed.

Lemma update_base_fee_split p base_fee :
  pending_wf p →
  let '(removed, p') := update_base_fee base_fee p in
  pending_wf p' ∧ pd_submission_id p' = pd_submission_id p ∧ split_off (sp_txs p) (sp_txs p') removed ∧
  (∀ i tx, sp_txs p' !! i = Some tx → base_fee ≤ max_fee_per_gas tx).
Proof.
  intros Wp. set (bad t := max_fee_per_gas (ptransaction t) <? base_fee).
  destruct (drain_ok (with_priority base_fee) bad p) as (W & _ & S' & B); [done|done|].
  split_and!; [exact W|exact S'|exact (drain_split (with_priority base_fee) bad p (λ t, conj eq_refl eq_refl) Wp)|].
  intros i tx Htx. simpl in Htx. apply lookup_fmap_Some in Htx as (e & <- & He).
  apply B in He as (u & Hu & ->). apply elem_of_cut_kept in Hu as [Hi Hall].
  apply Z.ltb_ge. exact (Hall i u Hi eq_refl (Z.le_refl _)).
Qed.

Lemma update_blob_fee_split p blob_fee :
  pending_wf p →
  let '(removed, p') := update_blob_fee blob_fee p in
  pending_wf p' ∧ pd_submission_id p' = pd_submission_id p ∧ split_off (sp_txs p) (sp_txs p') removed ∧
  (∀ i tx, sp_txs p' !! i = Some tx → opt_lt_some (max_fee_per_blob_gas tx) blob_fee = false).
Proof.
  intros Wp. set (bad t := opt_lt_some (max_fee_per_blob_gas (ptransaction t)) blob_fee).
  destruct (drain_ok id bad p) as (W & _ & S' & B); [done|done|].
  split_and!; [exact W|exact S'|exact (drain_split id bad p (λ t, conj eq_refl eq_refl) Wp)|].
  intros i tx Htx. simpl in Htx. apply lookup_fmap_Some in Htx as (e & <- & He).
  apply B in He as (u & Hu & ->). apply elem_of_cut_kept in Hu as [Hi Hall].
  exact (Hall i u Hi eq_refl (Z.le_refl _)).
Qed.

Lemma shrunk_split p p' removed :
  pending_wf p → shrunk p p' removed → split_off (sp_txs p) (sp_txs p') removed.
Proof.
  intros W E. apply split_off_entries; [|apply E|apply E].
  intros i t Hi. by apply (iw_key (pd_index _ W)).
Qed.
End proofs.

(** ** Witnesses *)

#[local] Existing Instance CoinbaseTipOrdering.

Definition example_pending (txs : list ValidPoolTransaction) : PendingPool :=
  run_or PendingPool_new (for_each (λ tx p, add_transaction tx 1 p) txs PendingPool_new).

(** Adding transactions of distinct, ascending identifiers gives exact sets. *)
Lemma example_pending_step p tx :
  pending_wf p → sets_exact p → pd_submission_id p + 1 < U64 → vtx_ok tx →
  by_id p !! transaction_id tx = None → is_top (by_id p) (transaction_id tx) →
  ∃ p', add_transaction tx 1 p = Done p' ∧ pending_wf p' ∧ sets_exact p' ∧
    pd_submission_id p' = pd_submission_id p + 1 ∧
    by_id p' = <[transaction_id tx := mkPendingTransaction (pd_submission_id p) tx
                   (priority (transaction tx) 1)]> (by_id p).
Proof.
  intros W [E1 E2 E3] Hroom Hok Hnone Htop.
  destruct (pending_add_ok p tx 1 W Hroom Hok Hnone) as (p' & Hadd & W' & S' & B & [_ G1 G2 G3]).
  exists p'. split_and!; [done|done| |done|done]. split; rewrite B; auto.
Qed.

Lemma sets_exact_new : sets_exact PendingPool_new.
Proof. split; intros i t; simpl; by rewrite lookup_empty. Qed.

Definition example_txs : list ValidPoolTransaction :=
  [example_vtx 1 1 0 50; example_vtx 2 1 1 20; example_vtx 3 2 0 40].

Lemma example_pending_ok :
  pending_wf (example_pending example_txs) ∧ sets_exact (example_pending example_txs).
Proof.
  unfold example_pending, example_txs, for_each.
  destruct (example_pending_step PendingPool_new (example_vtx 1 1 0 50) pending_new_wf sets_exact_new)
    as (p1 & -> & W1 & X1 & S1 & B1); [done|by apply example_vtx_ok|done|done|].
  cbn [mbind outcome_bind].
  destruct (example_pending_step p1 (example_vtx 2 1 1 20) W1 X1) as (p2 & -> & W2 & X2 & S2 & B2);
    [by rewrite S1|by apply example_vtx_ok|by rewrite B1|unfold is_top; by rewrite B1|].
  cbn [mbind outcome_bind].
  destruct (example_pending_step p2 (example_vtx 3 2 0 40) W2 X2) as (p3 & -> & W3 & X3 & S3 & B3);
    [by rewrite S2, S1|by apply example_vtx_ok|by rewrite B2, B1|unfold is_top; by rewrite B2, B1|].
  done.
Qed.

Lemma update_base_fee_ok_witness :
  pending_wf (update_base_fee 30 (example_pending example_txs)).2 ∧
  map hash (update_base_fee 30 (example_pending example_txs)).1 = [2].
Proof.
  split; [|by vm_compute].
  apply (update_base_fee_ok (example_pending example_txs) 30), example_pending_ok.
Defined.

Lemma update_blob_fee_drops_non_blob_witness :
  pending_wf (update_blob_fee 0 (example_pending example_txs)).2 ∧
  map hash (update_blob_fee 0 (example_pending example_txs)).1 = [1; 2; 3].
Proof.
  split; [|by vm_compute].
  apply (update_blob_fee_drops_non_blob (example_pending example_txs) 0), example_pending_ok.
Defined.

Lemma pending_truncate_pool_ok_witness :
  ∃ removed p', truncate_pool 4 (mkSubPoolLimit 2 1000) (example_pending example_txs) = Done (removed, p') ∧
    map hash removed = [2] ∧ exceeds p' (mkSubPoolLimit 2 1000) = false.
Proof.
  destruct (pending_truncate_pool_ok (example_pending example_txs) (mkSubPoolLimit 2 1000) 4)
    as (r & p' & E & _ & X); [apply example_pending_ok|apply example_pending_ok|..].
  - intros i t Hi. apply elem_of_map_to_list in Hi. vm_compute in Hi.
    repeat (apply elem_of_cons in Hi as [[= -> ->]|Hi]; [done|]). by apply elem_of_nil in Hi.
  - vm_compute. lia.
  - done.
  - done.
  - done.
  - exists r, p'. split; [exact E|]. split; [|exact X]. vm_compute in E. by injection E as <- _.
Defined.

(** ** Truncation with local transactions *)

(** A local transaction and two senders with two transactions each. *)
Definition hang_txs : list ValidPoolTransaction :=
  [mkValidPoolTransaction (example_tx 9 3 0 5) (mkTransactionId 3 0) true 9 Local;
   example_vtx 1 1 0 50; example_vtx 2 1 1 50; example_vtx 3 2 0 40; example_vtx 4 2 1 40].

Definition hang_limit : SubPoolLimit := mkSubPoolLimit 10 100.

(** A round of the loop that neither ends early nor reaches an end condition. *)
Lemma remove_loop_step fuel limit remove_locals ol os v st v1 removed :
  scan_highest limit remove_locals ol os (highest_nonces st.2)
    (mkTruncation (wrap_u64 (non_local_senders v -
                     wrap_u64 (unique_senders v - Z.of_nat (length (highest_nonces st.2)))))
       (Z.of_nat (length (highest_nonces st.2))) (total_removed v) (total_size v)) []
    = (false, v1, removed) →
  exceeds (remove_ids removed st).2 limit = true → non_local_senders v1 ≠ 0 →
  remove_loop (S fuel) limit remove_locals ol os v st =
  remove_loop fuel limit remove_locals ol os v1 (remove_ids removed st).
Proof.
  intros Hscan Hx Hn. cbn [remove_loop]. rewrite Hscan. cbn zeta. rewrite Hx. simpl.
  by rewrite (proj2 (Z.eqb_neq _ _) Hn).
Qed.

(** With a single local transaction left in the highest-nonce set and the limit still
    exceeded, a round only decrements the counter of non-local senders. *)
Section hang.
Context (st : list ValidPoolTransaction * PendingPool) (t : PendingTransaction).
Context (Hhi : highest_nonces st.2 = [t]) (Hloc : is_local (ptransaction t) = true).
Context (Hx : exceeds st.2 hang_limit = true).

Definition hang_loop (fuel : nat) (non_local unique : Z) : outcome (list ValidPoolTransaction * PendingPool) :=
  remove_loop fuel hang_limit false 5 640 (mkTruncation non_local unique 4 512) st.

Lemma hang_step fuel non_local unique :
  let k := wrap_u64 (non_local - wrap_u64 (unique - 1)) in
  1 < k → hang_loop (S fuel) non_local unique = hang_loop fuel (k - 1) 1.
Proof using All.
  intros k Hk. assert (Hk64 : k < U64) by apply wrap_u64_range. unfold hang_loop.
  rewrite (remove_loop_step _ _ _ _ _ _ _ (mkTruncation (k - 1) 1 4 512) []); [done| |done|simpl; lia].
  rewrite Hhi. cbn [scan_highest non_local_senders unique_senders total_removed total_size length].
  change (Z.of_nat 1) with 1. fold k.
  change (limit_is_exceeded hang_limit (wrap_u64 (5 - 4)) (wrap_u64 (640 - 512))) with true.
  rewrite Hloc, (proj2 (Z.eqb_neq k 0)) by lia. cbn [negb orb andb].
  rewrite wrap_u64_id by (unfold is_u64; lia). done.
Qed.

Lemma hang_loop_NoFuel fuel non_local :
  Z.of_nat fuel < non_local < U64 → hang_loop fuel non_local 1 = NoFuel.
Proof using All.
  revert non_local; induction fuel as [|fuel IH]; intros k Hk; [done|].
  assert (Hw : wrap_u64 (k - wrap_u64 (1 - 1)) = k).
  { change (wrap_u64 (1 - 1)) with 0. rewrite Z.sub_0_r. apply wrap_u64_id. unfold is_u64. lia. }
  rewrite hang_step; rewrite Hw; [apply IH|]; lia.
Qed.

(** One local sender counted twice and two senders gone: the counter wraps. *)
Lemma hang_enter fuel : Z.of_nat fuel < U64 - 1 → hang_loop fuel 1 3 = NoFuel.
Proof using All.
  intros Hfuel. destruct fuel as [|fuel]; [done|].
  assert (Hw : wrap_u64 (1 - wrap_u64 (3 - 1)) = U64 - 1) by done.
  rewrite hang_step; rewrite Hw; [|done]. apply hang_loop_NoFuel. lia.
Qed.
End hang.

Definition single_local (l : list PendingTransaction) : bool :=
  match l with [t] => is_local (ptransaction t) | _ => false end.

Lemma single_local_spec l :
  single_local l = true → ∃ t, l = [t] ∧ is_local (ptransaction t) = true.
Proof. destruct l as [|t [|]]; [done| |done]. eauto. Qed.

(** Two rounds remove [ids1] and [ids2] and leave a single local transaction. *)
Definition hang_rounds (p : PendingPool) (ids1 ids2 : list TransactionId) : Prop :=
  let st1 := remove_ids ids1 ([], p) in
  let st2 := remove_ids ids2 st1 in
  (len p = 5 ∧ pool_size p = 640 ∧ exceeds p hang_limit = true ∧ length (highest_nonces p) = 3%nat) ∧
  scan_highest hang_limit false 5 640 (highest_nonces p) (mkTruncation 3 3 0 0) []
    = (false, mkTruncation 2 3 2 256, ids1) ∧
  (exceeds st1.2 hang_limit = true ∧ length (highest_nonces st1.2) = 3%nat) ∧
  scan_highest hang_limit false 5 640 (highest_nonces st1.2) (mkTruncation 2 3 2 256) []
    = (false, mkTruncation 1 3 4 512, ids2) ∧
  (exceeds st2.2 hang_limit = true ∧ single_local (highest_nonces st2.2) = true).

Lemma hang_truncate fuel p ids1 ids2 :
  hang_rounds p ids1 ids2 → Z.of_nat fuel < U64 - 1 → truncate_pool fuel hang_limit p = NoFuel.
Proof.
  intros ((Hn & Hz & Hx0 & Hl0) & Hs1 & (Hx1 & Hl1) & Hs2 & Hx2 & (t & Hhi & Hloc)%single_local_spec) Hfuel.
  unfold truncate_pool. rewrite Hx0. cbn [negb]. unfold remove_to_limit. cbn [snd].
  rewrite Hn, Hz, Hl0. change (Z.of_nat 3) with 3.
  destruct fuel as [|fuel]; [done|].
  rewrite (remove_loop_step _ _ _ _ _ _ _ (mkTruncation 2 3 2 256) ids1);
    [|cbn [snd]; rewrite Hl0; exact Hs1|exact Hx1|done].
  destruct fuel as [|fuel]; [done|].
  rewrite (remove_loop_step _ _ _ _ _ _ _ (mkTruncation 1 3 4 512) ids2);
    [|rewrite Hl1; exact Hs2|exact Hx2|done].
  pose proof (hang_enter _ t Hhi Hloc Hx2 fuel ltac:(lia)) as Hr. unfold hang_loop in Hr.
  by rewrite Hr.
Qed.

Lemma hang_example_rounds :
  hang_rounds (example_pending hang_txs) [mkTransactionId 2 1; mkTransactionId 1 1]
    [mkTransactionId 2 0; mkTransactionId 1 0].
Proof. vm_compute. done. Qed.

(** With a local transaction whose sender cannot be evicted in the first phase,
    truncation can fail to terminate: the counter of non-local senders is decremented
    once per round for the same local sender, then once more for each sender that
    disappears, and wraps below zero.  On this pool of five transactions the loop has
    not ended after any number of rounds below [2 ^ 64 - 1]. *)
Theorem pending_truncate_diverges fuel :
  Z.of_nat fuel < U64 - 1 →
  truncate_pool fuel hang_limit (example_pending hang_txs) = NoFuel.
Proof.
  intros Hfuel. exact (hang_truncate fuel _ _ _ hang_example_rounds Hfuel).
Qed.

Lemma pending_truncate_diverges_witness :
  Z.of_nat 1000 < U64 - 1 ∧ truncate_pool 1000 hang_limit (example_pending hang_txs) = NoFuel.
Proof. split; [done|exact (pending_truncate_diverges 1000 eq_refl)]. Defined.
