(* ===== verification/Best.v ===== *)
(** * The iterator over the best transactions

    [reth/crates/transaction-pool/src/pool/best.rs] and the constructors of the
    iterators in [pending.rs]: what a block builder consumes.  An iterator owns a
    copy of the pending sub-pool's entries and of its independent set, and a
    receiver for transactions that become pending later. *)

From stdpp Require Import prelude gmap list sorting.
From S2P Require Import Prelude.
From S2P Require Import Ord.
From S2P Require Import Identifier.
From S2P Require Import State.
From S2P Require Import PoolTx.
From S2P Require Import SubPools.
From S2P Require Import Pending.

(** [trait BestTransactions]: an iterator whose consumer can reject what it got.
    [next] takes the fuel of its loop. *)
Class BestTransactionsOps (It : Type) := {
  bt_next : nat → It → outcome (option ValidPoolTransaction * It);
  bt_mark_invalid : ValidPoolTransaction → It → It;
  bt_no_updates : It → It;
  bt_set_skip_blobs : bool → It → It;
}.

(** The default method [skip_blobs]. *)
Definition bt_skip_blobs `{BestTransactionsOps It} : It → It := bt_set_skip_blobs true.

Section model.
Context {TO : TransactionOrdering}.

(** What the next [try_recv] calls on the broadcast channel answer before it is
    empty or closed: a transaction, or that the receiver lagged behind. *)
Inductive Received := Recv (t : PendingTransaction) | Lagged.

Record BestTransactions := mkBestTransactions {
  ball : gmap TransactionId PendingTransaction;
  independent : list PendingTransaction;
  invalid : gset Z;
  new_transaction_receiver : option (list Received);
  skip_blobs : bool;
}.

(** [BestTransactions::mark_invalid]. *)
Definition mark_invalid (tx : ValidPoolTransaction) (b : BestTransactions) : BestTransactions :=
  mkBestTransactions (ball b) (independent b) ({[hash tx]} ∪ invalid b) (new_transaction_receiver b)
    (skip_blobs b).

(** [BestTransactions::ancestor] is [ancestor_in] on the iterator's entries. *)

(** The body of [add_new_transactions], also of the loop of [best_with_unlocked]. *)
Definition insert_new (pending_tx : PendingTransaction) (b : BestTransactions) : BestTransactions :=
  let tx_id := transaction_id (ptransaction pending_tx) in
  let ind :=
    match ancestor_in (ball b) tx_id with
    | None => bset_insert pending_tx (independent b)
    | Some _ => independent b
    end in
  mkBestTransactions (<[tx_id := pending_tx]> (ball b)) ind (invalid b) (new_transaction_receiver b)
    (skip_blobs b).

(** [try_recv] skips [Lagged]; [add_new_transactions] repeats it until it answers
    [None]. *)
Fixpoint receive_all (queue : list Received) (b : BestTransactions) : BestTransactions :=
  match queue with
  | [] => b
  | Recv t :: queue' => receive_all queue' (insert_new t b)
  | Lagged :: queue' => receive_all queue' b
  end.

Definition set_receiver (r : option (list Received)) (b : BestTransactions) : BestTransactions :=
  mkBestTransactions (ball b) (independent b) (invalid b) r (skip_blobs b).

(** [BestTransactions::add_new_transactions]. *)
Definition add_new_transactions (b : BestTransactions) : BestTransactions :=
  match new_transaction_receiver b with
  | None => b
  | Some queue => receive_all queue (set_receiver (Some []) b)
  end.

(** [impl Iterator for BestTransactions]. *)
Fixpoint next (fuel : nat) (b : BestTransactions)
  : outcome (option ValidPoolTransaction * BestTransactions) :=
  match fuel with
  | O => NoFuel
  | S fuel' =>
    let b := add_new_transactions b in
    match bset_pop_last (independent b) with
    | None => Done (None, b)
    | Some (best, ind) =>
      let tx := ptransaction best in
      if bool_decide (hash tx ∈ invalid b) then
        next fuel' (mkBestTransactions (ball b) ind (invalid b) (new_transaction_receiver b) (skip_blobs b))
      else
        let ind :=
          match ball b !! unlocks best with Some u => bset_insert u ind | None => ind end in
        let b := mkBestTransactions (ball b) ind (invalid b) (new_transaction_receiver b) (skip_blobs b) in
        if skip_blobs b && is_eip4844 tx then next fuel' (mark_invalid tx b)
        else Done (Some tx, b)
    end
  end.

(** [BestTransactions::no_updates] and [set_skip_blobs]. *)
Definition no_updates (b : BestTransactions) : BestTransactions := set_receiver None b.
Definition set_skip_blobs (s : bool) (b : BestTransactions) : BestTransactions :=
  mkBestTransactions (ball b) (independent b) (invalid b) (new_transaction_receiver b) s.

#[global] Instance BestTransactions_ops : BestTransactionsOps BestTransactions := {|
  bt_next := next;
  bt_mark_invalid := mark_invalid;
  bt_no_updates := no_updates;
  bt_set_skip_blobs := set_skip_blobs;
|}.

(** [PendingPool::best]. *)
Definition best (p : PendingPool) : BestTransactions :=
  mkBestTransactions (by_id p) (independent_transactions p) ∅ (Some []) false.

(** [PendingPool::best_with_unlocked]: submission ids after those of the pool. *)
Definition best_with_unlocked (unlocked : list ValidPoolTransaction) (base_fee : Z) (p : PendingPool)
  : BestTransactions :=
  (foldl (λ '(b, sub) tx,
     let sub := wrap_u64 (sub + 1) in
     (insert_new (mkPendingTransaction sub tx (priority (transaction tx) base_fee)) b, sub))
     (best p, pd_submission_id p) unlocked).1.

(** ** BestTransactionsWithFees *)
Record BestTransactionsWithFees := mkBestTransactionsWithFees {
  wf_best : BestTransactions;
  wf_base_fee : Z;
  wf_base_fee_per_blob_gas : Z;
}.

(** [PendingPool::best_with_basefee_and_blobfee]. *)
Definition best_with_basefee_and_blobfee (base_fee base_fee_per_blob_gas : Z) (p : PendingPool)
  : BestTransactionsWithFees :=
  mkBestTransactionsWithFees (best p) base_fee base_fee_per_blob_gas.

(** The condition of [BestTransactionsWithFees::next]. *)
Definition satisfies_fees (base_fee base_fee_per_blob_gas : Z) (tx : ValidPoolTransaction) : bool :=
  (base_fee <=? max_fee_per_gas tx) &&
  match max_fee_per_blob_gas tx with None => true | Some fee => base_fee_per_blob_gas <=? fee end.

Fixpoint next_with_fees (fuel : nat) (b : BestTransactionsWithFees)
  : outcome (option ValidPoolTransaction * BestTransactionsWithFees) :=
  match fuel with
  | O => NoFuel
  | S fuel' =>
    '(otx, inner) ← next fuel (wf_best b);
    let b := mkBestTransactionsWithFees inner (wf_base_fee b) (wf_base_fee_per_blob_gas b) in
    match otx with
    | None => Done (None, b)
    | Some tx =>
      if satisfies_fees (wf_base_fee b) (wf_base_fee_per_blob_gas b) tx then Done (Some tx, b)
      else next_with_fees fuel'
             (mkBestTransactionsWithFees (mark_invalid tx (wf_best b)) (wf_base_fee b)
                (wf_base_fee_per_blob_gas b))
    end
  end.

Definition with_fees_map (f : BestTransactions → BestTransactions) (b : BestTransactionsWithFees)
  : BestTransactionsWithFees :=
  mkBestTransactionsWithFees (f (wf_best b)) (wf_base_fee b) (wf_base_fee_per_blob_gas b).

#[global] Instance BestTransactionsWithFees_ops : BestTransactionsOps BestTransactionsWithFees := {|
  bt_next := next_with_fees;
  bt_mark_invalid tx := with_fees_map (mark_invalid tx);
  bt_no_updates := with_fees_map no_updates;
  bt_set_skip_blobs s := with_fees_map (set_skip_blobs s);
|}.
End model.

(** ** BestTransactionFilter *)
Section filter.
Context {It : Type} `{BestTransactionsOps It}.

Record BestTransactionFilter := mkBestTransactionFilter {
  fl_best : It;
  fl_predicate : ValidPoolTransaction → bool;
}.

Fixpoint next_filtered (fuel : nat) (b : BestTransactionFilter)
  : outcome (option ValidPoolTransaction * BestTransactionFilter) :=
  match fuel with
  | O => NoFuel
  | S fuel' =>
    '(otx, inner) ← bt_next fuel (fl_best b);
    match otx with
    | None => Done (None, mkBestTransactionFilter inner (fl_predicate b))
    | Some tx =>
      if fl_predicate b tx then Done (Some tx, mkBestTransactionFilter inner (fl_predicate b))
      else next_filtered fuel' (mkBestTransactionFilter (bt_mark_invalid tx inner) (fl_predicate b))
    end
  end.

Definition filter_map_best (f : It → It) (b : BestTransactionFilter) : BestTransactionFilter :=
  mkBestTransactionFilter (f (fl_best b)) (fl_predicate b).

#[global] Instance BestTransactionFilter_ops : BestTransactionsOps BestTransactionFilter := {|
  bt_next := next_filtered;
  bt_mark_invalid tx := filter_map_best (bt_mark_invalid tx);
  bt_no_updates := filter_map_best bt_no_updates;
  bt_set_skip_blobs s := filter_map_best (bt_set_skip_blobs s);
|}.
End filter.
Arguments BestTransactionFilter It : clear implicits.

(** Calling [next] up to [n] times and collecting what it yields. *)
Fixpoint drain `{BestTransactionsOps It} (fuel n : nat) (b : It) : outcome (list ValidPoolTransaction) :=
  match n with
  | O => Done []
  | S n' =>
    '(otx, b) ← bt_next fuel b;
    match otx with
    | None => Done []
    | Some tx => txs ← drain fuel n' b; Done (tx :: txs)
    end
  end.

(** ** A complete iteration *)
Section complete.
Context {TO : TransactionOrdering}.
Context {m : gmap TransactionId PendingTransaction} {n : Z} {s : list PendingTransaction} {sz : Z}.
Context (W : index_wf ptransaction submission_id m n s sz).
Implicit Types (t u a : PendingTransaction) (Y : list PendingTransaction) (b : BestTransactions).

(** An entry that can be executed after the entries [Y]: it is not among them and
    its predecessor is, if the pool has one. *)
Definition ready Y t : Prop :=
  ∃ i, m !! i = Some t ∧ t ∉ Y ∧
    ∀ j a, unchecked_ancestor i = Some j → m !! j = Some a → a ∈ Y.

(** The state of an iterator that has yielded [Y]. *)
Record progress Y b : Prop := {
  pg_all : ball b = m;
  pg_invalid : invalid b = ∅;
  pg_receiver : add_new_transactions b = b;
  pg_blobs : skip_blobs b = false;
  pg_view : view_wf m (independent b);
  pg_ready t : t ∈ independent b ↔ ready Y t;
  pg_entries t : t ∈ Y → ∃ i, m !! i = Some t;
  pg_closed i t j a : m !! i = Some t → t ∈ Y → unchecked_ancestor i = Some j → m !! j = Some a → a ∈ Y;
  pg_NoDup : NoDup Y;
}.

(** Executing a ready entry unlocks its successor and nothing else. *)
Lemma ready_snoc Y b i t u :
  progress Y b → m !! i = Some t → ready Y t →
  ready (Y ++ [t]) u ↔ (ready Y u ∧ u ≠ t) ∨ m !! descendant i = Some u.
Proof using W.
  intros P Ht (i' & Hi' & HtY & Hanc). assert (i' = i) as -> by (by eapply (entry_inj W)).
  split.
  - intros (k & Hk & Hn & Hk'). rewrite elem_of_app, list_elem_of_singleton in Hn.
    destruct (unchecked_ancestor k) as [j|] eqn:Ej.
    2:{ left. split; [|tauto]. exists k. split_and!; [done|tauto|]. intros j a. by rewrite Ej. }
    destruct (m !! j) as [a|] eqn:Ea.
    2:{ left. split; [|tauto]. exists k. split_and!; [done|tauto|].
        intros j' a'. rewrite Ej. intros [= <-]. by rewrite Ea. }
    pose proof (Hk' j a eq_refl Ea) as [Ha|Ha%list_elem_of_singleton]%elem_of_app.
    + left. split; [|tauto]. exists k. split_and!; [done|tauto|].
      intros j' a'. rewrite Ej. intros [= <-]. rewrite Ea. by intros [= <-].
    + right. subst a. assert (j = i) as -> by (by eapply (entry_inj W)).
      assert (descendant i = k) as ->; [|done].
      apply descendant_ancestor; [|done]. pose proof (entry_nonce W k u Hk).
      unfold nonce_ok, u64_max in *. unfold is_u64. lia.
  - intros [[(k & Hk & HuY & Hk') Hne]|Hd].
    + exists k. rewrite elem_of_app, list_elem_of_singleton. split_and!; [done|tauto|].
      intros j a Hj Ha. apply elem_of_app. left. by eapply Hk'.
    + pose proof (ancestor_of_descendant W i t Ht) as Hda. exists (descendant i).
      rewrite elem_of_app, list_elem_of_singleton. split_and!; [done| |].
      * intros [Hu| ->].
        { apply HtY. by eapply (pg_closed _ _ P). }
        { by apply (descendant_not_self W i t Ht), (entry_inj W _ _ t). }
      * intros j a Hj Ha. apply elem_of_app. right. apply list_elem_of_singleton. congruence.
Qed.

Lemma yielded_dec Y b i t : progress Y b → m !! i = Some t → t ∈ Y ∨ t ∉ Y.
Proof using W.
  intros P Ht. destruct (decide (i ∈ entry_id <$> Y)) as [Hin|Hn].
  - left. apply list_elem_of_fmap in Hin as (u & Hu & HuY).
    destruct (pg_entries _ _ P u HuY) as [j Hj]. destruct (iw_key W j u Hj) as [Hkey _].
    unfold entry_id in Hu. congruence.
  - right. intros HtY. apply Hn. destruct (iw_key W i t Ht) as [<- _].
    by apply (list_elem_of_fmap_2 entry_id).
Qed.

Lemma all_yielded Y b : progress Y b → independent b = [] → ∀ i t, m !! i = Some t → t ∈ Y.
Proof using W.
  intros P Hnil.
  assert (Hk : ∀ k : nat, ∀ i t, nonce i = Z.of_nat k → m !! i = Some t → t ∈ Y).
  { induction k as [k IH] using lt_wf_ind. intros i t Hi Ht.
    destruct (yielded_dec Y b i t P Ht) as [|HtY]; [done|exfalso].
    enough (t ∈ independent b) as Hin by (rewrite Hnil in Hin; by apply elem_of_nil in Hin).
    apply (pg_ready _ _ P). exists i. split_and!; [done..|].
    intros j a [Hnz ->]%unchecked_ancestor_Some Ha.
    apply (IH (k - 1)%nat ltac:(lia) (mkTransactionId (sender i) (nonce i - 1))); [simpl; lia|done]. }
  intros i t Ht. pose proof (entry_nonce W i t Ht) as Hn. unfold nonce_ok in Hn.
  apply (Hk (Z.to_nat (nonce i)) i t); [lia|done].
Qed.

(** One step: the best of the ready entries is yielded. *)
Lemma next_progress f Y b :
  progress Y b →
  (next (S f) b = Done (None, b) ∧ ∀ i t, m !! i = Some t → t ∈ Y) ∨
  ∃ t b', next (S f) b = Done (Some (ptransaction t), b') ∧ progress (Y ++ [t]) b' ∧
    ready Y t ∧ ∀ u, ready Y u → u ≠ t → cmp u t = Lt.
Proof using W.
  intros P. cbn [next]. rewrite (pg_receiver _ _ P).
  destruct (bset_pop_last (independent b)) as [[t ind]|] eqn:Hpop.
  2:{ left. split; [done|]. by eapply all_yielded, bset_pop_last_None. }
  right. pose proof (bset_pop_last_spec _ _ _ Hpop) as Hind.
  assert (Hready : ready Y t) by (apply (pg_ready _ _ P); rewrite Hind; apply elem_of_app; right; by left).
  pose proof Hready as (i & Hi & HtY & Hanc).
  rewrite (pg_invalid _ _ P), bool_decide_eq_false_2 by set_solver.
  rewrite (pg_blobs _ _ P). simpl. destruct (iw_key W i t Hi) as [Hkey _].
  assert (V : view_wf m ind).
  { split; [eapply bset_wf_app_l; rewrite <-Hind; apply P|].
    intros u Hu. apply (pg_view _ _ P). rewrite Hind. apply elem_of_app. by left. }
  assert (Helem : ∀ u, u ∈ ind ↔ ready Y u ∧ u ≠ t).
  { intros u. rewrite <-(pg_ready _ _ P), Hind, elem_of_app, list_elem_of_singleton. split.
    - intros Hu. split; [by left|]. intros ->.
      pose proof (bset_pop_last_max _ _ _ _ (vw_sorted _ _ (pg_view _ _ P)) Hpop Hu) as C.
      by rewrite cmp_refl in C.
    - tauto. }
  rewrite (pg_all _ _ P). unfold unlocks. rewrite Hkey.
  fold (unlock m i ind). eexists t, _. split; [done|]. split_and!; [split; simpl|done|].
  - done.
  - done.
  - pose proof (pg_receiver _ _ P) as Hr. unfold add_new_transactions in *. simpl.
    destruct (new_transaction_receiver b) as [q|] eqn:Eq; [|done].
    assert (q = []) as ->; [|done].
    assert (∀ q b0, new_transaction_receiver (receive_all q b0) = new_transaction_receiver b0) as Hra.
    { induction q0 as [|[u|] q0 IH]; intros b0; simpl; [done|by rewrite IH|by rewrite IH]. }
    apply (f_equal new_transaction_receiver) in Hr. rewrite Hra, Eq in Hr. simpl in Hr. congruence.
  - done.
  - by eapply unlock_view.
  - intros u. rewrite (elem_of_unlock _ _ _ _ _ i u W V), Helem.
    by rewrite (ready_snoc Y b i t u P Hi Hready).
  - intros u [Hu|Hu%list_elem_of_singleton]%elem_of_app; [by apply (pg_entries _ _ P)|]. subst u. eauto.
  - intros k u j a Hk [Hu|Hu%list_elem_of_singleton]%elem_of_app Hj Ha; apply elem_of_app; left.
    + by apply (pg_closed _ _ P k u j).
    + subst u. assert (k = i) as -> by (by apply (entry_inj W k i t)). by eapply Hanc.
  - apply NoDup_app. split_and!; [apply P| |apply NoDup_singleton].
    intros u Hu ->%list_elem_of_singleton. done.
  - intros u Hu Hne. eapply (bset_pop_last_max (independent b)); [apply P|done|].
    by apply Helem.
Qed.

(** The order in which a run yields the entries [l] after [Y]. *)
Definition yields_best_first Y (l : list PendingTransaction) : Prop :=
  ∀ l1 t l2, l = l1 ++ t :: l2 →
    ready (Y ++ l1) t ∧ ∀ u, ready (Y ++ l1) u → u ≠ t → cmp u t = Lt.

Lemma drain_progress f k Y b :
  progress Y b → (size m ≤ length Y + k)%nat →
  ∃ l, drain (S f) k b = Done (ptransaction <$> l) ∧ yields_best_first Y l ∧
    NoDup (Y ++ l) ∧ (∀ t, t ∈ Y ++ l ↔ ∃ i, m !! i = Some t).
Proof using W.
  revert Y b; induction k as [|k IH]; intros Y b P Hsz; cbn [drain].
  - assert (Hall : ∀ i t, m !! i = Some t → t ∈ Y).
    { destruct (next_progress 0 Y b P) as [[_ Hall]|(t & b' & _ & P' & _)]; [done|].
      pose proof (pg_NoDup _ _ P') as Hnd.
      assert (length (Y ++ [t]) ≤ size m)%nat as Hle.
      { rewrite <-length_map_to_list, <-(length_fmap snd (map_to_list m)).
        apply submseteq_length, NoDup_submseteq; [done|]. intros u [i Hi]%(pg_entries _ _ P').
        apply list_elem_of_fmap. exists (i, u). split; [done|]. by apply elem_of_map_to_list. }
      rewrite length_app in Hle. simpl in Hle. lia. }
    exists []. rewrite app_nil_r. split_and!; [done| |apply P|].
    + intros l1 t l2 E. by destruct l1.
    + intros t. split; [apply P|]. intros [i Hi]. by eapply Hall.
  - change (bt_next (S f) b) with (next (S f) b).
    destruct (next_progress f Y b P) as [[-> Hall]|(t & b' & -> & P' & Hr & Hmax)]; simpl.
    + exists []. rewrite app_nil_r. split_and!; [done| |apply P|].
      * intros l1 t l2 E. by destruct l1.
      * intros t. split; [apply P|]. intros [i Hi]. by eapply Hall.
    + destruct (IH (Y ++ [t]) b' P') as (l & -> & Hy & Hnd & Hin).
      { rewrite length_app. simpl. lia. }
      simpl. exists (t :: l). rewrite <-app_assoc in Hnd. split_and!; [done| |done|].
      * intros [|t' l1] u l2 [= -> E]; [by rewrite app_nil_r|].
        subst l. destruct (Hy l1 u l2 eq_refl) as [H1 H2].
        rewrite <-app_assoc in H1, H2. done.
      * intros u. rewrite <-Hin, <-app_assoc. done.
Qed.
End complete.

(** An iterator over a pending sub-pool whose independent set is exact yields
    every pending transaction exactly once, never panics and ends: the run is a
    permutation of the sub-pool, at each point of it the yielded transaction's
    predecessor, if pending, has been yielded before, and the transaction is the
    greatest, by priority and then by age, of all that are executable at that
    point.  One unit of fuel per call of [next] is enough. *)
Theorem best_yields_all `{TO : TransactionOrdering} (p : PendingPool) f k :
  pending_wf p → roots_exact (by_id p) (independent_transactions p) → (size (by_id p) ≤ k)%nat →
  ∃ l, drain (S f) k (best p) = Done (ptransaction <$> l) ∧
    l ≡ₚ (map_to_list (by_id p)).*2 ∧ @yields_best_first TO (by_id p) [] l.
Proof.
  intros Wp Hex Hk. pose proof (pd_index _ Wp) as W.
  destruct (drain_progress W f k [] (best p)) as (l & Hd & Hy & Hnd & Hin); [|done|].
  - split; simpl; try done; [apply Wp| | |by intros ? ? ? ? ? ?%elem_of_nil|constructor].
    + intros t. split.
      * intros Ht. destruct (vw_sub _ _ (pd_independent _ Wp) t Ht) as [i Hi]. exists i.
        split_and!; [done|by intros ?%elem_of_nil|]. intros j a Hj Ha.
        rewrite (Hex i t Hi Ht j Hj) in Ha. done.
      * intros (i & Hi & _ & Hr). apply (pd_roots _ Wp i t Hi). intros j Hj.
        destruct (by_id p !! j) as [a|] eqn:Ha; [|done]. by apply (Hr j a) in Hj as ?%elem_of_nil.
    + by intros t ?%elem_of_nil.
  - exists l. split_and!; [done| |done]. apply NoDup_Permutation.
    + done.
    + apply NoDup_fmap_2_strong; [|apply NoDup_map_to_list].
      intros [i t] [j u] Hi%elem_of_map_to_list Hj%elem_of_map_to_list E. simpl in E. subst u.
      f_equal. by apply (entry_inj W i j t).
    + intros t. simpl in Hin. rewrite Hin, list_elem_of_fmap. split.
      * intros [i Hi]. exists (i, t). split; [done|]. by apply elem_of_map_to_list.
      * intros ([i u] & -> & Hi%elem_of_map_to_list). eauto.
Qed.

Lemma best_yields_all_witness :
  ∃ l, drain 1 3 (@best CoinbaseTipOrdering (example_pending example_txs)) = Done (ptransaction <$> l) ∧
    hash ∘ ptransaction <$> l = [1; 3; 2].
Proof.
  destruct (@best_yields_all CoinbaseTipOrdering (example_pending example_txs) 0 3) as (l & E & _);
    [apply example_pending_ok|apply example_pending_ok|vm_compute; lia|].
  exists l. split; [exact E|]. rewrite list_fmap_compose.
  assert (drain 1 3 (@best CoinbaseTipOrdering (example_pending example_txs)) =
    Done [example_vtx 1 1 0 50; example_vtx 3 2 0 40; example_vtx 2 1 1 20]) as E' by (vm_compute; reflexivity).
  rewrite E' in E. injection E as <-. reflexivity.
Defined.

(** ** Termination and what can be yielded, for any iterator state *)
Section termination.
Context {TO : TransactionOrdering}.
Implicit Types (t u : PendingTransaction) (b : BestTransactions) (m : gmap TransactionId PendingTransaction).

(** How often an entry and what it unlocks can still be taken from the independent
    set: once, plus once per higher nonce of its sender. *)
Definition chain m t : nat :=
  size (filter (λ e : TransactionId * PendingTransaction,
    sender e.1 = sender (entry_id t) ∧ nonce (entry_id t) < nonce e.1) m).
Definition work m (ind : list PendingTransaction) : nat :=
  foldr (λ t s, S (chain m t) + s)%nat 0%nat ind.
Definition work_of b : nat := work (ball b) (independent b).

Record iterator_ok b : Prop := {
  it_keys i t : ball b !! i = Some t → entry_id t = i;
  it_nonces t : t ∈ independent b → nonce_ok (entry_id t);
  it_nonces_all i t : ball b !! i = Some t → nonce_ok i;
  it_drained : add_new_transactions b = b;
}.

Lemma work_app m l1 l2 : work m (l1 ++ l2) = (work m l1 + work m l2)%nat.
Proof. induction l1 as [|t l1 IH]; simpl; [done|]. rewrite IH. lia. Qed.

Lemma work_insert m t l : (work m (bset_insert t l) ≤ S (chain m t) + work m l)%nat.
Proof. induction l as [|u l IH]; simpl; [lia|]. destruct (cmp t u); simpl; lia. Qed.

Lemma chain_unlocked m i t u :
  entry_id t = i → nonce_ok i → m !! descendant i = Some u → entry_id u = descendant i →
  (S (chain m u) ≤ chain m t)%nat.
Proof.
  intros Ht Hi Hu Hk. unfold chain. rewrite Hk, Ht.
  assert (Hd : descendant i = mkTransactionId (sender i) (nonce i + 1))
    by (unfold descendant; by rewrite next_nonce_ok).
  set (f1 := filter _ m). set (f2 := filter _ m).
  assert (Hsub : <[descendant i := u]> f1 ⊆ f2).
  { apply map_subseteq_spec. intros j v [[<- <-]|[_ Hv]]%lookup_insert_Some.
    - apply map_lookup_filter_Some. split; [done|]. rewrite Hd. simpl. lia.
    - apply map_lookup_filter_Some in Hv as [Hv [H1 H2]]. apply map_lookup_filter_Some.
      split; [done|]. rewrite Hd in H1, H2. simpl in *. lia. }
  apply map_subseteq_size in Hsub. rewrite map_size_insert_None in Hsub; [done|].
  apply map_lookup_filter_None. right. intros v _ [_ Hlt]. simpl in Hlt. lia.
Qed.

Lemma receive_all_receiver q b :
  new_transaction_receiver (receive_all q b) = new_transaction_receiver b.
Proof. revert b; induction q as [|[u|] q IH]; intros b; simpl; [done|by rewrite IH|by rewrite IH]. Qed.

Lemma drained_receiver b :
  add_new_transactions b = b ↔ new_transaction_receiver b = None ∨ new_transaction_receiver b = Some [].
Proof.
  unfold add_new_transactions. split.
  - destruct (new_transaction_receiver b) as [q|] eqn:Eq; [|by left]. intros Hr. right.
    apply (f_equal new_transaction_receiver) in Hr. rewrite receive_all_receiver, Eq in Hr. simpl in Hr.
    congruence.
  - intros [-> | E]; [done|]. rewrite E. simpl. destruct b; simpl in *. by subst.
Qed.

(** What a call of [next] guarantees of its result. *)
Definition next_result b (r : option ValidPoolTransaction * BestTransactions) : Prop :=
  iterator_ok r.2 ∧ ball r.2 = ball b ∧ invalid b ⊆ invalid r.2 ∧ skip_blobs r.2 = skip_blobs b ∧
  match r.1 with
  | None => independent r.2 = []
  | Some tx =>
    (work_of r.2 < work_of b)%nat ∧ hash tx ∉ invalid b ∧ (skip_blobs b = true → is_eip4844 tx = false) ∧
    ∀ u, ball b !! descendant (transaction_id tx) = Some u →
      (∀ t, t ∈ independent r.2 → cmp u t = Eq → t = u) → u ∈ independent r.2
  end.

Lemma next_terminates fuel b :
  iterator_ok b → (work_of b < fuel)%nat → ∃ r, next fuel b = Done r ∧ next_result b r.
Proof.
  revert b; induction fuel as [|fuel IH]; intros b Hok Hw; [lia|]. cbn [next].
  rewrite (it_drained _ Hok). pose proof Hok as [Hkeys Hnon Hall Hdr].
  destruct (bset_pop_last (independent b)) as [[t ind]|] eqn:Hpop.
  2:{ eexists. split; [done|]. split_and!; [done..|]. by apply bset_pop_last_None in Hpop. }
  pose proof (bset_pop_last_spec _ _ _ Hpop) as Hind.
  assert (Hwork : work_of b = (work (ball b) ind + S (chain (ball b) t))%nat).
  { unfold work_of. rewrite Hind, work_app. simpl. lia. }
  assert (Hnt : nonce_ok (entry_id t)) by (apply Hnon; rewrite Hind; apply elem_of_app; right; by left).
  assert (Hni : ∀ u, u ∈ ind → nonce_ok (entry_id u))
    by (intros u Hu; apply Hnon; rewrite Hind; apply elem_of_app; by left).
  assert (Hrecv : ∀ ind' inv, add_new_transactions
    (mkBestTransactions (ball b) ind' inv (new_transaction_receiver b) (skip_blobs b)) =
    mkBestTransactions (ball b) ind' inv (new_transaction_receiver b) (skip_blobs b))
    by (intros; apply drained_receiver; by apply drained_receiver in Hdr).
  case_bool_decide as Hinv.
  - destruct (IH (mkBestTransactions (ball b) ind (invalid b) (new_transaction_receiver b) (skip_blobs b)))
      as (r & -> & Hr).
    { by split. } { unfold work_of at 1. simpl. lia. }
    exists r. split; [done|]. destruct Hr as (H1 & H2 & H3 & H4 & H5). split_and!; [done..|].
    destruct r as [[tx|] b']; simpl in *; [|done]. destruct H5 as (? & ? & ? & ?). split_and!; [|done..].
    unfold work_of at 2 in H. simpl in H. lia.
  - set (ind' := match ball b !! unlocks t with Some u => bset_insert u ind | None => ind end).
    assert (Hw' : (work (ball b) ind' < work_of b)%nat).
    { unfold ind', unlocks. destruct (ball b !! descendant _) as [u|] eqn:Hu; [|lia].
      pose proof (chain_unlocked (ball b) _ t u eq_refl Hnt Hu (Hkeys _ _ Hu)).
      pose proof (work_insert (ball b) u ind). lia. }
    assert (Hni' : ∀ u, u ∈ ind' → nonce_ok (entry_id u)).
    { intros u. unfold ind'. destruct (ball b !! unlocks t) as [d|] eqn:Hd; [|by apply Hni].
      intros [->|Hu]%bset_insert_incl; [|by apply Hni]. rewrite (Hkeys _ _ Hd). by eapply Hall. }
    cbn [skip_blobs]. destruct (skip_blobs b && is_eip4844 (ptransaction t)) eqn:Hskip.
    + destruct (IH (mark_invalid (ptransaction t) (mkBestTransactions (ball b) ind' (invalid b)
        (new_transaction_receiver b) (skip_blobs b)))) as (r & -> & Hr).
      { split; simpl; [done..|]. apply Hrecv. } { unfold work_of at 1. simpl. lia. }
      exists r. split; [done|]. destruct Hr as (H1 & H2 & H3 & H4 & H5). simpl in *.
      split_and!; [done|done|set_solver|done|].
      destruct r as [[tx|] b']; simpl in *; [|done]. destruct H5 as (H5 & H6 & H7 & H8).
      unfold work_of at 2 in H5. simpl in H5. split_and!; [lia|set_solver|done|done].
    + eexists. split; [done|]. split_and!; simpl; [by split|done..|].
      split_and!; [unfold work_of at 1; simpl; lia|done|by intros Hsk; rewrite Hsk in Hskip|].
      intros u Hu Hd. unfold ind', unlocks in *. rewrite Hu in *. apply bset_insert_new.
      intros y Hy E. apply Hd; [by apply bset_insert_mono|done].
Qed.

(** The same for the iterator that also enforces fees. *)
Lemma next_with_fees_terminates fuel (b : BestTransactionsWithFees) :
  iterator_ok (wf_best b) → (work_of (wf_best b) < fuel)%nat →
  ∃ otx (b' : BestTransactionsWithFees), next_with_fees fuel b = Done (otx, b') ∧ iterator_ok (wf_best b') ∧
    match otx with
    | None => independent (wf_best b') = []
    | Some tx =>
      satisfies_fees (wf_base_fee b) (wf_base_fee_per_blob_gas b) tx = true ∧
      hash tx ∉ invalid (wf_best b) ∧ (work_of (wf_best b') < work_of (wf_best b))%nat
    end.
Proof.
  revert b; induction fuel as [|fuel IH]; intros b Hok Hw; [lia|]. cbn [next_with_fees].
  destruct (next_terminates (S fuel) (wf_best b) Hok Hw) as ([otx b1] & -> & Hr).
  destruct Hr as (H1 & H2 & H3 & H4 & H5). simpl in *.
  destruct otx as [tx|]; [|by eexists _, _; split_and!].
  destruct H5 as (H5 & H6 & H7 & H8). destruct (satisfies_fees _ _ tx) eqn:Hs.
  { eexists _, _. split; [done|]. by split_and!. }
  destruct (IH (mkBestTransactionsWithFees (mark_invalid tx b1) (wf_base_fee b)
    (wf_base_fee_per_blob_gas b))) as (otx & b' & -> & K1 & K2).
  { destruct H1 as [? ? ? Hd]. split; [done..|]. apply drained_receiver. by apply drained_receiver in Hd. }
  { change (work_of (wf_best _)) with (work_of b1). lia. }
  exists otx, b'. split_and!; [done..|]. simpl in K2. destruct otx as [tx'|]; [|done].
  destruct K2 as (K2 & K3 & K4). change (work_of (mark_invalid tx b1)) with (work_of b1) in K4.
  split_and!; [done|set_solver|lia].
Qed.
End termination.

Lemma best_iterator_ok `{TO : TransactionOrdering} p : pending_wf p → iterator_ok (best p).
Proof.
  intros Wp. pose proof (pd_index _ Wp) as W. split; simpl.
  - intros i t Hi. by apply (iw_key W).
  - intros t [i Hi]%(vw_sub _ _ (pd_independent _ Wp)). destruct (iw_key W i t Hi) as [_ Hok]. apply Hok.
  - intros i t. apply (entry_nonce W).
  - done.
Qed.

(** On every well-formed pending sub-pool, exact or not, each call of [next] on
    the fee-enforcing iterator ends within a bound computed from its state, and a
    transaction it returns can pay the base fee and, if it has a blob fee cap, the
    blob fee, and was not marked invalid; when it returns nothing, no independent
    transaction is left. *)
Theorem best_with_fees_ok `{TO : TransactionOrdering} p base_fee blob_fee fuel :
  pending_wf p → (work_of (best p) < fuel)%nat →
  ∃ otx b', next_with_fees fuel (best_with_basefee_and_blobfee base_fee blob_fee p) = Done (otx, b') ∧
    iterator_ok (wf_best b') ∧
    match otx with
    | None => independent (wf_best b') = []
    | Some tx =>
      base_fee ≤ max_fee_per_gas tx ∧ (∀ cap, max_fee_per_blob_gas tx = Some cap → blob_fee ≤ cap) ∧
      (work_of (wf_best b') < work_of (best p))%nat
    end.
Proof.
  intros Wp Hw.
  destruct (next_with_fees_terminates fuel (best_with_basefee_and_blobfee base_fee blob_fee p))
    as (otx & b' & Hn & Hok & Hr); [by apply best_iterator_ok|done|].
  exists otx, b'. split_and!; [done..|]. destruct otx as [tx|]; [|done].
  destruct Hr as ([H1%Z.leb_le H2]%andb_true_iff & _ & H3). split_and!; [done| |done].
  intros cap Hcap. rewrite Hcap in H2. by apply Z.leb_le.
Qed.

Lemma best_with_fees_ok_witness :
  ∃ b', next_with_fees 10 (@best_with_basefee_and_blobfee CoinbaseTipOrdering 45 1 (example_pending example_txs))
    = Done (Some (example_vtx 1 1 0 50), b') ∧ iterator_ok (wf_best b').
Proof.
  destruct (@best_with_fees_ok CoinbaseTipOrdering (example_pending example_txs) 45 1 10)
    as (otx & b' & E & Hok & _); [apply example_pending_ok|vm_compute; lia|].
  exists b'. split; [|exact Hok].
  assert (otx = Some (example_vtx 1 1 0 50)) as ->; [|exact E].
  vm_compute in E. by injection E as <- _.
Defined.

(** ** Rejected transactions and their descendants *)

(** Marking a yielded transaction invalid does not keep its descendants out:
    [next] has already moved the successor to the independent set, and the set of
    invalid hashes is only consulted for the transaction itself. *)
Theorem mark_invalid_keeps_descendant `{TO : TransactionOrdering} p fuel tx b' u :
  pending_wf p → (work_of (best p) < fuel)%nat →
  next fuel (best p) = Done (Some tx, b') →
  by_id p !! descendant (transaction_id tx) = Some u →
  u ∈ independent (mark_invalid tx b').
Proof.
  intros Wp Hw Hn Hu.
  destruct (next_terminates fuel (best p)) as (r & Hr & Hres); [by apply best_iterator_ok|done|].
  rewrite Hn in Hr. injection Hr as <-. destruct Hres as (_ & _ & _ & _ & _ & _ & _ & Hd). simpl in *.
  apply Hd; [done|]. intros t Ht E.
  assert (Hsub : ∃ i, by_id p !! i = Some t).
  { destruct fuel as [|fuel]; [lia|]. cbn [next] in Hn. simpl in Hn.
    destruct (bset_pop_last (independent_transactions p)) as [[t0 ind]|] eqn:Hpop; [|done].
    pose proof (bset_pop_last_spec _ _ _ Hpop) as Hind.
    rewrite bool_decide_eq_false_2 in Hn by set_solver. injection Hn as <- <-. simpl in Ht.
    assert (Hin : t ∈ ind ∨ by_id p !! unlocks t0 = Some t).
    { destruct (by_id p !! unlocks t0) as [d|]; [|by left].
      apply bset_insert_incl in Ht as [->|?]; [by right|by left]. }
    destruct Hin as [Hin|?]; [|by eauto]. apply (vw_sub _ _ (pd_independent _ Wp)).
    rewrite Hind. apply elem_of_app. by left. }
  destruct Hsub as [i Hi]. apply pt_cmp_eq in E.
  assert (descendant (transaction_id tx) = i) as <- by (by apply (iw_inj (pd_index _ Wp) _ _ u t)).
  congruence.
Qed.

(** The low-fee transaction first, then its well-paying successor. *)
Definition underpriced_first : list ValidPoolTransaction := [example_vtx 1 1 0 20; example_vtx 2 1 1 50].

Lemma underpriced_first_ok :
  pending_wf (example_pending underpriced_first) ∧ sets_exact (example_pending underpriced_first).
Proof.
  unfold example_pending, underpriced_first, for_each.
  destruct (example_pending_step PendingPool_new (example_vtx 1 1 0 20) pending_new_wf sets_exact_new)
    as (p1 & -> & W1 & X1 & S1 & B1); [done|by apply example_vtx_ok|done|done|].
  cbn [mbind outcome_bind].
  destruct (example_pending_step p1 (example_vtx 2 1 1 50) W1 X1) as (p2 & -> & W2 & X2 & S2 & B2);
    [by rewrite S1|by apply example_vtx_ok|by rewrite B1|unfold is_top; by rewrite B1|].
  done.
Qed.

Lemma mark_invalid_keeps_descendant_witness :
  ∃ b' u, next 5 (@best CoinbaseTipOrdering (example_pending underpriced_first))
            = Done (Some (example_vtx 1 1 0 20), b') ∧
    ptransaction u = example_vtx 2 1 1 50 ∧ u ∈ independent (mark_invalid (example_vtx 1 1 0 20) b').
Proof.
  eexists _, (@mkPendingTransaction CoinbaseTipOrdering 1 (example_vtx 2 1 1 50) (Value (49 : Z))).
  split; [vm_compute; reflexivity|]. split; [reflexivity|].
  eapply (@mark_invalid_keeps_descendant CoinbaseTipOrdering (example_pending underpriced_first) 5);
    [apply underpriced_first_ok|vm_compute; lia|vm_compute; reflexivity|vm_compute; reflexivity].
Defined.

(** As a consequence the fee-enforcing iterator violates the order it documents:
    asked for transactions that can pay a base fee of 30, it drops the sender's first
    transaction, which cannot, and returns the second one, which depends on it. *)
Theorem with_fees_yields_dependent :
  drain 5 5 (@best_with_basefee_and_blobfee CoinbaseTipOrdering 30 1 (example_pending underpriced_first))
  = Done [example_vtx 2 1 1 50].
Proof. vm_compute. reflexivity. Qed.

(** The removal of a pending transaction and the addition of its replacement, as the
    pool does it when a transaction replaces another one. *)
Definition replace_pending (tx : ValidPoolTransaction) (p : @PendingPool CoinbaseTipOrdering)
  : outcome (@PendingPool CoinbaseTipOrdering) :=
  add_transaction tx 1 (remove_transaction (transaction_id tx) p).2.

(** Replacing a pending transaction that has a successor leaves the successor in
    the independent set: the iterator then yields the successor before the
    replacement, and a second time after it. *)
Theorem replacement_yields_successor_twice :
  (p ← replace_pending (example_vtx 3 1 0 30) (example_pending underpriced_first);
   drain 5 5 (best p))
  = Done [example_vtx 2 1 1 50; example_vtx 3 1 0 30; example_vtx 2 1 1 50].
Proof. vm_compute. reflexivity. Qed.
