(* ===== verification/AllTxs.v ===== *)
(** * The set of all transactions

    [AllTransactions] of [reth/crates/transaction-pool/src/pool/txpool.rs]: every
    transaction of the pool by hash and by identifier, with the state from which
    its sub-pool is derived.  [insert_tx] and [update] decide where a transaction
    belongs; the pool moves it there afterwards. *)

From stdpp Require Import prelude gmap list sorting.
From S2P Require Import Prelude.
From S2P Require Import Ord.
From S2P Require Import Identifier.
From S2P Require Import State.
From S2P Require Import PoolTx.
From S2P Require Import SubPools.

(** ** Data *)
Definition MIN_PROTOCOL_BASE_FEE : Z := 7.
Definition ETHEREUM_BLOCK_GAS_LIMIT : Z := 30000000.

Record PoolInternalTransaction := mkPoolInternalTransaction {
  itx : ValidPoolTransaction;
  subpool : SubPool;
  state : TxState;
  cumulative_cost : Z;
}.

(** [PoolInternalTransaction::next_cumulative_cost], on [U256]. *)
Definition next_cumulative_cost (t : PoolInternalTransaction) : Z :=
  wrap_u256 (cumulative_cost t + cost (itx t)).

Record SenderInfo := mkSenderInfo { state_nonce : Z; balance : Z }.

(** [SenderInfo::update]. *)
Definition SenderInfo_update (nonce bal : Z) (_ : SenderInfo) : SenderInfo := mkSenderInfo nonce bal.

Record AllTransactions := mkAllTransactions {
  minimal_protocol_basefee : Z;
  block_gas_limit : Z;
  max_account_slots : Z;
  by_hash : gmap Z ValidPoolTransaction;
  txs : gmap TransactionId PoolInternalTransaction;
  tx_counter : gmap SenderId Z;
  last_seen_block_number : Z;
  last_seen_block_hash : Z;
  pending_fees : PendingFees;
  price_bumps : PriceBumpConfig;
  local_transactions_config : LocalTransactionConfig;
}.

Definition set_maps (bh : gmap Z ValidPoolTransaction) (m : gmap TransactionId PoolInternalTransaction)
  (counter : gmap SenderId Z) (a : AllTransactions) : AllTransactions :=
  mkAllTransactions (minimal_protocol_basefee a) (block_gas_limit a) (max_account_slots a) bh m counter
    (last_seen_block_number a) (last_seen_block_hash a) (pending_fees a) (price_bumps a)
    (local_transactions_config a).

Definition set_txs (m : gmap TransactionId PoolInternalTransaction) (a : AllTransactions) : AllTransactions :=
  set_maps (by_hash a) m (tx_counter a) a.

Definition set_block (number hash : Z) (fees : PendingFees) (a : AllTransactions) : AllTransactions :=
  mkAllTransactions (minimal_protocol_basefee a) (block_gas_limit a) (max_account_slots a) (by_hash a) (txs a)
    (tx_counter a) number hash fees (price_bumps a) (local_transactions_config a).

(** [AllTransactions::new], which fills the other fields from [Default]; the
    default blob fee is the protocol constant [BLOB_TX_MIN_BLOB_GASPRICE]. *)
Definition AllTransactions_new (min_blob_gasprice : Z) (config : PoolConfig) : AllTransactions :=
  mkAllTransactions MIN_PROTOCOL_BASE_FEE ETHEREUM_BLOCK_GAS_LIMIT (cfg_max_account_slots config) ∅ ∅ ∅ 0 0
    (mkPendingFees 0 min_blob_gasprice) (cfg_price_bumps config) (cfg_local_transactions_config config).

(** [AllTransactions::contains], [get], [len]. *)
Definition contains_hash (a : AllTransactions) (h : Z) : bool := bool_decide (is_Some (by_hash a !! h)).
Definition get (a : AllTransactions) (i : TransactionId) : option PoolInternalTransaction := txs a !! i.
Definition all_len (a : AllTransactions) : Z := Z.of_nat (size (txs a)).

(** [AllTransactions::tx_inc] and [tx_decr]. *)
Definition counter_inc (s : SenderId) (c : gmap SenderId Z) : gmap SenderId Z :=
  <[s := default 0 (c !! s) + 1]> c.
Definition tx_inc (s : SenderId) (a : AllTransactions) : AllTransactions :=
  set_maps (by_hash a) (txs a) (counter_inc s (tx_counter a)) a.

Definition counter_decr (s : SenderId) (c : gmap SenderId Z) : gmap SenderId Z :=
  match c !! s with
  | None => c
  | Some count => if count =? 1 then delete s c else <[s := count - 1]> c
  end.
Definition tx_decr (s : SenderId) (a : AllTransactions) : AllTransactions :=
  set_maps (by_hash a) (txs a) (counter_decr s (tx_counter a)) a.

(** [AllTransactions::set_block_info]. *)
Definition set_block_info (info : BlockInfo) (a : AllTransactions) : AllTransactions :=
  set_block (bi_last_seen_block_number info) (bi_last_seen_block_hash info)
    (mkPendingFees (bi_pending_basefee info)
       (default (pf_blob_fee (pending_fees a)) (bi_pending_blob_fee info))) a.

(** [AllTransactions::txs_iter], [descendant_txs_exclusive] and
    [descendant_txs_inclusive], also the keys [descendant_txs_mut] visits. *)
Definition txs_iter (s : SenderId) (a : AllTransactions) : list (TransactionId * PoolInternalTransaction) :=
  txs_of_sender s (txs a).
Definition descendant_txs_exclusive (id : TransactionId) (a : AllTransactions)
  : list (TransactionId * PoolInternalTransaction) :=
  take_while (λ p, sender id =? sender p.1) (bmap_range_after id (txs a)).
Definition descendant_txs_inclusive (id : TransactionId) (a : AllTransactions)
  : list (TransactionId * PoolInternalTransaction) :=
  take_while (λ p, sender id =? sender p.1) (bmap_range_from id (txs a)).

(** ** Recheck of all transactions *)

(** [AllTransactions::update_tx_base_fee] on the state. *)
Definition update_tx_base_fee (base_fee : Z) (t : PoolInternalTransaction) : PoolInternalTransaction :=
  mkPoolInternalTransaction (itx t) (subpool t)
    (st_set (base_fee <=? max_fee_per_gas (itx t)) (state t) ENOUGH_FEE_CAP_BLOCK) (cumulative_cost t).

(** [AllTransactions::record_subpool_update]: the transaction with its new sub-pool
    and the recorded update, if any. *)
Definition record_subpool_update (t : PoolInternalTransaction) : PoolInternalTransaction * list PoolUpdate :=
  let pool := subpool_of (state t) in
  (mkPoolInternalTransaction (itx t) pool (state t) (cumulative_cost t),
   if bool_decide (subpool t = pool) then []
   else [mkPoolUpdate (transaction_id (itx t)) (hash (itx t)) (subpool t) (Pool pool)]).

Definition set_state (s : TxState) (t : PoolInternalTransaction) : PoolInternalTransaction :=
  mkPoolInternalTransaction (itx t) (subpool t) s (cumulative_cost t).
Definition set_cumulative (c : Z) (t : PoolInternalTransaction) : PoolInternalTransaction :=
  mkPoolInternalTransaction (itx t) (subpool t) (state t) c.

(** Where the control flow of [update] stands between two entries of the iterator:
    at the head of the [unique_sender] loop, in the inner loop over consecutive
    transactions of a sender with its variables, or skipping to the next sender. *)
Inductive UpdateMode :=
| Outer
| Inner (s : SenderId) (changed_balance : option Z) (has_parked_ancestor : bool)
    (cumulative : Z) (next_nonce_in_line : Z)
| Skip (s : SenderId).

(** The body of the [unique_sender] loop up to the inner loop. *)
Definition update_first (base_fee : Z) (changed_accounts : gmap SenderId SenderInfo)
  (id : TransactionId) (t : PoolInternalTransaction)
  : UpdateMode * PoolInternalTransaction * list PoolUpdate :=
  let info := changed_accounts !! sender id in
  if match info with Some i => nonce id <? state_nonce i | None => false end then
    (Outer, t,
     [mkPoolUpdate (transaction_id (itx t)) (hash (itx t)) (subpool t) Discard])
  else
    let t :=
      match info with
      | None => t
      | Some i =>
        match ancestor (nonce id) (state_nonce i) (sender id) with
        | Some _ => t
        | None =>
          let s := st_insert (st_insert (state t) NO_NONCE_GAPS) NO_PARKED_ANCESTORS in
          set_cumulative 0
            (set_state (st_set (negb (balance i <? cost (itx t))) s ENOUGH_BALANCE) t)
        end
      end in
    if has_nonce_gap (state t) then (Skip (sender id), t, [])
    else
      let t := set_state (st_insert (state t) NO_PARKED_ANCESTORS) t in
      let t := update_tx_base_fee base_fee t in
      let '(t, updates) := record_subpool_update t in
      (Inner (sender id) (balance <$> info) (negb (is_pending (state t))) (next_cumulative_cost t)
         (saturating_succ_u64 (vtx_nonce (itx t))), t, updates).

(** One entry of the iterator. *)
Definition update_step (base_fee : Z) (changed_accounts : gmap SenderId SenderInfo) (mode : UpdateMode)
  (id : TransactionId) (t : PoolInternalTransaction)
  : UpdateMode * PoolInternalTransaction * list PoolUpdate :=
  match mode with
  | Outer => update_first base_fee changed_accounts id t
  | Skip s =>
    if sender id =? s then (mode, t, []) else update_first base_fee changed_accounts id t
  | Inner s changed_balance has_parked_ancestor cumulative next_nonce_in_line =>
    if negb (sender id =? s) then update_first base_fee changed_accounts id t
    else if negb (vtx_nonce (itx t) =? next_nonce_in_line) then (Skip s, t, [])
    else
      let t := set_state (st_insert (state t) NO_NONCE_GAPS) t in
      let t := set_cumulative cumulative t in
      let cumulative := next_cumulative_cost t in
      let t :=
        match changed_balance with
        | None => t
        | Some b => set_state (st_set (negb (b <? cumulative)) (state t) ENOUGH_BALANCE) t
        end in
      let t := set_state (st_set (negb has_parked_ancestor) (state t) NO_PARKED_ANCESTORS) t in
      let has_parked_ancestor := negb (is_pending (state t)) in
      let t := update_tx_base_fee base_fee t in
      let '(t, updates) := record_subpool_update t in
      (Inner s changed_balance has_parked_ancestor cumulative (saturating_succ_u64 next_nonce_in_line),
       t, updates)
  end.

Fixpoint update_loop (base_fee : Z) (changed_accounts : gmap SenderId SenderInfo) (mode : UpdateMode)
  (l : list (TransactionId * PoolInternalTransaction))
  : list (TransactionId * PoolInternalTransaction) * list PoolUpdate :=
  match l with
  | [] => ([], [])
  | (id, t) :: l' =>
    let '(mode, t, us) := update_step base_fee changed_accounts mode id t in
    let '(l', us') := update_loop base_fee changed_accounts mode l' in
    ((id, t) :: l', us ++ us')
  end.

(** [AllTransactions::update]. *)
Definition update (changed_accounts : gmap SenderId SenderInfo) (a : AllTransactions)
  : list PoolUpdate * AllTransactions :=
  let '(l, updates) := update_loop (pf_base_fee (pending_fees a)) changed_accounts Outer (bmap_iter (txs a)) in
  (updates, set_txs (list_to_map l) a).

(** ** Removal *)

(** [AllTransactions::remove_transaction_by_hash]: the two removals happen one after
    the other, each with its [?]. *)
Definition remove_transaction_by_hash (h : Z) (a : AllTransactions)
  : option (ValidPoolTransaction * SubPool) * AllTransactions :=
  match by_hash a !! h with
  | None => (None, a)
  | Some tx =>
    let bh := delete h (by_hash a) in
    match txs a !! transaction_id tx with
    | None => (None, set_maps bh (txs a) (tx_counter a) a)
    | Some internal =>
      (Some (tx, subpool internal),
       set_maps bh (delete (transaction_id tx) (txs a)) (counter_decr (vtx_sender_id tx) (tx_counter a)) a)
    end
  end.

(** [AllTransactions::remove_transaction]. *)
Definition remove_transaction (id : TransactionId) (a : AllTransactions)
  : option (ValidPoolTransaction * SubPool) * AllTransactions :=
  match txs a !! id with
  | None => (None, a)
  | Some internal =>
    let tx := itx internal in
    ((λ tx, (tx, subpool internal)) <$> by_hash a !! hash tx,
     set_maps (delete (hash tx) (by_hash a)) (delete id (txs a)) (counter_decr (vtx_sender_id tx) (tx_counter a)) a)
  end.

(** ** Insertion *)
Inductive InsertErr :=
| Underpriced (tx : ValidPoolTransaction) (existing : Z)
| BlobTxHasNonceGap (tx : ValidPoolTransaction)
| Overdraft (tx : ValidPoolTransaction)
| FeeCapBelowMinimumProtocolFeeCap (tx : ValidPoolTransaction) (fee_cap : Z)
| ExceededSenderTransactionsCapacity (tx : ValidPoolTransaction)
| TxGasLimitMoreThanAvailableBlockGas (tx : ValidPoolTransaction) (block_gas_limit tx_gas_limit : Z)
| TxTypeConflict (tx : ValidPoolTransaction).

Record InsertOk := mkInsertOk {
  io_transaction : ValidPoolTransaction;
  io_move_to : SubPool;
  io_state : TxState;
  io_replaced_tx : option (ValidPoolTransaction * SubPool);
  io_updates : list PoolUpdate;
}.

(** [AllTransactions::contains_conflicting_transaction]. *)
Definition contains_conflicting_transaction (tx : ValidPoolTransaction) (a : AllTransactions) : bool :=
  match txs_iter (sender (transaction_id tx)) a with
  | (_, existing) :: _ => tx_type_conflicts_with tx (itx existing)
  | [] => false
  end.

(** [AllTransactions::ensure_valid]: the error, if any. *)
Definition ensure_valid (tx : ValidPoolTransaction) (a : AllTransactions) : option InsertErr :=
  if negb (config_is_local (local_transactions_config a) (origin tx) (tx_sender (transaction tx))) &&
     (max_account_slots a <=? default 0 (tx_counter a !! vtx_sender_id tx))
  then Some (ExceededSenderTransactionsCapacity tx)
  else if block_gas_limit a <? gas_limit tx
  then Some (TxGasLimitMoreThanAvailableBlockGas tx (block_gas_limit a) (gas_limit tx))
  else if contains_conflicting_transaction tx a then Some (TxTypeConflict tx)
  else None.

(** The [for] loop over the descendants of a replacement: whether one of them would
    be shifted into overdraft. *)
Fixpoint shifts_into_overdraft (on_chain_balance cumulative : Z)
  (l : list (TransactionId * PoolInternalTransaction)) : bool :=
  match l with
  | [] => false
  | (_, t) :: l' =>
    let cumulative := wrap_u256 (cumulative + cost (itx t)) in
    (is_eip4844 (itx t) && (on_chain_balance <? cumulative)) ||
    shifts_into_overdraft on_chain_balance cumulative l'
  end.

(** [AllTransactions::ensure_valid_blob_transaction]. *)
Definition ensure_valid_blob_transaction (tx : ValidPoolTransaction) (on_chain_balance : Z)
  (anc : option TransactionId) (a : AllTransactions) : option InsertErr :=
  match anc with
  | Some anc =>
    match txs a !! anc with
    | None => Some (BlobTxHasNonceGap tx)
    | Some ancestor_tx =>
      if has_nonce_gap (state ancestor_tx) then Some (BlobTxHasNonceGap tx)
      else
        let cumulative := wrap_u256 (next_cumulative_cost ancestor_tx + cost tx) in
        if on_chain_balance <? cumulative then Some (Overdraft tx)
        else
          match descendant_txs_inclusive (transaction_id tx) a with
          | (maybe_replacement, _) :: descendants =>
            if bool_decide (maybe_replacement = transaction_id tx) &&
               shifts_into_overdraft on_chain_balance cumulative descendants
            then Some (Overdraft tx) else None
          | [] => None
          end
    end
  | None => if on_chain_balance <? cost tx then Some (Overdraft tx) else None
  end.

(** [AllTransactions::is_underpriced]; the products are on [u128]. *)
Definition bumped (fee bump : Z) : Z := wrap_u128 (fee * wrap_u128 (100 + bump)) / 100.

Definition is_underpriced (existing replacement : ValidPoolTransaction) (bumps : PriceBumpConfig) : bool :=
  let bump := price_bump bumps (tx_type (transaction existing)) in
  if max_fee_per_gas replacement <=? bumped (max_fee_per_gas existing) bump then true
  else
    let existing_prio := default 0 (tx_max_priority_fee_per_gas (transaction existing)) in
    let replacement_prio := default 0 (tx_max_priority_fee_per_gas (transaction replacement)) in
    if (replacement_prio <=? bumped existing_prio bump) && negb (existing_prio =? 0) &&
       negb (replacement_prio =? 0)
    then true
    else
      match max_fee_per_blob_gas existing with
      | Some existing_blob => default 0 (max_fee_per_blob_gas replacement) <=? bumped existing_blob bump
      | None => false
      end.

(** The variables of the traversal at the end of [insert_tx]. *)
Record Walk := mkWalk {
  wk_next_nonce : Z;
  wk_cumulative : Z;
  wk_parked : bool;
  wk_state : TxState;
  wk_updates : list PoolUpdate;
}.

(** The traversal: the entries it changed, and the variables at its end. *)
Fixpoint walk_descendants (inserted : TransactionId) (on_chain_balance : Z)
  (l : list (TransactionId * PoolInternalTransaction)) (w : Walk)
  : list (TransactionId * PoolInternalTransaction) * Walk :=
  match l with
  | [] => ([], w)
  | (id, t) :: l' =>
    if negb (wk_next_nonce w =? nonce id) then ([], w)
    else
      let current_pool := subpool t in
      let t := set_state (st_insert (state t) NO_NONCE_GAPS) t in
      let t := set_cumulative (wk_cumulative w) t in
      let cumulative := next_cumulative_cost t in
      let t := set_state (st_set (negb (on_chain_balance <? cumulative)) (state t) ENOUGH_BALANCE) t in
      let t := set_state (st_set (negb (wk_parked w)) (state t) NO_PARKED_ANCESTORS) t in
      let parked := negb (is_pending (state t)) in
      let t := mkPoolInternalTransaction (itx t) (subpool_of (state t)) (state t) (AllTxs.cumulative_cost t) in
      let '(st, us) :=
        if bool_decide (inserted = id) then (state t, [])
        else (wk_state w,
              if bool_decide (current_pool = subpool t) then []
              else [mkPoolUpdate id (hash (itx t)) current_pool (Pool (subpool t))]) in
      let '(changed, w) := walk_descendants inserted on_chain_balance l'
        (mkWalk (Identifier.next_nonce id) cumulative parked st (wk_updates w ++ us)) in
      ((id, t) :: changed, w)
  end.

(** The state [insert_tx] computes before looking at the sender's other
    transactions. *)
Definition initial_state (tx : ValidPoolTransaction) (anc : option TransactionId) (fees : PendingFees)
  : TxState :=
  let s := st_insert 0 NOT_TOO_MUCH_GAS in
  let s :=
    if is_eip4844 tx then
      let s := st_insert s BLOB_TRANSACTION in
      if pf_blob_fee fees <=? default 0 (max_fee_per_blob_gas tx)
      then st_insert s ENOUGH_BLOB_FEE_CAP_BLOCK else s
    else st_insert s ENOUGH_BLOB_FEE_CAP_BLOCK in
  let s :=
    match anc with
    | None => st_insert (st_insert s NO_NONCE_GAPS) NO_PARKED_ANCESTORS
    | Some _ => s
    end in
  if pf_base_fee fees <=? max_fee_per_gas tx then st_insert s ENOUGH_FEE_CAP_BLOCK else s.

(** The checks of [insert_tx] that precede every change, in their order. *)
Definition insert_error (tx : ValidPoolTransaction) (on_chain_balance : Z) (anc : option TransactionId)
  (a : AllTransactions) : option InsertErr :=
  match ensure_valid tx a with
  | Some e => Some e
  | None =>
    match (if is_eip4844 tx then ensure_valid_blob_transaction tx on_chain_balance anc a else None) with
    | Some e => Some e
    | None =>
      if max_fee_per_gas tx <? minimal_protocol_basefee a
      then Some (FeeCapBelowMinimumProtocolFeeCap tx (max_fee_per_gas tx))
      else
        match txs a !! transaction_id tx with
        | Some existing =>
          if is_underpriced (itx existing) tx (price_bumps a)
          then Some (Underpriced tx (hash (itx existing))) else None
        | None => None
        end
    end
  end.

(** [AllTransactions::insert_tx].  An error is returned before anything changes. *)
Definition insert_tx (tx : ValidPoolTransaction) (on_chain_balance on_chain_nonce : Z) (a : AllTransactions)
  : outcome (InsertErr + InsertOk * AllTransactions) :=
  _ ← assert_ (on_chain_nonce <=? vtx_nonce tx);
  let id := transaction_id tx in
  let anc := ancestor (vtx_nonce tx) on_chain_nonce (sender id) in
  match insert_error tx on_chain_balance anc a with
  | Some e => Done (inl e)
  | None =>
    let st := initial_state tx anc (pending_fees a) in
    let pool_tx := mkPoolInternalTransaction tx (subpool_of st) st 0 in
    let '(replaced, bh) :=
      match txs a !! id with
      | None => (None, <[hash tx := tx]> (by_hash a))
      | Some existing =>
        (Some (itx existing, subpool existing), <[hash tx := tx]> (delete (hash (itx existing)) (by_hash a)))
      end in
    let a := set_maps bh (<[id := pool_tx]> (txs a)) (tx_counter a) a in
    let on_chain_id := mkTransactionId (vtx_sender_id tx) on_chain_nonce in
    let descendants := descendant_txs_inclusive on_chain_id a in
    parked ←
      match anc with
      | None => Done false
      | Some _ =>
        '(first_id, first_tx) ← expect (head descendants);
        Done (if nonce first_id <? nonce id then negb (is_pending (state first_tx)) else true)
      end;
    let '(changed, w) := walk_descendants id on_chain_balance descendants
      (mkWalk on_chain_nonce 0 parked st []) in
    let a := set_txs (list_to_map changed ∪ txs a) a in
    let a := match replaced with None => tx_inc (sender id) a | Some _ => a end in
    Done (inr (mkInsertOk tx (subpool_of (wk_state w)) (wk_state w) replaced (wk_updates w), a))
  end.

(** ** Invariant *)

(** A stored transaction: it is stored under its own identifier, its sub-pool is the
    one its state determines, and the blob flag tells its type. *)
Record internal_ok (i : TransactionId) (t : PoolInternalTransaction) : Prop := {
  in_key : transaction_id (itx t) = i;
  in_vtx : vtx_ok (itx t);
  in_state : tx_state_ok (state t);
  in_subpool : subpool t = subpool_of (state t);
  in_blob : is_blob (state t) = is_eip4844 (itx t);
}.

Record all_wf (a : AllTransactions) : Prop := {
  aw_tx i t : txs a !! i = Some t → internal_ok i t;
  aw_hash h tx : by_hash a !! h = Some tx ↔
    hash tx = h ∧ itx <$> txs a !! transaction_id tx = Some tx;
  aw_counter s : default 0 (tx_counter a !! s) = nb_of_sender s (txs a);
  aw_counter_pos s c : tx_counter a !! s = Some c → 0 < c;
}.

(** The flags every recomputation of a state touches: [flags_only s s'] if [s'] comes
    from [s] by setting and clearing them. *)
Definition flags_only (s s' : TxState) : Prop :=
  tx_state_ok s → tx_state_ok s' ∧ is_blob s' = is_blob s.

Lemma flags_only_refl s : flags_only s s.
Proof. done. Qed.

Lemma flags_only_set b s s' f : f ∈ state_flags → flags_only s s' → flags_only s (st_set b s' f).
Proof.
  intros Hf H Hs. destruct (H Hs) as [Hs' Hb]. destruct (st_set_ok b s' f Hf Hs') as [? ?].
  split; congruence.
Qed.

Lemma flags_only_insert s s' f : f ∈ state_flags → flags_only s s' → flags_only s (st_insert s' f).
Proof. apply (flags_only_set true). Qed.

Create HintDb flags.
#[export] Hint Resolve flags_only_refl flags_only_set flags_only_insert : flags.
#[export] Hint Extern 1 (_ ∈ state_flags) => (unfold state_flags; set_solver) : flags.

(** ** How a pass over the transactions changes them *)

(** What one visited entry can become and which update is recorded for it; the entry
    [sk] is the one whose move the caller handles itself. *)
Record visited (sk : option TransactionId) (i : TransactionId) (t t' : PoolInternalTransaction)
  (us : list PoolUpdate) : Prop := {
  vi_tx : itx t' = itx t;
  vi_ok : internal_ok i t → internal_ok i t';
  vi_updates : transaction_id (itx t) = i →
    us = [] ∧ (subpool t' = subpool t ∨ sk = Some i) ∨
    us = [mkPoolUpdate i (hash (itx t)) (subpool t) Discard] ∧ subpool t' = subpool t ∧ sk ≠ Some i ∨
    us = [mkPoolUpdate i (hash (itx t)) (subpool t) (Pool (subpool t'))] ∧ subpool t' ≠ subpool t ∧ sk ≠ Some i;
}.

Inductive evolve (sk : option TransactionId)
  : list (TransactionId * PoolInternalTransaction) → list (TransactionId * PoolInternalTransaction) →
    list PoolUpdate → Prop :=
| evolve_nil : evolve sk [] [] []
| evolve_cons i t t' us l l' us' :
    visited sk i t t' us → evolve sk l l' us' → evolve sk ((i, t) :: l) ((i, t') :: l') (us ++ us').

Lemma visited_refl sk i t : visited sk i t t [].
Proof. split; [done|done|]. intros _. left. split; [done|by left]. Qed.

Lemma evolve_refl sk l : evolve sk l l [].
Proof.
  induction l as [|[i t] l IH]; [constructor|].
  change ([] : list PoolUpdate) with ([] ++ [] : list PoolUpdate). constructor; [apply visited_refl|done].
Qed.

(** Recomputing the sub-pool after the state was changed. *)
Lemma visited_record i t t1 :
  itx t1 = itx t → subpool t1 = subpool t → flags_only (state t) (state t1) →
  visited None i t (record_subpool_update t1).1 (record_subpool_update t1).2.
Proof.
  intros Ht Hsp Hf. unfold record_subpool_update. simpl. split; simpl.
  - done.
  - intros [H1 H2 H3 H4 H5]. destruct (Hf H3) as [? Hb]. split; simpl; rewrite ?Ht; try done. congruence.
  - intros Hi. rewrite Hsp, Ht, Hi. case_bool_decide as E.
    + left. split; [done|]. left. congruence.
    + right; right. done.
Qed.

Lemma visited_update_first fee changed i t :
  internal_ok i t →
  let '(_, t', us) := update_first fee changed i t in visited None i t t' us.
Proof.
  intros Hok. unfold update_first. set (info := changed !! sender i).
  destruct (match info with Some j => nonce i <? state_nonce j | None => false end).
  { split; [done|done|]. intros Hi. rewrite Hi. right; left. done. }
  set (t0 := match info with Some _ => _ | None => t end).
  assert (H0 : itx t0 = itx t ∧ subpool t0 = subpool t ∧ flags_only (state t) (state t0)).
  { unfold t0. destruct info as [j|]; [|auto with flags].
    destruct (ancestor _ _ _); simpl; split_and!; auto 6 with flags. }
  assert (Hgap : has_nonce_gap (state t0) = true → t0 = t).
  { unfold t0. destruct info as [j|]; [|done]. destruct (ancestor _ _ _); [done|]. simpl.
    intros Hg. exfalso. revert Hg. pose proof (in_state _ _ Hok) as Hs.
    assert (Hc : forallb (λ b, negb (has_nonce_gap (st_set b
      (st_insert (st_insert (state t) NO_NONCE_GAPS) NO_PARKED_ANCESTORS) ENOUGH_BALANCE))) [true; false] = true).
    { set (s := state t) in *. by_states s. }
    rewrite forallb_forall in Hc.
    specialize (Hc (negb (balance j <? cost (itx t))) ltac:(destruct (balance j <? cost (itx t)); simpl; auto)).
    apply negb_true_iff in Hc. congruence. }
  destruct (has_nonce_gap (state t0)) eqn:Hg.
  { rewrite Hgap by done. apply visited_refl. }
  destruct H0 as (H1 & H2 & H3). set (t1 := update_tx_base_fee _ _).
  pose proof (visited_record i t t1 H1 H2 ltac:(unfold t1; simpl; auto with flags)) as Hv.
  by destruct (record_subpool_update t1).
Qed.

Lemma visited_update_step fee changed mode i t :
  internal_ok i t →
  let '(_, t', us) := update_step fee changed mode i t in visited None i t t' us.
Proof.
  intros Hok. pose proof (visited_update_first fee changed i t Hok) as Hfirst.
  destruct mode as [|s cb parked cum nn|s]; cbn [update_step]; [done| |].
  - destruct (negb (sender i =? s)); [done|].
    destruct (negb _); [apply visited_refl|].
    set (t1 := update_tx_base_fee _ _).
    assert (H1 : itx t1 = itx t ∧ subpool t1 = subpool t ∧ flags_only (state t) (state t1)).
    { unfold t1. destruct cb; simpl; split_and!; auto 8 with flags. }
    destruct H1 as (H1 & H2 & H3). pose proof (visited_record i t t1 H1 H2 H3) as Hv.
    by destruct (record_subpool_update t1).
  - destruct (sender i =? s); [apply visited_refl|done].
Qed.

Lemma update_loop_evolve fee changed mode l :
  (∀ i t, (i, t) ∈ l → internal_ok i t) →
  evolve None l (update_loop fee changed mode l).1 (update_loop fee changed mode l).2.
Proof.
  revert mode; induction l as [|[i t] l IH]; intros mode Hok; simpl; [constructor|].
  pose proof (visited_update_step fee changed mode i t (Hok i t ltac:(left))) as Hv.
  destruct (update_step fee changed mode i t) as [[mode' t'] us].
  specialize (IH mode' ltac:(intros; apply Hok; by right)).
  destruct (update_loop fee changed mode' l) as [l' us']. by constructor.
Qed.

(** The entries a traversal of [insert_tx] changed are a prefix of those it was given. *)
Lemma walk_evolve inserted bal l w :
  (∀ i t, (i, t) ∈ l → internal_ok i t) → NoDup l.*1 →
  let '(changed, w') := walk_descendants inserted bal l w in
  ∃ us l2, wk_updates w' = wk_updates w ++ us ∧ changed.*1 ++ l2.*1 = l.*1 ∧
    evolve (Some inserted) l (changed ++ l2) us ∧ (∀ e, e ∈ l2 → e ∈ l) ∧
    (∀ t', (inserted, t') ∈ changed → wk_state w' = state t') ∧
    (inserted ∉ changed.*1 → wk_state w' = wk_state w).
Proof.
  revert w; induction l as [|[i t] l IH]; intros w Hok Hnd; cbn [walk_descendants].
  { exists [], []. rewrite app_nil_r. split_and!; [done|done|constructor|done| |done].
    by intros t' ?%elem_of_nil. }
  destruct (negb (wk_next_nonce w =? nonce i)).
  { exists [], ((i, t) :: l). rewrite app_nil_r. split_and!; [done|done|apply evolve_refl|done| |done].
    by intros t' ?%elem_of_nil. }
  set (t1 := mkPoolInternalTransaction _ _ _ _).
  assert (Hv : ∀ us, (us = [] ∧ (inserted = i ∨ subpool t1 = subpool t)) ∨
      (us = [mkPoolUpdate i (hash (itx t)) (subpool t) (Pool (subpool t1))] ∧ subpool t1 ≠ subpool t ∧
       inserted ≠ i) →
      visited (Some inserted) i t t1 us).
  { intros us Hus. split; [done| |].
    - intros [H1 H2 H3 H4 H5]. assert (Hf : flags_only (state t) (state t1)) by (simpl; auto 8 with flags).
      destruct (Hf H3) as [? Hb]. split; simpl in *; try done. congruence.
    - intros _. naive_solver. }
  rewrite fmap_cons in Hnd. apply NoDup_cons in Hnd as [Hi Hnd]. simpl in Hi.
  assert (Hok' : ∀ j u, (j, u) ∈ l → internal_ok j u) by (intros; apply Hok; by right).
  set (su := if bool_decide (inserted = i) then _ else _). destruct su as [st us] eqn:Esu.
  set (w1 := mkWalk _ _ _ _ _). specialize (IH w1 Hok' Hnd).
  destruct (walk_descendants inserted bal l w1) as [changed w'].
  destruct IH as (us' & l2 & Hus & Hk & Hev & Hl2 & Hin & Hout).
  exists (us ++ us'), l2. split_and!.
  - rewrite Hus. unfold w1. simpl. by rewrite (assoc_L (++)).
  - exact (f_equal (cons i) Hk).
  - rewrite <-app_comm_cons. constructor; [|done]. apply Hv. unfold su in Esu. case_bool_decide as E1.
    + injection Esu as <- <-. left. auto.
    + injection Esu as <- <-. change (itx t1) with (itx t). case_bool_decide as E2.
      * left. split; [done|right]. symmetry. exact E2.
      * right. split_and!; [done| |done]. intros E. by apply E2.
  - intros e He. right. by apply Hl2.
  - assert (Hsub : ∀ j, j ∈ changed.*1 → j ∈ l.*1) by (intros j Hj; rewrite <-Hk; apply elem_of_app; by left).
    intros t' [[= -> ->]|Ht']%elem_of_cons; [|by apply Hin].
    unfold su in Esu. rewrite bool_decide_eq_true_2 in Esu by done. injection Esu as <- <-.
    rewrite Hout; [done|]. intros Hj%Hsub. done.
  - rewrite fmap_cons, not_elem_of_cons. simpl. intros [Hne Hn]. rewrite (Hout Hn). unfold w1. simpl.
    unfold su in Esu. rewrite bool_decide_eq_false_2 in Esu by done. by injection Esu as <- <-.
Qed.

(** ** The effect of a pass on the map *)
Record updates_ok (sk : option TransactionId) (m m' : gmap TransactionId PoolInternalTransaction)
  (us : list PoolUpdate) : Prop := {
  uo_NoDup : NoDup (pu_id <$> us);
  uo_each u : u ∈ us → sk ≠ Some (pu_id u) ∧ ∃ t t', m !! pu_id u = Some t ∧ m' !! pu_id u = Some t' ∧
    pu_hash u = hash (itx t') ∧ pu_current u = subpool t ∧
    (pu_destination u = Discard ∧ subpool t' = subpool t ∨
     pu_destination u = Pool (subpool t') ∧ subpool t' ≠ subpool t);
  uo_rest i t t' : m !! i = Some t → m' !! i = Some t' → i ∉ pu_id <$> us →
    subpool t' = subpool t ∨ sk = Some i;
}.

Lemma evolve_fst sk l l' us : evolve sk l l' us → l'.*1 = l.*1.
Proof. induction 1 as [|i t t' us0 l l' us' _ _ IH]; [done|]. exact (f_equal (cons i) IH). Qed.

Lemma evolve_elem sk l l' us i t' :
  evolve sk l l' us → (i, t') ∈ l' → ∃ t us_i, (i, t) ∈ l ∧ visited sk i t t' us_i ∧ us_i ⊆ us.
Proof.
  induction 1 as [|j u u' us0 l l' us' Hv Hev IH]; [by intros ?%elem_of_nil|].
  intros [[= -> ->]|Hin]%elem_of_cons.
  - exists u, us0. split_and!; [left|done|set_solver].
  - destruct (IH Hin) as (t & us_i & ? & ? & ?). exists t, us_i. split_and!; [by right|done|set_solver].
Qed.

Lemma evolve_update sk l l' us x :
  evolve sk l l' us → x ∈ us → ∃ i t t' us_i, (i, t) ∈ l ∧ (i, t') ∈ l' ∧ visited sk i t t' us_i ∧ x ∈ us_i.
Proof.
  induction 1 as [|j u u' us0 l l' us' Hv Hev IH]; [by intros ?%elem_of_nil|].
  intros [Hin|Hin]%elem_of_app.
  - exists j, u, u', us0. split_and!; [left|left|done|done].
  - destruct (IH Hin) as (i & t & t' & us_i & ? & ? & ? & ?). exists i, t, t', us_i.
    split_and!; [by right|by right|done|done].
Qed.

(** The update recorded for a visited entry carries its identifier. *)
Lemma visited_id sk i t t' us x :
  visited sk i t t' us → internal_ok i t → x ∈ us → pu_id x = i.
Proof.
  intros Hv Hok Hx.
  destruct (vi_updates _ _ _ _ _ Hv (in_key _ _ Hok)) as [[-> _]|[[-> _]|[-> _]]];
    [by apply elem_of_nil in Hx|by apply list_elem_of_singleton in Hx as ->..].
Qed.

Lemma evolve_updates_NoDup sk l l' us :
  evolve sk l l' us → (∀ i t, (i, t) ∈ l → internal_ok i t) → NoDup l.*1 →
  NoDup (pu_id <$> us) ∧ ∀ j, j ∈ pu_id <$> us → j ∈ l.*1.
Proof.
  induction 1 as [|i t t' us l l' us' Hv Hev IH]; intros Hok Hnd; [by split; [constructor|]|].
  rewrite fmap_cons in Hnd. apply NoDup_cons in Hnd as [Hi Hnd]. simpl in Hi.
  destruct (IH ltac:(intros; apply Hok; by right) Hnd) as [IH1 IH2].
  assert (Hid : ∀ j, j ∈ pu_id <$> us → j = i).
  { intros j (x & -> & Hx)%list_elem_of_fmap. eapply visited_id; [done| |done]. apply Hok. by left. }
  rewrite fmap_app. split.
  - apply NoDup_app. split_and!; [|by intros j ->%Hid ?%IH2|done].
    destruct (vi_updates _ _ _ _ _ Hv (in_key _ _ (Hok i t ltac:(left)))) as [[-> _]|[[-> _]|[-> _]]];
      [constructor|apply NoDup_singleton..].
  - intros j [->%Hid|Hj%IH2]%elem_of_app; simpl; [by left|by right].
Qed.

Lemma list_to_map_union_lookup {V} (l : list (TransactionId * V)) (m : gmap TransactionId V) i v :
  NoDup l.*1 →
  (list_to_map l ∪ m) !! i = Some v ↔ (i, v) ∈ l ∨ (i ∉ l.*1 ∧ m !! i = Some v).
Proof.
  intros Hnd. rewrite lookup_union_Some_raw, <-(elem_of_list_to_map l i v Hnd).
  by rewrite <-(not_elem_of_list_to_map (M := gmap TransactionId) l i).
Qed.

Section evolve_map.
Context (sk : option TransactionId) (m : gmap TransactionId PoolInternalTransaction).
Context (l l' : list (TransactionId * PoolInternalTransaction)) (us : list PoolUpdate).
Context (Hl : ∀ i t, (i, t) ∈ l → m !! i = Some t) (Hnd : NoDup l.*1).
Context (Hm : ∀ i t, m !! i = Some t → internal_ok i t) (Hev : evolve sk l l' us).

Lemma evolve_map_tx i : itx <$> (list_to_map l' ∪ m) !! i = itx <$> m !! i.
Proof using All.
  assert (Hnd' : NoDup l'.*1) by (by rewrite (evolve_fst _ _ _ _ Hev)).
  destruct ((list_to_map l' ∪ m) !! i) as [t'|] eqn:E; simpl.
  - apply list_to_map_union_lookup in E as [Hin|[_ ->]]; [|done|done].
    destruct (evolve_elem _ _ _ _ _ _ Hev Hin) as (t & us_i & Ht & Hv & _).
    rewrite (Hl i t Ht). simpl. by rewrite (vi_tx _ _ _ _ _ Hv).
  - apply lookup_union_None in E as [_ ->]. done.
Qed.

Lemma evolve_map_ok i t : (list_to_map l' ∪ m) !! i = Some t → internal_ok i t.
Proof using All.
  assert (Hnd' : NoDup l'.*1) by (by rewrite (evolve_fst _ _ _ _ Hev)).
  rewrite list_to_map_union_lookup by done. intros [Hin|[_ Hi]]; [|by apply Hm].
  destruct (evolve_elem _ _ _ _ _ _ Hev Hin) as (t0 & us_i & Ht & Hv & _).
  apply (vi_ok _ _ _ _ _ Hv), Hm, Hl, Ht.
Qed.

Lemma evolve_map_updates : updates_ok sk m (list_to_map l' ∪ m) us.
Proof using All.
  assert (Hnd' : NoDup l'.*1) by (by rewrite (evolve_fst _ _ _ _ Hev)).
  assert (Hok : ∀ i t, (i, t) ∈ l → internal_ok i t) by (intros; by apply Hm, Hl).
  assert (Hin' : ∀ i t', (i, t') ∈ l' → (list_to_map l' ∪ m) !! i = Some t').
  { intros i t' Hin. apply list_to_map_union_lookup; [done|by left]. }
  split.
  - by eapply evolve_updates_NoDup.
  - intros x Hx. destruct (evolve_update _ _ _ _ _ Hev Hx) as (i & t & t' & us_i & Ht & Ht' & Hv & Hxi).
    pose proof (vi_tx _ _ _ _ _ Hv) as Htx.
    destruct (vi_updates _ _ _ _ _ Hv (in_key _ _ (Hok i t Ht))) as [[-> _]|[(-> & Hs & Hk)|(-> & Hs & Hk)]];
      [by apply elem_of_nil in Hxi|apply list_elem_of_singleton in Hxi as ->..]; simpl;
      (split; [done|]); exists t, t'; rewrite Htx; split_and!; auto.
  - intros i t t' Hi Hi' Hn. apply list_to_map_union_lookup in Hi' as [Hin|[_ Hi']]; [| |done].
    2:{ left. congruence. }
    destruct (evolve_elem _ _ _ _ _ _ Hev Hin) as (t0 & us_i & Ht & Hv & Hsub).
    assert (t0 = t) as -> by (apply Hl in Ht; congruence).
    destruct (vi_updates _ _ _ _ _ Hv (in_key _ _ (Hm i t Hi))) as [[_ ?]|[[-> _]|[-> _]]]; [done|..];
      destruct Hn; apply list_elem_of_fmap; eexists; (split; [|apply Hsub; by left]); done.
Qed.
End evolve_map.

(** ** The indexes next to the map *)
Definition hash_ok (bh : gmap Z ValidPoolTransaction) (m : gmap TransactionId PoolInternalTransaction) : Prop :=
  ∀ h tx, bh !! h = Some tx ↔ hash tx = h ∧ itx <$> m !! transaction_id tx = Some tx.

Definition counter_ok (c : gmap SenderId Z) (m : gmap TransactionId PoolInternalTransaction) : Prop :=
  (∀ s, default 0 (c !! s) = nb_of_sender s m) ∧ ∀ s v, c !! s = Some v → 0 < v.

Definition entries_ok (m : gmap TransactionId PoolInternalTransaction) : Prop :=
  ∀ i t, m !! i = Some t → internal_ok i t.

Lemma all_wf_parts a :
  all_wf a ↔ entries_ok (txs a) ∧ hash_ok (by_hash a) (txs a) ∧ counter_ok (tx_counter a) (txs a).
Proof.
  split.
  - intros [H1 H2 H3 H4]. by split_and!.
  - intros (H1 & H2 & H3 & H4). by split.
Qed.

Lemma hash_ok_found bh m i t :
  entries_ok m → hash_ok bh m → m !! i = Some t → bh !! hash (itx t) = Some (itx t).
Proof.
  intros He Hh Hi. apply Hh. split; [done|]. rewrite (in_key _ _ (He i t Hi)), Hi. done.
Qed.

Lemma hash_ok_delete bh m i t :
  entries_ok m → hash_ok bh m → m !! i = Some t → hash_ok (delete (hash (itx t)) bh) (delete i m).
Proof.
  intros He Hh Hi h tx. pose proof (hash_ok_found bh m i t He Hh Hi) as Hf.
  rewrite lookup_delete_Some, (Hh h tx). split.
  - intros (Hne & Htx & Hm). split; [done|]. rewrite lookup_delete_ne; [done|].
    intros ->. rewrite Hi in Hm. simpl in Hm. congruence.
  - intros [Htx Hm].
    assert (transaction_id tx ≠ i) as Hne.
    { intros Heq. by rewrite Heq, lookup_delete_eq in Hm. }
    rewrite lookup_delete_ne in Hm by done. split_and!; [|done|done].
    intros E. apply Hne. assert (bh !! hash (itx t) = Some tx) as Hf' by (apply Hh; split; congruence).
    rewrite Hf in Hf'. injection Hf' as <-. apply (in_key _ _ (He i t Hi)).
Qed.

Lemma hash_ok_insert bh m t :
  hash_ok bh m → m !! transaction_id (itx t) = None → bh !! hash (itx t) = None →
  hash_ok (<[hash (itx t) := itx t]> bh) (<[transaction_id (itx t) := t]> m).
Proof.
  intros Hh Hm Hb h tx. rewrite lookup_insert_Some, (Hh h tx).
  destruct (decide (transaction_id (itx t) = transaction_id tx)) as [E|E].
  - rewrite <-E, lookup_insert_eq. simpl. split.
    + intros [[<- <-]|(_ & _ & Hx)]; [done|]. by rewrite Hm in Hx.
    + intros [<- [= ->]]. by left.
  - rewrite lookup_insert_ne by done. split; [naive_solver|]. intros [<- Hx]. right. split; [|done].
    intros Ehash. assert (bh !! hash tx = Some tx) as Hf by (by apply Hh). congruence.
Qed.

Lemma nb_of_sender_itx (m m' : gmap TransactionId PoolInternalTransaction) s :
  (∀ i, itx <$> m' !! i = itx <$> m !! i) → nb_of_sender s m' = nb_of_sender s m.
Proof.
  intros Hm. unfold nb_of_sender. f_equal.
  assert (E : itx <$> m' = itx <$> m) by (apply map_eq; intros i; by rewrite !lookup_fmap).
  rewrite <-(map_size_fmap itx (filter _ m')), <-(map_size_fmap itx (filter _ m)).
  assert (Hf : ∀ k : gmap TransactionId PoolInternalTransaction,
    itx <$> filter (λ p : TransactionId * PoolInternalTransaction, sender p.1 = s) k =
    filter (λ p : TransactionId * ValidPoolTransaction, sender p.1 = s) (itx <$> k)).
  { intros k. by rewrite map_filter_fmap. }
  by rewrite !Hf, E.
Qed.

Lemma counter_ok_itx c m m' :
  (∀ i, itx <$> m' !! i = itx <$> m !! i) → counter_ok c m → counter_ok c m'.
Proof. intros Hm [H1 H2]. split; [|done]. intros s. by rewrite (nb_of_sender_itx m m' s Hm). Qed.

Lemma hash_ok_itx bh m m' :
  (∀ i, itx <$> m' !! i = itx <$> m !! i) → hash_ok bh m → hash_ok bh m'.
Proof. intros Hm Hh h tx. by rewrite Hm. Qed.

Lemma counter_ok_insert c m i t :
  counter_ok c m → m !! i = None → counter_ok (counter_inc (sender i) c) (<[i := t]> m).
Proof.
  intros [H1 H2] Hi. unfold counter_inc. split.
  - intros s. rewrite nb_of_sender_insert by done. case_bool_decide as E.
    + subst s. rewrite lookup_insert_eq. simpl. rewrite H1. lia.
    + rewrite lookup_insert_ne by done. rewrite H1. lia.
  - intros s v [[<- <-]|[_ Hv]]%lookup_insert_Some; [|by eapply H2].
    pose proof (H1 (sender i)). pose proof (nb_of_sender_nonneg (sender i) m). lia.
Qed.

Lemma counter_ok_delete c m i t :
  counter_ok c m → m !! i = Some t → counter_ok (counter_decr (sender i) c) (delete i m).
Proof.
  intros [H1 H2] Hi. unfold counter_decr.
  assert (Hnb : ∀ s, nb_of_sender s m = (if bool_decide (sender i = s) then 1 else 0) + nb_of_sender s (delete i m))
    by (intros; by eapply nb_of_sender_delete).
  pose proof (H1 (sender i)) as Hs. rewrite Hnb, bool_decide_eq_true_2 in Hs by done.
  pose proof (nb_of_sender_nonneg (sender i) (delete i m)).
  destruct (c !! sender i) as [v|] eqn:Hv; simpl in Hs; [|lia].
  destruct (v =? 1) eqn:E; [apply Z.eqb_eq in E|apply Z.eqb_neq in E]; split.
  - intros s. destruct (decide (s = sender i)) as [->|Hne].
    + rewrite lookup_delete_eq. simpl. lia.
    + rewrite lookup_delete_ne by done. specialize (Hnb s). rewrite bool_decide_eq_false_2 in Hnb by done.
      rewrite H1. lia.
  - intros s w [_ Hw]%lookup_delete_Some. by eapply H2.
  - intros s. destruct (decide (s = sender i)) as [->|Hne].
    + rewrite lookup_insert_eq. simpl. lia.
    + rewrite lookup_insert_ne by done. specialize (Hnb s). rewrite bool_decide_eq_false_2 in Hnb by done.
      rewrite H1. lia.
  - intros s w [[<- <-]|[_ Hw]]%lookup_insert_Some; [|by eapply H2]. pose proof (H2 _ _ Hv). lia.
Qed.

Lemma entries_ok_delete m i : entries_ok m → entries_ok (delete i m).
Proof. intros He j t [_ Hj]%lookup_delete_Some. by apply He. Qed.

(** Dropping an entry from the map, the hash index and the counter. *)
Definition drop_entry (i : TransactionId) (t : PoolInternalTransaction) (a : AllTransactions) : AllTransactions :=
  set_maps (delete (hash (itx t)) (by_hash a)) (delete i (txs a)) (counter_decr (sender i) (tx_counter a)) a.

Lemma drop_entry_wf a i t : all_wf a → txs a !! i = Some t → all_wf (drop_entry i t a).
Proof.
  rewrite !all_wf_parts. intros (He & Hh & Hc) Hi. simpl. split_and!.
  - by apply entries_ok_delete.
  - by apply hash_ok_delete.
  - by eapply counter_ok_delete.
Qed.

(** Both removals drop exactly one entry, or none. *)
Lemma remove_transaction_ok a i :
  all_wf a →
  remove_transaction i a =
  match txs a !! i with
  | Some t => (Some (itx t, subpool t), drop_entry i t a)
  | None => (None, a)
  end.
Proof.
  intros W. unfold remove_transaction. destruct (txs a !! i) as [t|] eqn:Hi; [|done].
  pose proof W as (He & Hh & _)%all_wf_parts.
  rewrite (hash_ok_found _ _ i t He Hh Hi). simpl. unfold drop_entry, vtx_sender_id.
  by rewrite (in_key _ _ (He i t Hi)).
Qed.

Lemma remove_transaction_by_hash_ok a h :
  all_wf a →
  match by_hash a !! h with
  | None => remove_transaction_by_hash h a = (None, a)
  | Some tx => ∃ t, txs a !! transaction_id tx = Some t ∧ itx t = tx ∧ hash tx = h ∧
      remove_transaction_by_hash h a = (Some (tx, subpool t), drop_entry (transaction_id tx) t a)
  end.
Proof.
  intros W. unfold remove_transaction_by_hash. destruct (by_hash a !! h) as [tx|] eqn:Hh; [|done].
  destruct (proj1 (aw_hash _ W h tx) Hh) as [Hhash Htx].
  destruct (txs a !! transaction_id tx) as [t|] eqn:Ht; [|done]. simpl in Htx. injection Htx as Htx.
  exists t. split_and!; [done..|]. unfold drop_entry, vtx_sender_id. by rewrite Htx, Hhash.
Qed.

(** Replacing the map by one with the same transactions. *)
Lemma set_txs_wf a m' :
  all_wf a → entries_ok m' → (∀ i, itx <$> m' !! i = itx <$> txs a !! i) → all_wf (set_txs m' a).
Proof.
  rewrite !all_wf_parts. intros (He & Hh & Hc) Hm' Hi. simpl.
  split_and!; [done|by eapply hash_ok_itx|by eapply counter_ok_itx].
Qed.

Lemma all_new_wf g config : all_wf (AllTransactions_new g config).
Proof.
  apply all_wf_parts. simpl. split_and!.
  - intros i t. by rewrite lookup_empty.
  - intros h tx. rewrite !lookup_empty. split; [done|]. by intros [_ ?].
  - split; [|intros s v; by rewrite lookup_empty].
    intros s. by rewrite lookup_empty, nb_of_sender_empty.
Qed.

(** [update] changes states and sub-pools, and reports exactly the sub-pools that
    changed. *)
Lemma update_ok changed a :
  all_wf a →
  all_wf (update changed a).2 ∧ updates_ok None (txs a) (txs (update changed a).2) (update changed a).1 ∧
  (∀ i, itx <$> txs (update changed a).2 !! i = itx <$> txs a !! i) ∧
  pending_fees (update changed a).2 = pending_fees a.
Proof.
  intros W. pose proof W as (He & _ & _)%all_wf_parts. unfold update.
  set (l := bmap_iter (txs a)). set (fee := pf_base_fee (pending_fees a)).
  assert (Hl : ∀ i t, (i, t) ∈ l → txs a !! i = Some t) by (intros i t; apply elem_of_bmap_iter).
  pose proof (update_loop_evolve fee changed Outer l ltac:(intros; by apply He, Hl)) as Hev.
  destruct (update_loop fee changed Outer l) as [l' us]. simpl in *.
  assert (Hnd : NoDup l.*1) by apply bmap_iter_NoDup.
  assert (E : list_to_map l' ∪ txs a = list_to_map l').
  { apply map_eq. intros i. apply option_eq. intros t.
    assert (NoDup l'.*1) as Hnd' by (by rewrite (evolve_fst _ _ _ _ Hev)).
    rewrite list_to_map_union_lookup, <-elem_of_list_to_map by done. split; [|by left].
    intros [?|[Hn Hi]]; [done|]. destruct Hn. rewrite (evolve_fst _ _ _ _ Hev).
    apply (list_elem_of_fmap_2 fst _ (i, t)). by apply elem_of_bmap_iter. }
  pose proof (evolve_map_tx None (txs a) l l' us Hl Hnd He Hev) as H1.
  pose proof (evolve_map_ok None (txs a) l l' us Hl Hnd He Hev) as H2.
  pose proof (evolve_map_updates None (txs a) l l' us Hl Hnd He Hev) as H3.
  rewrite E in H1, H2, H3. split_and!; [by apply set_txs_wf|done..].
Qed.

(** ** Which transactions a recheck discards *)
Definition discards (us : list PoolUpdate) : list TransactionId :=
  pu_id <$> filter (λ u, pu_destination u = Discard) us.

(** The nonce lies below the account's nonce reported with the change. *)
Definition stale (changed : gmap SenderId SenderInfo) (i : TransactionId) : bool :=
  match changed !! sender i with Some info => nonce i <? state_nonce info | None => false end.

Definition mode_sender (mode : UpdateMode) : option SenderId :=
  match mode with Outer => None | Inner s _ _ _ _ | Skip s => Some s end.

Lemma discards_app us us' : discards (us ++ us') = discards us ++ discards us'.
Proof. unfold discards. by rewrite filter_app, fmap_app. Qed.

Lemma update_first_discards fee changed i t :
  transaction_id (itx t) = i →
  let '(mode, _, us) := update_first fee changed i t in
  discards us = (if stale changed i then [i] else []) ∧
  (mode = Outer ∨ stale changed i = false ∧ mode_sender mode = Some (sender i)).
Proof.
  intros Hi. unfold update_first. fold (stale changed i). destruct (stale changed i) eqn:E.
  { split; [simpl; by rewrite Hi|by left]. }
  set (t0 := match changed !! sender i with Some _ => _ | None => t end).
  destruct (has_nonce_gap (state t0)); [by split; [|right]|]. unfold record_subpool_update.
  case_bool_decide; by split; [|right].
Qed.

Lemma update_step_discards fee changed mode i t :
  transaction_id (itx t) = i → (mode_sender mode = Some (sender i) → stale changed i = false) →
  let '(mode', _, us) := update_step fee changed mode i t in
  discards us = (if stale changed i then [i] else []) ∧
  (mode' = Outer ∨ stale changed i = false ∧ mode_sender mode' = Some (sender i)).
Proof.
  intros Hi Hm. pose proof (update_first_discards fee changed i t Hi) as Hf.
  destruct mode as [|s cb parked cum nn|s]; cbn [update_step mode_sender] in *; [done| |].
  - destruct (Z.eqb_spec (sender i) s) as [<-|Hne]; [|done]. cbn [negb]. rewrite Hm in * by done.
    destruct (negb _); [by split; [|right]|]. unfold record_subpool_update. case_bool_decide; by split; [|right].
  - destruct (Z.eqb_spec (sender i) s) as [<-|Hne]; [|done]. rewrite Hm in * by done. by split; [|right].
Qed.

Lemma stale_later changed i j :
  sender j = sender i → nonce i ≤ nonce j → stale changed i = false → stale changed j = false.
Proof.
  unfold stale. intros ->. destruct (changed !! sender i); [|done]. rewrite !Z.ltb_ge. lia.
Qed.

Lemma update_loop_discards fee changed mode l :
  StronglySorted key_lt l → (∀ i t, (i, t) ∈ l → transaction_id (itx t) = i) →
  (∀ i t, (i, t) ∈ l → mode_sender mode = Some (sender i) → stale changed i = false) →
  ∀ i, i ∈ discards (update_loop fee changed mode l).2 ↔ i ∈ l.*1 ∧ stale changed i = true.
Proof.
  revert mode; induction l as [|[j t] l IH]; intros mode Hs Hok Hm i.
  { simpl. set_solver. }
  cbn [update_loop].
  pose proof (update_step_discards fee changed mode j t (Hok j t ltac:(left)) (Hm j t ltac:(left))) as Hst.
  destruct (update_step fee changed mode j t) as [[mode' t'] us]. destruct Hst as [Hd Hmode].
  apply StronglySorted_inv in Hs as [Hs Hall].
  specialize (IH mode' Hs ltac:(intros; apply Hok; by right)).
  destruct (update_loop fee changed mode' l) as [l' us']. cbn [fst snd fmap list_fmap] in *.
  rewrite discards_app, elem_of_app, elem_of_cons, Hd, IH.
  - destruct (stale changed j) eqn:Ej; [rewrite list_elem_of_singleton|rewrite elem_of_nil];
      (split; [intros [Hi|[? ?]]|intros [[Hi|?] ?]]); try done; rewrite ?Hi in *; auto; congruence.
  - intros k u Hk Hms. destruct Hmode as [->|[Hj Hms']]; [done|].
    rewrite Hms' in Hms. injection Hms as Hms. eapply stale_later; [by symmetry| |done].
    rewrite Forall_forall in Hall. specialize (Hall (k, u) Hk).
    destruct j, k; unfold key_lt in Hall; simpl in *. rewrite tid_cmp_lt in Hall. lia.
Qed.

(** A recheck discards exactly the transactions whose nonce was used. *)
Lemma update_discards changed a i :
  all_wf a → i ∈ discards (update changed a).1 ↔ is_Some (txs a !! i) ∧ stale changed i = true.
Proof.
  intros W. unfold update.
  pose proof (update_loop_discards (pf_base_fee (pending_fees a)) changed Outer (bmap_iter (txs a))
    (bmap_iter_sorted _) ltac:(intros j t Hj%elem_of_bmap_iter; apply (aw_tx _ W _ _ Hj)) ltac:(done) i) as Hd.
  destruct (update_loop _ _ _ _) as [l us]. simpl in *. rewrite Hd. apply and_iff_compat_r.
  rewrite list_elem_of_fmap. split.
  - intros ([j t] & -> & Hj%elem_of_bmap_iter). by eexists.
  - intros [t Ht%elem_of_bmap_iter]. by exists (i, t).
Qed.

(** ** Insertion *)
Lemma take_while_sublist {A} (p : A → bool) l : take_while p l `sublist_of` l.
Proof. induction l as [|x l IH]; simpl; [done|]. destruct (p x); [by constructor|]. apply sublist_nil_l. Qed.

Lemma filter_is_sublist {A} (P : A → Prop) `{∀ x, Decision (P x)} l : filter P l `sublist_of` l.
Proof. induction l as [|x l IH]; [done|]. rewrite filter_cons. destruct (decide (P x)); by constructor. Qed.

Lemma descendant_txs_inclusive_NoDup i a : NoDup (descendant_txs_inclusive i a).*1.
Proof.
  eapply sublist_NoDup; [apply (bmap_iter_NoDup (txs a))|]. apply fmap_sublist.
  etrans; [apply take_while_sublist|]. apply filter_is_sublist.
Qed.

Lemma elem_of_descendant_txs_inclusive i a j t :
  (j, t) ∈ descendant_txs_inclusive i a ↔ txs a !! j = Some t ∧ sender j = sender i ∧ nonce i ≤ nonce j.
Proof.
  unfold descendant_txs_inclusive. split.
  - intros [Hj Hs]%take_while_incl. apply elem_of_bmap_range_from in Hj as [? Hc].
    apply Z.eqb_eq in Hs. simpl in Hs. destruct i, j. rewrite tid_cmp_gt in Hc. simpl in *. split_and!; [done|lia|lia].
  - intros (Hj & Hs & Hn).
    eapply (take_while_prefix_closed key_lt).
    + apply StronglySorted_filter, bmap_iter_sorted.
    + apply elem_of_bmap_range_from. split; [done|]. destruct i, j; simpl in *. rewrite tid_cmp_gt. lia.
    + simpl. apply Z.eqb_eq. lia.
    + intros [k u] Hk Hlt. apply elem_of_bmap_range_from in Hk as [_ Hk]. apply Z.eqb_eq.
      destruct i, j, k; unfold key_lt in *; simpl in *. rewrite tid_cmp_gt in Hk. rewrite tid_cmp_lt in Hlt. lia.
Qed.

Lemma initial_state_ok tx anc fees :
  tx_state_ok (initial_state tx anc fees) ∧ is_blob (initial_state tx anc fees) = is_eip4844 tx.
Proof.
  unfold initial_state. rewrite <-tx_state_okb_spec.
  destruct (is_eip4844 tx), (pf_blob_fee fees <=? default 0 (max_fee_per_blob_gas tx)),
    (pf_base_fee fees <=? max_fee_per_gas tx), anc; by vm_compute.
Qed.

(** The map after the entry was put in, before the traversal. *)
Definition placed (tx : ValidPoolTransaction) (anc : option TransactionId) (a : AllTransactions)
  : PoolInternalTransaction :=
  let st := initial_state tx anc (pending_fees a) in mkPoolInternalTransaction tx (subpool_of st) st 0.

Lemma placed_ok tx anc a : vtx_ok tx → internal_ok (transaction_id tx) (placed tx anc a).
Proof. intros Hok. by split; simpl; try apply initial_state_ok. Qed.

Lemma entries_ok_insert m i t : entries_ok m → internal_ok i t → entries_ok (<[i := t]> m).
Proof. intros He Ht j u [[<- <-]|[_ Hj]]%lookup_insert_Some; [done|by apply He]. Qed.

(** The three parts of the invariant for the map with the new entry. *)
Lemma placed_parts a tx anc :
  all_wf a → vtx_ok tx → by_hash a !! hash tx = None →
  let m := <[transaction_id tx := placed tx anc a]> (txs a) in
  entries_ok m ∧
  hash_ok (<[hash tx := tx]> (match txs a !! transaction_id tx with
                              | Some e => delete (hash (itx e)) (by_hash a) | None => by_hash a end)) m ∧
  counter_ok (match txs a !! transaction_id tx with
              | Some _ => tx_counter a | None => counter_inc (sender (transaction_id tx)) (tx_counter a) end) m.
Proof.
  intros (He & Hh & Hc)%all_wf_parts Hok Hfresh m. split_and!.
  - by apply entries_ok_insert, placed_ok.
  - unfold m. destruct (txs a !! transaction_id tx) as [e|] eqn:E.
    + pose proof (hash_ok_delete _ _ _ e He Hh E) as Hd.
      rewrite <-(insert_delete_eq (txs a)). apply (hash_ok_insert _ _ (placed tx anc a) Hd).
      * apply lookup_delete_eq.
      * apply lookup_delete_None. by right.
    + by apply (hash_ok_insert _ _ (placed tx anc a) Hh).
  - unfold m. destruct (txs a !! transaction_id tx) as [e|] eqn:E; [|by apply counter_ok_insert].
    destruct Hc as [H1 H2]. split; [|done]. intros s. rewrite H1.
    rewrite (nb_of_sender_delete s (txs a) _ e E), <-(insert_delete_eq (txs a)).
    rewrite (nb_of_sender_insert s (delete _ (txs a))) by apply lookup_delete_eq. done.
Qed.

(** The traversal never discards. *)
Lemma walk_discards inserted bal l w :
  discards (wk_updates (walk_descendants inserted bal l w).2) = discards (wk_updates w).
Proof.
  revert w; induction l as [|[i t] l IH]; intros w; cbn [walk_descendants]; [done|].
  destruct (negb _); [done|]. set (t1 := mkPoolInternalTransaction _ _ _ _).
  set (su := if bool_decide (inserted = i) then _ else _).
  assert (Hsu : discards su.2 = []) by (unfold su; by repeat case_bool_decide).
  destruct su as [st us]. set (w1 := mkWalk _ _ _ _ _). specialize (IH w1).
  destruct (walk_descendants inserted bal l w1) as [changed w']. simpl in *.
  by rewrite IH, discards_app, Hsu, app_nil_r.
Qed.

(** What a successful insertion establishes. *)
Record inserted (tx : ValidPoolTransaction) (a : AllTransactions) (ok : InsertOk) (a' : AllTransactions) : Prop := {
  ins_wf : all_wf a';
  ins_tx : io_transaction ok = tx;
  ins_entry : ∃ t, txs a' !! transaction_id tx = Some t ∧ itx t = tx ∧ subpool t = io_move_to ok;
  ins_replaced : io_replaced_tx ok = (λ t, (itx t, subpool t)) <$> txs a !! transaction_id tx;
  ins_others i : i ≠ transaction_id tx → itx <$> txs a' !! i = itx <$> txs a !! i;
  ins_updates : ∃ t0, itx t0 = tx ∧
    updates_ok (Some (transaction_id tx)) (<[transaction_id tx := t0]> (txs a)) (txs a') (io_updates ok);
  ins_discards : discards (io_updates ok) = [];
  ins_fees : pending_fees a' = pending_fees a;
}.

Lemma insert_tx_cases a tx on_chain_balance on_chain_nonce :
  all_wf a → vtx_ok tx → by_hash a !! hash tx = None → on_chain_nonce ≤ vtx_nonce tx →
  match insert_error tx on_chain_balance
          (ancestor (vtx_nonce tx) on_chain_nonce (sender (transaction_id tx))) a with
  | Some e => insert_tx tx on_chain_balance on_chain_nonce a = Done (inl e)
  | None => ∃ ok a', insert_tx tx on_chain_balance on_chain_nonce a = Done (inr (ok, a')) ∧ inserted tx a ok a'
  end.
Proof.
  intros W Hok Hfresh Hn. unfold insert_tx. rewrite (proj2 (Z.leb_le _ _) Hn).
  set (id := transaction_id tx). set (anc := ancestor _ _ _). cbn [assert_ mbind outcome_bind].
  destruct (insert_error tx on_chain_balance anc a) as [e|]; [done|].
  fold (placed tx anc a).
  destruct (placed_parts a tx anc W Hok Hfresh) as (He & Hh & Hc). fold id in He, Hh, Hc.
  set (m := <[id := placed tx anc a]> (txs a)) in *.
  set (rb := match txs a !! id with None => _ | Some _ => _ end).
  assert (Hrb : rb = ((λ t, (itx t, subpool t)) <$> txs a !! id,
    <[hash tx := tx]> (match txs a !! id with Some e => delete (hash (itx e)) (by_hash a) | None => by_hash a end)))
    by (unfold rb; by destruct (txs a !! id)).
  rewrite Hrb. clear rb Hrb. set (a1 := set_maps _ m _ a).
  set (l := descendant_txs_inclusive _ a1).
  assert (Hl : ∀ i t, (i, t) ∈ l → m !! i = Some t)
    by (intros i t Hi; by apply elem_of_descendant_txs_inclusive in Hi as (? & _)).
  assert (Hidl : (id, placed tx anc a) ∈ l).
  { apply elem_of_descendant_txs_inclusive. simpl. split_and!; [apply lookup_insert_eq|done|].
    unfold id. rewrite (vtx_ok_nonce _ Hok). done. }
  assert (Hparked : ∃ parked, match anc with None => Done false
    | Some _ => '(first_id, first_tx) ← expect (head l);
        Done (if nonce first_id <? nonce id then negb (is_pending (state first_tx)) else true) end = Done parked).
  { destruct anc as [anc_id|]; [|by eexists].
    destruct l as [|[i0 u0] l0]; [by apply elem_of_nil in Hidl|]. by eexists. }
  destruct Hparked as [parked ->]. cbn [mbind outcome_bind].
  pose proof (walk_evolve id on_chain_balance l
    (mkWalk on_chain_nonce 0 parked (initial_state tx anc (pending_fees a)) [])
    ltac:(intros; by apply He, Hl) (descendant_txs_inclusive_NoDup _ a1)) as Hw.
  pose proof (walk_discards id on_chain_balance l
    (mkWalk on_chain_nonce 0 parked (initial_state tx anc (pending_fees a)) [])) as Hdis.
  destruct (walk_descendants id on_chain_balance l _) as [changed w].
  destruct Hw as (us & l2 & Hus & Hk & Hev & Hl2 & Hin & Hout). simpl in Hus, Hout.
  assert (Hnd : NoDup l.*1) by apply descendant_txs_inclusive_NoDup.
  assert (Hndc : NoDup changed.*1) by (rewrite <-Hk in Hnd; by apply NoDup_app in Hnd as [? _]).
  assert (Hndw : NoDup (changed ++ l2).*1) by (by rewrite (evolve_fst _ _ _ _ Hev)).
  assert (E : list_to_map (changed ++ l2) ∪ m = list_to_map changed ∪ m).
  { apply map_eq. intros i. apply option_eq. intros t. rewrite !list_to_map_union_lookup by done.
    rewrite elem_of_app, fmap_app, elem_of_app. split; [|].
    - intros [[?|Hi]|[? ?]]; [by left| |right; tauto]. right. split; [|by apply Hl, Hl2].
      intros Hc1. rewrite <-Hk in Hnd. apply NoDup_app in Hnd as (_ & Hd & _). apply (Hd i Hc1).
      by apply (list_elem_of_fmap_2 fst _ (i, t)).
    - intros [?|[Hn1 Hi]]; [by left; left|]. destruct (decide (i ∈ l2.*1)) as [Hi2|]; [|right; tauto].
      left; right. apply list_elem_of_fmap in Hi2 as ([j u] & -> & Hj). simpl in *.
      assert (u = t) as <-; [|done]. apply Hl2, Hl in Hj. congruence. }
  pose proof (evolve_map_tx (Some id) m l _ us Hl Hnd He Hev) as H1.
  pose proof (evolve_map_ok (Some id) m l _ us Hl Hnd He Hev) as H2.
  pose proof (evolve_map_updates (Some id) m l _ us Hl Hnd He Hev) as H3.
  rewrite E in H1, H2, H3. set (m' := list_to_map changed ∪ m) in *.
  eexists _, _. split; [done|].
  set (a2 := match _ <$> _ with None => _ | Some _ => _ end).
  assert (Ha2 : by_hash a2 = by_hash a1 ∧ txs a2 = m' ∧ pending_fees a2 = pending_fees a ∧
    tx_counter a2 = match txs a !! id with Some _ => tx_counter a | None => counter_inc (sender id) (tx_counter a) end)
    by (unfold a2; by destruct (txs a !! id)).
  destruct Ha2 as (Ha & Hb & Hd & Hc2).
  assert (Hentry : ∃ t, m' !! id = Some t ∧ itx t = tx ∧ subpool t = subpool_of (wk_state w)).
  { pose proof (H1 id) as Hi. unfold m in Hi. rewrite lookup_insert_eq in Hi. simpl in Hi.
    destruct (m' !! id) as [t|] eqn:Ht; [|done]. simpl in Hi. injection Hi as Hi. exists t. split_and!; [done..|].
    rewrite (in_subpool _ _ (H2 id t Ht)). f_equal.
    destruct (decide (id ∈ changed.*1)) as [Hic|Hic].
    - apply list_to_map_union_lookup in Ht as [Ht|[? _]]; [|done|done]. symmetry. by apply Hin.
    - rewrite (Hout Hic). apply list_to_map_union_lookup in Ht as [Ht|[_ Ht]]; [| |done].
      + destruct Hic. by apply (list_elem_of_fmap_2 fst _ (id, t)).
      + unfold m in Ht. rewrite lookup_insert_eq in Ht. by injection Ht as <-. }
  split; simpl.
  - apply all_wf_parts. rewrite Ha, Hb, Hc2. split_and!; [done|by eapply hash_ok_itx|by eapply counter_ok_itx].
  - done.
  - rewrite Hb. done.
  - done.
  - intros i Hi. rewrite Hb, H1. unfold m. by rewrite lookup_insert_ne.
  - exists (placed tx anc a). split; [done|]. rewrite Hb, Hus. exact H3.
  - exact Hdis.
  - done.
Qed.
