(* ===== verification/Chain.v ===== *)
(** * What an insertion computes

    The checks and the traversal of [AllTransactions::insert_tx]
    ([reth/crates/transaction-pool/src/pool/txpool.rs]) against what they are for:
    the states of a sender's gapless run of transactions, and the price a replacement
    has to pay. *)

From stdpp Require Import prelude gmap list sorting.
From S2P Require Import Prelude.
From S2P Require Import Ord.
From S2P Require Import Identifier.
From S2P Require Import State.
From S2P Require Import PoolTx.
From S2P Require Import SubPools.
From S2P Require Import AllTxs.

(** ** A gapless run of transactions *)

(** The entries of a sender from nonce [next] on, given the cost of everything before
    them and whether the one before is parked: the nonces are consecutive, each entry
    carries the cost of its predecessors, and its flags and sub-pool say whether the
    balance covers it and whether its predecessor is pending. *)
Fixpoint chain_ok (balance next cumulative : Z) (parked : bool)
  (l : list (TransactionId * PoolInternalTransaction)) : Prop :=
  match l with
  | [] => True
  | (i, t) :: l' =>
    let total := wrap_u256 (cumulative + cost (itx t)) in
    nonce i = next ∧ cumulative_cost t = cumulative ∧
    st_contains (state t) NO_NONCE_GAPS = true ∧
    (st_contains (state t) ENOUGH_BALANCE = true ↔ total ≤ balance) ∧
    st_contains (state t) NO_PARKED_ANCESTORS = negb parked ∧
    subpool t = subpool_of (state t) ∧
    chain_ok balance (Identifier.next_nonce i) total (negb (is_pending (state t))) l'
  end.

(** The nonce after the run. *)
Definition next_after (next : Z) (l : list (TransactionId * PoolInternalTransaction)) : Z :=
  match last l with Some (i, _) => Identifier.next_nonce i | None => next end.

(** The flags one step of the traversal sets. *)
Lemma walk_flags s enough parked :
  tx_state_ok s →
  let s' := st_set (negb parked) (st_set enough (st_insert s NO_NONCE_GAPS) ENOUGH_BALANCE) NO_PARKED_ANCESTORS in
  st_contains s' NO_NONCE_GAPS = true ∧ st_contains s' ENOUGH_BALANCE = enough ∧
  st_contains s' NO_PARKED_ANCESTORS = negb parked.
Proof.
  intros Hs.
  assert (Hc : forallb (λ e, forallb (λ k,
    let s' := st_set (negb k) (st_set e (st_insert s NO_NONCE_GAPS) ENOUGH_BALANCE) NO_PARKED_ANCESTORS in
    st_contains s' NO_NONCE_GAPS && Bool.eqb (st_contains s' ENOUGH_BALANCE) e &&
    Bool.eqb (st_contains s' NO_PARKED_ANCESTORS) (negb k)) [true; false]) [true; false] = true) by by_states s.
  rewrite forallb_forall in Hc. specialize (Hc enough ltac:(destruct enough; simpl; auto)).
  rewrite forallb_forall in Hc. specialize (Hc parked ltac:(destruct parked; simpl; auto)).
  cbv zeta in *. rewrite !andb_true_iff, !eqb_true_iff in Hc. tauto.
Qed.

(** The traversal turns a prefix of the entries into such a run and stops at the first
    gap. *)
Lemma walk_chain inserted bal l w :
  (∀ i t, (i, t) ∈ l → tx_state_ok (state t)) →
  ∃ l2, l2 `suffix_of` l ∧
    (walk_descendants inserted bal l w).1.*1 ++ l2.*1 = l.*1 ∧
    chain_ok bal (wk_next_nonce w) (wk_cumulative w) (wk_parked w) (walk_descendants inserted bal l w).1 ∧
    (∀ e, head l2 = Some e → nonce e.1 ≠ next_after (wk_next_nonce w) (walk_descendants inserted bal l w).1).
Proof.
  revert w; induction l as [|[i t] l IH]; intros w Hok; cbn [walk_descendants].
  { exists []. by split_and!. }
  destruct (Z.eqb_spec (wk_next_nonce w) (nonce i)) as [Hn|Hn]; cbn [negb].
  2:{ exists ((i, t) :: l). split_and!; [done|done|done|]. intros e [= <-] E. by apply Hn. }
  set (t1 := mkPoolInternalTransaction _ _ _ _).
  set (su := if bool_decide (inserted = i) then _ else _). destruct su as [st us].
  set (w1 := mkWalk _ _ _ _ _). destruct (IH w1) as (l2 & Hsuf & Hk & Hch & Hstop).
  { intros j u Hj. apply (Hok j u). by right. }
  destruct (walk_descendants inserted bal l w1) as [changed w']. cbn [fst] in *.
  exists l2. split_and!.
  - by apply suffix_cons_r.
  - exact (f_equal (cons i) Hk).
  - destruct (walk_flags (state t) (negb (bal <? next_cumulative_cost (set_cumulative (wk_cumulative w) t)))
      (wk_parked w) (Hok i t ltac:(left))) as (F1 & F2 & F3).
    cbn [chain_ok]. split_and!; [done|done|exact F1| |exact F3|done|exact Hch].
    change (state t1) with (st_set (negb (wk_parked w)) (st_set (negb (bal <? next_cumulative_cost
      (set_cumulative (wk_cumulative w) t))) (st_insert (state t) NO_NONCE_GAPS) ENOUGH_BALANCE) NO_PARKED_ANCESTORS).
    rewrite F2, negb_true_iff, Z.ltb_ge. done.
  - intros e He. specialize (Hstop e He). unfold next_after in *. rewrite last_cons.
    destruct (last changed) as [[j u]|]; done.
Qed.

(** ** The map after the traversal *)

Lemma StronglySorted_keys {V} (l l' : list (TransactionId * V)) :
  l'.*1 = l.*1 → StronglySorted key_lt l → StronglySorted key_lt l'.
Proof.
  revert l'; induction l as [|[i v] l IH]; intros [|[j w] l'] E Hs; try done.
  rewrite !fmap_cons in E. injection E as Eij El. simpl in Eij. subst j.
  apply StronglySorted_inv in Hs as [Hs Hall]. constructor; [by apply IH|].
  rewrite Forall_forall in Hall |- *. intros [k u] Hk.
  assert (k ∈ l.*1) as Hkl by (rewrite <-El; by apply (list_elem_of_fmap_2 fst _ (k, u))).
  apply list_elem_of_fmap in Hkl as ([k' u'] & -> & Hk'). exact (Hall _ Hk').
Qed.

Lemma descendants_sorted i a : StronglySorted key_lt (descendant_txs_inclusive i a).
Proof.
  eapply StronglySorted_sublist; [apply take_while_sublist|]. apply StronglySorted_filter, bmap_iter_sorted.
Qed.

(** Changing entries of the list, and putting them back into the map, changes the list
    in the same way. *)
Lemma descendants_changed i a a' (changed l2 : list (TransactionId * PoolInternalTransaction)) :
  txs a' = list_to_map changed ∪ txs a →
  l2 `suffix_of` descendant_txs_inclusive i a → changed.*1 ++ l2.*1 = (descendant_txs_inclusive i a).*1 →
  descendant_txs_inclusive i a' = changed ++ l2.
Proof.
  intros Ha Hsuf Hk. set (l := descendant_txs_inclusive i a) in *.
  assert (Hnd : NoDup (changed ++ l2).*1).
  { rewrite fmap_app, Hk. apply descendant_txs_inclusive_NoDup. }
  assert (Hndc : NoDup changed.*1) by (rewrite fmap_app in Hnd; by apply NoDup_app in Hnd as [? _]).
  apply (StronglySorted_unique key_lt).
  - apply descendants_sorted.
  - apply (StronglySorted_keys l); [by rewrite fmap_app|apply descendants_sorted].
  - apply NoDup_Permutation.
    + eapply NoDup_fmap_1, descendant_txs_inclusive_NoDup.
    + by eapply NoDup_fmap_1.
    + intros [j t]. rewrite elem_of_descendant_txs_inclusive, Ha, list_to_map_union_lookup, elem_of_app by done.
      assert (Hin : ∀ u, (j, u) ∈ l → txs a !! j = Some u ∧ sender j = sender i ∧ nonce i ≤ nonce j)
        by (intros u; apply elem_of_descendant_txs_inclusive).
      assert (Hin2 : (j, t) ∈ l2 → (j, t) ∈ l) by (destruct Hsuf as [l1 ->]; rewrite elem_of_app; auto).
      assert (Hkeys : j ∈ l.*1 ↔ j ∈ changed.*1 ∨ j ∈ l2.*1) by (by rewrite <-Hk, elem_of_app).
      split.
      * intros ([Hc|[Hn Hj]] & Hs & Hle); [by left|right].
        assert ((j, t) ∈ l) as Hl by (by apply elem_of_descendant_txs_inclusive).
        destruct (proj1 Hkeys (list_elem_of_fmap_2 fst _ (j, t) Hl)) as [?|Hj2]; [done|].
        apply list_elem_of_fmap in Hj2 as ([j' u] & -> & Hu). simpl in *.
        assert ((j', u) ∈ l) as (Hu' & _)%elem_of_descendant_txs_inclusive by (destruct Hsuf as [l1 ->]; rewrite elem_of_app; auto).
        congruence.
      * intros [Hc|H2].
        -- assert (j ∈ l.*1) as ([j' u] & -> & Hu)%list_elem_of_fmap
             by (apply Hkeys; left; by apply (list_elem_of_fmap_2 fst _ (j, t))).
           apply elem_of_descendant_txs_inclusive in Hu as (_ & ? & ?). split_and!; [by left|done|done].
        -- destruct (Hin t (Hin2 H2)) as (? & ? & ?). split_and!; [right|done|done]. split; [|done].
           intros Hc. rewrite fmap_app in Hnd. apply NoDup_app in Hnd as (_ & Hd & _). apply (Hd j Hc).
           by apply (list_elem_of_fmap_2 fst _ (j, t)).
Qed.

(** What a successful [insert_tx] did. *)
Lemma insert_tx_inv tx bal on_chain_nonce a ok a' :
  insert_tx tx bal on_chain_nonce a = Done (inr (ok, a')) →
  let anc := ancestor (vtx_nonce tx) on_chain_nonce (vtx_sender_id tx) in
  let on_chain_id := mkTransactionId (vtx_sender_id tx) on_chain_nonce in
  ∃ a1 parked, on_chain_nonce ≤ vtx_nonce tx ∧ insert_error tx bal anc a = None ∧
    txs a1 = <[transaction_id tx := placed tx anc a]> (txs a) ∧
    txs a' = list_to_map (walk_descendants (transaction_id tx) bal (descendant_txs_inclusive on_chain_id a1)
      (mkWalk on_chain_nonce 0 parked (initial_state tx anc (pending_fees a)) [])).1 ∪ txs a1 ∧
    (anc = None → parked = false) ∧
    (is_Some anc → ∃ e, head (descendant_txs_inclusive on_chain_id a1) = Some e ∧
       parked = if nonce e.1 <? nonce (transaction_id tx) then negb (is_pending (state e.2)) else true).
Proof.
  intros H anc on_chain_id. unfold insert_tx in H.
  apply bind_Done_inv in H as ([] & Hle & H). unfold assert_ in Hle.
  destruct (Z.leb_spec on_chain_nonce (vtx_nonce tx)) as [Hn|]; [|done].
  fold (vtx_sender_id tx) in H. fold anc in H. destruct (insert_error tx bal anc a) as [e|]; [done|].
  fold (placed tx anc a) in H. fold on_chain_id in H. set (rb := match txs a !! transaction_id tx with None => _ | Some _ => _ end) in H.
  destruct rb as [replaced bh]. set (a1 := set_maps _ _ _ a) in H.
  apply bind_Done_inv in H as (parked & Hparked & H). exists a1, parked.
  destruct (walk_descendants _ _ _ _) as [changed w] eqn:Ew. injection H as _ <-.
  split_and!; [done|done|done| | |].
  - by destruct replaced.
  - intros E. rewrite E in Hparked. by injection Hparked as <-.
  - intros [i E]. rewrite E in Hparked.
    apply bind_Done_inv in Hparked as ([fi ft] & Hh & Hp). exists (fi, ft). injection Hp as <-.
    by destruct (head _) as [e|]; [injection Hh as ->|].
Qed.

(** After a successful insertion the sender's transactions from the account's nonce
    up to the first gap are consistent: each carries the total cost of those before it,
    is marked as covered by the balance exactly if the balance pays for it and all of
    them, is marked as free of parked ancestors exactly if the one before it is pending,
    and lies in the sub-pool its flags determine; the first of them is free of parked
    ancestors if the inserted transaction is the account's next one. *)
Theorem insert_tx_chain tx on_chain_balance on_chain_nonce a ok a' :
  all_wf a → vtx_ok tx → insert_tx tx on_chain_balance on_chain_nonce a = Done (inr (ok, a')) →
  let on_chain_id := mkTransactionId (vtx_sender_id tx) on_chain_nonce in
  ∃ parked run rest, descendant_txs_inclusive on_chain_id a' = run ++ rest ∧
    chain_ok on_chain_balance on_chain_nonce 0 parked run ∧
    (∀ e, head rest = Some e → nonce e.1 ≠ next_after on_chain_nonce run) ∧
    (vtx_nonce tx = on_chain_nonce → parked = false).
Proof.
  intros W Hok H on_chain_id. destruct (insert_tx_inv _ _ _ _ _ _ H) as (a1 & parked & Hn & _ & Htx1 & Htx' & Hanc & _).
  pose proof W as (He & _ & _)%all_wf_parts.
  destruct (walk_chain (transaction_id tx) on_chain_balance (descendant_txs_inclusive on_chain_id a1)
    (mkWalk on_chain_nonce 0 parked (initial_state tx (ancestor (vtx_nonce tx) on_chain_nonce (vtx_sender_id tx))
      (pending_fees a)) [])) as (rest & Hsuf & Hk & Hch & Hstop).
  { intros i t (Hi & _)%elem_of_descendant_txs_inclusive. rewrite Htx1 in Hi.
    apply lookup_insert_Some in Hi as [[_ <-]|[_ Hi]]; [apply initial_state_ok|apply (in_state i t), He, Hi]. }
  exists parked, (walk_descendants (transaction_id tx) on_chain_balance (descendant_txs_inclusive on_chain_id a1)
    (mkWalk on_chain_nonce 0 parked (initial_state tx (ancestor (vtx_nonce tx) on_chain_nonce (vtx_sender_id tx))
      (pending_fees a)) [])).1, rest.
  split_and!; [by eapply descendants_changed|exact Hch|exact Hstop|].
  intros E. apply Hanc. unfold ancestor. rewrite bool_decide_eq_false_2 by lia. done.
Qed.

Definition chain_example : AllTransactions := AllTransactions_new 1 PoolConfig_default.

Lemma insert_tx_chain_witness :
  ∃ parked run rest ok a', insert_tx (example_vtx 1 1 0 50) 1000 0 chain_example = Done (inr (ok, a')) ∧
    descendant_txs_inclusive (mkTransactionId 1 0) a' = run ++ rest ∧ chain_ok 1000 0 0 parked run.
Proof.
  destruct (insert_tx (example_vtx 1 1 0 50) 1000 0 chain_example) as [[e|[ok a']]| |] eqn:E;
    [exfalso; by vm_compute in E| |exfalso; by vm_compute in E..].
  destruct (insert_tx_chain (example_vtx 1 1 0 50) 1000 0 chain_example ok a' (all_new_wf 1 PoolConfig_default)
    ltac:(by apply example_vtx_ok) E) as (parked & run & rest & H1 & H2 & _).
  exists parked, run, rest, ok, a'. by split_and!.
Defined.

(** ** The price of a replacement *)

(** The increase a fee has to exceed, in hundredths, when the product fits. *)
Lemma bumped_exceeded fee bump x :
  0 ≤ fee → 0 ≤ bump → fee * (100 + bump) < U128 → 100 + bump < U128 →
  (bumped fee bump < x ↔ fee * (100 + bump) < 100 * x).
Proof.
  intros Hf Hb Hm Hb'. unfold bumped, wrap_u128. rewrite (Z.mod_small (100 + bump)) by lia.
  rewrite Z.mod_small by nia. split; intros H.
  - pose proof (Z.mul_succ_div_gt (fee * (100 + bump)) 100 ltac:(lia)). nia.
  - apply Z.div_lt_upper_bound; lia.
Qed.

(** The fees a replacement is measured by. *)
Definition prio_fee (tx : ValidPoolTransaction) : Z := default 0 (tx_max_priority_fee_per_gas (transaction tx)).
Definition blob_cap (tx : ValidPoolTransaction) : Z := default 0 (max_fee_per_blob_gas tx).

(** [x] exceeds [y] by more than [bump] per cent. *)
Definition raises (bump y x : Z) : Prop := y * (100 + bump) < 100 * x.

(** No product of a fee of the existing transaction with the increase leaves [u128]. *)
Definition bump_fits (tx : ValidPoolTransaction) (bump : Z) : Prop :=
  0 ≤ bump ∧ 100 + bump < U128 ∧
  (∀ fee, fee ∈ [max_fee_per_gas tx; prio_fee tx; blob_cap tx] → 0 ≤ fee ∧ fee * (100 + bump) < U128).

(** A replacement is accepted exactly if it raises the fee cap by more than the
    configured percentage, does the same for the priority fee unless one of the two
    priority fees is zero, and, when the replaced transaction has a blob fee cap, for
    that cap too; all this as long as no product overflows. *)
Theorem is_underpriced_spec existing replacement bumps :
  let bump := price_bump bumps (tx_type (transaction existing)) in
  bump_fits existing bump →
  is_underpriced existing replacement bumps = false ↔
  raises bump (max_fee_per_gas existing) (max_fee_per_gas replacement) ∧
  (prio_fee existing ≠ 0 → prio_fee replacement ≠ 0 → raises bump (prio_fee existing) (prio_fee replacement)) ∧
  (is_Some (max_fee_per_blob_gas existing) → raises bump (blob_cap existing) (blob_cap replacement)).
Proof.
  intros bump (Hb & Hb' & Hfit). unfold is_underpriced, raises. fold bump.
  fold (prio_fee existing) (prio_fee replacement) (blob_cap replacement).
  destruct (Hfit (max_fee_per_gas existing) ltac:(left)) as [F1 F2].
  destruct (Hfit (prio_fee existing) ltac:(right; left)) as [P1 P2].
  destruct (Hfit (blob_cap existing) ltac:(right; right; left)) as [B1 B2].
  rewrite <-(bumped_exceeded (max_fee_per_gas existing)), <-(bumped_exceeded (prio_fee existing)),
    <-(bumped_exceeded (blob_cap existing)) by done.
  destruct (Z.leb_spec (max_fee_per_gas replacement) (bumped (max_fee_per_gas existing) bump)); [split; [done|lia]|].
  destruct (Z.leb_spec (prio_fee replacement) (bumped (prio_fee existing) bump)),
    (Z.eqb_spec (prio_fee existing) 0), (Z.eqb_spec (prio_fee replacement) 0); cbn [andb negb];
    try (split; [done|lia]).
  all: unfold blob_cap in *; destruct (max_fee_per_blob_gas existing) as [cap|]; simpl default in *;
    rewrite ?Z.leb_gt; (split; [intros; split_and!; try done; intros; try lia; by destruct H|]).
  all: intros (_ & _ & Hc); try done; apply Hc; by eexists.
Qed.

Lemma is_underpriced_spec_witness :
  is_underpriced (example_vtx 1 1 0 100) (example_vtx 2 1 0 111) PriceBumpConfig_default = false.
Proof.
  apply (is_underpriced_spec (example_vtx 1 1 0 100) (example_vtx 2 1 0 111) PriceBumpConfig_default).
  - split_and!; [by vm_compute..|]. intros fee Hfee.
    repeat (apply elem_of_cons in Hfee as [->|Hfee]; [by split; vm_compute|]). by apply elem_of_nil in Hfee.
  - split_and!; [by vm_compute|by vm_compute|by intros [? ?]].
Defined.

(** The increase is computed with a product on [u128] that can overflow: a fee cap
    just above [2 ^ 128 / 110] can be replaced by one of 10 wei. *)
Theorem replacement_bump_overflows :
  is_underpriced (example_vtx 1 1 0 (2 ^ 128 / 110 + 1)) (example_vtx 2 1 0 10) PriceBumpConfig_default = false.
Proof. vm_compute. reflexivity. Qed.
