(* ===== verification/Forks.v ===== *)
(** * Hard forks and their activation

    [ethereum-forks]: [Head] ([head.rs]), [ForkCondition] ([forkcondition.rs]), the
    ordered list of a chain's hard forks ([hardforks/mod.rs]) and the Ethereum helpers
    ([hardforks/ethereum.rs]).  A hard fork is its name: the trait [Hardfork] has no
    other method, and equality of forks compares names. *)

From stdpp Require Import prelude gmap list strings.
From S2P Require Import Prelude.

Record Head := mkHead {
  hd_number : Z;
  hd_hash : Z;
  hd_difficulty : Z;
  hd_total_difficulty : Z;
  hd_timestamp : Z;
}.
Definition Head_default : Head := mkHead 0 0 0 0 0.

(** ** Conditions *)
Inductive ForkCondition :=
| Block (block : Z)
| TTD (fork_block : option Z) (total_difficulty : Z)
| Timestamp (time : Z)
| Never.

#[export] Instance ForkCondition_eq_dec : EqDecision ForkCondition.
Proof. solve_decision. Defined.

Definition active_at_block (c : ForkCondition) (current_block : Z) : bool :=
  match c with
  | Block block | TTD (Some block) _ => block <=? current_block
  | _ => false
  end.
Definition transitions_at_block (c : ForkCondition) (current_block : Z) : bool :=
  match c with Block block => current_block =? block | _ => false end.
(** The subtraction saturates at zero. *)
Definition active_at_ttd (c : ForkCondition) (ttd difficulty : Z) : bool :=
  match c with TTD _ total_difficulty => total_difficulty <=? Z.max 0 (ttd - difficulty) | _ => false end.
Definition active_at_timestamp (c : ForkCondition) (timestamp : Z) : bool :=
  match c with Timestamp time => time <=? timestamp | _ => false end.
Definition transitions_at_timestamp (c : ForkCondition) (timestamp parent_timestamp : Z) : bool :=
  match c with Timestamp time => (time <=? timestamp) && (parent_timestamp <? time) | _ => false end.
Definition active_at_head (c : ForkCondition) (h : Head) : bool :=
  active_at_block c (hd_number h) || active_at_timestamp c (hd_timestamp h) ||
  active_at_ttd c (hd_total_difficulty h) (hd_difficulty h).
Definition as_timestamp (c : ForkCondition) : option Z :=
  match c with Timestamp time => Some time | _ => None end.

(** ** The hard forks of a chain *)
Record ChainHardforks := mkChainHardforks {
  forks : list (string * ForkCondition);
  fork_map : gmap string ForkCondition;
}.

(** [ChainHardforks::new]: of a name that occurs twice, the map has the last entry. *)
Definition ChainHardforks_new (l : list (string * ForkCondition)) : ChainHardforks :=
  mkChainHardforks l (foldl (λ m e, <[e.1 := e.2]> m) ∅ l).

Definition hf_get (fork : string) (h : ChainHardforks) : option ForkCondition := fork_map h !! fork.
Definition hf_fork (fork : string) (h : ChainHardforks) : ForkCondition := default Never (hf_get fork h).
Definition fork_block (fork : string) (h : ChainHardforks) : option Z :=
  match hf_fork fork h with
  | Block block => Some block
  | TTD fork_block _ => fork_block
  | Timestamp ts => Some ts
  | Never => None
  end.
Definition is_fork_active_at_timestamp (fork : string) (timestamp : Z) (h : ChainHardforks) : bool :=
  active_at_timestamp (hf_fork fork h) timestamp.
Definition is_fork_active_at_block (fork : string) (block_number : Z) (h : ChainHardforks) : bool :=
  active_at_block (hf_fork fork h) block_number.

(** Writing to the first entry that an iterator's [find] returns. *)
Fixpoint update_first_named (fork : string) (c : ForkCondition) (l : list (string * ForkCondition))
  : list (string * ForkCondition) :=
  match l with
  | [] => []
  | (f, c') :: l' => if String.eqb f fork then (f, c) :: l' else (f, c') :: update_first_named fork c l'
  end.

Definition hf_insert (fork : string) (c : ForkCondition) (h : ChainHardforks) : ChainHardforks :=
  match fork_map h !! fork with
  | Some _ => mkChainHardforks (update_first_named fork c (forks h)) (<[fork := c]> (fork_map h))
  | None => mkChainHardforks (forks h ++ [(fork, c)]) (<[fork := c]> (fork_map h))
  end.
Definition hf_remove (fork : string) (h : ChainHardforks) : ChainHardforks :=
  mkChainHardforks (filter (λ e, negb (String.eqb e.1 fork)) (forks h)) (delete fork (fork_map h)).

(** The helpers for Ethereum's forks that transaction validation uses. *)
Definition is_shanghai_active_at_timestamp (timestamp : Z) (h : ChainHardforks) : bool :=
  is_fork_active_at_timestamp "Shanghai" timestamp h.
Definition is_cancun_active_at_timestamp (timestamp : Z) (h : ChainHardforks) : bool :=
  is_fork_active_at_timestamp "Cancun" timestamp h.
Definition is_prague_active_at_timestamp (timestamp : Z) (h : ChainHardforks) : bool :=
  is_fork_active_at_timestamp "Prague" timestamp h.
Definition is_paris_active_at_block (block_number : Z) (h : ChainHardforks) : option bool :=
  match hf_fork "Paris" h with
  | Block paris_block => Some (paris_block <=? block_number)
  | TTD fork_block _ => (λ paris_block, paris_block <=? block_number) <$> fork_block
  | _ => None
  end.

(** ** The list and the map agree *)
Record hardforks_wf (h : ChainHardforks) : Prop := {
  hf_names : NoDup (forks h).*1;
  hf_same : fork_map h = list_to_map (forks h);
}.

Lemma hf_new_foldl l m :
  NoDup l.*1 → (∀ f, f ∈ l.*1 → m !! f = None) → foldl (λ m e, <[e.1 := e.2]> m) m l = list_to_map l ∪ (m : gmap string ForkCondition).
Proof.
  revert m; induction l as [|[f c] l IH]; intros m Hnd Hf; simpl; [by rewrite map_empty_union|].
  simpl in Hnd. apply NoDup_cons in Hnd as [Hn Hnd]. rewrite IH; [|done|].
  - rewrite <-insert_union_r, insert_union_l; [done|]. by apply not_elem_of_list_to_map_1.
  - intros f' Hf'. rewrite lookup_insert_ne by (by intros <-). apply Hf. by right.
Qed.

Lemma new_hardforks_wf l : NoDup l.*1 → hardforks_wf (ChainHardforks_new l).
Proof.
  intros Hnd. split; simpl; [done|]. rewrite hf_new_foldl by done. apply map_union_empty.
Qed.

Lemma update_first_names fork c l : (update_first_named fork c l).*1 = l.*1.
Proof. induction l as [|[f c'] l IH]; simpl; [done|]. destruct (String.eqb f fork); csimpl; by f_equal. Qed.

Lemma update_first_map fork c l :
  fork ∈ l.*1 → NoDup l.*1 →
  list_to_map (update_first_named fork c l) = <[fork := c]> (list_to_map l : gmap string ForkCondition).
Proof.
  induction l as [|[f c'] l IH]; simpl; [by intros ?%elem_of_nil|]. rewrite elem_of_cons, NoDup_cons.
  intros Hin [Hn Hnd]. destruct (String.eqb_spec f fork) as [->|Hne]; simpl.
  - by rewrite insert_insert_eq.
  - rewrite IH by (destruct Hin; [congruence|done]). by apply insert_insert_ne.
Qed.

Lemma filter_named_map fork l :
  NoDup l.*1 →
  list_to_map (filter (λ e, negb (String.eqb e.1 fork)) l) = delete fork (list_to_map l : gmap string ForkCondition).
Proof.
  induction l as [|[f c] l IH]; simpl; [by rewrite delete_empty|]. rewrite NoDup_cons. intros [Hn Hnd].
  rewrite filter_cons. simpl. destruct (String.eqb_spec f fork) as [->|Hne]; simpl.
  - rewrite IH by done. by rewrite delete_insert_eq.
  - rewrite IH by done. by rewrite delete_insert_ne.
Qed.

(** Changing the hard forks of a chain: in a list without repeated names, inserting a
    fork sets its condition, appends it if it is new and keeps the order of the others;
    removing it leaves it without a condition; the conditions of the other forks do not
    change, and the list and the map behind the lookups stay in step. *)
Theorem hardforks_insert_remove fork c h :
  hardforks_wf h →
  hardforks_wf (hf_insert fork c h) ∧ hardforks_wf (hf_remove fork h) ∧
  hf_fork fork (hf_insert fork c h) = c ∧ hf_get fork (hf_remove fork h) = None ∧
  (∀ f, f ≠ fork → hf_get f (hf_insert fork c h) = hf_get f h ∧ hf_get f (hf_remove fork h) = hf_get f h) ∧
  (forks (hf_insert fork c h)).*1 = (forks h).*1 ++ (if hf_get fork h then [] else [fork]).
Proof.
  intros [Hnd Hm]. unfold hf_fork, hf_get, hf_insert, hf_remove. simpl.
  assert (Hin : is_Some (fork_map h !! fork) ↔ fork ∈ (forks h).*1).
  { rewrite Hm. split.
    - intros [x Hx%elem_of_list_to_map_2]. by apply (list_elem_of_fmap_2 fst) in Hx.
    - intros ([? x] & -> & Hx)%list_elem_of_fmap. exists x. by apply elem_of_list_to_map_1. }
  split_and!.
  - destruct (fork_map h !! fork) eqn:E; split; simpl.
    + by rewrite update_first_names.
    + rewrite Hm, update_first_map by (done || apply Hin; eauto). done.
    + rewrite fmap_app. apply NoDup_app. split_and!; [done| |by apply NoDup_singleton].
      intros f Hf ->%list_elem_of_singleton. apply Hin in Hf as [? ?]. congruence.
    + rewrite list_to_map_snoc, Hm; [done|]. intros Hf%Hin. destruct Hf. congruence.
  - split; simpl.
    + eapply sublist_NoDup; [exact Hnd|]. apply fmap_sublist, sublist_filter.
    + by rewrite filter_named_map, Hm by done.
  - destruct (fork_map h !! fork); simpl; by rewrite lookup_insert_eq.
  - apply lookup_delete_eq.
  - intros f Hf. split; [|by apply lookup_delete_ne].
    destruct (fork_map h !! fork); simpl; by rewrite lookup_insert_ne by congruence.
  - destruct (fork_map h !! fork); simpl; [by rewrite update_first_names, app_nil_r|by rewrite fmap_app].
Qed.

(** The last forks of Ethereum's main network. *)
Definition example_hardforks : ChainHardforks :=
  ChainHardforks_new [("Frontier", Block 0); ("London", Block 12965000);
    ("Paris", TTD None 58750000000000000000000); ("Shanghai", Timestamp 1681338455); ("Cancun", Timestamp 1710338135)].

Lemma hardforks_insert_remove_witness :
  hf_fork "Prague" (hf_insert "Prague" (Timestamp 1746612311) example_hardforks) = Timestamp 1746612311.
Proof.
  apply (hardforks_insert_remove "Prague" (Timestamp 1746612311) example_hardforks).
  apply new_hardforks_wf. by apply (bool_decide_unpack _).
Defined.
