(* ===== verification/ForkId.v ===== *)
(** * Fork identifiers

    [ethereum-forks/src/forkid.rs]: the filter that decides, by the rules of EIP-2124,
    whether a peer is on a compatible chain, and the computation of the fork identifier
    from a chain specification ([chainspec/src/spec.rs]).

    The CRC comes from the library [crc]: [checksum] is [Crc::checksum] and
    [digest init bytes] the result of [digest_with_initial], [update] and [finalize].
    A [ForkHash] is the 32-bit number of its four bytes. *)

From stdpp Require Import prelude gmap list sorting strings.
From S2P Require Import Prelude.
From S2P Require Import Ord.
From S2P Require Import Forks.

Notation ForkHash := Z (only parsing).

Definition TIMESTAMP_BEFORE_ETHEREUM_MAINNET : Z := 1300000000.

(** ** Keys *)
Inductive ForkFilterKey := KBlock (block : Z) | KTime (time : Z).

#[export] Instance ForkFilterKey_eq_dec : EqDecision ForkFilterKey.
Proof. solve_decision. Defined.
#[export] Instance ForkFilterKey_countable : Countable ForkFilterKey.
Proof.
  refine (inj_countable' (λ k, match k with KBlock b => inl b | KTime t => inr t end)
    (λ x, match x with inl b => KBlock b | inr t => KTime t end) _). by intros [].
Defined.

#[export] Instance ForkFilterKey_cmp : Cmp ForkFilterKey := λ k1 k2,
  match k1, k2 with
  | KBlock a, KBlock b | KTime a, KTime b => cmp a b
  | KBlock _, KTime _ => Lt
  | KTime _, KBlock _ => Gt
  end.

#[export] Instance ForkFilterKey_ord : CmpOrd ForkFilterKey.
Proof.
  split.
  - intros [a|a] [b|b]; try done; apply (cmp_opp a b).
  - intros [a|a] [b|b] [d|d]; try done; apply (cmp_lt_trans a b d).
  - intros [a|a] [b|b] [d|d]; try done; apply (cmp_eq_subst a b d).
Qed.
#[export] Instance ForkFilterKey_leibniz : CmpLeibniz ForkFilterKey.
Proof. intros [a|a] [b|b] E; try done; f_equal; by apply (cmp_eq_leibniz a b). Qed.

Definition key_u64 (k : ForkFilterKey) : Z := match k with KBlock b => b | KTime t => t end.

(** Whether the fork of a key is active, as [compute_cache] and [set_head_priv] test it. *)
Definition key_active (h : Head) (k : ForkFilterKey) : bool :=
  match k with KBlock block => block <=? hd_number h | KTime time => time <=? hd_timestamp h end.

(** ** Data *)
Record ForkId := mkForkId { fid_hash : ForkHash; fid_next : Z }.
#[export] Instance ForkId_eq_dec : EqDecision ForkId.
Proof. solve_decision. Defined.

Inductive ValidationError :=
| RemoteStale (local remote : ForkId)
| LocalIncompatibleOrStale (local remote : ForkId).

Record Cache := mkCache {
  epoch_start : ForkFilterKey;
  epoch_end : option ForkFilterKey;
  past : list (ForkFilterKey * ForkHash);
  future : list ForkHash;
  cache_fork_id : ForkId;
}.

Record ForkFilter := mkForkFilter {
  ff_forks : gmap ForkFilterKey ForkHash;
  ff_head : Head;
  ff_cache : Cache;
}.

Record ForkTransition := mkForkTransition { ft_current : ForkId; ft_past : ForkId }.

(** ** Operations of the filter *)

(** [Cache::compute_cache]. *)
Definition cache_step (h : Head) (st : ForkFilterKey * option ForkFilterKey * list (ForkFilterKey * ForkHash) * list ForkHash)
  (e : ForkFilterKey * ForkHash) :=
  let '(start, end_, past, future) := st in
  if key_active h e.1 then (e.1, end_, past ++ [e], future)
  else (start, match end_ with None => Some e.1 | Some _ => end_ end, past, future ++ [e.2]).
Definition compute_cache (forks : gmap ForkFilterKey ForkHash) (h : Head) : outcome Cache :=
  let '(start, end_, past, future) := foldl (cache_step h) (KBlock 0, None, [], []) (bmap_iter forks) in
  e ← expect (last past);
  Done (mkCache start end_ past future (mkForkId e.2 (key_u64 (default (KBlock 0) end_)))).

Definition current (f : ForkFilter) : ForkId := cache_fork_id (ff_cache f).

(** [ForkFilter::set_head_priv]. *)
Definition set_head (h : Head) (f : ForkFilter) : outcome (option ForkTransition * ForkFilter) :=
  let head_in_past := negb (key_active h (epoch_start (ff_cache f))) in
  let head_in_future := match epoch_end (ff_cache f) with Some k => key_active h k | None => false end in
  if head_in_past || head_in_future then
    c ← compute_cache (ff_forks f) h;
    Done (Some (mkForkTransition (cache_fork_id c) (current f)), mkForkFilter (ff_forks f) h c)
  else Done (None, mkForkFilter (ff_forks f) h (ff_cache f)).

Definition set_current_fork_id (id : ForkId) (f : ForkFilter) : ForkFilter :=
  let c := ff_cache f in
  mkForkFilter (ff_forks f) (ff_head f) (mkCache (epoch_start c) (epoch_end c) (past c) (future c) id).

(** The loop of rule 2: [Some r] if it returns [r], [None] if it is left. *)
Fixpoint past_loop (local id : ForkId) (it : list (ForkFilterKey * ForkHash)) : option (option ValidationError) :=
  match it with
  | [] => None
  | (_, hash) :: it' =>
    if hash =? fid_hash id then
      match it' with
      | (actual_key, _) :: _ =>
        Some (if key_u64 actual_key =? fid_next id then None else Some (RemoteStale local id))
      | [] => None
      end
    else past_loop local id it'
  end.

(** [ForkFilter::validate]; [None] is the result [Ok(())]. *)
Definition validate (id : ForkId) (f : ForkFilter) : option ValidationError :=
  let h := ff_head f in
  if fid_hash (current f) =? fid_hash id then
    if fid_next id =? 0 then None
    else
      let is_incompatible :=
        if hd_number h <? TIMESTAMP_BEFORE_ETHEREUM_MAINNET then
          ((TIMESTAMP_BEFORE_ETHEREUM_MAINNET <? fid_next id) && (fid_next id <=? hd_timestamp h)) ||
          ((fid_next id <=? TIMESTAMP_BEFORE_ETHEREUM_MAINNET) && (fid_next id <=? hd_number h))
        else
          fid_next id <=? match epoch_start (ff_cache f) with KBlock _ => hd_number h | KTime _ => hd_timestamp h end in
      if is_incompatible then Some (LocalIncompatibleOrStale (current f) id) else None
  else
    match past_loop (current f) id (past (ff_cache f)) with
    | Some r => r
    | None =>
      if existsb (λ hash, hash =? fid_hash id) (future (ff_cache f)) then None
      else Some (LocalIncompatibleOrStale (current f) id)
    end.

Section forkid.
Context (checksum : list Z → Z) (digest : Z → list Z → Z).

(** [u64::to_be_bytes]. *)
Definition be_bytes (v : Z) : list Z := (λ i, Z.land (Z.shiftr v (8 * i)) 255) <$> [7; 6; 5; 4; 3; 2; 1; 0].

(** [From<B256> for ForkHash] and [AddAssign]. *)
Definition fork_hash_from (genesis : list Z) : ForkHash := checksum genesis.
Definition fork_hash_add (h : ForkHash) (v : Z) : ForkHash := digest (digest h []) (be_bytes v).

(** [ForkFilter::new]. *)
Definition after_genesis (genesis_timestamp : Z) (k : ForkFilterKey) : bool :=
  match k with KBlock _ => true | KTime time => genesis_timestamp <? time end.
Definition fork_keys (genesis_timestamp : Z) (l : list ForkFilterKey) : list ForkFilterKey :=
  bset_collect (filter (λ k, after_genesis genesis_timestamp k)
    (bset_remove (KBlock 0) (bset_remove (KTime 0) (bset_collect l)))).
Definition fork_hashes (genesis_hash : list Z) (keys : list ForkFilterKey) : gmap ForkFilterKey ForkHash :=
  let g := fork_hash_from genesis_hash in
  (foldl (λ st key, let h := fork_hash_add st.2 (key_u64 key) in (<[key := h]> st.1, h)) ({[KBlock 0 := g]}, g) keys).1.
Definition ForkFilter_new (h : Head) (genesis_hash : list Z) (genesis_timestamp : Z) (l : list ForkFilterKey)
  : outcome ForkFilter :=
  let forks := fork_hashes genesis_hash (fork_keys genesis_timestamp l) in
  c ← compute_cache forks h;
  Done (mkForkFilter forks h c).

(** ** Fork identifiers of a chain specification *)

(** What the two methods use of [ChainSpec]. *)
Record ChainSpec := mkChainSpec {
  cs_genesis_hash : list Z;
  cs_genesis_timestamp : Z;
  cs_hardforks : ChainHardforks;
}.

(** [ChainSpec::fork_filter]. *)
Definition filter_key (c : ForkCondition) : option ForkFilterKey :=
  match c with
  | Block block | TTD (Some block) _ => Some (KBlock block)
  | Timestamp time => Some (KTime time)
  | _ => None
  end.
Definition fork_filter (h : Head) (s : ChainSpec) : outcome ForkFilter :=
  ForkFilter_new h (cs_genesis_hash s) (cs_genesis_timestamp s)
    (omap (λ e, filter_key e.2) (forks (cs_hardforks s))).

(** [ChainSpec::fork_id]: the two loops; [inl] is an early return. *)
Fixpoint block_loop (h : Head) (l : list ForkCondition) (forkhash current_applied : Z) : ForkId + Z * Z :=
  match l with
  | [] => inr (forkhash, current_applied)
  | cond :: l' =>
    match cond with
    | Block block | TTD (Some block) _ =>
      if active_at_head cond h then
        if block =? current_applied then block_loop h l' forkhash current_applied
        else block_loop h l' (fork_hash_add forkhash block) block
      else inl (mkForkId forkhash block)
    | _ => block_loop h l' forkhash current_applied
    end
  end.
Fixpoint time_loop (h : Head) (l : list Z) (forkhash current_applied : Z) : ForkId :=
  match l with
  | [] => mkForkId forkhash 0
  | timestamp :: l' =>
    if active_at_head (Timestamp timestamp) h then
      if timestamp =? current_applied then time_loop h l' forkhash current_applied
      else time_loop h l' (fork_hash_add forkhash timestamp) timestamp
    else mkForkId forkhash timestamp
  end.
Definition fork_id (h : Head) (s : ChainSpec) : ForkId :=
  let conds := (forks (cs_hardforks s)).*2 in
  match block_loop h conds (fork_hash_from (cs_genesis_hash s)) 0 with
  | inl id => id
  | inr (forkhash, current_applied) =>
    time_loop h (filter (λ time, cs_genesis_timestamp s < time) (omap as_timestamp conds)) forkhash current_applied
  end.
End forkid.

(** ** The cache *)

(** The forks that are active at a head, and the others, in the order of activation. *)
Definition active_forks (h : Head) (m : gmap ForkFilterKey ForkHash) : list (ForkFilterKey * ForkHash) :=
  filter (λ e, key_active h e.1) (bmap_iter m).
Definition later_forks (h : Head) (m : gmap ForkFilterKey ForkHash) : list (ForkFilterKey * ForkHash) :=
  filter (λ e, negb (key_active h e.1)) (bmap_iter m).

Lemma cache_fold h l start end_ p f :
  foldl (cache_step h) (start, end_, p, f) l =
  (default start (fst <$> last (filter (λ e, key_active h e.1) l)),
   match end_ with Some k => Some k | None => fst <$> head (filter (λ e, negb (key_active h e.1)) l) end,
   p ++ filter (λ e, key_active h e.1) l,
   f ++ (filter (λ e, negb (key_active h e.1)) l).*2).
Proof.
  revert start end_ p f; induction l as [|e l IH]; intros start end_ p f; csimpl.
  { rewrite !app_nil_r. by destruct end_. }
  rewrite !filter_cons. destruct (key_active h e.1) eqn:E; rewrite IH; csimpl.
  - rewrite <-(assoc_L (++)), last_cons. by destruct (last _).
  - rewrite <-(assoc_L (++)). by destruct end_.
Qed.

(** The cache for a list of active forks that ends with [e] and the list of the others. *)
Definition cache_of (A : list (ForkFilterKey * ForkHash)) (e : ForkFilterKey * ForkHash)
  (L : list (ForkFilterKey * ForkHash)) : Cache :=
  mkCache e.1 (fst <$> head L) A L.*2 (mkForkId e.2 (key_u64 (default (KBlock 0) (fst <$> head L)))).

Lemma compute_cache_eq m h :
  compute_cache m h =
  match last (active_forks h m) with
  | Some e => Done (cache_of (active_forks h m) e (later_forks h m))
  | None => Panics
  end.
Proof.
  unfold compute_cache. rewrite cache_fold. simpl. unfold active_forks, later_forks.
  by destruct (last (filter _ (bmap_iter m))) eqn:E.
Qed.

(** No time-based fork is active before a block-based one. *)
Definition orderly (h : Head) (m : gmap ForkFilterKey ForkHash) : Prop :=
  ∀ b t, is_Some (m !! KBlock b) → is_Some (m !! KTime t) → t ≤ hd_timestamp h → b ≤ hd_number h.

Lemma orderly_mono h m (e e' : ForkFilterKey * ForkHash) :
  orderly h m → e ∈ bmap_iter m → e' ∈ bmap_iter m → cmp e.1 e'.1 = Lt →
  key_active h e'.1 = true → key_active h e.1 = true.
Proof.
  destruct e as [[b|t] x], e' as [[b'|t'] x']; simpl; intros Ho He He' Hlt; try done.
  - change (b < b') in Hlt. rewrite !Z.leb_le. intros. lia.
  - rewrite !Z.leb_le. apply elem_of_bmap_iter in He, He'. intros Ht. by eapply Ho; eauto.
  - change (t < t') in Hlt. rewrite !Z.leb_le. intros. lia.
Qed.

Lemma filter_constant {A} (p : A → bool) b l :
  (∀ x, x ∈ l → p x = b) → filter (λ x, p x) l = if b then l else [].
Proof.
  induction l as [|x l IH]; intros Hp; [by destruct b|]. rewrite filter_cons, (Hp x) by (by left).
  destruct b; simpl; rewrite IH; [done| |done|]; intros y Hy; apply Hp; by right.
Qed.

(** A predicate that holds of everything before an element it holds of. *)
Lemma filter_prefix {A} (R : relation A) (p : A → bool) l :
  StronglySorted R l → (∀ x y, x ∈ l → y ∈ l → R x y → p y = true → p x = true) →
  l = filter (λ x, p x) l ++ filter (λ x, negb (p x)) l.
Proof.
  intros Hs Hp. induction Hs as [|x l Hs IH Hx]; [done|].
  assert (Hl : l = filter (λ x, p x) l ++ filter (λ x, negb (p x)) l).
  { apply IH. intros y z Hy Hz. apply Hp; by right. }
  rewrite !filter_cons. destruct (p x) eqn:E; simpl; [by f_equal|].
  assert (Hnil : ∀ y, y ∈ l → p y = false).
  { intros y Hy. destruct (p y) eqn:Ey; [|done]. rewrite Forall_forall in Hx.
    rewrite (Hp x y) in E; [done|by left|by right|by apply Hx|done]. }
  rewrite (filter_constant p false) by done. simpl. f_equal. symmetry.
  apply (filter_constant (λ x, negb (p x)) true). intros y Hy. by rewrite Hnil.
Qed.

Lemma forks_split h m : orderly h m → bmap_iter m = active_forks h m ++ later_forks h m.
Proof.
  intros Ho. apply (filter_prefix key_lt); [apply bmap_iter_sorted|].
  intros e e' He He' Hlt. by eapply orderly_mono.
Qed.

Lemma active_last m h g :
  m !! KBlock 0 = Some g → 0 ≤ hd_number h → ∃ e, last (active_forks h m) = Some e ∧ e ∈ active_forks h m.
Proof.
  intros Hg Hh. assert (He : (KBlock 0, g) ∈ active_forks h m).
  { apply list_elem_of_filter. split; [|by apply elem_of_bmap_iter]. simpl. by apply Is_true_true, Z.leb_le. }
  destruct (last (active_forks h m)) as [e|] eqn:E.
  - exists e. split; [done|]. by apply last_Some_elem_of.
  - apply last_None in E. rewrite E in He. by apply elem_of_nil in He.
Qed.

(** What a filter relies on: its cache is the one of its head, and the head is orderly. *)
Record filter_wf (f : ForkFilter) : Prop := {
  fw_genesis : is_Some (ff_forks f !! KBlock 0);
  fw_orderly : orderly (ff_head f) (ff_forks f);
  fw_cache : compute_cache (ff_forks f) (ff_head f) = Done (ff_cache f);
}.

Lemma compute_cache_done m h :
  is_Some (m !! KBlock 0) → 0 ≤ hd_number h →
  ∃ e, last (active_forks h m) = Some e ∧ e ∈ active_forks h m ∧
    compute_cache m h = Done (cache_of (active_forks h m) e (later_forks h m)).
Proof.
  intros [g Hg] Hh. destruct (active_last m h g Hg Hh) as (e & He & Hin). exists e.
  by rewrite compute_cache_eq, He.
Qed.

Lemma elem_of_active h m e : e ∈ active_forks h m ↔ e ∈ bmap_iter m ∧ key_active h e.1 = true.
Proof. unfold active_forks. rewrite list_elem_of_filter, Is_true_true. tauto. Qed.
Lemma elem_of_later h m e : e ∈ later_forks h m ↔ e ∈ bmap_iter m ∧ key_active h e.1 = false.
Proof. unfold later_forks. rewrite list_elem_of_filter, Is_true_true, negb_true_iff. tauto. Qed.

Lemma sorted_app_lt {A} (R : relation A) l1 x l2 y :
  StronglySorted R (l1 ++ x :: l2) → y ∈ l2 → R x y.
Proof.
  induction l1 as [|z l1 IH]; simpl; intros [Hs Hf]%StronglySorted_inv; [|by apply IH].
  rewrite Forall_forall in Hf. apply Hf.
Qed.
Lemma sorted_before {A} (R : relation A) l1 x l2 y :
  StronglySorted R (l1 ++ x :: l2) → y ∈ l1 → R y x.
Proof.
  induction l1 as [|z l1 IH]; simpl; [by intros _ ?%elem_of_nil|].
  intros [Hs Hf]%StronglySorted_inv [->|Hy]%elem_of_cons; [|by apply IH].
  rewrite Forall_forall in Hf. apply Hf, elem_of_app. right. left.
Qed.

(** The active forks only change when the head leaves the epoch. *)
Lemma same_epoch h h' m e :
  orderly h m → orderly h' m → last (active_forks h m) = Some e →
  key_active h' e.1 = true → (∀ k, fst <$> head (later_forks h m) = Some k → key_active h' k = false) →
  active_forks h' m = active_forks h m ∧ later_forks h' m = later_forks h m.
Proof.
  intros Ho Ho' He Hact Hlater. pose proof (forks_split h m Ho) as Hsplit.
  pose proof (bmap_iter_sorted m) as Hs. apply last_Some in He as [A HA].
  assert (Ha : ∀ x, x ∈ active_forks h m → key_active h' x.1 = true).
  { intros x Hx. rewrite HA in Hx. apply elem_of_app in Hx as [Hx| ->%list_elem_of_singleton]; [|done].
    rewrite Hsplit, HA in Hs. eapply (orderly_mono h' m x e Ho'); [| | |done].
    - rewrite Hsplit, HA, !elem_of_app. auto.
    - rewrite Hsplit, HA, !elem_of_app, list_elem_of_singleton. auto.
    - rewrite <-(assoc_L (++)) in Hs. by apply (sorted_before key_lt _ _ _ _ Hs). }
  assert (Hl : ∀ x, x ∈ later_forks h m → key_active h' x.1 = false).
  { destruct (later_forks h m) as [|y L] eqn:E; [by intros ? ?%elem_of_nil|].
    specialize (Hlater y.1 eq_refl). intros x [->|Hx]%elem_of_cons; [done|].
    destruct (key_active h' x.1) eqn:Ex; [|done]. rewrite <-Hlater. symmetry.
    eapply (orderly_mono h' m y x Ho'); [| | |done].
    - rewrite Hsplit, elem_of_app. right. left.
    - rewrite Hsplit, elem_of_app. right. by right.
    - rewrite Hsplit in Hs. by apply (sorted_app_lt key_lt _ _ _ _ Hs). }
  unfold active_forks at 1, later_forks at 1. rewrite Hsplit, !filter_app.
  rewrite (filter_constant _ true _ Ha), (filter_constant _ false _ Hl).
  rewrite (filter_constant (λ x, negb (key_active h' x.1)) false (active_forks h m)) by (intros x Hx; by rewrite Ha).
  rewrite (filter_constant (λ x, negb (key_active h' x.1)) true (later_forks h m)) by (intros x Hx; by rewrite Hl).
  by rewrite app_nil_r.
Qed.

(** Moving the head keeps the cache in step, and a transition is reported exactly if the
    set of active forks changes. *)
Lemma set_head_ok h f :
  filter_wf f → orderly h (ff_forks f) → 0 ≤ hd_number (ff_head f) → 0 ≤ hd_number h →
  ∃ t f', set_head h f = Done (t, f') ∧ filter_wf f' ∧ ff_forks f' = ff_forks f ∧ ff_head f' = h ∧
    (t = None ↔ past (ff_cache f') = past (ff_cache f)) ∧
    (∀ tr, t = Some tr → ft_past tr = current f ∧ ft_current tr = current f').
Proof.
  intros [Hg Ho Hc] Ho' H0 H0'.
  destruct (compute_cache_done _ _ Hg H0) as (e & He & Hin & Ec). rewrite Ec in Hc. injection Hc as Hc.
  destruct (compute_cache_done _ _ Hg H0') as (e' & He' & Hin' & Ec').
  unfold set_head. rewrite <-Hc. cbn [epoch_start epoch_end cache_of past].
  destruct (negb (key_active h e.1) || _) eqn:E.
  - rewrite Ec'. cbn [mbind outcome_bind]. eexists _, _. split; [reflexivity|].
    split_and!; [by split|done|done| |by intros ? [= <-]].
    split; [done|]. cbn [ff_cache past cache_of]. intros Ep. exfalso. apply orb_true_iff in E as [E|E].
    + apply negb_true_iff in E. rewrite <-Ep, elem_of_active in Hin. destruct Hin as [_ Hin]. congruence.
    + destruct (later_forks (ff_head f) (ff_forks f)) as [|y L] eqn:EL; [done|]. simpl in E.
      assert (Hy : y ∈ later_forks (ff_head f) (ff_forks f)) by (rewrite EL; left).
      apply elem_of_later in Hy as [Hy Hn].
      assert (y ∈ active_forks h (ff_forks f)) as Ha by (by apply elem_of_active).
      rewrite Ep, elem_of_active in Ha. destruct Ha. congruence.
  - apply orb_false_iff in E as [E1 E2]. apply negb_false_iff in E1.
    destruct (same_epoch (ff_head f) h (ff_forks f) e) as [EA EL]; [done..| |].
    { intros k Hk. by rewrite Hk in E2. }
    eexists _, _. split; [reflexivity|]. split_and!; [|done|done|done|done]. split; [done|done|].
    simpl. rewrite Ec', EA, EL. rewrite EA, He in He'. by injection He' as <-.
Qed.

(** ** New filters *)

Lemma fork_keys_spec ts l :
  bset_wf (fork_keys ts l) ∧
  ∀ k, k ∈ fork_keys ts l ↔ k ∈ l ∧ k ≠ KBlock 0 ∧ k ≠ KTime 0 ∧ after_genesis ts k = true.
Proof.
  assert (Hd : ∀ x y : ForkFilterKey, cmp x y = Eq → y = x) by (intros x y E; symmetry; by apply cmp_eq_leibniz).
  destruct (bset_collect_spec l) as [W1 E1]; [intros; by apply cmp_eq_leibniz|].
  unfold fork_keys. match goal with |- bset_wf (bset_collect ?x) ∧ _ => destruct (bset_collect_spec x) as [W2 E2] end;
    [intros; by apply cmp_eq_leibniz|].
  split; [done|]. intros k. rewrite E2, list_elem_of_filter, Is_true_true.
  rewrite (elem_of_bset_remove (KBlock 0)) by first [by apply bset_remove_wf|intros; by apply Hd].
  rewrite (elem_of_bset_remove (KTime 0)) by first [done|intros; by apply Hd].
  rewrite E1. tauto.
Qed.

Section new.
Context (checksum : list Z → Z) (digest : Z → list Z → Z).
Notation fork_hash_from := (fork_hash_from checksum).
Notation fork_hash_add := (fork_hash_add digest).
Notation fork_hashes := (fork_hashes checksum digest).
Notation ForkFilter_new := (ForkFilter_new checksum digest).

(** The keys with the hashes that add them one after the other. *)
Fixpoint hash_chain (h : ForkHash) (keys : list ForkFilterKey) : list (ForkFilterKey * ForkHash) :=
  match keys with
  | [] => []
  | k :: keys' => let h' := fork_hash_add h (key_u64 k) in (k, h') :: hash_chain h' keys'
  end.

Lemma hash_chain_keys h keys : (hash_chain h keys).*1 = keys.
Proof. revert h; induction keys as [|k keys IH]; intros h; csimpl; [done|]. by rewrite IH. Qed.

Lemma fork_hashes_fold keys h (m : gmap ForkFilterKey ForkHash) :
  NoDup keys → (∀ k, k ∈ keys → m !! k = None) →
  (foldl (λ st key, let h := fork_hash_add st.2 (key_u64 key) in (<[key := h]> st.1, h)) (m, h) keys).1 =
  list_to_map (hash_chain h keys) ∪ m.
Proof.
  revert h m; induction keys as [|k keys IH]; intros h m Hnd Hm; simpl; [by rewrite map_empty_union|].
  apply NoDup_cons in Hnd as [Hn Hnd]. rewrite IH; [|done|].
  - rewrite <-insert_union_r, insert_union_l; [done|]. apply not_elem_of_list_to_map_1. by rewrite hash_chain_keys.
  - intros k' Hk'. rewrite lookup_insert_ne by (by intros <-). apply Hm. by right.
Qed.

Lemma fork_keys_sorted g ts l :
  (∀ k, k ∈ l → 0 ≤ key_u64 k) → StronglySorted key_lt ((KBlock 0, g) :: hash_chain g (fork_keys ts l)).
Proof.
  intros Hpos. destruct (fork_keys_spec ts l) as [W E].
  assert (Hs : StronglySorted (λ x y : ForkFilterKey, cmp x y = Lt) (KBlock 0 :: fork_keys ts l)).
  { constructor; [done|]. apply Forall_forall. intros k (Hk & Hn & _)%E. specialize (Hpos k Hk).
    destruct k as [b|t]; [|done]. simpl in Hpos. apply Z.compare_lt_iff. destruct (decide (b = 0)); [by subst|lia]. }
  assert (Hk : KBlock 0 :: fork_keys ts l = ((KBlock 0, g) :: hash_chain g (fork_keys ts l)).*1)
    by (csimpl; by rewrite hash_chain_keys).
  rewrite Hk in Hs. clear -Hs. induction ((KBlock 0, g) :: hash_chain g (fork_keys ts l)) as [|e L IH]; [constructor|].
  rewrite fmap_cons in Hs. apply StronglySorted_inv in Hs as [Hs Hf]. constructor; [by apply IH|].
  rewrite Forall_fmap in Hf. exact Hf.
Qed.

Lemma fork_hashes_iter genesis ts l :
  (∀ k, k ∈ l → 0 ≤ key_u64 k) →
  let g := fork_hash_from genesis in
  bmap_iter (fork_hashes genesis (fork_keys ts l)) = (KBlock 0, g) :: hash_chain g (fork_keys ts l).
Proof.
  intros Hpos g. pose proof (fork_keys_sorted g ts l Hpos) as Hs. destruct (fork_keys_spec ts l) as [W E].
  apply bmap_iter_unique; [done|]. unfold ForkId.fork_hashes. rewrite fork_hashes_fold.
  - assert (Hn : (list_to_map (hash_chain g (fork_keys ts l)) : gmap ForkFilterKey ForkHash) !! KBlock 0 = None)
      by (apply not_elem_of_list_to_map_1; rewrite hash_chain_keys; by intros (_ & ? & _)%E).
    rewrite <-insert_union_singleton_r, map_to_list_insert, map_to_list_to_map by
      (done || rewrite hash_chain_keys; by apply bset_wf_NoDup). done.
  - by apply bset_wf_NoDup.
  - intros k (_ & Hk & _)%E. by rewrite lookup_singleton_ne by congruence.
Qed.

(** The forks of a new filter, and when a head is orderly for them. *)
Definition orderly_keys (h : Head) (keys : list ForkFilterKey) : Prop :=
  ∀ b t, KBlock b ∈ keys → KTime t ∈ keys → t ≤ hd_timestamp h → b ≤ hd_number h.

Lemma fork_hashes_lookup genesis ts l k :
  (∀ k, k ∈ l → 0 ≤ key_u64 k) →
  is_Some (fork_hashes genesis (fork_keys ts l) !! k) ↔ k = KBlock 0 ∨ k ∈ fork_keys ts l.
Proof.
  intros Hpos. set (m := fork_hashes genesis (fork_keys ts l)).
  assert (is_Some (m !! k) ↔ k ∈ (bmap_iter m).*1) as ->.
  { rewrite list_elem_of_fmap. split.
    - intros [x Hx%elem_of_bmap_iter]. by exists (k, x).
    - intros ([? x] & -> & Hx%elem_of_bmap_iter). by exists x. }
  unfold m. rewrite fork_hashes_iter by done. csimpl. rewrite elem_of_cons, hash_chain_keys. done.
Qed.

Lemma orderly_hashes h genesis ts l :
  (∀ k, k ∈ l → 0 ≤ key_u64 k) → 0 ≤ hd_number h → orderly_keys h (fork_keys ts l) →
  orderly h (fork_hashes genesis (fork_keys ts l)).
Proof.
  intros Hpos Hh Ho b t. rewrite !fork_hashes_lookup by done. intros [[= ->]|Hb] [|Ht] Hle; try done.
  by eapply Ho.
Qed.

Lemma new_filter_wf h genesis ts l :
  (∀ k, k ∈ l → 0 ≤ key_u64 k) → 0 ≤ hd_number h → orderly_keys h (fork_keys ts l) →
  ∃ f, ForkFilter_new h genesis ts l = Done f ∧ filter_wf f ∧
    ff_forks f = fork_hashes genesis (fork_keys ts l) ∧ ff_head f = h.
Proof.
  intros Hpos Hh Ho. assert (Hg : is_Some (fork_hashes genesis (fork_keys ts l) !! KBlock 0)).
  { apply fork_hashes_lookup; [done|]. by left. }
  destruct (compute_cache_done _ h Hg Hh) as (e & _ & _ & Ec). unfold ForkId.ForkFilter_new. rewrite Ec.
  cbn [mbind outcome_bind]. eexists. split; [reflexivity|]. split_and!; [|done|done].
  split; [done|by apply orderly_hashes|done].
Qed.

(** C38. The incremental update of the filter is exact: moving the head through any
    sequence of orderly heads, forwards or backwards, leaves the filter in the state a new
    filter for the last head has, although the cache is only recomputed when the head
    leaves the current epoch; no step fails.  A head is orderly ([orderly_keys]) if no fork by
    time is active at it while a fork by block number is not: the code does not require that, and
    without it the update is not exact ([Mainnet.mixed_forks_cached]). *)
Theorem set_heads_as_new h0 hs genesis ts l :
  (∀ k, k ∈ l → 0 ≤ key_u64 k) →
  Forall (λ h, 0 ≤ hd_number h ∧ orderly_keys h (fork_keys ts l)) (h0 :: hs) →
  ∃ f, ForkFilter_new (default h0 (last hs)) genesis ts l = Done f ∧
    (f0 ← ForkFilter_new h0 genesis ts l; for_each (λ h f, snd <$> set_head h f) hs f0) = Done f.
Proof.
  intros Hpos [[H0 Ho0] Hhs]%Forall_cons. destruct (new_filter_wf h0 genesis ts l Hpos H0 Ho0) as (f0 & E0 & W0 & Ef & Eh).
  rewrite E0. cbn [mbind outcome_bind]. clear E0.
  assert (Hn : 0 ≤ hd_number (ff_head f0)) by (by rewrite Eh).
  assert (Hend : ForkFilter_new h0 genesis ts l = Done f0).
  { destruct (new_filter_wf h0 genesis ts l Hpos H0 Ho0) as (f1 & E1 & [_ _ W1] & Ef1 & Eh1).
    rewrite E1. f_equal. destruct W0 as [_ _ W0]. rewrite Ef1, Eh1 in W1. rewrite Ef, Eh, W1 in W0.
    injection W0 as W0. destruct f0, f1. simpl in *. congruence. }
  clear Eh Ho0 H0. revert h0 f0 W0 Ef Hn Hend. induction hs as [|h hs IH]; intros h0 f0 W0 Ef Hn Hend; [by eauto|].
  apply Forall_cons in Hhs as [[Hh Ho] Hhs].
  destruct (set_head_ok h f0 W0) as (t & f1 & E1 & W1 & Ef1 & Eh1 & _); [|done|done|].
  { rewrite Ef. by apply orderly_hashes. }
  cbn [for_each]. rewrite E1. cbn [fmap outcome_fmap mbind outcome_bind snd].
  replace (default h0 (last (h :: hs))) with (default h (last hs)) by (rewrite last_cons; by destruct (last hs)).
  apply IH; [done|done|congruence|by rewrite Eh1|].
  destruct (new_filter_wf h genesis ts l Hpos Hh Ho) as (f2 & E2 & [_ _ W2] & Ef2 & Eh2).
  rewrite E2. f_equal. destruct W1 as [_ _ W1]. rewrite Ef1, Ef, Eh1 in W1. rewrite Ef2, Eh2, W1 in W2.
  injection W2 as W2. destruct f1, f2. simpl in *. congruence.
Qed.
End new.

(** ** Compatibility of peers *)

(** A fork a peer announces has not been passed: numbers above the bound are timestamps. *)
Definition not_passed (h : Head) (next : Z) : bool :=
  (next =? 0) ||
  (if TIMESTAMP_BEFORE_ETHEREUM_MAINNET <? next then hd_timestamp h <? next else hd_number h <? next).

(** The rules of EIP-2124 over the forks of the local node: the hash of the peer is that
    of one of them; if that fork and the next one are active here, the peer must announce
    that next one; if it is the last active one, the peer must not announce a fork we have
    passed; if it is not active yet, the peer is ahead of us. *)
Definition accepts (h : Head) (forks : list (ForkFilterKey * ForkHash)) (id : ForkId) : Prop :=
  ∃ A k B, forks = A ++ (k, fid_hash id) :: B ∧
    (key_active h k = true →
      match B with
      | (k', _) :: _ => if key_active h k' then fid_next id = key_u64 k' else not_passed h (fid_next id) = true
      | [] => not_passed h (fid_next id) = true
      end).

Lemma past_loop_absent local id P : fid_hash id ∉ P.*2 → past_loop local id P = None.
Proof.
  induction P as [|[k h] P IH]; csimpl; [done|]. rewrite not_elem_of_cons. intros [Hn Hp].
  rewrite (proj2 (Z.eqb_neq h (fid_hash id))) by congruence. by apply IH.
Qed.

Lemma past_loop_found local id A k B :
  fid_hash id ∉ A.*2 →
  past_loop local id (A ++ (k, fid_hash id) :: B) =
  match B with
  | (k', _) :: _ => Some (if key_u64 k' =? fid_next id then None else Some (RemoteStale local id))
  | [] => None
  end.
Proof.
  induction A as [|[k0 h] A IH]; csimpl; [by rewrite Z.eqb_refl|]. rewrite not_elem_of_cons. intros [Hn Hp].
  rewrite (proj2 (Z.eqb_neq h (fid_hash id))) by congruence. by apply IH.
Qed.

Lemma NoDup_decomp {A B} (f : A → B) l1 x l2 l1' x' l2' :
  NoDup (f <$> l1 ++ x :: l2) → l1 ++ x :: l2 = l1' ++ x' :: l2' → f x = f x' → l1 = l1' ∧ x = x' ∧ l2 = l2'.
Proof.
  revert l1'; induction l1 as [|y l1 IH]; intros [|y' l1']; csimpl; intros Hnd E Hf.
  - by injection E.
  - injection E as -> ->. apply NoDup_cons in Hnd as [Hnd _]. destruct Hnd. rewrite Hf.
    apply list_elem_of_fmap_2, elem_of_app. right. left.
  - injection E as -> E. apply NoDup_cons in Hnd as [Hnd _]. destruct Hnd. rewrite <-Hf.
    apply list_elem_of_fmap_2, elem_of_app. right. left.
  - injection E as -> E. apply NoDup_cons in Hnd as [_ Hnd]. destruct (IH l1' Hnd E Hf) as (-> & -> & ->). done.
Qed.

(** The active forks around one of them. *)
Lemma active_around h m A x B :
  orderly h m → bmap_iter m = A ++ x :: B → key_active h x.1 = true →
  active_forks h m = A ++ x :: filter (λ e, key_active h e.1) B ∧
  (∀ y B', B = y :: B' → key_active h y.1 = false → filter (λ e, key_active h e.1) B = []).
Proof.
  intros Ho E Hx. pose proof (bmap_iter_sorted m) as Hs. rewrite E in Hs. split.
  - unfold active_forks. rewrite E, filter_app, filter_cons, Hx. simpl. f_equal.
    apply (filter_constant _ true). intros y Hy. eapply (orderly_mono h m y x Ho); [| | |done].
    + rewrite E, elem_of_app. by left.
    + rewrite E, elem_of_app. right. left.
    + by apply (sorted_before key_lt _ _ _ _ Hs).
  - intros y B' -> Hy. apply (filter_constant _ false). intros z [->|Hz]%elem_of_cons; [done|].
    destruct (key_active h z.1) eqn:Ez; [|done]. rewrite <-Hy. symmetry.
    eapply (orderly_mono h m y z Ho); [| | |done].
    + rewrite E, elem_of_app. right. right. left.
    + rewrite E, elem_of_app. right. right. by right.
    + rewrite (cons_middle x), (assoc_L (++)) in Hs. by apply (sorted_app_lt key_lt _ _ _ _ Hs).
Qed.

Lemma wf_current f :
  filter_wf f → 0 ≤ hd_number (ff_head f) →
  ∃ A e, let L := later_forks (ff_head f) (ff_forks f) in
    bmap_iter (ff_forks f) = A ++ e :: L ∧ active_forks (ff_head f) (ff_forks f) = A ++ [e] ∧
    key_active (ff_head f) e.1 = true ∧ ff_cache f = cache_of (A ++ [e]) e L.
Proof.
  intros [Hg Ho Hc] H0. destruct (compute_cache_done _ _ Hg H0) as (e & He & Hin & Ec).
  rewrite Ec in Hc. injection Hc as Hc. apply last_Some in He as [A HA]. exists A, e. split_and!.
  - rewrite (forks_split _ _ Ho) at 1. rewrite HA. by rewrite <-(assoc_L (++)).
  - done.
  - by apply elem_of_active in Hin as [_ ?].
  - by rewrite <-Hc, HA.
Qed.

Lemma own_hash_rule h id local :
  hd_number h < TIMESTAMP_BEFORE_ETHEREUM_MAINNET →
  (if fid_next id =? 0 then None
   else if ((TIMESTAMP_BEFORE_ETHEREUM_MAINNET <? fid_next id) && (fid_next id <=? hd_timestamp h)) ||
           ((fid_next id <=? TIMESTAMP_BEFORE_ETHEREUM_MAINNET) && (fid_next id <=? hd_number h))
        then Some (LocalIncompatibleOrStale local id) else None) = None ↔
  not_passed h (fid_next id) = true.
Proof.
  intros _. unfold not_passed. set (T := TIMESTAMP_BEFORE_ETHEREUM_MAINNET).
  destruct (Z.eqb_spec (fid_next id) 0); [done|].
  destruct (Z.ltb_spec T (fid_next id)), (Z.leb_spec (fid_next id) T); try lia; simpl;
    rewrite ?orb_false_r; case_match; simplify_eq/=; split; try done; intros; lia.
Qed.

(** A decomposition of the forks by the hash of an identifier is the only one. *)
Lemma accepts_at h L id A k B :
  NoDup L.*2 → L = A ++ (k, fid_hash id) :: B →
  accepts h L id ↔
    (key_active h k = true →
      match B with
      | (k', _) :: _ => if key_active h k' then fid_next id = key_u64 k' else not_passed h (fid_next id) = true
      | [] => not_passed h (fid_next id) = true
      end).
Proof.
  intros Hnd E. split; [|by eexists _, _, _].
  intros (A' & k' & B' & E' & H). rewrite E in Hnd, E'.
  by destruct (NoDup_decomp snd A (k, fid_hash id) B A' (k', fid_hash id) B' Hnd E' eq_refl) as (<- & [= <-] & <-).
Qed.

Lemma hash_elsewhere (A : list (ForkFilterKey * ForkHash)) x B : NoDup (A ++ x :: B).*2 → x.2 ∉ A.*2 ∧ x.2 ∉ B.*2.
Proof.
  rewrite fmap_app, fmap_cons. intros (_ & Hn & [? _]%NoDup_cons)%NoDup_app. split; [|done].
  intros Hx. apply (Hn _ Hx). left.
Qed.

(** Rules 2 to 4 over the active and the later forks of a map. *)
Definition other_rules (local id : ForkId) (h : Head) (m : gmap ForkFilterKey ForkHash) : option ValidationError :=
  match past_loop local id (active_forks h m) with
  | Some r => r
  | None =>
    if existsb (λ hash, hash =? fid_hash id) (later_forks h m).*2 then None
    else Some (LocalIncompatibleOrStale local id)
  end.

Lemma rules_unknown local id h m : fid_hash id ∉ (bmap_iter m).*2 → other_rules local id h m ≠ None.
Proof.
  intros Hn. unfold other_rules.
  assert (Hnot : ∀ P : list (ForkFilterKey * ForkHash), P ⊆ bmap_iter m → fid_hash id ∉ P.*2).
  { intros P HP ([k x] & Ex & Hx)%list_elem_of_fmap. apply Hn. rewrite Ex. apply list_elem_of_fmap_2, HP, Hx. }
  rewrite past_loop_absent by (apply Hnot; by intros e [? _]%elem_of_active).
  destruct (existsb _ _) eqn:Eb; [|done]. exfalso.
  apply existsb_exists in Eb as (x & Hx%list_elem_of_In & ->%Z.eqb_eq).
  revert Hx. apply Hnot. by intros e [? _]%elem_of_later.
Qed.

Lemma rules_future local id h m A k B :
  NoDup (bmap_iter m).*2 → bmap_iter m = A ++ (k, fid_hash id) :: B → key_active h k = false →
  other_rules local id h m = None.
Proof.
  intros Hnd E Ek. rewrite E in Hnd. destruct (hash_elsewhere _ _ _ Hnd) as [HA HB]. simpl in HA, HB.
  unfold other_rules. rewrite past_loop_absent.
  - assert (existsb (λ x, x =? fid_hash id) (later_forks h m).*2 = true) as ->; [|done].
    apply existsb_exists. exists (fid_hash id). rewrite Z.eqb_refl. split; [|done].
    apply list_elem_of_In, list_elem_of_fmap. exists (k, fid_hash id). split; [done|].
    apply elem_of_later. split; [|done]. rewrite E, elem_of_app. right. left.
  - intros ([k2 x2] & Ex & [Hx Ha]%elem_of_active)%list_elem_of_fmap. simpl in Ex. subst x2.
    rewrite E in Hx. apply elem_of_app in Hx as [Hx|[Hx|Hx]%elem_of_cons].
    + apply HA. by apply (list_elem_of_fmap_2 snd) in Hx.
    + injection Hx as ->. simpl in Ha. congruence.
    + apply HB. by apply (list_elem_of_fmap_2 snd) in Hx.
Qed.

Lemma rules_past local id h m A k B e :
  NoDup (bmap_iter m).*2 → orderly h m → bmap_iter m = A ++ (k, fid_hash id) :: B → key_active h k = true →
  last (active_forks h m) = Some e → e.2 ≠ fid_hash id →
  ∃ k' x B', B = (k', x) :: B' ∧ key_active h k' = true ∧
    other_rules local id h m = if key_u64 k' =? fid_next id then None else Some (RemoteStale local id).
Proof.
  intros Hnd Ho E Ek He Hne. rewrite E in Hnd. destruct (hash_elsewhere _ _ _ Hnd) as [HA _]. simpl in HA.
  destruct (active_around h m A (k, fid_hash id) B Ho E Ek) as [Ea Hb].
  assert (Hlast : filter (λ e, key_active h e.1) B ≠ []).
  { intros Hnil. rewrite Ea, Hnil, last_snoc in He. by injection He as <-. }
  destruct B as [|[k' x] B']; [done|]. destruct (key_active h k') eqn:Ek'.
  - exists k', x, B'. split_and!; [done|done|]. unfold other_rules. rewrite Ea, past_loop_found by done.
    rewrite filter_cons. simpl. by rewrite Ek'.
  - destruct Hlast. by eapply Hb.
Qed.

(** Shared by the theorems about compatible peers. *)
Lemma validate_accepts id f :
  filter_wf f → 0 ≤ hd_number (ff_head f) < TIMESTAMP_BEFORE_ETHEREUM_MAINNET →
  NoDup (bmap_iter (ff_forks f)).*2 →
  validate id f = None ↔ accepts (ff_head f) (bmap_iter (ff_forks f)) id.
Proof.
  intros W [H0 HT] Hnd. destruct (wf_current f W H0) as (A & e & EL & EA & He & Ec).
  assert (Hlast : last (active_forks (ff_head f) (ff_forks f)) = Some e) by (by rewrite EA, last_snoc).
  set (h := ff_head f) in *. set (L := later_forks h (ff_forks f)) in *.
  unfold validate, current. rewrite Ec. cbn [cache_fork_id cache_of fid_hash fid_next past future epoch_start].
  rewrite <-EA. fold h. fold L.
  destruct (Z.eqb_spec e.2 (fid_hash id)) as [Eh|Hne].
  - rewrite (proj2 (Z.ltb_lt _ _) HT), own_hash_rule by done.
    assert (HL : ∀ y, y ∈ L → key_active h y.1 = false) by (by intros y [_ ?]%elem_of_later).
    destruct e as [k x]. simpl in Eh, He. subst x. rewrite (accepts_at _ _ _ _ _ _ Hnd EL). split; intros H.
    + intros _. destruct L as [|[k' ?] L']; [done|]. by rewrite (HL (k', _)) by left.
    + specialize (H He). destruct L as [|[k' ?] L']; [done|]. by rewrite (HL (k', _)) in H by left.
  - match goal with |- ?x = None ↔ _ => change x with (other_rules (mkForkId e.2 (key_u64 (default (KBlock 0)
      (fst <$> head L)))) id h (ff_forks f)) end.
    destruct (decide (fid_hash id ∈ (bmap_iter (ff_forks f)).*2)) as [Hin|Hn].
    + apply list_elem_of_fmap in Hin as ([k x] & Ex & Hin). simpl in Ex. subst x.
      apply list_elem_of_split in Hin as (A' & B & E). rewrite (accepts_at _ _ _ _ _ _ Hnd E).
      destruct (key_active h k) eqn:Ek; [|by rewrite (rules_future _ _ _ _ _ _ _ Hnd E Ek)].
      destruct (rules_past (mkForkId e.2 (key_u64 (default (KBlock 0) (fst <$> head L)))) id h (ff_forks f) A' k B e
        Hnd (fw_orderly _ W) E Ek Hlast Hne) as (k' & x & B' & -> & Ek' & ->).
      rewrite Ek'. destruct (Z.eqb_spec (key_u64 k') (fid_next id)); naive_solver.
    + split; [by intros ?%rules_unknown|]. intros (A' & k & B & E & _). destruct Hn.
      rewrite E, fmap_app, elem_of_app. right. left.
Qed.

(** C39. The filter implements EIP-2124: for an orderly head below the bound that separates
    block numbers from timestamps, and if the hashes of the local forks differ, a filter whose
    cache is that of its head accepts the identifier of a peer exactly under the rules of
    [accepts], and so rejects every identifier whose hash is not that of a local fork.  A head is
    orderly if no fork by time is active at it while a fork by block number is not; the code does
    not require that, and without it a peer may be rejected that the rules accept
    ([Mainnet.mixed_forks_rejected]). *)
Theorem validate_eip2124 id f :
  filter_wf f → 0 ≤ hd_number (ff_head f) < TIMESTAMP_BEFORE_ETHEREUM_MAINNET →
  NoDup (bmap_iter (ff_forks f)).*2 →
  validate id f = None ↔ accepts (ff_head f) (bmap_iter (ff_forks f)) id.
Proof. apply validate_accepts. Qed.

(** Nodes of the same chain accept each other: two filters for the same forks,
    whatever their heads, accept the identifier of the other one, provided that block
    numbers and timestamps lie on their sides of the bound and no two forks have the same
    hash. *)
Theorem same_chain_compatible f f' :
  filter_wf f → filter_wf f' → ff_forks f = ff_forks f' →
  0 ≤ hd_number (ff_head f) < TIMESTAMP_BEFORE_ETHEREUM_MAINNET → 0 ≤ hd_number (ff_head f') →
  NoDup (bmap_iter (ff_forks f)).*2 →
  (∀ k, is_Some (ff_forks f !! k) →
    match k with
    | KBlock b => b ≤ TIMESTAMP_BEFORE_ETHEREUM_MAINNET
    | KTime t => TIMESTAMP_BEFORE_ETHEREUM_MAINNET < t
    end) →
  validate (current f') f = None.
Proof.
  intros W W' Ef H0 H0' Hnd Hsep. apply validate_accepts; [done..|].
  destruct (wf_current f' W' H0') as (A & e & EL & _ & _ & Ec). rewrite <-Ef in EL, Ec.
  unfold current. rewrite Ec. exists A, e.1, (later_forks (ff_head f') (ff_forks f)).
  split; [by destruct e|]. intros _. cbn [cache_of cache_fork_id fid_next].
  destruct (later_forks (ff_head f') (ff_forks f)) as [|[k' x] L] eqn:E'; [done|]. simpl.
  destruct (key_active (ff_head f) k') eqn:Ek; [done|].
  assert (Hk : is_Some (ff_forks f !! k')).
  { exists x. apply elem_of_bmap_iter. rewrite EL, elem_of_app. right. right. left. }
  specialize (Hsep k' Hk). unfold not_passed. apply orb_true_iff. right.
  destruct k' as [b|t]; simpl in *; apply Z.leb_gt in Ek.
  - rewrite (proj2 (Z.ltb_ge _ _)) by done. by apply Z.ltb_lt.
  - rewrite (proj2 (Z.ltb_lt _ _)) by done. by apply Z.ltb_lt.
Qed.

(** ** The identifier of a chain specification *)
Section spec.
Context (checksum : list Z → Z) (digest : Z → list Z → Z).
Notation add := (fork_hash_add digest).
Notation hash_chain := (hash_chain digest).

(** Both loops of [fork_id], over the numbers of the forks. *)
Fixpoint walk (act : Z → bool) (l : list Z) (hash cur : Z) : ForkId + Z * Z :=
  match l with
  | [] => inr (hash, cur)
  | x :: l' =>
    if act x then if x =? cur then walk act l' hash cur else walk act l' (add hash x) x
    else inl (mkForkId hash x)
  end.

Definition number_active (h : Head) (b : Z) : bool := b <=? hd_number h.
Definition time_active (h : Head) (t : Z) : bool := t <=? hd_timestamp h.

Definition block_of (c : ForkCondition) : option Z :=
  match c with Block b | TTD (Some b) _ => Some b | _ => None end.

Lemma block_loop_walk h cs hash cur :
  (∀ b d, TTD (Some b) d ∈ cs → active_at_ttd (TTD (Some b) d) (hd_total_difficulty h) (hd_difficulty h) = true →
    b ≤ hd_number h) →
  block_loop digest h cs hash cur = walk (number_active h) (omap block_of cs) hash cur.
Proof.
  revert hash cur; induction cs as [|c cs IH]; intros hash cur Ht; [done|].
  assert (Ht' := λ b d H, Ht b d (list_elem_of_further _ _ _ H)). csimpl.
  assert (Hact : ∀ b, block_of c = Some b → active_at_head c h = (b <=? hd_number h)).
  { intros b Hb. destruct c as [b'|[b'|] d|t|]; simplify_eq/=; unfold active_at_head; simpl; rewrite ?orb_false_r; try done.
    destruct (Z.leb_spec b (hd_number h)); [done|]. simpl. apply not_true_iff_false. intros Hd.
    enough (b ≤ hd_number h) by lia. by eapply (Ht b d); [left|]. }
  destruct c as [b|[b|] d|t|]; simpl; try (by apply IH); rewrite (Hact b) by done; fold (number_active h b);
    (destruct (number_active h b); [|done]); destruct (b =? cur); by apply IH.
Qed.

Lemma time_loop_walk h l hash cur :
  time_loop digest h l hash cur =
  match walk (time_active h) l hash cur with inl id => id | inr (hash, _) => mkForkId hash 0 end.
Proof.
  revert hash cur; induction l as [|t l IH]; intros hash cur; simpl; [done|]. unfold active_at_head. simpl.
  rewrite orb_false_r. fold (time_active h t). destruct (time_active h t); [|done]. destruct (t =? cur); apply IH.
Qed.

(** The numbers that differ from the one before. *)
Fixpoint fresh (cur : Z) (l : list Z) : list Z :=
  match l with [] => [] | x :: l' => if x =? cur then fresh cur l' else x :: fresh x l' end.

Lemma fresh_spec cur l :
  StronglySorted Z.le l → Forall (Z.le cur) l →
  StronglySorted Z.lt (fresh cur l) ∧ Forall (Z.lt cur) (fresh cur l) ∧
  ∀ x, x ∈ fresh cur l ↔ x ∈ l ∧ x ≠ cur.
Proof.
  intros Hs. revert cur. induction Hs as [|x l Hs IH Hx]; intros cur Hc; simpl.
  { split_and!; [constructor..|]. intros x. split; [by intros ?%elem_of_nil|by intros [?%elem_of_nil _]]. }
  apply Forall_cons in Hc as [Hle Hc]. destruct (Z.eqb_spec x cur) as [->|Hne].
  - destruct (IH cur Hc) as (? & ? & He). split_and!; [done..|]. intros y. rewrite He, elem_of_cons. naive_solver.
  - destruct (IH x Hx) as (? & Hf & He). split_and!.
    + by constructor.
    + constructor; [lia|]. eapply Forall_impl; [exact Hf|]. simpl. lia.
    + intros y. rewrite !elem_of_cons, He. rewrite Forall_forall in Hx.
      split.
      * intros [->|[Hy Hxy]]; [auto|]. specialize (Hx y Hy). split; [auto|lia].
      * intros [[->|Hy] Hyc]; [by left|]. destruct (decide (y = x)); [by left|by right].
Qed.

Lemma walk_fresh act l hash cur :
  (∀ x y, x ≤ y → act y = true → act x = true) → StronglySorted Z.le l → Forall (Z.le cur) l →
  (act cur = true ∨ cur ∉ l) →
  walk act l hash cur =
  match filter (λ x, negb (act x)) (fresh cur l) with
  | x :: _ => inl (mkForkId (foldl add hash (filter (λ x, act x) (fresh cur l))) x)
  | [] => inr (foldl add hash (filter (λ x, act x) (fresh cur l)), default cur (last (filter (λ x, act x) (fresh cur l))))
  end.
Proof.
  intros Hact Hs. revert hash cur. induction Hs as [|x l Hs IH Hx]; intros hash cur Hc Hcur; simpl; [done|].
  apply Forall_cons in Hc as [Hle Hc]. destruct (act x) eqn:Ex.
  - destruct (Z.eqb_spec x cur) as [->|Hne]; [apply IH; auto|]. rewrite !filter_cons, Ex. simpl.
    rewrite IH by auto. destruct (filter _ (fresh x l)); [|done]. rewrite last_cons. by destruct (last _).
  - destruct (Z.eqb_spec x cur) as [->|Hne].
    + exfalso. destruct Hcur as [?|Hn]; [congruence|]. apply Hn. left.
    + rewrite !filter_cons, Ex. simpl. destruct (fresh_spec x l Hs Hx) as (_ & Hf & _).
      rewrite (filter_constant act false); [done|]. intros y Hy. rewrite Forall_forall in Hf. specialize (Hf y Hy).
      destruct (act y) eqn:Ey; [|done]. rewrite (Hact x y) in Ex; [done|lia|done].
Qed.

Lemma hash_chain_app h ks ks' :
  hash_chain h (ks ++ ks') = hash_chain h ks ++ hash_chain (foldl add h (key_u64 <$> ks)) ks'.
Proof. revert h; induction ks as [|k ks IH]; intros h; csimpl; [done|]. by rewrite IH. Qed.

Lemma hash_chain_last g ks : last (hash_chain g ks) = (λ k, (k, foldl add g (key_u64 <$> ks))) <$> last ks.
Proof.
  induction ks as [|k ks _] using rev_ind; [done|]. rewrite hash_chain_app. simpl.
  rewrite !last_snoc, fmap_app, foldl_app. done.
Qed.

(** The current identifier of a new filter whose keys split into active and later ones. *)
Lemma new_current h genesis ts l KA KN :
  (∀ k, k ∈ l → 0 ≤ key_u64 k) → 0 ≤ hd_number h →
  fork_keys ts l = KA ++ KN → (∀ k, k ∈ KA → key_active h k = true) → (∀ k, k ∈ KN → key_active h k = false) →
  ∃ f, ForkFilter_new checksum digest h genesis ts l = Done f ∧
    current f = mkForkId (foldl add (fork_hash_from checksum genesis) (key_u64 <$> KA)) (default 0 (key_u64 <$> head KN)).
Proof.
  intros Hpos Hh E HA HN. set (g := fork_hash_from checksum genesis).
  set (m := fork_hashes checksum digest genesis (fork_keys ts l)).
  pose proof (fork_hashes_iter checksum digest genesis ts l Hpos) as Hit. cbv zeta in Hit. fold g m in Hit.
  rewrite E, hash_chain_app in Hit.
  assert (Hf : ∀ (p : ForkFilterKey → bool) b x ks, (∀ k, k ∈ ks → p k = b) →
    filter (λ e, p e.1) (hash_chain x ks) = if b then hash_chain x ks else []).
  { intros p b x ks Hp. apply (filter_constant (λ e, p e.1)). intros e He. apply Hp.
    rewrite <-(hash_chain_keys digest x ks). by apply list_elem_of_fmap_2. }
  assert (Ha : active_forks h m = (KBlock 0, g) :: hash_chain g KA).
  { unfold active_forks. rewrite Hit, filter_cons. simpl. rewrite (proj2 (Z.leb_le 0 _)) by done. simpl.
    rewrite filter_app, (Hf (key_active h) true), (Hf (key_active h) false) by done. by rewrite app_nil_r. }
  assert (Hl : later_forks h m = hash_chain (foldl add g (key_u64 <$> KA)) KN).
  { unfold later_forks. rewrite Hit, filter_cons. simpl. rewrite (proj2 (Z.leb_le 0 _)) by done. simpl.
    rewrite filter_app, (Hf (λ k, negb (key_active h k)) false), (Hf (λ k, negb (key_active h k)) true); [done|..].
    - intros k Hk. by rewrite HN.
    - intros k Hk. by rewrite HA. }
  unfold ForkFilter_new. fold m. rewrite compute_cache_eq, Ha, Hl, last_cons, hash_chain_last.
  destruct (last KA) as [k|] eqn:Ek; simpl; (eexists; split; [reflexivity|]); unfold current; simpl; f_equal.
  - by destruct KN.
  - by apply last_None in Ek as ->.
  - by destruct KN.
Qed.

(** The block and timestamp forks of a specification, in the order of its list. *)
Definition spec_blocks (s : ChainSpec) : list Z := omap block_of (forks (cs_hardforks s)).*2.
Definition spec_times (s : ChainSpec) : list Z :=
  filter (λ time, cs_genesis_timestamp s < time) (omap as_timestamp (forks (cs_hardforks s)).*2).

(** What the constructor of the list of hard forks requires: it is ordered by activation,
    and block numbers are smaller than timestamps. *)
Record spec_ordered (s : ChainSpec) : Prop := {
  so_genesis : 0 ≤ cs_genesis_timestamp s;
  so_all_times t : t ∈ omap as_timestamp (forks (cs_hardforks s)).*2 → 0 ≤ t;
  so_blocks : StronglySorted Z.le (spec_blocks s);
  so_blocks_pos : Forall (Z.le 0) (spec_blocks s);
  so_times : StronglySorted Z.le (spec_times s);
  so_apart b t : b ∈ spec_blocks s → t ∈ spec_times s → b < t;
}.

(** A head at which the forks are active in their order. *)
Record head_ordered (h : Head) (s : ChainSpec) : Prop := {
  ho_number : 0 ≤ hd_number h;
  ho_order b t : b ∈ spec_blocks s → t ∈ spec_times s → t ≤ hd_timestamp h → b ≤ hd_number h;
  ho_ttd b d : TTD (Some b) d ∈ (forks (cs_hardforks s)).*2 →
    active_at_ttd (TTD (Some b) d) (hd_total_difficulty h) (hd_difficulty h) = true → b ≤ hd_number h;
}.

Lemma elem_of_filter_keys s k :
  k ∈ omap (λ e, filter_key e.2) (forks (cs_hardforks s)) ↔
  match k with
  | KBlock b => b ∈ spec_blocks s
  | KTime t => t ∈ omap as_timestamp (forks (cs_hardforks s)).*2
  end.
Proof.
  unfold spec_blocks. induction (forks (cs_hardforks s)) as [|[f c] l IH]; csimpl.
  { split; [by intros ?%elem_of_nil|by destruct k; intros ?%elem_of_nil]. }
  destruct c as [b|[b|] d|t|]; csimpl; try done; destruct k; rewrite ?elem_of_cons, ?IH; naive_solver.
Qed.

Lemma spec_keys s :
  spec_ordered s →
  fork_keys (cs_genesis_timestamp s) (omap (λ e, filter_key e.2) (forks (cs_hardforks s))) =
  (KBlock <$> fresh 0 (spec_blocks s)) ++ (KTime <$> fresh 0 (spec_times s)).
Proof.
  intros [Hg Hall Hb Hb0 Ht Hap].
  assert (Ht0 : Forall (Z.le 0) (spec_times s)).
  { apply Forall_forall. intros t [? _]%list_elem_of_filter. lia. }
  destruct (fresh_spec 0 _ Hb Hb0) as (Sb & _ & Eb). destruct (fresh_spec 0 _ Ht Ht0) as (St & _ & Et).
  destruct (fork_keys_spec (cs_genesis_timestamp s) (omap (λ e, filter_key e.2) (forks (cs_hardforks s)))) as [W E].
  set (R := λ x y : ForkFilterKey, cmp x y = Lt).
  assert (Hs : StronglySorted R ((KBlock <$> fresh 0 (spec_blocks s)) ++ (KTime <$> fresh 0 (spec_times s)))).
  { apply StronglySorted_app_2.
    - intros x y (b & -> & _)%list_elem_of_fmap (t & -> & _)%list_elem_of_fmap. done.
    - by apply (StronglySorted_fmap KBlock Z.lt).
    - by apply (StronglySorted_fmap KTime Z.lt). }
  assert (Antisym : AntiSymm (=) R).
  { intros x y Hx Hy. unfold R in *. rewrite cmp_opp, Hx in Hy. done. }
  apply (StronglySorted_unique R); [done|done|]. apply NoDup_Permutation; [by apply bset_wf_NoDup|by apply bset_wf_NoDup|].
  intros k. rewrite E, elem_of_filter_keys, elem_of_app, !list_elem_of_fmap. destruct k as [b|t]; simpl.
  - setoid_rewrite Eb. split.
    + intros (? & Hn & _). left. exists b. split; [done|]. split; [done|congruence].
    + intros [(x & [= <-] & ? & ?)|(? & ? & _)]; [|done]. split_and!; [done|congruence|done|done].
  - setoid_rewrite Et. unfold spec_times. setoid_rewrite list_elem_of_filter. rewrite Z.ltb_lt. split.
    + intros (? & _ & Hn & ?). right. exists t. split_and!; [done|done|done|congruence].
    + intros [(? & ? & _)|(x & [= <-] & [? ?] & ?)]; [done|]. split_and!; [done|done|congruence|done].
Qed.

Lemma key_blocks (l : list Z) : key_u64 <$> (KBlock <$> l) = l.
Proof. induction l as [|x l IH]; csimpl; [done|by rewrite IH]. Qed.
Lemma key_times (l : list Z) : key_u64 <$> (KTime <$> l) = l.
Proof. induction l as [|x l IH]; csimpl; [done|by rewrite IH]. Qed.
Lemma fresh_other c c' l : c ∉ l → c' ∉ l → fresh c l = fresh c' l.
Proof.
  destruct l as [|x l]; simpl; [done|]. rewrite !not_elem_of_cons. intros [? _] [? _].
  by rewrite !(proj2 (Z.eqb_neq _ _)) by congruence.
Qed.

(** The strictly increasing numbers of a list split at the first inactive one. *)
Lemma fresh_split act l :
  (∀ x y, x ≤ y → act y = true → act x = true) → StronglySorted Z.le l → Forall (Z.le 0) l →
  fresh 0 l = filter (λ x, act x) (fresh 0 l) ++ filter (λ x, negb (act x)) (fresh 0 l).
Proof.
  intros Hact Hs H0. destruct (fresh_spec 0 l Hs H0) as (Sf & _). apply (filter_prefix Z.lt); [done|].
  intros x y _ _ Hlt. apply Hact. lia.
Qed.

Lemma spec_times_pos s : spec_ordered s → Forall (Z.lt 0) (spec_times s).
Proof. intros Hs. apply Forall_forall. intros t [? _]%list_elem_of_filter. destruct Hs. lia. Qed.

Lemma number_active_mono h x y : x ≤ y → number_active h y = true → number_active h x = true.
Proof. unfold number_active. rewrite !Z.leb_le. lia. Qed.
Lemma time_active_mono h x y : x ≤ y → time_active h y = true → time_active h x = true.
Proof. unfold time_active. rewrite !Z.leb_le. lia. Qed.

Lemma elem_of_act (act : Z → bool) (l : list Z) x : x ∈ filter (λ x, act x) l ↔ x ∈ l ∧ act x = true.
Proof. rewrite list_elem_of_filter, Is_true_true. tauto. Qed.
Lemma elem_of_inact (act : Z → bool) (l : list Z) x : x ∈ filter (λ x, negb (act x)) l ↔ x ∈ l ∧ act x = false.
Proof. rewrite list_elem_of_filter, Is_true_true, negb_true_iff. tauto. Qed.

(** The identifier, by whether all forks by number are active. *)
Lemma fork_id_eq h s :
  spec_ordered s → head_ordered h s →
  let BA := filter (λ x, number_active h x) (fresh 0 (spec_blocks s)) in
  let TA := filter (λ x, time_active h x) (fresh 0 (spec_times s)) in
  let hash := foldl add (fork_hash_from checksum (cs_genesis_hash s)) BA in
  fork_id checksum digest h s =
  match filter (λ x, negb (number_active h x)) (fresh 0 (spec_blocks s)) with
  | b :: _ => mkForkId hash b
  | [] => mkForkId (foldl add hash TA) (default 0 (head (filter (λ x, negb (time_active h x)) (fresh 0 (spec_times s)))))
  end.
Proof.
  intros Hs [H0 Hord Httd] BA TA hash. pose proof (spec_times_pos s Hs) as Ht0. destruct Hs as [Hg Hall Hb Hb0 Ht Hap].
  unfold fork_id. rewrite block_loop_walk by done.
  rewrite walk_fresh; [|apply number_active_mono|done|done|left; by apply Z.leb_le].
  fold (spec_blocks s) (spec_times s). fold BA. fold hash.
  destruct (filter (λ x, negb (number_active h x)) (fresh 0 (spec_blocks s))) as [|b BN]; [|done].
  assert (Hcur : Forall (Z.lt (default 0 (last BA))) (spec_times s)).
  { destruct (last BA) as [x|] eqn:El; simpl; [|done]. apply Forall_forall. intros t Htin. apply Hap; [|done].
    apply last_Some_elem_of, elem_of_act in El as [Hx _]. by apply (fresh_spec 0 _ Hb Hb0) in Hx as [? _]. }
  assert (Hnin : default 0 (last BA) ∉ spec_times s).
  { intros Hin. rewrite Forall_forall in Hcur. specialize (Hcur _ Hin). lia. }
  rewrite time_loop_walk, walk_fresh; [|apply time_active_mono|done| |by right].
  - rewrite (fresh_other _ 0); [|done|]; [|intros Hin; rewrite Forall_forall in Ht0; specialize (Ht0 _ Hin); lia].
    fold TA. by destruct (filter (λ x, negb (time_active h x)) (fresh 0 (spec_times s))).
  - eapply Forall_impl; [exact Hcur|]. simpl. lia.
Qed.

(** Both ways to compute the identifier agree: for a list of hard forks in the order
    of activation, the loop over the chain specification and the filter built from it
    yield the same identifier at every head at which the forks are active in order. *)
Theorem fork_id_is_current h s :
  spec_ordered s → head_ordered h s →
  ∃ f, fork_filter checksum digest h s = Done f ∧ current f = fork_id checksum digest h s.
Proof.
  intros Hs Hh. rewrite (fork_id_eq h s Hs Hh). pose proof (spec_times_pos s Hs) as Ht0.
  pose proof (spec_keys s Hs) as Hk. destruct Hs as [Hg Hall Hb Hb0 Ht Hap]. destruct Hh as [H0 Hord Httd].
  assert (Ht0' : Forall (Z.le 0) (spec_times s)) by (eapply Forall_impl; [exact Ht0|simpl; lia]).
  destruct (fresh_spec 0 _ Hb Hb0) as (_ & _ & Eb). destruct (fresh_spec 0 _ Ht Ht0') as (_ & _ & Et).
  rewrite (fresh_split (number_active h) (spec_blocks s)) in Hk by (done || apply number_active_mono).
  assert (Hpos : ∀ k, k ∈ omap (λ e, filter_key e.2) (forks (cs_hardforks s)) → 0 ≤ key_u64 k).
  { intros [b|t] Hin%elem_of_filter_keys; [by rewrite Forall_forall in Hb0; apply Hb0|by apply Hall]. }
  unfold fork_filter. set (BA := filter (λ x, number_active h x) _) in *.
  destruct (filter (λ x, negb (number_active h x)) (fresh 0 (spec_blocks s))) as [|b BN] eqn:EBN.
  - rewrite app_nil_r, (fresh_split (time_active h) (spec_times s)), fmap_app, (assoc_L (++)) in Hk
      by (done || apply time_active_mono).
    destruct (new_current h (cs_genesis_hash s) _ _ _ _ Hpos H0 Hk) as (f & Ef & Ec).
    + intros k. rewrite elem_of_app, !list_elem_of_fmap. by intros [(x & -> & [_ ?]%elem_of_act)|(x & -> & [_ ?]%elem_of_act)].
    + by intros k (x & -> & [_ ?]%elem_of_inact)%list_elem_of_fmap.
    + exists f. split; [done|]. rewrite Ec, fmap_app, key_blocks, key_times, foldl_app. by destruct (filter (λ x, negb (time_active h x)) (fresh 0 (spec_times s))).
  - rewrite fmap_app, <-(assoc_L (++)) in Hk.
    destruct (new_current h (cs_genesis_hash s) _ _ _ _ Hpos H0 Hk) as (f & Ef & Ec).
    + by intros k (x & -> & [_ ?]%elem_of_act)%list_elem_of_fmap.
    + assert (Hin : ∀ x, x ∈ b :: BN → number_active h x = false ∧ x ∈ spec_blocks s).
      { rewrite <-EBN. by intros x [[? _]%Eb ?]%elem_of_inact. }
      intros k. rewrite elem_of_app, !list_elem_of_fmap. intros [(x & -> & Hx)|(x & -> & [Hx _]%Et)]; [by apply Hin|].
      apply not_true_iff_false. simpl. rewrite Z.leb_le. intros Hle.
      destruct (Hin b) as [Hb1 Hb2]; [left|]. apply Z.leb_gt in Hb1. specialize (Hord b x Hb2 Hx Hle). lia.
    + exists f. split; [done|]. by rewrite Ec, key_blocks.
Qed.
End spec.

(** ** Identifiers set by hand *)

(** An identifier that was set by hand is not reset by the next head: it stays as long as
    the head does not leave the epoch, and no transition is reported. *)
Theorem manual_fork_id_stays id f h :
  filter_wf f → orderly h (ff_forks f) → 0 ≤ hd_number (ff_head f) → 0 ≤ hd_number h →
  active_forks h (ff_forks f) = active_forks (ff_head f) (ff_forks f) →
  ∃ f', set_head h (set_current_fork_id id f) = Done (None, f') ∧ current f' = id.
Proof.
  intros W Ho H0 H0' Ea. destruct (wf_current f W H0) as (A & e & EL & EA & He & Ec).
  unfold set_head. cbn [ff_cache set_current_fork_id epoch_start epoch_end ff_forks]. rewrite Ec. cbn [epoch_start epoch_end cache_of].
  assert (Hin : e ∈ active_forks h (ff_forks f)) by (rewrite Ea, EA, elem_of_app; right; left).
  apply elem_of_active in Hin as [_ ->]. simpl.
  destruct (later_forks (ff_head f) (ff_forks f)) as [|y L] eqn:EN; simpl; [by eexists|].
  destruct (key_active h y.1) eqn:Ey; [|by eexists]. exfalso.
  assert (Hy : y ∈ later_forks (ff_head f) (ff_forks f)) by (rewrite EN; left). apply elem_of_later in Hy as [Hy Hn].
  assert (Hy' : y ∈ active_forks h (ff_forks f)) by (by apply elem_of_active).
  rewrite Ea, elem_of_active in Hy'. destruct Hy'. congruence.
Qed.

(** ** The main network *)
Module Mainnet.
(** CRC-32/ISO-HDLC over a reflected register, as the library [crc] computes it. *)
Definition crc_bit (c : Z) : Z := if Z.testbit c 0 then Z.lxor (Z.shiftr c 1) 0xedb88320 else Z.shiftr c 1.
Definition crc_byte (c b : Z) : Z := Nat.iter 8 crc_bit (Z.lxor c b).
Fixpoint reverse_bits (n : nat) (x : Z) : Z :=
  match n with
  | O => 0
  | S n' => (if Z.testbit x 0 then Z.shiftl 1 (Z.of_nat n') else 0) + reverse_bits n' (Z.shiftr x 1)
  end.
Definition crc_digest (init : Z) (bytes : list Z) : Z :=
  Z.lxor (foldl crc_byte (reverse_bits 32 init) bytes) 0xffffffff.
Definition crc_checksum (bytes : list Z) : Z := crc_digest 0xffffffff bytes.

Definition genesis : list Z :=
  (λ i, Z.land (Z.shiftr 0xd4e56740f876aef8c010b86a40d5f56745a118d0906a34e69aec8c0db1cb8fa3 (8 * i)) 255) <$>
    reverse (Z.of_nat <$> seq 0 32).

(** The hashes that the tests of the code take from EIP-2124. *)
Example eip_2124_hashes :
  let h0 := fork_hash_from crc_checksum genesis in
  let h1 := fork_hash_add crc_digest h0 1150000 in
  (h0, h1, fork_hash_add crc_digest h1 1920000) = (0xfc64ec04, 0x97c2c34c, 0x91d1f948).
Proof. vm_compute. reflexivity. Qed.

Definition spec : ChainSpec :=
  mkChainSpec genesis 0 (ChainHardforks_new
    [("Frontier", Block 0); ("Homestead", Block 1150000); ("Dao", Block 1920000); ("London", Block 12965000);
     ("Paris", TTD None 58750000000000000000000); ("Shanghai", Timestamp 1681338455); ("Cancun", Timestamp 1710338135)]).
Definition keys : list ForkFilterKey := omap (λ e, filter_key e.2) (forks (cs_hardforks spec)).

(** A block between London and Shanghai, and one after Cancun. *)
Definition old_head : Head := mkHead 15000000 0 0 0 1655000000.
Definition new_head : Head := mkHead 20000000 0 0 0 1720000000.

Lemma keys_pos k : k ∈ keys → 0 ≤ key_u64 k.
Proof.
  unfold keys. simpl. intros Hk. repeat (apply elem_of_cons in Hk as [->|Hk]; [done|]).
  by apply elem_of_nil in Hk.
Qed.

Lemma fork_keys_eq : fork_keys 0 keys = [KBlock 1150000; KBlock 1920000; KBlock 12965000; KTime 1681338455; KTime 1710338135].
Proof. vm_compute. reflexivity. Qed.

Lemma heads_orderly h : h = old_head ∨ h = new_head → 0 ≤ hd_number h ∧ orderly_keys h (fork_keys 0 keys).
Proof.
  intros Hh. split; [by destruct Hh as [->| ->]|]. rewrite fork_keys_eq. intros b t Hb Ht _. set_unfold.
  destruct Hh as [->| ->]; simpl; naive_solver lia.
Qed.

Definition filter_at (h : Head) : ForkFilter :=
  run_or (mkForkFilter ∅ h (mkCache (KBlock 0) None [] [] (mkForkId 0 0)))
    (ForkFilter_new crc_checksum crc_digest h genesis 0 keys).

Lemma filter_at_wf h : h = old_head ∨ h = new_head → filter_wf (filter_at h).
Proof.
  intros [H0 Ho]%heads_orderly.
  destruct (new_filter_wf crc_checksum crc_digest h genesis 0 keys keys_pos H0 Ho) as (f & E & W & _).
  unfold filter_at. by rewrite E.
Qed.

(** The filter moves from the old head to the new one and back. *)
Lemma set_heads_as_new_witness :
  ∃ f, ForkFilter_new crc_checksum crc_digest old_head genesis 0 keys = Done f ∧
    (f0 ← ForkFilter_new crc_checksum crc_digest old_head genesis 0 keys;
     for_each (λ h f, snd <$> set_head h f) [new_head; old_head] f0) = Done f.
Proof.
  apply (set_heads_as_new crc_checksum crc_digest old_head [new_head; old_head] genesis 0 keys keys_pos).
  repeat constructor; by apply heads_orderly; auto.
Defined.

Lemma hashes_differ h : h = old_head ∨ h = new_head → NoDup (bmap_iter (ff_forks (filter_at h))).*2.
Proof. intros [->| ->]; apply (bool_decide_unpack _); vm_compute; exact I. Qed.

(** A peer that stopped before Shanghai and does not know of it. *)
Lemma validate_eip2124_witness :
  ¬ accepts new_head (bmap_iter (ff_forks (filter_at new_head))) (mkForkId (fid_hash (current (filter_at old_head))) 0).
Proof.
  intros H. apply (validate_eip2124 _ (filter_at new_head)) in H.
  - vm_compute in H. discriminate.
  - apply filter_at_wf; auto.
  - vm_compute. split; [discriminate|reflexivity].
  - apply hashes_differ; auto.
Defined.

Lemma same_chain_compatible_witness : validate (current (filter_at new_head)) (filter_at old_head) = None.
Proof.
  apply (same_chain_compatible (filter_at old_head) (filter_at new_head)).
  - apply filter_at_wf; auto.
  - apply filter_at_wf; auto.
  - vm_compute. reflexivity.
  - by vm_compute.
  - by vm_compute.
  - apply hashes_differ; auto.
  - intros k [x Hx%elem_of_bmap_iter]. apply (list_elem_of_fmap_2 fst) in Hx.
    replace (bmap_iter (ff_forks (filter_at old_head))).*1 with (KBlock 0 :: fork_keys 0 keys) in Hx by (by vm_compute).
    rewrite fork_keys_eq in Hx. unfold TIMESTAMP_BEFORE_ETHEREUM_MAINNET. simpl in Hx.
    repeat (apply elem_of_cons in Hx as [->|Hx]; [done|]). by apply elem_of_nil in Hx.
Defined.

(** Forks by time before forks by block number: the next fork by number, 100, has not been reached
    when the fork at time 50 becomes active.  The head stays in the epoch of the cache, which is not
    computed again, so that the filter announces another identifier than a new one. *)
Definition mixed_head (timestamp : Z) : Head := mkHead 10 0 0 0 timestamp.
Definition mixed_filter (timestamp : Z) : outcome ForkFilter :=
  ForkFilter_new crc_checksum crc_digest (mixed_head timestamp) genesis 0 [KBlock 100; KTime 50].
Example mixed_forks_cached :
  ∃ f f', mixed_filter 60 = Done f ∧ (f0 ← mixed_filter 40; snd <$> set_head (mixed_head 60) f0) = Done f' ∧
    ff_head f = ff_head f' ∧ ff_forks f = ff_forks f' ∧ current f ≠ current f'.
Proof. eexists _, _. split; [by vm_compute|]. split; [by vm_compute|]. split_and!; by vm_compute. Qed.
(** And a new filter rejects a peer of the same chain that has not reached the fork at time 50. *)
Example mixed_forks_rejected :
  ∃ f e, mixed_filter 60 = Done f ∧ accepts (mixed_head 60) (bmap_iter (ff_forks f)) (mkForkId (fork_hash_from crc_checksum genesis) 100) ∧
    validate (mkForkId (fork_hash_from crc_checksum genesis) 100) f = Some (RemoteStale (current f) e).
Proof.
  eexists _, _. split; [by vm_compute|]. split; [|by vm_compute]. exists [], (KBlock 0). eexists. split; [by vm_compute|]. by vm_compute.
Qed.

Lemma fork_id_is_current_witness :
  ∃ f, fork_filter crc_checksum crc_digest new_head spec = Done f ∧
    current f = fork_id crc_checksum crc_digest new_head spec.
Proof.
  apply fork_id_is_current.
  - split; simpl; [done| |repeat constructor; done|repeat constructor; done|repeat constructor; done|].
    + intros t Ht. set_unfold in Ht. naive_solver lia.
    + intros b t Hb Ht. set_unfold in Hb. set_unfold in Ht. naive_solver lia.
  - split; simpl; [done| |].
    + intros b t Hb _ _. set_unfold in Hb. naive_solver lia.
    + intros b d Hb. set_unfold in Hb. naive_solver lia.
Defined.
End Mainnet.
