(* ===== verification/Errors.v ===== *)
(** * Errors of the transaction pool

    [PoolError] and its kinds ([transaction-pool/src/error.rs]), with the rule that
    decides whether the peer that sent the transaction is to be penalised. *)

From stdpp Require Import prelude.
From S2P Require Import Prelude.
From S2P Require Import Identifier.

(** [InvalidTransactionError] of [primitives/src/transaction/error.rs]. *)
Inductive InvalidTransactionError :=
| InsufficientFunds (got expected : Z)
| NonceNotConsistent
| OldLegacyChainId
| ChainIdMismatch
| Eip2930Disabled
| Eip1559Disabled
| Eip4844Disabled
| Eip7702Disabled
| TxTypeNotSupported
| GasUintOverflow
| GasTooLow
| GasTooHigh
| TipAboveFeeCap
| FeeCapTooLow
| SignerAccountHasBytecode.

(** The error of the KZG check carries nothing the pool looks at. *)
Inductive Eip4844PoolTransactionError :=
| MissingEip4844BlobSidecar
| NoEip4844Blobs
| TooManyEip4844Blobs (have permitted : Z)
| InvalidEip4844Blob
| Eip4844NonceGap.

(** Of the boxed error of the variant [Other] only the answer of its
    [is_bad_transaction] is used. *)
Inductive InvalidPoolTransactionError :=
| Consensus (e : InvalidTransactionError)
| ExceedsGasLimit (gas_limit block_gas_limit : Z)
| ExceedsMaxInitCodeSize (size limit : Z)
| OversizedData (size limit : Z)
| InvalidUnderpriced
| InvalidOverdraft
| Eip4844 (e : Eip4844PoolTransactionError)
| InvalidOther (bad : bool)
| IntrinsicGasTooLow.

Inductive PoolErrorKind :=
| AlreadyImported
| ReplacementUnderpriced
| KindFeeCapBelowMinimumProtocolFeeCap (fee_cap : Z)
| SpammerExceededCapacity (a : Address)
| DiscardedOnInsert
| InvalidTransaction (e : InvalidPoolTransactionError)
| ExistingConflictingTransactionType (a : Address) (ty : Z)
| KindOther.

Record PoolError := mkPoolError { pe_hash : Z; pe_kind : PoolErrorKind }.

(** [InvalidPoolTransactionError::is_bad_transaction]. *)
Definition invalid_is_bad (e : InvalidPoolTransactionError) : bool :=
  match e with
  | Consensus err =>
    match err with
    | InsufficientFunds _ _ | NonceNotConsistent => false
    | GasTooLow | GasTooHigh | TipAboveFeeCap => false
    | FeeCapTooLow => false
    | Eip2930Disabled | Eip1559Disabled | Eip4844Disabled | Eip7702Disabled => false
    | OldLegacyChainId | ChainIdMismatch | GasUintOverflow | TxTypeNotSupported
    | SignerAccountHasBytecode => true
    end
  | ExceedsGasLimit _ _ => true
  | ExceedsMaxInitCodeSize _ _ => true
  | OversizedData _ _ => true
  | InvalidUnderpriced => false
  | IntrinsicGasTooLow => true
  | InvalidOverdraft => false
  | InvalidOther bad => bad
  | Eip4844 err =>
    match err with
    | MissingEip4844BlobSidecar => false
    | InvalidEip4844Blob => true
    | Eip4844NonceGap => false
    | NoEip4844Blobs => true
    | TooManyEip4844Blobs _ _ => true
    end
  end.

(** [InvalidPoolTransactionError::is_nonce_gap]. *)
Definition is_nonce_gap (e : InvalidPoolTransactionError) : bool :=
  match e with
  | Consensus NonceNotConsistent | Eip4844 Eip4844NonceGap => true
  | _ => false
  end.

(** [PoolError::is_bad_transaction]. *)
Definition is_bad_transaction (e : PoolError) : bool :=
  match pe_kind e with
  | AlreadyImported => false
  | ReplacementUnderpriced => false
  | KindFeeCapBelowMinimumProtocolFeeCap _ => false
  | SpammerExceededCapacity _ => false
  | DiscardedOnInsert => false
  | InvalidTransaction err => invalid_is_bad err
  | KindOther => false
  | ExistingConflictingTransactionType _ _ => false
  end.
