(* ===== verification/Events.v ===== *)
(** * Transaction events and their broadcast

    [pool/events.rs] and [pool/listener.rs]: the events a transaction can go through
    and the broadcaster that forwards them to the subscribers of a transaction and
    to those of the whole pool.

    The channels are those of the [tokio] library.  What the code uses of them is the
    result of a non-blocking send, which depends on the receiver: [World] records the
    attempts in their order and takes the result of each from an arbitrary schedule. *)

From stdpp Require Import prelude gmap list.
From S2P Require Import Prelude.
From S2P Require Import State.
From S2P Require Import PoolTx.

(** ** Events *)

Inductive PropagateKind := PropagateFull (peer : Z) | PropagateHash (peer : Z).

Inductive TransactionEvent :=
| EvPending
| EvQueued
| EvMined (block_hash : Z)
| EvReplaced (replaced_by : Z)
| EvDiscarded
| EvInvalid
| EvPropagated (peers : list PropagateKind).

Inductive FullTransactionEvent :=
| FullPending (tx_hash : Z)
| FullQueued (tx_hash : Z)
| FullMined (tx_hash block_hash : Z)
| FullReplaced (tx : ValidPoolTransaction) (replaced_by : Z)
| FullDiscarded (tx_hash : Z)
| FullInvalid (tx_hash : Z)
| FullPropagated (peers : list PropagateKind).

(** [TransactionEvent::is_final]. *)
Definition is_final (e : TransactionEvent) : bool :=
  match e with
  | EvReplaced _ | EvMined _ | EvDiscarded => true
  | _ => false
  end.

(** [NewTransactionEvent] and [NewBlobSidecar] of [traits.rs]; a sidecar is one of the
    [alloy] library, represented by its identity. *)
Record NewTransactionEvent := mkNewTransactionEvent {
  ne_subpool : SubPool;
  ne_transaction : ValidPoolTransaction;
}.

(** ** Channels *)

(** Result of [try_send] and [send]. *)
Inductive SendResult := Sent | Full | Closed.
#[export] Instance SendResult_eq_dec : EqDecision SendResult.
Proof. solve_decision. Defined.

(** Everything that is sent; [Probe] stands for a call of [is_closed], which only asks
    for the state of the channel. *)
Inductive Message :=
| MsgEvent (h : Z) (e : TransactionEvent)
| MsgFull (e : FullTransactionEvent)
| MsgHash (h : Z)
| MsgNew (e : NewTransactionEvent)
| MsgSidecar (h sidecar : Z)
| Probe.

Record Attempt := mkAttempt { at_chan : nat; at_msg : Message; at_result : SendResult }.

Record World := mkWorld {
  schedule : nat → SendResult;
  log : list Attempt;
  next_chan : nat;
}.

(** A fresh channel. *)
Definition channel (w : World) : nat * World :=
  (next_chan w, mkWorld (schedule w) (log w) (S (next_chan w))).

Definition try_send (c : nat) (m : Message) (w : World) : SendResult * World :=
  let r := schedule w (length (log w)) in
  (r, mkWorld (schedule w) (log w ++ [mkAttempt c m r]) (next_chan w)).

Definition is_closed (c : nat) (w : World) : bool * World :=
  let '(r, w) := try_send c Probe w in (bool_decide (r = Closed), w).

(** [Vec::retain] and [retain_mut] with a predicate that acts on the world. *)
Fixpoint retain {A} (f : A → World → bool * World) (l : list A) (w : World) : list A * World :=
  match l with
  | [] => ([], w)
  | x :: l' =>
    let '(keep, w) := f x w in
    let '(l', w) := retain f l' w in
    ((if keep then [x] else []) ++ l', w)
  end.

(** ** The broadcaster *)

Record PoolEventBroadcast := mkPoolEventBroadcast {
  all_events_broadcaster : list nat;
  broadcasters_by_hash : gmap Z (list nat);
}.

Definition PoolEventBroadcast_default : PoolEventBroadcast := mkPoolEventBroadcast [] ∅.

(** [PoolEventBroadcaster::broadcast]: an unbounded channel is closed or accepts. *)
Definition broadcast_by_hash (h : Z) (e : TransactionEvent) (senders : list nat) (w : World) : list nat * World :=
  retain (λ c w, let '(r, w) := try_send c (MsgEvent h e) w in (bool_decide (r = Sent), w)) senders w.

(** [AllPoolEventsBroadcaster::broadcast]. *)
Definition broadcast_all (e : FullTransactionEvent) (senders : list nat) (w : World) : list nat * World :=
  retain (λ c w, let '(r, w) := try_send c (MsgFull e) w in (negb (bool_decide (r = Closed)), w)) senders w.

(** [PoolEventBroadcast::broadcast_event]. *)
Definition broadcast_event (h : Z) (e : TransactionEvent) (pool_event : FullTransactionEvent)
  (b : PoolEventBroadcast) (w : World) : PoolEventBroadcast * World :=
  let '(by_hash, w) :=
    match broadcasters_by_hash b !! h with
    | None => (broadcasters_by_hash b, w)
    | Some senders =>
      let '(senders, w) := broadcast_by_hash h e senders w in
      (if bool_decide (senders = []) || is_final e then delete h (broadcasters_by_hash b)
       else <[h := senders]> (broadcasters_by_hash b), w)
    end in
  let '(all, w) := broadcast_all pool_event (all_events_broadcaster b) w in
  (mkPoolEventBroadcast all by_hash, w).

(** [PoolEventBroadcast::subscribe] and [subscribe_all]. *)
Definition subscribe (h : Z) (b : PoolEventBroadcast) (w : World) : nat * PoolEventBroadcast * World :=
  let '(c, w) := channel w in
  (c, mkPoolEventBroadcast (all_events_broadcaster b)
        (<[h := default [] (broadcasters_by_hash b !! h) ++ [c]]> (broadcasters_by_hash b)), w).
Definition subscribe_all (b : PoolEventBroadcast) (w : World) : nat * PoolEventBroadcast * World :=
  let '(c, w) := channel w in
  (c, mkPoolEventBroadcast (all_events_broadcaster b ++ [c]) (broadcasters_by_hash b), w).

(** The notifications. *)
Definition ev_replaced (tx : ValidPoolTransaction) (replaced_by : Z) :=
  broadcast_event (hash tx) (EvReplaced replaced_by) (FullReplaced tx replaced_by).
Definition ev_pending (h : Z) (replaced : option ValidPoolTransaction) (b : PoolEventBroadcast) (w : World)
  : PoolEventBroadcast * World :=
  let '(b, w) := broadcast_event h EvPending (FullPending h) b w in
  match replaced with
  | None => (b, w)
  | Some tx => ev_replaced tx h b w
  end.
Definition ev_queued (h : Z) := broadcast_event h EvQueued (FullQueued h).
Definition ev_propagated (h : Z) (peers : list PropagateKind) :=
  broadcast_event h (EvPropagated peers) (FullPropagated peers).
Definition ev_discarded (h : Z) := broadcast_event h EvDiscarded (FullDiscarded h).
Definition ev_mined (h block_hash : Z) := broadcast_event h (EvMined block_hash) (FullMined h block_hash).

(** ** What a subscriber receives *)

(** The calls a broadcaster sees. *)
Inductive Call :=
| CallPending (h : Z) (replaced : option ValidPoolTransaction)
| CallReplaced (tx : ValidPoolTransaction) (replaced_by : Z)
| CallQueued (h : Z)
| CallPropagated (h : Z) (peers : list PropagateKind)
| CallDiscarded (h : Z)
| CallMined (h block_hash : Z)
| CallSubscribe (h : Z)
| CallSubscribeAll.

Definition call (k : Call) (st : PoolEventBroadcast * World) : PoolEventBroadcast * World :=
  let '(b, w) := st in
  match k with
  | CallPending h replaced => ev_pending h replaced b w
  | CallReplaced tx by_ => ev_replaced tx by_ b w
  | CallQueued h => ev_queued h b w
  | CallPropagated h peers => ev_propagated h peers b w
  | CallDiscarded h => ev_discarded h b w
  | CallMined h bh => ev_mined h bh b w
  | CallSubscribe h => let '(_, b, w) := subscribe h b w in (b, w)
  | CallSubscribeAll => let '(_, b, w) := subscribe_all b w in (b, w)
  end.

Definition calls (ks : list Call) (st : PoolEventBroadcast * World) : PoolEventBroadcast * World :=
  foldl (λ st k, call k st) st ks.

(** The events a call reports, with the transactions they are about. *)
Definition events_of (k : Call) : list (Z * TransactionEvent) :=
  match k with
  | CallPending h replaced =>
    (h, EvPending) :: match replaced with Some tx => [(hash tx, EvReplaced h)] | None => [] end
  | CallReplaced tx by_ => [(hash tx, EvReplaced by_)]
  | CallQueued h => [(h, EvQueued)]
  | CallPropagated h peers => [(h, EvPropagated peers)]
  | CallDiscarded h => [(h, EvDiscarded)]
  | CallMined h bh => [(h, EvMined bh)]
  | CallSubscribe _ | CallSubscribeAll => []
  end.

(** Events up to and including the first final one. *)
Fixpoint until_final (l : list (Z * TransactionEvent)) : list (Z * TransactionEvent) :=
  match l with
  | [] => []
  | (h, e) :: l' => (h, e) :: if is_final e then [] else until_final l'
  end.

(** The transaction events a channel accepted, and that its receiver was open at every
    attempt.  The channels of single subscriptions carry nothing else. *)
Definition received (c : nat) (l : list Attempt) : list (Z * TransactionEvent) :=
  omap (λ a, if bool_decide (at_chan a = c) && bool_decide (at_result a = Sent)
             then match at_msg a with MsgEvent h e => Some (h, e) | _ => None end else None) l.
Definition stays_open (c : nat) (l : list Attempt) : Prop :=
  Forall (λ a, at_chan a = c → at_result a = Sent) l.

(** Channels are allocated in order, and a channel belongs to one subscription. *)
Record broadcast_wf (b : PoolEventBroadcast) (w : World) : Prop := {
  bw_all : Forall (λ c, (c < next_chan w)%nat) (all_events_broadcaster b);
  bw_hash h l : broadcasters_by_hash b !! h = Some l →
    NoDup l ∧ Forall (λ c, (c < next_chan w)%nat ∧ c ∉ all_events_broadcaster b) l;
  bw_one h h' l l' c : broadcasters_by_hash b !! h = Some l → broadcasters_by_hash b !! h' = Some l' →
    c ∈ l → c ∈ l' → h = h';
}.

(** The world after some attempts. *)
Definition extend (att : list Attempt) (w : World) : World :=
  mkWorld (schedule w) (log w ++ att) (next_chan w).

Lemma extend_extend a a' w : extend a' (extend a w) = extend (a ++ a') w.
Proof. unfold extend; simpl. by rewrite (assoc_L (++)). Qed.
Lemma extend_nil w : extend [] w = w.
Proof. unfold extend. rewrite app_nil_r. by destruct w. Qed.

Lemma received_app c a a' : received c (a ++ a') = received c a ++ received c a'.
Proof. apply omap_app. Qed.
Lemma stays_open_app c a a' : stays_open c (a ++ a') ↔ stays_open c a ∧ stays_open c a'.
Proof. apply Forall_app. Qed.

(** A channel that is not addressed receives nothing. *)
Lemma received_other c a : Forall (λ x, at_chan x ≠ c) a → received c a = [].
Proof. induction 1 as [|x a Hx _ IH]; simpl; [done|]. rewrite bool_decide_false by done. exact IH. Qed.

(** Attempts that carry no transaction event. *)
Definition plain (a : Attempt) : Prop := match at_msg a with MsgEvent _ _ => False | _ => True end.
Lemma received_plain c a : Forall plain a → received c a = [].
Proof.
  induction 1 as [|[c' m r] a Hx _ IH]; simpl; [done|].
  destruct m; simpl in *; try done; by destruct (_ && _).
Qed.

(** Sending the same message to a list of channels: one attempt per channel, in
    order. *)
Lemma retain_send (m : Message) (p : SendResult → bool) (l : list nat) w :
  ∃ att, at_chan <$> att = l ∧ Forall (λ a, at_msg a = m) att ∧
    retain (λ c w, let '(r, w) := try_send c m w in (p r, w)) l w =
      (at_chan <$> filter (λ a, p (at_result a)) att, extend att w).
Proof.
  revert w. induction l as [|c l IH]; intros w.
  - exists []. rewrite extend_nil. done.
  - destruct (IH (extend [mkAttempt c m (schedule w (length (log w)))] w)) as (att & Hc & Hm & He).
    exists (mkAttempt c m (schedule w (length (log w))) :: att). split_and!.
    + by rewrite <-Hc.
    + by constructor.
    + set (f := λ (c : nat) (w : World), let '(r, w) := try_send c m w in (p r, w)) in *.
      set (r := schedule w (length (log w))) in *.
      change (retain f (c :: l) w) with
        (let '(l', w') := retain f l (extend [mkAttempt c m r] w) in ((if p r then [c] else []) ++ l', w')).
      rewrite He, extend_extend, filter_cons. simpl. by destruct (p r).
Qed.

(** An open channel of the list receives the message once and stays in the list. *)
Lemma sent_once c h e att :
  Forall (λ a, at_msg a = MsgEvent h e) att → NoDup (at_chan <$> att) → stays_open c att →
  c ∈ at_chan <$> att → received c att = [(h, e)].
Proof.
  induction att as [|a att IH]; simpl; intros Hm Hnd Ho Hin; [set_solver|].
  apply Forall_cons in Hm as [Hma Hm]. apply NoDup_cons in Hnd as [Hni Hnd].
  apply Forall_cons in Ho as [Hoa Ho]. unfold received. simpl.
  destruct (decide (at_chan a = c)) as [<-|Hne].
  - rewrite (bool_decide_true (at_result a = Sent)) by auto. rewrite bool_decide_true by done. simpl.
    rewrite Hma. f_equal. apply received_other. apply Forall_forall. intros x Hx Heq.
    apply Hni. apply list_elem_of_fmap. eauto.
  - rewrite bool_decide_false by done. simpl. apply IH; try done. set_solver.
Qed.

Definition listening (c : nat) (h : Z) (b : PoolEventBroadcast) : Prop :=
  c ∈ default [] (broadcasters_by_hash b !! h).
Definition gone (c : nat) (b : PoolEventBroadcast) (w : World) : Prop :=
  (c < next_chan w)%nat ∧ c ∉ all_events_broadcaster b ∧ ∀ h, ¬ listening c h b.

Lemma listening_inv c h b :
  listening c h b ↔ ∃ l, broadcasters_by_hash b !! h = Some l ∧ c ∈ l.
Proof. unfold listening. destruct (_ !! h); set_solver. Qed.

Lemma listening_facts b w c h :
  broadcast_wf b w → listening c h b →
  (c < next_chan w)%nat ∧ c ∉ all_events_broadcaster b ∧ ∀ h', listening c h' b → h' = h.
Proof.
  intros Hwf (l & Hl & Hc)%listening_inv. destruct (bw_hash _ _ Hwf _ _ Hl) as [_ Hf].
  rewrite Forall_forall in Hf. destruct (Hf c Hc). split_and!; [done..|].
  intros h' (l' & Hl' & Hc')%listening_inv. by eapply bw_one.
Qed.

(** Whether one of the events about [h] is final. *)
Definition closes (h : Z) (evs : list (Z * TransactionEvent)) : bool :=
  existsb (λ p, (p.1 =? h) && is_final p.2) evs.
Definition about (h : Z) (evs : list (Z * TransactionEvent)) : list (Z * TransactionEvent) :=
  filter (λ p, p.1 = h) evs.

Lemma until_final_app h l l' :
  until_final (about h (l ++ l')) =
  until_final (about h l) ++ if closes h l then [] else until_final (about h l').
Proof.
  induction l as [|[h' e] l IH]; [done|]. unfold about in *. simpl. rewrite !filter_cons; simpl.
  destruct (decide (h' = h)) as [->|Hne]; simpl.
  - rewrite Z.eqb_refl. simpl. destruct (is_final e); simpl; [done|]. by rewrite IH.
  - rewrite (proj2 (Z.eqb_neq _ _)) by done. exact IH.
Qed.

Lemma closes_app h l l' : closes h (l ++ l') = closes h l || closes h l'.
Proof. apply existsb_app. Qed.

(** A stretch of execution that reports [evs]: what each subscriber accepts, and what
    becomes of its subscription. *)
Definition emits (evs : list (Z * TransactionEvent)) (b : PoolEventBroadcast) (w : World)
  (b' : PoolEventBroadcast) (w' : World) : Prop :=
  ∃ att, log w' = log w ++ att ∧ broadcast_wf b' w' ∧ (next_chan w ≤ next_chan w')%nat ∧
    (∀ c h, listening c h b → stays_open c att →
      received c att = until_final (about h evs) ∧
      if closes h evs then gone c b' w' else listening c h b') ∧
    (∀ c, gone c b w → received c att = [] ∧ gone c b' w').

Lemma emits_refl b w : broadcast_wf b w → emits [] b w b w.
Proof. intros. exists []. rewrite app_nil_r. split_and!; naive_solver. Qed.

(** Attempts on other kinds of channels, and new channels, do not matter. *)
Lemma emits_plain att b w w' :
  broadcast_wf b w → log w' = log w ++ att → (next_chan w ≤ next_chan w')%nat → Forall plain att →
  emits [] b w b w'.
Proof.
  intros Hwf Hl Hn Hp. exists att. split_and!; [done| |done|..].
  - split; [|intros h l Hh; destruct (bw_hash _ _ Hwf _ _ Hh) as [Hnd Hf]; split; [done|]|apply Hwf].
    + eapply Forall_impl; [apply Hwf|]. simpl. lia.
    + eapply Forall_impl; [exact Hf|]. simpl. intros c [? ?]. split; [lia|done].
  - intros. by rewrite received_plain.
  - intros c (? & ? & ?). rewrite received_plain by done. split; [done|]. split_and!; [lia|done..].
Qed.

Lemma emits_trans evs evs' b w b1 w1 b2 w2 :
  emits evs b w b1 w1 → emits evs' b1 w1 b2 w2 → emits (evs ++ evs') b w b2 w2.
Proof.
  intros (att & Hl & _ & Hn & Hin & Hout) (att' & Hl' & Hwf & Hn' & Hin' & Hout').
  exists (att ++ att'). rewrite Hl', Hl, (assoc_L (++)). split_and!; [done|done|lia| |].
  - intros c h Hc [Ho Ho']%stays_open_app. destruct (Hin _ _ Hc Ho) as [Hr Hs].
    rewrite received_app, Hr, until_final_app, closes_app.
    destruct (closes h evs); simpl.
    + by destruct (Hout' _ Hs) as [-> ?].
    + by destruct (Hin' _ _ Hs Ho') as [-> ?].
  - intros c Hg. destruct (Hout c Hg) as [Hr Hg1]. destruct (Hout' c Hg1) as [Hr' Hg2].
    by rewrite received_app, Hr, Hr'.
Qed.

Lemma subscribers_of b h l c : broadcasters_by_hash b !! h = Some l → c ∈ l → listening c h b.
Proof. intros. apply listening_inv. eauto. Qed.

(** Broadcasting one event. *)
Lemma broadcast_all_spec e l w :
  ∃ att l', broadcast_all e l w = (l', extend att w) ∧ at_chan <$> att = l ∧ l' ⊆ l.
Proof.
  destruct (retain_send (MsgFull e) (λ r, negb (bool_decide (r = Closed))) l w) as (att & Hc & _ & He).
  exists att, (at_chan <$> filter (λ a, negb (bool_decide (at_result a = Closed))) att).
  split_and!; [exact He|done|]. rewrite <-Hc. intros c (a & -> & Ha)%list_elem_of_fmap.
  apply list_elem_of_filter in Ha as [_ Ha]. apply list_elem_of_fmap. eauto.
Qed.

Lemma broadcast_by_hash_spec h e l w :
  NoDup l →
  ∃ att l', broadcast_by_hash h e l w = (l', extend att w) ∧ at_chan <$> att = l ∧ l' ⊆ l ∧ NoDup l' ∧
    (∀ c, c ∈ l → stays_open c att → received c att = [(h, e)] ∧ c ∈ l').
Proof.
  intros Hnd. destruct (retain_send (MsgEvent h e) (λ r, bool_decide (r = Sent)) l w) as (att & Hc & Hm & He).
  exists att, (at_chan <$> filter (λ a, bool_decide (at_result a = Sent)) att). split_and!; [exact He|done|..].
  - rewrite <-Hc. intros c (a & -> & Ha)%list_elem_of_fmap. apply list_elem_of_filter in Ha as [_ Ha].
    apply list_elem_of_fmap. eauto.
  - rewrite <-Hc in Hnd. by eapply sublist_NoDup, fmap_sublist, sublist_filter.
  - intros c Hin Ho. split.
    + by apply sent_once; rewrite ?Hc.
    + rewrite <-Hc in Hin. apply list_elem_of_fmap in Hin as (a & -> & Ha). apply list_elem_of_fmap.
      exists a. split; [done|]. apply list_elem_of_filter. split; [|done].
      apply bool_decide_pack. unfold stays_open in Ho. rewrite Forall_forall in Ho. by apply Ho.
Qed.

(** A broadcaster that only lost subscriptions. *)
Lemma broadcast_wf_shrink b w b' w' :
  broadcast_wf b w → (next_chan w ≤ next_chan w')%nat → all_events_broadcaster b' ⊆ all_events_broadcaster b →
  (∀ h l, broadcasters_by_hash b' !! h = Some l → NoDup l ∧ ∀ c, c ∈ l → listening c h b) →
  broadcast_wf b' w'.
Proof.
  intros Hwf Hn Hall Hl. split.
  - apply Forall_forall. intros c Hc. pose proof (bw_all _ _ Hwf) as Hb. rewrite Forall_forall in Hb.
    specialize (Hb c (Hall c Hc)). simpl in *. lia.
  - intros h l Hh. destruct (Hl h l Hh) as [Hnd Hc]. split; [done|]. apply Forall_forall. intros c Hin.
    destruct (listening_facts _ _ _ _ Hwf (Hc c Hin)) as (? & ? & _). split; [lia|set_solver].
  - intros h h' l l' c Hh Hh' Hc Hc'. destruct (Hl h l Hh) as [_ H1]. destruct (Hl h' l' Hh') as [_ H2].
    destruct (listening_facts _ _ _ _ Hwf (H2 c Hc')) as (_ & _ & Hone). by apply Hone, H1.
Qed.

Lemma broadcast_event_emits h e pe b w :
  broadcast_wf b w →
  ∃ b' w', broadcast_event h e pe b w = (b', w') ∧ emits [(h, e)] b w b' w'.
Proof.
  intros Hwf. unfold broadcast_event.
  assert (∃ att m, (∀ h', h' ≠ h → m !! h' = broadcasters_by_hash b !! h') ∧
    (∀ l, m !! h = Some l → NoDup l ∧ ∀ c, c ∈ l → listening c h b) ∧
    (∀ c, c ∈ at_chan <$> att → listening c h b) ∧
    (∀ c, listening c h b → stays_open c att → received c att = [(h, e)] ∧
      if is_final e then m !! h = None else c ∈ default [] (m !! h)) ∧
    match broadcasters_by_hash b !! h with
    | None => (broadcasters_by_hash b, w)
    | Some senders =>
      let '(senders, w) := broadcast_by_hash h e senders w in
      (if bool_decide (senders = []) || is_final e then delete h (broadcasters_by_hash b)
       else <[h := senders]> (broadcasters_by_hash b), w)
    end = (m, extend att w)) as (att & m & Hother & Hm & Hatt & Hrec & ->).
  { destruct (broadcasters_by_hash b !! h) as [l|] eqn:El.
    - destruct (bw_hash _ _ Hwf _ _ El) as [Hnd _].
      destruct (broadcast_by_hash_spec h e l w Hnd) as (att & l' & -> & Hatt & Hsub & Hnd' & Hrec).
      assert (Hlist : ∀ c, c ∈ l' → listening c h b) by (intros; eapply subscribers_of; eauto).
      exists att. eexists. split_and!; [| | | |reflexivity].
      + intros h' Hne. destruct (_ || _); by rewrite ?lookup_delete_ne, ?lookup_insert_ne.
      + intros l0. destruct (_ || _); rewrite ?lookup_delete_eq, ?lookup_insert_eq; intros ?; simplify_eq; auto.
      + rewrite Hatt. intros. by eapply subscribers_of.
      + intros c (l0 & ? & Hc)%listening_inv Ho. simplify_eq. destruct (Hrec c Hc Ho) as [? Hc'].
        split; [done|]. destruct (is_final e); [by rewrite orb_true_r, lookup_delete_eq|].
        rewrite bool_decide_false by (intros ->; by apply not_elem_of_nil in Hc'). simpl. by rewrite lookup_insert_eq.
    - exists [], (broadcasters_by_hash b). rewrite extend_nil. split_and!; [done|by intros ? ?; simplify_eq|set_solver| |done].
      intros c (l & ? & _)%listening_inv. congruence. }
  destruct (broadcast_all_spec pe (all_events_broadcaster b) (extend att w)) as (att' & l' & -> & Hatt' & Hsub).
  eexists _, _; split; [reflexivity|]. rewrite extend_extend. exists (att ++ att'). 
  assert (Hback : ∀ c h', listening c h' (mkPoolEventBroadcast l' m) → listening c h' b).
  { intros c h' (l & Hl & Hc)%listening_inv. simpl in Hl. destruct (decide (h' = h)) as [->|Hne].
    - by destruct (Hm l Hl) as [_ Hin]; apply Hin.
    - rewrite Hother in Hl by done. by eapply subscribers_of. }
  split_and!; [done| |simpl; lia|..].
  - apply (broadcast_wf_shrink b w); [done|simpl; lia|done|]. intros h' l Hl. split.
    + simpl in Hl. destruct (decide (h' = h)) as [->|Hne]; [by apply (Hm l)|].
      rewrite Hother in Hl by done. by apply (bw_hash _ _ Hwf h' l).
    + intros c Hc. apply Hback. by eapply (subscribers_of (mkPoolEventBroadcast l' m)).
  - intros c h' Hc [Ho Ho']%stays_open_app. destruct (listening_facts _ _ _ _ Hwf Hc) as (Hlt & Hnall & Hone).
    rewrite received_app, (received_other c att'), app_nil_r.
    2: { apply Forall_forall. intros a Ha <-. apply Hnall. rewrite <-Hatt'. apply list_elem_of_fmap. eauto. }
    unfold about, closes. rewrite filter_cons. simpl. rewrite orb_false_r.
    destruct (decide (h = h')) as [<-|Hne].
    + rewrite Z.eqb_refl. simpl. destruct (Hrec c Hc Ho) as [-> Hcase]. destruct (is_final e); [|done].
      split; [done|]. split_and!; [done|set_solver|]. intros h' Hl. assert (h' = h) as -> by auto.
      unfold listening in Hl. simpl in Hl. rewrite Hcase in Hl. set_solver.
    + rewrite (proj2 (Z.eqb_neq _ _)) by done. simpl. split.
      * apply received_other. apply Forall_forall. intros a Ha <-. apply Hne, Hone.
        apply Hatt. apply list_elem_of_fmap. eauto.
      * unfold listening in *. simpl. by rewrite Hother.
  - intros c (Hlt & Hnall & Hno). split; [|split_and!; [done|set_solver|intros h' ?%Hback; by eapply Hno]].
    apply received_other, Forall_app. split; apply Forall_forall; intros a Ha <-.
    + apply (Hno h), Hatt, list_elem_of_fmap. eauto.
    + apply Hnall. rewrite <-Hatt'. apply list_elem_of_fmap. eauto.
Qed.

Lemma subscribe_emits h b w :
  broadcast_wf b w →
  emits [] b w (subscribe h b w).1.2 (subscribe h b w).2 ∧
  listening (subscribe h b w).1.1 h (subscribe h b w).1.2.
Proof.
  intros Hwf. simpl. set (b' := mkPoolEventBroadcast _ _).
  assert (Hin : ∀ c h', listening c h' b' ↔ listening c h' b ∨ c = next_chan w ∧ h' = h).
  { intros c h'. unfold listening, b'. simpl. destruct (decide (h' = h)) as [->|Hne].
    - rewrite lookup_insert_eq. simpl. set_solver.
    - rewrite lookup_insert_ne by done. naive_solver. }
  assert (Hfresh : ∀ h', ¬ listening (next_chan w) h' b).
  { intros h' Hl. destruct (listening_facts _ _ _ _ Hwf Hl) as [? _]. lia. }
  split; [|apply Hin; by right].
  exists []. rewrite app_nil_r. split_and!; [done| |simpl; lia|..].
  - split.
    + eapply Forall_impl; [apply Hwf|]. simpl. lia.
    + intros h' l Hl. split.
      * simpl in Hl. destruct (decide (h' = h)) as [->|Hne].
        -- rewrite lookup_insert_eq in Hl. simplify_eq. apply NoDup_app. split_and!.
           ++ destruct (_ !! h) eqn:E; simpl; [by apply (bw_hash _ _ Hwf h)|constructor].
           ++ intros c Hc ->%list_elem_of_singleton. by apply (Hfresh h).
           ++ apply NoDup_singleton.
        -- rewrite lookup_insert_ne in Hl by done. by apply (bw_hash _ _ Hwf h').
      * apply Forall_forall. intros c Hc. pose proof (subscribers_of b' h' l c Hl Hc) as [Hl'|[-> _]]%Hin.
        -- destruct (listening_facts _ _ _ _ Hwf Hl') as (? & ? & _). simpl. split; [lia|done].
        -- simpl. split; [lia|]. intros Hc'. pose proof (bw_all _ _ Hwf) as Hb. rewrite Forall_forall in Hb.
           specialize (Hb _ Hc'). simpl in *. lia.
    + intros h1 h2 l l' c Hl Hl' Hc Hc'.
      pose proof (subscribers_of b' _ _ _ Hl Hc) as Hc1%Hin.
      pose proof (subscribers_of b' _ _ _ Hl' Hc') as Hc2%Hin.
      destruct Hc1 as [Hc1|[-> ->]], Hc2 as [Hc2|[? ->]]; simplify_eq; try done.
      * by eapply listening_facts.
      * by destruct (Hfresh h1).
      * by destruct (Hfresh h2).
  - intros c h' Hc _. split; [done|]. apply Hin. by left.
  - intros c (? & ? & Hno). split; [done|]. split_and!; [simpl; lia|done|].
    intros h' [?|[-> ->]]%Hin; [by eapply Hno|lia].
Qed.

Lemma subscribe_all_emits b w :
  broadcast_wf b w → emits [] b w (subscribe_all b w).1.2 (subscribe_all b w).2.
Proof.
  intros Hwf. exists []. rewrite app_nil_r. split_and!; [done| |simpl; lia|..].
  - split; simpl.
    + apply Forall_app. split; [|by repeat constructor]. eapply Forall_impl; [apply Hwf|]. simpl. lia.
    + intros h l Hl. destruct (bw_hash _ _ Hwf _ _ Hl) as [Hnd Hf]. split; [done|].
      eapply Forall_impl; [exact Hf|]. simpl. intros c [? ?]. split; [lia|].
      rewrite elem_of_app, list_elem_of_singleton. intros [?| ->]; [done|lia].
    + apply (bw_one _ _ Hwf).
  - done.
  - intros c (? & ? & Hno). split; [done|]. split_and!; [simpl; lia| |exact Hno].
    simpl. rewrite elem_of_app, list_elem_of_singleton. intros [?| ->]; [done|lia].
Qed.

Lemma call_emits k b w :
  broadcast_wf b w → ∃ b' w', call k (b, w) = (b', w') ∧ emits (events_of k) b w b' w'.
Proof.
  intros Hwf. destruct k as [h [tx|] | tx r | h | h peers | h | h bh | h | ]; simpl;
    try by apply broadcast_event_emits.
  - unfold ev_pending.
    destruct (broadcast_event_emits h EvPending (FullPending h) b w Hwf) as (b1 & w1 & -> & He).
    destruct (broadcast_event_emits (hash tx) (EvReplaced h) (FullReplaced tx h) b1 w1) as (b2 & w2 & Heq & He').
    { by destruct He as (? & _ & ? & _). }
    unfold ev_replaced. rewrite Heq. eexists _, _; split; [reflexivity|]. exact (emits_trans _ _ _ _ _ _ _ _ He He').
  - unfold ev_pending.
    destruct (broadcast_event_emits h EvPending (FullPending h) b w Hwf) as (b1 & w1 & -> & He). eauto.
  - destruct (subscribe_emits h b w Hwf). eauto.
  - pose proof (subscribe_all_emits b w Hwf). eauto.
Qed.

Lemma calls_emits ks b w :
  broadcast_wf b w → emits (ks ≫= events_of) b w (calls ks (b, w)).1 (calls ks (b, w)).2.
Proof.
  revert b w. induction ks as [|k ks IH]; intros b w Hwf; [by apply emits_refl|].
  destruct (call_emits k b w Hwf) as (b' & w' & Hk & He). change (calls (k :: ks) (b, w)) with (calls ks (call k (b, w))).
  rewrite Hk. eapply emits_trans; [exact He|]. apply IH. by destruct He as (? & _ & ? & _).
Qed.

Lemma default_wf w : broadcast_wf PoolEventBroadcast_default w.
Proof. split; [by constructor| |]; intros *; simpl; by rewrite lookup_empty. Qed.

(** A subscriber of a transaction sees its life exactly: whatever calls the
    broadcaster receives after the subscription, as long as the subscriber keeps its
    receiver, the messages it accepts are the events reported about that transaction,
    in order, up to and including the first final one, and nothing after that. *)
Theorem subscriber_sees_exactly h b w ks :
  broadcast_wf b w →
  let '(c, b1, w1) := subscribe h b w in
  ∃ att, log (calls ks (b1, w1)).2 = log w1 ++ att ∧
    (stays_open c att → received c att = until_final (about h (ks ≫= events_of))).
Proof.
  intros Hwf. destruct (subscribe_emits h b w Hwf) as [(? & _ & Hwf1 & _) Hc].
  destruct (subscribe h b w) as [[c b1] w1]. simpl in *.
  destruct (calls_emits ks b1 w1 Hwf1) as (att & Hl & _ & _ & Hin & _).
  exists att. split; [done|]. intros Ho. by apply Hin.
Qed.

(** Two subscribers, one of another transaction, over a run with a replacement. *)
Definition quiet_world : World := mkWorld (λ _, Sent) [] 0.
Lemma subscriber_sees_exactly_witness :
  let ks := [CallQueued 1; CallPending 2 None; CallPropagated 1 []; CallDiscarded 1; CallPending 1 None] in
  let '(c, b1, w1) := subscribe 1 PoolEventBroadcast_default quiet_world in
  ∃ att, log (calls ks (b1, w1)).2 = log w1 ++ att ∧
    received c att = [(1, EvQueued); (1, EvPropagated []); (1, EvDiscarded)].
Proof.
  pose proof (subscriber_sees_exactly 1 PoolEventBroadcast_default quiet_world
    [CallQueued 1; CallPending 2 None; CallPropagated 1 []; CallDiscarded 1; CallPending 1 None]
    (default_wf quiet_world)) as H.
  simpl in *. destruct H as (att & Hl & H). exists att. split; [done|]. apply H.
  vm_compute in Hl. subst att. repeat constructor.
Defined.
