(* ===== verification/BlobStore.v ===== *)
(** * Blob stores

    The interface of the stores for the sidecars of blob transactions
    ([blobstore/mod.rs]), the in-memory store ([blobstore/mem.rs]), the store that
    keeps nothing ([blobstore/noop.rs]), and the tracker of the blob transactions in
    blocks that are not final yet ([blobstore/tracker.rs]). *)

From stdpp Require Import prelude gmap list sorting.
From S2P Require Import Prelude.
From S2P Require Import Ord.

(** [BlobTransactionSidecar] is a type of the [alloy] library, represented by its
    identity; what the stores use of it is its size, a parameter below. *)
Definition Sidecar : Type := Z.

(** ** Interface *)
Inductive BlobStoreError := MissingSidecar (tx : Z) | DecodeError | BlobStoreOther.

Record BlobStoreCleanupStat := mkBlobStoreCleanupStat { delete_succeed : Z; delete_failed : Z }.
Definition BlobStoreCleanupStat_default : BlobStoreCleanupStat := mkBlobStoreCleanupStat 0 0.

(** [trait BlobStore]; [None] is the result [Ok(())]. *)
Class BlobStore (S : Type) := {
  bs_insert : Z → Sidecar → S → option BlobStoreError * S;
  bs_insert_all : list (Z * Sidecar) → S → option BlobStoreError * S;
  bs_delete : Z → S → option BlobStoreError * S;
  bs_delete_all : list Z → S → option BlobStoreError * S;
  bs_cleanup : S → BlobStoreCleanupStat * S;
  bs_get : Z → S → (BlobStoreError + option Sidecar) * S;
  bs_contains : Z → S → (BlobStoreError + bool) * S;
  bs_get_all : list Z → S → (BlobStoreError + list (Z * Sidecar)) * S;
  bs_get_exact : list Z → S → (BlobStoreError + list Sidecar) * S;
  bs_data_size_hint : S → option Z;
  bs_blobs_len : S → Z;
}.

(** What the transaction pool relies on: an insertion that succeeds can be read back,
    and neither an insertion nor a deletion touches other transactions. *)
Class BlobStoreLaws (S : Type) `{BlobStore S} := {
  bs_insert_get tx d s : (bs_insert tx d s).1 = None → (bs_get tx (bs_insert tx d s).2).1 = inr (Some d);
  bs_insert_other tx d s h : h ≠ tx → (bs_get h (bs_insert tx d s).2).1 = (bs_get h s).1;
  bs_delete_other tx s h : h ≠ tx → (bs_get h (bs_delete tx s).2).1 = (bs_get h s).1;
  bs_delete_all_other txs s h : h ∉ txs → (bs_get h (bs_delete_all txs s).2).1 = (bs_get h s).1;
}.

(** ** Size counters *)

(** [BlobStoreSize], two 64-bit atomics. *)
Record BlobStoreSize := mkBlobStoreSize { data_size : Z; num_blobs : Z }.
Definition add_size (n : Z) (t : BlobStoreSize) : BlobStoreSize :=
  mkBlobStoreSize (wrap_u64 (data_size t + n)) (num_blobs t).
Definition sub_size (n : Z) (t : BlobStoreSize) : BlobStoreSize :=
  mkBlobStoreSize (Z.max 0 (data_size t - n)) (num_blobs t).
Definition update_len (n : Z) (t : BlobStoreSize) : BlobStoreSize := mkBlobStoreSize (data_size t) n.
Definition inc_len (n : Z) (t : BlobStoreSize) : BlobStoreSize :=
  mkBlobStoreSize (data_size t) (wrap_u64 (num_blobs t + n)).
Definition sub_len (n : Z) (t : BlobStoreSize) : BlobStoreSize :=
  mkBlobStoreSize (data_size t) (Z.max 0 (num_blobs t - n)).

(** ** The in-memory store *)
Section memory.
Context (sidecar_size : Sidecar → Z).

Record InMemoryBlobStore := mkInMemoryBlobStore {
  store : gmap Z Sidecar;
  size_tracker : BlobStoreSize;
}.
Definition InMemoryBlobStore_default : InMemoryBlobStore := mkInMemoryBlobStore ∅ (mkBlobStoreSize 0 0).

(** [remove_size] and [insert_size]. *)
Definition remove_size (tx : Z) (m : gmap Z Sidecar) : Z * gmap Z Sidecar :=
  (default 0 (sidecar_size <$> m !! tx), delete tx m).
Definition insert_size (tx : Z) (blob : Sidecar) (m : gmap Z Sidecar) : Z * gmap Z Sidecar :=
  (sidecar_size blob, <[tx := blob]> m).

Definition mem_len (m : gmap Z Sidecar) : Z := Z.of_nat (size m).

Definition mem_insert (tx : Z) (data : Sidecar) (s : InMemoryBlobStore) : option BlobStoreError * InMemoryBlobStore :=
  let '(n, m) := insert_size tx data (store s) in
  (None, mkInMemoryBlobStore m (update_len (mem_len m) (add_size n (size_tracker s)))).

Definition mem_insert_all (txs : list (Z * Sidecar)) (s : InMemoryBlobStore)
  : option BlobStoreError * InMemoryBlobStore :=
  match txs with
  | [] => (None, s)
  | _ =>
    let '(total_add, m) :=
      foldl (λ acc e, let '(add, m) := insert_size e.1 e.2 acc.2 in (wrap_u64 (acc.1 + add), m)) (0, store s) txs in
    (None, mkInMemoryBlobStore m (update_len (mem_len m) (add_size total_add (size_tracker s))))
  end.

Definition mem_delete (tx : Z) (s : InMemoryBlobStore) : option BlobStoreError * InMemoryBlobStore :=
  let '(sub, m) := remove_size tx (store s) in
  (None, mkInMemoryBlobStore m (update_len (mem_len m) (sub_size sub (size_tracker s)))).

Definition mem_delete_all (txs : list Z) (s : InMemoryBlobStore) : option BlobStoreError * InMemoryBlobStore :=
  match txs with
  | [] => (None, s)
  | _ =>
    let '(total_sub, m) :=
      foldl (λ acc tx, let '(sub, m) := remove_size tx acc.2 in (wrap_u64 (acc.1 + sub), m)) (0, store s) txs in
    (None, mkInMemoryBlobStore m (update_len (mem_len m) (sub_size total_sub (size_tracker s))))
  end.

Definition mem_get_all (txs : list Z) (s : InMemoryBlobStore) : list (Z * Sidecar) :=
  omap (λ tx, (tx,.) <$> store s !! tx) txs.

Fixpoint mem_get_exact (txs : list Z) (s : InMemoryBlobStore) : BlobStoreError + list Sidecar :=
  match txs with
  | [] => inr []
  | tx :: txs' =>
    match store s !! tx with
    | None => inl (MissingSidecar tx)
    | Some item => match mem_get_exact txs' s with inl e => inl e | inr items => inr (item :: items) end
    end
  end.

Definition mem_blob_store : BlobStore InMemoryBlobStore := {|
  bs_insert := mem_insert;
  bs_insert_all := mem_insert_all;
  bs_delete := mem_delete;
  bs_delete_all := mem_delete_all;
  bs_cleanup := λ s, (BlobStoreCleanupStat_default, s);
  bs_get := λ tx s, (inr (store s !! tx), s);
  bs_contains := λ tx s, (inr (bool_decide (is_Some (store s !! tx))), s);
  bs_get_all := λ txs s, (inr (mem_get_all txs s), s);
  bs_get_exact := λ txs s, (mem_get_exact txs s, s);
  bs_data_size_hint := λ s, Some (data_size (size_tracker s));
  bs_blobs_len := λ s, num_blobs (size_tracker s);
|}.

(** The contents after a batch deletion, and the size it subtracts. *)
Lemma remove_fold txs n m :
  (∀ k v, m !! k = Some v → 0 ≤ sidecar_size v) → map_sum sidecar_size m + n < U64 → 0 ≤ n →
  let r := foldl (λ acc tx, let '(sub, m) := remove_size tx acc.2 in (wrap_u64 (acc.1 + sub), m)) (n, m) txs in
  r.2 = filter (λ e, e.1 ∉ txs) m ∧ r.1 + map_sum sidecar_size r.2 = n + map_sum sidecar_size m.
Proof.
  revert n m. induction txs as [|tx txs IH]; intros n m Hpos Hlt Hn; simpl.
  - split; [|lia]. symmetry. apply map_filter_id. set_solver.
  - assert (Hsplit : map_sum sidecar_size m =
      default 0 (sidecar_size <$> m !! tx) + map_sum sidecar_size (delete tx m)).
    { destruct (m !! tx) as [d|] eqn:E; simpl; [by apply map_sum_delete|]. by rewrite delete_id. }
    assert (Hpos' : ∀ k v, delete tx m !! k = Some v → 0 ≤ sidecar_size v).
    { intros k v [_ Hk]%lookup_delete_Some. by apply (Hpos k). }
    pose proof (map_sum_nonneg _ _ Hpos') as Hnn.
    assert (0 ≤ default 0 (sidecar_size <$> m !! tx)).
    { destruct (m !! tx) eqn:E; simpl; [by apply (Hpos tx)|lia]. }
    rewrite wrap_u64_id by (unfold is_u64; lia).
    destruct (IH (n + default 0 (sidecar_size <$> m !! tx)) (delete tx m)) as [H1 H2]; [done|lia|lia|].
    simpl in H1, H2. split; [|lia]. rewrite H1. apply map_eq. intros k. apply option_eq. intros v.
    rewrite !map_lookup_filter_Some, lookup_delete_Some. set_solver.
Qed.

(** The counters are exact. *)
Record mem_ok (s : InMemoryBlobStore) : Prop := {
  mo_pos k v : store s !! k = Some v → 0 ≤ sidecar_size v;
  mo_fits : map_sum sidecar_size (store s) < U64;
  mo_size : data_size (size_tracker s) = map_sum sidecar_size (store s);
  mo_len : num_blobs (size_tracker s) = mem_len (store s);
}.

Lemma mem_default_ok : mem_ok InMemoryBlobStore_default.
Proof. split; simpl; [intros ? ?; by rewrite lookup_empty|by rewrite map_sum_empty..|done]. Qed.

Lemma mem_insert_ok tx d s :
  mem_ok s → store s !! tx = None → 0 ≤ sidecar_size d → data_size (size_tracker s) + sidecar_size d < U64 →
  mem_ok (mem_insert tx d s).2.
Proof.
  intros [Hp Hf Hs Hl] Hn Hd Hlt. pose proof (map_sum_nonneg _ _ Hp).
  split; simpl; rewrite ?map_sum_insert by done; [|lia| |done].
  - intros k v [[-> ->]|[_ Hk]]%lookup_insert_Some; [done|by apply (Hp k)].
  - rewrite wrap_u64_id by (unfold is_u64; lia). lia.
Qed.

Lemma mem_delete_all_ok txs s :
  mem_ok s → mem_ok (mem_delete_all txs s).2 ∧ store (mem_delete_all txs s).2 = filter (λ e, e.1 ∉ txs) (store s).
Proof.
  intros [Hp Hf Hs Hl]. destruct txs as [|tx txs].
  { split; [by split|]. symmetry. apply map_filter_id. set_solver. }
  destruct (remove_fold (tx :: txs) 0 (store s)) as [Hm Hn]; [done|lia|done|]. unfold mem_delete_all.
  destruct (foldl _ _ _) as [total m]. simpl in *. subst m. split; [|done].
  assert (Hp' : ∀ k v, filter (λ e, e.1 ∉ tx :: txs) (store s) !! k = Some v → 0 ≤ sidecar_size v).
  { intros k v [Hk _]%map_lookup_filter_Some. by apply (Hp k). }
  pose proof (map_sum_nonneg _ _ Hp'). 
  pose proof (map_sum_subseteq sidecar_size (store s) _ (map_filter_subseteq (λ e, e.1 ∉ tx :: txs) _) Hp).
  split; simpl; [done| | |done]; unfold Sidecar in *; lia.
Qed.

Lemma mem_delete_one tx s : mem_ok s → mem_delete tx s = mem_delete_all [tx] s.
Proof.
  intros [Hp Hf _ _]. unfold mem_delete, mem_delete_all. simpl. rewrite wrap_u64_id; [done|].
  pose proof (map_sum_nonneg _ _ Hp). destruct (store s !! tx) as [d|] eqn:E; simpl; [|done].
  rewrite (map_sum_delete _ _ _ _ E) in Hf. assert (0 ≤ sidecar_size d) by by apply (Hp tx).
  assert (0 ≤ map_sum sidecar_size (delete tx (store s))); [|unfold is_u64; lia].
  apply map_sum_nonneg. intros k v [_ Hk]%lookup_delete_Some. by apply (Hp k).
Qed.

Lemma mem_get_exact_spec txs s :
  mem_get_exact txs s =
  match head (filter (λ tx, store s !! tx = None) txs) with
  | Some tx => inl (MissingSidecar tx)
  | None => inr (omap (λ tx, store s !! tx) txs)
  end.
Proof.
  induction txs as [|tx txs IH]; [done|]. simpl. rewrite filter_cons.
  destruct (store s !! tx) as [d|] eqn:E; simpl; [|done].
  rewrite IH. by destruct (head _).
Qed.

(** The in-memory store never miscounts as long as no sidecar is inserted twice:
    from exact counters, an insertion of a new transaction whose size still fits, a
    deletion and a batch deletion, with unknown or repeated hashes, lead to exact
    counters; deletions remove exactly the named sidecars; and an exact read returns
    the sidecars in the order of the request or names the first one missing. *)
Theorem mem_store_ok s :
  mem_ok s →
  (∀ tx d, store s !! tx = None → 0 ≤ sidecar_size d → data_size (size_tracker s) + sidecar_size d < U64 →
    mem_ok (mem_insert tx d s).2 ∧ store (mem_insert tx d s).2 = <[tx := d]> (store s)) ∧
  (∀ txs, mem_ok (mem_delete_all txs s).2 ∧
    store (mem_delete_all txs s).2 = filter (λ e, e.1 ∉ txs) (store s)) ∧
  (∀ tx, mem_ok (mem_delete tx s).2 ∧ store (mem_delete tx s).2 = delete tx (store s)) ∧
  (∀ txs, mem_get_exact txs s =
    match head (filter (λ tx, store s !! tx = None) txs) with
    | Some tx => inl (MissingSidecar tx)
    | None => inr (omap (λ tx, store s !! tx) txs)
    end).
Proof.
  intros Hok. split_and!.
  - intros. split; [by apply mem_insert_ok|done].
  - intros. by apply mem_delete_all_ok.
  - intros tx. split; [|done]. rewrite mem_delete_one by done. by apply mem_delete_all_ok.
  - intros. apply mem_get_exact_spec.
Qed.

#[export] Instance mem_laws : @BlobStoreLaws InMemoryBlobStore mem_blob_store.
Proof.
  assert (Hfold : ∀ txs n m h, h ∉ txs →
    (foldl (λ acc tx, let '(sub, m) := remove_size tx acc.2 in (wrap_u64 (acc.1 + sub), m)) (n, m) txs).2 !! h = m !! h).
  { induction txs as [|tx txs IH]; intros n m h Hh; [done|]. simpl. rewrite IH by set_solver.
    by rewrite lookup_delete_ne by set_solver. }
  split; simpl.
  - intros. by rewrite lookup_insert_eq.
  - intros. by rewrite lookup_insert_ne.
  - intros. by rewrite lookup_delete_ne.
  - intros [|tx txs] s h Hh; [done|]. unfold mem_delete_all.
    specialize (Hfold (tx :: txs) 0 (store s) h Hh). destruct (foldl _ _ _). simpl in *. congruence.
Qed.
End memory.

Lemma mem_store_ok_witness :
  let s := (mem_insert id 7 10 InMemoryBlobStore_default).2 in
  mem_ok id s ∧ data_size (size_tracker (mem_delete_all id [5; 7; 7] s).2) = 0.
Proof.
  assert (Hok : mem_ok id (mem_insert id 7 10 InMemoryBlobStore_default).2).
  { destruct (mem_store_ok id _ (mem_default_ok id)) as [Hi _]. by apply Hi. }
  split; [exact Hok|]. destruct (mem_store_ok id _ Hok) as (_ & Hd & _). destruct (Hd [5; 7; 7]) as [[_ _ -> _] ->].
  vm_compute. reflexivity.
Defined.

(** ** The store that keeps nothing *)
Definition noop_blob_store : BlobStore unit := {|
  bs_insert := λ _ _ s, (None, s);
  bs_insert_all := λ _ s, (None, s);
  bs_delete := λ _ s, (None, s);
  bs_delete_all := λ _ s, (None, s);
  bs_cleanup := λ s, (BlobStoreCleanupStat_default, s);
  bs_get := λ _ s, (inr None, s);
  bs_contains := λ _ s, (inr false, s);
  bs_get_all := λ _ s, (inr [], s);
  bs_get_exact := λ txs s, (match txs with [] => inr [] | tx :: _ => inl (MissingSidecar tx) end, s);
  bs_data_size_hint := λ _, Some 0;
  bs_blobs_len := λ _, 0;
|}.

(** ** Blob transactions of blocks that are not final *)

(** [BlobStoreCanonTracker]. *)
Notation BlobStoreCanonTracker := (gmap Z (list Z)).
Definition add_block (block_number : Z) (blob_txs : list Z) (t : BlobStoreCanonTracker) : BlobStoreCanonTracker :=
  <[block_number := blob_txs]> t.
Definition add_blocks (blocks : list (Z * list Z)) (t : BlobStoreCanonTracker) : BlobStoreCanonTracker :=
  foldl (λ t e, add_block e.1 e.2 t) t blocks.

Inductive BlobStoreUpdates := BlobUpdatesNone | Finalized (txs : list Z).

(** The [while] loop of [on_finalized_block] over [first_entry]. *)
Fixpoint finalize_loop (fuel : nat) (finalized_block : Z) (finalized : list Z) (t : BlobStoreCanonTracker)
  : outcome (list Z * BlobStoreCanonTracker) :=
  match bmap_iter t with
  | (k, txs) :: _ =>
    if k <=? finalized_block then
      match fuel with
      | O => NoFuel
      | S fuel' => finalize_loop fuel' finalized_block (finalized ++ txs) (delete k t)
      end
    else Done (finalized, t)
  | [] => Done (finalized, t)
  end.

(** [BlobStoreCanonTracker::on_finalized_block]; every round removes a block. *)
Definition on_finalized_block (finalized_block : Z) (t : BlobStoreCanonTracker)
  : outcome (BlobStoreUpdates * BlobStoreCanonTracker) :=
  '(finalized, t) ← finalize_loop (size t) finalized_block [] t;
  Done (match finalized with [] => BlobUpdatesNone | _ => Finalized finalized end, t).

(** The transactions of the blocks up to the finalized one, block after block. *)
Definition finalized_txs (finalized_block : Z) (t : BlobStoreCanonTracker) : list Z :=
  (filter (λ e, e.1 ≤ finalized_block) (bmap_iter t)).*2 ≫= id.

Lemma finalize_loop_spec fuel fin acc (t : gmap Z (list Z)) :
  (size t ≤ fuel)%nat →
  finalize_loop fuel fin acc t = Done (acc ++ finalized_txs fin t, filter (λ e, fin < e.1) t).
Proof.
  revert acc t. induction fuel as [|fuel IH]; intros acc t Hf; simpl; unfold finalized_txs.
  - assert (t = ∅) as -> by (apply map_size_empty_iff; lia). by rewrite map_filter_empty, app_nil_r.
  - destruct (bmap_iter t) as [|[k txs] l] eqn:E.
    + assert (t = ∅) as ->. { apply map_size_empty_iff. by rewrite <-bmap_iter_length, E. }
      by rewrite map_filter_empty, app_nil_r.
    + assert (Hk : t !! k = Some txs) by (apply elem_of_bmap_iter; rewrite E; by left).
      rewrite filter_cons. simpl. destruct (Z.leb_spec k fin) as [Hle|Hgt].
      * rewrite decide_True by done. simpl. rewrite IH.
        2: { rewrite map_size_delete_Some by done. lia. }
        unfold finalized_txs. rewrite (bmap_iter_delete_head _ _ _ _ E), (assoc_L (++)). do 2 f_equal.
        apply map_eq. intros j. apply option_eq. intros v.
        rewrite !map_lookup_filter_Some, lookup_delete_Some. simpl.
        split; [intros [[? ?] ?]; auto|intros [? ?]; split; [split; [lia|done]|done]].
      * rewrite decide_False by lia. pose proof (bmap_iter_sorted t) as Hs. rewrite E in Hs.
        apply StronglySorted_inv in Hs as [_ Hall]. rewrite Forall_forall in Hall.
        assert (Hl : filter (λ e, e.1 ≤ fin) l = []).
        { apply elem_of_nil_inv. intros e [Hfin He]%list_elem_of_filter. specialize (Hall e He).
          unfold key_lt, cmp, Z_cmp in Hall. simpl in Hall. rewrite Z.compare_lt_iff in Hall. lia. }
        rewrite Hl, app_nil_r. f_equal. f_equal. symmetry. apply map_filter_id. intros j v Hj. simpl.
        apply elem_of_bmap_iter in Hj. rewrite E in Hj. apply elem_of_cons in Hj as [?|Hj]; [by simplify_eq|].
        specialize (Hall _ Hj). unfold key_lt, cmp, Z_cmp in Hall. simpl in Hall. rewrite Z.compare_lt_iff in Hall. lia.
Qed.

(** When a block is finalized, the tracker returns the blob transactions of exactly
    the blocks up to it, in the order of the blocks, each block once, and forgets
    exactly these blocks; it reports nothing to do exactly if there are no such
    transactions. *)
Theorem on_finalized_block_ok fin t :
  on_finalized_block fin t =
    Done (match finalized_txs fin t with [] => BlobUpdatesNone | l => Finalized l end,
          filter (λ e, fin < e.1) t).
Proof. unfold on_finalized_block. rewrite finalize_loop_spec by done. simpl. by destruct (finalized_txs fin t). Qed.
