(* ===== verification/Compact.v ===== *)
(** * The Compact codec

    [storage/codecs/src/lib.rs]: the trait [Compact] and its implementations for integers,
    byte arrays, options and vectors, and the variable-length integers in front of the
    elements of a vector.

    A buffer is the list of its bytes.  [to_compact] appends to the buffer it is given, so
    it is the function that returns the appended bytes and the returned length;
    [from_compact] returns the value and the rest of the buffer, and panics where the code
    indexes out of range.  Since integers of every width, hashes and addresses are numbers
    here, an implementation of the trait is a record that is passed explicitly. *)

From stdpp Require Import prelude list.
From S2P Require Import Prelude.

(** ** The trait *)
Record Compact (A : Type) := mkCompact {
  to_compact : A → list Z * Z;
  from_compact : list Z → Z → outcome (A * list Z);
  specialized_to_compact : A → list Z * Z;
  specialized_from_compact : list Z → Z → outcome (A * list Z);
}.
Arguments mkCompact {A} _ _ _ _.
Arguments to_compact {A} _ _ : simpl never.
Arguments from_compact {A} _ _ _ : simpl never.
Arguments specialized_to_compact {A} _ _ : simpl never.
Arguments specialized_from_compact {A} _ _ _ : simpl never.

(** The default methods. *)
Definition plain {A} (to : A → list Z * Z) (from : list Z → Z → outcome (A * list Z)) : Compact A :=
  mkCompact to from to from.

Lemma to_plain {A} to (from : list Z → Z → outcome (A * list Z)) x : to_compact (plain to from) x = to x.
Proof. done. Qed.
Lemma from_plain {A} to (from : list Z → Z → outcome (A * list Z)) buf n : from_compact (plain to from) buf n = from buf n.
Proof. done. Qed.

(** The specialised methods of an implementation, as the derived code calls them. *)
Definition specialized {A} (C : Compact A) : Compact A :=
  plain (specialized_to_compact C) (specialized_from_compact C).

Notation blen l := (Z.of_nat (length l)) (only parsing).

(** [&buf[..n]] with [buf.advance(n)], and [buf.get_u8()]. *)
Definition take_bytes (n : Z) (buf : list Z) : outcome (list Z * list Z) :=
  if n <=? blen buf then Done (take (Z.to_nat n) buf, drop (Z.to_nat n) buf) else Panics.
Definition get_u8 (buf : list Z) : outcome (Z * list Z) :=
  match buf with [] => Panics | b :: buf => Done (b, buf) end.

(** ** Bytes of a number *)
Fixpoint to_be_bytes (size : nat) (x : Z) : list Z :=
  match size with O => [] | S n => to_be_bytes n (Z.shiftr x 8) ++ [Z.land x 255] end.
Definition from_be_bytes (l : list Z) : Z := foldl (λ acc b, Z.lor (Z.shiftl acc 8) b) 0 l.
Definition to_le_bytes (size : nat) (x : Z) : list Z := reverse (to_be_bytes size x).
Definition from_le_bytes (l : list Z) : Z := from_be_bytes (reverse l).

(** [leading_zeros] of an integer of [size] bytes. *)
Definition leading_zeros (size : nat) (x : Z) : Z :=
  8 * Z.of_nat size - (if x =? 0 then 0 else Z.log2 x + 1).

(** ** Variable-length integers *)
Fixpoint encode_loop (fuel : nat) (n : Z) : list Z :=
  match fuel with
  | O => [Z.land n 255]
  | S fuel =>
    if 0x80 <=? n then Z.lor (Z.land n 255) 0x80 :: encode_loop fuel (Z.shiftr n 7) else [Z.land n 255]
  end.
(** The loop divides [n] by 128 until it is below 128: the logarithm of [n] bounds it. *)
Definition encode_varuint (n : Z) : list Z := encode_loop (Z.to_nat (Z.log2 n)) n.

(** A shift by 64 bits or more shifts by the remainder, in the release profile. *)
Fixpoint decode_loop (i : Z) (value : Z) (buf : list Z) : outcome (Z * list Z) :=
  if i =? 33 then Panics else
  match buf with
  | [] => Panics
  | byte :: buf =>
    let value := Z.lor value (wrap_u64 (Z.shiftl (Z.land byte 0x7F) (Z.land (i * 7) 63))) in
    if byte <? 0x80 then Done (value, buf) else decode_loop (i + 1) value buf
  end.
Definition decode_varuint (buf : list Z) : outcome (Z * list Z) := decode_loop 0 0 buf.

(** ** Implementations *)

(** [impl_uint_compact!]: [u8], [u64] and [u128]. *)
Definition uint_compact (size : nat) : Compact Z :=
  plain
    (λ x, let leading := leading_zeros size x / 8 in
          (drop (Z.to_nat leading) (to_be_bytes size x), Z.of_nat size - leading))
    (λ buf len,
       if len =? 0 then Done (0, buf) else
       if Z.of_nat size <? len then Panics else
       '(bytes, buf) ← take_bytes len buf;
       Done (from_be_bytes (replicate (size - Z.to_nat len) 0 ++ bytes), buf)).

Definition u256_compact : Compact Z :=
  plain
    (λ x, let size := 32 - leading_zeros 32 x / 8 in
          (drop (Z.to_nat (32 - size)) (to_be_bytes 32 x), size))
    (λ buf len,
       if len =? 0 then Done (0, buf) else
       if 32 <? len then Panics else
       '(bytes, buf) ← take_bytes len buf;
       Done (from_be_bytes (replicate (Z.to_nat (32 - len)) 0 ++ bytes), buf)).

(** [CompactPlaceholder]. *)
Definition placeholder_compact : Compact unit := plain (λ _, ([], 0)) (λ buf _, Done (tt, buf)).

(** [Bytes]. *)
Definition bytes_compact : Compact (list Z) := plain (λ l, (l, blen l)) (λ buf len, take_bytes len buf).

(** [[u8; N]], with the wrappers [Address], [Bloom] and [FixedBytes]: the number that the
    bytes spell. *)
Definition fixed_compact (N : nat) : Compact Z :=
  plain
    (λ x, (to_be_bytes N x, Z.of_nat N))
    (λ buf len,
       if len =? 0 then Done (0, buf) else
       '(v, buf) ← take_bytes (Z.of_nat N) buf;
       Done (from_be_bytes v, buf)).

Definition bool_compact : Compact bool := plain (λ b, ([], Z.b2z b)) (λ buf len, Done (negb (len =? 0), buf)).

Section containers.
Context {A : Type} (C : Compact A).

Fixpoint vec_loop (n : nat) (buf : list Z) : outcome (list A * list Z) :=
  match n with
  | O => Done ([], buf)
  | S n =>
    '(len, buf) ← decode_varuint buf;
    '(bytes, buf) ← take_bytes len buf;
    '(element, _) ← from_compact C bytes len;
    '(l, buf) ← vec_loop n buf;
    Done (element :: l, buf)
  end.
Fixpoint vec_specialized_loop (n : nat) (len : Z) (buf : list Z) : outcome (list A * list Z) :=
  match n with
  | O => Done ([], buf)
  | S n =>
    '(element, buf) ← from_compact C buf len;
    '(l, buf) ← vec_specialized_loop n len buf;
    Done (element :: l, buf)
  end.
Definition vec_element (x : A) : list Z :=
  let '(tmp, length) := to_compact C x in encode_varuint length ++ tmp.

(** [Vec<T>]. *)
Definition vec_compact : Compact (list A) :=
  mkCompact
    (λ l, (encode_varuint (blen l) ++ (l ≫= vec_element), 0))
    (λ buf _, '(length, buf) ← decode_varuint buf; vec_loop (Z.to_nat length) buf)
    (λ l, (encode_varuint (blen l) ++ (l ≫= λ x, (to_compact C x).1), 0))
    (λ buf len, '(length, buf) ← decode_varuint buf; vec_specialized_loop (Z.to_nat length) len buf).

(** [Option<T>]. *)
Definition option_compact : Compact (option A) :=
  mkCompact
    (λ o, match o with
          | None => ([], 0)
          | Some element => let '(tmp, length) := to_compact C element in (encode_varuint length ++ tmp, 1)
          end)
    (λ buf len,
       if len =? 0 then Done (None, buf) else
       '(len, buf) ← decode_varuint buf;
       '(bytes, buf) ← take_bytes len buf;
       '(element, _) ← from_compact C bytes len;
       Done (Some element, buf))
    (λ o, match o with None => ([], 0) | Some element => ((to_compact C element).1, 1) end)
    (λ buf len,
       if len =? 0 then Done (None, buf) else
       '(element, buf) ← from_compact C buf len;
       Done (Some element, buf)).
End containers.

(** ** Laws

    What the callers of [from_compact] rely on.  A type whose length is kept in the flags of
    its struct is decoded with the length that [to_compact] returned ([RoundTrips]); a type
    that knows its own end is decoded with any length but 0 ([SelfDelimiting]); the last
    field, and an element behind its length, are decoded from exactly their bytes
    ([Trailing]); and the element of a vector or option must return the number of bytes it
    wrote ([Measured]). *)
Section laws.
Context {A : Type} (C : Compact A) (ok : A → Prop).

Class RoundTrips : Prop :=
  round_trips : ∀ x rest, ok x → from_compact C ((to_compact C x).1 ++ rest) (to_compact C x).2 = Done (x, rest).
Class SelfDelimiting : Prop :=
  self_delimiting : ∀ x rest n, ok x → 0 < n → from_compact C ((to_compact C x).1 ++ rest) n = Done (x, rest).
Class Trailing : Prop :=
  trailing : ∀ x, ok x → ∃ rest, from_compact C (to_compact C x).1 (blen (to_compact C x).1) = Done (x, rest).
Class Measured : Prop := measured : ∀ x, ok x → (to_compact C x).2 = blen (to_compact C x).1.
Class NonEmpty : Prop := non_empty : ∀ x, ok x → 0 < blen (to_compact C x).1.

(** The values a container may hold: their encoding fits into the address space. *)
Definition sized_ok (x : A) : Prop := ok x ∧ blen (to_compact C x).1 < U64.

Lemma round_trips_trailing : RoundTrips → Measured → Trailing.
Proof.
  intros HR HM x Hx. exists []. specialize (HR x [] Hx). rewrite app_nil_r, (HM x Hx) in HR. done.
Qed.

Lemma self_delimiting_trailing : SelfDelimiting → NonEmpty → Trailing.
Proof.
  intros HS HN x Hx. exists []. specialize (HS x [] _ Hx (HN x Hx)). by rewrite app_nil_r in HS.
Qed.
End laws.

(** *** Bytes of a number *)
Lemma to_be_bytes_length size x : length (to_be_bytes size x) = size.
Proof. revert x; induction size as [|n IH]; intros x; simpl; [done|]. rewrite length_app, IH. simpl. lia. Qed.

Lemma from_be_bytes_snoc l b : from_be_bytes (l ++ [b]) = Z.lor (Z.shiftl (from_be_bytes l) 8) b.
Proof. unfold from_be_bytes. by rewrite foldl_app. Qed.

Lemma bytes_split k x : 0 ≤ k → Z.lor (Z.shiftl (Z.shiftr x k) k) (Z.land x (Z.ones k)) = x.
Proof.
  intros Hk. apply Z.bits_inj'. intros i Hi. rewrite Z.lor_spec, Z.shiftl_spec, Z.land_spec by done.
  destruct (Z.lt_ge_cases i k).
  - rewrite Z.testbit_neg_r, Z.ones_spec_low, andb_true_r by lia. done.
  - rewrite Z.shiftr_spec, Z.ones_spec_high by lia.
    rewrite andb_false_r, orb_false_r. f_equal. lia.
Qed.

Lemma from_to_be_bytes size x : 0 ≤ x < 2 ^ (8 * Z.of_nat size) → from_be_bytes (to_be_bytes size x) = x.
Proof.
  revert x; induction size as [|n IH]; intros x Hx; simpl.
  { change (2 ^ (8 * Z.of_nat 0)) with 1 in Hx. unfold from_be_bytes. simpl. lia. }
  rewrite from_be_bytes_snoc, IH.
  - exact (bytes_split 8 x ltac:(done)).
  - rewrite Z.shiftr_div_pow2 by done. split; [apply Z.div_pos; lia|].
    apply Z.div_lt_upper_bound; [done|]. rewrite <-Z.pow_add_r by lia.
    replace (8 + 8 * Z.of_nat n) with (8 * Z.of_nat (S n)) by lia. lia.
Qed.

Lemma from_to_le_bytes size x : 0 ≤ x < 2 ^ (8 * Z.of_nat size) → from_le_bytes (to_le_bytes size x) = x.
Proof. unfold from_le_bytes, to_le_bytes. rewrite reverse_involutive. apply from_to_be_bytes. Qed.

Lemma to_le_bytes_length size x : length (to_le_bytes size x) = size.
Proof. unfold to_le_bytes. by rewrite length_reverse, to_be_bytes_length. Qed.

(** A number that fits into [m] bytes has zeros in front of them. *)
Lemma to_be_bytes_zero n : to_be_bytes n 0 = replicate n 0.
Proof.
  induction n as [|n IH]; [done|]. simpl to_be_bytes. change (Z.shiftr 0 8) with 0. rewrite IH.
  change (Z.land 0 255) with 0. rewrite <-replicate_cons_app. done.
Qed.

Lemma to_be_bytes_pad size m x :
  0 ≤ x < 2 ^ (8 * Z.of_nat m) → (m ≤ size)%nat →
  to_be_bytes size x = replicate (size - m) 0 ++ to_be_bytes m x.
Proof.
  revert x m; induction size as [|n IH]; intros x m Hx Hm.
  { replace m with 0%nat by lia. done. }
  destruct m as [|m].
  - assert (x = 0) as -> by (change (2 ^ (8 * Z.of_nat 0)) with 1 in Hx; lia).
    by rewrite to_be_bytes_zero, Nat.sub_0_r, app_nil_r.
  - simpl. rewrite (IH _ m); [by rewrite app_assoc| |lia].
    rewrite Z.shiftr_div_pow2 by done. split; [apply Z.div_pos; lia|].
    apply Z.div_lt_upper_bound; [done|]. rewrite <-Z.pow_add_r by lia.
    replace (8 + 8 * Z.of_nat m) with (8 * Z.of_nat (S m)) by lia. lia.
Qed.

#[global] Arguments to_be_bytes : simpl never.

Lemma take_bytes_app l rest : take_bytes (blen l) (l ++ rest) = Done (l, rest).
Proof.
  unfold take_bytes. rewrite length_app, (proj2 (Z.leb_le _ _)) by lia.
  by rewrite Nat2Z.id, take_app_length, drop_app_length.
Qed.

Lemma take_bytes_app_eq n l rest : n = blen l → take_bytes n (l ++ rest) = Done (l, rest).
Proof. intros ->. apply take_bytes_app. Qed.

(** *** Variable-length integers *)
Lemma encode_loop_spec fuel n :
  0 ≤ n → Z.log2 n ≤ Z.of_nat fuel →
  encode_loop fuel n =
    (if 0x80 <=? n then Z.lor (Z.land n 255) 0x80 :: encode_varuint (Z.shiftr n 7) else [Z.land n 255]).
Proof.
  revert n. induction fuel as [fuel IH] using (well_founded_induction lt_wf); intros n Hn Hf.
  assert (0x80 ≤ n → 7 ≤ Z.log2 n) as H7 by (intros; change 7 with (Z.log2 128); by apply Z.log2_le_mono).
  destruct (Z.leb_spec 0x80 n) as [Hb|Hb]; cycle 1.
  { destruct fuel; simpl; [done|]. destruct (Z.leb_spec 0x80 n); [lia|done]. }
  destruct fuel as [|fuel]; [lia|]. simpl. destruct (Z.leb_spec 0x80 n); [|lia]. f_equal.
  assert (Hs : 0 ≤ Z.shiftr n 7) by by apply Z.shiftr_nonneg.
  assert (Hl : Z.log2 (Z.shiftr n 7) = Z.log2 n - 7) by (rewrite Z.log2_shiftr; lia).
  unfold encode_varuint. rewrite (IH fuel), (IH (Z.to_nat (Z.log2 (Z.shiftr n 7)))) by lia. done.
Qed.

(** The loop of the code, unrolled once. *)
Lemma encode_varuint_step n :
  0 ≤ n →
  encode_varuint n =
    (if 0x80 <=? n then Z.lor (Z.land n 255) 0x80 :: encode_varuint (Z.shiftr n 7) else [Z.land n 255]).
Proof. intros. apply encode_loop_spec; [done|]. pose proof (Z.log2_nonneg n). lia. Qed.

Lemma testbit_lt n k : 0 ≤ k → 0 ≤ n → Z.testbit n k = true → 2 ^ k ≤ n.
Proof.
  intros. apply Z.nlt_ge. intros Hlt. destruct (decide (n = 0)) as [->|]; [by rewrite Z.bits_0 in *|].
  rewrite Z.bits_above_log2 in *; try done; try lia. apply Z.log2_lt_pow2; lia.
Qed.

Lemma more_byte n : (Z.lor (Z.land n 255) 0x80 <? 0x80) = false ∧ Z.land (Z.lor (Z.land n 255) 0x80) 0x7F = Z.land n 0x7F.
Proof.
  split.
  - apply Z.ltb_ge, (testbit_lt _ 7); [done| |by rewrite Z.lor_spec, orb_true_r].
    apply Z.lor_nonneg; split; [apply Z.land_nonneg; by right|done].
  - rewrite Z.land_lor_distr_l, <-Z.land_assoc. change (Z.land 0x80 0x7F) with 0. by rewrite Z.lor_0_r.
Qed.

Lemma last_byte n : 0 ≤ n < 0x80 → Z.land n 255 = n ∧ Z.land n 0x7F = n.
Proof.
  intros Hn. change 255 with (Z.ones 8). change 0x7F with (Z.ones 7). rewrite !Z.land_ones by done.
  rewrite !Z.mod_small; [done|lia|]. change (2 ^ 8) with 256. lia.
Qed.

Lemma decode_loop_spec i n value rest :
  0 ≤ i ≤ 9 → 0 ≤ n < 2 ^ (64 - 7 * i) →
  decode_loop i value (encode_varuint n ++ rest) = Done (Z.lor value (Z.shiftl n (7 * i)), rest).
Proof.
  intros Hi. remember (Z.to_nat (9 - i)) as k eqn:Hk. revert i n value Hi Hk.
  induction k as [k IH] using (well_founded_induction lt_wf); intros i n value Hi Hk Hn.
  assert (Hm : Z.land (i * 7) 63 = 7 * i).
  { change 63 with (Z.ones 6). rewrite Z.land_ones, Z.mod_small by (change (2 ^ 6) with 64; lia). lia. }
  assert (Hw : ∀ m, 0 ≤ m ≤ n → wrap_u64 (Z.shiftl m (7 * i)) = Z.shiftl m (7 * i)).
  { intros m Hmn. apply wrap_u64_id. unfold is_u64. rewrite Z.shiftl_mul_pow2 by lia. split; [nia|].
    change U64 with (2 ^ 64). replace 64 with (64 - 7 * i + 7 * i) at 1 by lia. rewrite Z.pow_add_r by lia.
    apply Z.mul_lt_mono_pos_r; [apply Z.pow_pos_nonneg; lia|lia]. }
  rewrite encode_varuint_step by lia. destruct (Z.leb_spec 0x80 n) as [Hb|Hb].
  - assert (Hi9 : i < 9).
    { destruct (decide (i = 9)) as [->|]; [|lia]. change (2 ^ (64 - 7 * 9)) with 2 in Hn. lia. }
    assert (Hl : 0 ≤ Z.land n 0x7F ≤ n).
    { change 0x7F with (Z.ones 7). rewrite Z.land_ones by done. split; [by apply Z.mod_pos_bound|].
      apply Z.mod_le; [lia|done]. }
    destruct (more_byte n) as [H1 H2]. simpl decode_loop. rewrite (proj2 (Z.eqb_neq i 33)), H1, H2, Hm, Hw by lia.
    rewrite (IH (Z.to_nat (9 - (i + 1)))); [|lia|lia|done|].
    + f_equal. f_equal. rewrite <-Z.lor_assoc. f_equal. rewrite <-(bytes_split 7 n) at 3 by done.
      rewrite Z.shiftl_lor, Z.shiftl_shiftl, Z.lor_comm by lia. do 2 f_equal; lia.
    + rewrite Z.shiftr_div_pow2 by done. split; [apply Z.div_pos; lia|]. apply Z.div_lt_upper_bound; [done|].
      rewrite <-Z.pow_add_r by lia. replace (7 + (64 - 7 * (i + 1))) with (64 - 7 * i) by lia. apply Hn.
  - destruct (last_byte n) as [H1 H2]; [lia|]. simpl decode_loop.
    rewrite (proj2 (Z.eqb_neq i 33)), H1, H2, Hm, Hw, (proj2 (Z.ltb_lt _ _)) by lia. done.
Qed.

Lemma decode_encode n rest : is_u64 n → decode_varuint (encode_varuint n ++ rest) = Done (n, rest).
Proof. intros Hn. unfold decode_varuint. by rewrite decode_loop_spec, Z.shiftl_0_r, Z.lor_0_l. Qed.

Lemma encode_varuint_pos n : 0 < blen (encode_varuint n).
Proof. unfold encode_varuint. destruct (Z.to_nat (Z.log2 n)); simpl; [|case_match]; simpl; lia. Qed.

Lemma encode_varuint_length k n : 0 ≤ n < 2 ^ (7 * Z.of_nat (S k)) → (length (encode_varuint n) ≤ S k)%nat.
Proof.
  revert n. induction k as [|k IH]; intros n Hn; rewrite encode_varuint_step by lia.
  - change (2 ^ (7 * Z.of_nat 1)) with 128 in Hn. destruct (Z.leb_spec 0x80 n); simpl; lia.
  - destruct (Z.leb_spec 0x80 n); simpl; [|lia]. apply le_n_S, IH.
    rewrite Z.shiftr_div_pow2 by done. split; [apply Z.div_pos; lia|]. apply Z.div_lt_upper_bound; [done|].
    rewrite <-Z.pow_add_r by lia. replace (7 + 7 * Z.of_nat (S k)) with (7 * Z.of_nat (S (S k))) by lia. lia.
Qed.

#[global] Arguments encode_varuint : simpl never.
#[global] Arguments decode_varuint : simpl never.

(** *** Instances *)
Definition uint_ok (size : nat) (x : Z) : Prop := 0 ≤ x < 2 ^ (8 * Z.of_nat size).
Definition is_byte (b : Z) : Prop := 0 ≤ b < 256.
Definition bytes_ok (l : list Z) : Prop := Forall is_byte l ∧ blen l < U64.
Definition option_ok {A} (ok : A → Prop) (o : option A) : Prop := match o with None => True | Some x => ok x end.
Definition vec_ok {A} (ok : A → Prop) (l : list A) : Prop := blen l < U64 ∧ Forall ok l.

(** How many bytes the number needs. *)
Lemma leading_bytes size x :
  uint_ok size x → let leading := leading_zeros size x / 8 in
  0 ≤ leading ≤ Z.of_nat size ∧ x < 2 ^ (8 * (Z.of_nat size - leading)).
Proof.
  intros [H0 Hx]. simpl. unfold leading_zeros.
  assert (Hbits : 0 ≤ (if x =? 0 then 0 else Z.log2 x + 1) ≤ 8 * Z.of_nat size ∧
                  x < 2 ^ (if x =? 0 then 0 else Z.log2 x + 1)).
  { destruct (Z.eqb_spec x 0) as [->|Hn]; [split; [lia|done]|].
    pose proof (Z.log2_nonneg x). pose proof (Z.log2_spec x ltac:(lia)).
    assert (Z.log2 x < 8 * Z.of_nat size) by (apply Z.log2_lt_pow2; lia).
    rewrite <-Z.add_1_r in *. lia. }
  destruct Hbits as [Hb Hlt]. set (bits := if x =? 0 then 0 else Z.log2 x + 1) in *.
  assert (Hdiv : 8 * ((8 * Z.of_nat size - bits) / 8) ≤ 8 * Z.of_nat size - bits) by (apply Z.mul_div_le; lia).
  assert (0 ≤ (8 * Z.of_nat size - bits) / 8) by (apply Z.div_pos; lia).
  split; [lia|]. eapply Z.lt_le_trans; [exact Hlt|]. apply Z.pow_le_mono_r; lia.
Qed.

Lemma uint_to_compact size x :
  uint_ok size x → ∃ m, (m ≤ size)%nat ∧ 0 ≤ x < 2 ^ (8 * Z.of_nat m) ∧
    to_compact (uint_compact size) x = (to_be_bytes m x, Z.of_nat m).
Proof.
  intros Hx. destruct (leading_bytes size x Hx) as [Hl Hlt]. destruct Hx as [H0 _].
  set (leading := leading_zeros size x / 8) in *. exists (size - Z.to_nat leading)%nat.
  assert (Hm : 0 ≤ x < 2 ^ (8 * Z.of_nat (size - Z.to_nat leading))).
  { split; [done|]. replace (Z.of_nat (size - Z.to_nat leading)) with (Z.of_nat size - leading) by lia. done. }
  split; [lia|]. split; [done|]. unfold uint_compact, to_compact. simpl. fold leading.
  rewrite (to_be_bytes_pad size _ x Hm) by lia. f_equal; [|lia].
  apply drop_app_length'. rewrite length_replicate. lia.
Qed.

#[export] Instance uint_round_trips size : RoundTrips (uint_compact size) (uint_ok size).
Proof.
  intros x rest Hx. destruct (uint_to_compact size x Hx) as (m & Hm & Hlt & ->). simpl.
  unfold from_compact. simpl. destruct (Z.eqb_spec (Z.of_nat m) 0) as [Hz|Hz].
  { assert (m = 0%nat) as -> by lia. change (2 ^ (8 * Z.of_nat 0)) with 1 in Hlt. simpl. do 2 f_equal. lia. }
  rewrite (proj2 (Z.ltb_ge _ _)) by lia.
  rewrite (take_bytes_app_eq _ (to_be_bytes m x)) by by rewrite to_be_bytes_length. simpl.
  rewrite Nat2Z.id, <-to_be_bytes_pad, from_to_be_bytes by done. done.
Qed.

#[export] Instance uint_measured size : Measured (uint_compact size) (uint_ok size).
Proof.
  intros x Hx. destruct (uint_to_compact size x Hx) as (m & Hm & Hlt & ->). simpl. by rewrite to_be_bytes_length.
Qed.

Lemma uint_length_le size x : uint_ok size x → 0 ≤ (to_compact (uint_compact size) x).2 ≤ Z.of_nat size.
Proof. intros Hx. destruct (uint_to_compact size x Hx) as (m & Hm & _ & ->). simpl. lia. Qed.

(** [U256] is written like the other integers. *)
Lemma u256_to_compact x : to_compact u256_compact x = to_compact (uint_compact 32) x.
Proof. unfold to_compact, u256_compact, uint_compact. simpl. f_equal. f_equal. lia. Qed.

Lemma u256_from_compact buf len :
  0 ≤ len → from_compact u256_compact buf len = from_compact (uint_compact 32) buf len.
Proof.
  intros Hl. unfold from_compact, u256_compact, uint_compact, plain.
  by replace (Z.to_nat (32 - len)) with (32 - Z.to_nat len)%nat by lia.
Qed.

#[export] Instance u256_round_trips : RoundTrips u256_compact (uint_ok 32).
Proof.
  intros x rest Hx. rewrite u256_to_compact, u256_from_compact by by apply uint_length_le.
  by apply uint_round_trips.
Qed.

#[export] Instance u256_measured : Measured u256_compact (uint_ok 32).
Proof. intros x Hx. rewrite !u256_to_compact. by apply uint_measured. Qed.

#[export] Instance bytes_round_trips : RoundTrips bytes_compact bytes_ok.
Proof. intros l rest Hl. apply take_bytes_app. Qed.
#[export] Instance bytes_measured : Measured bytes_compact bytes_ok.
Proof. done. Qed.

#[export] Instance bool_round_trips : RoundTrips bool_compact (λ _, True).
Proof. by intros [] rest _. Qed.

#[export] Instance placeholder_self_delimiting : SelfDelimiting placeholder_compact (λ _, True).
Proof. by intros []. Qed.

#[export] Instance fixed_self_delimiting N : SelfDelimiting (fixed_compact N) (uint_ok N).
Proof.
  intros x rest n Hx Hn. unfold from_compact, to_compact. simpl. rewrite (proj2 (Z.eqb_neq n 0)) by lia.
  rewrite (take_bytes_app_eq _ (to_be_bytes N x)) by by rewrite to_be_bytes_length. simpl.
  by rewrite from_to_be_bytes.
Qed.
#[export] Instance fixed_measured N : Measured (fixed_compact N) (uint_ok N).
Proof. intros x _. unfold to_compact. simpl. by rewrite to_be_bytes_length. Qed.
#[export] Instance fixed_non_empty N : NonEmpty (fixed_compact (S N)) (uint_ok (S N)).
Proof. intros x _. unfold to_compact. simpl fst. rewrite to_be_bytes_length. lia. Qed.

Section container_laws.
Context {A : Type} (C : Compact A) (ok : A → Prop).

(** An element behind its length. *)
Lemma vec_loop_spec l rest :
  Trailing C ok → Measured C ok → Forall (sized_ok C ok) l →
  vec_loop C (length l) ((l ≫= vec_element C) ++ rest) = Done (l, rest).
Proof.
  intros HT HM. induction l as [|x l IH]; intros Hl; [done|].
  apply Forall_cons in Hl as [[Hx Hs] Hl]. destruct (HT x Hx) as [rest' Hrest]. pose proof (HM x Hx) as Hlen.
  rewrite bind_cons. cbn [length vec_loop]. unfold vec_element at 1.
  destruct (to_compact C x) as [tmp len]. simpl in Hrest, Hlen, Hs. subst len.
  rewrite <-!app_assoc, decode_encode, bind_Done by (unfold is_u64; lia).
  by rewrite take_bytes_app, bind_Done, Hrest, bind_Done, IH.
Qed.

Lemma vec_specialized_loop_spec l rest n :
  SelfDelimiting C ok → 0 < n → Forall ok l →
  vec_specialized_loop C (length l) n ((l ≫= λ x, (to_compact C x).1) ++ rest) = Done (l, rest).
Proof.
  intros HS Hn. induction l as [|x l IH]; intros Hl; [done|]. apply Forall_cons in Hl as [Hx Hl].
  rewrite bind_cons. cbn [length vec_specialized_loop]. by rewrite <-app_assoc, (HS x _ n Hx Hn), bind_Done, IH.
Qed.

Lemma vec_from_compact l rest n :
  Trailing C ok → Measured C ok → vec_ok (sized_ok C ok) l →
  from_compact (vec_compact C) ((to_compact (vec_compact C) l).1 ++ rest) n = Done (l, rest).
Proof.
  intros HT HM [Hlen Hl]. unfold from_compact, to_compact. simpl.
  rewrite <-app_assoc, decode_encode by (unfold is_u64; lia). simpl. rewrite Nat2Z.id. by apply vec_loop_spec.
Qed.

#[export] Instance vec_self_delimiting :
  Trailing C ok → Measured C ok → SelfDelimiting (vec_compact C) (vec_ok (sized_ok C ok)).
Proof. intros HT HM l rest n Hl _. by apply vec_from_compact. Qed.
#[export] Instance vec_non_empty P : NonEmpty (vec_compact C) P.
Proof.
  intros l _. unfold to_compact. simpl. rewrite length_app. pose proof (encode_varuint_pos (blen l)). lia.
Qed.

#[export] Instance vec_specialized_self_delimiting :
  SelfDelimiting C ok → SelfDelimiting (specialized (vec_compact C)) (vec_ok ok).
Proof.
  intros HS l rest n [Hlen Hl] Hn. unfold from_compact, to_compact. simpl.
  unfold specialized_from_compact, specialized_to_compact. simpl.
  rewrite <-app_assoc, decode_encode by (unfold is_u64; lia). simpl. rewrite Nat2Z.id.
  by apply vec_specialized_loop_spec.
Qed.
#[export] Instance vec_specialized_non_empty P : NonEmpty (specialized (vec_compact C)) P.
Proof.
  intros l _. unfold to_compact, specialized_to_compact. simpl. rewrite length_app.
  pose proof (encode_varuint_pos (blen l)). lia.
Qed.

#[export] Instance option_round_trips :
  Trailing C ok → Measured C ok → RoundTrips (option_compact C) (option_ok (sized_ok C ok)).
Proof.
  intros HT HM [x|] rest; [|done]. intros [Hx Hs]. destruct (HT x Hx) as [rest' Hrest]. pose proof (HM x Hx) as Hlen.
  unfold from_compact at 1, to_compact. simpl. fold (to_compact C x) in *.
  destruct (to_compact C x) as [tmp len]. simpl in *. subst len.
  rewrite <-app_assoc, decode_encode by (unfold is_u64; lia). simpl. rewrite take_bytes_app. simpl.
  by rewrite Hrest.
Qed.

#[export] Instance option_specialized_round_trips :
  SelfDelimiting C ok → RoundTrips (specialized (option_compact C)) (option_ok ok).
Proof.
  intros HS [x|] rest; [|done]. intros Hx. unfold from_compact, to_compact. simpl.
  unfold specialized_from_compact, specialized_to_compact. simpl.
  by rewrite (HS x rest 1 Hx ltac:(done)).
Qed.

(** The value that goes into the flags of the struct is one bit. *)
Lemma option_length o : 0 ≤ (to_compact (option_compact C) o).2 ≤ 1.
Proof. destruct o; unfold to_compact; simpl; [case_match|]; simpl; lia. Qed.
Lemma option_specialized_length o : 0 ≤ (to_compact (specialized (option_compact C)) o).2 ≤ 1.
Proof. destruct o; unfold to_compact, specialized_to_compact; simpl; lia. Qed.
End container_laws.

(** The length that goes into the flags of a struct. *)
Class FlagBound {A} (C : Compact A) (ok : A → Prop) (n : Z) : Prop :=
  flag_bound : ∀ x, ok x → 0 ≤ (to_compact C x).2 ≤ n.
#[export] Instance uint_flag_bound size : FlagBound (uint_compact size) (uint_ok size) (Z.of_nat size).
Proof. intros x. apply uint_length_le. Qed.
#[export] Instance u256_flag_bound : FlagBound u256_compact (uint_ok 32) 32.
Proof. intros x. rewrite u256_to_compact. apply uint_length_le. Qed.
#[export] Instance bool_flag_bound : FlagBound bool_compact (λ _, True) 1.
Proof. intros [] _; unfold to_compact; simpl; lia. Qed.
#[export] Instance option_flag_bound {A} (C : Compact A) ok : FlagBound (option_compact C) ok 1.
Proof. intros o _. apply option_length. Qed.
#[export] Instance option_specialized_flag_bound {A} (C : Compact A) ok : FlagBound (specialized (option_compact C)) ok 1.
Proof. intros o _. apply option_specialized_length. Qed.

(** Every integer is read from exactly its bytes. *)
#[export] Instance uint_trailing size : Trailing (uint_compact size) (uint_ok size).
Proof. apply round_trips_trailing; apply _. Qed.
#[export] Instance bytes_trailing : Trailing bytes_compact bytes_ok.
Proof. apply round_trips_trailing; apply _. Qed.

(** Variable-length integers: every 64-bit number is written in one to ten bytes, and
    reading them gives the number back and leaves exactly what follows. *)
Theorem varuint_roundtrip n rest :
  is_u64 n →
  decode_varuint (encode_varuint n ++ rest) = Done (n, rest) ∧ (1 ≤ length (encode_varuint n) ≤ 10)%nat.
Proof.
  intros Hn. split; [by apply decode_encode|]. pose proof (encode_varuint_pos n).
  split; [lia|]. apply (encode_varuint_length 9). unfold is_u64, U64 in Hn. change (7 * Z.of_nat 10) with 70.
  pose proof (Z.pow_lt_mono_r 2 64 70). lia.
Qed.

Lemma varuint_roundtrip_witness :
  decode_varuint (encode_varuint 300 ++ [7]) = Done (300, [7]) ∧ (1 ≤ length (encode_varuint 300) ≤ 10)%nat.
Proof. apply (varuint_roundtrip 300 [7]). done. Defined.
