(* ===== verification/Derive.v ===== *)
(** * The derived Compact implementations

    [storage/codecs/derive/src/compact]: the macro that writes [to_compact] and
    [from_compact] of a struct.  The generated code depends only on the list of the fields,
    so the macro is a function of that list: a field has the name of its type, the name of
    its type argument, the attribute [maybe_zero] and the implementation of [Compact] of its
    type, and a value of the struct is the tuple of its fields.

    The packing of the flags is that of the library [modular-bitfield], and the
    compression that of [zstd]: parameters here, with the round trips they document. *)

From stdpp Require Import prelude list strings.
From S2P Require Import Prelude.
From S2P Require Import Compact.

(** ** The libraries *)

(** [#[bitfield]]: a list of fields, each of a number of bits and a value, as bytes. *)
Class Bitfield := {
  into_bytes : list (Z * Z) → list Z;
  from_bytes : list Z → list Z → list Z;
}.
Definition total (widths : list Z) : Z := foldr Z.add 0 widths.
Class BitfieldLaws `{Bitfield} : Prop := {
  into_bytes_length l :
    Forall (λ e, 0 ≤ e.1 ∧ 0 ≤ e.2 < 2 ^ e.1) l → total l.*1 `mod` 8 = 0 → blen (into_bytes l) = total l.*1 / 8;
  from_into_bytes l :
    Forall (λ e, 0 ≤ e.1 ∧ 0 ≤ e.2 < 2 ^ e.1) l → total l.*1 `mod` 8 = 0 → from_bytes l.*1 (into_bytes l) = l.*2;
}.

Class Zstd := { compress : list Z → list Z; decompress : list Z → list Z }.
Class ZstdLaws `{Zstd} : Prop := decompress_compress l : decompress (compress l) = l.

(** ** Fields *)
Record Field (A : Type) := mkField {
  ftype : string;
  farg : string;
  (** [maybe_zero] with the test for [zero()]. *)
  maybe_zero : option (A → bool);
  codec : Compact A;
}.
Arguments mkField {A} _ _ _ _.
Arguments ftype {A} _.
Arguments farg {A} _.
Arguments maybe_zero {A} _.
Arguments codec {A} _.

Inductive Fields : Type → Type :=
| FNil : Fields unit
| FCons {A T} (f : Field A) (fs : Fields T) : Fields (A * T).

Definition one_of (l : list string) (s : string) : bool := bool_decide (s ∈ l).

Definition should_use_alt_impl (ftype farg : string) : bool :=
  one_of ["Vec"; "Option"] ftype &&
  one_of ["B256"; "Address"; "Address"; "Bloom"; "TxHash"; "BlockHash"; "CompactPlaceholder"] farg.

Definition get_bit_size (ftype : string) : Z :=
  if one_of ["TransactionKind"; "TxKind"; "bool"; "Option"; "Signature"] ftype then 1
  else if one_of ["TxType"] ftype then 2
  else if one_of ["u64"; "BlockNumber"; "TxNumber"; "ChainId"; "NumTransactions"] ftype then 4
  else if one_of ["u128"] ftype then 5
  else if one_of ["U256"] ftype then 6
  else 0.
Definition is_flag_type (ftype : string) : bool := 0 <? get_bit_size ftype.

(** [should_compact] of [load_field_from_segments]. *)
Definition is_compact {A} (f : Field A) : bool := is_flag_type (ftype f) || bool_decide (is_Some (maybe_zero f)).

(** The implementation that the generated code calls. *)
Definition field_codec {A} (f : Field A) : Compact A :=
  if should_use_alt_impl (ftype f) (farg f) then specialized (codec f) else codec f.

(** The assertion of [StructHandler::from] on the order of the fields. *)
Definition known_types : list string :=
  ["B256"; "Address"; "Bloom"; "Vec"; "TxHash"; "BlockHash"; "FixedBytes";
   "TxKind"; "AccessList"; "Signature"; "CheckpointBlockRange"].
Fixpoint well_placed {T} (fs : Fields T) : bool :=
  match fs with
  | FNil => true
  | FCons f fs =>
    (one_of known_types (ftype f) || is_flag_type (ftype f) || match fs with FNil => true | _ => false end) &&
    well_placed fs
  end.

(** ** The flags *)

(** [build_struct_field_flags] and [pad_flag_struct]. *)
Fixpoint build_struct_field_flags {T} (fs : Fields T) : list Z :=
  match fs with
  | FNil => []
  | FCons f fs =>
    (if is_compact f then [if is_flag_type (ftype f) then get_bit_size (ftype f) else 1] else []) ++
    build_struct_field_flags fs
  end.
Definition flag_widths {T} (fs : Fields T) (is_zstd : bool) : list Z :=
  build_struct_field_flags fs ++ (if is_zstd then [1] else []).
Definition pad_flag_struct (widths : list Z) : list Z :=
  let remaining := 8 - total widths `mod` 8 in
  if remaining =? 8 then widths else widths ++ [remaining].

(** The struct of flags, or the placeholder if there are no flags. *)
Section flags.
Context `{Bitfield}.
Definition flags_into_bytes (widths values : list Z) : list Z :=
  if total widths =? 0 then [] else into_bytes (zip (pad_flag_struct widths) (values ++ [0])).
Definition flags_from (widths buf : list Z) : outcome (list Z * list Z) :=
  if total widths =? 0 then Done ([], buf) else
  '(bytes, buf) ← take_bytes (total (pad_flag_struct widths) / 8) buf;
  Done (from_bytes (pad_flag_struct widths) bytes, buf).
End flags.

(** ** The generated code *)

(** [StructHandler::to]: the values of the flags and the bytes of the fields. *)
Fixpoint struct_to {T} (fs : Fields T) : T → list Z * list Z :=
  match fs with
  | FNil => λ _, ([], [])
  | FCons f fs => λ x,
    let '(flag, bytes) :=
      match maybe_zero f with
      | Some is_zero =>
        if is_flag_type (ftype f) then
          let '(bytes, len) := to_compact (field_codec f) x.1 in ([len `mod` 256], bytes)
        else if is_zero x.1 then ([0], []) else ([1], (to_compact (field_codec f) x.1).1)
      | None =>
        let '(bytes, len) := to_compact (field_codec f) x.1 in
        (if is_flag_type (ftype f) then [len `mod` 256] else [], bytes)
      end in
    let '(flags, buffer) := struct_to fs x.2 in
    (flag ++ flags, bytes ++ buffer)
  end.

(** [StructHandler::from].  A field that has no length in the flags is read with the length
    of the buffer. *)
Fixpoint struct_from {T} (fs : Fields T) : list Z → list Z → outcome (T * list Z) :=
  match fs with
  | FNil => λ _ buf, Done (tt, buf)
  | FCons f fs => λ flags buf,
    let len := if is_flag_type (ftype f) then hd 0 flags else blen buf in
    let flags := if is_compact f then tail flags else flags in
    '(x, buf) ← from_compact (field_codec f) buf len;
    '(y, buf) ← struct_from fs flags buf;
    Done ((x, y), buf)
  end.

(** [generate_to_compact] and [generate_from_compact]. *)
Section derive.
Context `{Bitfield} `{Zstd}.

Definition derive_compact {T} (fs : Fields T) (is_zstd : bool) : Compact T :=
  plain
    (λ x,
       let '(flags, buffer) := struct_to fs x in
       let zstd := is_zstd && (7 <? blen buffer) in
       let flags := flags_into_bytes (flag_widths fs is_zstd) (flags ++ (if is_zstd then [Z.b2z zstd] else [])) in
       (flags ++ (if zstd then compress buffer else buffer), blen flags + blen buffer))
    (λ buf _,
       '(flags, buf) ← flags_from (flag_widths fs is_zstd) buf;
       if is_zstd && negb (nth (length (build_struct_field_flags fs)) flags 0 =? 0) then
         '(obj, _) ← struct_from fs flags (decompress buf);
         Done (obj, buf)
       else struct_from fs flags buf).

(** A struct with the tuple of its fields. *)
Definition struct_compact {A T} (fields : A → T) (build : T → A) (fs : Fields T) (is_zstd : bool) : Compact A :=
  plain
    (λ a, to_compact (derive_compact fs is_zstd) (fields a))
    (λ buf len, '(t, buf) ← from_compact (derive_compact fs is_zstd) buf len; Done (build t, buf)).
End derive.

(** ** Laws

    The fields of a struct that decodes: a field with a length in the flags round-trips with
    the returned length, which fits into its bits; another field knows its own end, unless
    it is the last one ([open]). *)
Inductive lawful : ∀ {T}, Fields T → (T → Prop) → bool → Prop :=
| lawful_nil : lawful FNil (λ _, True) false
| lawful_flag {A T} (f : Field A) (fs : Fields T) ok oks open :
    is_flag_type (ftype f) = true → RoundTrips (field_codec f) ok →
    (∀ x, ok x → 0 ≤ (to_compact (field_codec f) x).2 < 2 ^ get_bit_size (ftype f)) →
    lawful fs oks open → lawful (FCons f fs) (λ p, ok p.1 ∧ oks p.2) open
| lawful_known {A T} (f : Field A) (fs : Fields T) ok oks open :
    is_flag_type (ftype f) = false → maybe_zero f = None →
    SelfDelimiting (field_codec f) ok → NonEmpty (field_codec f) ok →
    lawful fs oks open → lawful (FCons f fs) (λ p, ok p.1 ∧ oks p.2) open
| lawful_last {A} (f : Field A) (ok : A → Prop) :
    is_flag_type (ftype f) = false → maybe_zero f = None → Trailing (field_codec f) ok →
    lawful (FCons f FNil) (λ p, ok p.1 ∧ True) true.

Lemma get_bit_size_bound s : 0 ≤ get_bit_size s ≤ 6.
Proof. unfold get_bit_size. repeat case_match; lia. Qed.

Lemma is_flag_pow s n : is_flag_type s = true → 0 ≤ n < 2 ^ get_bit_size s → n `mod` 256 = n.
Proof.
  intros _ [H0 Hn]. apply Z.mod_small. split; [done|]. eapply Z.lt_trans; [exact Hn|].
  pose proof (get_bit_size_bound s). eapply Z.le_lt_trans; [apply (Z.pow_le_mono_r 2 _ 6); lia|done].
Qed.

(** What [struct_to] returns for a field with a length in the flags, and for another one. *)
Lemma struct_to_flag {A T} (f : Field A) (fs : Fields T) x :
  is_flag_type (ftype f) = true →
  struct_to (FCons f fs) x =
    ((to_compact (field_codec f) x.1).2 `mod` 256 :: (struct_to fs x.2).1,
     (to_compact (field_codec f) x.1).1 ++ (struct_to fs x.2).2).
Proof.
  intros Hf. simpl. rewrite Hf. destruct (to_compact (field_codec f) x.1), (struct_to fs x.2).
  by destruct (maybe_zero f).
Qed.
Lemma struct_to_other {A T} (f : Field A) (fs : Fields T) x :
  is_flag_type (ftype f) = false → maybe_zero f = None →
  struct_to (FCons f fs) x = ((struct_to fs x.2).1, (to_compact (field_codec f) x.1).1 ++ (struct_to fs x.2).2).
Proof.
  intros Hf Hz. simpl. rewrite Hf, Hz. by destruct (to_compact (field_codec f) x.1), (struct_to fs x.2).
Qed.
Lemma is_compact_flag {A} (f : Field A) : is_flag_type (ftype f) = true → is_compact f = true.
Proof. unfold is_compact. by intros ->. Qed.
Lemma is_compact_other {A} (f : Field A) :
  is_flag_type (ftype f) = false → maybe_zero f = None → is_compact f = false.
Proof. unfold is_compact. by intros -> ->. Qed.

(** The values fit into the bits reserved for them. *)
Lemma struct_to_flags {T} (fs : Fields T) ok open x :
  lawful fs ok open → ok x →
  Forall2 (λ w v, 0 < w ∧ 0 ≤ v < 2 ^ w) (build_struct_field_flags fs) (struct_to fs x).1.
Proof.
  intros Hl. revert x. induction Hl as [|A T f fs ok oks op Hf HR Hfit Hl IH|A T f fs ok oks op Hf Hz HS HN Hl IH
    |A f ok Hf Hz HT]; intros x Hx.
  - constructor.
  - rewrite struct_to_flag by done. simpl. rewrite (is_compact_flag f Hf), Hf. destruct Hx as [Hx1 Hx2].
    rewrite (is_flag_pow _ _ Hf (Hfit _ Hx1)). constructor; [|by apply IH].
    split; [by apply Z.ltb_lt in Hf|by apply Hfit].
  - rewrite struct_to_other by done. simpl. rewrite is_compact_other by done. apply IH, Hx.
  - rewrite struct_to_other by done. simpl. rewrite is_compact_other by done. constructor.
Qed.

Lemma struct_from_to {T} (fs : Fields T) ok x pad rest :
  lawful fs ok false → ok x → struct_from fs ((struct_to fs x).1 ++ pad) ((struct_to fs x).2 ++ rest) = Done (x, rest).
Proof.
  intros Hl. remember false as open eqn:Ho. revert x Ho.
  induction Hl as [|A T f fs ok oks op Hf HR Hfit Hl IH|A T f fs ok oks op Hf Hz HS HN Hl IH|A f ok Hf Hz HT];
    intros x Ho Hx; [by destruct x|..|done].
  - rewrite struct_to_flag by done. destruct Hx as [Hx1 Hx2]. cbn [fst snd struct_from].
    rewrite Hf, (is_compact_flag f Hf). cbn [hd tail app]. rewrite (is_flag_pow _ _ Hf (Hfit _ Hx1)).
    rewrite <-app_assoc, (HR x.1 _ Hx1), bind_Done, IH by done. by destruct x.
  - rewrite struct_to_other by done. destruct Hx as [Hx1 Hx2]. cbn [fst snd struct_from].
    rewrite Hf, (is_compact_other f Hf Hz), <-app_assoc. rewrite (HS x.1); [|done|].
    + rewrite bind_Done, IH by done. by destruct x.
    + rewrite length_app. pose proof (HN x.1 Hx1). lia.
Qed.

(** The last field may leave bytes behind. *)
Lemma struct_from_trailing {T} (fs : Fields T) ok open x pad :
  lawful fs ok open → ok x → ∃ rest, struct_from fs ((struct_to fs x).1 ++ pad) (struct_to fs x).2 = Done (x, rest).
Proof.
  intros Hl. revert x.
  induction Hl as [|A T f fs ok oks op Hf HR Hfit Hl IH|A T f fs ok oks op Hf Hz HS HN Hl IH|A f ok Hf Hz HT];
    intros x Hx.
  - exists []. by destruct x.
  - rewrite struct_to_flag by done. destruct Hx as [Hx1 Hx2]. cbn [fst snd struct_from].
    rewrite Hf, (is_compact_flag f Hf). cbn [hd tail app]. rewrite (is_flag_pow _ _ Hf (Hfit _ Hx1)).
    destruct (IH x.2 Hx2) as [rest Hr]. exists rest. rewrite (HR x.1 _ Hx1), bind_Done, Hr. by destruct x.
  - rewrite struct_to_other by done. destruct Hx as [Hx1 Hx2]. cbn [fst snd struct_from].
    rewrite Hf, (is_compact_other f Hf Hz). destruct (IH x.2 Hx2) as [rest Hr]. exists rest. rewrite (HS x.1); [|done|].
    + rewrite bind_Done, Hr. by destruct x.
    + rewrite length_app. pose proof (HN x.1 Hx1). lia.
  - rewrite struct_to_other by done. destruct Hx as [Hx1 _]. cbn [fst snd struct_from struct_to].
    rewrite Hf, app_nil_r. destruct (HT x.1 Hx1) as [rest Hr]. exists rest.
    rewrite Hr, bind_Done. by destruct x as [? []].
Qed.

Lemma zip_longer {A B} (l : list A) (k k' : list B) : length l = length k → zip l (k ++ k') = zip l k.
Proof. revert k; induction l as [|a l IH]; intros [|b k] Hl; try done. simpl in *. f_equal. apply IH. lia. Qed.

Lemma total_app l k : total (l ++ k) = total l + total k.
Proof. induction l as [|w l IH]; simpl; [done|]. rewrite IH. lia. Qed.

Lemma total_pad widths : total (pad_flag_struct widths) `mod` 8 = 0.
Proof.
  unfold pad_flag_struct. destruct (Z.eqb_spec (8 - total widths `mod` 8) 8) as [He|He]; [lia|].
  rewrite total_app. simpl. rewrite Z.add_0_r.
  pose proof (Z.div_mod (total widths) 8 ltac:(done)).
  replace (total widths + (8 - total widths `mod` 8)) with ((total widths / 8 + 1) * 8) by lia.
  by apply Z_mod_mult.
Qed.

Section derived_laws.
Context `{BL : BitfieldLaws} `{ZL : ZstdLaws}.
Notation fits := (Forall2 (λ w v, 0 < w ∧ 0 ≤ v < 2 ^ w)).

Lemma fits_nil widths values : fits widths values → total widths = 0 → widths = [] ∧ values = [].
Proof.
  intros Hf. destruct Hf as [|w v ws vs [Hw _] Hf]; [done|]. simpl. intros Ht. exfalso.
  assert (0 ≤ total ws); [|lia]. clear Ht. induction Hf as [|w' v' ws vs [Hw' _] Hf IH]; simpl; lia.
Qed.

(** The entries of the struct of flags, the unused bits included. *)
Lemma pad_entries widths values :
  fits widths values → ∃ p, (zip (pad_flag_struct widths) (values ++ [0])).*1 = pad_flag_struct widths ∧
    (zip (pad_flag_struct widths) (values ++ [0])).*2 = values ++ p ∧
    Forall (λ e, 0 ≤ e.1 ∧ 0 ≤ e.2 < 2 ^ e.1) (zip (pad_flag_struct widths) (values ++ [0])).
Proof.
  intros Hf. pose proof (Forall2_length _ _ _ Hf) as Hlen.
  assert (Hz : Forall (λ e, 0 ≤ e.1 ∧ 0 ≤ e.2 < 2 ^ e.1) (zip widths values)).
  { clear Hlen. induction Hf as [|w v ws vs [Hw Hv] Hf IH]; simpl; constructor; [simpl; lia|done]. }
  unfold pad_flag_struct. destruct (Z.eqb_spec (8 - total widths `mod` 8) 8) as [He|He].
  - exists []. rewrite zip_longer, app_nil_r by done. split_and!; [apply fst_zip; lia|apply snd_zip; lia|done].
  - exists [0]. rewrite zip_with_app by done. split_and!.
    + rewrite fmap_app, fst_zip by lia. done.
    + rewrite fmap_app, snd_zip by lia. done.
    + apply Forall_app. split; [done|]. constructor; [simpl|constructor].
      pose proof (Z.mod_pos_bound (total widths) 8 ltac:(done)).
      assert (0 < 2 ^ (8 - total widths `mod` 8)) by (apply Z.pow_pos_nonneg; lia). lia.
Qed.

Lemma flags_from_into widths values rest :
  fits widths values → ∃ p, flags_from widths (flags_into_bytes widths values ++ rest) = Done (values ++ p, rest).
Proof.
  intros Hf. unfold flags_from, flags_into_bytes. destruct (Z.eqb_spec (total widths) 0) as [Ht|Ht].
  { destruct (fits_nil _ _ Hf Ht) as [-> ->]. by exists []. }
  destruct (pad_entries _ _ Hf) as (p & H1 & H2 & H3). exists p.
  pose proof (total_pad widths) as Hp. rewrite <-H1 in Hp.
  rewrite take_bytes_app_eq, bind_Done; [|by rewrite into_bytes_length, H1].
  do 2 f_equal. rewrite <-H2, <-(from_into_bytes _ H3 Hp). by rewrite H1.
Qed.

Context {T : Type} (fs : Fields T) (ok : T → Prop).

Lemma derive_flags_fit open is_zstd x b :
  lawful fs ok open → ok x →
  fits (flag_widths fs is_zstd) ((struct_to fs x).1 ++ (if is_zstd then [Z.b2z b] else [])).
Proof.
  intros Hl Hx. apply Forall2_app; [by eapply struct_to_flags|]. destruct is_zstd; [|constructor].
  constructor; [|constructor]. destruct b; simpl; lia.
Qed.

(** A struct whose fields all know their end knows its own end. *)
Lemma derive_self_delimiting : lawful fs ok false → SelfDelimiting (derive_compact fs false) ok.
Proof.
  intros Hl x rest n Hx _. unfold from_compact, to_compact. simpl.
  destruct (struct_to fs x) as [vals buffer] eqn:Hs. simpl.
  pose proof (derive_flags_fit false false x false Hl Hx) as Hf. rewrite Hs in Hf. simpl in Hf.
  destruct (flags_from_into _ _ (buffer ++ rest) Hf) as [p Hp].
  rewrite <-app_assoc, Hp. simpl. rewrite app_nil_r. pose proof (struct_from_to fs ok x p rest Hl Hx) as Hr.
  by rewrite Hs in Hr.
Qed.

(** The values that the derived code writes, it reads, compressed or not. *)
Lemma derive_reads open is_zstd x n :
  lawful fs ok open → ok x →
  ∃ rest, from_compact (derive_compact fs is_zstd) (to_compact (derive_compact fs is_zstd) x).1 n = Done (x, rest).
Proof.
  intros Hl Hx. unfold from_compact, to_compact. simpl. destruct (struct_to fs x) as [vals buffer] eqn:Hs. simpl.
  set (zstd := is_zstd && (7 <? blen buffer)).
  pose proof (derive_flags_fit open is_zstd x zstd Hl Hx) as Hf. rewrite Hs in Hf. simpl in Hf.
  destruct (flags_from_into _ _ (if zstd then compress buffer else buffer) Hf) as [p Hp].
  rewrite Hp. simpl.
  assert (Hlen : length (build_struct_field_flags fs) = length vals).
  { pose proof (struct_to_flags fs ok open x Hl Hx) as H2. rewrite Hs in H2. by apply Forall2_length in H2. }
  assert (Hz : is_zstd && negb (nth (length (build_struct_field_flags fs))
                 ((vals ++ (if is_zstd then [Z.b2z zstd] else [])) ++ p) 0 =? 0) = zstd).
  { destruct is_zstd; [|done]. rewrite Hlen, <-app_assoc, app_nth2, Nat.sub_diag by lia. simpl. by destruct zstd. }
  rewrite Hz, <-app_assoc. destruct (struct_from_trailing fs ok open x ((if is_zstd then [Z.b2z zstd] else []) ++ p) Hl Hx)
    as [rest Hr]. rewrite Hs in Hr. simpl in Hr.
  destruct zstd; [|by exists rest]. exists (compress buffer). by rewrite decompress_compress, Hr.
Qed.

Lemma derive_trailing open is_zstd : lawful fs ok open → Trailing (derive_compact fs is_zstd) ok.
Proof. intros Hl x Hx. by eapply derive_reads. Qed.

(** The returned length is that of the bytes, unless they are compressed. *)
Lemma derive_measured : Measured (derive_compact fs false) ok.
Proof.
  intros x _. unfold to_compact. simpl. destruct (struct_to fs x) as [vals buffer]. simpl.
  rewrite length_app. lia.
Qed.

Lemma derive_non_empty open : lawful fs ok open → 0 < total (flag_widths fs false) → NonEmpty (derive_compact fs false) ok.
Proof.
  intros Hl Hw x Hx. unfold to_compact. simpl. destruct (struct_to fs x) as [vals buffer] eqn:Hs. simpl.
  pose proof (derive_flags_fit open false x false Hl Hx) as Hf. rewrite Hs in Hf. simpl in Hf.
  unfold flags_into_bytes. rewrite (proj2 (Z.eqb_neq _ _)) by lia.
  destruct (pad_entries _ _ Hf) as (p & H1 & H2 & H3). rewrite length_app, Nat2Z.inj_add.
  rewrite into_bytes_length; [|done|by rewrite H1; apply total_pad]. rewrite H1.
  pose proof (total_pad (flag_widths fs false)) as Hp.
  assert (0 < total (pad_flag_struct (flag_widths fs false))).
  { unfold pad_flag_struct. case_match; [lia|]. rewrite total_app. simpl.
    pose proof (Z.mod_pos_bound (total (flag_widths fs false)) 8 ltac:(done)). lia. }
  pose proof (Z.div_mod (total (pad_flag_struct (flag_widths fs false))) 8 ltac:(done)). lia.
Qed.

(** The same for the struct itself. *)
Context {A : Type} (fields : A → T) (build : T → A) (Hbuild : ∀ a, build (fields a) = a).
Notation S_ := (struct_compact fields build fs).

Lemma struct_self_delimiting : lawful fs ok false → SelfDelimiting (S_ false) (ok ∘ fields).
Proof.
  intros Hl a rest n Ha Hn. unfold from_compact at 1, to_compact. simpl.
  rewrite (derive_self_delimiting Hl (fields a) rest n Ha Hn). simpl. by rewrite Hbuild.
Qed.
Lemma struct_reads open is_zstd a n :
  lawful fs ok open → ok (fields a) → ∃ rest, from_compact (S_ is_zstd) (to_compact (S_ is_zstd) a).1 n = Done (a, rest).
Proof.
  intros Hl Ha. destruct (derive_reads open is_zstd (fields a) n Hl Ha) as [rest Hr]. exists rest.
  unfold from_compact at 1, to_compact. simpl. rewrite Hr. simpl. by rewrite Hbuild.
Qed.
Lemma struct_trailing open is_zstd : lawful fs ok open → Trailing (S_ is_zstd) (ok ∘ fields).
Proof. intros Hl a Ha. by eapply struct_reads. Qed.
Lemma struct_measured : Measured (S_ false) (ok ∘ fields).
Proof. intros a Ha. by apply derive_measured. Qed.
Lemma struct_non_empty open : lawful fs ok open → 0 < total (flag_widths fs false) → NonEmpty (S_ false) (ok ∘ fields).
Proof. intros Hl Hw a Ha. by eapply derive_non_empty. Qed.
End derived_laws.

(** ** Rules for the fields of a struct *)
Section field_rules.
Context {A T : Type} (ft fa : string) (C : Compact A) (fs : Fields T) (ok : A → Prop) (oks : T → Prop).
Notation F := (mkField ft fa None C).

Lemma flag_fits n (D : Compact A) :
  FlagBound D ok n → (n <? 2 ^ get_bit_size ft) = true →
  ∀ x, ok x → 0 ≤ (to_compact D x).2 < 2 ^ get_bit_size ft.
Proof. intros HB Hn%Z.ltb_lt x Hx. pose proof (HB x Hx). lia. Qed.

Lemma flag_field n open :
  is_flag_type ft && negb (should_use_alt_impl ft fa) = true → RoundTrips C ok → FlagBound C ok n →
  (n <? 2 ^ get_bit_size ft) = true → lawful fs oks open → lawful (FCons F fs) (λ p, ok p.1 ∧ oks p.2) open.
Proof.
  intros [Hf Ha%negb_true_iff]%andb_true_iff HR HB Hn Hl. apply lawful_flag; [done|..|done];
    unfold field_codec; simpl; rewrite Ha; [done|by eapply flag_fits].
Qed.
Lemma flag_field_alt n open :
  is_flag_type ft && should_use_alt_impl ft fa = true → RoundTrips (specialized C) ok → FlagBound (specialized C) ok n →
  (n <? 2 ^ get_bit_size ft) = true → lawful fs oks open → lawful (FCons F fs) (λ p, ok p.1 ∧ oks p.2) open.
Proof.
  intros [Hf Ha]%andb_true_iff HR HB Hn Hl. apply lawful_flag; [done|..|done];
    unfold field_codec; simpl; rewrite Ha; [done|by eapply flag_fits].
Qed.
Lemma known_field open :
  negb (is_flag_type ft) && negb (should_use_alt_impl ft fa) = true → SelfDelimiting C ok → NonEmpty C ok →
  lawful fs oks open → lawful (FCons F fs) (λ p, ok p.1 ∧ oks p.2) open.
Proof.
  intros [Hf%negb_true_iff Ha%negb_true_iff]%andb_true_iff HS HN Hl. apply lawful_known; [done|done|..|done];
    unfold field_codec; simpl; by rewrite Ha.
Qed.
Lemma known_field_alt open :
  negb (is_flag_type ft) && should_use_alt_impl ft fa = true → SelfDelimiting (specialized C) ok →
  NonEmpty (specialized C) ok → lawful fs oks open → lawful (FCons F fs) (λ p, ok p.1 ∧ oks p.2) open.
Proof.
  intros [Hf%negb_true_iff Ha]%andb_true_iff HS HN Hl. apply lawful_known; [done|done|..|done];
    unfold field_codec; simpl; by rewrite Ha.
Qed.
End field_rules.

Lemma last_field {A} (ft fa : string) (C : Compact A) ok :
  negb (is_flag_type ft) && negb (should_use_alt_impl ft fa) = true → Trailing C ok →
  lawful (FCons (mkField ft fa None C) FNil) (λ p, ok p.1 ∧ True) true.
Proof.
  intros [Hf%negb_true_iff Ha%negb_true_iff]%andb_true_iff HT. apply lawful_last; [done|done|].
  unfold field_codec; simpl; by rewrite Ha.
Qed.

(** The fields of a struct one after the other; the laws of their types are instances. *)
Ltac lawful_fields :=
  repeat first
    [ apply lawful_nil
    | eapply flag_field; [vm_compute; reflexivity|apply _|apply _|vm_compute; reflexivity|]
    | eapply flag_field_alt; [vm_compute; reflexivity|apply _|apply _|vm_compute; reflexivity|]
    | eapply known_field; [vm_compute; reflexivity|apply _|apply _|]
    | eapply known_field_alt; [vm_compute; reflexivity|apply _|apply _|]
    | eapply last_field; [vm_compute; reflexivity|apply _] ].

(** ** A packing of the flags

    The layout that [modular-bitfield] documents: the first field is in the lowest bits, and
    the bytes are in little-endian order. *)
Module Lsb.
Fixpoint pack (l : list (Z * Z)) : Z := match l with [] => 0 | (w, v) :: l => v + 2 ^ w * pack l end.
Fixpoint unpack (widths : list Z) (n : Z) : list Z :=
  match widths with [] => [] | w :: widths => n `mod` 2 ^ w :: unpack widths (n / 2 ^ w) end.

#[export] Instance bitfield : Bitfield := {
  into_bytes l := to_le_bytes (Z.to_nat (total l.*1 / 8)) (pack l);
  from_bytes widths bytes := unpack widths (from_le_bytes bytes);
}.

Lemma total_nonneg l : Forall (λ e : Z * Z, 0 ≤ e.1 ∧ 0 ≤ e.2 < 2 ^ e.1) l → 0 ≤ total l.*1.
Proof. induction 1 as [|[w v] l [Hw _] Hl IH]; csimpl in *; lia. Qed.

Lemma pack_bound l : Forall (λ e : Z * Z, 0 ≤ e.1 ∧ 0 ≤ e.2 < 2 ^ e.1) l → 0 ≤ pack l < 2 ^ total l.*1.
Proof.
  intros Hl. pose proof (total_nonneg l Hl) as Ht.
  induction Hl as [|[w v] l [Hw Hv] Hl IH]; csimpl in *; [done|]. pose proof (total_nonneg l Hl).
  specialize (IH H). rewrite Z.pow_add_r by done.
  split; [apply Z.add_nonneg_nonneg; [lia|apply Z.mul_nonneg_nonneg; lia]|]. nia.
Qed.

Lemma unpack_pack l : Forall (λ e : Z * Z, 0 ≤ e.1 ∧ 0 ≤ e.2 < 2 ^ e.1) l → unpack l.*1 (pack l) = l.*2.
Proof.
  induction 1 as [|[w v] l [Hw Hv] Hl IH]; csimpl in *; [done|].
  assert (0 < 2 ^ w) by (apply Z.pow_pos_nonneg; lia).
  rewrite (Z.mul_comm (2 ^ w)), Z_mod_plus_full, Z_div_plus_full, Z.mod_small, Z.div_small by lia.
  by rewrite Z.add_0_l, IH.
Qed.

#[export] Instance bitfield_laws : BitfieldLaws.
Proof.
  split; intros l Hl Hm; simpl; pose proof (total_nonneg l Hl);
    assert (0 ≤ total l.*1 / 8) by (apply Z.div_pos; lia).
  - rewrite to_le_bytes_length. lia.
  - rewrite from_to_le_bytes; [by apply unpack_pack|]. pose proof (Z.div_mod (total l.*1) 8 ltac:(done)).
    rewrite Z2Nat.id by done. replace (8 * (total l.*1 / 8)) with (total l.*1) by lia. by apply pack_bound.
Qed.
End Lsb.

(** A compression that only marks its output. *)
Module Marked.
#[export] Instance zstd : Zstd := {| compress l := 0x28 :: l; decompress l := tail l |}.
#[export] Instance zstd_laws : ZstdLaws.
Proof. done. Qed.
End Marked.
