(* ===== verification/Transaction.v ===== *)
(** * Transactions and their pooled form

    [Transaction] with its variants and accessors ([primitives/src/transaction]), and
    [EthPooledTransaction], the type the node's pool is instantiated with
    ([transaction-pool/src/traits.rs]).  Hashes and signers are stored fields in the
    code and in the model.  The gas of a blob is a constant of the library [alloy-eips],
    a parameter here. *)

From stdpp Require Import prelude gmap list.
From S2P Require Import Prelude.
From S2P Require Import Ord.
From S2P Require Import Identifier.
From S2P Require Import PoolTx.
From S2P Require Import BlobStore.

Definition LEGACY_TX_TYPE_ID : Z := 0.
Definition EIP2930_TX_TYPE_ID : Z := 1.
Definition EIP1559_TX_TYPE_ID : Z := 2.
Definition EIP7702_TX_TYPE_ID : Z := 4.
Definition DEPOSIT_TX_TYPE_ID : Z := 126.

(** [AccessList]: addresses with storage keys. *)
Notation AccessList := (list (Address * list Z)).
Notation Bytes := (list Z) (only parsing).

Inductive TxKind := Create | CallTo (to : Address).
Definition is_create (k : TxKind) : bool := match k with Create => true | CallTo _ => false end.

(** [SignedAuthorization] of the library [alloy-eips]: an authorization and its signature. *)
Record SignedAuthorization := mkSignedAuthorization {
  sa_chain_id : Z;
  sa_address : Address;
  sa_nonce : option Z;
  sa_y_parity : bool;
  sa_r : Z;
  sa_s : Z;
}.

(** ** The variants *)
Module Tx.
Record TxLegacy := mkTxLegacy {
  lg_chain_id : option Z;
  lg_nonce : Z;
  lg_gas_price : Z;
  lg_gas_limit : Z;
  lg_to : TxKind;
  lg_value : Z;
  lg_input : Bytes;
}.
Record TxEip2930 := mkTxEip2930 {
  al_chain_id : Z;
  al_nonce : Z;
  al_gas_price : Z;
  al_gas_limit : Z;
  al_to : TxKind;
  al_value : Z;
  al_access_list : AccessList;
  al_input : Bytes;
}.
Record TxEip1559 := mkTxEip1559 {
  df_chain_id : Z;
  df_nonce : Z;
  df_gas_limit : Z;
  df_max_fee_per_gas : Z;
  df_max_priority_fee_per_gas : Z;
  df_to : TxKind;
  df_value : Z;
  df_access_list : AccessList;
  df_input : Bytes;
}.
(** The field [placeholder] only reserves a bit of the encoding. *)
Record TxEip4844 := mkTxEip4844 {
  bl_chain_id : Z;
  bl_nonce : Z;
  bl_gas_limit : Z;
  bl_max_fee_per_gas : Z;
  bl_max_priority_fee_per_gas : Z;
  bl_placeholder : option unit;
  bl_to : Address;
  bl_value : Z;
  bl_access_list : AccessList;
  bl_blob_versioned_hashes : list Z;
  bl_max_fee_per_blob_gas : Z;
  bl_input : Bytes;
}.
Record TxEip7702 := mkTxEip7702 {
  sc_chain_id : Z;
  sc_nonce : Z;
  sc_gas_limit : Z;
  sc_max_fee_per_gas : Z;
  sc_max_priority_fee_per_gas : Z;
  sc_to : TxKind;
  sc_value : Z;
  sc_access_list : AccessList;
  sc_authorization_list : list SignedAuthorization;
  sc_input : Bytes;
}.
Record TxDeposit := mkTxDeposit {
  dp_source_hash : Z;
  dp_from : Address;
  dp_to : TxKind;
  dp_mint : option Z;
  dp_value : Z;
  dp_gas_limit : Z;
  dp_is_system_transaction : bool;
  dp_input : Bytes;
}.

Inductive Transaction :=
| Legacy (tx : TxLegacy)
| Eip2930 (tx : TxEip2930)
| Eip1559 (tx : TxEip1559)
| Eip4844 (tx : TxEip4844)
| Eip7702 (tx : TxEip7702)
| Deposit (tx : TxDeposit).

(** ** Accessors *)
Definition chain_id (t : Transaction) : option Z :=
  match t with
  | Legacy tx => lg_chain_id tx
  | Eip2930 tx => Some (al_chain_id tx)
  | Eip1559 tx => Some (df_chain_id tx)
  | Eip4844 tx => Some (bl_chain_id tx)
  | Eip7702 tx => Some (sc_chain_id tx)
  | Deposit _ => None
  end.
Definition kind (t : Transaction) : TxKind :=
  match t with
  | Legacy tx => lg_to tx
  | Eip2930 tx => al_to tx
  | Eip1559 tx => df_to tx
  | Eip7702 tx => sc_to tx
  | Eip4844 tx => CallTo (bl_to tx)
  | Deposit tx => dp_to tx
  end.
(** [tx_type] and the conversion of [TxType] to a byte. *)
Definition type_id (t : Transaction) : Z :=
  match t with
  | Legacy _ => LEGACY_TX_TYPE_ID
  | Eip2930 _ => EIP2930_TX_TYPE_ID
  | Eip1559 _ => EIP1559_TX_TYPE_ID
  | Eip4844 _ => EIP4844_TX_TYPE_ID
  | Eip7702 _ => EIP7702_TX_TYPE_ID
  | Deposit _ => DEPOSIT_TX_TYPE_ID
  end.
Definition value (t : Transaction) : Z :=
  match t with
  | Legacy tx => lg_value tx
  | Eip2930 tx => al_value tx
  | Eip1559 tx => df_value tx
  | Eip4844 tx => bl_value tx
  | Eip7702 tx => sc_value tx
  | Deposit tx => dp_value tx
  end.
Definition nonce (t : Transaction) : Z :=
  match t with
  | Legacy tx => lg_nonce tx
  | Eip2930 tx => al_nonce tx
  | Eip1559 tx => df_nonce tx
  | Eip4844 tx => bl_nonce tx
  | Eip7702 tx => sc_nonce tx
  | Deposit _ => 0
  end.
Definition access_list (t : Transaction) : option AccessList :=
  match t with
  | Legacy _ => None
  | Eip2930 tx => Some (al_access_list tx)
  | Eip1559 tx => Some (df_access_list tx)
  | Eip4844 tx => Some (bl_access_list tx)
  | Eip7702 tx => Some (sc_access_list tx)
  | Deposit _ => None
  end.
Definition gas_limit (t : Transaction) : Z :=
  match t with
  | Legacy tx => lg_gas_limit tx
  | Eip2930 tx => al_gas_limit tx
  | Eip1559 tx => df_gas_limit tx
  | Eip4844 tx => bl_gas_limit tx
  | Eip7702 tx => sc_gas_limit tx
  | Deposit tx => dp_gas_limit tx
  end.
Definition max_fee_per_gas (t : Transaction) : Z :=
  match t with
  | Legacy tx => lg_gas_price tx
  | Eip2930 tx => al_gas_price tx
  | Eip1559 tx => df_max_fee_per_gas tx
  | Eip4844 tx => bl_max_fee_per_gas tx
  | Eip7702 tx => sc_max_fee_per_gas tx
  | Deposit _ => 0
  end.
Definition max_priority_fee_per_gas (t : Transaction) : option Z :=
  match t with
  | Legacy _ | Eip2930 _ => None
  | Eip1559 tx => Some (df_max_priority_fee_per_gas tx)
  | Eip4844 tx => Some (bl_max_priority_fee_per_gas tx)
  | Eip7702 tx => Some (sc_max_priority_fee_per_gas tx)
  | Deposit _ => None
  end.
Definition max_fee_per_blob_gas (t : Transaction) : option Z :=
  match t with Eip4844 tx => Some (bl_max_fee_per_blob_gas tx) | _ => None end.
Definition priority_fee_or_price (t : Transaction) : Z :=
  match t with
  | Legacy tx => lg_gas_price tx
  | Eip2930 tx => al_gas_price tx
  | Eip1559 tx => df_max_priority_fee_per_gas tx
  | Eip4844 tx => bl_max_priority_fee_per_gas tx
  | Eip7702 tx => sc_max_priority_fee_per_gas tx
  | Deposit _ => 0
  end.
Definition input (t : Transaction) : Bytes :=
  match t with
  | Legacy tx => lg_input tx
  | Eip2930 tx => al_input tx
  | Eip1559 tx => df_input tx
  | Eip4844 tx => bl_input tx
  | Eip7702 tx => sc_input tx
  | Deposit tx => dp_input tx
  end.

(** [effective_gas_price] of the three variants with dynamic fees; the addition is one
    of [u128]. *)
Definition dynamic_price (max_fee max_priority_fee : Z) (base_fee : option Z) : Z :=
  match base_fee with
  | None => max_fee
  | Some base_fee =>
    let tip := Z.max 0 (max_fee - base_fee) in
    if max_priority_fee <? tip then wrap_u128 (max_priority_fee + base_fee) else max_fee
  end.
Definition effective_gas_price (t : Transaction) (base_fee : option Z) : Z :=
  match t with
  | Legacy tx => lg_gas_price tx
  | Eip2930 tx => al_gas_price tx
  | Eip1559 tx => dynamic_price (df_max_fee_per_gas tx) (df_max_priority_fee_per_gas tx) base_fee
  | Eip4844 tx => dynamic_price (bl_max_fee_per_gas tx) (bl_max_priority_fee_per_gas tx) base_fee
  | Eip7702 tx => dynamic_price (sc_max_fee_per_gas tx) (sc_max_priority_fee_per_gas tx) base_fee
  | Deposit _ => 0
  end.
Definition effective_tip_per_gas (t : Transaction) (base_fee : option Z) : option Z :=
  match base_fee with
  | None => Some (priority_fee_or_price t)
  | Some base_fee =>
    if max_fee_per_gas t <? base_fee then None
    else
      let fee := max_fee_per_gas t - base_fee in
      match max_priority_fee_per_gas t with
      | Some priority_fee => Some (Z.min fee priority_fee)
      | None => Some fee
      end
  end.

(** The ranges of the fields that are added and multiplied. *)
Record tx_ok (t : Transaction) : Prop := {
  ok_nonce : is_u64 (nonce t);
  ok_gas_limit : is_u64 (gas_limit t);
  ok_max_fee : is_u128 (max_fee_per_gas t);
  ok_priority : is_u128 (default 0 (max_priority_fee_per_gas t));
  ok_blob_fee : is_u128 (default 0 (max_fee_per_blob_gas t));
  ok_value : 0 ≤ value t < U256;
}.
End Tx.

(** [TransactionSigned] with its signer; nothing here reads the signature. *)
Record TransactionSignedEcRecovered := mkEcRecovered {
  ec_signer : Address;
  ec_hash : Z;
  ec_transaction : Tx.Transaction;
}.

(** ** EthPooledTransaction *)
Inductive EthBlobTransactionSidecar := SidecarNone | SidecarMissing | SidecarPresent (sidecar : Sidecar).

Record EthPooledTransaction := mkEthPooledTransaction {
  ep_transaction : TransactionSignedEcRecovered;
  ep_cost : Z;
  ep_encoded_length : Z;
  ep_blob_sidecar : EthBlobTransactionSidecar;
}.

(** [U256::saturating_add], [U256::saturating_mul] and [u128::saturating_mul]. *)
Definition sat_add_u256 (x y : Z) : Z := Z.min (x + y) (U256 - 1).
Definition sat_mul_u256 (x y : Z) : Z := Z.min (x * y) (U256 - 1).
Definition sat_mul_u128 (x y : Z) : Z := Z.min (x * y) (U128 - 1).

Section pooled.
Context (DATA_GAS_PER_BLOB : Z).

(** [TxEip4844::blob_gas]. *)
Definition blob_gas (tx : Tx.TxEip4844) : Z :=
  wrap_u64 (Z.of_nat (length (Tx.bl_blob_versioned_hashes tx)) * DATA_GAS_PER_BLOB).

(** [EthPooledTransaction::new]. *)
Definition EthPooledTransaction_new (tx : TransactionSignedEcRecovered) (encoded_length : Z) : EthPooledTransaction :=
  let t := ec_transaction tx in
  let '(gas_cost, blob_sidecar) :=
    match t with
    | Tx.Legacy t => (sat_mul_u256 (Tx.lg_gas_price t) (Tx.lg_gas_limit t), SidecarNone)
    | Tx.Eip2930 t => (sat_mul_u256 (Tx.al_gas_price t) (Tx.al_gas_limit t), SidecarNone)
    | Tx.Eip1559 t => (sat_mul_u256 (Tx.df_max_fee_per_gas t) (Tx.df_gas_limit t), SidecarNone)
    | Tx.Eip4844 t => (sat_mul_u256 (Tx.bl_max_fee_per_gas t) (Tx.bl_gas_limit t), SidecarMissing)
    | Tx.Eip7702 t => (sat_mul_u256 (Tx.sc_max_fee_per_gas t) (Tx.sc_gas_limit t), SidecarNone)
    | Tx.Deposit _ => (0, SidecarNone)
    end in
  let cost := sat_add_u256 (Tx.value t) gas_cost in
  let cost := match t with
              | Tx.Eip4844 blob_tx =>
                sat_add_u256 cost (sat_mul_u128 (Tx.bl_max_fee_per_blob_gas blob_tx) (blob_gas blob_tx))
              | _ => cost
              end in
  mkEthPooledTransaction tx cost encoded_length blob_sidecar.

(** [From<PooledTransactionsElementEcRecovered>]: a transaction from the network, with its
    sidecar if it is a blob transaction. *)
Definition from_pooled (tx : TransactionSignedEcRecovered) (blob : option Sidecar) (encoded_length : Z)
  : EthPooledTransaction :=
  let pooled := EthPooledTransaction_new tx encoded_length in
  match blob with
  | Some blob =>
    mkEthPooledTransaction (ep_transaction pooled) (ep_cost pooled) (ep_encoded_length pooled) (SidecarPresent blob)
  | None => pooled
  end.

(** [TryFrom<TransactionSignedEcRecovered>]. *)
Inductive TryFromRecoveredTransactionError := UnsupportedTransactionType (ty : Z) | BlobSidecarMissing.
Definition try_from_recovered (tx : TransactionSignedEcRecovered) (encoded_length : Z)
  : TryFromRecoveredTransactionError + EthPooledTransaction :=
  let ty := Tx.type_id (ec_transaction tx) in
  if ((0 <=? ty) && (ty <=? EIP1559_TX_TYPE_ID)) || (ty =? EIP7702_TX_TYPE_ID)
  then inr (EthPooledTransaction_new tx encoded_length)
  else if ty =? EIP4844_TX_TYPE_ID then inl BlobSidecarMissing else inl (UnsupportedTransactionType ty).
End pooled.

(** The getters of [impl PoolTransaction for EthPooledTransaction], as the record the pool
    works on. *)
Definition pool_view (p : EthPooledTransaction) : PoolTransaction :=
  let t := ec_transaction (ep_transaction p) in
  mkPoolTransaction (ec_hash (ep_transaction p)) (ec_signer (ep_transaction p)) (Tx.nonce t) (ep_cost p)
    (Tx.gas_limit t) (Tx.max_fee_per_gas t) (Tx.max_priority_fee_per_gas t) (Tx.max_fee_per_blob_gas t)
    (Z.of_nat (length (Tx.input t))) (Tx.type_id t).

(** [EthPoolTransaction]: [take_blob], [blob_count], [authorization_count]. *)
Definition take_blob (p : EthPooledTransaction) : EthBlobTransactionSidecar * EthPooledTransaction :=
  if tx_is_eip4844 (pool_view p) then
    (ep_blob_sidecar p, mkEthPooledTransaction (ep_transaction p) (ep_cost p) (ep_encoded_length p) SidecarMissing)
  else (SidecarNone, p).
Definition blob_count (p : EthPooledTransaction) : Z :=
  match ec_transaction (ep_transaction p) with
  | Tx.Eip4844 tx => Z.of_nat (length (Tx.bl_blob_versioned_hashes tx))
  | _ => 0
  end.
Definition authorization_count (p : EthPooledTransaction) : Z :=
  match ec_transaction (ep_transaction p) with
  | Tx.Eip7702 tx => Z.of_nat (length (Tx.sc_authorization_list tx))
  | _ => 0
  end.

(** ** Costs *)

(** What the blobs of a transaction may cost. *)
Definition blob_cost (DATA_GAS_PER_BLOB : Z) (t : Tx.Transaction) : Z :=
  match t with Tx.Eip4844 tx => Tx.bl_max_fee_per_blob_gas tx * blob_gas DATA_GAS_PER_BLOB tx | _ => 0 end.

(** The cost of a pooled transaction is what the sender must be able to pay: the value
    and the gas limit at the fee cap, and for a blob transaction the blob gas at the blob
    fee cap, the latter cut off at the largest 128-bit number and the sum at the largest
    256-bit one; the saturation of the single steps adds no other error. *)
Theorem cost_exact g tx n :
  Tx.tx_ok (ec_transaction tx) →
  let t := ec_transaction tx in
  ep_cost (EthPooledTransaction_new g tx n) =
  Z.min (U256 - 1) (Tx.value t + Tx.max_fee_per_gas t * Tx.gas_limit t + Z.min (U128 - 1) (blob_cost g t)).
Proof.
  intros [_ [Hg0 Hg] [Hf0 Hf] _ [Hb0 Hb] [Hv0 Hv]] t. unfold t in *.
  assert (Hm : 0 ≤ Tx.max_fee_per_gas (ec_transaction tx) * Tx.gas_limit (ec_transaction tx)) by nia.
  assert (Hbg : ∀ tx, 0 ≤ blob_gas g tx) by (intros; apply wrap_u64_range).
  unfold EthPooledTransaction_new. destruct (ec_transaction tx) as [x|x|x|x|x|x]; simpl in *;
    unfold sat_add_u256, sat_mul_u256, sat_mul_u128; try lia.
  assert (0 ≤ Tx.bl_max_fee_per_blob_gas x * blob_gas g x) by (specialize (Hbg x); nia). lia.
Qed.

(** Price and tip agree: if a transaction pays a tip at a base fee, then the gas price
    it is charged is the base fee plus that tip, for every type of transaction, and the
    priority by which the pool orders it is that tip. *)
Theorem effective_price_tip p base_fee tip :
  let t := ec_transaction (ep_transaction p) in
  Tx.tx_ok t → 0 ≤ base_fee → Tx.effective_tip_per_gas t (Some base_fee) = Some tip →
  Tx.effective_gas_price t (Some base_fee) = base_fee + tip ∧
  effective_tip_per_gas (pool_view p) base_fee = Some tip ∧ 0 ≤ tip.
Proof.
  intros t [_ _ [Hf0 Hf] [Hp0 Hp] _ _] Hb. unfold Tx.effective_tip_per_gas.
  destruct (Z.ltb_spec (Tx.max_fee_per_gas t) base_fee) as [|Hle]; [done|]. intros Htip.
  assert (Hdyn : ∀ m q, Tx.max_fee_per_gas t = m → Tx.max_priority_fee_per_gas t = Some q →
    Tx.dynamic_price m q (Some base_fee) = base_fee + tip ∧ 0 ≤ tip).
  { intros m q Em Eq. rewrite Eq in Htip, Hp0. injection Htip as <-. unfold Tx.dynamic_price. simpl in Hp0.
    destruct (Z.ltb_spec q (Z.max 0 (m - base_fee))); [unfold wrap_u128; rewrite Z.mod_small|]; lia. }
  unfold effective_tip_per_gas, pool_view. simpl. fold t. rewrite (proj2 (Z.ltb_ge _ _)) by done.
  split_and!; [|done|]; destruct t as [x|x|x|x|x|x]; simpl in *; simplify_eq/=; try lia; by eapply Hdyn.
Qed.

(** A transfer with a tip, and a blob transaction with one blob. *)
Definition example_transfer (n max_fee prio : Z) : TransactionSignedEcRecovered :=
  mkEcRecovered 11 1 (Tx.Eip1559 (Tx.mkTxEip1559 1 n 21000 max_fee prio (CallTo 12) 5 [] [])).
Definition example_blob_tx (blob_fee : Z) : TransactionSignedEcRecovered :=
  mkEcRecovered 11 2 (Tx.Eip4844 (Tx.mkTxEip4844 1 0 21000 30 2 None 12 0 [] [7] blob_fee [])).

Lemma example_transfer_ok n max_fee prio :
  is_u64 n → is_u128 max_fee → is_u128 prio → Tx.tx_ok (ec_transaction (example_transfer n max_fee prio)).
Proof. by split. Qed.

Lemma cost_exact_witness : ep_cost (EthPooledTransaction_new 131072 (example_blob_tx 10) 200) = 1940720.
Proof. rewrite (cost_exact 131072 (example_blob_tx 10) 200); [by vm_compute|by split]. Defined.

Lemma effective_price_tip_witness :
  Tx.effective_gas_price (ec_transaction (example_transfer 0 30 2)) (Some 20) = 20 + 2.
Proof.
  apply (effective_price_tip (EthPooledTransaction_new 131072 (example_transfer 0 30 2) 100) 20 2); [|done|done].
  by apply example_transfer_ok.
Defined.

(** The product for the blobs is cut off at 128 bits before it is added, so that the cost
    of a transaction with a very high blob fee cap is far below what it may be charged. *)
Theorem blob_cost_cut_off :
  let t := example_blob_tx (U128 - 1) in
  ep_cost (EthPooledTransaction_new 131072 t 200) = U128 - 1 + 630000 ∧
  U128 - 1 + 630000 < Tx.value (ec_transaction t) + blob_cost 131072 (ec_transaction t).
Proof. split; by vm_compute. Qed.
