(* ===== verification/Header.v ===== *)
(** * Accounts and block headers

    [Account] ([primitives-traits/src/account.rs]), and [Header] and [SealedHeader] ([primitives-traits/src/header]) with the checks that read
    them.  The formulas for the next base fee and the excess blob gas are those of the
    libraries [alloy-eips] and [revm], which are parameters. *)

From stdpp Require Import prelude list.
From S2P Require Import Prelude.
From S2P Require Import Identifier.

(** ** Accounts *)
Definition KECCAK_EMPTY : Z := 0xc5d2460186f7233c927e7db2dcc703c0e500b653ca82273b7bfad8045d85a470.

Record Account := mkAccount { acc_nonce : Z; acc_balance : Z; acc_bytecode_hash : option Z }.
Definition Account_default : Account := mkAccount 0 0 None.
Definition has_bytecode (a : Account) : bool := match acc_bytecode_hash a with Some _ => true | None => false end.
Definition account_is_empty (a : Account) : bool :=
  (acc_nonce a =? 0) && (acc_balance a =? 0) &&
  match acc_bytecode_hash a with None => true | Some hash => hash =? KECCAK_EMPTY end.
Definition get_bytecode_hash (a : Account) : Z := default KECCAK_EMPTY (acc_bytecode_hash a).

(** ** Headers *)
Definition EMPTY_OMMER_ROOT_HASH : Z := 0x1dcc4de8dec75d7aab85b567b6ccd41ad312451b948a7413f0a142fd40d49347.
Definition EMPTY_ROOT_HASH : Z := 0x56e81f171bcc55a6ff8345e692c0f86e5b48e01b996cadc001622fb5e363b421.
Definition ALLOWED_FUTURE_BLOCK_TIME_SECONDS : Z := 15.

Record Header := mkHeader {
  h_parent_hash : Z;
  h_ommers_hash : Z;
  h_beneficiary : Address;
  h_state_root : Z;
  h_transactions_root : Z;
  h_receipts_root : Z;
  h_withdrawals_root : option Z;
  h_logs_bloom : Z;
  h_difficulty : Z;
  h_number : Z;
  h_gas_limit : Z;
  h_gas_used : Z;
  h_timestamp : Z;
  h_mix_hash : Z;
  h_nonce : Z;
  h_base_fee_per_gas : option Z;
  h_blob_gas_used : option Z;
  h_excess_blob_gas : option Z;
  h_parent_beacon_block_root : option Z;
  h_requests_root : option Z;
  h_extra_data : list Z;
}.

(** [Header::default]. *)
Definition Header_default : Header :=
  mkHeader 0 EMPTY_OMMER_ROOT_HASH 0 EMPTY_ROOT_HASH EMPTY_ROOT_HASH EMPTY_ROOT_HASH None 0 0 0 0 0 0 0 0
    None None None None None [].

Record SealedHeader := mkSealedHeader { sh_hash : Z; sh_header : Header }.

Inductive HeaderError := LargeDifficulty | LargeExtraData.

(** [U256::bit_len]. *)
Definition bit_len (x : Z) : Z := if x =? 0 then 0 else Z.log2 x + 1.

Definition is_zero_difficulty (h : Header) : bool := h_difficulty h =? 0.
Definition ensure_extradata_valid (h : Header) : option HeaderError :=
  if 100 * 1024 <? Z.of_nat (length (h_extra_data h)) then Some LargeExtraData else None.
Definition ensure_difficulty_valid (h : Header) : option HeaderError :=
  if 80 <? bit_len (h_difficulty h) then Some LargeDifficulty else None.
Definition ensure_well_formed (h : Header) : option HeaderError :=
  match ensure_difficulty_valid h with Some e => Some e | None => ensure_extradata_valid h end.
Definition is_timestamp_in_past (parent_timestamp : Z) (h : Header) : bool := h_timestamp h <=? parent_timestamp.
Definition exceeds_allowed_future_timestamp (present_timestamp : Z) (h : Header) : bool :=
  wrap_u64 (present_timestamp + ALLOWED_FUTURE_BLOCK_TIME_SECONDS) <? h_timestamp h.
Definition parent_num_hash (h : Header) : Z * Z := (Z.max 0 (h_number h - 1), h_parent_hash h).
Definition ommers_hash_is_empty (h : Header) : bool := h_ommers_hash h =? EMPTY_OMMER_ROOT_HASH.
Definition transaction_root_is_empty (h : Header) : bool := h_transactions_root h =? EMPTY_ROOT_HASH.
Definition header_is_empty (h : Header) : bool :=
  transaction_root_is_empty h && ommers_hash_is_empty h &&
  match h_withdrawals_root h with None => true | Some root => root =? EMPTY_ROOT_HASH end.

(** [BaseFeeParams] of [alloy-eips]. *)
Record BaseFeeParams := mkBaseFeeParams { max_change_denominator : Z; elasticity_multiplier : Z }.

Section next_block.
Context (calc_next_block_base_fee : Z → Z → Z → BaseFeeParams → Z) (calc_excess_blob_gas : Z → Z → Z).
Context (calc_blob_gasprice : Z → Z).

Definition next_block_base_fee (p : BaseFeeParams) (h : Header) : option Z :=
  base_fee ← h_base_fee_per_gas h;
  Some (wrap_u64 (calc_next_block_base_fee (h_gas_used h) (h_gas_limit h) base_fee p)).
Definition next_block_excess_blob_gas (h : Header) : option Z :=
  excess ← h_excess_blob_gas h;
  used ← h_blob_gas_used h;
  Some (calc_excess_blob_gas excess used).
Definition blob_fee (h : Header) : option Z := calc_blob_gasprice <$> h_excess_blob_gas h.
Definition next_block_blob_fee (h : Header) : option Z := calc_blob_gasprice <$> next_block_excess_blob_gas h.
End next_block.
