(* ===== verification/Codecs.v ===== *)
(** * The Compact implementations of stored types

    The derived implementations of [Account], [Header], [Withdrawal] and [Receipt], and the
    ones written by hand for [TxKind], [AccessList], [Log], authorizations, signatures and
    transaction types ([storage/codecs/src/alloy], [primitives-traits], [primitives]). *)

From stdpp Require Import prelude list strings.
From S2P Require Import Prelude.
From S2P Require Import Identifier.
From S2P Require Import Compact.
From S2P Require Import Derive.
From S2P Require Import BlobStore.
From S2P Require Import Header.
From S2P Require Import Transaction.

Notation u64_compact := (uint_compact 8).
Notation u128_compact := (uint_compact 16).
Notation b256_compact := (fixed_compact 32).
Notation address_compact := (fixed_compact 20).
Notation bloom_compact := (fixed_compact 256).

(** ** Written by hand *)

(** [TxKind]. *)
Definition txkind_compact : Compact TxKind :=
  plain
    (λ k, match k with Create => ([], 0) | CallTo address => ((to_compact address_compact address).1, 1) end)
    (λ buf identifier,
       if identifier =? 0 then Done (Create, buf)
       else if identifier =? 1 then
         '(addr, buf) ← from_compact address_compact buf (blen buf); Done (CallTo addr, buf)
       else Panics).

(** [AccessListItem] and [AccessList]. *)
Definition access_list_item_compact : Compact (Address * list Z) :=
  plain
    (λ i, let buffer := (to_compact address_compact i.1).1 ++ (specialized_to_compact (vec_compact b256_compact) i.2).1 in
          (buffer, blen buffer))
    (λ buf _,
       '(address, buf) ← from_compact address_compact buf (blen buf);
       '(storage_keys, buf) ← specialized_from_compact (vec_compact b256_compact) buf (blen buf);
       Done ((address, storage_keys), buf)).
Definition access_list_compact : Compact AccessList :=
  plain
    (λ l, let buffer := (to_compact (vec_compact access_list_item_compact) l).1 in (buffer, blen buffer))
    (λ buf _, from_compact (vec_compact access_list_item_compact) buf (blen buf)).

(** [LogData] and [Log]. *)
Record LogData := mkLogData { ld_topics : list Z; ld_data : list Z }.
Record Log := mkLog { log_address : Address; log_data : LogData }.
Definition log_data_compact : Compact LogData :=
  plain
    (λ d, let buffer := (specialized_to_compact (vec_compact b256_compact) (ld_topics d)).1 ++
                        (to_compact bytes_compact (ld_data d)).1 in
          (buffer, blen buffer))
    (λ buf _,
       '(topics, buf) ← specialized_from_compact (vec_compact b256_compact) buf (blen buf);
       '(data, buf) ← from_compact bytes_compact buf (blen buf);
       Done (mkLogData topics data, buf)).
Definition log_compact : Compact Log :=
  plain
    (λ l, let buffer := (to_compact address_compact (log_address l)).1 ++ (to_compact log_data_compact (log_data l)).1 in
          (buffer, blen buffer))
    (λ buf _,
       '(address, buf) ← from_compact address_compact buf (blen buf);
       '(data, buf) ← from_compact log_data_compact buf (blen buf);
       Done (mkLog address data, buf)).

(** [TxType]. *)
Inductive TxType := TypeLegacy | TypeEip2930 | TypeEip1559 | TypeEip4844 | TypeEip7702 | TypeDeposit.
Definition txtype_u8 (t : TxType) : Z :=
  match t with
  | TypeLegacy => LEGACY_TX_TYPE_ID
  | TypeEip2930 => EIP2930_TX_TYPE_ID
  | TypeEip1559 => EIP1559_TX_TYPE_ID
  | TypeEip4844 => PoolTx.EIP4844_TX_TYPE_ID
  | TypeEip7702 => EIP7702_TX_TYPE_ID
  | TypeDeposit => DEPOSIT_TX_TYPE_ID
  end.
Definition COMPACT_EXTENDED_IDENTIFIER_FLAG : Z := 3.
Definition txtype_compact : Compact TxType :=
  plain
    (λ t, match t with
          | TypeLegacy => ([], 0)
          | TypeEip2930 => ([], 1)
          | TypeEip1559 => ([], 2)
          | TypeEip4844 | TypeEip7702 | TypeDeposit => ([txtype_u8 t], COMPACT_EXTENDED_IDENTIFIER_FLAG)
          end)
    (λ buf identifier,
       if identifier =? 0 then Done (TypeLegacy, buf)
       else if identifier =? 1 then Done (TypeEip2930, buf)
       else if identifier =? 2 then Done (TypeEip1559, buf)
       else if identifier =? COMPACT_EXTENDED_IDENTIFIER_FLAG then
         '(extended_identifier, buf) ← get_u8 buf;
         if extended_identifier =? PoolTx.EIP4844_TX_TYPE_ID then Done (TypeEip4844, buf)
         else if extended_identifier =? EIP7702_TX_TYPE_ID then Done (TypeEip7702, buf)
         else if extended_identifier =? DEPOSIT_TX_TYPE_ID then Done (TypeDeposit, buf)
         else Panics
       else Panics).

(** [Signature]. *)
Record Signature := mkSignature { sig_r : Z; sig_s : Z; sig_odd_y_parity : bool }.
Definition signature_compact : Compact Signature :=
  plain
    (λ s, (to_le_bytes 32 (sig_r s) ++ to_le_bytes 32 (sig_s s), Z.b2z (sig_odd_y_parity s)))
    (λ buf identifier,
       _ ← assert_ (64 <=? blen buf);
       '(r, buf) ← take_bytes 32 buf;
       '(s, buf) ← take_bytes 32 buf;
       Done (mkSignature (from_le_bytes r) (from_le_bytes s) (negb (identifier =? 0)), buf)).

(** ** Derived *)
Section derived.
Context `{Bitfield} `{Zstd}.

(** [Account]. *)
Definition account_fields : Fields (Z * (Z * (option Z * unit))) :=
  FCons (mkField "u64" "" None u64_compact) (FCons (mkField "U256" "" None u256_compact)
  (FCons (mkField "Option" "B256" None (option_compact b256_compact)) FNil)).
Definition account_compact : Compact Account :=
  struct_compact (λ a, (acc_nonce a, (acc_balance a, (acc_bytecode_hash a, tt))))
    (λ '(n, (b, (h, _))), mkAccount n b h) account_fields false.

(** [Withdrawal]; the implementation for the type of [alloy-eips] goes through it, and
    returns the buffer it was given. *)
Record Withdrawal := mkWithdrawal { wd_index : Z; wd_validator_index : Z; wd_address : Address; wd_amount : Z }.
Definition withdrawal_fields : Fields (Z * (Z * (Address * (Z * unit)))) :=
  FCons (mkField "u64" "" None u64_compact) (FCons (mkField "u64" "" None u64_compact)
  (FCons (mkField "Address" "" None address_compact) (FCons (mkField "u64" "" None u64_compact) FNil))).
Definition withdrawal_compact : Compact Withdrawal :=
  struct_compact (λ w, (wd_index w, (wd_validator_index w, (wd_address w, (wd_amount w, tt)))))
    (λ '(i, (v, (a, (m, _)))), mkWithdrawal i v a m) withdrawal_fields false.
Definition alloy_withdrawal_compact : Compact Withdrawal :=
  plain (to_compact withdrawal_compact)
    (λ buf len, '(withdrawal, _) ← from_compact withdrawal_compact buf len; Done (withdrawal, buf)).

(** [Withdrawals], a struct with one unnamed field. *)
Definition withdrawals_fields : Fields (list Withdrawal * unit) :=
  FCons (mkField "Vec" "Withdrawal" None (vec_compact alloy_withdrawal_compact)) FNil.
Definition withdrawals_compact : Compact (list Withdrawal) :=
  struct_compact (λ l, (l, tt)) fst withdrawals_fields false.

(** [Authorization] and [SignedAuthorization]; [signature_valid] is whether
    [Signature::from_rs_and_parity] of [alloy-primitives] accepts the numbers. *)
Definition authorization_fields : Fields (Z * (Address * (option Z * unit))) :=
  FCons (mkField "ChainId" "" None u64_compact) (FCons (mkField "Address" "" None address_compact)
  (FCons (mkField "Option" "u64" None (option_compact u64_compact)) FNil)).
Definition authorization_compact : Compact (Z * Address * option Z) :=
  struct_compact (λ a, (a.1.1, (a.1.2, (a.2, tt)))) (λ '(c, (a, (n, _))), (c, a, n)) authorization_fields false.
Definition signed_authorization_compact (signature_valid : Z → Z → bool) : Compact SignedAuthorization :=
  plain
    (λ s, let '(bytes, len) := to_compact authorization_compact (sa_chain_id s, sa_address s, sa_nonce s) in
          ([Z.b2z (sa_y_parity s)] ++ to_le_bytes 32 (sa_r s) ++ to_le_bytes 32 (sa_s s) ++ bytes, 1 + 32 + 32 + len))
    (λ buf len,
       '(y, buf) ← get_u8 buf;
       '(r, buf) ← take_bytes 32 buf;
       '(s, buf) ← take_bytes 32 buf;
       _ ← assert_ (signature_valid (from_le_bytes r) (from_le_bytes s));
       '(auth, buf) ← from_compact authorization_compact buf len;
       Done (mkSignedAuthorization auth.1.1 auth.1.2 auth.2 (y =? 1) (from_le_bytes r) (from_le_bytes s), buf)).

(** [Header]. *)
Definition header_fields :=
  FCons (mkField "B256" "" None b256_compact)
  (FCons (mkField "B256" "" None b256_compact)
  (FCons (mkField "Address" "" None address_compact)
  (FCons (mkField "B256" "" None b256_compact)
  (FCons (mkField "B256" "" None b256_compact)
  (FCons (mkField "B256" "" None b256_compact)
  (FCons (mkField "Option" "B256" None (option_compact b256_compact))
  (FCons (mkField "Bloom" "" None bloom_compact)
  (FCons (mkField "U256" "" None u256_compact)
  (FCons (mkField "BlockNumber" "" None u64_compact)
  (FCons (mkField "u64" "" None u64_compact)
  (FCons (mkField "u64" "" None u64_compact)
  (FCons (mkField "u64" "" None u64_compact)
  (FCons (mkField "B256" "" None b256_compact)
  (FCons (mkField "u64" "" None u64_compact)
  (FCons (mkField "Option" "u64" None (option_compact u64_compact))
  (FCons (mkField "Option" "u64" None (option_compact u64_compact))
  (FCons (mkField "Option" "u64" None (option_compact u64_compact))
  (FCons (mkField "Option" "B256" None (option_compact b256_compact))
  (FCons (mkField "Option" "B256" None (option_compact b256_compact))
  (FCons (mkField "Bytes" "" None bytes_compact) FNil)))))))))))))))))))).
Definition header_compact : Compact Header :=
  struct_compact
    (λ h, (h_parent_hash h, (h_ommers_hash h, (h_beneficiary h, (h_state_root h, (h_transactions_root h,
      (h_receipts_root h, (h_withdrawals_root h, (h_logs_bloom h, (h_difficulty h, (h_number h, (h_gas_limit h,
      (h_gas_used h, (h_timestamp h, (h_mix_hash h, (h_nonce h, (h_base_fee_per_gas h, (h_blob_gas_used h,
      (h_excess_blob_gas h, (h_parent_beacon_block_root h, (h_requests_root h, (h_extra_data h, tt))))))))))))))))))))))
    (λ '(a, (b, (c, (d, (e, (f, (g, (h, (i, (j, (k, (l, (m, (n, (o, (p, (q, (r, (s, (t, (u, _))))))))))))))))))))),
      mkHeader a b c d e f g h i j k l m n o p q r s t u)
    header_fields false.

(** [Receipt], with compression. *)
Record Receipt := mkReceipt {
  rc_tx_type : TxType;
  rc_success : bool;
  rc_cumulative_gas_used : Z;
  rc_logs : list Log;
  rc_deposit_nonce : option Z;
  rc_deposit_receipt_version : option Z;
}.
Definition receipt_fields :=
  FCons (mkField "TxType" "" None txtype_compact)
  (FCons (mkField "bool" "" None bool_compact)
  (FCons (mkField "u64" "" None u64_compact)
  (FCons (mkField "Vec" "Log" None (vec_compact log_compact))
  (FCons (mkField "Option" "u64" None (option_compact u64_compact))
  (FCons (mkField "Option" "u64" None (option_compact u64_compact)) FNil))))).
Definition receipt_compact : Compact Receipt :=
  struct_compact
    (λ r, (rc_tx_type r, (rc_success r, (rc_cumulative_gas_used r, (rc_logs r,
      (rc_deposit_nonce r, (rc_deposit_receipt_version r, tt)))))))
    (λ '(t, (s, (g, (l, (n, (v, _)))))), mkReceipt t s g l n v)
    receipt_fields true.
End derived.

(** ** Laws of the implementations written by hand *)
Definition address_ok (a : Address) : Prop := uint_ok 20 a.
Definition b256_ok (h : Z) : Prop := uint_ok 32 h.
Definition txkind_ok (k : TxKind) : Prop := match k with Create => True | CallTo a => address_ok a end.
Definition access_item_ok (i : Address * list Z) : Prop := address_ok i.1 ∧ vec_ok b256_ok i.2.
Definition access_list_ok : AccessList → Prop := vec_ok (sized_ok access_list_item_compact access_item_ok).
Definition log_data_ok (d : LogData) : Prop := vec_ok b256_ok (ld_topics d) ∧ bytes_ok (ld_data d).
Definition log_ok (l : Log) : Prop := address_ok (log_address l) ∧ log_data_ok (log_data l).
Definition signature_ok (s : Signature) : Prop := uint_ok 32 (sig_r s) ∧ uint_ok 32 (sig_s s).

(** An address, and a vector of hashes, read from the front of a buffer. *)
Lemma read_address a rest :
  address_ok a →
  from_compact address_compact ((to_compact address_compact a).1 ++ rest)
    (blen ((to_compact address_compact a).1 ++ rest)) = Done (a, rest).
Proof.
  intros Ha. apply (fixed_self_delimiting 20); [done|]. pose proof (fixed_non_empty 19 a Ha) as H.
  rewrite length_app. lia.
Qed.
Lemma read_hashes l rest :
  vec_ok b256_ok l →
  specialized_from_compact (vec_compact b256_compact)
    ((specialized_to_compact (vec_compact b256_compact) l).1 ++ rest)
    (blen ((specialized_to_compact (vec_compact b256_compact) l).1 ++ rest)) = Done (l, rest).
Proof.
  intros Hl. apply (vec_specialized_self_delimiting b256_compact b256_ok _ l rest); [done|].
  pose proof (vec_specialized_non_empty b256_compact (λ _, True) l I) as H.
  change (0 < blen (specialized_to_compact (vec_compact b256_compact) l).1) in H. rewrite length_app. lia.
Qed.

#[export] Instance txkind_round_trips : RoundTrips txkind_compact txkind_ok.
Proof.
  intros [|a] rest Ha; [done|].
  change (('(addr, buf) ← from_compact address_compact ((to_compact address_compact a).1 ++ rest)
            (blen ((to_compact address_compact a).1 ++ rest)); Done (CallTo addr, buf)) = Done (CallTo a, rest)).
  by rewrite read_address.
Qed.
#[export] Instance txkind_flag_bound : FlagBound txkind_compact txkind_ok 1.
Proof. intros [|a] _; unfold to_compact; simpl; lia. Qed.

#[export] Instance txtype_round_trips : RoundTrips txtype_compact (λ _, True).
Proof. by intros [] rest _. Qed.
#[export] Instance txtype_flag_bound : FlagBound txtype_compact (λ _, True) 3.
Proof. intros [] _; by vm_compute. Qed.

#[export] Instance signature_round_trips : RoundTrips signature_compact signature_ok.
Proof.
  intros [r s y] rest [Hr Hs].
  change (((_ ← assert_ (64 <=? blen ((to_le_bytes 32 r ++ to_le_bytes 32 s) ++ rest));
           '(r, buf) ← take_bytes 32 ((to_le_bytes 32 r ++ to_le_bytes 32 s) ++ rest);
           '(s, buf) ← take_bytes 32 buf;
           Done (mkSignature (from_le_bytes r) (from_le_bytes s) (negb (Z.b2z y =? 0)), buf)) : outcome _) =
          Done (mkSignature r s y, rest)).
  rewrite !length_app, !to_le_bytes_length, (proj2 (Z.leb_le _ _)), <-app_assoc by lia.
  cbn [assert_]. rewrite bind_Done.
  rewrite (take_bytes_app_eq 32 (to_le_bytes 32 r)), bind_Done by by rewrite to_le_bytes_length.
  rewrite (take_bytes_app_eq 32 (to_le_bytes 32 s)), bind_Done by by rewrite to_le_bytes_length.
  rewrite !from_to_le_bytes by done. by destruct y.
Qed.

(** What the implementation for an item of an access list writes and reads. *)
Lemma access_item_bytes a l :
  (to_compact access_list_item_compact (a, l)).1 =
    (to_compact address_compact a).1 ++ (specialized_to_compact (vec_compact b256_compact) l).1.
Proof. done. Qed.
Lemma access_item_from buf n :
  from_compact access_list_item_compact buf n =
    ('(address, buf) ← from_compact address_compact buf (blen buf);
     '(storage_keys, buf) ← specialized_from_compact (vec_compact b256_compact) buf (blen buf);
     Done ((address, storage_keys), buf)).
Proof. done. Qed.

#[export] Instance access_item_self_delimiting : SelfDelimiting access_list_item_compact access_item_ok.
Proof.
  intros [a l] rest n [Ha Hl] _. rewrite access_item_bytes, access_item_from.
  by rewrite <-app_assoc, read_address, bind_Done, read_hashes.
Qed.
#[export] Instance access_item_measured : Measured access_list_item_compact access_item_ok.
Proof. done. Qed.
#[export] Instance access_item_non_empty : NonEmpty access_list_item_compact access_item_ok.
Proof.
  intros [a l] [Ha _]. rewrite access_item_bytes, length_app.
  pose proof (fixed_non_empty 19 a Ha). lia.
Qed.
#[export] Instance access_item_trailing : Trailing access_list_item_compact access_item_ok.
Proof. apply self_delimiting_trailing; apply _. Qed.

#[export] Instance access_list_self_delimiting : SelfDelimiting access_list_compact access_list_ok.
Proof. intros l rest n Hl _. apply (vec_from_compact _ access_item_ok); [apply _..|done]. Qed.
#[export] Instance access_list_non_empty : NonEmpty access_list_compact access_list_ok.
Proof. intros l Hl. apply (vec_non_empty access_list_item_compact access_list_ok l Hl). Qed.

Lemma log_data_bytes topics data :
  (to_compact log_data_compact (mkLogData topics data)).1 =
    (specialized_to_compact (vec_compact b256_compact) topics).1 ++ data.
Proof. done. Qed.
Lemma log_data_from buf n :
  from_compact log_data_compact buf n =
    ('(topics, buf) ← specialized_from_compact (vec_compact b256_compact) buf (blen buf);
     '(data, buf) ← take_bytes (blen buf) buf;
     Done (mkLogData topics data, buf)).
Proof. done. Qed.
Lemma log_bytes a d :
  (to_compact log_compact (mkLog a d)).1 = (to_compact address_compact a).1 ++ (to_compact log_data_compact d).1.
Proof. done. Qed.
Lemma log_from buf n :
  from_compact log_compact buf n =
    ('(address, buf) ← from_compact address_compact buf (blen buf);
     '(data, buf) ← from_compact log_data_compact buf (blen buf);
     Done (mkLog address data, buf)).
Proof. done. Qed.

#[export] Instance log_data_trailing : Trailing log_data_compact log_data_ok.
Proof.
  intros [topics data] [Ht Hd]. exists []. rewrite log_data_bytes, log_data_from, read_hashes, bind_Done by done.
  pose proof (take_bytes_app data []) as H. rewrite app_nil_r in H. by rewrite H.
Qed.
#[export] Instance log_data_measured : Measured log_data_compact log_data_ok.
Proof. done. Qed.
#[export] Instance log_trailing : Trailing log_compact log_ok.
Proof.
  intros [a d] [Ha Hd]. destruct (log_data_trailing d Hd) as [rest Hr]. exists rest.
  by rewrite log_bytes, log_from, read_address, bind_Done, Hr.
Qed.
#[export] Instance log_measured : Measured log_compact log_ok.
Proof. done. Qed.

(** ** Laws of the derived implementations *)
Lemma uint_sized size x : (size <= 64)%nat → uint_ok size x → sized_ok (uint_compact size) (uint_ok size) x.
Proof.
  intros Hs Hx. split; [done|]. rewrite <-(uint_measured size x Hx). pose proof (uint_length_le size x Hx).
  unfold U64. lia.
Qed.
Lemma option_uint_sized size o :
  (size <= 64)%nat → option_ok (uint_ok size) o → option_ok (sized_ok (uint_compact size) (uint_ok size)) o.
Proof. destruct o; simpl; [|done]. apply uint_sized. Qed.

(** The fields of a struct, and then the conditions on a value one after the other. *)
Ltac struct_lawful :=
  eexists; split;
  [ lawful_fields
  | let Ha := fresh in
    intros ? Ha; destruct Ha; destruct_and?; simpl;
    repeat match goal with |- _ ∧ _ => split end;
    first [exact I|assumption|apply option_uint_sized; [lia|assumption]|match goal with |- option_ok _ ?o => by destruct o end] ].

Definition account_ok (a : Account) : Prop :=
  uint_ok 8 (acc_nonce a) ∧ uint_ok 32 (acc_balance a) ∧ option_ok b256_ok (acc_bytecode_hash a).
Definition withdrawal_ok (w : Withdrawal) : Prop :=
  uint_ok 8 (wd_index w) ∧ uint_ok 8 (wd_validator_index w) ∧ address_ok (wd_address w) ∧ uint_ok 8 (wd_amount w).
Definition authorization_ok (a : Z * Address * option Z) : Prop :=
  uint_ok 8 a.1.1 ∧ address_ok a.1.2 ∧ option_ok (uint_ok 8) a.2.
Record header_ok (h : Header) : Prop := {
  hk_parent_hash : b256_ok (h_parent_hash h);
  hk_ommers_hash : b256_ok (h_ommers_hash h);
  hk_beneficiary : address_ok (h_beneficiary h);
  hk_state_root : b256_ok (h_state_root h);
  hk_transactions_root : b256_ok (h_transactions_root h);
  hk_receipts_root : b256_ok (h_receipts_root h);
  hk_withdrawals_root : option_ok b256_ok (h_withdrawals_root h);
  hk_logs_bloom : uint_ok 256 (h_logs_bloom h);
  hk_difficulty : uint_ok 32 (h_difficulty h);
  hk_number : uint_ok 8 (h_number h);
  hk_gas_limit : uint_ok 8 (h_gas_limit h);
  hk_gas_used : uint_ok 8 (h_gas_used h);
  hk_timestamp : uint_ok 8 (h_timestamp h);
  hk_mix_hash : b256_ok (h_mix_hash h);
  hk_nonce : uint_ok 8 (h_nonce h);
  hk_base_fee_per_gas : option_ok (uint_ok 8) (h_base_fee_per_gas h);
  hk_blob_gas_used : option_ok (uint_ok 8) (h_blob_gas_used h);
  hk_excess_blob_gas : option_ok (uint_ok 8) (h_excess_blob_gas h);
  hk_parent_beacon_block_root : option_ok b256_ok (h_parent_beacon_block_root h);
  hk_requests_root : option_ok b256_ok (h_requests_root h);
  hk_extra_data : bytes_ok (h_extra_data h);
}.
Definition receipt_ok (r : Receipt) : Prop :=
  uint_ok 8 (rc_cumulative_gas_used r) ∧ vec_ok (sized_ok log_compact log_ok) (rc_logs r) ∧
  option_ok (uint_ok 8) (rc_deposit_nonce r) ∧ option_ok (uint_ok 8) (rc_deposit_receipt_version r).


Lemma account_lawful :
  ∃ ok, lawful account_fields ok false ∧
    ∀ a, account_ok a → ok (acc_nonce a, (acc_balance a, (acc_bytecode_hash a, tt))).
Proof. unfold account_fields. struct_lawful. Qed.

Lemma withdrawal_lawful :
  ∃ ok, lawful withdrawal_fields ok false ∧
    ∀ w, withdrawal_ok w → ok (wd_index w, (wd_validator_index w, (wd_address w, (wd_amount w, tt)))).
Proof. unfold withdrawal_fields. struct_lawful. Qed.

Lemma authorization_lawful :
  ∃ ok, lawful authorization_fields ok false ∧ ∀ a, authorization_ok a → ok (a.1.1, (a.1.2, (a.2, tt))).
Proof. unfold authorization_fields. struct_lawful. Qed.

Lemma header_lawful :
  ∃ ok, lawful header_fields ok true ∧
    ∀ h, header_ok h → ok (h_parent_hash h, (h_ommers_hash h, (h_beneficiary h, (h_state_root h, (h_transactions_root h,
      (h_receipts_root h, (h_withdrawals_root h, (h_logs_bloom h, (h_difficulty h, (h_number h, (h_gas_limit h,
      (h_gas_used h, (h_timestamp h, (h_mix_hash h, (h_nonce h, (h_base_fee_per_gas h, (h_blob_gas_used h,
      (h_excess_blob_gas h, (h_parent_beacon_block_root h, (h_requests_root h, (h_extra_data h, tt))))))))))))))))))))).
Proof. unfold header_fields. struct_lawful. Qed.

Lemma receipt_lawful :
  ∃ ok, lawful receipt_fields ok false ∧
    ∀ r, receipt_ok r → ok (rc_tx_type r, (rc_success r, (rc_cumulative_gas_used r, (rc_logs r,
      (rc_deposit_nonce r, (rc_deposit_receipt_version r, tt)))))).
Proof. unfold receipt_fields. struct_lawful. Qed.

Section derived_laws.
Context `{BL : BitfieldLaws} `{ZL : ZstdLaws}.

#[export] Instance account_self_delimiting : SelfDelimiting account_compact account_ok.
Proof.
  destruct account_lawful as (ok & Hl & Hok). intros a rest n Ha Hn.
  apply (struct_self_delimiting account_fields ok); [by intros []|done|by apply Hok|done].
Qed.

#[export] Instance withdrawal_self_delimiting : SelfDelimiting withdrawal_compact withdrawal_ok.
Proof.
  destruct withdrawal_lawful as (ok & Hl & Hok). intros w rest n Hw Hn.
  apply (struct_self_delimiting withdrawal_fields ok); [by intros []|done|by apply Hok|done].
Qed.
Lemma withdrawal_reads w n :
  withdrawal_ok w → ∃ rest, from_compact withdrawal_compact (to_compact withdrawal_compact w).1 n = Done (w, rest).
Proof.
  intros Hw. destruct withdrawal_lawful as (ok & Hl & Hok).
  eapply (struct_reads withdrawal_fields ok); [by intros []|exact Hl|by apply Hok].
Qed.
#[export] Instance alloy_withdrawal_trailing : Trailing alloy_withdrawal_compact withdrawal_ok.
Proof.
  intros w Hw. destruct (withdrawal_reads w (blen (to_compact withdrawal_compact w).1) Hw) as [rest Hr].
  exists (to_compact withdrawal_compact w).1.
  change ((('(x, _) ← from_compact withdrawal_compact (to_compact withdrawal_compact w).1
             (blen (to_compact withdrawal_compact w).1); Done (x, (to_compact withdrawal_compact w).1)) : outcome _) =
          Done (w, (to_compact withdrawal_compact w).1)).
  by rewrite Hr.
Qed.
#[export] Instance alloy_withdrawal_measured : Measured alloy_withdrawal_compact withdrawal_ok.
Proof. intros w _. apply (struct_measured withdrawal_fields (λ _, True) _ _ w I). Qed.

Definition withdrawals_ok : list Withdrawal → Prop := vec_ok (sized_ok alloy_withdrawal_compact withdrawal_ok).
Lemma withdrawals_lawful :
  ∃ ok, lawful withdrawals_fields ok false ∧ ∀ l, withdrawals_ok l → ok (l, tt).
Proof. unfold withdrawals_fields, withdrawals_ok. eexists. split; [lawful_fields|done]. Qed.

Lemma authorization_reads a n rest :
  authorization_ok a → 0 < n →
  from_compact authorization_compact ((to_compact authorization_compact a).1 ++ rest) n = Done (a, rest).
Proof.
  intros Ha Hn. destruct authorization_lawful as (ok & Hl & Hok).
  apply (struct_self_delimiting authorization_fields ok); [by intros [[]]|done|by apply Hok|done].
Qed.
Lemma authorization_length a : (to_compact authorization_compact a).2 = blen (to_compact authorization_compact a).1.
Proof. apply (struct_measured authorization_fields (λ _, True) _ _ a I). Qed.

(** *** Signed authorizations *)
Context (signature_valid : Z → Z → bool).
Definition signed_authorization_ok (a : SignedAuthorization) : Prop :=
  authorization_ok (sa_chain_id a, sa_address a, sa_nonce a) ∧ uint_ok 32 (sa_r a) ∧ uint_ok 32 (sa_s a) ∧
  signature_valid (sa_r a) (sa_s a) = true.

Lemma signed_authorization_to a :
  to_compact (signed_authorization_compact signature_valid) a =
    ([Z.b2z (sa_y_parity a)] ++ to_le_bytes 32 (sa_r a) ++ to_le_bytes 32 (sa_s a) ++
       (to_compact authorization_compact (sa_chain_id a, sa_address a, sa_nonce a)).1,
     1 + 32 + 32 + (to_compact authorization_compact (sa_chain_id a, sa_address a, sa_nonce a)).2).
Proof.
  change (to_compact (signed_authorization_compact signature_valid) a) with
    (let '(bytes, len) := to_compact authorization_compact (sa_chain_id a, sa_address a, sa_nonce a) in
     ([Z.b2z (sa_y_parity a)] ++ to_le_bytes 32 (sa_r a) ++ to_le_bytes 32 (sa_s a) ++ bytes, 1 + 32 + 32 + len)).
  by destruct (to_compact authorization_compact _).
Qed.

#[export] Instance signed_authorization_measured :
  Measured (signed_authorization_compact signature_valid) signed_authorization_ok.
Proof.
  intros a _. rewrite signed_authorization_to. cbn [fst snd].
  rewrite authorization_length, !length_app, !to_le_bytes_length. cbn [length]. lia.
Qed.

Lemma signed_authorization_from y r s bytes n :
  uint_ok 32 r → uint_ok 32 s → signature_valid r s = true →
  from_compact (signed_authorization_compact signature_valid)
    ([Z.b2z y] ++ to_le_bytes 32 r ++ to_le_bytes 32 s ++ bytes) n =
  ('(auth, buf) ← from_compact authorization_compact bytes n;
   Done (mkSignedAuthorization auth.1.1 auth.1.2 auth.2 y r s, buf)).
Proof.
  intros Hr Hs Hv. unfold signed_authorization_compact, from_compact at 1. cbn [plain get_u8 app]. rewrite bind_Done.
  rewrite (take_bytes_app_eq 32 (to_le_bytes 32 r)), bind_Done by by rewrite to_le_bytes_length.
  rewrite (take_bytes_app_eq 32 (to_le_bytes 32 s)), bind_Done by by rewrite to_le_bytes_length.
  rewrite !from_to_le_bytes, Hv by done. cbn [assert_]. rewrite bind_Done. by destruct y.
Qed.

#[export] Instance signed_authorization_trailing :
  Trailing (signed_authorization_compact signature_valid) signed_authorization_ok.
Proof.
  intros a (Ha & Hr & Hs & Hv). exists [].
  rewrite signed_authorization_to. cbn [fst]. rewrite signed_authorization_from by done.
  pose proof (authorization_reads (sa_chain_id a, sa_address a, sa_nonce a)) as Hread.
  rewrite <-(app_nil_r (to_compact authorization_compact _).1) at 1. rewrite Hread; [by destruct a|done|].
  rewrite length_app. cbn [length]. lia.
Qed.
End derived_laws.

(** C32. What the database stores, it gives back.  An account and a list of withdrawals are
    read back from the front of any buffer, with what follows left over; a header and a
    receipt are read back from their bytes, and the receipt also if it was compressed.  The
    length that is passed may be any positive number, also one smaller than the buffer, for
    which the documentation of the trait announces a panic.  This holds for every packing of the
    flags and every compression that can be undone. *)
Theorem stored_values_roundtrip `{BL : BitfieldLaws} `{ZL : ZstdLaws} a w h r rest n :
  account_ok a → withdrawals_ok w → header_ok h → receipt_ok r → 0 < n →
  from_compact account_compact ((to_compact account_compact a).1 ++ rest) n = Done (a, rest) ∧
  from_compact withdrawals_compact ((to_compact withdrawals_compact w).1 ++ rest) n = Done (w, rest) ∧
  (∃ rest', from_compact header_compact (to_compact header_compact h).1 n = Done (h, rest')) ∧
  (∃ rest', from_compact receipt_compact (to_compact receipt_compact r).1 n = Done (r, rest')).
Proof.
  intros Ha Hw Hh Hr Hn. split_and!.
  - by apply account_self_delimiting.
  - destruct withdrawals_lawful as (ok & Hl & Hok).
    by apply (struct_self_delimiting withdrawals_fields ok); [|done|apply Hok|].
  - destruct header_lawful as (ok & Hl & Hok).
    eapply (struct_reads header_fields ok); [by intros []|exact Hl|by apply Hok].
  - destruct receipt_lawful as (ok & Hl & Hok).
    eapply (struct_reads receipt_fields ok); [by intros []|exact Hl|by apply Hok].
Qed.

(** The sizes of the flags that the tests of the database models fix. *)
Example flag_bytes :
  (λ w, total (pad_flag_struct w) / 8) <$>
    [flag_widths account_fields false; flag_widths withdrawal_fields false; flag_widths header_fields false;
     flag_widths receipt_fields true] = [2; 2; 4; 2] ∧
  well_placed account_fields = true ∧ well_placed withdrawal_fields = true ∧ well_placed header_fields = true ∧
  well_placed receipt_fields = true ∧ well_placed authorization_fields = true.
Proof. by vm_compute. Qed.

(** The conditions on the elements of a concrete list. *)
Ltac each_ok := repeat (apply Forall_cons; split; [by vm_compute|]); by apply Forall_nil.

Module Stored.
Import Lsb Marked.
Definition example_receipt : Receipt :=
  mkReceipt TypeDeposit true 21000 [mkLog 7 (mkLogData [1; 2] [9; 9])] (Some 3) None.
Definition example_account : Account := mkAccount 5 1000 (Some KECCAK_EMPTY).
Definition example_withdrawals : list Withdrawal := [mkWithdrawal 1 2 3 4; mkWithdrawal 5 0 7 300].

Lemma example_withdrawals_ok : withdrawals_ok example_withdrawals.
Proof. split; [by vm_compute|]. each_ok. Qed.
Lemma example_receipt_ok : receipt_ok example_receipt.
Proof.
  split; [by vm_compute|]. split; [|by vm_compute]. split; [by vm_compute|]. apply Forall_singleton.
  split; [|by vm_compute]. split; [by vm_compute|].
  split; [split; [by vm_compute|each_ok]|split; [each_ok|by vm_compute]].
Qed.

Lemma stored_values_roundtrip_witness :
  from_compact account_compact ((to_compact account_compact example_account).1 ++ [7]) 1 = Done (example_account, [7]) ∧
  from_compact withdrawals_compact ((to_compact withdrawals_compact example_withdrawals).1 ++ [7]) 1 =
    Done (example_withdrawals, [7]) ∧
  (∃ rest', from_compact header_compact (to_compact header_compact Header_default).1 1 = Done (Header_default, rest')) ∧
  (∃ rest', from_compact receipt_compact (to_compact receipt_compact example_receipt).1 1 = Done (example_receipt, rest')).
Proof.
  apply (stored_values_roundtrip example_account example_withdrawals Header_default example_receipt [7] 1).
  - by vm_compute.
  - exact example_withdrawals_ok.
  - split; by vm_compute.
  - exact example_receipt_ok.
  - done.
Defined.

(** The trait says that the returned buffer is advanced; that of a withdrawal is not. *)
Theorem withdrawal_cursor_stays w rest n :
  withdrawal_ok w → 0 < n →
  from_compact alloy_withdrawal_compact ((to_compact alloy_withdrawal_compact w).1 ++ rest) n =
    Done (w, (to_compact alloy_withdrawal_compact w).1 ++ rest).
Proof.
  intros Hw Hn.
  change (((('(x, _) ← from_compact withdrawal_compact ((to_compact withdrawal_compact w).1 ++ rest) n;
            Done (x, (to_compact withdrawal_compact w).1 ++ rest)) : outcome _)) =
    Done (w, (to_compact withdrawal_compact w).1 ++ rest)).
  by rewrite (withdrawal_self_delimiting w rest n Hw Hn).
Qed.

(** A vector of vectors is written with 0 as the length of its elements, and is not read back. *)
Theorem nested_vec_unreadable :
  from_compact (vec_compact (vec_compact u64_compact)) (to_compact (vec_compact (vec_compact u64_compact)) [[5]]).1 1 =
    Panics.
Proof. by vm_compute. Qed.

(** A field with the attribute [maybe_zero] is left out if it is zero, and read all the same. *)
Theorem maybe_zero_unreadable :
  let fs := FCons (mkField "B256" "" (Some (λ x, x =? 0)) b256_compact) (FCons (mkField "u64" "" None u64_compact) FNil) in
  from_compact (derive_compact fs false) (to_compact (derive_compact fs false) (0, (5, tt))).1 1 = Panics.
Proof. by vm_compute. Qed.

(** The length returned for a compressed receipt is not that of the bytes written. *)
Theorem compressed_length_differs :
  (to_compact receipt_compact example_receipt).2 = 96 ∧ blen (to_compact receipt_compact example_receipt).1 = 97.
Proof. by vm_compute. Qed.
End Stored.
