(* ===== verification/TxCodec.v ===== *)
(** * Stored transactions

    The derived implementations of the six kinds of transactions
    ([primitives/src/transaction]), and those of [Transaction] and
    [TransactionSignedNoHash], the form in which the database holds a signed transaction
    ([primitives/src/transaction/mod.rs]). *)

From stdpp Require Import prelude list strings.
From S2P Require Import Prelude.
From S2P Require Import Identifier.
From S2P Require Import PoolTx.
From S2P Require Import Compact.
From S2P Require Import Derive.
From S2P Require Import BlobStore.
From S2P Require Import Transaction.
From S2P Require Import Header.
From S2P Require Import Codecs.

Definition chain_id_field := mkField "ChainId" "" None u64_compact.
Definition u64_field := mkField "u64" "" None u64_compact.
Definition u128_field := mkField "u128" "" None u128_compact.
Definition u256_field := mkField "U256" "" None u256_compact.
Definition txkind_field := mkField "TxKind" "" None txkind_compact.
Definition access_list_field := mkField "AccessList" "" None access_list_compact.
Definition bytes_field := mkField "Bytes" "" None bytes_compact.

Definition legacy_fields :=
  FCons (mkField "Option" "ChainId" None (option_compact u64_compact)) (FCons u64_field (FCons u128_field
  (FCons u64_field (FCons txkind_field (FCons u256_field (FCons bytes_field FNil)))))).
Definition eip2930_fields :=
  FCons chain_id_field (FCons u64_field (FCons u128_field (FCons u64_field (FCons txkind_field
  (FCons u256_field (FCons access_list_field (FCons bytes_field FNil))))))).
Definition eip1559_fields :=
  FCons chain_id_field (FCons u64_field (FCons u64_field (FCons u128_field (FCons u128_field (FCons txkind_field
  (FCons u256_field (FCons access_list_field (FCons bytes_field FNil)))))))).
Definition eip4844_fields :=
  FCons chain_id_field (FCons u64_field (FCons u64_field (FCons u128_field (FCons u128_field
  (FCons (mkField "Option" "CompactPlaceholder" None (option_compact placeholder_compact))
  (FCons (mkField "Address" "" None address_compact) (FCons u256_field (FCons access_list_field
  (FCons (mkField "Vec" "B256" None (vec_compact b256_compact)) (FCons u128_field
  (FCons bytes_field FNil))))))))))).
Definition deposit_fields :=
  FCons (mkField "B256" "" None b256_compact) (FCons (mkField "Address" "" None address_compact) (FCons txkind_field
  (FCons (mkField "Option" "u128" None (option_compact u128_compact)) (FCons u256_field (FCons u64_field
  (FCons (mkField "bool" "" None bool_compact) (FCons bytes_field FNil))))))).

(** ** The implementations *)
Section codec.
Context `{Bitfield} `{Zstd} (signature_valid : Z → Z → bool).

Definition eip7702_fields :=
  FCons chain_id_field (FCons u64_field (FCons u64_field (FCons u128_field (FCons u128_field (FCons txkind_field
  (FCons u256_field (FCons access_list_field
  (FCons (mkField "Vec" "SignedAuthorization" None (vec_compact (signed_authorization_compact signature_valid)))
  (FCons bytes_field FNil))))))))).

Definition legacy_compact : Compact Tx.TxLegacy :=
  struct_compact
    (λ t, (Tx.lg_chain_id t, (Tx.lg_nonce t, (Tx.lg_gas_price t, (Tx.lg_gas_limit t, (Tx.lg_to t, (Tx.lg_value t,
      (Tx.lg_input t, tt))))))))
    (λ '(a, (b, (c, (d, (e, (f, (g, _))))))), Tx.mkTxLegacy a b c d e f g) legacy_fields false.
Definition eip2930_compact : Compact Tx.TxEip2930 :=
  struct_compact
    (λ t, (Tx.al_chain_id t, (Tx.al_nonce t, (Tx.al_gas_price t, (Tx.al_gas_limit t, (Tx.al_to t, (Tx.al_value t,
      (Tx.al_access_list t, (Tx.al_input t, tt)))))))))
    (λ '(a, (b, (c, (d, (e, (f, (g, (h, _)))))))), Tx.mkTxEip2930 a b c d e f g h) eip2930_fields false.
Definition eip1559_compact : Compact Tx.TxEip1559 :=
  struct_compact
    (λ t, (Tx.df_chain_id t, (Tx.df_nonce t, (Tx.df_gas_limit t, (Tx.df_max_fee_per_gas t,
      (Tx.df_max_priority_fee_per_gas t, (Tx.df_to t, (Tx.df_value t, (Tx.df_access_list t, (Tx.df_input t, tt))))))))))
    (λ '(a, (b, (c, (d, (e, (f, (g, (h, (i, _))))))))), Tx.mkTxEip1559 a b c d e f g h i) eip1559_fields false.
Definition eip4844_compact : Compact Tx.TxEip4844 :=
  struct_compact
    (λ t, (Tx.bl_chain_id t, (Tx.bl_nonce t, (Tx.bl_gas_limit t, (Tx.bl_max_fee_per_gas t,
      (Tx.bl_max_priority_fee_per_gas t, (Tx.bl_placeholder t, (Tx.bl_to t, (Tx.bl_value t, (Tx.bl_access_list t,
      (Tx.bl_blob_versioned_hashes t, (Tx.bl_max_fee_per_blob_gas t, (Tx.bl_input t, tt)))))))))))))
    (λ '(a, (b, (c, (d, (e, (f, (g, (h, (i, (j, (k, (l, _)))))))))))), Tx.mkTxEip4844 a b c d e f g h i j k l)
    eip4844_fields false.
Definition eip7702_compact : Compact Tx.TxEip7702 :=
  struct_compact
    (λ t, (Tx.sc_chain_id t, (Tx.sc_nonce t, (Tx.sc_gas_limit t, (Tx.sc_max_fee_per_gas t,
      (Tx.sc_max_priority_fee_per_gas t, (Tx.sc_to t, (Tx.sc_value t, (Tx.sc_access_list t,
      (Tx.sc_authorization_list t, (Tx.sc_input t, tt)))))))))))
    (λ '(a, (b, (c, (d, (e, (f, (g, (h, (i, (j, _)))))))))), Tx.mkTxEip7702 a b c d e f g h i j) eip7702_fields false.
Definition deposit_compact : Compact Tx.TxDeposit :=
  struct_compact
    (λ t, (Tx.dp_source_hash t, (Tx.dp_from t, (Tx.dp_to t, (Tx.dp_mint t, (Tx.dp_value t, (Tx.dp_gas_limit t,
      (Tx.dp_is_system_transaction t, (Tx.dp_input t, tt)))))))))
    (λ '(a, (b, (c, (d, (e, (f, (g, (h, _)))))))), Tx.mkTxDeposit a b c d e f g h) deposit_fields false.

(** [Transaction::tx_type]. *)
Definition tx_type_of (t : Tx.Transaction) : TxType :=
  match t with
  | Tx.Legacy _ => TypeLegacy
  | Tx.Eip2930 _ => TypeEip2930
  | Tx.Eip1559 _ => TypeEip1559
  | Tx.Eip4844 _ => TypeEip4844
  | Tx.Eip7702 _ => TypeEip7702
  | Tx.Deposit _ => TypeDeposit
  end.

(** The bytes of the variant. *)
Definition variant_bytes (t : Tx.Transaction) : list Z :=
  match t with
  | Tx.Legacy tx => (to_compact legacy_compact tx).1
  | Tx.Eip2930 tx => (to_compact eip2930_compact tx).1
  | Tx.Eip1559 tx => (to_compact eip1559_compact tx).1
  | Tx.Eip4844 tx => (to_compact eip4844_compact tx).1
  | Tx.Eip7702 tx => (to_compact eip7702_compact tx).1
  | Tx.Deposit tx => (to_compact deposit_compact tx).1
  end.

(** [Transaction]: the returned number is the identifier of the type. *)
Definition transaction_compact : Compact Tx.Transaction :=
  plain
    (λ t, let '(bytes, identifier) := to_compact txtype_compact (tx_type_of t) in (bytes ++ variant_bytes t, identifier))
    (λ buf identifier,
       if identifier =? 0 then
         '(tx, buf) ← from_compact legacy_compact buf (blen buf); Done (Tx.Legacy tx, buf)
       else if identifier =? 1 then
         '(tx, buf) ← from_compact eip2930_compact buf (blen buf); Done (Tx.Eip2930 tx, buf)
       else if identifier =? 2 then
         '(tx, buf) ← from_compact eip1559_compact buf (blen buf); Done (Tx.Eip1559 tx, buf)
       else if identifier =? 3 then
         '(identifier, buf) ← get_u8 buf;
         if identifier =? 3 then
           '(tx, buf) ← from_compact eip4844_compact buf (blen buf); Done (Tx.Eip4844 tx, buf)
         else if identifier =? 4 then
           '(tx, buf) ← from_compact eip7702_compact buf (blen buf); Done (Tx.Eip7702 tx, buf)
         else if identifier =? 126 then
           '(tx, buf) ← from_compact deposit_compact buf (blen buf); Done (Tx.Deposit tx, buf)
         else Panics
       else Panics).

(** [TransactionSignedNoHash].  The placeholder for the flags is replaced at the end. *)
Record TransactionSignedNoHash := mkSignedNoHash { sn_signature : Signature; sn_transaction : Tx.Transaction }.
Definition signed_no_hash_compact : Compact TransactionSignedNoHash :=
  plain
    (λ t,
       let '(sig_bytes, sig_bit) := to_compact signature_compact (sn_signature t) in
       let zstd_bit := 32 <=? blen (Tx.input (sn_transaction t)) in
       let '(tmp, tx_bits) := to_compact transaction_compact (sn_transaction t) in
       let flags := Z.lor (Z.lor sig_bit (Z.land (Z.shiftl tx_bits 1) 255)) (Z.shiftl (Z.b2z zstd_bit) 3) in
       let bytes := flags :: sig_bytes ++ (if zstd_bit then compress tmp else tmp) in
       (bytes, blen bytes))
    (λ buf _,
       '(bitflags, buf) ← get_u8 buf;
       let sig_bit := Z.land bitflags 1 in
       '(signature, buf) ← from_compact signature_compact buf sig_bit;
       let zstd_bit := Z.shiftr bitflags 3 in
       if negb (zstd_bit =? 0) then
         let transaction_type := Z.shiftr (Z.land bitflags 6) 1 in
         '(transaction, _) ← from_compact transaction_compact (decompress buf) transaction_type;
         Done (mkSignedNoHash signature transaction, buf)
       else
         let transaction_type := Z.shiftr bitflags 1 in
         '(transaction, buf) ← from_compact transaction_compact buf transaction_type;
         Done (mkSignedNoHash signature transaction, buf)).
End codec.

(** ** Well-formed values: every number in its range, every length in the address space *)
Section ok.
Context `{Bitfield} `{Zstd} (signature_valid : Z → Z → bool).

Definition legacy_ok (t : Tx.TxLegacy) : Prop :=
  option_ok (uint_ok 8) (Tx.lg_chain_id t) ∧ uint_ok 8 (Tx.lg_nonce t) ∧ uint_ok 16 (Tx.lg_gas_price t) ∧
  uint_ok 8 (Tx.lg_gas_limit t) ∧ txkind_ok (Tx.lg_to t) ∧ uint_ok 32 (Tx.lg_value t) ∧ bytes_ok (Tx.lg_input t).
Definition eip2930_ok (t : Tx.TxEip2930) : Prop :=
  uint_ok 8 (Tx.al_chain_id t) ∧ uint_ok 8 (Tx.al_nonce t) ∧ uint_ok 16 (Tx.al_gas_price t) ∧
  uint_ok 8 (Tx.al_gas_limit t) ∧ txkind_ok (Tx.al_to t) ∧ uint_ok 32 (Tx.al_value t) ∧
  access_list_ok (Tx.al_access_list t) ∧ bytes_ok (Tx.al_input t).
Definition eip1559_ok (t : Tx.TxEip1559) : Prop :=
  uint_ok 8 (Tx.df_chain_id t) ∧ uint_ok 8 (Tx.df_nonce t) ∧ uint_ok 8 (Tx.df_gas_limit t) ∧
  uint_ok 16 (Tx.df_max_fee_per_gas t) ∧ uint_ok 16 (Tx.df_max_priority_fee_per_gas t) ∧ txkind_ok (Tx.df_to t) ∧
  uint_ok 32 (Tx.df_value t) ∧ access_list_ok (Tx.df_access_list t) ∧ bytes_ok (Tx.df_input t).
Definition eip4844_ok (t : Tx.TxEip4844) : Prop :=
  uint_ok 8 (Tx.bl_chain_id t) ∧ uint_ok 8 (Tx.bl_nonce t) ∧ uint_ok 8 (Tx.bl_gas_limit t) ∧
  uint_ok 16 (Tx.bl_max_fee_per_gas t) ∧ uint_ok 16 (Tx.bl_max_priority_fee_per_gas t) ∧ address_ok (Tx.bl_to t) ∧
  uint_ok 32 (Tx.bl_value t) ∧ access_list_ok (Tx.bl_access_list t) ∧ vec_ok b256_ok (Tx.bl_blob_versioned_hashes t) ∧
  uint_ok 16 (Tx.bl_max_fee_per_blob_gas t) ∧ bytes_ok (Tx.bl_input t).
Definition eip7702_ok (t : Tx.TxEip7702) : Prop :=
  uint_ok 8 (Tx.sc_chain_id t) ∧ uint_ok 8 (Tx.sc_nonce t) ∧ uint_ok 8 (Tx.sc_gas_limit t) ∧
  uint_ok 16 (Tx.sc_max_fee_per_gas t) ∧ uint_ok 16 (Tx.sc_max_priority_fee_per_gas t) ∧ txkind_ok (Tx.sc_to t) ∧
  uint_ok 32 (Tx.sc_value t) ∧ access_list_ok (Tx.sc_access_list t) ∧
  vec_ok (sized_ok (signed_authorization_compact signature_valid) (signed_authorization_ok signature_valid))
    (Tx.sc_authorization_list t) ∧ bytes_ok (Tx.sc_input t).
Definition deposit_ok (t : Tx.TxDeposit) : Prop :=
  b256_ok (Tx.dp_source_hash t) ∧ address_ok (Tx.dp_from t) ∧ txkind_ok (Tx.dp_to t) ∧
  option_ok (uint_ok 16) (Tx.dp_mint t) ∧ uint_ok 32 (Tx.dp_value t) ∧ uint_ok 8 (Tx.dp_gas_limit t) ∧
  bytes_ok (Tx.dp_input t).
Definition transaction_ok (t : Tx.Transaction) : Prop :=
  match t with
  | Tx.Legacy tx => legacy_ok tx
  | Tx.Eip2930 tx => eip2930_ok tx
  | Tx.Eip1559 tx => eip1559_ok tx
  | Tx.Eip4844 tx => eip4844_ok tx
  | Tx.Eip7702 tx => eip7702_ok tx
  | Tx.Deposit tx => deposit_ok tx
  end.
End ok.

(** ** Every variant is read back *)
Section laws.
Context `{BL : BitfieldLaws} `{ZL : ZstdLaws} (signature_valid : Z → Z → bool).

Ltac variant_reads :=
  unfold legacy_compact, eip2930_compact, eip1559_compact, eip4844_compact, eip7702_compact, deposit_compact,
    legacy_fields, eip2930_fields, eip1559_fields, eip4844_fields, eip7702_fields, deposit_fields,
    chain_id_field, u64_field, u128_field, u256_field, txkind_field, access_list_field, bytes_field;
  eapply struct_reads; [by intros []|lawful_fields|];
  match goal with H : _ |- _ => destruct H; destruct_and? end; simpl;
  repeat match goal with |- _ ∧ _ => split end;
  first [exact I|assumption|apply option_uint_sized; [lia|assumption]|match goal with |- option_ok _ ?o => by destruct o end].

Lemma legacy_reads t n : legacy_ok t → ∃ rest, from_compact legacy_compact (to_compact legacy_compact t).1 n = Done (t, rest).
Proof. intros Ht. variant_reads. Qed.
Lemma eip2930_reads t n : eip2930_ok t → ∃ rest, from_compact eip2930_compact (to_compact eip2930_compact t).1 n = Done (t, rest).
Proof. intros Ht. variant_reads. Qed.
Lemma eip1559_reads t n : eip1559_ok t → ∃ rest, from_compact eip1559_compact (to_compact eip1559_compact t).1 n = Done (t, rest).
Proof. intros Ht. variant_reads. Qed.
Lemma eip4844_reads t n : eip4844_ok t → ∃ rest, from_compact eip4844_compact (to_compact eip4844_compact t).1 n = Done (t, rest).
Proof. intros Ht. variant_reads. Qed.
Lemma eip7702_reads t n :
  eip7702_ok signature_valid t →
  ∃ rest, from_compact (eip7702_compact signature_valid) (to_compact (eip7702_compact signature_valid) t).1 n = Done (t, rest).
Proof. intros Ht. variant_reads. Qed.
Lemma deposit_reads t n : deposit_ok t → ∃ rest, from_compact deposit_compact (to_compact deposit_compact t).1 n = Done (t, rest).
Proof. intros Ht. variant_reads. Qed.

(** The identifier of the type selects the decoder of the variant. *)
Lemma transaction_reads t :
  transaction_ok signature_valid t →
  ∃ rest, from_compact (transaction_compact signature_valid) (to_compact (transaction_compact signature_valid) t).1
            (to_compact (transaction_compact signature_valid) t).2 = Done (t, rest).
Proof.
  intros Ht. unfold transaction_compact. rewrite from_plain, to_plain.
  destruct t as [tx|tx|tx|tx|tx|tx]; cbn [tx_type_of variant_bytes] in *; unfold txtype_compact; rewrite to_plain;
    cbn [fst snd app]; rewrite ?bind_Done.
  - destruct (legacy_reads tx (blen (to_compact legacy_compact tx).1) Ht) as [rest Hr].
    exists rest. by change (0 =? 0) with true; cbn [fst]; rewrite Hr.
  - destruct (eip2930_reads tx (blen (to_compact eip2930_compact tx).1) Ht) as [rest Hr].
    exists rest. by change (1 =? 0) with false; cbn; rewrite Hr.
  - destruct (eip1559_reads tx (blen (to_compact eip1559_compact tx).1) Ht) as [rest Hr].
    exists rest. by cbn; rewrite Hr.
  - destruct (eip4844_reads tx (blen (to_compact eip4844_compact tx).1) Ht) as [rest Hr].
    exists rest. by cbn; rewrite Hr.
  - destruct (eip7702_reads tx (blen (to_compact (eip7702_compact signature_valid) tx).1) Ht) as [rest Hr].
    exists rest. by cbn; rewrite Hr.
  - destruct (deposit_reads tx (blen (to_compact deposit_compact tx).1) Ht) as [rest Hr].
    exists rest. by cbn; rewrite Hr.
Qed.

(** The byte of flags in front of a signed transaction. *)
Lemma bitflags_spec y bits z :
  0 ≤ bits ≤ 3 →
  let f := Z.lor (Z.lor (Z.b2z y) (Z.land (Z.shiftl bits 1) 255)) (Z.shiftl (Z.b2z z) 3) in
  Z.land f 1 = Z.b2z y ∧ negb (Z.shiftr f 3 =? 0) = z ∧ Z.shiftr (Z.land f 6) 1 = bits ∧
  (z = false → Z.shiftr f 1 = bits).
Proof.
  intros Hb. assert (bits = 0 ∨ bits = 1 ∨ bits = 2 ∨ bits = 3) as [->|[->|[->| ->]]] by lia;
    destruct y, z; by vm_compute.
Qed.

Lemma transaction_identifier t : 0 ≤ (to_compact (transaction_compact signature_valid) t).2 ≤ 3.
Proof.
  unfold transaction_compact. rewrite to_plain. pose proof (txtype_flag_bound (tx_type_of t) I) as Hb.
  by destruct (to_compact txtype_compact (tx_type_of t)).
Qed.

Lemma signed_no_hash_reads t n :
  signature_ok (sn_signature t) → transaction_ok signature_valid (sn_transaction t) →
  ∃ rest, from_compact (signed_no_hash_compact signature_valid)
            (to_compact (signed_no_hash_compact signature_valid) t).1 n = Done (t, rest).
Proof.
  destruct t as [[r s y] tx]. intros Hs Ht. pose proof (transaction_identifier tx) as Hid.
  destruct (transaction_reads tx Ht) as [rest Hr].
  unfold signed_no_hash_compact. rewrite from_plain, to_plain. cbn [sn_signature sn_transaction].
  destruct (to_compact signature_compact (mkSignature r s y)) as [sb sbit] eqn:Hsig.
  assert (sbit = Z.b2z y) as -> by (unfold signature_compact in Hsig; rewrite to_plain in Hsig; by inversion Hsig).
  destruct (to_compact (transaction_compact signature_valid) tx) as [tmp bits]. cbn [fst snd] in *.
  set (z := 32 <=? blen (Tx.input tx)). destruct (bitflags_spec y bits z Hid) as (H1 & H2 & H3 & H4).
  cbn [get_u8 fst]. rewrite bind_Done, H1, H2.
  pose proof (signature_round_trips (mkSignature r s y) (if z then compress tmp else tmp) Hs) as Hrt.
  rewrite Hsig in Hrt. cbn [fst snd] in Hrt. rewrite Hrt, bind_Done. destruct z.
  - exists (compress tmp). by rewrite H3, decompress_compress, Hr.
  - exists rest. by rewrite (H4 eq_refl), Hr.
Qed.
End laws.

(** C29. A signed transaction of any kind that is written to the database is read back from
    its bytes, whatever length is passed, also one smaller than the buffer, for which the
    documentation of the trait announces a panic: the packing of its fields, the identifier of its
    type, the byte of flags and the compression of transactions with a long input are undone
    without loss, and the returned length is the number of bytes written. *)
Theorem stored_transaction_roundtrip `{BL : BitfieldLaws} `{ZL : ZstdLaws} signature_valid t n :
  signature_ok (sn_signature t) → transaction_ok signature_valid (sn_transaction t) →
  (to_compact (signed_no_hash_compact signature_valid) t).2 =
    blen (to_compact (signed_no_hash_compact signature_valid) t).1 ∧
  ∃ rest, from_compact (signed_no_hash_compact signature_valid)
            (to_compact (signed_no_hash_compact signature_valid) t).1 n = Done (t, rest).
Proof.
  intros Hs Ht. split; [|by apply signed_no_hash_reads].
  unfold signed_no_hash_compact. rewrite to_plain.
  by destruct (to_compact signature_compact _), (to_compact (transaction_compact signature_valid) _).
Qed.

(** The sizes of the flags that the tests of the database models fix, and the order of the
    fields that the macro asserts. *)
Example transaction_flag_bytes :
  (λ w, total (pad_flag_struct w) / 8) <$>
    [flag_widths legacy_fields false; flag_widths eip2930_fields false; flag_widths eip1559_fields false;
     flag_widths eip4844_fields false] = [3; 3; 4; 5] ∧
  well_placed legacy_fields = true ∧ well_placed eip2930_fields = true ∧ well_placed eip1559_fields = true ∧
  well_placed eip4844_fields = true ∧ well_placed deposit_fields = true.
Proof. by vm_compute. Qed.

Module StoredTx.
Import Lsb Marked.
Definition example_input : list Z := replicate 40 7.
Definition example_signed : TransactionSignedNoHash :=
  mkSignedNoHash (mkSignature 5 6 true)
    (Tx.Eip4844 (Tx.mkTxEip4844 1 9 21000 30 2 (Some tt) 12 0 [(3, [1; 2])] [7] 10 example_input)).

Lemma example_transaction_ok : transaction_ok (λ _ _, true) (sn_transaction example_signed).
Proof.
  do 7 (split; [by vm_compute|]). split; [|split; [|split; [by vm_compute|]]].
  - split; [by vm_compute|]. apply Forall_singleton. split; [|by vm_compute].
    split; [by vm_compute|]. split; [by vm_compute|each_ok].
  - split; [by vm_compute|each_ok].
  - split; [each_ok|by vm_compute].
Qed.

Lemma stored_transaction_roundtrip_witness :
  (to_compact (signed_no_hash_compact (λ _ _, true)) example_signed).2 =
    blen (to_compact (signed_no_hash_compact (λ _ _, true)) example_signed).1 ∧
  ∃ rest, from_compact (signed_no_hash_compact (λ _ _, true))
            (to_compact (signed_no_hash_compact (λ _ _, true)) example_signed).1 0 = Done (example_signed, rest).
Proof.
  apply (stored_transaction_roundtrip (λ _ _, true) example_signed 0); [by vm_compute|exact example_transaction_ok].
Defined.
End StoredTx.
