(* ===== verification/NetErrors.v ===== *)
(** * Errors of peer sessions

    The errors that end a session ([eth-wire/src/errors], [network/src/session/mod.rs]), and
    the trait [SessionError] by which the peers manager reads them
    ([network/src/error.rs]).  An error that comes from another library is kept as a number
    that identifies it: no decision looks into it. *)

From stdpp Require Import prelude list.
From S2P Require Import Prelude.
From S2P Require Import ForkId.

(** ** Data *)
Inductive DisconnectReason :=
| DisconnectRequested | TcpSubsystemError | ProtocolBreach | UselessPeer | TooManyPeers | AlreadyConnected
| IncompatibleP2PProtocolVersion | NullNodeIdentity | ClientQuitting | UnexpectedHandshakeIdentity
| ConnectedToSelf | PingTimeoutReason | SubprotocolSpecific.
#[export] Instance DisconnectReason_eq_dec : EqDecision DisconnectReason.
Proof. solve_decision. Defined.

(** The number of a reason on the wire. *)
Definition reason_u8 (r : DisconnectReason) : Z :=
  match r with
  | DisconnectRequested => 0x00 | TcpSubsystemError => 0x01 | ProtocolBreach => 0x02 | UselessPeer => 0x03
  | TooManyPeers => 0x04 | AlreadyConnected => 0x05 | IncompatibleP2PProtocolVersion => 0x06
  | NullNodeIdentity => 0x07 | ClientQuitting => 0x08 | UnexpectedHandshakeIdentity => 0x09
  | ConnectedToSelf => 0x0a | PingTimeoutReason => 0x0b | SubprotocolSpecific => 0x10
  end.
(** [TryFrom<u8>]. *)
Definition reason_try_from (value : Z) : option DisconnectReason :=
  match value with
  | 0x00 => Some DisconnectRequested
  | 0x01 => Some TcpSubsystemError
  | 0x02 => Some ProtocolBreach
  | 0x03 => Some UselessPeer
  | 0x04 => Some TooManyPeers
  | 0x05 => Some AlreadyConnected
  | 0x06 => Some IncompatibleP2PProtocolVersion
  | 0x07 => Some NullNodeIdentity
  | 0x08 => Some ClientQuitting
  | 0x09 => Some UnexpectedHandshakeIdentity
  | 0x0a => Some ConnectedToSelf
  | 0x0b => Some PingTimeoutReason
  | 0x10 => Some SubprotocolSpecific
  | _ => None
  end.

(** [io::ErrorKind]: the kinds that are told apart, and the others. *)
Inductive ErrorKind := ConnectionReset | BrokenPipe | ConnectionRefused | OtherKind (kind : Z).

Inductive P2PHandshakeError :=
| HelloNotInHandshake | NonHelloMessageInHandshake | NoSharedCapabilities | HandshakeNoResponse | HandshakeTimeout
| HandshakeDisconnected (reason : DisconnectReason)
| DecodeError (error : Z).

Inductive P2PStreamError :=
| Io (error : ErrorKind)
| Rlp (error : Z)
| Snap (error : Z)
| HandshakeError (error : P2PHandshakeError)
| P2PMessageTooBig (message_size max_size : Z)
| UnknownReservedMessageId (id : Z)
| EmptyProtocolMessage
| UnexpectedPong
| PingTimeout
| ParseSharedCapability (error : Z)
| CapabilityNotShared
| MismatchedProtocolVersion (got expected : Z)
| PingBeforeHandshake
| SendBufferFull
| Disconnected (reason : DisconnectReason)
| UnknownDisconnectReason (value : Z).

Inductive EthHandshakeError :=
| StatusNotInHandshake | NonStatusMessageInHandshake | NoResponse
| InvalidFork (error : ForkId.ValidationError)
| MismatchedGenesis (got expected : Z)
| MismatchedStatusVersion (got expected : Z)
| MismatchedChain (got expected : Z)
| TotalDifficultyBitLenTooLarge (got maximum : Z).

Inductive EthStreamError :=
| P2PError (error : P2PStreamError)
| ParseVersionError (error : Z)
| EthHandshake (error : EthHandshakeError)
| InvalidMessage (error : Z)
| MessageTooBig (size : Z)
| TransactionHashesInvalidLenOfFields (hashes_len types_len sizes_len : Z)
| StreamTimeout.

Inductive PendingSessionHandshakeError := EthError (error : EthStreamError) | EciesError (error : Z) | AuthTimeout.

(** ** Accessors *)
Definition p2p_as_disconnected (e : P2PStreamError) : option DisconnectReason :=
  match e with HandshakeError (HandshakeDisconnected reason) | Disconnected reason => Some reason | _ => None end.
Definition eth_as_disconnected (e : EthStreamError) : option DisconnectReason :=
  match e with P2PError err => p2p_as_disconnected err | _ => None end.
Definition as_io (e : EthStreamError) : option ErrorKind :=
  match e with P2PError (Io io) => Some io | _ => None end.
Definition pending_as_disconnected (e : PendingSessionHandshakeError) : option DisconnectReason :=
  match e with EthError eth => eth_as_disconnected eth | _ => None end.

(** [BackoffKind]. *)
Inductive BackoffKind := Low | Medium | High.
Definition is_severe (k : BackoffKind) : bool := match k with Medium | High => true | Low => false end.

(** ** The trait *)
Class SessionError (E : Type) := {
  merits_discovery_ban : E → bool;
  is_fatal_protocol_error : E → bool;
  should_backoff : E → option BackoffKind;
}.

#[export] Instance io_session_error : SessionError ErrorKind := {
  merits_discovery_ban _ := false;
  is_fatal_protocol_error _ := false;
  should_backoff e :=
    match e with
    | ConnectionReset | BrokenPipe => Some Low
    | ConnectionRefused => Some High
    | _ => Some Medium
    end;
}.

Definition eth_merits_discovery_ban (e : EthStreamError) : bool :=
  match e with
  | P2PError (HandshakeError HelloNotInHandshake) | P2PError (HandshakeError NonHelloMessageInHandshake) => true
  | EthHandshake err => match err with NoResponse => false | _ => true end
  | _ => false
  end.
Definition eth_is_fatal (e : EthStreamError) : bool :=
  match e with
  | P2PError err =>
    match err with
    | HandshakeError NoSharedCapabilities
    | HandshakeError HelloNotInHandshake
    | HandshakeError NonHelloMessageInHandshake
    | HandshakeError (HandshakeDisconnected UselessPeer)
    | HandshakeError (HandshakeDisconnected IncompatibleP2PProtocolVersion)
    | HandshakeError (HandshakeDisconnected ProtocolBreach)
    | UnknownReservedMessageId _
    | EmptyProtocolMessage
    | ParseSharedCapability _
    | CapabilityNotShared
    | Disconnected UselessPeer
    | Disconnected IncompatibleP2PProtocolVersion
    | Disconnected ProtocolBreach
    | MismatchedProtocolVersion _ _ => true
    | _ => false
    end
  | EthHandshake err => match err with NoResponse => false | _ => true end
  | _ => false
  end.
Definition eth_should_backoff (e : EthStreamError) : option BackoffKind :=
  match as_io e with
  | Some err => should_backoff err
  | None =>
    match eth_as_disconnected e with
    | Some reason =>
      match reason with
      | TooManyPeers | AlreadyConnected | PingTimeoutReason | DisconnectRequested | TcpSubsystemError => Some Low
      | ProtocolBreach | UselessPeer | IncompatibleP2PProtocolVersion | NullNodeIdentity | ClientQuitting
      | UnexpectedHandshakeIdentity | ConnectedToSelf | SubprotocolSpecific => Some High
      end
    | None =>
      match e with
      | EthHandshake NoResponse | P2PError (HandshakeError HandshakeNoResponse) | P2PError PingTimeout => Some Low
      | P2PError (Rlp _) | P2PError (UnknownReservedMessageId _) | P2PError (UnknownDisconnectReason _)
      | P2PError (P2PMessageTooBig _ _) | P2PError EmptyProtocolMessage | P2PError UnexpectedPong
      | P2PError (Snap _) => Some Medium
      | _ => None
      end
    end
  end.
#[export] Instance eth_session_error : SessionError EthStreamError := {
  merits_discovery_ban := eth_merits_discovery_ban;
  is_fatal_protocol_error := eth_is_fatal;
  should_backoff := eth_should_backoff;
}.

#[export] Instance pending_session_error : SessionError PendingSessionHandshakeError := {
  merits_discovery_ban e :=
    match e with EthError eth => merits_discovery_ban eth | EciesError _ => true | AuthTimeout => false end;
  is_fatal_protocol_error e :=
    match e with EthError eth => is_fatal_protocol_error eth | EciesError _ => true | AuthTimeout => false end;
  should_backoff e :=
    match e with EthError eth => should_backoff eth | EciesError _ => Some Low | AuthTimeout => Some Medium end;
}.

(** ** Properties *)

(** What the doc of the trait promises to its users: an error for which the peer is banned
    from discovery is also one that removes the peer. *)
Class FatalCoversBan (E : Type) `{SessionError E} : Prop :=
  ban_is_fatal e : merits_discovery_ban e = true → is_fatal_protocol_error e = true.
#[export] Instance io_fatal_covers_ban : FatalCoversBan ErrorKind.
Proof. done. Qed.
#[export] Instance eth_fatal_covers_ban : FatalCoversBan EthStreamError.
Proof. intros [[]| | | | | |] He; simpl in *; repeat case_match; done. Qed.
#[export] Instance pending_fatal_covers_ban : FatalCoversBan PendingSessionHandshakeError.
Proof. intros [e| |] He; [exact (eth_fatal_covers_ban e He)|done|done]. Qed.

(** The number of a reason is read back, and nothing else is read as a reason. *)
Lemma reason_roundtrip r : reason_try_from (reason_u8 r) = Some r.
Proof. by destruct r. Qed.
Lemma reason_numbers value r : reason_try_from value = Some r → value = reason_u8 r.
Proof.
  intros H. destruct value as [|p|p]; try done; [by simplify_eq/=|].
  do 5 (destruct p as [p|p|]; try done; try by simplify_eq/=).
Qed.

(** Every error that says why a peer disconnected puts the peer into a time-out. *)
Lemma disconnect_backs_off e r : eth_as_disconnected e = Some r → is_Some (should_backoff e).
Proof.
  intros H. destruct e as [e| | | | | |]; try done. destruct e as [| | |h| | | | | | | | | | |r'|]; try done.
  - destruct h; try done. simplify_eq/=. unfold eth_should_backoff. simpl. by destruct r; eexists.
  - simplify_eq/=. unfold eth_should_backoff. simpl. by destruct r; eexists.
Qed.

(** The comment on [should_backoff] counts these reasons as fatal; they are not. *)
Example quitting_not_fatal :
  (λ r, is_fatal_protocol_error (P2PError (Disconnected r))) <$>
    [NullNodeIdentity; ClientQuitting; UnexpectedHandshakeIdentity; ConnectedToSelf; SubprotocolSpecific] =
  [false; false; false; false; false].
Proof. done. Qed.
