(* ===== verification/Peer.v ===== *)
(** * Peers, reputations and bans

    The data of the peers manager: reputations ([net/p2p/src/reputation.rs]), addresses,
    kinds, connection states and peers ([net/network-types/src/peers]), the back-off
    durations, and the ban list ([net/banlist/src/lib.rs]).

    Instants and durations are numbers of nanoseconds.  The order in which a hash map is
    visited is [HashOrder]. *)

From stdpp Require Import prelude gmap list.
From S2P Require Import Prelude.
From S2P Require Import Ord.
From S2P Require Import ForkId.
From S2P Require Import NetErrors.

(** [HashMap::retain] with the keys of the removed entries, in the order of the visit. *)
Section retain.
Context `{HashOrder} {K A : Type} `{Countable K}.
Definition retain (keep : A → bool) (m : gmap K A) : list K * gmap K A :=
  ((filter (λ e, keep e.2 = false) (iter m)).*1, filter (λ e, keep e.2 = true) m).
End retain.

(** ** Reputations *)
Definition I32_MIN : Z := - 2 ^ 31.
Definition I32_MAX : Z := 2 ^ 31 - 1.
Definition wrap_i32 (x : Z) : Z := (x + 2 ^ 31) `mod` 2 ^ 32 - 2 ^ 31.
Definition saturating_add_i32 (x y : Z) : Z := Z.max I32_MIN (Z.min I32_MAX (x + y)).
Definition is_i32 (x : Z) : Prop := I32_MIN ≤ x ≤ I32_MAX.

Definition DEFAULT_REPUTATION : Z := 0.
Definition REPUTATION_UNIT : Z := -1024.
Definition BANNED_REPUTATION : Z := 50 * REPUTATION_UNIT.
Definition REMOTE_DISCONNECT_REPUTATION_CHANGE : Z := 4 * REPUTATION_UNIT.
Definition FAILED_TO_CONNECT_REPUTATION_CHANGE : Z := 25 * REPUTATION_UNIT.
Definition TIMEOUT_REPUTATION_CHANGE : Z := 4 * REPUTATION_UNIT.
Definition BAD_MESSAGE_REPUTATION_CHANGE : Z := 16 * REPUTATION_UNIT.
Definition ALREADY_SEEN_TRANSACTION_REPUTATION_CHANGE : Z := 0.
Definition BAD_PROTOCOL_REPUTATION_CHANGE : Z := I32_MIN.
Definition BAD_ANNOUNCEMENT_REPUTATION_CHANGE : Z := REPUTATION_UNIT.
Definition MAX_TRUSTED_PEER_REPUTATION_CHANGE : Z := 2 * REPUTATION_UNIT.

Definition is_banned_reputation (reputation : Z) : bool := reputation <? BANNED_REPUTATION.

Inductive ReputationChangeKind :=
| BadMessage | BadBlock | BadTransactions | BadAnnouncement | AlreadySeenTransaction | Timeout | BadProtocol
| FailedToConnect | Dropped | Reset_
| Other (reputation : Z).
Definition is_reset (k : ReputationChangeKind) : bool := match k with Reset_ => true | _ => false end.

Record ReputationChangeWeights := mkWeights {
  w_bad_message : Z;
  w_bad_block : Z;
  w_bad_transactions : Z;
  w_already_seen_transactions : Z;
  w_timeout : Z;
  w_bad_protocol : Z;
  w_failed_to_connect : Z;
  w_dropped : Z;
  w_bad_announcement : Z;
}.
Definition change (w : ReputationChangeWeights) (k : ReputationChangeKind) : Z :=
  match k with
  | BadMessage => w_bad_message w
  | BadBlock => w_bad_block w
  | BadTransactions => w_bad_transactions w
  | AlreadySeenTransaction => w_already_seen_transactions w
  | Timeout => w_timeout w
  | BadProtocol => w_bad_protocol w
  | FailedToConnect => w_failed_to_connect w
  | Dropped => w_dropped w
  | Reset_ => DEFAULT_REPUTATION
  | Other val => val
  | BadAnnouncement => w_bad_announcement w
  end.
Definition ReputationChangeWeights_default : ReputationChangeWeights := {|
  w_bad_block := BAD_MESSAGE_REPUTATION_CHANGE;
  w_bad_transactions := BAD_MESSAGE_REPUTATION_CHANGE;
  w_already_seen_transactions := ALREADY_SEEN_TRANSACTION_REPUTATION_CHANGE;
  w_bad_message := BAD_MESSAGE_REPUTATION_CHANGE;
  w_timeout := TIMEOUT_REPUTATION_CHANGE;
  w_bad_protocol := BAD_PROTOCOL_REPUTATION_CHANGE;
  w_failed_to_connect := FAILED_TO_CONNECT_REPUTATION_CHANGE;
  w_dropped := REMOTE_DISCONNECT_REPUTATION_CHANGE;
  w_bad_announcement := BAD_ANNOUNCEMENT_REPUTATION_CHANGE;
|}.

Inductive ReputationChangeOutcome := NoChange | Ban | DisconnectAndBan | Unban.

(** ** Addresses *)
Inductive IpAddr := V4 (a b c d : Z) | V6 (n : Z).
#[export] Instance IpAddr_eq_dec : EqDecision IpAddr.
Proof. solve_decision. Defined.
#[export] Instance IpAddr_countable : Countable IpAddr.
Proof.
  apply (inj_countable' (λ ip, match ip with V4 a b c d => inl (a, b, c, d) | V6 n => inr n end)
           (λ e, match e with inl (a, b, c, d) => V4 a b c d | inr n => V6 n end)).
  by intros [].
Defined.

Record SocketAddr := mkSocketAddr { ip : IpAddr; port : Z }.
#[export] Instance SocketAddr_eq_dec : EqDecision SocketAddr.
Proof. solve_decision. Defined.

(** The tests of [std::net::IpAddr]. *)
Definition is_unspecified (i : IpAddr) : bool :=
  match i with V4 a b c d => (a =? 0) && (b =? 0) && (c =? 0) && (d =? 0) | V6 n => n =? 0 end.
Definition is_loopback (i : IpAddr) : bool := match i with V4 a _ _ _ => a =? 127 | V6 n => n =? 1 end.
Definition is_private (a b : Z) : bool :=
  (a =? 10) || ((a =? 172) && (16 <=? b) && (b <=? 31)) || ((a =? 192) && (b =? 168)).
Definition is_link_local (a b : Z) : bool := (a =? 169) && (b =? 254).

Definition is_global (i : IpAddr) : bool :=
  if is_unspecified i || is_loopback i then false
  else match i with V4 a b _ _ => negb (is_private a b) && negb (is_link_local a b) | V6 _ => true end.

Record PeerAddr := mkPeerAddr { tcp : SocketAddr; udp : option SocketAddr }.
Definition from_tcp (addr : SocketAddr) : PeerAddr := mkPeerAddr addr None.
Definition new_with_ports (i : IpAddr) (tcp_port : Z) (udp_port : option Z) : PeerAddr :=
  mkPeerAddr (mkSocketAddr i tcp_port) (mkSocketAddr i <$> udp_port).

(** ** Peers *)
Notation PeerId := Z (only parsing).
Inductive PeerKind := Basic | Static | Trusted.
#[export] Instance PeerKind_eq_dec : EqDecision PeerKind.
Proof. solve_decision. Defined.
Definition kind_is_trusted (k : PeerKind) : bool := match k with Trusted => true | _ => false end.

Inductive PeerConnectionState := Idle | DisconnectingIn | DisconnectingOut | In_ | Out | PendingOut.
#[export] Instance PeerConnectionState_eq_dec : EqDecision PeerConnectionState.
Proof. solve_decision. Defined.
Definition disconnect (s : PeerConnectionState) : PeerConnectionState :=
  match s with In_ => DisconnectingIn | Out => DisconnectingOut | _ => s end.
Definition is_incoming (s : PeerConnectionState) : bool := match s with In_ => true | _ => false end.
Definition is_connected (s : PeerConnectionState) : bool := match s with In_ | Out | PendingOut => true | _ => false end.
Definition is_unconnected (s : PeerConnectionState) : bool := match s with Idle => true | _ => false end.
Definition is_pending_out (s : PeerConnectionState) : bool := match s with PendingOut => true | _ => false end.

Record Peer := mkPeer {
  addr : PeerAddr;
  reputation : Z;
  pstate : PeerConnectionState;
  pfork_id : option ForkId.ForkId;
  remove_after_disconnect : bool;
  pkind : PeerKind;
  backed_off : bool;
  severe_backoff_counter : Z;
}.
Definition with_state (a : PeerAddr) (s : PeerConnectionState) : Peer :=
  mkPeer a DEFAULT_REPUTATION s None false Basic false 0.
Definition Peer_new (a : PeerAddr) : Peer := with_state a Idle.
Definition with_kind (a : PeerAddr) (k : PeerKind) : Peer :=
  mkPeer a DEFAULT_REPUTATION Idle None false k false 0.
Definition Peer_trusted (a : PeerAddr) : Peer := with_kind a Trusted.

(** Assignments to the fields. *)
Definition set_reputation (r : Z) (p : Peer) : Peer :=
  mkPeer (addr p) r (pstate p) (pfork_id p) (remove_after_disconnect p) (pkind p) (backed_off p)
    (severe_backoff_counter p).
Definition set_pstate (s : PeerConnectionState) (p : Peer) : Peer :=
  mkPeer (addr p) (reputation p) s (pfork_id p) (remove_after_disconnect p) (pkind p) (backed_off p)
    (severe_backoff_counter p).
Definition set_fork_id (f : option ForkId.ForkId) (p : Peer) : Peer :=
  mkPeer (addr p) (reputation p) (pstate p) f (remove_after_disconnect p) (pkind p) (backed_off p)
    (severe_backoff_counter p).
Definition set_remove_after (b : bool) (p : Peer) : Peer :=
  mkPeer (addr p) (reputation p) (pstate p) (pfork_id p) b (pkind p) (backed_off p) (severe_backoff_counter p).
Definition set_kind (k : PeerKind) (p : Peer) : Peer :=
  mkPeer (addr p) (reputation p) (pstate p) (pfork_id p) (remove_after_disconnect p) k (backed_off p)
    (severe_backoff_counter p).
Definition set_backed_off (b : bool) (p : Peer) : Peer :=
  mkPeer (addr p) (reputation p) (pstate p) (pfork_id p) (remove_after_disconnect p) (pkind p) b
    (severe_backoff_counter p).
Definition set_severe (n : Z) (p : Peer) : Peer :=
  mkPeer (addr p) (reputation p) (pstate p) (pfork_id p) (remove_after_disconnect p) (pkind p) (backed_off p) n.
Definition set_addr (a : PeerAddr) (p : Peer) : Peer :=
  mkPeer a (reputation p) (pstate p) (pfork_id p) (remove_after_disconnect p) (pkind p) (backed_off p)
    (severe_backoff_counter p).

Definition is_banned (p : Peer) : bool := is_banned_reputation (reputation p).
Definition is_trusted (p : Peer) : bool := kind_is_trusted (pkind p).
Definition is_static (p : Peer) : bool := match pkind p with Static => true | _ => false end.
Definition reset_reputation (p : Peer) : ReputationChangeOutcome * Peer :=
  (NoChange, set_reputation DEFAULT_REPUTATION p).
Definition unban (p : Peer) : Peer := set_reputation DEFAULT_REPUTATION p.

Definition apply_reputation (change : Z) (p : Peer) : ReputationChangeOutcome * Peer :=
  let previous := reputation p in
  let p := set_reputation (saturating_add_i32 previous change) p in
  if is_connected (pstate p) && is_banned p then (DisconnectAndBan, set_pstate (disconnect (pstate p)) p)
  else if is_banned p && negb (is_banned_reputation previous) then (Ban, p)
  else if negb (is_banned p) && is_banned_reputation previous then (Unban, p)
  else (NoChange, p).

(** ** Back-off durations *)
Record PeerBackoffDurations := mkBackoff { bo_low : Z; bo_medium : Z; bo_high : Z; bo_max : Z }.
Definition backoff (d : PeerBackoffDurations) (k : BackoffKind) : Z :=
  match k with Low => bo_low d | Medium => bo_medium d | High => bo_high d end.
Definition backoff_until (d : PeerBackoffDurations) (now : Z) (k : BackoffKind) (backoff_counter : Z) : Z :=
  let backoff_time := backoff d k in
  let backoff_time := backoff_time + backoff_time * backoff_counter in
  now + Z.min backoff_time (bo_max d).
Definition secs (n : Z) : Z := n * 1000000000.
Definition PeerBackoffDurations_default : PeerBackoffDurations :=
  mkBackoff (secs 30) (secs (60 * 3)) (secs (60 * 15)) (secs (60 * 60)).

(** ** Ban lists *)
Record BanList := mkBanList { banned_ips : gmap IpAddr (option Z); banned_peers : gmap PeerId (option Z) }.
Definition new_with_timeout (banned_peers : gmap PeerId (option Z)) (banned_ips : gmap IpAddr (option Z)) : BanList :=
  mkBanList banned_ips banned_peers.
Definition BanList_new (peers : list PeerId) (ips : list IpAddr) : BanList :=
  new_with_timeout (list_to_map ((λ p, (p, None)) <$> peers)) (list_to_map ((λ i, (i, None)) <$> ips)).

(** An entry stays while it has no end, or its end is not in the past. *)
Definition still_banned (now : Z) (until : option Z) : bool :=
  match until with Some until => negb (until <? now) | None => true end.
Section evict.
Context `{HashOrder}.
Definition evict_peers (now : Z) (b : BanList) : list PeerId * BanList :=
  let '(evicted, peers) := retain (still_banned now) (banned_peers b) in (evicted, mkBanList (banned_ips b) peers).
Definition evict_ips (now : Z) (b : BanList) : list IpAddr * BanList :=
  let '(evicted, ips) := retain (still_banned now) (banned_ips b) in (evicted, mkBanList ips (banned_peers b)).
Definition evict (now : Z) (b : BanList) : list IpAddr * list PeerId * BanList :=
  let '(ips, b) := evict_ips now b in
  let '(peers, b) := evict_peers now b in
  (ips, peers, b).
End evict.

Definition is_banned_ip (i : IpAddr) (b : BanList) : bool := bool_decide (is_Some (banned_ips b !! i)).
Definition is_banned_peer (p : PeerId) (b : BanList) : bool := bool_decide (is_Some (banned_peers b !! p)).
Definition is_banned_either (p : PeerId) (i : IpAddr) (b : BanList) : bool := is_banned_peer p b || is_banned_ip i b.
Definition unban_ip (i : IpAddr) (b : BanList) : BanList := mkBanList (delete i (banned_ips b)) (banned_peers b).
Definition unban_peer (p : PeerId) (b : BanList) : BanList := mkBanList (banned_ips b) (delete p (banned_peers b)).
Definition ban_peer_with (p : PeerId) (until : option Z) (b : BanList) : BanList :=
  mkBanList (banned_ips b) (<[p := until]> (banned_peers b)).
Definition ban_ip_with (i : IpAddr) (until : option Z) (b : BanList) : BanList :=
  if is_global i then mkBanList (<[i := until]> (banned_ips b)) (banned_peers b) else b.
Definition ban_peer_until (p : PeerId) (until : Z) : BanList → BanList := ban_peer_with p (Some until).
Definition ban_ip_until (i : IpAddr) (until : Z) : BanList → BanList := ban_ip_with i (Some until).
Definition ban_ip_list (i : IpAddr) : BanList → BanList := ban_ip_with i None.
Definition ban_peer_list (p : PeerId) : BanList → BanList := ban_peer_with p None.
