(* ===== verification/Peers.v ===== *)
(** * The peers manager

    [PeersManager] of [net/network/src/peers.rs]: which peers are known, the state of the
    connection to each, the counters of connections with their limits, reputations, bans and
    back-offs, and the actions queued for the network.

    The clock is an argument: the calls of [Instant::now] within one method return the
    same instant.  The command channel and the two timers are arguments of [poll]: the
    commands that wait, and which timers have elapsed. *)

From stdpp Require Import prelude gmap list.
From S2P Require Import Prelude.
From S2P Require Import Ord.
From S2P Require Import ForkId.
From S2P Require Import NetErrors.
From S2P Require Import Peer.

(** ** Data *)
Inductive PeerAction :=
| Connect (peer_id : PeerId) (remote_addr : SocketAddr)
| Disconnect (peer_id : PeerId) (reason : option DisconnectReason)
| DisconnectBannedIncoming (peer_id : PeerId)
| DisconnectUntrustedIncoming (peer_id : PeerId)
| DiscoveryBanPeerId (peer_id : PeerId) (ip_addr : IpAddr)
| DiscoveryBanIp (ip_addr : IpAddr)
| BanPeer (peer_id : PeerId)
| UnBanPeer (peer_id : PeerId)
| PeerAdded (peer_id : PeerId)
| PeerRemoved (peer_id : PeerId).

Inductive InboundConnectionError := IpBanned | ExceedsCapacity.
Inductive NetworkConnectionState := Active | ShuttingDown | Hibernate.
Definition is_active (s : NetworkConnectionState) : bool := match s with Active => true | _ => false end.
Definition is_shutting_down (s : NetworkConnectionState) : bool := match s with ShuttingDown => true | _ => false end.
Inductive Direction := Incoming | Outgoing (peer_id : PeerId).
Definition dir_is_incoming (d : Direction) : bool := match d with Incoming => true | Outgoing _ => false end.

Record ConnectionsConfig := mkConnectionsConfig {
  max_outbound : Z;
  max_inbound : Z;
  max_concurrent_outbound_dials : Z;
}.

(** *** Connection counters *)
Record ConnectionInfo := mkConnectionInfo {
  num_outbound : Z;
  num_pending_out : Z;
  num_inbound : Z;
  num_pending_in : Z;
  cconfig : ConnectionsConfig;
}.
Definition ConnectionInfo_new (config : ConnectionsConfig) : ConnectionInfo := mkConnectionInfo 0 0 0 0 config.
Definition has_out_capacity (c : ConnectionInfo) : bool :=
  (num_pending_out c <? max_concurrent_outbound_dials (cconfig c)) && (num_outbound c <? max_outbound (cconfig c)).
Definition has_in_capacity (c : ConnectionInfo) : bool := num_inbound c <? max_inbound (cconfig c).
Definition inc_out (c : ConnectionInfo) : ConnectionInfo :=
  mkConnectionInfo (wrap_u64 (num_outbound c + 1)) (num_pending_out c) (num_inbound c) (num_pending_in c) (cconfig c).
Definition decr_out (c : ConnectionInfo) : ConnectionInfo :=
  mkConnectionInfo (wrap_u64 (num_outbound c - 1)) (num_pending_out c) (num_inbound c) (num_pending_in c) (cconfig c).
Definition inc_pending_out (c : ConnectionInfo) : ConnectionInfo :=
  mkConnectionInfo (num_outbound c) (wrap_u64 (num_pending_out c + 1)) (num_inbound c) (num_pending_in c) (cconfig c).
Definition decr_pending_out (c : ConnectionInfo) : ConnectionInfo :=
  mkConnectionInfo (num_outbound c) (wrap_u64 (num_pending_out c - 1)) (num_inbound c) (num_pending_in c) (cconfig c).
Definition inc_in (c : ConnectionInfo) : ConnectionInfo :=
  mkConnectionInfo (num_outbound c) (num_pending_out c) (wrap_u64 (num_inbound c + 1)) (num_pending_in c) (cconfig c).
Definition decr_in (c : ConnectionInfo) : ConnectionInfo :=
  mkConnectionInfo (num_outbound c) (num_pending_out c) (wrap_u64 (num_inbound c - 1)) (num_pending_in c) (cconfig c).
Definition inc_pending_in (c : ConnectionInfo) : ConnectionInfo :=
  mkConnectionInfo (num_outbound c) (num_pending_out c) (num_inbound c) (wrap_u64 (num_pending_in c + 1)) (cconfig c).
Definition decr_pending_in (c : ConnectionInfo) : ConnectionInfo :=
  mkConnectionInfo (num_outbound c) (num_pending_out c) (num_inbound c) (wrap_u64 (num_pending_in c - 1)) (cconfig c).
Definition decr_state (s : PeerConnectionState) (c : ConnectionInfo) : ConnectionInfo :=
  match s with
  | Idle => c
  | DisconnectingIn | In_ => decr_in c
  | DisconnectingOut | Out => decr_out c
  | PendingOut => decr_pending_out c
  end.

(** *** The manager *)
Record PeersManager := mkPeersManager {
  peers : gmap PeerId Peer;
  trusted_peer_ids : gset PeerId;
  queued_actions : list PeerAction;
  reputation_weights : ReputationChangeWeights;
  connection_info : ConnectionInfo;
  ban_list : BanList;
  backed_off_peers : gmap PeerId Z;
  ban_duration : Z;
  backoff_durations : PeerBackoffDurations;
  trusted_nodes_only : bool;
  last_tick : Z;
  max_backoff_count : Z;
  net_connection_state : NetworkConnectionState;
}.

(** Assignments to the fields. *)
Definition with_peers (ps : gmap PeerId Peer) (m : PeersManager) : PeersManager :=
  mkPeersManager ps (trusted_peer_ids m) (queued_actions m) (reputation_weights m) (connection_info m) (ban_list m)
    (backed_off_peers m) (ban_duration m) (backoff_durations m) (trusted_nodes_only m) (last_tick m)
    (max_backoff_count m) (net_connection_state m).
Definition with_trusted (t : gset PeerId) (m : PeersManager) : PeersManager :=
  mkPeersManager (peers m) t (queued_actions m) (reputation_weights m) (connection_info m) (ban_list m)
    (backed_off_peers m) (ban_duration m) (backoff_durations m) (trusted_nodes_only m) (last_tick m)
    (max_backoff_count m) (net_connection_state m).
Definition with_actions (q : list PeerAction) (m : PeersManager) : PeersManager :=
  mkPeersManager (peers m) (trusted_peer_ids m) q (reputation_weights m) (connection_info m) (ban_list m)
    (backed_off_peers m) (ban_duration m) (backoff_durations m) (trusted_nodes_only m) (last_tick m)
    (max_backoff_count m) (net_connection_state m).
Definition with_info (c : ConnectionInfo) (m : PeersManager) : PeersManager :=
  mkPeersManager (peers m) (trusted_peer_ids m) (queued_actions m) (reputation_weights m) c (ban_list m)
    (backed_off_peers m) (ban_duration m) (backoff_durations m) (trusted_nodes_only m) (last_tick m)
    (max_backoff_count m) (net_connection_state m).
Definition with_bans (b : BanList) (m : PeersManager) : PeersManager :=
  mkPeersManager (peers m) (trusted_peer_ids m) (queued_actions m) (reputation_weights m) (connection_info m) b
    (backed_off_peers m) (ban_duration m) (backoff_durations m) (trusted_nodes_only m) (last_tick m)
    (max_backoff_count m) (net_connection_state m).
Definition with_backed_off (b : gmap PeerId Z) (m : PeersManager) : PeersManager :=
  mkPeersManager (peers m) (trusted_peer_ids m) (queued_actions m) (reputation_weights m) (connection_info m)
    (ban_list m) b (ban_duration m) (backoff_durations m) (trusted_nodes_only m) (last_tick m)
    (max_backoff_count m) (net_connection_state m).
Definition with_last_tick (t : Z) (m : PeersManager) : PeersManager :=
  mkPeersManager (peers m) (trusted_peer_ids m) (queued_actions m) (reputation_weights m) (connection_info m)
    (ban_list m) (backed_off_peers m) (ban_duration m) (backoff_durations m) (trusted_nodes_only m) t
    (max_backoff_count m) (net_connection_state m).
Definition with_net_state (s : NetworkConnectionState) (m : PeersManager) : PeersManager :=
  mkPeersManager (peers m) (trusted_peer_ids m) (queued_actions m) (reputation_weights m) (connection_info m)
    (ban_list m) (backed_off_peers m) (ban_duration m) (backoff_durations m) (trusted_nodes_only m) (last_tick m)
    (max_backoff_count m) s.
Definition on_info (f : ConnectionInfo → ConnectionInfo) (m : PeersManager) : PeersManager :=
  with_info (f (connection_info m)) m.
(** [queued_actions.push_back], and the writes to one peer. *)
Definition push (a : PeerAction) (m : PeersManager) : PeersManager := with_actions (queued_actions m ++ [a]) m.
Definition put (id : PeerId) (p : Peer) (m : PeersManager) : PeersManager := with_peers (<[id := p]> (peers m)) m.
Definition drop_peer (id : PeerId) (m : PeersManager) : PeersManager := with_peers (delete id (peers m)) m.

(** *** Configuration *)
Record NodeRecord := mkNodeRecord { nr_address : IpAddr; nr_tcp_port : Z; nr_udp_port : Z; nr_id : PeerId }.
(** The trusted nodes are given as what [resolve_blocking] returns for them. *)
Record PeersConfig := mkPeersConfig {
  c_connection_info : ConnectionsConfig;
  c_reputation_weights : ReputationChangeWeights;
  c_ban_list : BanList;
  c_ban_duration : Z;
  c_backoff_durations : PeerBackoffDurations;
  c_trusted_nodes : list (option NodeRecord);
  c_trusted_nodes_only : bool;
  c_basic_nodes : list NodeRecord;
  c_max_backoff_count : Z;
}.

Definition record_addr (r : NodeRecord) : PeerAddr :=
  new_with_ports (nr_address r) (nr_tcp_port r) (Some (nr_udp_port r)).
(** [entry(id).or_insert_with]. *)
Definition or_insert (id : PeerId) (p : Peer) (ps : gmap PeerId Peer) : gmap PeerId Peer :=
  match ps !! id with Some _ => ps | None => <[id := p]> ps end.
Definition trusted_records (c : PeersConfig) : list NodeRecord := omap id (c_trusted_nodes c).
Definition PeersManager_new (now : Z) (c : PeersConfig) : PeersManager :=
  let trusted := trusted_records c in
  let ps := foldl (λ ps r, or_insert (nr_id r) (Peer_trusted (record_addr r)) ps) ∅ trusted in
  let ps := foldl (λ ps r, or_insert (nr_id r) (Peer_new (record_addr r)) ps) ps (c_basic_nodes c) in
  mkPeersManager ps (list_to_set (nr_id <$> trusted)) [] (c_reputation_weights c)
    (ConnectionInfo_new (c_connection_info c)) (c_ban_list c) ∅ (c_ban_duration c) (c_backoff_durations c)
    (c_trusted_nodes_only c) now (c_max_backoff_count c) Active.

(** ** Readers *)
Definition num_known_peers (m : PeersManager) : Z := Z.of_nat (size (peers m)).
Definition num_inbound_connections (m : PeersManager) : Z := num_inbound (connection_info m).
Definition num_outbound_connections (m : PeersManager) : Z := num_outbound (connection_info m).
Definition num_pending_outbound_connections (m : PeersManager) : Z := num_pending_out (connection_info m).
Definition num_backed_off_peers (m : PeersManager) : Z := Z.of_nat (size (backed_off_peers m)).
Definition get_reputation (id : PeerId) (m : PeersManager) : option Z := reputation <$> peers m !! id.
Definition connection_state (m : PeersManager) : NetworkConnectionState := net_connection_state m.

(** [NodeRecord::new_with_ports]: without a discovery port, the other one is taken. *)
Definition peer_record (id : PeerId) (p : Peer) : NodeRecord :=
  mkNodeRecord (ip (tcp (addr p))) (port (tcp (addr p)))
    (default (port (tcp (addr p))) (port <$> udp (addr p))) id.
Definition peer_by_id (id : PeerId) (m : PeersManager) : option (NodeRecord * PeerKind) :=
  (λ p, (peer_record id p, pkind p)) <$> peers m !! id.

(** ** Operations *)
Section manager.
Context `{HashOrder}.

Definition iter_peers (m : PeersManager) : list NodeRecord := (λ e, peer_record e.1 e.2) <$> iter (peers m).
Definition peers_by_kind (k : PeerKind) (m : PeersManager) : list PeerId :=
  (filter (λ e, pkind e.2 = k) (iter (peers m))).*1.

Definition tick_peer (secs_since_last_tick : Z) (p : Peer) : Peer :=
  if is_connected (pstate p) && (reputation p <? DEFAULT_REPUTATION)
  then set_reputation (wrap_i32 (reputation p + secs_since_last_tick)) p else p.
Definition tick (now : Z) (m : PeersManager) : PeersManager :=
  let secs_since_last_tick :=
    if now <? last_tick m then 0 else wrap_i32 ((now - last_tick m) / 1000000000) in
  with_peers (tick_peer secs_since_last_tick <$> peers m) (with_last_tick now m).

Definition ban_peer (now : Z) (id : PeerId) (m : PeersManager) : PeersManager :=
  let duration :=
    match peers m !! id with
    | Some peer => if is_trusted peer || is_static peer then bo_medium (backoff_durations m) else ban_duration m
    | None => ban_duration m
    end in
  push (BanPeer id) (with_bans (ban_peer_until id (now + duration) (ban_list m)) m).
Definition ban_ip (now : Z) (i : IpAddr) (m : PeersManager) : PeersManager :=
  with_bans (ban_ip_until i (now + ban_duration m) (ban_list m)) m.
Definition backoff_peer_until (id : PeerId) (until : Z) (m : PeersManager) : PeersManager :=
  match peers m !! id with
  | Some peer => with_backed_off (<[id := until]> (backed_off_peers m)) (put id (set_backed_off true peer) m)
  | None => m
  end.
Definition manager_unban_peer (id : PeerId) (m : PeersManager) : PeersManager :=
  push (UnBanPeer id) (with_bans (unban_peer id (ban_list m)) m).

(** *** Incoming connections *)
Definition on_incoming_pending_session (i : IpAddr) (m : PeersManager) : option InboundConnectionError * PeersManager :=
  if is_banned_ip i (ban_list m) then (Some IpBanned, m)
  else if negb (has_in_capacity (connection_info m)) && bool_decide (trusted_peer_ids m = ∅)
  then (Some ExceedsCapacity, m)
  else (None, on_info inc_pending_in m).
Definition on_incoming_pending_session_rejected_internally : PeersManager → PeersManager := on_info decr_pending_in.
Definition on_incoming_pending_session_gracefully_closed : PeersManager → PeersManager := on_info decr_pending_in.
Definition on_incoming_pending_session_dropped (now : Z) (remote_addr : SocketAddr) (err : PendingSessionHandshakeError)
  (m : PeersManager) : PeersManager :=
  let m :=
    if is_fatal_protocol_error err then
      let m := ban_ip now (ip remote_addr) m in
      if merits_discovery_ban err then push (DiscoveryBanIp (ip remote_addr)) m else m
    else m in
  on_info decr_pending_in m.

(** The end of [on_incoming_session_established]. *)
Definition check_in_capacity (id : PeerId) (trusted has_in_capacity : bool) (m : PeersManager) : PeersManager :=
  if negb trusted && negb has_in_capacity then push (Disconnect id (Some TooManyPeers)) m else m.
Definition on_incoming_session_established (now : Z) (id : PeerId) (a : SocketAddr) (m : PeersManager) : PeersManager :=
  let m := on_info decr_pending_in m in
  if is_banned_peer id (ban_list m) then push (DisconnectBannedIncoming id) m else
  let trusted := bool_decide (id ∈ trusted_peer_ids m) in
  if trusted_nodes_only m && negb trusted then push (DisconnectUntrustedIncoming id) m else
  let m := tick now m in
  let has_in := has_in_capacity (connection_info m) in
  let m := on_info inc_in m in
  match peers m !! id with
  | Some peer =>
    if is_banned peer then push (DisconnectBannedIncoming id) m else
    let m := if is_pending_out (pstate peer) then on_info (decr_state (pstate peer)) m else m in
    check_in_capacity id (trusted || is_trusted peer) has_in (put id (set_pstate In_ peer) m)
  | None =>
    let peer := set_remove_after true (with_state (from_tcp a) In_) in
    check_in_capacity id trusted has_in (push (PeerAdded id) (put id peer m))
  end.

(** *** Reputation *)
Definition exempt (k : ReputationChangeKind) : bool :=
  match k with Dropped | BadAnnouncement | Timeout | AlreadySeenTransaction => true | _ => false end.
Definition apply_reputation_change (now : Z) (id : PeerId) (rep : ReputationChangeKind) (m : PeersManager) : PeersManager :=
  match peers m !! id with
  | None => m
  | Some peer =>
    let favoured := is_trusted peer || is_static peer in
    if negb (is_reset rep) && favoured && exempt rep then m else
    let '(outcome, peer) :=
      if is_reset rep then reset_reputation peer
      else
        let c := change (reputation_weights m) rep in
        apply_reputation (if favoured && (c <? MAX_TRUSTED_PEER_REPUTATION_CHANGE)
                          then MAX_TRUSTED_PEER_REPUTATION_CHANGE else c) peer in
    let m := put id peer m in
    match outcome with
    | NoChange => m
    | Ban => ban_peer now id m
    | Unban => manager_unban_peer id m
    | DisconnectAndBan => ban_peer now id (push (Disconnect id (Some DisconnectRequested)) m)
    end
  end.

(** *** Outgoing connections *)
Definition eligible (only_trusted : bool) (p : Peer) : bool :=
  negb (backed_off p) && negb (is_banned p) && is_unconnected (pstate p) && (negb only_trusted || is_trusted p).
Fixpoint best_loop (best : PeerId * Peer) (l : list (PeerId * Peer)) : PeerId * Peer :=
  match l with
  | [] => best
  | e :: l =>
    if is_trusted e.2 || is_static e.2 then e
    else best_loop (if reputation best.2 <? reputation e.2 then e else best) l
  end.
Definition best_unconnected (m : PeersManager) : option (PeerId * Peer) :=
  match filter (λ e, eligible (trusted_nodes_only m) e.2 = true) (iter (peers m)) with
  | [] => None
  | best :: l => Some (if is_trusted best.2 || is_static best.2 then best else best_loop best l)
  end.
(** Each round takes one idle peer: the number of peers bounds the rounds. *)
Fixpoint fill_loop (fuel : nat) (m : PeersManager) : PeersManager :=
  match fuel with
  | O => m
  | S fuel =>
    if has_out_capacity (connection_info m) then
      match best_unconnected m with
      | Some (id, peer) =>
        fill_loop fuel
          (push (Connect id (tcp (addr peer))) (on_info inc_pending_out (put id (set_pstate PendingOut peer) m)))
      | None => m
      end
    else m
  end.
Definition fill_outbound_slots (now : Z) (m : PeersManager) : PeersManager :=
  let m := tick now m in
  if negb (is_active (net_connection_state m)) then m else fill_loop (size (peers m)) m.

Definition on_outgoing_pending_session_gracefully_closed (id : PeerId) (m : PeersManager) : PeersManager :=
  match peers m !! id with
  | Some peer => put id (set_pstate Idle peer) (on_info (decr_state (pstate peer)) m)
  | None => m
  end.
Definition on_active_session_gracefully_closed (now : Z) (id : PeerId) (m : PeersManager) : PeersManager :=
  match peers m !! id with
  | Some peer =>
    let m := on_info (decr_state (pstate peer)) m in
    if remove_after_disconnect peer && negb (is_trusted peer)
    then fill_outbound_slots now (push (PeerRemoved id) (drop_peer id m))
    else put id (set_pstate Idle (set_severe 0 peer)) m
  | None => m
  end.
Definition on_active_outgoing_established (id : PeerId) (m : PeersManager) : PeersManager :=
  match peers m !! id with
  | Some peer => put id (set_pstate Out peer) (on_info (λ c, inc_out (decr_state (pstate peer) c)) m)
  | None => m
  end.

(** The branch of [on_connection_failure] for an error that is not fatal. *)
Definition on_transient_failure {E} `{SessionError E} (now : Z) (id : PeerId) (err : E) (kind : ReputationChangeKind)
  (m : PeersManager) : PeersManager :=
  match peers m !! id with
  | None => m
  | Some peer =>
    let '(until, peer) :=
      match should_backoff err with
      | Some k =>
        let peer :=
          if is_severe k then set_severe (Z.min 255 (severe_backoff_counter peer + 1)) peer else peer in
        (Some (backoff_until (backoff_durations m) now k (severe_backoff_counter peer)), peer)
      | None =>
        (None, set_reputation (saturating_add_i32 (reputation peer) (change (reputation_weights m) kind)) peer)
      end in
    let m := put id (set_pstate Idle peer) (on_info (decr_state (pstate peer)) m) in
    if (max_backoff_count m <? severe_backoff_counter peer) && negb (is_trusted peer)
    then push (PeerRemoved id) (drop_peer id m)
    else match until with Some until => backoff_peer_until id until m | None => m end
  end.
Definition on_connection_failure {E} `{SessionError E} (now : Z) (remote_addr : SocketAddr) (id : PeerId) (err : E)
  (kind : ReputationChangeKind) (m : PeersManager) : PeersManager :=
  let m :=
    if is_fatal_protocol_error err then
      let m :=
        match peers m !! id with
        | Some peer => push (PeerRemoved id) (on_info (decr_state (pstate peer)) (drop_peer id m))
        | None => m
        end in
      let m := ban_peer now id m in
      if merits_discovery_ban err then push (DiscoveryBanPeerId id (ip remote_addr)) m else m
    else on_transient_failure now id err kind m in
  fill_outbound_slots now m.
Definition on_outgoing_pending_session_dropped (now : Z) (remote_addr : SocketAddr) (id : PeerId)
  (err : PendingSessionHandshakeError) (m : PeersManager) : PeersManager :=
  on_connection_failure now remote_addr id err FailedToConnect m.
Definition on_active_session_dropped (now : Z) (remote_addr : SocketAddr) (id : PeerId) (err : EthStreamError)
  (m : PeersManager) : PeersManager :=
  on_connection_failure now remote_addr id err Dropped m.
Definition on_outgoing_connection_failure (now : Z) (remote_addr : SocketAddr) (id : PeerId) (err : ErrorKind)
  (m : PeersManager) : PeersManager :=
  match peers m !! id with
  | Some peer => if is_incoming (pstate peer) then m else on_connection_failure now remote_addr id err FailedToConnect m
  | None => on_connection_failure now remote_addr id err FailedToConnect m
  end.
Definition on_already_connected (d : Direction) (m : PeersManager) : PeersManager :=
  match d with Incoming => on_info decr_pending_in m | Outgoing _ => m end.

(** *** The set of peers *)
Definition set_discovered_fork_id (id : PeerId) (f : ForkId.ForkId) (m : PeersManager) : PeersManager :=
  match peers m !! id with Some peer => put id (set_fork_id (Some f) peer) m | None => m end.
Definition add_peer_kind (id : PeerId) (k : PeerKind) (a : PeerAddr) (f : option ForkId.ForkId) (m : PeersManager)
  : PeersManager :=
  if is_banned_either id (ip (tcp a)) (ban_list m) then m else
  let m :=
    match peers m !! id with
    | Some peer =>
      let peer := set_addr a (set_fork_id f (set_kind k peer)) in
      put id (if is_incoming (pstate peer) then set_remove_after false peer else peer) m
    | None => push (PeerAdded id) (put id (set_fork_id f (with_kind a k)) m)
    end in
  if kind_is_trusted k then with_trusted ({[id]} ∪ trusted_peer_ids m) m else m.
Definition add_peer (id : PeerId) (a : PeerAddr) (f : option ForkId.ForkId) : PeersManager → PeersManager :=
  add_peer_kind id Basic a f.
Definition add_trusted_peer_id (id : PeerId) (m : PeersManager) : PeersManager :=
  with_trusted ({[id]} ∪ trusted_peer_ids m) m.
Definition add_trusted_peer (id : PeerId) (a : PeerAddr) : PeersManager → PeersManager := add_peer_kind id Trusted a None.
Definition remove_peer (id : PeerId) (m : PeersManager) : PeersManager :=
  match peers m !! id with
  | None => m
  | Some peer =>
    if is_trusted peer then m else
    let m := push (PeerRemoved id) (drop_peer id m) in
    if is_connected (pstate peer)
    then push (Disconnect id (Some DisconnectRequested))
           (put id (set_pstate (disconnect (pstate peer)) (set_remove_after true peer)) m)
    else m
  end.
Definition remove_peer_from_trusted_set (id : PeerId) (m : PeersManager) : PeersManager :=
  match peers m !! id with
  | None => m
  | Some peer =>
    if negb (is_trusted peer) then m
    else with_trusted (trusted_peer_ids m ∖ {[id]}) (put id (set_kind Basic peer) m)
  end.
Definition on_network_state_change : NetworkConnectionState → PeersManager → PeersManager := with_net_state.
Definition on_shutdown : PeersManager → PeersManager := with_net_state ShuttingDown.

(** *** Polling *)
Inductive PeerCommand :=
| CmdAdd (peer_id : PeerId) (a : SocketAddr)
| CmdRemove (peer_id : PeerId)
| CmdReputationChange (peer_id : PeerId) (rep : ReputationChangeKind)
| CmdGetPeer (peer_id : PeerId)
| CmdGetPeers.
(** What is sent back on the channel of a command. *)
Inductive PeerReply := GotPeer (p : option Peer) | GotPeers (l : list NodeRecord).

Definition on_command (now : Z) (cmd : PeerCommand) (m : PeersManager) : list PeerReply * PeersManager :=
  match cmd with
  | CmdAdd id a => ([], add_peer id (from_tcp a) None m)
  | CmdRemove id => ([], remove_peer id m)
  | CmdReputationChange id rep => ([], apply_reputation_change now id rep m)
  | CmdGetPeer id => ([GotPeer (peers m !! id)], m)
  | CmdGetPeers => ([GotPeers (iter_peers m)], m)
  end.
Fixpoint on_commands (now : Z) (cmds : list PeerCommand) (m : PeersManager) : list PeerReply * PeersManager :=
  match cmds with
  | [] => ([], m)
  | cmd :: cmds =>
    let '(r, m) := on_command now cmd m in
    let '(rs, m) := on_commands now cmds m in
    (r ++ rs, m)
  end.

Definition unban_evicted (id : PeerId) (m : PeersManager) : PeersManager :=
  match peers m !! id with Some peer => push (UnBanPeer id) (put id (unban peer) m) | None => m end.
Definition end_backoff (id : PeerId) (m : PeersManager) : PeersManager :=
  match peers m !! id with Some peer => put id (set_backed_off false peer) m | None => m end.
(** The work of [release_interval]. *)
Definition release (now : Z) (m : PeersManager) : PeersManager :=
  let '(_, unbanned, bans) := evict now (ban_list m) in
  let m := foldl (λ m id, unban_evicted id m) (with_bans bans m) unbanned in
  let '(expired, rest) := retain (λ until, negb (until <? now)) (backed_off_peers m) in
  with_backed_off rest (foldl (λ m id, end_backoff id m) m expired).

Definition poll (now : Z) (cmds : list PeerCommand) (release_ready : bool) (refills : nat) (m : PeersManager)
  : list PeerReply * option PeerAction * PeersManager :=
  match queued_actions m with
  | action :: q => ([], Some action, with_actions q m)
  | [] =>
    let '(replies, m) := on_commands now cmds m in
    let m := if release_ready then release now m else m in
    let m := Nat.iter refills (fill_outbound_slots now) m in
    match queued_actions m with
    | action :: q => (replies, Some action, with_actions q m)
    | [] => (replies, None, m)
    end
  end.
End manager.
