(* ===== verification/Sessions.v ===== *)
(** * Sessions and the network

    [SessionManager] with its counters ([net/network/src/session]), and the composition with
    the peers manager: [Swarm] ([swarm.rs]), the queue of [NetworkState] ([state.rs]) and the
    handlers of [NetworkManager] ([manager.rs]) that reach the peers manager.

    A session runs in a task of its own: the tasks are the environment, and [net_step] lets
    them act.  A pending session reports once, and then is no longer pending; an active
    session reports its end once.  The identity under which a session is established is the
    one of the remote's hello message, which the code does not compare with the identity
    that was dialed. *)

From stdpp Require Import prelude gmap list.
From S2P Require Import Prelude.
From S2P Require Import Ord.
From S2P Require Import Forks.
From S2P Require Import ForkId.
From S2P Require Import NetErrors.
From S2P Require Import Peer.
From S2P Require Import Peers.

(** ** Counters *)
Record SessionLimits := mkSessionLimits {
  max_pending_inbound : option Z;
  max_pending_outbound : option Z;
  max_established_inbound : option Z;
  max_established_outbound : option Z;
}.
Record SessionCounter := mkSessionCounter {
  limits : SessionLimits;
  pending_inbound : Z;
  pending_outbound : Z;
  active_inbound : Z;
  active_outbound : Z;
}.
Definition SessionCounter_new (l : SessionLimits) : SessionCounter := mkSessionCounter l 0 0 0 0.
Definition inc_pending_inbound (c : SessionCounter) : SessionCounter :=
  mkSessionCounter (limits c) (wrap_u32 (pending_inbound c + 1)) (pending_outbound c) (active_inbound c) (active_outbound c).
Definition inc_pending_outbound (c : SessionCounter) : SessionCounter :=
  mkSessionCounter (limits c) (pending_inbound c) (wrap_u32 (pending_outbound c + 1)) (active_inbound c) (active_outbound c).
Definition dec_pending (d : Direction) (c : SessionCounter) : SessionCounter :=
  match d with
  | Outgoing _ =>
    mkSessionCounter (limits c) (pending_inbound c) (wrap_u32 (pending_outbound c - 1)) (active_inbound c) (active_outbound c)
  | Incoming =>
    mkSessionCounter (limits c) (wrap_u32 (pending_inbound c - 1)) (pending_outbound c) (active_inbound c) (active_outbound c)
  end.
Definition inc_active (d : Direction) (c : SessionCounter) : SessionCounter :=
  match d with
  | Outgoing _ =>
    mkSessionCounter (limits c) (pending_inbound c) (pending_outbound c) (active_inbound c) (wrap_u32 (active_outbound c + 1))
  | Incoming =>
    mkSessionCounter (limits c) (pending_inbound c) (pending_outbound c) (wrap_u32 (active_inbound c + 1)) (active_outbound c)
  end.
Definition dec_active (d : Direction) (c : SessionCounter) : SessionCounter :=
  match d with
  | Outgoing _ =>
    mkSessionCounter (limits c) (pending_inbound c) (pending_outbound c) (active_inbound c) (wrap_u32 (active_outbound c - 1))
  | Incoming =>
    mkSessionCounter (limits c) (pending_inbound c) (pending_outbound c) (wrap_u32 (active_inbound c - 1)) (active_outbound c)
  end.
(** [Some] is the error [ExceedsSessionLimit]. *)
Definition ensure (current : Z) (limit : option Z) : option Z :=
  match limit with Some limit => if limit <=? current then Some limit else None | None => None end.
Definition ensure_pending_outbound (c : SessionCounter) : option Z :=
  ensure (pending_outbound c) (max_pending_outbound (limits c)).
Definition ensure_pending_inbound (c : SessionCounter) : option Z :=
  ensure (pending_inbound c) (max_pending_inbound (limits c)).

(** ** The session manager *)
Notation SessionId := Z (only parsing).
Record Status := mkStatus { st_blockhash : Z; st_total_difficulty : Z; st_forkid : ForkId.ForkId }.
Record ActiveSessionHandle := mkActiveSessionHandle { as_direction : Direction; as_session_id : SessionId }.
Record SessionManager := mkSessionManager {
  next_id : Z;
  counter : SessionCounter;
  status : Status;
  fork_filter : ForkFilter;
  pending_sessions : gmap SessionId Direction;
  active_sessions : gmap PeerId ActiveSessionHandle;
}.
Definition SessionManager_new (l : SessionLimits) (s : Status) (f : ForkFilter) : SessionManager :=
  mkSessionManager 0 (SessionCounter_new l) s f ∅ ∅.

Definition is_valid_fork_id (f : ForkId.ForkId) (m : SessionManager) : bool :=
  match ForkId.validate f (fork_filter m) with None => true | Some _ => false end.
Definition num_pending_connections (m : SessionManager) : Z := Z.of_nat (size (pending_sessions m)).
Definition on_status_update (h : Head) (m : SessionManager)
  : outcome (option ForkTransition * SessionManager) :=
  '(transition, f) ← set_head h (fork_filter m);
  Done (transition,
        mkSessionManager (next_id m) (counter m) (mkStatus (hd_hash h) (hd_total_difficulty h) (ForkId.current f)) f
          (pending_sessions m) (active_sessions m)).

(** A new pending session. *)
Definition open_pending (d : Direction) (inc : SessionCounter → SessionCounter) (m : SessionManager) : SessionManager :=
  mkSessionManager (wrap_u64 (next_id m + 1)) (inc (counter m)) (status m) (fork_filter m)
    (<[next_id m := d]> (pending_sessions m)) (active_sessions m).
Definition on_incoming (m : SessionManager) : Z + SessionId * SessionManager :=
  match ensure_pending_inbound (counter m) with
  | Some limit => inl limit
  | None => inr (next_id m, open_pending Incoming inc_pending_inbound m)
  end.
Definition dial_outbound (remote_peer_id : PeerId) (m : SessionManager) : SessionManager :=
  match ensure_pending_outbound (counter m) with
  | None => open_pending (Outgoing remote_peer_id) inc_pending_outbound m
  | Some _ => m
  end.
Definition remove_pending_session (id : SessionId) (m : SessionManager) : SessionManager :=
  match pending_sessions m !! id with
  | Some d =>
    mkSessionManager (next_id m) (dec_pending d (counter m)) (status m) (fork_filter m)
      (delete id (pending_sessions m)) (active_sessions m)
  | None => m
  end.
Definition remove_active_session (id : PeerId) (m : SessionManager) : SessionManager :=
  match active_sessions m !! id with
  | Some s =>
    mkSessionManager (next_id m) (dec_active (as_direction s) (counter m)) (status m) (fork_filter m)
      (pending_sessions m) (delete id (active_sessions m))
  | None => m
  end.

(** *** Events *)
Inductive ActiveSessionMessage :=
| ActiveDisconnected (peer_id : PeerId) (remote_addr : SocketAddr)
| ClosedOnConnectionError (peer_id : PeerId) (remote_addr : SocketAddr) (error : EthStreamError)
| ActiveValidMessage (peer_id : PeerId)
| ActiveInvalidMessage (peer_id : PeerId)
| ActiveBadMessage (peer_id : PeerId)
| ActiveProtocolBreach (peer_id : PeerId).
Inductive PendingSessionEvent :=
| Established (session_id : SessionId) (remote_addr : SocketAddr) (peer_id : PeerId) (direction : Direction)
| PendingDisconnected (session_id : SessionId) (remote_addr : SocketAddr) (direction : Direction)
    (error : option PendingSessionHandshakeError)
| PendingConnectionError (session_id : SessionId) (remote_addr : SocketAddr) (peer_id : PeerId) (error : ErrorKind)
| EciesAuthError (session_id : SessionId) (remote_addr : SocketAddr) (direction : Direction) (error : Z).
Inductive SessionEvent :=
| SessionEstablished (peer_id : PeerId) (remote_addr : SocketAddr) (direction : Direction)
| AlreadyConnectedEvent (peer_id : PeerId) (remote_addr : SocketAddr) (direction : Direction)
| ValidMessage (peer_id : PeerId)
| InvalidMessageEvent (peer_id : PeerId)
| IncomingPendingSessionClosed (remote_addr : SocketAddr) (error : option PendingSessionHandshakeError)
| OutgoingPendingSessionClosed (remote_addr : SocketAddr) (peer_id : PeerId) (error : option PendingSessionHandshakeError)
| OutgoingConnectionError (remote_addr : SocketAddr) (peer_id : PeerId) (error : ErrorKind)
| SessionClosedOnConnectionError (peer_id : PeerId) (remote_addr : SocketAddr) (error : EthStreamError)
| SessionDisconnected (peer_id : PeerId) (remote_addr : SocketAddr)
| BadMessageEvent (peer_id : PeerId)
| ProtocolBreachEvent (peer_id : PeerId).

(** The two halves of [poll]. *)
Definition poll_active (e : ActiveSessionMessage) (m : SessionManager) : SessionEvent * SessionManager :=
  match e with
  | ActiveDisconnected id a => (SessionDisconnected id a, remove_active_session id m)
  | ClosedOnConnectionError id a err => (SessionClosedOnConnectionError id a err, remove_active_session id m)
  | ActiveValidMessage id => (ValidMessage id, m)
  | ActiveInvalidMessage id => (InvalidMessageEvent id, m)
  | ActiveBadMessage id => (BadMessageEvent id, m)
  | ActiveProtocolBreach id => (ProtocolBreachEvent id, m)
  end.
Definition closed_event (d : Direction) (a : SocketAddr) (error : option PendingSessionHandshakeError) : SessionEvent :=
  match d with
  | Incoming => IncomingPendingSessionClosed a error
  | Outgoing id => OutgoingPendingSessionClosed a id error
  end.
Definition poll_pending (e : PendingSessionEvent) (m : SessionManager) : SessionEvent * SessionManager :=
  match e with
  | Established sid a id d =>
    let m := remove_pending_session sid m in
    match active_sessions m !! id with
    | Some _ => (AlreadyConnectedEvent id a d, m)
    | None =>
      (SessionEstablished id a d,
       mkSessionManager (next_id m) (inc_active d (counter m)) (status m) (fork_filter m) (pending_sessions m)
         (<[id := mkActiveSessionHandle d sid]> (active_sessions m)))
    end
  | PendingDisconnected sid a d error => (closed_event d a error, remove_pending_session sid m)
  | PendingConnectionError sid a id error => (OutgoingConnectionError a id error, remove_pending_session sid m)
  | EciesAuthError sid a d error => (closed_event d a (Some (EciesError error)), remove_pending_session sid m)
  end.

(** ** The network *)
Inductive StateAction :=
| SConnect (remote_addr : SocketAddr) (peer_id : PeerId)
| SDisconnect (peer_id : PeerId) (reason : option DisconnectReason)
| SPeerAdded (peer_id : PeerId)
| SPeerRemoved (peer_id : PeerId)
| SDiscoveredNode (peer_id : PeerId) (a : PeerAddr) (fork_id : option ForkId.ForkId)
| SDiscoveredEnrForkId (peer_id : PeerId) (fork_id : ForkId.ForkId).

Record Net := mkNet {
  sessions : SessionManager;
  peers_manager : PeersManager;
  queued_messages : list StateAction;
  num_active_peers : Z;
}.
Definition with_sessions (s : SessionManager) (n : Net) : Net :=
  mkNet s (peers_manager n) (queued_messages n) (num_active_peers n).
Definition with_manager (m : PeersManager) (n : Net) : Net :=
  mkNet (sessions n) m (queued_messages n) (num_active_peers n).
Definition with_messages (q : list StateAction) (n : Net) : Net :=
  mkNet (sessions n) (peers_manager n) q (num_active_peers n).
Definition with_active_peers (k : Z) (n : Net) : Net := mkNet (sessions n) (peers_manager n) (queued_messages n) k.
Definition on_peers (f : PeersManager → PeersManager) (n : Net) : Net := with_manager (f (peers_manager n)) n.
Definition queue (a : StateAction) (n : Net) : Net := with_messages (queued_messages n ++ [a]) n.

Section net.
Context `{HashOrder}.

(** [Swarm::on_session_event] with the arm of [NetworkManager::on_swarm_event] that handles
    what it returns. *)
Definition on_session_event (now : Z) (e : SessionEvent) (n : Net) : Net :=
  match e with
  | SessionEstablished id a d =>
    let n := with_active_peers (wrap_u64 (num_active_peers n + 1)) n in
    match d with
    | Incoming => on_peers (on_incoming_session_established now id a) n
    | Outgoing _ => on_peers (on_active_outgoing_established id) n
    end
  | AlreadyConnectedEvent _ _ d => on_peers (on_already_connected d) n
  | ValidMessage _ => n
  | InvalidMessageEvent id => on_peers (apply_reputation_change now id BadProtocol) n
  | IncomingPendingSessionClosed a error =>
    match error with
    | Some err => on_peers (on_incoming_pending_session_dropped now a err) n
    | None => on_peers on_incoming_pending_session_gracefully_closed n
    end
  | OutgoingPendingSessionClosed a id error =>
    match error with
    | Some err => on_peers (on_outgoing_pending_session_dropped now a id err) n
    | None => on_peers (on_outgoing_pending_session_gracefully_closed id) n
    end
  | OutgoingConnectionError a id err => on_peers (on_outgoing_connection_failure now a id err) n
  | SessionClosedOnConnectionError id a err =>
    on_peers (on_active_session_dropped now a id err) (with_active_peers (wrap_u64 (num_active_peers n - 1)) n)
  | SessionDisconnected id _ =>
    on_peers (on_active_session_gracefully_closed now id) (with_active_peers (wrap_u64 (num_active_peers n - 1)) n)
  | BadMessageEvent id => on_peers (apply_reputation_change now id BadMessage) n
  | ProtocolBreachEvent id => on_peers (apply_reputation_change now id BadProtocol) n
  end.

(** [Swarm::on_connection] for an accepted connection. *)
Definition on_connection (remote_addr : SocketAddr) (n : Net) : Net :=
  if is_shutting_down (connection_state (peers_manager n)) then n else
  match on_incoming_pending_session (ip remote_addr) (peers_manager n) with
  | (Some _, m) => with_manager m n
  | (None, m) =>
    let n := with_manager m n in
    match on_incoming (sessions n) with
    | inr (_, s) => with_sessions s n
    | inl _ => on_peers on_incoming_pending_session_rejected_internally n
    end
  end.

(** [Swarm::on_state_action].  Disconnecting sends a command to the task of the session. *)
Definition on_state_action (e : StateAction) (n : Net) : Net :=
  match e with
  | SConnect _ id => with_sessions (dial_outbound id (sessions n)) n
  | SDisconnect _ _ | SPeerAdded _ | SPeerRemoved _ => n
  | SDiscoveredNode id a f =>
    if is_shutting_down (connection_state (peers_manager n)) then n
    else if match f with None => true | Some f => is_valid_fork_id f (sessions n) end
    then on_peers (add_peer id a f) n else n
  | SDiscoveredEnrForkId id f =>
    if is_valid_fork_id f (sessions n) then on_peers (set_discovered_fork_id id f) n else on_peers (remove_peer id) n
  end.

(** [NetworkState::on_peer_action]; the bans in the discovery service are outside. *)
Definition on_peer_action (a : PeerAction) (n : Net) : Net :=
  match a with
  | Connect id remote_addr => queue (SConnect remote_addr id) n
  | Disconnect id reason => queue (SDisconnect id reason) n
  | DisconnectBannedIncoming id | DisconnectUntrustedIncoming id => queue (SDisconnect id None) n
  | DiscoveryBanPeerId _ _ | DiscoveryBanIp _ => n
  | PeerAdded id => queue (SPeerAdded id) n
  | PeerRemoved id => queue (SPeerRemoved id) n
  | BanPeer _ | UnBanPeer _ => n
  end.
Definition poll_peers (now : Z) (cmds : list PeerCommand) (release_ready : bool) (refills : nat) (n : Net) : Net :=
  let '(_, action, m) := poll now cmds release_ready refills (peers_manager n) in
  let n := with_manager m n in
  match action with Some a => on_peer_action a n | None => n end.

(** [NetworkState::remove_peer_kind] and the messages of [NetworkHandle] that change the
    state. *)
Definition remove_peer_kind (id : PeerId) (k : PeerKind) : Net → Net :=
  match k with Basic | Static => on_peers (remove_peer id) | Trusted => on_peers (remove_peer_from_trusted_set id) end.
Inductive NetworkHandleMessage :=
| AddTrustedPeerId (peer_id : PeerId)
| AddPeerAddress (peer_id : PeerId) (k : PeerKind) (a : PeerAddr)
| RemovePeer (peer_id : PeerId) (k : PeerKind)
| SetNetworkState (s : NetworkConnectionState)
| Shutdown
| ReputationChange (peer_id : PeerId) (k : ReputationChangeKind)
| StatusUpdate (h : Head).
Definition on_handle_message (now : Z) (msg : NetworkHandleMessage) (n : Net) : outcome Net :=
  match msg with
  | AddTrustedPeerId id => Done (on_peers (add_trusted_peer_id id) n)
  | AddPeerAddress id k a =>
    Done (if is_shutting_down (connection_state (peers_manager n)) then n else on_peers (add_peer_kind id k a None) n)
  | RemovePeer id k => Done (remove_peer_kind id k n)
  | SetNetworkState s => Done (on_peers (on_network_state_change s) n)
  | Shutdown => Done (on_peers on_shutdown n)
  | ReputationChange id k => Done (on_peers (apply_reputation_change now id k) n)
  | StatusUpdate h => '(_, s) ← on_status_update h (sessions n); Done (with_sessions s n)
  end.

(** ** Steps

    What the tasks and the caller may do.  A task of a pending session knows its own id and
    direction; a message of an active session comes from a session that is active. *)
Inductive NetEvent :=
| EvAccept (remote_addr : SocketAddr)
| EvPending (e : PendingSessionEvent)
| EvActive (e : ActiveSessionMessage)
| EvPoll (cmds : list PeerCommand) (release_ready : bool) (refills : nat)
| EvState
| EvDiscovery (e : StateAction)
| EvHandle (msg : NetworkHandleMessage).

Definition pending_source (e : PendingSessionEvent) : SessionId * Direction :=
  match e with
  | Established sid _ _ d | PendingDisconnected sid _ d _ | EciesAuthError sid _ d _ => (sid, d)
  | PendingConnectionError sid _ id _ => (sid, Outgoing id)
  end.
Definition active_source (e : ActiveSessionMessage) : PeerId :=
  match e with
  | ActiveDisconnected id _ | ClosedOnConnectionError id _ _ | ActiveValidMessage id | ActiveInvalidMessage id
  | ActiveBadMessage id | ActiveProtocolBreach id => id
  end.
Definition is_discovery (e : StateAction) : bool :=
  match e with SDiscoveredNode _ _ _ | SDiscoveredEnrForkId _ _ => true | _ => false end.

Inductive net_step (now : Z) (n : Net) : NetEvent → Net → Prop :=
| step_accept a : net_step now n (EvAccept a) (on_connection a n)
| step_pending e s ev :
    pending_sessions (sessions n) !! (pending_source e).1 = Some (pending_source e).2 →
    poll_pending e (sessions n) = (ev, s) →
    net_step now n (EvPending e) (on_session_event now ev (with_sessions s n))
| step_active e s ev :
    is_Some (active_sessions (sessions n) !! active_source e) →
    poll_active e (sessions n) = (ev, s) →
    net_step now n (EvActive e) (on_session_event now ev (with_sessions s n))
| step_poll cmds r k : net_step now n (EvPoll cmds r k) (poll_peers now cmds r k n)
| step_state e q :
    queued_messages n = e :: q → net_step now n EvState (on_state_action e (with_messages q n))
| step_discovery e : is_discovery e = true → net_step now n (EvDiscovery e) (queue e n)
| step_handle msg n' : on_handle_message now msg n = Done n' → net_step now n (EvHandle msg) n'.

(** A run: the instants and events of its steps. *)
Inductive net_run : Net → list (Z * NetEvent) → Net → Prop :=
| run_nil n : net_run n [] n
| run_snoc n l n1 now e n2 : net_run n l n1 → net_step now n1 e n2 → net_run n (l ++ [(now, e)]) n2.

(** The steps as a function. *)
Definition net_apply (now : Z) (e : NetEvent) (n : Net) : option Net :=
  match e with
  | EvAccept a => Some (on_connection a n)
  | EvPending e =>
    match pending_sessions (sessions n) !! (pending_source e).1, (pending_source e).2 with
    | Some Incoming, Incoming => let '(ev, s) := poll_pending e (sessions n) in Some (on_session_event now ev (with_sessions s n))
    | Some (Outgoing i), Outgoing j =>
      if i =? j then let '(ev, s) := poll_pending e (sessions n) in Some (on_session_event now ev (with_sessions s n)) else None
    | _, _ => None
    end
  | EvActive e =>
    match active_sessions (sessions n) !! active_source e with
    | Some _ => let '(ev, s) := poll_active e (sessions n) in Some (on_session_event now ev (with_sessions s n))
    | None => None
    end
  | EvPoll cmds r k => Some (poll_peers now cmds r k n)
  | EvState => match queued_messages n with [] => None | e :: q => Some (on_state_action e (with_messages q n)) end
  | EvDiscovery e => if is_discovery e then Some (queue e n) else None
  | EvHandle msg => match on_handle_message now msg n with Done n' => Some n' | _ => None end
  end.
Lemma net_apply_step now e n n' : net_apply now e n = Some n' → net_step now n e n'.
Proof.
  destruct e as [a|e|e|cmds r k| |e|msg]; simpl; intros Hn.
  - injection Hn as <-. constructor.
  - destruct (pending_sessions (sessions n) !! (pending_source e).1) as [[|i]|] eqn:Hp;
      destruct (pending_source e).2 as [|j] eqn:Hd; try done.
    + destruct (poll_pending e (sessions n)) as [ev s] eqn:He. injection Hn as <-. by econstructor; [rewrite Hp, Hd|].
    + destruct (Z.eqb_spec i j) as [->|]; [|done]. destruct (poll_pending e (sessions n)) as [ev s] eqn:He.
      injection Hn as <-. by econstructor; [rewrite Hp, Hd|].
  - destruct (active_sessions (sessions n) !! active_source e) eqn:Ha; [|done].
    destruct (poll_active e (sessions n)) as [ev s] eqn:He. injection Hn as <-. by econstructor; [eexists|].
  - injection Hn as <-. constructor.
  - destruct (queued_messages n) eqn:Hq; [done|]. injection Hn as <-. by constructor.
  - destruct (is_discovery e) eqn:He; [|done]. injection Hn as <-. by constructor.
  - destruct (on_handle_message now msg n) eqn:Hm; try done. injection Hn as <-. by constructor.
Qed.
Fixpoint net_exec (l : list (Z * NetEvent)) (n : Net) : option Net :=
  match l with [] => Some n | e :: l => n ← net_apply e.1 e.2 n; net_exec l n end.
Lemma net_run_app n l1 n1 l2 n2 : net_run n l1 n1 → net_run n1 l2 n2 → net_run n (l1 ++ l2) n2.
Proof.
  intros H1 H2. induction H2 as [|n1 l n2 now e n3 H2 IH Hs]; [by rewrite app_nil_r|].
  rewrite app_assoc. econstructor; [by apply IH|done].
Qed.
Lemma net_exec_run l n n' : net_exec l n = Some n' → net_run n l n'.
Proof.
  revert n; induction l as [|[now e] l IH]; intros n Hn; simpl in *; [injection Hn as <-; constructor|].
  apply bind_Some in Hn as (n1 & H1 & H2). apply (net_run_app _ [(now, e)] n1); [|by apply IH].
  apply (run_snoc n [] n now e n1); [constructor|by apply net_apply_step].
Qed.
End net.
