(* ===== verification/PeersSteps.v ===== *)
(** * Properties of the peers manager

    The counters of connections against the states of the peers, whatever the order of the
    calls; the loop that dials; and the leeway of trusted peers. *)

From stdpp Require Import prelude gmap list.
From S2P Require Import Prelude.
From S2P Require Import Ord.
From S2P Require Import ForkId.
From S2P Require Import NetErrors.
From S2P Require Import Peer.
From S2P Require Import Peers.

(** ** Counting the entries of a map *)
Definition mcount {K A} `{Countable K} (f : A → bool) (m : gmap K A) : Z :=
  Z.of_nat (size (filter (λ e, f e.2 = true) m)).
Section mcount.
Context {K A : Type} `{Countable K} (f : A → bool).
Implicit Types m : gmap K A.
Lemma mcount_insert m k x : m !! k = None → mcount f (<[k := x]> m) = mcount f m + Z.b2z (f x).
Proof.
  intros Hn. unfold mcount. destruct (f x) eqn:Hf; simpl Z.b2z.
  - rewrite map_filter_insert_True by done. rewrite map_size_insert_None; [lia|].
    by apply map_lookup_filter_None_2; left.
  - rewrite map_filter_insert_False by (simpl; congruence). rewrite delete_id by done. lia.
Qed.
Lemma mcount_delete m k x : m !! k = Some x → mcount f (delete k m) = mcount f m - Z.b2z (f x).
Proof.
  intros Hx. rewrite <-(insert_delete_id m k x) at 2 by done.
  rewrite mcount_insert by apply lookup_delete_eq. lia.
Qed.
Lemma mcount_nonneg m : 0 ≤ mcount f m.
Proof. unfold mcount. lia. Qed.
Lemma mcount_size m : mcount f m ≤ Z.of_nat (size m).
Proof. unfold mcount. apply inj_le, map_subseteq_size, map_filter_subseteq. Qed.
End mcount.

(** ** Counting peers *)
Definition holds_in (s : PeerConnectionState) : bool := match s with In_ | DisconnectingIn => true | _ => false end.
Definition holds_out (s : PeerConnectionState) : bool := match s with Out | DisconnectingOut => true | _ => false end.

Definition count (f : PeerConnectionState → bool) (ps : gmap PeerId Peer) : Z := mcount (λ p, f (pstate p)) ps.
Definition occ (f : PeerConnectionState → bool) (p : Peer) : Z := Z.b2z (f (pstate p)).

Lemma count_insert f ps id p : ps !! id = None → count f (<[id := p]> ps) = occ f p + count f ps.
Proof. intros Hn. unfold count, occ. rewrite mcount_insert by done. lia. Qed.
Lemma count_delete f ps id p : ps !! id = Some p → count f (delete id ps) = count f ps - occ f p.
Proof. intros Hp. unfold count, occ. by rewrite (mcount_delete _ ps id p) by done. Qed.
Lemma count_update f ps id p p' : ps !! id = Some p → count f (<[id := p']> ps) = count f ps - occ f p + occ f p'.
Proof.
  intros Hp. rewrite <-insert_delete_eq, count_insert by apply lookup_delete_eq.
  rewrite (count_delete f ps id p) by done. lia.
Qed.
Lemma count_nonneg f ps : 0 ≤ count f ps.
Proof. apply mcount_nonneg. Qed.
Lemma count_occ f ps id p : ps !! id = Some p → occ f p ≤ count f ps.
Proof. intros Hp. pose proof (count_delete f ps id p Hp). pose proof (count_nonneg f (delete id ps)). lia. Qed.
Lemma count_fmap f (g : Peer → Peer) ps : (∀ p, pstate (g p) = pstate p) → count f (g <$> ps) = count f ps.
Proof.
  intros Hg. unfold count, mcount. rewrite map_filter_fmap, map_size_fmap. f_equal. f_equal.
  apply map_filter_ext. intros i p _. simpl. by rewrite Hg.
Qed.
Lemma count_size f ps : count f ps ≤ Z.of_nat (size ps).
Proof. apply mcount_size. Qed.

(** A peer is in one state at a time. *)
Lemma count_two ps : count is_pending_out ps + count is_unconnected ps ≤ Z.of_nat (size ps).
Proof.
  induction ps as [|id p ps Hp IH] using map_ind; [done|].
  rewrite !count_insert, map_size_insert_None by done. unfold occ. destruct (pstate p); simpl; lia.
Qed.

(** ** The counters

    [counts a b]: the counters of active connections are at least the numbers of peers that
    hold such a connection, and at most [a]; the counter of dials is the number of peers
    being dialed; there are at most [b] peers. *)
Record counts (a b : Z) (ps : gmap PeerId Peer) (c : ConnectionInfo) : Prop := {
  ct_in : count holds_in ps ≤ num_inbound c ≤ a;
  ct_out : count holds_out ps ≤ num_outbound c ≤ a;
  ct_pending : num_pending_out c = count is_pending_out ps;
  ct_size : Z.of_nat (size ps) ≤ b;
}.
Definition counted (a b : Z) (m : PeersManager) : Prop := counts a b (peers m) (connection_info m).

Lemma counts_weaken a b a' b' ps c : a ≤ a' → b ≤ b' → counts a b ps c → counts a' b' ps c.
Proof. intros Ha Hb []. split; try lia. Qed.

(** The pending incoming connections play no role. *)
Lemma counts_pending_in a b ps c n :
  counts a b ps c → counts a b ps (mkConnectionInfo (num_outbound c) (num_pending_out c) (num_inbound c) n (cconfig c)).
Proof. intros []. by split. Qed.

Lemma counts_wrap a b ps c :
  counts a b ps c → a < U64 → b < U64 →
  0 ≤ num_inbound c < U64 ∧ 0 ≤ num_outbound c < U64 ∧ 0 ≤ num_pending_out c < U64.
Proof.
  intros [] Ha Hb. pose proof (count_nonneg holds_in ps). pose proof (count_nonneg holds_out ps).
  pose proof (count_nonneg is_pending_out ps). pose proof (count_size is_pending_out ps). lia.
Qed.

(** A peer gives up what it holds. *)
Lemma counts_release a b ps c id p :
  counts a b ps c → a < U64 → b < U64 → ps !! id = Some p → counts a (b - 1) (delete id ps) (decr_state (pstate p) c).
Proof.
  intros Hc Ha Hb Hp. destruct (counts_wrap a b ps c Hc Ha Hb) as (? & ? & ?). destruct Hc as [Hi Ho Hd Hs].
  pose proof (count_occ holds_in ps id p Hp) as Oi. pose proof (count_occ holds_out ps id p Hp) as Oo.
  pose proof (count_occ is_pending_out ps id p Hp) as Od. pose proof (count_nonneg is_pending_out (delete id ps)).
  assert (Z.of_nat (size (delete id ps)) ≤ b - 1).
  { rewrite map_size_delete_Some by (by eexists).
    assert (size ps ≠ 0%nat); [|lia]. intros Hz%map_size_empty_inv. by rewrite Hz in Hp. }
  split; try done; rewrite ?(count_delete _ ps id p) by done; unfold occ in *;
    destruct (pstate p); simpl in *; unfold decr_in, decr_out, decr_pending_out; simpl;
    rewrite ?wrap_u64_id by (unfold is_u64; lia); lia.
Qed.

(** A new peer, with what its state holds. *)
Definition incr_state (s : PeerConnectionState) (c : ConnectionInfo) : ConnectionInfo :=
  match s with
  | Idle => c
  | DisconnectingIn | In_ => inc_in c
  | DisconnectingOut | Out => inc_out c
  | PendingOut => inc_pending_out c
  end.
Lemma counts_acquire a b ps c id p :
  counts a b ps c → a + 1 < U64 → b + 1 < U64 → ps !! id = None →
  counts (if holds_in (pstate p) || holds_out (pstate p) then a + 1 else a) (b + 1) (<[id := p]> ps)
    (incr_state (pstate p) c).
Proof.
  intros Hc Ha Hb Hp. destruct (counts_wrap a b ps c Hc) as (? & ? & ?); [lia|lia|]. destruct Hc as [Hi Ho Hd Hs].
  pose proof (count_size is_pending_out ps).
  assert (Z.of_nat (size (<[id := p]> ps)) ≤ b + 1) by (rewrite map_size_insert_None by done; lia).
  split; try done; rewrite ?(count_insert _ ps id p) by done; unfold occ in *;
    destruct (pstate p); simpl in *; unfold inc_in, inc_out, inc_pending_out; simpl;
    rewrite ?wrap_u64_id by (unfold is_u64; lia); lia.
Qed.
(** A peer changes its state: it gives up what it holds, and takes what the new state holds. *)
Lemma counts_move a b ps c id p p' :
  counts a b ps c → a + 1 < U64 → b < U64 → ps !! id = Some p →
  counts (if holds_in (pstate p') || holds_out (pstate p') then a + 1 else a) b (<[id := p']> ps)
    (incr_state (pstate p') (decr_state (pstate p) c)).
Proof.
  intros Hc Ha Hb Hp. rewrite <-insert_delete_eq. replace b with (b - 1 + 1) by lia.
  apply counts_acquire; [by apply counts_release; [| |lia|]; try done; lia|done|lia|apply lookup_delete_eq].
Qed.
(** A peer changes something else. *)
Lemma counts_same a b ps c id p p' :
  counts a b ps c → ps !! id = Some p → occ holds_in p' ≤ occ holds_in p → occ holds_out p' ≤ occ holds_out p →
  occ is_pending_out p' = occ is_pending_out p →
  counts a b (<[id := p']> ps) c.
Proof.
  intros [Hi Ho Hd Hs] Hp Hin Hout He. split; rewrite ?(count_update _ ps id p p') by done; [lia..|].
  rewrite map_size_insert_Some by (by eexists). done.
Qed.
Lemma counts_fmap a b ps c g : (∀ p, pstate (g p) = pstate p) → counts a b ps c → counts a b (g <$> ps) c.
Proof.
  intros Hg [Hi Ho Hd Hs]. split; rewrite ?count_fmap by done; try done. by rewrite map_size_fmap.
Qed.

(** ** Every operation keeps the counters right *)
Create HintDb counted.
Section counted.
Context `{HashOrder} `{!HashOrderLaws}.
Variables a b : Z.
Hypotheses (Ha : a + 1 < U64) (Hb : b + 1 < U64).

Lemma tick_state s p : pstate (tick_peer s p) = pstate p.
Proof. unfold tick_peer. by case_match. Qed.
Lemma tick_counted now m : counted a b m → counted a b (tick now m).
Proof. intros Hc. apply counts_fmap; [apply tick_state|done]. Qed.
Lemma ban_peer_counted now id m : counted a b m → counted a b (ban_peer now id m).
Proof. done. Qed.
Lemma backoff_counted id until m : counted a b m → counted a b (backoff_peer_until id until m).
Proof.
  intros Hc. unfold backoff_peer_until. destruct (peers m !! id) as [p|] eqn:Hp; [|done].
  by eapply counts_same.
Qed.
Lemma pending_in_counted n m :
  counted a b m → counted a b (on_info (λ c, mkConnectionInfo (num_outbound c) (num_pending_out c) (num_inbound c) (n c) (cconfig c)) m).
Proof. apply counts_pending_in. Qed.
Lemma check_in_counted a' b' id t h m : counted a' b' m → counted a' b' (check_in_capacity id t h m).
Proof. unfold check_in_capacity. by case_match. Qed.

(** A peer becomes idle, or leaves the set. *)
Lemma idle_counted id p p' m :
  counted a b m → peers m !! id = Some p → pstate p' = Idle →
  counted a b (put id p' (on_info (decr_state (pstate p)) m)).
Proof.
  intros Hc Hp Hs. pose proof (counts_move a b _ _ id p p' Hc Ha ltac:(lia) Hp) as Hm. by rewrite Hs in Hm.
Qed.
Lemma gone_counted id p m :
  counted a b m → peers m !! id = Some p → counted a b (drop_peer id (on_info (decr_state (pstate p)) m)).
Proof.
  intros Hc Hp. eapply (counts_weaken a (b - 1)); [lia|lia|]. apply counts_release; [done|lia|lia|done].
Qed.

(** *** The loop that dials *)
Lemma best_loop_in l best : best_loop best l ∈ best :: l.
Proof.
  revert best; induction l as [|e l IH]; intros best; simpl; [left|].
  destruct (is_trusted e.2 || is_static e.2); [right; left|].
  destruct (reputation best.2 <? reputation e.2); [right; apply IH|].
  specialize (IH best). rewrite !elem_of_cons in *. tauto.
Qed.
Lemma best_unconnected_some m id p :
  best_unconnected m = Some (id, p) → peers m !! id = Some p ∧ eligible (trusted_nodes_only m) p = true.
Proof.
  unfold best_unconnected. intros Hb'.
  assert ((id, p) ∈ filter (λ e : PeerId * Peer, eligible (trusted_nodes_only m) e.2 = true) (iter (peers m))) as Hin.
  { destruct (filter _ _) as [|best l]; [done|]. case_match; simplify_eq/=; [left|].
    match goal with E : best_loop best l = _ |- _ => rewrite <-E end. apply best_loop_in. }
  apply list_elem_of_filter in Hin as [He Hin]. split; [|done].
  by rewrite iter_perm, elem_of_map_to_list in Hin.
Qed.
Lemma eligible_idle t p : eligible t p = true → pstate p = Idle.
Proof. unfold eligible. intros Hp. destruct (pstate p); [done|..]; exfalso; revert Hp; simpl; rewrite ?andb_false_r; done. Qed.

Lemma dial_counted m id p :
  counted a b m → best_unconnected m = Some (id, p) →
  counted a b (push (Connect id (tcp (addr p))) (on_info inc_pending_out (put id (set_pstate PendingOut p) m))).
Proof.
  intros Hc [Hp He]%best_unconnected_some.
  pose proof (counts_move a b _ _ id p (set_pstate PendingOut p) Hc Ha ltac:(lia) Hp) as Hm.
  by rewrite (eligible_idle _ _ He) in Hm.
Qed.
Lemma fill_loop_counted fuel m : counted a b m → counted a b (fill_loop fuel m).
Proof.
  revert m; induction fuel as [|fuel IH]; intros m Hc; simpl; [done|].
  case_match; [|done]. destruct (best_unconnected m) as [[id p]|] eqn:Hbest; [|done]. by apply IH, dial_counted.
Qed.
Lemma fill_counted now m : counted a b m → counted a b (fill_outbound_slots now m).
Proof.
  intros Hc. unfold fill_outbound_slots. case_match; [by apply tick_counted|]. by apply fill_loop_counted, tick_counted.
Qed.
Hint Resolve fill_counted tick_counted ban_peer_counted backoff_counted check_in_counted idle_counted gone_counted
  pending_in_counted : counted.

(** *** Failures and ends of sessions *)
Lemma transient_counted {E} `{SessionError E} now id (err : E) k m :
  counted a b m → counted a b (on_transient_failure now id err k m).
Proof.
  intros Hc. unfold on_transient_failure. destruct (peers m !! id) as [p|] eqn:Hp; [|done].
  assert (∀ u (p' : Peer), pstate p' = pstate p → counted a b
    (let m' := put id (set_pstate Idle p') (on_info (decr_state (pstate p')) m) in
     if (max_backoff_count m' <? severe_backoff_counter p') && negb (is_trusted p')
     then push (PeerRemoved id) (drop_peer id m')
     else match u with Some until => backoff_peer_until id until m' | None => m' end)) as Hrest.
  { intros u p' Hs. rewrite Hs. cbv zeta.
    assert (counted a b (put id (set_pstate Idle p') (on_info (decr_state (pstate p)) m))) as Hi by eauto with counted.
    case_match; [|by destruct u; auto with counted].
    pose proof (gone_counted id (set_pstate Idle p') _ Hi) as Hg. simpl in Hg. apply Hg. apply lookup_insert_eq. }
  destruct (should_backoff err) as [kind|]; [|by apply (Hrest None)].
  destruct (is_severe kind); by apply (Hrest (Some _)).
Qed.
Lemma failure_counted {E} `{SessionError E} now remote id (err : E) k m :
  counted a b m → counted a b (on_connection_failure now remote id err k m).
Proof.
  intros Hc. unfold on_connection_failure. apply fill_counted. case_match; [|by apply transient_counted].
  assert (∀ m', counted a b m' → counted a b
    (if merits_discovery_ban err then push (DiscoveryBanPeerId id (ip remote)) (ban_peer now id m')
     else ban_peer now id m')) as Hban by (intros m' Hm'; by case_match).
  apply Hban. destruct (peers m !! id) as [p|] eqn:Hp; [exact (gone_counted id p m Hc Hp)|done].
Qed.

Lemma outgoing_closed_counted id m : counted a b m → counted a b (on_outgoing_pending_session_gracefully_closed id m).
Proof.
  intros Hc. unfold on_outgoing_pending_session_gracefully_closed.
  destruct (peers m !! id) as [p|] eqn:Hp; eauto with counted.
Qed.
Lemma active_closed_counted now id m : counted a b m → counted a b (on_active_session_gracefully_closed now id m).
Proof.
  intros Hc. unfold on_active_session_gracefully_closed. destruct (peers m !! id) as [p|] eqn:Hp; [|done].
  case_match; [|by eapply idle_counted]. apply fill_counted. exact (gone_counted id p m Hc Hp).
Qed.
Lemma outgoing_failure_counted now remote id err m :
  counted a b m → counted a b (on_outgoing_connection_failure now remote id err m).
Proof.
  intros Hc. unfold on_outgoing_connection_failure. repeat case_match; try done; by apply failure_counted.
Qed.

(** *** Reputation *)
Lemma apply_reputation_state c p :
  pstate (apply_reputation c p).2 = pstate p ∨ pstate (apply_reputation c p).2 = disconnect (pstate p).
Proof. unfold apply_reputation. repeat case_match; auto. Qed.
Lemma reputation_counted now id k m : counted a b m → counted a b (apply_reputation_change now id k m).
Proof.
  intros Hc. unfold apply_reputation_change. destruct (peers m !! id) as [p|] eqn:Hp; [|done]. case_match; [done|].
  match goal with |- counted _ _ (let '(_, _) := ?r in _) => set (r0 := r) end.
  assert (pstate r0.2 = pstate p ∨ pstate r0.2 = disconnect (pstate p)) as Hs.
  { subst r0. destruct (is_reset k); [by left|apply apply_reputation_state]. }
  destruct r0 as [outcome p']. simpl in Hs.
  assert (counted a b (put id p' m)) as Hput.
  { eapply counts_same; [done|done|..]; unfold occ; destruct Hs as [->| ->]; try done; by destruct (pstate p). }
  by destruct outcome.
Qed.

(** *** Sessions that begin *)
Lemma established_counted now id addr m :
  counted a b m → counted (a + 1) (b + 1) (on_incoming_session_established now id addr m).
Proof.
  intros Hc. unfold on_incoming_session_established.
  pose proof (pending_in_counted (λ c, wrap_u64 (num_pending_in c - 1)) m Hc) as Hd.
  change (counted a b (on_info decr_pending_in m)) in Hd. revert Hd. generalize (on_info decr_pending_in m).
  clear m Hc. intros m Hc. assert (counted (a + 1) (b + 1) m) as Hw by (by eapply counts_weaken; [| |done]; lia).
  case_match; [done|]. case_match; [done|].
  pose proof (tick_counted now m Hc) as Ht. clear Hc Hw. revert Ht. generalize (bool_decide (id ∈ trusted_peer_ids m)).
  generalize (tick now m). clear -Ha Hb. intros m trusted Hc. pose proof (counts_wrap _ _ _ _ Hc ltac:(lia) ltac:(lia)) as (Wi & _ & _).
  assert (counted (a + 1) (b + 1) (on_info inc_in m)) as Hi.
  { destruct Hc as [? ? ? ?]. split; simpl; rewrite ?wrap_u64_id by (unfold is_u64; lia); try lia; done. }
  simpl peers. destruct (peers m !! id) as [p|] eqn:Hp.
  - case_match; [done|]. apply check_in_counted.
    destruct (is_pending_out (pstate p)) eqn:Hpo.
    + destruct (pstate p) eqn:Hs; try done. eapply counts_weaken; [reflexivity| |]; [apply (Z.le_succ_diag_r b)|].
      pose proof (counts_move a b _ _ id p (set_pstate In_ p) Hc Ha ltac:(lia) Hp) as Hm. by rewrite Hs in Hm.
    + assert (counts (a + 1) b (<[id := set_pstate In_ p]> (peers m)) (inc_in (connection_info m))) as Hm;
        [|by eapply counts_weaken; [| |exact Hm]; lia].
      destruct Hc as [? ? ? ?]. split; rewrite ?(count_update _ _ id p) by done; unfold occ;
        try (rewrite map_size_insert_Some by (by eexists); done);
        simpl; rewrite ?Hpo, ?wrap_u64_id by (unfold is_u64; lia); simpl; destruct (pstate p); simpl in *; try done; lia.
  - apply check_in_counted. pose proof (counts_acquire a b _ _ id (set_remove_after true (with_state (from_tcp addr) In_)) Hc Ha ltac:(lia) Hp) as Hm.
    exact Hm.
Qed.
Lemma outgoing_established_counted id m : counted a b m → counted (a + 1) b (on_active_outgoing_established id m).
Proof.
  intros Hc. unfold on_active_outgoing_established. destruct (peers m !! id) as [p|] eqn:Hp.
  - exact (counts_move a b _ _ id p (set_pstate Out p) Hc Ha ltac:(lia) Hp).
  - by eapply counts_weaken; [| |done]; lia.
Qed.

(** *** The set of peers *)
Lemma add_peer_counted id k addr f m : counted a b m → counted a (b + 1) (add_peer_kind id k addr f m).
Proof.
  intros Hc. assert (counted a (b + 1) m) as Hw by (by eapply counts_weaken; [| |done]; lia).
  unfold add_peer_kind. case_match; [done|].
  assert (∀ m', counted a (b + 1) m' → counted a (b + 1)
    (if kind_is_trusted k then with_trusted ({[id]} ∪ trusted_peer_ids m') m' else m')) as Ht by (intros m' ?; by case_match).
  apply Ht. destruct (peers m !! id) as [p|] eqn:Hp.
  - eapply counts_same; [exact Hw|exact Hp|..]; unfold occ; by destruct (is_incoming _).
  - exact (counts_acquire a b _ _ id (set_fork_id f (with_kind addr k)) Hc Ha Hb Hp).
Qed.
Lemma remove_peer_counted id m : counted a b m → counted a b (remove_peer id m).
Proof.
  intros Hc. unfold remove_peer. destruct (peers m !! id) as [p|] eqn:Hp; [|done]. case_match; [done|].
  case_match.
  - change (counts a b (<[id := set_pstate (disconnect (pstate p)) (set_remove_after true p)]> (delete id (peers m)))
              (connection_info m)).
    rewrite insert_delete_eq. eapply counts_same; [done|done|..]; unfold occ; simpl; by destruct (pstate p).
  - change (counts a b (delete id (peers m)) (connection_info m)). destruct Hc as [? ? ? ?].
    split; rewrite ?(count_delete _ _ id p) by done; unfold occ; try (destruct (pstate p); simpl in *; try done; lia).
    rewrite map_size_delete_Some by (by eexists). lia.
Qed.
Lemma untrust_counted id m : counted a b m → counted a b (remove_peer_from_trusted_set id m).
Proof.
  intros Hc. unfold remove_peer_from_trusted_set. destruct (peers m !! id) as [p|] eqn:Hp; [|done].
  case_match; [done|]. by eapply counts_same.
Qed.
Lemma fork_id_counted id f m : counted a b m → counted a b (set_discovered_fork_id id f m).
Proof.
  intros Hc. unfold set_discovered_fork_id. destruct (peers m !! id) as [p|] eqn:Hp; [|done]. by eapply counts_same.
Qed.
Lemma foldl_counted {A} (f : PeersManager → A → PeersManager) l m :
  (∀ m x, counted a b m → counted a b (f m x)) → counted a b m → counted a b (foldl f m l).
Proof. intros Hf. revert m; induction l as [|x l IH]; intros m Hc; simpl; [done|]. by apply IH, Hf. Qed.
Lemma release_counted now m : counted a b m → counted a b (release now m).
Proof.
  intros Hc. unfold release. destruct (evict now (ban_list m)) as [[ips unbanned] bans].
  destruct (retain _ _) as [expired rest].
  change (counted a b (foldl (λ m id, end_backoff id m) (foldl (λ m id, unban_evicted id m) (with_bans bans m) unbanned) expired)).
  apply foldl_counted; [|apply foldl_counted; [|done]].
  - intros m' id Hm. unfold end_backoff. destruct (peers m' !! id) eqn:Hp; [|done]. by eapply counts_same.
  - intros m' id Hm. unfold unban_evicted. destruct (peers m' !! id) eqn:Hp; [|done]. by eapply counts_same.
Qed.
End counted.

(** *** Polling *)
Section polling.
Context `{HashOrder} `{!HashOrderLaws}.
Variable a : Z.
Hypothesis Ha : a + 1 < U64.

Lemma command_counted b now cmd m : b + 1 < U64 → counted a b m → counted a (b + 1) (on_command now cmd m).2.
Proof.
  intros Hb Hc. assert (counted a (b + 1) m) as Hw by (by eapply counts_weaken; [| |done]; lia).
  destruct cmd as [id addr|id|id k|id|]; simpl; try done.
  - by apply add_peer_counted.
  - eapply (counts_weaken a b); [lia|lia|]. by apply remove_peer_counted.
  - eapply (counts_weaken a b); [lia|lia|]. by apply reputation_counted.
Qed.
Lemma commands_counted b now cmds m :
  b + Z.of_nat (length cmds) < U64 → counted a b m → counted a (b + Z.of_nat (length cmds)) (on_commands now cmds m).2.
Proof.
  revert b m; induction cmds as [|cmd cmds IH]; intros b m Hb Hc; simpl in *.
  - by rewrite Z.add_0_r.
  - pose proof (command_counted b now cmd m ltac:(lia) Hc) as H1. destruct (on_command now cmd m) as [r m1].
    simpl in H1. specialize (IH (b + 1) m1 ltac:(lia) H1). destruct (on_commands now cmds m1) as [rs m2].
    simpl in *. by replace (b + Z.of_nat (S (length cmds))) with (b + 1 + Z.of_nat (length cmds)) by lia.
Qed.
Lemma iter_counted b k now m : b + 1 < U64 → counted a b m → counted a b (Nat.iter k (fill_outbound_slots now) m).
Proof. intros Hb Hc. induction k as [|k IH]; simpl; [done|]. by apply fill_counted. Qed.
Lemma poll_counted b now cmds r k m :
  b + Z.of_nat (length cmds) + 1 < U64 → counted a b m →
  counted a (b + Z.of_nat (length cmds)) (poll now cmds r k m).2.
Proof.
  intros Hb Hc. unfold poll. destruct (queued_actions m) as [|act q].
  2:{ by eapply (counts_weaken a b); [lia|lia|]. }
  pose proof (commands_counted b now cmds m ltac:(lia) Hc) as H1.
  destruct (on_commands now cmds m) as [rs m1]. simpl in H1.
  assert (counted a (b + Z.of_nat (length cmds)) (if r then release now m1 else m1)) as H2.
  { destruct r; [|done]. by apply release_counted. }
  pose proof (iter_counted _ k now _ Hb H2) as H3. by destruct (queued_actions (Nat.iter k _ _)).
Qed.
End polling.

(** ** Who holds a connection

    [kept]: no peer takes a connection that it did not hold before. *)
Definition holder (p : Peer) : bool := holds_in (pstate p) || holds_out (pstate p).
Definition kept (ps ps' : gmap PeerId Peer) : Prop :=
  ∀ id p', ps' !! id = Some p' → holder p' = true → ∃ p, ps !! id = Some p ∧ holder p = true.
#[export] Instance kept_preorder : PreOrder kept.
Proof.
  split; [intros ps id p Hp Hh; by exists p|]. intros ps1 ps2 ps3 H12 H23 id p Hp Hh.
  destruct (H23 id p Hp Hh) as (p2 & Hp2 & Hh2). by apply (H12 id p2).
Qed.
Lemma kept_insert ps id p' : (holder p' = true → ∃ p, ps !! id = Some p ∧ holder p = true) → kept ps (<[id := p']> ps).
Proof.
  intros Hh i p Hp Hhp. destruct (decide (i = id)) as [->|Hne].
  - rewrite lookup_insert_eq in Hp. simplify_eq. by apply Hh.
  - rewrite lookup_insert_ne in Hp by done. by exists p.
Qed.
Lemma kept_free ps id p' : holder p' = false → kept ps (<[id := p']> ps).
Proof. intros Hh. apply kept_insert. by rewrite Hh. Qed.
Lemma kept_same ps id p p' : ps !! id = Some p → holder p' = holder p → kept ps (<[id := p']> ps).
Proof. intros Hp Hh. apply kept_insert. rewrite Hh. eauto. Qed.
Lemma kept_delete ps id : kept ps (delete id ps).
Proof. intros i p [_ Hp]%lookup_delete_Some Hh. by exists p. Qed.
Lemma kept_fmap ps g : (∀ p, pstate (g p) = pstate p) → kept ps (g <$> ps).
Proof.
  intros Hg i p' Hp Hh. rewrite lookup_fmap in Hp. apply fmap_Some in Hp as (p & Hp & ->). exists p.
  split; [done|]. unfold holder in *. by rewrite Hg in Hh.
Qed.
Hint Resolve kept_free kept_delete kept_fmap tick_state : counted.

Section kept.
Context `{HashOrder} `{!HashOrderLaws}.

Lemma fill_loop_kept fuel m : kept (peers m) (peers (fill_loop fuel m)).
Proof.
  revert m; induction fuel as [|fuel IH]; intros m; simpl; [done|]. case_match; [|done].
  destruct (best_unconnected m) as [[id p]|]; [|done]. etrans; [|apply IH]. simpl. auto with counted.
Qed.
Lemma fill_kept now m : kept (peers m) (peers (fill_outbound_slots now m)).
Proof.
  unfold fill_outbound_slots. assert (kept (peers m) (peers (tick now m))) as Ht by (apply kept_fmap, tick_state).
  case_match; [done|]. etrans; [exact Ht|apply fill_loop_kept].
Qed.
Lemma backoff_kept id until m : kept (peers m) (peers (backoff_peer_until id until m)).
Proof. unfold backoff_peer_until. destruct (peers m !! id) as [p|] eqn:Hp; [|done]. by eapply kept_same. Qed.

(** A peer whose session failed or ended holds nothing. *)
Definition free (id : PeerId) (ps : gmap PeerId Peer) : Prop := ∀ p, ps !! id = Some p → holder p = false.
Lemma kept_stays_free ps ps' id : kept ps ps' → free id ps → free id ps'.
Proof.
  intros Hk Hf p Hp. destruct (holder p) eqn:Hh; [|done].
  destruct (Hk id p Hp Hh) as (p0 & Hp0 & Hh0). by rewrite (Hf p0 Hp0) in Hh0.
Qed.
Lemma free_delete ps id : free id (delete id ps).
Proof. intros p Hp. by rewrite lookup_delete_eq in Hp. Qed.
Lemma free_insert ps id p : holder p = false → free id (<[id := p]> ps).
Proof. intros Hh p' Hp. rewrite lookup_insert_eq in Hp. by simplify_eq. Qed.

Lemma transient_kept {E} `{SessionError E} now id (err : E) k m :
  kept (peers m) (peers (on_transient_failure now id err k m)) ∧ free id (peers (on_transient_failure now id err k m)).
Proof.
  unfold on_transient_failure. destruct (peers m !! id) as [p|] eqn:Hp; [|split; [done|by intros p'; rewrite Hp]].
  match goal with |- context [let '(_, _) := ?r in _] => destruct r as [until p'] end.
  set (m' := put id (set_pstate Idle p') _).
  assert (kept (peers m) (peers m') ∧ free id (peers m')) as [Hk Hf].
  { subst m'. split; [by apply kept_free|by apply free_insert]. }
  case_match; [split; [etrans; [exact Hk|apply kept_delete]|apply free_delete]|].
  destruct until as [until|]; [|done]. pose proof (backoff_kept id until m') as Hb.
  split; [by etrans|by eapply kept_stays_free].
Qed.
Lemma failure_kept {E} `{SessionError E} now remote id (err : E) k m :
  kept (peers m) (peers (on_connection_failure now remote id err k m)) ∧
  free id (peers (on_connection_failure now remote id err k m)).
Proof.
  unfold on_connection_failure. match goal with |- context [fill_outbound_slots now ?x] => set (m' := x) end.
  assert (kept (peers m) (peers m') ∧ free id (peers m')) as [Hk Hf].
  { subst m'. case_match; [|apply transient_kept]. destruct (peers m !! id) as [p|] eqn:Hp.
    - case_match; (split; [apply kept_delete|apply free_delete]).
    - case_match; (split; [done|intros p'; simpl; by rewrite Hp]). }
  pose proof (fill_kept now m') as Hfill. split; [by etrans|by eapply kept_stays_free].
Qed.
Lemma active_closed_kept now id m :
  kept (peers m) (peers (on_active_session_gracefully_closed now id m)) ∧
  free id (peers (on_active_session_gracefully_closed now id m)).
Proof.
  unfold on_active_session_gracefully_closed.
  destruct (peers m !! id) as [p|] eqn:Hp; [|split; [done|by intros p'; rewrite Hp]].
  case_match; [|split; [by apply kept_free|by apply free_insert]].
  match goal with |- context [fill_outbound_slots now ?x] => pose proof (fill_kept now x) as Hfill end.
  split; [etrans; [|exact Hfill]; apply kept_delete|eapply kept_stays_free; [exact Hfill|apply free_delete]].
Qed.
Lemma outgoing_closed_kept id m : kept (peers m) (peers (on_outgoing_pending_session_gracefully_closed id m)).
Proof. unfold on_outgoing_pending_session_gracefully_closed. case_match; [|done]. by apply kept_free. Qed.
Lemma outgoing_failure_kept now remote id err m :
  kept (peers m) (peers (on_outgoing_connection_failure now remote id err m)).
Proof. unfold on_outgoing_connection_failure. repeat case_match; try done; apply failure_kept. Qed.

Lemma reputation_kept now id k m : kept (peers m) (peers (apply_reputation_change now id k m)).
Proof.
  unfold apply_reputation_change. destruct (peers m !! id) as [p|] eqn:Hp; [|done]. case_match; [done|].
  match goal with |- context [let '(_, _) := ?r in _] => set (r0 := r) end.
  assert (pstate r0.2 = pstate p ∨ pstate r0.2 = disconnect (pstate p)) as Hs.
  { subst r0. destruct (is_reset k); [by left|apply apply_reputation_state]. }
  destruct r0 as [outcome p']. simpl in Hs.
  assert (kept (peers m) (<[id := p']> (peers m))) as Hput.
  { eapply kept_same; [done|]. unfold holder. destruct Hs as [->| ->]; [done|by destruct (pstate p)]. }
  by destruct outcome.
Qed.
Lemma add_peer_kept id k addr f m : kept (peers m) (peers (add_peer_kind id k addr f m)).
Proof.
  unfold add_peer_kind. case_match; [done|]. destruct (peers m !! id) as [p|] eqn:Hp.
  - destruct (kind_is_trusted k); (eapply kept_same; [exact Hp|by destruct (is_incoming _)]).
  - destruct (kind_is_trusted k); by apply kept_free.
Qed.
Lemma remove_peer_kept id m : kept (peers m) (peers (remove_peer id m)).
Proof.
  unfold remove_peer. destruct (peers m !! id) as [p|] eqn:Hp; [|done]. case_match; [done|].
  case_match; [|apply kept_delete]. simpl. rewrite insert_delete_eq. eapply kept_same; [done|].
  unfold holder. simpl. by destruct (pstate p).
Qed.
Lemma untrust_kept id m : kept (peers m) (peers (remove_peer_from_trusted_set id m)).
Proof.
  unfold remove_peer_from_trusted_set. destruct (peers m !! id) as [p|] eqn:Hp; [|done]. case_match; [done|].
  by eapply kept_same.
Qed.
Lemma fork_id_kept id f m : kept (peers m) (peers (set_discovered_fork_id id f m)).
Proof. unfold set_discovered_fork_id. destruct (peers m !! id) as [p|] eqn:Hp; [|done]. by eapply kept_same. Qed.

(** A session that begins gives its peer a connection, and no other. *)
Lemma check_in_peers id t h m : peers (check_in_capacity id t h m) = peers m.
Proof. unfold check_in_capacity. by case_match. Qed.
Lemma established_kept now id addr m i p' :
  peers (on_incoming_session_established now id addr m) !! i = Some p' → holder p' = true →
  i = id ∨ ∃ p, peers m !! i = Some p ∧ holder p = true.
Proof.
  intros Hp Hh. destruct (decide (i = id)) as [->|Hne]; [by left|]. right. revert Hp.
  unfold on_incoming_session_established. set (m0 := on_info decr_pending_in m).
  change (peers m) with (peers m0). generalize m0. clear m0 m. intros m.
  assert (peers (tick now m) !! i = Some p' → ∃ p, peers m !! i = Some p ∧ holder p = true) as Ht.
  { intros Hp. eapply (kept_fmap (peers m)); [apply tick_state|exact Hp|done]. }
  case_match; [by eauto|]. case_match; [by eauto|].
  change (peers (on_info inc_in (tick now m))) with (peers (tick now m)).
  destruct (peers (tick now m) !! id) as [p|]; [case_match; [exact Ht|]|]; rewrite check_in_peers; simpl;
    rewrite lookup_insert_ne by done; [by destruct (is_pending_out (pstate p))|done].
Qed.
Lemma outgoing_established_kept id m i p' :
  peers (on_active_outgoing_established id m) !! i = Some p' → holder p' = true →
  i = id ∨ ∃ p, peers m !! i = Some p ∧ holder p = true.
Proof.
  unfold on_active_outgoing_established. intros Hp Hh. destruct (decide (i = id)) as [->|Hne]; [by left|]. right.
  revert Hp. case_match; simpl; rewrite ?lookup_insert_ne by done; eauto.
Qed.

Lemma foldl_kept {A} (f : PeersManager → A → PeersManager) l m :
  (∀ m x, kept (peers m) (peers (f m x))) → kept (peers m) (peers (foldl f m l)).
Proof. intros Hf. revert m; induction l as [|x l IH]; intros m; simpl; [done|]. etrans; [apply Hf|apply IH]. Qed.
Lemma release_kept now m : kept (peers m) (peers (release now m)).
Proof.
  unfold release. destruct (evict now (ban_list m)) as [[ips unbanned] bans].
  destruct (retain _ _) as [expired rest]. simpl. etrans; [|apply foldl_kept].
  - change (peers m) with (peers (with_bans bans m)). apply foldl_kept. intros m' id. unfold unban_evicted.
    destruct (peers m' !! id) eqn:Hp; [|done]. by eapply kept_same.
  - intros m' id. unfold end_backoff. destruct (peers m' !! id) eqn:Hp; [|done]. by eapply kept_same.
Qed.
Lemma commands_kept now cmds m : kept (peers m) (peers (on_commands now cmds m).2).
Proof.
  revert m; induction cmds as [|cmd cmds IH]; intros m; simpl; [done|].
  assert (kept (peers m) (peers (on_command now cmd m).2)) as H1.
  { destruct cmd; simpl; try done; [apply add_peer_kept|apply remove_peer_kept|apply reputation_kept]. }
  destruct (on_command now cmd m) as [r m1]. specialize (IH m1). destruct (on_commands now cmds m1). by etrans.
Qed.
Lemma poll_kept now cmds r k m : kept (peers m) (peers (poll now cmds r k m).2).
Proof.
  unfold poll. destruct (queued_actions m) as [|act q]; [|done].
  pose proof (commands_kept now cmds m) as H1. destruct (on_commands now cmds m) as [rs m1]. simpl in H1.
  assert (kept (peers m) (peers (if r then release now m1 else m1))) as H2.
  { destruct r; [|done]. etrans; [exact H1|apply release_kept]. }
  assert (kept (peers m) (peers (Nat.iter k (fill_outbound_slots now) (if r then release now m1 else m1)))) as H3.
  { induction k as [|k IH]; simpl; [done|]. etrans; [exact IH|apply fill_kept]. }
  by destruct (queued_actions (Nat.iter k _ _)).
Qed.
End kept.

(** ** Dialing

    Trusted and static peers come first, then the highest reputation. *)
Definition favoured (p : Peer) : bool := is_trusted p || is_static p.
Definition better (p q : Peer) : Prop := favoured p = true ∨ favoured q = false ∧ reputation q ≤ reputation p.

Lemma best_loop_best l best :
  favoured best.2 = false → better (best_loop best l).2 best.2 ∧ Forall (λ e, better (best_loop best l).2 e.2) l.
Proof.
  revert best; induction l as [|e l IH]; intros best Hb; simpl.
  - split; [right; by split|constructor].
  - fold (favoured e.2). destruct (favoured e.2) eqn:He.
    { split; [by left|]. apply Forall_true. by left. }
    set (best' := if reputation best.2 <? reputation e.2 then e else best).
    assert (favoured best'.2 = false ∧ reputation best.2 ≤ reputation best'.2 ∧ reputation e.2 ≤ reputation best'.2)
      as (Hb' & Hge1 & Hge2).
    { subst best'. destruct (Z.ltb_spec (reputation best.2) (reputation e.2)); split_and!; done || lia. }
    destruct (IH best' Hb') as [H1 H2]. split; [|constructor; [|done]]; (destruct H1 as [H1|[_ H1]]; [by left|right; split; [done|lia]]).
Qed.

Section dialing.
Context `{HashOrder} `{!HashOrderLaws}.

Lemma best_unconnected_best m id p i q :
  best_unconnected m = Some (id, p) → peers m !! i = Some q → eligible (trusted_nodes_only m) q = true → better p q.
Proof.
  unfold best_unconnected. intros Hb Hq He.
  assert ((i, q) ∈ filter (λ e : PeerId * Peer, eligible (trusted_nodes_only m) e.2 = true) (iter (peers m))) as Hin.
  { apply list_elem_of_filter. split; [done|]. by rewrite iter_perm, elem_of_map_to_list. }
  destruct (filter _ _) as [|best l]; [done|]. fold (favoured best.2) in Hb. destruct (favoured best.2) eqn:Hf.
  { simplify_eq/=. by left. }
  destruct (best_loop_best l best Hf) as [H1 H2]. injection Hb as Hb. rewrite Hb in H1, H2. simpl in *.
  apply elem_of_cons in Hin as [<-|Hin]; [done|]. rewrite Forall_forall in H2. by apply (H2 _ Hin).
Qed.
Lemma best_unconnected_none m i q :
  best_unconnected m = None → peers m !! i = Some q → eligible (trusted_nodes_only m) q = false.
Proof.
  unfold best_unconnected. intros Hb Hq. destruct (eligible (trusted_nodes_only m) q) eqn:He; [|done].
  assert ((i, q) ∈ filter (λ e : PeerId * Peer, eligible (trusted_nodes_only m) e.2 = true) (iter (peers m))) as Hin.
  { apply list_elem_of_filter. split; [done|]. by rewrite iter_perm, elem_of_map_to_list. }
  destruct (filter _ _); [by apply elem_of_nil in Hin|done].
Qed.

(** The peers [l] are dialed, in this order. *)
Definition dialed (l : list (PeerId * Peer)) (ps : gmap PeerId Peer) : gmap PeerId Peer :=
  foldl (λ ps e, <[e.1 := set_pstate PendingOut e.2]> ps) ps l.
Definition connects (l : list (PeerId * Peer)) : list PeerAction := (λ e, Connect e.1 (tcp (addr e.2))) <$> l.

Lemma dialed_other l ps i : i ∉ l.*1 → dialed l ps !! i = ps !! i.
Proof.
  revert ps; induction l as [|e l IH]; intros ps Hi; simpl; [done|]. rewrite fmap_cons, not_elem_of_cons in Hi.
  rewrite IH by apply Hi. by rewrite lookup_insert_ne by naive_solver.
Qed.
Lemma dialed_pending l ps i q : i ∈ l.*1 → dialed l ps !! i = Some q → pstate q = PendingOut.
Proof.
  revert ps; induction l as [|e l IH]; intros ps Hi Hq; [by apply elem_of_nil in Hi|].
  destruct (decide (i ∈ l.*1)) as [Hin|Hni]; [by eapply IH|]. simpl in Hq.
  rewrite dialed_other in Hq by done. rewrite fmap_cons, elem_of_cons in Hi. destruct Hi as [->|Hi]; [|done].
  rewrite lookup_insert_eq in Hq. by simplify_eq.
Qed.

(** The state [m'] is [m] with the peers [l] dialed: all were eligible and none is as good as
    they were among the peers left; there is no capacity for another dial, or no peer. *)
Record filled (m m' : PeersManager) (l : list (PeerId * Peer)) : Prop := {
  fl_nodup : NoDup l.*1;
  fl_eligible : Forall (λ e, peers m !! e.1 = Some e.2 ∧ eligible (trusted_nodes_only m) e.2 = true) l;
  fl_peers : peers m' = dialed l (peers m);
  fl_actions : queued_actions m' = queued_actions m ++ connects l;
  fl_pending : num_pending_out (connection_info m') = num_pending_out (connection_info m) + Z.of_nat (length l);
  fl_stop : has_out_capacity (connection_info m') = false ∨
    ∀ i q, peers m' !! i = Some q → eligible (trusted_nodes_only m) q = false;
  fl_better e i q :
    e ∈ l → peers m' !! i = Some q → eligible (trusted_nodes_only m) q = true → better e.2 q;
}.

Lemma filled_nil m :
  (has_out_capacity (connection_info m) = false ∨
   ∀ i q, peers m !! i = Some q → eligible (trusted_nodes_only m) q = false) → filled m m [].
Proof.
  intros Hs. split; [constructor|constructor|done|by rewrite app_nil_r|simpl; lia|done|by intros e i q ?%elem_of_nil].
Qed.

Definition dial (e : PeerId * Peer) (m : PeersManager) : PeersManager :=
  push (Connect e.1 (tcp (addr e.2))) (on_info inc_pending_out (put e.1 (set_pstate PendingOut e.2) m)).

Lemma filled_cons m m' id p l :
  best_unconnected m = Some (id, p) → 0 ≤ num_pending_out (connection_info m) →
  num_pending_out (connection_info m) + 1 < U64 → filled (dial (id, p) m) m' l → filled m m' ((id, p) :: l).
Proof.
  intros Hbest Hge Hlt [Hnd Hel Hps Hq Hnum Hstop Hbetter]. destruct (best_unconnected_some m id p Hbest) as [Hp He].
  change (trusted_nodes_only (dial (id, p) m)) with (trusted_nodes_only m) in *. rewrite Forall_forall in Hel.
  assert (∀ e, e ∈ l → e.1 ≠ id) as Hne.
  { intros e Hin He1. destruct (Hel _ Hin) as [Hp' He']. simpl in Hp'. rewrite He1, lookup_insert_eq in Hp'.
    apply eligible_idle in He'. injection Hp' as Heq. by rewrite <-Heq in He'. }
  split.
  - rewrite fmap_cons. constructor; [|done]. intros Hin. apply list_elem_of_fmap in Hin as (e & Heq & Hin).
    by apply (Hne e Hin).
  - constructor; [done|]. apply Forall_forall. intros e Hin. destruct (Hel e Hin) as [Hpe Hee]. split; [|done].
    simpl in Hpe. by rewrite lookup_insert_ne in Hpe by (symmetry; apply (Hne e Hin)).
  - done.
  - rewrite Hq. simpl. by rewrite <-app_assoc.
  - rewrite Hnum. simpl. rewrite wrap_u64_id by (unfold is_u64; lia). lia.
  - done.
  - intros e i q Hin Hqi Heq. apply elem_of_cons in Hin as [->|Hin]; [|by eapply Hbetter].
    rewrite Hps in Hqi. change (dialed l (peers (dial (id, p) m))) with (dialed ((id, p) :: l) (peers m)) in Hqi.
    rewrite dialed_other in Hqi; [by eapply best_unconnected_best|].
    intros Hin. eapply dialed_pending in Hin; [|done]. by rewrite (eligible_idle _ _ Heq) in Hin.
Qed.

Lemma fill_loop_ok fuel m :
  count is_unconnected (peers m) ≤ Z.of_nat fuel →
  0 ≤ num_pending_out (connection_info m) → num_pending_out (connection_info m) + count is_unconnected (peers m) < U64 →
  ∃ l, filled m (fill_loop fuel m) l.
Proof.
  revert m; induction fuel as [|fuel IH]; intros m Hfuel Hpos Hroom; simpl.
  - exists []. apply filled_nil. right. intros i q Hq. destruct (eligible _ q) eqn:He; [|done]. exfalso.
    pose proof (count_occ is_unconnected (peers m) i q Hq) as Ho. unfold occ in Ho.
    rewrite (eligible_idle _ _ He) in Ho. simpl in Ho. lia.
  - destruct (has_out_capacity (connection_info m)) eqn:Hcap; [|exists []; apply filled_nil; by left].
    destruct (best_unconnected m) as [[id p]|] eqn:Hbest.
    2:{ exists []. apply filled_nil. right. intros i q Hq. by eapply best_unconnected_none. }
    destruct (best_unconnected_some m id p Hbest) as [Hp He]. pose proof (eligible_idle _ _ He) as Hidle.
    assert (count is_unconnected (peers (dial (id, p) m)) = count is_unconnected (peers m) - 1) as Hc1.
    { simpl. rewrite (count_update _ _ id p) by done. unfold occ. simpl. rewrite Hidle. simpl. lia. }
    pose proof (count_nonneg is_unconnected (peers (dial (id, p) m))) as Hnn.
    assert (num_pending_out (connection_info (dial (id, p) m)) = num_pending_out (connection_info m) + 1) as Hpend.
    { simpl. apply wrap_u64_id. unfold is_u64. lia. }
    destruct (IH (dial (id, p) m)) as [l Hl]; [lia..|]. exists ((id, p) :: l). by apply filled_cons; [|lia|lia|].
Qed.
End dialing.

(** Filling the outbound slots ends, with the best choice made: the peers that are dialed
    are distinct, idle, neither banned nor backed off, and trusted if only trusted peers are
    wanted; one action to connect is queued for each, in the order of the choice, and the
    counter of dials grows by their number; a peer that is left although it could be dialed
    is not favoured over one that was dialed; and when the loop stops, the limits on dials
    and outbound connections are reached or no peer is left to dial. *)
Theorem fill_outbound_slots_ok `{HashOrder} `{!HashOrderLaws} a b now m :
  counted a b m → a < U64 → b < U64 → net_connection_state m = Active →
  ∃ l, filled (tick now m) (fill_outbound_slots now m) l.
Proof.
  intros Hc Ha Hb Hn. unfold fill_outbound_slots. change (net_connection_state (tick now m)) with (net_connection_state m).
  rewrite Hn. simpl negb. cbv iota.
  assert (counted a b (tick now m)) as Ht by (apply counts_fmap; [apply tick_state|done]).
  destruct (counts_wrap _ _ _ _ Ht Ha Hb) as (_ & _ & Hp). apply fill_loop_ok; [apply count_size|apply Hp|].
  pose proof (count_two (peers (tick now m))). destruct Ht as [_ _ Hd Hs]. rewrite Hd. lia.
Qed.

(** ** The leeway of trusted and static peers *)
Definition apply_changes (ks : list (Z * ReputationChangeKind)) (id : PeerId) (m : PeersManager) : PeersManager :=
  foldl (λ m k, apply_reputation_change k.1 id k.2 m) m ks.

(** One change costs such a peer at most twice the unit, and nothing else happens to it. *)
Lemma favoured_change now id k p m n :
  peers m !! id = Some p → favoured p = true → n * MAX_TRUSTED_PEER_REPUTATION_CHANGE ≤ reputation p → 0 ≤ n < 25 →
  ∃ r, apply_reputation_change now id k m = put id (set_reputation r p) m ∧
    (n + 1) * MAX_TRUSTED_PEER_REPUTATION_CHANGE ≤ r.
Proof.
  intros Hp Hf Hr Hn. unfold apply_reputation_change. rewrite Hp. fold (favoured p). rewrite Hf.
  unfold MAX_TRUSTED_PEER_REPUTATION_CHANGE, REPUTATION_UNIT in *.
  assert (set_reputation (reputation p) p = p) as Hid by (by destruct p).
  destruct (negb (is_reset k) && true && exempt k) eqn:Hex.
  { exists (reputation p). rewrite Hid. split; [|lia]. unfold put. rewrite insert_id by done. by destruct m. }
  destruct (is_reset k); [exists 0; split; [done|lia]|].
  set (c := if true && _ then _ else _).
  assert (-2048 ≤ c) as Hc by (subst c; simpl; destruct (Z.ltb_spec (change (reputation_weights m) k) (2 * -1024)); lia).
  set (r := saturating_add_i32 (reputation p) c).
  assert ((n + 1) * (2 * -1024) ≤ r) as Hr' by (subst r; unfold saturating_add_i32, I32_MIN, I32_MAX; lia).
  assert (is_banned_reputation (reputation p) = false ∧ is_banned_reputation r = false) as [Hb1 Hb2].
  { unfold is_banned_reputation, BANNED_REPUTATION, REPUTATION_UNIT. split; apply Z.ltb_ge; lia. }
  exists r. split; [|done]. unfold apply_reputation. fold r. unfold is_banned. simpl reputation. simpl pstate.
  rewrite Hb1, Hb2. rewrite andb_false_r. done.
Qed.

(** No 25 changes of reputation ban a trusted or static peer that starts with the default
    reputation or better, whatever their kinds and the configured weights: the peer
    keeps its connection, no ban is entered and no action is queued. *)
Theorem trusted_leeway ks id p m :
  peers m !! id = Some p → favoured p = true → DEFAULT_REPUTATION ≤ reputation p → (length ks ≤ 25)%nat →
  ∃ r, apply_changes ks id m = put id (set_reputation r p) m ∧ is_banned_reputation r = false ∧
    ban_list (apply_changes ks id m) = ban_list m ∧ queued_actions (apply_changes ks id m) = queued_actions m.
Proof.
  intros Hp Hf Hr Hlen.
  assert (∃ r, apply_changes ks id m = put id (set_reputation r p) m ∧
            Z.of_nat (length ks) * MAX_TRUSTED_PEER_REPUTATION_CHANGE ≤ r) as (r & Hm & Hle).
  { revert Hlen. induction ks as [|k ks IH] using rev_ind; intros Hlen.
    - exists (reputation p). split; [|simpl; unfold DEFAULT_REPUTATION in *; lia]. unfold apply_changes, put. simpl.
      replace (set_reputation (reputation p) p) with p by (by destruct p). rewrite insert_id by done. by destruct m.
    - rewrite length_app in Hlen. simpl in Hlen. destruct IH as (r & Hm & Hle); [lia|].
      unfold apply_changes in *. rewrite foldl_app. simpl. rewrite Hm.
      destruct (favoured_change k.1 id k.2 (set_reputation r p) (put id (set_reputation r p) m) (Z.of_nat (length ks)))
        as (r' & Heq & Hle'); [apply lookup_insert_eq|done|done|lia|].
      exists r'. rewrite Heq, length_app. split; [|simpl length; lia].
      unfold put. simpl. by rewrite insert_insert_eq. }
  exists r. rewrite Hm. split_and!; try done. unfold is_banned_reputation, BANNED_REPUTATION.
  unfold MAX_TRUSTED_PEER_REPUTATION_CHANGE in Hle. unfold REPUTATION_UNIT in *. apply Z.ltb_ge. lia.
Qed.
