(* ===== verification/NetSteps.v ===== *)
(** * Properties of the network

    The counters of the session manager and of the peers manager against the sessions, over
    every run of the network ([net_run] of [Sessions.v]). *)

From stdpp Require Import prelude gmap list.
From S2P Require Import Prelude.
From S2P Require Import Ord.
From S2P Require Import Forks.
From S2P Require Import ForkId.
From S2P Require Import NetErrors.
From S2P Require Import Peer.
From S2P Require Import Peers.
From S2P Require Import Sessions.
From S2P Require Import PeersSteps.

Lemma wrap_u32_add x y : wrap_u32 (wrap_u32 x + y) = wrap_u32 (x + y).
Proof. apply Zplus_mod_idemp_l. Qed.
Lemma wrap_u32_sub x y : wrap_u32 (wrap_u32 x - y) = wrap_u32 (x - y).
Proof. apply Zminus_mod_idemp_l. Qed.
Lemma wrap_u64_add x y : wrap_u64 (wrap_u64 x + y) = wrap_u64 (x + y).
Proof. apply Zplus_mod_idemp_l. Qed.
Lemma wrap_u64_sub x y : wrap_u64 (wrap_u64 x - y) = wrap_u64 (x - y).
Proof. apply Zminus_mod_idemp_l. Qed.

(** ** The session manager *)
Definition dir_is_outgoing (d : Direction) : bool := negb (dir_is_incoming d).
Record sessions_ok (k : Z) (s : SessionManager) : Prop := {
  so_ids id : is_Some (pending_sessions s !! id) → 0 ≤ id < next_id s;
  so_next : 0 ≤ next_id s ≤ k;
  so_pin : pending_inbound (counter s) = wrap_u32 (mcount dir_is_incoming (pending_sessions s));
  so_pout : pending_outbound (counter s) = wrap_u32 (mcount dir_is_outgoing (pending_sessions s));
  so_ain : active_inbound (counter s) = wrap_u32 (mcount (λ h, dir_is_incoming (as_direction h)) (active_sessions s));
  so_aout : active_outbound (counter s) = wrap_u32 (mcount (λ h, dir_is_outgoing (as_direction h)) (active_sessions s));
}.
Lemma sessions_weaken k k' s : k ≤ k' → sessions_ok k s → sessions_ok k' s.
Proof. intros Hk []. split; try done. lia. Qed.

(** The counters after a change by one. *)
Ltac counters :=
  rewrite ?wrap_u32_add, ?wrap_u32_sub; try (f_equal; simpl; lia).

Lemma open_pending_ok k s d inc :
  sessions_ok k s → k + 1 < U64 →
  inc = match d with Incoming => inc_pending_inbound | Outgoing _ => inc_pending_outbound end →
  sessions_ok (k + 1) (open_pending d inc s).
Proof.
  intros [Hids Hnext Hpi Hpo Hai Hao] Hk ->.
  assert (pending_sessions s !! next_id s = None) as Hn.
  { destruct (pending_sessions s !! next_id s) eqn:He; [|done]. pose proof (Hids (next_id s) ltac:(by eexists)). lia. }
  assert (wrap_u64 (next_id s + 1) = next_id s + 1) as Hw by (apply wrap_u64_id; unfold is_u64; lia).
  split; simpl; rewrite ?Hw, ?mcount_insert by done.
  - intros id [<-|[_ Hid]]%lookup_insert_is_Some; [lia|]. pose proof (Hids id Hid). lia.
  - lia.
  - destruct d; simpl; rewrite Hpi; counters.
  - destruct d; simpl; rewrite Hpo; counters.
  - by destruct d.
  - by destruct d.
Qed.
Lemma remove_pending_ok k s sid d :
  sessions_ok k s → pending_sessions s !! sid = Some d → sessions_ok k (remove_pending_session sid s).
Proof.
  intros [Hids Hnext Hpi Hpo Hai Hao] Hd. unfold remove_pending_session. rewrite Hd.
  split; simpl; rewrite ?(mcount_delete _ _ sid d) by done; try done.
  - intros id [_ Hid]%lookup_delete_is_Some. by apply Hids.
  - destruct d; simpl; rewrite Hpi; counters.
  - destruct d; simpl; rewrite Hpo; counters.
  - by destruct d.
  - by destruct d.
Qed.
Lemma remove_active_ok k s id : sessions_ok k s → sessions_ok k (remove_active_session id s).
Proof.
  intros Hs. unfold remove_active_session. destruct (active_sessions s !! id) as [h|] eqn:Hh; [|done].
  destruct Hs as [Hids Hnext Hpi Hpo Hai Hao].
  split; simpl; rewrite ?(mcount_delete _ _ id h) by done; try done; destruct (as_direction h); simpl; try done;
    [rewrite Hai; counters|..]; rewrite ?Hai, ?Hao; counters.
Qed.
Lemma add_active_ok k s id d sid :
  sessions_ok k s → active_sessions s !! id = None →
  sessions_ok k (mkSessionManager (next_id s) (inc_active d (counter s)) (status s) (fork_filter s) (pending_sessions s)
    (<[id := mkActiveSessionHandle d sid]> (active_sessions s))).
Proof.
  intros [Hids Hnext Hpi Hpo Hai Hao] Hn. split; simpl; rewrite ?mcount_insert by done; try done; destruct d; simpl;
    try done; rewrite ?Hai, ?Hao; counters.
Qed.
Lemma dial_ok k s id : sessions_ok k s → k + 1 < U64 → sessions_ok (k + 1) (dial_outbound id s).
Proof.
  intros Hs Hk. unfold dial_outbound. case_match; [by eapply sessions_weaken; [|done]; lia|]. by apply open_pending_ok.
Qed.
Lemma dial_pending_in k s id :
  sessions_ok k s →
  mcount dir_is_incoming (pending_sessions (dial_outbound id s)) = mcount dir_is_incoming (pending_sessions s).
Proof.
  intros [Hids _ _ _ _ _]. unfold dial_outbound. case_match; [done|]. simpl.
  rewrite mcount_insert; [simpl; lia|].
  destruct (pending_sessions s !! next_id s) eqn:He; [|done]. pose proof (Hids (next_id s) ltac:(by eexists)). lia.
Qed.

(** ** Pending incoming connections, as the peers manager counts them *)
Definition pin (m : PeersManager) : Z := num_pending_in (connection_info m).
Section pin.
Context `{HashOrder}.
Lemma decr_state_pin s c : num_pending_in (decr_state s c) = num_pending_in c.
Proof. by destruct s. Qed.
Lemma fill_loop_pin fuel m : pin (fill_loop fuel m) = pin m.
Proof.
  revert m; induction fuel as [|fuel IH]; intros m; simpl; [done|]. case_match; [|done].
  destruct (best_unconnected m) as [[id p]|]; [|done]. by rewrite IH.
Qed.
Lemma fill_pin now m : pin (fill_outbound_slots now m) = pin m.
Proof. unfold fill_outbound_slots. case_match; [done|]. by rewrite fill_loop_pin. Qed.
Lemma backoff_pin id until m : pin (backoff_peer_until id until m) = pin m.
Proof. unfold backoff_peer_until. by case_match. Qed.
Lemma failure_pin {E} `{SessionError E} now remote id (err : E) k m :
  pin (on_connection_failure now remote id err k m) = pin m.
Proof.
  unfold on_connection_failure. rewrite fill_pin. case_match.
  - destruct (peers m !! id) as [p|]; case_match; unfold pin; simpl; by rewrite ?decr_state_pin.
  - unfold on_transient_failure. destruct (peers m !! id) as [p|]; [|done].
    match goal with |- context [let '(_, _) := ?r in _] => destruct r as [until p'] end.
    case_match; [|destruct until; rewrite ?backoff_pin]; unfold pin; simpl; by rewrite decr_state_pin.
Qed.
Lemma active_closed_pin now id m : pin (on_active_session_gracefully_closed now id m) = pin m.
Proof.
  unfold on_active_session_gracefully_closed. case_match; [|done].
  case_match; rewrite ?fill_pin; unfold pin; simpl; by rewrite decr_state_pin.
Qed.
Lemma outgoing_closed_pin id m : pin (on_outgoing_pending_session_gracefully_closed id m) = pin m.
Proof.
  unfold on_outgoing_pending_session_gracefully_closed. case_match; [|done]. unfold pin; simpl. by rewrite decr_state_pin.
Qed.
Lemma outgoing_failure_pin now remote id err m : pin (on_outgoing_connection_failure now remote id err m) = pin m.
Proof. unfold on_outgoing_connection_failure. repeat case_match; try done; apply failure_pin. Qed.
Lemma reputation_pin now id k m : pin (apply_reputation_change now id k m) = pin m.
Proof.
  unfold apply_reputation_change. case_match; [|done]. case_match; [done|].
  match goal with |- context [let '(_, _) := ?r in _] => destruct r as [[] ?] end; done.
Qed.
Lemma add_peer_pin id k addr f m : pin (add_peer_kind id k addr f m) = pin m.
Proof. unfold add_peer_kind. case_match; [done|]. by destruct (peers m !! id), (kind_is_trusted k). Qed.
Lemma remove_peer_pin id m : pin (remove_peer id m) = pin m.
Proof. unfold remove_peer. by repeat case_match. Qed.
Lemma untrust_pin id m : pin (remove_peer_from_trusted_set id m) = pin m.
Proof. unfold remove_peer_from_trusted_set. by repeat case_match. Qed.
Lemma fork_id_pin id f m : pin (set_discovered_fork_id id f m) = pin m.
Proof. unfold set_discovered_fork_id. by case_match. Qed.
Lemma outgoing_established_pin id m : pin (on_active_outgoing_established id m) = pin m.
Proof. unfold on_active_outgoing_established. case_match; [|done]. unfold pin. simpl. by rewrite decr_state_pin. Qed.
Lemma dropped_pin now a err m : pin (on_incoming_pending_session_dropped now a err m) = wrap_u64 (pin m - 1).
Proof. unfold on_incoming_pending_session_dropped. by repeat case_match. Qed.
Lemma established_pin now id a m : pin (on_incoming_session_established now id a m) = wrap_u64 (pin m - 1).
Proof.
  unfold on_incoming_session_established. case_match; [done|]. case_match; [done|]. unfold check_in_capacity.
  destruct (peers _ !! id) as [p|]; [destruct (is_banned p); [done|]|]; repeat case_match; try done;
    unfold pin; simpl; by rewrite decr_state_pin.
Qed.
Lemma foldl_pin {A} (f : PeersManager → A → PeersManager) l m : (∀ m x, pin (f m x) = pin m) → pin (foldl f m l) = pin m.
Proof. intros Hf. revert m; induction l as [|x l IH]; intros m; simpl; [done|]. by rewrite IH, Hf. Qed.
Lemma release_pin now m : pin (release now m) = pin m.
Proof.
  unfold release. destruct (evict now (ban_list m)) as [[ips unbanned] bans]. destruct (retain _ _) as [expired rest].
  change (pin (foldl (λ m id, end_backoff id m) (foldl (λ m id, unban_evicted id m) (with_bans bans m) unbanned) expired)
          = pin m).
  rewrite !foldl_pin; [done|..]; intros m' id; unfold unban_evicted, end_backoff; by case_match.
Qed.
Lemma commands_pin now cmds m : pin (on_commands now cmds m).2 = pin m.
Proof.
  revert m; induction cmds as [|cmd cmds IH]; intros m; simpl; [done|].
  assert (pin (on_command now cmd m).2 = pin m) as H1.
  { destruct cmd; simpl; try done; [apply add_peer_pin|apply remove_peer_pin|apply reputation_pin]. }
  destruct (on_command now cmd m) as [r m1]. specialize (IH m1). destruct (on_commands now cmds m1). simpl in *. congruence.
Qed.
Lemma poll_pin now cmds r k m : pin (poll now cmds r k m).2 = pin m.
Proof.
  unfold poll. destruct (queued_actions m) as [|act q]; [|done].
  pose proof (commands_pin now cmds m) as H1. destruct (on_commands now cmds m) as [rs m1]. simpl in H1.
  assert (pin (Nat.iter k (fill_outbound_slots now) (if r then release now m1 else m1)) = pin m) as H2.
  { induction k as [|k IH]; simpl; [destruct r; rewrite ?release_pin; done|]. by rewrite fill_pin. }
  by destruct (queued_actions (Nat.iter k _ _)).
Qed.
End pin.

(** ** The slots of connections, as the peers manager counts them *)
Definition slots (c : ConnectionInfo) : Z * Z := (num_inbound c, num_outbound c).
Section slots.
Context `{HashOrder}.
Implicit Types (m : PeersManager).
Lemma fill_loop_slots fuel m : slots (connection_info (fill_loop fuel m)) = slots (connection_info m).
Proof.
  revert m; induction fuel as [|fuel IH]; intros m; simpl; [done|]. case_match; [|done].
  destruct (best_unconnected m) as [[id p]|]; [|done]. by rewrite IH.
Qed.
Lemma fill_slots now m : slots (connection_info (fill_outbound_slots now m)) = slots (connection_info m).
Proof. unfold fill_outbound_slots. case_match; [done|]. by rewrite fill_loop_slots. Qed.
(** The end of a session gives back the slot of the peer. *)
Lemma active_closed_slots now id p m :
  peers m !! id = Some p →
  slots (connection_info (on_active_session_gracefully_closed now id m)) = slots (decr_state (pstate p) (connection_info m)).
Proof. intros Hp. unfold on_active_session_gracefully_closed. rewrite Hp. case_match; by rewrite ?fill_slots. Qed.
Lemma failure_slots {E} `{SessionError E} now remote id (err : E) k p m :
  peers m !! id = Some p →
  slots (connection_info (on_connection_failure now remote id err k m)) = slots (decr_state (pstate p) (connection_info m)).
Proof.
  intros Hp. unfold on_connection_failure. rewrite fill_slots, Hp. case_match; [by case_match|].
  unfold on_transient_failure. rewrite Hp.
  match goal with |- context [let '(_, _) := ?r in _] => destruct r as [until p'] eqn:Er end.
  assert (pstate p' = pstate p) as Hst by (destruct (should_backoff err) as [b|]; [destruct (is_severe b)|]; by injection Er as _ <-).
  rewrite <-Hst. unfold backoff_peer_until. by repeat case_match.
Qed.
Lemma decr_state_slots a b id p m :
  counted a b m → a < U64 → peers m !! id = Some p →
  slots (decr_state (pstate p) (connection_info m)) =
    (num_inbound (connection_info m) - occ holds_in p, num_outbound (connection_info m) - occ holds_out p).
Proof.
  intros [Hin Hout _ _] Ha Hp. pose proof (count_occ holds_in _ _ _ Hp). pose proof (count_occ holds_out _ _ _ Hp).
  unfold slots, occ in *. destruct (pstate p); simpl in *; rewrite ?wrap_u64_id by (unfold is_u64; lia); f_equal; lia.
Qed.
End slots.

(** ** The network *)
Record net_ok (k : Z) (n : Net) : Prop := {
  no_sessions : sessions_ok k (sessions n);
  no_counted : counted k k (peers_manager n);
  no_pin : pin (peers_manager n) = wrap_u64 (mcount dir_is_incoming (pending_sessions (sessions n)));
  no_active : num_active_peers n = wrap_u64 (Z.of_nat (size (active_sessions (sessions n))));
  no_size : Z.of_nat (size (active_sessions (sessions n))) ≤ k;
  no_holders id p :
    peers (peers_manager n) !! id = Some p → holder p = true → is_Some (active_sessions (sessions n) !! id);
}.

(** What one event may add: a session, a connection, and a peer for each command. *)
Definition event_cost (e : NetEvent) : Z := match e with EvPoll cmds _ _ => 1 + Z.of_nat (length cmds) | _ => 1 end.
Definition total_cost (l : list (Z * NetEvent)) : Z := foldr (λ e, Z.add (event_cost e.2)) 0 l.
Lemma cost_pos e : 1 ≤ event_cost e.
Proof. destruct e; simpl; lia. Qed.
Lemma total_cost_nonneg l : 0 ≤ total_cost l.
Proof. induction l as [|e l IH]; simpl; [done|]. pose proof (cost_pos e.2). lia. Qed.
Lemma total_cost_snoc l e : total_cost (l ++ [e]) = total_cost l + event_cost e.2.
Proof. induction l as [|x l IH]; simpl; [lia|]. rewrite IH. lia. Qed.

Lemma net_ok_weaken k k' n : k ≤ k' → net_ok k n → net_ok k' n.
Proof.
  intros Hk [Hs Hc Hp Ha Hsz Hh]. split; try done; [by eapply sessions_weaken|by eapply counts_weaken; [| |exact Hc]|lia].
Qed.

Section steps.
Context `{HashOrder} `{!HashOrderLaws}.

(** A call of the peers manager that opens and closes no session. *)
Lemma quiet_ok k k' f n :
  net_ok k n → k ≤ k' → counted k' k' (f (peers_manager n)) → pin (f (peers_manager n)) = pin (peers_manager n) →
  kept (peers (peers_manager n)) (peers (f (peers_manager n))) → net_ok k' (on_peers f n).
Proof.
  intros [Hs Hc Hp Ha Hsz Hh] Hk Hc' Hpin Hkept. split; simpl; try done.
  - by eapply sessions_weaken.
  - by rewrite Hpin.
  - lia.
  - intros id p Hid Hp'. destruct (Hkept id p Hid Hp') as (p0 & Hp0 & Hh0). by eapply Hh.
Qed.

Section one.
Variables (k : Z) (n : Net).
Hypotheses (Hk : k + 1 < U64) (Hn : net_ok k n).

Lemma reputation_ok now id c : net_ok k (on_peers (apply_reputation_change now id c) n).
Proof.
  apply (quiet_ok k); [done|lia|apply reputation_counted, Hn|apply reputation_pin|apply reputation_kept].
Qed.
Lemma add_ok id c a f : net_ok (k + 1) (on_peers (add_peer_kind id c a f) n).
Proof.
  apply (quiet_ok k); [done|lia| |apply add_peer_pin|apply add_peer_kept].
  eapply counts_weaken; [| |apply add_peer_counted; [done|done|apply Hn]]; lia.
Qed.
Lemma remove_ok id : net_ok k (on_peers (remove_peer id) n).
Proof. apply (quiet_ok k); [done|lia|apply remove_peer_counted, Hn|apply remove_peer_pin|apply remove_peer_kept]. Qed.

(** *** Handshakes *)

(** A pending session is gone, and the peers manager has been told. *)
Lemma handshake_over sid d f :
  pending_sessions (sessions n) !! sid = Some d → counted k k (f (peers_manager n)) →
  kept (peers (peers_manager n)) (peers (f (peers_manager n))) →
  pin (f (peers_manager n)) = (if dir_is_incoming d then wrap_u64 (pin (peers_manager n) - 1) else pin (peers_manager n)) →
  net_ok k (on_peers f (with_sessions (remove_pending_session sid (sessions n)) n)).
Proof.
  intros Hsid Hc' Hkept Hpin. destruct Hn as [Hs Hc Hp Ha Hsz Hh].
  assert (active_sessions (remove_pending_session sid (sessions n)) = active_sessions (sessions n)) as Hact
    by (unfold remove_pending_session; by rewrite Hsid).
  split; simpl; rewrite ?Hact; try done.
  - by eapply remove_pending_ok.
  - rewrite Hpin, Hp. unfold remove_pending_session. rewrite Hsid. simpl. rewrite (mcount_delete _ _ sid d) by done.
    destruct d; simpl; [by rewrite wrap_u64_sub|by rewrite Z.sub_0_r].
  - intros id p Hid Hp'. destruct (Hkept id p Hid Hp') as (p0 & Hp0 & Hh0). by eapply Hh.
Qed.
Lemma closed_ok now sid a d err :
  pending_sessions (sessions n) !! sid = Some d →
  net_ok k (on_session_event now (closed_event d a err) (with_sessions (remove_pending_session sid (sessions n)) n)).
Proof.
  intros Hsid. destruct d as [|id]; destruct err as [err|]; simpl.
  - eapply handshake_over; [done| | |apply dropped_pin]; unfold on_incoming_pending_session_dropped;
      repeat case_match; try done; apply counts_pending_in, Hn.
  - eapply handshake_over; [done|apply counts_pending_in, Hn|done|done].
  - eapply handshake_over; [done|apply failure_counted, Hn; done|apply failure_kept|apply failure_pin].
  - eapply handshake_over; [done|apply outgoing_closed_counted, Hn; done|apply outgoing_closed_kept|apply outgoing_closed_pin].
Qed.

(** A session begins. *)
Lemma established_ok now sid a id d :
  pending_sessions (sessions n) !! sid = Some d →
  net_ok (k + 1) (let '(ev, s) := poll_pending (Established sid a id d) (sessions n) in
                  on_session_event now ev (with_sessions s n)).
Proof.
  intros Hsid. simpl. set (s1 := remove_pending_session sid (sessions n)).
  destruct (active_sessions s1 !! id) as [h|] eqn:Hact.
  { eapply net_ok_weaken; [|simpl; eapply handshake_over]; [lia|done|..|];
      destruct d; try done; [apply counts_pending_in, Hn|apply Hn]. }
  pose proof Hn as [Hs Hc Hp Ha Hsz Hh].
  assert (sessions_ok k s1) as Hs1 by (by eapply remove_pending_ok).
  assert (mcount dir_is_incoming (pending_sessions s1) =
          mcount dir_is_incoming (pending_sessions (sessions n)) - Z.b2z (dir_is_incoming d)) as Hcount.
  { subst s1. unfold remove_pending_session. rewrite Hsid. simpl. by apply mcount_delete. }
  assert (active_sessions s1 = active_sessions (sessions n)) as Hsame
    by (subst s1; unfold remove_pending_session; by rewrite Hsid).
  clearbody s1. rewrite Hsame in Hact.
  assert (∀ f, counted (k + 1) (k + 1) (f (peers_manager n)) →
    pin (f (peers_manager n)) = (if dir_is_incoming d then wrap_u64 (pin (peers_manager n) - 1) else pin (peers_manager n)) →
    (∀ i p', peers (f (peers_manager n)) !! i = Some p' → holder p' = true →
       i = id ∨ ∃ p, peers (peers_manager n) !! i = Some p ∧ holder p = true) →
    net_ok (k + 1) (on_peers f (with_active_peers (wrap_u64 (num_active_peers n + 1))
      (with_sessions (mkSessionManager (next_id s1) (inc_active d (counter s1)) (status s1) (fork_filter s1)
        (pending_sessions s1) (<[id := mkActiveSessionHandle d sid]> (active_sessions s1))) n)))) as Hgoal.
  { intros f Hc' Hpin Hholders. split; simpl.
    - eapply sessions_weaken; [|apply add_active_ok; [exact Hs1|by rewrite Hsame]]. lia.
    - done.
    - rewrite Hpin, Hp, Hcount. destruct d; simpl; [by rewrite wrap_u64_sub|by rewrite Z.sub_0_r].
    - rewrite Hsame, Ha, wrap_u64_add, map_size_insert_None by done. f_equal. lia.
    - rewrite Hsame, map_size_insert_None by done. lia.
    - intros i p' Hi Hh'. rewrite Hsame. apply lookup_insert_is_Some'. destruct (Hholders i p' Hi Hh') as [->|(p & Hpi & Hhp)]; [by left|].
      right. by eapply Hh. }
  destruct d as [|dialed]; apply Hgoal.
  - by apply established_counted.
  - apply established_pin.
  - apply established_kept.
  - eapply counts_weaken; [| |apply outgoing_established_counted; [done|done|exact Hc]]; lia.
  - apply outgoing_established_pin.
  - apply outgoing_established_kept.
Qed.

(** *** The end of a session *)
Lemma session_over id f :
  is_Some (active_sessions (sessions n) !! id) → counted k k (f (peers_manager n)) →
  pin (f (peers_manager n)) = pin (peers_manager n) →
  kept (peers (peers_manager n)) (peers (f (peers_manager n))) → free id (peers (f (peers_manager n))) →
  net_ok k (on_peers f (with_active_peers (wrap_u64 (num_active_peers n - 1))
              (with_sessions (remove_active_session id (sessions n)) n))).
Proof.
  intros [h Hact] Hc' Hpin Hkept Hfree. destruct Hn as [Hs Hc Hp Ha Hsz Hh].
  split; simpl.
  - by apply remove_active_ok.
  - done.
  - rewrite Hpin, Hp. unfold remove_active_session. by rewrite Hact.
  - unfold remove_active_session. rewrite Hact. simpl. rewrite Ha, wrap_u64_sub. f_equal.
    rewrite map_size_delete_Some by (by eexists).
    assert (size (active_sessions (sessions n)) ≠ 0%nat); [|lia]. intros Hz%map_size_empty_inv. by rewrite Hz in Hact.
  - unfold remove_active_session. rewrite Hact. simpl. rewrite map_size_delete_Some by (by eexists). lia.
  - intros i p Hi Hhp. unfold remove_active_session. rewrite Hact. simpl. apply lookup_delete_is_Some. split.
    + intros ->. by rewrite (Hfree p Hi) in Hhp.
    + destruct (Hkept i p Hi Hhp) as (p0 & Hp0 & Hh0). by eapply Hh.
Qed.
Lemma active_ok now e :
  is_Some (active_sessions (sessions n) !! active_source e) →
  net_ok k (let '(ev, s) := poll_active e (sessions n) in on_session_event now ev (with_sessions s n)).
Proof.
  assert (with_sessions (sessions n) n = n) as Hid by (by destruct n).
  intros Hact. destruct e as [id a|id a err|id|id|id|id]; simpl in *; rewrite ?Hid.
  - apply session_over; [done|apply active_closed_counted, Hn; done|apply active_closed_pin|apply active_closed_kept..].
  - apply session_over; [done|apply failure_counted, Hn; done|apply failure_pin|apply failure_kept..].
  - done.
  - apply reputation_ok.
  - apply reputation_ok.
  - apply reputation_ok.
Qed.

(** *** New connections and the rest *)
Lemma net_id : with_manager (peers_manager n) n = n.
Proof. by destruct n. Qed.
Lemma incoming_fresh : pending_sessions (sessions n) !! next_id (sessions n) = None.
Proof.
  destruct Hn as [[Hids _ _ _ _ _] _ _ _ _ _]. destruct (pending_sessions _ !! _) eqn:He; [|done].
  pose proof (Hids _ ltac:(by eexists)). lia.
Qed.
Lemma connection_ok a : net_ok (k + 1) (on_connection a n).
Proof.
  unfold on_connection, on_incoming_pending_session.
  assert (net_ok (k + 1) n) as Hw by (by eapply net_ok_weaken; [|exact Hn]; lia).
  case_match; [done|]. destruct (is_banned_ip _ _); [by rewrite net_id|].
  destruct (negb _ && _); [by rewrite net_id|].
  destruct Hw as [Hs Hc Hp Ha Hsz Hh]. simpl sessions. unfold on_incoming.
  destruct (ensure_pending_inbound (counter (sessions n))); simpl.
  - split; simpl; try done; [apply counts_pending_in, (counts_pending_in _ _ _ _ _ Hc)|].
    unfold pin. simpl. rewrite wrap_u64_sub, Z.add_simpl_r. fold (pin (peers_manager n)).
    rewrite Hp. unfold wrap_u64. by rewrite Z.mod_mod.
  - split; simpl; try done; [apply open_pending_ok; [apply Hn|done|done]|apply counts_pending_in, Hc|].
    unfold pin. simpl. rewrite mcount_insert by apply incoming_fresh. simpl Z.b2z.
    fold (pin (peers_manager n)). by rewrite Hp, wrap_u64_add.
Qed.
Lemma queue_ok e : net_ok k (queue e n).
Proof. destruct Hn. by split. Qed.
Lemma state_action_ok e : net_ok (k + 1) (on_state_action e n).
Proof.
  assert (net_ok (k + 1) n) as Hw by (by eapply net_ok_weaken; [|exact Hn]; lia).
  destruct e as [a id|id r|id|id|id a f|id f]; simpl; try done.
  - destruct Hn as [Hs Hc Hp Ha Hsz Hh]. split; simpl.
    + by apply dial_ok.
    + by eapply counts_weaken; [| |exact Hc]; lia.
    + by erewrite dial_pending_in.
    + unfold dial_outbound. by case_match.
    + unfold dial_outbound. case_match; simpl; lia.
    + intros i p Hi Hhp. unfold dial_outbound. case_match; by eapply Hh.
  - case_match; [done|]. case_match; [apply add_ok|done].
  - case_match; [|eapply net_ok_weaken; [|apply remove_ok]; lia].
    apply (quiet_ok k); [done|lia| |apply fork_id_pin|apply fork_id_kept].
    eapply counts_weaken; [| |apply fork_id_counted, Hn]; lia.
Qed.
Lemma handle_ok now msg n' : on_handle_message now msg n = Done n' → net_ok (k + 1) n'.
Proof.
  assert (net_ok (k + 1) n) as Hw by (by eapply net_ok_weaken; [|exact Hn]; lia).
  intros Hm. destruct msg as [id|id c a|id c|st| |id c|h]; simpl in Hm; try (injection Hm as <-).
  - destruct Hw. by split.
  - case_match; [done|apply add_ok].
  - eapply net_ok_weaken; [|]; [|destruct c; [apply remove_ok|apply remove_ok|]]; [lia|].
    apply (quiet_ok k); [done|lia|apply untrust_counted, Hn|apply untrust_pin|apply untrust_kept].
  - destruct Hw. by split.
  - destruct Hw. by split.
  - eapply net_ok_weaken; [|apply reputation_ok]. lia.
  - apply bind_Done_inv in Hm as ([t s] & Hs & [= <-]). unfold on_status_update in Hs.
    apply bind_Done_inv in Hs as ([t' f] & _ & [= <- <-]). destruct Hw as [[] Hc Hp Ha Hsz Hh]. by split.
Qed.
End one.

Lemma peer_action_ok k a n : net_ok k n → net_ok k (on_peer_action a n).
Proof. intros Hn. destruct a; simpl; try done; by apply queue_ok. Qed.
Lemma poll_ok k now cmds r fills n :
  net_ok k n → k + Z.of_nat (length cmds) + 1 < U64 → net_ok (k + Z.of_nat (length cmds)) (poll_peers now cmds r fills n).
Proof.
  intros Hn Hk. unfold poll_peers. pose proof (poll_counted k ltac:(lia) k now cmds r fills (peers_manager n) Hk) as Hc.
  pose proof (poll_pin now cmds r fills (peers_manager n)) as Hp.
  pose proof (poll_kept now cmds r fills (peers_manager n)) as Hkept.
  destruct (poll now cmds r fills (peers_manager n)) as [[rs act] m]. simpl in *.
  assert (net_ok (k + Z.of_nat (length cmds)) (with_manager m n)) as Hw.
  { change (with_manager m n) with (on_peers (λ _, m) n). apply (quiet_ok k); [done|lia| |done|done].
    eapply counts_weaken; [| |apply Hc, Hn]; lia. }
  destruct act; [by apply peer_action_ok|done].
Qed.

Lemma step_ok k now n e n' : net_step now n e n' → net_ok k n → k + event_cost e < U64 → net_ok (k + event_cost e) n'.
Proof.
  intros Hstep Hn Hk. destruct Hstep as [a|e s ev Hsrc Hpoll|e s ev Hsrc Hpoll|cmds r fills|e q Hq|e He|msg n' Hm]; simpl in *.
  - by apply connection_ok.
  - destruct e as [sid a id d|sid a d err|sid a id err|sid a d err]; simpl in Hsrc.
    + pose proof (established_ok k n Hk Hn now sid a id d Hsrc) as He. by rewrite Hpoll in He.
    + injection Hpoll as <- <-. eapply net_ok_weaken; [|by apply closed_ok]. lia.
    + injection Hpoll as <- <-. apply (net_ok_weaken k); [lia|]. simpl. eapply handshake_over; [done|exact Hsrc|..].
      * apply outgoing_failure_counted, Hn; done.
      * apply outgoing_failure_kept.
      * apply outgoing_failure_pin.
    + injection Hpoll as <- <-. eapply net_ok_weaken; [|by apply closed_ok]. lia.
  - eapply net_ok_weaken; [|pose proof (active_ok k n Hk Hn now e Hsrc) as He; by rewrite Hpoll in He]. lia.
  - apply (net_ok_weaken (k + Z.of_nat (length cmds))); [lia|]. apply poll_ok; [done|lia].
  - apply state_action_ok; [done|]. destruct Hn. by split.
  - eapply net_ok_weaken; [|by apply queue_ok]. lia.
  - by eapply handle_ok.
Qed.
Lemma run_ok n l n' : net_run n l n' → ∀ k, net_ok k n → k + total_cost l < U64 → net_ok (k + total_cost l) n'.
Proof.
  induction 1 as [n|n l n1 now e n2 Hrun IH Hstep]; intros k Hn Hk; [by rewrite Z.add_0_r|].
  rewrite total_cost_snoc in *. simpl in *. rewrite Z.add_assoc. pose proof (cost_pos e).
  eapply step_ok; [exact Hstep|apply IH; [done|lia]|lia].
Qed.

End steps.

(** *** The initial state *)
Definition Net_new (now : Z) (c : PeersConfig) (l : SessionLimits) (st : Status) (f : ForkFilter) : Net :=
  mkNet (SessionManager_new l st f) (PeersManager_new now c) [] 0.
Definition num_nodes (c : PeersConfig) : Z := Z.of_nat (length (c_trusted_nodes c) + length (c_basic_nodes c)).

Lemma or_insert_idle {A} (ids : A → PeerId) (mk : A → Peer) l ps :
  (∀ x, pstate (mk x) = Idle) → (∀ id p, ps !! id = Some p → pstate p = Idle) →
  let ps' := foldl (λ ps x, or_insert (ids x) (mk x) ps) ps l in
  (∀ id p, ps' !! id = Some p → pstate p = Idle) ∧ (size ps' ≤ size ps + length l)%nat.
Proof.
  intros Hmk. revert ps; induction l as [|x l IH]; intros ps Hps; simpl; [split; [done|lia]|].
  assert ((∀ id p, or_insert (ids x) (mk x) ps !! id = Some p → pstate p = Idle) ∧
          (size (or_insert (ids x) (mk x) ps) ≤ S (size ps))%nat) as [H1 H2].
  { unfold or_insert. case_match; [split; [done|lia]|]. rewrite map_size_insert_None by done. split; [|lia].
    intros id p [[_ <-]|[_ Hp]]%lookup_insert_Some; [done|by eapply Hps]. }
  destruct (IH _ H1) as [H3 H4]. split; [done|lia].
Qed.
Lemma count_idle f ps : f Idle = false → (∀ id p, ps !! id = Some p → pstate p = Idle) → count f ps = 0.
Proof.
  intros Hf Hps. unfold count, mcount. rewrite (proj2 (map_empty_filter _ _)); [done|].
  intros id p Hp. simpl. by rewrite (Hps id p Hp), Hf.
Qed.
Lemma new_peers now c :
  (∀ id p, peers (PeersManager_new now c) !! id = Some p → pstate p = Idle) ∧
  Z.of_nat (size (peers (PeersManager_new now c))) ≤ num_nodes c.
Proof.
  destruct (or_insert_idle nr_id (λ r, Peer_trusted (record_addr r)) (trusted_records c) ∅) as [H1 H2]; [done|done|].
  destruct (or_insert_idle nr_id (λ r, Peer_new (record_addr r)) (c_basic_nodes c) _ ltac:(done) H1) as [H3 H4].
  split; [exact H3|]. unfold num_nodes. simpl in *. rewrite map_size_empty in H2.
  assert (length (trusted_records c) ≤ length (c_trusted_nodes c))%nat.
  { unfold trusted_records. induction (c_trusted_nodes c) as [|[r|] l IH]; [done|..];
      unfold omap in *; cbn [list_omap id length] in *; lia. }
  lia.
Qed.
Lemma new_ok now c l st f : net_ok (num_nodes c) (Net_new now c l st f).
Proof.
  destruct (new_peers now c) as [Hidle Hsize]. assert (0 ≤ num_nodes c) by (unfold num_nodes; lia).
  split; simpl; try done.
  - split; simpl; try done. by intros id [x Hx].
  - split; simpl; rewrite ?count_idle by done; try done.
  - intros id p Hp Hh. apply Hidle in Hp. unfold holder in Hh. by rewrite Hp in Hh.
Qed.

(** ** What a run keeps *)

(** The messages with which a session ends. *)
Definition ends_session (id : PeerId) (e : ActiveSessionMessage) : Prop :=
  match e with ActiveDisconnected id' _ | ClosedOnConnectionError id' _ _ => id' = id | _ => False end.
Lemma pending_size k s : sessions_ok k s → Z.of_nat (size (pending_sessions s)) ≤ k.
Proof.
  intros [Hids Hnext _ _ _ _]. rewrite <-size_dom.
  assert (dom (pending_sessions s) ⊆@{gset Z} list_to_set (seqZ 0 (next_id s))) as Hsub.
  { intros id Hid%elem_of_dom. apply elem_of_list_to_set, elem_of_seqZ. pose proof (Hids id Hid). lia. }
  apply subseteq_size in Hsub. rewrite size_list_to_set in Hsub by apply NoDup_seqZ. rewrite length_seqZ in Hsub. lia.
Qed.
Lemma count_holders_le ps (act : gmap PeerId ActiveSessionHandle) :
  (∀ id p, ps !! id = Some p → holder p = true → is_Some (act !! id)) →
  count holds_in ps + count holds_out ps ≤ Z.of_nat (size act).
Proof.
  revert act; induction ps as [|id p ps Hp IH] using map_ind; intros act Hh; [simpl; rewrite !count_idle by done; lia|].
  rewrite !count_insert by done.
  assert (∀ i q, ps !! i = Some q → holder q = true → is_Some (delete id act !! i)) as Hrest.
  { intros i q Hq Hhq. apply lookup_delete_is_Some. split; [by intros ->; rewrite Hp in Hq|].
    apply (Hh i q); [|done]. rewrite lookup_insert_ne; [done|]. by intros ->; rewrite Hp in Hq. }
  specialize (IH _ Hrest).
  destruct (holder p) eqn:Hhp.
  - destruct (Hh id p (lookup_insert_eq _ _ _) Hhp) as [h Hact].
    rewrite map_size_delete_Some in IH by (by eexists).
    assert (size act ≠ 0%nat) by (intros Hz%map_size_empty_inv; by rewrite Hz in Hact).
    unfold occ. destruct (pstate p); simpl; lia.
  - assert (size (delete id act) ≤ size act)%nat by (apply map_subseteq_size, delete_subseteq).
    unfold holder in Hhp. unfold occ. apply orb_false_iff in Hhp as [-> ->]. simpl. lia.
Qed.

(** C34. The counters of connections are right over every run of the network, whatever
    connections are accepted, dialed, established or fail, whatever identities the remotes
    claim, and whatever commands arrive: the peers manager counts exactly the handshakes that
    are in progress with remotes that connected, and as outbound handshakes exactly the peers
    in the state [PendingOut]; its counters of inbound and outbound connections are never below
    the number of peers whose state says that they hold such a connection, so that releasing one
    never wraps a counter around; the manager counts exactly the active sessions, and the
    counters of the session manager are the numbers of its sessions, modulo 32 bits.  The run
    may have up to 2^64 events.  A peer in the state [PendingOut] need not have a handshake in
    progress, and the counters may exceed those numbers: see [Runs.refused_dial_leaks],
    [Runs.foreign_identity_leaks] and [Runs.removed_twice_leaks]. *)
Theorem network_counters `{HashOrder} `{!HashOrderLaws} now c limits st f l n :
  net_run (Net_new now c limits st f) l n → num_nodes c + total_cost l < U64 →
  let ci := connection_info (peers_manager n) in
  let s := sessions n in
  let ps := peers (peers_manager n) in
  num_pending_in ci = mcount dir_is_incoming (pending_sessions s) ∧
  num_pending_out ci = count is_pending_out ps ∧
  count holds_in ps ≤ num_inbound ci < U64 ∧
  count holds_out ps ≤ num_outbound ci < U64 ∧
  num_active_peers n = Z.of_nat (size (active_sessions s)) ∧
  pending_inbound (counter s) = wrap_u32 (mcount dir_is_incoming (pending_sessions s)) ∧
  pending_outbound (counter s) = wrap_u32 (mcount dir_is_outgoing (pending_sessions s)) ∧
  active_inbound (counter s) = wrap_u32 (mcount (λ h, dir_is_incoming (as_direction h)) (active_sessions s)) ∧
  active_outbound (counter s) = wrap_u32 (mcount (λ h, dir_is_outgoing (as_direction h)) (active_sessions s)).
Proof.
  intros Hrun Hk. pose proof (run_ok _ _ _ Hrun (num_nodes c) (new_ok now c limits st f) Hk) as [Hs Hc Hp Ha Hsz Hh].
  pose proof (pending_size _ _ Hs). pose proof (mcount_size dir_is_incoming (pending_sessions (sessions n))).
  pose proof (mcount_nonneg dir_is_incoming (pending_sessions (sessions n))).
  rewrite wrap_u64_id in Hp by (unfold is_u64; lia). rewrite wrap_u64_id in Ha by (unfold is_u64; lia).
  destruct Hs as [_ _ Hpi Hpo Hai Hao]. destruct Hc as [Hin Hout Hpend _]. split_and!; try done; lia.
Qed.

(** C35. A listed peer that holds a slot has a session, and the end of the session gives the slot
    back: over every run of the network, a peer in the list whose state says that it is connected,
    or that its connection is being closed, has an active session; there are never more such
    peers than active sessions; and when that session ends, orderly or with an error, the peer no
    longer holds a slot, the counter of its direction goes down by exactly one, the other one
    stays, and nothing else changes among the active sessions.  The slot of a peer that was taken
    out of the list before its session ended is not given back ([Runs.removed_twice_leaks]).  The
    run may have up to 2^64 events. *)
Theorem slots_have_sessions `{HashOrder} `{!HashOrderLaws} now c limits st f l n :
  net_run (Net_new now c limits st f) l n → num_nodes c + total_cost l < U64 →
  let ps := peers (peers_manager n) in
  let ci := connection_info (peers_manager n) in
  (∀ id p, ps !! id = Some p → holder p = true → is_Some (active_sessions (sessions n) !! id)) ∧
  count holds_in ps + count holds_out ps ≤ Z.of_nat (size (active_sessions (sessions n))) ∧
  ∀ id p e t n', ps !! id = Some p → holder p = true → ends_session id e → net_step t n (EvActive e) n' →
    let ci' := connection_info (peers_manager n') in
    num_inbound ci' = num_inbound ci - occ holds_in p ∧ num_outbound ci' = num_outbound ci - occ holds_out p ∧
    free id (peers (peers_manager n')) ∧ active_sessions (sessions n') = delete id (active_sessions (sessions n)).
Proof.
  intros Hrun Hk ps ci. pose proof (run_ok _ _ _ Hrun (num_nodes c) (new_ok now c limits st f) Hk) as [Hs Hc Hp Ha Hsz Hh].
  split_and!; [exact Hh|by apply count_holders_le|]. intros id p e t n' Hid Hhold He Hstep.
  destruct (Hh id p Hid Hhold) as [h Hact]. pose proof (decr_state_slots _ _ _ _ _ Hc Hk Hid) as Hslots.
  inversion Hstep as [| |e' s ev Hsrc Hpoll| | | |]; subst e'. clear Hstep.
  destruct e as [id' a|id' a err|id'|id'|id'|id']; simpl in He; try done; subst id'; simpl in Hpoll; injection Hpoll as <- <-; simpl.
  - pose proof (active_closed_slots t id p (peers_manager n) Hid) as Hcl. rewrite Hslots in Hcl. injection Hcl as -> ->.
    split_and!; [done..|apply active_closed_kept|]. unfold remove_active_session. by rewrite Hact.
  - pose proof (failure_slots t a id err Dropped p (peers_manager n) Hid) as Hcl. rewrite Hslots in Hcl.
    unfold on_active_session_dropped. injection Hcl as -> ->.
    split_and!; [done..|apply failure_kept|]. unfold remove_active_session. by rewrite Hact.
Qed.

(** ** Concrete runs *)
Module Runs.
#[local] Existing Instances in_key_order in_key_order_laws.

Definition remote : SocketAddr := mkSocketAddr (V4 1 2 3 4) 30303.
Definition config : PeersConfig :=
  mkPeersConfig (mkConnectionsConfig 2 2 2) ReputationChangeWeights_default (mkBanList ∅ ∅) (secs (60 * 60 * 12))
    PeerBackoffDurations_default [] false [mkNodeRecord (V4 1 2 3 4) 30303 30303 1] 5.
Definition filter0 : ForkFilter := mkForkFilter ∅ Head_default (mkCache (KBlock 0) None [] [] (mkForkId 0 0)).
Definition start (limits : SessionLimits) : Net :=
  Net_new 0 config limits (mkStatus 0 0 (mkForkId 0 0)) filter0.
Definition no_limits : SessionLimits := mkSessionLimits None None None None.

(** The peer 1 is dialed, and the peer 7 connects and leaves. *)
Definition events : list (Z * NetEvent) :=
  [(1, EvPoll [] false 1); (2, EvState); (3, EvAccept remote); (4, EvPending (Established 1 remote 7 Incoming));
   (5, EvPending (Established 0 remote 1 (Outgoing 1))); (6, EvActive (ActiveDisconnected 7 remote));
   (7, EvAccept remote)].

Lemma network_counters_witness :
  ∃ n, net_run (start no_limits) events n ∧ num_pending_in (connection_info (peers_manager n)) = 1 ∧
    num_pending_in (connection_info (peers_manager n)) = mcount dir_is_incoming (pending_sessions (sessions n)).
Proof.
  destruct (net_exec events (start no_limits)) as [n|] eqn:He; [|by vm_compute in He].
  exists n. assert (net_run (start no_limits) events n) as Hrun by by apply net_exec_run.
  split; [done|]. split.
  - revert He. vm_compute. by intros [= <-].
  - apply (network_counters 0 config no_limits (mkStatus 0 0 (mkForkId 0 0)) filter0 events n Hrun). by vm_compute.
Defined.
(** While the peer 7 is connected, its session ends. *)
Definition met : Net := default (start no_limits) (net_exec (take 4 events) (start no_limits)).
Definition parted : Net := default met (net_apply 6 (EvActive (ActiveDisconnected 7 remote)) met).
Lemma slots_have_sessions_witness :
  net_run (start no_limits) (take 4 events) met ∧ net_step 6 met (EvActive (ActiveDisconnected 7 remote)) parted ∧
  num_inbound (connection_info (peers_manager met)) = 1 ∧
  num_inbound (connection_info (peers_manager parted)) = num_inbound (connection_info (peers_manager met)) - 1.
Proof.
  assert (net_run (start no_limits) (take 4 events) met) as Hrun by (apply net_exec_run; by vm_compute).
  assert (net_step 6 met (EvActive (ActiveDisconnected 7 remote)) parted) as Hstep by (apply net_apply_step; by vm_compute).
  split; [exact Hrun|]. split; [exact Hstep|]. split; [by vm_compute|].
  destruct (slots_have_sessions 0 config no_limits (mkStatus 0 0 (mkForkId 0 0)) filter0 (take 4 events) met Hrun eq_refl) as (_ & _ & Hend).
  destruct (peers (peers_manager met) !! 7) as [p|] eqn:Hp; [|by vm_compute in Hp].
  assert (Hst : pstate <$> peers (peers_manager met) !! 7 = Some In_) by (by vm_compute). rewrite Hp in Hst. injection Hst as Hst.
  assert (holder p = true) as Hh by (unfold holder; by rewrite Hst).
  destruct (Hend 7 p (ActiveDisconnected 7 remote) 6 parted Hp Hh eq_refl Hstep) as [Hin _]. rewrite Hin. unfold occ. by rewrite Hst.
Defined.

(** The counters of the peers manager, the active sessions and the state of a peer. *)
Definition summary (id : PeerId) (n : Net) :=
  let c := connection_info (peers_manager n) in
  (num_inbound c, num_outbound c, num_pending_out c, size (active_sessions (sessions n)),
   size (pending_sessions (sessions n)), pstate <$> peers (peers_manager n) !! id).

(** A peer with a bad reputation that is not on the ban list connects and is turned away:
    the inbound slot it was counted for is not released. *)
Definition banned_incoming : list (Z * NetEvent) :=
  [(1, EvPoll [] false 1); (1, EvState);
   (1, EvPending (PendingDisconnected 0 remote (Outgoing 1) (Some (EthError (ParseVersionError 0)))));
   (1, EvPoll [] false 0); (1, EvState);
   (1, EvPending (PendingDisconnected 1 remote (Outgoing 1) (Some (EthError (ParseVersionError 0)))));
   (1, EvPoll [] false 0); (1, EvState);
   (1, EvPending (PendingDisconnected 2 remote (Outgoing 1) (Some (EthError (ParseVersionError 0)))));
   (2, EvAccept remote); (2, EvPending (Established 3 remote 1 Incoming)); (2, EvPoll [] false 0); (2, EvState);
   (3, EvActive (ActiveDisconnected 1 remote))].
Theorem banned_incoming_leaks :
  summary 1 <$> net_exec banned_incoming (start no_limits) = Some (1, 0, 0, 0%nat, 0%nat, Some Idle).
Proof. by vm_compute. Qed.

(** A connected peer that is removed twice before its session ends keeps its slot. *)
Theorem removed_twice_leaks :
  summary 7 <$> net_exec [(1, EvAccept remote); (1, EvPending (Established 0 remote 7 Incoming));
    (2, EvHandle (RemovePeer 7 Basic)); (2, EvHandle (RemovePeer 7 Basic)); (3, EvActive (ActiveDisconnected 7 remote))]
    (start no_limits) = Some (1, 0, 0, 0%nat, 0%nat, None).
Proof. by vm_compute. Qed.

(** The remote that was dialed says that it is another node: the dial stays counted. *)
Theorem foreign_identity_leaks :
  summary 1 <$> net_exec [(1, EvPoll [] false 1); (1, EvState); (2, EvPending (Established 0 remote 9 (Outgoing 1)));
    (3, EvActive (ActiveDisconnected 9 remote))] (start no_limits) = Some (0, 0, 1, 0%nat, 0%nat, Some PendingOut).
Proof. by vm_compute. Qed.

(** A dial that the session limits forbid is dropped, and stays counted. *)
Theorem refused_dial_leaks :
  summary 1 <$> net_exec [(1, EvPoll [] false 1); (1, EvState)] (start (mkSessionLimits None (Some 0) None None)) =
    Some (0, 0, 1, 0%nat, 0%nat, Some PendingOut).
Proof. by vm_compute. Qed.

(** The peer that is dialed connects at the same time; when the dial then fails in its
    handshake, the slot of the session that is still active is released. *)
Theorem late_failure_frees_active :
  summary 1 <$> net_exec [(1, EvPoll [] false 1); (1, EvState); (1, EvAccept remote);
    (2, EvPending (Established 1 remote 1 Incoming)); (3, EvPending (PendingDisconnected 0 remote (Outgoing 1) (Some AuthTimeout)))]
    (start no_limits) = Some (0, 0, 0, 1%nat, 0%nat, Some Idle).
Proof. by vm_compute. Qed.

(** A trusted peer with a fatal error is banned as long as any other: it is removed before
    the duration is chosen. *)
Theorem trusted_banned_in_full :
  let m := PeersManager_new 0 (mkPeersConfig (mkConnectionsConfig 2 2 2) ReputationChangeWeights_default (mkBanList ∅ ∅)
    (secs (60 * 60 * 12)) PeerBackoffDurations_default [Some (mkNodeRecord (V4 1 2 3 4) 30303 30303 1)] false [] 5) in
  banned_peers (ban_list (on_outgoing_pending_session_dropped 0 remote 1 (EciesError 0) m)) !! 1 =
    Some (Some (secs (60 * 60 * 12))).
Proof. by vm_compute. Qed.

(** Twenty-six bad messages ban a trusted peer, so that 25 is the limit. *)
Example leeway_ends :
  let m := PeersManager_new 0 (mkPeersConfig (mkConnectionsConfig 2 2 2) ReputationChangeWeights_default (mkBanList ∅ ∅)
    (secs (60 * 60 * 12)) PeerBackoffDurations_default [Some (mkNodeRecord (V4 1 2 3 4) 30303 30303 1)] false [] 5) in
  is_banned_peer 1 (ban_list (apply_changes (replicate 26 (0, BadMessage)) 1 m)) = true.
Proof. by vm_compute. Qed.

Lemma trusted_leeway_witness :
  let m := put 1 (Peer_trusted (from_tcp remote)) (PeersManager_new 0 config) in
  ∃ r, apply_changes (replicate 25 (0, BadMessage)) 1 m = put 1 (set_reputation r (Peer_trusted (from_tcp remote))) m ∧
    is_banned_reputation r = false ∧ ban_list (apply_changes (replicate 25 (0, BadMessage)) 1 m) = ban_list m ∧
    queued_actions (apply_changes (replicate 25 (0, BadMessage)) 1 m) = queued_actions m.
Proof.
  apply (trusted_leeway (replicate 25 (0, BadMessage)) 1 (Peer_trusted (from_tcp remote))
    (put 1 (Peer_trusted (from_tcp remote)) (PeersManager_new 0 config))); [by vm_compute|done|done|by vm_compute].
Defined.
Lemma fill_outbound_slots_ok_witness :
  ∃ l, filled (tick 1 (PeersManager_new 0 config)) (fill_outbound_slots 1 (PeersManager_new 0 config)) l.
Proof.
  apply (fill_outbound_slots_ok 1 1 1 (PeersManager_new 0 config)); [|done|done|done]. split; by vm_compute.
Defined.
End Runs.
