(* ===== verification/Consensus.v ===== *)
(** * Header and block consensus checks

    The trait [Consensus] ([consensus/consensus/src/lib.rs]), the checks both engines share
    ([consensus/common/src/validation.rs]), the Ethereum engine ([ethereum/consensus/src])
    and the one of the OP stack ([optimism/consensus/src]).

    Hashes and Merkle roots are parameters (the trie and [keccak256] are those of
    [alloy]), and so are the formulas for the next base fee and the excess blob gas and the
    constants of EIP-4844.  A result [Result<(), E>] is an [option E]. *)

From stdpp Require Import prelude list strings.
From S2P Require Import Prelude.
From S2P Require Import Identifier.
From S2P Require Import Forks.
From S2P Require Import BlobStore.
From S2P Require Import Transaction.
From S2P Require Import Header.
From S2P Require Import Codecs.

Definition MAXIMUM_EXTRA_DATA_SIZE : Z := 32.
Definition EIP1559_INITIAL_BASE_FEE : Z := 1000000000.
Definition MINIMUM_GAS_LIMIT : Z := 5000.

(** [r?; k]. *)
Notation "r ?; k" := (match r with Some e => Some e | None => k end) (at level 100, right associativity).

Record GotExpected := mkGotExpected { got : Z; expected : Z }.

Inductive ConsensusError :=
| HeaderGasUsedExceedsGasLimit (gas_used gas_limit : Z)
| BlockGasUsed (gas : GotExpected) (gas_spent_by_tx : list (Z * Z))
| BodyOmmersHashDiff (d : GotExpected)
| BodyStateRootDiff (d : GotExpected)
| BodyTransactionRootDiff (d : GotExpected)
| BodyReceiptRootDiff (d : GotExpected)
| BodyBloomLogDiff (d : GotExpected)
| BodyWithdrawalsRootDiff (d : GotExpected)
| BodyRequestsRootDiff (d : GotExpected)
| BlockKnown (hash number : Z)
| ParentUnknown (hash : Z)
| ParentBlockNumberMismatch (parent_block_number block_number : Z)
| ParentHashMismatch (d : GotExpected)
| TimestampIsInFuture (timestamp present_timestamp : Z)
| BaseFeeMissing
| TransactionSignerRecoveryError
| ExtraDataExceedsMax (len : Z)
| TheMergeDifficultyIsNotZero
| TheMergeNonceIsNotZero
| TheMergeOmmerRootIsNotEmpty
| WithdrawalsRootMissing
| RequestsRootMissing
| WithdrawalsRootUnexpected
| RequestsRootUnexpected
| BodyWithdrawalsMissing
| BodyRequestsMissing
| BlobGasUsedMissing
| BlobGasUsedUnexpected
| ExcessBlobGasMissing
| ExcessBlobGasUnexpected
| ParentBeaconBlockRootMissing
| ParentBeaconBlockRootUnexpected
| BlobGasUsedExceedsMaxBlobGasPerBlock (blob_gas_used max_blob_gas_per_block : Z)
| BlobGasUsedNotMultipleOfBlobGasPerBlob (blob_gas_used blob_gas_per_blob : Z)
| ExcessBlobGasNotMultipleOfBlobGasPerBlob (excess_blob_gas blob_gas_per_blob : Z)
| BlobGasUsedDiff (d : GotExpected)
| InvalidTransaction
| BaseFeeDiff (d : GotExpected)
| ExcessBlobGasDiff (d : GotExpected) (parent_excess_blob_gas parent_blob_gas_used : Z)
| GasLimitInvalidIncrease (parent_gas_limit child_gas_limit : Z)
| GasLimitInvalidMinimum (child_gas_limit : Z)
| GasLimitInvalidDecrease (parent_gas_limit child_gas_limit : Z)
| TimestampIsInPast (parent_timestamp timestamp : Z).

(** ** Blocks *)
Record SealedBlock := mkSealedBlock {
  sb_header : SealedHeader;
  sb_body : list TransactionSignedEcRecovered;
  sb_ommers : list Header;
  sb_withdrawals : option (list Withdrawal);
  sb_requests : option (list Z);
}.

(** ** The trait *)
Class Consensus (C : Type) := {
  validate_header : C → SealedHeader → option ConsensusError;
  validate_header_against_parent : C → SealedHeader → SealedHeader → option ConsensusError;
  validate_header_with_total_difficulty : C → Header → Z → option ConsensusError;
  validate_block_pre_execution : C → SealedBlock → option ConsensusError;
  validate_block_post_execution : C → Header → list Receipt → list Z → option ConsensusError;
}.

(** The default method [validate_header_range]; an error comes with the header it is about. *)
Section range.
Context `{Consensus C}.
Fixpoint range_loop (c : C) (parent : SealedHeader) (headers : list SealedHeader)
  : option (ConsensusError * SealedHeader) :=
  match headers with
  | [] => None
  | child :: headers =>
    ((λ e, (e, child)) <$> validate_header c child) ?;
    ((λ e, (e, child)) <$> validate_header_against_parent c child parent) ?;
    range_loop c child headers
  end.
Definition validate_header_range (c : C) (headers : list SealedHeader) : option (ConsensusError * SealedHeader) :=
  match headers with
  | [] => None
  | initial_header :: remaining_headers =>
    ((λ e, (e, initial_header)) <$> validate_header c initial_header) ?;
    range_loop c initial_header remaining_headers
  end.
End range.

(** ** The libraries *)
Class Externals := {
  calc_next_block_base_fee : Z → Z → Z → BaseFeeParams → Z;
  calculate_excess_blob_gas : Z → Z → Z;
  DATA_GAS_PER_BLOB : Z;
  MAX_DATA_GAS_PER_BLOCK : Z;
  ethereum_base_fee_params : BaseFeeParams;
  hash_ommers : list Header → Z;
  calculate_transaction_root : list TransactionSignedEcRecovered → Z;
  calculate_withdrawals_root : list Withdrawal → Z;
  calculate_requests_root : list Z → Z;
  receipt_trie_root : list Receipt → Z;
  m3_2048 : Z → list Z → Z;
}.

(** ** Configuration *)
Inductive BaseFeeParamsKind := Constant (p : BaseFeeParams) | Variable_ (l : list (string * BaseFeeParams)).

(** What the checks use of [ChainSpec]. *)
Record ConsensusSpec := mkConsensusSpec { es_hardforks : ChainHardforks; es_base_fee_params : BaseFeeParamsKind }.

(** ** The shared checks *)
Section checks.
Context `{Externals}.

(** [ChainSpec::base_fee_params_at_timestamp]. *)
Fixpoint last_active (h : ChainHardforks) (timestamp : Z) (l : list (string * BaseFeeParams)) : option BaseFeeParams :=
  match l with
  | [] => None
  | (fork, params) :: l => if is_fork_active_at_timestamp fork timestamp h then Some params else last_active h timestamp l
  end.
Definition base_fee_params_at_timestamp (timestamp : Z) (s : ConsensusSpec) : BaseFeeParams :=
  match es_base_fee_params s with
  | Constant p => p
  | Variable_ l =>
    match last_active (es_hardforks s) timestamp (reverse l) with
    | Some p => p
    | None => match l with [] => ethereum_base_fee_params | (_, params) :: _ => params end
    end
  end.

Definition validate_header_gas (h : SealedHeader) : option ConsensusError :=
  let h := sh_header h in
  if h_gas_limit h <? h_gas_used h then Some (HeaderGasUsedExceedsGasLimit (h_gas_used h) (h_gas_limit h)) else None.

Definition validate_header_base_fee (h : SealedHeader) (s : ConsensusSpec) : option ConsensusError :=
  if is_fork_active_at_block "London" (h_number (sh_header h)) (es_hardforks s) &&
     negb (bool_decide (is_Some (h_base_fee_per_gas (sh_header h))))
  then Some BaseFeeMissing else None.

(** [calculate_ommers_root]. *)
Definition calculate_ommers_root (ommers : list Header) : Z :=
  match ommers with [] => EMPTY_OMMER_ROOT_HASH | _ => hash_ommers ommers end.

(** [SealedBlock::blob_gas_used]: the sum of the blob gas of the blob transactions, in
    64 bits. *)
Definition tx_blob_gas_used (t : Tx.Transaction) : option Z :=
  match t with Tx.Eip4844 tx => Some (blob_gas DATA_GAS_PER_BLOB tx) | _ => None end.
Definition block_blob_gas_used (b : SealedBlock) : Z :=
  foldl (λ sum gas, wrap_u64 (sum + gas)) 0 (omap (λ t, tx_blob_gas_used (ec_transaction t)) (sb_body b)).

Definition check_withdrawals (b : SealedBlock) : option ConsensusError :=
  match sb_withdrawals b with
  | None => Some BodyWithdrawalsMissing
  | Some withdrawals =>
    match h_withdrawals_root (sh_header (sb_header b)) with
    | None => Some WithdrawalsRootMissing
    | Some root =>
      if negb (calculate_withdrawals_root withdrawals =? root)
      then Some (BodyWithdrawalsRootDiff (mkGotExpected (calculate_withdrawals_root withdrawals) root)) else None
    end
  end.
Definition check_blob_gas (b : SealedBlock) : option ConsensusError :=
  match h_blob_gas_used (sh_header (sb_header b)) with
  | None => Some BlobGasUsedMissing
  | Some used =>
    if negb (block_blob_gas_used b =? used) then Some (BlobGasUsedDiff (mkGotExpected used (block_blob_gas_used b)))
    else None
  end.
Definition check_requests (b : SealedBlock) : option ConsensusError :=
  match sb_requests b with
  | None => Some BodyRequestsMissing
  | Some requests =>
    match h_requests_root (sh_header (sb_header b)) with
    | None => Some RequestsRootMissing
    | Some root =>
      if negb (calculate_requests_root requests =? root)
      then Some (BodyRequestsRootDiff (mkGotExpected (calculate_requests_root requests) root)) else None
    end
  end.

(** [validate_block_pre_execution]. *)
Definition block_pre_execution (b : SealedBlock) (s : ConsensusSpec) : option ConsensusError :=
  let h := sh_header (sb_header b) in
  let ommers_hash := calculate_ommers_root (sb_ommers b) in
  if negb (h_ommers_hash h =? ommers_hash) then Some (BodyOmmersHashDiff (mkGotExpected ommers_hash (h_ommers_hash h)))
  else if negb (h_transactions_root h =? calculate_transaction_root (sb_body b))
  then Some (BodyTransactionRootDiff (mkGotExpected (calculate_transaction_root (sb_body b)) (h_transactions_root h)))
  else
    (if is_shanghai_active_at_timestamp (h_timestamp h) (es_hardforks s) then check_withdrawals b else None) ?;
    (if is_cancun_active_at_timestamp (h_timestamp h) (es_hardforks s) then check_blob_gas b else None) ?;
    (if is_prague_active_at_timestamp (h_timestamp h) (es_hardforks s) then check_requests b else None).

Definition validate_4844_header_standalone (h : SealedHeader) : option ConsensusError :=
  let h := sh_header h in
  match h_blob_gas_used h with
  | None => Some BlobGasUsedMissing
  | Some blob_gas_used =>
    match h_excess_blob_gas h with
    | None => Some ExcessBlobGasMissing
    | Some excess_blob_gas =>
      if negb (bool_decide (is_Some (h_parent_beacon_block_root h))) then Some ParentBeaconBlockRootMissing
      else if MAX_DATA_GAS_PER_BLOCK <? blob_gas_used
      then Some (BlobGasUsedExceedsMaxBlobGasPerBlock blob_gas_used MAX_DATA_GAS_PER_BLOCK)
      else if negb (blob_gas_used `mod` DATA_GAS_PER_BLOB =? 0)
      then Some (BlobGasUsedNotMultipleOfBlobGasPerBlob blob_gas_used DATA_GAS_PER_BLOB)
      else if negb (excess_blob_gas `mod` DATA_GAS_PER_BLOB =? 0)
      then Some (ExcessBlobGasNotMultipleOfBlobGasPerBlob excess_blob_gas DATA_GAS_PER_BLOB)
      else None
    end
  end.

Definition validate_header_extradata (h : Header) : option ConsensusError :=
  let extradata_len := Z.of_nat (length (h_extra_data h)) in
  if MAXIMUM_EXTRA_DATA_SIZE <? extradata_len then Some (ExtraDataExceedsMax extradata_len) else None.

Definition validate_against_parent_hash_number (h parent : SealedHeader) : option ConsensusError :=
  if negb (wrap_u64 (h_number (sh_header parent) + 1) =? h_number (sh_header h))
  then Some (ParentBlockNumberMismatch (h_number (sh_header parent)) (h_number (sh_header h)))
  else if negb (sh_hash parent =? h_parent_hash (sh_header h))
  then Some (ParentHashMismatch (mkGotExpected (h_parent_hash (sh_header h)) (sh_hash parent)))
  else None.

Definition validate_against_parent_eip1559_base_fee (h parent : SealedHeader) (s : ConsensusSpec)
  : option ConsensusError :=
  let number := h_number (sh_header h) in
  if active_at_block (hf_fork "London" (es_hardforks s)) number then
    match h_base_fee_per_gas (sh_header h) with
    | None => Some BaseFeeMissing
    | Some base_fee =>
      let expected_base_fee :=
        if transitions_at_block (hf_fork "London" (es_hardforks s)) number then Some EIP1559_INITIAL_BASE_FEE
        else next_block_base_fee calc_next_block_base_fee
               (base_fee_params_at_timestamp (h_timestamp (sh_header h)) s) (sh_header parent) in
      match expected_base_fee with
      | None => Some BaseFeeMissing
      | Some expected_base_fee =>
        if negb (expected_base_fee =? base_fee) then Some (BaseFeeDiff (mkGotExpected base_fee expected_base_fee)) else None
      end
    end
  else None.

Definition validate_against_parent_timestamp (h parent : SealedHeader) : option ConsensusError :=
  if is_timestamp_in_past (h_timestamp (sh_header parent)) (sh_header h)
  then Some (TimestampIsInPast (h_timestamp (sh_header parent)) (h_timestamp (sh_header h))) else None.

Definition validate_against_parent_4844 (h parent : SealedHeader) : option ConsensusError :=
  let parent_blob_gas_used := default 0 (h_blob_gas_used (sh_header parent)) in
  let parent_excess_blob_gas := default 0 (h_excess_blob_gas (sh_header parent)) in
  if negb (bool_decide (is_Some (h_blob_gas_used (sh_header h)))) then Some BlobGasUsedMissing
  else match h_excess_blob_gas (sh_header h) with
       | None => Some ExcessBlobGasMissing
       | Some excess_blob_gas =>
         let expected_excess_blob_gas := calculate_excess_blob_gas parent_excess_blob_gas parent_blob_gas_used in
         if negb (expected_excess_blob_gas =? excess_blob_gas)
         then Some (ExcessBlobGasDiff (mkGotExpected excess_blob_gas expected_excess_blob_gas)
                      parent_excess_blob_gas parent_blob_gas_used)
         else None
       end.

(** [logs_bloom], [gas_spent_by_transactions], and the comparison both engines end with. *)
Definition logs_bloom (logs : list Log) : Z :=
  foldl (λ bloom log,
    foldl (λ bloom topic, m3_2048 bloom (Compact.to_be_bytes 32 topic))
      (m3_2048 bloom (Compact.to_be_bytes 20 (log_address log))) (ld_topics (log_data log))) 0 logs.
Definition gas_spent_by_transactions (receipts : list Receipt) : list (Z * Z) :=
  imap (λ id receipt, (Z.of_nat id, rc_cumulative_gas_used receipt)) receipts.
Definition compare_receipts_root_and_logs_bloom
  (calculated_receipts_root calculated_logs_bloom expected_receipts_root expected_logs_bloom : Z)
  : option ConsensusError :=
  if negb (calculated_receipts_root =? expected_receipts_root)
  then Some (BodyReceiptRootDiff (mkGotExpected calculated_receipts_root expected_receipts_root))
  else if negb (calculated_logs_bloom =? expected_logs_bloom)
  then Some (BodyBloomLogDiff (mkGotExpected calculated_logs_bloom expected_logs_bloom))
  else None.
Definition receipts_bloom (receipts : list Receipt) : Z :=
  foldl (λ bloom r, Z.lor bloom (logs_bloom (rc_logs r))) 0 receipts.
Definition check_gas_used (h : Header) (receipts : list Receipt) : option ConsensusError :=
  let cumulative_gas_used := default 0 (rc_cumulative_gas_used <$> last receipts) in
  if negb (h_gas_used h =? cumulative_gas_used)
  then Some (BlockGasUsed (mkGotExpected cumulative_gas_used (h_gas_used h)) (gas_spent_by_transactions receipts))
  else None.
End checks.

(** ** EthBeaconConsensus *)
Record EthBeaconConsensus := mkEthBeaconConsensus { eth_chain_spec : ConsensusSpec }.

Section eth.
Context `{Externals} (now : Z).

Definition validate_against_parent_gas_limit (c : EthBeaconConsensus) (h parent : SealedHeader) : option ConsensusError :=
  let s := eth_chain_spec c in
  let gas_limit := h_gas_limit (sh_header h) in
  let parent_gas_limit :=
    if transitions_at_block (hf_fork "London" (es_hardforks s)) (h_number (sh_header h))
    then wrap_u64 (h_gas_limit (sh_header parent) *
           wrap_u64 (elasticity_multiplier (base_fee_params_at_timestamp (h_timestamp (sh_header h)) s)))
    else h_gas_limit (sh_header parent) in
  if parent_gas_limit <? gas_limit then
    if parent_gas_limit / 1024 <=? gas_limit - parent_gas_limit
    then Some (GasLimitInvalidIncrease parent_gas_limit gas_limit) else None
  else if parent_gas_limit / 1024 <=? parent_gas_limit - gas_limit
  then Some (GasLimitInvalidDecrease parent_gas_limit gas_limit)
  else if gas_limit <? MINIMUM_GAS_LIMIT then Some (GasLimitInvalidMinimum gas_limit)
  else None.

Definition eth_validate_header (c : EthBeaconConsensus) (h : SealedHeader) : option ConsensusError :=
  let s := eth_chain_spec c in
  let hd := sh_header h in
  let shanghai := is_shanghai_active_at_timestamp (h_timestamp hd) (es_hardforks s) in
  validate_header_gas h ?;
  validate_header_base_fee h s ?;
  (if shanghai && negb (bool_decide (is_Some (h_withdrawals_root hd))) then Some WithdrawalsRootMissing
   else if negb shanghai && bool_decide (is_Some (h_withdrawals_root hd)) then Some WithdrawalsRootUnexpected
   else None) ?;
  (if is_cancun_active_at_timestamp (h_timestamp hd) (es_hardforks s) then validate_4844_header_standalone h
   else if bool_decide (is_Some (h_blob_gas_used hd)) then Some BlobGasUsedUnexpected
   else if bool_decide (is_Some (h_excess_blob_gas hd)) then Some ExcessBlobGasUnexpected
   else if bool_decide (is_Some (h_parent_beacon_block_root hd)) then Some ParentBeaconBlockRootUnexpected
   else None) ?;
  (if is_prague_active_at_timestamp (h_timestamp hd) (es_hardforks s)
   then if bool_decide (is_Some (h_requests_root hd)) then None else Some RequestsRootMissing
   else if bool_decide (is_Some (h_requests_root hd)) then Some RequestsRootUnexpected else None).

Definition eth_validate_header_against_parent (c : EthBeaconConsensus) (h parent : SealedHeader)
  : option ConsensusError :=
  let s := eth_chain_spec c in
  validate_against_parent_hash_number h parent ?;
  validate_against_parent_timestamp h parent ?;
  validate_against_parent_gas_limit c h parent ?;
  validate_against_parent_eip1559_base_fee h parent s ?;
  (if is_cancun_active_at_timestamp (h_timestamp (sh_header h)) (es_hardforks s)
   then validate_against_parent_4844 h parent else None).

Definition eth_validate_header_with_total_difficulty (c : EthBeaconConsensus) (h : Header) (total_difficulty : Z)
  : option ConsensusError :=
  if active_at_ttd (hf_fork "Paris" (es_hardforks (eth_chain_spec c))) total_difficulty (h_difficulty h) then
    if negb (is_zero_difficulty h) then Some TheMergeDifficultyIsNotZero
    else if negb (h_nonce h =? 0) then Some TheMergeNonceIsNotZero
    else if negb (h_ommers_hash h =? EMPTY_OMMER_ROOT_HASH) then Some TheMergeOmmerRootIsNotEmpty
    else validate_header_extradata h
  else
    if exceeds_allowed_future_timestamp now h then Some (TimestampIsInFuture (h_timestamp h) now)
    else validate_header_extradata h.

(** [verify_receipts] and [validate_block_post_execution] of [ethereum/consensus]. *)
Definition eth_verify_receipts (receipts_root bloom : Z) (receipts : list Receipt) : option ConsensusError :=
  compare_receipts_root_and_logs_bloom (receipt_trie_root receipts) (receipts_bloom receipts) receipts_root bloom.
Definition eth_validate_block_post_execution (c : EthBeaconConsensus) (h : Header) (receipts : list Receipt)
  (requests : list Z) : option ConsensusError :=
  let s := eth_chain_spec c in
  check_gas_used h receipts ?;
  (if active_at_block (hf_fork "Byzantium" (es_hardforks s)) (h_number h)
   then eth_verify_receipts (h_receipts_root h) (h_logs_bloom h) receipts else None) ?;
  (if is_prague_active_at_timestamp (h_timestamp h) (es_hardforks s) then
     match h_requests_root h with
     | None => Some RequestsRootMissing
     | Some root =>
       if negb (calculate_requests_root requests =? root)
       then Some (BodyRequestsRootDiff (mkGotExpected (calculate_requests_root requests) root)) else None
     end
   else None).

#[export] Instance eth_consensus : Consensus EthBeaconConsensus := {
  validate_header := eth_validate_header;
  validate_header_against_parent := eth_validate_header_against_parent;
  validate_header_with_total_difficulty := eth_validate_header_with_total_difficulty;
  validate_block_pre_execution c b := block_pre_execution b (eth_chain_spec c);
  validate_block_post_execution := eth_validate_block_post_execution;
}.
End eth.

(** ** OptimismBeaconConsensus *)
Record OptimismBeaconConsensus := mkOptimismBeaconConsensus { op_chain_spec : ConsensusSpec }.

Section op.
Context `{Externals} (now : Z).

Definition is_bedrock_active_at_block (number : Z) (h : ChainHardforks) : bool :=
  active_at_block (hf_fork "Bedrock" h) number.

Definition op_validate_header (c : OptimismBeaconConsensus) (h : SealedHeader) : option ConsensusError :=
  validate_header_gas h ?; validate_header_base_fee h (op_chain_spec c).

Definition op_validate_header_against_parent (c : OptimismBeaconConsensus) (h parent : SealedHeader)
  : option ConsensusError :=
  let s := op_chain_spec c in
  validate_against_parent_hash_number h parent ?;
  (if is_bedrock_active_at_block (h_number (sh_header h)) (es_hardforks s)
   then validate_against_parent_timestamp h parent else None) ?;
  validate_against_parent_eip1559_base_fee h parent s ?;
  (if is_cancun_active_at_timestamp (h_timestamp (sh_header h)) (es_hardforks s)
   then validate_against_parent_4844 h parent else None).

Definition op_validate_header_with_total_difficulty (c : OptimismBeaconConsensus) (h : Header) (_ : Z)
  : option ConsensusError :=
  if is_bedrock_active_at_block (h_number h) (es_hardforks (op_chain_spec c)) then
    if negb (h_nonce h =? 0) then Some TheMergeNonceIsNotZero
    else if negb (h_ommers_hash h =? EMPTY_OMMER_ROOT_HASH) then Some TheMergeOmmerRootIsNotEmpty
    else validate_header_extradata h
  else if exceeds_allowed_future_timestamp now h then Some (TimestampIsInFuture (h_timestamp h) now)
  else None.

(** [calculate_receipt_root_optimism]: between Regolith and Canyon the deposit nonce is left
    out. *)
Definition strip_deposit_nonce (r : Receipt) : Receipt :=
  mkReceipt (rc_tx_type r) (rc_success r) (rc_cumulative_gas_used r) (rc_logs r) None (rc_deposit_receipt_version r).
Definition calculate_receipt_root_optimism (receipts : list Receipt) (s : ConsensusSpec) (timestamp : Z) : Z :=
  if is_fork_active_at_timestamp "Regolith" timestamp (es_hardforks s) &&
     negb (is_fork_active_at_timestamp "Canyon" timestamp (es_hardforks s))
  then receipt_trie_root (strip_deposit_nonce <$> receipts) else receipt_trie_root receipts.
Definition op_verify_receipts (receipts_root bloom : Z) (receipts : list Receipt) (s : ConsensusSpec) (timestamp : Z)
  : option ConsensusError :=
  compare_receipts_root_and_logs_bloom (calculate_receipt_root_optimism receipts s timestamp) (receipts_bloom receipts)
    receipts_root bloom.
Definition op_validate_block_post_execution (c : OptimismBeaconConsensus) (h : Header) (receipts : list Receipt)
  (_ : list Z) : option ConsensusError :=
  let s := op_chain_spec c in
  (if active_at_block (hf_fork "Byzantium" (es_hardforks s)) (h_number h)
   then op_verify_receipts (h_receipts_root h) (h_logs_bloom h) receipts s (h_timestamp h) else None) ?;
  check_gas_used h receipts.

#[export] Instance op_consensus : Consensus OptimismBeaconConsensus := {
  validate_header := op_validate_header;
  validate_header_against_parent := op_validate_header_against_parent;
  validate_header_with_total_difficulty := op_validate_header_with_total_difficulty;
  validate_block_pre_execution c b := block_pre_execution b (op_chain_spec c);
  validate_block_post_execution := op_validate_block_post_execution;
}.
End op.
