(* ===== verification/ConsensusSteps.v ===== *)
(** * What the consensus checks guarantee

    Theorems about ranges of headers against the trait, about headers and blocks against the
    two engines, and a short chain of headers on which they are evaluated. *)

From stdpp Require Import prelude list strings.
From S2P Require Import Prelude.
From S2P Require Import Identifier.
From S2P Require Import Forks.
From S2P Require Import BlobStore.
From S2P Require Import Transaction.
From S2P Require Import Header.
From S2P Require Import Codecs.
From S2P Require Import Consensus.

Lemma seq_None {E} (r k : option E) : (r ?; k) = None ↔ r = None ∧ k = None.
Proof. destruct r; naive_solver. Qed.
Lemma if_None {E} (b : bool) (e : E) (k : option E) : (if b then Some e else k) = None ↔ b = false ∧ k = None.
Proof. destruct b; naive_solver. Qed.
Lemma when_None {E} (b : bool) (k : option E) : (if b then k else None) = None ↔ (b = true → k = None).
Proof. destruct b; naive_solver. Qed.
Lemma negb_eqb x y : negb (x =? y) = false ↔ x = y.
Proof. rewrite negb_false_iff. apply Z.eqb_eq. Qed.
Lemma negb_bool_decide P `{Decision P} : negb (bool_decide P) = false ↔ P.
Proof. rewrite negb_false_iff. apply bool_decide_eq_true. Qed.

Lemma last_cons {A} (x d : A) l : List.last (x :: l) d = List.last l x.
Proof. revert x. induction l as [|y l IH]; intros x; [done|]. simpl in *. by destruct l. Qed.

(** ** Ranges of headers *)
Section range.
Context `{Consensus C} (c : C).
Implicit Types (h p : SealedHeader) (l : list SealedHeader).

(** Every header is valid by itself and against its predecessor. *)
Definition valid_range l : Prop :=
  (∀ h, h ∈ l → validate_header c h = None) ∧
  (∀ i p h, l !! i = Some p → l !! S i = Some h → validate_header_against_parent c h p = None).

Lemma valid_range_cons p h l :
  valid_range (p :: h :: l) ↔
  validate_header c p = None ∧ validate_header_against_parent c h p = None ∧ valid_range (h :: l).
Proof.
  unfold valid_range. split.
  - intros [Hv Hp]. split_and!; [apply Hv; set_solver|by apply (Hp 0%nat)|..].
    + intros h' Hh'. apply Hv. set_solver.
    + intros i p' h' H1 H2. by apply (Hp (S i)).
  - intros (Hv & Hp & Hvs & Hps). split.
    + intros h' [->|Hh']%elem_of_cons; [done|by apply Hvs].
    + intros [|i] p' h' H1 H2; simpl in *; [by simplify_eq|by apply (Hps i)].
Qed.

Lemma valid_range_singleton h : valid_range [h] ↔ validate_header c h = None.
Proof.
  unfold valid_range. split; [intros [Hv _]; apply Hv; set_solver|].
  intros Hv. split; [by intros h' ->%list_elem_of_singleton|]. by intros [|i] p h' H1 H2.
Qed.

(** The result of the loop, the predecessor included. *)
Lemma range_loop_spec p l :
  validate_header c p = None →
  match range_loop c p l with
  | None => valid_range (p :: l)
  | Some (e, h) =>
    ∃ pre post, l = pre ++ h :: post ∧ valid_range (p :: pre) ∧
      (validate_header c h = Some e ∨
       validate_header c h = None ∧ validate_header_against_parent c h (List.last pre p) = Some e)
  end.
Proof.
  revert p. induction l as [|h l IH]; intros p Hp; simpl; [by apply valid_range_singleton|].
  destruct (validate_header c h) as [e|] eqn:Hh; simpl.
  { exists [], l. split; [done|]. split; [by apply valid_range_singleton|by left]. }
  destruct (validate_header_against_parent c h p) as [e|] eqn:Hc; simpl.
  { exists [], l. split; [done|]. split; [by apply valid_range_singleton|by right]. }
  specialize (IH h Hh). destruct (range_loop c h l) as [[e h']|].
  - destruct IH as (pre & post & -> & Hv & He). exists (h :: pre), post. split; [done|].
    split; [by apply valid_range_cons|].
    assert (List.last (h :: pre) p = List.last pre h) as ->; [|done].
    apply last_cons.
  - by apply valid_range_cons.
Qed.
End range.

(** What every engine promises about a header and its parent. *)
Class ConsensusLinks (C : Type) `{Consensus C} : Prop :=
  linked : ∀ (c : C) h p, validate_header_against_parent c h p = None →
    h_number (sh_header h) = wrap_u64 (h_number (sh_header p) + 1) ∧ h_parent_hash (sh_header h) = sh_hash p.

Lemma hash_number_linked h p :
  validate_against_parent_hash_number h p = None ↔
  h_number (sh_header h) = wrap_u64 (h_number (sh_header p) + 1) ∧ h_parent_hash (sh_header h) = sh_hash p.
Proof. unfold validate_against_parent_hash_number. rewrite !if_None, !negb_eqb. naive_solver. Qed.

#[export] Instance eth_links `{Externals} now : ConsensusLinks EthBeaconConsensus (H := eth_consensus now).
Proof. intros c h p [Hn _]%seq_None. by apply hash_number_linked. Qed.
#[export] Instance op_links `{Externals} now : ConsensusLinks OptimismBeaconConsensus (H := op_consensus now).
Proof. intros c h p [Hn _]%seq_None. by apply hash_number_linked. Qed.

Section linked.
Context `{Consensus C} {HL : ConsensusLinks C} (c : C).

Lemma last_lookup_cons {A} (p : A) pre : (p :: pre) !! length pre = Some (List.last pre p) ∧ last (p :: pre) = Some (List.last pre p).
Proof.
  revert p. induction pre as [|x pre IH]; intros p; [done|]. rewrite last_cons. destruct (IH x) as [H1 H2]. split; [done|].
  by rewrite <-H2.
Qed.

Lemma header_range_spec l :
  match validate_header_range c l with
  | None => valid_range c l
  | Some (e, h) =>
    ∃ pre post, l = pre ++ h :: post ∧ valid_range c pre ∧
      (validate_header c h = Some e ∨
       validate_header c h = None ∧ ∃ p, last pre = Some p ∧ validate_header_against_parent c h p = Some e)
  end.
Proof.
  assert (Hnil : valid_range c []) by (split; [by intros h ?%elem_of_nil|done]).
  destruct l as [|p l]; simpl; [done|].
  destruct (validate_header c p) as [e|] eqn:Hp; simpl; [by exists [], l; auto|].
  pose proof (range_loop_spec c p l Hp) as Hs. destruct (range_loop c p l) as [[e h]|]; [|done].
  destruct Hs as (pre & post & -> & Hv & He). exists (p :: pre), post. split_and!; [done..|].
  destruct He as [He|[Hn He]]; [by left|right]. split; [done|]. exists (List.last pre p).
  split; [apply last_lookup_cons|done].
Qed.

Lemma header_range_lemma l : validate_header_range c l = None ↔ valid_range c l.
Proof.
  pose proof (header_range_spec l) as Hs. destruct (validate_header_range c l) as [[e h]|]; [|done].
  split; [done|]. intros [Hv Hp]. destruct Hs as (pre & post & -> & _ & [He|[_ (p & Hl & He)]]).
  - specialize (Hv h ltac:(set_solver)). congruence.
  - rewrite last_lookup in Hl. assert (pred (length pre) < length pre)%nat as Hlt.
    { apply lookup_lt_Some in Hl. done. }
    specialize (Hp (pred (length pre)) p h). rewrite He in Hp. discriminate Hp.
    + by rewrite lookup_app_l.
    + replace (S (pred (length pre))) with (length pre) by lia. by apply list_lookup_middle.
Qed.

(** Validation of a range of headers, for every engine: it succeeds exactly if every
    header is valid by itself and against the header before it, and otherwise it names the
    first header that is not, with the error of that header. *)
Theorem header_range_ok l :
  (validate_header_range c l = None ↔ valid_range c l) ∧
  ∀ e h, validate_header_range c l = Some (e, h) →
    ∃ pre post, l = pre ++ h :: post ∧ valid_range c pre ∧
      (validate_header c h = Some e ∨
       validate_header c h = None ∧ ∃ p, last pre = Some p ∧ validate_header_against_parent c h p = Some e).
Proof.
  split; [apply header_range_lemma|]. intros e h He. pose proof (header_range_spec l) as Hs. by rewrite He in Hs.
Qed.

(** The numbers of an accepted range are consecutive. *)
Lemma range_numbers l i f h :
  valid_range c l → head l = Some f → l !! i = Some h →
  0 ≤ h_number (sh_header f) → h_number (sh_header f) + Z.of_nat i < U64 →
  h_number (sh_header h) = h_number (sh_header f) + Z.of_nat i.
Proof.
  intros [_ Hp] Hf. revert h. induction i as [|i IH]; intros h Hh H0 Hb.
  - destruct l; [done|]. simpl in *. simplify_eq. lia.
  - destruct (lookup_lt_is_Some_2 l i) as [p Hi]; [apply lookup_lt_Some in Hh; lia|].
    destruct (linked c h p (Hp i p h Hi Hh)) as [Hn _]. rewrite Hn, (IH p) by (done || lia).
    rewrite wrap_u64_id; unfold is_u64; lia.
Qed.

(** Going back from equal last headers. *)
Lemma range_unique l l' :
  valid_range c l → valid_range c l' → length l = length l' →
  (∀ x y, x ∈ l → y ∈ l' → sh_hash x = sh_hash y → x = y) →
  (∀ h h', last l = Some h → last l' = Some h' → sh_hash h = sh_hash h') → l = l'.
Proof.
  intros [_ Hp] [_ Hp'] Hlen Hinj Hlast. apply list_eq_same_length with (length l); [done..|].
  assert (Hk : ∀ k i x y, (i + S k)%nat = length l → l !! i = Some x → l' !! i = Some y → x = y);
    [|intros i x y Hi Hx Hy; by apply (Hk (length l - S i)%nat i); [lia|..]].
  induction k as [|k IH]; intros i x y Hi Hx Hy.
  - apply Hinj; [by eapply list_elem_of_lookup_2..|]. apply Hlast; rewrite last_lookup.
    + by replace (pred (length l)) with i by lia.
    + by replace (pred (length l')) with i by lia.
  - destruct (lookup_lt_is_Some_2 l (S i)) as [x1 Hx1]; [lia|].
    destruct (lookup_lt_is_Some_2 l' (S i)) as [y1 Hy1]; [lia|].
    assert (x1 = y1) as <- by (apply (IH (S i)); [lia|done..]).
    destruct (linked c x1 x (Hp i x x1 Hx Hx1)) as [_ H1]. destruct (linked c x1 y (Hp' i y x1 Hy Hy1)) as [_ H2].
    apply Hinj; [by eapply list_elem_of_lookup_2..|congruence].
Qed.

(** A range that is accepted is a hash-linked chain: its numbers count up by one and
    every header names the hash of the one before it; and as long as hashes do not collide,
    two accepted ranges of the same length that end in the same hash are the same. *)
Theorem range_linked l f :
  validate_header_range c l = None → head l = Some f →
  0 ≤ h_number (sh_header f) → h_number (sh_header f) + Z.of_nat (length l) ≤ U64 →
  (∀ i x, l !! i = Some x → h_number (sh_header x) = h_number (sh_header f) + Z.of_nat i) ∧
  (∀ i x y, l !! i = Some x → l !! S i = Some y → h_parent_hash (sh_header y) = sh_hash x) ∧
  (∀ l', validate_header_range c l' = None → length l = length l' →
     (∀ x y, x ∈ l → y ∈ l' → sh_hash x = sh_hash y → x = y) →
     sh_hash <$> last l = sh_hash <$> last l' → l = l').
Proof.
  intros Hv%(header_range_lemma l) Hf H0 Hb. split_and!.
  - intros i x Hi. eapply range_numbers; [done..|]. apply lookup_lt_Some in Hi. lia.
  - intros i x y Hx Hy. apply (linked c y x). by apply (proj2 Hv i).
  - intros l' Hv'%(header_range_lemma l') Hlen Hinj Hlast. apply range_unique; [done..|].
    intros h h' Hh Hh'. rewrite Hh, Hh' in Hlast. by simplify_eq/=.
Qed.
End linked.

(** ** The rules of the Ethereum engine *)
Section eth.
Context `{Externals} (now : Z).
Implicit Types (c : EthBeaconConsensus) (s : ConsensusSpec).
#[local] Instance eth_now : Consensus EthBeaconConsensus := eth_consensus now.

(** The header by itself. *)
Record eth_header_valid s (h : Header) : Prop := {
  ev_gas : h_gas_used h ≤ h_gas_limit h;
  ev_base_fee : is_fork_active_at_block "London" (h_number h) (es_hardforks s) = true → is_Some (h_base_fee_per_gas h);
  ev_withdrawals :
    is_Some (h_withdrawals_root h) ↔ is_shanghai_active_at_timestamp (h_timestamp h) (es_hardforks s) = true;
  ev_blobs : is_cancun_active_at_timestamp (h_timestamp h) (es_hardforks s) = true →
    ∃ used excess, h_blob_gas_used h = Some used ∧ h_excess_blob_gas h = Some excess ∧
      is_Some (h_parent_beacon_block_root h) ∧ used ≤ MAX_DATA_GAS_PER_BLOCK ∧
      used `mod` DATA_GAS_PER_BLOB = 0 ∧ excess `mod` DATA_GAS_PER_BLOB = 0;
  ev_no_blobs : is_cancun_active_at_timestamp (h_timestamp h) (es_hardforks s) = false →
    h_blob_gas_used h = None ∧ h_excess_blob_gas h = None ∧ h_parent_beacon_block_root h = None;
  ev_requests : is_Some (h_requests_root h) ↔ is_prague_active_at_timestamp (h_timestamp h) (es_hardforks s) = true;
}.

(** The limit a header is compared with: at London it is scaled up. *)
Definition parent_limit s (h p : Header) : Z :=
  if transitions_at_block (hf_fork "London" (es_hardforks s)) (h_number h)
  then wrap_u64 (h_gas_limit p * wrap_u64 (elasticity_multiplier (base_fee_params_at_timestamp (h_timestamp h) s)))
  else h_gas_limit p.

(** The header against its parent. *)
Record eth_child_valid s (h p : SealedHeader) : Prop := {
  ec_number : h_number (sh_header h) = wrap_u64 (h_number (sh_header p) + 1);
  ec_parent : h_parent_hash (sh_header h) = sh_hash p;
  ec_time : h_timestamp (sh_header p) < h_timestamp (sh_header h);
  ec_limit : Z.abs (h_gas_limit (sh_header h) - parent_limit s (sh_header h) (sh_header p)) <
             parent_limit s (sh_header h) (sh_header p) / 1024;
  ec_minimum : h_gas_limit (sh_header h) ≤ parent_limit s (sh_header h) (sh_header p) →
               MINIMUM_GAS_LIMIT ≤ h_gas_limit (sh_header h);
  ec_base_fee : active_at_block (hf_fork "London" (es_hardforks s)) (h_number (sh_header h)) = true →
    is_Some (h_base_fee_per_gas (sh_header h)) ∧
    h_base_fee_per_gas (sh_header h) =
      (if transitions_at_block (hf_fork "London" (es_hardforks s)) (h_number (sh_header h))
       then Some EIP1559_INITIAL_BASE_FEE
       else next_block_base_fee calc_next_block_base_fee
              (base_fee_params_at_timestamp (h_timestamp (sh_header h)) s) (sh_header p));
  ec_blobs : is_cancun_active_at_timestamp (h_timestamp (sh_header h)) (es_hardforks s) = true →
    is_Some (h_blob_gas_used (sh_header h)) ∧
    h_excess_blob_gas (sh_header h) =
      Some (calculate_excess_blob_gas (default 0 (h_excess_blob_gas (sh_header p)))
              (default 0 (h_blob_gas_used (sh_header p))));
}.

Lemma header_gas_spec h : validate_header_gas h = None ↔ h_gas_used (sh_header h) ≤ h_gas_limit (sh_header h).
Proof. unfold validate_header_gas. rewrite if_None, Z.ltb_ge. naive_solver. Qed.
Lemma header_base_fee_spec h s :
  validate_header_base_fee h s = None ↔
  (is_fork_active_at_block "London" (h_number (sh_header h)) (es_hardforks s) = true →
   is_Some (h_base_fee_per_gas (sh_header h))).
Proof.
  unfold validate_header_base_fee. rewrite if_None, andb_false_iff, negb_bool_decide.
  destruct (is_fork_active_at_block _ _ _); naive_solver.
Qed.
Lemma standalone_4844_spec h :
  validate_4844_header_standalone h = None ↔
  ∃ used excess, h_blob_gas_used (sh_header h) = Some used ∧ h_excess_blob_gas (sh_header h) = Some excess ∧
    is_Some (h_parent_beacon_block_root (sh_header h)) ∧ used ≤ MAX_DATA_GAS_PER_BLOCK ∧
    used `mod` DATA_GAS_PER_BLOB = 0 ∧ excess `mod` DATA_GAS_PER_BLOB = 0.
Proof.
  unfold validate_4844_header_standalone. destruct (h_blob_gas_used _) as [used|]; [|naive_solver].
  destruct (h_excess_blob_gas _) as [excess|]; [|naive_solver].
  rewrite !if_None, negb_bool_decide, Z.ltb_ge, !negb_eqb. naive_solver.
Qed.
Lemma hash_parent_timestamp_spec h p :
  validate_against_parent_timestamp h p = None ↔ h_timestamp (sh_header p) < h_timestamp (sh_header h).
Proof. unfold validate_against_parent_timestamp, is_timestamp_in_past. rewrite if_None, Z.leb_gt. naive_solver. Qed.
Lemma parent_gas_limit_spec c h p :
  validate_against_parent_gas_limit c h p = None ↔
  Z.abs (h_gas_limit (sh_header h) - parent_limit (eth_chain_spec c) (sh_header h) (sh_header p)) <
    parent_limit (eth_chain_spec c) (sh_header h) (sh_header p) / 1024 ∧
  (h_gas_limit (sh_header h) ≤ parent_limit (eth_chain_spec c) (sh_header h) (sh_header p) →
   MINIMUM_GAS_LIMIT ≤ h_gas_limit (sh_header h)).
Proof.
  unfold validate_against_parent_gas_limit. fold (parent_limit (eth_chain_spec c) (sh_header h) (sh_header p)).
  destruct (Z.ltb_spec (parent_limit (eth_chain_spec c) (sh_header h) (sh_header p)) (h_gas_limit (sh_header h))).
  - rewrite if_None, Z.leb_gt. split; [|naive_solver lia]. intros [Hlt _]. split; lia.
  - rewrite !if_None, Z.leb_gt, Z.ltb_ge. split; [|intros [Hl Hm]; split_and!; [lia|by apply Hm|done]].
    intros (Hlt & Hm & _). split; lia.
Qed.
Lemma parent_base_fee_spec h p s :
  validate_against_parent_eip1559_base_fee h p s = None ↔
  (active_at_block (hf_fork "London" (es_hardforks s)) (h_number (sh_header h)) = true →
    is_Some (h_base_fee_per_gas (sh_header h)) ∧
    h_base_fee_per_gas (sh_header h) =
      (if transitions_at_block (hf_fork "London" (es_hardforks s)) (h_number (sh_header h))
       then Some EIP1559_INITIAL_BASE_FEE
       else next_block_base_fee calc_next_block_base_fee
              (base_fee_params_at_timestamp (h_timestamp (sh_header h)) s) (sh_header p))).
Proof.
  unfold validate_against_parent_eip1559_base_fee. rewrite when_None.
  destruct (h_base_fee_per_gas (sh_header h)) as [b|]; cycle 1.
  { split; intros Hx Hl; specialize (Hx Hl); [done|]. by destruct Hx as [[? ?] _]. }
  destruct (if transitions_at_block _ _ then _ else _) as [e|].
  - rewrite if_None, negb_eqb. split; intros Hx Hl; specialize (Hx Hl).
    + destruct Hx as [-> _]. eauto.
    + destruct Hx as [_ [= ->]]. done.
  - split; intros Hx Hl; specialize (Hx Hl); [done|]. by destruct Hx.
Qed.
Lemma parent_4844_spec h p :
  validate_against_parent_4844 h p = None ↔
  is_Some (h_blob_gas_used (sh_header h)) ∧
  h_excess_blob_gas (sh_header h) =
    Some (calculate_excess_blob_gas (default 0 (h_excess_blob_gas (sh_header p)))
            (default 0 (h_blob_gas_used (sh_header p)))).
Proof.
  unfold validate_against_parent_4844. rewrite if_None, negb_bool_decide.
  destruct (h_excess_blob_gas (sh_header h)); [|naive_solver]. rewrite if_None, negb_eqb. naive_solver.
Qed.

Lemma presence_spec {A} (o : option A) (b : bool) (missing unexpected : ConsensusError) :
  (if b && negb (bool_decide (is_Some o)) then Some missing
   else if negb b && bool_decide (is_Some o) then Some unexpected else None) = None ↔ (is_Some o ↔ b = true).
Proof. destruct o, b; simpl; split; naive_solver. Qed.
Lemma presence_spec' {A} (o : option A) (b : bool) (missing unexpected : ConsensusError) :
  (if b then if bool_decide (is_Some o) then None else Some missing
   else if bool_decide (is_Some o) then Some unexpected else None) = None ↔ (is_Some o ↔ b = true).
Proof. destruct o, b; simpl; split; naive_solver. Qed.
Lemma absent_spec {A B D} (o1 : option A) (o2 : option B) (o3 : option D) (e1 e2 e3 : ConsensusError) :
  (if bool_decide (is_Some o1) then Some e1 else if bool_decide (is_Some o2) then Some e2
   else if bool_decide (is_Some o3) then Some e3 else None) = None ↔ o1 = None ∧ o2 = None ∧ o3 = None.
Proof. destruct o1, o2, o3; simpl; split; naive_solver. Qed.

Lemma eth_header_spec c h : eth_validate_header c h = None ↔ eth_header_valid (eth_chain_spec c) (sh_header h).
Proof.
  unfold eth_validate_header.
  rewrite !seq_None, header_gas_spec, header_base_fee_spec, presence_spec, presence_spec'.
  assert (Hb : (if is_cancun_active_at_timestamp (h_timestamp (sh_header h)) (es_hardforks (eth_chain_spec c))
           then validate_4844_header_standalone h
           else if bool_decide (is_Some (h_blob_gas_used (sh_header h))) then Some BlobGasUsedUnexpected
           else if bool_decide (is_Some (h_excess_blob_gas (sh_header h))) then Some ExcessBlobGasUnexpected
           else if bool_decide (is_Some (h_parent_beacon_block_root (sh_header h)))
                then Some ParentBeaconBlockRootUnexpected else None) = None ↔
    (is_cancun_active_at_timestamp (h_timestamp (sh_header h)) (es_hardforks (eth_chain_spec c)) = true →
     validate_4844_header_standalone h = None) ∧
    (is_cancun_active_at_timestamp (h_timestamp (sh_header h)) (es_hardforks (eth_chain_spec c)) = false →
     h_blob_gas_used (sh_header h) = None ∧ h_excess_blob_gas (sh_header h) = None ∧
     h_parent_beacon_block_root (sh_header h) = None)).
  { destruct (is_cancun_active_at_timestamp _ _); [naive_solver|]. rewrite absent_spec. naive_solver. }
  rewrite Hb, standalone_4844_spec. split.
  - intros (? & ? & ? & [? ?] & ?). by split.
  - intros []. by split_and!.
Qed.

Lemma eth_child_spec c h p :
  eth_validate_header_against_parent c h p = None ↔ eth_child_valid (eth_chain_spec c) h p.
Proof.
  unfold eth_validate_header_against_parent.
  rewrite !seq_None, hash_number_linked, hash_parent_timestamp_spec, parent_gas_limit_spec, parent_base_fee_spec,
    when_None, parent_4844_spec.
  split.
  - intros ([? ?] & ? & [? ?] & ? & ?). by split.
  - intros []. by split_and!.
Qed.

(** C30. The Ethereum engine: a header passes exactly if it keeps the rules for its fork: the gas
    used is within the limit; there is a base fee if London is active (before, there may be
    one); the withdrawals and the requests are there exactly if Shanghai and Prague are active; and
    the blob fields, with their bounds, exactly if Cancun is.  It passes against its parent exactly
    if it continues it, is later, and: its gas limit differs from that of the parent, which is
    multiplied by the elasticity at the block of London, by less than a 1024th of that, and is at
    least 5000 unless it is larger than that; from London on it has the base fee that follows
    from the parent, or the initial one at London; and from Cancun on the excess blob gas that
    follows from the parent. *)
Theorem eth_headers_spec c h p :
  (validate_header c h = None ↔ eth_header_valid (eth_chain_spec c) (sh_header h)) ∧
  (validate_header_against_parent c h p = None ↔ eth_child_valid (eth_chain_spec c) h p).
Proof. split; [apply eth_header_spec|apply eth_child_spec]. Qed.

(** One more header keeps the bounds of the chain. *)
Lemma child_bounds s h p :
  eth_child_valid s h p →
  transitions_at_block (hf_fork "London" (es_hardforks s)) (h_number (sh_header h)) = false →
  MINIMUM_GAS_LIMIT ≤ h_gas_limit (sh_header p) →
  MINIMUM_GAS_LIMIT ≤ h_gas_limit (sh_header h) ∧ h_timestamp (sh_header p) + 1 ≤ h_timestamp (sh_header h).
Proof.
  intros Hc Ht Hm. destruct Hc as [_ _ Htime Hl Hmin _ _]. unfold parent_limit in *. rewrite Ht in *.
  split; [|lia]. destruct (Z.le_gt_cases (h_gas_limit (sh_header h)) (h_gas_limit (sh_header p))); [by apply Hmin|lia].
Qed.

(** A range of headers that the Ethereum engine accepts, London aside: time moves on by
    at least a second with every header, the gas limit never falls below the minimum once it
    has reached it, and no header uses more gas than its limit. *)
Theorem eth_chain_bounds c l f i h :
  validate_header_range c l = None → head l = Some f → MINIMUM_GAS_LIMIT ≤ h_gas_limit (sh_header f) →
  (∀ x, x ∈ l → transitions_at_block (hf_fork "London" (es_hardforks (eth_chain_spec c))) (h_number (sh_header x)) = false) →
  l !! i = Some h →
  h_timestamp (sh_header f) + Z.of_nat i ≤ h_timestamp (sh_header h) ∧
  MINIMUM_GAS_LIMIT ≤ h_gas_limit (sh_header h) ∧ h_gas_used (sh_header h) ≤ h_gas_limit (sh_header h).
Proof.
  intros [Hv Hp]%header_range_lemma Hf Hm Ht Hi.
  assert (h_timestamp (sh_header f) + Z.of_nat i ≤ h_timestamp (sh_header h) ∧
          MINIMUM_GAS_LIMIT ≤ h_gas_limit (sh_header h)) as [H1 H2].
  { revert h Hi. induction i as [|i IH]; intros h Hi.
    - destruct l; [done|]. simpl in *. simplify_eq. lia.
    - destruct (lookup_lt_is_Some_2 l i) as [p Hip]; [apply lookup_lt_Some in Hi; lia|].
      destruct (IH p Hip) as [IH1 IH2].
      destruct (child_bounds (eth_chain_spec c) h p) as [H3 H4]; [|by apply Ht; eapply list_elem_of_lookup_2|done|lia].
      apply eth_child_spec. by apply (Hp i). }
  split_and!; [done..|]. apply list_elem_of_lookup_2 in Hi.
  apply (ev_gas (eth_chain_spec c)), eth_header_spec. by apply Hv.
Qed.
End eth.

(** ** Blocks *)
Section blocks.
Context `{Externals} (now : Z).

(** The header commits to the body. *)
Record body_committed (s : ConsensusSpec) (b : SealedBlock) : Prop := {
  bc_ommers : h_ommers_hash (sh_header (sb_header b)) = calculate_ommers_root (sb_ommers b);
  bc_transactions : h_transactions_root (sh_header (sb_header b)) = calculate_transaction_root (sb_body b);
  bc_withdrawals : is_shanghai_active_at_timestamp (h_timestamp (sh_header (sb_header b))) (es_hardforks s) = true →
    ∃ l, sb_withdrawals b = Some l ∧ h_withdrawals_root (sh_header (sb_header b)) = Some (calculate_withdrawals_root l);
  bc_blob_gas : is_cancun_active_at_timestamp (h_timestamp (sh_header (sb_header b))) (es_hardforks s) = true →
    h_blob_gas_used (sh_header (sb_header b)) = Some (block_blob_gas_used b);
  bc_requests : is_prague_active_at_timestamp (h_timestamp (sh_header (sb_header b))) (es_hardforks s) = true →
    ∃ l, sb_requests b = Some l ∧ h_requests_root (sh_header (sb_header b)) = Some (calculate_requests_root l);
}.

Lemma check_withdrawals_spec b :
  check_withdrawals b = None ↔
  ∃ l, sb_withdrawals b = Some l ∧ h_withdrawals_root (sh_header (sb_header b)) = Some (calculate_withdrawals_root l).
Proof.
  unfold check_withdrawals. destruct (sb_withdrawals b); [|naive_solver].
  destruct (h_withdrawals_root _); [|naive_solver]. rewrite if_None, negb_eqb. naive_solver.
Qed.
Lemma check_requests_spec b :
  check_requests b = None ↔
  ∃ l, sb_requests b = Some l ∧ h_requests_root (sh_header (sb_header b)) = Some (calculate_requests_root l).
Proof.
  unfold check_requests. destruct (sb_requests b); [|naive_solver].
  destruct (h_requests_root _); [|naive_solver]. rewrite if_None, negb_eqb. naive_solver.
Qed.
Lemma check_blob_gas_spec b :
  check_blob_gas b = None ↔ h_blob_gas_used (sh_header (sb_header b)) = Some (block_blob_gas_used b).
Proof.
  unfold check_blob_gas. destruct (h_blob_gas_used _); [|naive_solver]. rewrite if_None, negb_eqb. naive_solver.
Qed.
Lemma pre_execution_spec b s : block_pre_execution b s = None ↔ body_committed s b.
Proof.
  unfold block_pre_execution.
  rewrite !if_None, !negb_eqb, !seq_None, !when_None, check_withdrawals_spec, check_blob_gas_spec, check_requests_spec.
  split; [intros (? & ? & ? & ? & ?); by split|]. intros []. by split_and!.
Qed.

Lemma receipts_compared r b r' b' : compare_receipts_root_and_logs_bloom r b r' b' = None ↔ r' = r ∧ b' = b.
Proof. unfold compare_receipts_root_and_logs_bloom. rewrite !if_None, !negb_eqb. naive_solver. Qed.
Lemma gas_used_spec h l :
  check_gas_used h l = None ↔ h_gas_used h = default 0 (rc_cumulative_gas_used <$> last l).
Proof. unfold check_gas_used. rewrite if_None, negb_eqb. naive_solver. Qed.
Lemma requests_spec o (l : list Z) :
  match o with
  | None => Some RequestsRootMissing
  | Some root =>
    if negb (calculate_requests_root l =? root)
    then Some (BodyRequestsRootDiff (mkGotExpected (calculate_requests_root l) root)) else None
  end = None ↔ o = Some (calculate_requests_root l).
Proof. destruct o; [|naive_solver]. rewrite if_None, negb_eqb. naive_solver. Qed.

(** C31. Blocks.  Before execution both engines accept exactly the blocks whose header
    commits to the body: ommers, transactions, and from their forks on withdrawals, blob gas
    and requests.  After execution they accept exactly the results the header commits to:
    the gas used by the last receipt, from Byzantium on the receipts with their bloom
    filter, and for Ethereum from Prague on the requests.  On the OP stack the receipts are
    hashed without deposit nonces between Regolith and Canyon. *)
Theorem block_commitments ce co b h receipts requests :
  let se := eth_chain_spec ce in let so := op_chain_spec co in
  (validate_block_pre_execution (Consensus := eth_consensus now) ce b = None ↔ body_committed se b) ∧
  (validate_block_pre_execution (Consensus := op_consensus now) co b = None ↔ body_committed so b) ∧
  (validate_block_post_execution (Consensus := eth_consensus now) ce h receipts requests = None ↔
     h_gas_used h = default 0 (rc_cumulative_gas_used <$> last receipts) ∧
     (active_at_block (hf_fork "Byzantium" (es_hardforks se)) (h_number h) = true →
      h_receipts_root h = receipt_trie_root receipts ∧ h_logs_bloom h = receipts_bloom receipts) ∧
     (is_prague_active_at_timestamp (h_timestamp h) (es_hardforks se) = true →
      h_requests_root h = Some (calculate_requests_root requests))) ∧
  (validate_block_post_execution (Consensus := op_consensus now) co h receipts requests = None ↔
     h_gas_used h = default 0 (rc_cumulative_gas_used <$> last receipts) ∧
     (active_at_block (hf_fork "Byzantium" (es_hardforks so)) (h_number h) = true →
      h_receipts_root h =
        receipt_trie_root
          (if is_fork_active_at_timestamp "Regolith" (h_timestamp h) (es_hardforks so) &&
              negb (is_fork_active_at_timestamp "Canyon" (h_timestamp h) (es_hardforks so))
           then strip_deposit_nonce <$> receipts else receipts) ∧
      h_logs_bloom h = receipts_bloom receipts)).
Proof.
  intros se so. split_and!; [apply pre_execution_spec..| |]; simpl.
  - unfold eth_validate_block_post_execution, eth_verify_receipts.
    rewrite !seq_None, gas_used_spec, !when_None, receipts_compared, requests_spec. done.
  - unfold op_validate_block_post_execution, op_verify_receipts, calculate_receipt_root_optimism.
    rewrite !seq_None, gas_used_spec, when_None, receipts_compared. fold so. case_match; tauto.
Qed.
End blocks.

(** ** A short chain *)
Module Dev.
(** The formulas of EIP-1559 and EIP-4844, with hashes that read a single number. *)
Definition next_base_fee (gas_used gas_limit base_fee : Z) (p : BaseFeeParams) : Z :=
  let target := gas_limit / elasticity_multiplier p in
  if gas_used =? target then base_fee
  else if target <? gas_used
  then base_fee + Z.max 1 (base_fee * (gas_used - target) / target / max_change_denominator p)
  else Z.max 0 (base_fee - base_fee * (target - gas_used) / target / max_change_denominator p).
#[export] Instance externals : Externals := {
  calc_next_block_base_fee := next_base_fee;
  calculate_excess_blob_gas excess used := Z.max 0 (excess + used - 393216);
  DATA_GAS_PER_BLOB := 131072;
  MAX_DATA_GAS_PER_BLOCK := 786432;
  ethereum_base_fee_params := mkBaseFeeParams 8 2;
  hash_ommers l := Z.of_nat (length l);
  calculate_transaction_root l := Z.of_nat (length l);
  calculate_withdrawals_root l := Z.of_nat (length l);
  calculate_requests_root l := Z.of_nat (length l);
  receipt_trie_root l := Z.of_nat (length l);
  m3_2048 bloom l := Z.lor bloom (Z.of_nat (length l));
}.

Definition spec : ConsensusSpec :=
  mkConsensusSpec (ChainHardforks_new
    [("London", Block 0); ("Paris", TTD None 0); ("Shanghai", Timestamp 0); ("Cancun", Timestamp 0);
     ("Bedrock", Block 0); ("Regolith", Timestamp 0)]%string) (Constant (mkBaseFeeParams 8 2)).
Definition eth : EthBeaconConsensus := mkEthBeaconConsensus spec.

Definition dev_header (number parent timestamp gas_limit gas_used base_fee : Z) : Header :=
  mkHeader parent EMPTY_OMMER_ROOT_HASH 0 0 0 0 (Some 0) 0 0 number gas_limit gas_used timestamp 0 0
    (Some base_fee) (Some 0) (Some 0) (Some 0) None [].
Definition chain : list SealedHeader :=
  [mkSealedHeader 101 (dev_header 1 100 10 30000000 15000000 1000);
   mkSealedHeader 102 (dev_header 2 101 12 30001000 30001000 1000);
   mkSealedHeader 103 (dev_header 3 102 24 30000500 0 1125)].

#[local] Instance dev_consensus : Consensus EthBeaconConsensus := eth_consensus 0.

Example chain_accepted : validate_header_range eth chain = None.
Proof. by vm_compute. Qed.
(** A header with the number of its parent is named with its error. *)
Example chain_rejected :
  validate_header_range eth (chain ++ [mkSealedHeader 104 (dev_header 3 103 30 30000500 0 985)]) =
    Some (ParentBlockNumberMismatch 3 3, mkSealedHeader 104 (dev_header 3 103 30 30000500 0 985)).
Proof. by vm_compute. Qed.

Lemma range_linked_witness :
  (∀ i x, chain !! i = Some x → h_number (sh_header x) = 1 + Z.of_nat i) ∧
  (∀ i x y, chain !! i = Some x → chain !! S i = Some y → h_parent_hash (sh_header y) = sh_hash x) ∧
  (∀ l', validate_header_range eth l' = None → length chain = length l' →
     (∀ x y, x ∈ chain → y ∈ l' → sh_hash x = sh_hash y → x = y) →
     sh_hash <$> last chain = sh_hash <$> last l' → chain = l').
Proof.
  apply (range_linked (HL := eth_links 0) eth chain (mkSealedHeader 101 (dev_header 1 100 10 30000000 15000000 1000)));
    [by vm_compute|done|done|by vm_compute].
Defined.

Lemma eth_chain_bounds_witness : 10 + Z.of_nat 2 ≤ 24 ∧ MINIMUM_GAS_LIMIT ≤ 30000500 ∧ 0 ≤ 30000500.
Proof.
  apply (eth_chain_bounds 0 eth chain (mkSealedHeader 101 (dev_header 1 100 10 30000000 15000000 1000)) 2
    (mkSealedHeader 103 (dev_header 3 102 24 30000500 0 1125))); [by vm_compute|done|done| |done].
  apply Forall_forall. repeat (constructor; [by vm_compute|]). constructor.
Defined.

(** The minimum of the gas limit is only checked when the limit does not rise. *)
Theorem gas_limit_minimum_skipped :
  validate_against_parent_gas_limit eth (mkSealedHeader 2 (dev_header 2 1 12 4501 0 1000))
    (mkSealedHeader 1 (dev_header 1 0 10 4500 0 1000)) = None ∧ 4501 < MINIMUM_GAS_LIMIT.
Proof. by vm_compute. Qed.
End Dev.
