(* ===== verification/Links.v ===== *)
(** * Chains of blocks

    Blocks stored by their hash form chains through the hashes of their parents.  The engine
    follows these chains in the buffer of disconnected blocks, in the tree of executed blocks
    and in the memory of the canonical chain; this file holds what the three share.

    A loop that follows parents ends because no block is its own ancestor: the hash of a
    block commits to that of its parent.  The model does not compute hashes; [linked] states
    what follows from it, that some ranking of the hashes grows from parent to child. *)

From stdpp Require Import prelude gmap list.
From S2P Require Import Prelude.
From S2P Require Import Header.

(** [BlockNumHash]: number and hash. *)
Definition BlockNumHash : Type := Z * Z.

Section links.
Context {B : Type} (parent : B → Z).
Implicit Types (m : gmap Z B) (l : list B) (h r : Z).

(** [path m h l r]: from [h] back, the blocks are [l], the newest first, and the parent of the
    last one is [r]. *)
Inductive path m : Z → list B → Z → Prop :=
| path_nil h : path m h [] h
| path_cons h b l r : m !! h = Some b → path m (parent b) l r → path m h (b :: l) r.

(** [while let Some(block) = m.get(&hash) { blocks.push(block); hash = block.parent_hash }]. *)
Fixpoint ancestors (fuel : nat) m h : outcome (list B * Z) :=
  match m !! h with
  | None => Done ([], h)
  | Some b =>
    match fuel with
    | O => NoFuel
    | S fuel => '(l, r) ← ancestors fuel m (parent b); Done (b :: l, r)
    end
  end.

Definition linked (rank : Z → nat) m : Prop := ∀ h b, m !! h = Some b → (rank (parent b) < rank h)%nat.

Lemma linked_insert rank m h b : linked rank m → (rank (parent b) < rank h)%nat → linked rank (<[h := b]> m).
Proof. intros Hm Hb h' b' [[<- <-]|[_ H]]%lookup_insert_Some; [done|by apply Hm]. Qed.
Lemma linked_subseteq rank m m' : m' ⊆ m → linked rank m → linked rank m'.
Proof. intros Hs Hm h b Hb. apply Hm. by eapply lookup_weaken. Qed.
Lemma linked_delete rank m h : linked rank m → linked rank (delete h m).
Proof. apply linked_subseteq, delete_subseteq. Qed.

Lemma path_app m h l1 r1 l2 r2 : path m h l1 r1 → path m r1 l2 r2 → path m h (l1 ++ l2) r2.
Proof. induction 1; simpl; [done|]. intros. by econstructor; eauto. Qed.
Lemma path_app_inv m h l1 l2 r : path m h (l1 ++ l2) r → ∃ r1, path m h l1 r1 ∧ path m r1 l2 r.
Proof.
  revert h. induction l1 as [|b l1 IH]; intros h Hp; simpl in *; [by exists h; split; [constructor|]|].
  inversion_clear Hp as [|? ? ? ? Hb Hp']. destruct (IH _ Hp') as (r1 & H1 & H2). exists r1. split; [by econstructor|done].
Qed.
Lemma path_single m h b : m !! h = Some b → path m h [b] (parent b).
Proof. intros. by econstructor; [|constructor]. Qed.
Lemma path_snoc m h l r b : path m h l r → m !! r = Some b → path m h (l ++ [b]) (parent b).
Proof. intros Hp Hb. eapply path_app; [done|by apply path_single]. Qed.
Lemma path_last m h l r b : path m h l r → last l = Some b → r = parent b.
Proof.
  induction 1 as [|h b' l r Hb Hp IH]; simpl; [done|]. intros Hl. destruct l as [|c l]; [|by apply IH].
  inversion Hp; subst. by injection Hl as ->.
Qed.
Lemma path_weaken m m' h l r : m ⊆ m' → path m h l r → path m' h l r.
Proof. intros Hs. induction 1; econstructor; eauto. by eapply lookup_weaken. Qed.

Lemma path_rank rank m h l r : linked rank m → path m h l r → (rank r + length l ≤ rank h)%nat.
Proof.
  intros Hm. induction 1 as [|h b l r Hb Hp IH]; simpl; [lia|]. specialize (Hm _ _ Hb). lia.
Qed.
(** A block is not its own ancestor. *)
Lemma path_acyclic rank m h l : linked rank m → path m h l h → l = [].
Proof. intros Hm Hp%(path_rank rank) ; [|done]. destruct l; simpl in *; [done|lia]. Qed.
Lemma path_delete rank m h l r k :
  linked rank m → (rank h < rank k)%nat → path m h l r → path (delete k m) h l r.
Proof.
  intros Hm Hk. induction 1 as [|h b l r Hb Hp IH]; [constructor|]. econstructor.
  - rewrite lookup_delete_ne; [done|]. intros ->. lia.
  - apply IH. specialize (Hm _ _ Hb). lia.
Qed.
Lemma path_length rank m h l r : linked rank m → path m h l r → (length l ≤ size m)%nat.
Proof.
  revert m h. induction l as [|b l IH]; intros m h Hm Hp; simpl; [lia|].
  inversion_clear Hp as [|? ? ? ? Hb Hp'].
  assert (length l ≤ size (delete h m))%nat.
  { apply (IH _ (parent b)); [by apply linked_delete|]. by apply (path_delete rank); [|apply Hm|]. }
  rewrite map_size_delete_Some in H by eauto. assert (size m ≠ 0)%nat; [|lia].
  by eapply map_size_non_empty_iff; intros ->.
Qed.

(** The loop ends. *)
Lemma ancestors_cases fuel m h :
  (∃ l r, ancestors fuel m h = Done (l, r) ∧ path m h l r ∧ m !! r = None) ∨
  (∃ l r, path m h l r ∧ length l = S fuel).
Proof.
  revert h. induction fuel as [|fuel IH]; intros h; simpl; destruct (m !! h) as [b|] eqn:Hb;
    try (left; by exists [], h; split_and!; [|constructor|]).
  - right. exists [b], (parent b). split; [by apply path_single|done].
  - destruct (IH (parent b)) as [(l & r & -> & Hp & Hr)|(l & r & Hp & Hl)].
    + left. exists (b :: l), r. split_and!; [done|by econstructor|done].
    + right. exists (b :: l), r. split; [by econstructor|simpl; lia].
Qed.
Lemma ancestors_done rank m h :
  linked rank m → ∃ l r, ancestors (size m) m h = Done (l, r) ∧ path m h l r ∧ m !! r = None.
Proof.
  intros Hm. destruct (ancestors_cases (size m) m h) as [H|(l & r & Hp & Hl)]; [done|].
  pose proof (path_length rank _ _ _ _ Hm Hp). lia.
Qed.
Lemma ancestors_path fuel m h l r : ancestors fuel m h = Done (l, r) → path m h l r ∧ m !! r = None.
Proof.
  revert h l. induction fuel as [|fuel IH]; intros h l; simpl; destruct (m !! h) as [b|] eqn:Hb; intros H;
    try done; try (by injection H as <- <-; split; [constructor|]).
  apply bind_Done_inv in H as ([l' r'] & H1 & H2). injection H2 as <- <-.
  destruct (IH _ _ H1) as [Hp Hr]. split; [by econstructor|done].
Qed.

(** Of two chains from the same block, one continues the other. *)
Lemma path_compare m h l1 r1 l2 r2 :
  path m h l1 r1 → path m h l2 r2 → (∃ l, l2 = l1 ++ l ∧ path m r1 l r2) ∨ (∃ l, l1 = l2 ++ l ∧ path m r2 l r1).
Proof.
  intros H1. revert l2. induction H1 as [h|h b l1 r1 Hb H1 IH]; intros l2 H2; [by left; exists l2|].
  destruct H2 as [h|h b' l2 r2 Hb' H2]; [by right; exists (b :: l1); split; [|econstructor]|].
  assert (b' = b) as -> by congruence. destruct (IH _ H2) as [(l & -> & ?)|(l & -> & ?)]; [left|right]; by exists l.
Qed.
Lemma path_end_unique m h l1 r1 l2 r2 :
  path m h l1 r1 → path m h l2 r2 → m !! r1 = None → m !! r2 = None → l1 = l2 ∧ r1 = r2.
Proof.
  intros H1 H2 Hr1 Hr2. destruct (path_compare _ _ _ _ _ _ H1 H2) as [(l & -> & Hl)|(l & -> & Hl)];
    inversion Hl; subst; try congruence; by rewrite app_nil_r.
Qed.
Lemma path_same_length m h l1 r1 l2 r2 :
  path m h l1 r1 → path m h l2 r2 → length l1 = length l2 → l1 = l2 ∧ r1 = r2.
Proof.
  intros H1 H2 Hl. destruct (path_compare _ _ _ _ _ _ H1 H2) as [(l & -> & Hp)|(l & -> & Hp)];
    rewrite length_app in Hl; (destruct l; [|simpl in Hl; lia]); inversion Hp; subst; by rewrite app_nil_r.
Qed.
End links.

(** ** Hashes

    The headers that occur, and what their hashes guarantee: no two of them collide, so that
    a hash determines a number, and a header cannot name the hash of a later one.  Numbers
    are far from the end of the [u64] range. *)
Class BlockHashes := {
  known : SealedHeader → Prop;
  hash_rank : Z → nat;
  hash_number : Z → Z;
}.
Class BlockHashesLaws `{BlockHashes} : Prop := {
  known_unique h1 h2 : known h1 → known h2 → sh_hash h1 = sh_hash h2 → h1 = h2;
  known_rank h : known h → (hash_rank (h_parent_hash (sh_header h)) < hash_rank (sh_hash h))%nat;
  known_number h : known h → h_number (sh_header h) = hash_number (sh_hash h) ∧ 0 ≤ h_number (sh_header h) < U64 - 1;
}.
