(* ===== verification/Lru.v ===== *)
(** * Caches that forget the least recently used entry

    [schnellru::LruMap] is a library: [LruOps] has the operations that the node uses of it,
    for maps whose keys are hashes, and [LruLaws] what its documentation says about them.
    [LruCache] is the set that [net/network/src/cache.rs] builds on it. *)

From stdpp Require Import prelude gmap list.
From S2P Require Import Prelude.

(** ** The library *)
Section assoc.
Context {V : Type}.
Implicit Types (l : list (Z * V)).
Fixpoint assoc (k : Z) l : option V :=
  match l with [] => None | e :: l => if e.1 =? k then Some e.2 else assoc k l end.
Definition drop_key (k : Z) l : list (Z * V) := filter (λ e, e.1 ≠ k) l.

Lemma assoc_Some k v l : assoc k l = Some v → (k, v) ∈ l.
Proof.
  induction l as [|[k' v'] l IH]; simpl; [done|]. destruct (Z.eqb_spec k' k) as [->|]; intros H.
  - injection H as ->. left.
  - right. by apply IH.
Qed.
Lemma assoc_None k l : assoc k l = None ↔ k ∉ l.*1.
Proof.
  induction l as [|[k' v'] l IH]; simpl; [by split; [intros _ ?%elem_of_nil|]|].
  rewrite not_elem_of_cons, <-IH. destruct (Z.eqb_spec k' k); naive_solver.
Qed.
Lemma elem_of_assoc k v l : NoDup l.*1 → (k, v) ∈ l → assoc k l = Some v.
Proof.
  induction l as [|[k' v'] l IH]; simpl; [by intros _ ?%elem_of_nil|].
  intros [Hk Hl]%NoDup_cons [[= -> ->]|H]%elem_of_cons; [by rewrite Z.eqb_refl|].
  destruct (Z.eqb_spec k' k) as [->|]; [|by apply IH]. destruct Hk. by apply (list_elem_of_fmap_2 fst) in H.
Qed.
Lemma drop_key_keys k l : (drop_key k l).*1 = filter (λ k', k' ≠ k) l.*1.
Proof.
  unfold drop_key. induction l as [|[k' v] l IH]; [done|]. rewrite fmap_cons, !filter_cons. simpl.
  case_decide; [by rewrite fmap_cons, IH|done].
Qed.
Lemma elem_of_drop_key k l e : e ∈ drop_key k l ↔ e ∈ l ∧ e.1 ≠ k.
Proof. unfold drop_key. rewrite list_elem_of_filter. tauto. Qed.
Lemma drop_key_fresh k l : k ∉ l.*1 → drop_key k l = l.
Proof.
  unfold drop_key. induction l as [|[k' v] l IH]; simpl; [done|]. intros [Hk Hl]%not_elem_of_cons.
  rewrite filter_cons_True by done. by rewrite IH.
Qed.
Lemma drop_key_NoDup k l : NoDup l.*1 → NoDup (drop_key k l).*1.
Proof. intros. rewrite drop_key_keys. by apply NoDup_filter. Qed.
Lemma drop_key_length k l : (length (drop_key k l) ≤ length l)%nat.
Proof. unfold drop_key. apply length_filter. Qed.
Lemma assoc_drop_ne k k' l : k' ≠ k → assoc k' (drop_key k l) = assoc k' l.
Proof.
  intros Hk. unfold drop_key. induction l as [|[k1 v] l IH]; simpl; [done|]. rewrite filter_cons. simpl.
  case_decide as Hd; simpl; rewrite IH; [done|]. destruct (Z.eqb_spec k1 k') as [->|]; [|done]. by destruct Hd.
Qed.
End assoc.

Class LruOps := {
  lru : Type → Type;
  lru_new {V} : Z → lru V;
  (** from the most to the least recently used *)
  lru_iter {V} : lru V → list (Z * V);
  lru_max_length {V} : lru V → Z;
  lru_insert {V} : Z → V → lru V → lru V;
  (** [get], and a write through the reference it returns *)
  lru_get_mut {V} : Z → (V → V) → lru V → lru V;
  lru_remove {V} : Z → lru V → lru V;
  lru_pop_oldest {V} : lru V → lru V;
}.
Class LruLaws `{LruOps} : Prop := {
  lru_keys_unique {V} (m : lru V) : NoDup (lru_iter m).*1;
  lru_iter_new {V} n : lru_iter (lru_new (V:=V) n) = [];
  lru_iter_insert {V} k v (m : lru V) :
    lru_iter (lru_insert k v m) = take (Z.to_nat (lru_max_length m)) ((k, v) :: drop_key k (lru_iter m));
  lru_iter_get_mut {V} k f (m : lru V) :
    lru_iter (lru_get_mut k f m) =
      match assoc k (lru_iter m) with Some v => (k, f v) :: drop_key k (lru_iter m) | None => lru_iter m end;
  lru_iter_remove {V} k (m : lru V) : lru_iter (lru_remove k m) = drop_key k (lru_iter m);
  lru_iter_pop {V} (m : lru V) : lru_iter (lru_pop_oldest m) = removelast (lru_iter m);
  lru_max_new {V} n : lru_max_length (lru_new (V:=V) n) = n;
  lru_max_insert {V} k v (m : lru V) : lru_max_length (lru_insert k v m) = lru_max_length m;
  lru_max_get_mut {V} k f (m : lru V) : lru_max_length (lru_get_mut k f m) = lru_max_length m;
  lru_max_remove {V} k (m : lru V) : lru_max_length (lru_remove k m) = lru_max_length m;
  lru_max_pop {V} (m : lru V) : lru_max_length (lru_pop_oldest m) = lru_max_length m;
}.

Lemma removelast_fmap {A B} (f : A → B) (l : list A) : removelast (f <$> l) = f <$> removelast l.
Proof. induction l as [|x [|y l] IH]; [done|done|]. simpl in *. by rewrite IH. Qed.
Lemma removelast_length {A} (l : list A) : length (removelast l) = pred (length l).
Proof. induction l as [|x [|y l] IH]; [done|done|]. simpl in *. by rewrite IH. Qed.
Lemma list_filter_all {A} (P : A → Prop) `{∀ x, Decision (P x)} (l : list A) : (∀ x, x ∈ l → P x) → filter P l = l.
Proof.
  induction l as [|x l IH]; intros Hl; [done|]. rewrite filter_cons_True by (apply Hl; left).
  by rewrite IH by (intros y Hy; apply Hl; by right).
Qed.
Lemma elem_of_removelast {A} (x : A) (l : list A) : x ∈ removelast l → x ∈ l.
Proof.
  destruct l as [|y l _] using rev_ind; [done|]. rewrite removelast_last, elem_of_app. by left.
Qed.

(** ** [LruCache] *)
Section cache.
Context `{LruOps}.

Record LruCache := mkLruCache { lc_limit : Z; lc_inner : lru unit }.
Definition LruCache_new (limit : Z) : LruCache := mkLruCache limit (lru_new (wrap_u32 (limit + 1))).
Definition lc_keys (c : LruCache) : list Z := (lru_iter (lc_inner c)).*1.
Definition lc_len (c : LruCache) : Z := Z.of_nat (length (lru_iter (lc_inner c))).
Definition lc_contains (k : Z) (c : LruCache) : bool := bool_decide (is_Some (assoc k (lru_iter (lc_inner c)))).
Definition remove_lru (c : LruCache) : option Z * LruCache :=
  (last (lc_keys c), mkLruCache (lc_limit c) (lru_pop_oldest (lc_inner c))).
(** [get_or_insert(entry, || ())]. *)
Definition get_or_insert (k : Z) (m : lru unit) : lru unit :=
  match assoc k (lru_iter m) with Some _ => lru_get_mut k id m | None => lru_insert k tt m end.
Definition insert_and_get_evicted (entry : Z) (c : LruCache) : (bool * option Z) * LruCache :=
  let new := negb (lc_contains entry c) in
  let '(evicted, c) := if new && (lc_limit c <=? lc_len c) then remove_lru c else (None, c) in
  ((new, evicted), mkLruCache (lc_limit c) (get_or_insert entry (lc_inner c))).
Definition lc_insert (entry : Z) (c : LruCache) : bool * LruCache :=
  let '((new_entry, _), c) := insert_and_get_evicted entry c in (new_entry, c).
Definition lc_get (k : Z) (c : LruCache) : option Z * LruCache :=
  match assoc k (lru_iter (lc_inner c)) with
  | None => (None, c)
  | Some _ => let c := mkLruCache (lc_limit c) (lru_get_mut k id (lc_inner c)) in (head (lc_keys c), c)
  end.
Definition lc_remove (k : Z) (c : LruCache) : bool * LruCache :=
  (lc_contains k c, mkLruCache (lc_limit c) (lru_remove k (lc_inner c))).

(** ** What the cache keeps *)
Context `{!LruLaws}.

Lemma lc_contains_spec k c : lc_contains k c = true ↔ k ∈ lc_keys c.
Proof.
  unfold lc_contains. rewrite bool_decide_eq_true. destruct (assoc k (lru_iter (lc_inner c))) eqn:E.
  - split; [|by eauto]. intros _. apply assoc_Some in E. by apply (list_elem_of_fmap_2 fst) in E.
  - apply assoc_None in E. split; [by intros [? ?]|done].
Qed.

(** The limit of the map below is one more than that of the cache, which evicts by itself. *)
Definition cache_ok (c : LruCache) : Prop :=
  0 ≤ lc_limit c ∧ lru_max_length (lc_inner c) = lc_limit c + 1 ∧ lc_len c ≤ Z.max 1 (lc_limit c).

Lemma LruCache_new_ok limit : 0 ≤ limit < 2 ^ 32 - 1 → cache_ok (LruCache_new limit) ∧ lc_keys (LruCache_new limit) = [].
Proof.
  intros Hl. unfold cache_ok, LruCache_new, lc_len, lc_keys. simpl. rewrite lru_iter_new, lru_max_new.
  unfold wrap_u32. rewrite Z.mod_small by lia. simpl. split_and!; lia || done.
Qed.
Lemma lc_remove_ok k c :
  cache_ok c → cache_ok (lc_remove k c).2 ∧ lc_keys (lc_remove k c).2 = filter (λ k', k' ≠ k) (lc_keys c).
Proof.
  intros (H1 & H2 & H3). unfold cache_ok, lc_remove, lc_len, lc_keys in *. simpl.
  rewrite lru_iter_remove, lru_max_remove, drop_key_keys. pose proof (drop_key_length k (lru_iter (lc_inner c))).
  split_and!; lia || done.
Qed.

Lemma get_or_insert_old k (m : lru unit) :
  k ∈ (lru_iter m).*1 →
  lru_iter (get_or_insert k m) = (k, ()) :: drop_key k (lru_iter m) ∧
  length (lru_iter (get_or_insert k m)) = length (lru_iter m) ∧ lru_max_length (get_or_insert k m) = lru_max_length m.
Proof.
  intros Hk. unfold get_or_insert. destruct (assoc k (lru_iter m)) as [[]|] eqn:E; [|by apply assoc_None in E].
  rewrite lru_max_get_mut, lru_iter_get_mut, E. split_and!; [done| |done].
  apply assoc_Some, list_elem_of_split in E as (l1 & l2 & E). pose proof (lru_keys_unique m) as Hn.
  rewrite E, fmap_app in Hn. simpl in Hn. apply NoDup_app in Hn as (_ & Hn1 & [Hn2 _]%NoDup_cons). rewrite E.
  unfold drop_key. rewrite filter_app, filter_cons_False by naive_solver.
  change (length ((k, id ()) :: drop_key k l1 ++ drop_key k l2) = length (l1 ++ (k, ()) :: l2)).
  rewrite !drop_key_fresh; [simpl; rewrite !length_app; simpl; lia|done|].
  intros Hl. apply (Hn1 k Hl). left.
Qed.
Lemma get_or_insert_new k (m : lru unit) :
  k ∉ (lru_iter m).*1 → Z.of_nat (length (lru_iter m)) < lru_max_length m →
  lru_iter (get_or_insert k m) = (k, ()) :: lru_iter m ∧ lru_max_length (get_or_insert k m) = lru_max_length m.
Proof.
  intros Hk Hl. unfold get_or_insert. rewrite (proj2 (assoc_None _ _) Hk), lru_max_insert, lru_iter_insert.
  rewrite drop_key_fresh by done. split; [|done]. apply take_ge. simpl. lia.
Qed.

(** An insertion puts the entry first; if it is new and the cache is full, the last entry
    goes. *)
Lemma insert_and_get_evicted_ok k c :
  cache_ok c →
  let full := negb (lc_contains k c) && (lc_limit c <=? lc_len c) in
  let '((new, evicted), c') := insert_and_get_evicted k c in
  cache_ok c' ∧ lc_limit c' = lc_limit c ∧ new = negb (lc_contains k c) ∧
  evicted = (if full then last (lc_keys c) else None) ∧
  lc_keys c' = k :: filter (λ k', k' ≠ k) (if full then removelast (lc_keys c) else lc_keys c).
Proof.
  intros (H1 & H2 & H3). unfold insert_and_get_evicted. pose proof (lc_contains_spec k c) as Hb.
  destruct (lc_contains k c); simpl.
  - destruct (get_or_insert_old k (lc_inner c)) as (Hi & Hl & Hm); [by apply Hb|].
    unfold cache_ok, lc_len, lc_keys in *. simpl. rewrite Hl, Hm, Hi, fmap_cons, drop_key_keys. done.
  - assert (k ∉ lc_keys c) as Hk by (rewrite <-Hb; done).
    destruct (Z.leb_spec (lc_limit c) (lc_len c)); simpl; unfold cache_ok, lc_len, lc_keys in *; simpl.
    + assert (k ∉ (lru_iter (lru_pop_oldest (lc_inner c))).*1) as Hk'.
      { rewrite lru_iter_pop, <-removelast_fmap. by intros ?%elem_of_removelast. }
      destruct (get_or_insert_new _ _ Hk') as [Hi Hm]; rewrite ?lru_max_pop, ?lru_iter_pop, ?removelast_length in *; [lia|].
      rewrite Hi, Hm. simpl. rewrite removelast_length, <-removelast_fmap. split_and!; try lia; try done.
      rewrite list_filter_all; [done|]. intros x Hx ->. by apply elem_of_removelast in Hx.
    + destruct (get_or_insert_new _ _ Hk) as [Hi Hm]; [lia|]. rewrite Hi, Hm. simpl.
      split_and!; try lia; try done. rewrite list_filter_all; [done|]. by intros x Hx ->.
Qed.
End cache.

(** ** An implementation *)
Fixpoint dedup {V} (l : list (Z * V)) : list (Z * V) :=
  match l with [] => [] | e :: l => e :: drop_key e.1 (dedup l) end.
Lemma dedup_NoDup {V} (l : list (Z * V)) : NoDup (dedup l).*1.
Proof.
  induction l as [|e l IH]; simpl; constructor; [|by apply drop_key_NoDup].
  rewrite drop_key_keys, list_elem_of_filter. naive_solver.
Qed.
Lemma dedup_id {V} (l : list (Z * V)) : NoDup l.*1 → dedup l = l.
Proof.
  induction l as [|e l IH]; simpl; [done|]. intros [He Hl]%NoDup_cons. rewrite IH by done. by rewrite drop_key_fresh.
Qed.

Definition lru_list : LruOps := {|
  lru V := (list (Z * V) * Z)%type;
  lru_new V n := ([], n);
  lru_iter V m := dedup m.1;
  lru_max_length V m := m.2;
  lru_insert V k v m := (take (Z.to_nat m.2) ((k, v) :: drop_key k (dedup m.1)), m.2);
  lru_get_mut V k f m :=
    (match assoc k (dedup m.1) with Some v => (k, f v) :: drop_key k (dedup m.1) | None => dedup m.1 end, m.2);
  lru_remove V k m := (drop_key k (dedup m.1), m.2);
  lru_pop_oldest V m := (removelast (dedup m.1), m.2);
|}.
Lemma lru_list_laws : @LruLaws lru_list.
Proof.
  assert (∀ V k (v : V) l, NoDup l.*1 → NoDup ((k, v) :: drop_key k l).*1) as Hcons.
  { intros V k v l Hl. simpl. constructor; [|by apply drop_key_NoDup]. rewrite drop_key_keys, list_elem_of_filter. naive_solver. }
  assert (∀ V (l : list (Z * V)), NoDup l.*1 → NoDup (removelast l).*1) as Hrm.
  { intros V l Hl. destruct l as [|x l _] using rev_ind; [done|]. rewrite removelast_last.
    rewrite fmap_app in Hl. by apply NoDup_app in Hl as [? _]. }
  split; intros; try done; [apply dedup_NoDup|..]; apply dedup_id; simpl.
  - rewrite fmap_take. eapply sublist_NoDup; [|apply sublist_take]. apply Hcons, dedup_NoDup.
  - destruct (assoc k (dedup m.1)); [|apply dedup_NoDup]. apply Hcons, dedup_NoDup.
  - apply drop_key_NoDup, dedup_NoDup.
  - apply Hrm, dedup_NoDup.
Qed.
