(* ===== verification/BlockBuffer.v ===== *)
(** * The buffer of disconnected blocks

    [BlockBuffer] of [blockchain-tree/src/block_buffer.rs]: blocks whose parent is missing,
    by hash, with the indices by parent and by number and the order of their last use. *)

From stdpp Require Import prelude gmap list.
From S2P Require Import Prelude.
From S2P Require Import Ord.
From S2P Require Import Header.
From S2P Require Import Consensus.
From S2P Require Import Links.
From S2P Require Import Lru.

(** ** Data *)
Record SealedBlockWithSenders := mkBlockWithSenders { bs_block : SealedBlock; bs_senders : list Z }.
Definition sb_hash (b : SealedBlock) : Z := sh_hash (sb_header b).
Definition sb_parent_hash (b : SealedBlock) : Z := h_parent_hash (sh_header (sb_header b)).
Definition sb_number (b : SealedBlock) : Z := h_number (sh_header (sb_header b)).
Definition bs_hash (b : SealedBlockWithSenders) : Z := sb_hash (bs_block b).
Definition bs_parent_hash (b : SealedBlockWithSenders) : Z := sb_parent_hash (bs_block b).
Definition bs_number (b : SealedBlockWithSenders) : Z := sb_number (bs_block b).

(** A map from keys to sets of hashes without empty sets, and the updates the code makes of
    one: [entry(key).or_default().insert(hash)], and the removal that drops an empty set. *)
Definition index_insert (k h : Z) (m : gmap Z (gset Z)) : gmap Z (gset Z) := <[k := {[h]} ∪ default ∅ (m !! k)]> m.
Definition index_remove (k h : Z) (m : gmap Z (gset Z)) : gmap Z (gset Z) :=
  match m !! k with
  | None => m
  | Some s => if bool_decide (s ∖ {[h]} = ∅) then delete k m else <[k := s ∖ {[h]}]> m
  end.

Section buffer.
Context `{LruOps} `{HashOrder}.

Record BlockBuffer := mkBlockBuffer {
  bf_blocks : gmap Z SealedBlockWithSenders;
  parent_to_child : gmap Z (gset Z);
  earliest_blocks : gmap Z (gset Z);
  bf_lru : LruCache;
}.
Definition BlockBuffer_new (limit : Z) : BlockBuffer := mkBlockBuffer ∅ ∅ ∅ (LruCache_new limit).

(** ** Operations *)
Definition buffer_block_of (hash : Z) (b : BlockBuffer) : option SealedBlockWithSenders := bf_blocks b !! hash.
Definition lowest_ancestor (hash : Z) (b : BlockBuffer) : outcome (option SealedBlockWithSenders) :=
  '(l, _) ← ancestors bs_parent_hash (size (bf_blocks b)) (bf_blocks b) hash;
  Done (last l).

Definition remove_from_earliest_blocks (number hash : Z) (b : BlockBuffer) : BlockBuffer :=
  mkBlockBuffer (bf_blocks b) (parent_to_child b) (index_remove number hash (earliest_blocks b)) (bf_lru b).
Definition remove_from_parent (parent_hash hash : Z) (b : BlockBuffer) : BlockBuffer :=
  mkBlockBuffer (bf_blocks b) (index_remove parent_hash hash (parent_to_child b)) (earliest_blocks b) (bf_lru b).
Definition remove_block (hash : Z) (b : BlockBuffer) : option SealedBlockWithSenders * BlockBuffer :=
  match bf_blocks b !! hash with
  | None => (None, b)
  | Some block =>
    let b := mkBlockBuffer (delete hash (bf_blocks b)) (parent_to_child b) (earliest_blocks b) (bf_lru b) in
    let b := remove_from_earliest_blocks (bs_number block) hash b in
    let b := remove_from_parent (bs_parent_hash block) hash b in
    (Some block, mkBlockBuffer (bf_blocks b) (parent_to_child b) (earliest_blocks b) (lc_remove hash (bf_lru b)).2)
  end.

Definition insert_block (block : SealedBlockWithSenders) (b : BlockBuffer) : BlockBuffer :=
  let hash := bs_hash block in
  let '((_, evicted), l) := insert_and_get_evicted hash (bf_lru b) in
  let b :=
    mkBlockBuffer (<[hash := block]> (bf_blocks b)) (index_insert (bs_parent_hash block) hash (parent_to_child b))
      (index_insert (bs_number block) hash (earliest_blocks b)) l in
  match evicted with
  | None => b
  | Some evicted_hash =>
    match remove_block evicted_hash b with
    | (Some evicted_block, b) => remove_from_parent (bs_parent_hash evicted_block) evicted_hash b
    | (None, b) => b
    end
  end.

(** The children of one parent, in the order of the set. *)
Definition remove_each (hashes : list Z) (b : BlockBuffer) : list SealedBlockWithSenders * BlockBuffer :=
  foldl (λ '(removed, b) hash,
           match remove_block hash b with (Some block, b) => (removed ++ [block], b) | (None, b) => (removed, b) end)
    ([], b) hashes.
(** The stack of parents; its top is the head of the list, the end of the code's vector. *)
Fixpoint children_loop (fuel : nat) (stack : list Z) (removed : list SealedBlockWithSenders) (b : BlockBuffer)
  : outcome (list SealedBlockWithSenders * BlockBuffer) :=
  match stack with
  | [] => Done (removed, b)
  | parent_hash :: stack =>
    match fuel with
    | O => NoFuel
    | S fuel =>
      match parent_to_child b !! parent_hash with
      | None => children_loop fuel stack removed b
      | Some set =>
        let children := iter_set set in
        let '(blocks, b) :=
          remove_each children
            (mkBlockBuffer (bf_blocks b) (delete parent_hash (parent_to_child b)) (earliest_blocks b) (bf_lru b)) in
        children_loop fuel (reverse children ++ stack) (removed ++ blocks) b
      end
    end
  end.
(** Each round takes a hash off the stack, and the children it puts there leave the index. *)
Definition children_fuel (stack : list Z) (b : BlockBuffer) : nat :=
  (length stack + Z.to_nat (map_sum (λ s, Z.of_nat (size s)) (parent_to_child b)))%nat.
Definition remove_children (parent_hashes : list Z) (b : BlockBuffer)
  : outcome (list SealedBlockWithSenders * BlockBuffer) :=
  children_loop (children_fuel parent_hashes b) (reverse parent_hashes) [] b.

Definition remove_block_with_children (parent_hash : Z) (b : BlockBuffer)
  : outcome (list SealedBlockWithSenders * BlockBuffer) :=
  let '(block, b) := remove_block parent_hash b in
  '(children, b) ← remove_children [parent_hash] b;
  Done (option_list block ++ children, b).

Definition remove_old_blocks (block_number : Z) (b : BlockBuffer) : outcome BlockBuffer :=
  let old := take_while (λ e, e.1 <=? block_number) (bmap_iter (earliest_blocks b)) in
  let b :=
    mkBlockBuffer (bf_blocks b) (parent_to_child b)
      (filter (λ e, e.1 ∉ old.*1) (earliest_blocks b)) (bf_lru b) in
  let hashes := mjoin ((λ e, iter_set e.2) <$> old) in
  let b := foldl (λ b hash, (remove_block hash b).2) b hashes in
  '(_, b) ← remove_children hashes b;
  Done b.
End buffer.

(** ** The indices *)

(** [m] is the index of [blocks] by [key]: it has no empty sets, and a hash is in the set of a
    key exactly if its block has that key. *)
Definition index_ok {B} (key : B → Z) (blocks : gmap Z B) (m : gmap Z (gset Z)) : Prop :=
  (∀ k s, m !! k = Some s → s ≠ ∅) ∧
  (∀ k h, h ∈ default ∅ (m !! k) ↔ ∃ b, blocks !! h = Some b ∧ key b = k).

Section index.
Context {B : Type} (key : B → Z).
Implicit Types (blocks : gmap Z B) (m : gmap Z (gset Z)).

Lemma index_ok_empty : index_ok key ∅ ∅.
Proof. split; [by intros k s ?|]. intros k h. rewrite lookup_empty. simpl. split; [set_solver|]. by intros (b & ? & _). Qed.

Lemma index_remove_lookup k h m k' :
  (∀ k s, m !! k = Some s → s ≠ ∅) →
  default ∅ (index_remove k h m !! k') = default ∅ (m !! k') ∖ (if decide (k' = k) then {[h]} else ∅).
Proof.
  intros Hne. unfold index_remove. destruct (m !! k) as [s|] eqn:Hk.
  - case_bool_decide as He; (destruct (decide (k' = k)) as [->|Hn];
      [rewrite Hk, ?lookup_delete_eq, ?lookup_insert_eq|rewrite ?lookup_delete_ne, ?lookup_insert_ne by done]);
      simpl; set_solver.
  - case_decide as Hn; [subst; rewrite Hk; simpl|]; set_solver.
Qed.
Lemma index_remove_nonempty k h m :
  (∀ k s, m !! k = Some s → s ≠ ∅) → ∀ k' s, index_remove k h m !! k' = Some s → s ≠ ∅.
Proof.
  intros Hne k' s. unfold index_remove. destruct (m !! k) as [s'|] eqn:Hk; [|apply Hne].
  case_bool_decide as He.
  - intros [_ Hs]%lookup_delete_Some. by eapply Hne.
  - intros [[<- <-]|[_ Hs]]%lookup_insert_Some; [done|by eapply Hne].
Qed.
(** Removing a block from the index as it is removed from the blocks. *)
Lemma index_ok_remove blocks m h b :
  index_ok key blocks m → blocks !! h = Some b → index_ok key (delete h blocks) (index_remove (key b) h m).
Proof.
  intros [Hne Hi] Hb. split; [by apply index_remove_nonempty|]. intros k h'.
  rewrite index_remove_lookup by done. rewrite elem_of_difference, Hi. split.
  - intros ((b' & Hb' & <-) & Hn). exists b'. split; [|done]. rewrite lookup_delete_ne; [done|].
    intros <-. assert (b' = b) as -> by congruence. rewrite decide_True in Hn by done. set_solver.
  - intros (b' & [Hh Hb']%lookup_delete_Some & <-). split; [by exists b'|]. case_decide; set_solver.
Qed.
(** A removal from an index that no longer has the block does nothing. *)
Lemma index_remove_absent blocks m k h :
  index_ok key blocks m → blocks !! h = None → index_remove k h m = m.
Proof.
  intros [Hne Hi] Hb. unfold index_remove. destruct (m !! k) as [s|] eqn:Hk; [|done].
  assert (s ∖ {[h]} = s) as ->.
  { assert (h ∉ s) as Hn; [|set_solver]. intros Hh. destruct (proj1 (Hi k h)) as (b & Hb' & _); [by rewrite Hk|congruence]. }
  rewrite bool_decide_false by (by eapply Hne). by apply insert_id.
Qed.
Lemma index_ok_insert blocks m h b :
  index_ok key blocks m → (∀ b', blocks !! h = Some b' → key b' = key b) →
  index_ok key (<[h := b]> blocks) (index_insert (key b) h m).
Proof.
  intros [Hne Hi] Hold. unfold index_insert. split.
  - intros k s [[<- <-]|[_ Hs]]%lookup_insert_Some; [set_solver|by eapply Hne].
  - intros k h'. destruct (decide (k = key b)) as [->|Hk].
    + rewrite lookup_insert_eq. simpl. rewrite elem_of_union, elem_of_singleton, Hi. split.
      * intros [->|(b' & Hb' & Hkb)]; [by exists b; rewrite lookup_insert_eq|].
        destruct (decide (h' = h)) as [->|Hn]; [by exists b; rewrite lookup_insert_eq|].
        exists b'. by rewrite lookup_insert_ne.
      * intros (b' & [[<- <-]|[Hn Hb']]%lookup_insert_Some & Hkb); [by left|right; by exists b'].
    + rewrite lookup_insert_ne by done. rewrite Hi. split; intros (b' & Hb' & Hkb).
      * exists b'. split; [|done]. rewrite lookup_insert_ne; [done|]. intros <-. rewrite (Hold _ Hb') in Hkb. congruence.
      * apply lookup_insert_Some in Hb' as [[<- <-]|[Hn Hb']]; [congruence|by exists b'].
Qed.
(** Dropping a whole key. *)
Lemma index_ok_restrict blocks m blocks' m' (P : Z → Prop) :
  index_ok key blocks m →
  (∀ h b, blocks' !! h = Some b ↔ blocks !! h = Some b ∧ P (key b)) →
  (∀ k s, m' !! k = Some s ↔ m !! k = Some s ∧ P k) → index_ok key blocks' m'.
Proof.
  intros [Hne Hi] Hblocks Hm. split; [intros k s [Hs _]%Hm; by eapply Hne|]. intros k h. split.
  - destruct (m' !! k) as [s|] eqn:Hs; simpl; [|set_solver]. apply Hm in Hs as [Hs Hk]. intros Hh.
    destruct (proj1 (Hi k h)) as (b & Hb & <-); [by rewrite Hs|]. exists b. by rewrite Hblocks.
  - intros (b & [Hb Hk]%Hblocks & Hkb). rewrite Hkb in Hk.
    pose proof (proj2 (Hi k h) ltac:(by exists b)) as Hh. destruct (m !! k) as [s|] eqn:Hs; [|simpl in Hh; set_solver].
    by rewrite (proj2 (Hm k s) (conj Hs Hk)).
Qed.
(** The same while the key of some blocks has been dropped from the index already. *)
Lemma index_ok_remove_mid blocks m (P : Z → Prop) `{∀ k, Decision (P k)} h b :
  index_ok key (filter (λ e, P (key e.2)) blocks) m → blocks !! h = Some b →
  index_ok key (filter (λ e, P (key e.2)) (delete h blocks)) (index_remove (key b) h m).
Proof.
  intros Hi Hb. rewrite map_filter_delete. destruct (decide (P (key b))) as [HP|HP].
  - apply index_ok_remove; [done|]. by apply map_lookup_filter_Some.
  - assert (filter (λ e, P (key e.2)) blocks !! h = None) as Hn.
    { apply map_lookup_filter_None. right. intros b' Hb'. simpl. by assert (b' = b) as -> by congruence. }
    rewrite (index_remove_absent _ _ _ _ Hi Hn). by rewrite delete_id.
Qed.
End index.

(** ** The invariant *)
Section invariant.
Context `{LruOps} `{HashOrder} `{!LruLaws} `{!HashOrderLaws}.
Implicit Types (b : BlockBuffer).

(** Every block is stored under its hash, both indices are those of the blocks, and the cache
    holds the hashes of the blocks.  In the middle of a removal, keys outside of [P] and [Q]
    are missing from the indices. *)
Record buffer_mid (P Q : Z → Prop) `{∀ k, Decision (P k)} `{∀ k, Decision (Q k)} b : Prop := {
  bm_hash h block : bf_blocks b !! h = Some block → bs_hash block = h;
  bm_parent : index_ok bs_parent_hash (filter (λ e, P (bs_parent_hash e.2)) (bf_blocks b)) (parent_to_child b);
  bm_number : index_ok bs_number (filter (λ e, Q (bs_number e.2)) (bf_blocks b)) (earliest_blocks b);
  bm_cache : cache_ok (bf_lru b);
  bm_keys : list_to_set (lc_keys (bf_lru b)) = dom (bf_blocks b);
}.
Record buffer_ok b : Prop := {
  bo_hash h block : bf_blocks b !! h = Some block → bs_hash block = h;
  bo_parent : index_ok bs_parent_hash (bf_blocks b) (parent_to_child b);
  bo_number : index_ok bs_number (bf_blocks b) (earliest_blocks b);
  bo_cache : cache_ok (bf_lru b);
  bo_keys : list_to_set (lc_keys (bf_lru b)) = dom (bf_blocks b);
}.

Lemma map_filter_all {A} (R : Z * A → Prop) `{∀ e, Decision (R e)} (m : gmap Z A) :
  (∀ k x, m !! k = Some x → R (k, x)) → filter R m = m.
Proof. intros Hm. apply map_filter_id. exact Hm. Qed.
Lemma buffer_mid_ok (P Q : Z → Prop) `{∀ k, Decision (P k)} `{∀ k, Decision (Q k)} b :
  buffer_mid P Q b →
  (∀ h block, bf_blocks b !! h = Some block → P (bs_parent_hash block) ∧ Q (bs_number block)) → buffer_ok b.
Proof.
  intros [Hh Hp Hn Hc Hk] Hall.
  rewrite map_filter_all in Hp by naive_solver. rewrite map_filter_all in Hn by naive_solver. by constructor.
Qed.
Lemma buffer_ok_mid b : buffer_ok b → buffer_mid (λ _, True) (λ _, True) b.
Proof. intros [Hh Hp Hn Hc Hk]. constructor; try done; by rewrite map_filter_all. Qed.

Lemma BlockBuffer_new_ok limit : 0 ≤ limit < 2 ^ 32 - 1 → buffer_ok (BlockBuffer_new limit).
Proof.
  intros [Hc Hk]%LruCache_new_ok. constructor; simpl; try done; try apply index_ok_empty.
  rewrite Hk, dom_empty_L. done.
Qed.

Lemma remove_block_mid (P Q : Z → Prop) `{∀ k, Decision (P k)} `{∀ k, Decision (Q k)} hash b :
  buffer_mid P Q b →
  (remove_block hash b).1 = bf_blocks b !! hash ∧ bf_blocks (remove_block hash b).2 = delete hash (bf_blocks b) ∧
  lc_limit (bf_lru (remove_block hash b).2) = lc_limit (bf_lru b) ∧ buffer_mid P Q (remove_block hash b).2.
Proof.
  intros [Hh Hp Hn Hc Hk]. unfold remove_block. destruct (bf_blocks b !! hash) as [block|] eqn:Hb; simpl.
  2:{ split_and!; try done. by rewrite delete_id. }
  split_and!; try done. destruct (lc_remove_ok hash _ Hc) as [Hc' Hk']. constructor; simpl; try done.
  - intros h block' [_ ?]%lookup_delete_Some. by apply Hh.
  - by apply index_ok_remove_mid.
  - by apply index_ok_remove_mid.
  - cbn [lc_remove snd] in Hk'. rewrite Hk', dom_delete_L, <-Hk. apply set_eq. intros x.
    rewrite elem_of_difference, !elem_of_list_to_set, list_elem_of_filter, elem_of_singleton. tauto.
Qed.
Lemma remove_block_ok hash b :
  buffer_ok b →
  (remove_block hash b).1 = bf_blocks b !! hash ∧ bf_blocks (remove_block hash b).2 = delete hash (bf_blocks b) ∧
  lc_limit (bf_lru (remove_block hash b).2) = lc_limit (bf_lru b) ∧ buffer_ok (remove_block hash b).2.
Proof.
  intros Hb%buffer_ok_mid. destruct (remove_block_mid _ _ hash b Hb) as (E1 & E2 & E3 & E4). split_and!; try done.
  by eapply buffer_mid_ok.
Qed.

(** ** Insertion *)
Lemma size_keys b : buffer_ok b → Z.of_nat (size (bf_blocks b)) = lc_len (bf_lru b).
Proof.
  intros Hb. rewrite <-(size_dom (D:=gset Z)), <-(bo_keys _ Hb). unfold lc_len.
  rewrite size_list_to_set by apply lru_keys_unique. unfold lc_keys. by rewrite length_fmap.
Qed.
(** The blocks after an insertion: the new one, and the others but the least recently used
    one if the buffer was full. *)
Definition evicted (block : SealedBlockWithSenders) b : option Z :=
  if negb (lc_contains (bs_hash block) (bf_lru b)) && (lc_limit (bf_lru b) <=? lc_len (bf_lru b))
  then last (lc_keys (bf_lru b)) else None.
Definition after_insert (block : SealedBlockWithSenders) b : gmap Z SealedBlockWithSenders :=
  <[bs_hash block := block]>
    (match evicted block b with Some h => delete h (bf_blocks b) | None => bf_blocks b end).
(** The keys of the cache without the evicted one, and the state right after the insertion. *)
Lemma insert_keys block b :
  buffer_ok b →
  let l := (insert_and_get_evicted (bs_hash block) (bf_lru b)).2 in
  (insert_and_get_evicted (bs_hash block) (bf_lru b)).1.2 = evicted block b ∧
  cache_ok l ∧ lc_limit l = lc_limit (bf_lru b) ∧
  list_to_set (lc_keys l) = dom (after_insert block b) ∧
  (∀ e, evicted block b = Some e → e ≠ bs_hash block ∧ is_Some (bf_blocks b !! e)).
Proof.
  intros Hb. pose proof (insert_and_get_evicted_ok (bs_hash block) _ (bo_cache _ Hb)) as Hi.
  pose proof (lc_contains_spec (bs_hash block) (bf_lru b)) as Hcs. unfold after_insert, evicted.
  destruct (insert_and_get_evicted (bs_hash block) (bf_lru b)) as [[new ev] l]. simpl.
  destruct Hi as (Hc & Hl & _ & -> & ->). split_and!; try done.
  - rewrite list_to_set_cons, dom_insert_L. destruct (_ && _) eqn:Hf.
    + apply andb_true_iff in Hf as [Hf _]. destruct (lc_contains _ _) eqn:Hct; [done|].
      assert (NoDup (lc_keys (bf_lru b))) as Hnd by apply lru_keys_unique. pose proof (bo_keys _ Hb) as Hk.
      destruct (lc_keys (bf_lru b)) as [|e ks _] using rev_ind; [simpl; by rewrite <-Hk|].
      rewrite last_snoc, removelast_last, dom_delete_L, <-Hk. apply NoDup_app in Hnd as (_ & Hnd & _).
      apply set_eq. intros x. specialize (Hnd x).
      rewrite !elem_of_union, elem_of_difference, !elem_of_list_to_set, list_elem_of_filter, elem_of_app, !elem_of_singleton.
      rewrite list_elem_of_singleton in *. destruct (decide (x = bs_hash block)); tauto.
    + rewrite <-(bo_keys _ Hb). apply set_eq. intros x. rewrite !elem_of_union, !elem_of_list_to_set, list_elem_of_filter, elem_of_singleton.
      destruct (decide (x = bs_hash block)); tauto.
  - intros e. destruct (_ && _) eqn:Hf; [|done]. apply andb_true_iff in Hf as [Hf _].
    destruct (lc_contains _ _) eqn:Hct; [done|]. intros He%last_Some_elem_of. split; [intros ->; by apply Hcs in He|].
    apply elem_of_dom. rewrite <-(bo_keys _ Hb). by apply elem_of_list_to_set.
Qed.
Lemma insert_block_ok block b :
  buffer_ok b →
  (∀ old, bf_blocks b !! bs_hash block = Some old →
          bs_parent_hash old = bs_parent_hash block ∧ bs_number old = bs_number block) →
  buffer_ok (insert_block block b) ∧ bf_blocks (insert_block block b) = after_insert block b ∧
  lc_limit (bf_lru (insert_block block b)) = lc_limit (bf_lru b).
Proof.
  intros Hb Hold. destruct (insert_keys block b Hb) as (Hev & Hc & Hl & Hkeys & Hin).
  unfold insert_block. destruct (insert_and_get_evicted (bs_hash block) (bf_lru b)) as [[new ev] l]. simpl in *. subst ev.
  assert (index_ok bs_parent_hash (<[bs_hash block:=block]> (bf_blocks b))
            (index_insert (bs_parent_hash block) (bs_hash block) (parent_to_child b))) as Hp
    by (apply index_ok_insert; [apply Hb|naive_solver]).
  assert (index_ok bs_number (<[bs_hash block:=block]> (bf_blocks b))
            (index_insert (bs_number block) (bs_hash block) (earliest_blocks b))) as Hn
    by (apply index_ok_insert; [apply Hb|naive_solver]).
  assert (∀ h block', <[bs_hash block:=block]> (bf_blocks b) !! h = Some block' → bs_hash block' = h) as Hh.
  { intros h block' [[<- <-]|[_ ?]]%lookup_insert_Some; [done|by apply Hb]. }
  unfold after_insert in *. destruct (evicted block b) as [e|]; [|split_and!; try done; by constructor].
  destruct (Hin e eq_refl) as [Hne [eb Heb]]. rewrite <-delete_insert_ne in Hkeys |- * by done.
  unfold remove_block. simpl. rewrite lookup_insert_ne, Heb by done. simpl.
  assert (<[bs_hash block:=block]> (bf_blocks b) !! e = Some eb) as Heb' by (by rewrite lookup_insert_ne).
  pose proof (index_ok_remove _ _ _ _ _ Hp Heb') as Hp'. pose proof (index_ok_remove _ _ _ _ _ Hn Heb') as Hn'.
  unfold remove_from_parent. simpl. rewrite (index_remove_absent _ _ _ _ _ Hp') by apply lookup_delete_eq.
  destruct (lc_remove_ok e _ Hc) as [Hc' Hk']. cbn [lc_remove snd] in Hc', Hk'. split_and!; try done. constructor; simpl; try done.
  - intros h block' [_ ?]%lookup_delete_Some. by apply Hh.
  - rewrite Hk', <-Hkeys. apply set_eq. intros x. rewrite !elem_of_list_to_set, list_elem_of_filter.
    split; [tauto|]. intros Hx. split; [|done]. intros ->.
    assert (e ∈ dom (delete e (<[bs_hash block:=block]> (bf_blocks b)))) as Hd by (rewrite <-Hkeys; by apply elem_of_list_to_set).
    apply elem_of_dom in Hd as [? Hd]. by rewrite lookup_delete_eq in Hd.
Qed.

(** ** Removal of descendants *)

(** The buffered blocks that lead to one of the hashes. *)
Definition below (blocks : gmap Z SealedBlockWithSenders) (stack : list Z) (h : Z) : Prop :=
  ∃ l r, l ≠ [] ∧ path bs_parent_hash blocks h l r ∧ r ∈ stack.

Lemma remove_each_acc hashes acc b :
  foldl (λ '(removed, b) hash,
           match remove_block hash b with (Some block, b) => (removed ++ [block], b) | (None, b) => (removed, b) end)
    (acc, b) hashes = (acc ++ (remove_each hashes b).1, (remove_each hashes b).2).
Proof.
  unfold remove_each. revert acc b. induction hashes as [|h hashes IH]; intros acc b; simpl; [by rewrite app_nil_r|].
  destruct (remove_block h b) as [[block|] b']; [|apply IH]. rewrite (IH (acc ++ _)), (IH [block]). by rewrite <-app_assoc.
Qed.
Lemma remove_each_cons h hashes b :
  remove_each (h :: hashes) b =
    (option_list (remove_block h b).1 ++ (remove_each hashes (remove_block h b).2).1,
     (remove_each hashes (remove_block h b).2).2).
Proof.
  unfold remove_each at 1. simpl. destruct (remove_block h b) as [[block|] b']; simpl.
  - by rewrite remove_each_acc.
  - by rewrite remove_each_acc.
Qed.
Lemma omap_delete {A} (m : gmap Z A) h (hashes : list Z) :
  h ∉ hashes → omap (λ k, delete h m !! k) hashes = omap (λ k, m !! k) hashes.
Proof.
  induction hashes as [|k hashes IH]; csimpl; [done|]. intros [Hk Hh]%not_elem_of_cons.
  by rewrite lookup_delete_ne, IH by done.
Qed.
Lemma omap_hashes (blocks : gmap Z SealedBlockWithSenders) (hashes : list Z) :
  (∀ h block, blocks !! h = Some block → bs_hash block = h) → (∀ h, h ∈ hashes → ∃ block, blocks !! h = Some block) →
  bs_hash <$> omap (λ h, blocks !! h) hashes = hashes.
Proof.
  intros Hh. induction hashes as [|h hashes IH]; csimpl; intros Hs; [done|]. destruct (Hs h) as [block Hb]; [left|].
  rewrite Hb. csimpl. rewrite (Hh _ _ Hb), IH; [done|]. intros k Hk. apply Hs. by right.
Qed.
Lemma remove_each_mid (P Q : Z → Prop) `{∀ k, Decision (P k)} `{∀ k, Decision (Q k)} hashes b :
  buffer_mid P Q b → NoDup hashes →
  let r := remove_each hashes b in
  r.1 = omap (λ h, bf_blocks b !! h) hashes ∧ bf_blocks r.2 = filter (λ e, e.1 ∉ hashes) (bf_blocks b) ∧
  lc_limit (bf_lru r.2) = lc_limit (bf_lru b) ∧ buffer_mid P Q r.2.
Proof.
  revert b. induction hashes as [|h hashes IH]; intros b Hb Hnd.
  { simpl. split_and!; try done. rewrite map_filter_all; [done|]. intros k x _. by apply not_elem_of_nil. }
  apply NoDup_cons in Hnd as [Hh Hnd]. rewrite remove_each_cons. simpl.
  destruct (remove_block_mid P Q h b Hb) as (E1 & E2 & E3 & E4). destruct (IH _ E4 Hnd) as (F1 & F2 & F3 & F4).
  rewrite E1, F1, F2, F3, E2, E3. split_and!; try done.
  - rewrite omap_delete by done. by destruct (bf_blocks b !! h).
  - apply map_eq. intros k. apply option_eq. intros x. rewrite !map_lookup_filter_Some, lookup_delete_Some, not_elem_of_cons.
    simpl. naive_solver.
Qed.
(** The set of the parent of the removed blocks is gone already: the index stays. *)
Lemma remove_each_index p hashes b :
  parent_to_child b !! p = None → (∀ h block, h ∈ hashes → bf_blocks b !! h = Some block → bs_parent_hash block = p) →
  parent_to_child (remove_each hashes b).2 = parent_to_child b.
Proof.
  revert b. induction hashes as [|h hashes IH]; intros b Hp Hall; [done|]. rewrite remove_each_cons. simpl.
  assert (parent_to_child (remove_block h b).2 = parent_to_child b ∧
          ∀ k block, bf_blocks (remove_block h b).2 !! k = Some block → bf_blocks b !! k = Some block) as [E1 E2].
  { unfold remove_block. destruct (bf_blocks b !! h) as [block|] eqn:Hb; simpl; [|done].
    rewrite (Hall h block) by (done || left). unfold index_remove. rewrite Hp. split; [done|].
    by intros k block' [_ ?]%lookup_delete_Some. }
  rewrite IH; [done|by rewrite E1|]. intros k block Hk Hb. apply (Hall k); [by right|by apply E2].
Qed.

(** One round: all children of the parent go, and nothing else. *)
Lemma children_step p set b :
  buffer_ok b → parent_to_child b !! p = Some set →
  let b0 := mkBlockBuffer (bf_blocks b) (delete p (parent_to_child b)) (earliest_blocks b) (bf_lru b) in
  let r := remove_each (iter_set set) b0 in
  buffer_ok r.2 ∧ r.1 = omap (λ h, bf_blocks b !! h) (iter_set set) ∧ bs_hash <$> r.1 = iter_set set ∧
  bf_blocks r.2 = filter (λ e, bs_parent_hash e.2 ≠ p) (bf_blocks b) ∧
  parent_to_child r.2 = delete p (parent_to_child b) ∧ lc_limit (bf_lru r.2) = lc_limit (bf_lru b).
Proof.
  intros Hb Hp b0 r. destruct Hb as [Hh [Hne Hi] Hn Hc Hk].
  assert (∀ h, h ∈ iter_set set ↔ ∃ block, bf_blocks b !! h = Some block ∧ bs_parent_hash block = p) as Hset.
  { intros h. rewrite elem_of_iter_set, <-Hi, Hp. done. }
  assert (buffer_mid (λ k, k ≠ p) (λ _, True) b0) as Hb0.
  { constructor; simpl; try done; [|by rewrite map_filter_all].
    eapply (index_ok_restrict _ _ _ _ _ (λ k, k ≠ p)); [done| |].
    - intros h block. by rewrite map_lookup_filter_Some.
    - intros k s. rewrite lookup_delete_Some. naive_solver. }
  destruct (remove_each_mid _ _ (iter_set set) b0 Hb0 (iter_set_NoDup _)) as (E1 & E2 & E3 & E4). fold r in E1, E2, E3, E4.
  assert (bf_blocks r.2 = filter (λ e, bs_parent_hash e.2 ≠ p) (bf_blocks b)) as E5.
  { rewrite E2. apply map_filter_ext. intros h block Hblock. rewrite Hset. simpl in *. naive_solver. }
  split_and!; try done.
  - eapply buffer_mid_ok; [done|]. intros h block Hblock. split; [|done]. rewrite E5 in Hblock.
    by apply map_lookup_filter_Some in Hblock as [_ ?].
  - rewrite E1. apply omap_hashes; [done|]. intros h (block & ? & _)%Hset. by exists block.
  - apply (remove_each_index p); simpl; [apply lookup_delete_eq|]. intros h block Hs Hblock.
    apply Hset in Hs as (block' & ? & ?). congruence.
Qed.

(** The blocks below a parent and the rest of the stack: its children, and what is below
    them and the rest once they are gone. *)
Lemma below_step blocks p (children stack : list Z) h :
  (∀ k, k ∈ children ↔ ∃ block, blocks !! k = Some block ∧ bs_parent_hash block = p) →
  below blocks (p :: stack) h ↔
  h ∈ children ∨ below (filter (λ e, bs_parent_hash e.2 ≠ p) blocks) (reverse children ++ stack) h.
Proof.
  intros Hc. split.
  - intros (l & r & Hl & Hp & Hr). induction Hp as [|h block l r Hb Hp IH]; [done|].
    destruct (decide (bs_parent_hash block = p)) as [Hbp|Hbp]; [left; apply Hc; by exists block|]. right.
    assert (filter (λ e, bs_parent_hash e.2 ≠ p) blocks !! h = Some block) as Hb' by (by apply map_lookup_filter_Some).
    destruct l as [|c l].
    + inversion Hp; subst. exists [block], (bs_parent_hash block). split_and!; [done|by apply path_single|].
      apply elem_of_cons in Hr as [?|?]; [done|]. rewrite elem_of_app. by right.
    + destruct IH as [Hin|(l' & r' & Hl' & Hp' & Hr')]; [done|done| |].
      * exists [block], (bs_parent_hash block). split_and!; [done|by apply path_single|]. rewrite elem_of_app, elem_of_reverse. by left.
      * exists (block :: l'), r'. split_and!; [done|by econstructor|done].
  - intros [(block & Hb & Hbp)%Hc|(l & r & Hl & Hp & Hr)].
    + exists [block], p. split_and!; [done|rewrite <-Hbp; by apply path_single|left].
    + apply (path_weaken _ _ blocks) in Hp; [|apply map_filter_subseteq].
      rewrite elem_of_app, elem_of_reverse in Hr. destruct Hr as [(block & Hb & <-)%Hc|Hr].
      * exists (l ++ [block]), (bs_parent_hash block). split_and!; [by destruct l|by eapply path_snoc|left].
      * exists l, r. split_and!; [done|done|by right].
Qed.

(** What a removal of descendants leaves and returns: exactly the blocks below the given
    hashes go, each is returned once, and comes after its parent. *)
Record cut_below (stack : list Z) b (removed : list SealedBlockWithSenders) b' : Prop := {
  cb_ok : buffer_ok b';
  cb_limit : lc_limit (bf_lru b') = lc_limit (bf_lru b);
  cb_unique : NoDup (bs_hash <$> removed);
  cb_removed block :
    block ∈ removed ↔ bf_blocks b !! bs_hash block = Some block ∧ below (bf_blocks b) stack (bs_hash block);
  cb_left h block : bf_blocks b' !! h = Some block ↔ bf_blocks b !! h = Some block ∧ ¬ below (bf_blocks b) stack h;
  cb_order l1 block l2 :
    removed = l1 ++ block :: l2 → bs_parent_hash block ∈ stack ∨ bs_parent_hash block ∈ bs_hash <$> l1;
}.

Lemma cut_below_nil b : buffer_ok b → cut_below [] b [] b.
Proof.
  intros Hb. assert (∀ h, ¬ below (bf_blocks b) [] h) as Hn by (intros h (l & r & _ & _ & Hr); by apply elem_of_nil in Hr).
  constructor; try done; [by constructor|..]; [|naive_solver|by intros []].
  intros block. split; [by intros ?%elem_of_nil|]. intros [_ Hbl]. by apply Hn in Hbl.
Qed.
Lemma cut_below_skip p stack b removed b' :
  buffer_ok b → parent_to_child b !! p = None → cut_below stack b removed b' → cut_below (p :: stack) b removed b'.
Proof.
  intros Hb Hp [C1 C2 C3 C4 C5 C6].
  assert (∀ block, ¬ ∃ h, bf_blocks b !! h = Some block ∧ bs_parent_hash block = p) as Hno.
  { intros block (h & Hblock & Hbp). pose proof (proj2 (proj2 (bo_parent _ Hb) p h) ltac:(by exists block)) as Hh.
    rewrite Hp in Hh. simpl in Hh. set_solver. }
  assert (∀ h, below (bf_blocks b) (p :: stack) h ↔ below (bf_blocks b) stack h) as Hbelow.
  { intros h. rewrite (below_step _ p [] stack h).
    - rewrite map_filter_all by (intros k x Hx Hxp; by apply (Hno x); exists k). simpl. split; [|by right].
      intros [?%elem_of_nil|?]; done.
    - intros k. split; [by intros ?%elem_of_nil|]. intros (block & ? & ?). by destruct (Hno block); exists k. }
  constructor; try done; [intros block; by rewrite C4, Hbelow|intros h block; by rewrite C5, Hbelow|].
  intros l1 block l2 E. destruct (C6 _ _ _ E); [left; by right|by right].
Qed.
Lemma cut_below_step p set stack b removed b' :
  buffer_ok b → parent_to_child b !! p = Some set →
  let b0 := mkBlockBuffer (bf_blocks b) (delete p (parent_to_child b)) (earliest_blocks b) (bf_lru b) in
  let r := remove_each (iter_set set) b0 in
  cut_below (reverse (iter_set set) ++ stack) r.2 removed b' → cut_below (p :: stack) b (r.1 ++ removed) b'.
Proof.
  intros Hb Hp b0 r Hcut. destruct (children_step p set b Hb Hp) as (D1 & D2 & D3 & D4 & D5 & D6). fold b0 r in D1, D2, D3, D4, D5, D6.
  destruct Hcut as [C1 C2 C3 C4 C5 C6]. rewrite D4 in C4, C5.
  assert (∀ h, h ∈ iter_set set ↔ ∃ block, bf_blocks b !! h = Some block ∧ bs_parent_hash block = p) as Hset.
  { intros h. rewrite elem_of_iter_set, <-(proj2 (bo_parent _ Hb)), Hp. done. }
  assert (∀ block, block ∈ r.1 ↔ bf_blocks b !! bs_hash block = Some block ∧ bs_parent_hash block = p) as Hr1.
  { intros block. rewrite D2, list_elem_of_omap. split.
    - intros (h & (block' & Hb1 & Hb2)%Hset & Hb3). assert (block' = block) as -> by congruence. by rewrite (bo_hash _ Hb h).
    - intros [Hb1 Hb2]. exists (bs_hash block). split; [apply Hset; by exists block|done]. }
  constructor; [done|congruence|..].
  - rewrite fmap_app, D3. apply NoDup_app. split_and!; [apply iter_set_NoDup| |done].
    intros h (block & Hb1 & Hb2)%Hset (x & -> & Hx%C4)%list_elem_of_fmap. destruct Hx as [[Hx Hxp]%map_lookup_filter_Some _].
    simpl in Hxp. congruence.
  - intros block. rewrite elem_of_app, Hr1, C4, map_lookup_filter_Some, (below_step _ p _ stack _ Hset), Hset. simpl. split.
    + intros [[? ?]|[[? ?] ?]]; (split; [done|]); [left; by exists block|by right].
    + intros [Hb1 [(block' & ? & ?)|Hbl]]; [left; by assert (block' = block) as -> by congruence|].
      destruct (decide (bs_parent_hash block = p)); [by left|by right].
  - intros h block. rewrite C5, map_lookup_filter_Some, (below_step _ p _ stack _ Hset), Hset. simpl. naive_solver.
  - intros l1 block l2 E. apply app_eq_inv in E as [(k & E1 & E2)|(k & E1 & E2)].
    + destruct k as [|x k].
      * simpl in E2. rewrite app_nil_r in E1. destruct (C6 [] block l2) as [Hs|Hs]; [done| |by apply elem_of_nil in Hs].
        rewrite elem_of_app, elem_of_reverse in Hs. destruct Hs as [Hs|Hs]; [right; rewrite <-E1, D3; done|left; by right].
      * injection E2 as <- E2. left. destruct (proj1 (Hr1 block)) as [_ ->]; [rewrite E1, elem_of_app; right; left|left].
    + destruct (C6 k block l2) as [Hs|Hs]; [done| |].
      * rewrite elem_of_app, elem_of_reverse in Hs. destruct Hs as [Hs|Hs]; [|left; by right].
        right. rewrite E1, fmap_app, D3, elem_of_app. by left.
      * right. rewrite E1, fmap_app, elem_of_app. by right.
Qed.

Lemma children_loop_ok fuel stack removed b :
  buffer_ok b → (children_fuel stack b ≤ fuel)%nat →
  ∃ new b', children_loop fuel stack removed b = Done (removed ++ new, b') ∧ cut_below stack b new b'.
Proof.
  revert stack removed b. induction fuel as [|fuel IH]; intros stack removed b Hb Hf; unfold children_fuel in *.
  { destruct stack; simpl in Hf; [|lia]. exists [], b. rewrite app_nil_r. split; [done|by apply cut_below_nil]. }
  destruct stack as [|p stack]; simpl in *; [exists [], b; rewrite app_nil_r; split; [done|by apply cut_below_nil]|].
  destruct (parent_to_child b !! p) as [set|] eqn:Hp.
  - destruct (children_step p set b Hb Hp) as (D1 & D2 & D3 & D4 & D5 & D6). simpl in *.
    pose proof (λ new b', cut_below_step p set stack b new b' Hb Hp) as Hstep. simpl in Hstep.
    destruct (remove_each _ _) as [blocks b1] eqn:Hr. simpl in *.
    destruct (IH (reverse (iter_set set) ++ stack) (removed ++ blocks) b1 D1) as (new & b' & -> & Hcut).
    { rewrite D5. rewrite (map_sum_delete _ _ _ _ Hp) in Hf. rewrite length_app, length_reverse.
      assert (length (iter_set set) = size set) as Hlen.
      { unfold iter_set. rewrite length_fmap, iter_perm. rewrite length_map_to_list, <-(size_dom (D:=gset Z)), dom_gset_to_gmap. done. }
      assert (0 ≤ map_sum (λ s, Z.of_nat (size s)) (delete p (parent_to_child b))) by (apply map_sum_nonneg; lia). lia. }
    exists (blocks ++ new), b'. rewrite <-app_assoc. split; [done|]. by apply Hstep.
  - destruct (IH stack removed b Hb) as (new & b' & -> & Hcut); [lia|].
    exists new, b'. split; [done|]. by apply cut_below_skip.
Qed.

Lemma cut_below_perm stack stack' b removed b' :
  (∀ h, h ∈ stack ↔ h ∈ stack') → cut_below stack b removed b' → cut_below stack' b removed b'.
Proof.
  intros Hs [C1 C2 C3 C4 C5 C6].
  assert (∀ h, below (bf_blocks b) stack h ↔ below (bf_blocks b) stack' h) as Hb
    by (intros h; unfold below; by setoid_rewrite Hs).
  constructor; try done; [intros; by rewrite C4, Hb|intros; by rewrite C5, Hb|intros l1 block l2 E; rewrite <-Hs; by eapply C6].
Qed.
Lemma remove_children_ok hashes b :
  buffer_ok b → ∃ removed b', remove_children hashes b = Done (removed, b') ∧ cut_below hashes b removed b'.
Proof.
  intros Hb. destruct (children_loop_ok (children_fuel hashes b) (reverse hashes) [] b Hb) as (new & b' & E & Hcut).
  { unfold children_fuel. by rewrite length_reverse. }
  exists new, b'. split; [exact E|]. eapply cut_below_perm; [|done]. intros h. apply elem_of_reverse.
Qed.

(** A way to a hash without the block of that hash. *)
Lemma path_to_delete (blocks : gmap Z SealedBlockWithSenders) x l h :
  path bs_parent_hash blocks x l h → x ≠ h → below (delete h blocks) [h] x.
Proof.
  induction 1 as [|x block l r Hb Hp IH]; intros Hx; [done|].
  assert (delete r blocks !! x = Some block) as Hb' by (by rewrite lookup_delete_ne).
  destruct (decide (bs_parent_hash block = r)) as [Hr|Hr].
  - exists [block], r. split_and!; [done|rewrite <-Hr at 2; by apply path_single|left].
  - destruct (IH Hr) as (l' & r' & Hl' & Hp' & Hr'). exists (block :: l'), r'. split_and!; [done|by econstructor|done].
Qed.

(** The block of the hash and all its buffered descendants go, each is returned once, and
    after its parent. *)
Lemma remove_block_with_children_ok h b :
  buffer_ok b →
  ∃ removed b',
    remove_block_with_children h b = Done (removed, b') ∧ buffer_ok b' ∧
    lc_limit (bf_lru b') = lc_limit (bf_lru b) ∧ NoDup (bs_hash <$> removed) ∧
    (∀ block, block ∈ removed ↔
       bf_blocks b !! bs_hash block = Some block ∧ ∃ l, path bs_parent_hash (bf_blocks b) (bs_hash block) l h) ∧
    (∀ x block, bf_blocks b' !! x = Some block ↔
       bf_blocks b !! x = Some block ∧ ¬ ∃ l, path bs_parent_hash (bf_blocks b) x l h) ∧
    (∀ l1 block l2, removed = l1 ++ block :: l2 →
       bs_hash block = h ∧ l1 = [] ∨ bs_parent_hash block = h ∨ bs_parent_hash block ∈ bs_hash <$> l1).
Proof.
  intros Hb. unfold remove_block_with_children. destruct (remove_block_ok h b Hb) as (E1 & E2 & E3 & E4).
  destruct (remove_block h b) as [block1 b1]. simpl in *. subst block1.
  destruct (remove_children_ok [h] b1 E4) as (removed & b' & -> & [C1 C2 C3 C4 C5 C6]). rewrite E2 in C4, C5.
  assert (∀ x, x ≠ h → below (delete h (bf_blocks b)) [h] x ↔ ∃ l, path bs_parent_hash (bf_blocks b) x l h) as Hbelow.
  { intros x Hx. split; [|intros [l Hl]; by eapply path_to_delete].
    intros (l & r & _ & Hp & ->%list_elem_of_singleton). exists l. eapply path_weaken; [apply delete_subseteq|done]. }
  assert (∀ block, block ∈ removed → bs_hash block ≠ h) as Hne.
  { intros block [Hx _]%C4 Heq. by rewrite Heq, lookup_delete_eq in Hx. }
  eexists _, b'. split_and!; [done|done|congruence|..].
  - rewrite fmap_app. apply NoDup_app. split_and!; [|intros x Hx (block & -> & Hin)%list_elem_of_fmap|done].
    + destruct (bf_blocks b !! h); simpl; [apply NoDup_singleton|constructor].
    + destruct (bf_blocks b !! h) as [block'|] eqn:Hbl; simpl in Hx; [|by apply elem_of_nil in Hx].
      apply list_elem_of_singleton in Hx. rewrite (bo_hash _ Hb _ _ Hbl) in Hx. by apply (Hne block).
  - intros block. rewrite elem_of_app, C4, lookup_delete_Some. split.
    + intros [Hin|([Hx Hblock] & Hbl)].
      * destruct (bf_blocks b !! h) as [block'|] eqn:Hbl; simpl in Hin; [|by apply elem_of_nil in Hin].
        apply list_elem_of_singleton in Hin as ->. rewrite (bo_hash _ Hb _ _ Hbl). split; [done|]. exists []. constructor.
      * split; [done|]. apply Hbelow; [congruence|done].
    + intros [Hblock Hl]. destruct (decide (bs_hash block = h)) as [Heq|Hn].
      * left. rewrite <-Heq, Hblock. simpl. left.
      * right. split; [done|]. by apply Hbelow.
  - intros x block. rewrite C5, lookup_delete_Some. split.
    + intros ([Hx Hblock] & Hbl). split; [done|]. rewrite <-Hbelow by congruence. done.
    + intros [Hblock Hn]. assert (h ≠ x) as Hx by (intros ->; apply Hn; exists []; constructor).
      split; [done|]. rewrite Hbelow by congruence. done.
  - intros l1 block l2 E. destruct (bf_blocks b !! h) as [block'|] eqn:Hbl; simpl in E.
    + destruct l1 as [|x l1]; injection E as <- E.
      * left. split; [by apply (bo_hash _ Hb)|done].
      * right. destruct (C6 _ _ _ E) as [->%list_elem_of_singleton|Hin]; [by left|right; by right].
    + right. destruct (C6 _ _ _ E) as [->%list_elem_of_singleton|Hin]; [by left|by right].
Qed.

(** ** Removal of old blocks *)
Lemma remove_all_mid (P Q : Z → Prop) `{∀ k, Decision (P k)} `{∀ k, Decision (Q k)} hashes b :
  buffer_mid P Q b →
  let b' := foldl (λ b hash, (remove_block hash b).2) b hashes in
  bf_blocks b' = filter (λ e, e.1 ∉ hashes) (bf_blocks b) ∧ lc_limit (bf_lru b') = lc_limit (bf_lru b) ∧ buffer_mid P Q b'.
Proof.
  revert b. induction hashes as [|h hashes IH]; intros b Hb; simpl.
  { split_and!; try done. rewrite map_filter_all; [done|]. intros k x _. by apply not_elem_of_nil. }
  destruct (remove_block_mid P Q h b Hb) as (_ & E2 & E3 & E4). destruct (IH _ E4) as (F2 & F3 & F4).
  simpl in *. rewrite F2, F3, E2, E3. split_and!; try done.
  apply map_eq. intros k. apply option_eq. intros x. rewrite !map_lookup_filter_Some, lookup_delete_Some, not_elem_of_cons.
  simpl. naive_solver.
Qed.
Lemma old_entries n (m : gmap Z (gset Z)) e :
  e ∈ take_while (λ e, e.1 <=? n) (bmap_iter m) ↔ m !! e.1 = Some e.2 ∧ e.1 ≤ n.
Proof.
  rewrite (take_while_sorted key_lt); [|apply bmap_iter_sorted|].
  - destruct e as [k s]. simpl. rewrite elem_of_bmap_iter, Z.leb_le. done.
  - intros x y Hxy Hy. apply Z.leb_le in Hy. apply Z.leb_le. assert (x.1 < y.1) by (by apply Z.compare_lt_iff). lia.
Qed.

(** The blocks with a number up to the given one go, and with them their descendants. *)
Lemma remove_old_blocks_ok n b :
  buffer_ok b →
  ∃ b', remove_old_blocks n b = Done b' ∧ buffer_ok b' ∧ lc_limit (bf_lru b') = lc_limit (bf_lru b) ∧
    ∀ h block, bf_blocks b' !! h = Some block ↔
      bf_blocks b !! h = Some block ∧
      ∀ l r, path bs_parent_hash (bf_blocks b) h l r → Forall (λ x, n < bs_number x) l.
Proof.
  intros Hb. unfold remove_old_blocks. set (old := take_while _ _). set (b0 := mkBlockBuffer _ _ _ _).
  set (hashes := mjoin _).
  assert (∀ k, k ∈ old.*1 ↔ is_Some (earliest_blocks b !! k) ∧ k ≤ n) as Hold.
  { intros k. unfold old. rewrite list_elem_of_fmap. setoid_rewrite old_entries. split.
    - intros ([k' s] & -> & Hs & Hk). by split; [exists s|].
    - intros [[s Hs] Hk]. by exists (k, s). }
  assert (∀ h, h ∈ hashes ↔ ∃ block, bf_blocks b !! h = Some block ∧ bs_number block ≤ n) as Hhashes.
  { intros h. unfold hashes. rewrite list_elem_of_join. split.
    - intros (l & Hh & (e & -> & [He Hen]%old_entries)%list_elem_of_fmap). rewrite elem_of_iter_set in Hh.
      destruct (proj1 (proj2 (bo_number _ Hb) e.1 h)) as (block & ? & ?); [by rewrite He|]. exists block. split; [done|lia].
    - intros (block & Hbl & Hn). pose proof (proj2 (proj2 (bo_number _ Hb) _ h) ltac:(by exists block)) as Hin.
      destruct (earliest_blocks b !! bs_number block) as [s|] eqn:Hs; [|simpl in Hin; set_solver].
      exists (iter_set s). rewrite elem_of_iter_set, list_elem_of_fmap. split; [done|].
      exists (bs_number block, s). split; [done|]. by apply old_entries. }
  assert (buffer_mid (λ _, True) (λ k, k ∉ old.*1) b0) as Hb0.
  { destruct Hb as [Hh Hp Hn Hc Hk]. constructor; simpl; try done; [by rewrite map_filter_all|].
    eapply (index_ok_restrict _ _ _ _ _ (λ k, k ∉ old.*1)); [done|intros; by rewrite map_lookup_filter_Some..]. }
  destruct (remove_all_mid _ _ hashes b0 Hb0) as (E2 & E3 & E4). simpl in *. set (b1 := foldl _ _ _) in *.
  assert (∀ h block, bf_blocks b1 !! h = Some block ↔ bf_blocks b !! h = Some block ∧ n < bs_number block) as Hb1.
  { intros h block. rewrite E2, map_lookup_filter_Some, Hhashes. simpl. split.
    - intros [Hbl Hno]. split; [done|]. apply Z.nle_gt. intros Hle. apply Hno. by exists block.
    - intros [Hbl Hn]. split; [done|]. intros (block' & ? & ?). assert (block' = block) as -> by congruence. lia. }
  assert (buffer_ok b1) as Hok1.
  { eapply buffer_mid_ok; [done|]. intros h block [_ Hn]%Hb1. split; [done|]. rewrite Hold. intros [_ ?]. lia. }
  destruct (remove_children_ok hashes b1 Hok1) as (removed & b' & -> & [C1 C2 C3 C4 C5 C6]).
  exists b'. split_and!; [done|done|congruence|]. intros h block. rewrite C5, Hb1. split.
  - intros ([Hbl Hn] & Hno). split; [done|]. intros l r Hp. apply Forall_forall. intros x Hx. apply Z.nle_gt. intros Hxn.
    assert (h ∈ hashes ∨ below (bf_blocks b1) hashes h) as [Hin|?]; [|apply Hhashes in Hin as (? & ? & ?); simplify_eq; lia|done].
    clear -Hp Hx Hxn Hhashes Hb1. induction Hp as [|h y l r Hy Hp IH]; [by apply elem_of_nil in Hx|].
    destruct (decide (bs_number y ≤ n)) as [Hyn|Hyn]; [left; apply Hhashes; by exists y|]. right.
    assert (bf_blocks b1 !! h = Some y) as Hy1 by (apply Hb1; split; [done|lia]).
    apply elem_of_cons in Hx as [->|Hx]; [lia|]. destruct (IH Hx) as [Hin|(l' & r' & Hl' & Hp' & Hr')].
    + exists [y], (bs_parent_hash y). split_and!; [done|by apply path_single|done].
    + exists (y :: l'), r'. split_and!; [done|by econstructor|done].
  - intros [Hbl Hall]. assert (n < bs_number block) as Hn.
    { pose proof (Hall _ _ (path_single _ _ _ _ Hbl)) as Hf. by inversion Hf. }
    split; [done|]. intros (l & r & _ & Hp & (y & Hy & Hyn)%Hhashes).
    apply (path_weaken _ _ (bf_blocks b)) in Hp; [|apply map_subseteq_spec; intros k z [? _]%Hb1; done].
    pose proof (Hall _ _ (path_snoc _ _ _ _ _ _ Hp Hy)) as Hf. apply Forall_app in Hf as [_ Hf]. inversion Hf; lia.
Qed.

(** ** The lowest ancestor *)
Definition blocks_known `{BlockHashes} b : Prop :=
  ∀ h block, bf_blocks b !! h = Some block → known (sb_header (bs_block block)).
Lemma buffer_linked `{BlockHashes} `{!BlockHashesLaws} b :
  buffer_ok b → blocks_known b → linked bs_parent_hash hash_rank (bf_blocks b).
Proof. intros Hb Hk h block Hbl. rewrite <-(bo_hash _ Hb _ _ Hbl). apply (known_rank _ (Hk _ _ Hbl)). Qed.
Lemma lowest_ancestor_ok `{BlockHashes} `{!BlockHashesLaws} h b :
  buffer_ok b → blocks_known b →
  ∃ l r, path bs_parent_hash (bf_blocks b) h l r ∧ bf_blocks b !! r = None ∧ lowest_ancestor h b = Done (last l) ∧
    (∀ block, last l = Some block → bs_parent_hash block = r).
Proof.
  intros Hb Hk. destruct (ancestors_done bs_parent_hash hash_rank _ h (buffer_linked b Hb Hk)) as (l & r & E & Hp & Hr).
  exists l, r. split_and!; [done|done|unfold lowest_ancestor; by rewrite E|].
  intros block Hl. symmetry. by eapply path_last.
Qed.

(** ** Sequences of operations *)
Inductive BufferOp := InsertBlock (block : SealedBlockWithSenders) | RemoveWithChildren (hash : Z) | RemoveOld (number : Z).
Definition buffer_step (o : BufferOp) b : outcome BlockBuffer :=
  match o with
  | InsertBlock block => Done (insert_block block b)
  | RemoveWithChildren hash => '(_, b) ← remove_block_with_children hash b; Done b
  | RemoveOld number => remove_old_blocks number b
  end.
Lemma buffer_step_ok `{BlockHashes} `{!BlockHashesLaws} o b :
  buffer_ok b → blocks_known b → (∀ block, o = InsertBlock block → known (sb_header (bs_block block))) →
  ∃ b', buffer_step o b = Done b' ∧ buffer_ok b' ∧ lc_limit (bf_lru b') = lc_limit (bf_lru b) ∧
    ∀ h block, bf_blocks b' !! h = Some block → bf_blocks b !! h = Some block ∨ o = InsertBlock block.
Proof.
  intros Hb Hk Ho. destruct o as [block|hash|n]; simpl.
  - destruct (insert_block_ok block b Hb) as (Hb' & Hbl & Hl).
    { intros old Hold. pose proof (Hk _ _ Hold) as Hko. pose proof (bo_hash _ Hb _ _ Hold) as Hh.
      unfold bs_parent_hash, bs_number, sb_parent_hash, sb_number. by rewrite (known_unique _ _ Hko (Ho _ eq_refl) Hh). }
    eexists. split_and!; [done|done|done|]. intros h x. rewrite Hbl. unfold after_insert.
    intros [[_ <-]|[_ Hx]]%lookup_insert_Some; [by right|]. left. destruct (evicted block b); [|done]. by apply lookup_delete_Some in Hx as [_ ?].
  - destruct (remove_block_with_children_ok hash b Hb) as (removed & b' & -> & Hb' & Hl & _ & _ & Hleft & _).
    exists b'. split_and!; [done|done|done|]. intros h x [? _]%Hleft. by left.
  - destruct (remove_old_blocks_ok n b Hb) as (b' & -> & Hb' & Hl & Hleft).
    exists b'. split_and!; [done|done|done|]. intros h x [? _]%Hleft. by left.
Qed.

(** C22. The buffer of disconnected blocks stays within its limit, with exact indices: any sequence of
    insertions of known blocks and removals on a new buffer ends; the buffer then holds at most as
    many blocks as configured (one, if that is zero), each of them one that was inserted, under its
    hash; the children of a hash and the blocks of a number are exactly those in the buffer, and
    following parents from any hash ends. *)
Theorem buffer_run_exact `{BlockHashes} `{!BlockHashesLaws} limit ops :
  0 ≤ limit < 2 ^ 32 - 1 → (∀ block, InsertBlock block ∈ ops → known (sb_header (bs_block block))) →
  ∃ b, for_each buffer_step ops (BlockBuffer_new limit) = Done b ∧
    Z.of_nat (size (bf_blocks b)) ≤ Z.max 1 limit ∧
    (∀ h block, bf_blocks b !! h = Some block → InsertBlock block ∈ ops ∧ bs_hash block = h) ∧
    index_ok bs_parent_hash (bf_blocks b) (parent_to_child b) ∧
    index_ok bs_number (bf_blocks b) (earliest_blocks b) ∧
    (∀ h, ∃ o, lowest_ancestor h b = Done o).
Proof.
  intros Hl Hops.
  set (I := λ (rest : list BufferOp) b, (∀ o, o ∈ rest → o ∈ ops) ∧ buffer_ok b ∧ lc_limit (bf_lru b) = limit ∧
    ∀ h block, bf_blocks b !! h = Some block → InsertBlock block ∈ ops).
  destruct (for_each_ind I buffer_step ops (BlockBuffer_new limit)) as (b & E & _ & Hb & Hlim & Hin).
  - intros o rest b (Hr & Hb & Hlim & Hin). destruct (buffer_step_ok o b Hb) as (b' & E & Hb' & Hlim' & Hin').
    + intros h x Hx. apply Hops. by eapply Hin.
    + intros block ->. apply Hops, Hr. left.
    + exists b'. split; [done|]. split_and!; [intros; apply Hr; by right|done|congruence|].
      intros h x [?| ->]%Hin'; [by eapply Hin|apply Hr; left].
  - split_and!; [done|by apply BlockBuffer_new_ok|done|]. intros h x. simpl. by rewrite lookup_empty.
  - exists b. split_and!; [done|..].
    + rewrite (size_keys _ Hb). destruct (bo_cache _ Hb) as (_ & _ & Hlen). by rewrite Hlim in Hlen.
    + intros h x Hx. split; [by eapply Hin|by apply (bo_hash _ Hb)].
    + apply Hb.
    + apply Hb.
    + intros h. destruct (lowest_ancestor_ok h b Hb) as (l & r & _ & _ & E' & _); [intros k x Hx; apply Hops; by eapply Hin|].
      by eexists.
Qed.
End invariant.
