(* ===== verification/TreeState.v ===== *)
(** * The tree of executed blocks

    [ExecutedBlock] and [NewCanonicalChain] ([chain-state/src/in_memory.rs]), and [TreeState]
    ([engine/tree/src/tree/mod.rs]): the executed blocks that are not in the database yet, of
    all forks, and the canonical head.

    The outcome of an execution, the hashed state and the trie updates are kept as numbers
    that identify them: only the executor and the trie look into them. *)

From stdpp Require Import prelude gmap list sorting.
From S2P Require Import Prelude.
From S2P Require Import Ord.
From S2P Require Import Header.
From S2P Require Import Codecs.
From S2P Require Import Consensus.
From S2P Require Import Links.
From S2P Require Import BlockBuffer.

(** ** Data *)
Record ExecutionOutcome := mkExecutionOutcome {
  eo_bundle : Z;
  eo_receipts : list Receipt;
  eo_first_block : Z;
  eo_requests : list Z;
}.
Record ExecutedBlock := mkExecutedBlock {
  eb_block : SealedBlock;
  eb_senders : list Z;
  eb_execution_output : ExecutionOutcome;
  eb_hashed_state : Z;
  eb_trie : Z;
}.
Definition eb_hash (b : ExecutedBlock) : Z := sb_hash (eb_block b).
Definition eb_parent_hash (b : ExecutedBlock) : Z := sb_parent_hash (eb_block b).
Definition eb_number (b : ExecutedBlock) : Z := sb_number (eb_block b).

Inductive NewCanonicalChain :=
| Commit (new : list ExecutedBlock)
| Reorg (new old : list ExecutedBlock).
Definition new_blocks (c : NewCanonicalChain) : list ExecutedBlock := match c with Commit new | Reorg new _ => new end.
Definition new_block_count (c : NewCanonicalChain) : Z := Z.of_nat (length (new_blocks c)).
Definition reorged_block_count (c : NewCanonicalChain) : Z :=
  match c with Commit _ => 0 | Reorg _ old => Z.of_nat (length old) end.
Definition tip (c : NewCanonicalChain) : outcome SealedBlock := expect (eb_block <$> last (new_blocks c)).

Inductive Bound := Included (n : Z) | Excluded (n : Z) | Unbounded.
Definition within (b : Bound) (n : Z) : bool :=
  match b with Included k => n <=? k | Excluded k => n <? k | Unbounded => true end.

Record TreeState := mkTreeState {
  blocks_by_hash : gmap Z ExecutedBlock;
  blocks_by_number : gmap Z (list ExecutedBlock);
  ts_parent_to_child : gmap Z (gset Z);
  current_canonical_head : BlockNumHash;
}.
Definition TreeState_new (head : BlockNumHash) : TreeState := mkTreeState ∅ ∅ ∅ head.

(** ** Operations *)
Definition block_count (t : TreeState) : Z := Z.of_nat (size (blocks_by_hash t)).
Definition tree_block_by_hash (hash : Z) (t : TreeState) : option SealedBlock := eb_block <$> blocks_by_hash t !! hash.
Definition canonical_block_number (t : TreeState) : Z := (current_canonical_head t).1.
Definition canonical_block_hash (t : TreeState) : Z := (current_canonical_head t).2.
Definition set_canonical_head (head : BlockNumHash) (t : TreeState) : TreeState :=
  mkTreeState (blocks_by_hash t) (blocks_by_number t) (ts_parent_to_child t) head.

(** [TreeState::blocks_by_hash]. *)
Definition chain_of (hash : Z) (t : TreeState) : outcome (option (Z * list ExecutedBlock)) :=
  match blocks_by_hash t !! hash with
  | None => Done None
  | Some block =>
    '(l, parent_hash) ← ancestors eb_parent_hash (size (blocks_by_hash t)) (blocks_by_hash t) (eb_parent_hash block);
    Done (Some (parent_hash, block :: l))
  end.

Definition insert_executed (executed : ExecutedBlock) (t : TreeState) : TreeState :=
  let hash := eb_hash executed in
  let parent_hash := eb_parent_hash executed in
  let block_number := eb_number executed in
  match blocks_by_hash t !! hash with
  | Some _ => t
  | None =>
    let by_hash := <[hash := executed]> (blocks_by_hash t) in
    let by_number :=
      <[block_number := default [] (blocks_by_number t !! block_number) ++ [executed]]> (blocks_by_number t) in
    let children := index_insert parent_hash hash (ts_parent_to_child t) in
    let children :=
      match by_number !! block_number with
      | Some existing_blocks =>
        if 1 <? Z.of_nat (length existing_blocks) then index_insert parent_hash hash children else children
      | None => children
      end in
    let children := filter (λ child, is_Some (by_hash !! child)) <$> children in
    mkTreeState by_hash by_number children (current_canonical_head t)
  end.

Fixpoint fork_loop (fuel : nat) (target_hash current_hash : Z) (m : gmap Z ExecutedBlock) : outcome bool :=
  match m !! current_hash with
  | None => Done true
  | Some current_block =>
    if eb_hash current_block =? target_hash then Done false
    else match fuel with O => NoFuel | S fuel => fork_loop fuel target_hash (eb_parent_hash current_block) m end
  end.
Definition is_fork (block_hash : Z) (t : TreeState) : outcome bool :=
  fork_loop (size (blocks_by_hash t)) (canonical_block_hash t) block_hash (blocks_by_hash t).

Definition remove_executed (block : ExecutedBlock) (t : TreeState) : TreeState :=
  let block_hash := eb_hash block in
  mkTreeState (delete block_hash (blocks_by_hash t)) (blocks_by_number t)
    (delete block_hash (index_remove (eb_parent_hash block) block_hash (ts_parent_to_child t)))
    (current_canonical_head t).
Definition remove_number (t : TreeState) (number : Z) : TreeState :=
  match blocks_by_number t !! number with
  | None => t
  | Some blocks =>
    foldl (λ t block, remove_executed block t)
      (mkTreeState (blocks_by_hash t) (delete number (blocks_by_number t)) (ts_parent_to_child t) (current_canonical_head t))
      blocks
  end.
Definition remove_before (upper_bound : Bound) (t : TreeState) : TreeState :=
  let numbers_to_remove := take_while (within upper_bound) (bmap_iter (blocks_by_number t)).*1 in
  foldl remove_number t numbers_to_remove.

(** *** The new canonical chain *)
Fixpoint walk_new (fuel : nat) (m : gmap Z ExecutedBlock) (canonical_number : Z) (new_chain : list ExecutedBlock)
  (current_hash current_number : Z) : outcome (option (list ExecutedBlock * Z)) :=
  if canonical_number <? current_number then
    match m !! current_hash with
    | None => Done None
    | Some block =>
      match fuel with
      | O => NoFuel
      | S fuel =>
        walk_new fuel m canonical_number (new_chain ++ [block]) (eb_parent_hash block) (wrap_u64 (current_number - 1))
      end
    end
  else Done (Some (new_chain, current_hash)).
Fixpoint walk_both (fuel : nat) (m : gmap Z ExecutedBlock) (new_chain old_chain : list ExecutedBlock)
  (current_hash old_hash : Z) : outcome (option NewCanonicalChain) :=
  if old_hash =? current_hash then Done (Some (Reorg new_chain old_chain))
  else
    match m !! old_hash with
    | None => Done None
    | Some block =>
      let old_chain := old_chain ++ [block] in
      let old_hash := eb_parent_hash block in
      if old_hash =? current_hash then Done (Some (Reorg new_chain old_chain))
      else
        match m !! current_hash with
        | None => Done None
        | Some block =>
          match fuel with
          | O => NoFuel
          | S fuel => walk_both fuel m (block :: new_chain) old_chain (eb_parent_hash block) old_hash
          end
        end
    end.
Definition on_new_head (new_head : Z) (t : TreeState) : outcome (option NewCanonicalChain) :=
  let m := blocks_by_hash t in
  match m !! new_head with
  | None => Done None
  | Some new_head_block =>
    w ← walk_new (size m) m (canonical_block_number t) [new_head_block] (eb_parent_hash new_head_block)
          (wrap_u64 (eb_number new_head_block - 1));
    match w with
    | None => Done None
    | Some (new_chain, current_hash) =>
      let new_chain := reverse new_chain in
      if current_hash =? canonical_block_hash t then Done (Some (Commit new_chain))
      else walk_both (size m) m new_chain [] current_hash (canonical_block_hash t)
    end
  end.

(** ** The invariant *)

(** Blocks are stored under their hashes, the index by number has exactly the blocks, and the
    children that are recorded exist. *)
Record tree_ok (t : TreeState) : Prop := {
  to_hash h b : blocks_by_hash t !! h = Some b → eb_hash b = h;
  to_nonempty n l : blocks_by_number t !! n = Some l → l ≠ [] ∧ NoDup (eb_hash <$> l);
  to_number n b :
    b ∈ default [] (blocks_by_number t !! n) ↔ blocks_by_hash t !! eb_hash b = Some b ∧ eb_number b = n;
  to_children p h :
    h ∈ default ∅ (ts_parent_to_child t !! p) → ∃ b, blocks_by_hash t !! h = Some b ∧ eb_parent_hash b = p;
}.

Lemma TreeState_new_ok head : tree_ok (TreeState_new head).
Proof.
  constructor; simpl; [done|done|..].
  - intros n b. rewrite !lookup_empty. simpl. split; [by intros ?%elem_of_nil|by intros [? _]].
  - intros p h. rewrite lookup_empty. simpl. set_solver.
Qed.
Lemma set_canonical_head_ok head t : tree_ok t → tree_ok (set_canonical_head head t).
Proof. by intros []. Qed.

Lemma index_insert_lookup k h m k' :
  default ∅ (index_insert k h m !! k') = (if decide (k' = k) then {[h]} else ∅) ∪ default ∅ (m !! k').
Proof.
  unfold index_insert. case_decide as Hk; [subst; by rewrite lookup_insert_eq|].
  rewrite lookup_insert_ne by done. set_solver.
Qed.
(** An insertion adds the block, unless one with its hash is there. *)
Lemma insert_executed_ok e t :
  tree_ok t →
  tree_ok (insert_executed e t) ∧ current_canonical_head (insert_executed e t) = current_canonical_head t ∧
  blocks_by_hash (insert_executed e t) =
    match blocks_by_hash t !! eb_hash e with Some _ => blocks_by_hash t | None => <[eb_hash e := e]> (blocks_by_hash t) end.
Proof.
  intros [Hh Hne Hn Hc]. unfold insert_executed. destruct (blocks_by_hash t !! eb_hash e) as [b|] eqn:He; [done|].
  split_and!; [|done|done]. constructor; simpl.
  - intros h b [[<- <-]|[_ ?]]%lookup_insert_Some; [done|by apply Hh].
  - intros n l [[<- <-]|[_ ?]]%lookup_insert_Some; [|by eapply Hne]. split; [by destruct (default _ _)|].
    rewrite fmap_app, NoDup_app. simpl. split_and!; [|intros h (b & -> & [Hb _]%Hn)%list_elem_of_fmap|apply NoDup_singleton].
    + destruct (blocks_by_number t !! eb_number e) as [l|] eqn:Hl; simpl; [by apply (Hne _ _ Hl)|constructor].
    + rewrite list_elem_of_singleton. congruence.
  - intros n b. destruct (decide (n = eb_number e)) as [->|Hd].
    + rewrite lookup_insert_eq. simpl. rewrite elem_of_app, list_elem_of_singleton, Hn. rewrite lookup_insert_Some. split.
      * intros [[Hb1 Hb2]| ->]; [|by split; [left|]]. split; [right; split; [congruence|done]|done].
      * intros [[[_ ->]|[_ Hb]] Hb2]; [by right|by left].
    + rewrite lookup_insert_ne by done. rewrite Hn, lookup_insert_Some. split.
      * intros [Hb1 Hb2]. split; [right; split; [congruence|done]|done].
      * intros [[[_ ->]|[_ Hb]] Hb2]; [by destruct Hd|done].
  - intros p h. rewrite lookup_fmap.
    set (children := match _ with Some _ => _ | None => _ end).
    assert (∀ h, h ∈ default ∅ (children !! p) → h = eb_hash e ∧ p = eb_parent_hash e ∨ h ∈ default ∅ (ts_parent_to_child t !! p)) as Hch.
    { intros h'. unfold children. rewrite lookup_insert_eq.
      destruct (1 <? _); rewrite ?index_insert_lookup; case_decide; set_solver. }
    destruct (children !! p) as [s|] eqn:Hs; simpl; [|set_solver]. intros [_ Hin]%elem_of_filter.
    destruct (Hch h) as [[-> ->]|Hold]; [done|exists e; by rewrite lookup_insert_eq|].
    destruct (Hc _ _ Hold) as (b & Hb & Hbp). exists b. split; [|done]. rewrite lookup_insert_ne; congruence.
Qed.

(** *** Removal *)
Definition children_sound (t : TreeState) : Prop :=
  ∀ p h, h ∈ default ∅ (ts_parent_to_child t !! p) → ∃ b, blocks_by_hash t !! h = Some b ∧ eb_parent_hash b = p.
Lemma index_remove_incl k h m p x : x ∈ default ∅ (index_remove k h m !! p) → x ∈ default ∅ (m !! p) ∧ (p = k → x ≠ h).
Proof.
  unfold index_remove. destruct (m !! k) as [s|] eqn:Hk.
  - case_bool_decide; destruct (decide (p = k)) as [->|Hp];
      rewrite ?lookup_delete_eq, ?lookup_insert_eq, ?lookup_delete_ne, ?lookup_insert_ne, ?Hk by done; simpl; set_solver.
  - intros Hx. split; [done|]. intros ->. rewrite Hk in Hx. simpl in Hx. set_solver.
Qed.
Lemma remove_executed_children b t :
  children_sound t → blocks_by_hash t !! eb_hash b = Some b → children_sound (remove_executed b t).
Proof.
  intros Hc Hb p h. simpl. destruct (decide (p = eb_hash b)) as [->|Hp]; [rewrite lookup_delete_eq; simpl; set_solver|].
  rewrite lookup_delete_ne by done. intros [Hin Hne]%index_remove_incl. destruct (Hc _ _ Hin) as (b' & Hb' & Hbp).
  exists b'. split; [|done]. rewrite lookup_delete_ne; [done|]. intros <-. apply Hne; [|done]. congruence.
Qed.
Lemma remove_all_executed l t :
  children_sound t → NoDup (eb_hash <$> l) → (∀ b, b ∈ l → blocks_by_hash t !! eb_hash b = Some b) →
  let t' := foldl (λ t block, remove_executed block t) t l in
  children_sound t' ∧ blocks_by_number t' = blocks_by_number t ∧ current_canonical_head t' = current_canonical_head t ∧
  blocks_by_hash t' = filter (λ e, e.1 ∉ eb_hash <$> l) (blocks_by_hash t).
Proof.
  revert t. induction l as [|b l IH]; intros t Hc Hnd Hl; simpl.
  { split_and!; try done. symmetry. apply map_filter_id. intros k x _. apply not_elem_of_nil. }
  apply NoDup_cons in Hnd as [Hb Hnd].
  destruct (IH (remove_executed b t)) as (E1 & E2 & E3 & E4).
  { apply remove_executed_children; [done|]. apply Hl. left. }
  { done. }
  { intros b' Hb'. cbn [remove_executed blocks_by_hash]. rewrite lookup_delete_ne; [apply Hl; by right|].
    intros Heq. apply Hb. rewrite Heq. by apply (list_elem_of_fmap_2 eb_hash). }
  split_and!; [done|by rewrite E2|by rewrite E3|]. rewrite E4. simpl.
  apply map_eq. intros k. apply option_eq. intros x. rewrite !map_lookup_filter_Some, lookup_delete_Some, not_elem_of_cons.
  simpl. naive_solver.
Qed.
Lemma remove_number_ok n t :
  tree_ok t →
  tree_ok (remove_number t n) ∧ current_canonical_head (remove_number t n) = current_canonical_head t ∧
  blocks_by_number (remove_number t n) = delete n (blocks_by_number t) ∧
  blocks_by_hash (remove_number t n) = filter (λ e, eb_number e.2 ≠ n) (blocks_by_hash t).
Proof.
  intros Ht. destruct Ht as [Hh Hne Hn Hc]. unfold remove_number. destruct (blocks_by_number t !! n) as [l|] eqn:Hl.
  - assert (∀ b, b ∈ l ↔ blocks_by_hash t !! eb_hash b = Some b ∧ eb_number b = n) as Hin by (intros b; by rewrite <-Hn, Hl).
    destruct (remove_all_executed l (mkTreeState (blocks_by_hash t) (delete n (blocks_by_number t)) (ts_parent_to_child t)
                (current_canonical_head t))) as (E1 & E2 & E3 & E4); [done|by apply (Hne _ _ Hl)|intros b; simpl; naive_solver|].
    simpl in *. set (t' := foldl _ _ _) in *.
    assert (∀ h b, blocks_by_hash t' !! h = Some b ↔ blocks_by_hash t !! h = Some b ∧ eb_number b ≠ n) as Hb.
    { intros h b. rewrite E4, map_lookup_filter_Some, list_elem_of_fmap. simpl. split.
      - intros [Hb Hno]. split; [done|]. intros Hbn. apply Hno. exists b. rewrite Hin, (Hh _ _ Hb). done.
      - intros [Hb Hbn]. split; [done|]. intros (b' & -> & [Hb' Hn']%Hin). congruence. }
    split_and!; [|done|done|apply map_eq; intros h; apply option_eq; intros b; by rewrite Hb, map_lookup_filter_Some].
    constructor.
    + intros h b [? _]%Hb. by apply Hh.
    + intros k l'. rewrite E2. intros [_ ?]%lookup_delete_Some. by eapply Hne.
    + intros k b. rewrite E2, Hb. destruct (decide (k = n)) as [->|Hk].
      * rewrite lookup_delete_eq. simpl. split; [by intros ?%elem_of_nil|by intros [[_ ?] ?]].
      * rewrite lookup_delete_ne, Hn by done. naive_solver.
    + done.
  - split_and!; [done|done|by rewrite delete_id|]. symmetry. apply map_filter_id. intros h b Hb Hbn. simpl in Hbn.
    pose proof (proj2 (Hn n b)) as Hin. rewrite Hl, (Hh _ _ Hb) in Hin. by apply elem_of_nil in Hin.
Qed.
Lemma remove_numbers_ok ns t :
  tree_ok t →
  let t' := foldl remove_number t ns in
  tree_ok t' ∧ current_canonical_head t' = current_canonical_head t ∧
  blocks_by_hash t' = filter (λ e, eb_number e.2 ∉ ns) (blocks_by_hash t).
Proof.
  revert t. induction ns as [|n ns IH]; intros t Ht; simpl.
  { split_and!; try done. symmetry. apply map_filter_id. intros k x _. apply not_elem_of_nil. }
  destruct (remove_number_ok n t Ht) as (E1 & E2 & _ & E4). destruct (IH _ E1) as (F1 & F2 & F4). simpl in *.
  split_and!; [done|congruence|]. rewrite F4, E4. apply map_eq. intros k. apply option_eq. intros x.
  rewrite !map_lookup_filter_Some, not_elem_of_cons. naive_solver.
Qed.
Lemma bmap_keys_sorted {A} (m : gmap Z A) : StronglySorted Z.lt (bmap_iter m).*1.
Proof.
  pose proof (bmap_iter_sorted m) as Hs. induction Hs as [|e l Hs IH Hf]; [constructor|]. simpl. constructor; [done|].
  apply Forall_fmap. eapply Forall_impl; [exact Hf|]. intros e' He. by apply Z.compare_lt_iff.
Qed.
(** Exactly the blocks within the bound go. *)
Lemma remove_before_ok ub t :
  tree_ok t →
  tree_ok (remove_before ub t) ∧ current_canonical_head (remove_before ub t) = current_canonical_head t ∧
  blocks_by_hash (remove_before ub t) = filter (λ e, within ub (eb_number e.2) = false) (blocks_by_hash t).
Proof.
  intros Ht. unfold remove_before. set (ns := take_while _ _).
  destruct (remove_numbers_ok ns t Ht) as (E1 & E2 & E3). split_and!; [done|done|]. rewrite E3.
  apply map_filter_ext. intros h b Hb. simpl.
  assert (eb_number b ∈ ns ↔ within ub (eb_number b) = true) as ->; [|by destruct (within ub (eb_number b))].
  unfold ns. rewrite (take_while_sorted Z.lt).
  - split; [by intros [_ ?]|]. intros Hw. split; [|done].
    pose proof (proj2 (to_number _ Ht (eb_number b) b)) as Hin. rewrite (to_hash _ Ht _ _ Hb) in Hin.
    destruct (blocks_by_number t !! eb_number b) as [l|] eqn:Hl; [|specialize (Hin (conj Hb eq_refl)); by apply elem_of_nil in Hin].
    apply list_elem_of_fmap. exists (eb_number b, l). split; [done|]. by apply elem_of_bmap_iter.
  - apply bmap_keys_sorted.
  - intros x y Hxy. destruct ub; simpl; lia.
Qed.

(** ** Chains *)
Section chains.
Context (rank : Z → nat) (num : Z → Z).
Implicit Types (m : gmap Z ExecutedBlock) (t : TreeState).

(** The blocks of a chain, back to the database. *)
Lemma chain_of_ok hash t :
  linked eb_parent_hash rank (blocks_by_hash t) →
  match blocks_by_hash t !! hash with
  | None => chain_of hash t = Done None
  | Some _ => ∃ l r, chain_of hash t = Done (Some (r, l)) ∧ path eb_parent_hash (blocks_by_hash t) hash l r ∧ blocks_by_hash t !! r = None
  end.
Proof.
  intros Hl. unfold chain_of. destruct (blocks_by_hash t !! hash) as [b|] eqn:Hb; [|done].
  destruct (ancestors_done eb_parent_hash rank _ (eb_parent_hash b) Hl) as (l & r & -> & Hp & Hr).
  exists (b :: l), r. split_and!; [done|by econstructor|done].
Qed.

Lemma fork_loop_cases fuel target h m :
  (∀ h b, m !! h = Some b → eb_hash b = h) →
  (fork_loop fuel target h m = Done false ∧ is_Some (m !! target) ∧ ∃ l, path eb_parent_hash m h l target) ∨
  (fork_loop fuel target h m = Done true ∧ ¬ (is_Some (m !! target) ∧ ∃ l, path eb_parent_hash m h l target)) ∨
  (∃ l r, path eb_parent_hash m h l r ∧ length l = S fuel).
Proof.
  intros Hh. revert h. induction fuel as [|fuel IH]; intros h; simpl; destruct (m !! h) as [b|] eqn:Hb.
  2,4: right; left; split; [done|]; intros [Ht [l Hp]]; inversion Hp; subst; [by rewrite Hb in Ht; destruct Ht|congruence].
  - rewrite (Hh _ _ Hb). destruct (Z.eqb_spec h target) as [->|Hn]; [left; split_and!; [done|by eexists|exists []; constructor]|].
    right; right. exists [b], (eb_parent_hash b). split; [by apply path_single|done].
  - rewrite (Hh _ _ Hb). destruct (Z.eqb_spec h target) as [->|Hn]; [left; split_and!; [done|by eexists|exists []; constructor]|].
    destruct (IH (eb_parent_hash b)) as [(-> & Ht & l & Hp)|[(-> & Hno)|(l & r & Hp & Hl)]].
    + left. split_and!; [done|done|]. exists (b :: l). by econstructor.
    + right; left. split; [done|]. intros [Ht [l Hp]]. apply Hno. split; [done|]. inversion Hp; subst; [done|].
      simplify_eq. by eexists.
    + right; right. exists (b :: l), r. split; [by econstructor|simpl; lia].
Qed.
(** A block is part of a fork unless the canonical head is among it and its ancestors. *)
Lemma is_fork_ok hash t :
  tree_ok t → linked eb_parent_hash rank (blocks_by_hash t) →
  ∃ b, is_fork hash t = Done b ∧
    (b = false ↔ is_Some (blocks_by_hash t !! canonical_block_hash t) ∧
                 ∃ l, path eb_parent_hash (blocks_by_hash t) hash l (canonical_block_hash t)).
Proof.
  intros Ht Hl. unfold is_fork.
  destruct (fork_loop_cases (size (blocks_by_hash t)) (canonical_block_hash t) hash _ (to_hash _ Ht))
    as [(-> & H1 & H2)|[(-> & H)|(l & r & Hp & Hlen)]]; [by exists false| |].
  - exists true. split; [done|]. split; [done|]. intros ?. by destruct H.
  - pose proof (path_length _ _ _ _ _ _ Hl Hp). lia.
Qed.

(** ** The new canonical chain *)

(** Numbers count up along the chains, up to the canonical head. *)
Definition numbered t : Prop :=
  (∀ h b, blocks_by_hash t !! h = Some b →
     eb_number b = num h ∧ num (eb_parent_hash b) = num h - 1 ∧ 1 ≤ num h < U64) ∧
  canonical_block_number t = num (canonical_block_hash t) ∧ 0 ≤ canonical_block_number t.

Lemma path_num m h l r :
  (∀ h b, m !! h = Some b → num (eb_parent_hash b) = num h - 1) → path eb_parent_hash m h l r →
  num h = num r + Z.of_nat (length l).
Proof. intros Hm. induction 1 as [|h b l r Hb Hp IH]; simpl; [lia|]. pose proof (Hm _ _ Hb). lia. Qed.

Lemma walk_new_cases fuel m c acc h :
  0 ≤ c → (∀ h b, m !! h = Some b → num (eb_parent_hash b) = num h - 1 ∧ 1 ≤ num h < U64) →
  (∃ l h', walk_new fuel m c acc h (num h) = Done (Some (acc ++ l, h')) ∧ path eb_parent_hash m h l h' ∧
           num h' = Z.min c (num h)) ∨
  (∃ l r, walk_new fuel m c acc h (num h) = Done None ∧ path eb_parent_hash m h l r ∧ m !! r = None ∧ c < num r) ∨
  (∃ l r, path eb_parent_hash m h l r ∧ length l = S fuel).
Proof.
  intros Hc Hm. revert acc h. induction fuel as [|fuel IH]; intros acc h; simpl; destruct (Z.ltb_spec c (num h)) as [Hn|Hn];
    try (left; exists [], h; rewrite app_nil_r; split_and!; [done|constructor|lia]);
    destruct (m !! h) as [b|] eqn:Hb; try (right; left; exists [], h; by split_and!; [|constructor|..]).
  - right; right. exists [b], (eb_parent_hash b). split; [by apply path_single|done].
  - destruct (Hm _ _ Hb) as [Hp Hr]. rewrite wrap_u64_id by (unfold is_u64; lia). rewrite <-Hp.
    destruct (IH (acc ++ [b]) (eb_parent_hash b)) as [(l & h' & -> & Hpl & Hh')|[(l & r & -> & Hpl & Hr1 & Hr2)|(l & r & Hpl & Hlen)]].
    + left. exists (b :: l), h'. rewrite <-app_assoc. split_and!; [done|by econstructor|lia].
    + right; left. exists (b :: l), r. split_and!; [done|by econstructor|done..].
    + right; right. exists (b :: l), r. split; [by econstructor|simpl; lia].
Qed.

(** What the walk down both chains returns is right... *)
Lemma walk_both_sound fuel m nc oc cur old ch :
  walk_both fuel m nc oc cur old = Done (Some ch) →
  ∃ cl ol r, ch = Reorg (reverse cl ++ nc) (oc ++ ol) ∧ path eb_parent_hash m cur cl r ∧ path eb_parent_hash m old ol r ∧
    (length ol = length cl ∨ length ol = S (length cl)).
Proof.
  revert nc oc cur old. induction fuel as [|fuel IH]; intros nc oc cur old; simpl;
    (destruct (Z.eqb_spec old cur) as [->|Hne];
       [intros [= <-]; exists [], [], cur; rewrite app_nil_r; split_and!; [done|constructor|constructor|by left]|]);
    (destruct (m !! old) as [b|] eqn:Hb; [|done]);
    (destruct (Z.eqb_spec (eb_parent_hash b) cur) as [<-|Hne'];
       [intros [= <-]; exists [], [b], (eb_parent_hash b); split_and!; [done|constructor|by apply path_single|by right]|]);
    (destruct (m !! cur) as [b'|] eqn:Hb'; [|done]); [done|].
  intros (cl & ol & r & -> & Hc & Ho & Hl)%IH. exists (b' :: cl), (b :: ol), r.
  rewrite reverse_cons, <-!app_assoc. split_and!; [done|by econstructor|by econstructor|simpl; lia].
Qed.
(** ... it finds the nearest common ancestor if there is one ... *)
Lemma walk_both_complete fuel m nc oc cur old l1 l2 r :
  (∀ h b, m !! h = Some b → num (eb_parent_hash b) = num h - 1) →
  path eb_parent_hash m old l1 r → path eb_parent_hash m cur l2 r → (length l1 ≤ fuel)%nat →
  num old = num cur ∨ num old = num cur + 1 →
  ∃ cl ol r', walk_both fuel m nc oc cur old = Done (Some (Reorg (reverse cl ++ nc) (oc ++ ol))) ∧
    path eb_parent_hash m cur cl r' ∧ path eb_parent_hash m old ol r' ∧ (length ol ≤ length l1)%nat.
Proof.
  intros Hm. revert nc oc cur old l1 l2. induction fuel as [|fuel IH]; intros nc oc cur old l1 l2 H1 H2 Hf Hn;
    pose proof (path_num _ _ _ _ Hm H1) as N1; pose proof (path_num _ _ _ _ Hm H2) as N2; simpl;
    (destruct (Z.eqb_spec old cur) as [->|Hne];
       [exists [], [], cur; rewrite app_nil_r; split_and!; [done|constructor|constructor|simpl; lia]|]);
    (destruct H1 as [h|old b l1 r Hb H1]; [destruct H2; simpl in *; [done|lia]|]); [simpl in Hf; lia|]; rewrite Hb; simpl in *;
    (destruct (Z.eqb_spec (eb_parent_hash b) cur) as [<-|Hne'];
       [exists [], [b], (eb_parent_hash b); split_and!; [done|constructor|by apply path_single|simpl; lia]|]).
  destruct H2 as [h|cur b' l2 r Hb' H2].
  { destruct H1 as [|? ? ? ? ? ?]; [done|simpl in *; lia]. }
  rewrite Hb'. destruct (IH (b' :: nc) (oc ++ [b]) (eb_parent_hash b') (eb_parent_hash b) l1 l2) as (cl & ol & r' & -> & Hc & Ho & Hlen);
    [done|done|lia| |].
  { rewrite (Hm _ _ Hb), (Hm _ _ Hb'). lia. }
  exists (b' :: cl), (b :: ol), r'. rewrite reverse_cons, <-!app_assoc.
  split_and!; [done|by econstructor|by econstructor|simpl; lia].
Qed.
(** ... and it ends. *)
Lemma walk_both_done fuel m nc oc cur old :
  (∃ res, walk_both fuel m nc oc cur old = Done res) ∨ (∃ l r, path eb_parent_hash m old l r ∧ length l = S fuel).
Proof.
  revert nc oc cur old. induction fuel as [|fuel IH]; intros nc oc cur old; simpl; (destruct (old =? cur); [left; by eexists|]);
    (destruct (m !! old) as [b|] eqn:Hb; [|left; by eexists]); (destruct (eb_parent_hash b =? cur); [left; by eexists|]);
    (destruct (m !! cur) as [b'|]; [|left; by eexists]).
  - right. exists [b], (eb_parent_hash b). split; [by apply path_single|done].
  - destruct (IH (b' :: nc) (oc ++ [b]) (eb_parent_hash b') (eb_parent_hash b)) as [?|(l & r & Hp & Hl)]; [by left|].
    right. exists (b :: l), r. split; [by econstructor|simpl; lia].
Qed.

(** What a new chain must be: with the new blocks the oldest first and the old ones the newest
    first, both chains start at the nearest common ancestor. *)
Definition chain_update_ok t (new_head : Z) (c : NewCanonicalChain) : Prop :=
  match c with
  | Commit new => new ≠ [] ∧ path eb_parent_hash (blocks_by_hash t) new_head (reverse new) (canonical_block_hash t)
  | Reorg new old =>
    new ≠ [] ∧ old ≠ [] ∧
    ∃ r, path eb_parent_hash (blocks_by_hash t) new_head (reverse new) r ∧
         path eb_parent_hash (blocks_by_hash t) (canonical_block_hash t) old r ∧
         ∀ r' l1 l2, path eb_parent_hash (blocks_by_hash t) new_head l1 r' →
           path eb_parent_hash (blocks_by_hash t) (canonical_block_hash t) l2 r' →
           ∃ l, path eb_parent_hash (blocks_by_hash t) r l r'
  end.
Definition share_ancestor t (new_head : Z) : Prop :=
  ∃ r l1 l2, path eb_parent_hash (blocks_by_hash t) new_head l1 r ∧
             path eb_parent_hash (blocks_by_hash t) (canonical_block_hash t) l2 r.

(** The walk down both chains, from the block below the new head. *)
Lemma walk_both_ok t new_head head cl cur :
  linked eb_parent_hash rank (blocks_by_hash t) → numbered t → new_head ≠ canonical_block_hash t →
  blocks_by_hash t !! new_head = Some head → path eb_parent_hash (blocks_by_hash t) (eb_parent_hash head) cl cur →
  num cur = Z.min (canonical_block_number t) (num new_head - 1) → cur ≠ canonical_block_hash t →
  ∃ res, walk_both (size (blocks_by_hash t)) (blocks_by_hash t) (reverse (head :: cl)) [] cur (canonical_block_hash t) = Done res ∧
    match res with
    | Some c => canonical_block_number t ≤ num new_head ∧ chain_update_ok t new_head c
    | None => num new_head < canonical_block_number t ∨ ¬ share_ancestor t new_head
    end.
Proof.
  intros Hl (Hm & Hc & Hc0) Hne Hh Hcl Hcur Hcne. set (m := blocks_by_hash t) in *.
  assert (∀ h b, m !! h = Some b → num (eb_parent_hash b) = num h - 1) as Hm' by (intros h b Hb; by apply (Hm _ _ Hb)).
  assert (∀ l2 r, path eb_parent_hash m (canonical_block_hash t) l2 r → (length l2 ≤ size m)%nat) as Hfuel
    by (intros l2 r Hp; by eapply path_length).
  destruct (walk_both_done (size m) m (reverse (head :: cl)) [] cur (canonical_block_hash t)) as [[res E]|(l & r & Hp & Hlen)].
  2:{ specialize (Hfuel _ _ Hp). lia. }
  exists res. split; [done|].
  (* a common ancestor lies below the two blocks where the walk starts *)
  assert (∀ r l1 l2, canonical_block_number t ≤ num new_head → path eb_parent_hash m new_head l1 r →
            path eb_parent_hash m (canonical_block_hash t) l2 r → ∃ l1', path eb_parent_hash m cur l1' r) as Hbelow.
  { intros r l1 l2 Hge P1 P2. pose proof (path_num _ _ _ _ Hm' P1) as N1. pose proof (path_num _ _ _ _ Hm' P2) as N2.
    assert (path eb_parent_hash m new_head (head :: cl) cur) as P3 by (by econstructor).
    pose proof (path_num _ _ _ _ Hm' P3) as N3. destruct (path_compare _ _ _ _ _ _ _ P3 P1) as [(l & _ & Hp)|(l & El & Hp)]; [by exists l|].
    apply (f_equal length) in El. rewrite length_app in El. assert (r = cur) as ->; [|exists []; constructor].
    destruct l2 as [|b2 l2]; [|pose proof (path_num _ _ _ _ Hm' Hp); simpl in *; destruct l; [by inversion Hp|simpl in *; lia]].
    inversion P2; subst. destruct l; [by inversion Hp|]. pose proof (path_num _ _ _ _ Hm' Hp). simpl in *.
    destruct l1 as [|b1 l1]; [inversion P1; subst; done|]. simpl in *. lia. }
  destruct res as [c|].
  - destruct (walk_both_sound _ _ _ _ _ _ _ E) as (cl' & ol & r & -> & P1 & P2 & Hlen). simpl.
    pose proof (path_num _ _ _ _ Hm' P1) as N1. pose proof (path_num _ _ _ _ Hm' P2) as N2. fold m in P1, P2.
    assert (canonical_block_number t ≤ num new_head) as Hge by lia. split; [done|]. split_and!.
    + rewrite reverse_cons. by destruct (reverse cl'), (reverse cl).
    + destruct ol; [|done]. inversion P2; subst. destruct cl'; [|simpl in *; lia]. inversion P1; subst. by destruct Hcne.
    + exists r. rewrite <-reverse_app, reverse_involutive. split_and!; [|done|].
      { econstructor; [done|]. by eapply path_app. }
      intros r' l1 l2 P1' P2'. destruct (Hbelow _ _ _ Hge P1' P2') as [l1' P1''].
      destruct (walk_both_complete (size m) m (reverse (head :: cl)) [] cur (canonical_block_hash t) l2 l1' r' Hm' P2' P1'')
        as (cl2 & ol2 & r2 & E2 & Q1 & Q2 & Hle); [by eapply Hfuel|lia|].
      rewrite E in E2. injection E2 as E2 Eo. subst ol2.
      destruct (path_same_length _ _ _ _ _ _ _ P2 Q2 eq_refl) as [_ <-].
      destruct (path_compare _ _ _ _ _ _ _ P2 P2') as [(l & _ & Hp)|(l & El & Hp)]; [by exists l|].
      rewrite El, length_app in Hle. destruct l; [|simpl in Hle; lia]. inversion Hp; subst. exists []. constructor.
  - destruct (decide (num new_head < canonical_block_number t)) as [|Hge]; [by left|]. right. intros (r & l1 & l2 & P1 & P2).
    destruct (Hbelow r l1 l2) as [l1' P1']; [lia|done|done|].
    destruct (walk_both_complete (size m) m (reverse (head :: cl)) [] cur (canonical_block_hash t) l2 l1' r Hm' P2 P1')
      as (cl2 & ol2 & r2 & E2 & _); [by eapply Hfuel|lia|]. congruence.
Qed.
End chains.

(** What is found for a head other than the canonical one. *)
Lemma on_new_head_spec rank num t new_head :
  linked eb_parent_hash rank (blocks_by_hash t) → numbered num t → new_head ≠ canonical_block_hash t →
  ∃ res, on_new_head new_head t = Done res ∧
    match res with
    | Some c =>
      is_Some (blocks_by_hash t !! new_head) ∧ canonical_block_number t ≤ num new_head ∧ chain_update_ok t new_head c
    | None =>
      blocks_by_hash t !! new_head = None ∨ num new_head < canonical_block_number t ∨ ¬ share_ancestor t new_head
    end.
Proof.
  intros Hl Hn Hne. pose proof Hn as (Hm & Hc & Hc0). unfold on_new_head.
  destruct (blocks_by_hash t !! new_head) as [head|] eqn:Hh; [|exists None; split; [done|by left]].
  destruct (Hm _ _ Hh) as (N1 & N2 & N3). rewrite N1, wrap_u64_id by (unfold is_u64; lia). rewrite <-N2.
  assert (∀ h b, blocks_by_hash t !! h = Some b → num (eb_parent_hash b) = num h - 1 ∧ 1 ≤ num h < U64) as Hm2
    by (intros h b Hb; split; by apply (Hm _ _ Hb)).
  destruct (walk_new_cases num (size (blocks_by_hash t)) _ (canonical_block_number t) [head] (eb_parent_hash head) Hc0 Hm2)
    as [(cl & cur & -> & Hp & Hcur)|[(cl & r & -> & Hp & Hr & Hrn)|(l & r & Hp & Hlen)]]; simpl.
  - destruct (Z.eqb_spec cur (canonical_block_hash t)) as [->|Hcne].
    + eexists. split; [done|]. assert (canonical_block_number t ≤ num new_head) by lia.
      split_and!; [by eexists|done|]. simpl. split; [rewrite reverse_cons; by destruct (reverse cl)|].
      rewrite reverse_involutive. by econstructor.
    + destruct (walk_both_ok rank num t new_head head cl cur Hl Hn Hne Hh Hp) as (res & E & Hres); [lia|done|].
      exists res. split; [done|]. destruct res; [split; [by eexists|done]|by right].
  - exists None. split; [done|]. right; right. intros (r' & l1 & l2 & P1 & P2).
    assert (path eb_parent_hash (blocks_by_hash t) new_head (head :: cl) r) as P3 by (by econstructor).
    assert (∀ h b, blocks_by_hash t !! h = Some b → num (eb_parent_hash b) = num h - 1) as Hm' by (intros h b Hb; by apply (Hm2 _ _ Hb)).
    pose proof (path_num num _ _ _ _ Hm' P2). destruct (path_compare _ _ _ _ _ _ _ P3 P1) as [(l & _ & Q)|(l & _ & Q)].
    + inversion Q; subst; [lia|congruence].
    + pose proof (path_num num _ _ _ _ Hm' Q). lia.
  - pose proof (path_length _ _ _ _ _ _ Hl Hp). lia.
Qed.

(** The canonical head itself, if it is in the tree, is replaced by itself. *)
Lemma on_new_head_same rank num t b :
  linked eb_parent_hash rank (blocks_by_hash t) → numbered num t → blocks_by_hash t !! canonical_block_hash t = Some b →
  on_new_head (canonical_block_hash t) t = Done (Some (Reorg [b] [b])).
Proof.
  intros Hl (Hm & Hc & Hc0) Hb. destruct (Hm _ _ Hb) as (N1 & N2 & N3). specialize (Hl _ _ Hb). unfold on_new_head.
  rewrite Hb, N1, wrap_u64_id by (unfold is_u64; lia). rewrite <-Hc.
  assert (eb_parent_hash b ≠ canonical_block_hash t) as Hne by (intros Heq; rewrite Heq in Hl; lia).
  assert (canonical_block_number t <? canonical_block_number t - 1 = false) as Hlt by lia.
  destruct (size (blocks_by_hash t)) as [|n] eqn:Hs.
  { apply map_size_empty_inv in Hs. by rewrite Hs in Hb. }
  simpl. rewrite Hlt. simpl. destruct (Z.eqb_spec (eb_parent_hash b) (canonical_block_hash t)) as [|_]; [done|].
  destruct (Z.eqb_spec (canonical_block_hash t) (eb_parent_hash b)) as [|_]; [done|]. by rewrite Hb, Z.eqb_refl.
Qed.

(** A chain from the head, and one from the canonical head, down to the same block. *)
Definition chain_update_fits (t : TreeState) (new_head : Z) (c : NewCanonicalChain) : Prop :=
  new_blocks c ≠ [] ∧
  match c with
  | Commit new => path eb_parent_hash (blocks_by_hash t) new_head (reverse new) (canonical_block_hash t)
  | Reorg new old =>
    old ≠ [] ∧ ∃ r, path eb_parent_hash (blocks_by_hash t) new_head (reverse new) r ∧
                    path eb_parent_hash (blocks_by_hash t) (canonical_block_hash t) old r
  end.
Lemma on_new_head_fits rank num t new_head :
  linked eb_parent_hash rank (blocks_by_hash t) → numbered num t →
  ∃ res, on_new_head new_head t = Done res ∧ ∀ c, res = Some c → chain_update_fits t new_head c.
Proof.
  intros Hl Hn. destruct (decide (new_head = canonical_block_hash t)) as [->|Hne].
  - destruct (blocks_by_hash t !! canonical_block_hash t) as [b|] eqn:Hb.
    + eexists. split; [by eapply on_new_head_same|]. intros c [= <-]. split; [done|]. split; [done|].
      exists (eb_parent_hash b). split; by apply path_single.
    + exists None. unfold on_new_head. by rewrite Hb.
  - destruct (on_new_head_spec rank num t new_head Hl Hn Hne) as (res & E & Hres). exists res. split; [done|].
    intros c ->. destruct Hres as (_ & _ & Hc). destruct c; simpl in Hc; [done|].
    destruct Hc as (H1 & H2 & r & P1 & P2 & _). split; [done|]. split; [done|]. by exists r.
Qed.

(** C21. The new canonical chain is found exactly if there is one, and it is the right one: for a
    tree in which block numbers count up along the parents, and a head other than the
    canonical one, the computation ends; it returns a chain exactly if the head is in the
    tree, its number is not below that of the canonical head, and the two chains meet; the
    chain is then an extension of the canonical one, or a reorganisation whose two branches
    start at the nearest common ancestor.  A reorganisation to a head with a lower number is
    never found. *)
Theorem on_new_head_ok rank num t new_head :
  linked eb_parent_hash rank (blocks_by_hash t) → numbered num t → new_head ≠ canonical_block_hash t →
  ∃ res, on_new_head new_head t = Done res ∧
    (is_Some res ↔
     is_Some (blocks_by_hash t !! new_head) ∧ canonical_block_number t ≤ num new_head ∧ share_ancestor t new_head) ∧
    (∀ c, res = Some c → chain_update_ok t new_head c).
Proof.
  intros Hl Hn Hne. destruct (on_new_head_spec rank num t new_head Hl Hn Hne) as (res & E & Hres).
  exists res. split; [done|]. destruct res as [c|].
  - destruct Hres as (H1 & H2 & Hc). split; [|by intros ? [= <-]]. split; [|by eexists]. intros _. split_and!; [done|done|].
    destruct c as [new|new old]; simpl in Hc.
    + destruct Hc as [_ Hp]. exists (canonical_block_hash t), (reverse new), []. split; [done|constructor].
    + destruct Hc as (_ & _ & r & P1 & P2 & _). by exists r, (reverse new), old.
  - split; [|done]. split; [by intros []|]. intros ([b Hb] & Hge & Hs). destruct Hres as [?|[?|?]]; [congruence|lia|done].
Qed.
