(* ===== verification/InvalidHeaders.v ===== *)
(** * Invalid headers and forkchoice states

    [InvalidHeaderCache] ([consensus/beacon/src/engine/invalid_headers.rs]) and
    [ForkchoiceStateTracker] ([consensus/beacon/src/engine/forkchoice.rs]). *)

From stdpp Require Import prelude gmap list.
From S2P Require Import Prelude.
From S2P Require Import Header.
From S2P Require Import Lru.

(** ** Invalid headers *)
Definition INVALID_HEADER_HIT_EVICTION_THRESHOLD : Z := 128.
Record HeaderEntry := mkHeaderEntry { hit_count : Z; he_header : Header }.
(** [entry.hit_count += 1] on a [u8]. *)
Definition hit (e : HeaderEntry) : HeaderEntry := mkHeaderEntry ((hit_count e + 1) `mod` 256) (he_header e).

Section cache.
Context `{LruOps}.
Record InvalidHeaderCache := mkInvalidHeaderCache { ih_headers : lru HeaderEntry }.
Definition InvalidHeaderCache_new (max_length : Z) : InvalidHeaderCache := mkInvalidHeaderCache (lru_new max_length).
Definition insert_entry (hash : Z) (h : Header) (c : InvalidHeaderCache) : InvalidHeaderCache :=
  mkInvalidHeaderCache (lru_insert hash (mkHeaderEntry 0 h) (ih_headers c)).
Definition ih_get (hash : Z) (c : InvalidHeaderCache) : option Header * InvalidHeaderCache :=
  match assoc hash (lru_iter (ih_headers c)) with
  | None => (None, c)
  | Some e =>
    let entry := hit e in
    let m := lru_get_mut hash hit (ih_headers c) in
    if hit_count entry <? INVALID_HEADER_HIT_EVICTION_THRESHOLD
    then (Some (he_header entry), mkInvalidHeaderCache m)
    else (None, mkInvalidHeaderCache (lru_remove hash m))
  end.
Definition insert_with_invalid_ancestor (header_hash : Z) (invalid_ancestor : Header) (c : InvalidHeaderCache)
  : InvalidHeaderCache :=
  match ih_get header_hash c with
  | (None, c) => insert_entry header_hash invalid_ancestor c
  | (Some _, c) => c
  end.
Definition ih_insert (invalid_ancestor : SealedHeader) (c : InvalidHeaderCache) : InvalidHeaderCache :=
  match ih_get (sh_hash invalid_ancestor) c with
  | (None, c) => insert_entry (sh_hash invalid_ancestor) (sh_header invalid_ancestor) c
  | (Some _, c) => c
  end.

(** *** The entries *)
Context `{!LruLaws}.
Definition entries (c : InvalidHeaderCache) : list (Z * HeaderEntry) := lru_iter (ih_headers c).
(** The cache is within its limit, and no counter has reached the threshold. *)
Definition cache_wf (c : InvalidHeaderCache) : Prop :=
  Z.of_nat (length (entries c)) ≤ Z.max 0 (lru_max_length (ih_headers c)) ∧
  Forall (λ e, 0 ≤ hit_count e.2 < INVALID_HEADER_HIT_EVICTION_THRESHOLD) (entries c).
(** How many lookups the entries still answer. *)
Definition budget (c : InvalidHeaderCache) : Z :=
  foldr (λ e n, INVALID_HEADER_HIT_EVICTION_THRESHOLD - hit_count e.2 + n) 0 (entries c).

Lemma InvalidHeaderCache_new_wf n : cache_wf (InvalidHeaderCache_new n).
Proof. unfold cache_wf, entries, InvalidHeaderCache_new. simpl. rewrite lru_iter_new. simpl. split; [lia|constructor]. Qed.

Lemma assoc_split {V} k (v : V) l : NoDup l.*1 → assoc k l = Some v → ∃ l1 l2, l = l1 ++ (k, v) :: l2 ∧ drop_key k l = l1 ++ l2.
Proof.
  intros Hnd Ha. apply assoc_Some, list_elem_of_split in Ha as (l1 & l2 & ->). exists l1, l2. split; [done|].
  rewrite fmap_app in Hnd. simpl in Hnd. apply NoDup_app in Hnd as (_ & Hn1 & [Hn2 _]%NoDup_cons).
  unfold drop_key. rewrite filter_app, filter_cons_False by naive_solver.
  change (drop_key k l1 ++ drop_key k l2 = l1 ++ l2). rewrite !drop_key_fresh; [done|done|].
  intros Hl. apply (Hn1 k Hl). left.
Qed.
(** A lookup: an entry below the threshold answers, is counted and moves to the front; the
    last answer before the threshold removes it. *)
Lemma ih_get_spec hash c :
  cache_wf c →
  match assoc hash (entries c) with
  | None => ih_get hash c = (None, c)
  | Some e =>
    let e' := mkHeaderEntry (hit_count e + 1) (he_header e) in
    if hit_count e + 1 <? INVALID_HEADER_HIT_EVICTION_THRESHOLD
    then (ih_get hash c).1 = Some (he_header e) ∧ entries (ih_get hash c).2 = (hash, e') :: drop_key hash (entries c)
    else (ih_get hash c).1 = None ∧ entries (ih_get hash c).2 = drop_key hash (entries c)
  end ∧ lru_max_length (ih_headers (ih_get hash c).2) = lru_max_length (ih_headers c).
Proof.
  intros [_ Hc]. unfold ih_get, entries in *. destruct (assoc hash (lru_iter (ih_headers c))) as [e|] eqn:E; [|done].
  assert (hit e = mkHeaderEntry (hit_count e + 1) (he_header e)) as He.
  { unfold hit. apply assoc_Some in E. rewrite Forall_forall in Hc. specialize (Hc _ E). simpl in Hc.
    unfold INVALID_HEADER_HIT_EVICTION_THRESHOLD in Hc. rewrite Z.mod_small by lia. done. }
  rewrite He. simpl. destruct (_ <? _); simpl.
  - rewrite lru_max_get_mut, lru_iter_get_mut, E, He. done.
  - rewrite lru_max_remove, lru_max_get_mut, lru_iter_remove, lru_iter_get_mut, E. split; [|done]. split; [done|].
    unfold drop_key at 1. rewrite filter_cons_False by (simpl; naive_solver). apply list_filter_all.
    intros x [_ Hx]%elem_of_drop_key. done.
Qed.
Lemma ih_get_wf hash c :
  cache_wf c →
  cache_wf (ih_get hash c).2 ∧ budget (ih_get hash c).2 ≤ budget c ∧
  (is_Some (ih_get hash c).1 → budget (ih_get hash c).2 = budget c - 1) ∧
  (∀ k e, (k, e) ∈ entries (ih_get hash c).2 → ∃ e', (k, e') ∈ entries c ∧ he_header e' = he_header e).
Proof.
  intros Hc. destruct (ih_get_spec hash c Hc) as [Hs Hm]. destruct Hc as [Hlen Hc].
  destruct (assoc hash (entries c)) as [e|] eqn:E.
  2:{ rewrite Hs in *. simpl. split_and!; [done|lia|by intros [? ?]|]. intros k e He. by exists e. }
  pose proof (lru_keys_unique (ih_headers c)) as Hnd. destruct (assoc_split _ _ _ Hnd E) as (l1 & l2 & El & Ed).
  change (lru_iter (ih_headers c)) with (entries c) in El, Ed. simpl in Hs. rewrite El in Hc, Hlen.
  apply Forall_app in Hc as [Hc1 [He Hc2]%Forall_cons]. simpl in He. rewrite length_app in Hlen. simpl in Hlen.
  assert (∀ l l' n, foldr (λ e n, INVALID_HEADER_HIT_EVICTION_THRESHOLD - hit_count e.2 + n) n (l ++ l') =
            foldr (λ e n, INVALID_HEADER_HIT_EVICTION_THRESHOLD - hit_count (e : Z * HeaderEntry).2 + n) 0 l +
            foldr (λ e n, INVALID_HEADER_HIT_EVICTION_THRESHOLD - hit_count (e : Z * HeaderEntry).2 + n) n l') as Hfold.
  { intros l l' n. induction l as [|x l IH]; simpl; [lia|]. rewrite IH. lia. }
  unfold cache_wf, budget. rewrite Hm, El, Hfold. simpl.
  destruct (_ <? _) eqn:Hlt; [apply Z.ltb_lt in Hlt|apply Z.ltb_ge in Hlt]; destruct Hs as [-> ->]; rewrite Ed; simpl; rewrite Hfold, ?length_app.
  - split_and!; try lia; [constructor; [simpl; lia|]; by apply Forall_app|].
    intros k e' [[= -> ->]|Hin]%elem_of_cons; [exists e; split; [set_solver|done]|]. exists e'. split; [set_solver|done].
  - split_and!; try lia; [by apply Forall_app|]. intros k e' Hin. exists e'. split; [set_solver|done].
Qed.
Lemma insert_entry_wf hash h c :
  cache_wf c → cache_wf (insert_entry hash h c) ∧
  (∀ k e, (k, e) ∈ entries (insert_entry hash h c) → (k = hash ∧ he_header e = h) ∨ (k, e) ∈ entries c).
Proof.
  intros [Hl Hc]. unfold insert_entry, cache_wf, entries in *. simpl. rewrite lru_max_insert, lru_iter_insert. split_and!.
  - rewrite length_take. lia.
  - apply Forall_take. constructor; [done|]. rewrite Forall_forall in Hc |- *. intros x [Hx _]%elem_of_drop_key. by apply Hc.
  - intros k e Hin. assert ((k, e) ∈ (hash, mkHeaderEntry 0 h) :: drop_key hash (lru_iter (ih_headers c))) as Hin'.
    { apply elem_of_take in Hin as (i & Hi & _). by eapply list_elem_of_lookup_2. }
    apply elem_of_cons in Hin' as [[= -> ->]|[? _]%elem_of_drop_key]; [by left|by right].
Qed.
(** After it was put there, a hash is found in a cache that has room for an entry. *)
Lemma insert_entry_found hash h c :
  1 ≤ lru_max_length (ih_headers c) → assoc hash (entries (insert_entry hash h c)) = Some (mkHeaderEntry 0 h).
Proof.
  intros Hm. unfold insert_entry, entries. simpl. rewrite lru_iter_insert.
  destruct (Z.to_nat (lru_max_length (ih_headers c))) eqn:E; [lia|]. simpl. by rewrite Z.eqb_refl.
Qed.
End cache.

(** ** Forkchoice states *)
Record ForkchoiceState := mkForkchoiceState { head_block_hash : Z; safe_block_hash : Z; finalized_block_hash : Z }.
Inductive ForkchoiceStatus := FcuValid | FcuInvalid | FcuSyncing.
Record ForkchoiceStateTracker := mkTracker {
  ft_latest : option (ForkchoiceState * ForkchoiceStatus);
  ft_last_syncing : option ForkchoiceState;
  ft_last_valid : option ForkchoiceState;
}.
Definition ForkchoiceStateTracker_default : ForkchoiceStateTracker := mkTracker None None None.
Definition set_valid (s : ForkchoiceState) (t : ForkchoiceStateTracker) : ForkchoiceStateTracker :=
  mkTracker (ft_latest t) None (Some s).
Definition set_latest (s : ForkchoiceState) (status : ForkchoiceStatus) (t : ForkchoiceStateTracker)
  : ForkchoiceStateTracker :=
  let t :=
    match status with
    | FcuValid => set_valid s t
    | FcuSyncing => mkTracker (ft_latest t) (Some s) (ft_last_valid t)
    | FcuInvalid => t
    end in
  mkTracker (Some (s, status)) (ft_last_syncing t) (ft_last_valid t).
Definition latest_status (t : ForkchoiceStateTracker) : option ForkchoiceStatus := snd <$> ft_latest t.
Definition last_valid_head (t : ForkchoiceStateTracker) : option Z := head_block_hash <$> ft_last_valid t.
Definition sync_target (t : ForkchoiceStateTracker) : option Z := head_block_hash <$> ft_last_syncing t.
Definition sync_target_state (t : ForkchoiceStateTracker) : option ForkchoiceState := ft_last_syncing t.
Definition tracker_is_empty (t : ForkchoiceStateTracker) : bool := match ft_latest t with None => true | Some _ => false end.

Inductive ForkchoiceStateHash := HashHead (h : Z) | HashSafe (h : Z) | HashFinalized (h : Z).
Definition hash_find (s : ForkchoiceState) (hash : Z) : option ForkchoiceStateHash :=
  if head_block_hash s =? hash then Some (HashHead hash)
  else if safe_block_hash s =? hash then Some (HashSafe hash)
  else if finalized_block_hash s =? hash then Some (HashFinalized hash)
  else None.
