(* ===== verification/InMemory.v ===== *)
(** * The canonical chain in memory

    [CanonicalInMemoryState] ([chain-state/src/in_memory.rs]) and [ChainInfoTracker]
    ([chain-state/src/chain_info.rs]): the canonical blocks that are not in the database yet,
    for readers outside of the engine.  The locks are taken for the whole of each update;
    the broadcast channel is the list of the notifications sent. *)

From stdpp Require Import prelude gmap list sorting.
From S2P Require Import Prelude.
From S2P Require Import Ord.
From S2P Require Import Header.
From S2P Require Import Transaction.
From S2P Require Import Consensus.
From S2P Require Import Links.
From S2P Require Import BlockBuffer.
From S2P Require Import TreeState.

(** ** Data *)
Inductive BlockState := mkBlockState (block : ExecutedBlock) (parent : option BlockState).
Definition st_block (s : BlockState) : ExecutedBlock := let '(mkBlockState b _) := s in b.
Definition st_parent (s : BlockState) : option BlockState := let '(mkBlockState _ p) := s in p.
Definition st_hash (s : BlockState) : Z := eb_hash (st_block s).
Definition st_number (s : BlockState) : Z := eb_number (st_block s).
Fixpoint anchor (s : BlockState) : BlockNumHash :=
  let '(mkBlockState b p) := s in
  match p with Some p => anchor p | None => parent_num_hash (sh_header (sb_header (eb_block b))) end.
(** [BlockState::chain]: the state and its parents, from the newest to the oldest. *)
Fixpoint state_chain (s : BlockState) : list BlockState :=
  s :: (let '(mkBlockState _ p) := s in match p with Some p => state_chain p | None => [] end).

(** [Chain]: the blocks by number. *)
Record Chain := mkChain { ch_blocks : gmap Z SealedBlockWithSenders; ch_outcome : ExecutionOutcome }.
Definition sealed_block_with_senders (b : ExecutedBlock) : SealedBlockWithSenders :=
  mkBlockWithSenders (eb_block b) (eb_senders b).
Definition Chain_new (blocks : list SealedBlockWithSenders) (outcome : ExecutionOutcome) : Chain :=
  mkChain (foldl (λ m b, <[bs_number b := b]> m) ∅ blocks) outcome.
Inductive CanonStateNotification := NotifyCommit (new : Chain) | NotifyReorg (old new : Chain).
Definition chain_of_blocks (l : list ExecutedBlock) : outcome Chain :=
  newest ← expect (last l);
  Done (Chain_new (sealed_block_with_senders <$> l) (eb_execution_output newest)).
Definition to_chain_notification (c : NewCanonicalChain) : outcome CanonStateNotification :=
  match c with
  | Commit new => new ← chain_of_blocks new; Done (NotifyCommit new)
  | Reorg new old => new ← chain_of_blocks new; old ← chain_of_blocks old; Done (NotifyReorg old new)
  end.

Record ChainInfoTracker := mkChainInfoTracker {
  ci_last_forkchoice_update : option Z;
  ci_last_transition_exchange : option Z;
  ci_head_number : Z;
  ci_head : SealedHeader;
  ci_safe : option SealedHeader;
  ci_finalized : option SealedHeader;
}.
Record InMemoryState := mkInMemoryState {
  im_blocks : gmap Z BlockState;
  im_numbers : gmap Z Z;
  im_pending : option BlockState;
}.
Record CanonicalInMemoryState := mkCanonicalInMemoryState {
  cm_tracker : ChainInfoTracker;
  cm_memory : InMemoryState;
  cm_notifications : list CanonStateNotification;
}.

(** ** The tracker *)
Definition ChainInfoTracker_new (head : SealedHeader) (finalized : option SealedHeader) : ChainInfoTracker :=
  mkChainInfoTracker None None (h_number (sh_header head)) head None finalized.
Definition on_tracker (f : ChainInfoTracker → ChainInfoTracker) (m : CanonicalInMemoryState) : CanonicalInMemoryState :=
  mkCanonicalInMemoryState (f (cm_tracker m)) (cm_memory m) (cm_notifications m).
Definition on_forkchoice_update_received (now : Z) : CanonicalInMemoryState → CanonicalInMemoryState :=
  on_tracker (λ t, mkChainInfoTracker (Some now) (ci_last_transition_exchange t) (ci_head_number t) (ci_head t)
                     (ci_safe t) (ci_finalized t)).
Definition on_transition_configuration_exchanged (now : Z) : CanonicalInMemoryState → CanonicalInMemoryState :=
  on_tracker (λ t, mkChainInfoTracker (ci_last_forkchoice_update t) (Some now) (ci_head_number t) (ci_head t)
                     (ci_safe t) (ci_finalized t)).
Definition mem_set_canonical_head (h : SealedHeader) : CanonicalInMemoryState → CanonicalInMemoryState :=
  on_tracker (λ t, mkChainInfoTracker (ci_last_forkchoice_update t) (ci_last_transition_exchange t)
                     (h_number (sh_header h)) h (ci_safe t) (ci_finalized t)).
Definition set_safe (h : SealedHeader) : CanonicalInMemoryState → CanonicalInMemoryState :=
  on_tracker (λ t, mkChainInfoTracker (ci_last_forkchoice_update t) (ci_last_transition_exchange t)
                     (ci_head_number t) (ci_head t) (Some h) (ci_finalized t)).
Definition set_finalized (h : SealedHeader) : CanonicalInMemoryState → CanonicalInMemoryState :=
  on_tracker (λ t, mkChainInfoTracker (ci_last_forkchoice_update t) (ci_last_transition_exchange t)
                     (ci_head_number t) (ci_head t) (ci_safe t) (Some h)).

(** ** The blocks *)
Section memory.
Context `{HashOrder}.
Implicit Types (m : InMemoryState).

Definition state_by_hash (hash : Z) m : option BlockState := im_blocks m !! hash.
Definition hash_by_number (number : Z) m : option Z := im_numbers m !! number.
Definition state_by_number (number : Z) m : option BlockState := h ← im_numbers m !! number; im_blocks m !! h.
Definition head_state m : option BlockState :=
  e ← last (bmap_iter (im_numbers m)); im_blocks m !! e.2.
Definition pending_state m : option BlockState := (λ s, mkBlockState (st_block s) None) <$> im_pending m.
Definition mem_clear m : InMemoryState := mkInMemoryState ∅ ∅ None.

Definition set_pending_block (pending : ExecutedBlock) m : InMemoryState :=
  mkInMemoryState (im_blocks m) (im_numbers m) (Some (mkBlockState pending (state_by_hash (eb_parent_hash pending) m))).

(** The blocks and numbers, without the pending block. *)
Definition remove_reorged (l : list ExecutedBlock) (bn : gmap Z BlockState * gmap Z Z) : gmap Z BlockState * gmap Z Z :=
  foldl (λ bn block, (delete (eb_hash block) bn.1, delete (eb_number block) bn.2)) bn l.
Definition insert_new (l : list ExecutedBlock) (bn : gmap Z BlockState * gmap Z Z) : gmap Z BlockState * gmap Z Z :=
  foldl (λ bn block,
           (<[eb_hash block := mkBlockState block (bn.1 !! eb_parent_hash block)]> bn.1,
            <[eb_number block := eb_hash block]> bn.2)) bn l.
Definition update_blocks (new reorged : list ExecutedBlock) m : InMemoryState :=
  let '(blocks, numbers) := insert_new new (remove_reorged reorged (im_blocks m, im_numbers m)) in
  mkInMemoryState blocks numbers None.
Definition update_chain (c : NewCanonicalChain) m : InMemoryState :=
  match c with Commit new => update_blocks new [] m | Reorg new old => update_blocks new old m end.

Definition number_le (a b : ExecutedBlock) : Prop := eb_number a ≤ eb_number b.
#[export] Instance number_le_dec a b : Decision (number_le a b).
Proof. unfold number_le. apply _. Defined.
Definition remove_persisted_blocks (persisted_height : Z) m : InMemoryState :=
  let old_blocks :=
    merge_sort number_le
      (filter (λ b, persisted_height < eb_number b) ((λ e, st_block e.2) <$> iter (im_blocks m))) in
  let '(blocks, numbers) := insert_new old_blocks (∅, ∅) in
  mkInMemoryState blocks numbers
    ((λ p, mkBlockState (st_block p) (blocks !! eb_parent_hash (st_block p))) <$> im_pending m).

(** [canonical_chain]: the pending block, and the head with its parents. *)
Definition canonical_chain m : outcome (list BlockState) :=
  l ← match head_state m with
      | None => Done []
      | Some s =>
        '(l, _) ← ancestors (λ s, eb_parent_hash (st_block s)) (size (im_blocks m)) (im_blocks m) (eb_parent_hash (st_block s));
        Done (s :: l)
      end;
  Done (option_list (im_pending m) ++ l).

(** [transaction_by_hash_with_meta]: the transaction with its position. *)
Record TransactionMeta := mkTransactionMeta {
  tm_tx_hash : Z;
  tm_index : Z;
  tm_block_hash : Z;
  tm_block_number : Z;
  tm_base_fee : option Z;
  tm_timestamp : Z;
  tm_excess_blob_gas : option Z;
}.
Definition find_tx (hash : Z) (b : ExecutedBlock) : option (nat * TransactionSignedEcRecovered) :=
  list_find (λ t, ec_hash t = hash) (sb_body (eb_block b)).
Fixpoint find_in_chain (hash : Z) (i : Z) (l : list BlockState) : option (TransactionSignedEcRecovered * TransactionMeta) :=
  match l with
  | [] => None
  | s :: l =>
    match find_tx hash (st_block s) with
    | Some (index, tx) =>
      let h := sh_header (sb_header (eb_block (st_block s))) in
      Some (tx, mkTransactionMeta hash (Z.of_nat index) (st_hash s) i (h_base_fee_per_gas h) (h_timestamp h) (h_excess_blob_gas h))
    | None => find_in_chain hash (i + 1) l
    end
  end.
Definition transaction_by_hash_with_meta (hash : Z) m : outcome (option (TransactionSignedEcRecovered * TransactionMeta)) :=
  l ← canonical_chain m; Done (find_in_chain hash 0 l).
Definition transaction_by_hash (hash : Z) m : outcome (option TransactionSignedEcRecovered) :=
  l ← canonical_chain m;
  Done (snd <$> head (omap (λ s, find_tx hash (st_block s)) l)).
(** [state_provider]: the blocks on top of the database, the newest first. *)
Definition overlay_blocks (hash : Z) m : list ExecutedBlock :=
  match state_by_hash hash m with Some s => st_block <$> state_chain s | None => [] end.
End memory.

Definition on_memory (f : InMemoryState → InMemoryState) (m : CanonicalInMemoryState) : CanonicalInMemoryState :=
  mkCanonicalInMemoryState (cm_tracker m) (f (cm_memory m)) (cm_notifications m).
Definition notify_canon_state (e : CanonStateNotification) (m : CanonicalInMemoryState) : CanonicalInMemoryState :=
  mkCanonicalInMemoryState (cm_tracker m) (cm_memory m) (cm_notifications m ++ [e]).
Definition header_by_hash (hash : Z) (m : CanonicalInMemoryState) : option SealedHeader :=
  (λ s, sb_header (eb_block (st_block s))) <$> state_by_hash hash (cm_memory m).
Definition with_head (head : SealedHeader) (finalized : option SealedHeader) : CanonicalInMemoryState :=
  mkCanonicalInMemoryState (ChainInfoTracker_new head finalized) (mkInMemoryState ∅ ∅ None) [].

(** ** The memory of a chain *)

(** The state after a block on top of the blocks below it, the newest first. *)
Fixpoint build (l : list ExecutedBlock) : option BlockState :=
  match l with [] => None | b :: l => Some (mkBlockState b (build l)) end.
Fixpoint mem_blocks (l : list ExecutedBlock) : gmap Z BlockState :=
  match l with [] => ∅ | b :: l => <[eb_hash b := mkBlockState b (build l)]> (mem_blocks l) end.
Fixpoint mem_numbers (l : list ExecutedBlock) : gmap Z Z :=
  match l with [] => ∅ | b :: l => <[eb_number b := eb_hash b]> (mem_numbers l) end.
Definition mem_is (l : list ExecutedBlock) (m : InMemoryState) : Prop :=
  im_blocks m = mem_blocks l ∧ im_numbers m = mem_numbers l.

(** Blocks that follow each other, the newest first; no other block of the chain is the parent
    of the oldest one. *)
Inductive chainlike : list ExecutedBlock → Prop :=
| chainlike_nil : chainlike []
| chainlike_single b : eb_parent_hash b ≠ eb_hash b → chainlike [b]
| chainlike_cons b c l :
    eb_parent_hash b = eb_hash c → eb_number b = eb_number c + 1 →
    eb_hash b ∉ eb_hash <$> c :: l → (∀ x, x ∈ c :: l → eb_parent_hash x ≠ eb_hash b) →
    chainlike (c :: l) → chainlike (b :: c :: l).

Lemma chainlike_tail b l : chainlike (b :: l) → chainlike l.
Proof. inversion 1; subst; [constructor|done]. Qed.
Lemma chainlike_drop l1 l2 : chainlike (l1 ++ l2) → chainlike l2.
Proof. induction l1 as [|b l1 IH]; [done|]. intros ?%chainlike_tail. by apply IH. Qed.
Lemma chainlike_numbers b l : chainlike (b :: l) → Forall (λ x, eb_number x < eb_number b) l.
Proof.
  revert b. induction l as [|c l IH]; intros b Hc; [constructor|]. inversion Hc as [| |? ? ? ? Hn ? ? Hc']; subst.
  constructor; [lia|]. eapply Forall_impl; [by apply IH|]. simpl. lia.
Qed.
Lemma chainlike_NoDup l : chainlike l → NoDup (eb_hash <$> l) ∧ NoDup (eb_number <$> l).
Proof.
  induction l as [|b l IH]; intros Hc; [split; constructor|]. destruct (IH (chainlike_tail _ _ Hc)) as [H1 H2].
  pose proof (chainlike_numbers _ _ Hc) as Hn. split; constructor; try done.
  - inversion Hc; subst; [by apply not_elem_of_nil|done].
  - intros (x & Hx & Hin)%list_elem_of_fmap. rewrite Forall_forall in Hn. specialize (Hn _ Hin). lia.
Qed.

Lemma mem_blocks_None l h : h ∉ eb_hash <$> l → mem_blocks l !! h = None.
Proof.
  induction l as [|b l IH]; [done|]. intros [Hb Hl]%not_elem_of_cons. simpl. rewrite lookup_insert_ne by done. by apply IH.
Qed.
Lemma mem_numbers_None l n : n ∉ eb_number <$> l → mem_numbers l !! n = None.
Proof.
  induction l as [|b l IH]; [done|]. intros [Hb Hl]%not_elem_of_cons. simpl. rewrite lookup_insert_ne by done. by apply IH.
Qed.
Lemma mem_blocks_Some l h s :
  NoDup (eb_hash <$> l) →
  mem_blocks l !! h = Some s ↔ ∃ l1 l2, l = l1 ++ st_block s :: l2 ∧ st_hash s = h ∧ st_parent s = build l2.
Proof.
  induction l as [|b l IH]; intros Hnd; simpl.
  { split; [by rewrite lookup_empty|]. by intros ([] & l2 & ? & _). }
  rewrite fmap_cons, NoDup_cons in Hnd. destruct Hnd as [Hb Hnd]. rewrite lookup_insert_Some, (IH Hnd). split.
  - intros [[<- <-]|[Hn (l1 & l2 & -> & Hh & Hp)]]; [by exists [], l|by exists (b :: l1), l2].
  - intros ([|b' l1] & l2 & E & Hh & Hp); injection E as -> ->.
    + left. destruct s as [bs ps]. simpl in *. subst ps. done.
    + right. split; [|by exists l1, l2]. intros Heq. apply Hb. rewrite Heq, <-Hh, fmap_app. set_solver.
Qed.

Lemma mem_numbers_Some l n h :
  NoDup (eb_number <$> l) → mem_numbers l !! n = Some h ↔ ∃ b, b ∈ l ∧ eb_number b = n ∧ eb_hash b = h.
Proof.
  induction l as [|b l IH]; intros Hnd; simpl.
  { split; [by rewrite lookup_empty|]. by intros (b & ?%elem_of_nil & _). }
  rewrite fmap_cons, NoDup_cons in Hnd. destruct Hnd as [Hb Hnd]. rewrite lookup_insert_Some, (IH Hnd). split.
  - intros [[<- <-]|[Hn (c & Hc & ? & ?)]]; [exists b|exists c]; split_and!; try done; [left|by right].
  - intros (c & [->|Hc]%elem_of_cons & <- & <-); [by left|]. right. split; [|by exists c].
    intros Heq. apply Hb. rewrite Heq. by apply list_elem_of_fmap_2.
Qed.
Lemma build_chain l s : build l = Some s → st_block <$> state_chain s = l.
Proof.
  revert s. induction l as [|b l IH]; intros s; simpl; [done|]. intros [= <-]. simpl. f_equal.
  destruct (build l) as [p|] eqn:E; [by apply IH|]. by destruct l.
Qed.
(** The last entry of the index is the newest block. *)
Lemma head_state_ok l m : chainlike l → mem_is l m → head_state m = build l.
Proof.
  intros Hc [Hb Hn]. unfold head_state. rewrite Hb, Hn. destruct l as [|b l]; [done|].
  destruct (chainlike_NoDup _ Hc) as [Hh Hnum]. set (it := bmap_iter (mem_numbers (b :: l))).
  assert ((eb_number b, eb_hash b) ∈ it) as Hin.
  { apply elem_of_bmap_iter, mem_numbers_Some; [done|]. exists b. split_and!; [left|done|done]. }
  destruct (last it) as [[n h]|] eqn:El; [|apply last_None in El; rewrite El in Hin; by apply elem_of_nil in Hin].
  pose proof (last_Some_elem_of _ _ El) as Hl. apply elem_of_bmap_iter, mem_numbers_Some in Hl as (c & Hc' & <- & <-); [|done].
  assert (eb_number b ≤ eb_number c) as Hle.
  { apply last_Some in El as [it' E]. pose proof (bmap_iter_sorted (mem_numbers (b :: l))) as Hs. fold it in Hs. rewrite E in Hs, Hin.
    apply elem_of_app in Hin as [Hin|Hin]; [|apply list_elem_of_singleton in Hin; injection Hin as <- _; lia].
    apply StronglySorted_app in Hs as (Hs & _ & _). specialize (Hs _ _ Hin (list_elem_of_here _ _)). simpl in Hs.
    apply Z.lt_le_incl. by apply Z.compare_lt_iff. }
  assert (c = b) as ->.
  { apply elem_of_cons in Hc' as [->|Hc']; [done|]. pose proof (chainlike_numbers _ _ Hc) as Hf. rewrite Forall_forall in Hf.
    specialize (Hf _ Hc'). lia. }
  simpl. by rewrite lookup_insert_eq.
Qed.
(** Appending blocks to the chain. *)
Lemma insert_new_ok new l :
  chainlike (reverse new ++ l) → insert_new new (mem_blocks l, mem_numbers l) = (mem_blocks (reverse new ++ l), mem_numbers (reverse new ++ l)).
Proof.
  revert l. induction new as [|b new IH]; intros l Hc; [done|]. rewrite reverse_cons, <-app_assoc in Hc |- *.
  simpl in Hc |- *. rewrite <-IH by done. unfold insert_new. simpl. do 5 f_equal.
  apply chainlike_drop in Hc. destruct l as [|c l]; [done|].
  inversion Hc as [| |? ? ? Hp]; subst. rewrite Hp. apply lookup_insert_eq.
Qed.
(** Taking blocks off it; it may have fewer than are taken off. *)
Lemma remove_reorged_absent old bn :
  (∀ b, b ∈ old → bn.1 !! eb_hash b = None ∧ bn.2 !! eb_number b = None) → remove_reorged old bn = bn.
Proof.
  induction old as [|b old IH]; intros Hb; [done|]. unfold remove_reorged in *. simpl.
  destruct (Hb b) as [H1 H2]; [left|]. rewrite !delete_id by done. destruct bn. apply IH. intros b' Hb'. apply Hb. by right.
Qed.
Lemma remove_reorged_ok old l :
  chainlike (old ++ l) → remove_reorged old (mem_blocks (old ++ l), mem_numbers (old ++ l)) = (mem_blocks l, mem_numbers l).
Proof.
  induction old as [|b old IH]; intros Hc; [done|]. unfold remove_reorged in *. simpl.
  destruct (chainlike_NoDup _ Hc) as [[Hb _]%NoDup_cons [Hn _]%NoDup_cons].
  rewrite !delete_insert_id by (apply mem_blocks_None || apply mem_numbers_None; done).
  apply IH. by eapply chainlike_tail.
Qed.
Lemma chainlike_prefix l rest : chainlike (l ++ rest) → chainlike l.
Proof.
  induction l as [|b l IH]; intros Hc; [constructor|]. destruct l as [|c l].
  - constructor. inversion Hc; subst; [done|]. intros Heq. match goal with H : _ ∉ _ |- _ => apply H end. rewrite <-Heq. set_solver.
  - inversion Hc; subst. constructor; [done|done|set_solver|set_solver|by apply IH].
Qed.
Lemma remove_reorged_all l rest :
  chainlike (l ++ rest) → remove_reorged (l ++ rest) (mem_blocks l, mem_numbers l) = (∅, ∅).
Proof.
  intros Hc. unfold remove_reorged. rewrite foldl_app. pose proof (remove_reorged_ok l []) as E. rewrite app_nil_r in E.
  unfold remove_reorged in E. rewrite E; [by apply remove_reorged_absent|]. by eapply chainlike_prefix.
Qed.

(** Dropping the blocks that are in the database: those above the height are kept. *)
Lemma chainlike_above n l : chainlike l → ∃ rest, l = filter (λ b, n < eb_number b) l ++ rest ∧ Forall (λ b, eb_number b ≤ n) rest.
Proof.
  induction l as [|b l IH]; intros Hc; [by exists []|]. destruct (decide (n < eb_number b)) as [Hb|Hb].
  - destruct (IH (chainlike_tail _ _ Hc)) as (rest & E & Hr). exists rest. rewrite filter_cons_True by done.
    split; [simpl; by rewrite <-E|done].
  - exists (b :: l). pose proof (chainlike_numbers _ _ Hc) as Hn. rewrite filter_cons_False by done.
    assert (Forall (λ x, eb_number x ≤ n) l) as Hl by (eapply Forall_impl; [done|simpl; lia]).
    split; [|constructor; [lia|done]].
    enough (filter (λ x, n < eb_number x) l = []) as -> by done.
    clear -Hl. induction Hl as [|x l Hx Hl IH]; [done|]. by rewrite filter_cons_False by lia.
Qed.
Lemma mem_blocks_values l : NoDup (eb_hash <$> l) → st_block <$> (map_to_list (mem_blocks l)).*2 ≡ₚ l.
Proof.
  induction l as [|b l IH]; intros Hnd; [simpl; by rewrite map_to_list_empty|]. apply NoDup_cons in Hnd as [Hb Hnd].
  simpl. rewrite map_to_list_insert by (by apply mem_blocks_None). csimpl. by rewrite IH.
Qed.
Lemma chainlike_sorted l : chainlike l → StronglySorted number_le (reverse l).
Proof.
  induction l as [|b l IH]; intros Hc; [constructor|]. rewrite reverse_cons. pose proof (chainlike_numbers _ _ Hc) as Hn.
  apply StronglySorted_app. split_and!; [|apply IH; by eapply chainlike_tail|repeat constructor].
  intros x y Hx ->%list_elem_of_singleton. rewrite Forall_forall in Hn. unfold number_le. specialize (Hn x).
  rewrite elem_of_reverse in Hx. apply Hn in Hx. lia.
Qed.

Section persisted.
Context `{HashOrder} `{!HashOrderLaws}.
Lemma remove_persisted_blocks_ok n l m :
  chainlike l → mem_is l m → mem_is (filter (λ b, n < eb_number b) l) (remove_persisted_blocks n m).
Proof.
  intros Hc [Hb Hn]. destruct (chainlike_above n l Hc) as (rest & El & _).
  set (l1 := filter (λ b, n < eb_number b) l) in *. assert (chainlike l1) as Hc1 by (rewrite El in Hc; by eapply chainlike_prefix).
  unfold remove_persisted_blocks. set (old := merge_sort _ _). assert (old = reverse l1) as ->.
  { destruct (chainlike_NoDup _ Hc) as [Hh Hnum].
    assert (old ≡ₚ l1) as Hp.
    { unfold old, l1. rewrite merge_sort_Permutation, iter_perm, Hb.
      replace ((λ e, st_block e.2) <$> map_to_list (mem_blocks l)) with (st_block <$> (map_to_list (mem_blocks l)).*2)
        by (by rewrite <-list_fmap_compose). by rewrite mem_blocks_values. }
    apply (StronglySorted_unique_strong number_le);
      [|apply StronglySorted_merge_sort|by apply chainlike_sorted|by rewrite Hp, reverse_Permutation].
    2:{ unfold number_le. intros x y z. lia. }
    2:{ unfold number_le. intros x y. lia. }
    unfold number_le. intros x y. rewrite Hp, elem_of_reverse. intros Hx Hy H1 H2.
    destruct (chainlike_NoDup _ Hc1) as [_ Hnd]. apply list_elem_of_lookup in Hx as [i Hi]. apply list_elem_of_lookup in Hy as [j Hj].
    assert (i = j) as <-; [|congruence].
    eapply (NoDup_lookup (eb_number <$> l1)); [done|rewrite list_lookup_fmap, Hi; done|rewrite list_lookup_fmap, Hj; simpl; f_equal; lia]. }
  pose proof (insert_new_ok (reverse l1) []) as E. rewrite reverse_involutive, app_nil_r in E. simpl in E.
  rewrite E by done. done.
Qed.
(** Following a new canonical chain. *)
Lemma update_chain_ok c l l' m :
  chainlike l → mem_is l m →
  (match c with
   | Commit new => l' = reverse new ++ l
   | Reorg new old => ∃ base, l' = reverse new ++ base ∧ (l = old ++ base ∨ base = [] ∧ ∃ rest, old = l ++ rest ∧ chainlike old)
   end) → chainlike l' → mem_is l' (update_chain c m).
Proof.
  intros Hc [Hb Hn] Hl Hc'. unfold mem_is. destruct c as [new|new old]; simpl; unfold update_blocks; rewrite Hb, Hn.
  - subst l'. simpl. by rewrite insert_new_ok.
  - destruct Hl as (base & -> & [->|(-> & rest & -> & Hco)]).
    + by rewrite remove_reorged_ok, insert_new_ok.
    + rewrite remove_reorged_all by done. pose proof (insert_new_ok new []) as E. simpl in E. by rewrite E.
Qed.
End persisted.

(** ** Two in-memory blocks *)
Module Reported.
Definition hd (n : Z) : Header := mkHeader (99 + n) 0 0 0 0 0 None 0 0 n 0 0 0 0 0 None None None None None [].
Definition tx (h : Z) : TransactionSignedEcRecovered := mkEcRecovered 7 h (Tx.Legacy (Tx.mkTxLegacy None 0 0 0 Create 0 [])).
Definition block (n : Z) (txs : list TransactionSignedEcRecovered) : ExecutedBlock :=
  mkExecutedBlock (mkSealedBlock (mkSealedHeader (100 + n) (hd n)) txs [] None None) [] (mkExecutionOutcome n [] n []) 0 0.
Definition memory : InMemoryState :=
  update_chain (Commit [block 10 [tx 55]; block 11 []]) (mkInMemoryState ∅ ∅ None).
(** A transaction of block 10, below the head 11, is reported in block 1: its distance from the head. *)
Example reported_number :
  transaction_by_hash_with_meta 55 memory = Done (Some (tx 55, mkTransactionMeta 55 0 110 1 None 0 None)).
Proof. vm_compute. reflexivity. Qed.
(** The outcome of the replaced chain in a notification is that of its oldest block. *)
Example reorged_outcome :
  match to_chain_notification (Reorg [block 10 []] [block 11 []; block 10 [tx 55]]) with
  | Done (NotifyReorg old _) => eo_first_block (ch_outcome old) = 10
  | _ => False
  end.
Proof. vm_compute. reflexivity. Qed.
End Reported.
