(* ===== verification/EngineTypes.v ===== *)
(** * The engine's data

    Errors and results of inserting a block ([blockchain-tree-api/src/error.rs],
    [blockchain-tree-api/src/lib.rs], [evm/execution-errors/src/lib.rs]), the answers to the
    consensus client ([consensus/beacon/src/engine/message.rs], [.../forkchoice.rs]), the
    messages and events of the engine ([engine/tree/src/engine.rs], [chain.rs], [backfill.rs],
    [consensus/beacon/src/engine/event.rs], [stages/api/src/pipeline/ctrl.rs]), and its
    configuration ([engine/tree/src/tree/config.rs]).

    Errors of other layers that the engine only passes on are numbers.  A status carries the
    error itself in place of its text. *)

From stdpp Require Import prelude gmap list strings.
From S2P Require Import Prelude.
From S2P Require Import Header.
From S2P Require Import Consensus.
From S2P Require Import Links.
From S2P Require Import BlockBuffer.
From S2P Require Import TreeState.
From S2P Require Import InvalidHeaders.

(** ** Errors *)
Inductive ProviderError := HeaderNotFound (hash : Z) | OtherProviderError (code : Z).
Inductive BlockValidationError :=
| EvmError (hash code : Z)
| SenderRecoveryError
| IncrementBalanceFailed
| StateRootError (code : Z)
| TransactionGasLimitMoreThanAvailableBlockGas (transaction_gas_limit block_available_gas : Z)
| BlockPreMerge (hash : Z)
| MissingTotalDifficulty (hash : Z)
| MissingParentBeaconBlockRoot
| CancunGenesisParentBeaconBlockRootNotZero (parent_beacon_block_root : Z)
| BeaconRootContractCall (parent_beacon_block_root code : Z)
| BlockHashAccountLoadingFailed (e : ProviderError)
| WithdrawalRequestsContractCall (code : Z)
| ConsolidationRequestsContractCall (code : Z)
| DepositRequestDecode (code : Z).
Inductive InternalBlockExecutionError :=
| Pruning (code : Z)
| AppendChainDoesntConnect (chain_tip other_chain_fork : BlockNumHash)
| LatestBlock (e : ProviderError)
| OtherExecutionError (code : Z).
Inductive BlockExecutionError :=
| ExecutionValidation (e : BlockValidationError)
| ExecutionConsensus (e : ConsensusError)
| ExecutionInternal (e : InternalBlockExecutionError).

Inductive InsertBlockErrorKindTwo :=
| KindSenderRecovery
| KindConsensus (e : ConsensusError)
| KindExecution (e : BlockExecutionError)
| KindProvider (e : ProviderError).
Definition InsertBlockErrorTwo : Type := SealedBlock * InsertBlockErrorKindTwo.
Inductive InsertBlockFatalError := FatalProvider (e : ProviderError) | FatalExecution (e : InternalBlockExecutionError).
Inductive InsertBlockValidationError :=
| InvalidSenderRecovery
| InvalidConsensus (e : ConsensusError)
| InvalidExecution (e : BlockValidationError).
Definition ensure_validation_error (k : InsertBlockErrorKindTwo) : InsertBlockFatalError + InsertBlockValidationError :=
  match k with
  | KindSenderRecovery => inr InvalidSenderRecovery
  | KindConsensus err => inr (InvalidConsensus err)
  | KindExecution (ExecutionValidation err) => inr (InvalidExecution err)
  | KindExecution (ExecutionConsensus err) => inr (InvalidConsensus err)
  | KindExecution (ExecutionInternal error) => inl (FatalExecution error)
  | KindProvider err => inl (FatalProvider err)
  end.
Definition is_block_pre_merge (e : InsertBlockValidationError) : bool :=
  match e with InvalidExecution (BlockPreMerge _) => true | _ => false end.

(** [From<A> for B], as applied by [?]. *)
Class Into (A B : Type) := into : A → B.
#[export] Instance into_refl {A} : Into A A := λ a, a.
#[export] Instance provider_into_fatal : Into ProviderError InsertBlockFatalError := FatalProvider.
#[export] Instance provider_into_kind : Into ProviderError InsertBlockErrorKindTwo := KindProvider.
#[export] Instance consensus_into_kind : Into ConsensusError InsertBlockErrorKindTwo := KindConsensus.
#[export] Instance execution_into_kind : Into BlockExecutionError InsertBlockErrorKindTwo := KindExecution.

(** ** Results *)
Inductive BlockAttachment := AttachedCanonical | HistoricalFork.
Inductive BlockStatus := Valid (a : BlockAttachment) | Disconnected (head missing_ancestor : BlockNumHash).
Inductive InsertPayloadOk := AlreadySeen (s : BlockStatus) | Inserted (s : BlockStatus).

(** [PayloadError] of the RPC types. *)
Inductive PayloadError :=
| PayloadBlockHash (execution consensus : Z)
| InvalidVersionedHashes
| PostCancunBlockWithoutBlobGasUsed
| PostCancunBlockWithoutExcessBlobGas
| PostCancunWithoutCancunFields
| PreCancunBlockWithBlobTransactions
| PreCancunBlockWithBlobGasUsed
| PreCancunBlockWithExcessBlobGas
| PreCancunWithCancunFields
| PreShanghaiBlockWithWitdrawals
| PrePragueBlockWithEip7702Transactions
| OtherPayloadError (code : Z).
Definition is_block_hash_mismatch (e : PayloadError) : bool := match e with PayloadBlockHash _ _ => true | _ => false end.
Definition is_invalid_versioned_hashes (e : PayloadError) : bool := match e with InvalidVersionedHashes => true | _ => false end.

Inductive InvalidReason :=
| BecausePayload (e : PayloadError)
| BecauseBlock (e : InsertBlockValidationError)
| LinksToRejectedPayload.
Inductive PayloadStatusEnum := StatusValid | StatusInvalid (validation_error : InvalidReason) | StatusSyncing | StatusAccepted.
Record PayloadStatus := mkPayloadStatus { ps_status : PayloadStatusEnum; ps_latest_valid_hash : option Z }.
Definition from_status (s : PayloadStatusEnum) : PayloadStatus := mkPayloadStatus s None.
Definition is_valid (s : PayloadStatus) : bool := match ps_status s with StatusValid => true | _ => false end.
Definition from_payload_status (s : PayloadStatusEnum) : ForkchoiceStatus :=
  match s with
  | StatusValid | StatusAccepted => FcuValid
  | StatusInvalid _ => FcuInvalid
  | StatusSyncing => FcuSyncing
  end.

(** [OnForkChoiceUpdated]: an answer that is ready, or one that waits for the identifier of a
    payload job. *)
Inductive ForkchoiceUpdateError := UpdatedInvalidPayloadAttributes | InvalidState | UnknownFinalBlock.
Inductive ForkchoiceFuture :=
| Ready (r : ForkchoiceUpdateError + PayloadStatus)
| PendingPayloadId (payload_status : PayloadStatus).
Record OnForkChoiceUpdated := mkOnForkChoiceUpdated { forkchoice_status : ForkchoiceStatus; fut : ForkchoiceFuture }.
Definition of_status (s : PayloadStatus) : OnForkChoiceUpdated :=
  mkOnForkChoiceUpdated (from_payload_status (ps_status s)) (Ready (inr s)).
Definition syncing : OnForkChoiceUpdated := of_status (from_status StatusSyncing).
Definition valid (s : PayloadStatus) : OnForkChoiceUpdated := of_status s.
Definition with_invalid (s : PayloadStatus) : OnForkChoiceUpdated := of_status s.
Definition invalid_state : OnForkChoiceUpdated := mkOnForkChoiceUpdated FcuInvalid (Ready (inl InvalidState)).
Definition invalid_payload_attributes : OnForkChoiceUpdated :=
  mkOnForkChoiceUpdated FcuValid (Ready (inl UpdatedInvalidPayloadAttributes)).
Definition updated_with_pending_payload_id (s : PayloadStatus) : OnForkChoiceUpdated :=
  mkOnForkChoiceUpdated (from_payload_status (ps_status s)) (PendingPayloadId s).

(** ** Messages and events *)
Inductive PipelineTarget := Sync (hash : Z) | Unwind_ (number : Z).
Inductive BackfillAction := Start (t : PipelineTarget).
Inductive DownloadRequest := BlockSet (hashes : gset Z) | BlockRange (hash count : Z).
Definition single_block (hash : Z) : DownloadRequest := BlockSet {[hash]}.
Inductive BackfillSyncState := Idle | Pending | Active.
Definition is_idle (s : BackfillSyncState) : bool := match s with Idle => true | _ => false end.
#[export] Instance BackfillSyncState_eq_dec : EqDecision BackfillSyncState.
Proof. solve_decision. Defined.

Inductive ControlFlow := Unwind (target : Z) (bad_block : SealedHeader) | Continue (block_number : Z) | NoProgress (block_number : option Z).
Definition block_number (c : ControlFlow) : option Z :=
  match c with Unwind _ _ => None | Continue n => Some n | NoProgress n => n end.

Inductive TreeAction := MakeCanonical (target : Z).
Inductive TreeEvent := TreeActionEvent (a : TreeAction) | BackfillEvent (a : BackfillAction) | DownloadEvent (r : DownloadRequest).
Definition tree_event_is_backfill (e : TreeEvent) : bool := match e with BackfillEvent _ => true | _ => false end.
Record TreeOutcome (A : Type) := mkTreeOutcome { to_outcome : A; to_event : option TreeEvent }.
Arguments mkTreeOutcome {A} _ _.
Arguments to_outcome {A} _.
Arguments to_event {A} _.
Definition TreeOutcome_new {A} (a : A) : TreeOutcome A := mkTreeOutcome a None.
Definition with_event {A} (o : TreeOutcome A) (e : TreeEvent) : TreeOutcome A := mkTreeOutcome (to_outcome o) (Some e).

Inductive BeaconConsensusEngineEvent :=
| EvForkchoiceUpdated (s : ForkchoiceState) (status : ForkchoiceStatus)
| EvCanonicalBlockAdded (b : SealedBlock)
| EvCanonicalChainCommitted (h : SealedHeader)
| EvForkBlockAdded (b : SealedBlock).
Inductive EngineApiEvent :=
| BeaconConsensusEvent (e : BeaconConsensusEngineEvent)
| EngineBackfillAction (a : BackfillAction)
| EngineDownload (r : DownloadRequest).
Definition is_backfill_action (e : EngineApiEvent) : bool := match e with EngineBackfillAction _ => true | _ => false end.
#[export] Instance beacon_into_event : Into BeaconConsensusEngineEvent EngineApiEvent := BeaconConsensusEvent.

(** ** Configuration *)
Record TreeConfig := mkTreeConfig {
  persistence_threshold : Z;
  memory_block_buffer_target : Z;
  block_buffer_limit : Z;
  max_invalid_header_cache_length : Z;
  max_execute_block_batch_size : Z;
}.
Definition TreeConfig_default : TreeConfig := mkTreeConfig 3 2 256 256 4.
Definition MIN_BLOCKS_FOR_PIPELINE_RUN : Z := 32.
