(* ===== verification/PayloadValidator.v ===== *)
(** * The layout of a payload

    [ExecutionPayloadValidator] ([payload/validator/src/lib.rs]): whether a payload of the
    consensus client decodes to a block with the stated hash whose fields belong to its fork.
    [CancunPayloadFields]; of a payload, the engine itself reads the hash and that of the
    parent.  Decoding it into a block and hashing the header are parameters. *)

From stdpp Require Import prelude gmap list strings.
From S2P Require Import Prelude.
From S2P Require Import Forks.
From S2P Require Import Transaction.
From S2P Require Import Header.
From S2P Require Import Codecs.
From S2P Require Import Consensus.
From S2P Require Import ConsensusSteps.
From S2P Require Import BlockBuffer.
From S2P Require Import EngineTypes.

Record Block := mkBlock {
  blk_header : Header;
  blk_body : list TransactionSignedEcRecovered;
  blk_ommers : list Header;
  blk_withdrawals : option (list Withdrawal);
  blk_requests : option (list Z);
}.
Definition unseal (b : SealedBlock) : Block :=
  mkBlock (sh_header (sb_header b)) (sb_body b) (sb_ommers b) (sb_withdrawals b) (sb_requests b).
Record CancunPayloadFields := mkCancunFields { cf_parent_beacon_block_root : Z; cf_versioned_hashes : list Z }.
Class Payloads := {
  ExecutionPayload : Type;
  payload_block_hash : ExecutionPayload → Z;
  payload_parent_hash : ExecutionPayload → Z;
  try_into_block : ExecutionPayload → option Z → PayloadError + Block;
  hash_slow : Header → Z;
}.
Definition seal_slow `{Payloads} (b : Block) : SealedBlock :=
  mkSealedBlock (mkSealedHeader (hash_slow (blk_header b)) (blk_header b)) (blk_body b) (blk_ommers b) (blk_withdrawals b)
    (blk_requests b).
Record ExecutionPayloadValidator := mkPayloadValidator { pv_chain_spec : ConsensusSpec }.

Definition is_eip4844 (t : TransactionSignedEcRecovered) : bool := match ec_transaction t with Tx.Eip4844 _ => true | _ => false end.
Definition is_eip7702 (t : TransactionSignedEcRecovered) : bool := match ec_transaction t with Tx.Eip7702 _ => true | _ => false end.
Definition has_blob_transactions (b : SealedBlock) : bool := existsb is_eip4844 (sb_body b).
Definition has_eip7702_transactions (b : SealedBlock) : bool := existsb is_eip7702 (sb_body b).
Definition blob_versioned_hashes (b : SealedBlock) : list Z :=
  mjoin (omap (λ t, match ec_transaction t with Tx.Eip4844 tx => Some (Tx.bl_blob_versioned_hashes tx) | _ => None end) (sb_body b)).

Definition ensure_matching_blob_versioned_hashes (b : SealedBlock) (cancun_fields : option CancunPayloadFields)
  : option PayloadError :=
  let hashes := blob_versioned_hashes b in
  match cancun_fields with
  | Some f =>
    if negb (Z.of_nat (length hashes) =? Z.of_nat (length (cf_versioned_hashes f))) then Some InvalidVersionedHashes
    else if existsb (λ p, negb (p.1 =? p.2)) (zip (cf_versioned_hashes f) hashes) then Some InvalidVersionedHashes
    else None
  | None => if 0 <? Z.of_nat (length hashes) then Some InvalidVersionedHashes else None
  end.

Definition guard_ {E} (b : bool) (e : E) : option E := if b then Some e else None.
Definition cancun_layout (v : ExecutionPayloadValidator) (b : SealedBlock) (cancun_fields : option CancunPayloadFields)
  : option PayloadError :=
  let h := sh_header (sb_header b) in
  if is_cancun_active_at_timestamp (h_timestamp h) (es_hardforks (pv_chain_spec v)) then
    guard_ (bool_decide (h_blob_gas_used h = None)) PostCancunBlockWithoutBlobGasUsed ?;
    guard_ (bool_decide (h_excess_blob_gas h = None)) PostCancunBlockWithoutExcessBlobGas ?;
    guard_ (match cancun_fields with None => true | Some _ => false end) PostCancunWithoutCancunFields
  else
    guard_ (has_blob_transactions b) PreCancunBlockWithBlobTransactions ?;
    guard_ (negb (bool_decide (h_blob_gas_used h = None))) PreCancunBlockWithBlobGasUsed ?;
    guard_ (negb (bool_decide (h_excess_blob_gas h = None))) PreCancunBlockWithExcessBlobGas ?;
    guard_ (match cancun_fields with None => false | Some _ => true end) PreCancunWithCancunFields.
Definition block_layout (v : ExecutionPayloadValidator) (expected_hash : Z) (b : SealedBlock)
  (cancun_fields : option CancunPayloadFields) : option PayloadError :=
  let h := sh_header (sb_header b) in
  let forks := es_hardforks (pv_chain_spec v) in
  guard_ (negb (expected_hash =? sb_hash b)) (PayloadBlockHash (sb_hash b) expected_hash) ?;
  cancun_layout v b cancun_fields ?;
  guard_ (negb (is_shanghai_active_at_timestamp (h_timestamp h) forks) && negb (bool_decide (sb_withdrawals b = None)))
    PreShanghaiBlockWithWitdrawals ?;
  guard_ (is_prague_active_at_timestamp (h_timestamp h) forks && has_eip7702_transactions b)
    PrePragueBlockWithEip7702Transactions ?;
  ensure_matching_blob_versioned_hashes b cancun_fields.
Definition ensure_well_formed_payload `{Payloads} (v : ExecutionPayloadValidator) (payload : ExecutionPayload)
  (cancun_fields : option CancunPayloadFields) : PayloadError + SealedBlock :=
  let expected_hash := payload_block_hash payload in
  match try_into_block payload (cf_parent_beacon_block_root <$> cancun_fields) with
  | inl e => inl e
  | inr block =>
    let sealed_block := seal_slow block in
    match block_layout v expected_hash sealed_block cancun_fields with
    | Some e => inl e
    | None => inr sealed_block
    end
  end.

(** ** What passes *)
Lemma zip_matches (l k : list Z) :
  length l = length k → existsb (λ p, negb (p.1 =? p.2)) (zip l k) = false ↔ l = k.
Proof.
  revert k. induction l as [|x l IH]; intros [|y k] Hl; try done; simpl in *. injection Hl as Hl.
  rewrite orb_false_iff, (IH k Hl), negb_false_iff, Z.eqb_eq. naive_solver.
Qed.
Lemma matching_hashes_spec b f :
  ensure_matching_blob_versioned_hashes b f = None ↔ blob_versioned_hashes b = default [] (cf_versioned_hashes <$> f).
Proof.
  unfold ensure_matching_blob_versioned_hashes. destruct f as [f|]; simpl.
  - destruct (Z.eqb_spec (Z.of_nat (length (blob_versioned_hashes b))) (Z.of_nat (length (cf_versioned_hashes f)))) as [E|E]; simpl.
    + pose proof (zip_matches (cf_versioned_hashes f) (blob_versioned_hashes b) ltac:(lia)) as Hz.
      destruct (existsb _ _); split; intros Hx; try done; [by apply (eq_sym) in Hx; apply Hz in Hx|symmetry; by apply Hz].
    + split; [done|]. intros Hx. by rewrite Hx in E.
  - destruct (blob_versioned_hashes b); simpl; [done|]. by destruct (Z.ltb_spec 0 (Z.of_nat (S (length l)))); [|lia].
Qed.
Lemma guard_None {E} (b : bool) (e : E) : guard_ b e = None ↔ b = false.
Proof. by destruct b. Qed.
Lemma not_Some_None {A} (o : option A) : ¬ is_Some o ↔ o = None.
Proof. symmetry. apply eq_None_not_Some. Qed.

Lemma cancun_layout_spec v b f :
  let h := sh_header (sb_header b) in
  let cancun := is_cancun_active_at_timestamp (h_timestamp h) (es_hardforks (pv_chain_spec v)) = true in
  cancun_layout v b f = None ↔
  (is_Some (h_blob_gas_used h) ↔ cancun) ∧ (is_Some (h_excess_blob_gas h) ↔ cancun) ∧ (is_Some f ↔ cancun) ∧
  (has_blob_transactions b = true → cancun).
Proof.
  intros h cancun. subst h cancun. unfold cancun_layout. destruct (is_cancun_active_at_timestamp _ _).
  - rewrite !seq_None, !guard_None, !bool_decide_eq_false, <-!not_Some_None.
    destruct f, (h_blob_gas_used _), (h_excess_blob_gas _); rewrite ?is_Some_alt; naive_solver.
  - rewrite !seq_None, !guard_None, !negb_false_iff, !bool_decide_eq_true.
    destruct f, (h_blob_gas_used _), (h_excess_blob_gas _), (has_blob_transactions b); rewrite ?is_Some_alt; naive_solver.
Qed.
Lemma block_layout_spec v hash b f :
  let h := sh_header (sb_header b) in
  let forks := es_hardforks (pv_chain_spec v) in
  let cancun := is_cancun_active_at_timestamp (h_timestamp h) forks = true in
  block_layout v hash b f = None ↔
  sb_hash b = hash ∧
  (is_Some (h_blob_gas_used h) ↔ cancun) ∧ (is_Some (h_excess_blob_gas h) ↔ cancun) ∧ (is_Some f ↔ cancun) ∧
  (has_blob_transactions b = true → cancun) ∧
  blob_versioned_hashes b = default [] (cf_versioned_hashes <$> f) ∧
  (is_Some (sb_withdrawals b) → is_shanghai_active_at_timestamp (h_timestamp h) forks = true) ∧
  (has_eip7702_transactions b = true → is_prague_active_at_timestamp (h_timestamp h) forks = false).
Proof.
  intros h forks cancun. unfold block_layout. rewrite !seq_None, !guard_None, cancun_layout_spec, matching_hashes_spec.
  fold h forks cancun. rewrite negb_false_iff, Z.eqb_eq, !andb_false_iff, !negb_false_iff, bool_decide_eq_true.
  assert ((is_shanghai_active_at_timestamp (h_timestamp h) forks = true ∨ sb_withdrawals b = None) ↔
          (is_Some (sb_withdrawals b) → is_shanghai_active_at_timestamp (h_timestamp h) forks = true)) as ->.
  { destruct (sb_withdrawals b); [|naive_solver]. destruct (is_shanghai_active_at_timestamp _ _); rewrite ?is_Some_alt; naive_solver. }
  assert ((is_prague_active_at_timestamp (h_timestamp h) forks = false ∨ has_eip7702_transactions b = false) ↔
          (has_eip7702_transactions b = true → is_prague_active_at_timestamp (h_timestamp h) forks = false)) as ->.
  { destruct (has_eip7702_transactions b); naive_solver. }
  naive_solver.
Qed.

(** C23. The payloads that are well formed are exactly those that decode to a block with the stated
    hash for which: the blob gas fields of the header and the Cancun parameters of the call are present
    exactly if Cancun is active at its timestamp, blob transactions occur only then, and their versioned
    hashes are, in order, the ones passed along; withdrawals occur only if Shanghai is active; and
    set-code transactions (EIP-7702) only if Prague is not active. *)
Theorem well_formed_payload_spec `{Payloads} v payload f b :
  let h := sh_header (sb_header b) in
  let forks := es_hardforks (pv_chain_spec v) in
  let cancun := is_cancun_active_at_timestamp (h_timestamp h) forks = true in
  ensure_well_formed_payload v payload f = inr b ↔
  (∃ block, try_into_block payload (cf_parent_beacon_block_root <$> f) = inr block ∧ b = seal_slow block) ∧
  sb_hash b = payload_block_hash payload ∧
  (is_Some (h_blob_gas_used h) ↔ cancun) ∧ (is_Some (h_excess_blob_gas h) ↔ cancun) ∧ (is_Some f ↔ cancun) ∧
  (has_blob_transactions b = true → cancun) ∧
  blob_versioned_hashes b = default [] (cf_versioned_hashes <$> f) ∧
  (is_Some (sb_withdrawals b) → is_shanghai_active_at_timestamp (h_timestamp h) forks = true) ∧
  (has_eip7702_transactions b = true → is_prague_active_at_timestamp (h_timestamp h) forks = false).
Proof.
  intros h forks cancun. unfold ensure_well_formed_payload.
  transitivity ((∃ block, try_into_block payload (cf_parent_beacon_block_root <$> f) = inr block ∧ b = seal_slow block) ∧
                block_layout v (payload_block_hash payload) b f = None).
  { destruct (try_into_block _ _) as [|block]; [naive_solver|]. destruct (block_layout _ _ (seal_slow block) _) eqn:E; naive_solver. }
  rewrite block_layout_spec. fold h forks cancun. naive_solver.
Qed.
