(* ===== verification/Engine.v ===== *)
(** * The engine tree

    [EngineApiTreeHandler] ([engine/tree/src/tree/mod.rs]): the task that answers the
    consensus client, executes blocks, follows forkchoice updates and hands canonical blocks
    to the persistence task.

    The handler runs on one thread and owns its state, but the database it reads is written
    by the persistence task meanwhile: every read of the model sees the database at a later
    time.  The channels to the other tasks are lists of what was sent.  The executor, the
    computation of state roots, the recovery of senders and the payload attributes are
    parameters; the consensus checks are those of the class [Consensus].  Timestamps are times
    of the same clock; metrics and the durations in events are left out. *)

From stdpp Require Import prelude gmap list.
From S2P Require Import Prelude.
From S2P Require Import Ord.
From S2P Require Import Header.
From S2P Require Import Codecs.
From S2P Require Import Transaction.
From S2P Require Import Consensus.
From S2P Require Import Links.
From S2P Require Import Lru.
From S2P Require Import BlockBuffer.
From S2P Require Import TreeState.
From S2P Require Import InvalidHeaders.
From S2P Require Import InMemory.
From S2P Require Import EngineTypes.
From S2P Require Import PayloadValidator.

(** ** What the engine uses *)

(** A state: that of a block in the database, or such a state with executed blocks on top. *)
Inductive StateProviderBox (S : Type) := Historical (s : S) | MemoryOverlay (blocks : list ExecutedBlock) (s : S).
Arguments Historical {S} s.
Arguments MemoryOverlay {S} blocks s.
Record BlockExecutionOutput := mkExecutionOutput { ex_state : Z; ex_receipts : list Receipt; ex_requests : list Z; ex_gas_used : Z }.

Class Execution := {
  HistoricalState : Type;
  execute : StateProviderBox HistoricalState → Block → list Z → Z → BlockExecutionError + BlockExecutionOutput;
  hashed_post_state : Z → Z;
  hashed_state_root_with_updates : StateProviderBox HistoricalState → Z → ProviderError + (Z * Z);
  recover_signers : SealedBlock → option (list Z);
}.
Class PayloadAttributes := {
  Attributes : Type;
  BuilderAttributes : Type;
  attributes_timestamp : Attributes → Z;
  builder_try_new : Z → Attributes → option BuilderAttributes;
}.
(** What the engine reads of the database. *)
Record Database `{Execution} := mkDatabase {
  db_block_by_hash : Z → ProviderError + option Block;
  db_block_number : Z → ProviderError + option Z;
  db_sealed_header : Z → ProviderError + option SealedHeader;
  db_header : Z → ProviderError + option Header;
  db_state_by_block_hash : Z → ProviderError + HistoricalState;
}.

Definition num_hash (h : SealedHeader) : BlockNumHash := (h_number (sh_header h), sh_hash h).
Definition U256_MAX : Z := 2 ^ 256 - 1.

(** ** State *)
Section types.
Context `{LruOps} `{Execution} `{PayloadAttributes} `{Payloads}.

Inductive BeaconEngineMessage :=
| NewPayload (payload : ExecutionPayload) (cancun_fields : option CancunPayloadFields)
| ForkchoiceUpdated (state : ForkchoiceState) (payload_attrs : option Attributes)
| TransitionConfigurationExchanged.
Inductive EngineApiRequest := Beacon (m : BeaconEngineMessage) | InsertExecutedBlock (b : ExecutedBlock).
Inductive FromOrchestrator := BackfillSyncFinished (c : ControlFlow) | BackfillSyncStarted.
Inductive FromEngine :=
| EngineEvent (e : FromOrchestrator)
| EngineRequest (r : EngineApiRequest)
| DownloadedBlocks (l : list SealedBlockWithSenders).
(** What is sent back to the consensus client. *)
Inductive Response :=
| ForkchoiceResponse (r : ProviderError + OnForkChoiceUpdated)
| PayloadResponse (r : InsertBlockFatalError + PayloadStatus).

(** The receiver of a persistence task, as the blocks the task was given. *)
Record PersistenceState := mkPersistenceState {
  last_persisted_block_hash : Z;
  rx : option (list ExecutedBlock);
  last_persisted_block_number : Z;
}.
Definition in_progress (p : PersistenceState) : bool := match rx p with Some _ => true | None => false end.
Definition start (blocks : list ExecutedBlock) (p : PersistenceState) : PersistenceState :=
  mkPersistenceState (last_persisted_block_hash p) (Some blocks) (last_persisted_block_number p).
Definition finish (hash number : Z) (p : PersistenceState) : PersistenceState := mkPersistenceState hash None number.
Definition take_rx (p : PersistenceState) : PersistenceState :=
  mkPersistenceState (last_persisted_block_hash p) None (last_persisted_block_number p).

Record EngineApiTreeState := mkEngineState {
  tree_state : TreeState;
  forkchoice_state_tracker : ForkchoiceStateTracker;
  buffer : BlockBuffer;
  invalid_headers : InvalidHeaderCache;
}.
Definition EngineApiTreeState_new (block_buffer_limit max_invalid_header_cache_length : Z) (canonical_block : BlockNumHash)
  : EngineApiTreeState :=
  mkEngineState (TreeState_new canonical_block) ForkchoiceStateTracker_default (BlockBuffer_new block_buffer_limit)
    (InvalidHeaderCache_new max_invalid_header_cache_length).

Record EngineApiTreeHandler := mkEngine {
  state : EngineApiTreeState;
  incoming : list FromEngine;
  outgoing : list EngineApiEvent;
  persistence : list (list ExecutedBlock);
  persistence_state : PersistenceState;
  backfill_sync_state : BackfillSyncState;
  canonical_in_memory_state : CanonicalInMemoryState;
  payload_builder : list BuilderAttributes;
  config : TreeConfig;
  responses : list Response;
  clock : nat;
}.
(** [EngineApiTreeHandler::new], with the states [spawn_new] makes from the last block of the
    database. *)
Definition EngineApiTreeHandler_new (header : SealedHeader) (memory : CanonicalInMemoryState) (best_block_number : Z)
  (c : TreeConfig) : EngineApiTreeHandler :=
  mkEngine (EngineApiTreeState_new (block_buffer_limit c) (max_invalid_header_cache_length c) (num_hash header))
    [] [] [] (mkPersistenceState (sh_hash header) None best_block_number) Idle memory [] c [] 0.

Implicit Types (e : EngineApiTreeHandler).
Definition with_state (s : EngineApiTreeState) e : EngineApiTreeHandler :=
  mkEngine s (incoming e) (outgoing e) (persistence e) (persistence_state e) (backfill_sync_state e)
    (canonical_in_memory_state e) (payload_builder e) (config e) (responses e) (clock e).
Definition on_tree (f : TreeState → TreeState) e : EngineApiTreeHandler :=
  with_state (mkEngineState (f (tree_state (state e))) (forkchoice_state_tracker (state e)) (buffer (state e))
                (invalid_headers (state e))) e.
Definition on_forkchoice (f : ForkchoiceStateTracker → ForkchoiceStateTracker) e : EngineApiTreeHandler :=
  with_state (mkEngineState (tree_state (state e)) (f (forkchoice_state_tracker (state e))) (buffer (state e))
                (invalid_headers (state e))) e.
Definition on_buffer (f : BlockBuffer → BlockBuffer) e : EngineApiTreeHandler :=
  with_state (mkEngineState (tree_state (state e)) (forkchoice_state_tracker (state e)) (f (buffer (state e)))
                (invalid_headers (state e))) e.
Definition on_invalid (f : InvalidHeaderCache → InvalidHeaderCache) e : EngineApiTreeHandler :=
  with_state (mkEngineState (tree_state (state e)) (forkchoice_state_tracker (state e)) (buffer (state e))
                (f (invalid_headers (state e)))) e.
Definition on_persistence (f : PersistenceState → PersistenceState) e : EngineApiTreeHandler :=
  mkEngine (state e) (incoming e) (outgoing e) (persistence e) (f (persistence_state e)) (backfill_sync_state e)
    (canonical_in_memory_state e) (payload_builder e) (config e) (responses e) (clock e).
Definition set_backfill (s : BackfillSyncState) e : EngineApiTreeHandler :=
  mkEngine (state e) (incoming e) (outgoing e) (persistence e) (persistence_state e) s
    (canonical_in_memory_state e) (payload_builder e) (config e) (responses e) (clock e).
Definition on_canonical (f : CanonicalInMemoryState → CanonicalInMemoryState) e : EngineApiTreeHandler :=
  mkEngine (state e) (incoming e) (outgoing e) (persistence e) (persistence_state e) (backfill_sync_state e)
    (f (canonical_in_memory_state e)) (payload_builder e) (config e) (responses e) (clock e).
Definition send_self (m : FromEngine) e : EngineApiTreeHandler :=
  mkEngine (state e) (incoming e ++ [m]) (outgoing e) (persistence e) (persistence_state e) (backfill_sync_state e)
    (canonical_in_memory_state e) (payload_builder e) (config e) (responses e) (clock e).
Definition send_out (m : EngineApiEvent) e : EngineApiTreeHandler :=
  mkEngine (state e) (incoming e) (outgoing e ++ [m]) (persistence e) (persistence_state e) (backfill_sync_state e)
    (canonical_in_memory_state e) (payload_builder e) (config e) (responses e) (clock e).
Definition save_blocks (l : list ExecutedBlock) e : EngineApiTreeHandler :=
  mkEngine (state e) (incoming e) (outgoing e) (persistence e ++ [l]) (persistence_state e) (backfill_sync_state e)
    (canonical_in_memory_state e) (payload_builder e) (config e) (responses e) (clock e).
Definition send_new_payload (a : BuilderAttributes) e : EngineApiTreeHandler :=
  mkEngine (state e) (incoming e) (outgoing e) (persistence e) (persistence_state e) (backfill_sync_state e)
    (canonical_in_memory_state e) (payload_builder e ++ [a]) (config e) (responses e) (clock e).
Definition respond (r : Response) e : EngineApiTreeHandler :=
  mkEngine (state e) (incoming e) (outgoing e) (persistence e) (persistence_state e) (backfill_sync_state e)
    (canonical_in_memory_state e) (payload_builder e) (config e) (responses e ++ [r]) (clock e).
Definition tick e : EngineApiTreeHandler :=
  mkEngine (state e) (incoming e) (outgoing e) (persistence e) (persistence_state e) (backfill_sync_state e)
    (canonical_in_memory_state e) (payload_builder e) (config e) (responses e) (S (clock e)).

(** ** Methods

    A method changes the handler and may panic; one that returns a [Result] keeps its changes
    also if it fails. *)
Definition M (A : Type) : Type := EngineApiTreeHandler → outcome (A * EngineApiTreeHandler).
#[global] Instance M_ret : MRet M := λ A a e, Done (a, e).
#[global] Instance M_bind : MBind M := λ A B f m e, '(a, e) ← m e; f a e.
Definition gets {A} (f : EngineApiTreeHandler → A) : M A := λ e, Done (f e, e).
Definition modify (f : EngineApiTreeHandler → EngineApiTreeHandler) : M unit := λ e, Done (tt, f e).
Definition lift {A} (f : EngineApiTreeHandler → outcome A) : M A := λ e, a ← f e; Done (a, e).
Definition try_ {E F A B} `{Into E F} (m : M (E + A)) (k : A → M (F + B)) : M (F + B) :=
  r ← m; match r with inl err => mret (inl (into err)) | inr a => k a end.
Definition or_err {E A} (r : option A) (err : E) : E + A := match r with Some a => inr a | None => inl err end.
Definition check {E} (r : option E) : E + unit := match r with Some err => inl err | None => inr tt end.
(** [for x in l { f(x) }] where the body may return early, with [true]. *)
Fixpoint for_until {A} (f : A → M bool) (l : list A) : M bool :=
  match l with
  | [] => mret false
  | x :: l => b ← f x; if b : bool then mret true else for_until f l
  end.
End types.
Notation "x ←? m ; k" := (try_ m (λ x, k)) (at level 20, m at level 100, k at level 200, only parsing).
Notation "' p ←? m ; k" := (try_ m (λ x, match x with p => k end))
  (at level 20, p pattern, m at level 100, k at level 200, only parsing).

Section handler.
Context `{LruOps} `{HashOrder} `{Execution} `{PayloadAttributes} `{Payloads} `{Consensus C}.
Context (consensus : C) (payload_validator : ExecutionPayloadValidator) (db : nat → Database).

Definition provider {A} (f : Database → A) : M A := λ e, Done (f (db (clock e)), tick e).

(** *** Reading blocks *)
Definition sealed_header_by_hash (hash : Z) : M (ProviderError + option SealedHeader) :=
  block ← gets (λ e, sb_header <$> tree_block_by_hash hash (tree_state (state e)));
  match block with
  | Some _ => mret (inr block)
  | None =>
    n ←? provider (λ d, db_block_number d hash);
    match n with
    | Some block_num => provider (λ d, db_sealed_header d block_num)
    | None => mret (inr None)
    end
  end.
Definition block_by_hash (hash : Z) : M (ProviderError + option Block) :=
  block ←? provider (λ d, db_block_by_hash d hash);
  match block with
  | Some _ => mret (inr block)
  | None => gets (λ e, inr (unseal <$> tree_block_by_hash hash (tree_state (state e))))
  end.
Definition state_provider (hash : Z) : M (ProviderError + option (StateProviderBox HistoricalState)) :=
  c ← lift (λ e, chain_of hash (tree_state (state e)));
  match c with
  | Some (historical, blocks) =>
    historical ←? provider (λ d, db_state_by_block_hash d historical);
    mret (inr (Some (MemoryOverlay blocks historical)))
  | None =>
    header ←? provider (λ d, db_header d hash);
    match header with
    | Some _ =>
      historical ←? provider (λ d, db_state_by_block_hash d hash);
      mret (inr (Some (Historical historical)))
    | None => mret (inr None)
    end
  end.
Definition lowest_buffered_ancestor_or (hash : Z) : M Z :=
  block ← lift (λ e, lowest_ancestor hash (buffer (state e)));
  mret (match block with Some block => bs_parent_hash block | None => hash end).
Definition find_canonical_header (hash : Z) : M (ProviderError + option SealedHeader) :=
  canonical ← gets (λ e, header_by_hash hash (canonical_in_memory_state e));
  match canonical with
  | Some _ => mret (inr canonical)
  | None =>
    header ←? provider (λ d, db_header d hash);
    mret (inr (mkSealedHeader hash <$> header))
  end.

(** *** Invalid blocks *)
Definition invalid_get (hash : Z) : M (option Header) :=
  λ e, let '(h, c) := ih_get hash (invalid_headers (state e)) in Done (h, on_invalid (λ _, c) e).
Fixpoint latest_valid_loop (fuel : nat) (current_header : option Header) : M (ProviderError + option Z) :=
  match current_header with
  | None => mret (inr None)
  | Some header =>
    match fuel with
    | O => λ _, NoFuel
    | S fuel =>
      let current_hash := h_parent_hash header in
      current_header ← invalid_get current_hash;
      match current_header with
      | None =>
        block ←? block_by_hash current_hash;
        match block with Some _ => mret (inr (Some current_hash)) | None => latest_valid_loop fuel None end
      | Some _ => latest_valid_loop fuel current_header
      end
    end
  end.
Definition latest_valid_hash_for_invalid_payload (parent_hash : Z) : M (ProviderError + option Z) :=
  block ←? block_by_hash parent_hash;
  match block with
  | Some _ => mret (inr (Some parent_hash))
  | None =>
    fuel ← gets (λ e, Z.to_nat (budget (invalid_headers (state e))));
    current_header ← invalid_get parent_hash;
    latest_valid_loop fuel current_header
  end.
Definition prepare_invalid_response (parent_hash : Z) : M (ProviderError + PayloadStatus) :=
  parent ←? block_by_hash parent_hash;
  let parent_hash :=
    match parent with
    | Some parent => if negb (is_zero_difficulty (blk_header parent)) then 0 else parent_hash
    | None => parent_hash
    end in
  valid_parent_hash ←? latest_valid_hash_for_invalid_payload parent_hash;
  mret (inr (mkPayloadStatus (StatusInvalid LinksToRejectedPayload) (Some (default 0 valid_parent_hash)))).
Definition is_sync_target_head (block_hash : Z) : M bool :=
  gets (λ e, match sync_target_state (forkchoice_state_tracker (state e)) with
             | Some target => head_block_hash target =? block_hash
             | None => false
             end).
Definition check_invalid_ancestor_with_head (check head : Z) : M (ProviderError + option PayloadStatus) :=
  header ← invalid_get check;
  match header with
  | None => mret (inr None)
  | Some header =>
    status ←? prepare_invalid_response (h_parent_hash header);
    _ ← modify (on_invalid (insert_with_invalid_ancestor head header));
    mret (inr (Some status))
  end.
Definition check_invalid_ancestor (head : Z) : M (ProviderError + option PayloadStatus) :=
  header ← invalid_get head;
  match header with
  | None => mret (inr None)
  | Some header =>
    status ←? prepare_invalid_response (h_parent_hash header);
    mret (inr (Some status))
  end.

(** *** Events *)
Definition emit_event (event : EngineApiEvent) : M unit :=
  if is_backfill_action event then
    _ ← lift (λ e, assert_ (is_idle (backfill_sync_state e)));
    busy ← gets (λ e, in_progress (persistence_state e));
    if busy : bool then mret tt
    else _ ← modify (set_backfill Pending); modify (send_out event)
  else modify (send_out event).

(** *** The canonical chain *)
Definition on_canonical_chain_update (chain_update : NewCanonicalChain) : M unit :=
  tip ← lift (λ _, tip chain_update);
  _ ← modify (on_tree (set_canonical_head (num_hash (sb_header tip))));
  notification ← lift (λ _, to_chain_notification chain_update);
  _ ← modify (on_canonical (on_memory (update_chain chain_update)));
  _ ← modify (on_canonical (mem_set_canonical_head (sb_header tip)));
  _ ← modify (on_canonical (notify_canon_state notification));
  emit_event (into (EvCanonicalChainCommitted (sb_header tip))).
Definition make_canonical (target : Z) : M unit :=
  c ← lift (λ e, on_new_head target (tree_state (state e)));
  match c with Some chain_update => on_canonical_chain_update chain_update | None => mret tt end.
Definition on_tree_event (event : TreeEvent) : M unit :=
  match event with
  | TreeActionEvent (MakeCanonical target) => make_canonical target
  | BackfillEvent action => emit_event (EngineBackfillAction action)
  | DownloadEvent action => emit_event (EngineDownload action)
  end.
Definition on_maybe_tree_event (event : option TreeEvent) : M unit :=
  match event with Some event => on_tree_event event | None => mret tt end.

(** *** Inserting blocks *)
Definition validate_block (block : SealedBlockWithSenders) : option ConsensusError :=
  let header := sb_header (bs_block block) in
  validate_header_with_total_difficulty consensus (sh_header header) U256_MAX ?;
  validate_header consensus header ?;
  validate_block_pre_execution consensus (bs_block block).
Definition bs_parent_num_hash (b : SealedBlockWithSenders) : BlockNumHash := parent_num_hash (sh_header (sb_header (bs_block b))).
Definition bs_num_hash (b : SealedBlockWithSenders) : BlockNumHash := num_hash (sb_header (bs_block b)).

Definition buffer_disconnected (block : SealedBlockWithSenders) : M InsertPayloadOk :=
  ancestor ← lift (λ e, lowest_ancestor (bs_parent_hash block) (buffer (state e)));
  let missing_ancestor :=
    match ancestor with Some block => bs_parent_num_hash block | None => bs_parent_num_hash block end in
  _ ← modify (on_buffer (BlockBuffer.insert_block block));
  gets (λ e, Inserted (Disconnected (current_canonical_head (tree_state (state e))) missing_ancestor)).
Definition insert_executed_block (executed : ExecutedBlock) : M unit :=
  canonical ← gets (λ e, canonical_block_hash (tree_state (state e)));
  _ ← (if canonical =? eb_parent_hash executed
       then modify (on_canonical (on_memory (set_pending_block executed))) else mret tt);
  _ ← modify (on_tree (insert_executed executed));
  fork ← lift (λ e, is_fork (eb_hash executed) (tree_state (state e)));
  emit_event (into (if fork : bool then EvForkBlockAdded (eb_block executed) else EvCanonicalBlockAdded (eb_block executed))).
(** From the state of the parent to the executed block. *)
Definition execute_block (block : SealedBlockWithSenders) (parent_block : SealedHeader)
  (sp : StateProviderBox HistoricalState) : InsertBlockErrorKindTwo + ExecutedBlock :=
  let sealed := bs_block block in
  match validate_header_against_parent consensus (sb_header sealed) parent_block with
  | Some err => inl (into err)
  | None =>
    match execute sp (unseal sealed) (bs_senders block) U256_MAX with
    | inl err => inl (into err)
    | inr output =>
      match validate_block_post_execution consensus (sh_header (sb_header sealed)) (ex_receipts output) (ex_requests output) with
      | Some err => inl (into err)
      | None =>
        let hashed_state := hashed_post_state (ex_state output) in
        match hashed_state_root_with_updates sp hashed_state with
        | inl err => inl (into err)
        | inr (state_root, trie_output) =>
          if negb (state_root =? h_state_root (sh_header (sb_header sealed)))
          then inl (into (BodyStateRootDiff (mkGotExpected state_root (h_state_root (sh_header (sb_header sealed))))))
          else inr (mkExecutedBlock sealed (bs_senders block)
                      (mkExecutionOutcome (ex_state output) (ex_receipts output) (bs_number block) (ex_requests output))
                      hashed_state trie_output)
        end
      end
    end
  end.
Definition insert_block_inner (block : SealedBlockWithSenders) : M (InsertBlockErrorKindTwo + InsertPayloadOk) :=
  seen ←? block_by_hash (bs_hash block);
  match seen with
  | Some _ => mret (inr (AlreadySeen (Valid AttachedCanonical)))
  | None =>
    match validate_block block with
    | Some err => mret (inl (into err))
    | None =>
      sp ←? state_provider (bs_parent_hash block);
      match sp with
      | None => r ← buffer_disconnected block; mret (inr r)
      | Some sp =>
        parent ←? sealed_header_by_hash (bs_parent_hash block);
        match parent with
        | None => mret (inl (KindProvider (HeaderNotFound (bs_parent_hash block))))
        | Some parent_block =>
          match execute_block block parent_block sp with
          | inl err => mret (inl err)
          | inr executed => _ ← insert_executed_block executed; mret (inr (Inserted (Valid AttachedCanonical)))
          end
        end
      end
    end
  end.
Definition insert_block (block : SealedBlockWithSenders) : M (InsertBlockErrorTwo + InsertPayloadOk) :=
  r ← insert_block_inner block;
  mret (match r with inl kind => inl (bs_block block, kind) | inr ok => inr ok end).
Definition insert_block_without_senders (block : SealedBlock) : M (InsertBlockErrorTwo + InsertPayloadOk) :=
  match recover_signers block with
  | Some senders => insert_block (mkBlockWithSenders block senders)
  | None => mret (inl (block, KindSenderRecovery))
  end.
Definition buffer_block (block : SealedBlockWithSenders) : M (InsertBlockErrorTwo + unit) :=
  match validate_block block with
  | Some err => mret (inl (bs_block block, KindConsensus err))
  | None => _ ← modify (on_buffer (BlockBuffer.insert_block block)); mret (inr tt)
  end.
Definition buffer_block_without_senders (block : SealedBlock) : M (InsertBlockErrorTwo + unit) :=
  match recover_signers block with
  | Some senders => buffer_block (mkBlockWithSenders block senders)
  | None => mret (inl (block, KindSenderRecovery))
  end.
Definition on_insert_block_error (error : InsertBlockErrorTwo) : M (InsertBlockFatalError + PayloadStatus) :=
  let '(block, error) := error in
  match ensure_validation_error error with
  | inl fatal => mret (inl fatal)
  | inr validation_err =>
    latest_valid_hash ←?
      (if is_block_pre_merge validation_err then mret (inr (Some 0))
       else latest_valid_hash_for_invalid_payload (sb_parent_hash block));
    _ ← modify (on_invalid (ih_insert (sb_header block)));
    mret (inr (mkPayloadStatus (StatusInvalid (BecauseBlock validation_err)) latest_valid_hash))
  end.
Definition connect_child (child : SealedBlockWithSenders) : M bool :=
  r ← insert_block child;
  match r with
  | inr res =>
    target ← is_sync_target_head (bs_hash child);
    _ ← (if (target : bool) && match res with Inserted (Valid AttachedCanonical) => true | _ => false end
         then make_canonical (bs_hash child) else mret tt);
    mret false
  | inl err => _ ← on_insert_block_error err; mret false
  end.
Definition try_connect_buffered_blocks (parent : BlockNumHash) : M unit :=
  blocks ← (λ e, '(blocks, b) ← remove_block_with_children parent.2 (buffer (state e)); Done (blocks, on_buffer (λ _, b) e));
  _ ← for_until connect_child blocks;
  mret tt.

(** *** Backfill *)
Definition exceeds_backfill_run_threshold (local_tip block : Z) : bool :=
  (local_tip <? block) && (MIN_BLOCKS_FOR_PIPELINE_RUN <? block - local_tip).
Definition distance_from_local_tip (local_tip block : Z) : option Z :=
  if local_tip <? block then Some (block - local_tip) else None.
Definition backfill_sync_target (canonical_tip_num target_block_number : Z) (downloaded_block : option BlockNumHash)
  : M (option Z) :=
  sync_target_state ← gets (λ e, sync_target_state (forkchoice_state_tracker (state e)));
  buffered_finalized ← gets (λ e, s ← sync_target_state; buffer_block_of (finalized_block_hash s) (buffer (state e)));
  let exceeds := exceeds_backfill_run_threshold canonical_tip_num target_block_number in
  let exceeds :=
    match buffered_finalized with
    | Some finalized => exceeds_backfill_run_threshold canonical_tip_num (bs_number finalized)
    | None => exceeds
    end in
  let exceeds :=
    match downloaded_block, sync_target_state with
    | Some (number, hash), Some state =>
      if hash =? finalized_block_hash state then exceeds_backfill_run_threshold canonical_tip_num number else exceeds
    | _, _ => exceeds
    end in
  match exceeds, sync_target_state with
  | true, Some state =>
    header ← provider (λ d, db_header d (finalized_block_hash state));
    mret (match header with
          | inl _ => None
          | inr None => Some (if negb (finalized_block_hash state =? 0) then finalized_block_hash state else head_block_hash state)
          | inr (Some _) => None
          end)
  | _, _ => mret None
  end.
Definition on_disconnected_downloaded_block (downloaded_block missing_parent head : BlockNumHash) : M (option TreeEvent) :=
  target ← backfill_sync_target head.1 missing_parent.1 (Some downloaded_block);
  mret (Some
    (match target with
     | Some target => BackfillEvent (Start (Sync target))
     | None =>
       DownloadEvent (match distance_from_local_tip head.1 missing_parent.1 with
                      | Some distance => BlockRange missing_parent.2 distance
                      | None => single_block missing_parent.2
                      end)
     end)).

(** *** Downloaded blocks *)
Definition on_downloaded_block (block : SealedBlockWithSenders) : M (option TreeEvent) :=
  let block_num_hash := bs_num_hash block in
  lowest_buffered_ancestor ← lowest_buffered_ancestor_or block_num_hash.2;
  invalid ← check_invalid_ancestor_with_head lowest_buffered_ancestor block_num_hash.2;
  match invalid with
  | inl _ | inr (Some _) => mret None
  | inr None =>
    idle ← gets (λ e, is_idle (backfill_sync_state e));
    if negb idle then mret None
    else
      r ← insert_block block;
      match r with
      | inr (Inserted (Valid _)) =>
        target ← is_sync_target_head block_num_hash.2;
        if target : bool then mret (Some (TreeActionEvent (MakeCanonical block_num_hash.2)))
        else _ ← try_connect_buffered_blocks block_num_hash; mret None
      | inr (Inserted (Disconnected head missing_ancestor)) =>
        on_disconnected_downloaded_block block_num_hash missing_ancestor head
      | inr (AlreadySeen _) => mret None
      | inl err => _ ← on_insert_block_error err; mret None
      end
  end.
Definition on_downloaded_one (block : SealedBlockWithSenders) : M bool :=
  event ← on_downloaded_block block;
  match event with
  | Some event => _ ← on_tree_event event; mret (tree_event_is_backfill event)
  | None => mret false
  end.
Definition on_downloaded (blocks : list SealedBlockWithSenders) : M (option TreeEvent) :=
  match blocks with
  | [] => mret None
  | _ =>
    batch ← gets (λ e, Z.min (max_execute_block_batch_size (config e)) (Z.of_nat (length blocks)));
    let batch := Z.to_nat batch in
    stopped ← for_until on_downloaded_one (take batch blocks);
    if stopped : bool then mret None
    else
      _ ← (match drop batch blocks with [] => mret tt | rest => modify (send_self (DownloadedBlocks rest)) end);
      mret None
  end.

(** *** Payloads *)
Definition on_new_payload (payload : ExecutionPayload) (cancun_fields : option CancunPayloadFields)
  : M (InsertBlockFatalError + TreeOutcome PayloadStatus) :=
  let parent_hash := payload_parent_hash payload in
  match ensure_well_formed_payload payload_validator payload cancun_fields with
  | inl error =>
    latest_valid_hash ←?
      (if is_block_hash_mismatch error || is_invalid_versioned_hashes error then mret (inr None)
       else latest_valid_hash_for_invalid_payload parent_hash);
    mret (inr (TreeOutcome_new (mkPayloadStatus (StatusInvalid (BecausePayload error)) latest_valid_hash)))
  | inr block =>
    let block_hash := sb_hash block in
    lowest_buffered_ancestor ← lowest_buffered_ancestor_or block_hash;
    let lowest_buffered_ancestor :=
      if lowest_buffered_ancestor =? block_hash then sb_parent_hash block else lowest_buffered_ancestor in
    invalid ←? check_invalid_ancestor_with_head lowest_buffered_ancestor block_hash;
    match invalid with
    | Some status => mret (inr (TreeOutcome_new status))
    | None =>
      idle ← gets (λ e, is_idle (backfill_sync_state e));
      status ←?
        (if negb idle then
           r ← buffer_block_without_senders block;
           match r with
           | inl error => on_insert_block_error error
           | inr _ => mret (inr (from_status StatusSyncing))
           end
         else
           r ← insert_block_without_senders block;
           match r with
           | inr (Inserted (Valid _)) | inr (AlreadySeen (Valid _)) =>
             mret (inr (mkPayloadStatus StatusValid (Some block_hash)))
           | inr (Inserted (Disconnected _ _)) | inr (AlreadySeen (Disconnected _ _)) =>
             mret (inr (mkPayloadStatus StatusSyncing None))
           | inl error => on_insert_block_error error
           end);
      target ← is_sync_target_head block_hash;
      mret (inr (if is_valid status && target
                 then with_event (TreeOutcome_new status) (TreeActionEvent (MakeCanonical block_hash))
                 else TreeOutcome_new status))
    end
  end.

(** *** Forkchoice updates *)
Definition update_tracked (hash : Z) (set : SealedHeader → CanonicalInMemoryState → CanonicalInMemoryState)
  : M (OnForkChoiceUpdated + unit) :=
  if hash =? 0 then mret (inr tt)
  else
    header ← find_canonical_header hash;
    match header with
    | inr None => mret (inl invalid_state)
    | inr (Some header) => _ ← modify (on_canonical (set header)); mret (inr tt)
    | inl _ => mret (inr tt)
    end.
Definition update_finalized_block (finalized_block_hash : Z) : M (OnForkChoiceUpdated + unit) :=
  update_tracked finalized_block_hash set_finalized.
Definition update_safe_block (safe_block_hash : Z) : M (OnForkChoiceUpdated + unit) := update_tracked safe_block_hash set_safe.
Definition ensure_consistent_forkchoice_state (state : ForkchoiceState) : M (OnForkChoiceUpdated + unit) :=
  _ ←? update_finalized_block (finalized_block_hash state);
  update_safe_block (safe_block_hash state).
Definition pre_validate_forkchoice_update (state : ForkchoiceState) : M (ProviderError + option OnForkChoiceUpdated) :=
  if head_block_hash state =? 0 then mret (inr (Some invalid_state))
  else
    lowest_buffered_ancestor_fcu ← lowest_buffered_ancestor_or (head_block_hash state);
    status ←? check_invalid_ancestor lowest_buffered_ancestor_fcu;
    match status with
    | Some status => mret (inr (Some (with_invalid status)))
    | None =>
      idle ← gets (λ e, is_idle (backfill_sync_state e));
      mret (inr (if negb idle then Some syncing else None))
    end.
Definition process_payload_attributes (attrs : Attributes) (head : Header) (state : ForkchoiceState) : M OnForkChoiceUpdated :=
  if attributes_timestamp attrs <=? h_timestamp head then mret invalid_payload_attributes
  else
    match builder_try_new (head_block_hash state) attrs with
    | Some attributes =>
      _ ← modify (send_new_payload attributes);
      mret (updated_with_pending_payload_id (mkPayloadStatus StatusValid (Some (head_block_hash state))))
    | None => mret invalid_payload_attributes
    end.
Definition valid_outcome (head : Z) : TreeOutcome OnForkChoiceUpdated :=
  TreeOutcome_new (valid (mkPayloadStatus StatusValid (Some head))).
(** The head is canonical: the safe and finalized blocks, and a payload job. *)
Definition finish_forkchoice (state : ForkchoiceState) (attrs : option Attributes) (tip : M (ProviderError + Header))
  : M (ProviderError + TreeOutcome OnForkChoiceUpdated) :=
  consistent ← ensure_consistent_forkchoice_state state;
  match consistent, attrs with
  | inl outcome, _ => mret (inr (TreeOutcome_new outcome))
  | inr _, Some attr =>
    tip ←? tip;
    updated ← process_payload_attributes attr tip state;
    mret (inr (TreeOutcome_new updated))
  | inr _, None => mret (inr (valid_outcome (head_block_hash state)))
  end.
(** The head is missing: what to download. *)
Definition missing_head_target (state : ForkchoiceState) : M Z :=
  first ← gets (λ e, tracker_is_empty (forkchoice_state_tracker (Engine.state e)));
  target ←
    (if first && negb (safe_block_hash state =? 0) then
       safe ← find_canonical_header (safe_block_hash state);
       mret (match safe with inr (Some _) => head_block_hash state | _ => safe_block_hash state end)
     else mret (head_block_hash state));
  lowest_buffered_ancestor_or target.
Definition on_forkchoice_updated (state : ForkchoiceState) (attrs : option Attributes)
  : M (ProviderError + TreeOutcome OnForkChoiceUpdated) :=
  now ← gets clock;
  _ ← modify (on_canonical (on_forkchoice_update_received (Z.of_nat now)));
  early ←? pre_validate_forkchoice_update state;
  match early with
  | Some on_updated => mret (inr (TreeOutcome_new on_updated))
  | None =>
    canonical ← gets (λ e, canonical_block_hash (tree_state (Engine.state e)));
    if canonical =? head_block_hash state then
      finish_forkchoice state attrs
        (tip ←? block_by_hash canonical;
         mret (match tip with Some tip => inr (blk_header tip) | None => inl (HeaderNotFound (head_block_hash state)) end))
    else
      chain_update ← lift (λ e, on_new_head (head_block_hash state) (tree_state (Engine.state e)));
      match chain_update with
      | Some chain_update =>
        tip ← lift (λ _, TreeState.tip chain_update);
        _ ← on_canonical_chain_update chain_update;
        finish_forkchoice state attrs (mret (inr (sh_header (sb_header tip))))
      | None =>
        canonical_header ← find_canonical_header (head_block_hash state);
        match canonical_header with
        | inr (Some _) => mret (inr (valid_outcome (head_block_hash state)))
        | _ =>
          target ← missing_head_target state;
          mret (inr (with_event (TreeOutcome_new (valid (from_status StatusSyncing))) (DownloadEvent (single_block target))))
        end
      end
  end.

(** *** The end of a backfill *)
Definition housekeeping (backfill_height : Z) : M unit :=
  _ ← modify (on_tree (remove_before (Included backfill_height)));
  _ ← (λ e, b ← remove_old_blocks backfill_height (buffer (state e)); Done (tt, on_buffer (λ _, b) e));
  _ ← modify (on_canonical (on_memory mem_clear));
  new_head ← provider (λ d, db_sealed_header d backfill_height);
  match new_head with
  | inr (Some new_head) =>
    _ ← modify (on_tree (set_canonical_head (num_hash new_head)));
    _ ← modify (on_persistence (finish (sh_hash new_head) (h_number (sh_header new_head))));
    modify (on_canonical (mem_set_canonical_head new_head))
  | _ => mret tt
  end.
(** Whether to run again, for the last finalized block if it is buffered. *)
Definition next_backfill_target (progress : Z) (sync_target_state : ForkchoiceState) : M (option Z) :=
  newest_finalized ← gets (λ e, buffer_block_of (finalized_block_hash sync_target_state) (buffer (state e)));
  match newest_finalized with
  | Some finalized => backfill_sync_target progress (bs_number finalized) None
  | None => mret None
  end.
Definition on_backfill_sync_finished (ctrl : ControlFlow) : M unit :=
  _ ← modify (set_backfill Idle);
  match ctrl with
  | Unwind _ bad_block => modify (on_invalid (ih_insert bad_block))
  | _ =>
    match block_number ctrl with
    | None => mret tt
    | Some backfill_height =>
      _ ← housekeeping backfill_height;
      sync_target_state ← gets (λ e, sync_target_state (forkchoice_state_tracker (state e)));
      match sync_target_state with
      | None => mret tt
      | Some sync_target_state =>
        if finalized_block_hash sync_target_state =? 0 then mret tt
        else
          backfill_target ← next_backfill_target backfill_height sync_target_state;
          match backfill_target with
          | Some backfill_target => emit_event (EngineBackfillAction (Start (Sync backfill_target)))
          | None =>
            head ← gets (λ e, current_canonical_head (tree_state (state e)));
            try_connect_buffered_blocks head
          end
      end
    end
  end.

(** *** Persistence *)
Definition should_persist (e : EngineApiTreeHandler) : bool :=
  if negb (is_idle (backfill_sync_state e)) then false
  else
    let min_block := last_persisted_block_number (persistence_state e) in
    persistence_threshold (config e) <? Z.max 0 (canonical_block_number (tree_state (state e)) - min_block).
Fixpoint blocks_to_persist (fuel : nat) (m : gmap Z ExecutedBlock) (last_persisted_number target_number current_hash : Z)
  : outcome (list ExecutedBlock) :=
  match m !! current_hash with
  | None => Done []
  | Some block =>
    if eb_number block <=? last_persisted_number then Done []
    else
      match fuel with
      | O => NoFuel
      | S fuel =>
        l ← blocks_to_persist fuel m last_persisted_number target_number (eb_parent_hash block);
        Done (if eb_number block <=? target_number then block :: l else l)
      end
  end.
Definition get_canonical_blocks_to_persist (e : EngineApiTreeHandler) : outcome (list ExecutedBlock) :=
  let t := tree_state (state e) in
  let target_number := Z.max 0 (canonical_block_number t - memory_block_buffer_target (config e)) in
  l ← blocks_to_persist (size (blocks_by_hash t)) (blocks_by_hash t) (last_persisted_block_number (persistence_state e))
        target_number (canonical_block_hash t);
  Done (reverse l).
Definition on_new_persisted_block : M unit :=
  n ← gets (λ e, last_persisted_block_number (persistence_state e));
  _ ← modify (on_tree (remove_before (Included n)));
  modify (on_canonical (on_memory (remove_persisted_blocks n))).
Inductive TryRecv := Received (last_persisted_block_hash : option Z) | RecvEmpty | RecvClosed.
Definition start_persistence : M unit :=
  starts ← gets (λ e, should_persist e && negb (in_progress (persistence_state e)));
  if starts : bool then
    l ← lift get_canonical_blocks_to_persist;
    match l with
    | [] => mret tt
    | _ => _ ← modify (save_blocks l); modify (on_persistence (start l))
    end
  else mret tt.
(** [reply] is what the channel of the task has; the result is whether the task is alive. *)
Definition advance_persistence (reply : TryRecv) : M bool :=
  _ ← start_persistence;
  receiver ← gets (λ e, rx (persistence_state e));
  match receiver with
  | None => mret true
  | Some receiver =>
    _ ← modify (on_persistence take_rx);
    match reply with
    | Received None => mret true
    | Received (Some last_persisted_block_hash) =>
      block ← gets (λ e, tree_block_by_hash last_persisted_block_hash (tree_state (state e)));
      match block with
      | Some block =>
        _ ← modify (on_persistence (finish last_persisted_block_hash (sb_number block)));
        _ ← on_new_persisted_block;
        mret true
      | None => mret true
      end
    | RecvClosed => mret false
    | RecvEmpty => _ ← modify (on_persistence (start receiver)); mret true
    end
  end.

(** *** Messages *)
Definition on_engine_message (msg : FromEngine) : M unit :=
  match msg with
  | EngineEvent BackfillSyncStarted => modify (set_backfill Active)
  | EngineEvent (BackfillSyncFinished ctrl) => on_backfill_sync_finished ctrl
  | EngineRequest (InsertExecutedBlock block) => modify (on_tree (insert_executed block))
  | EngineRequest (Beacon (ForkchoiceUpdated state payload_attrs)) =>
    output ← on_forkchoice_updated state payload_attrs;
    _ ← (match output with
         | inr res =>
           let status := forkchoice_status (to_outcome res) in
           _ ← modify (on_forkchoice (set_latest state status));
           _ ← emit_event (into (EvForkchoiceUpdated state status));
           on_maybe_tree_event (to_event res)
         | inl _ => mret tt
         end);
    modify (respond (ForkchoiceResponse (match output with inr res => inr (to_outcome res) | inl err => inl err end)))
  | EngineRequest (Beacon (NewPayload payload cancun_fields)) =>
    output ← on_new_payload payload cancun_fields;
    modify (respond (PayloadResponse (match output with inr res => inr (to_outcome res) | inl err => inl err end)))
  | EngineRequest (Beacon TransitionConfigurationExchanged) =>
    now ← gets clock;
    modify (on_canonical (on_transition_configuration_exchanged (Z.of_nat now)))
  | DownloadedBlocks blocks =>
    event ← on_downloaded blocks;
    on_maybe_tree_event event
  end.
(** One round of [run]: a message, if one was received in time, then persistence. *)
Definition run_once (msg : option FromEngine) (reply : TryRecv) : M bool :=
  _ ← (match msg with Some msg => on_engine_message msg | None => mret tt end);
  advance_persistence reply.
End handler.
