(* ===== verification/EngineLogic.v ===== *)
(** * Reasoning about the engine

    A program logic for the methods of the handler ([wp]: the method ends without a panic, in
    a state and with a result that satisfy a postcondition), and what the methods that only
    read blocks or consult the invalid headers do. *)

From stdpp Require Import prelude gmap list.
From S2P Require Import Prelude.
From S2P Require Import Ord.
From S2P Require Import Header.
From S2P Require Import Consensus.
From S2P Require Import ConsensusSteps.
From S2P Require Import Links.
From S2P Require Import Lru.
From S2P Require Import BlockBuffer.
From S2P Require Import TreeState.
From S2P Require Import InvalidHeaders.
From S2P Require Import InMemory.
From S2P Require Import EngineTypes.
From S2P Require Import PayloadValidator.
From S2P Require Import Engine.

(** ** Weakest preconditions *)
Section wp.
Context `{LruOps} `{Execution} `{PayloadAttributes} `{Payloads}.
Implicit Types (e : EngineApiTreeHandler).

Definition wp {A} (m : M A) (Q : A → EngineApiTreeHandler → Prop) e : Prop :=
  match m e with Done (a, e') => Q a e' | _ => False end.

Lemma wp_elim {A} (m : M A) Q e : wp m Q e → ∃ a e', m e = Done (a, e') ∧ Q a e'.
Proof. unfold wp. destruct (m e) as [[a e']| |]; [|done|done]. by exists a, e'. Qed.
Lemma wp_run {A} (m : M A) Q e a e' : m e = Done (a, e') → wp m Q e → Q a e'.
Proof. unfold wp. by intros ->. Qed.
Lemma wp_mono {A} (m : M A) (Q Q' : A → EngineApiTreeHandler → Prop) e :
  wp m Q e → (∀ a e', Q a e' → Q' a e') → wp m Q' e.
Proof. unfold wp. destruct (m e) as [[a e']| |]; auto. Qed.
Lemma wp_bind {A B} (m : M A) (k : A → M B) Q e : wp m (λ a e', wp (k a) Q e') e → wp (m ≫= k) Q e.
Proof. unfold wp, mbind, M_bind. destruct (m e) as [[a e']| |]; done. Qed.
Lemma wp_seq {A B} (m : M A) (k : A → M B) P Q e : wp m P e → (∀ a e', P a e' → wp (k a) Q e') → wp (m ≫= k) Q e.
Proof. intros Hm Hk. apply wp_bind. by eapply wp_mono. Qed.
Lemma wp_ret {A} (a : A) (Q : A → EngineApiTreeHandler → Prop) e : Q a e → wp (mret a) Q e.
Proof. done. Qed.
Lemma wp_gets {A} (f : EngineApiTreeHandler → A) (Q : A → EngineApiTreeHandler → Prop) e : Q (f e) e → wp (gets f) Q e.
Proof. done. Qed.
Lemma wp_modify f (Q : unit → EngineApiTreeHandler → Prop) e : Q tt (f e) → wp (modify f) Q e.
Proof. done. Qed.
Lemma wp_lift {A} (f : EngineApiTreeHandler → outcome A) a (Q : A → EngineApiTreeHandler → Prop) e :
  f e = Done a → Q a e → wp (lift f) Q e.
Proof. unfold wp, lift. by intros ->. Qed.
Lemma wp_try {E F A B} `{Into E F} (m : M (E + A)) (k : A → M (F + B)) P Q e :
  wp m P e → (∀ err e', P (inl err) e' → Q (inl (into err)) e') → (∀ a e', P (inr a) e' → wp (k a) Q e') →
  wp (try_ m k) Q e.
Proof. intros Hm Herr Hk. eapply wp_seq; [done|]. intros [err|a] e' HP; [by apply wp_ret, Herr|by apply Hk]. Qed.
(** A loop whose body keeps an invariant. *)
Lemma wp_for_until {A} (f : A → M bool) (I : EngineApiTreeHandler → Prop) l e :
  I e → (∀ x e, x ∈ l → I e → wp (f x) (λ _ e', I e') e) → wp (for_until f l) (λ _ e', I e') e.
Proof.
  revert e. induction l as [|x l IH]; intros e He Hf; [done|]. simpl. eapply wp_seq; [apply Hf; [left|done]|].
  intros [] e' He'; [by apply wp_ret|]. apply IH; [done|]. intros y e0 Hy. apply Hf. by right.
Qed.
End wp.
Ltac wp_step :=
  first
    [ apply wp_ret | apply wp_bind, wp_gets | apply wp_bind, wp_modify | apply wp_bind, wp_ret
    | apply wp_gets | apply wp_modify ]; cbv beta.

(** ** Frames *)

(** What an entry of the cache of invalid headers stands for: the header under the hash. *)
Class Rejections := rejects : Z → Header → Prop.

Section frames.
Context `{LruOps} `{!LruLaws} `{Execution} `{PayloadAttributes} `{Payloads} `{Rejections}.
Implicit Types (e : EngineApiTreeHandler).

(** The cache is within its limits, and its entries stand for what they should. *)
Definition cache_inv (c : InvalidHeaderCache) : Prop :=
  cache_wf c ∧ ∀ k x, (k, x) ∈ entries c → rejects k (he_header x).
Lemma ih_get_inv hash c :
  cache_inv c → cache_inv (ih_get hash c).2 ∧ ∀ h, (ih_get hash c).1 = Some h → rejects hash h.
Proof.
  intros [Hw Hr]. destruct (ih_get_wf hash c Hw) as (Hw' & _ & _ & Hin). split.
  - split; [done|]. intros k x (x' & Hx & <-)%Hin. by apply Hr.
  - intros h Hh. destruct (ih_get_spec hash c Hw) as [Hs _]. destruct (assoc hash (entries c)) as [x|] eqn:E; [|by rewrite Hs in Hh].
    apply assoc_Some, Hr in E. simpl in Hs. destruct (_ <? _); destruct Hs as [Hs _]; congruence.
Qed.
Lemma insert_entry_inv hash h c : cache_inv c → rejects hash h → cache_inv (insert_entry hash h c).
Proof.
  intros [Hw Hr] Hh. destruct (insert_entry_wf hash h c Hw) as [Hw' Hin]. split; [done|].
  intros k x [[-> ->]|Hx]%Hin; [done|by apply Hr].
Qed.

Definition at_time (n : nat) e : EngineApiTreeHandler :=
  mkEngine (state e) (incoming e) (outgoing e) (persistence e) (persistence_state e) (backfill_sync_state e)
    (canonical_in_memory_state e) (payload_builder e) (config e) (responses e) n.
(** Only time passed, and invalid headers were looked up or added. *)
Definition reads e e' : Prop :=
  ∃ c n, (clock e ≤ n)%nat ∧ (cache_inv (invalid_headers (state e)) → cache_inv c) ∧ e' = at_time n (on_invalid (λ _, c) e).
Lemma reads_refl e : reads e e.
Proof. exists (invalid_headers (state e)), (clock e). split_and!; [lia|done|]. destruct e as [[]]. done. Qed.
Lemma reads_trans e1 e2 e3 : reads e1 e2 → reads e2 e3 → reads e1 e3.
Proof.
  intros (c & n & Hn1 & Hc1 & ->) (c' & n' & Hn2 & Hc2 & ->). exists c', n'. split_and!; [simpl in *; lia| |done].
  intros Hc. apply Hc2. by apply Hc1.
Qed.
Lemma reads_tick e : reads e (tick e).
Proof. exists (invalid_headers (state e)), (S (clock e)). split_and!; [lia|done|]. destruct e as [[]]. done. Qed.
Lemma reads_invalid e f : (cache_inv (invalid_headers (state e)) → cache_inv (f (invalid_headers (state e)))) → reads e (on_invalid f e).
Proof. intros Hf. exists (f (invalid_headers (state e))), (clock e). split_and!; [lia|done|]. by destruct e as [[]]. Qed.
Lemma reads_clock e e' : reads e e' → (clock e ≤ clock e')%nat.
Proof. by intros (c & n & ? & _ & ->). Qed.
Lemma reads_wf e e' : reads e e' → cache_inv (invalid_headers (state e)) → cache_inv (invalid_headers (state e')).
Proof. intros (c & n & _ & Hc & ->) Hw. by apply Hc. Qed.
Lemma reads_tree e e' : reads e e' → tree_state (state e') = tree_state (state e).
Proof. by intros (c & n & _ & _ & ->). Qed.
Lemma reads_buffer e e' : reads e e' → buffer (state e') = buffer (state e).
Proof. by intros (c & n & _ & _ & ->). Qed.
Lemma reads_memory e e' : reads e e' → canonical_in_memory_state e' = canonical_in_memory_state e.
Proof. by intros (c & n & _ & _ & ->). Qed.
Lemma reads_forkchoice e e' : reads e e' → forkchoice_state_tracker (state e') = forkchoice_state_tracker (state e).
Proof. by intros (c & n & _ & _ & ->). Qed.
Lemma reads_backfill e e' : reads e e' → backfill_sync_state e' = backfill_sync_state e.
Proof. by intros (c & n & _ & _ & ->). Qed.
End frames.
#[export] Hint Resolve reads_refl reads_tick : engine.
(** Closes what is left of a method that only reads. *)
Ltac reads_done :=
  intros; cbv beta in *; destruct_and? ; subst; split_and? ; try done; eauto using reads_trans with engine.

(** ** Reading blocks *)
Section reading.
Context `{LruOps} `{!LruLaws} `{HashOrder} `{Execution} `{PayloadAttributes} `{Payloads} `{Consensus C}.
Context `{BlockHashes} `{!BlockHashesLaws} `{Rejections}.
Context (db : nat → Database).
Implicit Types (e : EngineApiTreeHandler).

(** What the database held at some time before now. *)
Definition seen (P : Database → Prop) e : Prop := ∃ n, (n < clock e)%nat ∧ P (db n).
Lemma seen_mono (P : Database → Prop) e e' : (clock e ≤ clock e')%nat → seen P e → seen P e'.
Proof. intros Hc (n & Hn & HP). exists n. split; [lia|done]. Qed.

Lemma wp_provider {A} (f : Database → A) e :
  wp (provider db f) (λ a e', e' = tick e ∧ seen (λ d, f d = a) e') e.
Proof. split; [done|]. exists (clock e). split; [simpl; lia|done]. Qed.

Lemma wp_provider_at {A} (f : Database → A) e :
  wp (provider db f) (λ a e', e' = tick e ∧ f (db (clock e)) = a) e.
Proof. done. Qed.

(** The headers of the database are known ones, stored under their hashes. *)
Class DatabaseLaws : Prop := {
  db_block_known n h b : db_block_by_hash (db n) h = inr (Some b) → known (mkSealedHeader h (blk_header b));
  db_header_known n h hd : db_header (db n) h = inr (Some hd) → known (mkSealedHeader h hd);
  db_sealed_known n k h : db_sealed_header (db n) k = inr (Some h) → known h ∧ h_number (sh_header h) = k;
}.
Context `{!DatabaseLaws}.

(** The executed blocks are known, and linked. *)
Definition tree_known (t : TreeState) : Prop := ∀ h b, blocks_by_hash t !! h = Some b → known (sb_header (eb_block b)).
Lemma tree_linked t : tree_ok t → tree_known t → linked eb_parent_hash hash_rank (blocks_by_hash t).
Proof. intros Ht Hk h b Hb. rewrite <-(to_hash _ Ht _ _ Hb). apply (known_rank _ (Hk _ _ Hb)). Qed.

Definition in_tree (hash : Z) e : Prop := is_Some (blocks_by_hash (tree_state (state e)) !! hash).
Definition in_database (hash : Z) e : Prop := seen (λ d, ∃ b, db_block_by_hash d hash = inr (Some b)) e.

Lemma block_by_hash_ok hash e :
  wp (block_by_hash db hash)
     (λ r e', reads e e' ∧
        ∀ b, r = inr b → match b with Some _ => in_tree hash e ∨ in_database hash e' | None => ¬ in_tree hash e end) e.
Proof.
  unfold block_by_hash. eapply wp_try; [apply wp_provider|reads_done|].
  intros [b|] ? [-> Hs].
  - split; [auto with engine|]. intros ? [= <-]. right. destruct Hs as (n & Hn & Hs). exists n. eauto.
  - split; [auto with engine|]. intros ? [= <-]. unfold in_tree, tree_block_by_hash. simpl.
    destruct (_ !! _) eqn:E; simpl; [left; by eexists|by intros []].
Qed.
(** The header of the hash: one of that hash, or the one that the database has at the number
    it gave for the hash just before. *)
Definition header_named (hash : Z) (h : SealedHeader) : Prop :=
  known h ∧
  (sh_hash h = hash ∨
   ∃ n k, db_block_number (db n) hash = inr (Some k) ∧ db_sealed_header (db (S n)) k = inr (Some h)).
Lemma sealed_header_by_hash_ok hash e :
  tree_ok (tree_state (state e)) → tree_known (tree_state (state e)) →
  wp (sealed_header_by_hash db hash) (λ r e', reads e e' ∧ ∀ h, r = inr (Some h) → header_named hash h) e.
Proof.
  intros Ht Hk. unfold sealed_header_by_hash. apply wp_bind, wp_gets. unfold tree_block_by_hash.
  destruct (_ !! hash) as [b|] eqn:Hb; simpl.
  { apply wp_ret. split; [auto with engine|]. intros h [= <-]. split; [by eapply Hk|left]. by apply (to_hash _ Ht). }
  eapply wp_try; [apply wp_provider_at|intros err ? [-> _]; reads_done|]. intros [k|] ? [-> Hn].
  - eapply wp_mono; [apply wp_provider_at|]. intros r ? [-> Hs]. split; [eauto using reads_trans with engine|].
    intros h ->. split; [by eapply db_sealed_known|right]. by exists (clock e), k.
  - apply wp_ret. reads_done.
Qed.
(** The state after the block of a hash: that of the database below the executed blocks of the
    tree that lead to it. *)
Inductive state_of (t : TreeState) (hash : Z) : StateProviderBox HistoricalState → Prop :=
| state_in_memory historical blocks n s :
    chain_of hash t = Done (Some (historical, blocks)) → db_state_by_block_hash (db n) historical = inr s →
    state_of t hash (MemoryOverlay blocks s)
| state_in_database n s :
    chain_of hash t = Done None → db_state_by_block_hash (db n) hash = inr s → state_of t hash (Historical s).
Lemma state_provider_ok hash e :
  tree_ok (tree_state (state e)) → tree_known (tree_state (state e)) →
  wp (state_provider db hash)
     (λ r e', reads e e' ∧ ∀ sp, r = inr (Some sp) → state_of (tree_state (state e)) hash sp) e.
Proof.
  intros Ht Hk. unfold state_provider. pose proof (chain_of_ok hash_rank hash _ (tree_linked _ Ht Hk)) as Hc.
  apply wp_bind. destruct (_ !! hash) as [b|].
  - destruct Hc as (l & r & Hc & _). eapply wp_lift; [exact Hc|].
    eapply wp_try; [apply wp_provider_at|reads_done|]. intros a ? [-> Ha]. apply wp_ret. split; [auto with engine|].
    intros sp [= <-]. by eapply state_in_memory.
  - eapply wp_lift; [exact Hc|]. eapply wp_try; [apply wp_provider_at|reads_done|].
    intros [h|] ? [-> _]; [|apply wp_ret; reads_done].
    eapply wp_try; [apply wp_provider_at|intros err ? [-> _]; reads_done|].
    intros a ? [-> Ha]. apply wp_ret. split; [eauto using reads_trans with engine|]. intros sp [= <-]. by eapply state_in_database.
Qed.
Lemma lowest_buffered_ancestor_or_ok hash e :
  buffer_ok (buffer (state e)) → blocks_known (buffer (state e)) →
  wp (lowest_buffered_ancestor_or hash)
     (λ r e', e' = e ∧ ∃ l, path bs_parent_hash (bf_blocks (buffer (state e))) hash l r ∧ bf_blocks (buffer (state e)) !! r = None) e.
Proof.
  intros Hb Hk. destruct (lowest_ancestor_ok hash _ Hb Hk) as (l & r & Hp & Hr & E & Hlast). apply wp_bind.
  eapply wp_lift; [exact E|]. apply wp_ret. split; [done|]. exists l. destruct (last l) as [b|] eqn:El.
  - by rewrite (Hlast _ eq_refl).
  - apply last_None in El as ->. inversion Hp; subst. done.
Qed.
(** A header is canonical if it is in memory or in the database. *)
Definition canonical_seen (hash : Z) e : Prop :=
  is_Some (im_blocks (cm_memory (canonical_in_memory_state e)) !! hash) ∨ seen (λ d, ∃ h, db_header d hash = inr (Some h)) e.
Lemma find_canonical_header_ok hash e :
  wp (find_canonical_header db hash)
     (λ r e', reads e e' ∧ ∀ h, r = inr (Some h) → canonical_seen hash e') e.
Proof.
  unfold find_canonical_header. apply wp_bind, wp_gets. unfold header_by_hash, state_by_hash, canonical_seen.
  destruct (_ !! hash) as [s|] eqn:Hs; simpl.
  { apply wp_ret. split; [auto with engine|]. intros h _. left. by rewrite Hs. }
  eapply wp_try; [apply wp_provider|reads_done|]. intros o ? [-> (n & Hn & Hd)]. apply wp_ret.
  split; [auto with engine|]. intros h [= Ho]. destruct o as [hd|]; [|done]. right. exists n. eauto.
Qed.

(** ** Invalid headers *)
Lemma ih_insert_inv h c : cache_inv c → rejects (sh_hash h) (sh_header h) → cache_inv (ih_insert h c).
Proof.
  intros Hc Hh. unfold ih_insert. destruct (ih_get_inv (sh_hash h) c Hc) as (Hg & _).
  destruct (ih_get _ c) as [[] c']; simpl in *; [done|by apply insert_entry_inv].
Qed.
Lemma insert_with_invalid_ancestor_inv hash h c :
  cache_inv c → rejects hash h → cache_inv (insert_with_invalid_ancestor hash h c).
Proof.
  intros Hc Hh. unfold insert_with_invalid_ancestor. destruct (ih_get_inv hash c Hc) as (Hg & _).
  destruct (ih_get _ c) as [[] c']; simpl in *; [done|by apply insert_entry_inv].
Qed.
Lemma budget_nonneg c : cache_wf c → 0 ≤ budget c.
Proof.
  intros [_ Hc]. unfold budget. induction Hc as [|x l Hx Hl IH]; simpl; [lia|]. unfold INVALID_HEADER_HIT_EVICTION_THRESHOLD in *. lia.
Qed.
(** A lookup that answers uses up some of the budget. *)
Lemma invalid_get_ok hash e :
  cache_inv (invalid_headers (state e)) →
  wp (invalid_get hash)
     (λ r e', reads e e' ∧
        match r with
        | Some h => budget (invalid_headers (state e')) < budget (invalid_headers (state e)) ∧ rejects hash h
        | None => True
        end) e.
Proof.
  intros Hw. unfold wp, invalid_get. destruct (ih_get_wf hash _ (proj1 Hw)) as (_ & _ & Hb & _).
  destruct (ih_get_inv hash _ Hw) as [Hg Hr].
  destruct (ih_get hash _) as [r c]. simpl in *. split.
  - by apply reads_invalid.
  - destruct r as [h|]; [|done]. rewrite Hb; [|by eexists]. split; [lia|by apply Hr].
Qed.
Lemma latest_valid_loop_ok fuel h e :
  cache_inv (invalid_headers (state e)) →
  (is_Some h → budget (invalid_headers (state e)) < Z.of_nat fuel) →
  wp (latest_valid_loop db fuel h) (λ _ e', reads e e') e.
Proof.
  revert h e. induction fuel as [|fuel IH]; intros [h|] e Hw Hf; simpl; try (apply wp_ret; by auto with engine).
  { pose proof (budget_nonneg _ (proj1 Hw)). assert (is_Some (Some h)) as Hs by eauto. specialize (Hf Hs). lia. }
  eapply wp_seq; [by apply invalid_get_ok|]. intros [h'|] e' [R Hb]; cbv beta iota.
  - eapply wp_mono; [apply IH; [by eapply reads_wf|]|intros; by eapply reads_trans].
    intros _. assert (is_Some (Some h)) as Hs by eauto. specialize (Hf Hs). destruct Hb as [Hb _]. lia.
  - eapply wp_try; [apply block_by_hash_ok|intros err e'' [R' _]; by eapply reads_trans|].
    intros [b|] e'' [R' _]; [apply wp_ret; by eapply reads_trans|].
    destruct fuel; apply wp_ret; by eapply reads_trans.
Qed.
Lemma latest_valid_hash_ok hash e :
  cache_inv (invalid_headers (state e)) →
  wp (latest_valid_hash_for_invalid_payload db hash) (λ _ e', reads e e') e.
Proof.
  intros Hw. unfold latest_valid_hash_for_invalid_payload.
  eapply wp_try; [apply block_by_hash_ok|reads_done|]. intros [b|] e' [R _]; [by apply wp_ret|].
  apply wp_bind, wp_gets. eapply wp_seq; [apply invalid_get_ok; by eapply reads_wf|]. intros h e'' [R' Hb].
  eapply wp_mono; [apply latest_valid_loop_ok|reads_done].
  - eapply reads_wf; [done|]. by eapply reads_wf.
  - intros [h' ->]. destruct Hb as [Hb _]. pose proof (budget_nonneg _ (proj1 (reads_wf _ _ R Hw))). lia.
Qed.
Lemma prepare_invalid_response_ok hash e :
  cache_inv (invalid_headers (state e)) →
  wp (prepare_invalid_response db hash)
     (λ r e', reads e e' ∧ ∀ s, r = inr s → ps_status s = StatusInvalid LinksToRejectedPayload) e.
Proof.
  intros Hw. unfold prepare_invalid_response.
  eapply wp_try; [apply block_by_hash_ok|reads_done|]. intros b e' [R _].
  eapply wp_try; [apply latest_valid_hash_ok; by eapply reads_wf|reads_done|].
  intros v e'' R'. apply wp_ret. split; [by eapply reads_trans|]. by intros s [= <-].
Qed.
Definition known_invalid (hash : Z) (r : ProviderError + option PayloadStatus) : Prop :=
  ∀ s, r = inr (Some s) → ps_status s = StatusInvalid LinksToRejectedPayload ∧ ∃ h, rejects hash h.
Lemma check_invalid_ancestor_with_head_ok hash head e :
  cache_inv (invalid_headers (state e)) → (∀ h, rejects hash h → rejects head h) →
  wp (check_invalid_ancestor_with_head db hash head) (λ r e', reads e e' ∧ known_invalid hash r) e.
Proof.
  intros Hw Hh. unfold check_invalid_ancestor_with_head. eapply wp_seq; [by apply invalid_get_ok|].
  intros [h|] e' [R Hb]; [destruct Hb as [_ Hb]|by apply wp_ret].
  eapply wp_try; [apply prepare_invalid_response_ok; by eapply reads_wf|reads_done|].
  intros s e'' [R' Hs]. apply wp_bind, wp_modify, wp_ret. split.
  - eapply reads_trans; [done|]. eapply reads_trans; [done|]. apply reads_invalid. intros ?. apply insert_with_invalid_ancestor_inv; auto.
  - intros s' [= <-]. split; [by apply Hs|by exists h].
Qed.
Lemma check_invalid_ancestor_ok hash e :
  cache_inv (invalid_headers (state e)) →
  wp (check_invalid_ancestor db hash) (λ r e', reads e e' ∧ known_invalid hash r) e.
Proof.
  intros Hw. unfold check_invalid_ancestor. eapply wp_seq; [by apply invalid_get_ok|].
  intros [h|] e' [R Hb]; [destruct Hb as [_ Hb]|by apply wp_ret].
  eapply wp_try; [apply prepare_invalid_response_ok; by eapply reads_wf|reads_done|].
  intros s e'' [R' Hs]. apply wp_ret. split; [by eapply reads_trans|]. intros s' [= <-]. split; [by apply Hs|by exists h].
Qed.
(** An error in a block marks it as invalid. *)
Lemma on_insert_block_error_ok err e :
  cache_inv (invalid_headers (state e)) →
  (∀ v, ensure_validation_error err.2 = inr v → rejects (sb_hash err.1) (sh_header (sb_header err.1))) →
  wp (on_insert_block_error db err)
     (λ r e', reads e e' ∧ ∀ s, r = inr s → ∃ v, ensure_validation_error err.2 = inr v ∧ ps_status s = StatusInvalid (BecauseBlock v)) e.
Proof.
  intros Hw Hrej. destruct err as [block err]. unfold on_insert_block_error. simpl in *.
  destruct (ensure_validation_error err) as [fatal|v] eqn:Ev; [apply wp_ret; reads_done|].
  eapply (wp_try _ _ (λ _ e', reads e e')).
  - destruct (is_block_pre_merge v); [apply wp_ret; reads_done|by apply latest_valid_hash_ok].
  - by intros.
  - intros l e' R. apply wp_bind, wp_modify, wp_ret. split.
    + eapply reads_trans; [done|]. apply reads_invalid. intros ?. apply ih_insert_inv; [done|by eapply Hrej].
    + intros s [= <-]. by exists v.
Qed.

(** ** Failures

    An error of a method that reads comes from the database, which failed meanwhile. *)
Definition db_fails (d : Database) (err : ProviderError) : Prop :=
  (∃ h, db_block_by_hash d h = inl err) ∨ (∃ h, db_block_number d h = inl err) ∨
  (∃ n, db_sealed_header d n = inl err) ∨ (∃ h, db_header d h = inl err) ∨ (∃ h, db_state_by_block_hash d h = inl err).
Definition failed (n n' : nat) (err : ProviderError) : Prop := ∃ k, (n ≤ k < n')%nat ∧ db_fails (db k) err.
Lemma failed_mono n1 n2 n3 n4 err : (n1 ≤ n2)%nat → (n3 ≤ n4)%nat → failed n2 n3 err → failed n1 n4 err.
Proof. intros ? ? (k & Hk & Hf). exists k. split; [lia|done]. Qed.

Definition ticks {A} (m : M A) : Prop := ∀ e a e', m e = Done (a, e') → (clock e ≤ clock e')%nat.
Definition fails {A} (m : M (ProviderError + A)) : Prop :=
  ∀ e r e', m e = Done (r, e') → (clock e ≤ clock e')%nat ∧ ∀ err, r = inl err → failed (clock e) (clock e') err.
Lemma wp_fails {A} (m : M (ProviderError + A)) Q e :
  fails m → wp m Q e →
  wp m (λ r e', Q r e' ∧ (clock e ≤ clock e')%nat ∧ ∀ err, r = inl err → failed (clock e) (clock e') err) e.
Proof. unfold wp. intros Hf HQ. destruct (m e) as [[r e']| |] eqn:E; [|done|done]. split; [done|by apply Hf]. Qed.
Lemma M_bind_inv {A B} (m : M A) (k : A → M B) e b e' :
  (m ≫= k) e = Done (b, e') → ∃ a e1, m e = Done (a, e1) ∧ k a e1 = Done (b, e').
Proof. unfold mbind, M_bind. intros ([a e1] & H1' & H2')%bind_Done_inv. by exists a, e1. Qed.

Lemma ticks_gets {A} (f : EngineApiTreeHandler → A) : ticks (gets f).
Proof. by intros e a e' [= _ <-]. Qed.
Lemma ticks_lift {A} (f : EngineApiTreeHandler → outcome A) : ticks (lift f).
Proof. intros e a e' (x & _ & [= _ <-])%bind_Done_inv. done. Qed.
Lemma ticks_invalid f : ticks (modify (on_invalid f)).
Proof. by intros e a e' [= _ <-]. Qed.
Lemma ticks_invalid_get hash : ticks (invalid_get hash).
Proof. intros e a e'. unfold invalid_get. destruct (ih_get _ _). by intros [= _ <-]. Qed.
Lemma fails_ret {A} (a : A) : fails (mret (inr a)).
Proof. by intros e r e' [= <- <-]. Qed.
Lemma fails_gets {A} (f : EngineApiTreeHandler → A) : fails (gets (λ e, inr (f e))).
Proof. by intros e r e' [= <- <-]. Qed.
Lemma fails_bind {A B} (m : M A) (k : A → M (ProviderError + B)) : ticks m → (∀ a, fails (k a)) → fails (m ≫= k).
Proof.
  intros Hm Hk e r e' (a & e1 & E1 & E2)%M_bind_inv. apply Hm in E1. apply Hk in E2 as [Hc Hf]. split; [lia|].
  intros err Herr. eapply failed_mono; [exact E1|reflexivity|by apply Hf].
Qed.
Lemma fails_try {A B} (m : M (ProviderError + A)) (k : A → M (ProviderError + B)) :
  fails m → (∀ a, fails (k a)) → fails (try_ m k).
Proof.
  intros Hm Hk e r e' (x & e1 & E1 & E2)%M_bind_inv. apply Hm in E1 as [Hc1 Hf1]. destruct x as [err|a].
  - injection E2 as <- <-. split; [done|]. intros err' [= <-]. by apply Hf1.
  - apply Hk in E2 as [Hc2 Hf2]. split; [lia|]. intros err Herr. eapply failed_mono; [exact Hc1|reflexivity|by apply Hf2].
Qed.
Lemma fails_provider {A} (f : Database → ProviderError + A) :
  (∀ d err, f d = inl err → db_fails d err) → fails (provider db f).
Proof.
  intros Hf e r e' [= <- <-]. split; [simpl; lia|]. intros err Herr. exists (clock e). split; [simpl; lia|by apply Hf].
Qed.

Ltac db_query := intros d err Herr; unfold db_fails; eauto 8.
Lemma fails_block_by_hash hash : fails (block_by_hash db hash).
Proof. apply fails_try; [apply fails_provider; db_query|]. intros [b|]; [apply fails_ret|apply fails_gets]. Qed.
Lemma fails_sealed_header_by_hash hash : fails (sealed_header_by_hash db hash).
Proof.
  apply fails_bind; [apply ticks_gets|]. intros [b|]; [apply fails_ret|]. apply fails_try; [apply fails_provider; db_query|].
  intros [n|]; [apply fails_provider; db_query|apply fails_ret].
Qed.
Lemma fails_state_provider hash : fails (state_provider db hash).
Proof.
  apply fails_bind; [apply ticks_lift|]. intros [[h bs]|].
  - apply fails_try; [apply fails_provider; db_query|]. intros s. apply fails_ret.
  - apply fails_try; [apply fails_provider; db_query|]. intros [h|]; [|apply fails_ret].
    apply fails_try; [apply fails_provider; db_query|]. intros s. apply fails_ret.
Qed.
Lemma fails_latest_valid_loop fuel h : fails (latest_valid_loop db fuel h).
Proof.
  revert h. induction fuel as [|fuel IH]; intros [h|]; simpl; try apply fails_ret; [by intros e r e'|].
  apply fails_bind; [apply ticks_invalid_get|]. intros [h'|]; [apply IH|].
  apply fails_try; [apply fails_block_by_hash|]. intros [b|]; [apply fails_ret|apply IH].
Qed.
Lemma fails_latest_valid_hash hash : fails (latest_valid_hash_for_invalid_payload db hash).
Proof.
  apply fails_try; [apply fails_block_by_hash|]. intros [b|]; [apply fails_ret|].
  apply fails_bind; [apply ticks_gets|]. intros fuel. apply fails_bind; [apply ticks_invalid_get|]. intros h. apply fails_latest_valid_loop.
Qed.
Lemma fails_check_invalid_ancestor_with_head hash head : fails (check_invalid_ancestor_with_head db hash head).
Proof.
  apply fails_bind; [apply ticks_invalid_get|]. intros [h|]; [|apply fails_ret]. apply fails_try.
  - apply fails_try; [apply fails_block_by_hash|]. intros b. apply fails_try; [apply fails_latest_valid_hash|]. intros v. apply fails_ret.
  - intros s. apply fails_bind; [apply ticks_invalid|]. intros _. apply fails_ret.
Qed.
(** The error that is passed on is the one given, or one of the database. *)
Lemma fails_on_insert_block_error err e r e' :
  on_insert_block_error db err e = Done (r, e') →
  (clock e ≤ clock e')%nat ∧
  ∀ f, r = inl f → ensure_validation_error err.2 = inl f ∨ ∃ pe, f = FatalProvider pe ∧ failed (clock e) (clock e') pe.
Proof.
  destruct err as [block err]. unfold on_insert_block_error. simpl.
  destruct (ensure_validation_error err) as [fatal|v]; [intros [= <- <-]; split; [done|]; intros f [= <-]; by left|].
  intros (x & e1 & E1 & E2)%M_bind_inv.
  assert (fails (if is_block_pre_merge v then mret (inr (Some 0)) else latest_valid_hash_for_invalid_payload db (sb_parent_hash block))) as Hf
    by (destruct (is_block_pre_merge v); [apply fails_ret|apply fails_latest_valid_hash]).
  apply Hf in E1 as [Hc Hf1]. destruct x as [pe|l].
  - injection E2 as <- <-. split; [done|]. intros f [= <-]. right. exists pe. split; [done|by apply Hf1].
  - by injection E2 as <- <-.
Qed.

(** ** Backfill targets *)
Lemma backfill_sync_target_ok tip target downloaded e :
  wp (backfill_sync_target db tip target downloaded) (λ _ e', reads e e') e.
Proof.
  unfold backfill_sync_target. apply wp_bind, wp_gets, wp_bind, wp_gets. destruct (sync_target_state _) as [s|].
  - case_match; [|apply wp_ret; reads_done]. eapply wp_seq; [apply wp_provider|]. intros o ? [-> _]. apply wp_ret. reads_done.
  - case_match; apply wp_ret; reads_done.
Qed.
Lemma on_disconnected_downloaded_block_ok d m h e :
  wp (on_disconnected_downloaded_block db d m h) (λ _ e', reads e e') e.
Proof. eapply wp_seq; [apply backfill_sync_target_ok|]. intros o e' R. by apply wp_ret. Qed.
End reading.
