(* ===== verification/EngineInv.v ===== *)
(** * The engine's invariant

    What holds of the handler between two messages, and that the operations which insert
    blocks and move the canonical head keep it. *)

From stdpp Require Import prelude gmap list.
From S2P Require Import Prelude.
From S2P Require Import Ord.
From S2P Require Import Header.
From S2P Require Import Consensus.
From S2P Require Import ConsensusSteps.
From S2P Require Import Links.
From S2P Require Import Lru.
From S2P Require Import BlockBuffer.
From S2P Require Import TreeState.
From S2P Require Import InvalidHeaders.
From S2P Require Import InMemory.
From S2P Require Import EngineTypes.
From S2P Require Import PayloadValidator.
From S2P Require Import Engine.
From S2P Require Import EngineLogic.

(** ** Chains of executed blocks *)
Lemma path_elem (rank : Z → nat) m h l r x :
  linked eb_parent_hash rank m → path eb_parent_hash m h l r → x ∈ l → ∃ k, m !! k = Some x ∧ (rank k ≤ rank h)%nat.
Proof.
  intros Hl. induction 1 as [|h b l r Hb Hp IH]; [by intros ?%elem_of_nil|].
  intros [->|Hx]%elem_of_cons; [by exists h|]. destruct (IH Hx) as (k & Hk & Hr). exists k. split; [done|].
  specialize (Hl _ _ Hb). lia.
Qed.
Lemma path_filter m (P : Z * ExecutedBlock → Prop) `{∀ x, Decision (P x)} h l r :
  path eb_parent_hash m h l r → (∀ k x, m !! k = Some x → x ∈ l → P (k, x)) → path eb_parent_hash (filter P m) h l r.
Proof.
  induction 1 as [|h b l r Hb Hp IH]; intros HP; [constructor|]. econstructor.
  - apply map_lookup_filter_Some. split; [done|]. apply HP; [done|left].
  - apply IH. intros k x Hk Hx. apply HP; [done|by right].
Qed.
Lemma chainlike_path rank num t h l r :
  tree_ok t → linked eb_parent_hash rank (blocks_by_hash t) → numbered num t →
  path eb_parent_hash (blocks_by_hash t) h l r → chainlike l.
Proof.
  intros Ht Hl (Hm & _). induction 1 as [|h b l r Hb Hp IH]; [constructor|].
  pose proof (to_hash _ Ht _ _ Hb) as Hh. pose proof (Hl _ _ Hb) as Hr. destruct l as [|c l].
  - constructor. rewrite Hh. intros Heq. rewrite Heq in Hr. lia.
  - pose proof Hp as Hp'. inversion Hp' as [|? ? ? ? Hc _]; subst. destruct (Hm _ _ Hb) as (N1 & N2 & _).
    destruct (Hm _ _ Hc) as (N3 & _). constructor; [by rewrite (to_hash _ Ht _ _ Hc)|lia|..|done].
    + intros (x & Hx & Hin)%list_elem_of_fmap. destruct (path_elem rank _ _ _ _ x Hl Hp Hin) as (k & Hk & Hkr).
      rewrite (to_hash _ Ht _ _ Hk) in Hx. subst k. lia.
    + intros x Hin Heq. destruct (path_elem rank _ _ _ _ x Hl Hp Hin) as (k & Hk & Hkr). specialize (Hl _ _ Hk).
      rewrite Heq in Hl. lia.
Qed.
Lemma fits_head t new_head c :
  chain_update_fits t new_head c → ∃ b, last (new_blocks c) = Some b ∧ blocks_by_hash t !! new_head = Some b.
Proof.
  intros [Hne Hc]. assert (∃ r, path eb_parent_hash (blocks_by_hash t) new_head (reverse (new_blocks c)) r) as [r Hp].
  { destruct c; [by eexists|]. destruct Hc as (_ & r & Hp & _). by exists r. }
  destruct (new_blocks c) as [|b l _] using rev_ind; [done|]. rewrite reverse_snoc in Hp. inversion Hp; subst.
  exists b. by rewrite last_snoc.
Qed.
Lemma chain_of_blocks_done l : l ≠ [] → ∃ c, chain_of_blocks l = Done c.
Proof.
  intros Hl. unfold chain_of_blocks. destruct (last l) eqn:E; [by eexists|]. by apply last_None in E.
Qed.
Lemma notification_done t new_head c : chain_update_fits t new_head c → ∃ n, to_chain_notification c = Done n.
Proof.
  intros [Hne Hc]. destruct c as [new|new old]; simpl in *; destruct (chain_of_blocks_done _ Hne) as [cn ->]; [by eexists|].
  destruct Hc as (Ho & _). destruct (chain_of_blocks_done _ Ho) as [co ->]. by eexists.
Qed.

(** ** Frames *)
Section frames.
Context `{LruOps} `{Execution} `{PayloadAttributes} `{Payloads} `{Rejections}.
Implicit Types (e : EngineApiTreeHandler).
(** Nobody is answered. *)
Record keeps e e' : Prop := {
  k_clock : (clock e ≤ clock e')%nat;
  k_responses : responses e' = responses e;
  k_config : config e' = config e;
}.
(** Neither backfill nor persistence start or stop, and no executed block is dropped. *)
Record quiet e e' : Prop := {
  q_keeps : keeps e e';
  q_backfill : backfill_sync_state e' = backfill_sync_state e;
  q_persistence : persistence_state e' = persistence_state e;
  q_forkchoice : forkchoice_state_tracker (state e') = forkchoice_state_tracker (state e);
  q_blocks : blocks_by_hash (tree_state (state e)) ⊆ blocks_by_hash (tree_state (state e'));
}.
(** The canonical chain stays. *)
Record still e e' : Prop := {
  s_quiet : quiet e e';
  s_head : current_canonical_head (tree_state (state e')) = current_canonical_head (tree_state (state e));
  s_tracker : ci_head (cm_tracker (canonical_in_memory_state e')) = ci_head (cm_tracker (canonical_in_memory_state e));
  s_blocks : im_blocks (cm_memory (canonical_in_memory_state e')) = im_blocks (cm_memory (canonical_in_memory_state e));
  s_numbers : im_numbers (cm_memory (canonical_in_memory_state e')) = im_numbers (cm_memory (canonical_in_memory_state e));
}.
Lemma keeps_trans e1 e2 e3 : keeps e1 e2 → keeps e2 e3 → keeps e1 e3.
Proof. intros [] []. constructor; [lia|congruence..]. Qed.
Lemma quiet_trans e1 e2 e3 : quiet e1 e2 → quiet e2 e3 → quiet e1 e3.
Proof. intros [] []. constructor; [by eapply keeps_trans|congruence..|by etrans]. Qed.
Lemma still_trans e1 e2 e3 : still e1 e2 → still e2 e3 → still e1 e3.
Proof. intros [] []. constructor; [by eapply quiet_trans|congruence..]. Qed.
Lemma keeps_refl e : keeps e e.
Proof. by constructor. Qed.
Lemma quiet_refl e : quiet e e.
Proof. by constructor. Qed.
Lemma still_refl e : still e e.
Proof. by constructor. Qed.
Lemma still_keeps e e' : still e e' → keeps e e'.
Proof. intros []. by apply q_keeps. Qed.
Lemma reads_still e e' : reads e e' → still e e'.
Proof. intros (c & n & Hn & _ & ->). by repeat constructor. Qed.
Lemma still_send_out m e : still e (send_out m e).
Proof. by repeat constructor. Qed.
End frames.
#[export] Hint Resolve keeps_refl quiet_refl still_refl still_keeps s_quiet q_keeps still_send_out : engine.

(** What the other tasks vouch for: the executed blocks they hand in, the blocks that a
    backfill names as bad, and whether the persistence task and the database can be relied
    on to keep up with the engine. *)
Class Environment := {
  trusted : ExecutedBlock → Prop;
  unwound : SealedHeader → Prop;
  sound : Prop;
}.

Section invariant.
Context `{LruOps} `{!LruLaws} `{HashOrder} `{!HashOrderLaws} `{Execution} `{PayloadAttributes} `{Payloads}.
Context `{Consensus C} `{!ConsensusLinks C} `{BlockHashes} `{!BlockHashesLaws} `{Environment}.
Context (consensus : C) (db : nat → Database) `{!DatabaseLaws db}.
Implicit Types (e : EngineApiTreeHandler).

(** ** Validated blocks *)

(** The header follows the rules on its own and after its known parent, the body matches it,
    and executing the block on some state gave receipts and a state root as it says. *)
Definition validated (b : ExecutedBlock) : Prop :=
  let block := eb_block b in
  let header := sh_header (sb_header block) in
  validate_header_with_total_difficulty consensus header U256_MAX = None ∧
  validate_header consensus (sb_header block) = None ∧
  validate_block_pre_execution consensus block = None ∧
  (∃ parent, known parent ∧ sh_hash parent = eb_parent_hash b ∧
             validate_header_against_parent consensus (sb_header block) parent = None) ∧
  ∃ sp output trie,
    execute sp (unseal block) (eb_senders b) U256_MAX = inr output ∧
    validate_block_post_execution consensus header (ex_receipts output) (ex_requests output) = None ∧
    hashed_state_root_with_updates sp (hashed_post_state (ex_state output)) = inr (h_state_root header, trie) ∧
    eb_execution_output b = mkExecutionOutcome (ex_state output) (ex_receipts output) (eb_number b) (ex_requests output).

Lemma execute_block_validated block parent sp b :
  validate_block consensus block = None → known parent → execute_block consensus block parent sp = inr b →
  validated b ∧ eb_block b = bs_block block.
Proof.
  intros [Hv1 [Hv2 Hv3]%seq_None]%seq_None Hk. unfold execute_block.
  destruct (validate_header_against_parent _ _ _) eqn:Hp; [done|].
  destruct (execute _ _ _ _) as [|out] eqn:He; [done|]. destruct (validate_block_post_execution _ _ _ _) eqn:Hpost; [done|].
  destruct (hashed_state_root_with_updates _ _) as [|[root trie]] eqn:Hr; [done|].
  destruct (Z.eqb_spec root (h_state_root (sh_header (sb_header (bs_block block))))) as [->|]; [|done]. intros [= <-].
  split; [|done]. destruct (ConsensusSteps.linked _ _ _ Hp) as [_ Hph].
  split_and!; [done|done|done|by exists parent|]. by exists sp, out, trie.
Qed.
Lemma validated_numbers b :
  known (sb_header (eb_block b)) → validated b →
  eb_number b = hash_number (eb_hash b) ∧ hash_number (eb_parent_hash b) = hash_number (eb_hash b) - 1 ∧
  1 ≤ hash_number (eb_hash b) < U64.
Proof.
  intros Hk (_ & _ & _ & (parent & Hpk & Hph & Hp) & _). destruct (known_number _ Hk) as [Hn Hr].
  destruct (known_number _ Hpk) as [Hpn Hpr]. destruct (ConsensusSteps.linked _ _ _ Hp) as [Hnp _].
  rewrite wrap_u64_id in Hnp by (unfold is_u64; lia). rewrite Hph in Hpn.
  change (h_number (sh_header (sb_header (eb_block b)))) with (eb_number b) in *.
  change (sh_hash (sb_header (eb_block b))) with (eb_hash b) in *. split_and!; lia.
Qed.

(** The block is numbered after its parent. *)
Definition follows (b : ExecutedBlock) : Prop :=
  eb_number b = hash_number (eb_hash b) ∧ hash_number (eb_parent_hash b) = hash_number (eb_hash b) - 1 ∧
  1 ≤ hash_number (eb_hash b) < U64.

(** ** Invalid blocks *)

(** The block was found invalid against the executed blocks [t]: its senders cannot be
    recovered, it breaks a rule on its own, or after its parent and on the state of its parent
    it breaks a rule, fails to execute or does not lead to the state root of its header. *)
Inductive found_invalid (t : TreeState) (block : SealedBlock) : InsertBlockValidationError → Prop :=
| invalid_senders : recover_signers block = None → found_invalid t block InvalidSenderRecovery
| invalid_rules senders err :
    validate_block consensus (mkBlockWithSenders block senders) = Some err → found_invalid t block (InvalidConsensus err)
| invalid_execution senders parent sp kind v :
    header_named db (sb_parent_hash block) parent → state_of db t (sb_parent_hash block) sp →
    execute_block consensus (mkBlockWithSenders block senders) parent sp = inl kind → ensure_validation_error kind = inr v →
    found_invalid t block v.

(** The block could not be checked: its execution failed for a reason that is not the block's,
    or the state of its parent is there without the header. *)
Inductive found_fatal (t : TreeState) (block : SealedBlock) : InsertBlockFatalError → Prop :=
| fatal_execution senders parent sp kind f :
    header_named db (sb_parent_hash block) parent → state_of db t (sb_parent_hash block) sp →
    execute_block consensus (mkBlockWithSenders block senders) parent sp = inl kind → ensure_validation_error kind = inl f →
    found_fatal t block f
| fatal_header sp :
    state_of db t (sb_parent_hash block) sp → found_fatal t block (FatalProvider (HeaderNotFound (sb_parent_hash block))).
(** ... or the database failed between the two times. *)
Definition fatal_because (t : TreeState) (block : SealedBlock) (n n' : nat) (f : InsertBlockFatalError) : Prop :=
  found_fatal t block f ∨ ∃ pe, f = FatalProvider pe ∧ failed db n n' pe.
(** What the error of an insertion means. *)
Definition explains (t : TreeState) (block : SealedBlock) (n n' : nat) (kind : InsertBlockErrorKindTwo) : Prop :=
  match ensure_validation_error kind with
  | inr v => found_invalid t block v
  | inl f => fatal_because t block n n' f
  end.
Lemma fatal_mono t block n1 n2 n3 n4 f :
  (n1 ≤ n2)%nat → (n3 ≤ n4)%nat → fatal_because t block n2 n3 f → fatal_because t block n1 n4 f.
Proof. intros ? ? [?|(pe & -> & Hf)]; [by left|right]. exists pe. split; [done|by eapply failed_mono]. Qed.
Lemma explains_provider t block n1 n2 n3 n4 err :
  (n1 ≤ n2)%nat → (n3 ≤ n4)%nat → failed db n2 n3 err → explains t block n1 n4 (KindProvider err).
Proof. intros ? ? Hf. right. exists err. split; [done|by eapply failed_mono]. Qed.
Lemma explains_rules t block n n' err :
  validate_block consensus block = Some err → explains t (bs_block block) n n' (KindConsensus err).
Proof. intros Hv. apply (invalid_rules _ _ (bs_senders block)). by destruct block. Qed.

(** The executed blocks were validated, or handed in. *)
Definition tree_sound (t : TreeState) : Prop :=
  ∀ h b, blocks_by_hash t !! h = Some b → validated b ∨ trusted b.

(** The block of the hash, or an ancestor of it, was found invalid or named as bad by a
    backfill; the header is the one of that block. *)
Inductive bad_hash (header : Header) : Z → Prop :=
| bad_block t block v :
    tree_sound t → found_invalid t block v → sh_header (sb_header block) = header → bad_hash header (sb_hash block)
| bad_unwound h : unwound h → sh_header h = header → bad_hash header (sh_hash h)
| bad_child h : known h → bad_hash header (h_parent_hash (sh_header h)) → bad_hash header (sh_hash h).
#[local] Instance bad_hashes : Rejections := λ hash header, bad_hash header hash.
Lemma bad_reads_still e e' : reads e e' → still e e'.
Proof. apply reads_still. Qed.
#[local] Hint Resolve bad_reads_still : engine.

(** A block is as bad as where its buffered ancestors end. *)
Lemma bad_path header m h l r :
  path bs_parent_hash m h l r → (∀ k b, m !! k = Some b → known (sb_header (bs_block b)) ∧ bs_hash b = k) →
  bad_hash header r → bad_hash header h.
Proof.
  induction 1 as [|h b l r Hb Hp IH]; intros Hm Hr; [done|]. destruct (Hm _ _ Hb) as [Hk <-]. apply bad_child; [done|by apply IH].
Qed.

(** ** The invariant *)
Definition message_known (m : FromEngine) : Prop :=
  match m with DownloadedBlocks l => Forall (λ b, known (sb_header (bs_block b))) l | _ => False end.
Record engine_ok e : Prop := {
  (** The indices of the tree are exact, numbers count up, and every block was validated or
      handed in. *)
  eo_tree : tree_ok (tree_state (state e));
  eo_known : tree_known (tree_state (state e));
  eo_numbered : numbered hash_number (tree_state (state e));
  eo_validated : tree_sound (tree_state (state e));
  (** The buffer and the cache are within their limits, with exact indices. *)
  eo_buffer : buffer_ok (buffer (state e));
  eo_buffered : blocks_known (buffer (state e));
  eo_invalid : cache_inv (invalid_headers (state e));
  (** What readers see is the newest part of the canonical chain of the tree, and what is below
      it is saved. *)
  eo_memory : ∃ l r, mem_is l (cm_memory (canonical_in_memory_state e)) ∧
                     path eb_parent_hash (blocks_by_hash (tree_state (state e))) (canonical_block_hash (tree_state (state e))) l r ∧
                     (sound → hash_number r ≤ last_persisted_block_number (persistence_state e));
  eo_head : num_hash (ci_head (cm_tracker (canonical_in_memory_state e))) = current_canonical_head (tree_state (state e));
  (** Backfill and persistence exclude each other. *)
  eo_exclusive : backfill_sync_state e ≠ Idle → rx (persistence_state e) = None;
  eo_incoming : Forall message_known (incoming e);
}.

Lemma engine_linked e : engine_ok e → linked eb_parent_hash hash_rank (blocks_by_hash (tree_state (state e))).
Proof. intros He. apply tree_linked; apply He. Qed.
Lemma engine_ok_reads e e' : engine_ok e → reads e e' → engine_ok e'.
Proof. intros [] (c & n & _ & Hc & ->). constructor; try done. by apply Hc. Qed.
Lemma engine_ok_send_out m e : engine_ok e → engine_ok (send_out m e).
Proof. intros []. by constructor. Qed.

(** Following the buffered ancestors does not change whether a hash is bad. *)
Lemma buffered_bad e header h l r :
  engine_ok e → path bs_parent_hash (bf_blocks (buffer (state e))) h l r → bad_hash header r → bad_hash header h.
Proof.
  intros He Hp. apply (bad_path _ _ _ _ _ Hp). intros k b Hb. split; [by apply (eo_buffered _ He _ _ Hb)|].
  by apply (bo_hash _ (eo_buffer _ He)).
Qed.
(** Numbers do not go up along a chain. *)
Lemma path_numbers t h l r : numbered hash_number t → path eb_parent_hash (blocks_by_hash t) h l r → hash_number r ≤ hash_number h.
Proof.
  intros [Hn _]. induction 1 as [|h b l r Hb Hp IH]; [lia|]. destruct (Hn _ _ Hb) as (_ & N2 & _). lia.
Qed.

Lemma emit_plain event e :
  is_backfill_action event = false → engine_ok e → wp (emit_event event) (λ _ e', e' = send_out event e ∧ engine_ok e') e.
Proof. intros Hb He. unfold emit_event. rewrite Hb. apply wp_modify. split; [done|by apply engine_ok_send_out]. Qed.
(** A backfill is only asked for in the idle state, and not while blocks are being saved. *)
Lemma emit_backfill action e :
  backfill_sync_state e = Idle → engine_ok e →
  wp (emit_event (EngineBackfillAction action))
     (λ _ e', engine_ok e' ∧ keeps e e' ∧
        (e' = e ∧ rx (persistence_state e) ≠ None ∨
         e' = send_out (EngineBackfillAction action) (set_backfill Pending e) ∧ rx (persistence_state e) = None)) e.
Proof.
  intros Hi He. unfold emit_event. simpl. apply wp_bind. eapply wp_lift; [by rewrite Hi|]. apply wp_bind, wp_gets.
  unfold in_progress. destruct (rx (persistence_state e)) as [l|] eqn:Hrx.
  - apply wp_ret. split; [done|]. split; [by constructor|by left].
  - apply wp_bind, wp_modify, wp_modify. split; [|split; [by constructor|by right]]. destruct He. by constructor.
Qed.

(** ** Inserting blocks *)
Lemma buffer_insert_ok block e :
  engine_ok e → known (sb_header (bs_block block)) →
  engine_ok (on_buffer (BlockBuffer.insert_block block) e) ∧
  bf_blocks (BlockBuffer.insert_block block (buffer (state e))) !! bs_hash block = Some block.
Proof.
  intros He Hk. destruct (insert_block_ok block (buffer (state e))) as (Hb & Hbl & _); [apply He| |].
  { intros old Hold. pose proof (eo_buffered _ He _ _ Hold) as Hko. pose proof (bo_hash _ (eo_buffer _ He) _ _ Hold) as Hh.
    unfold bs_parent_hash, bs_number, sb_parent_hash, sb_number. by rewrite (known_unique _ _ Hko Hk Hh). }
  split; [|rewrite Hbl; unfold after_insert; by rewrite lookup_insert_eq].
  pose proof (eo_buffered _ He) as Hkn. destruct He. constructor; try done. simpl. intros h b'. rewrite Hbl.
  unfold after_insert. intros [[<- <-]|[_ Hl]]%lookup_insert_Some; [done|].
  destruct (evicted _ _); [apply lookup_delete_Some in Hl as [_ Hl]|]; by eapply Hkn.
Qed.
Lemma still_buffer f e : still e (on_buffer f e).
Proof. by repeat constructor. Qed.

Lemma insert_executed_engine b e :
  engine_ok e → known (sb_header (eb_block b)) → follows b → validated b ∨ trusted b →
  engine_ok (on_tree (insert_executed b) e) ∧ still e (on_tree (insert_executed b) e) ∧
  in_tree (eb_hash b) (on_tree (insert_executed b) e).
Proof.
  intros He Hk Hnum Hv. destruct (insert_executed_ok b _ (eo_tree _ He)) as (Ht & Hh & Hb).
  set (t := tree_state (state e)) in *. set (t' := insert_executed b t) in *.
  assert (∀ h x, blocks_by_hash t' !! h = Some x → h = eb_hash b ∧ x = b ∨ blocks_by_hash t !! h = Some x) as Hin.
  { intros h x. rewrite Hb. destruct (blocks_by_hash t !! eb_hash b); [by right|].
    intros [[<- <-]|[_ ?]]%lookup_insert_Some; [by left|by right]. }
  assert (blocks_by_hash t ⊆ blocks_by_hash t') as Hsub.
  { rewrite Hb. destruct (blocks_by_hash t !! eb_hash b) eqn:E; [done|by apply insert_subseteq]. }
  split_and!; [|constructor; [by repeat constructor|done..]|].
  - destruct He. constructor; try done; simpl; fold t t'.
    + intros h x [[-> ->]|Hx]%Hin; [done|by eapply eo_known0].
    + destruct eo_numbered0 as (Hn1 & Hn2). split; [|unfold canonical_block_number, canonical_block_hash in *; by rewrite Hh].
      intros h x [[-> ->]|Hx]%Hin; [done|by apply Hn1].
    + intros h x [[-> ->]|Hx]%Hin; [done|by eapply eo_validated0].
    + destruct eo_memory0 as (l & r & Hm & Hp & Hr). exists l, r. split_and!; [done| |done]. unfold canonical_block_hash. rewrite Hh.
      by eapply path_weaken.
    + by rewrite Hh.
  - unfold in_tree. simpl. fold t t'. rewrite Hb. destruct (blocks_by_hash t !! eb_hash b) eqn:E; [by rewrite E|by rewrite lookup_insert_eq].
Qed.
Lemma set_pending_engine b e :
  engine_ok e → engine_ok (on_canonical (on_memory (set_pending_block b)) e) ∧ still e (on_canonical (on_memory (set_pending_block b)) e).
Proof. intros []. split; [by constructor|]. by repeat constructor. Qed.
Lemma insert_executed_block_ok b e :
  engine_ok e → known (sb_header (eb_block b)) → follows b → validated b ∨ trusted b →
  wp (insert_executed_block b) (λ _ e', engine_ok e' ∧ still e e' ∧ in_tree (eb_hash b) e') e.
Proof.
  intros He Hk Hnum Hv. unfold insert_executed_block. apply wp_bind, wp_gets.
  eapply (wp_seq _ _ (λ _ e', engine_ok e' ∧ still e e')).
  { case_match; [|apply wp_ret; auto with engine]. apply wp_modify. by apply set_pending_engine. }
  intros _ e1 [He1 S1]. destruct (insert_executed_engine b e1 He1 Hk Hnum Hv) as (He2 & S2 & Hin).
  apply wp_bind, wp_modify. destruct (is_fork_ok hash_rank (eb_hash b) _ (eo_tree _ He2) (engine_linked _ He2)) as (f & Hf & _).
  apply wp_bind. eapply wp_lift; [exact Hf|].
  eapply wp_mono; [apply emit_plain; [by destruct f|done]|]. intros _ e' [-> He3]. split_and!; [done| |done].
  eapply still_trans; [done|]. eapply still_trans; [done|]. apply still_send_out.
Qed.

(** What became of the block. *)
Definition inserted (hash : Z) (r : InsertPayloadOk) e' : Prop :=
  match r with
  | Inserted (Valid _) => in_tree hash e'
  | AlreadySeen (Valid _) => in_tree hash e' ∨ in_database db hash e'
  | Inserted (Disconnected _ _) => is_Some (bf_blocks (buffer (state e')) !! hash)
  | AlreadySeen (Disconnected _ _) => False
  end.
Lemma insert_block_inner_ok block e :
  engine_ok e → known (sb_header (bs_block block)) →
  wp (insert_block_inner consensus db block)
     (λ r e', engine_ok e' ∧ still e e' ∧ (∀ ok, r = inr ok → inserted (bs_hash block) ok e') ∧
        ∀ kind, r = inl kind → explains (tree_state (state e)) (bs_block block) (clock e) (clock e') kind) e.
Proof.
  intros He Hk. unfold insert_block_inner.
  eapply wp_try; [apply wp_fails; [apply fails_block_by_hash|apply block_by_hash_ok]|intros err e' ([R _] & Hc & Hf); split_and!;
    [by eapply engine_ok_reads|auto with engine|done|]; intros kind [= <-]; eapply explains_provider; [reflexivity|reflexivity|by apply Hf]|].
  intros [b|] e1 ([R1 Hb] & Hc1 & _); pose proof (engine_ok_reads _ _ He R1) as He1.
  { apply wp_ret. split_and!; [done|auto with engine| |done]. intros ok [= <-]. simpl. specialize (Hb _ eq_refl).
    unfold in_tree in *. by rewrite (reads_tree _ _ R1). }
  destruct (validate_block consensus block) as [err|] eqn:Hv.
  { apply wp_ret; split_and!; [done|auto with engine|done|]. intros kind [= <-]. by apply explains_rules. }
  eapply wp_try; [apply wp_fails; [apply fails_state_provider|apply state_provider_ok; apply He1]|intros err e' ([R _] & Hc & Hf);
    split_and!; [by eapply engine_ok_reads|eauto using still_trans with engine|done|intros kind [= <-];
      eapply explains_provider; [exact Hc1|reflexivity|by apply Hf]]|].
  intros [sp|] e2 ([R2 Hsp] & Hc2 & _); pose proof (engine_ok_reads _ _ He1 R2) as He2;
    assert (still e e2) as S2 by eauto using still_trans with engine.
  2:{ unfold buffer_disconnected. destruct (lowest_ancestor_ok (bs_parent_hash block) _ (eo_buffer _ He2) (eo_buffered _ He2))
        as (l & r & _ & _ & Hl & _). apply wp_bind, wp_bind. eapply wp_lift; [exact Hl|].
      destruct (buffer_insert_ok block e2 He2 Hk) as [He3 Hin]. apply wp_bind, wp_modify, wp_gets, wp_ret.
      split_and!; [done|eapply still_trans; [done|apply still_buffer]| |done]. intros ok [= <-]. simpl. by eexists. }
  specialize (Hsp _ eq_refl). rewrite (reads_tree _ _ R1) in Hsp.
  eapply wp_try; [apply wp_fails; [apply fails_sealed_header_by_hash|apply sealed_header_by_hash_ok; [done|apply He2|apply He2]]|
    intros err e' ([R _] & Hc & Hf); split_and!; [by eapply engine_ok_reads|eauto using still_trans with engine|done|intros kind [= <-];
      eapply explains_provider; [etrans; [exact Hc1|exact Hc2]|reflexivity|by apply Hf]]|].
  intros [parent|] e3 ([R3 Hp] & Hc3 & _); pose proof (engine_ok_reads _ _ He2 R3) as He3;
    assert (still e e3) as S3 by eauto using still_trans with engine;
    [|apply wp_ret; split_and!; [done|done|done|intros kind [= <-]; left; by eapply fatal_header]].
  specialize (Hp _ eq_refl).
  destruct (execute_block consensus block parent sp) as [err|b] eqn:Hx.
  { apply wp_ret. split_and!; [done|done|done|]. intros kind [= <-]. destruct block as [block senders]. unfold explains.
    destruct (ensure_validation_error err) as [f|v] eqn:Ev; [left; by eapply fatal_execution|by eapply invalid_execution]. }
  destruct (execute_block_validated _ _ _ _ Hv (proj1 Hp) Hx) as [Hval Hbl].
  assert (known (sb_header (eb_block b))) as Hkb by (by rewrite Hbl).
  eapply wp_seq; [apply insert_executed_block_ok; [done|done|by apply validated_numbers|by left]|]. intros _ e4 (He4 & S4 & Hin). apply wp_ret.
  split_and!; [done|by eapply still_trans| |done]. intros ok [= <-]. simpl. unfold eb_hash in Hin. by rewrite Hbl in Hin.
Qed.
Lemma insert_block_ok' block e :
  engine_ok e → known (sb_header (bs_block block)) →
  wp (insert_block consensus db block)
     (λ r e', engine_ok e' ∧ still e e' ∧ (∀ ok, r = inr ok → inserted (bs_hash block) ok e') ∧
        ∀ err, r = inl err →
          err.1 = bs_block block ∧ explains (tree_state (state e)) err.1 (clock e) (clock e') err.2) e.
Proof.
  intros He Hk. eapply wp_seq; [by apply insert_block_inner_ok|]. intros r e' (He' & S & Hr & Hf). apply wp_ret.
  split_and!; [done|done|..].
  - intros ok. destruct r as [|ok']; [done|]. intros [= <-]. by apply Hr.
  - intros err. destruct r as [kind|]; [|done]. intros [= <-]. split; [done|by apply Hf].
Qed.
Lemma insert_error_engine t n err e :
  engine_ok e → tree_sound t → (n ≤ clock e)%nat → explains t err.1 n (clock e) err.2 →
  wp (on_insert_block_error db err)
     (λ r e', engine_ok e' ∧ still e e' ∧
        (∀ s, r = inr s → ∃ v, ps_status s = StatusInvalid (BecauseBlock v) ∧ found_invalid t err.1 v) ∧
        ∀ f, r = inl f → fatal_because t err.1 n (clock e') f) e.
Proof.
  intros He Ht Hn Hx.
  assert (wp (on_insert_block_error db err)
    (λ r e', reads e e' ∧ ∀ s, r = inr s → ∃ v, ensure_validation_error err.2 = inr v ∧ ps_status s = StatusInvalid (BecauseBlock v)) e) as Hwp.
  { apply on_insert_block_error_ok; [apply He|]. intros v Hv. unfold explains in Hx. rewrite Hv in Hx. by apply (bad_block _ t err.1 v). }
  unfold wp in *. destruct (on_insert_block_error db err e) as [[r e']| |] eqn:E; [|done|done]. destruct Hwp as [R Hs].
  destruct (fails_on_insert_block_error db err e r e' E) as [Hc Hf]. split_and!; [by eapply engine_ok_reads|auto with engine|..].
  - intros s Hr. destruct (Hs s Hr) as (v & Hkv & Hv). exists v. split; [done|]. unfold explains in Hx. by rewrite Hkv in Hx.
  - intros f Hr. destruct (Hf f Hr) as [Hk|(pe & -> & Hd)].
    + unfold explains in Hx. rewrite Hk in Hx. eapply fatal_mono; [reflexivity|exact Hc|done].
    + right. exists pe. split; [done|eapply failed_mono; [exact Hn|reflexivity|done]].
Qed.

(** ** Moving the canonical head *)
Lemma memory_update c e new_head b :
  engine_ok e → chain_update_fits (tree_state (state e)) new_head c →
  blocks_by_hash (tree_state (state e)) !! new_head = Some b →
  ∃ l r, mem_is l (update_chain c (cm_memory (canonical_in_memory_state e))) ∧
         path eb_parent_hash (blocks_by_hash (tree_state (state e))) new_head l r ∧
         (sound → hash_number r ≤ last_persisted_block_number (persistence_state e)).
Proof.
  intros He [Hne Hc] Hb. pose proof (engine_linked _ He) as Hl. set (t := tree_state (state e)) in *.
  assert (∀ h l r, path eb_parent_hash (blocks_by_hash t) h l r → chainlike l) as Hch
    by (intros h l r; apply (chainlike_path hash_rank hash_number); [apply He|done|apply He]).
  destruct (eo_memory _ He) as (l & r & Hm & Hp & Hlow). fold t in Hp. destruct c as [new|new old].
  - pose proof (path_app _ _ _ _ _ _ _ Hc Hp) as Hp'. exists (reverse new ++ l), r. split_and!; [|done|done].
    apply (update_chain_ok _ l); [by eapply Hch|done|done|by eapply Hch].
  - destruct Hc as (_ & r1 & P1 & P2). destruct (path_compare _ _ _ _ _ _ _ P2 Hp) as [(base & -> & Hbase)|(rest & -> & Hrest)].
    + pose proof (path_app _ _ _ _ _ _ _ P1 Hbase) as Hp'. exists (reverse new ++ base), r. split_and!; [|done|done].
      apply (update_chain_ok _ (old ++ base)); [by eapply Hch|done|by exists base; split; [|left]|by eapply Hch].
    + exists (reverse new), r1. split_and!; [|done|].
      2:{ intros Hs. specialize (Hlow Hs). pose proof (path_numbers _ _ _ _ (eo_numbered _ He) Hrest). lia. }
      apply (update_chain_ok _ l); [by eapply Hch|done| |by eapply Hch]. exists []. rewrite app_nil_r. split; [done|]. right.
      split; [done|]. exists rest. split; [done|by eapply Hch].
Qed.
Lemma on_canonical_chain_update_ok c e new_head :
  engine_ok e → chain_update_fits (tree_state (state e)) new_head c →
  wp (on_canonical_chain_update c)
     (λ _ e', engine_ok e' ∧ quiet e e' ∧ canonical_block_hash (tree_state (state e')) = new_head) e.
Proof.
  intros He Hc. destruct (fits_head _ _ _ Hc) as (b & Hlast & Hb). destruct (notification_done _ _ _ Hc) as [n Hn].
  destruct (memory_update c e new_head b He Hc Hb) as (l & r & Hm & Hp & Hlow). pose proof (to_hash _ (eo_tree _ He) _ _ Hb) as Hh.
  unfold on_canonical_chain_update. apply wp_bind. eapply wp_lift; [unfold tip; by rewrite Hlast|].
  apply wp_bind, wp_modify, wp_bind. eapply wp_lift; [exact Hn|]. apply wp_bind, wp_modify, wp_bind, wp_modify, wp_bind, wp_modify.
  set (e1 := on_canonical _ _). assert (engine_ok e1) as He1.
  { pose proof (eo_known _ He _ _ Hb) as Hk. destruct (known_number _ Hk) as [Hnum Hr]. subst e1. destruct He. constructor; try done.
    - by apply set_canonical_head_ok.
    - destruct eo_numbered0 as [Hnb _]. split; [exact Hnb|split; [exact Hnum|exact (proj1 Hr)]].
    - simpl. exists l, r. split_and!; [done| |done]. unfold canonical_block_hash. simpl. by rewrite <-Hh in Hp. }
  eapply wp_mono; [by apply emit_plain|]. intros _ e' [-> He']. split_and!; [done|by repeat constructor|exact Hh].
Qed.
Lemma make_canonical_ok target e :
  engine_ok e → wp (make_canonical target) (λ _ e', engine_ok e' ∧ quiet e e') e.
Proof.
  intros He. destruct (on_new_head_fits hash_rank hash_number (tree_state (state e)) target (engine_linked _ He) (eo_numbered _ He))
    as (res & Hr & Hf). unfold make_canonical. apply wp_bind. eapply wp_lift; [exact Hr|].
  destruct res as [c|]; [|apply wp_ret; auto with engine].
  eapply wp_mono; [apply on_canonical_chain_update_ok; [done|by apply Hf]|]. intros _ e' (? & ? & _). done.
Qed.

(** ** Connecting buffered blocks *)
Lemma connect_child_ok child e :
  engine_ok e → known (sb_header (bs_block child)) →
  wp (connect_child consensus db child) (λ _ e', engine_ok e' ∧ quiet e e') e.
Proof.
  intros He Hk. unfold connect_child. eapply wp_seq; [by apply insert_block_ok'|]. intros [err|ok] e1 (He1 & S1 & _ & Hf).
  - destruct (Hf _ eq_refl) as [Eb Hbl].
    eapply wp_seq; [apply (insert_error_engine (tree_state (state e)) (clock e)); [done|apply He|by apply (still_keeps _ _ S1)|done]|]. intros _ e2 (He2 & S2 & _). apply wp_ret. eauto using quiet_trans with engine.
  - apply wp_bind, wp_gets. eapply (wp_seq _ _ (λ _ e', engine_ok e' ∧ quiet e1 e')).
    + case_match; [by apply make_canonical_ok|apply wp_ret; auto with engine].
    + intros _ e2 [He2 Q2]. apply wp_ret. eauto using quiet_trans with engine.
Qed.
Lemma try_connect_buffered_blocks_ok parent e :
  engine_ok e → wp (try_connect_buffered_blocks consensus db parent) (λ _ e', engine_ok e' ∧ quiet e e') e.
Proof.
  intros He. unfold try_connect_buffered_blocks.
  destruct (remove_block_with_children_ok parent.2 _ (eo_buffer _ He)) as (l & b' & Hr & Hok & _ & _ & Hin & Hleft & _).
  set (e1 := on_buffer (λ _, b') e).
  assert (engine_ok e1) as He1.
  { pose proof (eo_buffered _ He) as Hk. subst e1. destruct He. constructor; try done. simpl. intros h x [Hx _]%Hleft. by eapply Hk. }
  eapply (wp_seq _ _ (λ l' e', l' = l ∧ e' = e1)); [unfold wp; by rewrite Hr|]. intros ? ? [-> ->].
  eapply wp_seq; [apply (wp_for_until _ (λ e', engine_ok e' ∧ quiet e e'))|].
  - split; [done|]. by repeat constructor.
  - intros x e2 Hx [He2 Q2]. eapply wp_mono; [apply connect_child_ok; [done|]|].
    + apply Hin in Hx as [Hx _]. exact (eo_buffered _ He _ _ Hx).
    + intros _ e3 [He3 Q3]. eauto using quiet_trans.
  - intros b2 e2 He2. by apply wp_ret.
Qed.

(** ** Downloaded blocks *)
Lemma on_tree_event_ok event e :
  engine_ok e → (tree_event_is_backfill event = true → backfill_sync_state e = Idle) →
  wp (on_tree_event event) (λ _ e', engine_ok e' ∧ keeps e e') e.
Proof.
  intros He Hb. destruct event as [[target]|action|r]; simpl.
  - eapply wp_mono; [by apply make_canonical_ok|]. intros _ e' [? ?]. auto with engine.
  - eapply wp_mono; [apply emit_backfill; auto|]. intros _ e' (? & ? & _). done.
  - eapply wp_mono; [by apply emit_plain|]. intros _ e' [-> ?]. auto with engine.
Qed.
Lemma on_downloaded_block_ok block e :
  engine_ok e → known (sb_header (bs_block block)) →
  wp (on_downloaded_block consensus db block)
     (λ ev e', engine_ok e' ∧ quiet e e' ∧ ∀ x, ev = Some x → backfill_sync_state e' = Idle) e.
Proof.
  intros He Hk. unfold on_downloaded_block.
  eapply wp_seq; [apply lowest_buffered_ancestor_or_ok; apply He|]. intros a ? [-> (l & Hp & _)].
  eapply wp_seq; [apply check_invalid_ancestor_with_head_ok; [apply He|intros h; by apply (buffered_bad e _ _ _ _ He Hp)]|]. intros r e1 [R1 _].
  pose proof (engine_ok_reads _ _ He R1) as He1. assert (quiet e e1) as Q1 by eauto with engine.
  destruct r as [err|[s|]]; [apply wp_ret; by split_and!|apply wp_ret; by split_and!|].
  apply wp_bind, wp_gets. destruct (backfill_sync_state e1) eqn:Hbf; simpl; [|apply wp_ret; by split_and!..].
  eapply wp_seq; [by apply insert_block_ok'|]. intros r e2 (He2 & S2 & _ & Hf).
  assert (quiet e e2) as Q2 by eauto using quiet_trans with engine.
  assert (backfill_sync_state e2 = Idle) as Hi by (rewrite (q_backfill _ _ (s_quiet _ _ S2)); done).
  destruct r as [err|[[st|h m]|[st|h m]]].
  - destruct (Hf _ eq_refl) as [Eb Hbl].
    eapply wp_seq; [apply (insert_error_engine (tree_state (state e1)) (clock e1)); [done|apply He1|by apply (still_keeps _ _ S2)|done]|].
    intros _ e3 (He3 & S3 & _). apply wp_ret.
    split_and!; [done|eauto using quiet_trans with engine|done].
  - apply wp_ret. by split_and!.
  - apply wp_ret. by split_and!.
  - apply wp_bind, wp_gets. case_match; [apply wp_ret; by split_and!|].
    eapply wp_seq; [by apply try_connect_buffered_blocks_ok|]. intros _ e3 [He3 Q3]. apply wp_ret.
    split_and!; [done|eauto using quiet_trans with engine|done].
  - eapply wp_mono; [apply on_disconnected_downloaded_block_ok|]. intros o e3 R3.
    split_and!; [by eapply engine_ok_reads|eauto using quiet_trans with engine|]. intros x _. by rewrite (reads_backfill _ _ R3).
Qed.
Lemma on_downloaded_ok blocks e :
  engine_ok e → Forall (λ b, known (sb_header (bs_block b))) blocks →
  wp (on_downloaded consensus db blocks) (λ r e', r = None ∧ engine_ok e' ∧ keeps e e') e.
Proof.
  intros He Hk. destruct blocks as [|b0 blocks0]; [apply wp_ret; auto with engine|]. unfold on_downloaded.
  set (blocks := b0 :: blocks0) in *. apply wp_bind, wp_gets. set (n := Z.to_nat _).
  eapply wp_seq; [apply (wp_for_until _ (λ e', engine_ok e' ∧ keeps e e'))|].
  - auto with engine.
  - intros x e1 Hx [He1 K1]. unfold on_downloaded_one.
    eapply wp_seq; [apply on_downloaded_block_ok; [done|]|].
    { rewrite Forall_forall in Hk. apply Hk. apply elem_of_take in Hx as (i & Hi & _). by eapply list_elem_of_lookup_2. }
    intros [ev|] e2 (He2 & Q2 & Hi); [|apply wp_ret; split; [done|by eapply keeps_trans; [|apply q_keeps]]].
    eapply wp_seq; [apply on_tree_event_ok; [done|]; intros _; by eapply Hi|]. intros _ e3 [He3 K3]. apply wp_ret.
    split; [done|]. eapply keeps_trans; [done|]. eapply keeps_trans; [|done]. by apply q_keeps.
  - intros [] e1 [He1 K1]; [by apply wp_ret|]. eapply (wp_seq _ _ (λ _ e', engine_ok e' ∧ keeps e e')).
    + destruct (drop n blocks) as [|b l] eqn:Hd; [by apply wp_ret|]. apply wp_modify. split.
      * destruct He1. constructor; try done. simpl. apply Forall_app. split; [done|]. constructor; [|done]. simpl.
        rewrite <-Hd. by apply Forall_drop.
      * eapply keeps_trans; [done|]. by constructor.
    + intros _ e2 [He2 K2]. by apply wp_ret.
Qed.
End invariant.
