(* ===== verification/EngineSteps.v ===== *)
(** * Runs of the engine

    The handlers of messages keep the invariant and never panic; what the answers to the
    consensus client mean; which blocks are handed to the persistence task. *)

From stdpp Require Import prelude gmap list.
From S2P Require Import Prelude.
From S2P Require Import Ord.
From S2P Require Import Header.
From S2P Require Import Consensus.
From S2P Require Import ConsensusSteps.
From S2P Require Import Links.
From S2P Require Import Lru.
From S2P Require Import BlockBuffer.
From S2P Require Import TreeState.
From S2P Require Import InvalidHeaders.
From S2P Require Import InMemory.
From S2P Require Import EngineTypes.
From S2P Require Import PayloadValidator.
From S2P Require Import Engine.
From S2P Require Import EngineLogic.
From S2P Require Import EngineInv.

Section steps.
Context `{LruOps} `{!LruLaws} `{HashOrder} `{!HashOrderLaws} `{Execution} `{PayloadAttributes} `{Payloads}.
Context `{Consensus C} `{!ConsensusLinks C} `{BlockHashes} `{!BlockHashesLaws} `{Environment}.
Context (consensus : C) (validator : ExecutionPayloadValidator) (db : nat → Database) `{!DatabaseLaws db}.
Implicit Types (e : EngineApiTreeHandler).
Notation engine_ok := (engine_ok consensus db).
#[local] Instance step_rejections : Rejections := bad_hashes consensus db.
Lemma step_reads_still e e' : reads e e' → still e e'.
Proof. apply reads_still. Qed.
#[local] Hint Resolve step_reads_still : engine.

(** ** Payloads *)

(** What the answer to a payload means, with the executed blocks [t] at the start.  VALID: the
    block has been executed or is in the database.  SYNCING: it waits in the buffer.  INVALID: it
    was found invalid, or it or an ancestor of it was before. *)
Definition block_answer (t : TreeState) (idle : bool) (block : SealedBlock) (s : PayloadStatus) e' : Prop :=
  match ps_status s with
  | StatusValid =>
    idle = true ∧ ps_latest_valid_hash s = Some (sb_hash block) ∧
    (in_tree (sb_hash block) e' ∨ in_database db (sb_hash block) e')
  | StatusSyncing => ps_latest_valid_hash s = None ∧ is_Some (bf_blocks (buffer (state e')) !! sb_hash block)
  | StatusInvalid (BecauseBlock v) => found_invalid consensus db t block v
  | StatusInvalid LinksToRejectedPayload => ∃ header, bad_hash consensus db header (sb_hash block)
  | StatusInvalid (BecausePayload _) | StatusAccepted => False
  end.
(** A payload that does not decode to a well-formed block is invalid.  Without an answer, the
    database failed meanwhile or the block could not be checked. *)
Definition payload_answer (payload : ExecutionPayload) (cancun : option CancunPayloadFields) (t : TreeState) (idle : bool)
  (n : nat) (r : InsertBlockFatalError + PayloadStatus) e' : Prop :=
  match ensure_well_formed_payload validator payload cancun, r with
  | inl err, inr s => ps_status s = StatusInvalid (BecausePayload err)
  | inl err, inl f => ∃ pe, f = FatalProvider pe ∧ failed db n (clock e') pe
  | inr block, inr s => block_answer t idle block s e'
  | inr block, inl f => fatal_because consensus db t block n (clock e') f
  end.
Definition payload_known (payload : ExecutionPayload) (cancun : option CancunPayloadFields) : Prop :=
  ∀ block, ensure_well_formed_payload validator payload cancun = inr block → known (sb_header block).
Definition status_of (r : InsertBlockFatalError + TreeOutcome PayloadStatus) : InsertBlockFatalError + PayloadStatus :=
  match r with inr o => inr (to_outcome o) | inl err => inl err end.

Lemma payload_body_ok block e :
  engine_ok e → known (sb_header block) → ∀ idle, idle = is_idle (backfill_sync_state e) →
  wp (if negb idle then
        r ← buffer_block_without_senders consensus block;
        match r with
        | inl error => on_insert_block_error db error
        | inr _ => mret (inr (from_status StatusSyncing))
        end
      else
        r ← insert_block_without_senders consensus db block;
        match r with
        | inr (Inserted (Valid _)) | inr (AlreadySeen (Valid _)) => mret (inr (mkPayloadStatus StatusValid (Some (sb_hash block))))
        | inr (Inserted (Disconnected _ _)) | inr (AlreadySeen (Disconnected _ _)) => mret (inr (mkPayloadStatus StatusSyncing None))
        | inl error => on_insert_block_error db error
        end)
     (λ r e', engine_ok e' ∧ still e e' ∧ (∀ s, r = inr s → block_answer (tree_state (state e)) idle block s e') ∧
        ∀ f, r = inl f → fatal_because consensus db (tree_state (state e)) block (clock e) (clock e') f) e.
Proof.
  intros He Hk idle ->. set (t := tree_state (state e)).
  assert (∀ err e1, engine_ok e1 → still e e1 → ∀ idle, err.1 = block → explains consensus db t err.1 (clock e) (clock e1) err.2 →
    wp (on_insert_block_error db err) (λ r e', engine_ok e' ∧ still e e' ∧ (∀ s, r = inr s → block_answer t idle block s e') ∧
      ∀ f, r = inl f → fatal_because consensus db t block (clock e) (clock e') f) e1) as Herr.
  { intros err e1 He1 S1 idle <- Hx. eapply wp_mono; [apply (insert_error_engine consensus db t (clock e) err e1); [done|apply He| |done]|].
    - by apply (still_keeps _ _ S1).
    - intros r e2 (He2 & S2 & Hr & Hf). split_and!; [done|by eapply still_trans| |done]. intros s Hs. unfold block_answer.
      by destruct (Hr s Hs) as (v & -> & Hv). }
  assert (explains consensus db t block (clock e) (clock e) KindSenderRecovery ∨ recover_signers block ≠ None) as Hrec.
  { destruct (recover_signers block) eqn:E; [by right|left]. by apply invalid_senders. }
  destruct (is_idle _); simpl.
  - unfold insert_block_without_senders. destruct (recover_signers block) as [senders|];
      [|destruct Hrec as [Hrec|?]; [|done]; apply wp_bind, wp_ret, Herr; [done|apply still_refl|done|exact Hrec]].
    eapply wp_seq; [by apply insert_block_ok'|]. intros [err|ok] e1 (He1 & S1 & Hin & Hf).
    { destruct (Hf _ eq_refl) as [E Hx]. by apply Herr. }
    specialize (Hin _ eq_refl). destruct ok as [[]|[]]; simpl in Hin; try done; apply wp_ret; (split_and!; [done|done| |done]);
      intros s [= <-]; unfold block_answer; simpl; auto.
  - unfold buffer_block_without_senders, buffer_block. destruct (recover_signers block) as [senders|];
      [|destruct Hrec as [Hrec|?]; [|done]; apply wp_bind, wp_ret, Herr; [done|apply still_refl|done|exact Hrec]].
    destruct (validate_block _ _) as [err|] eqn:Hv.
    { apply wp_bind, wp_ret, Herr; [done|apply still_refl|done|]. exact (explains_rules consensus db t _ _ _ _ Hv). }
    destruct (buffer_insert_ok consensus db (mkBlockWithSenders block senders) e He Hk) as [He1 Hin].
    apply wp_bind, wp_bind, wp_modify, wp_ret, wp_ret. split_and!; [done|apply still_buffer| |done].
    intros s [= <-]. split; [done|by eexists].
Qed.
(** The ancestor that is looked up stands for the block. *)
Lemma ancestor_bad block e header a l :
  engine_ok e → known (sb_header block) → path bs_parent_hash (bf_blocks (buffer (state e))) (sb_hash block) l a →
  bad_hash consensus db header (if a =? sb_hash block then sb_parent_hash block else a) → bad_hash consensus db header (sb_hash block).
Proof.
  intros He Hk Hp. destruct (Z.eqb_spec a (sb_hash block)); [by apply bad_child|by apply (buffered_bad consensus db e _ _ l)].
Qed.
Lemma on_new_payload_ok payload cancun e :
  engine_ok e → payload_known payload cancun →
  wp (on_new_payload consensus validator db payload cancun)
     (λ r e', engine_ok e' ∧ still e e' ∧
        payload_answer payload cancun (tree_state (state e)) (is_idle (backfill_sync_state e)) (clock e) (status_of r) e') e.
Proof.
  intros He Hk. unfold on_new_payload, payload_answer, payload_known in *.
  destruct (ensure_well_formed_payload _ _ _) as [error|block].
  { eapply (wp_try _ _ (λ r e', reads e e' ∧ (clock e ≤ clock e')%nat ∧ ∀ pe, r = inl pe → failed db (clock e) (clock e') pe)).
    - apply wp_fails; case_match; [apply fails_ret|apply fails_latest_valid_hash|apply wp_ret; auto with engine|].
      apply latest_valid_hash_ok; apply He.
    - intros err e' (R & _ & Hf). split_and!; [by eapply engine_ok_reads|auto with engine|]. exists err. split; [done|by apply Hf].
    - intros l e' (R & _). apply wp_ret. by split_and!; [eapply engine_ok_reads|auto with engine|]. }
  specialize (Hk _ eq_refl).
  eapply wp_seq; [apply lowest_buffered_ancestor_or_ok; apply He|]. intros a ? [-> (l & Hp & _)].
  eapply wp_try; [apply wp_fails; [apply fails_check_invalid_ancestor_with_head|apply check_invalid_ancestor_with_head_ok;
    [apply He|intros h; by apply (ancestor_bad block e h a l)]]|intros err e' ([R _] & _ & Hf); split_and!;
    [by eapply engine_ok_reads|auto with engine|]; right; exists err; split; [done|by apply Hf]|].
  intros s e1 ([R1 Hs] & Hc1 & _). pose proof (engine_ok_reads _ _ _ _ He R1) as He1. destruct s as [s|].
  { apply wp_ret. split_and!; [done|auto with engine|]. unfold block_answer. simpl. destruct (Hs _ eq_refl) as [-> [h Hh]].
    exists h. by apply (ancestor_bad block e h a l). }
  apply wp_bind, wp_gets.
  eapply wp_try; [by apply (payload_body_ok block e1 He1 Hk _ eq_refl)|intros err e' (He' & S & _ & Hf); split_and!;
    [done|eauto using still_trans with engine|]; rewrite <-(reads_tree _ _ R1); eapply fatal_mono; [exact Hc1|reflexivity|by apply Hf]|].
  intros s e2 (He2 & S2 & Hs2 & _). apply wp_bind, wp_gets, wp_ret. split_and!; [done|eauto using still_trans with engine|].
  specialize (Hs2 s eq_refl). unfold status_of.
  assert (∀ b : bool, to_outcome (if is_valid s && b then with_event (TreeOutcome_new s) (TreeActionEvent (MakeCanonical (sb_hash block)))
    else TreeOutcome_new s) = s) as -> by (intros b; by destruct (is_valid s && b)).
  by rewrite <-(reads_backfill _ _ R1), <-(reads_tree _ _ R1).
Qed.

(** ** Forkchoice updates *)

(** What the answer to a forkchoice update means.  VALID: the head is canonical, and named as the
    latest valid block.  SYNCING: a backfill is running, or the download of a missing block was
    requested. *)
Definition forkchoice_answer (st : ForkchoiceState) (idle : bool) (o : TreeOutcome OnForkChoiceUpdated) e' : Prop :=
  let updated := to_outcome o in
  (∀ event, to_event o = Some event → ∃ r, event = DownloadEvent r) ∧
  match forkchoice_status updated with
  | FcuValid =>
    idle = true ∧ (canonical_block_hash (tree_state (state e')) = head_block_hash st ∨ canonical_seen db (head_block_hash st) e')
  | FcuSyncing => idle = false ∨ is_Some (to_event o)
  | FcuInvalid => True
  end ∧
  match fut updated with
  | Ready (inr s) =>
    forkchoice_status updated = from_payload_status (ps_status s) ∧
    (ps_status s = StatusValid → ps_latest_valid_hash s = Some (head_block_hash st))
  | Ready (inl err) => err = InvalidState ∨ err = UpdatedInvalidPayloadAttributes ∧ forkchoice_status updated = FcuValid
  | PendingPayloadId s => s = mkPayloadStatus StatusValid (Some (head_block_hash st)) ∧ forkchoice_status updated = FcuValid
  end.

Lemma update_tracked_ok hash (set : SealedHeader → CanonicalInMemoryState → CanonicalInMemoryState) e :
  (∀ h m, ci_head (cm_tracker (set h m)) = ci_head (cm_tracker m) ∧ cm_memory (set h m) = cm_memory m) →
  engine_ok e →
  wp (update_tracked db hash set) (λ r e', engine_ok e' ∧ still e e' ∧ ∀ o, r = inl o → o = invalid_state) e.
Proof.
  intros Hset He. unfold update_tracked. case_match; [apply wp_ret; split_and!; auto with engine; done|].
  eapply wp_seq; [apply find_canonical_header_ok|]. intros r e1 [R1 _]. pose proof (engine_ok_reads _ _ _ _ He R1) as He1.
  destruct r as [err|[h|]].
  - apply wp_ret. split_and!; [done|auto with engine|done].
  - apply wp_bind, wp_modify, wp_ret. destruct (Hset h (canonical_in_memory_state e1)) as [Hh Hm]. split_and!; [| |done].
    + destruct He1. constructor; try done; simpl; [by rewrite Hm|by rewrite Hh].
    + eapply still_trans; [by apply reads_still|]. constructor; simpl; [by repeat constructor|done|done|by rewrite Hm..].
  - apply wp_ret. split_and!; [done|auto with engine|]. by intros o [= <-].
Qed.
Lemma ensure_consistent_ok st e :
  engine_ok e →
  wp (ensure_consistent_forkchoice_state db st) (λ r e', engine_ok e' ∧ still e e' ∧ ∀ o, r = inl o → o = invalid_state) e.
Proof.
  intros He. unfold ensure_consistent_forkchoice_state.
  eapply wp_try; [by apply update_tracked_ok|intros o e' (? & ? & Ho); split_and!; [done|done|]; intros o' [= <-]; by apply Ho|].
  intros _ e1 (He1 & S1 & _). eapply wp_mono; [by apply update_tracked_ok|]. intros r e2 (He2 & S2 & Hr).
  split_and!; [done|by eapply still_trans|done].
Qed.
Lemma finish_forkchoice_ok st attrs tip e :
  engine_ok e → canonical_block_hash (tree_state (state e)) = head_block_hash st →
  (∀ e, wp tip (λ _ e', reads e e') e) →
  wp (finish_forkchoice db st attrs tip)
     (λ r e', engine_ok e' ∧ still e e' ∧ ∀ o, r = inr o → forkchoice_answer st true o e') e.
Proof.
  intros He Hhead Htip. unfold finish_forkchoice. eapply wp_seq; [by apply ensure_consistent_ok|].
  intros r e1 (He1 & S1 & Hr).
  assert (∀ e', still e1 e' → canonical_block_hash (tree_state (state e')) = head_block_hash st) as Hhd.
  { intros e' S. unfold canonical_block_hash in *. by rewrite (s_head _ _ S), (s_head _ _ S1). }
  destruct r as [o|u]; [apply wp_ret; split_and!; [done|done|]; intros ? [= <-]; rewrite (Hr _ eq_refl); split; [done|split; [done|by left]]|].
  destruct attrs as [attr|].
  2:{ apply wp_ret. split_and!; [done|done|]. intros ? [= <-]. split_and!; simpl; try done. split; [done|]. left. auto with engine. }
  eapply wp_try; [apply Htip|intros err e' R; split_and!; [by eapply engine_ok_reads|eauto using still_trans with engine|done]|].
  intros hd e2 R2. pose proof (engine_ok_reads _ _ _ _ He1 R2) as He2. assert (still e1 e2) as S2 by auto with engine.
  assert (still e e2) as S by by eapply still_trans.
  assert (∀ e' o, still e2 e' → forkchoice_status o = FcuValid →
    match fut o with
    | Ready (inr s) => False
    | Ready (inl err) => err = UpdatedInvalidPayloadAttributes
    | PendingPayloadId s => s = mkPayloadStatus StatusValid (Some (head_block_hash st))
    end → forkchoice_answer st true (TreeOutcome_new o) e') as Hans.
  { intros e' o S' Ho Hf. unfold forkchoice_answer. simpl. rewrite Ho. split_and!; [done|done|left; eauto using still_trans|].
    destruct (fut o) as [[]|]; [by right|done|done]. }
  unfold process_payload_attributes. apply wp_bind. case_match.
  { apply wp_ret, wp_ret. split_and!; [done|done|]. intros ? [= <-]. apply Hans; [auto with engine|done|done]. }
  case_match.
  - apply wp_bind, wp_modify, wp_ret, wp_ret. split_and!.
    + destruct He2. by constructor.
    + eapply still_trans; [exact S|]. by repeat constructor.
    + intros ? [= <-]. apply Hans; [by repeat constructor|done|done].
  - apply wp_ret, wp_ret. split_and!; [done|done|]. intros ? [= <-]. apply Hans; [auto with engine|done|done].
Qed.
Lemma pre_validate_ok st e :
  engine_ok e →
  wp (pre_validate_forkchoice_update db st)
     (λ r e', reads e e' ∧
        match r with
        | inr None => is_idle (backfill_sync_state e) = true
        | inr (Some o) => ∀ e'', forkchoice_answer st (is_idle (backfill_sync_state e)) (TreeOutcome_new o) e''
        | inl _ => True
        end) e.
Proof.
  intros He. unfold pre_validate_forkchoice_update. case_match.
  { apply wp_ret. split; [auto with engine|]. intros e''. split; [done|]. simpl. auto. }
  eapply wp_seq; [apply lowest_buffered_ancestor_or_ok; apply He|]. intros a ? [-> _].
  eapply wp_try; [apply check_invalid_ancestor_ok; apply He|reads_done|]. intros [s|] e1 [R1 Hs].
  - apply wp_ret. split; [done|]. intros e''. unfold forkchoice_answer, with_invalid, of_status. simpl.
    rewrite (proj1 (Hs _ eq_refl)). split_and!; done.
  - apply wp_bind, wp_gets, wp_ret. split; [done|]. rewrite (reads_backfill _ _ R1). destruct (is_idle _); [done|].
    intros e''. split; [done|]. simpl. split; [by left|]. done.
Qed.
Lemma missing_head_target_ok st e :
  engine_ok e → wp (missing_head_target db st) (λ _ e', reads e e') e.
Proof.
  intros He. unfold missing_head_target. apply wp_bind, wp_gets.
  eapply (wp_seq _ _ (λ _ e', reads e e')).
  - case_match; [|apply wp_ret; auto with engine]. eapply wp_seq; [apply find_canonical_header_ok|]. intros r e1 [R1 _]. by apply wp_ret.
  - intros t e1 R1. pose proof (engine_ok_reads _ _ _ _ He R1) as He1.
    eapply wp_mono; [apply lowest_buffered_ancestor_or_ok; apply He1|]. by intros ? ? [-> _].
Qed.
Lemma on_forkchoice_updated_ok st attrs e :
  engine_ok e →
  wp (on_forkchoice_updated db st attrs)
     (λ r e', engine_ok e' ∧ quiet e e' ∧ ∀ o, r = inr o → forkchoice_answer st (is_idle (backfill_sync_state e)) o e') e.
Proof.
  intros He. unfold on_forkchoice_updated. apply wp_bind, wp_gets, wp_bind, wp_modify. set (e0 := on_canonical _ e).
  assert (engine_ok e0) as He0 by (destruct He; by constructor). assert (quiet e e0) as Q0 by (by repeat constructor).
  change (backfill_sync_state e) with (backfill_sync_state e0).
  eapply wp_try; [by apply pre_validate_ok|intros err e' [R _]; split_and!;
    [by eapply engine_ok_reads|eauto using quiet_trans with engine|done]|].
  intros early e1 [R1 Hearly]. pose proof (engine_ok_reads _ _ _ _ He0 R1) as He1.
  assert (quiet e e1) as Q1 by eauto using quiet_trans with engine. clear He0 Q0. clearbody e0.
  destruct early as [o|]; [apply wp_ret; split_and!; [done|done|]; by intros ? [= <-]|]. rewrite Hearly.
  assert (∀ tip e2, engine_ok e2 → quiet e1 e2 → canonical_block_hash (tree_state (state e2)) = head_block_hash st →
    (∀ e, wp tip (λ _ e', reads e e') e) →
    wp (finish_forkchoice db st attrs tip) (λ r e', engine_ok e' ∧ quiet e e' ∧ ∀ o, r = inr o → forkchoice_answer st true o e') e2) as Hfin.
  { intros tip e2 He2 Q2 Hh Ht. eapply wp_mono; [by apply finish_forkchoice_ok|]. intros r e3 (He3 & S3 & Hr).
    split_and!; [done| |done]. eapply quiet_trans; [done|]. eapply quiet_trans; [done|]. auto with engine. }
  apply wp_bind, wp_gets. case_match eqn:Hh.
  { apply Z.eqb_eq in Hh. apply Hfin; [done|auto with engine|done|]. intros e2.
    eapply wp_try; [apply block_by_hash_ok|reads_done|]. intros b e3 [R3 _]. by apply wp_ret. }
  destruct (on_new_head_fits hash_rank hash_number (tree_state (state e1)) (head_block_hash st) (engine_linked _ _ _ He1) (eo_numbered _ _ _ He1))
    as (res & Hres & Hf). apply wp_bind. eapply wp_lift; [exact Hres|]. destruct res as [c|].
  { destruct (fits_head _ _ _ (Hf _ eq_refl)) as (b & Hlast & _). apply wp_bind.
    eapply wp_lift; [unfold TreeState.tip; rewrite Hlast; reflexivity|].
    eapply wp_seq; [apply on_canonical_chain_update_ok; [done|by apply Hf]|]. intros _ e2 (He2 & Q2 & Hh2).
    apply Hfin; [done|done|done|]. intros e3. apply wp_ret. auto with engine. }
  eapply wp_seq; [apply find_canonical_header_ok|]. intros r e2 [R2 Hr]. pose proof (engine_ok_reads _ _ _ _ He1 R2) as He2.
  assert (quiet e e2) as Q2 by eauto using quiet_trans with engine.
  assert (wp (target ← missing_head_target db st;
              mret (inr (A:=ProviderError) (with_event (TreeOutcome_new (valid (from_status StatusSyncing))) (DownloadEvent (single_block target)))))
             (λ r e', engine_ok e' ∧ quiet e e' ∧ ∀ o, r = inr o → forkchoice_answer st true o e') e2) as Hmiss.
  { eapply wp_seq; [by apply missing_head_target_ok|]. intros t e3 R3. apply wp_ret.
    split_and!; [by eapply engine_ok_reads|eauto using quiet_trans with engine|]. intros o [= <-]. split_and!; simpl; try done.
    - intros ev [= <-]. by eexists.
    - right. by eexists. }
  destruct r as [err|[h|]]; [done| |done]. apply wp_ret. split_and!; [done|done|]. intros o [= <-].
  split_and!; simpl; try done. split; [done|]. right. by eapply Hr.
Qed.
(** A head that can be reached becomes canonical. *)
Definition reachable_head (head : Z) e : Prop :=
  let t := tree_state (state e) in
  head = canonical_block_hash t ∨
  in_tree head e ∧ canonical_block_number t ≤ hash_number head ∧ share_ancestor t head.
(** No block at the end of the buffered chain below the head is marked as invalid. *)
Definition not_rejected (head : Z) e : Prop :=
  ∀ l r, path bs_parent_hash (bf_blocks (buffer (state e))) head l r → bf_blocks (buffer (state e)) !! r = None →
    assoc r (entries (invalid_headers (state e))) = None.
Lemma pre_validate_passes st e :
  engine_ok e → head_block_hash st ≠ 0 → backfill_sync_state e = Idle → not_rejected (head_block_hash st) e →
  wp (pre_validate_forkchoice_update db st) (λ r e', r = inr None ∧ reads e e') e.
Proof.
  intros He Hz Hi Hn. unfold pre_validate_forkchoice_update. destruct (Z.eqb_spec (head_block_hash st) 0) as [|_]; [done|].
  eapply wp_seq; [apply lowest_buffered_ancestor_or_ok; apply He|]. intros r ? [-> (l & Hp & Hr)].
  eapply (wp_try _ _ (λ r e', r = inr None ∧ reads e e')).
  - apply wp_bind. unfold wp, invalid_get, ih_get. pose proof (Hn l r Hp Hr) as Ha. unfold entries in Ha. rewrite Ha. simpl.
    split; [done|]. by apply reads_invalid.
  - by intros err e' [? _].
  - intros o e' [[= ->] R]. apply wp_bind, wp_gets, wp_ret. by rewrite (reads_backfill _ _ R), Hi.
Qed.
Lemma forkchoice_moves st attrs e :
  engine_ok e → head_block_hash st ≠ 0 → backfill_sync_state e = Idle → not_rejected (head_block_hash st) e →
  reachable_head (head_block_hash st) e →
  wp (on_forkchoice_updated db st attrs)
     (λ r e', canonical_block_hash (tree_state (state e')) = head_block_hash st ∧ engine_ok e') e.
Proof.
  intros He Hz Hi Hn Hre. unfold on_forkchoice_updated. apply wp_bind, wp_gets, wp_bind, wp_modify. set (e0 := on_canonical _ e).
  assert (engine_ok e0) as He0 by (destruct He; by constructor).
  eapply wp_try; [by apply (pre_validate_passes st e0)|by intros err e' [? _]|]. intros o e1 [[= ->] R1].
  pose proof (engine_ok_reads _ _ _ _ He0 R1) as He1. assert (tree_state (state e1) = tree_state (state e)) as Ht by apply (reads_tree _ _ R1).
  assert (∀ tip e2, engine_ok e2 → canonical_block_hash (tree_state (state e2)) = head_block_hash st → (∀ e, wp tip (λ _ e', reads e e') e) →
    wp (finish_forkchoice db st attrs tip) (λ r e', canonical_block_hash (tree_state (state e')) = head_block_hash st ∧ engine_ok e') e2) as Hfin.
  { intros tip e2 He2 Hh Ht'. eapply wp_mono; [by apply finish_forkchoice_ok|]. intros r e3 (He3 & S3 & _). split; [|done].
    unfold canonical_block_hash in *. by rewrite (s_head _ _ S3). }
  apply wp_bind, wp_gets. destruct (Z.eqb_spec (canonical_block_hash (tree_state (state e1))) (head_block_hash st)) as [Hh|Hh].
  { apply Hfin; [done|done|]. intros e2. eapply wp_try; [apply block_by_hash_ok|reads_done|]. intros b e3 [R3 _]. by apply wp_ret. }
  destruct (on_new_head_spec hash_rank hash_number (tree_state (state e1)) (head_block_hash st) (engine_linked _ _ _ He1) (eo_numbered _ _ _ He1))
    as (res & Hres & Hspec); [by intros ?|].
  destruct (on_new_head_fits hash_rank hash_number (tree_state (state e1)) (head_block_hash st) (engine_linked _ _ _ He1) (eo_numbered _ _ _ He1))
    as (res' & Hres' & Hf). assert (res' = res) as -> by congruence.
  apply wp_bind. eapply wp_lift; [exact Hres|]. destruct res as [c|].
  - destruct (fits_head _ _ _ (Hf _ eq_refl)) as (b & Hlast & _). apply wp_bind.
    eapply wp_lift; [unfold TreeState.tip; rewrite Hlast; reflexivity|].
    eapply wp_seq; [apply on_canonical_chain_update_ok; [done|by apply Hf]|]. intros _ e2 (He2 & _ & Hh2).
    apply Hfin; [done|done|]. intros e3. apply wp_ret. auto with engine.
  - exfalso. rewrite Ht in *. destruct Hre as [?|([b Hb] & Hge & Hsh)]; [congruence|]. destruct Hspec as [?|[?|?]]; [congruence|lia|done].
Qed.

(** ** The end of a backfill, and persisted blocks *)

(** A part of the tree. *)
Lemma tree_part e t' :
  engine_ok e → blocks_by_hash t' ⊆ blocks_by_hash (tree_state (state e)) →
  current_canonical_head t' = current_canonical_head (tree_state (state e)) →
  tree_known t' ∧ numbered hash_number t' ∧ tree_sound consensus t'.
Proof.
  intros He Hs Hh. split_and!.
  - intros h b Hb. by eapply (eo_known _ _ _ He), lookup_weaken.
  - destruct (eo_numbered _ _ _ He) as (Hn1 & Hn2). unfold numbered, canonical_block_number, canonical_block_hash in *. rewrite Hh.
    split; [|done]. intros h b Hb. by eapply Hn1, lookup_weaken.
  - intros h b Hb. by eapply (eo_validated _ _ _ He), lookup_weaken.
Qed.
(** From now on the database has a header at the height, if the environment is sound. *)
Definition header_at (height : Z) e : Prop :=
  sound → ∀ n, (clock e ≤ n)%nat → ∃ h, db_sealed_header (db n) height = inr (Some h).
Lemma housekeeping_ok height e :
  engine_ok e → backfill_sync_state e = Idle → header_at height e →
  wp (housekeeping db height) (λ _ e', engine_ok e' ∧ keeps e e' ∧ backfill_sync_state e' = Idle) e.
Proof.
  intros He Hi Hat. destruct (remove_before_ok (Included height) _ (eo_tree _ _ _ He)) as (Ht & Hh & Hbl).
  destruct (remove_old_blocks_ok height _ (eo_buffer _ _ _ He)) as (b' & Hb' & Hbok & _ & Hleft).
  destruct (tree_part e (remove_before (Included height) (tree_state (state e))) He) as (Hk & Hn & Hv);
    [rewrite Hbl; apply map_filter_subseteq|done|].
  unfold housekeeping. apply wp_bind, wp_modify.
  set (e1 := on_canonical (on_memory mem_clear) (on_buffer (λ _, b') (on_tree (remove_before (Included height)) e))).
  assert (∀ p,
    (sound → hash_number (canonical_block_hash (tree_state (state e1))) ≤ last_persisted_block_number p) →
    engine_ok (tick (on_persistence (λ _, p) e1))) as Hmk.
  { intros p Hlow. pose proof (eo_buffered _ _ _ He) as Hkb. destruct He. constructor; try done; simpl.
    - intros h x [Hx _]%Hleft. by eapply Hkb.
    - exists [], (canonical_block_hash (remove_before (Included height) (tree_state (state e)))). split_and!; [done|constructor|done].
    - by rewrite Hh. }
  assert (keeps e (tick e1)) as K1 by (constructor; [simpl; lia|done..]). assert (backfill_sync_state e1 = Idle) as Hi1 by done.
  assert (clock e1 = clock e) as Hc by done. assert (persistence_state e1 = persistence_state e) as Hpe by done.
  eapply (wp_seq _ _ (λ _ e', e' = on_buffer (λ _, b') (on_tree (remove_before (Included height)) e))).
  { unfold wp. simpl. rewrite Hb'. done. }
  intros _ ? ->. apply wp_bind, wp_modify. fold e1.
  assert (canonical_block_number (tree_state (state e1)) = hash_number (canonical_block_hash (tree_state (state e1)))) as Hnum1 by apply Hn.
  assert (mem_is [] (cm_memory (canonical_in_memory_state e1))) as Hm1 by done.
  clearbody e1. eapply wp_seq; [apply wp_provider_at|]. intros r ? [-> Hd].
  assert (¬ sound ∨ ∃ h, r = inr (Some h)) as Hr.
  { destruct r as [err|[h|]]; [left|by right; exists h|left]; intros Hs; destruct (Hat Hs (clock e1)) as [h Hh']; try lia; congruence. }
  destruct r as [err|[h|]].
  1,3: destruct Hr as [Hs|[h' ?]]; [|done]; apply wp_ret; (split_and!; [|done|done]);
    specialize (Hmk (persistence_state e1)); rewrite Hpe in Hmk; specialize (Hmk ltac:(done)); rewrite <-Hpe in Hmk;
    by destruct e1.
  destruct (db_sealed_known _ _ _ _ Hd) as [Hkh Hkn].
  apply wp_bind, wp_modify, wp_bind, wp_modify, wp_modify. split_and!; [|by eapply keeps_trans; [|constructor]|done].
  destruct (known_number _ Hkh) as [Hnum Hrange].
  destruct (Hmk (finish 0 (canonical_block_number (tree_state (state e1))) (persistence_state e1))) as [];
    [intros _; simpl; lia|]. constructor; try done; simpl in *.
  - by apply set_canonical_head_ok.
  - destruct eo_numbered as [Hn1 _]. split; [exact Hn1|]. split; [exact Hnum|exact (proj1 Hrange)].
  - exists [], (sh_hash h). split_and!; [done|constructor|]. intros _. lia.
Qed.
(** What is assumed of the end of a backfill. *)
Definition finished_ok e (ctrl : ControlFlow) : Prop :=
  match ctrl with
  | Unwind _ bad => unwound bad
  | _ => ∀ height, block_number ctrl = Some height → header_at height e
  end.
Lemma on_backfill_sync_finished_ok ctrl e :
  engine_ok e → finished_ok e ctrl → wp (on_backfill_sync_finished consensus db ctrl) (λ _ e', engine_ok e' ∧ keeps e e') e.
Proof.
  intros He Hctrl. unfold on_backfill_sync_finished. apply wp_bind, wp_modify. set (e0 := set_backfill Idle e).
  assert (engine_ok e0 ∧ keeps e e0 ∧ backfill_sync_state e0 = Idle) as (He0 & K0 & Hi0)
    by (split_and!; [destruct He; by constructor|by constructor|done]).
  assert (clock e0 = clock e) as Hc0 by done. clearbody e0.
  assert (∀ bad, unwound bad → wp (modify (on_invalid (ih_insert bad))) (λ _ e', engine_ok e' ∧ keeps e e') e0) as Hbad.
  { intros bad Hbad. apply wp_modify. split; [|eapply keeps_trans; [done|by constructor]]. destruct He0. constructor; try done.
    apply ih_insert_inv; [done|by apply bad_unwound]. }
  assert (∀ height, header_at height e0 → wp (
     _ ← housekeeping db height;
      sync_target_state ← gets (λ e, sync_target_state (forkchoice_state_tracker (state e)));
      match sync_target_state with
      | None => mret tt
      | Some sync_target_state =>
        if finalized_block_hash sync_target_state =? 0 then mret tt
        else
          backfill_target ← next_backfill_target db height sync_target_state;
          match backfill_target with
          | Some backfill_target => emit_event (EngineBackfillAction (Start (Sync backfill_target)))
          | None =>
            head ← gets (λ e, current_canonical_head (tree_state (state e)));
            try_connect_buffered_blocks consensus db head
          end
      end) (λ _ e', engine_ok e' ∧ keeps e e') e0) as Hmain.
  { intros height Hat. eapply wp_seq; [by apply housekeeping_ok|]. intros _ e1 (He1 & K1 & Hi1).
    pose proof (keeps_trans _ _ _ K0 K1) as K1'. apply wp_bind, wp_gets. destruct (sync_target_state _) as [s|]; [|by apply wp_ret].
    case_match; [by apply wp_ret|]. eapply (wp_seq _ _ (λ _ e', reads e1 e')).
    { unfold next_backfill_target. apply wp_bind, wp_gets. case_match; [apply backfill_sync_target_ok|apply wp_ret; auto with engine]. }
    intros o e2 R2. pose proof (engine_ok_reads _ _ _ _ He1 R2) as He2.
    assert (keeps e e2) as K2 by eauto using keeps_trans, still_keeps with engine.
    destruct o as [t|].
    - eapply wp_mono; [apply emit_backfill; [by rewrite (reads_backfill _ _ R2)|done]|]. intros _ e3 (He3 & K3 & _).
      split; [done|by eapply keeps_trans].
    - apply wp_bind, wp_gets. eapply wp_mono; [by apply try_connect_buffered_blocks_ok|]. intros _ e3 [He3 Q3].
      split; [done|]. eapply keeps_trans; [done|by apply q_keeps]. }
  assert (∀ height, header_at height e → header_at height e0) as Hat0 by (unfold header_at; by rewrite Hc0).
  destruct ctrl as [? bad|n|[n|]]; simpl in *; [by apply Hbad|apply Hmain, Hat0, Hctrl; done..|by apply wp_ret].
Qed.

Lemma persisted_ok e :
  engine_ok e → let n := last_persisted_block_number (persistence_state e) in
  engine_ok (on_canonical (on_memory (remove_persisted_blocks n)) (on_tree (remove_before (Included n)) e)).
Proof.
  intros He n. destruct (remove_before_ok (Included n) _ (eo_tree _ _ _ He)) as (Ht & Hh & Hbl).
  destruct (tree_part e (remove_before (Included n) (tree_state (state e))) He) as (Hk & Hn & Hv);
    [rewrite Hbl; apply map_filter_subseteq|done|].
  destruct (eo_memory _ _ _ He) as (l & r & Hm & Hp & Hlow). set (t := tree_state (state e)) in *.
  pose proof (chainlike_path hash_rank hash_number _ _ _ _ (eo_tree _ _ _ He) (engine_linked _ _ _ He) (eo_numbered _ _ _ He) Hp) as Hc.
  destruct (chainlike_above n l Hc) as (rest & El & Hrest). pose proof (eo_numbered _ _ _ He) as [Hnb _].
  destruct He. constructor; try done; simpl; fold t; [|by rewrite Hh].
  exists (filter (λ b, n < eb_number b) l). rewrite El in Hp. apply path_app_inv in Hp as (r1 & Hp & Hp2). exists r1.
  split_and!; [by apply remove_persisted_blocks_ok| |].
  - unfold canonical_block_hash. rewrite Hh, Hbl. apply path_filter; [done|].
    intros k x _ [Hx _]%list_elem_of_filter. simpl. lia.
  - intros Hs. destruct rest as [|b rest]; inversion Hp2 as [|? ? ? ? Hb' _]; subst; [by apply Hlow|].
    destruct (Hnb _ _ Hb') as (<- & _). by apply Forall_cons in Hrest as [? _].
Qed.
(** *** The blocks to save *)
Lemma blocks_to_persist_cases fuel m last target h :
  (∃ l r, blocks_to_persist fuel m last target h = Done (filter (λ b, eb_number b ≤ target) l) ∧
     path eb_parent_hash m h l r ∧ Forall (λ b, last < eb_number b) l ∧ (∀ b, m !! r = Some b → eb_number b ≤ last)) ∨
  (∃ l r, path eb_parent_hash m h l r ∧ length l = S fuel).
Proof.
  revert h. induction fuel as [|fuel IH]; intros h; simpl; destruct (m !! h) as [b|] eqn:Hb.
  2,4: left; exists [], h; split_and!; [done|constructor|done|congruence].
  all: destruct (Z.leb_spec (eb_number b) last) as [Hle|Hlt];
    [left; exists [], h; split_and!; [done|constructor|done|intros; by simplify_eq]|].
  - right. exists [b], (eb_parent_hash b). split; [by apply path_single|done].
  - destruct (IH (eb_parent_hash b)) as [(l & r & -> & Hp & Hf & Hr)|(l & r & Hp & Hl)].
    + left. exists (b :: l), r. simpl. split_and!; [|by econstructor|by constructor|done].
      rewrite filter_cons. by destruct (Z.leb_spec (eb_number b) target), (decide (eb_number b ≤ target)); try lia.
    + right. exists (b :: l), r. split; [by econstructor|simpl; lia].
Qed.
(** Consecutive canonical blocks, the oldest first: those after the last persisted one, up to
    the target. *)
Lemma get_canonical_blocks_to_persist_spec e :
  engine_ok e →
  let t := tree_state (state e) in
  let last := last_persisted_block_number (persistence_state e) in
  let target := Z.max 0 (canonical_block_number t - memory_block_buffer_target (config e)) in
  ∃ newer l r,
    get_canonical_blocks_to_persist e = Done (reverse l) ∧
    path eb_parent_hash (blocks_by_hash t) (canonical_block_hash t) (newer ++ l) r ∧
    Forall (λ b, target < eb_number b) newer ∧ Forall (λ b, last < eb_number b ≤ target) l ∧
    (∀ b, blocks_by_hash t !! r = Some b → eb_number b ≤ last).
Proof.
  intros He t last target. unfold get_canonical_blocks_to_persist. fold t last target.
  destruct (blocks_to_persist_cases (size (blocks_by_hash t)) (blocks_by_hash t) last target (canonical_block_hash t))
    as [(l & r & -> & Hp & Hf & Hr)|(l & r & Hp & Hlen)].
  2:{ pose proof (path_length _ _ _ _ _ _ (engine_linked _ _ _ He) Hp). unfold t in *. lia. }
  pose proof (chainlike_path hash_rank hash_number _ _ _ _ (eo_tree _ _ _ He) (engine_linked _ _ _ He) (eo_numbered _ _ _ He) Hp) as Hc.
  destruct (chainlike_above target l Hc) as (rest & El & Hrest).
  assert (filter (λ b, eb_number b ≤ target) l = rest) as ->.
  { rewrite El, filter_app. rewrite (list_filter_all _ rest) by (by apply Forall_forall).
    enough (filter (λ b, eb_number b ≤ target) (filter (λ b, target < eb_number b) l) = []) as -> by done.
    clear. induction l as [|b l IH]; [done|]. rewrite (filter_cons _ b l). case_decide; [|done]. rewrite filter_cons_False by lia. done. }
  exists (filter (λ b, target < eb_number b) l), rest, r. rewrite <-El. split_and!; [done|done|..|done].
  - apply Forall_forall. by intros x [Hx _]%list_elem_of_filter.
  - rewrite El in Hf. apply Forall_app in Hf as [_ Hf]. rewrite Forall_forall in Hf, Hrest |- *. intros x Hx. split; [by apply Hf|by apply Hrest].
Qed.
Lemma start_persistence_ok e :
  engine_ok e →
  wp start_persistence
     (λ _ e', engine_ok e' ∧ keeps e e' ∧ tree_state (state e') = tree_state (state e) ∧
        last_persisted_block_number (persistence_state e') = last_persisted_block_number (persistence_state e)) e.
Proof.
  intros He. unfold start_persistence. apply wp_bind, wp_gets. case_match eqn:Hs; [|apply wp_ret; auto with engine].
  destruct (get_canonical_blocks_to_persist_spec e He) as (newer & l & r & Hl & _). apply wp_bind. eapply wp_lift; [exact Hl|].
  destruct (reverse l) as [|b l']; [apply wp_ret; auto with engine|]. apply wp_bind, wp_modify, wp_modify.
  split_and!; [|by constructor|done|done]. apply andb_true_iff in Hs as [Hs _]. unfold should_persist in Hs.
  destruct He. constructor; try done. simpl. by destruct (backfill_sync_state e).
Qed.
(** The persistence task does not report an older block than before, if the environment is
    sound. *)
Definition reply_ok e (reply : TryRecv) : Prop :=
  sound → ∀ h b, reply = Received (Some h) → tree_block_by_hash h (tree_state (state e)) = Some b →
    last_persisted_block_number (persistence_state e) ≤ sb_number b.
Lemma engine_ok_persistence p e :
  engine_ok e → rx p = None ∨ rx p = rx (persistence_state e) →
  (sound → last_persisted_block_number (persistence_state e) ≤ last_persisted_block_number p) →
  engine_ok (on_persistence (λ _, p) e).
Proof.
  intros He Hrx Hp. destruct (eo_memory _ _ _ He) as (l & r & Hm & Hpath & Hlow). destruct He. constructor; try done; simpl.
  - exists l, r. split_and!; [done|done|]. intros Hs. specialize (Hlow Hs). specialize (Hp Hs). lia.
  - intros Hb. by destruct Hrx as [| ->]; [|auto].
Qed.
Lemma advance_persistence_ok reply e :
  engine_ok e →
  wp (advance_persistence reply)
     (λ alive e', (reply_ok e reply → engine_ok e') ∧ keeps e e' ∧ (alive = false → reply = RecvClosed)) e.
Proof.
  intros He. unfold advance_persistence. eapply wp_seq; [by apply start_persistence_ok|]. intros _ e1 (He1 & K1 & Ht1 & Hp1).
  assert (reply_ok e reply → reply_ok e1 reply) as Hre by (unfold reply_ok; by rewrite Ht1, Hp1).
  apply wp_bind, wp_gets. destruct (rx (persistence_state e1)) as [l|] eqn:Hrx; [|by apply wp_ret].
  apply wp_bind, wp_modify. set (e2 := on_persistence take_rx e1).
  assert (engine_ok e2) as He2 by (apply (engine_ok_persistence (take_rx (persistence_state e1)) e1); [done|by left|done]).
  assert (keeps e e2) as K2 by (eapply keeps_trans; [done|by constructor]).
  destruct reply as [[h|]| |]; [|by apply wp_ret| |by apply wp_ret].
  - apply wp_bind, wp_gets. destruct (tree_block_by_hash _ _) as [b|] eqn:Hb; [|by apply wp_ret].
    apply wp_bind, wp_modify, wp_bind. apply wp_bind, wp_gets, wp_bind, wp_modify, wp_modify, wp_ret.
    split_and!; [|eapply keeps_trans; [exact K2|by constructor]|done]. intros Hr%Hre.
    apply (persisted_ok (on_persistence (finish h (sb_number b)) e2)).
    apply (engine_ok_persistence (finish h (sb_number b) (persistence_state e2)) e2); [done|by left|]. intros Hs. by apply (Hr Hs h b).
  - apply wp_bind, wp_modify, wp_ret. split_and!; [|eapply keeps_trans; [exact K2|by constructor]|done]. intros _.
    replace (on_persistence (start l) e2) with (on_persistence (λ _, start l (take_rx (persistence_state e1))) e1) by done.
    apply engine_ok_persistence; [done|by right; rewrite Hrx|done].
Qed.

(** ** Messages *)

(** What is assumed of the messages: the headers in them are known, that is no two of them share a
    hash; an executed block that is handed in is one the sender vouches for, numbered after its
    parent; a backfill starts only when it was asked for or no blocks are being saved, and ends as
    the environment says. *)
Definition message_ok e (m : FromEngine) : Prop :=
  match m with
  | DownloadedBlocks l => Forall (λ b, known (sb_header (bs_block b))) l
  | EngineRequest (InsertExecutedBlock b) => known (sb_header (eb_block b)) ∧ follows b ∧ trusted b
  | EngineRequest (Beacon (NewPayload payload cancun)) => payload_known payload cancun
  | EngineRequest (Beacon _) => True
  | EngineEvent BackfillSyncStarted => backfill_sync_state e ≠ Idle ∨ rx (persistence_state e) = None
  | EngineEvent (BackfillSyncFinished ctrl) => finished_ok e ctrl
  end.
(** The answers that a message gets. *)
Definition answered e (m : FromEngine) e' : Prop :=
  match m with
  | EngineRequest (Beacon (NewPayload payload cancun)) =>
    ∃ r, responses e' = responses e ++ [PayloadResponse r] ∧
      payload_answer payload cancun (tree_state (state e)) (is_idle (backfill_sync_state e)) (clock e) r e' ∧
      still (respond (PayloadResponse r) e) e'
  | EngineRequest (Beacon (ForkchoiceUpdated st attrs)) =>
    ∃ r, responses e' = responses e ++ [ForkchoiceResponse r] ∧
      (∀ o, r = inr o → ∃ event, forkchoice_answer st (is_idle (backfill_sync_state e)) (mkTreeOutcome o event) e' ∧
         ∀ ev, event = Some (DownloadEvent ev) → last (outgoing e') = Some (EngineDownload ev))
  | _ => responses e' = responses e
  end.
Lemma on_new_payload_message payload cancun e :
  engine_ok e → payload_known payload cancun →
  wp (on_engine_message consensus validator db (EngineRequest (Beacon (NewPayload payload cancun))))
     (λ _ e', engine_ok e' ∧ (clock e ≤ clock e')%nat ∧ config e' = config e ∧
        answered e (EngineRequest (Beacon (NewPayload payload cancun))) e') e.
Proof.
  intros He Hk. simpl. eapply wp_seq; [by apply on_new_payload_ok|]. intros r e1 (He1 & S1 & Hr).
  pose proof (still_keeps _ _ S1) as [Hc Hresp Hcfg]. apply wp_modify. split_and!; [destruct He1; by constructor|done|done|].
  eexists. split_and!; [simpl; by rewrite Hresp| |].
  - exact Hr.
  - destruct S1 as [[? ? ? ? ?] ? ? ? ?]. repeat constructor; simpl; try done. by rewrite Hresp.
Qed.
Lemma on_forkchoice_message st attrs e :
  engine_ok e →
  wp (on_engine_message consensus validator db (EngineRequest (Beacon (ForkchoiceUpdated st attrs))))
     (λ _ e', engine_ok e' ∧ (clock e ≤ clock e')%nat ∧ config e' = config e ∧
        answered e (EngineRequest (Beacon (ForkchoiceUpdated st attrs))) e') e.
Proof.
  intros He. simpl. eapply wp_seq; [by apply on_forkchoice_updated_ok|]. intros r e1 (He1 & Q1 & Hr).
  pose proof (q_keeps _ _ Q1) as [Hc Hresp Hcfg]. destruct r as [err|[o event]]; cbv beta iota.
  { apply wp_bind, wp_ret, wp_modify. split_and!; [destruct He1; by constructor|done|done|].
    eexists. split; [simpl; by rewrite Hresp|done]. }
  specialize (Hr _ eq_refl). simpl in Hr. pose proof Hr as (Hev & _).
  set (e2 := on_forkchoice (set_latest st (forkchoice_status o)) e1).
  assert (engine_ok e2) as He2 by (destruct He1; by constructor).
  set (P := λ (_ : unit) e', ∃ evs, e' = foldl (λ e m, send_out m e) e2 evs ∧
     ∀ ev, event = Some (DownloadEvent ev) → last evs = Some (EngineDownload ev)).
  eapply (wp_seq _ _ P).
  { apply wp_bind, wp_modify, wp_bind. apply wp_modify. destruct event as [ev|].
    - destruct (Hev _ eq_refl) as [d ->]. apply wp_modify.
      exists [BeaconConsensusEvent (EvForkchoiceUpdated st (forkchoice_status o)); EngineDownload d]. split; [done|]. by intros ev [= <-].
    - apply wp_ret. exists [BeaconConsensusEvent (EvForkchoiceUpdated st (forkchoice_status o))]. by split. }
  intros _ e3 (evs & -> & Hlast). apply wp_modify.
  assert (∀ e0, engine_ok e0 → let e' := foldl (λ e m, send_out m e) e0 evs in
    engine_ok e' ∧ clock e' = clock e0 ∧ config e' = config e0 ∧ responses e' = responses e0 ∧
    outgoing e' = outgoing e0 ++ evs ∧ state e' = state e0 ∧ canonical_in_memory_state e' = canonical_in_memory_state e0) as Hfold.
  { clear. induction evs as [|m evs IH]; intros e0 He0; simpl; [by rewrite app_nil_r; split_and!|].
    destruct (IH (send_out m e0) (engine_ok_send_out _ _ _ _ He0)) as (E1 & E2 & E3 & E4 & E5 & E6 & E7).
    split_and!; try done. rewrite E5. simpl. by rewrite <-app_assoc. }
  destruct (Hfold e2 He2) as (E1 & E2 & E3 & E4 & E5 & E6 & E7). set (e3 := foldl _ e2 evs) in *.
  split_and!; [destruct E1; by constructor|simpl; rewrite E2; done|simpl; by rewrite E3|].
  eexists. split; [simpl; rewrite E4; simpl; by rewrite Hresp|]. intros o' [= <-]. exists event. split.
  - destruct Hr as (R1 & R2 & R3). split_and!; [done| |done]. simpl in *. destruct (forkchoice_status o); [|done|done].
    destruct R2 as [Hi R2]. split; [done|]. rewrite E6. destruct R2 as [R2|[R2|(n & Hn & R2)]]; [by left|right; left; simpl; by rewrite E7|].
    right; right. exists n. split; [simpl; rewrite E2; exact Hn|done].
  - intros ev Hd. simpl. rewrite E5. rewrite last_app. by rewrite (Hlast _ Hd).
Qed.
Lemma on_engine_message_ok m e :
  engine_ok e → message_ok e m →
  wp (on_engine_message consensus validator db m)
     (λ _ e', engine_ok e' ∧ (clock e ≤ clock e')%nat ∧ config e' = config e ∧ answered e m e') e.
Proof.
  intros He Hm. destruct m as [[ctrl|]|[[payload cancun|st attrs|]|b]|l].
  - eapply wp_mono; [by apply (on_backfill_sync_finished_ok ctrl e)|]. by intros _ e' [? []].
  - apply wp_modify. split_and!; try done. pose proof (eo_exclusive _ _ _ He) as Hx. destruct He. constructor; try done. simpl in *.
    intros _. destruct Hm as [Hm|Hm]; [by apply Hx|done].
  - by apply on_new_payload_message.
  - by apply on_forkchoice_message.
  - apply wp_bind, wp_gets, wp_modify. split_and!; try done. destruct He. by constructor.
  - destruct Hm as (Hk & Hn & Hv).
    destruct (insert_executed_engine consensus db b e He Hk Hn (or_intror Hv)) as (He' & [Q _ _ _ _] & _).
    apply wp_modify. by destruct (q_keeps _ _ Q).
  - eapply wp_seq; [by apply on_downloaded_ok|]. intros ev e' (-> & He' & []). by apply wp_ret.
Qed.

(** ** Runs *)

(** A message comes from outside, or from the handler itself; while blocks are being saved, there
    may be none. *)
Inductive received e : option FromEngine → EngineApiTreeHandler → Prop :=
| received_none : rx (persistence_state e) ≠ None → received e None e
| received_message m : message_ok e m → received e (Some m) e
| received_own m rest :
    incoming e = m :: rest →
    received e (Some m)
      (mkEngine (state e) rest (outgoing e) (persistence e) (persistence_state e) (backfill_sync_state e)
         (canonical_in_memory_state e) (payload_builder e) (config e) (responses e) (clock e)).
(** The part of a round before persistence. *)
Definition handle (msg : option FromEngine) : M unit :=
  match msg with Some m => on_engine_message consensus validator db m | None => mret tt end.
Inductive running (e0 : EngineApiTreeHandler) : EngineApiTreeHandler → Prop :=
| running_start : running e0 e0
| running_step e msg e1 reply e2 :
    running e0 e → received e msg e1 → (∀ e', handle msg e1 = Done (tt, e') → reply_ok e' reply) →
    run_once consensus validator db msg reply e1 = Done (true, e2) → running e0 e2.

Lemma received_ok e msg e1 :
  engine_ok e → received e msg e1 → engine_ok e1 ∧ responses e1 = responses e ∧ ∀ m, msg = Some m → message_ok e1 m.
Proof.
  intros He Hr. destruct Hr as [Hrx|m Hm|m rest Hi]; [done|by split_and!; [| |intros ? [= <-]]|].
  pose proof (eo_incoming _ _ _ He) as Hf. rewrite Hi in Hf. apply Forall_cons in Hf as [Hm Hf].
  split_and!; [destruct He; by constructor|done|]. intros ? [= <-]. by destruct m.
Qed.
Lemma handle_message_ok msg e :
  engine_ok e → (∀ m, msg = Some m → message_ok e m) → wp (handle msg) (λ _ e', engine_ok e') e.
Proof.
  intros He Hm. destruct msg as [m|]; [|by apply wp_ret]. eapply wp_mono; [apply on_engine_message_ok; auto|]. by intros _ e' [? _].
Qed.
Lemma run_once_ok msg reply e :
  engine_ok e → (∀ m, msg = Some m → message_ok e m) →
  wp (run_once consensus validator db msg reply)
     (λ alive e', ((∀ e1, handle msg e = Done (tt, e1) → reply_ok e1 reply) → engine_ok e') ∧ (alive = false → reply = RecvClosed)) e.
Proof.
  intros He Hm. destruct (wp_elim _ _ _ (handle_message_ok msg e He Hm)) as ([] & e1 & Hrun & He1).
  eapply (wp_seq _ _ (λ _ e', e' = e1)).
  - fold (handle msg). unfold wp. by rewrite Hrun.
  - intros _ ? ->. eapply wp_mono; [by apply advance_persistence_ok|]. intros a e2 (Hok & _ & Ha). split; [|done]. intros Hre. apply Hok. by apply Hre.
Qed.

(** The handler [spawn_new] makes from the last block of the database; in a sound environment the
    header is not above the last block that is saved. *)
Definition started e0 : Prop :=
  ∃ header memory best c,
    e0 = EngineApiTreeHandler_new header memory best c ∧ known header ∧
    mem_is [] (cm_memory memory) ∧ num_hash (ci_head (cm_tracker memory)) = num_hash header ∧
    0 ≤ block_buffer_limit c < 2 ^ 32 - 1 ∧ (sound → h_number (sh_header header) ≤ best).
Lemma started_ok e0 : started e0 → engine_ok e0.
Proof.
  intros (h & m & best & c & -> & Hk & Hm & Hh & Hl & Hb). destruct (known_number _ Hk) as [Hn Hr]. constructor; simpl; try done.
  - apply TreeState_new_ok.
  - split; [done|]. split; [exact Hn|exact (proj1 Hr)].
  - by apply BlockBuffer_new_ok.
  - split; [apply InvalidHeaderCache_new_wf|]. intros k x. unfold entries, InvalidHeaderCache_new. simpl. rewrite lru_iter_new.
    by intros ?%elem_of_nil.
  - exists [], (sh_hash h). split_and!; [done|constructor|]. intros Hs. rewrite <-Hn. by apply Hb.
Qed.
Lemma running_ok e0 e : started e0 → running e0 e → engine_ok e.
Proof.
  intros Hs. induction 1 as [|e msg e1 reply e2 _ IH Hr Hre Hrun]; [by apply started_ok|].
  destruct (received_ok _ _ _ IH Hr) as (He1 & _ & Hm). by apply (proj1 (wp_run _ _ _ _ _ Hrun (run_once_ok msg reply e1 He1 Hm))).
Qed.

(** C8. The engine neither panics nor hangs: in every state it reaches, whatever message that
    satisfies [message_ok] it receives next and whatever the persistence task replies, a round of
    the loop ends, and the loop itself ends only if the channel of the persistence task is closed.
    What [message_ok] assumes, of this message and of the ones before: the headers in messages do
    not collide in their hashes and their numbers are those of their hashes; an executed block that
    is handed in is numbered after its parent (it need not be valid); and a backfill starts only if
    it was asked for or no blocks are being saved.  The database may fail or change at any time,
    but the headers it returns do not collide either. *)
Theorem engine_progress e0 e msg e1 reply :
  started e0 → running e0 e → received e msg e1 →
  ∃ alive e2, run_once consensus validator db msg reply e1 = Done (alive, e2) ∧ (alive = false → reply = RecvClosed).
Proof.
  intros Hs He Hr. destruct (received_ok _ _ _ (running_ok _ _ Hs He) Hr) as (He1 & _ & Hm).
  destruct (wp_elim _ _ _ (run_once_ok msg reply e1 He1 Hm)) as (alive & e2 & Hrun & _ & Ha). by exists alive, e2.
Qed.

(** C11. Blocks enter the tree only after validation, or because they were handed in as executed: in
    every state the engine reaches, each block of the tree either satisfies the header rules on its
    own and after its known parent, matches its body, and was executed with receipts, requests and
    a state root as its header says; or it is one that an [InsertExecutedBlock] message vouched for
    ([trusted], an arbitrary predicate that these messages satisfy; the engine inserts such blocks
    unchecked).  Its number follows that of its parent.  The messages satisfy [message_ok]. *)
Theorem tree_blocks_validated e0 e h b :
  started e0 → running e0 e → blocks_by_hash (tree_state (state e)) !! h = Some b →
  eb_hash b = h ∧ (validated consensus b ∨ trusted b) ∧ eb_number b = hash_number (eb_parent_hash b) + 1.
Proof.
  intros Hs Hr Hb. pose proof (running_ok _ _ Hs Hr) as He. destruct (proj1 (eo_numbered _ _ _ He) _ _ Hb) as (H1' & H2' & _).
  split_and!; [by apply (to_hash _ (eo_tree _ _ _ He))|by apply (eo_validated _ _ _ He h)|lia].
Qed.

(** Saving blocks and backfill exclude each other: no reachable state has a backfill requested or
    running while a persistence task is at work. *)
Theorem backfill_excludes_persistence e0 e :
  started e0 → running e0 e → in_progress (persistence_state e) = true → backfill_sync_state e = Idle.
Proof.
  intros Hs Hr. pose proof (eo_exclusive _ _ _ (running_ok _ _ Hs Hr)) as Hx. unfold in_progress.
  destruct (rx (persistence_state e)); [|done]. intros _. destruct (backfill_sync_state e); [done|..]; by specialize (Hx ltac:(done)).
Qed.

Lemma path_elem_number t h l r b :
  numbered hash_number t → path eb_parent_hash (blocks_by_hash t) h l r → b ∈ l → eb_number b ≤ hash_number h.
Proof.
  intros [Hn _]. induction 1 as [|h x l r Hx Hp IH]; [by intros ?%elem_of_nil|].
  destruct (Hn _ _ Hx) as (N1 & N2 & _). intros [->|Hb]%elem_of_cons; [lia|]. specialize (IH Hb). lia.
Qed.

(** C2. What readers outside of the engine see is the canonical chain: in every state the engine
    reaches there is a chain of executed blocks from the canonical head back such that lookups by
    hash and by number find exactly its blocks, the head state is that of the canonical head with
    the chain below it, and the tracked head is the canonical one; and the chain is complete: every
    block of the tree on the canonical chain above the last persisted number is in it.  Hypotheses:
    the environment is [sound], that is the engine starts at or below the last persisted block, the
    persistence task does not report an older block than before, and from the end of a backfill on
    the database has the header of the block where it ended (without that header the engine clears
    the memory and keeps the old head); the messages satisfy [message_ok]. *)
Theorem memory_is_canonical e0 e :
  sound → started e0 → running e0 e →
  let t := tree_state (state e) in
  let m := cm_memory (canonical_in_memory_state e) in
  ∃ l r,
    path eb_parent_hash (blocks_by_hash t) (canonical_block_hash t) l r ∧
    (∀ l' r' b, path eb_parent_hash (blocks_by_hash t) (canonical_block_hash t) l' r' → b ∈ l' →
       last_persisted_block_number (persistence_state e) < eb_number b → b ∈ l) ∧
    (∀ h b, st_block <$> state_by_hash h m = Some b ↔ b ∈ l ∧ eb_hash b = h) ∧
    (∀ n h, hash_by_number n m = Some h ↔ ∃ b, b ∈ l ∧ eb_number b = n ∧ eb_hash b = h) ∧
    (match head_state m with Some s => st_block <$> state_chain s | None => [] end) = l ∧
    num_hash (ci_head (cm_tracker (canonical_in_memory_state e))) = current_canonical_head t.
Proof.
  intros Hsd Hs Hr t m. pose proof (running_ok _ _ Hs Hr) as He. destruct (eo_memory _ _ _ He) as (l & r & Hm & Hp & Hlow).
  pose proof (chainlike_path hash_rank hash_number _ _ _ _ (eo_tree _ _ _ He) (engine_linked _ _ _ He) (eo_numbered _ _ _ He) Hp) as Hc.
  destruct (chainlike_NoDup _ Hc) as [Hnd1 Hnd2]. exists l, r. split_and!; [done|..|apply He].
  - intros l' r' b Hp' Hb Hn. specialize (Hlow Hsd). destruct (path_compare _ _ _ _ _ _ _ Hp Hp') as [(rest & -> & Hrest)|(rest & -> & _)].
    + apply elem_of_app in Hb as [|Hb]; [done|]. pose proof (path_elem_number _ _ _ _ b (eo_numbered _ _ _ He) Hrest Hb). lia.
    + apply elem_of_app. by left.
  - intros h b. unfold state_by_hash, m. rewrite (proj1 Hm), fmap_Some. split.
    + intros (s & Hs' & ->). apply mem_blocks_Some in Hs' as (l1 & l2 & -> & <- & _); [|done]. split; [set_solver|done].
    + intros [Hin <-]. apply list_elem_of_split in Hin as (l1 & l2 & ->). exists (mkBlockState b (build l2)). split; [|done].
      apply mem_blocks_Some; [done|]. by exists l1, l2.
  - intros n h. unfold hash_by_number, m. rewrite (proj2 Hm). by apply mem_numbers_Some.
  - unfold m. rewrite (head_state_ok l) by done. destruct (build l) as [s|] eqn:Eb; [by apply build_chain|]. by destruct l.
Qed.


(** C10. Every forkchoice update is answered once, and the answer means what it says: VALID is only
    answered outside of backfill, when the head is the canonical head, is in the memory of the
    canonical chain or was read from the database, and names the head as the latest valid block;
    SYNCING means that a backfill is running or that the download of a missing block was requested
    as the last event.  The messages before satisfy [message_ok]. *)
Theorem forkchoice_answered e0 e st attrs :
  started e0 → running e0 e →
  ∃ r e', on_engine_message consensus validator db (EngineRequest (Beacon (ForkchoiceUpdated st attrs))) e = Done (tt, e') ∧
    responses e' = responses e ++ [ForkchoiceResponse r] ∧
    ∀ o, r = inr o → ∃ event,
      forkchoice_answer st (is_idle (backfill_sync_state e)) (mkTreeOutcome o event) e' ∧
      ∀ d, event = Some (DownloadEvent d) → last (outgoing e') = Some (EngineDownload d).
Proof.
  intros Hs Hr. destruct (wp_elim _ _ _ (on_forkchoice_message st attrs e (running_ok _ _ Hs Hr)))
    as ([] & e' & Hrun & _ & _ & _ & r & Hresp & Hans). by exists r, e'.
Qed.

(** C16. A forkchoice update moves the canonical head: outside of backfill, if the head is not below a
    block marked as invalid and is the canonical head or an executed block whose chain meets the
    canonical one and whose number is not smaller, it is canonical when the update is answered.  The
    messages before satisfy [message_ok]. *)
Theorem forkchoice_moves_head e0 e st attrs :
  started e0 → running e0 e →
  head_block_hash st ≠ 0 → backfill_sync_state e = Idle → not_rejected (head_block_hash st) e →
  reachable_head (head_block_hash st) e →
  ∃ r e', on_forkchoice_updated db st attrs e = Done (r, e') ∧
    canonical_block_hash (tree_state (state e')) = head_block_hash st ∧
    sh_hash (ci_head (cm_tracker (canonical_in_memory_state e'))) = head_block_hash st.
Proof.
  intros Hs Hr Hz Hi Hn Hre. destruct (wp_elim _ _ _ (forkchoice_moves st attrs e (running_ok _ _ Hs Hr) Hz Hi Hn Hre))
    as (r & e' & Hrun & Hh & He'). exists r, e'. split_and!; [done|done|]. pose proof (eo_head _ _ _ He') as Ht.
  apply (f_equal snd) in Ht. unfold canonical_block_hash in Hh. simpl in Ht. congruence.
Qed.

(** C33. The batch for the persistence task: in every reachable state it is computed without a panic,
    and it is the unbroken part of the canonical chain, the oldest block first, with the numbers
    above the last persisted one and up to the head less the configured number of blocks to keep;
    the canonical blocks above it are newer than that, and below it the tree has no canonical block
    that is not persisted.  The messages before satisfy [message_ok]. *)
Theorem persisted_batch e0 e :
  started e0 → running e0 e →
  let t := tree_state (state e) in
  let last := last_persisted_block_number (persistence_state e) in
  let target := Z.max 0 (canonical_block_number t - memory_block_buffer_target (config e)) in
  ∃ newer l r,
    get_canonical_blocks_to_persist e = Done (reverse l) ∧
    path eb_parent_hash (blocks_by_hash t) (canonical_block_hash t) (newer ++ l) r ∧
    Forall (λ b, target < eb_number b) newer ∧ Forall (λ b, last < eb_number b ≤ target) l ∧
    (∀ b, blocks_by_hash t !! r = Some b → eb_number b ≤ last).
Proof. intros Hs Hr. apply get_canonical_blocks_to_persist_spec. by apply (running_ok e0). Qed.
End steps.
