(* ===== verification/EngineExamples.v ===== *)
(** * A short run of the engine

    An engine with the consensus rules of Ethereum over a database that holds the genesis block only,
    an executor of empty blocks, and a chain of such blocks with a fork: the theorems about runs
    at concrete states, and behaviours that the documentation of the code does not expect. *)

From stdpp Require Import prelude gmap list strings.
From S2P Require Import Prelude.
From S2P Require Import Ord.
From S2P Require Import Forks.
From S2P Require Import Transaction.
From S2P Require Import Header.
From S2P Require Import Codecs.
From S2P Require Import Consensus.
From S2P Require Import ConsensusSteps.
From S2P Require Import Links.
From S2P Require Import Lru.
From S2P Require Import BlockBuffer.
From S2P Require Import TreeState.
From S2P Require Import InvalidHeaders.
From S2P Require Import InMemory.
From S2P Require Import EngineTypes.
From S2P Require Import PayloadValidator.
From S2P Require Import Engine.
From S2P Require Import EngineLogic.
From S2P Require Import EngineInv.
From S2P Require Import EngineSteps.

(** ** Blocks *)
(** Empty blocks 100 to 104, and the fork 202, 203 on top of 101. *)
Definition base_fee (n : Z) : Z :=
  match n with 0 => 1000 | 1 => 875 | 2 => 766 | 3 => 671 | _ => 588 end.
Definition sample_header (n parent timestamp : Z) : Header := Dev.dev_header n parent timestamp 30000000 0 (base_fee n).
Definition sample_hash (h : Header) : Z := (if h_timestamp h `mod` 10 =? 0 then 100 else 200) + h_number h.
Definition seal_header (h : Header) : SealedHeader := mkSealedHeader (sample_hash h) h.
Definition genesis : Header := sample_header 0 1 0.
Definition main_header (n : Z) : Header := sample_header n (99 + n) (10 * n).
Definition fork2 : Header := sample_header 2 101 25.
Definition fork3 : Header := sample_header 3 202 35.
Definition headers : list Header := [genesis; main_header 1; main_header 2; main_header 3; main_header 4; fork2; fork3].
Definition payload_of (h : Header) : Block := mkBlock h [] [] (Some []) None.

#[local] Existing Instances lru_list lru_list_laws in_key_order in_key_order_laws Dev.externals.
#[local] Instance sample_consensus : Consensus EthBeaconConsensus := eth_consensus 0.
#[local] Instance sample_links : ConsensusLinks EthBeaconConsensus := eth_links 0.
#[local] Instance sample_hashes : BlockHashes := {
  known h := h ∈ (seal_header <$> headers);
  hash_rank := Z.to_nat;
  hash_number h := h `mod` 100;
}.
Lemma all_known (P : SealedHeader → Prop) :
  P (seal_header genesis) → P (seal_header (main_header 1)) → P (seal_header (main_header 2)) →
  P (seal_header (main_header 3)) → P (seal_header (main_header 4)) → P (seal_header fork2) → P (seal_header fork3) →
  ∀ h, known h → P h.
Proof. intros ? ? ? ? ? ? ? h Hh. simpl in Hh. repeat (apply elem_of_cons in Hh as [->|Hh]; [done|]). by apply elem_of_nil in Hh. Qed.
Ltac each_known := match goal with |- ∀ h, known h → @?P h => apply (all_known P) end.
Lemma sample_hashes_laws : BlockHashesLaws.
Proof.
  split.
  - intros h1 h2 Hk1. revert h2. revert h1 Hk1. apply (all_known (λ h1, ∀ h2, known h2 → sh_hash h1 = sh_hash h2 → h1 = h2));
      each_known; by vm_compute.
  - each_known; vm_compute; lia.
  - each_known; by vm_compute.
Qed.
#[local] Existing Instance sample_hashes_laws.

(** ** The engine *)
#[local] Instance sample_execution : Execution := {
  HistoricalState := unit;
  execute _ _ _ _ := inr (mkExecutionOutput 0 [] [] 0);
  hashed_post_state x := x;
  hashed_state_root_with_updates _ _ := inr (0, 0);
  recover_signers _ := Some [];
}.
#[local] Instance sample_attributes : PayloadAttributes := {
  Attributes := Z;
  BuilderAttributes := Z * Z;
  attributes_timestamp a := a;
  builder_try_new head a := Some (head, a);
}.
#[local] Instance sample_payloads : Payloads := {
  ExecutionPayload := Block;
  payload_block_hash b := sample_hash (blk_header b);
  payload_parent_hash b := h_parent_hash (blk_header b);
  try_into_block b _ := inr b;
  hash_slow := sample_hash;
}.
Definition validator : ExecutionPayloadValidator := mkPayloadValidator Dev.spec.
(** The database has the genesis block at all times. *)
Definition database (_ : nat) : Database := mkDatabase _
  (λ h, inr (if h =? 100 then Some (payload_of genesis) else None))
  (λ h, inr (if h =? 100 then Some 0 else None))
  (λ n, inr (if n =? 0 then Some (seal_header genesis) else None))
  (λ h, inr (if h =? 100 then Some genesis else None))
  (λ _, inr tt).
Lemma database_laws : DatabaseLaws database.
Proof.
  assert (known (seal_header genesis)) as Hg by left.
  split; intros n h b; simpl.
  - destruct (Z.eqb_spec h 100) as [->|]; [|done]. by intros [= <-].
  - destruct (Z.eqb_spec h 100) as [->|]; [|done]. by intros [= <-].
  - destruct (Z.eqb_spec h 0) as [->|]; [|done]. by intros [= <-].
Qed.
#[local] Existing Instance database_laws.

(** Nobody hands in executed blocks or names bad ones, and saving keeps up. *)
#[local] Instance sample_environment : Environment := { trusted _ := False; unwound _ := False; sound := True }.

Definition engine0 : EngineApiTreeHandler :=
  EngineApiTreeHandler_new (seal_header genesis) (with_head (seal_header genesis) None) 0 TreeConfig_default.
Definition new_payload (h : Header) : FromEngine :=
  EngineRequest (Beacon (NewPayload (payload_of h) (Some (mkCancunFields 0 [])))).
Definition forkchoice (head : Z) : FromEngine := EngineRequest (Beacon (ForkchoiceUpdated (mkForkchoiceState head 0 0) None)).
Definition after (e : EngineApiTreeHandler) (msg : FromEngine) : EngineApiTreeHandler :=
  match run_once Dev.eth validator database (Some msg) RecvEmpty e with Done (_, e') => e' | _ => e end.

Lemma engine0_started : started engine0.
Proof.
  exists (seal_header genesis), (with_head (seal_header genesis) None), 0, TreeConfig_default. split_and!; try done. left.
Qed.
Lemma sample_message e msg :
  match msg with
  | EngineRequest (Beacon (NewPayload p c)) => ∃ h, h ∈ headers ∧ p = payload_of h
  | EngineRequest (Beacon (ForkchoiceUpdated _ _)) => True
  | _ => False
  end → message_ok validator database e msg.
Proof.
  destruct msg as [|[[p c| |]|]|]; try done. intros (h & Hh & ->) block Hb. unfold ensure_well_formed_payload in Hb. simpl in Hb.
  destruct (block_layout _ _ _ _); [done|]. injection Hb as <-. by apply (list_elem_of_fmap_2 seal_header).
Qed.
Definition run (msgs : list FromEngine) : EngineApiTreeHandler := foldl after engine0 msgs.
Lemma running_after e msg :
  running Dev.eth validator database engine0 e → message_ok validator database e msg →
  (∃ e', run_once Dev.eth validator database (Some msg) RecvEmpty e = Done (true, e')) →
  running Dev.eth validator database engine0 (after e msg).
Proof.
  intros He Hm [e' Hr]. apply (running_step _ _ _ _ e (Some msg) e RecvEmpty); [done|by apply received_message|by intros e1 _ _ h b|].
  unfold after. by rewrite Hr.
Qed.

(** ** Runs *)
Fixpoint runs_through (e : EngineApiTreeHandler) (msgs : list FromEngine) : bool :=
  match msgs with
  | [] => true
  | msg :: msgs =>
    match run_once Dev.eth validator database (Some msg) RecvEmpty e with
    | Done (true, e') => runs_through e' msgs
    | _ => false
    end
  end.
Lemma run_running e msgs :
  running Dev.eth validator database engine0 e → Forall (λ m, ∀ e, message_ok validator database e m) msgs →
  runs_through e msgs = true → running Dev.eth validator database engine0 (foldl after e msgs).
Proof.
  intros He Hm. revert e He. induction Hm as [|m msgs Hm Hms IH]; intros e He Hr; [done|]. simpl in *.
  destruct (run_once _ _ _ (Some m) RecvEmpty e) as [[[] e']| |] eqn:E; try done.
  assert (after e m = e') as Ha by (unfold after; by rewrite E). rewrite Ha. apply IH; [|done]. rewrite <-Ha.
  apply running_after; [done|done|by exists e'].
Qed.
Ltac sample_run :=
  apply run_running;
  [ apply running_start
  | repeat (apply Forall_cons; split;
      [intros e0; apply sample_message; first [exact I | eexists; split; [|reflexivity]; unfold headers; set_solver]|]); by apply Forall_nil
  | vm_compute; reflexivity ].

(** Two payloads, the first of them canonical. *)
Definition synced : EngineApiTreeHandler := run [new_payload (main_header 1); forkchoice 101; new_payload (main_header 2)].
Lemma synced_running : running Dev.eth validator database engine0 synced.
Proof. sample_run. Qed.
Example synced_state :
  current_canonical_head (tree_state (state synced)) = (1, 101) ∧
  responses synced =
    [PayloadResponse (inr (mkPayloadStatus StatusValid (Some 101)));
     ForkchoiceResponse (inr (valid (mkPayloadStatus StatusValid (Some 101))));
     PayloadResponse (inr (mkPayloadStatus StatusValid (Some 102)))].
Proof. vm_compute. done. Qed.
(** Four canonical blocks, two of which are being saved. *)
Definition busy : EngineApiTreeHandler :=
  run [new_payload (main_header 1); new_payload (main_header 2); new_payload (main_header 3); new_payload (main_header 4);
       forkchoice 104].
Lemma busy_running : running Dev.eth validator database engine0 busy.
Proof. sample_run. Qed.
Definition executed (h : Header) : ExecutedBlock :=
  mkExecutedBlock (seal_slow (payload_of h)) [] (mkExecutionOutcome 0 [] (h_number h) []) 0 0.
Example busy_state :
  rx (persistence_state busy) = Some [executed (main_header 1); executed (main_header 2)] ∧
  persistence busy = [[executed (main_header 1); executed (main_header 2)]].
Proof. vm_compute. done. Qed.

(** *** The theorems at these states *)
Lemma engine_progress_witness :
  ∃ alive e2, run_once Dev.eth validator database (Some (forkchoice 102)) (Received (Some 101)) synced = Done (alive, e2) ∧
    (alive = false → Received (Some 101) = RecvClosed).
Proof.
  apply (engine_progress Dev.eth validator database engine0 synced); [apply engine0_started|apply synced_running|].
  by apply received_message, sample_message.
Defined.
Lemma tree_blocks_validated_witness :
  eb_hash (executed (main_header 2)) = 102 ∧
  (validated Dev.eth (executed (main_header 2)) ∨ trusted (executed (main_header 2))) ∧
  eb_number (executed (main_header 2)) = hash_number (eb_parent_hash (executed (main_header 2))) + 1.
Proof.
  apply (tree_blocks_validated Dev.eth validator database engine0 synced); [apply engine0_started|apply synced_running|].
  vm_compute. reflexivity.
Defined.
Lemma backfill_excludes_persistence_witness : backfill_sync_state busy = Idle.
Proof.
  apply (backfill_excludes_persistence Dev.eth validator database engine0 busy); [apply engine0_started|apply busy_running|].
  vm_compute. reflexivity.
Defined.
Lemma memory_is_canonical_witness :
  ∃ l r,
    path eb_parent_hash (blocks_by_hash (tree_state (state busy))) (canonical_block_hash (tree_state (state busy))) l r ∧
    (∀ l' r' b, path eb_parent_hash (blocks_by_hash (tree_state (state busy))) (canonical_block_hash (tree_state (state busy))) l' r' →
       b ∈ l' → last_persisted_block_number (persistence_state busy) < eb_number b → b ∈ l) ∧
    (∀ h b, st_block <$> state_by_hash h (cm_memory (canonical_in_memory_state busy)) = Some b ↔ b ∈ l ∧ eb_hash b = h) ∧
    (∀ n h, hash_by_number n (cm_memory (canonical_in_memory_state busy)) = Some h ↔ ∃ b, b ∈ l ∧ eb_number b = n ∧ eb_hash b = h) ∧
    (match head_state (cm_memory (canonical_in_memory_state busy)) with Some s => st_block <$> state_chain s | None => [] end) = l ∧
    num_hash (ci_head (cm_tracker (canonical_in_memory_state busy))) = current_canonical_head (tree_state (state busy)).
Proof. apply (memory_is_canonical Dev.eth validator database engine0 busy); [exact I|apply engine0_started|apply busy_running]. Defined.
Lemma forkchoice_answered_witness :
  ∃ r e', on_engine_message Dev.eth validator database (forkchoice 102) synced = Done (tt, e') ∧
    responses e' = responses synced ++ [ForkchoiceResponse r] ∧
    ∀ o, r = inr o → ∃ event,
      forkchoice_answer database (mkForkchoiceState 102 0 0) (is_idle (backfill_sync_state synced)) (mkTreeOutcome o event) e' ∧
      ∀ d, event = Some (DownloadEvent d) → last (outgoing e') = Some (EngineDownload d).
Proof. apply (forkchoice_answered Dev.eth validator database engine0 synced); [apply engine0_started|apply synced_running]. Defined.
Lemma synced_shares : share_ancestor (tree_state (state synced)) 102.
Proof.
  exists 101, [executed (main_header 2)], []. split; [|constructor].
  apply (path_single eb_parent_hash _ 102 (executed (main_header 2))). vm_compute. reflexivity.
Qed.
Lemma forkchoice_moves_head_witness :
  ∃ r e', on_forkchoice_updated database (mkForkchoiceState 102 0 0) None synced = Done (r, e') ∧
    canonical_block_hash (tree_state (state e')) = 102 ∧
    sh_hash (ci_head (cm_tracker (canonical_in_memory_state e'))) = 102.
Proof.
  apply (forkchoice_moves_head Dev.eth validator database engine0 synced (mkForkchoiceState 102 0 0) None);
    [apply engine0_started|apply synced_running|done|vm_compute; reflexivity|intros l r _ _; by vm_compute|].
  right. split_and!; [eexists; vm_compute; reflexivity|by vm_compute|apply synced_shares].
Defined.
Lemma persisted_batch_witness :
  ∃ newer l r,
    get_canonical_blocks_to_persist busy = Done (reverse l) ∧
    path eb_parent_hash (blocks_by_hash (tree_state (state busy))) (canonical_block_hash (tree_state (state busy))) (newer ++ l) r ∧
    Forall (λ b, Z.max 0 (canonical_block_number (tree_state (state busy)) - memory_block_buffer_target (config busy)) < eb_number b) newer ∧
    Forall (λ b, last_persisted_block_number (persistence_state busy) < eb_number b ≤
                 Z.max 0 (canonical_block_number (tree_state (state busy)) - memory_block_buffer_target (config busy))) l ∧
    (∀ b, blocks_by_hash (tree_state (state busy)) !! r = Some b → eb_number b ≤ last_persisted_block_number (persistence_state busy)).
Proof. apply (persisted_batch Dev.eth validator database engine0 busy); [apply engine0_started|apply busy_running]. Defined.

Lemma on_new_head_ok_witness :
  ∃ res, on_new_head 102 (tree_state (state synced)) = Done res ∧
    (is_Some res ↔
     is_Some (blocks_by_hash (tree_state (state synced)) !! 102) ∧ canonical_block_number (tree_state (state synced)) ≤ hash_number 102 ∧
     share_ancestor (tree_state (state synced)) 102) ∧
    (∀ c, res = Some c → chain_update_ok (tree_state (state synced)) 102 c).
Proof.
  pose proof (running_ok Dev.eth validator database _ _ engine0_started synced_running) as He.
  apply (on_new_head_ok hash_rank hash_number); [by apply (engine_linked Dev.eth database)|apply He|by vm_compute].
Defined.

Definition buffered (h : Header) : SealedBlockWithSenders := mkBlockWithSenders (seal_slow (payload_of h)) [].
Definition buffer_ops : list BufferOp :=
  [InsertBlock (buffered fork2); InsertBlock (buffered fork3); InsertBlock (buffered (main_header 4)); RemoveOld 2;
   RemoveWithChildren 202].
Lemma buffer_run_exact_witness :
  ∃ b, for_each buffer_step buffer_ops (BlockBuffer_new 2) = Done b ∧
    Z.of_nat (size (bf_blocks b)) ≤ Z.max 1 2 ∧
    (∀ h block, bf_blocks b !! h = Some block → InsertBlock block ∈ buffer_ops ∧ bs_hash block = h) ∧
    index_ok bs_parent_hash (bf_blocks b) (parent_to_child b) ∧
    index_ok bs_number (bf_blocks b) (earliest_blocks b) ∧
    (∀ h, ∃ o, lowest_ancestor h b = Done o).
Proof.
  apply (buffer_run_exact 2 buffer_ops); [lia|]. intros block Hb. unfold buffer_ops in Hb.
  repeat (apply elem_of_cons in Hb as [Hb|Hb]; [try done; injection Hb as ->; simpl; unfold headers; set_solver|]).
  by apply elem_of_nil in Hb.
Defined.

(** ** Behaviours *)

(** A block on top of the canonical head is reported as part of a fork if the head itself is in the
    database and not in the tree. *)
Example first_block_reported_as_fork :
  outgoing (run [new_payload (main_header 1)]) = [BeaconConsensusEvent (EvForkBlockAdded (seal_slow (payload_of (main_header 1))))].
Proof. vm_compute. reflexivity. Qed.
(** The payload of the block that a forkchoice update waits for is answered VALID, with the event to
    make it canonical; the event is dropped and the head stays where it was. *)
Definition waiting : EngineApiTreeHandler := run [forkchoice 102; new_payload (main_header 1)].
Example sync_target_not_made_canonical :
  match on_new_payload Dev.eth validator database (payload_of (main_header 2)) (Some (mkCancunFields 0 [])) waiting with
  | Done (inr o, _) => to_event o = Some (TreeActionEvent (MakeCanonical 102))
  | _ => False
  end ∧
  current_canonical_head (tree_state (state (after waiting (new_payload (main_header 2))))) = (0, 100).
Proof. vm_compute. done. Qed.
(** An update to an executed head below the canonical one is answered SYNCING, with the request to
    download that very block. *)
Example lower_head_not_followed :
  let e := run [new_payload (main_header 1); new_payload (main_header 2); new_payload (main_header 3); forkchoice 103;
                new_payload fork2; forkchoice 202] in
  is_Some (blocks_by_hash (tree_state (state e)) !! 202) ∧
  last (responses e) = Some (ForkchoiceResponse (inr syncing)) ∧ last (outgoing e) = Some (EngineDownload (single_block 202)).
Proof. vm_compute. split_and!; [by eexists|done|done]. Qed.
(** A backfill ends at a height whose header cannot be read, because it is missing or because the
    database fails: the blocks and the memory of the canonical chain are dropped, and the head stays
    at a block that is neither in the tree nor in the memory nor, here, in the database. *)
Definition without_header : EngineApiTreeHandler := after synced (EngineEvent (BackfillSyncFinished (Continue 2))).
Example head_left_behind :
  st_block <$> state_by_hash 101 (cm_memory (canonical_in_memory_state synced)) ≠ None ∧
  state_by_hash 101 (cm_memory (canonical_in_memory_state without_header)) = None ∧
  blocks_by_hash (tree_state (state without_header)) !! 101 = None ∧
  current_canonical_head (tree_state (state without_header)) = (1, 101) ∧
  db_block_by_hash (database 0) 101 = inr None.
Proof. vm_compute. by split_and!. Qed.
