(* ===== verification/Revm.v ===== *)
(** * The virtual machine and its environments

    How the node sets up [revm]: the environment of a transaction
    ([primitives/src/transaction/compat.rs]), of a block ([evm/src/lib.rs]) and the rules in
    force ([optimism/evm/src/config.rs], [optimism/evm/src/lib.rs]), and the call into the
    contract of the beacon roots ([evm/src/system_calls.rs]).

    [revm] is a library: its state with its cache and the execution of a transaction are the
    class [EvmState], and what the node relies on are the laws [EvmStateLaws], stated up to an
    equivalence of states that differ in what their caches hold only. *)

From stdpp Require Import prelude gmap list strings.
From S2P Require Import Prelude.
From S2P Require Import Forks.
From S2P Require Import Transaction.
From S2P Require Import Header.
From S2P Require Import Codecs.
From S2P Require Import Consensus.
From S2P Require Import EngineTypes.

(** A call that may fail, as [?] does: the error is converted. *)
Definition try_ {E E' A B} `{Into E E'} (r : E + A) (k : A → E' + B) : E' + B :=
  match r with inl e => inl (into e) | inr x => k x end.
Notation "x ←! r ; k" := (try_ r (λ x, k)) (at level 20, r at level 100, k at level 200, only parsing).
Notation "' x ←! r ; k" := (try_ r (λ x, k)) (at level 20, x pattern, r at level 100, k at level 200, only parsing).
(** [map_err] in front of [?]. *)
Definition map_err {E E' A} (f : E → E') (r : E + A) : E' + A := match r with inl e => inl (f e) | inr x => inr x end.

(** ** Rules *)
Module Spec.
Inductive SpecId :=
| FRONTIER | HOMESTEAD | TANGERINE | SPURIOUS_DRAGON | BYZANTIUM | PETERSBURG | ISTANBUL | BERLIN | LONDON | MERGE
| SHANGHAI | CANCUN | PRAGUE | BEDROCK | REGOLITH | CANYON | ECOTONE | FJORD | GRANITE.
End Spec.
Notation SpecId := Spec.SpecId.

(** What execution uses of [ChainSpec]. *)
Record OpChainSpec := mkOpChainSpec {
  oc_chain_id : Z;
  oc_chain_is_optimism : bool;
  oc_max_gas_limit : Z;
  oc_spec : ConsensusSpec;
}.
Definition oc_hardforks (s : OpChainSpec) : ChainHardforks := es_hardforks (oc_spec s).
Definition is_optimism (s : OpChainSpec) : bool :=
  oc_chain_is_optimism s || bool_decide (is_Some (hf_get "Bedrock" (oc_hardforks s))).
Definition fork_at (fork : string) (timestamp : Z) (s : OpChainSpec) : bool :=
  is_fork_active_at_timestamp fork timestamp (oc_hardforks s).

(** The first fork of a list that is active. *)
Fixpoint first_active (active : string → bool) (l : list (string * SpecId)) : option SpecId :=
  match l with
  | [] => None
  | (fork, spec) :: l => if active fork then Some spec else first_active active l
  end.
Definition OP_FORKS : list (string * SpecId) :=
  [("Granite", Spec.GRANITE); ("Fjord", Spec.FJORD); ("Ecotone", Spec.ECOTONE); ("Canyon", Spec.CANYON);
   ("Regolith", Spec.REGOLITH)].
Definition ETH_FORKS : list (string * SpecId) :=
  [("Bedrock", Spec.BEDROCK); ("Prague", Spec.PRAGUE); ("Cancun", Spec.CANCUN); ("Shanghai", Spec.SHANGHAI);
   ("Paris", Spec.MERGE); ("London", Spec.LONDON); ("Berlin", Spec.BERLIN); ("Istanbul", Spec.ISTANBUL);
   ("Petersburg", Spec.PETERSBURG); ("Byzantium", Spec.BYZANTIUM); ("SpuriousDragon", Spec.SPURIOUS_DRAGON);
   ("Tangerine", Spec.TANGERINE); ("Homestead", Spec.HOMESTEAD); ("Frontier", Spec.FRONTIER)].

Definition revm_spec_by_timestamp_after_bedrock (s : OpChainSpec) (timestamp : Z) : SpecId :=
  default Spec.BEDROCK (first_active (λ fork, active_at_timestamp (hf_fork fork (oc_hardforks s)) timestamp) OP_FORKS).
(** The panic of a chain without any active fork is [Panics]. *)
Definition revm_spec (s : OpChainSpec) (block : Head) : outcome SpecId :=
  match first_active (λ fork, active_at_head (hf_fork fork (oc_hardforks s)) block) (OP_FORKS ++ ETH_FORKS) with
  | Some spec => Done spec
  | None => Panics
  end.

(** ** Environments *)
Inductive AnalysisKind := Raw | Analyse.
Record CfgEnv := mkCfgEnv { cfg_chain_id : Z; cfg_analysis : AnalysisKind; cfg_spec_id : SpecId; cfg_is_optimism : bool }.
(** The excess blob gas stands for itself and the price that follows from it. *)
Record BlockEnv := mkBlockEnv {
  be_number : Z;
  be_coinbase : Z;
  be_timestamp : Z;
  be_gas_limit : Z;
  be_basefee : Z;
  be_difficulty : Z;
  be_prevrandao : option Z;
  be_blob_excess_gas : option Z;
}.
Record OptimismFields := mkOptimismFields {
  of_source_hash : option Z;
  of_mint : option Z;
  of_is_system_transaction : option bool;
  of_enveloped_tx : option (list Z);
}.
Record TxEnv := mkTxEnv {
  te_caller : Z;
  te_gas_limit : Z;
  te_gas_price : Z;
  te_gas_priority_fee : option Z;
  te_transact_to : TxKind;
  te_value : Z;
  te_data : list Z;
  te_chain_id : option Z;
  te_nonce : option Z;
  te_access_list : AccessList;
  te_blob_hashes : list Z;
  te_max_fee_per_blob_gas : option Z;
  te_authorization_list : option (list SignedAuthorization);
  te_optimism : OptimismFields;
}.
Record Env := mkEnv { env_cfg : CfgEnv; env_block : BlockEnv; env_tx : TxEnv }.

(** ** The interface of the virtual machine *)
Inductive InvalidTx := NonceTooLow | OtherInvalidTx (code : Z).
Inductive EVMError :=
| EvmTransaction (e : InvalidTx)
| EvmHeader (code : Z)
| EvmDatabase (e : ProviderError)
| EvmCustom (code : Z)
| EvmPrecompile (code : Z).
Record ExecutionResult := mkExecutionResult { er_success : bool; er_gas_used : Z; er_logs : list Log }.
(** [OptimismBlockExecutionError] ([optimism/evm/src/error.rs]). *)
Inductive OptimismBlockExecutionError :=
| L1BlockInfoError (message : string)
| ForceCreate2DeployerFail
| BlobTransactionRejected
| AccountLoadFailed (address : Z).
Inductive BundleRetention := PlainState | Reverts.

Class EvmState := {
  Db : Type;
  StateProvider : Type;
  EvmAccount : Type;
  AccountInfo : Type;
  AccountInfo_default : AccountInfo;
  ai_nonce : AccountInfo → Z;
  with_code : Z → list Z → AccountInfo → AccountInfo;
  touched : AccountInfo → EvmAccount;
  (** A new state; the flag of state clearing; reading and writing accounts. *)
  build_state : StateProvider → bool → Db;
  set_state_clear_flag : bool → Db → Db;
  load_cache_account : Z → Db → ProviderError + (option AccountInfo * Db);
  commit : gmap Z EvmAccount → Db → Db;
  increment_balances : gmap Z Z → Db → ProviderError + Db;
  (** Running a transaction: the result with the changes, which are not yet committed. *)
  transact : Env → Db → (EVMError + (ExecutionResult * gmap Z EvmAccount)) * Db;
  (** [merge_transitions] followed by [take_bundle]. *)
  take_bundle : BundleRetention → Db → Z;
  TxEnv_default : TxEnv;
  BlockEnv_default : BlockEnv;
  CfgEnv_default : CfgEnv;
  (** [a >= b] on the rules. *)
  spec_at_least : SpecId → SpecId → bool;
  encode_enveloped : TransactionSignedEcRecovered → list Z;
  error_code : EVMError → Z;
  op_error_code : OptimismBlockExecutionError → Z;
  SYSTEM_ADDRESS : Z;
  BEACON_ROOTS_ADDRESS : Z;
}.

Section model.
Context `{EvmState}.

(** ** The environment of a transaction *)

(** [FillTxEnv::fill_tx_env]; the fields in the order of the record. *)
Definition fill_tx_env (e : TxEnv) (t : TransactionSignedEcRecovered) (sender : Z) : TxEnv :=
  let envelope := encode_enveloped t in
  let optimism := mkOptimismFields None None (Some false) (Some envelope) in
  match ec_transaction t with
  | Tx.Legacy tx =>
    mkTxEnv sender (Tx.lg_gas_limit tx) (Tx.lg_gas_price tx) None (Tx.lg_to tx) (Tx.lg_value tx) (Tx.lg_input tx)
      (Tx.lg_chain_id tx) (Some (Tx.lg_nonce tx)) [] [] None None optimism
  | Tx.Eip2930 tx =>
    mkTxEnv sender (Tx.al_gas_limit tx) (Tx.al_gas_price tx) None (Tx.al_to tx) (Tx.al_value tx) (Tx.al_input tx)
      (Some (Tx.al_chain_id tx)) (Some (Tx.al_nonce tx)) (Tx.al_access_list tx) [] None None optimism
  | Tx.Eip1559 tx =>
    mkTxEnv sender (Tx.df_gas_limit tx) (Tx.df_max_fee_per_gas tx) (Some (Tx.df_max_priority_fee_per_gas tx))
      (Tx.df_to tx) (Tx.df_value tx) (Tx.df_input tx) (Some (Tx.df_chain_id tx)) (Some (Tx.df_nonce tx))
      (Tx.df_access_list tx) [] None None optimism
  | Tx.Eip4844 tx =>
    mkTxEnv sender (Tx.bl_gas_limit tx) (Tx.bl_max_fee_per_gas tx) (Some (Tx.bl_max_priority_fee_per_gas tx))
      (CallTo (Tx.bl_to tx)) (Tx.bl_value tx) (Tx.bl_input tx) (Some (Tx.bl_chain_id tx)) (Some (Tx.bl_nonce tx))
      (Tx.bl_access_list tx) (Tx.bl_blob_versioned_hashes tx) (Some (Tx.bl_max_fee_per_blob_gas tx)) None optimism
  | Tx.Eip7702 tx =>
    mkTxEnv sender (Tx.sc_gas_limit tx) (Tx.sc_max_fee_per_gas tx) (Some (Tx.sc_max_priority_fee_per_gas tx))
      (Tx.sc_to tx) (Tx.sc_value tx) (Tx.sc_input tx) (Some (Tx.sc_chain_id tx)) (Some (Tx.sc_nonce tx))
      (Tx.sc_access_list tx) [] None (Some (Tx.sc_authorization_list tx)) optimism
  | Tx.Deposit tx =>
    mkTxEnv sender (Tx.dp_gas_limit tx) 0 None (Tx.dp_to tx) (Tx.dp_value tx) (Tx.dp_input tx) None None []
      (te_blob_hashes e) (te_max_fee_per_blob_gas e) None
      (mkOptimismFields (Some (Tx.dp_source_hash tx)) (Tx.dp_mint tx) (Some (Tx.dp_is_system_transaction tx)) (Some envelope))
  end.
(** [ConfigureEvmEnv::tx_env]. *)
Definition tx_env (t : TransactionSignedEcRecovered) : TxEnv := fill_tx_env TxEnv_default t (ec_signer t).

(** ** The environment of a block *)
Definition fill_block_env (e : BlockEnv) (h : Header) (after_merge : bool) : BlockEnv :=
  mkBlockEnv (h_number h) (h_beneficiary h) (h_timestamp h) (h_gas_limit h) (default 0 (h_base_fee_per_gas h))
    (if after_merge then 0 else h_difficulty h) (if after_merge then Some (h_mix_hash h) else None)
    (match h_excess_blob_gas h with Some excess_blob_gas => Some excess_blob_gas | None => be_blob_excess_gas e end).
Definition fill_cfg_env (s : OpChainSpec) (h : Header) (total_difficulty : Z) : outcome CfgEnv :=
  spec_id ← revm_spec s (mkHead (h_number h) 0 (h_difficulty h) total_difficulty (h_timestamp h));
  Done (mkCfgEnv (oc_chain_id s) Analyse spec_id (is_optimism s)).
Definition fill_cfg_and_block_env (s : OpChainSpec) (h : Header) (total_difficulty : Z) : outcome (CfgEnv * BlockEnv) :=
  cfg ← fill_cfg_env s h total_difficulty;
  Done (cfg, fill_block_env BlockEnv_default h (spec_at_least (cfg_spec_id cfg) Spec.MERGE)).

(** ** System calls *)
Definition fill_tx_env_system_contract_call (e : Env) (caller contract : Z) (data : list Z) : Env :=
  let tx :=
    mkTxEnv caller 30000000 0 None (CallTo contract) 0 data None None [] [] None None
      (mkOptimismFields None None (Some false) (Some [])) in
  let b := env_block e in
  mkEnv (env_cfg e)
    (mkBlockEnv (be_number b) (be_coinbase b) (be_timestamp b) 30000000 0 (be_difficulty b) (be_prevrandao b)
       (be_blob_excess_gas b)) tx.

(** The conversions of errors; the boxed one of the OP stack is a number. *)
#[export] Instance op_error_into : Into OptimismBlockExecutionError BlockExecutionError :=
  λ e, ExecutionInternal (OtherExecutionError (op_error_code e)).
#[export] Instance validation_into : Into BlockValidationError BlockExecutionError := ExecutionValidation.

(** The environment is restored afterwards, so that only the state is returned. *)
Definition apply_beacon_root_contract_call (s : OpChainSpec) (block_timestamp block_number : Z)
  (parent_beacon_block_root : option Z) (e : Env) (db : Db) : BlockExecutionError + Db :=
  if negb (is_cancun_active_at_timestamp block_timestamp (oc_hardforks s)) then inr db
  else
    match parent_beacon_block_root with
    | None => inl (into MissingParentBeaconBlockRoot)
    | Some parent_beacon_block_root =>
      if block_number =? 0 then
        if negb (parent_beacon_block_root =? 0)
        then inl (into (CancunGenesisParentBeaconBlockRootNotZero parent_beacon_block_root))
        else inr db
      else
        let e := fill_tx_env_system_contract_call e SYSTEM_ADDRESS BEACON_ROOTS_ADDRESS
                   (Compact.to_be_bytes 32 parent_beacon_block_root) in
        match transact e db with
        | (inl err, _) => inl (into (BeaconRootContractCall parent_beacon_block_root (error_code err)))
        | (inr (_, state), db) => inr (commit (delete (be_coinbase (env_block e)) (delete SYSTEM_ADDRESS state)) db)
        end
    end.
(** A virtual machine with the given environment for that call. *)
Definition pre_block_beacon_root_contract_call (s : OpChainSpec) (cfg : CfgEnv) (b : BlockEnv)
  (block_number block_timestamp : Z) (parent_beacon_block_root : option Z) (db : Db) : BlockExecutionError + Db :=
  apply_beacon_root_contract_call s block_timestamp block_number parent_beacon_block_root (mkEnv cfg b TxEnv_default) db.
End model.

(** ** Laws *)

(** Results with the same error, or related values. *)
Definition same_result {E A} (R : A → A → Prop) (r r' : E + A) : Prop :=
  match r, r' with inl e, inl e' => e = e' | inr a, inr a' => R a a' | _, _ => False end.

(** States that differ in their caches are equivalent.  A transaction that is run leaves the
    state as it is until the changes are committed, uses no more gas than its limit and, unless
    it is a deposit, pays the base fee;
    loading an account changes nothing; an empty set of increments neither.  The rules of the OP
    stack come after the merge, and those from Ecotone on after Cancun. *)
Class EvmStateLaws `{EvmState} := {
  db_equiv :: Equiv Db;
  db_equivalence :: Equivalence (≡@{Db});
  commit_proper c :: Proper ((≡) ==> (≡)) (commit c);
  transact_proper e db db' : db ≡ db' → (transact e db).1 = (transact e db').1;
  transact_state e db : (transact e db).2 ≡ db;
  transact_gas e db r c db' : transact e db = (inr (r, c), db') → 0 ≤ er_gas_used r ≤ te_gas_limit (env_tx e);
  transact_fee e db r c db' :
    transact e db = (inr (r, c), db') → of_source_hash (te_optimism (env_tx e)) = None → be_basefee (env_block e) ≤ te_gas_price (env_tx e);
  load_proper a db db' : db ≡ db' → same_result (λ x y, x.1 = y.1 ∧ x.2 ≡ y.2) (load_cache_account a db) (load_cache_account a db');
  load_state a db x db' : load_cache_account a db = inr (x, db') → db' ≡ db;
  increment_proper m db db' : db ≡ db' → same_result (≡) (increment_balances m db) (increment_balances m db');
  increment_empty db : ∃ db', increment_balances ∅ db = inr db' ∧ db' ≡ db;
  build_clear sp b : set_state_clear_flag true (build_state sp b) ≡ build_state sp true;
  bundle_proper r :: Proper ((≡) ==> (=)) (take_bundle r);
  default_tx_env : te_blob_hashes TxEnv_default = [] ∧ te_max_fee_per_blob_gas TxEnv_default = None;
  default_analysis : cfg_analysis CfgEnv_default = Analyse;
  spec_merge spec : spec ∈ Spec.BEDROCK :: OP_FORKS.*2 → spec_at_least spec Spec.MERGE = true;
  spec_cancun spec : spec ∈ [Spec.ECOTONE; Spec.FJORD; Spec.GRANITE] → spec_at_least spec Spec.CANCUN = true;
}.

Section laws.
Context `{EvmState} `{!EvmStateLaws}.

Lemma same_result_inr {E A} (R : A → A → Prop) (r r' : E + A) a :
  same_result R r r' → r = inr a → ∃ a', r' = inr a' ∧ R a a'.
Proof. intros Hs ->. destruct r' as [|a']; [done|]. by exists a'. Qed.

(** A transaction environment without blobs is filled anew for every transaction that has
    none either. *)
Definition no_blobs (e : TxEnv) : Prop := te_blob_hashes e = [] ∧ te_max_fee_per_blob_gas e = None.
Lemma fill_tx_env_fresh e t sender :
  no_blobs e → (∀ tx, ec_transaction t ≠ Tx.Eip4844 tx) → fill_tx_env e t sender = fill_tx_env TxEnv_default t sender ∧ no_blobs (fill_tx_env e t sender).
Proof.
  intros [H1 H2] Ht. destruct default_tx_env as [D1 D2]. unfold fill_tx_env, no_blobs.
  destruct (ec_transaction t); try (split; [done|by split]); [by destruct (Ht tx)|]. simpl. by rewrite H1, H2, D1, D2.
Qed.

Lemma beacon_call_proper s ts n root e db db' :
  db ≡ db' → same_result (≡) (apply_beacon_root_contract_call s ts n root e db) (apply_beacon_root_contract_call s ts n root e db').
Proof.
  intros Hdb. unfold apply_beacon_root_contract_call. destruct (negb _); [done|]. destruct root as [root|]; [|done].
  destruct (n =? 0); [by destruct (negb _)|]. set (e' := fill_tx_env_system_contract_call _ _ _ _).
  pose proof (transact_proper e' _ _ Hdb) as Hr. pose proof (transact_state e' db) as H1. pose proof (transact_state e' db') as H2.
  destruct (transact e' db) as [r d], (transact e' db') as [r' d']. simpl in *. subst r'. destruct r as [err|[res c]]; [done|].
  simpl. apply commit_proper. by rewrite H1, H2.
Qed.
End laws.
