(* ===== verification/L1Info.v ===== *)
(** * L1 fees and the Canyon transition

    [optimism/evm/src/l1.rs]: the fee parameters of the L1 chain, which the first transaction
    of an L2 block carries in its call data, the L1 fee of a transaction, and the contract that
    is deployed at the transition to Canyon.

    The formulas of the fee are those of [revm] and parameters here; [L1BlockInfo] is its
    record.  [U256::try_from_be_slice] reads a number from its bytes, the most significant one
    first. *)

From stdpp Require Import prelude gmap list strings.
From Stdlib Require Import Ascii.
From S2P Require Import Prelude.
From S2P Require Import Forks.
From S2P Require Import Transaction.
From S2P Require Import Header.
From S2P Require Import Compact.
From S2P Require Import Consensus.
From S2P Require Import EngineTypes.
From S2P Require Import PayloadValidator.
From S2P Require Import Revm.

(** ** Constants *)
Definition hex_digit (c : ascii) : Z :=
  let n := Z.of_N (N_of_ascii c) in if n <? 58 then n - 48 else n - 87.
Fixpoint unhex (s : string) : list Z :=
  match s with
  | String a (String b s) => 16 * hex_digit a + hex_digit b :: unhex s
  | _ => []
  end.
Definition CREATE_2_DEPLOYER_ADDR : Z := 0x13b0D85CcB8bf860b6b79AF3029fCA081AE9beF2.
Definition CREATE_2_DEPLOYER_CODEHASH : Z := 0xb0550b5b431e30d38000efb7107aaa0ade03d48a7198a140edda9d27134468b2.
Definition CREATE_2_DEPLOYER_BYTECODE : list Z :=
  unhex "6080604052600436106100435760003560e01c8063076c37b21461004f578063481286e61461007157806356299481146100ba57806366cfa057146100da57600080fd5b3661004a57005b600080fd5b34801561005b57600080fd5b5061006f61006a366004610327565b6100fa565b005b34801561007d57600080fd5b5061009161008c366004610327565b61014a565b60405173ffffffffffffffffffffffffffffffffffffffff909116815260200160405180910390f35b3480156100c657600080fd5b506100916100d5366004610349565b61015d565b3480156100e657600080fd5b5061006f6100f53660046103ca565b610172565b61014582826040518060200161010f9061031a565b7fffffffffffffffffffffffffffffffffffffffffffffffffffffffffffffffe082820381018352601f90910116604052610183565b505050565b600061015683836102e7565b9392505050565b600061016a8484846102f0565b949350505050565b61017d838383610183565b50505050565b6000834710156101f4576040517f08c379a000000000000000000000000000000000000000000000000000000000815260206004820152601d60248201527f437265617465323a20696e73756666696369656e742062616c616e636500000060448201526064015b60405180910390fd5b815160000361025f576040517f08c379a000000000000000000000000000000000000000000000000000000000815260206004820181905260248201527f437265617465323a2062797465636f6465206c656e677468206973207a65726f60448201526064016101eb565b8282516020840186f5905073ffffffffffffffffffffffffffffffffffffffff8116610156576040517f08c379a000000000000000000000000000000000000000000000000000000000815260206004820152601960248201527f437265617465323a204661696c6564206f6e206465706c6f790000000000000060448201526064016101eb565b60006101568383305b6000604051836040820152846020820152828152600b8101905060ff815360559020949350505050565b61014e806104ad83390190565b6000806040838503121561033a57600080fd5b50508035926020909101359150565b60008060006060848603121561035e57600080fd5b8335925060208401359150604084013573ffffffffffffffffffffffffffffffffffffffff8116811461039057600080fd5b809150509250925092565b7f4e487b7100000000000000000000000000000000000000000000000000000000600052604160045260246000fd5b6000806000606084860312156103df57600080fd5b8335925060208401359150604084013567ffffffffffffffff8082111561040557600080fd5b818601915086601f83011261041957600080fd5b81358181111561042b5761042b61039b565b604051601f82017fffffffffffffffffffffffffffffffffffffffffffffffffffffffffffffffe0908116603f011681019083821181831017156104715761047161039b565b8160405282815289602084870101111561048a57600080fd5b826020860160208301376000602084830101528095505050505050925092509256fe608060405234801561001057600080fd5b5061012e806100206000396000f3fe6080604052348015600f57600080fd5b506004361060285760003560e01c8063249cb3fa14602d575b600080fd5b603c603836600460b1565b604e565b60405190815260200160405180910390f35b60008281526020818152604080832073ffffffffffffffffffffffffffffffffffffffff8516845290915281205460ff16608857600060aa565b7fa2ef4600d742022d532d4747cb3547474667d6f13804902513b2ec01c848f4b45b9392505050565b6000806040838503121560c357600080fd5b82359150602083013573ffffffffffffffffffffffffffffffffffffffff8116811460ed57600080fd5b80915050925092905056fea26469706673582212205ffd4e6cede7d06a5daf93d48d0541fc68189eeb16608c1999a82063b666eb1164736f6c63430008130033a2646970667358221220fdc4a0fe96e3b21c108ca155438d37c9143fb01278a3c1d274948bad89c564ba64736f6c63430008130033".
Definition L1_BLOCK_ECOTONE_SELECTOR : list Z := unhex "440a5e20".

(** ** The fee parameters of a block *)
Record L1BlockInfo := mkL1BlockInfo {
  l1_base_fee : Z;
  l1_fee_overhead : option Z;
  l1_base_fee_scalar : Z;
  l1_blob_base_fee : option Z;
  l1_blob_base_fee_scalar : option Z;
}.
Definition L1BlockInfo_default : L1BlockInfo := mkL1BlockInfo 0 None 0 None None.

Definition slice (a b : nat) (data : list Z) : list Z := take (b - a) (drop a data).
Definition try_from_be_slice (bytes : list Z) : option Z :=
  let x := from_be_bytes bytes in if x <? U256 then Some x else None.
Definition read_u256 (bytes : list Z) (message : string) : OptimismBlockExecutionError + Z :=
  match try_from_be_slice bytes with Some x => inr x | None => inl (L1BlockInfoError message) end.

Definition parse_l1_info_tx_bedrock (data : list Z) : OptimismBlockExecutionError + L1BlockInfo :=
  if negb (Z.of_nat (length data) =? 256) then inl (L1BlockInfoError "unexpected l1 block info tx calldata length found")
  else
    l1_base_fee ←! read_u256 (slice 64 96 data) "could not convert l1 base fee";
    l1_fee_overhead ←! read_u256 (slice 192 224 data) "could not convert l1 fee overhead";
    l1_fee_scalar ←! read_u256 (slice 224 256 data) "could not convert l1 fee scalar";
    inr (mkL1BlockInfo l1_base_fee (Some l1_fee_overhead) l1_fee_scalar None None).
Definition parse_l1_info_tx_ecotone (data : list Z) : OptimismBlockExecutionError + L1BlockInfo :=
  if negb (Z.of_nat (length data) =? 160) then inl (L1BlockInfoError "unexpected l1 block info tx calldata length found")
  else
    l1_blob_base_fee_scalar ←! read_u256 (slice 8 12 data) "could not convert l1 blob base fee scalar";
    l1_base_fee_scalar ←! read_u256 (slice 12 16 data) "could not convert l1 base fee scalar";
    l1_base_fee ←! read_u256 (slice 32 64 data) "could not convert l1 blob base fee";
    l1_blob_base_fee ←! read_u256 (slice 64 96 data) "could not convert l1 blob base fee";
    inr (mkL1BlockInfo l1_base_fee None l1_base_fee_scalar (Some l1_blob_base_fee) (Some l1_blob_base_fee_scalar)).
Definition extract_l1_info (block : Block) : OptimismBlockExecutionError + L1BlockInfo :=
  match blk_body block with
  | [] => inl (L1BlockInfoError "could not find l1 block info tx in the L2 block")
  | tx :: _ =>
    let l1_info_tx_data := Tx.input (ec_transaction tx) in
    if Z.of_nat (length l1_info_tx_data) <? 4
    then inl (L1BlockInfoError "invalid l1 block info transaction calldata in the L2 block")
    else if bool_decide (take 4 l1_info_tx_data = L1_BLOCK_ECOTONE_SELECTOR)
    then parse_l1_info_tx_ecotone (drop 4 l1_info_tx_data)
    else parse_l1_info_tx_bedrock (drop 4 l1_info_tx_data)
  end.

(** ** The fee of a transaction *)
Class L1Fees := {
  calculate_tx_l1_cost : L1BlockInfo → list Z → SpecId → Z;
  data_gas : L1BlockInfo → list Z → SpecId → Z;
}.

Section fees.
Context `{EvmState} `{L1Fees}.

Definition forks_inactive : OptimismBlockExecutionError := L1BlockInfoError "Optimism hardforks are not active".
Definition l1_tx_data_fee (info : L1BlockInfo) (forks : ChainHardforks) (timestamp : Z) (input : list Z) (is_deposit : bool)
  : BlockExecutionError + Z :=
  if is_deposit then inr 0
  else
    spec_id ←!
      (if is_fork_active_at_timestamp "Fjord" timestamp forks then inr Spec.FJORD
       else if is_fork_active_at_timestamp "Ecotone" timestamp forks then inr Spec.ECOTONE
       else if is_fork_active_at_timestamp "Regolith" timestamp forks then inr Spec.REGOLITH
       else if is_fork_active_at_timestamp "Bedrock" timestamp forks then inr Spec.BEDROCK
       else inl forks_inactive);
    inr (calculate_tx_l1_cost info input spec_id).
Definition l1_data_gas (info : L1BlockInfo) (forks : ChainHardforks) (timestamp : Z) (input : list Z) : BlockExecutionError + Z :=
  spec_id ←!
    (if is_fork_active_at_timestamp "Fjord" timestamp forks then inr Spec.FJORD
     else if is_fork_active_at_timestamp "Regolith" timestamp forks then inr Spec.REGOLITH
     else if is_fork_active_at_timestamp "Bedrock" timestamp forks then inr Spec.BEDROCK
     else inl forks_inactive);
  inr (data_gas info input spec_id).
End fees.

(** ** The Canyon transition *)
Section create2.
Context `{EvmState}.

Definition at_canyon_transition (s : OpChainSpec) (timestamp : Z) : bool :=
  fork_at "Canyon" timestamp s && negb (fork_at "Canyon" (Z.max 0 (timestamp - 2)) s).
Definition ensure_create2_deployer (s : OpChainSpec) (timestamp : Z) (db : Db) : ProviderError + Db :=
  if at_canyon_transition s timestamp then
    '(acc, db) ←! load_cache_account CREATE_2_DEPLOYER_ADDR db;
    let acc_info := default AccountInfo_default acc in
    let acc_info := with_code CREATE_2_DEPLOYER_CODEHASH CREATE_2_DEPLOYER_BYTECODE acc_info in
    inr (commit {[CREATE_2_DEPLOYER_ADDR := touched acc_info]} db)
  else inr db.
End create2.

(** ** Layout of call data *)

(** The bytes of a list of fields of the given widths, and the values that fit. *)
Fixpoint encode_fields (ws : list nat) (xs : list Z) : list Z :=
  match ws, xs with w :: ws, x :: xs => to_be_bytes w x ++ encode_fields ws xs | _, _ => [] end.
Definition fits (w : nat) (x : Z) : Prop := 0 ≤ x < 2 ^ (8 * Z.of_nat w).
Definition BEDROCK_LAYOUT : list nat := replicate 8 32%nat.
Definition ECOTONE_LAYOUT : list nat := [8; 4; 4; 8; 8; 32; 32; 32; 32]%nat.

Lemma encode_fields_length ws xs : Forall2 fits ws xs → length (encode_fields ws xs) = sum_list ws.
Proof.
  induction 1 as [|w x ws xs Hx _ IH]; [done|]. simpl. by rewrite length_app, to_be_bytes_length, IH.
Qed.
(** The field at a position is where the widths of the ones before it add up to. *)
Lemma slice_field ws xs i w x :
  Forall2 fits ws xs → ws !! i = Some w → xs !! i = Some x →
  slice (sum_list (take i ws)) (sum_list (take i ws) + w) (encode_fields ws xs) = to_be_bytes w x.
Proof.
  intros Hf. unfold slice. rewrite Nat.add_comm, Nat.add_sub. revert i.
  induction Hf as [|w0 x0 ws xs Hx Hf IH]; [done|]. intros [|i] Hw Hxs; simpl in *.
  - simplify_eq. by rewrite drop_0, take_app_length' by by rewrite to_be_bytes_length.
  - rewrite drop_app, to_be_bytes_length, drop_ge by (rewrite to_be_bytes_length; lia). simpl.
    rewrite Nat.add_comm, Nat.add_sub. by apply IH.
Qed.
Notation is_byte b := (0 ≤ b < 256).
Lemma shift_byte x b : 0 ≤ b < 256 → Z.lor (Z.shiftl x 8) b = 256 * x + b.
Proof.
  intros Hb. assert (Z.land (Z.shiftl x 8) b = 0) as Hz.
  { apply Z.bits_inj'. intros i Hi. rewrite Z.land_spec, Z.bits_0. destruct (Z.lt_ge_cases i 8).
    - by rewrite Z.shiftl_spec_low.
    - replace b with (b `mod` 2 ^ 8) by (by apply Z.mod_small). by rewrite Z.mod_pow2_bits_high, andb_false_r by lia. }
  rewrite <-(Z.lxor_lor _ _ Hz), <-Z.add_nocarry_lxor, Z.shiftl_mul_pow2 by done. lia.
Qed.
Lemma from_be_bytes_fits l : Forall (λ b, is_byte b) l → fits (length l) (from_be_bytes l).
Proof.
  unfold fits. induction l as [|b l IH] using rev_ind; [by cbn|]. rewrite Forall_app, Forall_singleton. intros [Hl Hb].
  specialize (IH Hl). rewrite from_be_bytes_snoc, shift_byte, length_app by done. simpl.
  replace (8 * Z.of_nat (length l + 1)) with (8 * Z.of_nat (length l) + 8) by lia. rewrite Z.pow_add_r by lia. lia.
Qed.
Lemma to_be_bytes_S n x : to_be_bytes (S n) x = to_be_bytes n (Z.shiftr x 8) ++ [Z.land x 255].
Proof. done. Qed.
Lemma to_from_be_bytes l : Forall (λ b, is_byte b) l → to_be_bytes (length l) (from_be_bytes l) = l.
Proof.
  induction l as [|b l IH] using rev_ind; [done|]. rewrite Forall_app, Forall_singleton. intros [Hl Hb].
  rewrite from_be_bytes_snoc, shift_byte, length_app, Nat.add_comm by done.
  set (x := from_be_bytes l) in *.
  change (length [b] + length l)%nat with (S (length l)). rewrite to_be_bytes_S.
  assert (Z.shiftr (256 * x + b) 8 = x) as -> by (rewrite Z.shiftr_div_pow2 by done; Z.to_euclidean_division_equations; lia).
  assert (Z.land (256 * x + b) 255 = b) as ->; [|by rewrite IH].
  change 255 with (Z.ones 8). rewrite Z.land_ones by done. Z.to_euclidean_division_equations; lia.
Qed.
(** Every sequence of bytes of the right length is the encoding of some fields. *)
Lemma fields_of ws l :
  Forall (λ b, is_byte b) l → length l = sum_list ws → ∃ xs, Forall2 fits ws xs ∧ l = encode_fields ws xs.
Proof.
  revert l. induction ws as [|w ws IH]; intros l Hl Hlen; simpl in Hlen.
  { destruct l; [|done]. by exists []. }
  rewrite <-(take_drop w l) in Hl. apply Forall_app in Hl as [Ht Hd].
  assert (length (take w l) = w) as Hw by (rewrite length_take; lia).
  destruct (IH (drop w l) Hd) as (xs & Hxs & E); [rewrite length_drop; lia|].
  exists (from_be_bytes (take w l) :: xs). split.
  - constructor; [|done]. rewrite <-Hw at 1. by apply from_be_bytes_fits.
  - simpl. rewrite <-Hw at 1. rewrite to_from_be_bytes by done. by rewrite <-E, take_drop.
Qed.
Lemma read_field ws xs i w x a b message :
  Forall2 fits ws xs → ws !! i = Some w → xs !! i = Some x → (w ≤ 32)%nat →
  a = sum_list (take i ws) → b = (a + w)%nat → read_u256 (slice a b (encode_fields ws xs)) message = inr x.
Proof.
  intros Hf Hw Hx Hle -> ->. rewrite (slice_field _ _ _ _ _ Hf Hw Hx). unfold read_u256, try_from_be_slice.
  assert (Hfit : fits w x) by (eapply Forall2_lookup_lr; eauto). unfold fits in Hfit.
  rewrite from_to_be_bytes by done. rewrite (proj2 (Z.ltb_lt _ _)); [done|].
  apply (Z.lt_le_trans _ (2 ^ (8 * Z.of_nat w))); [lia|]. apply Z.pow_le_mono_r; lia.
Qed.

(** What the parsers read from an encoding. *)
Lemma parse_ecotone_encode sequence blob_scalar scalar number time fee blob_fee hash batcher :
  let xs := [sequence; blob_scalar; scalar; number; time; fee; blob_fee; hash; batcher] in
  Forall2 fits ECOTONE_LAYOUT xs →
  parse_l1_info_tx_ecotone (encode_fields ECOTONE_LAYOUT xs) =
  inr (mkL1BlockInfo fee None scalar (Some blob_fee) (Some blob_scalar)).
Proof.
  intros xs Hxs. unfold parse_l1_info_tx_ecotone. rewrite (encode_fields_length _ _ Hxs). simpl negb. cbv iota.
  by rewrite (read_field _ _ 1 4 blob_scalar 8 12 _ Hxs), (read_field _ _ 2 4 scalar 12 16 _ Hxs),
    (read_field _ _ 5 32 fee 32 64 _ Hxs), (read_field _ _ 6 32 blob_fee 64 96 _ Hxs) by first [reflexivity|lia].
Qed.
Lemma parse_bedrock_encode number time fee hash sequence batcher overhead scalar :
  let xs := [number; time; fee; hash; sequence; batcher; overhead; scalar] in
  Forall2 fits BEDROCK_LAYOUT xs →
  parse_l1_info_tx_bedrock (encode_fields BEDROCK_LAYOUT xs) = inr (mkL1BlockInfo fee (Some overhead) scalar None None).
Proof.
  intros xs Hxs. unfold parse_l1_info_tx_bedrock. rewrite (encode_fields_length _ _ Hxs). simpl negb. cbv iota.
  by rewrite (read_field _ _ 2 32 fee 64 96 _ Hxs), (read_field _ _ 6 32 overhead 192 224 _ Hxs),
    (read_field _ _ 7 32 scalar 224 256 _ Hxs) by first [reflexivity|lia].
Qed.

(** Call data in either layout, with the parameters it carries. *)
Definition ecotone_data (data : list Z) (info : L1BlockInfo) : Prop :=
  ∃ sequence blob_scalar scalar number time fee blob_fee hash batcher,
    let xs := [sequence; blob_scalar; scalar; number; time; fee; blob_fee; hash; batcher] in
    Forall2 fits ECOTONE_LAYOUT xs ∧ data = encode_fields ECOTONE_LAYOUT xs ∧
    info = mkL1BlockInfo fee None scalar (Some blob_fee) (Some blob_scalar).
Definition bedrock_data (data : list Z) (info : L1BlockInfo) : Prop :=
  ∃ number time fee hash sequence batcher overhead scalar,
    let xs := [number; time; fee; hash; sequence; batcher; overhead; scalar] in
    Forall2 fits BEDROCK_LAYOUT xs ∧ data = encode_fields BEDROCK_LAYOUT xs ∧
    info = mkL1BlockInfo fee (Some overhead) scalar None None.

Lemma parse_ecotone_spec data info :
  Forall (λ b, is_byte b) data → parse_l1_info_tx_ecotone data = inr info ↔ ecotone_data data info.
Proof.
  intros Hd. split.
  - intros Hp. assert (Hlen : length data = sum_list ECOTONE_LAYOUT).
    { unfold parse_l1_info_tx_ecotone in Hp. destruct (Z.eqb_spec (Z.of_nat (length data)) 160); [|done]. cbn. lia. }
    destruct (fields_of _ _ Hd Hlen) as (xs & Hxs & ->). pose proof (Forall2_length _ _ _ Hxs) as Hl.
    do 9 (destruct xs as [|? xs]; [done|]). destruct xs; [|done]. rewrite parse_ecotone_encode in Hp by done.
    injection Hp as <-. exists z, z0, z1, z2, z3, z4, z5, z6, z7. done.
  - intros (? & ? & ? & ? & ? & ? & ? & ? & ? & Hxs & -> & ->). by apply parse_ecotone_encode.
Qed.
Lemma parse_bedrock_spec data info :
  Forall (λ b, is_byte b) data → parse_l1_info_tx_bedrock data = inr info ↔ bedrock_data data info.
Proof.
  intros Hd. split.
  - intros Hp. assert (Hlen : length data = sum_list BEDROCK_LAYOUT).
    { unfold parse_l1_info_tx_bedrock in Hp. destruct (Z.eqb_spec (Z.of_nat (length data)) 256); [|done]. cbn. lia. }
    destruct (fields_of _ _ Hd Hlen) as (xs & Hxs & ->). pose proof (Forall2_length _ _ _ Hxs) as Hl.
    do 8 (destruct xs as [|? xs]; [done|]). destruct xs; [|done]. rewrite parse_bedrock_encode in Hp by done.
    injection Hp as <-. exists z, z0, z1, z2, z3, z4, z5, z6. done.
  - intros (? & ? & ? & ? & ? & ? & ? & ? & Hxs & -> & ->). by apply parse_bedrock_encode.
Qed.

(** C20. The L1 fee parameters are read exactly from the call data that carries them: extraction
    succeeds for a block if and only if its first transaction has as input a selector of four
    bytes and the fields of the Ecotone layout, if the selector is that of Ecotone, or of the
    Bedrock layout otherwise; the result holds the values that were encoded. *)
Theorem l1_info_read_back block info tx rest :
  blk_body block = tx :: rest → Forall (λ b, is_byte b) (Tx.input (ec_transaction tx)) →
  extract_l1_info block = inr info ↔
  ∃ selector data, Tx.input (ec_transaction tx) = selector ++ data ∧ length selector = 4%nat ∧
    (selector = L1_BLOCK_ECOTONE_SELECTOR ∧ ecotone_data data info ∨
     selector ≠ L1_BLOCK_ECOTONE_SELECTOR ∧ bedrock_data data info).
Proof.
  intros Hb Hbytes. unfold extract_l1_info. rewrite Hb. set (input := Tx.input _) in *.
  destruct (Z.ltb_spec (Z.of_nat (length input)) 4) as [Hl|Hl].
  { split; [done|]. intros (sel & data & E & Hs & _). rewrite E, length_app in Hl. lia. }
  assert (Hdata : Forall (λ b, is_byte b) (drop 4 input)) by by apply Forall_drop.
  transitivity (take 4 input = L1_BLOCK_ECOTONE_SELECTOR ∧ ecotone_data (drop 4 input) info ∨
                take 4 input ≠ L1_BLOCK_ECOTONE_SELECTOR ∧ bedrock_data (drop 4 input) info).
  - case_bool_decide; [rewrite parse_ecotone_spec by done|rewrite parse_bedrock_spec by done]; naive_solver.
  - split.
    + intros Hc. exists (take 4 input), (drop 4 input). rewrite take_drop, length_take. split_and!; [done|lia|done].
    + intros (sel & data & -> & Hs & Hc). by rewrite take_app_length', drop_app_length' by done.
Qed.

Module Ecotone.
Definition calldata : list Z :=
  L1_BLOCK_ECOTONE_SELECTOR ++ encode_fields ECOTONE_LAYOUT [3; 810949; 1368; 19000000; 1710000000; 30000000000; 1; 77; 5].
Definition info_tx : TransactionSignedEcRecovered :=
  mkEcRecovered 9 1 (Tx.Deposit (Tx.mkTxDeposit 8 9 (CallTo 21) None 0 1000000 false calldata)).
Definition block : Block := mkBlock Header_default [info_tx] [] None None.

Lemma l1_info_read_back_witness :
  extract_l1_info block = inr (mkL1BlockInfo 30000000000 None 1368 (Some 1) (Some 810949)).
Proof.
  apply (l1_info_read_back block _ info_tx []); [done|apply (bool_decide_unpack _); by vm_compute|].
  exists L1_BLOCK_ECOTONE_SELECTOR, (drop 4 calldata). split_and!; [done|done|]. left. split; [done|].
  do 9 eexists. split; [|split; reflexivity]. repeat (constructor; [by vm_compute|]). constructor.
Defined.
End Ecotone.

(** The bytecode has the length of its type in the code. *)
Example bytecode_length : Z.of_nat (length CREATE_2_DEPLOYER_BYTECODE) = 1584.
Proof. by vm_compute. Qed.

(** On a chain with a block every two seconds the contract is deployed in the first block of
    Canyon, and in no other one. *)
Lemma create2_once s c timestamp :
  hf_fork "Canyon" (oc_hardforks s) = Timestamp c → 2 ≤ timestamp →
  at_canyon_transition s timestamp = true ↔ timestamp - 2 < c ≤ timestamp.
Proof.
  intros Hc Ht. unfold at_canyon_transition, fork_at, is_fork_active_at_timestamp. rewrite Hc. simpl.
  rewrite andb_true_iff, negb_true_iff, Z.leb_le, Z.leb_gt. lia.
Qed.

Section laws.
Context `{EvmState} `{!EvmStateLaws}.
Lemma create2_proper s ts db db' :
  db ≡ db' → same_result (≡) (ensure_create2_deployer s ts db) (ensure_create2_deployer s ts db').
Proof.
  intros Hdb. unfold ensure_create2_deployer. destruct (at_canyon_transition s ts); [|done].
  pose proof (load_proper CREATE_2_DEPLOYER_ADDR _ _ Hdb) as Hl.
  destruct (load_cache_account _ db) as [e|[a d]], (load_cache_account _ db') as [e'|[a' d']]; simpl in *; [congruence|done|done|].
  destruct Hl as [<- Hd]. by apply commit_proper.
Qed.
End laws.
