(* ===== verification/OpExecute.v ===== *)
(** * Execution of blocks

    [OpBlockExecutor] ([optimism/evm/src/execute.rs]): the node executes the transactions of a
    block and returns their receipts, the gas they used and the changed state.  The balances
    that the end of a block increments are those of [revm/src/state_change.rs] and
    [consensus/common/src/calc.rs].

    The loop over the transactions keeps the environment of the last one, as the code does. *)

From stdpp Require Import prelude gmap list strings.
From S2P Require Import Prelude.
From S2P Require Import Forks.
From S2P Require Import Transaction.
From S2P Require Import Header.
From S2P Require Import Codecs.
From S2P Require Import TxCodec.
From S2P Require Import Consensus.
From S2P Require Import EngineTypes.
From S2P Require Import PayloadValidator.
From S2P Require Import Engine.
From S2P Require Import Revm.
From S2P Require Import L1Info.

(** A loop whose body may fail. *)
Fixpoint try_each {E S A} (f : A → S → E + S) (l : list A) (st : S) : E + S :=
  match l with
  | [] => inr st
  | x :: l => match f x st with inl e => inl e | inr st => try_each f l st end
  end.
Lemma try_each_app {E S A} (f : A → S → E + S) l1 l2 st :
  try_each f (l1 ++ l2) st = match try_each f l1 st with inl e => inl e | inr st => try_each f l2 st end.
Proof. revert st. induction l1 as [|x l1 IH]; intros st; [done|]. simpl. by destruct (f x st). Qed.

Definition is_deposit (t : TransactionSignedEcRecovered) : bool :=
  match ec_transaction t with Tx.Deposit _ => true | _ => false end.
Definition is_system_transaction (t : TransactionSignedEcRecovered) : bool :=
  match ec_transaction t with Tx.Deposit tx => Tx.dp_is_system_transaction tx | _ => false end.

(** ** Rewards and withdrawals *)
Definition ETH_TO_WEI : Z := 10 ^ 18.
Definition GWEI_TO_WEI : Z := 10 ^ 9.
Definition base_block_reward_pre_merge (s : OpChainSpec) (block_number : Z) : Z :=
  if active_at_block (hf_fork "Constantinople" (oc_hardforks s)) block_number then ETH_TO_WEI * 2
  else if active_at_block (hf_fork "Byzantium" (oc_hardforks s)) block_number then ETH_TO_WEI * 3
  else ETH_TO_WEI * 5.
Definition base_block_reward (s : OpChainSpec) (block_number block_difficulty total_difficulty : Z) : option Z :=
  if active_at_ttd (hf_fork "Paris" (oc_hardforks s)) total_difficulty block_difficulty then None
  else Some (base_block_reward_pre_merge s block_number).
Definition block_reward (base_block_reward : Z) (ommers : nat) : Z :=
  wrap_u128 (base_block_reward + Z.shiftr base_block_reward 5 * Z.of_nat ommers).
Definition ommer_reward (base_block_reward block_number ommer_block_number : Z) : Z :=
  Z.shiftr (wrap_u128 (wrap_u64 (8 + ommer_block_number - block_number) * base_block_reward)) 3.

(** [*entry(address).or_default() += amount]. *)
Definition credit (address amount : Z) (m : gmap Z Z) : gmap Z Z :=
  <[address := wrap_u128 (default 0 (m !! address) + amount)]> m.
Definition insert_post_block_withdrawals_balance_increments (s : OpChainSpec) (block_timestamp : Z)
  (withdrawals : option (list Withdrawal)) (m : gmap Z Z) : gmap Z Z :=
  if is_shanghai_active_at_timestamp block_timestamp (oc_hardforks s) then
    foldl (λ m w, if 0 <? wd_amount w then credit (wd_address w) (wd_amount w * GWEI_TO_WEI) m else m) m
      (default [] withdrawals)
  else m.
Definition post_block_withdrawals_balance_increments (s : OpChainSpec) (block_timestamp : Z) (withdrawals : list Withdrawal)
  : gmap Z Z :=
  insert_post_block_withdrawals_balance_increments s block_timestamp (Some withdrawals) ∅.
Definition post_block_balance_increments (s : OpChainSpec) (block : Block) (total_difficulty : Z) : gmap Z Z :=
  let h := blk_header block in
  let m :=
    match base_block_reward s (h_number h) (h_difficulty h) total_difficulty with
    | Some base =>
      let m := foldl (λ m ommer, credit (h_beneficiary ommer) (ommer_reward base (h_number h) (h_number ommer)) m) ∅
                 (blk_ommers block) in
      credit (h_beneficiary h) (block_reward base (length (blk_ommers block))) m
    | None => ∅
    end in
  insert_post_block_withdrawals_balance_increments s (h_timestamp h) (blk_withdrawals block) m.

Section executor.
Context `{EvmState}.

(** ** Transactions *)
Record ExecState := mkExecState { xs_tx_env : TxEnv; xs_cumulative_gas_used : Z; xs_receipts : list Receipt; xs_db : Db }.

(** The account of a depositor is read from Regolith on. *)
Definition load_depositor (is_regolith : bool) (t : TransactionSignedEcRecovered) (sender : Z) (db : Db)
  : ProviderError + (option AccountInfo * Db) :=
  if is_regolith && is_deposit t then
    match load_cache_account sender db with
    | inl e => inl e
    | inr (acc, db) => inr (Some (default AccountInfo_default acc), db)
    end
  else inr (None, db).
Definition deposit_receipt_version (s : OpChainSpec) (timestamp : Z) (t : TransactionSignedEcRecovered) : option Z :=
  if is_deposit t && fork_at "Canyon" timestamp s then Some 1 else None.

(** The body of the loop. *)
Definition execute_transaction (s : OpChainSpec) (cfg : CfgEnv) (b : BlockEnv) (h : Header)
  (x : Z * TransactionSignedEcRecovered) (st : ExecState) : BlockExecutionError + ExecState :=
  let '(sender, transaction) := x in
  let is_regolith := fork_at "Regolith" (h_timestamp h) s in
  let block_available_gas := wrap_u64 (h_gas_limit h - xs_cumulative_gas_used st) in
  let gas_limit := Tx.gas_limit (ec_transaction transaction) in
  if (block_available_gas <? gas_limit) && (is_regolith || negb (is_system_transaction transaction))
  then inl (into (TransactionGasLimitMoreThanAvailableBlockGas gas_limit block_available_gas))
  else if is_eip4844 transaction then inl (into BlobTransactionRejected)
  else
    '(depositor, db) ←! map_err (λ _, AccountLoadFailed sender) (load_depositor is_regolith transaction sender (xs_db st));
    let e := fill_tx_env (xs_tx_env st) transaction sender in
    match transact (mkEnv cfg b e) db with
    | (inl err, _) => inl (into (EvmError (ec_hash transaction) (error_code err)))
    | (inr (result, state), db) =>
      let db := commit state db in
      let cumulative_gas_used := wrap_u64 (xs_cumulative_gas_used st + er_gas_used result) in
      let receipt :=
        mkReceipt (tx_type_of (ec_transaction transaction)) (er_success result) cumulative_gas_used (er_logs result)
          (ai_nonce <$> depositor) (deposit_receipt_version s (h_timestamp h) transaction) in
      inr (mkExecState e cumulative_gas_used (xs_receipts st ++ [receipt]) db)
    end.

(** [execute_pre_and_transactions]. *)
Definition execute_pre_and_transactions (s : OpChainSpec) (cfg : CfgEnv) (b : BlockEnv) (block : Block) (senders : list Z)
  (db : Db) : BlockExecutionError + ExecState :=
  let h := blk_header block in
  db ←! apply_beacon_root_contract_call s (h_timestamp h) (h_number h) (h_parent_beacon_block_root h)
          (mkEnv cfg b TxEnv_default) db;
  db ←! map_err (λ _, ForceCreate2DeployerFail) (ensure_create2_deployer s (h_timestamp h) db);
  try_each (execute_transaction s cfg b h) (zip senders (blk_body block)) (mkExecState TxEnv_default 0 [] db).

(** ** Blocks *)
Definition on_new_block (s : OpChainSpec) (h : Header) (db : Db) : Db :=
  set_state_clear_flag (active_at_block (hf_fork "SpuriousDragon" (oc_hardforks s)) (h_number h)) db.
Definition post_execution (s : OpChainSpec) (block : Block) (total_difficulty : Z) (db : Db) : BlockExecutionError + Db :=
  map_err (λ _, into IncrementBalanceFailed) (increment_balances (post_block_balance_increments s block total_difficulty) db).
Definition execute_without_verification (s : OpChainSpec) (block : Block) (senders : list Z) (total_difficulty : Z) (db : Db)
  : outcome (BlockExecutionError + (list Receipt * Z * Db)) :=
  let db := on_new_block s (blk_header block) db in
  '(cfg, b) ← fill_cfg_and_block_env s (blk_header block) total_difficulty;
  Done (st ←! execute_pre_and_transactions s cfg b block senders db;
        db ←! post_execution s block total_difficulty (xs_db st);
        inr (xs_receipts st, xs_cumulative_gas_used st, db)).
(** [OpExecutorProvider::executor] and [execute]. *)
Definition op_execute (s : OpChainSpec) (sp : StateProvider) (block : Block) (senders : list Z) (total_difficulty : Z)
  : outcome (BlockExecutionError + BlockExecutionOutput) :=
  r ← execute_without_verification s block senders total_difficulty (build_state sp false);
  Done ('(receipts, gas_used, db) ←! r;
        inr (mkExecutionOutput (take_bundle Reverts db) receipts [] gas_used)).
End executor.
