(* ===== verification/OpPayload.v ===== *)
(** * Building blocks

    The sequencer's block builder: the attributes of a payload and the environment derived from
    them ([optimism/payload/src/payload.rs]), the builder itself
    ([optimism/payload/src/builder.rs]), and withdrawals and the comparison of payloads
    ([payload/basic/src/lib.rs]).

    The pool is the iterator over its best transactions; transactions that arrive while a block
    is built are what the environment does to the iterator before each call.  The flag that
    cancels a job is read through a function of the number of earlier reads.  The state of a
    parent block, its root and the hash of a header are parameters.  Cached reads do not change
    what is read and are left out. *)

From stdpp Require Import prelude gmap list strings.
From S2P Require Import Prelude.
From S2P Require Import Forks.
From S2P Require Import PoolTx.
From S2P Require Import Best.
From S2P Require Import Transaction.
From S2P Require Import BlobStore.
From S2P Require Import Header.
From S2P Require Import Codecs.
From S2P Require Import TxCodec.
From S2P Require Import Consensus.
From S2P Require Import TreeState.
From S2P Require Import EngineTypes.
From S2P Require Import PayloadValidator.
From S2P Require Import Revm.
From S2P Require Import L1Info.
From S2P Require Import OpExecute.

(** ** Attributes *)
Record EthPayloadBuilderAttributes := mkEthAttributes {
  pa_id : Z;
  pa_parent : Z;
  pa_timestamp : Z;
  pa_suggested_fee_recipient : Z;
  pa_prev_randao : Z;
  pa_withdrawals : list Withdrawal;
  pa_parent_beacon_block_root : option Z;
}.
(** A transaction of the attributes, with the signer its signature recovers to. *)
Record OptimismPayloadBuilderAttributes := mkOpAttributes {
  oa_payload_attributes : EthPayloadBuilderAttributes;
  oa_no_tx_pool : bool;
  oa_transactions : list TransactionSignedEcRecovered;
  oa_gas_limit : option Z;
}.
Definition oa_timestamp (a : OptimismPayloadBuilderAttributes) : Z := pa_timestamp (oa_payload_attributes a).

Section attributes.
Context `{EvmState} `{Externals}.

Definition cfg_and_block_env (a : OptimismPayloadBuilderAttributes) (s : OpChainSpec) (parent : Header) : CfgEnv * BlockEnv :=
  let spec_id := revm_spec_by_timestamp_after_bedrock s (oa_timestamp a) in
  let blob_excess_gas :=
    match next_block_excess_blob_gas calculate_excess_blob_gas parent with
    | Some gas => Some gas
    | None => if spec_at_least spec_id Spec.CANCUN then Some 0 else None
    end in
  (mkCfgEnv (oc_chain_id s) (cfg_analysis CfgEnv_default) spec_id true,
   mkBlockEnv (wrap_u64 (h_number parent + 1)) (pa_suggested_fee_recipient (oa_payload_attributes a)) (oa_timestamp a)
     (h_gas_limit parent)
     (default 0 (next_block_base_fee calc_next_block_base_fee
                   (base_fee_params_at_timestamp (oa_timestamp a) (oc_spec s)) parent))
     0 (Some (pa_prev_randao (oa_payload_attributes a))) blob_excess_gas).

Record PayloadConfig := mkPayloadConfig {
  pc_initialized_block_env : BlockEnv;
  pc_initialized_cfg : CfgEnv;
  pc_parent_block : SealedHeader;
  pc_extra_data : list Z;
  pc_attributes : OptimismPayloadBuilderAttributes;
  pc_chain_spec : OpChainSpec;
}.
Definition PayloadConfig_new (parent_block : SealedHeader) (extra_data : list Z) (a : OptimismPayloadBuilderAttributes)
  (s : OpChainSpec) : PayloadConfig :=
  let '(cfg, b) := cfg_and_block_env a s (sh_header parent_block) in
  mkPayloadConfig b cfg parent_block extra_data a s.
End attributes.

(** ** Results *)
Inductive OptimismPayloadBuilderError :=
| TransactionEcRecoverFailed
| L1BlockInfoParseFailed
| PayloadAccountLoadFailed (address : Z)
| PayloadForceCreate2DeployerFail
| PayloadBlobTransactionRejected.
(** Errors of the node; those of the database and of the tree are numbers. *)
Inductive RethError :=
| RethExecution (e : BlockExecutionError)
| RethConsensus (e : ConsensusError)
| RethDatabase (code : Z)
| RethProvider (e : ProviderError)
| RethCanonical (code : Z)
| RethOther (code : Z).
Inductive PayloadBuilderError :=
| MissingParentBlock (hash : Z)
| ChannelClosed
| MissingPayload
| PayloadBlobStore (e : BlobStoreError)
| Internal (e : RethError)
| EvmExecutionError (e : EVMError)
| WithdrawalsBeforeShanghai
| OtherPayloadBuilderError (e : OptimismPayloadBuilderError).
#[export] Instance execution_into_payload : Into BlockExecutionError PayloadBuilderError := λ e, Internal (RethExecution e).
#[export] Instance provider_into_payload : Into ProviderError PayloadBuilderError := λ e, Internal (RethProvider e).
#[export] Instance op_into_payload : Into OptimismPayloadBuilderError PayloadBuilderError := OtherPayloadBuilderError.

Record OptimismBuiltPayload := mkBuiltPayload {
  bp_id : Z;
  bp_block : SealedBlock;
  bp_executed_block : option ExecutedBlock;
  bp_fees : Z;
  bp_sidecars : list Sidecar;
  bp_chain_spec : OpChainSpec;
  bp_attributes : OptimismPayloadBuilderAttributes;
}.
Inductive BuildOutcome := Better (payload : OptimismBuiltPayload) | Aborted (fees : Z) | Cancelled.

(** [is_better_payload]. *)
Definition is_better_payload (best_payload : option OptimismBuiltPayload) (new_fees : Z) : bool :=
  match best_payload with Some best => bp_fees best <? new_fees | None => true end.

(** ** The pool *)

(** A boxed iterator, and what the builder makes of a transaction of the pool. *)
#[export] Instance sum_ops {A B} `{BestTransactionsOps A} `{BestTransactionsOps B} : BestTransactionsOps (A + B) := {|
  bt_next fuel it :=
    match it with
    | inl a => '(tx, a) ← bt_next fuel a; Done (tx, inl a)
    | inr b => '(tx, b) ← bt_next fuel b; Done (tx, inr b)
    end;
  bt_mark_invalid tx it := match it with inl a => inl (bt_mark_invalid tx a) | inr b => inr (bt_mark_invalid tx b) end;
  bt_no_updates it := match it with inl a => inl (bt_no_updates a) | inr b => inr (bt_no_updates b) end;
  bt_set_skip_blobs s it := match it with inl a => inl (bt_set_skip_blobs s a) | inr b => inr (bt_set_skip_blobs s b) end;
|}.
Class PoolTransactionConversion := to_recovered_transaction : ValidPoolTransaction → TransactionSignedEcRecovered.

(** ** The builder *)
Class BuilderOps `{EvmState} := {
  recovers : TransactionSignedEcRecovered → bool;
  state_by_block_hash : Z → ProviderError + StateProvider;
  hash_bundle : Z → Z;
  hashed_state_root_with_updates : StateProvider → Z → ProviderError + (Z * Z);
  state_root_of : StateProvider → Z → ProviderError + Z;
  blob_gasprice : Z → Z;
}.

Section builder.
Context `{EvmState} `{Externals} `{Payloads} `{!BuilderOps} `{PoolTransactionConversion} `{BestTransactionsOps It}.

Record WithdrawalsOutcome := mkWithdrawalsOutcome { wo_withdrawals : option (list Withdrawal); wo_root : option Z }.
Definition commit_withdrawals (s : OpChainSpec) (timestamp : Z) (withdrawals : list Withdrawal) (db : Db)
  : ProviderError + (WithdrawalsOutcome * Db) :=
  if negb (is_shanghai_active_at_timestamp timestamp (oc_hardforks s)) then inr (mkWithdrawalsOutcome None None, db)
  else
    match withdrawals with
    | [] => inr (mkWithdrawalsOutcome (Some []) (Some EMPTY_ROOT_HASH), db)
    | _ =>
      match increment_balances (post_block_withdrawals_balance_increments s timestamp withdrawals) db with
      | inl e => inl e
      | inr db => inr (mkWithdrawalsOutcome (Some withdrawals) (Some (calculate_withdrawals_root withdrawals)), db)
      end
    end.

(** The blob fields of the header. *)
Definition blob_fields (s : OpChainSpec) (timestamp : Z) (parent : Header) : option Z * option Z :=
  if is_cancun_active_at_timestamp timestamp (oc_hardforks s) then
    (Some 0,
     if is_cancun_active_at_timestamp (h_timestamp parent) (oc_hardforks s)
     then Some (calculate_excess_blob_gas (default 0 (h_excess_blob_gas parent)) (default 0 (h_blob_gas_used parent)))
     else Some (calculate_excess_blob_gas 0 0))
  else (None, None).

(** What the loops over transactions update.  An iteration stops the attempt with an error or
    since the job was cancelled. *)
Record BuildState := mkBuildState {
  bd_db : Db;
  bd_cumulative_gas_used : Z;
  bd_receipts : list Receipt;
  bd_txs : list TransactionSignedEcRecovered;
  bd_senders : list Z;
  bd_total_fees : Z;
  bd_polls : nat;
}.
Inductive Stop := StopError (e : PayloadBuilderError) | StopCancelled.
#[export] Instance error_into_stop : Into PayloadBuilderError Stop := StopError.
Definition set_db (db : Db) (st : BuildState) : BuildState :=
  mkBuildState db (bd_cumulative_gas_used st) (bd_receipts st) (bd_txs st) (bd_senders st) (bd_total_fees st) (bd_polls st).
Definition polled (st : BuildState) : BuildState :=
  mkBuildState (bd_db st) (bd_cumulative_gas_used st) (bd_receipts st) (bd_txs st) (bd_senders st) (bd_total_fees st)
    (S (bd_polls st)).
(** A transaction was executed: its changes are committed and its receipt is kept. *)
Definition include_tx (t : TransactionSignedEcRecovered) (result : ExecutionResult) (db : Db) (deposit_nonce version : option Z)
  (fees : Z) (st : BuildState) : BuildState :=
  let cumulative_gas_used := wrap_u64 (bd_cumulative_gas_used st + er_gas_used result) in
  mkBuildState db cumulative_gas_used
    (bd_receipts st ++
     [mkReceipt (tx_type_of (ec_transaction t)) (er_success result) cumulative_gas_used (er_logs result) deposit_nonce version])
    (bd_txs st ++ [t]) (bd_senders st ++ [ec_signer t]) fees (bd_polls st).

Section job.
Context (cancel : nat → bool) (c : PayloadConfig).
Let s := pc_chain_spec c.
Let a := pc_attributes c.
Let cfg := pc_initialized_cfg c.
Let benv := pc_initialized_block_env c.

Definition block_gas_limit : Z :=
  match oa_gas_limit a with
  | Some limit => limit
  | None => if be_gas_limit benv <? U64 then be_gas_limit benv else oc_max_gas_limit s
  end.

(** The body of the loop over the transactions of the attributes. *)
Definition build_sequencer_tx (sequencer_tx : TransactionSignedEcRecovered) (st : BuildState) : Stop + BuildState :=
  if cancel (bd_polls st) then inl StopCancelled
  else
    let st := polled st in
    if is_eip4844 sequencer_tx then inl (StopError (into PayloadBlobTransactionRejected))
    else if negb (recovers sequencer_tx) then inl (StopError (into TransactionEcRecoverFailed))
    else
      match load_depositor (fork_at "Regolith" (oa_timestamp a) s) sequencer_tx (ec_signer sequencer_tx) (bd_db st) with
      | inl _ => inl (StopError (into (PayloadAccountLoadFailed (ec_signer sequencer_tx))))
      | inr (depositor, db) =>
        match transact (mkEnv cfg benv (tx_env sequencer_tx)) db with
        | (inl (EvmTransaction _), db) => inr (set_db db st)
        | (inl err, _) => inl (StopError (EvmExecutionError err))
        | (inr (result, state), db) =>
          inr (include_tx sequencer_tx result (commit state db) (ai_nonce <$> depositor)
                 (if fork_at "Canyon" (oa_timestamp a) s then Some 1 else None) (bd_total_fees st) st)
        end
      end.

(** The loop over the best transactions of the pool. *)
Context (arrive : nat → It → It) (next_fuel : nat).

Definition skips (pool_tx : ValidPoolTransaction) (st : BuildState) : bool :=
  (block_gas_limit <? wrap_u64 (bd_cumulative_gas_used st + gas_limit pool_tx)) ||
  (tx_is_eip4844 (transaction pool_tx) || (tx_type (transaction pool_tx) =? DEPOSIT_TX_TYPE_ID)).

(** Executing a transaction that is not skipped: the result says whether it is to be marked
    as invalid. *)
Definition build_pool_tx (pool_tx : ValidPoolTransaction) (st : BuildState) : outcome (Stop + (bool * BuildState)) :=
  if cancel (bd_polls st) then Done (inl StopCancelled)
  else
    let st := polled st in
    let tx := to_recovered_transaction pool_tx in
    match transact (mkEnv cfg benv (tx_env tx)) (bd_db st) with
    | (inl (EvmTransaction NonceTooLow), db) => Done (inr (false, set_db db st))
    | (inl (EvmTransaction _), db) => Done (inr (true, set_db db st))
    | (inl err, _) => Done (inl (StopError (EvmExecutionError err)))
    | (inr (result, state), db) =>
      match Tx.effective_tip_per_gas (ec_transaction tx) (Some (be_basefee benv)) with
      | None => Panics
      | Some miner_fee =>
        let fees := wrap_u256 (bd_total_fees st + wrap_u256 (miner_fee * er_gas_used result)) in
        Done (inr (false, include_tx tx result (commit state db) None None fees st))
      end
    end.
Fixpoint pool_loop (fuel round : nat) (it : It) (st : BuildState) : outcome (Stop + BuildState) :=
  match fuel with
  | O => NoFuel
  | S fuel =>
    '(best, it) ← bt_next next_fuel (arrive round it);
    match best with
    | None => Done (inr st)
    | Some pool_tx =>
      if skips pool_tx st then pool_loop fuel (S round) (bt_mark_invalid pool_tx it) st
      else
        r ← build_pool_tx pool_tx st;
        match r with
        | inl stop => Done (inl stop)
        | inr (mark, st) => pool_loop fuel (S round) (if mark : bool then bt_mark_invalid pool_tx it else it) st
        end
    end
  end.

(** Before the transactions: the checks of the environment's numbers and the pre-block changes. *)
Definition prepare (db : Db) : PayloadBuilderError + BuildState :=
  let ts := oa_timestamp a in
  db ←! pre_block_beacon_root_contract_call s cfg benv (be_number benv) ts
          (pa_parent_beacon_block_root (oa_payload_attributes a)) db;
  db ←! map_err (λ _, PayloadForceCreate2DeployerFail) (ensure_create2_deployer s ts db);
  inr (mkBuildState db 0 [] [] [] 0 0).

(** [ExecutionOutcome::optimism_receipts_root_slow] and [block_logs_bloom], for an outcome with
    the receipts of one block. *)
Definition has_block (o : ExecutionOutcome) (number : Z) : bool := (eo_first_block o <=? number) && (number - eo_first_block o <? 1).
Definition optimism_receipts_root_slow (o : ExecutionOutcome) (number timestamp : Z) : option Z :=
  if has_block o number then Some (calculate_receipt_root_optimism (eo_receipts o) (oc_spec s) timestamp) else None.
Definition block_logs_bloom (o : ExecutionOutcome) (number : Z) : option Z :=
  if has_block o number then Some (logs_bloom (mjoin (rc_logs <$> eo_receipts o))) else None.

(** The header of a block with the given roots. *)
Definition built_header (w : WithdrawalsOutcome) (state_root transactions_root receipts_root logs_bloom gas_limit gas_used : Z)
  : Header :=
  let parent := pc_parent_block c in
  let attributes := oa_payload_attributes a in
  let '(blob_gas_used, excess_blob_gas) := blob_fields s (oa_timestamp a) (sh_header parent) in
  mkHeader (sh_hash parent) EMPTY_OMMER_ROOT_HASH (be_coinbase benv) state_root transactions_root receipts_root (wo_root w)
    logs_bloom 0 (wrap_u64 (h_number (sh_header parent) + 1)) gas_limit gas_used (oa_timestamp a)
    (pa_prev_randao attributes) 0 (Some (be_basefee benv)) blob_gas_used excess_blob_gas
    (pa_parent_beacon_block_root attributes) None (pc_extra_data c).

(** After the transactions: the block, its roots and the executed block. *)
Definition finish (best_payload : option OptimismBuiltPayload) (sp : StateProvider) (st : BuildState)
  : outcome (PayloadBuilderError + BuildOutcome) :=
  if negb (is_better_payload best_payload (bd_total_fees st)) then Done (inr (Aborted (bd_total_fees st)))
  else
    match commit_withdrawals s (oa_timestamp a) (pa_withdrawals (oa_payload_attributes a)) (bd_db st) with
    | inl e => Done (inl (into e))
    | inr (w, db) =>
      let number := be_number benv in
      let o := mkExecutionOutcome (take_bundle PlainState db) (bd_receipts st) number [] in
      match optimism_receipts_root_slow o number (oa_timestamp a), block_logs_bloom o number with
      | Some receipts_root, Some logs_bloom =>
        let hashed_state := hash_bundle (eo_bundle o) in
        match hashed_state_root_with_updates sp hashed_state with
        | inl e => Done (inl (into e))
        | inr (state_root, trie_output) =>
          let header := built_header w state_root (calculate_transaction_root (bd_txs st)) receipts_root logs_bloom
                          block_gas_limit (bd_cumulative_gas_used st) in
          let sealed_block := seal_slow (mkBlock header (bd_txs st) [] (wo_withdrawals w) None) in
          let executed := mkExecutedBlock sealed_block (bd_senders st) o hashed_state trie_output in
          Done (inr (Better (mkBuiltPayload (pa_id (oa_payload_attributes a)) sealed_block (Some executed)
                               (bd_total_fees st) [] s a)))
        end
      | _, _ => Panics
      end
    end.

(** [optimism_payload_builder]. *)
Definition optimism_payload_builder (best_transactions : Z → option Z → outcome It) (fuel : nat)
  (best_payload : option OptimismBuiltPayload) : outcome (PayloadBuilderError + BuildOutcome) :=
  match state_by_block_hash (sh_hash (pc_parent_block c)) with
  | inl e => Done (inl (into e))
  | inr sp =>
    _ ← assert_ (be_basefee benv <? U64);
    it ← best_transactions (be_basefee benv) ((λ gas, wrap_u64 (blob_gasprice gas)) <$> be_blob_excess_gas benv);
    _ ← assert_ (be_number benv <? U64);
    match prepare (build_state sp true) with
    | inl e => Done (inl e)
    | inr st =>
      match try_each build_sequencer_tx (oa_transactions a) st with
      | inl (StopError e) => Done (inl e)
      | inl StopCancelled => Done (inr Cancelled)
      | inr st =>
        r ← (if oa_no_tx_pool a then Done (inr st) else pool_loop fuel 0 it st);
        match r with
        | inl (StopError e) => Done (inl e)
        | inl StopCancelled => Done (inr Cancelled)
        | inr st => finish best_payload sp st
        end
      end
    end
  end.

(** [build_empty_payload]; the pre-block call and the withdrawals are the only changes. *)
Definition build_empty_payload : outcome (PayloadBuilderError + OptimismBuiltPayload) :=
  let attributes := oa_payload_attributes a in
  match state_by_block_hash (sh_hash (pc_parent_block c)) with
  | inl e => Done (inl (into e))
  | inr sp =>
    _ ← assert_ (be_basefee benv <? U64);
    _ ← assert_ (be_number benv <? U64);
    let limit := if be_gas_limit benv <? U64 then be_gas_limit benv else oc_max_gas_limit s in
    Done
      (db ←! pre_block_beacon_root_contract_call s cfg benv (be_number benv) (oa_timestamp a)
               (pa_parent_beacon_block_root attributes) (build_state sp true);
       '(w, db) ←! commit_withdrawals s (oa_timestamp a) (pa_withdrawals attributes) db;
       state_root ←! state_root_of sp (take_bundle PlainState db);
       let header := built_header w state_root EMPTY_ROOT_HASH EMPTY_ROOT_HASH 0 limit 0 in
       inr (mkBuiltPayload (pa_id attributes) (seal_slow (mkBlock header [] [] (wo_withdrawals w) None)) None 0 [] s a))
  end.
End job.
End builder.
