(* ===== verification/OpPayloadSteps.v ===== *)
(** * What the block builder guarantees

    The blocks that the sequencer builds, measured against the rest of the node: the executor
    runs them with the same result, the consensus checks accept them, they hold what the
    attributes and the pool offered, and building ends. *)

From stdpp Require Import prelude gmap list strings.
From S2P Require Import Prelude.
From S2P Require Import Forks.
From S2P Require Import PoolTx.
From S2P Require Import Best.
From S2P Require Import Transaction.
From S2P Require Import Header.
From S2P Require Import Codecs.
From S2P Require Import TxCodec.
From S2P Require Import Consensus.
From S2P Require Import TreeState.
From S2P Require Import EngineTypes.
From S2P Require Import PayloadValidator.
From S2P Require Import Engine.
From S2P Require Import Revm.
From S2P Require Import L1Info.
From S2P Require Import OpExecute.
From S2P Require Import OpPayload.

(** ** Laws of the libraries *)
#[export] Instance TxType_eq_dec : EqDecision TxType.
Proof. solve_decision. Defined.

(** The recovered transaction of a transaction that the pool can hold has its gas limit and type. *)
Class ConversionLaws `{PoolTransactionConversion} := {
  convertible : ValidPoolTransaction → Prop;
  recovered_gas t : convertible t → Tx.gas_limit (ec_transaction (to_recovered_transaction t)) = gas_limit t;
  recovered_type t : convertible t → Tx.type_id (ec_transaction (to_recovered_transaction t)) = tx_type (transaction t);
  recovered_blob t : convertible t → tx_is_eip4844 (transaction t) = (tx_type (transaction t) =? EIP4844_TX_TYPE_ID);
}.
(** A receipt that is not one of a deposit is encoded without its deposit fields, the root of no
    withdrawals is that of the empty trie, adding to a bloom filter sets bits, and a block
    without blobs after one without leaves the excess gas at zero. *)
Definition clear_version (r : Receipt) : Receipt :=
  if bool_decide (rc_tx_type r = TypeDeposit) then r
  else mkReceipt (rc_tx_type r) (rc_success r) (rc_cumulative_gas_used r) (rc_logs r) (rc_deposit_nonce r) None.
Class ExternalsLaws `{Externals} : Prop := {
  receipt_root_clear l : receipt_trie_root (clear_version <$> l) = receipt_trie_root l;
  withdrawals_root_nil : calculate_withdrawals_root [] = EMPTY_ROOT_HASH;
  bloom_sets bloom bytes : m3_2048 bloom bytes = Z.lor bloom (m3_2048 0 bytes);
  excess_zero : calculate_excess_blob_gas 0 0 = 0;
}.
(** The bundle with and without reverts has the same state. *)
Class BuilderLaws `{EvmState} `{!BuilderOps} : Prop := {
  hash_retention db : hash_bundle (take_bundle Reverts db) = hash_bundle (take_bundle PlainState db);
}.

(** ** Replaying *)
Section replay.
Context `{EvmState} `{!EvmStateLaws}.
Implicit Types (st : BuildState) (t : TransactionSignedEcRecovered).

Lemma load_depositor_proper reg t sender db db' :
  db ≡ db' → same_result (λ x y, x.1 = y.1 ∧ x.2 ≡ y.2) (load_depositor reg t sender db) (load_depositor reg t sender db').
Proof.
  intros Hdb. unfold load_depositor. destruct (reg && is_deposit t); [|by split].
  pose proof (load_proper sender _ _ Hdb) as Hl.
  destruct (load_cache_account sender db) as [e|[x d]], (load_cache_account sender db') as [e'|[x' d']]; simpl in *; try done.
  destruct Hl as [-> Hd]. by split.
Qed.
Lemma load_depositor_state reg t sender db x db' : load_depositor reg t sender db = inr (x, db') → db' ≡ db.
Proof.
  unfold load_depositor. destruct (reg && is_deposit t); [|by intros [= <- <-]].
  destruct (load_cache_account sender db) as [e|[y d]] eqn:E; [done|]. intros [= <- <-]. by apply load_state in E.
Qed.

Context (s : OpChainSpec) (cfg : CfgEnv) (benv : BlockEnv) (h : Header) (db0 : Db).
Context (Hlimit : is_u64 (h_gas_limit h)).
Notation execute := (execute_transaction s cfg benv h).

(** The executor, run on the transactions a builder has included so far, is where the builder
    is: with the same state, gas and receipts. *)
Record replays st : Prop := {
  rp_senders : bd_senders st = ec_signer <$> bd_txs st;
  rp_no_blobs : Forall (λ t, is_eip4844 t = false) (bd_txs st);
  rp_gas : 0 ≤ bd_cumulative_gas_used st ≤ h_gas_limit h;
  rp_last : default 0 (rc_cumulative_gas_used <$> last (bd_receipts st)) = bd_cumulative_gas_used st;
  rp_state : ∃ xst,
    try_each execute (zip (bd_senders st) (bd_txs st)) (mkExecState TxEnv_default 0 [] db0) = inr xst ∧
    xs_db xst ≡ bd_db st ∧ xs_cumulative_gas_used xst = bd_cumulative_gas_used st ∧
    xs_receipts xst = clear_version <$> bd_receipts st ∧ no_blobs (xs_tx_env xst);
}.

Lemma replays_db db st : db ≡ bd_db st → replays st → replays (set_db db st).
Proof.
  intros Hdb [H1 H2 H3 H4 (xst & E & Hx & H5)]. split; [done..|]. exists xst. split; [done|]. split; [|done]. simpl. by rewrite Hdb.
Qed.
Lemma replays_polled st : replays st → replays (polled st).
Proof. by intros [? ? ? ? ?]; split. Qed.

Lemma zip_snoc {A B} (l1 : list A) (l2 : list B) x y :
  length l1 = length l2 → zip (l1 ++ [x]) (l2 ++ [y]) = zip l1 l2 ++ [(x, y)].
Proof. intros Hl. by rewrite zip_with_app. Qed.

(** The executor follows a transaction that the builder includes. *)
Lemma replays_include t st dep db1 result state db2 version fees :
  replays st → is_eip4844 t = false → Tx.gas_limit (ec_transaction t) ≤ h_gas_limit h - bd_cumulative_gas_used st →
  load_depositor (fork_at "Regolith" (h_timestamp h) s) t (ec_signer t) (bd_db st) = inr (dep, db1) →
  transact (mkEnv cfg benv (tx_env t)) db1 = (inr (result, state), db2) →
  (is_deposit t = true → version = if fork_at "Canyon" (h_timestamp h) s then Some 1 else None) →
  replays (include_tx t result (commit state db2) (ai_nonce <$> dep) version fees st).
Proof.
  intros [Hs Hb Hg Hla (xst & E & Hx & Hc & Hr & Hn)] Ht Hgas Hload Htr Hv.
  assert (Hne : ∀ tx, ec_transaction t ≠ Tx.Eip4844 tx) by (intros tx Etx; unfold is_eip4844 in Ht; by rewrite Etx in Ht).
  destruct (fill_tx_env_fresh (xs_tx_env xst) t (ec_signer t) Hn Hne) as [Hfill Hfresh].
  pose proof (transact_gas _ _ _ _ _ Htr) as Hused.
  assert (Hte : te_gas_limit (tx_env t) = Tx.gas_limit (ec_transaction t)) by (unfold tx_env, fill_tx_env; by destruct (ec_transaction t)).
  cbn [env_tx] in Hused. rewrite Hte in Hused. unfold is_u64 in Hlimit.
  assert (Hcum : wrap_u64 (bd_cumulative_gas_used st + er_gas_used result) = bd_cumulative_gas_used st + er_gas_used result).
  { apply wrap_u64_id. unfold is_u64. lia. }
  split; cbn [include_tx bd_senders bd_txs bd_cumulative_gas_used bd_receipts bd_db].
  - by rewrite Hs, fmap_app.
  - apply Forall_app. split; [done|]. by apply Forall_singleton.
  - rewrite Hcum. lia.
  - by rewrite last_snoc.
  - rewrite zip_snoc, try_each_app, E by (rewrite Hs; apply length_fmap). simpl try_each.
    unfold execute_transaction. rewrite Hc.
    assert (wrap_u64 (h_gas_limit h - bd_cumulative_gas_used st) = h_gas_limit h - bd_cumulative_gas_used st) as ->.
    { apply wrap_u64_id. unfold is_u64. lia. }
    rewrite (proj2 (Z.ltb_ge _ _)), Ht by done. simpl.
    destruct (same_result_inr _ _ _ _ (load_depositor_proper (fork_at "Regolith" (h_timestamp h) s) t (ec_signer t) _ _ (symmetry Hx)) Hload)
      as ([dep' db1'] & -> & Hdep & Hdb1). simpl in Hdep, Hdb1. subst dep'. cbn [map_err try_].
    rewrite Hfill. fold (tx_env t). pose proof (transact_proper (mkEnv cfg benv (tx_env t)) _ _ Hdb1) as Hsame.
    pose proof (transact_state (mkEnv cfg benv (tx_env t)) db1) as S1. pose proof (transact_state (mkEnv cfg benv (tx_env t)) db1') as S2.
    rewrite Htr in Hsame, S1. destruct (transact _ db1') as [r2 d2]. simpl in Hsame, S1, S2. subst r2.
    eexists. split; [done|]. simpl. split_and!; [|done| |by rewrite Hfill in Hfresh].
    + apply commit_proper. by rewrite S1, S2, Hdb1.
    + rewrite fmap_app, <-Hr. simpl. do 2 f_equal. unfold clear_version, deposit_receipt_version. simpl.
      destruct (is_deposit t) eqn:Ed.
      * rewrite Hv by done. unfold is_deposit in Ed. by destruct (ec_transaction t).
      * unfold is_deposit in Ed. rewrite bool_decide_eq_false_2; [done|]. by destruct (ec_transaction t).
Qed.
End replay.

(** ** Iterators *)

(** What the builder needs of an iterator: its calls end within a bound, every transaction it
    yields is one of those offered, and it makes progress. *)
Class BestIteratorLaws (It : Type) `{BestTransactionsOps It} (P : ValidPoolTransaction → Prop) := {
  it_ok : It → Prop;
  it_work : It → nat;
  it_next it : it_ok it → ∃ r, ∀ fuel, (it_work it < fuel)%nat → bt_next fuel it = Done r;
  it_yields fuel it r it' :
    it_ok it → bt_next fuel it = Done (r, it') →
    it_ok it' ∧ ∀ t, r = Some t → P t ∧ (it_work it' < it_work it)%nat;
  it_mark t it : it_ok it → it_ok (bt_mark_invalid t it) ∧ (it_work (bt_mark_invalid t it) ≤ it_work it)%nat;
}.

(** ** The loops *)
Section loops.
Context `{EvmState} `{!EvmStateLaws} `{Externals} `{Payloads} `{!BuilderOps} `{PoolTransactionConversion} `{!ConversionLaws}.
Context (cancel : nat → bool) (c : PayloadConfig) (h : Header) (db0 : Db).
Context (Hlimit : is_u64 (h_gas_limit h)) (Hgas : h_gas_limit h = block_gas_limit c)
  (Hts : h_timestamp h = oa_timestamp (pc_attributes c)).
Notation s := (pc_chain_spec c).
Notation replays := (replays s (pc_initialized_cfg c) (pc_initialized_block_env c) h db0).
Notation tx_gas t := (Tx.gas_limit (ec_transaction t)).
Implicit Types (st : BuildState) (t : TransactionSignedEcRecovered).

Definition total_gas (l : list TransactionSignedEcRecovered) : Z := foldr (λ t n, tx_gas t + n) 0 l.
(** The transactions included, the gas they may have used, and the rest unchanged. *)
Definition included (l : list TransactionSignedEcRecovered) st st' : Prop :=
  bd_txs st' = bd_txs st ++ l ∧
  bd_cumulative_gas_used st ≤ bd_cumulative_gas_used st' ≤ bd_cumulative_gas_used st + total_gas l.
Lemma included_nil st : included [] st st.
Proof. split; [by rewrite app_nil_r|simpl; lia]. Qed.

Lemma include_tx_included t result db nonce version fees st e db1 state db2 :
  replays st → tx_gas t ≤ h_gas_limit h - bd_cumulative_gas_used st →
  transact (mkEnv e (pc_initialized_block_env c) (tx_env t)) db1 = (inr (result, state), db2) →
  included [t] st (include_tx t result db nonce version fees st).
Proof.
  intros Hr Hg Htr. pose proof (rp_gas _ _ _ _ _ _ Hr) as Hc. pose proof (transact_gas _ _ _ _ _ Htr) as Hu.
  assert (Hte : te_gas_limit (tx_env t) = tx_gas t) by (unfold tx_env, fill_tx_env; by destruct (ec_transaction t)).
  cbn [env_tx] in Hu. rewrite Hte in Hu. unfold is_u64 in Hlimit. split; [done|]. cbn [include_tx bd_cumulative_gas_used].
  rewrite wrap_u64_id by (unfold is_u64; lia). simpl. lia.
Qed.

Lemma build_sequencer_tx_ok t st st' :
  replays st → tx_gas t ≤ h_gas_limit h - bd_cumulative_gas_used st →
  build_sequencer_tx cancel c t st = inr st' →
  replays st' ∧ bd_total_fees st' = bd_total_fees st ∧ (included [] st st' ∨ included [t] st st').
Proof.
  intros Hr Hg. unfold build_sequencer_tx. destruct (cancel _); [done|]. destruct (is_eip4844 t) eqn:Eb; [done|].
  destruct (negb (recovers t)); [done|]. apply replays_polled in Hr.
  destruct (load_depositor _ _ _ _) as [e|[dep db]] eqn:El; [done|].
  pose proof (load_depositor_state _ _ _ _ _ _ El) as Hdb. pose proof (transact_state (mkEnv (pc_initialized_cfg c) (pc_initialized_block_env c) (tx_env t)) db) as Hst.
  destruct (transact _ _) as [[err|[result state]] db'] eqn:Etr; simpl in Hst.
  - destruct err; [|done..]. intros [= <-]. split_and!; [|done|left; exact (included_nil st)]. apply replays_db; [|done]. by rewrite Hst, Hdb.
  - intros [= <-]. split_and!; [|done|right].
    + eapply replays_include; [done|done|done|done|by rewrite Hts|exact Etr|]. intros _. by rewrite Hts.
    + exact (include_tx_included t result _ _ _ _ (polled st) _ _ _ _ Hr Hg Etr).
Qed.

Lemma sequencer_loop_ok l st st' :
  replays st → Forall (λ t, 0 ≤ tx_gas t) l → bd_cumulative_gas_used st + total_gas l ≤ h_gas_limit h →
  try_each (build_sequencer_tx cancel c) l st = inr st' →
  replays st' ∧ bd_total_fees st' = bd_total_fees st ∧ ∃ l', sublist l' l ∧ included l' st st'.
Proof.
  revert st. induction l as [|t l IH]; intros st Hr Hpos Hsum; simpl.
  { intros [= <-]. split_and!; [done..|]. exists []. split; [constructor|apply included_nil]. }
  apply Forall_cons in Hpos as [Ht Hpos]. simpl in Hsum.
  assert (Hrest : 0 ≤ total_gas l) by (clear -Hpos; induction Hpos; simpl; lia).
  destruct (build_sequencer_tx cancel c t st) as [|st1] eqn:E; [done|]. intros Hl.
  destruct (build_sequencer_tx_ok t st st1 Hr ltac:(lia) E) as (Hr1 & Hf1 & Hi).
  destruct (IH st1 Hr1 Hpos) as (Hr' & Hf' & l' & Hsub & Htx & Hc); [|done|].
  { destruct Hi as [[_ Hc]|[_ Hc]]; simpl in Hc; lia. }
  split_and!; [done|congruence|]. destruct Hi as [[Ht1 Hc1]|[Ht1 Hc1]]; rewrite Ht1 in Htx; simpl in Hc1.
  - exists l'. split; [by constructor|]. split; [by rewrite app_nil_r in Htx|lia].
  - exists (t :: l'). split; [by constructor|]. split; [by rewrite <-app_assoc in Htx|simpl; lia].
Qed.

(** ** The transactions of the pool *)

(** A transaction whose gas limit can be added to that of a block. *)
Definition offered (pool_tx : ValidPoolTransaction) : Prop :=
  convertible pool_tx ∧ 0 ≤ gas_limit pool_tx ∧ gas_limit pool_tx + block_gas_limit c < U64.
(** A transaction the builder may take. *)
Definition takes (pool_tx : ValidPoolTransaction) : Prop :=
  offered pool_tx ∧ is_eip4844 (to_recovered_transaction pool_tx) = false ∧ is_deposit (to_recovered_transaction pool_tx) = false.

Lemma skips_false pool_tx st :
  offered pool_tx → 0 ≤ bd_cumulative_gas_used st ≤ h_gas_limit h → skips c pool_tx st = false →
  takes pool_tx ∧ tx_gas (to_recovered_transaction pool_tx) ≤ h_gas_limit h - bd_cumulative_gas_used st.
Proof.
  intros (Hcv & H0' & HU) Hc. unfold skips. rewrite !orb_false_iff, Z.ltb_ge, Z.eqb_neq. intros (Hg & Hb & Hd).
  rewrite wrap_u64_id in Hg by (unfold is_u64; lia). rewrite recovered_gas by done. split; [|lia].
  unfold takes. split; [done|]. pose proof (recovered_type pool_tx Hcv) as Hty. rewrite <-Hty in Hd.
  unfold is_eip4844, is_deposit. destruct (ec_transaction (to_recovered_transaction pool_tx)) eqn:Et; try done.
  simpl in Hty. pose proof (recovered_blob pool_tx Hcv) as Hbl. rewrite Hb in Hbl. by rewrite <-Hty in Hbl.
Qed.

(** The fees of transactions with their receipts: the tip per gas times the gas used. *)
Fixpoint fees_of (base_fee previous : Z) (l : list (TransactionSignedEcRecovered * Receipt)) : Z :=
  match l with
  | [] => 0
  | (t, r) :: l =>
    default 0 (Tx.effective_tip_per_gas (ec_transaction t) (Some base_fee)) * (rc_cumulative_gas_used r - previous) +
    fees_of base_fee (rc_cumulative_gas_used r) l
  end.

(** From one state to a later one the builder takes transactions of the pool. *)
Record takes_all (l : list ValidPoolTransaction) st st' : Prop := {
  ta_takes : Forall takes l;
  ta_included : included (to_recovered_transaction <$> l) st st';
  ta_receipts : ∃ rs, bd_receipts st' = bd_receipts st ++ rs ∧ length rs = length l ∧
    bd_total_fees st' = wrap_u256 (bd_total_fees st +
      fees_of (be_basefee (pc_initialized_block_env c)) (bd_cumulative_gas_used st) (zip (to_recovered_transaction <$> l) rs));
}.

Definition fees_ok st : Prop := 0 ≤ bd_total_fees st < U256.
Lemma takes_none st st' :
  fees_ok st → bd_txs st' = bd_txs st → bd_cumulative_gas_used st' = bd_cumulative_gas_used st → bd_receipts st' = bd_receipts st →
  bd_total_fees st' = bd_total_fees st → takes_all [] st st'.
Proof.
  intros Hf Ht Hc Hr Hfe. split; [constructor|split; simpl; [by rewrite app_nil_r|lia]|].
  exists []. rewrite app_nil_r. split_and!; [done..|]. simpl. rewrite Z.add_0_r, Hfe. symmetry. by apply Z.mod_small.
Qed.
Lemma wrap_wrap x y : wrap_u256 (wrap_u256 x + y) = wrap_u256 (x + y).
Proof. apply Zplus_mod_idemp_l. Qed.
Lemma wrap_wrap_r x y : wrap_u256 (x + wrap_u256 y) = wrap_u256 (x + y).
Proof. apply Zplus_mod_idemp_r. Qed.
Lemma takes_cons pool_tx l st st1 st' :
  replays st1 → takes_all [pool_tx] st st1 → takes_all l st1 st' → takes_all (pool_tx :: l) st st'.
Proof.
  intros Hr [T1 [X1 C1] (rs1 & R1 & L1 & F1)] [T2 [X2 C2] (rs2 & R2 & L2 & F2)]. rewrite Forall_singleton in T1.
  destruct rs1 as [|r rs1]; [done|]. destruct rs1; [|done]. pose proof (rp_last _ _ _ _ _ _ Hr) as Hl.
  rewrite R1, last_snoc in Hl. simpl in Hl. split; [by constructor| |].
  - split; [by rewrite X2, X1, <-app_assoc|].
    change (total_gas (to_recovered_transaction <$> [pool_tx])) with (tx_gas (to_recovered_transaction pool_tx) + 0) in C1.
    change (total_gas (to_recovered_transaction <$> pool_tx :: l)) with
      (tx_gas (to_recovered_transaction pool_tx) + total_gas (to_recovered_transaction <$> l)). lia.
  - exists (r :: rs2). split_and!; [by rewrite R2, R1, <-app_assoc|simpl; by rewrite L2|].
    rewrite F2, F1, wrap_wrap, !fmap_cons. cbn [zip_with fees_of fmap list_fmap]. rewrite Hl. f_equal. lia.
Qed.

(** The tip of a transaction that was executed is defined. *)
Lemma executed_tip t db result state db' :
  is_deposit t = false → transact (mkEnv (pc_initialized_cfg c) (pc_initialized_block_env c) (tx_env t)) db = (inr (result, state), db') →
  is_Some (Tx.effective_tip_per_gas (ec_transaction t) (Some (be_basefee (pc_initialized_block_env c)))).
Proof.
  intros Hd Htr. assert (Hs : of_source_hash (te_optimism (tx_env t)) = None).
  { unfold is_deposit, tx_env, fill_tx_env in *. by destruct (ec_transaction t). }
  pose proof (transact_fee _ _ _ _ _ Htr Hs) as Hf. cbn [env_block env_tx] in Hf.
  assert (Hp : te_gas_price (tx_env t) = Tx.max_fee_per_gas (ec_transaction t)).
  { unfold is_deposit, tx_env, fill_tx_env in *. by destruct (ec_transaction t). }
  rewrite Hp in Hf. unfold Tx.effective_tip_per_gas. rewrite (proj2 (Z.ltb_ge _ _)) by done.
  destruct (Tx.max_priority_fee_per_gas _); by eexists.
Qed.

Lemma build_pool_tx_ok pool_tx st :
  replays st → fees_ok st → takes pool_tx → tx_gas (to_recovered_transaction pool_tx) ≤ h_gas_limit h - bd_cumulative_gas_used st →
  (∃ stop, build_pool_tx cancel c pool_tx st = Done (inl stop)) ∨
  ∃ mark st', build_pool_tx cancel c pool_tx st = Done (inr (mark, st')) ∧ replays st' ∧ fees_ok st' ∧
    (takes_all [] st st' ∨ takes_all [pool_tx] st st').
Proof.
  intros Hr Hf Ht Hg. unfold build_pool_tx. destruct (cancel _); [left; by eexists|]. set (t := to_recovered_transaction pool_tx) in *.
  apply replays_polled in Hr.
  pose proof (transact_state (mkEnv (pc_initialized_cfg c) (pc_initialized_block_env c) (tx_env t)) (bd_db (polled st))) as Hst.
  destruct (transact _ _) as [[err|[result state]] db'] eqn:Etr; simpl in Hst.
  - destruct err as [e| | | |]; [|left; by eexists..]. right. exists (if e then false else true), (set_db db' (polled st)).
    split; [by destruct e|]. split_and!; [by apply replays_db|done|]. left. by apply takes_none.
  - pose proof Ht as (Ho & Hb & Hd). fold t in Hb, Hd. destruct (executed_tip t _ _ _ _ Hd Etr) as [tip Etip]. rewrite Etip. right.
    eexists _, _. split; [done|]. split_and!.
    + eapply (replays_include s (pc_initialized_cfg c) (pc_initialized_block_env c) h db0 Hlimit t (polled st) None (bd_db st));
        [done|done|done| |exact Etr|by rewrite Hd]. unfold load_depositor. by rewrite Hd, andb_false_r.
    + split; apply Z.mod_pos_bound; done.
    + right. pose proof (include_tx_included t result (commit state db') None None
        (wrap_u256 (bd_total_fees (polled st) + wrap_u256 (tip * er_gas_used result))) (polled st) _ _ _ _ Hr Hg Etr) as Hi.
      split; [by apply Forall_singleton|exact Hi|]. eexists. split_and!; [done|done|].
      cbn [include_tx bd_total_fees fmap list_fmap zip_with fees_of rc_cumulative_gas_used polled bd_cumulative_gas_used].
      fold t. rewrite Etip, wrap_wrap_r. simpl default. f_equal. rewrite Z.add_0_r. do 2 f_equal.
      pose proof (transact_gas _ _ _ _ _ Etr) as Hu. pose proof (rp_gas _ _ _ _ _ _ Hr) as Hc. simpl in Hc.
      assert (Hte : te_gas_limit (tx_env t) = tx_gas t) by (unfold tx_env, fill_tx_env; by destruct (ec_transaction t)).
      cbn [env_tx] in Hu. rewrite Hte in Hu. unfold is_u64 in Hlimit. rewrite wrap_u64_id; [lia|]. unfold is_u64. lia.
Qed.

Lemma takes_skip l st st1 st' : takes_all [] st st1 → takes_all l st1 st' → takes_all l st st'.
Proof.
  intros [_ [X1 C1] (rs1 & R1 & L1 & F1)] [T2 [X2 C2] (rs2 & R2 & L2 & F2)]. destruct rs1; [|done].
  rewrite app_nil_r in R1. change (total_gas (to_recovered_transaction <$> [])) with 0 in C1.
  assert (Hc : bd_cumulative_gas_used st1 = bd_cumulative_gas_used st) by lia. rewrite Hc in C2, F2.
  split; [done|split; [by rewrite X2, X1, app_nil_r|done]|]. exists rs2. split_and!; [by rewrite R2, R1|done|].
  by rewrite F2, F1, Z.add_0_r, wrap_wrap.
Qed.

(** The loop over the pool, whatever the iterator and the environment do. *)
Section pool.
Context `{BestTransactionsOps It} `{!BestIteratorLaws It offered}.
Context (arrive : nat → It → It) (Harrive : ∀ n it, it_ok it → it_ok (arrive n it)).
Notation loop := (pool_loop cancel c arrive).

(** A round with enough fuel ends the loop or goes on with the next one. *)
Lemma pool_round round it st :
  it_ok it → replays st → fees_ok st →
  (∃ r, ∀ next_fuel fuel, (it_work (arrive round it) < next_fuel)%nat → loop next_fuel (S fuel) round it st = Done r) ∨
  ∃ it' st', it_ok it' ∧ replays st' ∧ fees_ok st' ∧ (it_work it' < it_work (arrive round it))%nat ∧
    ∀ next_fuel fuel, (it_work (arrive round it) < next_fuel)%nat →
      loop next_fuel (S fuel) round it st = loop next_fuel fuel (S round) it' st'.
Proof.
  intros Hit Hr Hf. pose proof (Harrive round _ Hit) as Ha. destruct (it_next _ Ha) as ([best it1] & En).
  destruct (it_yields _ _ _ _ Ha (En (S (it_work (arrive round it))) ltac:(lia))) as [Hit1 Hy].
  destruct best as [pool_tx|].
  2:{ left. exists (inr st). intros nf fuel Hn. simpl. by rewrite En. }
  destruct (Hy _ eq_refl) as [Ho Hw]. destruct (it_mark pool_tx it1 Hit1) as [Hm Hmw].
  destruct (skips c pool_tx st) eqn:Es.
  { right. exists (bt_mark_invalid pool_tx it1), st. split_and!; [done..|lia|]. intros nf fuel Hn. simpl. rewrite En by done. simpl. by rewrite Es. }
  destruct (skips_false _ _ Ho (rp_gas _ _ _ _ _ _ Hr) Es) as [Ht Hg].
  destruct (build_pool_tx_ok pool_tx st Hr Hf Ht Hg) as [[stop Eb]|(mark & st1 & Eb & Hr1 & Hf1 & Hc)].
  { left. exists (inl stop). intros nf fuel Hn. simpl. rewrite En by done. simpl. by rewrite Es, Eb. }
  right. exists (if mark then bt_mark_invalid pool_tx it1 else it1), st1. split_and!; [by destruct mark|done|done|destruct mark; lia|].
  intros nf fuel Hn. simpl. rewrite En by done. simpl. by rewrite Es, Eb.
Qed.

(** If transactions stop arriving the loop ends. *)
Lemma pool_loop_quiet round it st w :
  (∀ n it, (round ≤ n)%nat → arrive n it = it) → it_ok it → replays st → fees_ok st → (it_work it < w)%nat →
  ∃ r, ∀ next_fuel fuel, (w ≤ next_fuel)%nat → (w ≤ fuel)%nat → loop next_fuel fuel round it st = Done r.
Proof.
  revert round it st. induction w as [|w IH]; [lia|]. intros round it st Hq Hit Hr Hf Hw.
  destruct (pool_round round it st Hit Hr Hf) as [[r Hl]|(it' & st' & Hit' & Hr' & Hf' & Hw' & Hl)]; rewrite (Hq round it) in * by lia.
  - exists r. intros nf fuel Hn Hfu. destruct fuel as [|fuel]; [lia|]. apply Hl. lia.
  - destruct (IH (S round) it' st') as [r Hr2]; [intros n it2 Hn; apply Hq; lia|done..|lia|].
    exists r. intros nf fuel Hn Hfu. destruct fuel as [|fuel]; [lia|]. rewrite Hl by lia. apply Hr2; lia.
Qed.
Lemma pool_loop_ends k round it st :
  (∀ n it, (round + k ≤ n)%nat → arrive n it = it) → it_ok it → replays st → fees_ok st →
  ∃ w r, ∀ next_fuel fuel, (w ≤ next_fuel)%nat → (w ≤ fuel)%nat → loop next_fuel fuel round it st = Done r.
Proof.
  revert round it st. induction k as [|k IH]; intros round it st Hq Hit Hr Hf.
  { exists (S (it_work it)). eapply pool_loop_quiet; [|done..|lia]. intros n it' Hn. apply Hq. lia. }
  destruct (pool_round round it st Hit Hr Hf) as [[r Hl]|(it' & st' & Hit' & Hr' & Hf' & Hw' & Hl)].
  - exists (S (it_work (arrive round it))), r. intros nf fuel Hn Hfu. destruct fuel as [|fuel]; [lia|]. apply Hl. lia.
  - destruct (IH (S round) it' st') as (w & r & Hr2); [intros n it2 Hn; apply Hq; lia|done..|].
    exists (S (w + it_work (arrive round it))), r. intros nf fuel Hn Hfu. destruct fuel as [|fuel]; [lia|]. rewrite Hl by lia. apply Hr2; lia.
Qed.

(** What it leaves when it ends without being stopped. *)
Lemma pool_loop_ok next_fuel fuel round it st st' :
  it_ok it → replays st → fees_ok st → loop next_fuel fuel round it st = Done (inr st') →
  replays st' ∧ ∃ l, takes_all l st st'.
Proof.
  revert round it st. induction fuel as [|fuel IH]; [done|]. intros round it st Hit Hr Hf. simpl.
  destruct (bt_next next_fuel (arrive round it)) as [[best it1]| |] eqn:En; [|done..]. simpl.
  destruct (it_yields _ _ _ _ (Harrive round _ Hit) En) as [Hit1 Hy].
  destruct best as [pool_tx|]; [|intros [= <-]; split; [done|]; exists []; by apply takes_none].
  destruct (Hy _ eq_refl) as [Ho _]. destruct (it_mark pool_tx it1 Hit1) as [Hm _].
  destruct (skips c pool_tx st) eqn:Es; [by apply IH|].
  destruct (skips_false _ _ Ho (rp_gas _ _ _ _ _ _ Hr) Es) as [Ht Hg].
  destruct (build_pool_tx_ok pool_tx st Hr Hf Ht Hg) as [[stop ->]|(mark & st1 & -> & Hr1 & Hf1 & Hc)]; [done|]. simpl. intros Hl.
  assert (Hit2 : it_ok (if mark then bt_mark_invalid pool_tx it1 else it1)) by by destruct mark.
  destruct (IH _ _ _ Hit2 Hr1 Hf1 Hl) as [Hr' [l Hl']]. split; [done|].
  destruct Hc as [Hn|Hone]; [exists l; exact (takes_skip _ _ _ _ Hn Hl')|exists (pool_tx :: l); exact (takes_cons _ _ _ _ _ Hr1 Hone Hl')].
Qed.
End pool.
End loops.

(** ** The environment and the state around the transactions *)
Section around.
Context `{EvmState} `{!EvmStateLaws} `{Externals} `{!ExternalsLaws} `{Payloads} `{!BuilderOps}.
Implicit Types (s : OpChainSpec).

(** A chain of the OP stack at a block: its forks are conditions on the time, it has passed
    Bedrock, the merge and London, and the rules of Cancun are those of Ecotone. *)
Record chain_ok s (number timestamp total_difficulty : Z) : Prop := {
  co_forks : Forall (λ fork, match hf_fork fork (oc_hardforks s) with Timestamp _ | Never => True | _ => False end) OP_FORKS.*1;
  co_bedrock : active_at_block (hf_fork "Bedrock" (oc_hardforks s)) number = true;
  co_dragon : active_at_block (hf_fork "SpuriousDragon" (oc_hardforks s)) number = true;
  co_paris : active_at_ttd (hf_fork "Paris" (oc_hardforks s)) total_difficulty 0 = true;
  co_london : transitions_at_block (hf_fork "London" (oc_hardforks s)) number = false;
  co_cancun : is_cancun_active_at_timestamp timestamp (oc_hardforks s) = true;
  co_ecotone : fork_at "Ecotone" timestamp s = true;
  co_prague : is_prague_active_at_timestamp timestamp (oc_hardforks s) = false;
}.

(** The rules in force do not depend on how they are looked up. *)
Lemma first_active_ext f g l : (∀ x, x ∈ l.*1 → f x = g x) → first_active f l = first_active g l.
Proof.
  induction l as [|[x spec] l IH]; intros Hfg; [done|]. simpl in *. rewrite (Hfg x) by left. destruct (g x); [done|].
  apply IH. intros y Hy. apply Hfg. by right.
Qed.
Lemma first_active_app f l1 l2 :
  first_active f (l1 ++ l2) = match first_active f l1 with Some x => Some x | None => first_active f l2 end.
Proof. induction l1 as [|[x spec] l1 IH]; [done|]. simpl. by destruct (f x). Qed.
Lemma revm_spec_agrees s number timestamp td :
  chain_ok s number timestamp td →
  revm_spec s (mkHead number 0 0 td timestamp) = Done (revm_spec_by_timestamp_after_bedrock s timestamp).
Proof.
  intros [Hf Hb _ _ _ _ _]. unfold revm_spec, revm_spec_by_timestamp_after_bedrock. rewrite first_active_app.
  rewrite (first_active_ext _ (λ fork, active_at_timestamp (hf_fork fork (oc_hardforks s)) timestamp)).
  - destruct (first_active _ OP_FORKS); [done|]. simpl. unfold active_at_head. simpl. by rewrite Hb.
  - intros fork Hin. rewrite Forall_forall in Hf. specialize (Hf fork Hin). unfold active_at_head. simpl.
    destruct (hf_fork fork (oc_hardforks s)); try done. simpl. by rewrite orb_false_r.
Qed.
Lemma spec_by_timestamp s timestamp :
  fork_at "Ecotone" timestamp s = true →
  revm_spec_by_timestamp_after_bedrock s timestamp ∈ [Spec.ECOTONE; Spec.FJORD; Spec.GRANITE].
Proof.
  intros He. unfold revm_spec_by_timestamp_after_bedrock, OP_FORKS. simpl.
  destruct (active_at_timestamp (hf_fork "Granite" _) _); [set_solver|].
  destruct (active_at_timestamp (hf_fork "Fjord" _) _); [set_solver|].
  unfold fork_at, is_fork_active_at_timestamp in He. rewrite He. set_solver.
Qed.

Context (parent : SealedHeader) (extra : list Z) (a : OptimismPayloadBuilderAttributes) (s : OpChainSpec) (td : Z).
Notation c := (PayloadConfig_new parent extra a s).
Notation ph := (sh_header parent).

(** A job of the kind that the theorems are about.  The builder checks none of this before it builds:
    - the chain is one of the OP stack after Bedrock, the merge and London, at a time when Cancun and
      Ecotone are active and Prague is not, with forks by time;
    - the parent has a number below the largest one, a base fee, a gas limit of 64 bits, and blob
      fields exactly if Cancun is active at its time; the new block is later than it;
    - the extra data is at most 32 bytes long;
    - the attributes give the gas limit of the parent, or none (otherwise the block is built in
      another environment than it is executed in: [OpExamples.environments_differ]);
    - the gas limits of the transactions of the attributes add up to no more than that (otherwise
      the builder makes a block that is over its limit: [OpExamples.attributes_over_limit]). *)
Record job_ok : Prop := {
  jo_chain : chain_ok s (h_number ph + 1) (oa_timestamp a) td;
  jo_number : 0 ≤ h_number ph < U64 - 1;
  jo_time : h_timestamp ph < oa_timestamp a;
  jo_base_fee : is_Some (h_base_fee_per_gas ph);
  jo_blob :
    if is_cancun_active_at_timestamp (h_timestamp ph) (oc_hardforks s) then is_Some (h_excess_blob_gas ph) ∧ is_Some (h_blob_gas_used ph)
    else h_excess_blob_gas ph = None ∧ h_blob_gas_used ph = None;
  jo_extra : Z.of_nat (length extra) ≤ MAXIMUM_EXTRA_DATA_SIZE;
  jo_limit : is_u64 (h_gas_limit ph);
  jo_gas_limit : default (h_gas_limit ph) (oa_gas_limit a) = h_gas_limit ph;
  jo_transactions : Forall (λ t, 0 ≤ Tx.gas_limit (ec_transaction t)) (oa_transactions a);
  jo_total : total_gas (oa_transactions a) ≤ h_gas_limit ph;
}.

Lemma job_block_gas_limit : job_ok → block_gas_limit c = h_gas_limit ph.
Proof.
  intros J. pose proof (jo_limit J) as [_ Hl]. pose proof (jo_gas_limit J) as Hg. unfold block_gas_limit. simpl.
  destruct (oa_gas_limit a); simpl in *; [done|]. by rewrite (proj2 (Z.ltb_lt _ _) Hl).
Qed.
Lemma job_base_fee : job_ok → be_basefee (pc_initialized_block_env c) <? U64 = true.
Proof. intros J. apply Z.ltb_lt. cbn. destruct (jo_base_fee J) as [fee Ef]. unfold next_block_base_fee. rewrite Ef. apply wrap_u64_range. Qed.
Lemma job_number : job_ok → wrap_u64 (h_number ph + 1) = h_number ph + 1.
Proof. intros J. apply wrap_u64_id. pose proof (jo_number J). unfold is_u64. lia. Qed.

(** The excess blob gas of the header, of the environment and of the consensus rule agree. *)
Lemma job_excess :
  job_ok →
  let excess := calculate_excess_blob_gas (default 0 (h_excess_blob_gas ph)) (default 0 (h_blob_gas_used ph)) in
  blob_fields s (oa_timestamp a) ph = (Some 0, Some excess) ∧ be_blob_excess_gas (pc_initialized_block_env c) = Some excess.
Proof.
  intros J. pose proof (jo_blob J) as Hb. pose proof (jo_chain J) as Hc. unfold blob_fields. rewrite (co_cancun _ _ _ _ Hc). simpl.
  unfold next_block_excess_blob_gas. destruct (is_cancun_active_at_timestamp (h_timestamp ph) _).
  - destruct Hb as [[x ->] [y ->]]. done.
  - destruct Hb as [-> ->]. split; [done|]. simpl. rewrite spec_cancun, excess_zero; [done|].
    apply spec_by_timestamp, Hc.
Qed.

Lemma job_environment w sr tr rr lb gas_limit gas_used :
  job_ok → gas_limit = block_gas_limit c →
  fill_cfg_and_block_env s (built_header c w sr tr rr lb gas_limit gas_used) td =
  Done (pc_initialized_cfg c, pc_initialized_block_env c).
Proof.
  intros J ->. destruct (job_excess J) as [Hbf He]. unfold built_header. cbn [pc_parent_block pc_attributes pc_chain_spec PayloadConfig_new].
  unfold PayloadConfig_new, cfg_and_block_env in *. simpl in *. rewrite Hbf.
  unfold fill_cfg_and_block_env, fill_cfg_env. simpl. rewrite (job_number J), (revm_spec_agrees _ _ _ _ (jo_chain J)). simpl.
  rewrite He. unfold fill_block_env. simpl. rewrite spec_merge.
  - rewrite default_analysis. unfold is_optimism.
    assert (bool_decide (is_Some (hf_get "Bedrock" (oc_hardforks s))) = true) as ->.
    { apply bool_decide_eq_true. pose proof (co_bedrock _ _ _ _ (jo_chain J)) as Hb. unfold hf_fork in Hb.
      destruct (hf_get "Bedrock" _); [by eexists|done]. }
    rewrite orb_true_r. f_equal. f_equal. f_equal. exact (job_block_gas_limit J).
  - pose proof (spec_by_timestamp _ _ (co_ecotone _ _ _ _ (jo_chain J))) as Hs. set_solver.
Qed.

(** The executor makes the same changes before and after the transactions. *)
Lemma prepare_agrees db db' st :
  prepare c db = inr st → db ≡ db' →
  ∃ d1 d2, apply_beacon_root_contract_call s (oa_timestamp a) (be_number (pc_initialized_block_env c))
      (pa_parent_beacon_block_root (oa_payload_attributes a))
      (mkEnv (pc_initialized_cfg c) (pc_initialized_block_env c) TxEnv_default) db' = inr d1 ∧
    ensure_create2_deployer s (oa_timestamp a) d1 = inr d2 ∧ d2 ≡ bd_db st ∧ st = mkBuildState (bd_db st) 0 [] [] [] 0 0.
Proof.
  unfold prepare, pre_block_beacon_root_contract_call. simpl. intros Hp Hdb.
  destruct (apply_beacon_root_contract_call _ _ _ _ _ db) as [|e1] eqn:E1; [done|]. simpl in Hp.
  destruct (same_result_inr _ _ _ _ (beacon_call_proper _ _ _ _ _ _ _ Hdb) E1) as (d1 & -> & Hd1).
  destruct (ensure_create2_deployer s (oa_timestamp a) e1) as [|e2] eqn:E2; [done|]. simpl in Hp. injection Hp as <-.
  destruct (same_result_inr _ _ _ _ (create2_proper _ _ _ _ Hd1) E2) as (d2 & E3 & Hd2).
  exists d1, d2. by split_and!.
Qed.
Lemma withdrawals_agree ts ws db db' w db1 header txs :
  commit_withdrawals s ts ws db = inr (w, db1) → db ≡ db' →
  h_timestamp header = ts → h_difficulty header = 0 → active_at_ttd (hf_fork "Paris" (oc_hardforks s)) td 0 = true →
  ∃ db2, post_execution s (mkBlock header txs [] (wo_withdrawals w) None) td db' = inr db2 ∧ db1 ≡ db2.
Proof.
  intros Hw Hdb Hts Hdiff Hp. unfold post_execution, post_block_balance_increments, base_block_reward. simpl. rewrite Hdiff, Hp, Hts.
  unfold commit_withdrawals in Hw. unfold insert_post_block_withdrawals_balance_increments.
  destruct (increment_empty db') as (d & Hd & Hdd).
  destruct (is_shanghai_active_at_timestamp ts (oc_hardforks s)) eqn:Es; simpl in Hw.
  - destruct ws as [|w0 ws]; [injection Hw as <- <-; simpl; rewrite Hd; exists d; split; [done|by rewrite Hdd]|].
    destruct (increment_balances _ db) as [|db1'] eqn:Ei; [done|]. injection Hw as <- <-. simpl.
    destruct (same_result_inr _ _ _ _ (increment_proper _ _ _ Hdb) Ei) as (d2 & E2 & Hd2).
    unfold post_block_withdrawals_balance_increments, insert_post_block_withdrawals_balance_increments in E2. rewrite Es in E2. simpl in E2.
    rewrite E2. by exists d2.
  - injection Hw as <- <-. rewrite Hd. exists d. split; [done|by rewrite Hdd].
Qed.
End around.

(** ** Receipts *)
Section receipts.
Context `{Externals} `{!ExternalsLaws}.

Lemma logs_bloom_lor bloom logs :
  foldl (λ bloom log,
    foldl (λ bloom topic, m3_2048 bloom (Compact.to_be_bytes 32 topic))
      (m3_2048 bloom (Compact.to_be_bytes 20 (log_address log))) (ld_topics (log_data log))) bloom logs =
  Z.lor bloom (logs_bloom logs).
Proof.
  assert (Ht : ∀ topics b, foldl (λ bloom topic, m3_2048 bloom (Compact.to_be_bytes 32 topic)) b topics =
                           Z.lor b (foldl (λ bloom topic, m3_2048 bloom (Compact.to_be_bytes 32 topic)) 0 topics)).
  { induction topics as [|x l IH]; intros b; simpl; [by rewrite Z.lor_0_r|].
    rewrite IH, (IH (m3_2048 0 _)), (bloom_sets b). by rewrite Z.lor_assoc. }
  revert bloom. unfold logs_bloom. induction logs as [|log logs IH]; intros bloom; simpl; [by rewrite Z.lor_0_r|].
  rewrite IH, (IH (foldl _ (m3_2048 0 _) _)), !Z.lor_assoc. f_equal.
  rewrite (Ht _ (m3_2048 bloom _)), (Ht _ (m3_2048 0 _)), (bloom_sets bloom). by rewrite Z.lor_assoc.
Qed.
Lemma receipts_bloom_all l : receipts_bloom l = logs_bloom (mjoin (rc_logs <$> l)).
Proof.
  unfold receipts_bloom. assert (Hg : ∀ b, foldl (λ bloom r, Z.lor bloom (logs_bloom (rc_logs r))) b l =
                                    Z.lor b (logs_bloom (mjoin (rc_logs <$> l)))); [|by rewrite Hg, Z.lor_0_l].
  induction l as [|r l IH]; intros b; simpl; [by rewrite Z.lor_0_r|]. rewrite IH, <-Z.lor_assoc. f_equal.
  unfold logs_bloom at 3. rewrite foldl_app. symmetry. apply logs_bloom_lor.
Qed.
Lemma clear_version_logs r : rc_logs (clear_version r) = rc_logs r.
Proof. unfold clear_version. by case_bool_decide. Qed.
Lemma clear_version_gas r : rc_cumulative_gas_used (clear_version r) = rc_cumulative_gas_used r.
Proof. unfold clear_version. by case_bool_decide. Qed.
Lemma receipt_root_cleared l s ts : calculate_receipt_root_optimism (clear_version <$> l) s ts = calculate_receipt_root_optimism l s ts.
Proof.
  unfold calculate_receipt_root_optimism. destruct (_ && _); [|by rewrite receipt_root_clear].
  rewrite <-(receipt_root_clear (strip_deposit_nonce <$> l)), <-!list_fmap_compose. f_equal. apply list_fmap_ext.
  intros _ r _. unfold compose, clear_version, strip_deposit_nonce. simpl. by case_bool_decide.
Qed.
(** Receipts that agree with a header do so after their versions are cleared. *)
Lemma post_execution_cleared c h l :
  op_validate_block_post_execution c h (clear_version <$> l) [] = None ↔ op_validate_block_post_execution c h l [] = None.
Proof.
  assert (Hc : ∀ l', check_gas_used h l' = None ↔ h_gas_used h = default 0 (rc_cumulative_gas_used <$> last l')).
  { intros l'. unfold check_gas_used. destruct (Z.eqb_spec (h_gas_used h) (default 0 (rc_cumulative_gas_used <$> last l'))); naive_solver. }
  unfold op_validate_block_post_execution, op_verify_receipts. rewrite receipt_root_cleared, !receipts_bloom_all, <-list_fmap_compose.
  assert (rc_logs ∘ clear_version <$> l = rc_logs <$> l) as -> by (apply list_fmap_ext; intros _ r _; apply clear_version_logs).
  destruct (if active_at_block _ _ then _ else _); [done|]. rewrite !Hc, fmap_last.
  assert (rc_cumulative_gas_used <$> (clear_version <$> last l) = rc_cumulative_gas_used <$> last l) as ->; [|done].
  destruct (last l); simpl; [by rewrite clear_version_gas|done].
Qed.
End receipts.

(** ** A job that succeeds *)
Section job.
Context `{EvmState} `{!EvmStateLaws} `{Externals} `{!ExternalsLaws} `{Payloads} `{!BuilderOps} `{!BuilderLaws}.
Context `{PoolTransactionConversion} `{!ConversionLaws}.
Context (parent : SealedHeader) (extra : list Z) (a : OptimismPayloadBuilderAttributes) (s : OpChainSpec) (td : Z).
Notation c := (PayloadConfig_new parent extra a s).
Notation ts := (oa_timestamp a).
Notation benv := (pc_initialized_block_env c).
Context `{BestTransactionsOps It} `{!BestIteratorLaws It (offered c)}.
Context (cancel : nat → bool) (arrive : nat → It → It) (next_fuel fuel : nat) (best_transactions : Z → option Z → outcome It).
Notation build := (optimism_payload_builder cancel c arrive next_fuel best_transactions fuel).

(** The header of the block, given what the transactions left. *)
Definition header_of (st : BuildState) (w : WithdrawalsOutcome) (state_root : Z) : Header :=
  built_header c w state_root (calculate_transaction_root (bd_txs st))
    (calculate_receipt_root_optimism (bd_receipts st) (oc_spec s) ts) (logs_bloom (mjoin (rc_logs <$> bd_receipts st)))
    (block_gas_limit c) (bd_cumulative_gas_used st).
Definition block_of (st : BuildState) (w : WithdrawalsOutcome) (state_root : Z) : Block :=
  mkBlock (header_of st w state_root) (bd_txs st) [] (wo_withdrawals w) None.
Definition payload_of (st : BuildState) (w : WithdrawalsOutcome) (db : Db) (state_root trie : Z) : OptimismBuiltPayload :=
  let sealed := seal_slow (block_of st w state_root) in
  let o := mkExecutionOutcome (take_bundle PlainState db) (bd_receipts st) (be_number benv) [] in
  mkBuiltPayload (pa_id (oa_payload_attributes a)) sealed
    (Some (mkExecutedBlock sealed (bd_senders st) o (hash_bundle (take_bundle PlainState db)) trie)) (bd_total_fees st) [] s a.

Lemma finish_better best sp st payload :
  finish c best sp st = Done (inr (Better payload)) →
  ∃ w db state_root trie,
    commit_withdrawals s ts (pa_withdrawals (oa_payload_attributes a)) (bd_db st) = inr (w, db) ∧
    hashed_state_root_with_updates sp (hash_bundle (take_bundle PlainState db)) = inr (state_root, trie) ∧
    payload = payload_of st w db state_root trie.
Proof.
  unfold finish. destruct (negb _); [done|]. simpl. destruct (commit_withdrawals _ _ _ _) as [|[w db]]; [done|].
  unfold optimism_receipts_root_slow, block_logs_bloom, has_block. simpl. rewrite Z.leb_refl, Z.sub_diag. simpl.
  destruct (hashed_state_root_with_updates _ _) as [|[sr trie]] eqn:Er; [done|]. intros [= <-]. by exists w, db, sr, trie.
Qed.

(** The stages of a job, and what the transactions of the block are. *)
Record stages (payload : OptimismBuiltPayload) (sp : StateProvider) (st0 st1 st : BuildState) (l' : list TransactionSignedEcRecovered)
  (l : list ValidPoolTransaction) (w : WithdrawalsOutcome) (db : Db) (state_root trie : Z) (d1 d2 : Db) : Prop := {
  sg_state : state_by_block_hash (sh_hash parent) = inr sp;
  sg_beacon : apply_beacon_root_contract_call s ts (be_number benv) (pa_parent_beacon_block_root (oa_payload_attributes a))
    (mkEnv (pc_initialized_cfg c) benv TxEnv_default) (set_state_clear_flag true (build_state sp false)) = inr d1;
  sg_create2 : ensure_create2_deployer s ts d1 = inr d2;
  sg_attributes : sublist l' (oa_transactions a) ∧ included l' st0 st1 ∧ bd_total_fees st1 = 0 ∧
    default 0 (rc_cumulative_gas_used <$> last (bd_receipts st1)) = bd_cumulative_gas_used st1;
  sg_pool : takes_all c l st1 st ∧ (oa_no_tx_pool a = true → l = []);
  sg_start : bd_txs st0 = [] ∧ bd_cumulative_gas_used st0 = 0 ∧ bd_receipts st0 = [];
  sg_replays : replays s (pc_initialized_cfg c) benv (header_of st w state_root) d2 st;
  sg_withdrawals : commit_withdrawals s ts (pa_withdrawals (oa_payload_attributes a)) (bd_db st) = inr (w, db);
  sg_root : hashed_state_root_with_updates sp (hash_bundle (take_bundle PlainState db)) = inr (state_root, trie);
  sg_payload : payload = payload_of st w db state_root trie;
}.

Lemma header_of_fields st w sr :
  job_ok parent extra a s td → is_u64 (h_gas_limit (header_of st w sr)) ∧ h_gas_limit (header_of st w sr) = block_gas_limit c ∧
  h_timestamp (header_of st w sr) = ts ∧ h_number (header_of st w sr) = h_number (sh_header parent) + 1.
Proof.
  intros J. unfold header_of, built_header. destruct (blob_fields _ _ _) as [x y]. simpl.
  rewrite (job_block_gas_limit _ _ _ _ _ J), (job_number _ _ _ _ _ J). split_and!; [apply J|done..].
Qed.

Lemma built_stages best payload :
  job_ok parent extra a s td → (∀ n it, it_ok it → it_ok (arrive n it)) →
  (∀ fee blob it, best_transactions fee blob = Done it → it_ok it) →
  build best = Done (inr (Better payload)) →
  ∃ sp st0 st1 st l' l w db state_root trie d1 d2, stages payload sp st0 st1 st l' l w db state_root trie d1 d2.
Proof.
  intros J Harr Hbest. unfold optimism_payload_builder.
  change (pc_parent_block c) with parent. change (pc_attributes c) with a.
  destruct (state_by_block_hash _) as [|sp] eqn:Esp; [done|].
  destruct (assert_ (be_basefee benv <? U64)) as [[]| |]; [|done..]. rewrite bind_Done. destruct (best_transactions _ _) as [it| |] eqn:Eit; [|done..]. rewrite bind_Done.
  destruct (assert_ (be_number benv <? U64)) as [[]| |]; [|done..]. rewrite bind_Done.
  destruct (prepare c (build_state sp true)) as [|st0] eqn:Ep; [done|].
  destruct (prepare_agrees _ _ _ _ _ _ _ Ep (symmetry (build_clear sp false))) as (d1 & d2 & Hd1 & Hd2 & Hdb & Est0).
  destruct (try_each _ _ st0) as [[]|st1] eqn:E1; [done..|].
  intros Hrun.
  assert (∃ st, (if oa_no_tx_pool a then Done (inr st1) else pool_loop cancel c arrive next_fuel fuel 0 it st1) = Done (inr st) ∧
                finish c best sp st = Done (inr (Better payload))) as (st & Hloop & Hfin).
  { destruct (if oa_no_tx_pool a then _ else _) as [[[]|st]| |]; [done..|simpl in Hrun; by exists st|done|done]. }
  destruct (finish_better _ _ _ _ Hfin) as (w & db & sr & trie & Hw & Hroot & Hpay).
  destruct (header_of_fields st w sr J) as (Hlim & Hgas & Hts & _). set (hd := header_of st w sr) in *.
  assert (R0 : replays s (pc_initialized_cfg c) benv hd d2 st0).
  { rewrite Est0. split; simpl; [done|constructor|unfold is_u64 in Hlim; lia|done|].
    exists (mkExecState TxEnv_default 0 [] d2). split_and!; [done|exact Hdb|done|done|exact default_tx_env]. }
  destruct (sequencer_loop_ok cancel c hd d2 Hlim Hts (oa_transactions a) st0 st1 R0) as (R1 & F1 & l' & Hsub & Hinc);
    [apply J|rewrite Est0, Hgas, (job_block_gas_limit _ _ _ _ _ J); apply J|done|].
  assert (F0 : bd_total_fees st1 = 0) by (by rewrite F1, Est0).
  assert (Fok : fees_ok st1) by (unfold fees_ok; by rewrite F0).
  assert (∃ l, replays s (pc_initialized_cfg c) benv hd d2 st ∧ takes_all c l st1 st ∧ (oa_no_tx_pool a = true → l = [])) as (l & R & T & Hno).
  { destruct (oa_no_tx_pool a) eqn:Eno.
    - injection Hloop as <-. exists []. split_and!; [done| |done]. by apply takes_none.
    - destruct (pool_loop_ok cancel c hd d2 Hlim Hgas arrive Harr next_fuel fuel 0 it st1 st (Hbest _ _ _ Eit) R1 Fok Hloop) as (R & l & T).
      by exists l. }
  exists sp, st0, st1, st, l', l, w, db, sr, trie, d1, d2. split; try done; [|by rewrite Est0].
  split_and!; [done..|exact (rp_last _ _ _ _ _ _ R1)].
Qed.

(** *** The executor agrees *)
Lemma stages_execute payload sp st0 st1 st l' l w db sr trie d1 d2 :
  job_ok parent extra a s td → stages payload sp st0 st1 st l' l w db sr trie d1 d2 →
  ∃ db', op_execute s sp (block_of st w sr) (bd_senders st) td =
    Done (inr (mkExecutionOutput (take_bundle Reverts db') (clear_version <$> bd_receipts st) [] (bd_cumulative_gas_used st))) ∧ db ≡ db'.
Proof.
  intros J G. destruct (header_of_fields st w sr J) as (_ & _ & Hts & Hn).
  destruct (rp_state _ _ _ _ _ _ (sg_replays _ _ _ _ _ _ _ _ _ _ _ _ _ G)) as (xst & Ex & Hxdb & Hxc & Hxr & _).
  destruct (withdrawals_agree s td _ _ _ _ _ _ (header_of st w sr) (bd_txs st) (sg_withdrawals _ _ _ _ _ _ _ _ _ _ _ _ _ G) (symmetry Hxdb) Hts)
    as (db2 & Hpost & Hdb2).
  { unfold header_of, built_header. by destruct (blob_fields _ _ _). } { apply J. }
  exists db2. split; [|done]. unfold op_execute, execute_without_verification. change (blk_header (block_of st w sr)) with (header_of st w sr).
  rewrite (job_environment _ _ _ _ _ _ _ _ _ _ _ _ J eq_refl : fill_cfg_and_block_env s (header_of st w sr) td = _), bind_Done.
  unfold execute_pre_and_transactions, on_new_block. change (blk_header (block_of st w sr)) with (header_of st w sr).
  rewrite Hts, Hn, (co_dragon _ _ _ _ (jo_chain _ _ _ _ _ J)).
  assert (be_number benv = h_number (sh_header parent) + 1) as En by exact (job_number _ _ _ _ _ J).
  pose proof (sg_beacon _ _ _ _ _ _ _ _ _ _ _ _ _ G) as Hb. rewrite En in Hb.
  assert (h_parent_beacon_block_root (header_of st w sr) = pa_parent_beacon_block_root (oa_payload_attributes a)) as ->.
  { unfold header_of, built_header. by destruct (blob_fields _ _ _). }
  rewrite Hb. cbn [try_]. rewrite (sg_create2 _ _ _ _ _ _ _ _ _ _ _ _ _ G). cbn [try_ map_err blk_body block_of].
  rewrite Ex. cbn [try_]. fold (block_of st w sr) in Hpost. rewrite Hpost. cbn. by rewrite Hxr, Hxc.
Qed.

(** Executing the block of a payload on the state of its parent gives what the builder has found. *)
Definition executes (payload : OptimismBuiltPayload) : Prop :=
  let header := sh_header (sb_header (bp_block payload)) in
  ∃ sp executed output,
    state_by_block_hash (sh_hash parent) = inr sp ∧ bp_executed_block payload = Some executed ∧ eb_block executed = bp_block payload ∧
    op_execute s sp (unseal (bp_block payload)) (eb_senders executed) td = Done (inr output) ∧
    ex_receipts output = clear_version <$> eo_receipts (eb_execution_output executed) ∧
    ex_gas_used output = h_gas_used header ∧ hash_bundle (ex_state output) = eb_hashed_state executed ∧
    hashed_state_root_with_updates sp (hash_bundle (ex_state output)) = inr (h_state_root header, eb_trie executed).
Lemma built_executes best payload :
  job_ok parent extra a s td → (∀ n it, it_ok it → it_ok (arrive n it)) →
  (∀ fee blob it, best_transactions fee blob = Done it → it_ok it) →
  build best = Done (inr (Better payload)) → executes payload.
Proof.
  intros J Harr Hbest Hb. destruct (built_stages best payload J Harr Hbest Hb) as (sp & st0 & st1 & st & l' & l & w & db & sr & trie & d1 & d2 & G).
  destruct (stages_execute _ _ _ _ _ _ _ _ _ _ _ _ _ J G) as (db' & Hex & Hdb). rewrite (sg_payload _ _ _ _ _ _ _ _ _ _ _ _ _ G).
  eexists sp, _, _. split; [apply G|]. split; [done|]. split; [done|]. split; [exact Hex|]. cbn.
  assert (Hh : hash_bundle (take_bundle Reverts db') = hash_bundle (take_bundle PlainState db)) by (by rewrite hash_retention, Hdb).
  split_and!; [done| |done|].
  - unfold header_of, built_header. by destruct (blob_fields _ _ _).
  - rewrite Hh, (sg_root _ _ _ _ _ _ _ _ _ _ _ _ _ G). unfold header_of, built_header. by destruct (blob_fields _ _ _).
Qed.

(** C3. The executor accepts the blocks of the builder, with the same result: if a job that satisfies
    [job_ok] ends with a block, executing that block on the state of its parent succeeds; the
    receipts are those of the builder, except that the version of deposit receipts is cleared in
    others; the gas is the one in the header, and the state has the hash and the root that the
    builder has found.  [job_ok] assumes: forks by time, with Bedrock, the merge, London, Cancun and
    Ecotone active and Prague not; a parent with a base fee and the blob fields of its time, before
    the new block; the gas limit of the attributes is that of the parent, or there is none, and
    the transactions of the attributes fit in it.  The builder does not check these: with another
    gas limit the block is executed in another environment than it was built in, and with more gas
    in the attributes the executor refuses it.  The pool yields transactions that can be converted
    and whose gas limits do not overflow ([offered]). *)
Theorem built_block_executes best payload :
  job_ok parent extra a s td → (∀ n it, it_ok it → it_ok (arrive n it)) →
  (∀ fee blob it, best_transactions fee blob = Done it → it_ok it) →
  build best = Done (inr (Better payload)) →
  let header := sh_header (sb_header (bp_block payload)) in
  ∃ sp executed output,
    state_by_block_hash (sh_hash parent) = inr sp ∧ bp_executed_block payload = Some executed ∧ eb_block executed = bp_block payload ∧
    op_execute s sp (unseal (bp_block payload)) (eb_senders executed) td = Done (inr output) ∧
    ex_receipts output = clear_version <$> eo_receipts (eb_execution_output executed) ∧
    ex_gas_used output = h_gas_used header ∧ hash_bundle (ex_state output) = eb_hashed_state executed ∧
    hashed_state_root_with_updates sp (hash_bundle (ex_state output)) = inr (h_state_root header, eb_trie executed).
Proof. apply built_executes. Qed.

(** *** The consensus checks agree *)
Section consensus.
Context (now : Z).
Notation rules := (mkOptimismBeaconConsensus (oc_spec s)).
Notation sealed st w sr := (sb_header (seal_slow (block_of st w sr))).

Lemma built_header_alone st w sr hash :
  job_ok parent extra a s td → bd_cumulative_gas_used st ≤ h_gas_limit (header_of st w sr) →
  op_validate_header rules (mkSealedHeader hash (header_of st w sr)) = None ∧
  op_validate_header_with_total_difficulty now rules (header_of st w sr) td = None.
Proof.
  intros J. destruct (header_of_fields st w sr J) as (_ & Hg & _ & Hn). rewrite Hg. unfold header_of, built_header in *.
  destruct (blob_fields _ _ _) as [x y]. simpl in *. intros Hgas. split.
  - unfold op_validate_header, validate_header_gas, validate_header_base_fee. simpl.
    by rewrite (proj2 (Z.ltb_ge _ _) Hgas), andb_false_r.
  - unfold op_validate_header_with_total_difficulty, is_bedrock_active_at_block. simpl. rewrite Hn.
    rewrite (co_bedrock _ _ _ _ (jo_chain _ _ _ _ _ J) : active_at_block (hf_fork "Bedrock" (es_hardforks (oc_spec s))) _ = _).
    unfold validate_header_extradata. simpl. by rewrite (proj2 (Z.ltb_ge _ _) (jo_extra _ _ _ _ _ J)).
Qed.
Lemma built_header_after_parent st w sr hash :
  job_ok parent extra a s td →
  op_validate_header_against_parent rules (mkSealedHeader hash (header_of st w sr)) parent = None.
Proof.
  intros J. destruct (header_of_fields st w sr J) as (_ & _ & Hts & Hn). destruct (job_excess _ _ _ _ _ J) as [Hbf _].
  pose proof (jo_chain _ _ _ _ _ J) as Hc. unfold header_of, built_header in *. change (pc_chain_spec c) with s in *.
  change (pc_attributes c) with a in *. change (pc_parent_block c) with parent in *. rewrite Hbf in *. cbn in Hts, Hn.
  unfold op_validate_header_against_parent, validate_against_parent_hash_number, validate_against_parent_timestamp,
    validate_against_parent_eip1559_base_fee, validate_against_parent_4844, is_bedrock_active_at_block.
  cbn [sh_header h_number h_timestamp h_parent_hash h_base_fee_per_gas h_blob_gas_used h_excess_blob_gas op_chain_spec].
  fold (oc_hardforks s). rewrite Hn, !Z.eqb_refl, (co_bedrock _ _ _ _ Hc), (co_london _ _ _ _ Hc), (co_cancun _ _ _ _ Hc).
  unfold is_timestamp_in_past. cbn [h_timestamp]. rewrite (proj2 (Z.leb_gt _ _)) by (apply J). cbn [negb].
  destruct (jo_base_fee _ _ _ _ _ J) as [fee Ef].
  assert (next_block_base_fee calc_next_block_base_fee (base_fee_params_at_timestamp ts (oc_spec s)) (sh_header parent) = Some (be_basefee benv)) as ->.
  { cbn. unfold next_block_base_fee. by rewrite Ef. }
  rewrite Z.eqb_refl, bool_decide_eq_true_2 by done. cbn [negb]. by destruct (active_at_block (hf_fork "London" _) _).
Qed.
Lemma no_blob_gas st w sr :
  Forall (λ t, is_eip4844 t = false) (bd_txs st) → block_blob_gas_used (seal_slow (block_of st w sr)) = 0.
Proof.
  unfold block_blob_gas_used. cbn [seal_slow block_of sb_body blk_body]. intros Hf.
  assert (omap (λ t, tx_blob_gas_used (ec_transaction t)) (bd_txs st) = []) as ->; [|done].
  induction Hf as [|t l Ht _ IH]; [done|]. simpl. unfold is_eip4844 in Ht. unfold tx_blob_gas_used at 1. by destruct (ec_transaction t).
Qed.
Lemma built_block_matches st w sr db :
  job_ok parent extra a s td → Forall (λ t, is_eip4844 t = false) (bd_txs st) →
  commit_withdrawals s ts (pa_withdrawals (oa_payload_attributes a)) (bd_db st) = inr (w, db) →
  block_pre_execution (seal_slow (block_of st w sr)) (oc_spec s) = None.
Proof.
  intros J Hnb Hw. destruct (job_excess _ _ _ _ _ J) as [Hbf _]. pose proof (jo_chain _ _ _ _ _ J) as Hc.
  unfold block_pre_execution, check_withdrawals, check_blob_gas. rewrite (no_blob_gas st w sr Hnb).
  unfold seal_slow, block_of, header_of, built_header. change (pc_chain_spec c) with s.
  change (pc_attributes c) with a. change (pc_parent_block c) with parent. rewrite Hbf. cbn. rewrite !Z.eqb_refl. cbn.
  fold (oc_hardforks s). rewrite (co_cancun _ _ _ _ Hc), (co_prague _ _ _ _ Hc). unfold commit_withdrawals in Hw.
  destruct (is_shanghai_active_at_timestamp ts (oc_hardforks s)); [|done]. simpl in Hw. destruct (pa_withdrawals _) as [|w0 ws].
  - injection Hw as <- <-. simpl. by rewrite withdrawals_root_nil, Z.eqb_refl.
  - destruct (increment_balances _ _); [done|]. injection Hw as <- <-. simpl. by rewrite Z.eqb_refl.
Qed.
Lemma built_receipts_match st w sr hd d2 :
  job_ok parent extra a s td → replays s (pc_initialized_cfg c) benv hd d2 st →
  op_validate_block_post_execution rules (header_of st w sr) (bd_receipts st) [] = None.
Proof.
  intros J Hr. destruct (header_of_fields st w sr J) as (_ & _ & Hts & _). pose proof (rp_last _ _ _ _ _ _ Hr) as Hl.
  unfold op_validate_block_post_execution, op_verify_receipts, compare_receipts_root_and_logs_bloom, check_gas_used.
  rewrite Hts, Hl, receipts_bloom_all. unfold header_of, built_header. destruct (blob_fields _ _ _) as [x y]. simpl. rewrite !Z.eqb_refl. simpl.
  by destruct (active_at_block _ _).
Qed.

(** The checks that a payload passes as a block after the parent, with the receipts of the builder
    as well as those that the executor finds. *)
Record accepted (payload : OptimismBuiltPayload) : Prop := {
  ac_header : op_validate_header rules (sb_header (bp_block payload)) = None;
  ac_parent : op_validate_header_against_parent rules (sb_header (bp_block payload)) parent = None;
  ac_difficulty : op_validate_header_with_total_difficulty now rules (sh_header (sb_header (bp_block payload))) td = None;
  ac_body : block_pre_execution (bp_block payload) (oc_spec s) = None;
  ac_receipts executed : bp_executed_block payload = Some executed →
    let receipts := eo_receipts (eb_execution_output executed) in
    op_validate_block_post_execution rules (sh_header (sb_header (bp_block payload))) receipts [] = None ∧
    op_validate_block_post_execution rules (sh_header (sb_header (bp_block payload))) (clear_version <$> receipts) [] = None;
}.
Lemma built_accepted best payload :
  job_ok parent extra a s td → (∀ n it, it_ok it → it_ok (arrive n it)) →
  (∀ fee blob it, best_transactions fee blob = Done it → it_ok it) →
  build best = Done (inr (Better payload)) → accepted payload.
Proof.
  intros J Harr Hbest Hb. destruct (built_stages best payload J Harr Hbest Hb) as (sp & st0 & st1 & st & l' & l & w & db & sr & trie & d1 & d2 & G).
  pose proof (sg_replays _ _ _ _ _ _ _ _ _ _ _ _ _ G) as R. rewrite (sg_payload _ _ _ _ _ _ _ _ _ _ _ _ _ G).
  pose proof (built_receipts_match st w sr _ _ J R) as Hrec.
  destruct (built_header_alone st w sr (hash_slow (header_of st w sr)) J) as [H1' H2']; [apply R|].
  split; cbn [payload_of bp_block bp_executed_block].
  - exact H1'.
  - by apply built_header_after_parent.
  - exact H2'.
  - exact (built_block_matches st w sr db J (rp_no_blobs _ _ _ _ _ _ R) (sg_withdrawals _ _ _ _ _ _ _ _ _ _ _ _ _ G)).
  - intros executed [= <-]. cbn. split; [exact Hrec|]. by apply post_execution_cleared.
Qed.

(** C4. The consensus checks accept the blocks of the builder: if a job that satisfies [job_ok] ends
    with a block, its header keeps the rules of the OP stack, alone and after the parent, its body
    matches the header, and so do the receipts, the builder's as well as those that the executor
    finds.  [job_ok] assumes: forks by time, with Bedrock, the merge, London, Cancun and Ecotone
    active and Prague not; a parent with a base fee and the blob fields of its time, before the new
    block; extra data of at most 32 bytes; the gas limit of the attributes is that of the parent, or
    there is none, and the transactions of the attributes fit in it.  The builder does not check
    these: with more gas in the attributes it makes a header with more gas used than its limit. *)
Theorem built_block_valid best payload :
  job_ok parent extra a s td → (∀ n it, it_ok it → it_ok (arrive n it)) →
  (∀ fee blob it, best_transactions fee blob = Done it → it_ok it) →
  build best = Done (inr (Better payload)) →
  let block := bp_block payload in
  let header := sb_header block in
  op_validate_header rules header = None ∧ op_validate_header_against_parent rules header parent = None ∧
  op_validate_header_with_total_difficulty now rules (sh_header header) td = None ∧
  block_pre_execution block (oc_spec s) = None ∧
  ∀ executed, bp_executed_block payload = Some executed →
    let receipts := eo_receipts (eb_execution_output executed) in
    op_validate_block_post_execution rules (sh_header header) receipts [] = None ∧
    op_validate_block_post_execution rules (sh_header header) (clear_version <$> receipts) [] = None.
Proof.
  intros J Harr Hbest Hb. destruct (built_accepted best payload J Harr Hbest Hb) as [H1' H2' H3' H4' H5']. by split_and!.
Qed.
End consensus.

(** C17. What a built block holds, for a job that satisfies [job_ok]: first transactions of the
    attributes in their order, then transactions of the pool, none of which is a blob or deposit
    transaction, and none of the pool at all if the attributes say so; no blob transaction is in the
    block, the gas used does not exceed the gas limit, which is the one asked for, and the fees of
    the payload are the tips of the transactions of the pool.  [job_ok] assumes in particular that
    the gas limit of the attributes is that of the parent, or that there is none, and that the
    transactions of the attributes fit in it (otherwise the gas used may exceed the limit); the
    rest is on the forks of the chain and the header of the parent. *)
Theorem built_payload_contents best payload :
  job_ok parent extra a s td → (∀ n it, it_ok it → it_ok (arrive n it)) →
  (∀ fee blob it, best_transactions fee blob = Done it → it_ok it) →
  build best = Done (inr (Better payload)) →
  let header := sh_header (sb_header (bp_block payload)) in
  ∃ executed l' l before rs,
    bp_executed_block payload = Some executed ∧ sb_body (bp_block payload) = l' ++ (to_recovered_transaction <$> l) ∧
    sublist l' (oa_transactions a) ∧ Forall (takes c) l ∧ (oa_no_tx_pool a = true → l = []) ∧
    Forall (λ t, is_eip4844 t = false) (sb_body (bp_block payload)) ∧ eb_senders executed = ec_signer <$> sb_body (bp_block payload) ∧
    h_gas_used header ≤ h_gas_limit header ∧ h_gas_limit header = block_gas_limit c ∧
    eo_receipts (eb_execution_output executed) = before ++ rs ∧ length rs = length l ∧
    bp_fees payload = wrap_u256 (fees_of (be_basefee benv) (default 0 (rc_cumulative_gas_used <$> last before))
                                   (zip (to_recovered_transaction <$> l) rs)).
Proof.
  intros J Harr Hbest Hb. destruct (built_stages best payload J Harr Hbest Hb) as (sp & st0 & st1 & st & l' & l & w & db & sr & trie & d1 & d2 & G).
  pose proof (sg_replays _ _ _ _ _ _ _ _ _ _ _ _ _ G) as R. rewrite (sg_payload _ _ _ _ _ _ _ _ _ _ _ _ _ G).
  destruct (sg_attributes _ _ _ _ _ _ _ _ _ _ _ _ _ G) as (Hsub & [Hx _] & F0 & Hlast).
  destruct (sg_pool _ _ _ _ _ _ _ _ _ _ _ _ _ G) as [[Ht [Hx2 _] (rs & Hrs & Hlen & Hfees)] Hno].
  destruct (sg_start _ _ _ _ _ _ _ _ _ _ _ _ _ G) as (E0 & _). rewrite E0 in Hx. rewrite Hx in Hx2.
  pose proof (rp_gas _ _ _ _ _ _ R) as [_ Hg]. destruct (header_of_fields st w sr J) as (_ & Hgl & _).
  assert (Hgu : h_gas_used (header_of st w sr) = bd_cumulative_gas_used st).
  { unfold header_of, built_header. by destruct (blob_fields _ _ _). }
  eexists _, l', l, (bd_receipts st1), rs. split; [done|]. cbn.
  rewrite Hgu, Hlast. split_and!; try done; [apply R|apply R|]. by rewrite Hfees, F0.
Qed.
End job.

(** ** Building ends *)
Section ends.
Context `{EvmState} `{!EvmStateLaws} `{Externals} `{!ExternalsLaws} `{Payloads} `{!BuilderOps}.
Context `{PoolTransactionConversion} `{!ConversionLaws}.
Context (parent : SealedHeader) (extra : list Z) (a : OptimismPayloadBuilderAttributes) (s : OpChainSpec) (td : Z).
Notation c := (PayloadConfig_new parent extra a s).
Context `{BestTransactionsOps It} `{!BestIteratorLaws It (offered c)}.
Context (cancel : nat → bool) (arrive : nat → It → It) (best_transactions : Z → option Z → outcome It).

Lemma finish_ends best sp st : ∃ r, finish c best sp st = Done r.
Proof.
  unfold finish. destruct (negb _); [by eexists|]. destruct (commit_withdrawals _ _ _ _) as [|[w db]]; [by eexists|].
  unfold optimism_receipts_root_slow, block_logs_bloom, has_block. simpl. rewrite Z.leb_refl, Z.sub_diag. simpl.
  destruct (hashed_state_root_with_updates _ _) as [|[]]; by eexists.
Qed.
(** A header with the gas limit and the time of the job, to replay the loops with. *)
Definition limits : Header :=
  mkHeader 0 0 0 0 0 0 None 0 0 0 (block_gas_limit c) 0 (oa_timestamp a) 0 0 None None None None None [].

(** C18. Building ends: for a valid job ([job_ok]), if the pool returns an iterator and at some point no more
    transactions arrive, the builder returns a payload or says why there is none, without a panic.
    The bound on the fuel depends on the iterator and on what arrives. *)
Theorem builder_ends rounds :
  job_ok parent extra a s td → (∀ n it, it_ok it → it_ok (arrive n it)) → (∀ n it, (rounds ≤ n)%nat → arrive n it = it) →
  (∀ fee blob, ∃ it, best_transactions fee blob = Done it ∧ it_ok it) →
  ∃ bound, ∀ next_fuel fuel best, (bound ≤ next_fuel)%nat → (bound ≤ fuel)%nat →
    ∃ r, optimism_payload_builder cancel c arrive next_fuel best_transactions fuel best = Done r.
Proof.
  intros J Harr Hquiet Hbest. unfold optimism_payload_builder. change (pc_attributes c) with a.
  destruct (state_by_block_hash _) as [|sp]; [exists 0%nat; intros; by eexists|].
  rewrite (job_base_fee _ _ _ _ _ J).
  assert (be_number (pc_initialized_block_env c) <? U64 = true) as -> by (apply Z.ltb_lt, wrap_u64_range).
  destruct (Hbest (be_basefee (pc_initialized_block_env c)) ((λ gas, wrap_u64 (blob_gasprice gas)) <$> be_blob_excess_gas (pc_initialized_block_env c)))
    as (it & Eit & Hit). rewrite Eit. cbn [assert_ mbind outcome_bind].
  destruct (prepare c (build_state sp true)) as [|st0] eqn:Ep; [exists 0%nat; intros; by eexists|].
  destruct (prepare_agrees _ _ _ _ _ _ _ Ep (reflexivity _)) as (_ & _ & _ & _ & _ & Est0).
  set (db0 := bd_db st0) in *. clearbody db0. subst st0.
  destruct (try_each _ _ _) as [[]|st1] eqn:E1; [exists 0%nat; intros; by eexists..|].
  assert (Hlim : is_u64 (h_gas_limit limits)) by (cbn; rewrite (job_block_gas_limit _ _ _ _ _ J); apply J).
  assert (R0 : replays s (pc_initialized_cfg c) (pc_initialized_block_env c) limits db0 (mkBuildState db0 0 [] [] [] 0 0)).
  { split; simpl; [done|by apply Forall_nil|change (0 ≤ 0 ≤ h_gas_limit limits); unfold is_u64 in Hlim; lia|done|].
    exists (mkExecState TxEnv_default 0 [] db0). split_and!; [done|done|done|done|exact default_tx_env]. }
  destruct (sequencer_loop_ok cancel c limits db0 Hlim eq_refl (oa_transactions a) _ st1 R0) as (R1 & F1 & _);
    [apply J|cbn; rewrite (job_block_gas_limit _ _ _ _ _ J); apply J|done|].
  assert (Fok : fees_ok st1) by (unfold fees_ok; by rewrite F1).
  destruct (oa_no_tx_pool a).
  { exists 0%nat. intros. apply finish_ends. }
  destruct (pool_loop_ends cancel c limits db0 Hlim eq_refl arrive Harr rounds 0 it st1) as (bound & r & Hl); [done..|].
  exists bound. intros nf fuel best Hn Hf. rewrite (Hl nf fuel Hn Hf), bind_Done. destruct r as [[]|st]; [by eexists..|]. apply finish_ends.
Qed.
End ends.
