(* ===== verification/PayloadService.v ===== *)
(** * Payload jobs and their service

    [BasicPayloadJob] ([payload/basic/src/lib.rs]) improves a payload until the consensus client
    asks for it; [PayloadBuilderService] ([payload/builder/src/service.rs]) keeps the jobs by the
    identifiers of their payloads, polls them and answers commands.

    A build runs in a task of its own.  Tasks are kept in a store: a task has the arguments it was
    spawned with, the flag that cancels it, which every owner of the marker can set, and the
    channel of its result, on which nothing, a result, or the end of the task has been sent.  Only
    the build reads the flag, so that the build's own copy of the marker, which it drops when it
    returns, is left out; so are the cached reads, which only save time, and the permit a task waits
    for before it starts.  Timers are arguments: the time, and how often the interval of a job has
    ticked.  Durations are far from their limits, as those of the configuration are. *)

From stdpp Require Import prelude gmap list strings.
From S2P Require Import Prelude.
From S2P Require Import Best.
From S2P Require Import Header.
From S2P Require Import Consensus.
From S2P Require Import EngineTypes.
From S2P Require Import PayloadValidator.
From S2P Require Import Revm.
From S2P Require Import OpPayload.

Notation Payload := OptimismBuiltPayload.
Notation Attributes := OptimismPayloadBuilderAttributes.
Definition payload_id (a : Attributes) : Z := pa_id (oa_payload_attributes a).

(** ** Tasks *)
Inductive Channel (A : Type) := Empty | Sent (x : A) | Closed.
Arguments Empty {A}.
Arguments Sent {A} x.
Arguments Closed {A}.
Record BuildTask := mkBuildTask {
  tk_config : PayloadConfig;
  tk_best_payload : option Payload;
  tk_cancelled : bool;
  tk_channel : Channel (PayloadBuilderError + BuildOutcome);
}.
(** [BuildEmpty] runs [build_empty_payload]; [RunJob] a job with the given result. *)
Inductive Fallback := BuildEmpty (c : PayloadConfig) | RunJob (result : PayloadBuilderError + Payload).
Record FallbackTask := mkFallbackTask { fb_work : Fallback; fb_channel : Channel (PayloadBuilderError + Payload) }.
Record Tasks := mkTasks { ts_builds : gmap nat BuildTask; ts_fallbacks : gmap nat FallbackTask; ts_next : nat }.

Definition set_builds (b : gmap nat BuildTask) (w : Tasks) : Tasks := mkTasks b (ts_fallbacks w) (ts_next w).
Definition spawn_build (c : PayloadConfig) (best : option Payload) (w : Tasks) : nat * Tasks :=
  (ts_next w, mkTasks (<[ts_next w := mkBuildTask c best false Empty]> (ts_builds w)) (ts_fallbacks w) (S (ts_next w))).
Definition spawn_fallback (work : Fallback) (w : Tasks) : nat * Tasks :=
  (ts_next w, mkTasks (ts_builds w) (<[ts_next w := mkFallbackTask work Empty]> (ts_fallbacks w)) (S (ts_next w))).
(** [Cancelled::drop]. *)
Definition cancel_task (t : BuildTask) : BuildTask := mkBuildTask (tk_config t) (tk_best_payload t) true (tk_channel t).
Definition drop_pending (pending : option nat) (w : Tasks) : Tasks :=
  match pending with Some k => set_builds (alter cancel_task k (ts_builds w)) w | None => w end.
(** Polling the receiver of a oneshot channel; [None] is pending. *)
Definition receive_from {A} (c : Channel (PayloadBuilderError + A)) : option (PayloadBuilderError + A) :=
  match c with Empty => None | Sent r => Some r | Closed => Some (inl ChannelClosed) end.
Definition PendingPayload_poll (k : nat) (w : Tasks) : option (PayloadBuilderError + BuildOutcome) :=
  t ← ts_builds w !! k; receive_from (tk_channel t).

(** ** The builder *)
Inductive MissingPayloadBehaviour := AwaitInProgress | RaceEmptyPayload | RacePayload (result : PayloadBuilderError + Payload).

(** What a job uses of [PayloadBuilder]: [try_build c best cancelled r] says that a build with these
    arguments may return [r], if the flag was set by its end or not. *)
Class PayloadBuilder := {
  try_build : PayloadConfig → option Payload → bool → PayloadBuilderError + BuildOutcome → Prop;
  on_missing_payload : PayloadConfig → MissingPayloadBehaviour;
  empty_payload : PayloadConfig → outcome (PayloadBuilderError + Payload);
}.
(** And what it relies on: a build is not cancelled unless the flag is set, a better payload has
    higher fees, and an empty payload is built without a panic. *)
Class PayloadBuilderLaws `{PayloadBuilder} (configured : PayloadConfig → Prop) : Prop := {
  not_cancelled c best r : try_build c best false r → r ≠ inr Cancelled;
  better_fees c best b p : try_build c best b (inr (Better p)) → is_better_payload best (bp_fees p) = true;
  empty_built c : configured c → ∃ r, empty_payload c = Done r;
}.

(** ** Jobs *)
Record BasicPayloadJob := mkJob {
  jb_config : PayloadConfig;
  jb_deadline : Z;
  jb_best_payload : option Payload;
  jb_pending_block : option nat;
}.
Definition set_best (best : option Payload) (j : BasicPayloadJob) : BasicPayloadJob :=
  mkJob (jb_config j) (jb_deadline j) best (jb_pending_block j).
Definition set_pending (pending : option nat) (j : BasicPayloadJob) : BasicPayloadJob :=
  mkJob (jb_config j) (jb_deadline j) (jb_best_payload j) pending.
Definition spawn_build_job (j : BasicPayloadJob) (w : Tasks) : BasicPayloadJob * Tasks :=
  let '(k, w) := spawn_build (jb_config j) (jb_best_payload j) w in
  (set_pending (Some k) j, drop_pending (jb_pending_block j) w).

(** The body of the loop over the ticks of the interval. *)
Definition on_tick (jw : BasicPayloadJob * Tasks) : BasicPayloadJob * Tasks :=
  match jb_pending_block jw.1 with None => spawn_build_job jw.1 jw.2 | Some _ => jw end.
(** [poll]: whether the job has ended. *)
Definition job_poll (now : Z) (ticks : nat) (j : BasicPayloadJob) (w : Tasks) : outcome (bool * BasicPayloadJob * Tasks) :=
  if jb_deadline j <=? now then Done (true, j, w)
  else
    let '(j, w) := Nat.iter ticks on_tick (j, w) in
    match jb_pending_block j with
    | None => Done (false, j, w)
    | Some k =>
      let j := set_pending None j in
      match PendingPayload_poll k w with
      | Some (inr (Better payload)) => Done (false, set_best (Some payload) j, drop_pending (Some k) w)
      | Some (inr (Aborted _)) => Done (false, j, drop_pending (Some k) w)
      | Some (inr Cancelled) => Panics
      | Some (inl _) => Done (false, j, drop_pending (Some k) w)
      | None => Done (false, set_pending (Some k) j, w)
      end
    end.

Record ResolveBestPayload := mkResolve { rs_best_payload : option Payload; rs_maybe_better : option nat; rs_empty_payload : option nat }.
Definition resolve_is_empty (f : ResolveBestPayload) : bool :=
  match rs_best_payload f, rs_maybe_better f, rs_empty_payload f with None, None, None => true | _, _, _ => false end.
(** [ResolveBestPayload::poll]: first the task that may be better; then the payload, the
    fallback, or the error that there is nothing. *)
Definition resolve_rest (f : ResolveBestPayload) (w : Tasks) : option (PayloadBuilderError + Payload) * ResolveBestPayload :=
  match rs_best_payload f with
  | Some best => (Some (inr best), mkResolve None (rs_maybe_better f) (rs_empty_payload f))
  | None =>
    match (k ← rs_empty_payload f; t ← ts_fallbacks w !! k; receive_from (fb_channel t)) with
    | Some res => (Some res, mkResolve None (rs_maybe_better f) None)
    | None => (if resolve_is_empty f then Some (inl MissingPayload) else None, f)
    end
  end.
Definition resolve_poll (f : ResolveBestPayload) (w : Tasks)
  : option (PayloadBuilderError + Payload) * ResolveBestPayload * Tasks :=
  match (k ← rs_maybe_better f; res ← PendingPayload_poll k w; Some (k, res)) with
  | Some (k, res) =>
    let f := mkResolve (rs_best_payload f) None (rs_empty_payload f) in
    let w := drop_pending (Some k) w in
    match res with
    | inr (Better payload) => (Some (inr payload), f, w)
    | _ => (resolve_rest f w, w)
    end
  | None => (resolve_rest f w, w)
  end.

Section job.
Context `{PayloadBuilder}.

(** [PayloadJob::best_payload]. *)
Definition job_best_payload (j : BasicPayloadJob) : outcome (PayloadBuilderError + Payload) :=
  match jb_best_payload j with Some payload => Done (inr payload) | None => empty_payload (jb_config j) end.
(** [PayloadJob::resolve]; the job is not kept alive. *)
Definition job_resolve (j : BasicPayloadJob) (w : Tasks) : ResolveBestPayload * BasicPayloadJob * Tasks :=
  let best_payload := jb_best_payload j in
  let j := set_best None j in
  let '(j, w) :=
    match best_payload, jb_pending_block j with None, None => spawn_build_job j w | _, _ => (j, w) end in
  let maybe_better := jb_pending_block j in
  let j := set_pending None j in
  let '(empty, w) :=
    match best_payload with
    | Some _ => (None, w)
    | None =>
      match on_missing_payload (jb_config j) with
      | AwaitInProgress => (None, w)
      | RaceEmptyPayload => let '(k, w) := spawn_fallback (BuildEmpty (jb_config j)) w in (Some k, w)
      | RacePayload result => let '(k, w) := spawn_fallback (RunJob result) w in (Some k, w)
      end
    end in
  (mkResolve best_payload maybe_better empty, j, w).
End job.

(** ** The generator of jobs *)
Record BasicPayloadJobGenerator := mkGenerator { gn_extradata : list Z; gn_deadline : Z; gn_chain_spec : OpChainSpec }.
(** Times are numbers of nanoseconds, and [timestamp] a number of seconds. *)
Definition duration_until (unix_now timestamp : Z) : Z := Z.max 0 (timestamp * 10 ^ 9 - unix_now).
Definition max_job_duration (unix_now timestamp : Z) (g : BasicPayloadJobGenerator) : Z :=
  gn_deadline g + Z.min (duration_until unix_now timestamp) (gn_deadline g * 3).
Definition job_deadline (now unix_now timestamp : Z) (g : BasicPayloadJobGenerator) : Z :=
  now + max_job_duration unix_now timestamp g.
(** What the provider answers at some time. *)
Record Client := mkClient {
  cl_latest : ProviderError + option Block;
  cl_block_by_hash : Z → ProviderError + option Block;
}.

Section service.
Context `{EvmState} `{Externals} `{Payloads} `{PayloadBuilder}.

Definition find_parent (client : Client) (a : Attributes) : PayloadBuilderError + SealedHeader :=
  let parent := pa_parent (oa_payload_attributes a) in
  if parent =? 0 then
    match cl_latest client with
    | inl e => inl (into e)
    | inr None => inl (MissingParentBlock parent)
    | inr (Some block) => inr (sb_header (seal_slow block))
    end
  else
    match cl_block_by_hash client parent with
    | inl e => inl (into e)
    | inr None => inl (MissingParentBlock parent)
    | inr (Some block) => inr (mkSealedHeader parent (blk_header block))
    end.
Definition new_payload_job (now unix_now : Z) (client : Client) (g : BasicPayloadJobGenerator) (a : Attributes) (w : Tasks)
  : PayloadBuilderError + (BasicPayloadJob * Tasks) :=
  match find_parent client a with
  | inl e => inl e
  | inr parent_block =>
    let config := PayloadConfig_new parent_block (gn_extradata g) a (gn_chain_spec g) in
    inr (spawn_build_job (mkJob config (job_deadline now unix_now (oa_timestamp a) g) None None) w)
  end.

(** ** The service *)
Inductive PayloadServiceCommand :=
| BuildNewPayload (a : Attributes)
| BestPayload (id : Z)
| PayloadAttributes_ (id : Z)
| Resolve (id : Z)
| Subscribe.
Inductive Reply :=
| ReplyId (r : PayloadBuilderError + Z)
| ReplyBest (r : option (PayloadBuilderError + Payload))
| ReplyAttributes (r : option Attributes)
| ReplyResolve (future : option nat)
| ReplySubscribed.
Inductive Event := EventAttributes (a : Attributes) | EventBuiltPayload (p : Payload).

(** The service, the tasks of its jobs, and the futures it has handed out, each with the
    configuration of its job. *)
Record System := mkSystem {
  sy_jobs : list (BasicPayloadJob * Z);
  sy_tasks : Tasks;
  sy_futures : gmap nat (PayloadConfig * ResolveBestPayload);
  sy_events : list Event;
}.
Definition System_new : System := mkSystem [] (mkTasks ∅ ∅ 0) ∅ [].

(** [Vec::swap_remove]. *)
Definition swap_remove {A} (i : nat) (l : list A) : outcome (A * list A) :=
  match l !! i, last l with
  | Some x, Some y => Done (x, take (length l - 1) (<[i := y]> l))
  | _, _ => Panics
  end.
(** The loop over the jobs, from the last one down. *)
Fixpoint poll_jobs (now : Z) (ticks : nat → nat) (n : nat) (jobs : list (BasicPayloadJob * Z)) (w : Tasks)
  : outcome (list (BasicPayloadJob * Z) * Tasks) :=
  match n with
  | O => Done (jobs, w)
  | S idx =>
    '((job, id), jobs) ← swap_remove idx jobs;
    '(ready, job, w) ← job_poll now (ticks idx) job w;
    if ready : bool then poll_jobs now ticks idx jobs (drop_pending (jb_pending_block job) w)
    else poll_jobs now ticks idx (jobs ++ [(job, id)]) w
  end.

Definition find_job (id : Z) (jobs : list (BasicPayloadJob * Z)) : option (nat * (BasicPayloadJob * Z)) :=
  list_find (λ e : BasicPayloadJob * Z, e.2 = id) jobs.
Definition contains_payload (id : Z) (s : System) : bool := existsb (λ e : BasicPayloadJob * Z, e.2 =? id) (sy_jobs s).
(** [PayloadBuilderService::best_payload], [payload_attributes] and [resolve]. *)
Definition service_best_payload (id : Z) (s : System) : outcome (option (PayloadBuilderError + Payload)) :=
  match find_job id (sy_jobs s) with
  | Some (_, (job, _)) => r ← job_best_payload job; Done (Some r)
  | None => Done None
  end.
Definition service_payload_attributes (id : Z) (s : System) : option Attributes :=
  (λ e, pc_attributes (jb_config e.2.1)) <$> find_job id (sy_jobs s).
Definition service_resolve (id : Z) (s : System) : option nat * System :=
  match find_job id (sy_jobs s) with
  | None => (None, s)
  | Some (i, (job, _)) =>
    let '(fut, job, w) := job_resolve job (sy_tasks s) in
    let n := fresh (dom (sy_futures s)) in
    (Some n, mkSystem (delete i (sy_jobs s)) (drop_pending (jb_pending_block job) w) (<[n := (jb_config job, fut)]> (sy_futures s)) (sy_events s))
  end.

(** Polling a future that was handed out; one that is ready is dropped, and its payload broadcast. *)
Definition await_future (n : nat) (s : System) : option (PayloadBuilderError + Payload) * System :=
  match sy_futures s !! n with
  | None => (None, s)
  | Some (c, f) =>
    let '(r, f, w) := resolve_poll f (sy_tasks s) in
    match r with
    | None => (None, mkSystem (sy_jobs s) w (<[n := (c, f)]> (sy_futures s)) (sy_events s))
    | Some r =>
      (Some r,
       mkSystem (sy_jobs s) (drop_pending (rs_maybe_better f) w) (delete n (sy_futures s))
         (sy_events s ++ match r with inr p => [EventBuiltPayload p] | inl _ => [] end))
    end
  end.
(** A future that the caller drops. *)
Definition forget_future (n : nat) (s : System) : System :=
  match sy_futures s !! n with
  | None => s
  | Some (_, f) => mkSystem (sy_jobs s) (drop_pending (rs_maybe_better f) (sy_tasks s)) (delete n (sy_futures s)) (sy_events s)
  end.

(** The handling of a command: the reply, whether there is a new job, and the state. *)
Definition on_command (now unix_now : Z) (client : Client) (g : BasicPayloadJobGenerator) (cmd : PayloadServiceCommand) (s : System)
  : outcome (Reply * bool * System) :=
  match cmd with
  | BuildNewPayload a =>
    let id := payload_id a in
    if contains_payload id s then Done (ReplyId (inr id), false, s)
    else
      match new_payload_job now unix_now client g a (sy_tasks s) with
      | inr (job, w) =>
        Done (ReplyId (inr id), true, mkSystem (sy_jobs s ++ [(job, id)]) w (sy_futures s) (sy_events s ++ [EventAttributes a]))
      | inl e => Done (ReplyId (inl e), false, s)
      end
  | BestPayload id => r ← service_best_payload id s; Done (ReplyBest r, false, s)
  | PayloadAttributes_ id => Done (ReplyAttributes (service_payload_attributes id s), false, s)
  | Resolve id => let '(n, s) := service_resolve id s in Done (ReplyResolve n, false, s)
  | Subscribe => Done (ReplySubscribed, false, s)
  end.
(** One round of the loop in [poll]: the jobs, then the commands that have arrived, each with
    what the provider answers at its time; the flag says whether another round follows. *)
Definition service_round (now unix_now : Z) (ticks : nat → nat) (g : BasicPayloadJobGenerator)
  (commands : list (Client * PayloadServiceCommand)) (s : System) : outcome (list Reply * bool * System) :=
  '(jobs, w) ← poll_jobs now ticks (length (sy_jobs s)) (sy_jobs s) (sy_tasks s);
  for_each (λ '(client, cmd) '(replies, new_job, s),
      '(reply, new, s) ← on_command now unix_now client g cmd s; Done (replies ++ [reply], new_job || new, s))
    commands ([], false, mkSystem jobs w (sy_futures s) (sy_events s)).
End service.
