(* ===== verification/PayloadSteps.v ===== *)
(** * What the payload service guarantees

    Over every run of the service with its jobs and their tasks: a round ends without a panic and
    answers every command, a payload of a job is replaced by better ones only, and a request for
    a payload is answered with the best one.  With the builder of the OP stack, every payload that
    was built is a valid block of the chain. *)

From stdpp Require Import prelude gmap list strings.
From S2P Require Import Prelude.
From S2P Require Import PoolTx.
From S2P Require Import Best.
From S2P Require Import Header.
From S2P Require Import Consensus.
From S2P Require Import TreeState.
From S2P Require Import EngineTypes.
From S2P Require Import PayloadValidator.
From S2P Require Import Revm.
From S2P Require Import L1Info.
From S2P Require Import OpExecute.
From S2P Require Import OpPayload.
From S2P Require Import OpPayloadSteps.
From S2P Require Import PayloadService.

(** ** Tasks *)
Section tasks.
Context `{PayloadBuilder} (configured : PayloadConfig → Prop) `{!PayloadBuilderLaws configured}.
Implicit Types (w : Tasks) (j : BasicPayloadJob) (p : Payload).

(** What a task has sent is a result of a build with its arguments. *)
Definition sent_ok (t : BuildTask) : Prop :=
  ∀ r, tk_channel t = Sent r → ∃ b, (b = true → tk_cancelled t = true) ∧ try_build (tk_config t) (tk_best_payload t) b r.
Definition fallback_result (work : Fallback) (r : PayloadBuilderError + Payload) : Prop :=
  match work with BuildEmpty c => empty_payload c = Done r | RunJob r' => r = r' end.
Record tasks_ok w : Prop := {
  to_sent k t : ts_builds w !! k = Some t → sent_ok t ∧ (k < ts_next w)%nat;
  to_fallback k t r : ts_fallbacks w !! k = Some t → fb_channel t = Sent r → fallback_result (fb_work t) r;
  to_fresh k t : ts_fallbacks w !! k = Some t → (k < ts_next w)%nat;
}.
(** The tasks outside of a set of numbers stay as they are. *)
Record evolves (ks : option nat) w w' : Prop := {
  ev_builds k t : ts_builds w !! k = Some t → ks ≠ Some k → ts_builds w' !! k = Some t;
  ev_fallbacks k t : ts_fallbacks w !! k = Some t → ts_fallbacks w' !! k = Some t;
  ev_next : (ts_next w ≤ ts_next w')%nat;
}.
Lemma evolves_refl ks w : evolves ks w w.
Proof. by split. Qed.
Lemma evolves_trans ks w1 w2 w3 : evolves ks w1 w2 → evolves ks w2 w3 → evolves ks w1 w3.
Proof. intros [A1 B1 C1] [A2 B2 C2]. split; [eauto..|lia]. Qed.

Lemma drop_pending_ok ks w : tasks_ok w → tasks_ok (drop_pending ks w) ∧ evolves ks w (drop_pending ks w).
Proof.
  intros [Hs Hf Hn]. destruct ks as [k|]; [|by split]. split; split; simpl; try done.
  - intros k' t. rewrite lookup_alter_Some. intros [(<- & t' & Ht & ->)|[_ Ht]]; [|by apply Hs].
    destruct (Hs _ _ Ht) as [Hsent Hk]. split; [|done]. intros r Hr. destruct (Hsent r Hr) as (b & _ & Hb). by exists b.
  - intros k' t Ht Hne. rewrite lookup_alter_ne; [done|]. by intros ->.
Qed.
Lemma spawn_build_ok c best w :
  tasks_ok w → let '(k, w') := spawn_build c best w in
  tasks_ok w' ∧ evolves None w w' ∧ k = ts_next w ∧ ts_builds w' !! k = Some (mkBuildTask c best false Empty).
Proof.
  intros [Hs Hf Hn]. simpl. split_and!; [split|split|done|apply lookup_insert_eq]; simpl; try done.
  - intros k t. rewrite lookup_insert_Some. intros [[<- <-]|[_ Ht]]; [split; [done|lia]|]. destruct (Hs _ _ Ht). split; [done|lia].
  - intros k t Ht. apply Hn in Ht. lia.
  - intros k t Ht _. rewrite lookup_insert_ne; [done|]. apply Hs in Ht. lia.
  - lia.
Qed.
Lemma spawn_fallback_ok work w :
  tasks_ok w → let '(k, w') := spawn_fallback work w in
  tasks_ok w' ∧ evolves None w w' ∧ ts_builds w' = ts_builds w ∧ ts_fallbacks w' !! k = Some (mkFallbackTask work Empty).
Proof.
  intros [Hs Hf Hn]. simpl. split_and!; [split|split|done|apply lookup_insert_eq]; simpl; try done.
  - intros k t Ht. destruct (Hs _ _ Ht). split; [done|lia].
  - intros k t r. rewrite lookup_insert_Some. intros [[<- <-]|[_ Ht]]; [done|by eapply Hf].
  - intros k t. rewrite lookup_insert_Some. intros [[<- <-]|[_ Ht]]; [lia|]. apply Hn in Ht. lia.
  - intros k t Ht. rewrite lookup_insert_ne; [done|]. apply Hn in Ht. lia.
  - lia.
Qed.

(** ** Holders *)

(** Jobs and futures hold a configuration, the best payload so far and the task that may improve
    on it, which has not been cancelled. *)
Definition Holder : Type := PayloadConfig * option Payload * option nat.
Definition made (c : PayloadConfig) p : Prop := ∃ best b, try_build c best b (inr (Better p)).
Record holds w (h : Holder) : Prop := {
  ho_configured : configured h.1.1;
  ho_made p : h.1.2 = Some p → made h.1.1 p;
  ho_task k : h.2 = Some k → ∃ t, ts_builds w !! k = Some t ∧ tk_config t = h.1.1 ∧ tk_best_payload t = h.1.2 ∧ tk_cancelled t = false;
}.
Record holders_ok w (hs : list Holder) : Prop := {
  hk_holds : Forall (holds w) hs;
  hk_exclusive : NoDup (omap snd hs);
}.

Lemma holds_evolves ks w w' h : evolves ks w w' → (∀ k, h.2 = Some k → ks ≠ Some k) → holds w h → holds w' h.
Proof.
  intros Hev Hne [H1 H2 H3]. split; [done..|]. intros k Hk. destruct (H3 k Hk) as (t & Ht & Hrest). exists t. split; [|done].
  by apply (ev_builds _ _ _ Hev); [|apply Hne].
Qed.
Lemma holders_perm w hs hs' : hs ≡ₚ hs' → holders_ok w hs → holders_ok w hs'.
Proof. intros Hp [H1 H2]. split; [by rewrite <-Hp|]. by rewrite <-Hp. Qed.
(** A holder that gives up its task. *)
Lemma holders_drop w w' h hs : holders_ok w (h :: hs) → evolves h.2 w w' → holders_ok w' hs.
Proof.
  intros [H1 H2] Hev. apply Forall_cons in H1 as [_ H1]. split.
  - rewrite Forall_forall in *. intros h' Hin. pose proof (H1 h' Hin) as Hh'.
    eapply holds_evolves; [exact Hev| |exact Hh']. intros k Hk Hk'. simpl in H2. rewrite Hk' in H2.
    apply NoDup_cons in H2 as [Hn _]. apply Hn. apply list_elem_of_omap. by exists h'.
  - simpl in H2. destruct h.2; [by apply NoDup_cons in H2 as [_ H2]|done].
Qed.
(** A new holder, with a task that nobody holds. *)
Lemma holders_add w h hs :
  tasks_ok w → holders_ok w hs → holds w h → (∀ k, h.2 = Some k → k ∉ omap snd hs) → holders_ok w (h :: hs).
Proof.
  intros Hw [H1 H2] Hh Hn. split; [by constructor|]. simpl. destruct h.2 as [k|] eqn:E; [|done]. constructor; [by apply Hn|done].
Qed.
Lemma held_lt w hs k : tasks_ok w → holders_ok w hs → k ∈ omap snd hs → (k < ts_next w)%nat.
Proof.
  intros Hw [H1 _] (h & Hin & Hk)%list_elem_of_omap. rewrite Forall_forall in H1.
  destruct (ho_task _ _ (H1 h Hin) k Hk) as (t & Ht & _). by apply (to_sent _ Hw) in Ht as [_ ?].
Qed.
(** A holder that keeps its task or takes a new one. *)
Lemma holders_step w w' h h' hs :
  tasks_ok w → tasks_ok w' → holders_ok w (h :: hs) → evolves h.2 w w' → holds w' h' →
  (∀ k, h'.2 = Some k → h.2 = Some k ∨ (ts_next w ≤ k)%nat) → holders_ok w' (h' :: hs).
Proof.
  intros Hw Hw' Hhs Hev Hh' Hk. pose proof (holders_drop _ _ _ _ Hhs Hev) as Hd. apply holders_add; [done..|].
  intros k E Hin. destruct (Hk k E) as [Ho|Hge].
  - destruct Hhs as [_ Hnd]. simpl in Hnd. rewrite Ho in Hnd. by apply NoDup_cons in Hnd as [? _].
  - destruct Hhs as [Hall Hnd]. apply Forall_cons in Hall as [_ Hall].
    assert (Hrest : holders_ok w hs) by (split; [done|]; simpl in Hnd; destruct h.2; [by apply NoDup_cons in Hnd as [_ ?]|done]).
    pose proof (held_lt w hs k Hw Hrest Hin). lia.
Qed.

(** ** Jobs *)
Definition job_holder j : Holder := (jb_config j, jb_best_payload j, jb_pending_block j).
Definition future_holder (e : PayloadConfig * ResolveBestPayload) : Holder := (e.1, rs_best_payload e.2, rs_maybe_better e.2).
(** The best payload stays or is replaced by a better one. *)
Definition improves (best best' : option Payload) : Prop :=
  best' = best ∨ ∃ p, best' = Some p ∧ is_better_payload best (bp_fees p) = true.

(** What the build of a job has sent. *)
Definition channel_of (pending : option nat) w : option (Channel (PayloadBuilderError + BuildOutcome)) :=
  k ← pending; tk_channel <$> ts_builds w !! k.
(** A job that is polled before its deadline: a better payload that its build has sent is its payload,
    and any other result leaves the payload; a build that has ended is let go, one that runs is kept,
    and a job without a build may start one. *)
Record advances w j j' : Prop := {
  ad_config : jb_config j' = jb_config j;
  ad_deadline : jb_deadline j' = jb_deadline j;
  ad_improves : improves (jb_best_payload j) (jb_best_payload j');
  ad_payload :
    jb_best_payload j' =
      match channel_of (jb_pending_block j) w with Some (Sent (inr (Better p))) => Some p | _ => jb_best_payload j end;
  ad_pending :
    is_Some (jb_pending_block j) →
    jb_pending_block j' = match channel_of (jb_pending_block j) w with Some Empty => jb_pending_block j | _ => None end;
  ad_started k : jb_pending_block j = None → jb_pending_block j' = Some k → (ts_next w ≤ k)%nat;
}.

Lemma spawn_build_job_ok j w :
  tasks_ok w → holds w (job_holder j) → jb_pending_block j = None →
  let '(j', w') := spawn_build_job j w in
  tasks_ok w' ∧ evolves None w w' ∧ holds w' (job_holder j') ∧ j' = set_pending (Some (ts_next w)) j ∧
  ts_builds w' = <[ts_next w := mkBuildTask (jb_config j) (jb_best_payload j) false Empty]> (ts_builds w).
Proof.
  intros Hw Hh Hp. unfold spawn_build_job. pose proof (spawn_build_ok (jb_config j) (jb_best_payload j) w Hw) as Hs.
  destruct (spawn_build _ _ w) as [k w'] eqn:E. destruct Hs as (Hw' & Hev & -> & Ht). rewrite Hp. split_and!; [done..| |done|by injection E as <-].
  destruct Hh as [H1 H2 H3]. split; [done..|]. intros k [= <-]. by eexists.
Qed.
(** What a holder receives from its task is a result of an uncancelled build. *)
Lemma pending_received w h k r :
  tasks_ok w → holds w h → h.2 = Some k → PendingPayload_poll k w = Some r →
  r = inl ChannelClosed ∨ try_build h.1.1 h.1.2 false r.
Proof.
  intros Hw Hh Hk. destruct (ho_task _ _ Hh k Hk) as (t & Ht & Hc & Hb & Hn). unfold PendingPayload_poll. rewrite Ht. simpl.
  destruct (tk_channel t) as [|r'|] eqn:Ec; simpl; [done| |by intros [= <-]; left]. intros [= <-]. right.
  destruct (to_sent _ Hw _ _ Ht) as [Hsent _]. destruct (Hsent _ Ec) as (b & Hbt & Hbuild). rewrite Hc, Hb in Hbuild.
  destruct b; [|done]. rewrite Hbt in Hn; done.
Qed.
Lemma ticks_pending n j w : is_Some (jb_pending_block j) → Nat.iter n on_tick (j, w) = (j, w).
Proof. intros [k Hk]. induction n as [|n IH]; [done|]. simpl. rewrite IH. unfold on_tick. simpl. by rewrite Hk. Qed.
Lemma ticks_ok n j w :
  tasks_ok w → holds w (job_holder j) →
  let '(j', w') := Nat.iter n on_tick (j, w) in
  tasks_ok w' ∧ evolves None w w' ∧ holds w' (job_holder j') ∧ jb_config j' = jb_config j ∧ jb_deadline j' = jb_deadline j ∧
  jb_best_payload j' = jb_best_payload j ∧
  (jb_pending_block j' = jb_pending_block j ∨
   jb_pending_block j' = Some (ts_next w) ∧ ts_builds w' !! ts_next w = Some (mkBuildTask (jb_config j) (jb_best_payload j) false Empty)).
Proof.
  intros Hw Hh. destruct (jb_pending_block j) as [k|] eqn:Ep.
  { rewrite ticks_pending by (by eexists). split_and!; [done|apply evolves_refl|done..|by left]. }
  destruct n as [|n]; [simpl; split_and!; [done|apply evolves_refl|done..|by left]|].
  pose proof (spawn_build_job_ok j w Hw Hh Ep) as Hs.
  rewrite Nat.iter_succ_r. unfold on_tick at 2. simpl. rewrite Ep. destruct (spawn_build_job j w) as [j' w'].
  destruct Hs as (Hw' & Hev & Hh' & -> & Ht). rewrite ticks_pending by (by eexists). split_and!; [done..|]. right. by rewrite Ht, lookup_insert_eq.
Qed.

(** A job that is polled does not panic; it ends at its deadline, and only improves before. *)
Lemma job_poll_ok now ticks j w :
  tasks_ok w → holds w (job_holder j) →
  ∃ ready j' w', job_poll now ticks j w = Done (ready, j', w') ∧ tasks_ok w' ∧ evolves (jb_pending_block j) w w' ∧
    holds w' (job_holder j') ∧ (∀ k, jb_pending_block j' = Some k → jb_pending_block j = Some k ∨ (ts_next w ≤ k)%nat) ∧
    jb_config j' = jb_config j ∧ (if ready then jb_deadline j ≤ now ∧ j' = j else now < jb_deadline j ∧ advances w j j').
Proof.
  intros Hw Hh. unfold job_poll. destruct (Z.leb_spec (jb_deadline j) now) as [Hd|Hd].
  { eexists _, _, _. split; [done|]. split_and!; [done|apply evolves_refl|done|by left|done..]. }
  destruct (jb_pending_block j) as [k|] eqn:Ep.
  - rewrite ticks_pending by (by eexists). rewrite Ep.
    destruct (ho_task _ _ Hh k Ep) as (t & Ht & _).
    assert (Hch : channel_of (jb_pending_block j) w = Some (tk_channel t)) by (unfold channel_of; rewrite Ep; simpl; by rewrite Ht).
    destruct (PendingPayload_poll k w) as [r|] eqn:Er.
    2:{ eexists _, _, _. split; [done|]. split_and!; [done|apply evolves_refl| |by left|done|done|].
        { destruct Hh as [? ? H3]. split; [done..|]. simpl in *. by rewrite Ep in H3. }
        unfold PendingPayload_poll in Er. rewrite Ht in Er. simpl in Er.
        assert (tk_channel t = Empty) as Hc by (by destruct (tk_channel t)).
        split; try done; simpl; [by left|by rewrite Hch, Hc|by rewrite Hch, Hc, Ep|by rewrite Ep]. }
    destruct (drop_pending_ok (Some k) w Hw) as [Hw2 Hev2].
    assert (Hdone : ∀ best', (∀ p, best' = Some p → made (jb_config j) p) →
      holds (drop_pending (Some k) w) (jb_config j, best', None)) by (by destruct Hh; split).
    assert (Hr : receive_from (tk_channel t) = Some r) by (unfold PendingPayload_poll in Er; by rewrite Ht in Er).
    assert (Hsame : (∀ p, r ≠ inr (Better p)) → advances w j (set_pending None j)).
    { intros Hn. split; try done; simpl; [by left|..]; rewrite ?Hch.
      - destruct (tk_channel t) as [|[|[p| |]]|]; try done. simpl in Hr. injection Hr as <-. by destruct (Hn p).
      - by destruct (tk_channel t). }
    destruct (pending_received w _ k r Hw Hh Ep Er) as [->|Hb].
    { eexists _, _, _. split; [done|]. split_and!; [done..|apply Hdone; apply Hh|done|done|done|by apply Hsame]. }
    simpl in Hb. destruct r as [e|[payload|fees|]].
    + eexists _, _, _. split; [done|]. split_and!; [done..|apply Hdone; apply Hh|done|done|done|by apply Hsame].
    + eexists _, _, _. split; [done|]. split_and!; [done..|apply Hdone; intros ? [= <-]; by eexists _, _|done|done|done|].
      assert (tk_channel t = Sent (inr (Better payload))) as Hc by (destruct (tk_channel t); [done|by injection Hr as <-|done]).
      split; try done; simpl; rewrite ?Hch, ?Hc; [|done..].
      right. exists payload. split; [done|]. by apply (better_fees (configured := configured)) in Hb.
    + eexists _, _, _. split; [done|]. split_and!; [done..|apply Hdone; apply Hh|done|done|done|by apply Hsame].
    + by destruct (not_cancelled (configured := configured) _ _ _ Hb).
  - pose proof (ticks_ok ticks j w Hw Hh) as Ht. destruct (Nat.iter ticks on_tick (j, w)) as [j1 w1].
    destruct Ht as (Hw1 & Hev1 & Hh1 & Hc1 & Hd1 & Hb1 & Hp1).
    assert (advances w j j1) as Had.
    { split; try done; [by left|by rewrite Ep|by rewrite Ep; intros []|]. intros k _ Hk. rewrite Hk in Hp1. destruct Hp1 as [Hp1|[[= ->] _]]; [congruence|done]. }
    destruct (jb_pending_block j1) as [k|] eqn:Ek.
    2:{ eexists _, _, _. split; [done|]. split_and!; [done..|by rewrite Ek|done|done|done]. }
    destruct Hp1 as [?|[[= ->] Hnew]]; [congruence|]. unfold PendingPayload_poll. rewrite Hnew. simpl.
    eexists _, _, _. split; [done|]. assert (set_pending (Some (ts_next w)) (set_pending None j1) = j1) as -> by (destruct j1; by simplify_eq/=).
    split_and!; [done..|intros k; rewrite Ek; intros [= <-]; by right|done|done|done].
Qed.

(** The fallback of a job, and that the fallback of a future belongs to its job. *)
Definition fallback_of (c : PayloadConfig) (work : Fallback) : Prop :=
  match on_missing_payload c with
  | AwaitInProgress => False
  | RaceEmptyPayload => work = BuildEmpty c
  | RacePayload r => work = RunJob r
  end.
Definition fallback_ok w (e : PayloadConfig * ResolveBestPayload) : Prop :=
  ∀ k, rs_empty_payload e.2 = Some k → ∃ t, ts_fallbacks w !! k = Some t ∧ fallback_of e.1 (fb_work t).
Lemma fallback_evolves ks w w' e : evolves ks w w' → fallback_ok w e → fallback_ok w' e.
Proof. intros Hev Hf k Hk. destruct (Hf k Hk) as (t & Ht & Hr). exists t. split; [by apply Hev|done]. Qed.

(** Resolving a job hands its payload and its build over to the future; without a payload and a build
    a build is started, and without a payload the fallback of the builder. *)
Record takes_over w w' j (fut : ResolveBestPayload) : Prop := {
  ta_payload : rs_best_payload fut = jb_best_payload j;
  ta_build :
    match jb_best_payload j, jb_pending_block j with
    | None, None => ∃ k, rs_maybe_better fut = Some k ∧ ts_builds w !! k = None ∧
        ts_builds w' !! k = Some (mkBuildTask (jb_config j) None false Empty)
    | _, pending => rs_maybe_better fut = pending
    end;
  ta_fallback : is_Some (rs_empty_payload fut) ↔ jb_best_payload j = None ∧ on_missing_payload (jb_config j) ≠ AwaitInProgress;
  ta_fallback_of : fallback_ok w' (jb_config j, fut);
  ta_others : evolves None w w';
}.
(** The future of a job without a payload, once there is a build. *)
Lemma job_resolve_fallback c build w :
  tasks_ok w → holds w (c, None, build) →
  let '(empty, w') :=
    match on_missing_payload c with
    | AwaitInProgress => (None, w)
    | RaceEmptyPayload => let '(k, w) := spawn_fallback (BuildEmpty c) w in (Some k, w)
    | RacePayload result => let '(k, w) := spawn_fallback (RunJob result) w in (Some k, w)
    end in
  tasks_ok w' ∧ evolves None w w' ∧ ts_builds w' = ts_builds w ∧ holds w' (c, None, build) ∧
  fallback_ok w' (c, mkResolve None build empty) ∧ (is_Some empty ↔ on_missing_payload c ≠ AwaitInProgress).
Proof.
  intros Hw Hh.
  assert (Hfall : ∀ work, fallback_of c work →
    let '(k, w') := spawn_fallback work w in
    tasks_ok w' ∧ evolves None w w' ∧ ts_builds w' = ts_builds w ∧ holds w' (c, None, build) ∧ fallback_ok w' (c, mkResolve None build (Some k))).
  { intros work Hwork. pose proof (spawn_fallback_ok work w Hw) as Hs. destruct (spawn_fallback work w) as [k w'].
    destruct Hs as (Hw' & Hev' & Hb' & Ht'). split_and!; [done|done|done|by eapply holds_evolves|]. intros k' [= <-]. by eexists. }
  destruct (on_missing_payload c) as [| |r] eqn:Em.
  - split_and!; [done|apply evolves_refl|done|done|done|]. split; [by intros [? ?]|done].
  - destruct (Hfall (BuildEmpty c) ltac:(unfold fallback_of; by rewrite Em)) as (? & ? & ? & ? & ?). split_and!; [done..|]. by split; [|eexists].
  - destruct (Hfall (RunJob r) ltac:(unfold fallback_of; by rewrite Em)) as (? & ? & ? & ? & ?). split_and!; [done..|]. by split; [|eexists].
Qed.
Lemma job_resolve_ok j w :
  tasks_ok w → holds w (job_holder j) →
  let '(fut, j', w') := job_resolve j w in
  tasks_ok w' ∧ holds w' (future_holder (jb_config j, fut)) ∧ takes_over w w' j fut ∧ resolve_is_empty fut = false ∧
  jb_pending_block j' = None ∧ jb_config j' = jb_config j ∧
  (∀ k, rs_maybe_better fut = Some k → jb_pending_block j = Some k ∨ (ts_next w ≤ k)%nat).
Proof.
  intros Hw Hh. unfold job_resolve. destruct (jb_best_payload j) as [b|] eqn:Eb.
  { simpl. split_and!; try done; [| |by left].
    - destruct Hh as [H1 H2 H3]. simpl in *. rewrite Eb in H2, H3. by split.
    - split; rewrite ?Eb; simpl; try done. by split; [intros [? ?]|intros []]. }
  assert (Hh' : holds w (job_holder (set_best None j))) by (destruct Hh as [H1 H2 H3]; unfold job_holder in *; rewrite Eb in *; by split).
  destruct (jb_pending_block (set_best None j)) as [k|] eqn:Ep; simpl in Ep.
  - simpl. rewrite Ep. unfold job_holder in Hh'. simpl in Hh'. rewrite Ep in Hh'. pose proof (job_resolve_fallback _ _ w Hw Hh') as Hr.
    destruct (match on_missing_payload _ with AwaitInProgress => _ | _ => _ end) as [empty w']. destruct Hr as (Hw' & Hev & _ & Hhf & Hfb & He).
    split_and!; [done..| |done|done|done|by left]. split; rewrite ?Eb, ?Ep; simpl; try done. rewrite He. naive_solver.
  - pose proof (spawn_build_job_ok (set_best None j) w Hw Hh' Ep) as Hs. destruct (spawn_build_job _ w) as [j1 w1].
    destruct Hs as (Hw1 & Hev1 & Hh1 & -> & Ht1). simpl in Ht1. unfold job_holder in Hh1. simpl in Hh1 |- *.
    pose proof (job_resolve_fallback _ _ w1 Hw1 Hh1) as Hr.
    destruct (match on_missing_payload _ with AwaitInProgress => _ | _ => _ end) as [empty w']. destruct Hr as (Hw' & Hev & Htw & Hhf & Hfb & He).
    split_and!; [done..| |done|done|done|intros k [= <-]; by right]. split; rewrite ?Eb, ?Ep; simpl; try done.
    + exists (ts_next w). split_and!; [done| |by rewrite Htw, Ht1, lookup_insert_eq].
      destruct (ts_builds w !! ts_next w) eqn:E; [|done]. apply (to_sent _ Hw) in E as [_ ?]. lia.
    + rewrite He. naive_solver.
    + by eapply evolves_trans.
Qed.
End tasks.

(** ** The service *)
Lemma swap_remove_middle {A} (l d : list A) x : ∃ d', swap_remove (length l) (l ++ x :: d) = Done (x, l ++ d') ∧ d' ≡ₚ d.
Proof.
  unfold swap_remove. rewrite list_lookup_middle by done. destruct d as [|y d _] using rev_ind.
  - rewrite last_snoc, length_app. simpl. rewrite Nat.add_sub, insert_app_r_alt, Nat.sub_diag by done. simpl.
    rewrite take_app_length. exists []. by rewrite app_nil_r.
  - rewrite last_app, app_comm_cons, last_snoc. rewrite insert_app_r_alt, Nat.sub_diag by done. simpl.
    exists (y :: d). split; [|apply Permutation_cons_append].
    replace (length _ - 1)%nat with (length (l ++ y :: d)) by (rewrite !length_app; simpl; rewrite length_app; simpl; lia).
    by rewrite app_comm_cons, app_assoc, take_app_length.
Qed.

Section service.
Context `{EvmState} `{Externals} `{Payloads} `{PayloadBuilder} (g : BasicPayloadJobGenerator).
Context (configured : PayloadConfig → Prop) `{!PayloadBuilderLaws configured}.
Implicit Types (s : System) (w : Tasks) (jobs : list (BasicPayloadJob * Z)) (fs : gmap nat (PayloadConfig * ResolveBestPayload)).

Definition holders jobs fs : list Holder := ((λ e, job_holder e.1) <$> jobs) ++ (future_holder <$> (map_to_list fs).*2).
Record sys_ok s : Prop := {
  sk_tasks : tasks_ok (sy_tasks s);
  sk_holders : holders_ok configured (sy_tasks s) (holders (sy_jobs s) (sy_futures s));
  sk_ids : Forall (λ e, payload_id (pc_attributes (jb_config e.1)) = e.2) (sy_jobs s);
  sk_unique : NoDup (sy_jobs s).*2;
  sk_fallbacks : map_Forall (λ _ e, fallback_ok (sy_tasks s) e) (sy_futures s);
  sk_alive : map_Forall (λ _ e, resolve_is_empty e.2 = false) (sy_futures s);
}.

Lemma sys_new_ok : sys_ok System_new.
Proof. split; simpl; [by split|split; constructor|constructor|constructor|apply map_Forall_empty|apply map_Forall_empty]. Qed.
Lemma sys_ok_perm jobs jobs' w fs ev : jobs ≡ₚ jobs' → sys_ok (mkSystem jobs w fs ev) → sys_ok (mkSystem jobs' w fs ev).
Proof.
  intros Hp [H1' H2' H3' H4' H5' H6']. split; simpl in *; [done| |by rewrite <-Hp|by rewrite <-Hp|done|done].
  eapply holders_perm; [|exact H2']. unfold holders. by rewrite Hp.
Qed.
(** The first job is changed, dropped, or there is a new one. *)
Lemma sys_ok_job jobs w w' fs ev j j' id :
  sys_ok (mkSystem ((j, id) :: jobs) w fs ev) → tasks_ok w' → evolves (jb_pending_block j) w w' →
  holds configured w' (job_holder j') → (∀ k, jb_pending_block j' = Some k → jb_pending_block j = Some k ∨ (ts_next w ≤ k)%nat) →
  jb_config j' = jb_config j → sys_ok (mkSystem ((j', id) :: jobs) w' fs ev).
Proof.
  intros [H1' H2' H3' H4' H5' H6'] Hw Hev Hh Hk Hc. split; simpl in *; [done| | |done| |done].
  - exact (holders_step _ _ _ _ _ _ H1' Hw H2' Hev Hh Hk).
  - apply Forall_cons in H3' as [Hid H3']. constructor; [|done]. simpl in *. by rewrite Hc.
  - intros n e He. by eapply fallback_evolves, H5'.
Qed.
Lemma sys_ok_drop jobs w w' fs ev j id :
  sys_ok (mkSystem ((j, id) :: jobs) w fs ev) → tasks_ok w' → evolves (jb_pending_block j) w w' → sys_ok (mkSystem jobs w' fs ev).
Proof.
  intros [H1' H2' H3' H4' H5' H6'] Hw Hev. split; simpl in *; [done| |by apply Forall_cons in H3' as [_ ?]|by apply NoDup_cons in H4' as [_ ?]| |done].
  - exact (holders_drop _ _ _ _ _ H2' Hev).
  - intros n e He. by eapply fallback_evolves, H5'.
Qed.

(** What polling does to a list of jobs: one at its deadline is gone, any other advances, and there
    are no more. *)
Definition polled now w jobs jobs' : Prop :=
  (∀ j id, (j, id) ∈ jobs → if decide (jb_deadline j ≤ now) then id ∉ jobs'.*2 else ∃ j', (j', id) ∈ jobs' ∧ advances w j j') ∧
  (∀ id, id ∈ jobs'.*2 → id ∈ jobs.*2).
(** Tasks that nobody but a job itself has touched. *)
Lemma advances_before w w' j j' :
  channel_of (jb_pending_block j) w' = channel_of (jb_pending_block j) w → (ts_next w ≤ ts_next w')%nat →
  advances w' j j' → advances w j j'.
Proof.
  intros Hc Hn [? ? ? Hp Hk Hs]. split; [done..|by rewrite <-Hc|by rewrite <-Hc|]. intros k Hj Hk'. specialize (Hs k Hj Hk'). lia.
Qed.
Lemma polled_before now w w' jobs jobs' :
  (∀ e, e ∈ jobs → channel_of (jb_pending_block e.1) w' = channel_of (jb_pending_block e.1) w) → (ts_next w ≤ ts_next w')%nat →
  polled now w' jobs jobs' → polled now w jobs jobs'.
Proof.
  intros Hc Hn [H1' H2']. split; [|done]. intros j id Hin. specialize (H1' j id Hin). destruct (decide _); [done|].
  destruct H1' as (j' & Hj' & Ha). exists j'. split; [done|]. eapply advances_before; [exact (Hc (j, id) Hin)|done|done].
Qed.
(** The first job of a list and the others have different tasks. *)
Lemma others_untouched jobs w w' fs ev j id e :
  sys_ok (mkSystem ((j, id) :: jobs) w fs ev) → evolves (jb_pending_block j) w w' → e ∈ jobs →
  channel_of (jb_pending_block e.1) w' = channel_of (jb_pending_block e.1) w.
Proof.
  intros Hok Hev Hin. destruct (jb_pending_block e.1) as [k|] eqn:Ek; [|done].
  destruct (sk_holders _ Hok) as [Hh Hnd]. simpl in Hh, Hnd. apply Forall_cons in Hh as [_ Hh].
  assert (job_holder e.1 ∈ holders jobs fs) as Hin' by (apply elem_of_app; left; apply list_elem_of_fmap; by exists e).
  rewrite Forall_forall in Hh. destruct (ho_task _ _ _ (Hh _ Hin') k Ek) as (t & Ht & _). unfold channel_of. simpl. rewrite Ht.
  rewrite (ev_builds _ _ _ Hev k t Ht); [done|]. intros Hk. rewrite Hk in Hnd. apply NoDup_cons in Hnd as [Hnd _]. apply Hnd.
  apply list_elem_of_omap. by exists (job_holder e.1).
Qed.
Lemma poll_jobs_ok now ticks jobs done w fs ev :
  sys_ok (mkSystem (jobs ++ done) w fs ev) →
  ∃ jobs' l w', poll_jobs now ticks (length jobs) (jobs ++ done) w = Done (l, w') ∧ sys_ok (mkSystem l w' fs ev) ∧
    l ≡ₚ jobs' ++ done ∧ polled now w jobs jobs'.
Proof.
  revert done w. induction jobs as [|[j id] jobs IH] using rev_ind; intros don w Hok.
  { exists [], don, w. split_and!; [done..|]. split; [by intros ? ? ?%elem_of_nil|done]. }
  rewrite length_app, Nat.add_1_r. simpl. rewrite <-app_assoc in *. simpl in *.
  destruct (swap_remove_middle jobs don (j, id)) as (don1 & -> & Hp1). rewrite bind_Done.
  apply (sys_ok_perm _ ((j, id) :: jobs ++ don1)) in Hok; [|by rewrite Hp1, Permutation_middle].
  pose proof (hk_holds _ _ _ (sk_holders _ Hok)) as Hh. apply Forall_cons in Hh as [Hh _].
  destruct (job_poll_ok configured now (ticks (length jobs)) j w (sk_tasks _ Hok) Hh) as (ready & j' & w' & -> & Hw' & Hev & Hh' & Hk & Hc & Hr).
  rewrite bind_Done. pose proof (sk_unique _ Hok) as Hu. simpl in Hu. apply NoDup_cons in Hu as [Hu _].
  pose proof (sys_ok_job _ _ _ _ _ _ _ _ Hok Hw' Hev Hh' Hk Hc) as Hok'.
  assert (Hother : ∀ w2, evolves (jb_pending_block j) w w2 → ∀ e, e ∈ jobs → channel_of (jb_pending_block e.1) w2 = channel_of (jb_pending_block e.1) w).
  { intros w2 Hev2 e He. eapply others_untouched; [exact Hok|done|]. apply elem_of_app. by left. }
  destruct ready.
  - destruct Hr as [Hd ->]. destruct (drop_pending_ok (jb_pending_block j) w' Hw') as [Hw2 Hev2].
    assert (Hev3 : evolves (jb_pending_block j) w (drop_pending (jb_pending_block j) w')) by (by eapply evolves_trans).
    destruct (IH don1 (drop_pending (jb_pending_block j) w')) as (jobs' & l & w2 & E & Hok2 & Hl & Hall); [by eapply sys_ok_drop|].
    apply (polled_before now w) in Hall; [|by apply Hother|apply Hev3].
    exists jobs', l, w2. split_and!; [done|done|by rewrite Hl, Hp1|]. destruct Hall as [H1' H2']. split.
    + intros j1 id1 [?|[= -> ->]%list_elem_of_singleton]%elem_of_app; [by apply H1'|]. rewrite decide_True by done.
      intros Hin%H2'. apply Hu. rewrite fmap_app. apply elem_of_app. by left.
    + intros i Hi%H2'. rewrite fmap_app. apply elem_of_app. by left.
  - destruct Hr as [Hd Ha]. apply (sys_ok_perm _ (jobs ++ don1 ++ [(j', id)])) in Hok';
      [|by rewrite app_assoc, Permutation_cons_append].
    rewrite <-app_assoc. destruct (IH (don1 ++ [(j', id)]) w' Hok') as (jobs' & l & w2 & E & Hok2 & Hl & Hall).
    apply (polled_before now w) in Hall; [|by apply Hother|apply Hev].
    exists (jobs' ++ [(j', id)]), l, w2. split_and!; [done|done| |].
    { rewrite Hl, Hp1, <-app_assoc. by rewrite (Permutation_app_comm don). }
    destruct Hall as [H1' H2']. split.
    + intros j1 id1 [Hin|[= -> ->]%list_elem_of_singleton]%elem_of_app.
      * specialize (H1' _ _ Hin). destruct (decide _).
        -- rewrite fmap_app. intros [?| ->%list_elem_of_singleton]%elem_of_app; [done|]. apply Hu. rewrite fmap_app. apply elem_of_app. left.
           exact (list_elem_of_fmap_2 snd _ _ Hin).
        -- destruct H1' as (j2 & ? & ?). exists j2. split; [apply elem_of_app; by left|done].
      * rewrite decide_False by lia. exists j'. split; [apply elem_of_app; right; left|done].
    + intros i. rewrite !fmap_app. intros [?%H2'|?]%elem_of_app; apply elem_of_app; [by left|by right].
Qed.

(** ** Commands *)
(** The jobs that are asked for are those that the builder can work on. *)
Definition asks_ok (q : Client * PayloadServiceCommand) : Prop :=
  match q.2 with
  | BuildNewPayload a => ∀ p, find_parent q.1 a = inr p → configured (PayloadConfig_new p (gn_extradata g) a (gn_chain_spec g))
  | _ => True
  end.
(** The replies to commands, with the states before and after, in terms of the jobs that there are.
    A request for a new payload starts a job with a build for it, unless there is one or no parent;
    the payload and the attributes are those of the job, and an empty payload if it has none yet;
    resolving hands the job over to a future. *)
Inductive answers (now unix_now : Z) (client : Client) s : PayloadServiceCommand → Reply → System → Prop :=
| AnswerExisting a : payload_id a ∈ (sy_jobs s).*2 → answers now unix_now client s (BuildNewPayload a) (ReplyId (inr (payload_id a))) s
| AnswerNoParent a e :
    payload_id a ∉ (sy_jobs s).*2 → find_parent client a = inl e → answers now unix_now client s (BuildNewPayload a) (ReplyId (inl e)) s
| AnswerNew a parent c k w' :
    payload_id a ∉ (sy_jobs s).*2 → find_parent client a = inr parent → c = PayloadConfig_new parent (gn_extradata g) a (gn_chain_spec g) →
    ts_builds (sy_tasks s) !! k = None → ts_builds w' = <[k := mkBuildTask c None false Empty]> (ts_builds (sy_tasks s)) →
    ts_fallbacks w' = ts_fallbacks (sy_tasks s) →
    answers now unix_now client s (BuildNewPayload a) (ReplyId (inr (payload_id a)))
      (mkSystem (sy_jobs s ++ [(mkJob c (job_deadline now unix_now (oa_timestamp a) g) None (Some k), payload_id a)]) w'
         (sy_futures s) (sy_events s ++ [EventAttributes a]))
| AnswerBest id j p : (j, id) ∈ sy_jobs s → jb_best_payload j = Some p → answers now unix_now client s (BestPayload id) (ReplyBest (Some (inr p))) s
| AnswerEmpty id j r :
    (j, id) ∈ sy_jobs s → jb_best_payload j = None → empty_payload (jb_config j) = Done r →
    answers now unix_now client s (BestPayload id) (ReplyBest (Some r)) s
| AnswerNoBest id : id ∉ (sy_jobs s).*2 → answers now unix_now client s (BestPayload id) (ReplyBest None) s
| AnswerAttributes id j :
    (j, id) ∈ sy_jobs s → answers now unix_now client s (PayloadAttributes_ id) (ReplyAttributes (Some (pc_attributes (jb_config j)))) s
| AnswerNoAttributes id : id ∉ (sy_jobs s).*2 → answers now unix_now client s (PayloadAttributes_ id) (ReplyAttributes None) s
| AnswerFuture id j jobs' w' n f :
    sy_jobs s ≡ₚ (j, id) :: jobs' → takes_over (sy_tasks s) w' j f → sy_futures s !! n = None →
    answers now unix_now client s (Resolve id) (ReplyResolve (Some n))
      (mkSystem jobs' w' (<[n := (jb_config j, f)]> (sy_futures s)) (sy_events s))
| AnswerNoFuture id : id ∉ (sy_jobs s).*2 → answers now unix_now client s (Resolve id) (ReplyResolve None) s
| AnswerSubscribed : answers now unix_now client s Subscribe ReplySubscribed s.
(** The commands of a round, one after the other. *)
Inductive converses (now unix_now : Z) : System → list (Client * PayloadServiceCommand) → list Reply → System → Prop :=
| ConversesNil s : converses now unix_now s [] [] s
| ConversesSnoc s qs rs s1 client cmd r s2 :
    converses now unix_now s qs rs s1 → answers now unix_now client s1 cmd r s2 →
    converses now unix_now s (qs ++ [(client, cmd)]) (rs ++ [r]) s2.
Lemma find_job_ok id jobs i e : find_job id jobs = Some (i, e) → e.2 = id ∧ jobs ≡ₚ e :: delete i jobs.
Proof. intros (Hi & He & _)%list_find_Some. split; [done|]. by rewrite (delete_Permutation jobs i e Hi) at 1. Qed.
Lemma find_job_None id jobs : find_job id jobs = None → id ∉ jobs.*2.
Proof. intros Hn%list_find_None (e & -> & He)%list_elem_of_fmap. rewrite Forall_forall in Hn. by apply (Hn e He). Qed.
Lemma contains_payload_spec id s : contains_payload id s = true ↔ id ∈ (sy_jobs s).*2.
Proof.
  unfold contains_payload. rewrite existsb_exists, list_elem_of_fmap. split.
  - intros (e & He & Hid). exists e. split; [symmetry; by apply Z.eqb_eq|by apply list_elem_of_In].
  - intros (e & -> & He). exists e. split; [by apply list_elem_of_In|apply Z.eqb_refl].
Qed.
Lemma futures_insert jobs fs n c f :
  fs !! n = None → holders jobs (<[n := (c, f)]> fs) ≡ₚ future_holder (c, f) :: holders jobs fs.
Proof.
  intros Hn. unfold holders. rewrite map_to_list_insert by done. rewrite !fmap_cons. simpl. by rewrite Permutation_middle.
Qed.
Lemma futures_delete jobs fs n c f :
  fs !! n = Some (c, f) → holders jobs fs ≡ₚ future_holder (c, f) :: holders jobs (delete n fs).
Proof.
  intros Hn. rewrite <-(futures_insert jobs (delete n fs) n c f) by apply lookup_delete_eq. by rewrite insert_delete_id.
Qed.

Lemma resolve_answered now unix_now client id s n s' :
  sys_ok s → service_resolve id s = (n, s') → sys_ok s' ∧ answers now unix_now client s (Resolve id) (ReplyResolve n) s'.
Proof.
  intros Hok. unfold service_resolve. destruct (find_job id (sy_jobs s)) as [[i [j id']]|] eqn:Ef.
  2:{ intros [= <- <-]. split; [done|]. by apply AnswerNoFuture, find_job_None. }
  destruct (find_job_ok _ _ _ _ Ef) as [Hid Hp]. simpl in Hid. subst id'.
  destruct s as [jobs w fs ev]. simpl in *. apply (sys_ok_perm _ _ _ _ _ Hp) in Hok.
  pose proof (hk_holds _ _ _ (sk_holders _ Hok)) as Hh. apply Forall_cons in Hh as [Hh _]. simpl in Hh.
  pose proof (job_resolve_ok configured j w (sk_tasks _ Hok) Hh) as Hr. destruct (job_resolve j w) as [[fut j'] w'].
  destruct Hr as (Hw' & Hh' & Hta & Hal & Hpn & Hc & Hk). rewrite Hpn, Hc. intros [= <- <-]. simpl.
  assert (Hn : fs !! fresh (dom fs) = None) by (apply not_elem_of_dom, is_fresh).
  assert (Hev' : evolves (jb_pending_block j) w w') by (by destruct (ta_others _ _ _ _ Hta); split; [eauto..|]).
  split; [|by apply (AnswerFuture now unix_now client (mkSystem jobs w fs ev) id j)].
  destruct Hok as [H1' H2' H3' H4' H5' H6']. simpl in *. split; simpl; [done| | | | |].
  - eapply holders_perm; [symmetry; by apply futures_insert|]. exact (holders_step _ _ _ _ _ _ H1' Hw' H2' Hev' Hh' Hk).
  - by apply Forall_cons in H3' as [_ ?].
  - by apply NoDup_cons in H4' as [_ ?].
  - apply map_Forall_insert; [done|]. split; [apply Hta|]. intros k e He. by eapply fallback_evolves, H5'.
  - by apply map_Forall_insert.
Qed.
Lemma new_payload_job_ok now unix_now client a w r :
  asks_ok (client, BuildNewPayload a) → tasks_ok w → new_payload_job now unix_now client g a w = inr r →
  ∃ parent, find_parent client a = inr parent ∧
    let c := PayloadConfig_new parent (gn_extradata g) a (gn_chain_spec g) in
    tasks_ok r.2 ∧ evolves None w r.2 ∧ holds configured r.2 (job_holder r.1) ∧
    r.1 = mkJob c (job_deadline now unix_now (oa_timestamp a) g) None (Some (ts_next w)) ∧ pc_attributes c = a ∧
    ts_builds r.2 = <[ts_next w := mkBuildTask c None false Empty]> (ts_builds w) ∧ ts_fallbacks r.2 = ts_fallbacks w.
Proof.
  intros Hq Hw. unfold new_payload_job. destruct (find_parent client a) as [|parent] eqn:Ef; [done|].
  set (j := mkJob _ _ None None). intros [= <-]. exists parent. split; [done|].
  assert (Hj : holds configured w (job_holder j)) by (split; [by apply Hq|done..]).
  pose proof (spawn_build_job_ok configured j w Hw Hj eq_refl) as Hs. assert (ts_fallbacks (spawn_build_job j w).2 = ts_fallbacks w) as Hfb by done.
  destruct (spawn_build_job j w) as [j' w'].
  destruct Hs as (? & ? & ? & -> & ?). by split_and!.
Qed.

(** A command is answered. *)
Lemma build_answered now unix_now client a s :
  sys_ok s → asks_ok (client, BuildNewPayload a) →
  ∃ r new s', on_command now unix_now client g (BuildNewPayload a) s = Done (r, new, s') ∧ sys_ok s' ∧
    answers now unix_now client s (BuildNewPayload a) r s'.
Proof.
  intros Hok Hq. simpl. destruct (contains_payload (payload_id a) s) eqn:Ec.
  { eexists _, _, _. split; [done|]. split; [done|]. by apply AnswerExisting, contains_payload_spec. }
  assert (payload_id a ∉ (sy_jobs s).*2) as Hnew by (intros Hin%contains_payload_spec; congruence).
  destruct (new_payload_job _ _ _ _ _ _) as [e|[j w]] eqn:Ej.
  { eexists _, _, _. split; [done|]. split; [done|]. apply AnswerNoParent; [done|]. unfold new_payload_job in Ej.
    destruct (find_parent client a) as [e1|p1]; [by injection Ej as ->|done]. }
  eexists _, _, _. split; [done|].
  destruct (new_payload_job_ok _ _ _ _ _ _ Hq (sk_tasks _ Hok) Ej) as (parent & Hparent & Hw & Hev & Hh & Hj & Ha & Ht & Hfb). simpl in *.
  assert (ts_builds (sy_tasks s) !! ts_next (sy_tasks s) = None) as Hfree.
  { destruct (ts_builds (sy_tasks s) !! _) eqn:E; [|done]. apply (to_sent _ (sk_tasks _ Hok)) in E as [_ ?]. lia. }
  split; [|rewrite Hj; by eapply AnswerNew].
  eapply (sys_ok_perm ((j, payload_id a) :: sy_jobs s)); [apply Permutation_cons_append|].
  destruct Hok as [H1' H2' H3' H4' H5' H6']. split; simpl; [done| | | | |done].
  - apply (holders_add configured w (job_holder j)); [done| |done|].
    + split; [|apply H2']. eapply Forall_impl; [apply H2'|]. intros h Hhold. by eapply holds_evolves.
    + intros k Hk Hin. rewrite Hj in Hk. injection Hk as <-. pose proof (held_lt _ _ _ _ H1' H2' Hin). lia.
  - constructor; [|done]. by rewrite Hj.
  - by constructor.
  - intros k e He. by eapply fallback_evolves, H5'.
Qed.
Lemma found_job id s i e :
  sys_ok s → find_job id (sy_jobs s) = Some (i, e) → holds configured (sy_tasks s) (job_holder e.1) ∧ (e.1, id) ∈ sy_jobs s.
Proof.
  intros Hok Ef. destruct (find_job_ok _ _ _ _ Ef) as [Hid Hp]. assert (Hin : e ∈ sy_jobs s) by (rewrite Hp; left).
  pose proof (hk_holds _ _ _ (sk_holders _ Hok)) as Hh. rewrite Forall_forall in Hh. split.
  - apply Hh, elem_of_app. left. apply list_elem_of_fmap. by exists e.
  - destruct e. by simplify_eq/=.
Qed.
Lemma best_answered now unix_now client id s :
  sys_ok s → ∃ r, service_best_payload id s = Done r ∧ answers now unix_now client s (BestPayload id) (ReplyBest r) s.
Proof.
  intros Hok. unfold service_best_payload. destruct (find_job id (sy_jobs s)) as [[i [j id']]|] eqn:Ef.
  2:{ eexists. split; [done|]. by apply AnswerNoBest, find_job_None. }
  destruct (found_job _ _ _ _ Hok Ef) as [Hh Hin]. simpl in *. destruct (empty_built _ (ho_configured _ _ _ Hh)) as [r Hr]. unfold job_best_payload.
  destruct (jb_best_payload j) as [p|] eqn:Eb.
  - eexists. split; [done|]. by eapply AnswerBest.
  - simpl in Hr. rewrite Hr. eexists. split; [done|]. by eapply AnswerEmpty.
Qed.
Lemma on_command_ok now unix_now client cmd s :
  sys_ok s → asks_ok (client, cmd) →
  ∃ reply new s', on_command now unix_now client g cmd s = Done (reply, new, s') ∧ sys_ok s' ∧ answers now unix_now client s cmd reply s'.
Proof.
  intros Hok Hq. destruct cmd as [a|id|id|id|].
  - by apply build_answered.
  - destruct (best_answered now unix_now client id s Hok) as (r & E & Hr). simpl. rewrite E. by eexists _, _, _.
  - eexists _, _, _. split; [done|]. split; [done|]. unfold service_payload_attributes.
    destruct (find_job id (sy_jobs s)) as [[i e]|] eqn:Ef; [|by apply AnswerNoAttributes, find_job_None].
    apply AnswerAttributes. by destruct (found_job _ _ _ _ Hok Ef).
  - simpl. destruct (service_resolve id s) as [n s'] eqn:E. destruct (resolve_answered now unix_now client _ _ _ _ Hok E) as (Hok' & Ha).
    by eexists _, _, _.
  - eexists _, _, _. split; [done|]. split; [done|constructor].
Qed.

(** ** Futures *)
(** The build of a future has not sent a better payload. *)
Definition no_better (f : ResolveBestPayload) w : Prop :=
  ∀ k t p, rs_maybe_better f = Some k → ts_builds w !! k = Some t → tk_channel t ≠ Sent (inr (Better p)).
(** What a future yields when it is polled: the better payload that its build has sent; else the
    payload of the job; else the result of the fallback, for which it waits; and without a fallback
    it waits for the build, and says that there is no payload if that ended without one. *)
Inductive yields (c : PayloadConfig) (f : ResolveBestPayload) w : option (PayloadBuilderError + Payload) → Prop :=
| YieldBetter k t p :
    rs_maybe_better f = Some k → ts_builds w !! k = Some t → tk_config t = c → tk_channel t = Sent (inr (Better p)) → made c p →
    (∀ best, rs_best_payload f = Some best → bp_fees best < bp_fees p) → yields c f w (Some (inr p))
| YieldBest best : no_better f w → rs_best_payload f = Some best → made c best → yields c f w (Some (inr best))
| YieldFallback k t r :
    no_better f w → rs_best_payload f = None → rs_empty_payload f = Some k → ts_fallbacks w !! k = Some t → fallback_of c (fb_work t) →
    fb_channel t = Sent r ∧ fallback_result (fb_work t) r ∨ fb_channel t = Closed ∧ r = inl ChannelClosed → yields c f w (Some r)
| YieldMissing k t :
    no_better f w → rs_best_payload f = None → rs_empty_payload f = None →
    rs_maybe_better f = Some k → ts_builds w !! k = Some t → tk_config t = c → tk_channel t ≠ Empty → yields c f w (Some (inl MissingPayload))
| YieldAwaitFallback k t :
    no_better f w → rs_best_payload f = None → rs_empty_payload f = Some k → ts_fallbacks w !! k = Some t → fb_channel t = Empty → yields c f w None
| YieldAwaitBuild k t :
    rs_best_payload f = None → rs_empty_payload f = None →
    rs_maybe_better f = Some k → ts_builds w !! k = Some t → tk_config t = c → tk_channel t = Empty → yields c f w None.

(** After the task that may be better: the payload, or the fallback, or nothing. *)
Lemma resolve_rest_ok w w' c f f1 :
  tasks_ok w → holds configured w (future_holder (c, f)) → fallback_ok w (c, f) → resolve_is_empty f = false → no_better f w →
  ts_fallbacks w' = ts_fallbacks w → rs_best_payload f1 = rs_best_payload f → rs_empty_payload f1 = rs_empty_payload f →
  rs_maybe_better f1 = match channel_of (rs_maybe_better f) w with Some Empty => rs_maybe_better f | _ => None end →
  let '(r, f') := resolve_rest f1 w' in
  yields c f w r ∧ rs_maybe_better f' = rs_maybe_better f1 ∧ (r = None → f' = f1 ∧ resolve_is_empty f1 = false).
Proof.
  intros Hw Hh Hf Hal Hno Hfb Hb He Hm. unfold resolve_rest, resolve_is_empty in *. rewrite Hb, He, Hfb.
  destruct (rs_best_payload f) as [best|] eqn:Eb.
  { split_and!; [apply YieldBest; [done..|by apply (ho_made _ _ _ Hh)]|done..]. }
  destruct (rs_empty_payload f) as [k|] eqn:Ek.
  - destruct (Hf k Ek) as (t & Ht & Hwork). simpl. rewrite Ht. simpl. destruct (fb_channel t) as [|r|] eqn:Ec; simpl.
    + assert (match rs_maybe_better f1 with Some _ | _ => false end = false) as -> by (by destruct (rs_maybe_better f1)).
      split_and!; [by eapply YieldAwaitFallback|done|done].
    + split_and!; [|done..]. eapply YieldFallback; try done. left. split; [done|by eapply to_fallback].
    + split_and!; [|done..]. eapply YieldFallback; try done. by right.
  - simpl. destruct (rs_maybe_better f) as [k|] eqn:Em; [|done].
    destruct (ho_task _ _ _ Hh k Em) as (t & Ht & Hc & _). unfold channel_of in Hm. simpl in Hm. rewrite Ht in Hm. simpl in Hm, Hc.
    destruct (tk_channel t) as [|r|] eqn:Ec; rewrite Hm.
    + split_and!; [by eapply YieldAwaitBuild|done|done].
    + split_and!; [eapply YieldMissing; try done; by rewrite Ec|done|done].
    + split_and!; [eapply YieldMissing; try done; by rewrite Ec|done|done].
Qed.
Lemma resolve_poll_ok w c f :
  tasks_ok w → holds configured w (future_holder (c, f)) → fallback_ok w (c, f) → resolve_is_empty f = false →
  let '(r, f', w') := resolve_poll f w in
  tasks_ok w' ∧ evolves (rs_maybe_better f) w w' ∧ yields c f w r ∧
  (∀ k, rs_maybe_better f' = Some k → rs_maybe_better f = Some k) ∧
  (r = None → holds configured w' (future_holder (c, f')) ∧ fallback_ok w' (c, f') ∧ resolve_is_empty f' = false).
Proof.
  intros Hw Hh Hf Hal. unfold resolve_poll.
  destruct (k ← rs_maybe_better f; res ← PendingPayload_poll k w; Some (k, res)) as [[k res]|] eqn:E.
  - apply bind_Some in E as (k' & Ek & (res' & Ep & [= -> ->])%bind_Some).
    destruct (ho_task _ _ _ Hh k Ek) as (t & Ht & Hc & Hb & Hn). simpl in Hc, Hb.
    assert (Hr : receive_from (tk_channel t) = Some res) by (unfold PendingPayload_poll in Ep; by rewrite Ht in Ep).
    destruct (drop_pending_ok (Some k) w Hw) as [Hw' Hev].
    pose proof (pending_received configured w _ k res Hw Hh Ek Ep) as Hres. simpl in Hres.
    set (f1 := mkResolve (rs_best_payload f) None (rs_empty_payload f)). rewrite Ek.
    assert (Hrest : (∀ p, res ≠ inr (Better p)) → let '(r, f') := resolve_rest f1 (drop_pending (Some k) w) in
      tasks_ok (drop_pending (Some k) w) ∧ evolves (Some k) w (drop_pending (Some k) w) ∧ yields c f w r ∧
      (∀ k', rs_maybe_better f' = Some k' → Some k = Some k') ∧
      (r = None → holds configured (drop_pending (Some k) w) (future_holder (c, f')) ∧ fallback_ok (drop_pending (Some k) w) (c, f') ∧
         resolve_is_empty f' = false)).
    { intros Hnb. assert (no_better f w) as Hno.
      { intros k1 t1 p Hk1 Ht1 Hc1. simplify_eq. rewrite Hc1 in Hr. injection Hr as <-. by destruct (Hnb p). }
      pose proof (resolve_rest_ok w (drop_pending (Some k) w) c f f1 Hw Hh Hf Hal Hno eq_refl eq_refl eq_refl) as Hrr.
      unfold channel_of in Hrr. rewrite Ek in Hrr. simpl in Hrr. rewrite Ht in Hrr. simpl in Hrr. specialize (Hrr ltac:(by destruct (tk_channel t))).
      destruct (resolve_rest f1 _) as [r f']. destruct Hrr as (Hy & Hmb & Hnone). split_and!; [done..|by rewrite Hmb|].
      intros Hr0. destruct (Hnone Hr0) as [-> ?]. split_and!; [|exact (fallback_evolves _ _ _ _ Hev Hf)|done]. by destruct Hh as [H1' H2' _]; split. }
    destruct res as [e|[p|fees|]]; try (specialize (Hrest ltac:(done)); destruct (resolve_rest f1 _) as [r f']; exact Hrest).
    split_and!; [done..| |done|done]. destruct Hres as [|Hbuild]; [done|].
    eapply (YieldBetter c f w k t p); [done|done|done| |by eexists _, _|].
    + destruct (tk_channel t); [done|by injection Hr as ->|done].
    + intros best Hbest. pose proof (better_fees _ _ _ _ Hbuild) as Hbetter. rewrite Hbest in Hbetter. by apply Z.ltb_lt.
  - assert (Hrun : channel_of (rs_maybe_better f) w = if rs_maybe_better f then Some Empty else None).
    { unfold channel_of. destruct (rs_maybe_better f) as [k|] eqn:Ek; [|done]. destruct (ho_task _ _ _ Hh k Ek) as (t & Ht & _).
      simpl in E |- *. unfold PendingPayload_poll in E. rewrite Ht in *. simpl in *. by destruct (tk_channel t). }
    assert (no_better f w) as Hno.
    { intros k t p Hk Ht Hc. rewrite Hk in Hrun. unfold channel_of in Hrun. simpl in Hrun. rewrite Ht in Hrun. simpl in Hrun. congruence. }
    assert (rs_maybe_better f = match channel_of (rs_maybe_better f) w with Some Empty => rs_maybe_better f | _ => None end) as Hmb0
      by (rewrite Hrun; by destruct (rs_maybe_better f)).
    pose proof (resolve_rest_ok w w c f f Hw Hh Hf Hal Hno eq_refl eq_refl eq_refl Hmb0) as Hr. destruct (resolve_rest f w) as [r f'].
    destruct Hr as (Hy & Hmb & Hn). split_and!; [done|apply evolves_refl|done|by rewrite Hmb|]. intros Hr0. by destruct (Hn Hr0) as [-> ?].
Qed.

(** ** Runs *)
Definition set_channel (c : Channel (PayloadBuilderError + BuildOutcome)) (t : BuildTask) : BuildTask :=
  mkBuildTask (tk_config t) (tk_best_payload t) (tk_cancelled t) c.
Definition on_tasks (f : Tasks → Tasks) s : System := mkSystem (sy_jobs s) (f (sy_tasks s)) (sy_futures s) (sy_events s).
Definition end_build (k : nat) (c : Channel (PayloadBuilderError + BuildOutcome)) w : Tasks :=
  set_builds (alter (set_channel c) k (ts_builds w)) w.
Definition end_fallback (k : nat) (c : Channel (PayloadBuilderError + Payload)) w : Tasks :=
  mkTasks (ts_builds w) (alter (λ t, mkFallbackTask (fb_work t) c) k (ts_fallbacks w)) (ts_next w).

(** A round of the service, a task that returns or is lost, and the callers' futures. *)
Inductive sys_step s : System → Prop :=
| StepRound now unix_now ticks commands replies new s' :
    Forall asks_ok commands → service_round now unix_now ticks g commands s = Done (replies, new, s') → sys_step s s'
| StepBuilt k t r :
    ts_builds (sy_tasks s) !! k = Some t → tk_channel t = Empty → try_build (tk_config t) (tk_best_payload t) (tk_cancelled t) r →
    sys_step s (on_tasks (end_build k (Sent r)) s)
| StepBuildLost k : sys_step s (on_tasks (end_build k Closed) s)
| StepFallback k t r :
    ts_fallbacks (sy_tasks s) !! k = Some t → fb_channel t = Empty → fallback_result (fb_work t) r →
    sys_step s (on_tasks (end_fallback k (Sent r)) s)
| StepFallbackLost k : sys_step s (on_tasks (end_fallback k Closed) s)
| StepAwait n r s' : await_future n s = (r, s') → sys_step s s'
| StepForget n : sys_step s (forget_future n s).
Inductive sys_reachable : System → Prop :=
| ReachSystem : sys_reachable System_new
| ReachSystemStep s s' : sys_reachable s → sys_step s s' → sys_reachable s'.

(** Tasks that differ in their channels. *)
Lemma sys_ok_channels s f :
  (∀ k t, ts_builds (sy_tasks s) !! k = Some t → ∃ c, ts_builds (f (sy_tasks s)) !! k = Some (set_channel c t)) →
  (∀ k t, ts_fallbacks (sy_tasks s) !! k = Some t → ∃ c, ts_fallbacks (f (sy_tasks s)) !! k = Some (mkFallbackTask (fb_work t) c)) →
  tasks_ok (f (sy_tasks s)) → sys_ok s → sys_ok (on_tasks f s).
Proof.
  intros Hb Hf Hw [H1' [Hh Hn] H3' H4' H5' H6']. split; simpl; [done| |done|done| |done].
  - split; [|done]. eapply Forall_impl; [exact Hh|]. intros h [? ? Ht]. split; [done..|]. intros k Hk.
    destruct (Ht k Hk) as (t & Hl & Hrest). destruct (Hb k t Hl) as [c Hc]. by exists (set_channel c t).
  - intros n e He k Hk. destruct (H5' n e He k Hk) as (t & Hl & Hrest). destruct (Hf k t Hl) as [c Hc]. by eexists.
Qed.
Lemma end_build_ok k c s :
  (∀ t r, ts_builds (sy_tasks s) !! k = Some t → c = Sent r → try_build (tk_config t) (tk_best_payload t) (tk_cancelled t) r) →
  sys_ok s → sys_ok (on_tasks (end_build k c) s).
Proof.
  intros Hc Hok. apply sys_ok_channels; [| | |done]; simpl.
  - intros k' t Ht. destruct (decide (k = k')) as [->|Hne].
    + exists c. by rewrite lookup_alter_eq, Ht.
    + exists (tk_channel t). rewrite lookup_alter_ne by done. rewrite Ht. by destruct t.
  - intros k' t Ht. exists (fb_channel t). rewrite Ht. by destruct t.
  - destruct (sk_tasks _ Hok) as [H1' H2' H3']. split; simpl; [|done..]. intros k' t. rewrite lookup_alter_Some.
    intros [(<- & t' & Ht & ->)|[_ Ht]]; [|by apply H1']. split; [|simpl; exact (proj2 (H1' _ _ Ht))]. intros r Hr. simpl in Hr.
    exists (tk_cancelled t'). split; [done|]. by apply (Hc t' r Ht Hr).
Qed.
Lemma end_fallback_ok k c s :
  (∀ t r, ts_fallbacks (sy_tasks s) !! k = Some t → c = Sent r → fallback_result (fb_work t) r) →
  sys_ok s → sys_ok (on_tasks (end_fallback k c) s).
Proof.
  intros Hc Hok. apply sys_ok_channels; [| | |done]; simpl.
  - intros k' t Ht. exists (tk_channel t). rewrite Ht. by destruct t.
  - intros k' t Ht. destruct (decide (k = k')) as [->|Hne].
    + exists c. by rewrite lookup_alter_eq, Ht.
    + exists (fb_channel t). rewrite lookup_alter_ne by done. rewrite Ht. by destruct t.
  - destruct (sk_tasks _ Hok) as [H1' H2' H3']. split; simpl; [done|..].
    + intros k' t r. rewrite lookup_alter_Some. intros [(<- & t' & Ht & ->)|[_ Ht]]; [|by eapply H2']. simpl. by apply Hc.
    + intros k' t. rewrite lookup_alter_Some. intros [(<- & t' & Ht & ->)|[_ Ht]]; by eapply H3'.
Qed.
(** A future that is dropped, with what has become of its tasks. *)
Lemma drop_future_ok s n c f w' ev ks :
  sys_ok s → sy_futures s !! n = Some (c, f) → tasks_ok w' → evolves (rs_maybe_better f) (sy_tasks s) w' →
  (∀ k, ks = Some k → rs_maybe_better f = Some k) →
  sys_ok (mkSystem (sy_jobs s) (drop_pending ks w') (delete n (sy_futures s)) ev).
Proof.
  intros Hok Hn Hw Hev Hks. destruct (drop_pending_ok ks w' Hw) as [Hw2 Hev2].
  assert (Hev3 : evolves (rs_maybe_better f) (sy_tasks s) (drop_pending ks w')).
  { split; [|by intros; apply Hev2, Hev|etrans; [apply Hev|apply Hev2]]. intros k t Ht Hne. apply Hev2; [by apply Hev|].
    intros ->. by rewrite (Hks k eq_refl) in Hne. }
  destruct Hok as [H1' H2' H3' H4' H5' H6']. split; simpl; [done| |done|done| |].
  - eapply (holders_drop _ _ _ (future_holder (c, f))); [|exact Hev3]. eapply holders_perm; [by apply futures_delete|done].
  - intros k e [_ He]%lookup_delete_Some. by eapply fallback_evolves, H5'.
  - by apply map_Forall_delete.
Qed.
Lemma future_ok s n c f :
  sys_ok s → sy_futures s !! n = Some (c, f) → holds configured (sy_tasks s) (future_holder (c, f)) ∧ fallback_ok (sy_tasks s) (c, f) ∧ resolve_is_empty f = false.
Proof.
  intros [_ [Hh _] _ _ Hf Hal] Hn. split_and!; [|by apply (Hf n)|exact (Hal n _ Hn)]. rewrite (futures_delete _ _ _ _ _ Hn) in Hh. by apply Forall_cons in Hh as [? _].
Qed.
Lemma await_ok s n r s' : sys_ok s → await_future n s = (r, s') → sys_ok s'.
Proof.
  intros Hok. unfold await_future. destruct (sy_futures s !! n) as [[c f]|] eqn:En; [|by intros [= <- <-]].
  destruct (future_ok _ _ _ _ Hok En) as (Hh & Hf & Hal).
  pose proof (resolve_poll_ok _ _ _ (sk_tasks _ Hok) Hh Hf Hal) as Hp. destruct (resolve_poll f (sy_tasks s)) as [[r' f'] w'].
  destruct Hp as (Hw & Hev & _ & Hmb & Hnone). destruct r' as [r'|]; intros [= <- <-]; [by eapply drop_future_ok|].
  destruct (Hnone eq_refl) as (Hh' & Hf' & Hal'). destruct Hok as [H1' H2' H3' H4' H5' H6']. split; simpl; [done| |done|done| |].
  - rewrite <-insert_delete_eq. eapply holders_perm; [symmetry; apply futures_insert, lookup_delete_eq|].
    apply (holders_perm _ _ _ _ (futures_delete _ _ _ _ _ En)) in H2'.
    eapply (holders_step _ _ _ _ (future_holder (c, f'))); [exact H1'|done|exact H2'|exact Hev|done|]. intros k Hk. left. by apply Hmb.
  - apply map_Forall_insert_2; [done|]. intros k e He. by eapply fallback_evolves, H5'.
  - by apply map_Forall_insert_2.
Qed.
Lemma service_round_lemma now unix_now ticks commands s :
  sys_ok s → Forall asks_ok commands →
  ∃ replies new s1 s', service_round now unix_now ticks g commands s = Done (replies, new, s') ∧ sys_ok s' ∧
    polled now (sy_tasks s) (sy_jobs s) (sy_jobs s1) ∧ sy_futures s1 = sy_futures s ∧ sy_events s1 = sy_events s ∧
    converses now unix_now s1 commands replies s'.
Proof.
  intros Hok Hasks. unfold service_round.
  destruct (poll_jobs_ok now ticks (sy_jobs s) [] (sy_tasks s) (sy_futures s) (sy_events s)) as (jobs' & jobs & w & E & Hok1 & Hl & Hp);
    [rewrite app_nil_r; by destruct s|]. rewrite app_nil_r in *. rewrite E, bind_Done. set (s1 := mkSystem jobs w (sy_futures s) (sy_events s)).
  destruct (for_each_ind (λ rest '(replies, new, s'), sys_ok s' ∧ ∃ before, commands = before ++ rest ∧ converses now unix_now s1 before replies s')
    (λ '(client, cmd) '(replies, new_job, s), '(reply, new, s) ← on_command now unix_now client g cmd s; Done (replies ++ [reply], new_job || new, s))
    commands ([], false, s1)) as ([[replies new] s'] & E' & Hok' & (before & Eb & Hans)).
  - intros [client cmd] rest [[replies new] s2] (Hok2 & (before & Eb & Hans)).
    assert (Hq : asks_ok (client, cmd)) by (rewrite Eb in Hasks; by apply Forall_app in Hasks as [_ [? _]%Forall_cons]).
    destruct (on_command_ok now unix_now client cmd s2 Hok2 Hq) as (reply & new' & s3 & -> & Hok3 & Ha). eexists. split; [done|]. simpl.
    split; [done|]. exists (before ++ [(client, cmd)]). rewrite <-app_assoc. split; [done|]. by eapply ConversesSnoc.
  - split; [done|]. exists []. split; [done|constructor].
  - exists replies, new, s1, s'. split_and!; [exact E'|done| |done|done|by rewrite Eb, app_nil_r].
    destruct Hp as [Hp1 Hp2]. split.
    + intros j id Hin. specialize (Hp1 j id Hin). destruct (decide _); simpl; [by rewrite Hl|]. destruct Hp1 as (j' & ? & ?). exists j'. by rewrite Hl.
    + intros id. simpl. rewrite Hl. apply Hp2.
Qed.
Lemma sys_step_ok s s' : sys_ok s → sys_step s s' → sys_ok s'.
Proof.
  intros Hok [now un ticks cmds rs new s1 Hq Hr|k t r Ht Hc Hb|k|k t r Ht Hc Hb|k|n r s1 Ha|n].
  - destruct (service_round_lemma now un ticks cmds s Hok Hq) as (rs' & new' & s2 & s3 & E & Hok' & _). rewrite Hr in E. by injection E as _ _ <-.
  - apply end_build_ok; [|done]. intros t' r' Ht' [= <-]. by simplify_eq.
  - by apply end_build_ok.
  - apply end_fallback_ok; [|done]. intros t' r' Ht' [= <-]. by simplify_eq.
  - by apply end_fallback_ok.
  - by eapply await_ok.
  - unfold forget_future. destruct (sy_futures s !! n) as [[c f]|] eqn:En; [|done].
    eapply drop_future_ok; [done|exact En|apply Hok|apply evolves_refl|done].
Qed.
Lemma reachable_sys_ok s : sys_reachable s → sys_ok s.
Proof. induction 1 as [|s s' _ IH Hs]; [apply sys_new_ok|by eapply sys_step_ok]. Qed.

(** C6. The service keeps running, and answers from the jobs that it has: from every state of a run, a
    round ends without a panic, in particular no job sees its build cancelled.  First the jobs are
    polled: one at its deadline is dropped; any other goes on with the same configuration, and its
    payload is the better one (with higher fees) that its build has sent, or the one from before.
    Then each command gets the answer that the state at that point has ([answers]).  A request for
    a new payload is refused only if the parent is not found; otherwise there is a job with that
    identifier afterwards: the one from before, or a new one for the attributes and that parent
    with a build that is running.  The payload and the attributes of a job are refused only if
    there is no job with that identifier; else they are the job's, or an empty payload if it has
    none.  Resolving takes the job out and returns a future that holds its payload and its build,
    or a new build.  Afterwards no two jobs share an identifier, the payload of a job was built for
    its configuration, and its build works on that configuration and payload and is not
    cancelled.  Jobs that are asked for are those that the builder can work on
    ([configured]). *)
Theorem service_round_ok now unix_now ticks commands s :
  sys_reachable s → Forall asks_ok commands →
  ∃ replies new s1 s', service_round now unix_now ticks g commands s = Done (replies, new, s') ∧
    polled now (sy_tasks s) (sy_jobs s) (sy_jobs s1) ∧ sy_futures s1 = sy_futures s ∧ sy_events s1 = sy_events s ∧
    converses now unix_now s1 commands replies s' ∧ NoDup (sy_jobs s').*2 ∧
    Forall (λ e, holds configured (sy_tasks s') (job_holder e.1)) (sy_jobs s').
Proof.
  intros Hr Hq. destruct (service_round_lemma now unix_now ticks commands s (reachable_sys_ok s Hr) Hq)
    as (replies & new & s1 & s' & E & Hok & Hp & Hf & He & Hc).
  exists replies, new, s1, s'. split_and!; [done..|apply Hok|].
  pose proof (hk_holds _ _ _ (sk_holders _ Hok)) as Hh. apply Forall_app in Hh as [Hh _]. by rewrite Forall_fmap in Hh.
Qed.

(** The fallback of a future is the one of its job. *)
Lemma future_fallback n s c f : sys_reachable s → sy_futures s !! n = Some (c, f) → fallback_ok (sy_tasks s) (c, f).
Proof. intros Hr En. exact (sk_fallbacks _ (reachable_sys_ok s Hr) _ _ En). Qed.
Lemma await_yields n s c f :
  sys_reachable s → sy_futures s !! n = Some (c, f) →
  let '(r, s') := await_future n s in
  configured c ∧ yields c f (sy_tasks s) r ∧
  match r with
  | Some res => sy_futures s' = delete n (sy_futures s) ∧ sy_events s' = sy_events s ++ match res with inr p => [EventBuiltPayload p] | inl _ => [] end
  | None => is_Some (sy_futures s' !! n) ∧ sy_events s' = sy_events s
  end.
Proof.
  intros Hr En. apply reachable_sys_ok in Hr. destruct (future_ok _ _ _ _ Hr En) as (Hh & Hf & Hal). unfold await_future. rewrite En.
  pose proof (resolve_poll_ok _ _ _ (sk_tasks _ Hr) Hh Hf Hal) as Hp. destruct (resolve_poll f (sy_tasks s)) as [[r f'] w'].
  destruct Hp as (_ & _ & Hy & _). destruct r as [r|]; (split_and!; [apply Hh|done|done|done]) || (split_and!; [apply Hh|done| |done]).
  simpl. by rewrite lookup_insert_eq.
Qed.
(** C7. A request for a payload is answered with the best one: a future that the service has handed
    out yields, when it is polled, the payload of its build if that has sent a better one by then
    (its fees are higher than those of the job's payload); otherwise the payload of the job,
    at once; without one, the result of the builder's fallback, for which it waits; and
    without a fallback it waits exactly as long as the build runs, and says that there is no
    payload exactly if the build ended without a better one.  A payload that it yields is
    broadcast, and the future is used up. *)
Theorem future_answered n s c f :
  sys_reachable s → sy_futures s !! n = Some (c, f) →
  let '(r, s') := await_future n s in
  yields c f (sy_tasks s) r ∧
  match r with
  | Some res => sy_futures s' = delete n (sy_futures s) ∧ sy_events s' = sy_events s ++ match res with inr p => [EventBuiltPayload p] | inl _ => [] end
  | None => is_Some (sy_futures s' !! n) ∧ sy_events s' = sy_events s
  end.
Proof. intros Hr En. pose proof (await_yields n s c f Hr En) as Ha. destruct (await_future n s). apply Ha. Qed.
End service.

(** A job runs for its deadline at least, and four times as long at most. *)
Lemma max_job_duration_bounds unix_now timestamp g :
  0 ≤ gn_deadline g → gn_deadline g ≤ max_job_duration unix_now timestamp g ≤ 4 * gn_deadline g.
Proof. unfold max_job_duration, duration_until. lia. Qed.
