(* ===== verification/OpJobs.v ===== *)
(** * The jobs of the sequencer

    The builder of the OP stack ([optimism/payload/src/builder.rs]) as the builder of the payload
    service: a build that nobody has cancelled does not stop early, a payload that replaces
    another has higher fees, and a payload that a future yields is a block which the consensus
    checks and the executor accept. *)

From stdpp Require Import prelude gmap list strings.
From S2P Require Import Prelude.
From S2P Require Import PoolTx.
From S2P Require Import Best.
From S2P Require Import Transaction.
From S2P Require Import Header.
From S2P Require Import Consensus.
From S2P Require Import TreeState.
From S2P Require Import EngineTypes.
From S2P Require Import PayloadValidator.
From S2P Require Import Revm.
From S2P Require Import L1Info.
From S2P Require Import OpExecute.
From S2P Require Import OpPayload.
From S2P Require Import OpPayloadSteps.
From S2P Require Import PayloadService.
From S2P Require Import PayloadSteps.

Section builder.
Context `{EvmState} `{Externals} `{Payloads} `{!BuilderOps} `{PoolTransactionConversion} `{!ConversionLaws} `{BestTransactionsOps It}.
Context `{∀ c, BestIteratorLaws It (offered c)}.

(** [OptimismPayloadBuilder].  A build sees the cancel flag at its polls, the transactions that
    arrive while it runs, and the iterators of the pool, which yield transactions that the pool may
    offer. *)
#[export] Instance OptimismPayloadBuilder : PayloadBuilder := {|
  try_build c best cancelled r :=
    ∃ cancel arrive next_fuel fuel best_transactions,
      (cancelled = false → ∀ n, cancel n = false) ∧
      (∀ n it, it_ok (P := offered c) it → it_ok (P := offered c) (arrive n it)) ∧
      (∀ fee blob it, best_transactions fee blob = Done it → it_ok (P := offered c) it) ∧
      optimism_payload_builder cancel c arrive next_fuel best_transactions fuel best = Done r;
  on_missing_payload _ := AwaitInProgress;
  empty_payload := build_empty_payload;
|}.

(** ** Cancellation *)
Section runs.
Context (cancel : nat → bool) (c : PayloadConfig) (arrive : nat → It → It) (next_fuel : nat).
Context (Hcancel : ∀ n, cancel n = false).

Lemma sequencer_not_cancelled l st : try_each (build_sequencer_tx cancel c) l st ≠ inl StopCancelled.
Proof.
  revert st. induction l as [|t l IH]; intros st; [done|]. simpl. unfold build_sequencer_tx at 1. rewrite Hcancel.
  destruct (is_eip4844 t); [done|]. destruct (negb _); [done|]. destruct (load_depositor _ _ _ _) as [|[depositor db]]; [done|].
  destruct (transact _ _) as [[[]|[result state]] db']; try done; apply IH.
Qed.
Lemma pool_tx_not_cancelled t st : build_pool_tx cancel c t st ≠ Done (inl StopCancelled).
Proof.
  unfold build_pool_tx. rewrite Hcancel. destruct (transact _ _) as [[err|[result state]] db]; [by repeat case_match|].
  by destruct (Tx.effective_tip_per_gas _ _).
Qed.
Lemma pool_not_cancelled fuel round it st : pool_loop cancel c arrive next_fuel fuel round it st ≠ Done (inl StopCancelled).
Proof.
  revert round it st. induction fuel as [|fuel IH]; intros round it st; [done|]. simpl.
  destruct (bt_next _ _) as [[[t|] it']| |]; simpl; [|done..]. destruct (skips _ _ _); [apply IH|].
  destruct (build_pool_tx cancel c t st) as [[stop|[mark st']]| |] eqn:E; simpl; [|apply IH|done..].
  intros [= ->]. by apply pool_tx_not_cancelled in E.
Qed.
End runs.

Lemma finish_outcome c best sp st r :
  finish c best sp st = Done r → r ≠ inr Cancelled ∧ ∀ p, r = inr (Better p) → is_better_payload best (bp_fees p) = true.
Proof.
  unfold finish. destruct (is_better_payload best (bd_total_fees st)) eqn:Eb; simpl; [|by intros [= <-]].
  destruct (commit_withdrawals _ _ _ _) as [|[w db]]; [by intros [= <-]|].
  destruct (optimism_receipts_root_slow _ _ _ _); [|done]. destruct (block_logs_bloom _ _) as [bloom|]; [|done].
  destruct (hashed_state_root_with_updates _ _) as [|[sr trie]]; intros [= <-]; [done|]. split; [done|]. by intros p [= <-].
Qed.
Lemma builder_outcome cancel c arrive next_fuel best_transactions fuel best r :
  optimism_payload_builder cancel c arrive next_fuel best_transactions fuel best = Done r →
  ((∀ n, cancel n = false) → r ≠ inr Cancelled) ∧ ∀ p, r = inr (Better p) → is_better_payload best (bp_fees p) = true.
Proof.
  unfold optimism_payload_builder. destruct (state_by_block_hash _) as [|sp]; [by intros [= <-]|].
  destruct (assert_ (be_basefee _ <? U64)); [|done..]. simpl. destruct (best_transactions _ _) as [it| |]; [|done..]. simpl.
  destruct (assert_ (be_number _ <? U64)); [|done..]. simpl. destruct (prepare _ _) as [|st0]; [by intros [= <-]|].
  destruct (try_each _ _ _) as [[]|st1] eqn:E1.
  { by intros [= <-]. }
  { intros [= <-]. split; [|done]. intros Hn. by destruct (sequencer_not_cancelled cancel c Hn _ _ E1). }
  destruct (oa_no_tx_pool _); simpl.
  { intros Hf. destruct (finish_outcome _ _ _ _ _ Hf). by split. }
  destruct (pool_loop _ _ _ _ _ _ _ _) as [[[]|st2]| |] eqn:E2; simpl; [by intros [= <-]| | |done..].
  - intros [= <-]. split; [|done]. intros Hn. by destruct (pool_not_cancelled cancel c arrive next_fuel Hn _ _ _ _ E2).
  - intros Hf. destruct (finish_outcome _ _ _ _ _ Hf). by split.
Qed.

(** ** The laws of the builder *)
Section laws.
Context (g : BasicPayloadJobGenerator) (td : Z).
(** The configurations of valid jobs. *)
Definition valid_job (c : PayloadConfig) : Prop :=
  ∃ parent a, c = PayloadConfig_new parent (gn_extradata g) a (gn_chain_spec g) ∧ job_ok parent (gn_extradata g) a (gn_chain_spec g) td.

#[export] Instance optimism_builder_laws : PayloadBuilderLaws valid_job.
Proof.
  split.
  - intros c best r (cancel & arrive & nf & fuel & bt & Hn & _ & _ & Hb). apply builder_outcome in Hb as [Hb _]. by apply Hb, Hn.
  - intros c best b p (cancel & arrive & nf & fuel & bt & _ & _ & _ & Hb). apply builder_outcome in Hb as [_ Hb]. by apply Hb.
  - intros c (parent & a & -> & J). unfold empty_payload, OptimismPayloadBuilder, build_empty_payload.
    destruct (state_by_block_hash _) as [|sp]; [by eexists|].
    assert (be_basefee (pc_initialized_block_env (PayloadConfig_new parent (gn_extradata g) a (gn_chain_spec g))) <? U64 = true) as ->
      by (apply job_base_fee with td; exact J).
    assert (be_number (pc_initialized_block_env (PayloadConfig_new parent (gn_extradata g) a (gn_chain_spec g))) <? U64 = true) as ->
      by (apply Z.ltb_lt, wrap_u64_range). by eexists.
Qed.
End laws.
End builder.

(** ** What the service serves *)
Section served.
Context `{EvmState} `{!EvmStateLaws} `{Externals} `{!ExternalsLaws} `{Payloads} `{!BuilderOps} `{!BuilderLaws}.
Context `{PoolTransactionConversion} `{!ConversionLaws} `{BestTransactionsOps It} `{∀ c, BestIteratorLaws It (offered c)}.
Context (g : BasicPayloadJobGenerator) (td : Z).
Notation s := (gn_chain_spec g).

(** A payload for a job: it has the identifier and the attributes of the job, and is a block after
    the parent of the job, which the consensus checks and the executor accept. *)
Definition serves (now : Z) (c : PayloadConfig) (p : Payload) : Prop :=
  bp_id p = payload_id (pc_attributes c) ∧ bp_attributes p = pc_attributes c ∧
  accepted (pc_parent_block c) s td now p ∧ executes (pc_parent_block c) s td p.
Lemma made_served now c p : valid_job g td c → made c p → serves now c p.
Proof.
  intros (parent & a & -> & J) (best & b & cancel & arrive & nf & fuel & bt & _ & Harr & Hbt & Hb).
  destruct (built_stages _ _ _ _ _ _ _ _ _ _ _ _ J Harr Hbt Hb) as (sp & st0 & st1 & st & l' & l & w & db & sr & trie & d1 & d2 & G).
  pose proof (sg_payload _ _ _ _ _ _ _ _ _ _ _ _ _ _ _ _ _ G) as Hp. unfold serves. split_and!; [by rewrite Hp..| |].
  - exact (built_accepted _ _ _ _ _ _ _ _ _ _ _ _ _ J Harr Hbt Hb).
  - exact (built_executes _ _ _ _ _ _ _ _ _ _ _ _ J Harr Hbt Hb).
Qed.

(** C5. The payloads of the sequencer are valid blocks: over every run of the service with the
    builder of the OP stack, a future for the payload of a job yields a block for the identifier and
    the attributes of that job, which keeps the consensus rules after the job's parent and which the
    executor runs with the result of the builder.  It fails only if the build of the job has
    ended without a better payload, and waits only while that build runs, and in both
    cases the job had no payload.  The jobs that are asked for are those of [job_ok]: among
    others their attributes give the gas limit of the parent, or none, and the transactions of
    the attributes fit in it. *)
Theorem served_block_valid now n st c f :
  sys_reachable g (valid_job g td) st → sy_futures st !! n = Some (c, f) →
  match (await_future n st).1 with
  | Some (inr p) => serves now c p
  | Some (inl e) => e = MissingPayload ∧ rs_best_payload f = None ∧
      ∃ k t, rs_maybe_better f = Some k ∧ ts_builds (sy_tasks st) !! k = Some t ∧ tk_config t = c ∧
        tk_channel t ≠ Empty ∧ ∀ p, tk_channel t ≠ Sent (inr (Better p))
  | None => rs_best_payload f = None ∧
      ∃ k t, rs_maybe_better f = Some k ∧ ts_builds (sy_tasks st) !! k = Some t ∧ tk_config t = c ∧ tk_channel t = Empty
  end.
Proof.
  intros Hr En. pose proof (await_yields g (valid_job g td) n st c f Hr En) as Ha. destruct (await_future n st) as [r st'].
  destruct Ha as (Hc & Hy & _). simpl.
  destruct Hy as [k t p ? ? ? ? Hm _|best ? ? Hm|k t r ? ? ? ? []|k t Hno ? ? Hk Ht|k t ? ? He Ht|k t].
  - by apply made_served.
  - by apply made_served.
  - split_and!; [done..|]. exists k, t. split_and!; [done..|]. intros p. by apply (Hno k t p).
  - destruct (future_fallback g (valid_job g td) n st c f Hr En k He) as (t' & _ & []).
  - split; [done|]. by exists k, t.
Qed.
End served.
