(* ===== verification/TxPool.v ===== *)
(** * The transaction pool

    [TxPool] of [reth/crates/transaction-pool/src/pool/txpool.rs]: the set of all
    transactions together with the four sub-pools, and every operation that keeps
    them in step.  Metrics and tracing are left out. *)

From stdpp Require Import prelude gmap list sorting.
From S2P Require Import Prelude.
From S2P Require Import Ord.
From S2P Require Import Identifier.
From S2P Require Import State.
From S2P Require Import PoolTx.
From S2P Require Import SubPools.
From S2P Require Parked.
From S2P Require Blob.
From S2P Require Pending.
From S2P Require Best.
From S2P Require Import AllTxs.
From S2P Require Import Errors.

#[local] Existing Instances Parked.parked_ops Parked.parked_laws Blob.blob_ops Blob.blob_laws
  Pending.pending_ops Pending.pending_laws.

Section model.
Context {TO : TransactionOrdering}.

Record TxPool := mkTxPool {
  sender_info : gmap SenderId SenderInfo;
  pending_pool : Pending.PendingPool;
  config : PoolConfig;
  queued_pool : Parked.ParkedPool;
  basefee_pool : Parked.ParkedPool;
  blob_pool : Blob.BlobTransactions;
  all_transactions : AllTransactions;
}.

(** [TxPool::new]. *)
Definition TxPool_new (min_blob_gasprice : Z) (cfg : PoolConfig) : TxPool :=
  mkTxPool ∅ Pending.PendingPool_new cfg Parked.ParkedPool_default Parked.ParkedPool_default
    (Blob.BlobTransactions_default min_blob_gasprice) (AllTransactions_new min_blob_gasprice cfg).

Definition set_all (a : AllTransactions) (p : TxPool) : TxPool :=
  mkTxPool (sender_info p) (pending_pool p) (config p) (queued_pool p) (basefee_pool p) (blob_pool p) a.
Definition set_pending (x : Pending.PendingPool) (p : TxPool) : TxPool :=
  mkTxPool (sender_info p) x (config p) (queued_pool p) (basefee_pool p) (blob_pool p) (all_transactions p).
Definition set_queued (x : Parked.ParkedPool) (p : TxPool) : TxPool :=
  mkTxPool (sender_info p) (pending_pool p) (config p) x (basefee_pool p) (blob_pool p) (all_transactions p).
Definition set_basefee (x : Parked.ParkedPool) (p : TxPool) : TxPool :=
  mkTxPool (sender_info p) (pending_pool p) (config p) (queued_pool p) x (blob_pool p) (all_transactions p).
Definition set_blob (x : Blob.BlobTransactions) (p : TxPool) : TxPool :=
  mkTxPool (sender_info p) (pending_pool p) (config p) (queued_pool p) (basefee_pool p) x (all_transactions p).
Definition set_sender_info (s : gmap SenderId SenderInfo) (p : TxPool) : TxPool :=
  mkTxPool s (pending_pool p) (config p) (queued_pool p) (basefee_pool p) (blob_pool p) (all_transactions p).

(** ** Reading *)

(** [TxPool::get_highest_nonce_by_sender] and [get_highest_transaction_by_sender]. *)
Definition get_highest_transaction_by_sender (s : SenderId) (p : TxPool) : option ValidPoolTransaction :=
  (λ e, itx e.2) <$> last (txs_iter s (all_transactions p)).
Definition get_highest_nonce_by_sender (s : SenderId) (p : TxPool) : option Z :=
  vtx_nonce <$> get_highest_transaction_by_sender s p.

(** [TxPool::unique_senders]. *)
Definition unique_senders (p : TxPool) : gset Address :=
  list_to_set ((λ e, tx_sender (transaction (itx e.2))) <$> bmap_iter (txs (all_transactions p))).

(** [TxPool::size]. *)
Definition pool_sizes (p : TxPool) : PoolSize :=
  mkPoolSize (Pending.len (pending_pool p)) (Pending.pool_size (pending_pool p))
    (Blob.len (blob_pool p)) (Blob.pool_size (blob_pool p))
    (Parked.len (basefee_pool p)) (Parked.pool_size (basefee_pool p))
    (Parked.len (queued_pool p)) (Parked.pool_size (queued_pool p))
    (all_len (all_transactions p)).

(** [TxPool::block_info]. *)
Definition block_info (p : TxPool) : BlockInfo :=
  let a := all_transactions p in
  mkBlockInfo (last_seen_block_hash a) (last_seen_block_number a) (pf_base_fee (pending_fees a))
    (Some (pf_blob_fee (pending_fees a))).

(** [TxPool::contains], [get], [is_exceeded]. *)
Definition contains (h : Z) (p : TxPool) : bool := contains_hash (all_transactions p) h.
Definition get_tx (h : Z) (p : TxPool) : option ValidPoolTransaction := by_hash (all_transactions p) !! h.
Definition is_exceeded (p : TxPool) : bool := config_is_exceeded (config p) (pool_sizes p).

(** [TxPool::get_all], [get_transactions_by_sender], [pending_transactions],
    [queued_transactions], [queued_and_pending_txs_by_sender]. *)
Definition get_all (hashes : list Z) (p : TxPool) : list ValidPoolTransaction :=
  omap (λ h, get_tx h p) hashes.
Definition get_transactions_by_sender (s : SenderId) (p : TxPool) : list ValidPoolTransaction :=
  (λ e, itx e.2) <$> txs_iter s (all_transactions p).
Definition pending_transactions (p : TxPool) : list ValidPoolTransaction := Pending.all_txs (pending_pool p).
Definition queued_transactions (p : TxPool) : list ValidPoolTransaction :=
  Parked.all (basefee_pool p) ++ Parked.all (queued_pool p).
Definition queued_and_pending_txs_by_sender (s : SenderId) (p : TxPool)
  : list TransactionId * list TransactionId :=
  (Parked.get_txs_by_sender s (queued_pool p), Pending.get_txs_by_sender s (pending_pool p)).

(** ** Sub-pools *)

(** [TxPool::remove_from_subpool], also [prune_from_subpool], whose body is the
    same. *)
Definition remove_from_subpool (k : SubPool) (i : TransactionId) (p : TxPool)
  : outcome (option ValidPoolTransaction * TxPool) :=
  match k with
  | Queued =>
    '(t, x) ← @Parked.remove_transaction Parked.QueuedOrd i (queued_pool p); Done (t, set_queued x p)
  | Pending =>
    let '(t, x) := Pending.remove_transaction i (pending_pool p) in Done (t, set_pending x p)
  | BaseFee =>
    '(t, x) ← @Parked.remove_transaction Parked.BasefeeOrd i (basefee_pool p); Done (t, set_basefee x p)
  | Blob =>
    '(t, x) ← Blob.remove_transaction i (blob_pool p); Done (t, set_blob x p)
  end.

(** [TxPool::add_transaction_to_subpool]. *)
Definition add_transaction_to_subpool (k : SubPool) (tx : ValidPoolTransaction) (p : TxPool) : outcome TxPool :=
  match k with
  | Queued => x ← @Parked.add_transaction Parked.QueuedOrd tx (queued_pool p); Done (set_queued x p)
  | Pending =>
    x ← Pending.add_transaction tx (pf_base_fee (pending_fees (all_transactions p))) (pending_pool p);
    Done (set_pending x p)
  | BaseFee => x ← @Parked.add_transaction Parked.BasefeeOrd tx (basefee_pool p); Done (set_basefee x p)
  | Blob => x ← Blob.add_transaction tx (blob_pool p); Done (set_blob x p)
  end.

(** [TxPool::move_transaction]. *)
Definition move_transaction (from to : SubPool) (i : TransactionId) (p : TxPool)
  : outcome (option ValidPoolTransaction * TxPool) :=
  '(otx, p) ← remove_from_subpool from i p;
  match otx with
  | None => Done (None, p)
  | Some tx => p ← add_transaction_to_subpool to tx p; Done (Some tx, p)
  end.

(** [TxPool::remove_transaction]. *)
Definition remove_transaction (i : TransactionId) (p : TxPool)
  : outcome (option ValidPoolTransaction * TxPool) :=
  let '(r, a) := AllTxs.remove_transaction i (all_transactions p) in
  let p := set_all a p in
  match r with
  | None => Done (None, p)
  | Some (tx, pool) => remove_from_subpool pool (transaction_id tx) p
  end.

(** [TxPool::remove_transaction_by_hash] and [prune_transaction_by_hash]. *)
Definition prune_transaction_by_hash (h : Z) (p : TxPool)
  : outcome (option ValidPoolTransaction * TxPool) :=
  let '(r, a) := AllTxs.remove_transaction_by_hash h (all_transactions p) in
  let p := set_all a p in
  match r with
  | None => Done (None, p)
  | Some (tx, pool) => remove_from_subpool pool (transaction_id tx) p
  end.

(** [TxPool::remove_transactions]. *)
Definition remove_transactions (hashes : list Z) (p : TxPool)
  : outcome (list ValidPoolTransaction * TxPool) :=
  for_each (λ h st, '(otx, p) ← prune_transaction_by_hash h st.2; Done (st.1 ++ option_list otx, p))
    hashes ([], p).

(** ** Applying updates *)
Record UpdateOutcome := mkUpdateOutcome {
  promoted : list ValidPoolTransaction;
  discarded : list ValidPoolTransaction;
}.

Definition process_update (u : PoolUpdate) (st : UpdateOutcome * TxPool) : outcome (UpdateOutcome * TxPool) :=
  let '(o, p) := st in
  match pu_destination u with
  | Discard =>
    '(otx, p) ← prune_transaction_by_hash (pu_hash u) p;
    Done (mkUpdateOutcome (promoted o) (discarded o ++ option_list otx), p)
  | Pool move_to =>
    '(moved, p) ← move_transaction (pu_current u) move_to (pu_id u) p;
    Done (if bool_decide (move_to = Pending) then mkUpdateOutcome (promoted o ++ option_list moved) (discarded o)
          else o, p)
  end.

(** [TxPool::process_updates]. *)
Definition process_updates (us : list PoolUpdate) (p : TxPool) : outcome (UpdateOutcome * TxPool) :=
  for_each process_update us (mkUpdateOutcome [] [], p).

(** [TxPool::update_accounts]. *)
Definition update_accounts (changed_senders : gmap SenderId SenderInfo) (p : TxPool)
  : outcome (UpdateOutcome * TxPool) :=
  let p := set_sender_info (changed_senders ∪ sender_info p) p in
  let '(us, a) := AllTxs.update changed_senders (all_transactions p) in
  process_updates us (set_all a p).

Record OnNewCanonicalStateOutcome := mkOnNewCanonicalStateOutcome {
  oc_block_hash : Z;
  oc_mined : list Z;
  oc_promoted : list ValidPoolTransaction;
  oc_discarded : list ValidPoolTransaction;
}.

(** [TxPool::on_canonical_state_change]. *)
Definition on_canonical_state_change (info : BlockInfo) (mined_transactions : list Z)
  (changed_senders : gmap SenderId SenderInfo) (p : TxPool)
  : outcome (OnNewCanonicalStateOutcome * TxPool) :=
  let p := set_all (AllTxs.set_block_info info (all_transactions p)) p in
  p ← for_each (λ h p, '(_, p) ← prune_transaction_by_hash h p; Done p) mined_transactions p;
  '(o, p) ← update_accounts changed_senders p;
  Done (mkOnNewCanonicalStateOutcome (bi_last_seen_block_hash info) mined_transactions (promoted o) (discarded o), p).

(** ** Adding *)
(** The conversion of an [InsertErr] at the end of [TxPool::add_transaction]. *)
Definition pool_error (e : InsertErr) : PoolError :=
  match e with
  | Underpriced tx _ => mkPoolError (hash tx) ReplacementUnderpriced
  | FeeCapBelowMinimumProtocolFeeCap tx fee_cap =>
    mkPoolError (hash tx) (KindFeeCapBelowMinimumProtocolFeeCap fee_cap)
  | ExceededSenderTransactionsCapacity tx =>
    mkPoolError (hash tx) (SpammerExceededCapacity (tx_sender (transaction tx)))
  | TxGasLimitMoreThanAvailableBlockGas tx bl tl =>
    mkPoolError (hash tx) (InvalidTransaction (ExceedsGasLimit bl tl))
  | BlobTxHasNonceGap tx => mkPoolError (hash tx) (InvalidTransaction (Eip4844 Eip4844NonceGap))
  | Overdraft tx => mkPoolError (hash tx) (InvalidTransaction InvalidOverdraft)
  | TxTypeConflict tx =>
    mkPoolError (hash tx) (ExistingConflictingTransactionType (tx_sender (transaction tx)) (tx_type (transaction tx)))
  end.

Inductive AddedTransaction :=
| AddedPending (tx : ValidPoolTransaction) (replaced : option ValidPoolTransaction)
    (promoted discarded : list ValidPoolTransaction)
| AddedParked (tx : ValidPoolTransaction) (replaced : option ValidPoolTransaction) (pool : SubPool).

(** [TxPool::add_new_transaction]. *)
Definition add_new_transaction (tx : ValidPoolTransaction) (replaced : option (ValidPoolTransaction * SubPool))
  (pool : SubPool) (p : TxPool) : outcome TxPool :=
  p ← match replaced with
      | None => Done p
      | Some (old, old_pool) => '(_, p) ← remove_from_subpool old_pool (transaction_id old) p; Done p
      end;
  add_transaction_to_subpool pool tx p.

(** [TxPool::add_transaction]. *)
Definition add_transaction (tx : ValidPoolTransaction) (on_chain_balance on_chain_nonce : Z) (p : TxPool)
  : outcome ((PoolError + AddedTransaction) * TxPool) :=
  if contains (hash tx) p then Done (inl (mkPoolError (hash tx) AlreadyImported), p)
  else
    let p := set_sender_info
      (<[vtx_sender_id tx := SenderInfo_update on_chain_nonce on_chain_balance
           (default (mkSenderInfo 0 0) (sender_info p !! vtx_sender_id tx))]> (sender_info p)) p in
    r ← insert_tx tx on_chain_balance on_chain_nonce (all_transactions p);
    match r with
    | inl e => Done (inl (pool_error e), p)
    | inr (ok, a) =>
      p ← add_new_transaction (io_transaction ok) (io_replaced_tx ok) (io_move_to ok) (set_all a p);
      '(o, p) ← process_updates (io_updates ok) p;
      let replaced := fst <$> io_replaced_tx ok in
      Done (inr (if bool_decide (io_move_to ok = Pending)
                 then AddedPending (io_transaction ok) replaced (promoted o) (discarded o)
                 else AddedParked (io_transaction ok) replaced (io_move_to ok)), p)
    end.

(** ** Fees *)

(** The loop bodies of [update_basefee] and [update_blob_fee]: [f] changes the
    state, the transaction goes to the sub-pool the new state determines. *)
Definition restate (f : TxState → TxState) (tx : ValidPoolTransaction) (p : TxPool) : outcome TxPool :=
  let a := all_transactions p in
  t ← expect (txs a !! transaction_id tx);
  let st := f (state t) in
  let to := subpool_of st in
  let t := mkPoolInternalTransaction (itx t) to st (cumulative_cost t) in
  add_transaction_to_subpool to tx (set_all (set_txs (<[transaction_id tx := t]> (txs a)) a) p).

Definition set_fees (fees : PendingFees) (p : TxPool) : TxPool :=
  let a := all_transactions p in
  set_all (set_block (last_seen_block_number a) (last_seen_block_hash a) fees a) p.

(** [TxPool::update_basefee]. *)
Definition update_basefee (pending_basefee : Z) (p : TxPool) : outcome (comparison * TxPool) :=
  let old := pf_base_fee (pending_fees (all_transactions p)) in
  let p := set_fees (mkPendingFees pending_basefee (pf_blob_fee (pending_fees (all_transactions p)))) p in
  match (pending_basefee ?= old)%Z with
  | Eq => Done (Eq, p)
  | Gt =>
    let '(removed, x) := Pending.update_base_fee pending_basefee (pending_pool p) in
    p ← for_each (restate (λ s, st_remove s ENOUGH_FEE_CAP_BLOCK)) removed (set_pending x p);
    Done (Gt, p)
  | Lt =>
    '(removed, x) ← @Parked.enforce_basefee Parked.BasefeeOrd pending_basefee (basefee_pool p);
    p ← for_each (restate (λ s, st_insert s ENOUGH_FEE_CAP_BLOCK)) removed (set_basefee x p);
    Done (Lt, p)
  end.

(** [TxPool::update_blob_fee]. *)
Definition update_blob_fee (pending_blob_fee : Z) (base_fee_update : comparison) (p : TxPool) : outcome TxPool :=
  let old := pf_blob_fee (pending_fees (all_transactions p)) in
  let p := set_fees (mkPendingFees (pf_base_fee (pending_fees (all_transactions p))) pending_blob_fee) p in
  match (pending_blob_fee ?= old)%Z, base_fee_update with
  | Eq, Eq | Eq, Gt => Done p
  | Gt, Eq | Gt, Gt =>
    let '(removed, x) := Pending.update_blob_fee pending_blob_fee (pending_pool p) in
    for_each (restate (λ s, st_remove s ENOUGH_BLOB_FEE_CAP_BLOCK)) removed (set_pending x p)
  | Lt, _ | _, Lt =>
    '(removed, x) ← Blob.enforce_pending_fees (pending_fees (all_transactions p)) (blob_pool p);
    for_each (restate (λ s, st_insert (st_insert s ENOUGH_BLOB_FEE_CAP_BLOCK) ENOUGH_FEE_CAP_BLOCK)) removed
      (set_blob x p)
  end.

(** [TxPool::set_block_info]. *)
Definition set_block_info (info : BlockInfo) (p : TxPool) : outcome TxPool :=
  let a := all_transactions p in
  let p := set_all (set_block (bi_last_seen_block_number info) (bi_last_seen_block_hash info) (pending_fees a) a) p in
  '(ordering, p) ← update_basefee (bi_pending_basefee info) p;
  match bi_pending_blob_fee info with
  | Some blob_fee => update_blob_fee blob_fee ordering p
  | None => Done p
  end.

(** ** Iterators *)

(** [TxPool::best_transactions] is [Best.best] of the pending sub-pool;
    [best_transactions_with_attributes] returns one of two iterators. *)
Definition best_transactions_with_attributes (attrs : BestTransactionsAttributes) (p : TxPool)
  : outcome (Best.BestTransactions + Best.BestTransactionsWithFees) :=
  let fees := pending_fees (all_transactions p) in
  match (basefee attrs ?= pf_base_fee fees)%Z with
  | Eq =>
    if match blob_fee attrs with Some fee => fee <? wrap_u64 (pf_blob_fee fees) | None => false end then
      Done (inl (Best.best_with_unlocked (Blob.satisfy_attributes attrs (blob_pool p)) (pf_base_fee fees)
                   (pending_pool p)))
    else Done (inl (Best.best (pending_pool p)))
  | Gt =>
    Done (inr (Best.best_with_basefee_and_blobfee (basefee attrs) (default 0 (blob_fee attrs)) (pending_pool p)))
  | Lt =>
    unlocked ← @Parked.satisfy_base_fee_transactions (basefee attrs) (basefee_pool p);
    Done (inl (Best.best_with_unlocked (unlocked ++ Blob.satisfy_attributes attrs (blob_pool p))
                 (pf_base_fee fees) (pending_pool p)))
  end.

(** ** Eviction *)

(** [TxPool::remove_descendants]. *)
Fixpoint remove_descendants (fuel : nat) (id : TransactionId) (st : list ValidPoolTransaction * TxPool)
  : outcome (list ValidPoolTransaction * TxPool) :=
  match descendant_txs_exclusive id (all_transactions st.2) with
  | [] => Done st
  | (descendant, _) :: _ =>
    match fuel with
    | O => NoFuel
    | S fuel' =>
      '(otx, p) ← remove_transaction descendant st.2;
      remove_descendants fuel' descendant (st.1 ++ option_list otx, p)
    end
  end.

(** Steps 2 and 3 of the macro in [discard_worst]. *)
Definition discard_removed (fuel : nat) (tx : ValidPoolTransaction) (st : list ValidPoolTransaction * TxPool)
  : outcome (list ValidPoolTransaction * TxPool) :=
  let id := transaction_id tx in
  let p := set_all (AllTxs.remove_transaction id (all_transactions st.2)).2 st.2 in
  remove_descendants fuel id (st.1 ++ [tx], p).

(** The [while] loop the macro expands to, for the sub-pool given by its [exceeds]
    and [truncate_pool]. *)
Fixpoint discard_loop (fuel : nat) (exceeds : TxPool → bool)
  (truncate : nat → TxPool → outcome (list ValidPoolTransaction * TxPool))
  (st : list ValidPoolTransaction * TxPool) : outcome (list ValidPoolTransaction * TxPool) :=
  if exceeds st.2 then
    match fuel with
    | O => NoFuel
    | S fuel' =>
      '(removed_from_subpool, p) ← truncate fuel st.2;
      st ← for_each (discard_removed fuel) removed_from_subpool (st.1, p);
      discard_loop fuel' exceeds truncate st
    end
  else Done st.

Definition exceeds_limit (k : SubPool) (p : TxPool) : bool :=
  match k with
  | Pending => Pending.exceeds (pending_pool p) (pending_limit (config p))
  | BaseFee => Parked.exceeds (basefee_pool p) (basefee_limit (config p))
  | Blob => Blob.exceeds (blob_pool p) (blob_limit (config p))
  | Queued => Parked.exceeds (queued_pool p) (queued_limit (config p))
  end.

Definition truncate_subpool (k : SubPool) (fuel : nat) (p : TxPool)
  : outcome (list ValidPoolTransaction * TxPool) :=
  match k with
  | Pending =>
    '(r, x) ← Pending.truncate_pool fuel (pending_limit (config p)) (pending_pool p); Done (r, set_pending x p)
  | BaseFee =>
    '(r, x) ← @Parked.truncate_pool Parked.BasefeeOrd fuel (basefee_limit (config p)) (basefee_pool p);
    Done (r, set_basefee x p)
  | Blob => '(r, x) ← Blob.truncate_pool fuel (blob_limit (config p)) (blob_pool p); Done (r, set_blob x p)
  | Queued =>
    '(r, x) ← @Parked.truncate_pool Parked.QueuedOrd fuel (queued_limit (config p)) (queued_pool p);
    Done (r, set_queued x p)
  end.

(** [TxPool::discard_worst]: the sub-pools in the order of the macro's argument. *)
Definition discard_worst (fuel : nat) (p : TxPool) : outcome (list ValidPoolTransaction * TxPool) :=
  for_each (λ k st, discard_loop fuel (exceeds_limit k) (truncate_subpool k) st)
    [Pending; BaseFee; Blob; Queued] ([], p).
End model.

(** ** Invariant *)
Section invariant.
Context {TO : TransactionOrdering}.
Implicit Types (p : TxPool) (k : SubPool) (i : TransactionId).

(** The transactions in a sub-pool. *)
Definition sub_txs p k : gmap TransactionId ValidPoolTransaction :=
  match k with
  | Queued => Parked.ptransaction <$> Parked.by_id (queued_pool p)
  | BaseFee => Parked.ptransaction <$> Parked.by_id (basefee_pool p)
  | Blob => Blob.btransaction <$> Blob.by_id (blob_pool p)
  | Pending => Pending.ptransaction <$> Pending.by_id (pending_pool p)
  end.

Record subs_ok p : Prop := {
  so_pending : Pending.pending_wf (pending_pool p);
  so_queued : @Parked.parked_wf Parked.QueuedOrd (queued_pool p);
  so_basefee : @Parked.parked_wf Parked.BasefeeOrd (basefee_pool p);
  so_blob : Blob.blob_wf (blob_pool p);
}.

(** Room for [n] more additions in the 64-bit submission counter of every
    sub-pool. *)
Definition room p (n : Z) : Prop :=
  Pending.pd_submission_id (pending_pool p) + n < U64 ∧
  Parked.pk_submission_id (queued_pool p) + n < U64 ∧
  Parked.pk_submission_id (basefee_pool p) + n < U64 ∧
  Blob.bl_submission_id (blob_pool p) + n < U64.

(** What the operations on sub-pools leave alone. *)
Definition same_rest p p' : Prop :=
  all_transactions p' = all_transactions p ∧ sender_info p' = sender_info p ∧ config p' = config p.

(** The content of one sub-pool becomes [m]. *)
Definition sub_set p k (m : gmap TransactionId ValidPoolTransaction) p' : Prop :=
  sub_txs p' k = m ∧ ∀ k', k' ≠ k → sub_txs p' k' = sub_txs p k'.

Record sub_change p k (m : gmap TransactionId ValidPoolTransaction) p' : Prop := {
  sc_ok : subs_ok p';
  sc_set : sub_set p k m p';
  sc_rest : same_rest p p';
}.

Lemma remove_from_subpool_ok p k i :
  subs_ok p →
  ∃ p', remove_from_subpool k i p = Done (sub_txs p k !! i, p') ∧
    sub_change p k (delete i (sub_txs p k)) p' ∧ ∀ n, room p n → room p' n.
Proof.
  intros [Wp Wq Wb Wl]. destruct k; cbn [remove_from_subpool sub_txs].
  - destruct (@sp_remove_ok _ _ (@Parked.parked_laws Parked.QueuedOrd) (queued_pool p) i Wq)
      as (x & E & W & S' & T). cbn in E, S', T. rewrite E. cbn. eexists. split; [done|].
    split; [split; [by split|split; [done|by intros []]|done]|]. unfold room. simpl. by rewrite S'.
  - destruct (@sp_remove_ok _ _ (@Parked.parked_laws Parked.BasefeeOrd) (basefee_pool p) i Wb)
      as (x & E & W & S' & T). cbn in E, S', T. rewrite E. cbn. eexists. split; [done|].
    split; [split; [by split|split; [done|by intros []]|done]|]. unfold room. simpl. by rewrite S'.
  - destruct (@sp_remove_ok _ _ Blob.blob_laws (blob_pool p) i Wl)
      as (x & E & W & S' & T). cbn in E, S', T. rewrite E. cbn. eexists. split; [done|].
    split; [split; [by split|split; [done|by intros []]|done]|]. unfold room. simpl. by rewrite S'.
  - destruct (@sp_remove_ok _ _ Pending.pending_laws (pending_pool p) i Wp)
      as (x & E & W & S' & T). cbn in E, S', T. injection E as E. rewrite E. cbn. eexists. split; [done|].
    split; [split; [by split|split; [done|by intros []]|done]|]. unfold room. simpl. by rewrite S'.
Qed.

Lemma add_transaction_to_subpool_ok p k tx :
  subs_ok p → room p 1 → vtx_ok tx → (k = Blob → is_eip4844 tx = true) →
  sub_txs p k !! transaction_id tx = None →
  ∃ p', add_transaction_to_subpool k tx p = Done p' ∧
    sub_change p k (<[transaction_id tx := tx]> (sub_txs p k)) p' ∧
    ∀ n, 0 ≤ n → room p (n + 1) → room p' n.
Proof.
  intros [Wp Wq Wb Wl] (R1 & R2 & R3 & R4) Hok Hacc Hnone.
  destruct k; cbn [add_transaction_to_subpool sub_txs] in *.
  - destruct (@sp_add_ok _ _ (@Parked.parked_laws Parked.QueuedOrd) (queued_pool p) tx 0 Wq R2 Hok I Hnone)
      as (x & E & W & S' & T). cbn in E, S', T. rewrite E. cbn. eexists. split; [done|].
    split; [split; [by split|split; [done|by intros []]|done]|]. unfold room. simpl. rewrite S'. lia.
  - destruct (@sp_add_ok _ _ (@Parked.parked_laws Parked.BasefeeOrd) (basefee_pool p) tx 0 Wb R3 Hok I Hnone)
      as (x & E & W & S' & T). cbn in E, S', T. rewrite E. cbn. eexists. split; [done|].
    split; [split; [by split|split; [done|by intros []]|done]|]. unfold room. simpl. rewrite S'. lia.
  - destruct (@sp_add_ok _ _ Blob.blob_laws (blob_pool p) tx 0 Wl R4 Hok (Hacc eq_refl) Hnone)
      as (x & E & W & S' & T). cbn in E, S', T. rewrite E. cbn. eexists. split; [done|].
    split; [split; [by split|split; [done|by intros []]|done]|]. unfold room. simpl. rewrite S'. lia.
  - destruct (@sp_add_ok _ _ Pending.pending_laws (pending_pool p) tx
      (pf_base_fee (pending_fees (all_transactions p))) Wp R1 Hok I Hnone)
      as (x & E & W & S' & T). cbn in E, S', T. rewrite E. cbn. eexists. split; [done|].
    split; [split; [by split|split; [done|by intros []]|done]|]. unfold room. simpl. rewrite S'. lia.
Qed.

(** Where a stored transaction is: in its sub-pool, unless it is in transit, in
    which case [ov] says where it still is, or that it is in none. *)
Definition place (ov : gmap TransactionId (option SubPool)) i (t : PoolInternalTransaction) : option SubPool :=
  default (Some (subpool t)) (ov !! i).

Definition synced ov (m : gmap TransactionId PoolInternalTransaction) p : Prop :=
  ∀ k i tx, sub_txs p k !! i = Some tx ↔ ∃ t, m !! i = Some t ∧ itx t = tx ∧ place ov i t = Some k.

Record transit ov p : Prop := {
  tr_all : all_wf (all_transactions p);
  tr_subs : subs_ok p;
  tr_sync : synced ov (txs (all_transactions p)) p;
  tr_fees : Blob.fees_ok (pending_fees (all_transactions p));
}.

(** The invariant of the pool: nothing is in transit. *)
Definition pool_wf p : Prop := transit ∅ p.

Lemma place_override ov i o t : place (<[i := o]> ov) i t = o.
Proof. unfold place. by rewrite lookup_insert_eq. Qed.

Lemma place_other ov i o j t : i ≠ j → place (<[i := o]> ov) j t = place ov j t.
Proof. intros Hne. unfold place. by rewrite lookup_insert_ne. Qed.

Lemma synced_ext ov m ov' m' p :
  (∀ i k tx, (∃ t, m !! i = Some t ∧ itx t = tx ∧ place ov i t = Some k) ↔
             (∃ t, m' !! i = Some t ∧ itx t = tx ∧ place ov' i t = Some k)) →
  synced ov m p → synced ov' m' p.
Proof. intros He Hs k i tx. etrans; [apply Hs|apply He]. Qed.

Lemma synced_lookup ov m p i t k :
  synced ov m p → m !! i = Some t → place ov i t = Some k → sub_txs p k !! i = Some (itx t).
Proof. intros Hs Hi Hk. apply Hs. eauto. Qed.

Lemma synced_absent ov m p i t k :
  synced ov m p → m !! i = Some t → place ov i t ≠ Some k → sub_txs p k !! i = None.
Proof.
  intros Hs Hi Hk. apply eq_None_not_Some. intros [tx (t' & Ht' & _ & Hp)%Hs].
  rewrite Hi in Ht'. injection Ht' as <-. done.
Qed.

(** Taking a transaction out of the sub-pool it is in. *)
Lemma synced_remove ov m p p' i t k :
  synced ov m p → m !! i = Some t → place ov i t = Some k →
  sub_set p k (delete i (sub_txs p k)) p' → synced (<[i := None]> ov) m p'.
Proof.
  intros Hs Hi Hk [Hh Ht] k' j tx. destruct (decide (i = j)) as [<-|Hne].
  - split.
    + intros Hl. destruct (decide (k' = k)) as [->|Hkk].
      * by rewrite Hh, lookup_delete_eq in Hl.
      * rewrite (Ht k' Hkk) in Hl. apply Hs in Hl as (t' & Ht' & _ & Hp). simplify_eq.
    + intros (t' & Ht' & _ & Hp). by rewrite place_override in Hp.
  - setoid_rewrite place_other; [|done]. etrans; [|apply Hs].
    destruct (decide (k' = k)) as [->|Hkk]; [by rewrite Hh, lookup_delete_ne|by rewrite (Ht k' Hkk)].
Qed.

(** Putting it into one. *)
Lemma synced_add ov m p p' i t k :
  synced ov m p → m !! i = Some t → place ov i t = None →
  sub_set p k (<[i := itx t]> (sub_txs p k)) p' → synced (<[i := Some k]> ov) m p'.
Proof.
  intros Hs Hi Hk [Hh Ht] k' j tx. destruct (decide (i = j)) as [<-|Hne].
  - split.
    + intros Hl. destruct (decide (k' = k)) as [->|Hkk].
      * rewrite Hh, lookup_insert_eq in Hl. injection Hl as <-. exists t. by rewrite place_override.
      * rewrite (Ht k' Hkk) in Hl. apply Hs in Hl as (t' & Ht' & _ & Hp). simplify_eq.
    + intros (t' & Ht' & <- & Hp). rewrite place_override in Hp. injection Hp as <-.
      rewrite Hh, lookup_insert_eq. congruence.
  - setoid_rewrite place_other; [|done]. etrans; [|apply Hs].
    destruct (decide (k' = k)) as [->|Hkk]; [by rewrite Hh, lookup_insert_ne|by rewrite (Ht k' Hkk)].
Qed.

(** An override that says what the entry says can go. *)
Lemma synced_settle ov m p i t :
  m !! i = Some t → synced (<[i := Some (subpool t)]> ov) m p → synced (delete i ov) m p.
Proof.
  intros Hi. apply synced_ext. intros j k tx. destruct (decide (i = j)) as [<-|Hne].
  - setoid_rewrite place_override. unfold place. rewrite lookup_delete_eq. simpl. naive_solver.
  - setoid_rewrite place_other; [|done]. unfold place. by rewrite lookup_delete_ne.
Qed.

(** A transaction in transit can be dropped from the map or changed. *)
Lemma synced_drop ov m p i : synced (<[i := None]> ov) m p → synced (delete i ov) (delete i m) p.
Proof.
  apply synced_ext. intros j k tx. destruct (decide (i = j)) as [<-|Hne].
  - setoid_rewrite place_override. setoid_rewrite lookup_delete_eq. naive_solver.
  - setoid_rewrite place_other; [|done]. setoid_rewrite lookup_delete_ne; [|done].
    unfold place. by rewrite lookup_delete_ne.
Qed.

Lemma synced_change ov m p i t : synced (<[i := None]> ov) m p → synced (<[i := None]> ov) (<[i := t]> m) p.
Proof.
  apply synced_ext. intros j k tx. destruct (decide (i = j)) as [<-|Hne].
  - setoid_rewrite place_override. naive_solver.
  - by setoid_rewrite lookup_insert_ne.
Qed.

(** The sub-pools do not look at the rest of the pool. *)
Lemma synced_same ov m p p' : (∀ k, sub_txs p' k = sub_txs p k) → synced ov m p → synced ov m p'.
Proof. intros He Hs k i tx. rewrite He. apply Hs. Qed.

Lemma override_id (ov : gmap TransactionId (option SubPool)) i o : ov !! i = Some o → <[i := o]> ov = ov.
Proof. apply insert_id. Qed.
End invariant.

(** ** Operations in transit *)
Section transit.
Context {TO : TransactionOrdering}.
Implicit Types (p : TxPool) (k : SubPool) (i : TransactionId) (t : PoolInternalTransaction).
Implicit Types (ov : gmap TransactionId (option SubPool)).

Lemma internal_accepts i t : internal_ok i t → subpool t = Blob → is_eip4844 (itx t) = true.
Proof.
  intros Hok Hs. rewrite <-(in_blob _ _ Hok). apply subpool_of_blob. by rewrite <-(in_subpool _ _ Hok).
Qed.

Lemma transit_entry ov p i t :
  transit ov p → txs (all_transactions p) !! i = Some t → internal_ok i t.
Proof. intros T. apply (aw_tx _ (tr_all _ _ T)). Qed.

(** Putting a transaction that is in no sub-pool into the one its entry names. *)
Lemma transit_add ov p i t :
  transit ov p → txs (all_transactions p) !! i = Some t → ov !! i = Some None → room p 1 →
  ∃ p', add_transaction_to_subpool (subpool t) (itx t) p = Done p' ∧ transit (delete i ov) p' ∧
    same_rest p p' ∧ ∀ n, 0 ≤ n → room p (n + 1) → room p' n.
Proof.
  intros T Hi Hov Hroom. pose proof (transit_entry _ _ _ _ T Hi) as Hok.
  pose proof (in_key _ _ Hok) as Hkey. assert (Hp : place ov i t = None) by (unfold place; by rewrite Hov).
  destruct (add_transaction_to_subpool_ok p (subpool t) (itx t) (tr_subs _ _ T) Hroom (in_vtx _ _ Hok)
    (internal_accepts _ _ Hok)) as (p' & Hadd & Hch & Hr).
  { rewrite Hkey. apply (synced_absent ov _ p i t _ (tr_sync _ _ T) Hi). by rewrite Hp. }
  rewrite Hkey in Hch. exists p'. pose proof (sc_rest _ _ _ _ Hch) as Hrest. split_and!; [done| |done|done].
  destruct Hrest as (Ha & _). split; [by rewrite Ha; apply T|apply Hch| |by rewrite Ha; apply T].
  rewrite Ha. eapply synced_settle; [exact Hi|]. eapply synced_add; [apply T|done|done|apply Hch].
Qed.

(** Taking a transaction out of the sub-pool it is still in. *)
Lemma transit_remove ov p i t k :
  transit ov p → txs (all_transactions p) !! i = Some t → place ov i t = Some k →
  ∃ p', remove_from_subpool k i p = Done (Some (itx t), p') ∧ transit (<[i := None]> ov) p' ∧
    same_rest p p' ∧ ∀ n, room p n → room p' n.
Proof.
  intros T Hi Hp. destruct (remove_from_subpool_ok p k i (tr_subs _ _ T)) as (p' & Hr & Hch & Hroom).
  rewrite (synced_lookup ov _ p i t k (tr_sync _ _ T) Hi Hp) in Hr. exists p'.
  pose proof (sc_rest _ _ _ _ Hch) as Hrest. split_and!; [done| |done|done].
  destruct Hrest as (Ha & _). split; [by rewrite Ha; apply T|apply Hch| |by rewrite Ha; apply T].
  rewrite Ha. eapply synced_remove; [apply T|done|done|apply Hch].
Qed.

(** [move_transaction] to the sub-pool the entry names. *)
Lemma transit_move ov p i t from :
  transit ov p → txs (all_transactions p) !! i = Some t → ov !! i = Some (Some from) → room p 1 →
  ∃ p', move_transaction from (subpool t) i p = Done (Some (itx t), p') ∧ transit (delete i ov) p' ∧
    same_rest p p' ∧ ∀ n, 0 ≤ n → room p (n + 1) → room p' n.
Proof.
  intros T Hi Hov Hroom. unfold move_transaction.
  destruct (transit_remove ov p i t from T Hi) as (p1 & -> & T1 & (Ha1 & Hs1 & Hc1) & Hr1).
  { unfold place. by rewrite Hov. }
  cbn. destruct (transit_add _ p1 i t T1) as (p2 & -> & T2 & (Ha2 & Hs2 & Hc2) & Hr2).
  { by rewrite Ha1. } { apply lookup_insert_eq. } { by apply Hr1. }
  cbn. exists p2. rewrite delete_insert_eq in T2. split_and!; [done|done| |by auto].
  split_and!; congruence.
Qed.

(** Dropping a transaction from the set of all transactions and from the sub-pool
    that set names; it may already be out of it. *)
Lemma transit_drop ov p i t :
  transit ov p → txs (all_transactions p) !! i = Some t →
  place ov i t = Some (subpool t) ∨ ov !! i = Some None →
  ∃ otx p', remove_from_subpool (subpool t) i (set_all (drop_entry i t (all_transactions p)) p) = Done (otx, p') ∧
    transit (delete i ov) p' ∧ all_transactions p' = drop_entry i t (all_transactions p) ∧
    sender_info p' = sender_info p ∧ config p' = config p ∧ (∀ n, room p n → room p' n) ∧
    otx = (if decide (ov !! i = Some None) then None else Some (itx t)) ∧
    (∀ k j, sub_txs p' k !! j = if decide (j = i) then None else sub_txs p k !! j).
Proof.
  intros T Hi Hp. set (p0 := set_all _ p).
  assert (Hs0 : subs_ok p0) by (destruct (tr_subs _ _ T); by split).
  destruct (remove_from_subpool_ok p0 (subpool t) i Hs0) as (p' & Hr & Hch & Hroom).
  change (sub_txs p0) with (sub_txs p) in *.
  pose proof (sc_rest _ _ _ _ Hch) as (Ha & Hsi & Hc). eexists _, p'. split; [exact Hr|].
  assert (Hget : ∀ k j, sub_txs p' k !! j = if decide (j = i) then None else sub_txs p k !! j).
  { intros k j. destruct (sc_set _ _ _ _ Hch) as [Hh Hth]. destruct (decide (k = subpool t)) as [->|Hk].
    - rewrite Hh. destruct (decide (j = i)) as [->|]; [apply lookup_delete_eq|by rewrite lookup_delete_ne].
    - rewrite (Hth k Hk). change (sub_txs p0) with (sub_txs p).
      destruct (decide (j = i)) as [->|]; [|done]. apply (synced_absent ov _ p i t k (tr_sync _ _ T) Hi).
      destruct Hp as [-> |Hp]; [congruence|]. unfold place. by rewrite Hp. }
  split_and!; [|done|by rewrite Hsi|by rewrite Hc|done| |done].
  - split; [rewrite Ha; by apply drop_entry_wf, Hi; apply T|apply Hch| |by rewrite Ha; apply T].
    rewrite Ha. simpl. intros k j tx. rewrite Hget. destruct (decide (j = i)) as [->|Hne].
    + setoid_rewrite lookup_delete_eq. naive_solver.
    + setoid_rewrite lookup_delete_ne; [|done]. unfold place. rewrite lookup_delete_ne by done. apply T.
  - case_decide as E.
    + apply (synced_absent ov _ p i t _ (tr_sync _ _ T) Hi). unfold place. by rewrite E.
    + apply (synced_lookup ov _ p i t _ (tr_sync _ _ T) Hi). by destruct Hp.
Qed.

(** [remove_transaction] and [prune_transaction_by_hash]. *)
Lemma transit_remove_transaction ov p i t :
  transit ov p → txs (all_transactions p) !! i = Some t →
  place ov i t = Some (subpool t) ∨ ov !! i = Some None →
  ∃ otx p', remove_transaction i p = Done (otx, p') ∧
    transit (delete i ov) p' ∧ all_transactions p' = drop_entry i t (all_transactions p) ∧
    sender_info p' = sender_info p ∧ config p' = config p ∧ (∀ n, room p n → room p' n) ∧
    otx = (if decide (ov !! i = Some None) then None else Some (itx t)) ∧
    (∀ k j, sub_txs p' k !! j = if decide (j = i) then None else sub_txs p k !! j).
Proof.
  intros T Hi Hp. unfold remove_transaction. rewrite (remove_transaction_ok _ i (tr_all _ _ T)), Hi.
  rewrite (in_key _ _ (transit_entry _ _ _ _ T Hi)). by apply transit_drop.
Qed.

Lemma transit_prune ov p h :
  transit ov p →
  (∀ tx t, by_hash (all_transactions p) !! h = Some tx →
    txs (all_transactions p) !! transaction_id tx = Some t → place ov (transaction_id tx) t = Some (subpool t)) →
  ∃ p', prune_transaction_by_hash h p = Done (by_hash (all_transactions p) !! h, p') ∧
    sender_info p' = sender_info p ∧ config p' = config p ∧ (∀ n, room p n → room p' n) ∧
    match by_hash (all_transactions p) !! h with
    | None => transit ov p' ∧ all_transactions p' = all_transactions p
    | Some tx => ∃ t, txs (all_transactions p) !! transaction_id tx = Some t ∧ itx t = tx ∧
        transit (delete (transaction_id tx) ov) p' ∧
        all_transactions p' = drop_entry (transaction_id tx) t (all_transactions p)
    end.
Proof.
  intros T Hpl. unfold prune_transaction_by_hash.
  pose proof (remove_transaction_by_hash_ok (all_transactions p) h (tr_all _ _ T)) as Hr.
  destruct (by_hash (all_transactions p) !! h) as [tx|] eqn:Hh.
  - destruct Hr as (t & Ht & Htx & _ & ->). specialize (Hpl tx t eq_refl Ht).
    destruct (transit_drop ov p (transaction_id tx) t T Ht (or_introl Hpl))
      as (otx & p' & -> & T' & Ha & Hsi & Hc & Hroom & Hotx & _).
    assert (ov !! transaction_id tx ≠ Some None) by (intros E; unfold place in Hpl; by rewrite E in Hpl).
    exists p'. rewrite Hotx, decide_False, Htx by done. split_and!; [done..|]. exists t. by split_and!.
  - rewrite Hr. exists p. assert (set_all (all_transactions p) p = p) as -> by (by destruct p).
    by split_and!.
Qed.
End transit.
