(* ===== verification/Inner.v ===== *)
(** * The pool with its identifiers, blob store and listeners

    [PoolInner] of [pool/mod.rs]: it translates addresses, hands validated
    transactions to [TxPool], keeps the sidecars of blob transactions, and reports
    what happens to listeners.  The validator runs before; its outcomes are inputs.
    Metrics and tracing are left out, and a method runs without another one in
    between. *)

From stdpp Require Import prelude gmap list sorting.
From S2P Require Import Prelude.
From S2P Require Import Ord.
From S2P Require Import Identifier.
From S2P Require Import State.
From S2P Require Import PoolTx.
From S2P Require Import AllTxs.
From S2P Require Import Errors.
From S2P Require Import Events.
From S2P Require Import BlobStore.
From S2P Require Import TxPool.

(** ** Validation outcomes *)

Inductive ValidTransaction :=
| Valid (tx : PoolTransaction)
| ValidWithSidecar (tx : PoolTransaction) (sidecar : Sidecar).

(** [ValidTransaction::new], [transaction]. *)
Definition ValidTransaction_new (tx : PoolTransaction) (sidecar : option Sidecar) : ValidTransaction :=
  match sidecar with Some d => ValidWithSidecar tx d | None => Valid tx end.
Definition valid_tx (v : ValidTransaction) : PoolTransaction :=
  match v with Valid tx | ValidWithSidecar tx _ => tx end.

Inductive TransactionValidationOutcome :=
| OutcomeValid (balance state_nonce : Z) (v : ValidTransaction) (propagate : bool)
| OutcomeInvalid (tx : PoolTransaction) (err : InvalidPoolTransactionError)
| OutcomeError (tx_hash : Z).

(** [TransactionValidationOutcome::tx_hash]. *)
Definition outcome_hash (o : TransactionValidationOutcome) : Z :=
  match o with
  | OutcomeValid _ _ v _ => tx_hash (valid_tx v)
  | OutcomeInvalid tx _ => tx_hash tx
  | OutcomeError h => h
  end.

Record ChangedAccount := mkChangedAccount { ca_address : Address; ca_nonce : Z; ca_balance : Z }.

(** [CanonicalStateUpdate]; of the new tip its hash and number are used. *)
Record CanonicalStateUpdate := mkCanonicalStateUpdate {
  cu_tip_hash : Z;
  cu_tip_number : Z;
  cu_pending_block_base_fee : Z;
  cu_pending_block_blob_fee : option Z;
  cu_changed_accounts : list ChangedAccount;
  cu_mined_transactions : list Z;
}.
Definition cu_block_info (u : CanonicalStateUpdate) : BlockInfo :=
  mkBlockInfo (cu_tip_hash u) (cu_tip_number u) (cu_pending_block_base_fee u) (cu_pending_block_blob_fee u).

(** ** Listeners *)

Inductive TransactionListenerKind := ListenAll | PropagateOnly.
Definition is_propagate_only (k : TransactionListenerKind) : bool :=
  match k with PropagateOnly => true | ListenAll => false end.

(** [PendingTransactionHashListener] and [TransactionListener]: a channel and the kind
    of transactions it is for. *)
Record Listener := mkListener { ls_sender : nat; ls_kind : TransactionListenerKind }.

(** [send_all] of both: [false] if the receiver is gone; a full channel ends the call. *)
Fixpoint send_all (c : nat) (msgs : list Message) (w : World) : bool * World :=
  match msgs with
  | [] => (true, w)
  | m :: msgs' =>
    let '(r, w) := try_send c m w in
    match r with
    | Sent => send_all c msgs' w
    | Full => (true, w)
    | Closed => (false, w)
    end
  end.

(** [PendingTransactionIter] and [FullPendingTransactionIter]. *)
Definition for_kind (k : TransactionListenerKind) (txs : list ValidPoolTransaction) : list ValidPoolTransaction :=
  filter (λ tx, negb (is_propagate_only k && negb (propagate tx))) txs.
Definition pending_hashes (k : TransactionListenerKind) (txs : list ValidPoolTransaction) : list Message :=
  (λ tx, MsgHash (hash tx)) <$> for_kind k txs.
Definition full_pending (k : TransactionListenerKind) (txs : list ValidPoolTransaction) : list Message :=
  (λ tx, MsgNew (mkNewTransactionEvent Pending tx)) <$> for_kind k txs.

(** ** What was added *)
Definition added_tx (a : AddedTransaction) : ValidPoolTransaction :=
  match a with AddedPending tx _ _ _ | AddedParked tx _ _ => tx end.
Definition added_replaced (a : AddedTransaction) : option ValidPoolTransaction :=
  match a with AddedPending _ r _ _ | AddedParked _ r _ => r end.
(** [AddedTransaction::replaced_blob_transaction]. *)
Definition replaced_blob_transaction (a : AddedTransaction) : option Z :=
  match added_replaced a with
  | Some tx => if is_eip4844 tx then Some (hash tx) else None
  | None => None
  end.
(** [AddedTransaction::discarded_transactions]. *)
Definition discarded_transactions (a : AddedTransaction) : option (list ValidPoolTransaction) :=
  match a with AddedPending _ _ _ d => Some d | AddedParked _ _ _ => None end.
(** [AddedTransaction::into_new_transaction_event]. *)
Definition into_new_transaction_event (a : AddedTransaction) : NewTransactionEvent :=
  match a with
  | AddedPending tx _ _ _ => mkNewTransactionEvent Pending tx
  | AddedParked tx _ k => mkNewTransactionEvent k tx
  end.

(** The hashes of the blob transactions among some transactions. *)
Definition blob_hashes (txs : list ValidPoolTransaction) : list Z := hash <$> filter (λ tx, is_eip4844 tx) txs.

(** ** PoolInner *)
Section model.
Context {TO : TransactionOrdering} {S : Type} {BS : BlobStore S}.

(** The last field is the state of the channels. *)
Record PoolInner := mkPoolInner {
  identifiers : SenderIdentifiers;
  blob_store : S;
  pool : TxPool;
  inner_config : PoolConfig;
  event_listener : PoolEventBroadcast;
  pending_transaction_listener : list Listener;
  transaction_listener : list Listener;
  blob_transaction_sidecar_listener : list nat;
  world : World;
}.

(** [PoolInner::new]. *)
Definition PoolInner_new (min_blob_gasprice : Z) (store : S) (cfg : PoolConfig) (w : World) : PoolInner :=
  mkPoolInner SenderIdentifiers_default store (TxPool_new min_blob_gasprice cfg) cfg
    PoolEventBroadcast_default [] [] [] w.

Definition set_ids (t : SenderIdentifiers) (i : PoolInner) : PoolInner :=
  mkPoolInner t (blob_store i) (pool i) (inner_config i) (event_listener i) (pending_transaction_listener i)
    (transaction_listener i) (blob_transaction_sidecar_listener i) (world i).
Definition set_store (s : S) (i : PoolInner) : PoolInner :=
  mkPoolInner (identifiers i) s (pool i) (inner_config i) (event_listener i) (pending_transaction_listener i)
    (transaction_listener i) (blob_transaction_sidecar_listener i) (world i).
Definition set_pool (p : TxPool) (i : PoolInner) : PoolInner :=
  mkPoolInner (identifiers i) (blob_store i) p (inner_config i) (event_listener i) (pending_transaction_listener i)
    (transaction_listener i) (blob_transaction_sidecar_listener i) (world i).
Definition set_events (bw : PoolEventBroadcast * World) (i : PoolInner) : PoolInner :=
  mkPoolInner (identifiers i) (blob_store i) (pool i) (inner_config i) bw.1 (pending_transaction_listener i)
    (transaction_listener i) (blob_transaction_sidecar_listener i) bw.2.
Definition set_pending_listeners (lw : list Listener * World) (i : PoolInner) : PoolInner :=
  mkPoolInner (identifiers i) (blob_store i) (pool i) (inner_config i) (event_listener i) lw.1
    (transaction_listener i) (blob_transaction_sidecar_listener i) lw.2.
Definition set_transaction_listeners (lw : list Listener * World) (i : PoolInner) : PoolInner :=
  mkPoolInner (identifiers i) (blob_store i) (pool i) (inner_config i) (event_listener i)
    (pending_transaction_listener i) lw.1 (blob_transaction_sidecar_listener i) lw.2.
Definition set_sidecar_listeners (lw : list nat * World) (i : PoolInner) : PoolInner :=
  mkPoolInner (identifiers i) (blob_store i) (pool i) (inner_config i) (event_listener i)
    (pending_transaction_listener i) (transaction_listener i) lw.1 lw.2.

(** The calls of [event_listener.write()]. *)
Definition report (ks : list Call) (i : PoolInner) : PoolInner :=
  set_events (calls ks (event_listener i, world i)) i.

(** ** Senders and listeners *)

(** [PoolInner::get_sender_id]. *)
Definition get_sender_id (a : Address) (i : PoolInner) : SenderId * PoolInner :=
  let '(s, t) := sender_id_or_create (identifiers i) a in (s, set_ids t i).

(** [PoolInner::changed_senders]; a later entry of an account replaces an earlier
    one. *)
Definition changed_senders (accs : list ChangedAccount) (i : PoolInner) : gmap SenderId SenderInfo * PoolInner :=
  foldl (λ st acc,
    let '(m, i) := st in
    let '(s, i) := get_sender_id (ca_address acc) i in
    (<[s := mkSenderInfo (ca_nonce acc) (ca_balance acc)]> m, i)) (∅, i) accs.

(** [add_pending_listener], [add_new_transaction_listener], [add_blob_sidecar_listener]. *)
Definition add_pending_listener (k : TransactionListenerKind) (i : PoolInner) : nat * PoolInner :=
  let '(c, w) := channel (world i) in
  (c, set_pending_listeners (pending_transaction_listener i ++ [mkListener c k], w) i).
Definition add_new_transaction_listener (k : TransactionListenerKind) (i : PoolInner) : nat * PoolInner :=
  let '(c, w) := channel (world i) in
  (c, set_transaction_listeners (transaction_listener i ++ [mkListener c k], w) i).
Definition add_blob_sidecar_listener (i : PoolInner) : nat * PoolInner :=
  let '(c, w) := channel (world i) in
  (c, set_sidecar_listeners (blob_transaction_sidecar_listener i ++ [c], w) i).

(** [add_transaction_event_listener], [add_all_transactions_event_listener]. *)
Definition add_transaction_event_listener (h : Z) (i : PoolInner) : option nat * PoolInner :=
  if contains h (pool i) then
    let '(c, b, w) := subscribe h (event_listener i) (world i) in (Some c, set_events (b, w) i)
  else (None, i).
Definition add_all_transactions_event_listener (i : PoolInner) : nat * PoolInner :=
  let '(c, b, w) := subscribe_all (event_listener i) (world i) in (c, set_events (b, w) i).

(** ** Notifications *)

(** [on_new_pending_transaction]. *)
Definition on_new_pending_transaction (tx : ValidPoolTransaction) (promoted : list ValidPoolTransaction)
  (i : PoolInner) : PoolInner :=
  set_pending_listeners (retain (λ l w,
    if is_propagate_only (ls_kind l) && negb (propagate tx) then
      let '(closed, w) := is_closed (ls_sender l) w in (negb closed, w)
    else send_all (ls_sender l) (pending_hashes (ls_kind l) (tx :: promoted)) w)
    (pending_transaction_listener i) (world i)) i.

(** [on_new_transaction]. *)
Definition on_new_transaction (e : NewTransactionEvent) (i : PoolInner) : PoolInner :=
  set_transaction_listeners (retain (λ l w,
    if is_propagate_only (ls_kind l) && negb (propagate (ne_transaction e)) then
      let '(closed, w) := is_closed (ls_sender l) w in (negb closed, w)
    else send_all (ls_sender l) [MsgNew e] w)
    (transaction_listener i) (world i)) i.

(** [on_new_blob_sidecar]. *)
Definition on_new_blob_sidecar (h : Z) (sidecar : Sidecar) (i : PoolInner) : PoolInner :=
  set_sidecar_listeners (retain (λ c w, send_all c [MsgSidecar h sidecar] w)
    (blob_transaction_sidecar_listener i) (world i)) i.

(** [notify_on_new_state], and the calls of its last part. *)
Definition state_calls (o : OnNewCanonicalStateOutcome) : list Call :=
  ((λ h, CallMined h (oc_block_hash o)) <$> oc_mined o) ++
  ((λ tx, CallPending (hash tx) None) <$> oc_promoted o) ++
  ((λ tx, CallDiscarded (hash tx)) <$> oc_discarded o).
Definition notify_on_new_state (o : OnNewCanonicalStateOutcome) (i : PoolInner) : PoolInner :=
  let i := set_pending_listeners (retain (λ l w,
    send_all (ls_sender l) (pending_hashes (ls_kind l) (oc_promoted o)) w)
    (pending_transaction_listener i) (world i)) i in
  let i := set_transaction_listeners (retain (λ l w,
    send_all (ls_sender l) (full_pending (ls_kind l) (oc_promoted o)) w)
    (transaction_listener i) (world i)) i in
  report (state_calls o) i.

(** [notify_event_listeners]. *)
Definition added_calls (a : AddedTransaction) : list Call :=
  match a with
  | AddedPending tx replaced promoted discarded =>
    CallPending (hash tx) replaced :: ((λ tx, CallPending (hash tx) None) <$> promoted) ++
    ((λ tx, CallDiscarded (hash tx)) <$> discarded)
  | AddedParked tx replaced _ =>
    CallQueued (hash tx) :: match replaced with Some old => [CallReplaced old (hash tx)] | None => [] end
  end.
Definition notify_event_listeners (a : AddedTransaction) (i : PoolInner) : PoolInner := report (added_calls a) i.

(** ** Blobs *)

(** [insert_blob], [delete_blob], [delete_blobs], [cleanup_blobs]: a failure is only
    counted in the metrics. *)
Definition insert_blob (h : Z) (blob : Sidecar) (i : PoolInner) : PoolInner :=
  set_store (bs_insert h blob (blob_store i)).2 i.
Definition delete_blob (h : Z) (i : PoolInner) : PoolInner := set_store (bs_delete h (blob_store i)).2 i.
Definition delete_blobs (hs : list Z) (i : PoolInner) : PoolInner := set_store (bs_delete_all hs (blob_store i)).2 i.
Definition cleanup_blobs (i : PoolInner) : PoolInner := set_store (bs_cleanup (blob_store i)).2 i.

(** [delete_discarded_blobs]. *)
Definition delete_discarded_blobs (txs : list ValidPoolTransaction) (i : PoolInner) : PoolInner :=
  delete_blobs (blob_hashes txs) i.

(** ** Operations *)

(** [PoolInner::set_block_info]. *)
Definition inner_set_block_info (info : BlockInfo) (i : PoolInner) : outcome PoolInner :=
  p ← set_block_info info (pool i); Done (set_pool p i).

(** [PoolInner::on_canonical_state_change]. *)
Definition inner_on_canonical_state_change (u : CanonicalStateUpdate) (i : PoolInner) : outcome PoolInner :=
  let '(changed, i) := changed_senders (cu_changed_accounts u) i in
  '(o, p) ← on_canonical_state_change (cu_block_info u) (cu_mined_transactions u) changed (pool i);
  let i := delete_discarded_blobs (oc_discarded o) (set_pool p i) in
  Done (notify_on_new_state o i).

(** [PoolInner::update_accounts]. *)
Definition inner_update_accounts (accounts : list ChangedAccount) (i : PoolInner) : outcome PoolInner :=
  let '(changed, i) := changed_senders accounts i in
  '(o, p) ← update_accounts changed (pool i);
  let i := report (((λ tx, CallPending (hash tx) None) <$> promoted o) ++
                   ((λ tx, CallDiscarded (hash tx)) <$> discarded o)) (set_pool p i) in
  Done (delete_discarded_blobs (discarded o) i).

(** The part of [add_transaction] that follows a successful insertion. *)
Definition after_insertion (a : AddedTransaction) (maybe_sidecar : option Sidecar) (i : PoolInner) : PoolInner :=
  let h := hash (added_tx a) in
  let i := match maybe_sidecar with
           | Some sidecar => insert_blob h sidecar (on_new_blob_sidecar h sidecar i)
           | None => i
           end in
  let i := match replaced_blob_transaction a with Some r => delete_blob r i | None => i end in
  let i := match a with
           | AddedPending tx _ promoted _ => on_new_pending_transaction tx promoted i
           | AddedParked _ _ _ => i
           end in
  let i := notify_event_listeners a i in
  let i := match discarded_transactions a with Some d => delete_discarded_blobs d i | None => i end in
  on_new_transaction (into_new_transaction_event a) i.

(** [PoolInner::add_transaction]; [now] is [Instant::now()]. *)
Definition inner_add_transaction (now : Z) (origin : TransactionOrigin) (o : TransactionValidationOutcome)
  (i : PoolInner) : outcome ((PoolError + Z) * PoolInner) :=
  match o with
  | OutcomeValid balance state_nonce v propagate =>
    let t := valid_tx v in
    let '(s, i) := get_sender_id (tx_sender t) i in
    let maybe_sidecar := match v with Valid _ => None | ValidWithSidecar _ d => Some d end in
    let tx := mkValidPoolTransaction t (mkTransactionId s (tx_nonce t)) propagate now origin in
    '(r, p) ← add_transaction tx balance state_nonce (pool i);
    let i := set_pool p i in
    match r with
    | inl e => Done (inl e, i)
    | inr a => Done (inr (hash (added_tx a)), after_insertion a maybe_sidecar i)
    end
  | OutcomeInvalid tx err =>
    Done (inl (mkPoolError (tx_hash tx) (InvalidTransaction err)), report [CallDiscarded (tx_hash tx)] i)
  | OutcomeError h => Done (inl (mkPoolError h KindOther), report [CallDiscarded h] i)
  end.

(** [PoolInner::discard_worst]. *)
Definition inner_discard_worst (fuel : nat) (i : PoolInner) : outcome (list Z * PoolInner) :=
  '(discarded, p) ← discard_worst fuel (pool i);
  Done (hash <$> discarded, delete_discarded_blobs discarded (set_pool p i)).

(** The [map] over the batch in [add_transactions]. *)
Definition add_each (now : Z) (origin : TransactionOrigin) (os : list TransactionValidationOutcome) (i : PoolInner)
  : outcome (list (PoolError + Z) * PoolInner) :=
  for_each (λ o st, '(r, i) ← inner_add_transaction now origin o st.2; Done (st.1 ++ [r], i)) os ([], i).

Definition is_ok (r : PoolError + Z) : bool := match r with inr _ => true | inl _ => false end.

(** [PoolInner::add_transactions]. *)
Definition add_transactions (fuel : nat) (now : Z) (origin : TransactionOrigin)
  (os : list TransactionValidationOutcome) (i : PoolInner) : outcome (list (PoolError + Z) * PoolInner) :=
  '(added, i) ← add_each now origin os i;
  '(discarded, i) ← if existsb is_ok added then inner_discard_worst fuel i else Done ([], i);
  match discarded with
  | [] => Done (added, i)
  | _ =>
    let i := report (CallDiscarded <$> discarded) i in
    Done ((λ r, match r with
                | inr h => if bool_decide (h ∈ discarded) then inl (mkPoolError h DiscardedOnInsert) else r
                | inl _ => r
                end) <$> added, i)
  end.

(** [PoolInner::add_transaction_and_subscribe]. *)
Definition add_transaction_and_subscribe (fuel : nat) (now : Z) (origin : TransactionOrigin)
  (o : TransactionValidationOutcome) (i : PoolInner) : outcome ((PoolError + nat) * PoolInner) :=
  let '(c, b, w) := subscribe (outcome_hash o) (event_listener i) (world i) in
  '(results, i) ← add_transactions fuel now origin [o] (set_events (b, w) i);
  r ← expect (last results);
  Done (match r with inl e => inl e | inr _ => inr c end, i).

(** [PoolInner::remove_transactions]. *)
Definition inner_remove_transactions (hashes : list Z) (i : PoolInner)
  : outcome (list ValidPoolTransaction * PoolInner) :=
  match hashes with
  | [] => Done ([], i)
  | _ =>
    '(removed, p) ← remove_transactions hashes (pool i);
    Done (removed, report ((λ tx, CallDiscarded (hash tx)) <$> removed) (set_pool p i))
  end.

(** [PoolInner::on_propagated]; the order of the entries is that of the hash map. *)
Definition on_propagated (txs : list (Z * list PropagateKind)) (i : PoolInner) : PoolInner :=
  match txs with
  | [] => i
  | _ => report ((λ e, CallPropagated e.1 e.2) <$> txs) i
  end.

(** ** Reading *)

(** [pooled_transactions], [pooled_transactions_hashes], [get_transactions_by_origin]
    over [transactions_iter], the values of the map by hash. *)
Definition transactions_iter (i : PoolInner) : list ValidPoolTransaction :=
  (map_to_list (by_hash (all_transactions (pool i)))).*2.
Definition pooled_transactions (i : PoolInner) : list ValidPoolTransaction :=
  filter (λ tx, propagate tx) (transactions_iter i).
Definition pooled_transactions_hashes (i : PoolInner) : list Z := hash <$> pooled_transactions i.
Definition get_transactions_by_origin (o : TransactionOrigin) (i : PoolInner) : list ValidPoolTransaction :=
  filter (λ tx, origin tx = o) (transactions_iter i).

(** [retain_unknown], [get_all], [get_transactions_by_sender]. *)
Definition retain_unknown (announcement : list Z) (i : PoolInner) : list Z :=
  filter (λ h, negb (contains h (pool i))) announcement.
Definition inner_get_all (hs : list Z) (i : PoolInner) : list ValidPoolTransaction := get_all hs (pool i).
Definition inner_get_transactions_by_sender (a : Address) (i : PoolInner) : list ValidPoolTransaction * PoolInner :=
  let '(s, i) := get_sender_id a i in (get_transactions_by_sender s (pool i), i).
End model.

Arguments PoolInner {TO} S.
