(* ===== verification/Validate.v ===== *)
(** * Validation of transactions

    [EthTransactionValidator] ([transaction-pool/src/validate/eth.rs]): the checks a
    transaction passes before it reaches the pool, the tracking of hard forks, and the
    builder.

    Parameters stand for code outside the repository: [initial_gas] is
    [validate_initial_tx_gas] of [revm], [kzg_ok] the verification of a sidecar against
    the hashes of a transaction in [alloy], and [MAX_BLOBS_PER_BLOCK] a constant of
    [alloy].  [latest_account] is the state provider of the node: it fails, or it finds
    an account or none. *)

From stdpp Require Import prelude gmap list strings.
From S2P Require Import Prelude.
From S2P Require Import Ord.
From S2P Require Import Identifier.
From S2P Require Import PoolTx.
From S2P Require Import Forks.
From S2P Require Import Header.
From S2P Require Import Errors.
From S2P Require Import BlobStore.
From S2P Require Import Transaction.
From S2P Require Import TxPool.
From S2P Require Import Inner.

(** ** Constants *)
Definition TX_SLOT_BYTE_SIZE : Z := 32 * 1024.
Definition DEFAULT_MAX_TX_INPUT_BYTES : Z := 4 * TX_SLOT_BYTE_SIZE.
Definition MAX_CODE_BYTE_SIZE : Z := 24576.
Definition MAX_INIT_CODE_BYTE_SIZE : Z := 2 * MAX_CODE_BYTE_SIZE.

(** ** State *)
Record ForkTracker := mkForkTracker { shanghai : bool; cancun : bool; prague : bool }.

(** What validation uses of [ChainSpec]. *)
Record ValidatorSpec := mkValidatorSpec { vs_chain_id : Z; vs_max_gas_limit : Z; vs_hardforks : ChainHardforks }.

Record EthTransactionValidatorInner := mkValidator {
  v_chain_spec : ValidatorSpec;
  v_fork_tracker : ForkTracker;
  v_eip2718 : bool;
  v_eip1559 : bool;
  v_eip4844 : bool;
  v_eip7702 : bool;
  v_block_gas_limit : Z;
  v_minimum_priority_fee : option Z;
  v_local_transactions_config : LocalTransactionConfig;
  v_max_tx_input_bytes : Z;
}.

(** [o < o'] and [o > Some(x)] for [Option<u128>]: [None] is the least value. *)
Definition opt_ltb (o o' : option Z) : bool :=
  match o, o' with
  | None, Some _ => true
  | Some x, Some y => x <? y
  | _, None => false
  end.

Inductive SpecId := MERGE | SHANGHAI | PRAGUE.

Section validator.
Context {S : Type} {BS : BlobStore S}.
Context (initial_gas : SpecId → list Z → bool → AccessList → Z → Z).
Context (kzg_ok : list Z → Sidecar → bool) (MAX_BLOBS_PER_BLOCK : Z).

(** [ensure_max_init_code_size] and [ensure_intrinsic_gas]. *)
Definition ensure_max_init_code_size (tx : EthPooledTransaction) (max_init_code_size : Z)
  : option InvalidPoolTransactionError :=
  let t := ec_transaction (ep_transaction tx) in
  if is_create (Tx.kind t) && (max_init_code_size <? Z.of_nat (length (Tx.input t)))
  then Some (ExceedsMaxInitCodeSize (tx_size (pool_view tx)) max_init_code_size) else None.
Definition spec_id (f : ForkTracker) : SpecId :=
  if prague f then PRAGUE else if shanghai f then SHANGHAI else MERGE.
Definition ensure_intrinsic_gas (tx : EthPooledTransaction) (f : ForkTracker) : option InvalidPoolTransactionError :=
  let t := ec_transaction (ep_transaction tx) in
  let gas_after_merge := initial_gas (spec_id f) (Tx.input t) (is_create (Tx.kind t)) (default [] (Tx.access_list t))
    (authorization_count tx) in
  if Tx.gas_limit t <? gas_after_merge then Some IntrinsicGasTooLow else None.

(** The first part of [validate_one]: the type of the transaction. *)
Definition check_type (v : EthTransactionValidatorInner) (ty : Z) : option InvalidTransactionError :=
  if ty =? LEGACY_TX_TYPE_ID then None
  else if ty =? EIP2930_TX_TYPE_ID then if v_eip2718 v then None else Some Eip2930Disabled
  else if ty =? EIP1559_TX_TYPE_ID then if v_eip1559 v then None else Some Eip1559Disabled
  else if ty =? EIP4844_TX_TYPE_ID then if v_eip4844 v then None else Some Eip4844Disabled
  else if ty =? EIP7702_TX_TYPE_ID then if v_eip7702 v then None else Some Eip7702Disabled
  else Some TxTypeNotSupported.

(** [EthPoolTransaction::validate_blob]: [true] if it succeeds. *)
Definition validate_blob (tx : EthPooledTransaction) (sidecar : Sidecar) : bool :=
  match ec_transaction (ep_transaction tx) with
  | Tx.Eip4844 t => kzg_ok (Tx.bl_blob_versioned_hashes t) sidecar
  | _ => false
  end.

(** The checks before the account is read, in their order. *)
Definition check_stateless (v : EthTransactionValidatorInner) (origin : TransactionOrigin) (tx : EthPooledTransaction)
  : option InvalidPoolTransactionError :=
  let t := ec_transaction (ep_transaction tx) in
  let p := pool_view tx in
  match check_type v (tx_type p) with
  | Some e => Some (Consensus e)
  | None =>
  if v_max_tx_input_bytes v <? tx_size p then Some (OversizedData (tx_size p) (v_max_tx_input_bytes v)) else
  match (if shanghai (v_fork_tracker v) then ensure_max_init_code_size tx MAX_INIT_CODE_BYTE_SIZE else None) with
  | Some err => Some err
  | None =>
  if v_block_gas_limit v <? tx_gas_limit p then Some (ExceedsGasLimit (tx_gas_limit p) (v_block_gas_limit v)) else
  if opt_ltb (Some (tx_max_fee_per_gas p)) (tx_max_priority_fee_per_gas p) then Some (Consensus TipAboveFeeCap) else
  if negb (config_is_local (v_local_transactions_config v) origin (tx_sender p)) && (tx_type p =? EIP1559_TX_TYPE_ID) &&
     opt_ltb (tx_max_priority_fee_per_gas p) (v_minimum_priority_fee v) then Some InvalidUnderpriced else
  if match Tx.chain_id t with Some id => negb (id =? vs_chain_id (v_chain_spec v)) | None => false end
  then Some (Consensus ChainIdMismatch) else
  if (tx_type p =? EIP7702_TX_TYPE_ID) && negb (prague (v_fork_tracker v)) then Some (Consensus TxTypeNotSupported) else
  match ensure_intrinsic_gas tx (v_fork_tracker v) with
  | Some err => Some err
  | None =>
  if tx_is_eip4844 p then
    if negb (cancun (v_fork_tracker v)) then Some (Consensus TxTypeNotSupported) else
    if blob_count tx =? 0 then Some (Eip4844 NoEip4844Blobs) else
    if MAX_BLOBS_PER_BLOCK <? blob_count tx then Some (Eip4844 (TooManyEip4844Blobs (blob_count tx) MAX_BLOBS_PER_BLOCK))
    else None
  else None
  end end end.

(** The checks against the account. *)
Definition check_account (p : PoolTransaction) (a : Account) : option InvalidTransactionError :=
  if has_bytecode a then Some SignerAccountHasBytecode else
  if tx_nonce p <? acc_nonce a then Some NonceNotConsistent else
  if acc_balance a <? tx_cost p then Some (InsufficientFunds (acc_balance a) (tx_cost p)) else None.

(** The part about the sidecar: the error, or the sidecar to store. *)
Definition check_sidecar (store : S) (tx : EthPooledTransaction) : InvalidPoolTransactionError + option Sidecar :=
  if tx_is_eip4844 (pool_view tx) then
    let '(blob, tx) := take_blob tx in
    match blob with
    | SidecarNone => inl (Consensus TxTypeNotSupported)
    | SidecarMissing =>
      match (bs_contains (tx_hash (pool_view tx)) store).1 with
      | inr true => inr None
      | _ => inl (Eip4844 MissingEip4844BlobSidecar)
      end
    | SidecarPresent blob => if validate_blob tx blob then inr (Some blob) else inl (Eip4844 InvalidEip4844Blob)
    end
  else inr None.

Definition propagates (v : EthTransactionValidatorInner) (origin : TransactionOrigin) : bool :=
  match origin with
  | External => true
  | Local => propagate_local_transactions (v_local_transactions_config v)
  | Private => false
  end.

(** [validate_one]. *)
Definition validate_one (v : EthTransactionValidatorInner) (latest_account : Address → option (option Account))
  (store : S) (origin : TransactionOrigin) (tx : EthPooledTransaction) : TransactionValidationOutcome :=
  let p := pool_view tx in
  match check_stateless v origin tx with
  | Some err => OutcomeInvalid p err
  | None =>
    match latest_account (tx_sender p) with
    | None => OutcomeError (tx_hash p)
    | Some maybe =>
      let account := default Account_default maybe in
      match check_account p account with
      | Some err => OutcomeInvalid p (Consensus err)
      | None =>
        match check_sidecar store tx with
        | inl err => OutcomeInvalid p err
        | inr maybe_blob_sidecar =>
          OutcomeValid (acc_balance account) (acc_nonce account) (ValidTransaction_new p maybe_blob_sidecar)
            (propagates v origin)
        end
      end
    end
  end.

(** [validate_all]. *)
Definition validate_all (v : EthTransactionValidatorInner) (latest_account : Address → option (option Account))
  (store : S) (txs : list (TransactionOrigin * EthPooledTransaction)) : list TransactionValidationOutcome :=
  (λ e, validate_one v latest_account store e.1 e.2) <$> txs.
End validator.

(** [on_new_head_block]: a fork is switched on, never off. *)
Definition set_tracker (f : ForkTracker) (v : EthTransactionValidatorInner) : EthTransactionValidatorInner :=
  mkValidator (v_chain_spec v) f (v_eip2718 v) (v_eip1559 v) (v_eip4844 v) (v_eip7702 v) (v_block_gas_limit v)
    (v_minimum_priority_fee v) (v_local_transactions_config v) (v_max_tx_input_bytes v).
Definition on_new_head_block (timestamp : Z) (v : EthTransactionValidatorInner) : EthTransactionValidatorInner :=
  let h := vs_hardforks (v_chain_spec v) in
  let f := v_fork_tracker v in
  let f := if is_cancun_active_at_timestamp timestamp h then mkForkTracker (shanghai f) true (prague f) else f in
  let f := if is_shanghai_active_at_timestamp timestamp h then mkForkTracker true (cancun f) (prague f) else f in
  let f := if is_prague_active_at_timestamp timestamp h then mkForkTracker (shanghai f) (cancun f) true else f in
  set_tracker f v.

(** ** The builder *)
Record EthTransactionValidatorBuilder := mkBuilder {
  b_chain_spec : ValidatorSpec;
  b_shanghai : bool;
  b_cancun : bool;
  b_prague : bool;
  b_eip2718 : bool;
  b_eip1559 : bool;
  b_eip4844 : bool;
  b_eip7702 : bool;
  b_block_gas_limit : Z;
  b_minimum_priority_fee : option Z;
  b_additional_tasks : Z;
  b_local_transactions_config : LocalTransactionConfig;
  b_max_tx_input_bytes : Z;
}.

(** [EthTransactionValidatorBuilder::new]. *)
Definition builder_new (chain_spec : ValidatorSpec) : EthTransactionValidatorBuilder :=
  mkBuilder chain_spec true true false true true true true (vs_max_gas_limit chain_spec) None 1
    LocalTransactionConfig_default DEFAULT_MAX_TX_INPUT_BYTES.
Definition with_head_timestamp (timestamp : Z) (b : EthTransactionValidatorBuilder) : EthTransactionValidatorBuilder :=
  mkBuilder (b_chain_spec b) (is_shanghai_active_at_timestamp timestamp (vs_hardforks (b_chain_spec b)))
    (is_cancun_active_at_timestamp timestamp (vs_hardforks (b_chain_spec b))) (b_prague b) (b_eip2718 b) (b_eip1559 b)
    (b_eip4844 b) (b_eip7702 b) (b_block_gas_limit b) (b_minimum_priority_fee b) (b_additional_tasks b)
    (b_local_transactions_config b) (b_max_tx_input_bytes b).
Definition build (b : EthTransactionValidatorBuilder) : EthTransactionValidatorInner :=
  mkValidator (b_chain_spec b) (mkForkTracker (b_shanghai b) (b_cancun b) (b_prague b)) (b_eip2718 b) (b_eip1559 b)
    (b_eip4844 b) (b_eip7702 b) (b_block_gas_limit b) (b_minimum_priority_fee b) (b_local_transactions_config b)
    (b_max_tx_input_bytes b).

(** ** What is accepted *)
Section accepted.
Context {S : Type} {BS : BlobStore S}.
Context (initial_gas : SpecId → list Z → bool → AccessList → Z → Z).
Context (kzg_ok : list Z → Sidecar → bool) (MAX_BLOBS_PER_BLOCK : Z).
Notation validate_one := (validate_one initial_gas kzg_ok MAX_BLOBS_PER_BLOCK).
Implicit Types (v : EthTransactionValidatorInner) (tx : EthPooledTransaction).

Definition type_enabled v (t : Tx.Transaction) : Prop :=
  match t with
  | Tx.Legacy _ => True
  | Tx.Eip2930 _ => v_eip2718 v = true
  | Tx.Eip1559 _ => v_eip1559 v = true
  | Tx.Eip4844 _ => v_eip4844 v = true ∧ cancun (v_fork_tracker v) = true
  | Tx.Eip7702 _ => v_eip7702 v = true ∧ prague (v_fork_tracker v) = true
  | Tx.Deposit _ => False
  end.

(** The rules for a transaction by itself. *)
Record admissible v (origin : TransactionOrigin) tx : Prop := {
  ad_type : type_enabled v (ec_transaction (ep_transaction tx));
  ad_size : Z.of_nat (length (Tx.input (ec_transaction (ep_transaction tx)))) ≤ v_max_tx_input_bytes v;
  ad_init_code :
    shanghai (v_fork_tracker v) = true → Tx.kind (ec_transaction (ep_transaction tx)) = Create →
    Z.of_nat (length (Tx.input (ec_transaction (ep_transaction tx)))) ≤ MAX_INIT_CODE_BYTE_SIZE;
  ad_gas : Tx.gas_limit (ec_transaction (ep_transaction tx)) ≤ v_block_gas_limit v;
  ad_tip q : Tx.max_priority_fee_per_gas (ec_transaction (ep_transaction tx)) = Some q →
    q ≤ Tx.max_fee_per_gas (ec_transaction (ep_transaction tx));
  ad_minimum t low : ec_transaction (ep_transaction tx) = Tx.Eip1559 t → v_minimum_priority_fee v = Some low →
    config_is_local (v_local_transactions_config v) origin (ec_signer (ep_transaction tx)) = false →
    low ≤ Tx.df_max_priority_fee_per_gas t;
  ad_chain id : Tx.chain_id (ec_transaction (ep_transaction tx)) = Some id → id = vs_chain_id (v_chain_spec v);
  ad_intrinsic :
    initial_gas (spec_id (v_fork_tracker v)) (Tx.input (ec_transaction (ep_transaction tx)))
      (is_create (Tx.kind (ec_transaction (ep_transaction tx))))
      (default [] (Tx.access_list (ec_transaction (ep_transaction tx)))) (authorization_count tx)
    ≤ Tx.gas_limit (ec_transaction (ep_transaction tx));
  ad_blobs t : ec_transaction (ep_transaction tx) = Tx.Eip4844 t →
    0 < Z.of_nat (length (Tx.bl_blob_versioned_hashes t)) ≤ MAX_BLOBS_PER_BLOCK;
}.

(** The sidecar a blob transaction must bring, or have in the store. *)
Definition sidecar_rule (store : S) tx (d : option Sidecar) : Prop :=
  match ec_transaction (ep_transaction tx) with
  | Tx.Eip4844 t =>
    match ep_blob_sidecar tx with
    | SidecarNone => False
    | SidecarMissing => (bs_contains (ec_hash (ep_transaction tx)) store).1 = inr true ∧ d = None
    | SidecarPresent blob => kzg_ok (Tx.bl_blob_versioned_hashes t) blob = true ∧ d = Some blob
    end
  | _ => d = None
  end.

Lemma check_type_spec v t :
  check_type v (Tx.type_id t) = None ↔
  match t with
  | Tx.Legacy _ => True
  | Tx.Eip2930 _ => v_eip2718 v = true
  | Tx.Eip1559 _ => v_eip1559 v = true
  | Tx.Eip4844 _ => v_eip4844 v = true
  | Tx.Eip7702 _ => v_eip7702 v = true
  | Tx.Deposit _ => False
  end.
Proof. destruct t; unfold check_type; simpl; repeat case_match; naive_solver. Qed.

Lemma opt_ltb_some o x : opt_ltb (Some x) o = false ↔ ∀ q, o = Some q → q ≤ x.
Proof. destruct o as [q|]; simpl; [rewrite Z.ltb_ge|]; naive_solver. Qed.

(** The next rule of a chain of checks that must all pass. *)
Lemma check_if {E} (b : bool) (e : E) (k : option E) : (if b then Some e else k) = None ↔ b = false ∧ k = None.
Proof. destruct b; naive_solver. Qed.
Lemma check_match {E E'} (m : option E) (f : E → E') (k : option E') :
  match m with Some e => Some (f e) | None => k end = None ↔ m = None ∧ k = None.
Proof. destruct m; naive_solver. Qed.

Lemma init_code_rule (b : bool) tx max :
  (if b then ensure_max_init_code_size tx max else None) = None ↔
  (b = true → Tx.kind (ec_transaction (ep_transaction tx)) = Create →
    Z.of_nat (length (Tx.input (ec_transaction (ep_transaction tx)))) ≤ max).
Proof.
  destruct b; [|naive_solver]. unfold ensure_max_init_code_size. rewrite check_if.
  destruct (Tx.kind _); simpl; [rewrite Z.ltb_ge|]; naive_solver.
Qed.

Lemma minimum_fee_rule (l : bool) t minimum :
  negb l && (Tx.type_id t =? EIP1559_TX_TYPE_ID) && opt_ltb (Tx.max_priority_fee_per_gas t) minimum = false ↔
  ∀ t' low, t = Tx.Eip1559 t' → minimum = Some low → l = false → low ≤ Tx.df_max_priority_fee_per_gas t'.
Proof.
  destruct l; simpl; [naive_solver|]. destruct t; simpl; try naive_solver.
  destruct minimum; simpl; [rewrite Z.ltb_ge|]; naive_solver.
Qed.

Lemma chain_id_rule o id :
  match o with Some i => negb (i =? id) | None => false end = false ↔ ∀ i, o = Some i → i = id.
Proof. destruct o as [i|]; [rewrite negb_false_iff, Z.eqb_eq|]; naive_solver. Qed.

Lemma blobs_rule (b : bool) tx :
  (if Tx.type_id (ec_transaction (ep_transaction tx)) =? EIP4844_TX_TYPE_ID then
     if negb b then Some (Consensus TxTypeNotSupported) else
     if blob_count tx =? 0 then Some (Eip4844 NoEip4844Blobs) else
     if MAX_BLOBS_PER_BLOCK <? blob_count tx
     then Some (Eip4844 (TooManyEip4844Blobs (blob_count tx) MAX_BLOBS_PER_BLOCK)) else None
   else None) = None ↔
  ∀ t, ec_transaction (ep_transaction tx) = Tx.Eip4844 t →
    b = true ∧ 0 < Z.of_nat (length (Tx.bl_blob_versioned_hashes t)) ≤ MAX_BLOBS_PER_BLOCK.
Proof.
  unfold blob_count. destruct (ec_transaction (ep_transaction tx)) as [x|x|x|x|x|x]; simpl; try naive_solver.
  rewrite !check_if, negb_false_iff, Z.eqb_neq, Z.ltb_ge. split.
  - intros (-> & ? & ? & _) t [= <-]. split; [done|lia].
  - intros H. destruct (H x eq_refl) as [-> ?]. split_and!; [done|lia|lia|done].
Qed.

Lemma prague_rule (b : bool) t :
  (Tx.type_id t =? EIP7702_TX_TYPE_ID) && negb b = false ↔ (∀ t', t = Tx.Eip7702 t' → b = true).
Proof. destruct b, t; simpl; naive_solver. Qed.

Lemma check_stateless_spec v origin tx :
  check_stateless initial_gas MAX_BLOBS_PER_BLOCK v origin tx = None ↔ admissible v origin tx.
Proof.
  unfold check_stateless, ensure_intrinsic_gas, tx_is_eip4844. cbv zeta.
  cbn [pool_view tx_hash tx_sender tx_nonce tx_cost tx_gas_limit tx_max_fee_per_gas tx_max_priority_fee_per_gas tx_size tx_type].
  rewrite (check_match _ Consensus), check_type_spec, check_if, (check_match _ id), !check_if, (check_match _ id), check_if.
  rewrite init_code_rule, minimum_fee_rule, chain_id_rule, prague_rule, blobs_rule, opt_ltb_some, !Z.ltb_ge.
  split.
  - intros (Ht & ? & ? & ? & ? & ? & ? & Hp & [? _] & Hb). split; try done; [|naive_solver].
    destruct (ec_transaction (ep_transaction tx)) as [x|x|x|x|x|x]; simpl; naive_solver.
  - intros [Ht ? ? ? ? ? ? ? Hb]. split_and!; try done.
    + destruct (ec_transaction (ep_transaction tx)); simpl in *; naive_solver.
    + intros t' E. rewrite E in Ht. by apply Ht.
    + intros t' E. split; [rewrite E in Ht; by apply Ht|by apply Hb].
Qed.

Lemma check_account_spec p a :
  check_account p a = None ↔ acc_bytecode_hash a = None ∧ acc_nonce a ≤ tx_nonce p ∧ tx_cost p ≤ acc_balance a.
Proof.
  unfold check_account. rewrite !check_if, !Z.ltb_ge. unfold has_bytecode. destruct (acc_bytecode_hash a); naive_solver.
Qed.

Lemma check_sidecar_spec store tx d :
  check_sidecar kzg_ok store tx = inr d ↔ sidecar_rule store tx d.
Proof.
  unfold check_sidecar, take_blob, sidecar_rule, validate_blob, tx_is_eip4844. simpl.
  destruct (ec_transaction (ep_transaction tx)) as [x|x|x|x|x|x] eqn:E; simpl; try naive_solver.
  destruct (ep_blob_sidecar tx) as [| |blob]; simpl.
  - done.
  - destruct (bs_contains _ store).1 as [|[]]; naive_solver.
  - rewrite E. destruct (kzg_ok _ _); naive_solver.
Qed.

(** Shared by the theorems about the validator. *)
Lemma validate_one_spec v latest_account store origin tx bal n w prop :
  validate_one v latest_account store origin tx = OutcomeValid bal n w prop ↔
  admissible v origin tx ∧
  ∃ maybe d, latest_account (ec_signer (ep_transaction tx)) = Some maybe ∧
    let a := default Account_default maybe in
    acc_bytecode_hash a = None ∧ acc_nonce a ≤ Tx.nonce (ec_transaction (ep_transaction tx)) ∧ ep_cost tx ≤ acc_balance a ∧
    sidecar_rule store tx d ∧
    bal = acc_balance a ∧ n = acc_nonce a ∧ w = ValidTransaction_new (pool_view tx) d ∧ prop = propagates v origin.
Proof.
  unfold Validate.validate_one. rewrite <-check_stateless_spec.
  destruct (check_stateless _ _ v origin tx) as [e|]; [naive_solver|].
  change (tx_sender (pool_view tx)) with (ec_signer (ep_transaction tx)).
  destruct (latest_account _) as [maybe|]; [|naive_solver].
  pose proof (check_account_spec (pool_view tx) (default Account_default maybe)) as Ha. simpl in Ha. simpl.
  destruct (check_account _ _) as [e|]; [naive_solver|].
  assert (Hacc : None = None :> option InvalidTransactionError) by done. apply Ha in Hacc as (Hb & Hn & Hc).
  setoid_rewrite <-check_sidecar_spec.
  destruct (check_sidecar kzg_ok store tx) as [e|d]; [naive_solver|]. split.
  - intros [= <- <- <- <-]. split; [done|]. by exists maybe, d.
  - intros (_ & ? & ? & [= <-] & _ & _ & _ & [= <-] & -> & -> & -> & ->). done.
Qed.

(** C37. What the validator accepts: a transaction is valid exactly if it is admissible by
    itself, its sender is a known or new account without code whose nonce is not above
    and whose balance is not below what the transaction says, and a blob transaction
    brings a sidecar that verifies or has one in the store; the outcome then carries the
    account's balance and nonce, the transaction with its sidecar, and whether it may be
    propagated. *)
Theorem validate_one_valid v latest_account store origin tx bal n w prop :
  validate_one v latest_account store origin tx = OutcomeValid bal n w prop ↔
  admissible v origin tx ∧
  ∃ maybe d, latest_account (ec_signer (ep_transaction tx)) = Some maybe ∧
    let a := default Account_default maybe in
    acc_bytecode_hash a = None ∧ acc_nonce a ≤ Tx.nonce (ec_transaction (ep_transaction tx)) ∧ ep_cost tx ≤ acc_balance a ∧
    sidecar_rule store tx d ∧
    bal = acc_balance a ∧ n = acc_nonce a ∧ w = ValidTransaction_new (pool_view tx) d ∧ prop = propagates v origin.
Proof. apply validate_one_spec. Qed.
End accepted.
