(* ===== verification/PoolOps.v ===== *)
(** * The operations of the transaction pool

    Every operation of [TxPool] (file [TxPool]) keeps the invariant [pool_wf]: the
    set of all transactions and the four sub-pools describe the same content.  The
    operations change the set first and move transactions afterwards; in between,
    the pool is [transit]. *)

From stdpp Require Import prelude gmap list sorting.
From S2P Require Import Prelude.
From S2P Require Import Ord.
From S2P Require Import Identifier.
From S2P Require Import State.
From S2P Require Import PoolTx.
From S2P Require Import SubPools.
From S2P Require Parked.
From S2P Require Blob.
From S2P Require Pending.
From S2P Require Import AllTxs.
From S2P Require Import Errors.
From S2P Require Import TxPool.

(** ** Applying updates *)
Section updates.
Context {TO : TransactionOrdering}.
Implicit Types (p : TxPool) (us : list PoolUpdate).

(** While updates are pending, the transactions they name are where the updates
    say they are. *)
Definition still_at us : gmap TransactionId (option SubPool) :=
  list_to_map ((λ u, (pu_id u, Some (pu_current u))) <$> us).

Record pending_updates us (m : gmap TransactionId PoolInternalTransaction) : Prop := {
  pu_NoDup : NoDup (pu_id <$> us);
  pu_each u : u ∈ us → ∃ t, m !! pu_id u = Some t ∧ pu_hash u = hash (itx t) ∧
    (pu_destination u = Discard ∧ pu_current u = subpool t ∨ pu_destination u = Pool (subpool t));
}.

Lemma still_at_cons u us :
  pu_id u ∉ pu_id <$> us → still_at (u :: us) !! pu_id u = Some (Some (pu_current u)) ∧
  delete (pu_id u) (still_at (u :: us)) = still_at us.
Proof.
  intros Hn. unfold still_at. simpl. split; [apply lookup_insert_eq|].
  apply delete_insert_id, not_elem_of_list_to_map. by rewrite <-list_fmap_compose.
Qed.

Lemma pending_updates_mono us m m' :
  (∀ j, j ∈ pu_id <$> us → m' !! j = m !! j) → pending_updates us m → pending_updates us m'.
Proof.
  intros Hm [H1 H2]. split; [done|]. intros u Hu. destruct (H2 u Hu) as (t & Ht & Hr).
  exists t. split; [|done]. rewrite Hm; [done|]. by apply list_elem_of_fmap_2.
Qed.

(** The transactions reported as discarded and as promoted, given the entries when
    the updates were recorded. *)
Definition reported (d : Destination) us (m : gmap TransactionId PoolInternalTransaction)
  : list ValidPoolTransaction :=
  omap (λ u, if decide (pu_destination u = d) then itx <$> m !! pu_id u else None) us.

(** What stays the same while updates are applied. *)
Definition same_env p p' : Prop :=
  config p' = config p ∧ sender_info p' = sender_info p ∧
  pending_fees (all_transactions p') = pending_fees (all_transactions p).

Lemma same_env_trans p1 p2 p3 : same_env p1 p2 → same_env p2 p3 → same_env p1 p3.
Proof. unfold same_env. intros (?&?&?) (?&?&?). split_and!; congruence. Qed.

Lemma process_update_ok u us o p :
  transit (still_at (u :: us)) p → pending_updates (u :: us) (txs (all_transactions p)) → room p 1 →
  ∃ p', process_update u (o, p) =
      Done (mkUpdateOutcome (promoted o ++ reported (Pool Pending) [u] (txs (all_transactions p)))
              (discarded o ++ reported Discard [u] (txs (all_transactions p))), p') ∧
    transit (still_at us) p' ∧ same_env p p' ∧
    (∀ n, 0 ≤ n → room p (n + 1) → room p' n) ∧
    txs (all_transactions p') =
      (if decide (pu_destination u = Discard) then delete (pu_id u) (txs (all_transactions p))
       else txs (all_transactions p)).
Proof.
  intros T [Hnd Hpu] Hroom. rewrite fmap_cons in Hnd. apply NoDup_cons in Hnd as [Hu Hnd].
  destruct (still_at_cons u us Hu) as [Hov Hdel].
  destruct (Hpu u ltac:(left)) as (t & Ht & Hhash & Hdest).
  unfold process_update, reported. simpl. rewrite Ht. destruct Hdest as [[-> Hcur]| ->]; simpl.
  - assert (Hbh : by_hash (all_transactions p) !! pu_hash u = Some (itx t)).
    { rewrite Hhash. pose proof (tr_all _ _ T) as (? & ? & _)%all_wf_parts. by eapply hash_ok_found. }
    pose proof (in_key _ _ (transit_entry _ _ _ _ T Ht)) as Hkey.
    destruct (transit_prune _ p (pu_hash u) T) as (p' & -> & Hsi & Hc & Hr & Hrest).
    { intros tx t' Htx Ht'. rewrite Hbh in Htx. injection Htx as <-. rewrite Hkey in *.
      unfold place. rewrite Hov. simpl. congruence. }
    rewrite Hbh in *. destruct Hrest as (t' & Ht' & _ & T' & Ha). rewrite Hkey, Hdel in *.
    cbn. exists p'. rewrite app_nil_r. split_and!; [done|done| |intros n ? ?; apply Hr|by rewrite Ha].
    { split_and!; [done|done|by rewrite Ha]. }
    unfold room in *. lia.
  - destruct (transit_move _ p _ t _ T Ht Hov Hroom) as (p' & -> & T' & (Ha & Hsi & Hc) & Hr).
    rewrite Hdel in T'. cbn. exists p'. rewrite app_nil_r, Ha.
    split_and!; [|done|split_and!; congruence|done|done].
    destruct (subpool t); simpl; rewrite ?app_nil_r; by destruct o.
Qed.

Lemma reported_cons d u us m : reported d (u :: us) m = reported d [u] m ++ reported d us m.
Proof. unfold reported. simpl. by case_match. Qed.

Lemma reported_delete d u us m :
  pu_id u ∉ pu_id <$> us → reported d us (delete (pu_id u) m) = reported d us m.
Proof.
  induction us as [|v us IH]; [done|]. rewrite fmap_cons, not_elem_of_cons.
  intros [Hne Hn]. rewrite !(reported_cons d v us), (IH Hn). f_equal.
  unfold reported. simpl. by rewrite lookup_delete_ne.
Qed.

Lemma room_weaken p n n' : n' ≤ n → room p n → room p n'.
Proof. unfold room. lia. Qed.

(** Applying pending updates brings the sub-pools back in step, whatever the updates
    are, and reports the transactions they discard and promote. *)
Lemma process_updates_loop us o p :
  transit (still_at us) p → pending_updates us (txs (all_transactions p)) → room p (Z.of_nat (length us)) →
  ∃ p', for_each process_update us (o, p) =
      Done (mkUpdateOutcome (promoted o ++ reported (Pool Pending) us (txs (all_transactions p)))
              (discarded o ++ reported Discard us (txs (all_transactions p))), p') ∧
    pool_wf p' ∧ same_env p p' ∧
    (∀ n, 0 ≤ n → room p (n + Z.of_nat (length us)) → room p' n) ∧
    txs (all_transactions p') = filter (λ e, e.1 ∉ discards us) (txs (all_transactions p)).
Proof.
  revert o p; induction us as [|u us IH]; intros o p T Hpu Hroom.
  { exists p. unfold reported. simpl. rewrite !app_nil_r. split_and!; [by destruct o|done|done| |].
    - intros n _. by rewrite Z.add_0_r.
    - symmetry. apply map_filter_id. intros i t _. apply not_elem_of_nil. }
  cbn [length] in *. pose proof (pu_NoDup _ _ Hpu) as Hnd. rewrite fmap_cons in Hnd.
  apply NoDup_cons in Hnd as [Hu Hnd].
  destruct (process_update_ok u us o p T Hpu) as (p1 & Hs & T1 & Henv1 & Hr1 & Htx1).
  { eapply room_weaken; [|exact Hroom]. lia. }
  cbn [for_each]. rewrite Hs. cbn [mbind outcome_bind]. set (o1 := mkUpdateOutcome _ _).
  assert (Hrep : ∀ d, reported d us (txs (all_transactions p1)) = reported d us (txs (all_transactions p))).
  { intros d. rewrite Htx1. case_decide; [by apply reported_delete|done]. }
  destruct (IH o1 p1 T1) as (p2 & -> & W & Henv2 & Hr2 & Htx2).
  - destruct Hpu as [_ Hpu]. apply (pending_updates_mono us (txs (all_transactions p))).
    + intros j Hj. rewrite Htx1. case_decide; [|done]. apply lookup_delete_ne. by intros <-.
    + split; [done|]. intros v Hv. apply Hpu. by right.
  - apply Hr1; [lia|]. eapply room_weaken; [|exact Hroom]. lia.
  - exists p2. rewrite !Hrep, !(reported_cons _ u us), !(assoc_L (++)). split_and!.
    + done.
    + done.
    + by eapply same_env_trans.
    + intros n Hn Hr. apply Hr2; [done|]. apply Hr1; [lia|]. eapply room_weaken; [|exact Hr]. lia.
    + rewrite Htx2, Htx1. unfold discards. rewrite filter_cons. case_decide as E; [|done].
      rewrite fmap_cons. apply map_eq. intros i. apply option_eq. intros t.
      rewrite !map_lookup_filter_Some, lookup_delete_Some. simpl. rewrite not_elem_of_cons. naive_solver.
Qed.
End updates.

(** ** From recorded updates to the sub-pools *)
Section accounts.
Context {TO : TransactionOrdering}.
Implicit Types (p : TxPool) (us : list PoolUpdate) (m : gmap TransactionId PoolInternalTransaction).

(** The transaction whose move the caller of a pass handles itself is in no
    sub-pool. *)
Definition in_hand (sk : option TransactionId) : gmap TransactionId (option SubPool) :=
  match sk with Some i => {[i := None]} | None => ∅ end.

Lemma updates_pending sk m m' us : updates_ok sk m m' us → pending_updates us m'.
Proof.
  intros [H1 H2 _]. split; [done|]. intros u Hu.
  destruct (H2 u Hu) as (_ & t & t' & _ & Ht' & Hh & Hc & Hd). exists t'. split_and!; [done..|].
  destruct Hd as [[? ?]|[? ?]]; [left|right]; split_and?; congruence.
Qed.

Lemma updates_length sk m m' us : updates_ok sk m m' us → (length us ≤ size m)%nat.
Proof.
  intros [H1 H2 _]. rewrite <-size_dom, <-(length_fmap pu_id us), <-(size_list_to_set (C := gset _)) by done.
  apply subseteq_size. intros i Hi. apply elem_of_list_to_set in Hi.
  apply list_elem_of_fmap in Hi as (u & -> & Hu).
  destruct (H2 u Hu) as (_ & t & _ & Ht & _). by apply elem_of_dom_2 in Ht.
Qed.

Lemma still_at_lookup us u : NoDup (pu_id <$> us) → u ∈ us → still_at us !! pu_id u = Some (Some (pu_current u)).
Proof.
  intros Hnd Hu. apply elem_of_list_to_map; [by rewrite <-list_fmap_compose|].
  apply list_elem_of_fmap. by exists u.
Qed.

Lemma still_at_None us i : i ∉ pu_id <$> us → still_at us !! i = None.
Proof. intros Hn. apply not_elem_of_list_to_map. by rewrite <-list_fmap_compose. Qed.

Lemma updates_place sk m m' us i t t' :
  updates_ok sk m m' us → m !! i = Some t → m' !! i = Some t' →
  place (in_hand sk ∪ still_at us) i t' = place (in_hand sk) i t.
Proof.
  intros [H1 H2 H3] Ht Ht'. unfold place. destruct (decide (sk = Some i)) as [->|Hsk].
  { rewrite (lookup_union_Some_l _ _ i None); simpl; by rewrite lookup_singleton_eq. }
  assert (Hn : in_hand sk !! i = None).
  { destruct sk as [j|]; [|apply lookup_empty]. simpl. apply lookup_singleton_ne. congruence. }
  rewrite lookup_union_r, Hn by done. simpl.
  destruct (decide (i ∈ pu_id <$> us)) as [Hi|Hi].
  - apply list_elem_of_fmap in Hi as (u & -> & Hu). rewrite still_at_lookup by done.
    destruct (H2 u Hu) as (_ & t0 & _ & Ht0 & _ & _ & Hc & _). simpl. congruence.
  - rewrite still_at_None by done. simpl. destruct (H3 i t t' Ht Ht' Hi) as [->|?]; done.
Qed.

Lemma synced_updates sk m m' us p :
  synced (in_hand sk) m p → updates_ok sk m m' us → (∀ i, itx <$> m' !! i = itx <$> m !! i) →
  synced (in_hand sk ∪ still_at us) m' p.
Proof.
  intros Hs Hu Hi. revert Hs. apply synced_ext. intros i k tx. specialize (Hi i).
  destruct (m !! i) as [t|] eqn:Ht, (m' !! i) as [t'|] eqn:Ht'; try done; [|naive_solver].
  pose proof (updates_place sk m m' us i t t' Hu Ht Ht') as Hp. simpl in Hi. injection Hi as Hi.
  split; intros (? & [= <-] & <- & Hk); eexists; (split; [done|]); split; congruence.
Qed.

Lemma NoDup_fmap_eq {A B} (f : A → B) l x y :
  NoDup (f <$> l) → x ∈ l → y ∈ l → f x = f y → x = y.
Proof.
  intros Hnd [a Ha]%list_elem_of_lookup_1 [b Hb]%list_elem_of_lookup_1 E.
  assert (a = b) as <-; [|congruence].
  eapply NoDup_lookup; [exact Hnd|by rewrite list_lookup_fmap, Ha|by rewrite list_lookup_fmap, Hb, E].
Qed.

Lemma elem_of_reported d us m tx :
  tx ∈ reported d us m ↔ ∃ u t, u ∈ us ∧ pu_destination u = d ∧ m !! pu_id u = Some t ∧ itx t = tx.
Proof.
  unfold reported. rewrite list_elem_of_omap. split.
  - intros (u & Hu & E). case_decide; [|done]. apply fmap_Some in E as (t & ? & ->). eauto 6.
  - intros (u & t & Hu & Hd & Ht & <-). exists u. split; [done|]. by rewrite decide_True, Ht.
Qed.

Lemma elem_of_discards us i : i ∈ discards us ↔ ∃ u, u ∈ us ∧ pu_id u = i ∧ pu_destination u = Discard.
Proof.
  unfold discards. rewrite list_elem_of_fmap. setoid_rewrite list_elem_of_filter. naive_solver.
Qed.

(** The promoted transactions are those that enter the pending sub-pool. *)
Lemma reported_promoted sk m m' us p p' tx :
  updates_ok sk m m' us → (∀ i, itx <$> m' !! i = itx <$> m !! i) →
  (∀ i t, sk ≠ Some i → m !! i = Some t → sub_txs p Pending !! i = None ↔ subpool t ≠ Pending) →
  synced ∅ (filter (λ e, e.1 ∉ discards us) m') p' →
  tx ∈ reported (Pool Pending) us m' ↔
  ∃ i, sk ≠ Some i ∧ sub_txs p' Pending !! i = Some tx ∧ sub_txs p Pending !! i = None.
Proof.
  intros [H1 H2 H3] Hitx Hs Hs'. rewrite elem_of_reported. split.
  - intros (u & t1 & Hu & Hd & Ht1 & <-). exists (pu_id u).
    destruct (H2 u Hu) as (Hsk & t & t' & Ht & Ht' & _ & _ & Hdest). rewrite Ht1 in Ht'. injection Ht' as <-.
    destruct Hdest as [[? _]|[Hd' Hne]]; [congruence|]. rewrite Hd in Hd'. injection Hd' as Hp. split_and!; [done|..].
    + apply Hs'. exists t1. split_and!; [|done|unfold place; rewrite lookup_empty; simpl; congruence].
      apply map_lookup_filter_Some. split; [done|]. intros (u' & Hu' & Hi & Hdis)%elem_of_discards.
      rewrite (NoDup_fmap_eq pu_id us u' u H1 Hu' Hu Hi) in Hdis. congruence.
    + apply (Hs _ t Hsk Ht). congruence.
  - intros (i & Hsk & Hi & Hn). apply Hs' in Hi as (t' & Ht' & <- & Hp).
    apply map_lookup_filter_Some in Ht' as [Ht' _]. specialize (Hitx i). rewrite Ht' in Hitx.
    destruct (m !! i) as [t|] eqn:Ht; [|done]. unfold place in Hp. rewrite lookup_empty in Hp. simpl in Hp.
    apply (Hs i t Hsk Ht) in Hn. assert (subpool t' ≠ subpool t) as Hne by congruence.
    destruct (decide (i ∈ pu_id <$> us)) as [Hin|Hout]; [|by destruct (H3 i t t' Ht Ht' Hout)].
    apply list_elem_of_fmap in Hin as (u & -> & Hu). exists u, t'. split_and!; [done| |done|done].
    destruct (H2 u Hu) as (_ & t0 & t0' & Ht0 & Ht0' & _ & _ & [[_ ?]|[Hd _]]); [congruence|].
    rewrite Hd. congruence.
Qed.

Lemma pool_wf_pending p i t :
  pool_wf p → txs (all_transactions p) !! i = Some t → sub_txs p Pending !! i = None ↔ subpool t ≠ Pending.
Proof.
  intros W Ht. rewrite eq_None_not_Some. split.
  - intros Hn Hp. apply Hn. exists (itx t). eapply synced_lookup; [apply W|done|].
    unfold place. rewrite lookup_empty. simpl. congruence.
  - intros Hne [tx (t' & Ht' & _ & Hp)%(tr_sync _ _ W)]. unfold place in Hp. rewrite lookup_empty in Hp.
    simpl in Hp. congruence.
Qed.

(** The discarded transactions are those that leave the set. *)
Lemma reported_discarded m m' us tx :
  updates_ok None m m' us → (∀ i, itx <$> m' !! i = itx <$> m !! i) →
  tx ∈ reported Discard us m' ↔ ∃ i, i ∈ discards us ∧ itx <$> m !! i = Some tx.
Proof.
  intros Hu Hitx. rewrite elem_of_reported. setoid_rewrite elem_of_discards. setoid_rewrite <-Hitx.
  setoid_rewrite fmap_Some. naive_solver.
Qed.

(** What [update_accounts] does to a well-formed pool. *)
Record accounts_updated (changed : gmap SenderId SenderInfo) p (o : UpdateOutcome) p' : Prop := {
  au_wf : pool_wf p';
  au_config : config p' = config p;
  au_senders : sender_info p' = changed ∪ sender_info p;
  au_fees : pending_fees (all_transactions p') = pending_fees (all_transactions p);
  au_txs i : itx <$> txs (all_transactions p') !! i =
    if stale changed i then None else itx <$> txs (all_transactions p) !! i;
  au_discarded tx : tx ∈ discarded o ↔
    ∃ i, stale changed i = true ∧ itx <$> txs (all_transactions p) !! i = Some tx;
  au_promoted tx : tx ∈ promoted o ↔
    ∃ i, sub_txs p' Pending !! i = Some tx ∧ sub_txs p Pending !! i = None;
  au_room n : 0 ≤ n → room p (n + all_len (all_transactions p)) → room p' n;
}.

Lemma update_accounts_lemma changed p :
  pool_wf p → room p (all_len (all_transactions p)) →
  ∃ o p', update_accounts changed p = Done (o, p') ∧ accounts_updated changed p o p'.
Proof.
  intros W Hroom. unfold update_accounts. simpl.
  pose proof (update_ok changed (all_transactions p) (tr_all _ _ W)) as (Wa & Hu & Hitx & Hf).
  pose proof (λ i, update_discards changed (all_transactions p) i (tr_all _ _ W)) as Hdis.
  destruct (AllTxs.update changed (all_transactions p)) as [us a]. simpl in *.
  set (p1 := set_all a _).
  pose proof (updates_pending _ _ _ _ Hu) as Hpu. pose proof (updates_length _ _ _ _ Hu) as Hlen.
  assert (Hr : ∀ n, room p (n + all_len (all_transactions p)) → room p1 (n + Z.of_nat (length us))).
  { intros n. unfold room, all_len. simpl. lia. }
  assert (T1 : transit (still_at us) p1).
  { split; [done|by destruct (tr_subs _ _ W)| |by simpl; rewrite Hf; apply W].
    pose proof (synced_updates None _ _ us p (tr_sync _ _ W) Hu Hitx) as Hs.
    cbn [in_hand] in Hs. rewrite (left_id_L ∅ (∪)) in Hs. revert Hs. by apply synced_same. }
  unfold process_updates.
  destruct (process_updates_loop us (mkUpdateOutcome [] []) p1 T1 Hpu) as (p2 & -> & W2 & (Hc & Hsi & Hfe) & Hr2 & Htx).
  { apply (Hr 0). by rewrite Z.add_0_l. }
  eexists _, p2. split; [done|]. simpl in Htx. split; simpl.
  - done.
  - done.
  - done.
  - rewrite Hfe. done.
  - intros i. rewrite Htx, <-Hitx. rewrite map_lookup_filter. simpl.
    specialize (Hdis i). destruct (txs a !! i) as [t|] eqn:Ht; simpl; [|by destruct (stale changed i)].
    assert (is_Some (txs (all_transactions p) !! i)) as Hsome.
    { specialize (Hitx i). rewrite Ht in Hitx. by destruct (txs (all_transactions p) !! i). }
    destruct (stale changed i).
    + rewrite option_guard_False; [done|]. intros Hn. apply Hn, Hdis. done.
    + rewrite option_guard_True; [done|]. intros [_ ?]%Hdis. done.
  - intros tx. rewrite (reported_discarded _ _ us tx Hu Hitx). setoid_rewrite Hdis.
    split; [naive_solver|]. intros (i & ? & E). exists i. split_and!; [|done|done].
    by destruct (txs (all_transactions p) !! i).
  - intros tx. rewrite (reported_promoted None _ _ us p p2 tx Hu Hitx); [naive_solver| |rewrite <-Htx; apply W2].
    intros i t _. by apply pool_wf_pending.
  - intros n Hn Hp. apply Hr2; [done|]. by apply Hr.
Qed.
End accounts.

(** ** Removal by hash *)
Section removal.
Context {TO : TransactionOrdering}.
Implicit Types (p : TxPool) (h : Z).

(** A pool from which the transactions with the given hashes were removed. *)
Record pruned (hashes : list Z) p p' : Prop := {
  pr_wf : pool_wf p';
  pr_env : same_env p p';
  pr_room n : room p n → room p' n;
  pr_hash : by_hash (all_transactions p') = filter (λ e, e.1 ∉ hashes) (by_hash (all_transactions p));
  pr_txs : txs (all_transactions p') = filter (λ e, hash (itx e.2) ∉ hashes) (txs (all_transactions p));
}.

Lemma pruned_len hashes p p' : pruned hashes p p' → all_len (all_transactions p') ≤ all_len (all_transactions p).
Proof. intros H. unfold all_len. rewrite (pr_txs _ _ _ H). apply inj_le, map_subseteq_size, map_filter_subseteq. Qed.

Lemma pool_wf_place i t : place ∅ i t = Some (subpool t).
Proof. unfold place. by rewrite lookup_empty. Qed.

Lemma pruned_nil p : pool_wf p → pruned [] p p.
Proof.
  intros W. split; [done|by split_and!|done|..];
    symmetry; apply map_filter_id; intros ? ? _; apply not_elem_of_nil.
Qed.

Lemma pruned_trans h hs p1 p2 p3 : pruned [h] p1 p2 → pruned hs p2 p3 → pruned (h :: hs) p1 p3.
Proof.
  intros [W1 E1 R1 H1 L1] [W2 E2 R2 H2 L2]. split; [done|by eapply same_env_trans|by auto|..].
  - rewrite H2, H1, map_filter_filter. apply map_filter_ext. intros k v _. simpl. set_solver.
  - rewrite L2, L1, map_filter_filter. apply map_filter_ext. intros k v _. simpl. set_solver.
Qed.

Lemma prune_lemma h p :
  pool_wf p →
  ∃ p', prune_transaction_by_hash h p = Done (by_hash (all_transactions p) !! h, p') ∧ pruned [h] p p'.
Proof.
  intros W. destruct (transit_prune ∅ p h W) as (p' & -> & Hsi & Hc & Hr & Hrest).
  { intros. apply pool_wf_place. }
  exists p'. split; [done|].
  assert (Hdel : ∀ m : gmap Z ValidPoolTransaction, filter (λ e, e.1 ∉ [h]) m = delete h m).
  { intros m. apply map_eq. intros j. apply option_eq. intros x.
    rewrite map_lookup_filter_Some, lookup_delete_Some. simpl. rewrite list_elem_of_singleton. naive_solver. }
  pose proof (tr_all _ _ W) as (He & Hho & _)%all_wf_parts.
  destruct (by_hash (all_transactions p) !! h) as [tx|] eqn:Hh.
  - destruct Hrest as (t & Ht & Htx & T' & Ha). rewrite delete_empty in T'.
    pose proof (proj1 (Hho h tx) Hh) as [Hhash _].
    split; [done|split_and!; [done|done|by rewrite Ha]|done|by rewrite Ha, Hdel; simpl; rewrite Htx, Hhash|].
    rewrite Ha. simpl. apply map_eq. intros j. apply option_eq. intros t'.
    rewrite map_lookup_filter_Some, lookup_delete_Some. simpl. rewrite list_elem_of_singleton.
    split; [intros [Hne Hj]; split; [done|]|intros [Hj Hne]; split; [congruence|done]].
    intros E. apply Hne. pose proof (hash_ok_found _ _ _ _ He Hho Hj) as Hf.
    rewrite <-(in_key _ _ (He _ _ Hj)). congruence.
  - destruct Hrest as [T' Ha].
    split; [done|split_and!; [done|done|by rewrite Ha]|done|by rewrite Ha, Hdel, delete_id|].
    rewrite Ha. symmetry. apply map_filter_id. intros j t' Hj. simpl. rewrite list_elem_of_singleton.
    intros E. rewrite <-E, (hash_ok_found _ _ _ _ He Hho Hj) in Hh. done.
Qed.

(** The loop over mined transactions. *)
Lemma prune_loop hashes p :
  pool_wf p →
  ∃ p', for_each (λ h p, '(_, p) ← prune_transaction_by_hash h p; Done p) hashes p = Done p' ∧
    pruned hashes p p'.
Proof.
  revert p; induction hashes as [|h hs IH]; intros p W; cbn [for_each].
  { exists p. split; [done|by apply pruned_nil]. }
  destruct (prune_lemma h p W) as (p1 & -> & H1). cbn.
  destruct (IH p1 (pr_wf _ _ _ H1)) as (p2 & -> & H2). exists p2. split; [done|by eapply pruned_trans].
Qed.

(** The loop of [remove_transactions]. *)
Lemma remove_loop hashes acc p :
  pool_wf p →
  ∃ removed p', for_each (λ h st, '(otx, p) ← prune_transaction_by_hash h st.2;
      Done (st.1 ++ option_list otx, p)) hashes (acc, p) = Done (acc ++ removed, p') ∧
    pruned hashes p p' ∧
    (∀ tx, tx ∈ removed ↔ hash tx ∈ hashes ∧ by_hash (all_transactions p) !! hash tx = Some tx).
Proof.
  revert acc p; induction hashes as [|h hs IH]; intros acc p W; cbn [for_each].
  { exists [], p. rewrite app_nil_r. split_and!; [done|by apply pruned_nil|]. set_solver. }
  cbn [fst snd]. destruct (prune_lemma h p W) as (p1 & -> & H1). cbn.
  destruct (IH (acc ++ option_list (by_hash (all_transactions p) !! h)) p1 (pr_wf _ _ _ H1))
    as (removed & p2 & -> & H2 & Hin).
  eexists _, p2. rewrite <-(assoc_L (++)). split_and!; [done|by eapply pruned_trans|].
  intros tx. rewrite elem_of_app, Hin, (pr_hash _ _ _ H1), map_lookup_filter_Some, !elem_of_cons, elem_of_nil.
  simpl.
  assert (Hh : tx ∈ option_list (by_hash (all_transactions p) !! h) ↔
    hash tx = h ∧ by_hash (all_transactions p) !! hash tx = Some tx).
  { destruct (by_hash (all_transactions p) !! h) as [tx'|] eqn:E; simpl.
    - rewrite list_elem_of_singleton. pose proof (proj1 (aw_hash _ (tr_all _ _ W) h tx') E) as [Hx _].
      split; [by intros ->; rewrite Hx|]. intros [-> ?]. congruence.
    - rewrite elem_of_nil. split; [done|]. intros [-> ?]. congruence. }
  rewrite Hh. destruct (decide (hash tx = h)); naive_solver.
Qed.

Lemma pool_wf_hash p h tx :
  pool_wf p → by_hash (all_transactions p) !! h = Some tx ↔
  hash tx = h ∧ itx <$> txs (all_transactions p) !! transaction_id tx = Some tx.
Proof. intros W. apply (aw_hash _ (tr_all _ _ W)). Qed.

Lemma pruned_sub hashes p p' k i tx :
  pool_wf p → pruned hashes p p' →
  sub_txs p' k !! i = Some tx ↔ sub_txs p k !! i = Some tx ∧ hash tx ∉ hashes.
Proof.
  intros W H. rewrite (tr_sync _ _ (pr_wf _ _ _ H) k i tx), (tr_sync _ _ W k i tx), (pr_txs _ _ _ H).
  setoid_rewrite map_lookup_filter_Some. simpl. naive_solver.
Qed.

(** C24. Removing transactions by their hashes removes exactly those that are in the pool
    and returns them, whatever hashes are given and however often; the rest of the pool
    stays, and the set of all transactions and the sub-pools still agree. *)
Theorem remove_transactions_ok hashes p :
  pool_wf p →
  ∃ removed p', remove_transactions hashes p = Done (removed, p') ∧ pool_wf p' ∧
    by_hash (all_transactions p') = filter (λ e, e.1 ∉ hashes) (by_hash (all_transactions p)) ∧
    (∀ k i tx, sub_txs p' k !! i = Some tx ↔ sub_txs p k !! i = Some tx ∧ hash tx ∉ hashes) ∧
    (∀ tx, tx ∈ removed ↔ hash tx ∈ hashes ∧ get_tx (hash tx) p = Some tx).
Proof.
  intros W. destruct (remove_loop hashes [] p W) as (removed & p' & E & Hp & Hin).
  exists removed, p'. split_and!; [exact E|apply Hp|apply Hp| |exact Hin].
  intros k i tx. by apply pruned_sub.
Qed.

(** New fees in the set of all transactions leave the pool well formed. *)
Lemma pool_wf_block number h fees p :
  pool_wf p → Blob.fees_ok fees → pool_wf (set_all (set_block number h fees (all_transactions p)) p).
Proof.
  intros [Wa Ws Wy _] Hf. split; [by destruct Wa|by destruct Ws| |done].
  revert Wy. by apply synced_same.
Qed.

(** Entering the pending sub-pool, seen from before and from after the removals. *)
Lemma pruned_promoted hashes changed p0 p1 o p2 i tx :
  pool_wf p0 → pruned hashes p0 p1 → accounts_updated changed p1 o p2 →
  sub_txs p2 Pending !! i = Some tx ∧ sub_txs p1 Pending !! i = None ↔
  sub_txs p2 Pending !! i = Some tx ∧ sub_txs p0 Pending !! i = None.
Proof.
  intros W0 H1 H2. split; intros [Hi Hn]; (split; [done|]); apply eq_None_not_Some; intros [tx' Htx'].
  - assert (sub_txs p1 Pending !! i = Some tx'); [|congruence].
    apply (pruned_sub hashes p0 p1); [done|done|]. split; [exact Htx'|].
    apply (tr_sync _ _ (au_wf _ _ _ _ H2)) in Hi as (t & Ht & <- & _). pose proof (au_txs _ _ _ _ H2 i) as Hx.
    rewrite Ht in Hx. destruct (stale changed i); [done|]. rewrite (pr_txs _ _ _ H1) in Hx. symmetry in Hx.
    apply fmap_Some in Hx as (t0 & Ht0 & Hitx). apply map_lookup_filter_Some in Ht0 as [Ht0 Hnm].
    apply (tr_sync _ _ W0) in Htx' as (t1 & Ht1 & <- & _). simpl in *. congruence.
  - apply (pruned_sub hashes p0 p1) in Htx' as [Htx' _]; [congruence|done|done].
Qed.

Lemma canonical_lemma info mined changed p :
  pool_wf p → room p (all_len (all_transactions p)) →
  let fees := mkPendingFees (bi_pending_basefee info)
    (default (pf_blob_fee (pending_fees (all_transactions p))) (bi_pending_blob_fee info)) in
  Blob.fees_ok fees →
  ∃ out p', on_canonical_state_change info mined changed p = Done (out, p') ∧ pool_wf p' ∧
    config p' = config p ∧ pending_fees (all_transactions p') = fees ∧
    (∀ h tx, by_hash (all_transactions p') !! h = Some tx ↔
      by_hash (all_transactions p) !! h = Some tx ∧ h ∉ mined ∧ stale changed (transaction_id tx) = false) ∧
    (∀ tx, tx ∈ oc_discarded out ↔
      get_tx (hash tx) p = Some tx ∧ hash tx ∉ mined ∧
      stale changed (transaction_id tx) = true) ∧
    (∀ tx, tx ∈ oc_promoted out ↔
      ∃ i, sub_txs p' Pending !! i = Some tx ∧ sub_txs p Pending !! i = None).
Proof.
  intros W Hroom fees Hfees. unfold on_canonical_state_change.
  set (p0 := set_all _ p). assert (W0 : pool_wf p0) by (by apply pool_wf_block).
  destruct (prune_loop mined p0 W0) as (p1 & -> & H1). cbn [mbind outcome_bind].
  pose proof (pr_wf _ _ _ H1) as W1. pose proof (pruned_len _ _ _ H1) as Hlen.
  destruct (update_accounts_lemma changed p1 W1) as (o & p2 & -> & H2).
  { apply (pr_room _ _ _ H1). eapply room_weaken; [exact Hlen|]. exact Hroom. }
  cbn. eexists _, p2. split; [done|]. pose proof (au_wf _ _ _ _ H2) as W2. split_and!; simpl.
  - done.
  - rewrite (au_config _ _ _ _ H2). apply (pr_env _ _ _ H1).
  - rewrite (au_fees _ _ _ _ H2). destruct (pr_env _ _ _ H1) as (_ & _ & ->). done.
  - intros h tx. rewrite (pool_wf_hash p2), (au_txs _ _ _ _ H2), (pool_wf_hash p) by done.
    rewrite (pr_txs _ _ _ H1). simpl. destruct (stale changed (transaction_id tx)); [naive_solver|].
    rewrite !fmap_Some. setoid_rewrite map_lookup_filter_Some. simpl. naive_solver.
  - intros tx. rewrite (au_discarded _ _ _ _ H2), (pr_txs _ _ _ H1). unfold get_tx.
    setoid_rewrite fmap_Some. setoid_rewrite map_lookup_filter_Some. simpl.
    pose proof (tr_all _ _ W) as (He & Hh & _)%all_wf_parts. split.
    + intros (i & Hst & t & [Ht Hn] & ->). rewrite (hash_ok_found _ _ _ _ He Hh Ht).
      rewrite (in_key _ _ (He _ _ Ht)). done.
    + intros (Htx & Hn & Hst). apply Hh in Htx as [_ Htx]. apply fmap_Some in Htx as (t & Ht & ->). eauto 8.
  - intros tx. rewrite (au_promoted _ _ _ _ H2). apply exist_proper. intros i.
    by apply (pruned_promoted mined changed p0 p1 o p2).
Qed.

(** C13. Applying a new block works in full: the operation never panics, the set of
    all transactions and the sub-pools agree again afterwards, the pool takes over
    the block's fees, and a transaction is still in the pool exactly if it was
    neither mined nor has a nonce the block's state already used.  The outcome
    reports exactly the transactions dropped for their nonce, and exactly those
    that entered the pending sub-pool. *)
Theorem on_canonical_state_change_ok info mined changed p :
  pool_wf p → room p (all_len (all_transactions p)) →
  let fees := mkPendingFees (bi_pending_basefee info)
    (default (pf_blob_fee (pending_fees (all_transactions p))) (bi_pending_blob_fee info)) in
  Blob.fees_ok fees →
  ∃ out p', on_canonical_state_change info mined changed p = Done (out, p') ∧ pool_wf p' ∧
    config p' = config p ∧ pending_fees (all_transactions p') = fees ∧
    (∀ h tx, by_hash (all_transactions p') !! h = Some tx ↔
      by_hash (all_transactions p) !! h = Some tx ∧ h ∉ mined ∧ stale changed (transaction_id tx) = false) ∧
    (∀ tx, tx ∈ oc_discarded out ↔
      get_tx (hash tx) p = Some tx ∧ hash tx ∉ mined ∧
      stale changed (transaction_id tx) = true) ∧
    (∀ tx, tx ∈ oc_promoted out ↔
      ∃ i, sub_txs p' Pending !! i = Some tx ∧ sub_txs p Pending !! i = None).
Proof. apply canonical_lemma. Qed.
End removal.

(** ** Adding a transaction *)
Section adding.
Context {TO : TransactionOrdering}.
Implicit Types (p : TxPool) (tx : ValidPoolTransaction).

Lemma remove_from_subpool_set_all k i a p r p' :
  remove_from_subpool k i p = Done (r, p') → remove_from_subpool k i (set_all a p) = Done (r, set_all a p').
Proof.
  destruct k; cbn [remove_from_subpool set_all queued_pool basefee_pool blob_pool pending_pool].
  - intros ([? ?] & -> & [= <- <-])%bind_Done_inv. done.
  - intros ([? ?] & -> & [= <- <-])%bind_Done_inv. done.
  - intros ([? ?] & -> & [= <- <-])%bind_Done_inv. done.
  - destruct (Pending.remove_transaction i (pending_pool p)). by intros [= <- <-].
Qed.

(** Taking the transaction with a given identifier out of the sub-pools, if there is
    one. *)
Lemma take_out p i a :
  pool_wf p →
  ∃ p1, match (λ t, (itx t, subpool t)) <$> txs (all_transactions p) !! i with
        | None => Done (set_all a p)
        | Some (old, old_pool) =>
          '(_, q) ← remove_from_subpool old_pool (transaction_id old) (set_all a p); Done q
        end = Done (set_all a p1) ∧
    transit (in_hand (Some i)) p1 ∧ same_rest p p1 ∧ (∀ n, room p n → room p1 n).
Proof.
  intros W. destruct (txs (all_transactions p) !! i) as [e|] eqn:E; simpl.
  - rewrite (in_key _ _ (transit_entry _ _ _ _ W E)).
    destruct (transit_remove ∅ p i e (subpool e) W E (pool_wf_place i e)) as (p1 & Hr & T1 & Hrest & Hroom).
    exists p1. by rewrite (remove_from_subpool_set_all _ _ a _ _ _ Hr).
  - exists p. split_and!; [done| |done|done].
    destruct W as [Wa Ws Wy Wf]. split; [done|done| |done]. revert Wy. apply synced_ext.
    intros j k tx. unfold in_hand. destruct (decide (i = j)) as [<-|Hne]; [rewrite E; naive_solver|].
    unfold place. by rewrite lookup_singleton_ne.
Qed.

Lemma in_hand_done i us : i ∉ pu_id <$> us → delete i (in_hand (Some i) ∪ still_at us) = still_at us.
Proof.
  intros Hi. apply map_eq. intros j. destruct (decide (i = j)) as [<-|Hne].
  - by rewrite lookup_delete_eq, still_at_None.
  - rewrite lookup_delete_ne by done. apply lookup_union_r. simpl. by apply lookup_singleton_ne.
Qed.

Lemma add_new_lemma tx p ok a' :
  pool_wf p → inserted tx (all_transactions p) ok a' → room p 1 →
  ∃ p', add_new_transaction (io_transaction ok) (io_replaced_tx ok) (io_move_to ok) (set_all a' p) = Done p' ∧
    transit (still_at (io_updates ok)) p' ∧ same_rest (set_all a' p) p' ∧
    (∀ n, 0 ≤ n → room p (n + 1) → room p' n).
Proof.
  intros W [Wa Htx (t & Ht & Hitx & Hsp) Hrep Hoth (t0 & Ht0 & Hu) _ Hf] Hroom. set (i := transaction_id tx) in *.
  unfold add_new_transaction. rewrite Hrep, Htx.
  destruct (take_out p i a' W) as (p1 & Hout & T1 & (Ha1 & Hs1 & Hc1) & Hr1). rewrite Hout.
  cbn [mbind outcome_bind]. set (us := io_updates ok) in *.
  assert (Hm : ∀ j, itx <$> txs a' !! j = itx <$> <[i := t0]> (txs (all_transactions p)) !! j).
  { intros j. destruct (decide (j = i)) as [->|Hne]; [by rewrite Ht, lookup_insert_eq; simpl; congruence|].
    rewrite lookup_insert_ne by done. by apply Hoth. }
  assert (T2 : transit (in_hand (Some i) ∪ still_at us) (set_all a' p1)).
  { split; [done|by destruct (tr_subs _ _ T1)| |simpl; rewrite Hf; apply W].
    pose proof (synced_change ∅ _ p1 i t0 (tr_sync _ _ T1)) as Hs. rewrite Ha1 in Hs.
    pose proof (synced_updates (Some i) _ _ us p1 Hs Hu Hm) as Hs2. revert Hs2. by apply synced_same. }
  destruct (transit_add _ (set_all a' p1) i t T2 Ht) as (p2 & Hadd & T3 & Hrest & Hr2).
  { rewrite (lookup_union_Some_l _ _ i None); [done|]. simpl. apply lookup_singleton_eq. }
  { by apply Hr1. }
  rewrite Hsp, Hitx in Hadd. rewrite Hadd. exists p2.
  rewrite in_hand_done in T3 by (intros (u & Hi & Hin)%list_elem_of_fmap; by destruct (uo_each _ _ _ _ Hu u Hin) as [? _]; congruence).
  split_and!; [done|done| |].
  - destruct Hrest as (Ha2 & Hs2 & Hc2). split_and!; simpl in *; congruence.
  - intros n Hn Hp. apply Hr2; [done|]. by apply Hr1.
Qed.

Lemma reported_none us m : discards us = [] → reported Discard us m = [].
Proof.
  induction us as [|u us IH]; [done|]. unfold discards, reported. rewrite filter_cons. simpl.
  case_decide; [done|]. exact IH.
Qed.

(** What a successful [add_transaction] does to a well-formed pool. *)
Record added tx p (r : AddedTransaction) p' : Prop := {
  ad_wf : pool_wf p';
  ad_get : get_tx (hash tx) p' = Some tx;
  ad_others i : i ≠ transaction_id tx →
    itx <$> txs (all_transactions p') !! i = itx <$> txs (all_transactions p) !! i;
  ad_env : config p' = config p ∧ pending_fees (all_transactions p') = pending_fees (all_transactions p);
  ad_result :
    match r with
    | AddedPending tx' replaced prom disc =>
      tx' = tx ∧ sub_txs p' Pending !! transaction_id tx = Some tx ∧
      replaced = itx <$> txs (all_transactions p) !! transaction_id tx ∧ disc = [] ∧
      (∀ x, x ∈ prom ↔ ∃ i, i ≠ transaction_id tx ∧ sub_txs p' Pending !! i = Some x ∧
                         sub_txs p Pending !! i = None)
    | AddedParked tx' replaced k =>
      tx' = tx ∧ k ≠ Pending ∧ sub_txs p' k !! transaction_id tx = Some tx ∧
      replaced = itx <$> txs (all_transactions p) !! transaction_id tx
    end;
  ad_room n : 0 ≤ n → room p (n + all_len (all_transactions p) + 2) → room p' n;
}.

Lemma inserted_len tx a ok a' :
  inserted tx a ok a' → (length (io_updates ok) ≤ size (txs a) + 1)%nat.
Proof.
  intros [_ _ _ _ _ (t0 & _ & Hu) _ _]. pose proof (updates_length _ _ _ _ Hu) as Hl.
  rewrite map_size_insert in Hl. destruct (txs a !! transaction_id tx); simpl in Hl; lia.
Qed.

Lemma add_inserted tx p ok a' :
  pool_wf p → inserted tx (all_transactions p) ok a' → room p (all_len (all_transactions p) + 2) →
  ∃ o p1 p', add_new_transaction (io_transaction ok) (io_replaced_tx ok) (io_move_to ok) (set_all a' p) = Done p1 ∧
    process_updates (io_updates ok) p1 = Done (o, p') ∧
    added tx p (if bool_decide (io_move_to ok = Pending)
                then AddedPending (io_transaction ok) (fst <$> io_replaced_tx ok) (promoted o) (discarded o)
                else AddedParked (io_transaction ok) (fst <$> io_replaced_tx ok) (io_move_to ok)) p'.
Proof.
  intros W Hins Hroom. pose proof (inserted_len _ _ _ _ Hins) as Hlen.
  destruct (add_new_lemma tx p ok a' W Hins) as (p1 & -> & T1 & (Ha1 & _ & Hc1) & Hr1).
  { eapply room_weaken; [|exact Hroom]. unfold all_len. lia. }
  destruct Hins as [Wa Htx (t & Ht & Hitx & Hsp) Hrep Hoth (t0 & Ht0 & Hu) Hd Hf].
  simpl in Ha1, Hc1. pose proof (updates_pending _ _ _ _ Hu) as Hpu. rewrite <-Ha1 in Hpu.
  destruct (process_updates_loop (io_updates ok) (mkUpdateOutcome [] []) p1 T1 Hpu)
    as (p2 & Hproc & W2 & (Hc2 & _ & Hf2) & Hr2 & Htx2).
  { apply Hr1; [lia|]. eapply room_weaken; [|exact Hroom]. unfold all_len. lia. }
  eexists _, p1, p2. split_and!; [done|exact Hproc|]. rewrite Ha1 in *.
  assert (Hall : txs (all_transactions p2) = txs a').
  { rewrite Htx2, Hd. apply map_filter_id. intros ? ? _. apply not_elem_of_nil. }
  assert (Hsub : sub_txs p2 (io_move_to ok) !! transaction_id tx = Some tx).
  { apply (tr_sync _ _ W2). exists t. rewrite Hall. split_and!; [done|done|]. rewrite pool_wf_place. congruence. }
  assert (Hrp : fst <$> io_replaced_tx ok = itx <$> txs (all_transactions p) !! transaction_id tx).
  { rewrite Hrep. by destruct (txs (all_transactions p) !! transaction_id tx). }
  split.
  - done.
  - apply (pool_wf_hash p2 _ _ W2). split; [done|]. rewrite Hall, Ht. simpl. congruence.
  - intros i Hi. rewrite Hall. by apply Hoth.
  - split; congruence.
  - rewrite Htx, Hrp. case_bool_decide as Em; [|done]. rewrite Em in Hsub. simpl.
    split_and!; [done|done|done|by apply reported_none|]. intros x.
    rewrite (reported_promoted (Some (transaction_id tx)) _ _ (io_updates ok) p p2 x Hu).
    + split; intros (i & Hi & ?); exists i; (split; [congruence|done]).
    + intros i. destruct (decide (i = transaction_id tx)) as [->|Hne].
      * rewrite Ht, lookup_insert_eq. simpl. congruence.
      * rewrite lookup_insert_ne by done. by apply Hoth.
    + intros i ti Hne Hi. rewrite lookup_insert_ne in Hi by congruence. by apply pool_wf_pending.
    + rewrite <-Htx2. apply W2.
  - intros n Hn Hp. apply Hr2; [done|]. apply Hr1; [lia|]. eapply room_weaken; [|exact Hp]. unfold all_len. lia.
Qed.

Lemma contains_hash_false p h : contains h p = false → by_hash (all_transactions p) !! h = None.
Proof. unfold contains, contains_hash. rewrite bool_decide_eq_false. apply eq_None_not_Some. Qed.

Lemma add_transaction_lemma tx on_chain_balance on_chain_nonce p :
  pool_wf p → vtx_ok tx → on_chain_nonce ≤ vtx_nonce tx → room p (all_len (all_transactions p) + 2) →
  if contains (hash tx) p then
    add_transaction tx on_chain_balance on_chain_nonce p = Done (inl (mkPoolError (hash tx) AlreadyImported), p)
  else
    match insert_error tx on_chain_balance
            (ancestor (vtx_nonce tx) on_chain_nonce (vtx_sender_id tx)) (all_transactions p) with
    | Some e =>
      add_transaction tx on_chain_balance on_chain_nonce p =
        Done (inl (pool_error e),
              set_sender_info (<[vtx_sender_id tx := mkSenderInfo on_chain_nonce on_chain_balance]> (sender_info p)) p)
    | None =>
      ∃ r p', add_transaction tx on_chain_balance on_chain_nonce p = Done (inr r, p') ∧ added tx p r p'
    end.
Proof.
  intros W Hok Hn Hroom. unfold add_transaction. destruct (contains (hash tx) p) eqn:Hc; [done|].
  apply contains_hash_false in Hc. set (p0 := set_sender_info _ p).
  pose proof (insert_tx_cases (all_transactions p) tx on_chain_balance on_chain_nonce (tr_all _ _ W) Hok Hc Hn) as Hins.
  change (all_transactions p0) with (all_transactions p). unfold vtx_sender_id at 1.
  destruct (insert_error _ _ _ _) as [e|]; [by rewrite Hins|].
  destruct Hins as (ok & a' & -> & Hins). cbn [mbind outcome_bind].
  assert (W0 : pool_wf p0).
  { destruct W as [? [] Wy ?]. split; [done|done| |done]. revert Wy. by apply synced_same. }
  destruct (add_inserted tx p0 ok a' W0 Hins Hroom) as (o & p1 & p2 & -> & Hproc & Hadd).
  cbn [mbind outcome_bind]. rewrite Hproc. cbn. eexists _, p2. split; [done|].
  destruct Hadd as [? ? ? ? ? ?]. by split.
Qed.

(** C12. Adding a validated transaction whose nonce is not below the account's: a
    transaction already in the pool is refused and nothing changes; a transaction
    that fails a check is refused with the error of that check, and nothing but the
    account information of the sender changes; otherwise the pool afterwards
    contains it in exactly the sub-pool that is reported, it takes the place of a
    transaction with the same sender and nonce, no other transaction leaves or
    enters the pool, and the set of all transactions and the sub-pools agree.  A
    transaction added to the pending sub-pool is reported with exactly the other
    transactions that moved there; the result for a parked one has no such report, although
    its addition may move others.  The pool is well formed and its submission counters have
    room. *)
Theorem add_transaction_ok tx on_chain_balance on_chain_nonce p :
  pool_wf p → vtx_ok tx → on_chain_nonce ≤ vtx_nonce tx → room p (all_len (all_transactions p) + 2) →
  if contains (hash tx) p then
    add_transaction tx on_chain_balance on_chain_nonce p = Done (inl (mkPoolError (hash tx) AlreadyImported), p)
  else
    match insert_error tx on_chain_balance
            (ancestor (vtx_nonce tx) on_chain_nonce (vtx_sender_id tx)) (all_transactions p) with
    | Some e =>
      add_transaction tx on_chain_balance on_chain_nonce p =
        Done (inl (pool_error e),
              set_sender_info (<[vtx_sender_id tx := mkSenderInfo on_chain_nonce on_chain_balance]> (sender_info p)) p)
    | None =>
      ∃ r p', add_transaction tx on_chain_balance on_chain_nonce p = Done (inr r, p') ∧ added tx p r p'
    end.
Proof. apply add_transaction_lemma. Qed.
End adding.
