(* ===== verification/PoolFees.v ===== *)
(** * Fee changes and eviction

    The operations of [TxPool] that take several transactions out of one sub-pool
    at a time: [update_basefee], [update_blob_fee] and [set_block_info], which put
    them into another sub-pool, and [discard_worst], which drops them. *)

From stdpp Require Import prelude gmap list sorting.
From S2P Require Import Prelude.
From S2P Require Import Ord.
From S2P Require Import Identifier.
From S2P Require Import State.
From S2P Require Import PoolTx.
From S2P Require Import SubPools.
From S2P Require Parked.
From S2P Require Blob.
From S2P Require Pending.
From S2P Require Import AllTxs.
From S2P Require Import Errors.
From S2P Require Import TxPool.
From S2P Require Import PoolOps.

#[local] Existing Instances Parked.parked_ops Parked.parked_laws Blob.blob_ops Blob.blob_laws
  Pending.pending_ops Pending.pending_laws.

#[local] Arguments sub_txs : simpl never.

(** ** Transactions in transit *)
Section out.
Context {TO : TransactionOrdering}.
Implicit Types (p : TxPool) (removed : list ValidPoolTransaction).

(** The overrides for transactions that are in no sub-pool. *)
Definition out removed : gmap TransactionId (option SubPool) :=
  list_to_map ((λ tx, (transaction_id tx, None)) <$> removed).

Lemma out_in removed i : i ∈ transaction_id <$> removed → out removed !! i = Some None.
Proof.
  unfold out. induction removed as [|tx removed IH]; [by intros ?%elem_of_nil|].
  simpl. intros Hi. destruct (decide (i = transaction_id tx)) as [->|Hne]; [apply lookup_insert_eq|].
  rewrite lookup_insert_ne by done. apply IH. apply elem_of_cons in Hi as [?|?]; done.
Qed.

Lemma out_notin removed i : i ∉ transaction_id <$> removed → out removed !! i = None.
Proof. intros Hi. apply not_elem_of_list_to_map. by rewrite <-list_fmap_compose. Qed.

Lemma out_cons tx removed :
  transaction_id tx ∉ transaction_id <$> removed → delete (transaction_id tx) (out (tx :: removed)) = out removed.
Proof. intros Hn. unfold out. simpl. apply delete_insert_id. by apply out_notin. Qed.

(** Taking transactions out of one sub-pool. *)
Lemma transit_split p p' k removed :
  pool_wf p → subs_ok p' → all_transactions p' = all_transactions p →
  (∀ k', k' ≠ k → sub_txs p' k' = sub_txs p k') →
  split_off (sub_txs p k) (sub_txs p' k) removed →
  transit (out removed) p'.
Proof.
  intros W Ws Ha Hoth [Hnd Hin Hrest]. split; rewrite ?Ha; [apply W|done| |apply W].
  assert (Hk : ∀ i t, i ∈ transaction_id <$> removed → txs (all_transactions p) !! i = Some t → subpool t = k).
  { intros i t (tx & -> & Htx)%list_elem_of_fmap Ht.
    apply Hin, (tr_sync _ _ W) in Htx as (t' & Ht' & _ & Hp). rewrite pool_wf_place in Hp. congruence. }
  intros k0 i tx. destruct (decide (i ∈ transaction_id <$> removed)) as [Hi|Hi].
  - unfold place. rewrite out_in by done. simpl. split; [|naive_solver]. intros Hl. exfalso.
    destruct (decide (k0 = k)) as [->|Hne]; [apply Hrest in Hl as [_ ?]; done|].
    rewrite (Hoth k0 Hne) in Hl. apply (tr_sync _ _ W) in Hl as (t & Ht & _ & Hp).
    rewrite pool_wf_place in Hp. specialize (Hk i t Hi Ht). congruence.
  - unfold place. rewrite out_notin by done. etrans; [|etrans; [apply (tr_sync _ _ W k0 i tx)|]].
    + destruct (decide (k0 = k)) as [->|Hne]; [|by rewrite (Hoth k0 Hne)]. rewrite Hrest. tauto.
    + unfold place. by setoid_rewrite lookup_empty.
Qed.
End out.

(** ** Moving transactions after a fee change *)
Section restate.
Context {TO : TransactionOrdering}.
Implicit Types (p : TxPool) (removed : list ValidPoolTransaction) (f : TxState → TxState).

(** The entry with its new state and the sub-pool that state determines. *)
Definition restated f (t : PoolInternalTransaction) : PoolInternalTransaction :=
  mkPoolInternalTransaction (itx t) (subpool_of (f (state t))) (f (state t)) (cumulative_cost t).

Lemma restated_ok f i t : (∀ s, flags_only s (f s)) → internal_ok i t → internal_ok i (restated f t).
Proof.
  intros Hf [H1 H2 H3 H4 H5]. destruct (Hf (state t) H3) as [? Hb]. split; simpl; try done. congruence.
Qed.

Lemma restate_ok f tx removed p t :
  (∀ s, flags_only s (f s)) → transit (out (tx :: removed)) p → transaction_id tx ∉ transaction_id <$> removed →
  txs (all_transactions p) !! transaction_id tx = Some t → itx t = tx → room p 1 →
  ∃ p', restate f tx p = Done p' ∧ transit (out removed) p' ∧
    all_transactions p' =
      set_txs (<[transaction_id tx := restated f t]> (txs (all_transactions p))) (all_transactions p) ∧
    config p' = config p ∧ sender_info p' = sender_info p ∧ (∀ n, 0 ≤ n → room p (n + 1) → room p' n).
Proof.
  intros Hf T Hn Ht Hitx Hroom. unfold restate. rewrite Ht. cbn [expect mbind outcome_bind].
  fold (restated f t). set (i := transaction_id tx) in *. set (p1 := set_all _ p).
  assert (T1 : transit (out (tx :: removed)) p1).
  { pose proof (tr_all _ _ T) as Wa. pose proof Wa as (He & _ & _)%all_wf_parts.
    split; simpl; [|by destruct (tr_subs _ _ T)| |by apply T].
    - apply set_txs_wf; [done|by apply entries_ok_insert; [|apply restated_ok; [|apply He]]|].
      intros j. destruct (decide (j = i)) as [->|Hne]; [by rewrite lookup_insert_eq, Ht|by rewrite lookup_insert_ne].
    - rewrite <-(override_id (out (tx :: removed)) i None) by (apply out_in; left).
      apply (synced_same _ _ p); [done|]. apply synced_change.
      rewrite override_id by (apply out_in; left). apply T. }
  destruct (transit_add _ p1 i (restated f t) T1) as (p2 & Hadd & T2 & (Ha & Hs & Hc) & Hr).
  { simpl. apply lookup_insert_eq. } { apply out_in. left. } { done. }
  simpl in Hadd. rewrite Hitx in Hadd. unfold i in T2. rewrite out_cons in T2 by done. exists p2. by split_and!.
Qed.

Definition restated_all f removed (m : gmap TransactionId PoolInternalTransaction)
  : gmap TransactionId PoolInternalTransaction :=
  map_imap (λ i t, Some (if decide (i ∈ transaction_id <$> removed) then restated f t else t)) m.

Lemma restated_all_lookup f removed m i :
  restated_all f removed m !! i =
  (λ t, if decide (i ∈ transaction_id <$> removed) then restated f t else t) <$> m !! i.
Proof. unfold restated_all. rewrite map_lookup_imap. by destruct (m !! i). Qed.

Lemma restated_all_cons f tx removed m t :
  transaction_id tx ∉ transaction_id <$> removed → m !! transaction_id tx = Some t →
  restated_all f removed (<[transaction_id tx := restated f t]> m) = restated_all f (tx :: removed) m.
Proof.
  intros Hn Ht. apply map_eq. intros i. rewrite !restated_all_lookup.
  destruct (decide (i = transaction_id tx)) as [->|Hne].
  - rewrite lookup_insert_eq, Ht. simpl. by rewrite decide_False, decide_True by (done || left).
  - rewrite lookup_insert_ne by done. destruct (m !! i); [|done]. simpl. f_equal.
    apply decide_ext. rewrite elem_of_cons. naive_solver.
Qed.

Lemma restate_loop f removed p :
  (∀ s, flags_only s (f s)) → transit (out removed) p → NoDup (transaction_id <$> removed) →
  (∀ tx, tx ∈ removed → itx <$> txs (all_transactions p) !! transaction_id tx = Some tx) →
  room p (Z.of_nat (length removed)) →
  ∃ p', for_each (restate f) removed p = Done p' ∧ pool_wf p' ∧
    all_transactions p' = set_txs (restated_all f removed (txs (all_transactions p))) (all_transactions p) ∧
    config p' = config p ∧ sender_info p' = sender_info p ∧
    (∀ n, 0 ≤ n → room p (n + Z.of_nat (length removed)) → room p' n).
Proof.
  intros Hf. revert p; induction removed as [|tx removed IH]; intros p T Hnd Hin Hroom; cbn [for_each length] in *.
  { exists p. split_and!; [done|done| |done|done|by intros n _; rewrite Z.add_0_r].
    assert (restated_all f [] (txs (all_transactions p)) = txs (all_transactions p)) as ->.
    { apply map_eq. intros i. rewrite restated_all_lookup. by destruct (txs (all_transactions p) !! i). }
    by destruct (all_transactions p). }
  rewrite fmap_cons in Hnd. apply NoDup_cons in Hnd as [Hn Hnd].
  pose proof (Hin tx ltac:(left)) as Htx. apply fmap_Some in Htx as (t & Ht & Hitx).
  destruct (restate_ok f tx removed p t Hf T Hn Ht ltac:(done)) as (p1 & -> & T1 & Ha1 & Hc1 & Hs1 & Hr1).
  { eapply room_weaken; [|exact Hroom]. lia. }
  cbn [mbind outcome_bind]. destruct (IH p1 T1 Hnd) as (p2 & -> & W & Ha & Hc & Hs & Hr).
  { intros tx' Htx'. rewrite Ha1. simpl. rewrite lookup_insert_ne; [apply Hin; by right|].
    intros E. apply Hn. rewrite E. by apply list_elem_of_fmap_2. }
  { apply Hr1; [lia|]. eapply room_weaken; [|exact Hroom]. lia. }
  exists p2. split_and!; [done|done| |congruence|congruence|].
  - rewrite Ha, Ha1. simpl. by rewrite (restated_all_cons f tx removed _ t).
  - intros n Hn' Hp. apply Hr; [done|]. apply Hr1; [lia|]. eapply room_weaken; [|exact Hp]. lia.
Qed.
End restate.

(** ** Fee changes *)
Section fees.
Context {TO : TransactionOrdering}.
Implicit Types (p : TxPool) (removed : list ValidPoolTransaction) (f : TxState → TxState).

(** Every pending transaction can pay the pool's base fee. *)
Definition affords p : Prop :=
  ∀ i tx, sub_txs p Pending !! i = Some tx →
    pf_base_fee (pending_fees (all_transactions p)) ≤ max_fee_per_gas tx.

(** Every pending transaction has a blob fee cap. *)
Definition blobs_only p : Prop :=
  ∀ i tx, sub_txs p Pending !! i = Some tx → is_Some (max_fee_per_blob_gas tx).

(** Transactions were moved to the sub-pools their new states determine. *)
Record moved f removed p p' : Prop := {
  mv_wf : pool_wf p';
  mv_all : all_transactions p' = set_txs (restated_all f removed (txs (all_transactions p))) (all_transactions p);
  mv_config : config p' = config p;
  mv_senders : sender_info p' = sender_info p;
  mv_room n : 0 ≤ n → room p (n + all_len (all_transactions p)) → room p' n;
}.

Lemma split_len p k m' removed :
  pool_wf p → split_off (sub_txs p k) m' removed → (length removed ≤ size (txs (all_transactions p)))%nat.
Proof.
  intros W [Hnd Hin _].
  rewrite <-size_dom, <-(length_fmap transaction_id removed), <-(size_list_to_set (C := gset _)) by done.
  apply subseteq_size. intros i Hi. apply elem_of_list_to_set, list_elem_of_fmap in Hi as (tx & -> & Htx).
  apply Hin, (tr_sync _ _ W) in Htx as (t & Ht & _). by apply elem_of_dom_2 in Ht.
Qed.

(** Taking transactions out of a sub-pool and putting them where they belong. *)
Lemma restate_split f k removed p p1 :
  (∀ s, flags_only s (f s)) → pool_wf p → subs_ok p1 → same_rest p p1 →
  (∀ k', k' ≠ k → sub_txs p1 k' = sub_txs p k') → split_off (sub_txs p k) (sub_txs p1 k) removed →
  (∀ n, room p n → room p1 n) → room p (all_len (all_transactions p)) →
  ∃ p', for_each (restate f) removed p1 = Done p' ∧ moved f removed p p'.
Proof.
  intros Hf W Ws (Ha & Hs & Hc) Hoth Hsp Hr Hroom. pose proof (split_len _ _ _ _ W Hsp) as Hlen.
  pose proof (transit_split p p1 k removed W Ws Ha Hoth Hsp) as T.
  destruct (restate_loop f removed p1 Hf T) as (p' & Hl & W' & Ha' & Hc' & Hs' & Hr').
  - apply Hsp.
  - intros tx Htx. rewrite Ha. apply (sf_in _ _ _ Hsp), (tr_sync _ _ W) in Htx as (t & -> & <- & _). done.
  - apply Hr. eapply room_weaken; [|exact Hroom]. unfold all_len. lia.
  - exists p'. split; [done|]. rewrite Ha in Ha'. split; [done|done|congruence|congruence|].
    intros n Hn Hp. apply Hr'; [done|]. apply Hr. eapply room_weaken; [|exact Hp]. unfold all_len. lia.
Qed.

Lemma moved_itx f removed p p' i :
  moved f removed p p' → itx <$> txs (all_transactions p') !! i = itx <$> txs (all_transactions p) !! i.
Proof.
  intros H. rewrite (mv_all _ _ _ _ H). simpl. rewrite restated_all_lookup.
  destruct (txs (all_transactions p) !! i); simpl; [|done]. by case_decide.
Qed.

(** What is pending after the move: what was pending and was not taken out, and
    what was taken out and can be pending now. *)
Lemma moved_pending f removed p p' i tx :
  pool_wf p → moved f removed p p' → sub_txs p' Pending !! i = Some tx →
  (i ∉ transaction_id <$> removed ∧ sub_txs p Pending !! i = Some tx) ∨
  (i ∈ transaction_id <$> removed ∧ ∃ t, txs (all_transactions p) !! i = Some t ∧ itx t = tx ∧
     subpool_of (f (state t)) = Pending).
Proof.
  intros W H. rewrite (tr_sync _ _ (mv_wf _ _ _ _ H) Pending i tx), (mv_all _ _ _ _ H). simpl.
  rewrite restated_all_lookup. intros (t' & Ht' & <- & Hp). rewrite pool_wf_place in Hp. injection Hp as Hp.
  apply fmap_Some in Ht' as (t & Ht & ->). case_decide as Hi; [right; eauto|left]. split; [done|].
  eapply synced_lookup; [apply W|done|]. rewrite pool_wf_place. by f_equal.
Qed.

(** An operation that takes pending transactions out and clears a fee flag. *)
Lemma demoted_pending flag removed p p' i tx :
  flag = ENOUGH_FEE_CAP_BLOCK ∨ flag = ENOUGH_BLOB_FEE_CAP_BLOCK →
  pool_wf p → moved (λ s, st_remove s flag) removed p p' → sub_txs p' Pending !! i = Some tx →
  i ∉ transaction_id <$> removed ∧ sub_txs p Pending !! i = Some tx.
Proof.
  intros Hfl W H Hi. destruct (moved_pending _ _ _ _ _ _ W H Hi) as [?|(_ & t & Ht & _ & Hp)]; [done|].
  exfalso. revert Hp. apply st_remove_fee_not_pending; [|done]. by apply (in_state i t), (transit_entry ∅ p).
Qed.

Lemma flags_only_remove s flag : flag ∈ state_flags → flags_only s (st_remove s flag).
Proof. intros Hf. apply (flags_only_set false); [done|apply flags_only_refl]. Qed.

(** What a fee update does to the pool, whatever moves it makes. *)
Record fees_updated (fees : PendingFees) p p' : Prop := {
  fu_wf : pool_wf p';
  fu_config : config p' = config p;
  fu_fees : pending_fees (all_transactions p') = fees;
  fu_hash : by_hash (all_transactions p') = by_hash (all_transactions p);
  fu_txs i : itx <$> txs (all_transactions p') !! i = itx <$> txs (all_transactions p) !! i;
  fu_block : last_seen_block_number (all_transactions p') = last_seen_block_number (all_transactions p) ∧
             last_seen_block_hash (all_transactions p') = last_seen_block_hash (all_transactions p);
  fu_len : all_len (all_transactions p') = all_len (all_transactions p);
  fu_room n : 0 ≤ n → room p (n + all_len (all_transactions p)) → room p' n;
}.

Lemma moved_fees_updated f removed fees p p' :
  moved f removed (set_fees fees p) p' → fees_updated fees p p'.
Proof.
  intros H. pose proof (mv_all _ _ _ _ H) as Ha. split.
  - apply H.
  - apply H.
  - by rewrite Ha.
  - by rewrite Ha.
  - intros i. by rewrite (moved_itx _ _ _ _ i H).
  - by rewrite Ha.
  - rewrite Ha. unfold all_len, restated_all. simpl. f_equal.
    rewrite <-!size_dom. f_equal. apply dom_imap_L. intros i. rewrite elem_of_dom. unfold is_Some. naive_solver.
  - intros n Hn Hr. by apply H.
Qed.

Lemma fees_updated_refl fees p : pool_wf (set_fees fees p) → fees_updated fees p (set_fees fees p).
Proof. intros W. split; try done. intros n Hn. apply (room_weaken p). unfold all_len. lia. Qed.

(** The states after a base fee change, and after a blob fee change. *)
Lemma basefee_flags s :
  flags_only s (st_remove s ENOUGH_FEE_CAP_BLOCK) ∧ flags_only s (st_insert s ENOUGH_FEE_CAP_BLOCK) ∧
  flags_only s (st_remove s ENOUGH_BLOB_FEE_CAP_BLOCK) ∧
  flags_only s (st_insert (st_insert s ENOUGH_BLOB_FEE_CAP_BLOCK) ENOUGH_FEE_CAP_BLOCK).
Proof. split_and!; [apply flags_only_remove; set_solver| |apply flags_only_remove; set_solver|]; auto with flags. Qed.

(** Both ways of taking transactions out of the pending sub-pool. *)
Lemma raise_lemma fee p :
  pool_wf p → room p (all_len (all_transactions p)) →
  let '(removed, x) := Pending.update_base_fee fee (pending_pool p) in
  (∀ i tx, sub_txs p Pending !! i = Some tx → i ∉ transaction_id <$> removed → fee ≤ max_fee_per_gas tx) ∧
  ∃ p', for_each (restate (λ s, st_remove s ENOUGH_FEE_CAP_BLOCK)) removed (set_pending x p) = Done p' ∧
    moved (λ s, st_remove s ENOUGH_FEE_CAP_BLOCK) removed p p'.
Proof.
  intros W Hroom. destruct (tr_subs _ _ W) as [Wp Wq Wb Wl].
  pose proof (Pending.update_base_fee_split (pending_pool p) fee Wp) as Hsp.
  destruct (Pending.update_base_fee fee (pending_pool p)) as [removed x].
  destruct Hsp as (Wx & Sx & Hsp & Hfee). split.
  - intros i tx Hi Hn. apply (Hfee i tx). apply (sf_rest _ _ _ Hsp). done.
  - apply (restate_split _ Pending); try done; [apply basefee_flags|by intros []|].
    unfold room. simpl. by rewrite Sx.
Qed.

Lemma raise_blob_lemma fee p :
  pool_wf p → room p (all_len (all_transactions p)) →
  let '(removed, x) := Pending.update_blob_fee fee (pending_pool p) in
  (∀ i tx, sub_txs p Pending !! i = Some tx → i ∉ transaction_id <$> removed →
    opt_lt_some (max_fee_per_blob_gas tx) fee = false) ∧
  ∃ p', for_each (restate (λ s, st_remove s ENOUGH_BLOB_FEE_CAP_BLOCK)) removed (set_pending x p) = Done p' ∧
    moved (λ s, st_remove s ENOUGH_BLOB_FEE_CAP_BLOCK) removed p p'.
Proof.
  intros W Hroom. destruct (tr_subs _ _ W) as [Wp Wq Wb Wl].
  pose proof (Pending.update_blob_fee_split (pending_pool p) fee Wp) as Hsp.
  destruct (Pending.update_blob_fee fee (pending_pool p)) as [removed x].
  destruct Hsp as (Wx & Sx & Hsp & Hfee). split.
  - intros i tx Hi Hn. apply (Hfee i tx). apply (sf_rest _ _ _ Hsp). done.
  - apply (restate_split _ Pending); try done; [apply basefee_flags|by intros []|].
    unfold room. simpl. by rewrite Sx.
Qed.

(** Taking the unlocked transactions out of the base-fee and the blob sub-pool. *)
Lemma lower_lemma fee p :
  pool_wf p → room p (all_len (all_transactions p)) →
  ∃ removed x p', @Parked.enforce_basefee Parked.BasefeeOrd fee (basefee_pool p) = Done (removed, x) ∧
    for_each (restate (λ s, st_insert s ENOUGH_FEE_CAP_BLOCK)) removed (set_basefee x p) = Done p' ∧
    moved (λ s, st_insert s ENOUGH_FEE_CAP_BLOCK) removed p p' ∧
    ∀ tx, tx ∈ removed → fee ≤ max_fee_per_gas tx ∧ sub_txs p BaseFee !! transaction_id tx = Some tx.
Proof.
  intros W Hroom. destruct (tr_subs _ _ W) as [Wp Wq Wb Wl].
  destruct (@Parked.enforce_basefee_split Parked.BasefeeOrd (basefee_pool p) fee Wb)
    as (removed & x & -> & Wx & Sx & Hsp & Hfee).
  destruct (restate_split (λ s, st_insert s ENOUGH_FEE_CAP_BLOCK) BaseFee removed p (set_basefee x p))
    as (p' & Hl & Hm); try done; [apply basefee_flags|by intros []|unfold room; simpl; by rewrite Sx|].
  exists removed, x, p'. split_and!; [done..|]. intros tx Htx. split; [by apply Hfee|]. by apply (sf_in _ _ _ Hsp).
Qed.

Lemma lower_blob_lemma fees p :
  pool_wf p → Blob.fees_ok fees → room p (all_len (all_transactions p)) →
  let f := λ s, st_insert (st_insert s ENOUGH_BLOB_FEE_CAP_BLOCK) ENOUGH_FEE_CAP_BLOCK in
  ∃ removed x p', Blob.enforce_pending_fees fees (blob_pool p) = Done (removed, x) ∧
    for_each (restate f) removed (set_blob x p) = Done p' ∧ moved f removed p p' ∧
    ∀ tx, tx ∈ removed → Blob.pays fees tx ∧ sub_txs p Blob !! transaction_id tx = Some tx.
Proof.
  intros W Hfees Hroom f. destruct (tr_subs _ _ W) as [Wp Wq Wb Wl].
  destruct (Blob.enforce_pending_fees_split (blob_pool p) fees Wl Hfees)
    as (removed & x & -> & Wx & Sx & Hsp & Hfee).
  destruct (restate_split f Blob removed p (set_blob x p))
    as (p' & Hl & Hm); try done; [apply basefee_flags|by intros []|unfold room; simpl; by rewrite Sx|].
  exists removed, x, p'. split_and!; [done..|]. intros tx Htx. split; [by apply Hfee|]. by apply (sf_in _ _ _ Hsp).
Qed.

(** A transaction that entered the pending sub-pool by such a move is one of those
    taken out. *)
Lemma promoted_removed f removed k p p' i tx :
  pool_wf p → moved f removed p p' → (∀ tx, tx ∈ removed → sub_txs p k !! transaction_id tx = Some tx) →
  sub_txs p' Pending !! i = Some tx → sub_txs p Pending !! i = Some tx ∨ tx ∈ removed.
Proof.
  intros W H Hin Hi. destruct (moved_pending _ _ _ _ _ _ W H Hi) as [[_ ?]|(Hr & t & Ht & <- & _)]; [by left|right].
  apply list_elem_of_fmap in Hr as (tx & -> & Htx). specialize (Hin tx Htx).
  apply (tr_sync _ _ W) in Hin as (t' & Ht' & <- & _). congruence.
Qed.

Lemma update_basefee_lemma fee p :
  pool_wf p → is_u128 fee → room p (all_len (all_transactions p)) →
  let old := pending_fees (all_transactions p) in
  ∃ p', update_basefee fee p = Done ((fee ?= pf_base_fee old)%Z, p') ∧
    fees_updated (mkPendingFees fee (pf_blob_fee old)) p p' ∧
    (affords p ∨ pf_base_fee old < fee → affords p').
Proof.
  intros W Hfee Hroom old. unfold update_basefee. fold old. set (fees := mkPendingFees fee (pf_blob_fee old)).
  assert (W1 : pool_wf (set_fees fees p)) by (apply pool_wf_block; [done|split; [apply W|done]]).
  destruct (Z.compare_spec fee (pf_base_fee old)) as [E|E|E].
  - exists (set_fees fees p). split_and!; [done|by apply fees_updated_refl|]. intros [Ha|?]; [|lia].
    intros i tx Hi. simpl. rewrite E. by apply (Ha i).
  - destruct (lower_lemma fee _ W1 Hroom) as (removed & x & p' & Hx & Hl & Hm & Hin).
    change (basefee_pool (set_fees fees p)) with (basefee_pool p) in *. rewrite Hx.
    cbn [mbind outcome_bind]. rewrite Hl. cbn. exists p'. split_and!; [done|by eapply moved_fees_updated|].
    intros [Ha|?]; [|lia]. intros i tx Hi. rewrite (mv_all _ _ _ _ Hm). simpl.
    destruct (promoted_removed _ _ BaseFee _ _ _ _ W1 Hm (λ tx H, proj2 (Hin tx H)) Hi) as [Hp|Hr].
    + specialize (Ha i tx Hp). fold old in Ha. lia.
    + by apply Hin.
  - pose proof (raise_lemma fee _ W1 Hroom) as Hr. change (pending_pool (set_fees fees p)) with (pending_pool p) in *.
    destruct (Pending.update_base_fee fee (pending_pool p)) as [removed x].
    destruct Hr as (Hkept & p' & -> & Hm). cbn. exists p'. split_and!; [done|by eapply moved_fees_updated|].
    intros _ i tx Hi. rewrite (mv_all _ _ _ _ Hm). simpl.
    destruct (demoted_pending _ _ _ _ _ _ (or_introl eq_refl) W1 Hm Hi) as [Hn Hp]. by apply (Hkept i).
Qed.

Lemma update_blob_fee_lemma fee ordering p :
  pool_wf p → is_u128 fee → room p (all_len (all_transactions p)) →
  let old := pending_fees (all_transactions p) in
  ∃ p', update_blob_fee fee ordering p = Done p' ∧
    fees_updated (mkPendingFees (pf_base_fee old) fee) p p' ∧ (affords p → affords p') ∧
    (pf_blob_fee old < fee → ordering ≠ Lt → blobs_only p').
Proof.
  intros W Hfee Hroom old. unfold update_blob_fee. fold old. set (fees := mkPendingFees (pf_base_fee old) fee).
  assert (Hf : Blob.fees_ok fees) by (split; [done|apply W]).
  assert (W1 : pool_wf (set_fees fees p)) by (by apply pool_wf_block).
  assert (Hsame : ∃ p', Done (set_fees fees p) = Done p' ∧ fees_updated fees p p' ∧ (affords p → affords p')).
  { exists (set_fees fees p). split_and!; [done|by apply fees_updated_refl|done]. }
  assert (Hup : ∃ p', (let '(removed, x) := Pending.update_blob_fee fee (pending_pool (set_fees fees p)) in
      for_each (restate (λ s, st_remove s ENOUGH_BLOB_FEE_CAP_BLOCK)) removed (set_pending x (set_fees fees p)))
      = Done p' ∧ fees_updated fees p p' ∧ (affords p → affords p') ∧ blobs_only p').
  { pose proof (raise_blob_lemma fee _ W1 Hroom) as Hr. destruct (Pending.update_blob_fee _ _) as [removed x].
    destruct Hr as (Hkept & p' & -> & Hm). exists p'. split_and!; [done|by eapply moved_fees_updated|..].
    - intros Ha i tx Hi. rewrite (mv_all _ _ _ _ Hm). simpl.
      destruct (demoted_pending _ _ _ _ _ _ (or_intror eq_refl) W1 Hm Hi) as [_ Hp]. by apply (Ha i).
    - intros i tx Hi. destruct (demoted_pending _ _ _ _ _ _ (or_intror eq_refl) W1 Hm Hi) as [Hn Hp].
      specialize (Hkept i tx Hp Hn). by destruct (max_fee_per_blob_gas tx). }
  assert (Hdown : ∃ p', ('(removed, x) ← Blob.enforce_pending_fees (pending_fees (all_transactions (set_fees fees p)))
        (blob_pool (set_fees fees p));
      for_each (restate (λ s, st_insert (st_insert s ENOUGH_BLOB_FEE_CAP_BLOCK) ENOUGH_FEE_CAP_BLOCK)) removed
        (set_blob x (set_fees fees p))) = Done p' ∧ fees_updated fees p p' ∧ (affords p → affords p')).
  { destruct (lower_blob_lemma fees _ W1 Hf Hroom) as (removed & x & p' & Hx & Hl & Hm & Hin).
    exists p'. change (pending_fees (all_transactions (set_fees fees p))) with fees. rewrite Hx.
    cbn [mbind outcome_bind]. split_and!; [done|by eapply moved_fees_updated|].
    intros Ha i tx Hi. rewrite (mv_all _ _ _ _ Hm). simpl.
    destruct (promoted_removed _ _ Blob _ _ _ _ W1 Hm (λ tx H, proj2 (Hin tx H)) Hi) as [Hp|Hr]; [by apply (Ha i)|].
    by apply Hin. }
  destruct (Z.compare_spec fee (pf_blob_fee old)) as [E|E|E], ordering;
    (destruct Hsame as (p1 & ? & ? & ?), Hup as (p2 & ? & ? & ? & ?), Hdown as (p3 & ? & ? & ?));
    first [exists p1; split_and!; [done|done|done|lia]|exists p3; split_and!; [done|done|done|done || lia]
          |exists p2; by split_and!].
Qed.

Lemma set_block_info_lemma info p :
  pool_wf p → room p (2 * all_len (all_transactions p)) →
  let old := pending_fees (all_transactions p) in
  let fees := mkPendingFees (bi_pending_basefee info) (default (pf_blob_fee old) (bi_pending_blob_fee info)) in
  Blob.fees_ok fees →
  ∃ p', set_block_info info p = Done p' ∧ pool_wf p' ∧ config p' = config p ∧
    block_info p' = mkBlockInfo (bi_last_seen_block_hash info) (bi_last_seen_block_number info)
      (pf_base_fee fees) (Some (pf_blob_fee fees)) ∧
    by_hash (all_transactions p') = by_hash (all_transactions p) ∧
    (affords p ∨ pf_base_fee old < pf_base_fee fees → affords p').
Proof.
  intros W Hroom old fees [Hblob Hbase]. unfold set_block_info.
  set (p0 := set_all _ p). assert (W0 : pool_wf p0) by (apply pool_wf_block; [done|apply W]).
  assert (Hlen : 0 ≤ all_len (all_transactions p)) by (unfold all_len; lia).
  destruct (update_basefee_lemma (bi_pending_basefee info) p0 W0 Hbase) as (p1 & -> & H1 & Ha1).
  { eapply room_weaken; [|exact Hroom]. change (all_len (all_transactions p0)) with (all_len (all_transactions p)). lia. }
  cbn [mbind outcome_bind]. change (affords p0) with (affords p) in Ha1.
  destruct (bi_pending_blob_fee info) as [b|] eqn:Hb; simpl in fees.
  - destruct (update_blob_fee_lemma b ((bi_pending_basefee info ?= pf_base_fee old)%Z) p1 (fu_wf _ _ _ H1) Hblob)
      as (p2 & Hu & H2 & Ha2 & Hb2).
    { rewrite (fu_len _ _ _ H1). apply (fu_room _ _ _ H1); [done|]. eapply room_weaken; [|exact Hroom].
      change (all_len (all_transactions p0)) with (all_len (all_transactions p)). lia. }
    exists p2. split_and!; [exact Hu|apply H2|by rewrite (fu_config _ _ _ H2), (fu_config _ _ _ H1)| |by rewrite (fu_hash _ _ _ H2), (fu_hash _ _ _ H1)|by auto].
    unfold block_info. rewrite (fu_fees _ _ _ H2), (fu_fees _ _ _ H1).
    destruct (fu_block _ _ _ H2) as [-> ->], (fu_block _ _ _ H1) as [-> ->]. done.
  - exists p1. split_and!; [done|apply H1|apply H1| |apply H1|by auto].
    unfold block_info. rewrite (fu_fees _ _ _ H1). by destruct (fu_block _ _ _ H1) as [-> ->].
Qed.

(** Taking over the information of a new head: whatever combination of rising
    and falling fees it brings, the operation succeeds, no transaction is lost or
    gained, the pool reports the new information, the set of all transactions and
    the sub-pools agree, and if every pending transaction could pay the old base
    fee, or the base fee rises, then every pending transaction can pay the new
    one. *)
Theorem set_block_info_ok info p :
  pool_wf p → room p (2 * all_len (all_transactions p)) →
  let old := pending_fees (all_transactions p) in
  let fees := mkPendingFees (bi_pending_basefee info) (default (pf_blob_fee old) (bi_pending_blob_fee info)) in
  Blob.fees_ok fees →
  ∃ p', set_block_info info p = Done p' ∧ pool_wf p' ∧ config p' = config p ∧
    block_info p' = mkBlockInfo (bi_last_seen_block_hash info) (bi_last_seen_block_number info)
      (pf_base_fee fees) (Some (pf_blob_fee fees)) ∧
    by_hash (all_transactions p') = by_hash (all_transactions p) ∧
    (affords p ∨ pf_base_fee old < pf_base_fee fees → affords p').
Proof. apply set_block_info_lemma. Qed.

(** When the blob fee rises and the base fee does not fall, taking over the new
    fees empties the pending sub-pool of every transaction that carries no blob: what
    is pending afterwards has a blob fee cap. *)
Theorem blob_fee_rise_parks_ordinary info fee p :
  pool_wf p → room p (2 * all_len (all_transactions p)) →
  let old := pending_fees (all_transactions p) in
  is_u128 (bi_pending_basefee info) → bi_pending_blob_fee info = Some fee → is_u128 fee →
  pf_base_fee old ≤ bi_pending_basefee info → pf_blob_fee old < fee →
  ∃ p', set_block_info info p = Done p' ∧
    ∀ i tx, sub_txs p' Pending !! i = Some tx → is_Some (max_fee_per_blob_gas tx).
Proof.
  intros W Hroom old Hbase Hb Hfee Hle Hlt. unfold set_block_info. rewrite Hb.
  set (p0 := set_all _ p). assert (W0 : pool_wf p0) by (apply pool_wf_block; [done|apply W]).
  change (all_len (all_transactions p)) with (all_len (all_transactions p0)) in Hroom.
  assert (Hlen : 0 ≤ all_len (all_transactions p0)) by (unfold all_len; lia).
  destruct (update_basefee_lemma (bi_pending_basefee info) p0 W0 Hbase) as (p1 & -> & H1 & _).
  { eapply room_weaken; [|exact Hroom]. lia. }
  cbn [mbind outcome_bind].
  destruct (update_blob_fee_lemma fee ((bi_pending_basefee info ?= pf_base_fee old)%Z) p1 (fu_wf _ _ _ H1) Hfee)
    as (p2 & Hu & _ & _ & Hb2).
  { rewrite (fu_len _ _ _ H1). apply (fu_room _ _ _ H1); [done|]. eapply room_weaken; [|exact Hroom]. lia. }
  exists p2. split; [exact Hu|]. apply Hb2.
  - rewrite (fu_fees _ _ _ H1). exact Hlt.
  - destruct (Z.compare_spec (bi_pending_basefee info) (pf_base_fee old)); [done|lia|done].
Qed.
End fees.
