(* ===== verification/PoolEvict.v ===== *)
(** * Eviction

    [TxPool::discard_worst] and [TxPool::remove_descendants]
    ([reth/crates/transaction-pool/src/pool/txpool.rs]): every sub-pool is brought
    within its limit, and with a transaction go all its descendants. *)

From stdpp Require Import prelude gmap list sorting.
From S2P Require Import Prelude.
From S2P Require Import Ord.
From S2P Require Import Identifier.
From S2P Require Import State.
From S2P Require Import PoolTx.
From S2P Require Import SubPools.
From S2P Require Parked.
From S2P Require Blob.
From S2P Require Pending.
From S2P Require Import AllTxs.
From S2P Require Import Errors.
From S2P Require Import TxPool.
From S2P Require Import PoolOps.
From S2P Require Import PoolFees.

#[local] Existing Instances Parked.parked_ops Parked.parked_laws Blob.blob_ops Blob.blob_laws
  Pending.pending_ops Pending.pending_laws.
#[local] Arguments sub_txs : simpl never.

(** ** Descendants *)
Section descendants.
Implicit Types (i j id : TransactionId) (a : AllTransactions).

(** [j] is a transaction of the same sender with a nonce that is not lower, or
    that is higher. *)
Definition covers i j : Prop := sender j = sender i ∧ nonce i ≤ nonce j.
Definition later i j : Prop := sender j = sender i ∧ nonce i < nonce j.

#[export] Instance covers_dec i j : Decision (covers i j).
Proof. unfold covers. apply _. Defined.
#[export] Instance later_dec i j : Decision (later i j).
Proof. unfold later. apply _. Defined.

Lemma covers_later i j : covers i j ↔ j = i ∨ later i j.
Proof.
  unfold covers, later. split.
  - intros [Hs Hn]. destruct (decide (nonce i = nonce j)); [left|right; lia].
    destruct i, j; simpl in *. congruence.
  - intros [->|[? ?]]; lia.
Qed.

Lemma elem_of_descendant_txs_exclusive i a j t :
  (j, t) ∈ descendant_txs_exclusive i a ↔ txs a !! j = Some t ∧ later i j.
Proof.
  unfold descendant_txs_exclusive, later. split.
  - intros [Hj Hs]%take_while_incl. apply elem_of_bmap_range_after in Hj as [? Hc].
    apply Z.eqb_eq in Hs. simpl in Hs. destruct i, j. rewrite tid_cmp_lt in Hc. simpl in *. split; [done|lia].
  - intros (Hj & Hs & Hn). eapply (take_while_prefix_closed key_lt).
    + apply StronglySorted_filter, bmap_iter_sorted.
    + apply elem_of_bmap_range_after. split; [done|]. destruct i, j; simpl in *. rewrite tid_cmp_lt. lia.
    + simpl. apply Z.eqb_eq. lia.
    + intros [k u] Hk Hlt. apply elem_of_bmap_range_after in Hk as [_ Hk]. apply Z.eqb_eq.
      destruct i, j, k; unfold key_lt in *; simpl in *. rewrite tid_cmp_lt in Hk, Hlt. lia.
Qed.

(** The first descendant: all others come after it. *)
Lemma descendant_txs_exclusive_head i a d t l :
  descendant_txs_exclusive i a = (d, t) :: l →
  txs a !! d = Some t ∧ later i d ∧ ∀ j u, txs a !! j = Some u → later i j → covers d j.
Proof.
  intros E. assert ((d, t) ∈ descendant_txs_exclusive i a) as [Hd Hl]%elem_of_descendant_txs_exclusive
    by (rewrite E; left).
  split_and!; [done|done|]. intros j u Hj Hij.
  assert ((j, u) ∈ descendant_txs_exclusive i a) as Hin by (by apply elem_of_descendant_txs_exclusive).
  assert (Hs : StronglySorted key_lt (descendant_txs_exclusive i a)).
  { eapply StronglySorted_sublist; [apply take_while_sublist|]. apply StronglySorted_filter, bmap_iter_sorted. }
  rewrite E in Hin, Hs. apply covers_later. apply elem_of_cons in Hin as [[= -> ->]|Hin]; [by left|right].
  apply StronglySorted_inv in Hs as [_ Hall]. rewrite Forall_forall in Hall. specialize (Hall _ Hin).
  destruct i, d, j; unfold later, key_lt in *; simpl in *. rewrite tid_cmp_lt in Hall. lia.
Qed.

Lemma descendant_txs_exclusive_nil i a j u :
  descendant_txs_exclusive i a = [] → txs a !! j = Some u → ¬ later i j.
Proof.
  intros E Hj Hl. assert ((j, u) ∈ descendant_txs_exclusive i a) as Hin
    by (by apply elem_of_descendant_txs_exclusive). rewrite E in Hin. by apply elem_of_nil in Hin.
Qed.
End descendants.

(** ** Removing descendants *)
Section remove_descendants.
Context {TO : TransactionOrdering}.
Implicit Types (p : TxPool) (ov : gmap TransactionId (option SubPool)) (id : TransactionId).

(** The sub-pools lose transactions and nothing else changes. *)
Record shrinks p p' : Prop := {
  sh_subs k : sub_txs p' k ⊆ sub_txs p k;
  sh_env : same_env p p';
  sh_room n : room p n → room p' n;
}.

Lemma shrinks_refl p : shrinks p p.
Proof. by split. Qed.

Lemma shrinks_trans p1 p2 p3 : shrinks p1 p2 → shrinks p2 p3 → shrinks p1 p3.
Proof.
  intros [S1 E1 R1] [S2 E2 R2]. split; [intros k; etrans; [apply S2|apply S1]|by eapply same_env_trans|by auto].
Qed.

(** Overrides for transactions that are not stored do not matter. *)
Lemma transit_irrelevant ov ov' p :
  (∀ i, is_Some (txs (all_transactions p) !! i) → ov' !! i = ov !! i) → transit ov p → transit ov' p.
Proof.
  intros He [Wa Ws Wy Wf]. split; [done|done| |done]. revert Wy. apply synced_ext. intros i k tx.
  unfold place. split; intros (t & Ht & ?); exists t; (split; [done|]); [rewrite He by eauto|rewrite <-He by eauto]; done.
Qed.

(** Dropping one transaction, which may already be out of its sub-pool. *)
Lemma drop_one ov p d t :
  transit ov p → (∀ i o, ov !! i = Some o → o = None) → txs (all_transactions p) !! d = Some t →
  ∃ p', remove_transaction d p = Done (if decide (ov !! d = Some None) then None else Some (itx t), p') ∧
    transit ov p' ∧ txs (all_transactions p') = delete d (txs (all_transactions p)) ∧ shrinks p p'.
Proof.
  intros T Hov Hd. destruct (transit_remove_transaction ov p d t T Hd) as (otx & p' & -> & T' & Ha & Hs & Hc & Hr & -> & Hsub).
  { unfold place. destruct (ov !! d) as [o|] eqn:E; [right; by rewrite (Hov d o E)|by left]. }
  exists p'. split_and!; [done| |by rewrite Ha|].
  - revert T'. apply transit_irrelevant. rewrite Ha. simpl. intros i [t' Ht']. apply lookup_delete_Some in Ht' as [Hne _].
    by rewrite lookup_delete_ne.
  - split; [|by split_and!; rewrite ?Ha|done]. intros k. apply map_subseteq_spec. intros j tx. rewrite Hsub.
    by case_decide.
Qed.

(** [remove_descendants] drops exactly the descendants and reports those it took
    out of a sub-pool. *)
Lemma remove_descendants_ok ov fuel id acc p :
  transit ov p → (∀ i o, ov !! i = Some o → o = None) → (size (txs (all_transactions p)) ≤ fuel)%nat →
  ∃ rem p', remove_descendants fuel id (acc, p) = Done (acc ++ rem, p') ∧ transit ov p' ∧
    txs (all_transactions p') = filter (λ e, ¬ later id e.1) (txs (all_transactions p)) ∧
    (∀ tx, tx ∈ rem ↔ ∃ i t, later id i ∧ txs (all_transactions p) !! i = Some t ∧ itx t = tx ∧ ov !! i = None) ∧
    shrinks p p'.
Proof.
  intros T Hov. revert id acc p T. induction fuel as [|fuel IH]; intros id acc p T Hfuel; cbn [remove_descendants fst snd].
  all: destruct (descendant_txs_exclusive id (all_transactions p)) as [|[d t] l] eqn:E.
  1,3: exists [], p; rewrite app_nil_r; pose proof (descendant_txs_exclusive_nil id (all_transactions p)) as Hn;
    split_and!; [done|done|symmetry; apply map_filter_id; eauto|intros tx; rewrite elem_of_nil; naive_solver|apply shrinks_refl].
  { apply descendant_txs_exclusive_head in E as [Hd _].
    pose proof (map_size_ne_0_lookup_2 (txs (all_transactions p)) d ltac:(by eexists)). lia. }
  apply descendant_txs_exclusive_head in E as (Hd & Hid & Hmin).
  destruct (drop_one ov p d t T Hov Hd) as (p1 & -> & T1 & Htx1 & S1). cbn [mbind outcome_bind].
  set (acc1 := acc ++ _). destruct (IH d acc1 p1 T1) as (rem & p2 & -> & T2 & Htx2 & Hrem & S2).
  { rewrite Htx1, map_size_delete_Some by eauto. lia. }
  eexists _, p2. unfold acc1. rewrite <-(assoc_L (++)). split_and!; [done|done| | |by eapply shrinks_trans].
  - rewrite Htx2, Htx1. apply map_eq. intros j. apply option_eq. intros u.
    rewrite !map_lookup_filter_Some, lookup_delete_Some. simpl. split.
    + intros [[Hne Hj] Hn]. split; [done|]. intros Hl. specialize (Hmin j u Hj Hl).
      apply covers_later in Hmin as [->|?]; done.
    + intros [Hj Hn]. split_and!; [by intros ->|done|]. unfold later in *. lia.
  - intros tx. rewrite elem_of_app, Hrem, Htx1. split.
    + intros [Hx|(i & u & Hl & Hi & <- & Ho)].
      * case_decide as Eo; [by apply elem_of_nil in Hx|]. apply list_elem_of_singleton in Hx as ->.
        exists d, t. split_and!; [done..|]. destruct (ov !! d) as [o|] eqn:Eo'; [|done]. by rewrite (Hov d o Eo') in Eo.
      * apply lookup_delete_Some in Hi as [_ Hi]. exists i, u. split_and!; [|done..]. unfold later in *. lia.
    + intros (i & u & Hl & Hi & <- & Ho). pose proof (Hmin i u Hi Hl) as [->|Hdi]%covers_later.
      * left. rewrite decide_False by congruence. apply list_elem_of_singleton. congruence.
      * right. exists i, u. split_and!; [done| |done|done]. apply lookup_delete_Some. split; [|done].
        intros <-. unfold later in Hdi. lia.
Qed.

(** Dropping a transaction that is out of its sub-pool from the set. *)
Lemma drop_out ov p id :
  transit ov p → ov !! id = Some None →
  let p1 := set_all (AllTxs.remove_transaction id (all_transactions p)).2 p in
  transit ov p1 ∧ txs (all_transactions p1) = delete id (txs (all_transactions p)) ∧ shrinks p p1.
Proof.
  intros T Ho. rewrite (remove_transaction_ok _ id (tr_all _ _ T)).
  destruct (txs (all_transactions p) !! id) as [t|] eqn:Ht; simpl.
  - split_and!; [|done|by split; [|split_and!|]].
    apply (transit_irrelevant (delete id ov)).
    { simpl. intros i [t' Ht']. apply lookup_delete_Some in Ht' as [Hne _]. by rewrite lookup_delete_ne. }
    split; simpl; [by apply drop_entry_wf; [apply T|]|by destruct (tr_subs _ _ T)| |apply T].
    apply (synced_same _ _ p); [done|]. apply synced_drop. rewrite override_id by done. apply T.
  - assert (set_all (all_transactions p) p = p) as -> by (by destruct p).
    split_and!; [done|by rewrite delete_id|apply shrinks_refl].
Qed.

(** One round of the loop over the transactions a sub-pool gave up. *)
Lemma discard_removed_ok ov fuel tx acc p :
  transit ov p → (∀ i o, ov !! i = Some o → o = None) → ov !! transaction_id tx = Some None →
  (size (txs (all_transactions p)) ≤ fuel)%nat →
  ∃ rem p', discard_removed fuel tx (acc, p) = Done (acc ++ tx :: rem, p') ∧ transit ov p' ∧
    txs (all_transactions p') = filter (λ e, ¬ covers (transaction_id tx) e.1) (txs (all_transactions p)) ∧
    (∀ x, x ∈ rem ↔ ∃ i t, later (transaction_id tx) i ∧ txs (all_transactions p) !! i = Some t ∧ itx t = x ∧
                      ov !! i = None) ∧
    shrinks p p'.
Proof.
  intros T Hov Ho Hfuel. unfold discard_removed. cbn [fst snd].
  destruct (drop_out ov p (transaction_id tx) T Ho) as (T1 & Htx1 & S1). set (p1 := set_all _ p) in *.
  destruct (remove_descendants_ok ov fuel (transaction_id tx) (acc ++ [tx]) p1 T1 Hov)
    as (rem & p2 & -> & T2 & Htx2 & Hrem & S2).
  { rewrite Htx1. etrans; [|exact Hfuel]. apply map_subseteq_size, delete_subseteq. }
  exists rem, p2. rewrite <-(assoc_L (++)). split_and!; [done|done| | |by eapply shrinks_trans].
  - rewrite Htx2, Htx1. apply map_eq. intros j. apply option_eq. intros u.
    rewrite !map_lookup_filter_Some, lookup_delete_Some. simpl. rewrite covers_later. naive_solver.
  - intros x. rewrite Hrem, Htx1. setoid_rewrite lookup_delete_Some. split; [naive_solver|].
    intros (i & t & Hl & Hi & ?). exists i, t. split_and!; [done| |done|naive_solver..].
    intros <-. unfold later in Hl. lia.
Qed.

Lemma discard_loop_removed ov fuel removed acc p :
  transit ov p → (∀ i o, ov !! i = Some o → o = None) →
  (∀ tx, tx ∈ removed → ov !! transaction_id tx = Some None) → (size (txs (all_transactions p)) ≤ fuel)%nat →
  ∃ rem p', for_each (discard_removed fuel) removed (acc, p) = Done (acc ++ rem, p') ∧ transit ov p' ∧
    txs (all_transactions p') =
      filter (λ e, Forall (λ tx, ¬ covers (transaction_id tx) e.1) removed) (txs (all_transactions p)) ∧
    (∀ x, x ∈ rem ↔ x ∈ removed ∨
       ∃ i t, txs (all_transactions p) !! i = Some t ∧ itx t = x ∧ ov !! i = None ∧
         Exists (λ tx, later (transaction_id tx) i) removed) ∧
    shrinks p p'.
Proof.
  intros T Hov. revert acc p T. induction removed as [|tx removed IH]; intros acc p T Hin Hfuel; cbn [for_each].
  { exists [], p. rewrite app_nil_r. split_and!; [done|done| | |apply shrinks_refl].
    - symmetry. apply map_filter_id. intros. by constructor.
    - intros x. rewrite elem_of_nil. split; [done|]. intros [[]|(i & t & _ & _ & _ & H)]. by apply Exists_nil in H. }
  destruct (discard_removed_ok ov fuel tx acc p T Hov (Hin tx ltac:(left)) Hfuel)
    as (rem1 & p1 & -> & T1 & Htx1 & Hrem1 & S1). cbn [mbind outcome_bind].
  destruct (IH (acc ++ tx :: rem1) p1 T1) as (rem & p2 & -> & T2 & Htx2 & Hrem2 & S2).
  { intros x Hx. apply Hin. by right. } { rewrite Htx1. etrans; [apply map_size_filter|done]. }
  eexists _, p2. rewrite <-(assoc_L (++)). split_and!; [done|done| | |by eapply shrinks_trans].
  - rewrite Htx2, Htx1, map_filter_filter. apply map_filter_ext. intros i t _. simpl. rewrite Forall_cons. tauto.
  - intros x. simpl. rewrite elem_of_cons, elem_of_app, Hrem1, Hrem2, elem_of_cons, Htx1.
    setoid_rewrite map_lookup_filter_Some. setoid_rewrite Exists_cons. simpl. split.
    + intros [->|[(i & t & ? & ? & ? & ?)|[?|(i & t & [? ?] & ? & ? & ?)]]]; [by left; left| |by left; right|];
        right; exists i, t; split_and!; auto.
    + intros [[->|?]|(i & t & Ht & Hx & Ho & He)]; [by left|by right; right; left|].
      right. destruct (decide (later (transaction_id tx) i)); [left; exists i, t; split_and!; auto|].
      right; right. exists i, t. split_and!; [done| |done|done|naive_solver].
      rewrite covers_later. intros [->|?]; [|done]. rewrite (Hin tx) in Ho by left. done.
Qed.
End remove_descendants.

(** ** Bringing a sub-pool within its limit *)
Section truncate.
Context {TO : TransactionOrdering}.
Implicit Types (p : TxPool) (k : SubPool).

Definition limit_of (c : PoolConfig) k : SubPoolLimit :=
  match k with
  | Pending => pending_limit c | BaseFee => basefee_limit c | Blob => blob_limit c | Queued => queued_limit c
  end.

Definition limits_ok (c : PoolConfig) : Prop :=
  ∀ k, 0 ≤ max_txs (limit_of c k) ∧ 0 ≤ max_size (limit_of c k).

(** What eviction needs of the pending sub-pool: the set of highest nonces misses no
    last transaction of a sender, and no transaction is local. *)
Record evictable p : Prop := {
  ec_covered : Pending.tops_covered (Pending.by_id (pending_pool p)) (Pending.highest_nonces (pending_pool p));
  ec_locals : Pending.no_locals (pending_pool p);
  ec_len : Pending.len (pending_pool p) < U64;
}.

Lemma sub_size p k : pool_wf p → (size (sub_txs p k) ≤ size (txs (all_transactions p)))%nat.
Proof.
  intros W. rewrite <-!size_dom. apply subseteq_size. intros i [tx Htx]%elem_of_dom.
  apply (tr_sync _ _ W) in Htx as (t & Ht & _). by apply elem_of_dom_2 in Ht.
Qed.

Lemma truncate_subpool_ok k fuel p :
  pool_wf p → limits_ok (config p) → (k = Pending → evictable p) →
  (size (txs (all_transactions p)) < fuel)%nat →
  ∃ removed p1, truncate_subpool k fuel p = Done (removed, p1) ∧ subs_ok p1 ∧ same_rest p p1 ∧
    (∀ k', k' ≠ k → sub_txs p1 k' = sub_txs p k') ∧ split_off (sub_txs p k) (sub_txs p1 k) removed ∧
    exceeds_limit k p1 = false ∧ (∀ n, room p n → room p1 n).
Proof.
  intros W Hlim Hev Hfuel. destruct (tr_subs _ _ W) as [Wp Wq Wb Wl]. pose proof (sub_size p k W) as Hsz.
  destruct (Hlim k) as [Hl1 Hl2]. unfold sub_txs in Hsz. rewrite ?map_size_fmap in Hsz.
  destruct k; cbn [truncate_subpool limit_of] in *; rewrite map_size_fmap in Hsz.
  - destruct (@Parked.parked_truncated Parked.QueuedOrd (queued_pool p) (queued_limit (config p)) fuel Wq ltac:(lia) Hl1 Hl2)
      as (r & x & -> & Hx & He). cbn. eexists r, _. split_and!; [done|by split; try done; apply He|done|by intros []| |done|].
    + exact (Parked.evicted_split _ _ _ Wq He).
    + unfold room. simpl. by rewrite (Parked.ev_counter _ _ _ He).
  - destruct (@Parked.parked_truncated Parked.BasefeeOrd (basefee_pool p) (basefee_limit (config p)) fuel Wb ltac:(lia) Hl1 Hl2)
      as (r & x & -> & Hx & He). cbn. eexists r, _. split_and!; [done|by split; try done; apply He|done|by intros []| |done|].
    + exact (Parked.evicted_split _ _ _ Wb He).
    + unfold room. simpl. by rewrite (Parked.ev_counter _ _ _ He).
  - destruct (Blob.blob_truncated (blob_pool p) (blob_limit (config p)) fuel Wl ltac:(lia) Hl1 Hl2)
      as (ev & x & -> & Wx & Hx & Ha & Hc). cbn. eexists _, _. split_and!; [done|by split|done|by intros []| |done|].
    + exact (Blob.blob_truncate_split _ _ _ Wl Wx Ha).
    + unfold room. simpl. by rewrite Hc.
  - destruct (Hev eq_refl) as [E1 E2 E3].
    destruct (Pending.pending_truncated (pending_pool p) (pending_limit (config p)) fuel Wp E1 E2 ltac:(lia) E3 Hl1 Hl2)
      as (r & x & -> & He & Hx). cbn. eexists r, _. split_and!; [done|by split; try done; apply He|done|by intros []| |done|].
    + exact (Pending.shrunk_split _ _ _ Wp He).
    + unfold room. simpl. by rewrite (Pending.sh_counter _ _ _ He).
Qed.

(** The limit, in terms of the content. *)
Lemma exceeds_limit_spec p k :
  subs_ok p → is_u64 (map_sum vtx_size (sub_txs p k)) →
  exceeds_limit k p =
  limit_is_exceeded (limit_of (config p) k) (Z.of_nat (size (sub_txs p k))) (map_sum vtx_size (sub_txs p k)).
Proof.
  intros [Wp Wq Wb Wl] Hu. destruct k; cbn [exceeds_limit limit_of].
  - unfold Parked.exceeds. f_equal; [exact (@sp_len_ok _ _ (@Parked.parked_laws Parked.QueuedOrd) (queued_pool p))|].
    exact (@sp_size_ok _ _ (@Parked.parked_laws Parked.QueuedOrd) (queued_pool p) Wq Hu).
  - unfold Parked.exceeds. f_equal; [exact (@sp_len_ok _ _ (@Parked.parked_laws Parked.BasefeeOrd) (basefee_pool p))|].
    exact (@sp_size_ok _ _ (@Parked.parked_laws Parked.BasefeeOrd) (basefee_pool p) Wb Hu).
  - unfold Blob.exceeds. f_equal; [exact (sp_len_ok (blob_pool p))|exact (sp_size_ok (blob_pool p) Wl Hu)].
  - unfold Pending.exceeds. f_equal; [exact (sp_len_ok (pending_pool p))|exact (sp_size_ok (pending_pool p) Wp Hu)].
Qed.
End truncate.

(** ** Bringing the pool within its limits *)
Section discard.
Context {TO : TransactionOrdering}.
Implicit Types (p : TxPool) (k : SubPool).

(** The transactions' sizes add up to a [usize]. *)
Definition fits p : Prop := map_sum vtx_size (itx <$> txs (all_transactions p)) < U64.

(** [rem] is what is gone, and with a transaction all its descendants are gone. *)
Record evicts p p' (rem : list ValidPoolTransaction) : Prop := {
  ex_shrinks : shrinks p p';
  ex_txs : txs (all_transactions p') ⊆ txs (all_transactions p);
  ex_removed x : x ∈ rem ↔
    ∃ i t, txs (all_transactions p) !! i = Some t ∧ itx t = x ∧ txs (all_transactions p') !! i = None;
  ex_closed i j : is_Some (txs (all_transactions p) !! i) → txs (all_transactions p') !! i = None →
    later i j → txs (all_transactions p') !! j = None;
}.

Lemma evicts_refl p : evicts p p [].
Proof.
  split; [apply shrinks_refl|done| |].
  - intros x. rewrite elem_of_nil. split; [done|]. intros (i & t & Ht & _ & Hn). congruence.
  - intros i j [t Ht] Hn. congruence.
Qed.

Lemma evicts_trans p1 p2 p3 r1 r2 : evicts p1 p2 r1 → evicts p2 p3 r2 → evicts p1 p3 (r1 ++ r2).
Proof.
  intros [S1 T1 R1 C1] [S2 T2 R2 C2]. split; [by eapply shrinks_trans|by etrans| |].
  - intros x. rewrite elem_of_app, R1, R2. split.
    + intros [(i & t & Ht & Hx & Hn)|(i & t & Ht & Hx & Hn)]; exists i, t; (split; [|split; [done|]]).
      * done.
      * by eapply lookup_weaken_None.
      * by eapply lookup_weaken.
      * done.
    + intros (i & t & Ht & Hx & Hn). destruct (txs (all_transactions p2) !! i) as [t'|] eqn:H2; [right|left; eauto].
      exists i, t'. split_and!; [done| |done]. apply (lookup_weaken _ (txs (all_transactions p1))) in H2; [congruence|done].
  - intros i j Hi Hn Hl. destruct (txs (all_transactions p2) !! i) eqn:H2; [by eapply C2; eauto|].
    eapply lookup_weaken_None; [by eapply C1|done].
Qed.

Lemma sub_subseteq ov p k : transit ov p → sub_txs p k ⊆ itx <$> txs (all_transactions p).
Proof.
  intros T. apply map_subseteq_spec. intros i tx Hi. apply (tr_sync _ _ T) in Hi as (t & Ht & <- & _).
  by rewrite lookup_fmap, Ht.
Qed.

Lemma sizes_nonneg p i tx : all_wf (all_transactions p) →
  (itx <$> txs (all_transactions p)) !! i = Some tx → 0 ≤ vtx_size tx.
Proof.
  intros W (t & <- & Ht)%lookup_fmap_Some. apply (vtx_ok_size _ (in_vtx _ _ (aw_tx _ W _ _ Ht))).
Qed.

Lemma fits_sub p m : all_wf (all_transactions p) → fits p → m ⊆ itx <$> txs (all_transactions p) →
  is_u64 (map_sum vtx_size m).
Proof.
  intros W Hf Hsub. pose proof (sizes_nonneg p) as Hnn. split.
  - apply map_sum_nonneg. intros i tx Hi. apply (Hnn i tx W). by eapply lookup_weaken.
  - eapply Z.le_lt_trans; [|exact Hf]. apply map_sum_subseteq; [done|]. intros i tx. by apply Hnn.
Qed.

(** Losing transactions keeps a sub-pool within its limit. *)
Lemma within_shrinks ov ov' p p' k :
  transit ov p → transit ov' p' → fits p → shrinks p p' → exceeds_limit k p = false → exceeds_limit k p' = false.
Proof.
  intros T T' Hf Hs. pose proof (sub_subseteq ov p k T) as Hsub. pose proof (sh_subs _ _ Hs k) as Hsub'.
  pose proof (fits_sub p _ (tr_all _ _ T) Hf Hsub) as Hu.
  assert (Hsub2 : sub_txs p' k ⊆ itx <$> txs (all_transactions p)) by (by etrans).
  rewrite !exceeds_limit_spec; [|apply T'|by eapply (fits_sub p); [apply T|..]|apply T|done].
  destruct (sh_env _ _ Hs) as (-> & _). unfold limit_is_exceeded. rewrite !orb_false_iff, !Z.ltb_ge.
  pose proof (map_subseteq_size _ _ Hsub'). intros [? ?]. split; [lia|]. etrans; [|done].
  apply map_sum_subseteq; [done|]. intros i tx Hi. apply (sizes_nonneg p i tx); [apply T|by eapply lookup_weaken].
Qed.

Lemma evicts_fits p p' r : all_wf (all_transactions p) → evicts p p' r → fits p → fits p'.
Proof.
  intros W He Hf. eapply Z.le_lt_trans; [|exact Hf]. apply map_sum_subseteq.
  - by apply map_fmap_mono, He.
  - intros i tx. by apply sizes_nonneg.
Qed.

(** What the loop over the transactions of one truncation establishes. *)
Lemma discard_split k removed fuel acc p p1 :
  pool_wf p → subs_ok p1 → same_rest p p1 → (∀ k', k' ≠ k → sub_txs p1 k' = sub_txs p k') →
  split_off (sub_txs p k) (sub_txs p1 k) removed → (∀ n, room p n → room p1 n) →
  (size (txs (all_transactions p)) ≤ fuel)%nat →
  transit (out removed) p1 ∧
  ∃ rem p2, for_each (discard_removed fuel) removed (acc, p1) = Done (acc ++ rem, p2) ∧
    pool_wf p2 ∧ shrinks p1 p2 ∧ evicts p p2 rem.
Proof.
  intros W Ws (Ha & Hsi & Hc) Hoth Hsp Hr Hfuel.
  pose proof (transit_split p p1 k removed W Ws Ha Hoth Hsp) as T1. split; [done|].
  assert (Hov : ∀ i o, out removed !! i = Some o → o = None).
  { intros i o Ho. destruct (decide (i ∈ transaction_id <$> removed)) as [Hi|Hi];
      [rewrite out_in in Ho by done|rewrite out_notin in Ho by done]; congruence. }
  destruct (discard_loop_removed (out removed) fuel removed acc p1 T1 Hov) as (rem & p2 & Hl & T2 & Htx & Hrem & S2).
  { intros tx Htx. apply out_in. by apply list_elem_of_fmap_2. } { by rewrite Ha. }
  rewrite Ha in Htx, Hrem. exists rem, p2. split; [done|].
  assert (Hgone : ∀ i t, txs (all_transactions p) !! i = Some t →
    txs (all_transactions p2) !! i = None ↔ Exists (λ tx, covers (transaction_id tx) i) removed).
  { intros i t Ht. rewrite Htx, map_lookup_filter_None. setoid_rewrite Ht.
    setoid_rewrite (Forall_Exists_neg (λ tx, covers (transaction_id tx) i) removed). split.
    - intros [?|Hn]; [done|]. apply dec_stable. exact (Hn t eq_refl).
    - intros He. right. intros ? [= <-]. simpl. tauto. }
  split_and!.
  - revert T2. apply transit_irrelevant. intros i [t Ht]. rewrite lookup_empty. symmetry. apply out_notin.
    rewrite Htx in Ht. apply map_lookup_filter_Some in Ht as [_ Hf]. intros (tx & -> & Hin)%list_elem_of_fmap.
    rewrite Forall_forall in Hf. apply (Hf tx Hin). simpl. apply covers_later. by left.
  - done.
  - split.
    + eapply shrinks_trans; [|exact S2]. split; [|by split_and!; rewrite ?Ha|done].
      intros k'. apply map_subseteq_spec. intros i tx Hi. destruct (decide (k' = k)) as [->|Hne];
        [by apply (sf_rest _ _ _ Hsp) in Hi as [? _]|by rewrite (Hoth k' Hne) in Hi].
    + rewrite Htx. apply map_filter_subseteq.
    + intros x. rewrite Hrem. split.
      * intros [Hx|(i & t & Ht & Hitx & _ & He)].
        { pose proof (sf_in _ _ _ Hsp x Hx) as (t & Ht & Hitx & _)%(tr_sync _ _ W).
          exists (transaction_id x), t. split_and!; [done..|]. apply (Hgone _ t Ht), Exists_exists.
          exists x. split; [done|]. apply covers_later. by left. }
        exists i, t. split_and!; [done..|]. apply (Hgone i t Ht).
        eapply Exists_impl; [exact He|]. intros tx Hlt. apply covers_later. by right.
      * intros (i & t & Ht & Hitx & Hn). apply (Hgone i t Ht) in Hn.
        destruct (decide (i ∈ transaction_id <$> removed)) as [Hi|Hi].
        { left. apply list_elem_of_fmap in Hi as (tx & -> & Hin).
          pose proof (sf_in _ _ _ Hsp tx Hin) as (t' & Ht' & Hitx' & _)%(tr_sync _ _ W). congruence. }
        right. exists i, t. split_and!; [done|done|by apply out_notin|]. apply Exists_exists in Hn as (tx & Hin & Hcov).
        apply Exists_exists. exists tx. split; [done|]. apply covers_later in Hcov as [->|?]; [|done].
        destruct Hi. by apply list_elem_of_fmap_2.
    + intros i j [t Ht] Hn Hij. apply (Hgone i t Ht) in Hn. destruct (txs (all_transactions p) !! j) as [u|] eqn:Hj.
      * apply (Hgone j u Hj). eapply Exists_impl; [exact Hn|]. unfold covers, later in *. simpl. lia.
      * rewrite Htx. apply map_lookup_filter_None. by left.
Qed.

Lemma discard_loop_within fuel k st :
  exceeds_limit k st.2 = false → discard_loop fuel (exceeds_limit k) (truncate_subpool k) st = Done st.
Proof. intros Hx. destruct fuel; cbn [discard_loop]; by rewrite Hx. Qed.

Lemma discard_subpool k fuel acc p :
  pool_wf p → limits_ok (config p) → fits p → (k = Pending → evictable p) →
  (size (txs (all_transactions p)) < fuel)%nat →
  ∃ rem p', discard_loop fuel (exceeds_limit k) (truncate_subpool k) (acc, p) = Done (acc ++ rem, p') ∧
    pool_wf p' ∧ exceeds_limit k p' = false ∧ evicts p p' rem.
Proof.
  intros W Hlim Hfit Hev Hfuel. destruct (exceeds_limit k p) eqn:Hx.
  2:{ exists [], p. rewrite app_nil_r. split_and!; [by apply discard_loop_within|done|done|apply evicts_refl]. }
  destruct fuel as [|fuel]; [lia|]. cbn [discard_loop fst snd]. rewrite Hx.
  destruct (truncate_subpool_ok k (S fuel) p W Hlim Hev Hfuel) as (removed & p1 & -> & Ws & Hrest & Hoth & Hsp & Hx1 & Hr).
  cbn [mbind outcome_bind].
  destruct (discard_split k removed (S fuel) acc p p1 W Ws Hrest Hoth Hsp Hr ltac:(lia))
    as (T1 & rem & p2 & -> & W2 & S2 & He). cbn [mbind outcome_bind].
  assert (Hx2 : exceeds_limit k p2 = false).
  { destruct Hrest as (Ha & _). apply (within_shrinks _ _ p1 p2 k T1 W2); [|done|done]. unfold fits. by rewrite Ha. }
  exists rem, p2. split_and!; [by apply discard_loop_within|done|done|done].
Qed.

Lemma evicts_size p p' r :
  evicts p p' r → (size (txs (all_transactions p')) ≤ size (txs (all_transactions p)))%nat.
Proof. intros He. by apply map_subseteq_size, He. Qed.

Lemma is_exceeded_spec p :
  is_exceeded p = exceeds_limit Blob p || exceeds_limit Pending p || exceeds_limit BaseFee p || exceeds_limit Queued p.
Proof. done. Qed.

(** The sub-pools one after the other: those already within their limit stay so. *)
Lemma discard_subpools fuel ks kept acc p :
  pool_wf p → limits_ok (config p) → fits p → (size (txs (all_transactions p)) < fuel)%nat →
  (∀ k, k ∈ ks → k = Pending → evictable p ∧ ∃ ks', ks = k :: ks' ∧ k ∉ ks') →
  (∀ k, k ∈ kept → exceeds_limit k p = false) →
  ∃ rem p', for_each (λ k st, discard_loop fuel (exceeds_limit k) (truncate_subpool k) st) ks (acc, p)
      = Done (acc ++ rem, p') ∧
    pool_wf p' ∧ (∀ k, k ∈ kept ++ ks → exceeds_limit k p' = false) ∧ evicts p p' rem.
Proof.
  revert kept acc p; induction ks as [|k ks IH]; intros kept acc p W Hlim Hfit Hfuel Hev Hkept; cbn [for_each].
  { exists [], p. rewrite !app_nil_r. split_and!; [done..|apply evicts_refl]. }
  destruct (discard_subpool k fuel acc p W Hlim Hfit) as (r1 & p1 & -> & W1 & Hx1 & He1); [|done|].
  { intros Hk. apply (Hev k ltac:(left) Hk). }
  cbn [mbind outcome_bind].
  assert (Hstay : ∀ k', exceeds_limit k' p = false → exceeds_limit k' p1 = false).
  { intros k'. apply (within_shrinks ∅ ∅ p p1 k'); [done..|apply He1]. }
  destruct (IH (kept ++ [k]) (acc ++ r1) p1) as (r2 & p2 & -> & W2 & Hx2 & He2).
  - done.
  - destruct (sh_env _ _ (ex_shrinks _ _ _ He1)) as (-> & _). done.
  - eapply evicts_fits; [apply W|done|done].
  - pose proof (evicts_size _ _ _ He1). lia.
  - intros k' Hk' ->. destruct (Hev Pending ltac:(by right) eq_refl) as (_ & ks' & [= -> ->] & Hn). done.
  - intros k' [Hk'|Hk'%list_elem_of_singleton]%elem_of_app; [by apply Hstay, Hkept|by subst].
  - exists (r1 ++ r2), p2. rewrite <-!(assoc_L (++)) in *. split_and!; [done|done|exact Hx2|by eapply evicts_trans].
Qed.

Lemma pool_wf_found p i t :
  pool_wf p → txs (all_transactions p) !! i = Some t → get_tx (hash (itx t)) p = Some (itx t).
Proof. intros W Ht. pose proof (tr_all _ _ W) as (? & ? & _)%all_wf_parts. by eapply hash_ok_found. Qed.

(** What is gone, by identifier and by hash. *)
Lemma gone_by_hash p p' x :
  pool_wf p → pool_wf p' → txs (all_transactions p') ⊆ txs (all_transactions p) →
  (∃ i t, txs (all_transactions p) !! i = Some t ∧ itx t = x ∧ txs (all_transactions p') !! i = None) ↔
  get_tx (hash x) p = Some x ∧ get_tx (hash x) p' = None.
Proof.
  intros W W' Hsub. split.
  - intros (i & t & Ht & <- & Hn). pose proof (pool_wf_found p i t W Ht) as F1. split; [done|].
    apply eq_None_not_Some. intros [y [Hy1 Hy2]%(pool_wf_hash p' _ _ W')].
    apply fmap_Some in Hy2 as (t' & Ht' & ->).
    pose proof (lookup_weaken _ _ _ _ Ht' Hsub) as Ht2. pose proof (pool_wf_found p _ t' W Ht2) as F2.
    rewrite Hy1, F1 in F2. injection F2 as F2. rewrite <-F2, (in_key _ _ (transit_entry _ _ _ _ W Ht)) in Ht'.
    congruence.
  - intros [[_ Hx]%(pool_wf_hash p _ _ W) Hn]. apply fmap_Some in Hx as (t & Ht & ->).
    eexists _, t. split_and!; [done|done|]. apply eq_None_not_Some. intros [t' Ht'].
    pose proof (lookup_weaken _ _ _ _ Ht' Hsub) as Ht2. rewrite Ht in Ht2. injection Ht2 as <-.
    rewrite (pool_wf_found p' _ t W' Ht') in Hn. done.
Qed.

Lemma discard_worst_lemma fuel p :
  pool_wf p → limits_ok (config p) → fits p → evictable p → (size (txs (all_transactions p)) < fuel)%nat →
  ∃ removed p', discard_worst fuel p = Done (removed, p') ∧ pool_wf p' ∧ config p' = config p ∧ is_exceeded p' = false ∧
    txs (all_transactions p') ⊆ txs (all_transactions p) ∧
    (∀ x, x ∈ removed ↔ get_tx (hash x) p = Some x ∧ get_tx (hash x) p' = None) ∧
    (∀ i j, is_Some (txs (all_transactions p) !! i) → txs (all_transactions p') !! i = None →
      later i j → txs (all_transactions p') !! j = None).
Proof.
  intros W Hlim Hfit Hev Hfuel. unfold discard_worst.
  destruct (discard_subpools fuel [Pending; BaseFee; Blob; Queued] [] [] p W Hlim Hfit Hfuel)
    as (rem & p' & -> & W' & Hx & He).
  - intros k Hk ->. split; [done|]. eexists. split; [done|]. set_solver.
  - by intros k ?%elem_of_nil.
  - exists rem, p'. split_and!; [done|done|apply (sh_env _ _ (ex_shrinks _ _ _ He))| |apply He| |apply He].
    + rewrite is_exceeded_spec, !Hx by set_solver. done.
    + intros x. rewrite (ex_removed _ _ _ He). by apply gone_by_hash, He.
Qed.

(** C14. If no pending transaction is local and the set of highest nonces misses no
    last transaction, evicting the worst transactions terminates, never panics, and
    leaves a pool that is within all four limits and whose set of all transactions
    agrees with its sub-pools.  It returns exactly the transactions that are gone,
    and no transaction is evicted without its descendants, across all sub-pools. *)
Theorem discard_worst_ok fuel p :
  pool_wf p → limits_ok (config p) → fits p → evictable p → (size (txs (all_transactions p)) < fuel)%nat →
  ∃ removed p', discard_worst fuel p = Done (removed, p') ∧ pool_wf p' ∧ config p' = config p ∧ is_exceeded p' = false ∧
    txs (all_transactions p') ⊆ txs (all_transactions p) ∧
    (∀ x, x ∈ removed ↔ get_tx (hash x) p = Some x ∧ get_tx (hash x) p' = None) ∧
    (∀ i j, is_Some (txs (all_transactions p) !! i) → txs (all_transactions p') !! i = None →
      later i j → txs (all_transactions p') !! j = None).
Proof. apply discard_worst_lemma. Qed.
End discard.
