(* ===== verification/PoolReturns.v ===== *)
(** * Eviction, whenever it returns

    [PoolEvict] shows that [TxPool::discard_worst] returns if no pending transaction is
    local and no last transaction is missing from the set of highest nonces.  Without
    these conditions its loops need not end; but when they end, what they did is right.
    This file shows so for every pool and every number of rounds. *)

From stdpp Require Import prelude gmap list sorting.
From S2P Require Import Prelude.
From S2P Require Import Ord.
From S2P Require Import Identifier.
From S2P Require Import State.
From S2P Require Import PoolTx.
From S2P Require Import SubPools.
From S2P Require Parked.
From S2P Require Blob.
From S2P Require Pending.
From S2P Require Import AllTxs.
From S2P Require Import TxPool.
From S2P Require Import PoolOps.
From S2P Require Import PoolFees.
From S2P Require Import PoolEvict.

#[local] Existing Instances Parked.parked_ops Parked.parked_laws Blob.blob_ops Blob.blob_laws
  Pending.pending_ops Pending.pending_laws.
#[local] Arguments sub_txs : simpl never.

(** ** More rounds do not change a result *)

(** A result that is there after [n] rounds is there after more. *)
Definition stable {A} (f : nat → outcome A) : Prop := ∀ n n' x, (n ≤ n')%nat → f n = Done x → f n' = Done x.

Lemma stable_for_each {A S} (f : nat → A → S → outcome S) l s :
  (∀ a s, stable (λ n, f n a s)) → stable (λ n, for_each (f n) l s).
Proof.
  intros Hf. revert s; induction l as [|a l IH]; intros s n n' x Hn E; [done|]. cbn [for_each] in *.
  apply bind_Done_inv in E as (s' & E1 & E2). rewrite (Hf a s n n' s' Hn E1). by apply (IH s' n n' x Hn E2).
Qed.

Section stability.
Context {TO : TransactionOrdering}.

Lemma stable_parked_loop `{PO : Parked.ParkedOrd} limit removed p :
  stable (λ n, Parked.truncate_loop n limit removed p).
Proof.
  intros n. revert removed p; induction n as [|n IH]; intros removed p n' x Hn E; cbn in E.
  - destruct n' as [|n']; cbn; by case_match.
  - destruct n' as [|n']; [lia|]. cbn. case_match; [|done]. apply bind_Done_inv in E as (e & -> & E).
    apply bind_Done_inv in E as ([r q] & Hs & E). cbn. rewrite Hs. cbn. by apply (IH r q n'); [lia|].
Qed.
Lemma stable_parked `{PO : Parked.ParkedOrd} limit p : stable (λ n, Parked.truncate_pool n limit p).
Proof. intros n n' x Hn. unfold Parked.truncate_pool. case_match; [done|]. by apply stable_parked_loop. Qed.

Lemma stable_blob limit p : stable (λ n, Blob.truncate_pool n limit p).
Proof.
  unfold Blob.truncate_pool. generalize (@nil ValidPoolTransaction) as removed. intros removed n. revert removed p.
  induction n as [|n IH]; intros removed p n' x Hn E; cbn in E.
  - destruct n' as [|n']; cbn; by case_match.
  - destruct n' as [|n']; [lia|]. cbn. case_match; [|done]. apply bind_Done_inv in E as (e & -> & E).
    apply bind_Done_inv in E as ([r q] & Hs & E). cbn. rewrite Hs. cbn. by apply (IH r q n'); [lia|].
Qed.

Lemma stable_descendants id st : stable (λ n, remove_descendants n id st).
Proof.
  intros n. revert id st; induction n as [|n IH]; intros id st n' x Hn E; cbn in E.
  - destruct n' as [|n']; cbn; by repeat case_match.
  - destruct n' as [|n']; [lia|]. cbn. case_match; [done|]. case_match. apply bind_Done_inv in E as ([o q] & -> & E).
    cbn. by apply (IH _ _ n'); [lia|].
Qed.
Lemma stable_removed tx st : stable (λ n, discard_removed n tx st).
Proof. intros n n' x Hn. unfold discard_removed. by apply stable_descendants. Qed.
End stability.

(** ** The pending sub-pool *)
Section pending.
Context {TO : TransactionOrdering}.
Implicit Types (p : Pending.PendingPool) (m : gmap TransactionId ValidPoolTransaction).

Lemma split_off_nil m : split_off m m [].
Proof. split; [constructor|by intros tx ?%elem_of_nil|]. intros i tx. split; [|by intros [? _]]. intros ?. split; [done|apply not_elem_of_nil]. Qed.
Lemma split_off_app m1 m2 m3 r1 r2 : split_off m1 m2 r1 → split_off m2 m3 r2 → split_off m1 m3 (r1 ++ r2).
Proof.
  intros [N1 I1 R1] [N2 I2 R2]. split.
  - rewrite fmap_app. apply NoDup_app. split_and!; [done| |done]. intros i Hi (tx & -> & Htx)%list_elem_of_fmap.
    by apply I2, R1 in Htx as [_ ?].
  - intros tx [Htx|Htx]%elem_of_app; [by apply I1|]. by apply I2, R1 in Htx as [? _].
  - intros i tx. rewrite R2, R1, fmap_app, elem_of_app. tauto.
Qed.

(** The part of the sub-pool that was given up, in any number of steps. *)
Record gives_up p p' (removed : list ValidPoolTransaction) : Prop := {
  gu_wf : Pending.pending_wf p';
  gu_counter : Pending.pd_submission_id p' = Pending.pd_submission_id p;
  gu_split : split_off (sp_txs p) (sp_txs p') removed;
}.
Lemma gives_up_nil p : Pending.pending_wf p → gives_up p p [].
Proof. intros W. split; [done|done|apply split_off_nil]. Qed.
Lemma gives_up_app p1 p2 p3 r1 r2 : gives_up p1 p2 r1 → gives_up p2 p3 r2 → gives_up p1 p3 (r1 ++ r2).
Proof. intros [W1 C1 S1] [W2 C2 S2]. split; [done|congruence|by eapply split_off_app]. Qed.
Lemma gives_up_one p i :
  Pending.pending_wf p →
  gives_up p (Pending.remove_transaction i p).2 (option_list (Pending.remove_transaction i p).1).
Proof.
  intros W. destruct (Pending.pending_remove_ok p i W) as (p' & -> & W' & Hc & Hb & _). simpl. split; [done|done|].
  simpl. rewrite Hb, fmap_delete. destruct (Pending.by_id p !! i) as [t|] eqn:Ht; simpl.
  - pose proof (iw_key (Pending.pd_index _ W) i t Ht) as [Hk _]. split.
    + apply NoDup_singleton.
    + intros tx ->%list_elem_of_singleton. rewrite Hk, lookup_fmap, Ht. done.
    + intros j tx. rewrite list_fmap_singleton, Hk, lookup_delete_Some, list_elem_of_singleton. naive_solver.
  - rewrite delete_id by (by rewrite lookup_fmap, Ht). apply split_off_nil.
Qed.
Lemma gives_up_ids ids acc p :
  Pending.pending_wf p →
  ∃ r, (Pending.remove_ids ids (acc, p)).1 = acc ++ r ∧ gives_up p (Pending.remove_ids ids (acc, p)).2 r.
Proof.
  revert acc p; induction ids as [|i ids IH]; intros acc p W.
  { exists []. rewrite app_nil_r. split; [done|by apply gives_up_nil]. }
  pose proof (gives_up_one p i W) as G. unfold Pending.remove_ids in *. simpl.
  destruct (Pending.remove_transaction i p) as [o p1]. simpl in G. destruct (IH (acc ++ option_list o) p1 (gu_wf _ _ _ G)) as (r & E & G').
  exists (option_list o ++ r). rewrite E, (assoc_L (++)). split; [done|by eapply gives_up_app].
Qed.
Lemma gives_up_loop fuel limit locals ol os v acc p st :
  Pending.pending_wf p → Pending.remove_loop fuel limit locals ol os v (acc, p) = Done st →
  ∃ r, st.1 = acc ++ r ∧ gives_up p st.2 r.
Proof.
  revert v acc p; induction fuel as [|fuel IH]; intros v acc p W; [done|]. cbn [Pending.remove_loop fst snd].
  destruct (Pending.scan_highest _ _ _ _ _ _ _) as [[early v1] ids].
  destruct (gives_up_ids ids acc p W) as (r & E & G). destruct (Pending.remove_ids ids (acc, p)) as [acc1 p1]. simpl in E, G.
  subst acc1. simpl. case_match; [intros [= <-]; by exists r|]. intros (r' & E' & G')%IH; [|apply G].
  exists (r ++ r'). rewrite E', (assoc_L (++)). split; [done|by eapply gives_up_app].
Qed.
Lemma gives_up_truncate fuel limit p r p' :
  Pending.pending_wf p → Pending.truncate_pool fuel limit p = Done (r, p') → gives_up p p' r.
Proof.
  intros W. unfold Pending.truncate_pool. case_match; [intros [= <- <-]; by apply gives_up_nil|].
  intros ([acc p1] & (r1 & E1 & G1)%gives_up_loop & E)%bind_Done_inv; [|done]. simpl in *. subst acc. revert E.
  case_match; [by intros [= <- <-]|]. intros (r2 & E2 & G2)%gives_up_loop; [|apply G1]. simpl in *. subst r.
  by eapply gives_up_app.
Qed.
End pending.

(** ** The whole pool *)
Section pool.
Context {TO : TransactionOrdering}.
Implicit Types (p : TxPool) (k : SubPool).

Lemma stable_truncate k p : k ≠ Pending → stable (λ n, truncate_subpool k n p).
Proof.
  intros Hk n n' x Hn. destruct k; [| | |done]; cbn [truncate_subpool]; intros ([r q] & E & ?)%bind_Done_inv.
  - by rewrite (stable_parked (PO := Parked.QueuedOrd) _ _ _ _ _ Hn E).
  - by rewrite (stable_parked (PO := Parked.BasefeeOrd) _ _ _ _ _ Hn E).
  - by rewrite (stable_blob _ _ _ _ _ Hn E).
Qed.

(** What a sub-pool gave up, when its truncation returned. *)
Lemma truncate_returned k fuel p removed p1 :
  pool_wf p → limits_ok (config p) → truncate_subpool k fuel p = Done (removed, p1) →
  subs_ok p1 ∧ same_rest p p1 ∧ (∀ k', k' ≠ k → sub_txs p1 k' = sub_txs p k') ∧
  split_off (sub_txs p k) (sub_txs p1 k) removed ∧ (∀ n, room p n → room p1 n).
Proof.
  intros W Hlim E. destruct (decide (k = Pending)) as [->|Hk].
  - cbn [truncate_subpool] in E. apply bind_Done_inv in E as ([r x] & E & [= <- <-]). destruct (tr_subs _ _ W) as [Wp Wq Wb Wl].
    pose proof (gives_up_truncate _ _ _ _ _ Wp E) as [W' C' S']. split_and!; [by split|done|by intros []|exact S'|].
    unfold room. simpl. by rewrite C'.
  - apply (stable_truncate k p Hk fuel (S (size (txs (all_transactions p))) + fuel)%nat) in E; [|lia].
    destruct (truncate_subpool_ok k (S (size (txs (all_transactions p))) + fuel) p W Hlim) as (r & q & E' & H1 & H2 & H3 & H4 & _ & H6);
      [done|lia|]. rewrite E' in E. injection E as <- <-. by split_and!.
Qed.

Lemma discard_loop_returned k fuel acc p st :
  pool_wf p → limits_ok (config p) → discard_loop fuel (exceeds_limit k) (truncate_subpool k) (acc, p) = Done st →
  ∃ rem, st.1 = acc ++ rem ∧ pool_wf st.2 ∧ exceeds_limit k st.2 = false ∧ evicts p st.2 rem.
Proof.
  revert acc p; induction fuel as [|fuel IH]; intros acc p W Hlim; cbn [discard_loop fst snd];
    destruct (exceeds_limit k p) eqn:Hx; try done.
  1,3: intros [= <-]; exists []; rewrite app_nil_r; split_and!; [done|done|done|apply evicts_refl].
  intros ([removed p1] & E & (st1 & E1 & E2)%bind_Done_inv)%bind_Done_inv.
  destruct (truncate_returned k _ p removed p1 W Hlim E) as (Ws & Hrest & Hoth & Hsp & Hr).
  apply (stable_for_each (λ n, discard_removed n) removed (acc, p1) stable_removed _
    (size (txs (all_transactions p)) + S fuel)%nat) in E1; [|lia].
  destruct (discard_split k removed (size (txs (all_transactions p)) + S fuel) acc p p1 W Ws Hrest Hoth Hsp Hr ltac:(lia))
    as (_ & rem & p2 & E1' & W2 & _ & He). rewrite E1' in E1. injection E1 as <-.
  apply IH in E2 as (rem' & E3 & W3 & Hx3 & He3); [|done|destruct (sh_env _ _ (ex_shrinks _ _ _ He)) as (-> & _); done].
  exists (rem ++ rem'). rewrite E3, (assoc_L (++)). split_and!; [done|done|done|by eapply evicts_trans].
Qed.

Lemma discard_pools_returned fuel ks acc p st :
  pool_wf p → limits_ok (config p) →
  for_each (λ k st, discard_loop fuel (exceeds_limit k) (truncate_subpool k) st) ks (acc, p) = Done st →
  ∃ rem, st.1 = acc ++ rem ∧ pool_wf st.2 ∧ evicts p st.2 rem ∧ (fits p → ∀ k, k ∈ ks → exceeds_limit k st.2 = false).
Proof.
  revert acc p; induction ks as [|k ks IH]; intros acc p W Hlim; cbn [for_each].
  { intros [= <-]. exists []. rewrite app_nil_r. split_and!; [done|done|apply evicts_refl|]. by intros _ k ?%elem_of_nil. }
  intros ([acc1 p1] & (r1 & E1 & W1 & Hx1 & He1)%discard_loop_returned & E)%bind_Done_inv; [|done|done]. simpl in *. subst acc1.
  apply IH in E as (r2 & E2 & W2 & He2 & Hx2); [|done|destruct (sh_env _ _ (ex_shrinks _ _ _ He1)) as (-> & _); done].
  exists (r1 ++ r2). rewrite E2, (assoc_L (++)). split_and!; [done|done|by eapply evicts_trans|].
  intros Hf k' [->|Hk']%elem_of_cons; [|by apply Hx2; [eapply evicts_fits; [apply W|..]|]].
  apply (within_shrinks ∅ ∅ p1 st.2 k); [done|done|by eapply evicts_fits; [apply W|..]|apply He2|done].
Qed.

(** Whenever eviction returns, the set of all transactions agrees with the sub-pools, what
    was reported is exactly what is gone, and with a transaction all its descendants are. *)
Lemma discard_worst_returned fuel p removed p' :
  pool_wf p → limits_ok (config p) → discard_worst fuel p = Done (removed, p') →
  pool_wf p' ∧ config p' = config p ∧ evicts p p' removed ∧
  (∀ x, x ∈ removed ↔ get_tx (hash x) p = Some x ∧ get_tx (hash x) p' = None) ∧
  (fits p → is_exceeded p' = false) ∧ (∀ n, room p n → room p' n).
Proof.
  intros W Hlim (rem & E & W' & He & Hx)%discard_pools_returned; [|done|done]. simpl in *. subst removed.
  split_and!; [done|apply (sh_env _ _ (ex_shrinks _ _ _ He))|done| | |apply (ex_shrinks _ _ _ He)].
  - intros x. rewrite (ex_removed _ _ _ He). by apply gone_by_hash, He.
  - intros Hf. specialize (Hx Hf). rewrite is_exceeded_spec, !Hx by set_solver. done.
Qed.

(** Nothing is evicted from a pool that is within its limits. *)
Lemma discard_worst_within fuel p : is_exceeded p = false → discard_worst fuel p = Done ([], p).
Proof.
  rewrite is_exceeded_spec, !orb_false_iff. intros [[[H1 H2] H3] H4]. unfold discard_worst. cbn [for_each].
  do 4 (rewrite discard_loop_within by done; cbn [mbind outcome_bind]). done.
Qed.
End pool.
