(* ===== verification/PoolSteps.v ===== *)
(** * Reachable pools

    The pool as a state machine: its operations as steps, the invariant of every
    reachable pool, and what the invariant says about the numbers the pool reports
    and the assertions the code makes about itself. *)

From stdpp Require Import prelude gmap list sorting.
From S2P Require Import Prelude.
From S2P Require Import Ord.
From S2P Require Import Identifier.
From S2P Require Import State.
From S2P Require Import PoolTx.
From S2P Require Import SubPools.
From S2P Require Parked.
From S2P Require Blob.
From S2P Require Pending.
From S2P Require Import AllTxs.
From S2P Require Import Errors.
From S2P Require Import TxPool.
From S2P Require Import PoolOps.
From S2P Require Import PoolFees.
From S2P Require Import PoolEvict.
From S2P Require Import PoolReturns.

#[local] Existing Instances Parked.SubmissionSenderId_cmp Parked.SubmissionSenderId_ord
  Parked.ParkedPoolTransaction_cmp Parked.ParkedPoolTransaction_ord Blob.BlobTransaction_cmp Blob.BlobTransaction_ord.
#[local] Existing Instances Parked.parked_ops Parked.parked_laws Blob.blob_ops Blob.blob_laws
  Pending.pending_ops Pending.pending_laws.
#[local] Arguments sub_txs : simpl never.

(** ** The code's own assertions *)
Section asserts.
Context {TO : TransactionOrdering}.

(** [ParkedPool::assert_invariants]. *)
Definition parked_assert_invariants (p : Parked.ParkedPool) : bool :=
  (Z.of_nat (size (Parked.by_id p)) =? Z.of_nat (length (Parked.best p))) &&
  (Z.of_nat (length (Parked.last_sender_submission p)) =? Z.of_nat (size (Parked.sender_transaction_count p))).

(** [BlobTransactions::assert_invariants]. *)
Definition blob_assert_invariants (p : Blob.BlobTransactions) : bool :=
  Z.of_nat (size (Blob.by_id p)) =? Z.of_nat (length (Blob.all p)).

(** [PendingPool::assert_invariants]. *)
Definition pending_assert_invariants (p : Pending.PendingPool) : bool :=
  (Z.of_nat (size (Pending.by_id p)) =? Z.of_nat (length (Pending.all p))) &&
  (Z.of_nat (length (Pending.independent_transactions p)) <=? Z.of_nat (length (Pending.all p))) &&
  (Z.of_nat (length (Pending.highest_nonces p)) <=? Z.of_nat (length (Pending.all p))) &&
  (Z.of_nat (length (Pending.highest_nonces p)) =? Z.of_nat (length (Pending.independent_transactions p))).

(** [AllTransactions::assert_invariants]. *)
Definition all_assert_invariants (a : AllTransactions) : bool :=
  Z.of_nat (size (by_hash a)) =? Z.of_nat (size (txs a)).

(** [PoolSize::assert_invariants], also the first assertion of
    [TxPool::assert_invariants]. *)
Definition size_assert_invariants (s : PoolSize) : bool :=
  ps_total s =? ps_pending s + ps_basefee s + ps_queued s + ps_blob s.

(** [TxPool::assert_invariants]. *)
Definition assert_invariants (p : TxPool) : bool :=
  size_assert_invariants (pool_sizes p) && all_assert_invariants (all_transactions p) &&
  pending_assert_invariants (pending_pool p) && parked_assert_invariants (basefee_pool p) &&
  parked_assert_invariants (queued_pool p) && blob_assert_invariants (blob_pool p).
End asserts.

(** ** The operations as steps *)
Section steps.
Context {TO : TransactionOrdering}.
Implicit Types (p : TxPool) (k : SubPool).

(** The operations through which the pool is changed, with their arguments and what they
    return. *)
Inductive op :=
| AddTransaction (tx : ValidPoolTransaction) (on_chain_balance on_chain_nonce : Z) (result : PoolError + AddedTransaction)
| RemoveTransactions (hashes : list Z) (removed : list ValidPoolTransaction)
| CanonicalStateChange (info : BlockInfo) (mined : list Z) (changed : gmap SenderId SenderInfo)
    (out : OnNewCanonicalStateOutcome)
| SetBlockInfo (info : BlockInfo)
| UpdateAccounts (changed : gmap SenderId SenderInfo) (out : UpdateOutcome)
| DiscardWorst (removed : list ValidPoolTransaction).

(** A call that returns: the transaction is a validated one whose nonce is not below the
    account's, fees have the width of their fields, and eviction may take any number of
    rounds. *)
Inductive step : op → TxPool → TxPool → Prop :=
| StepAdd p tx on_chain_balance on_chain_nonce r p' :
    vtx_ok tx → on_chain_nonce ≤ vtx_nonce tx →
    add_transaction tx on_chain_balance on_chain_nonce p = Done (r, p') →
    step (AddTransaction tx on_chain_balance on_chain_nonce r) p p'
| StepRemove p hashes removed p' :
    remove_transactions hashes p = Done (removed, p') → step (RemoveTransactions hashes removed) p p'
| StepCanonical p info mined changed out p' :
    is_u128 (bi_pending_basefee info) → (∀ fee, bi_pending_blob_fee info = Some fee → is_u128 fee) →
    on_canonical_state_change info mined changed p = Done (out, p') →
    step (CanonicalStateChange info mined changed out) p p'
| StepBlockInfo p info p' :
    is_u128 (bi_pending_basefee info) → (∀ fee, bi_pending_blob_fee info = Some fee → is_u128 fee) →
    set_block_info info p = Done p' → step (SetBlockInfo info) p p'
| StepAccounts p changed out p' :
    update_accounts changed p = Done (out, p') → step (UpdateAccounts changed out) p p'
| StepDiscard p fuel removed p' :
    discard_worst fuel p = Done (removed, p') → step (DiscardWorst removed) p p'.

(** Reachable from the empty pool, as long as the 64-bit submission counters have
    room for the additions of the next step. *)
Inductive reachable (min_blob_gasprice : Z) (cfg : PoolConfig) : TxPool → Prop :=
| ReachNew : reachable min_blob_gasprice cfg (TxPool_new min_blob_gasprice cfg)
| ReachStep p o p' :
    reachable min_blob_gasprice cfg p → room p (2 * all_len (all_transactions p) + 2) → step o p p' →
    reachable min_blob_gasprice cfg p'.
End steps.

(** ** The invariant of reachable pools *)
Section reach.
Context {TO : TransactionOrdering}.
Implicit Types (p : TxPool) (k : SubPool).

Lemma new_wf g cfg : is_u128 g → pool_wf (TxPool_new g cfg).
Proof.
  intros Hg. split.
  - apply all_new_wf.
  - split; [apply Pending.pending_new_wf|apply Parked.parked_default_wf|apply Parked.parked_default_wf|
      by apply Blob.blob_default_wf].
  - intros k i tx. unfold sub_txs. destruct k; simpl; rewrite lookup_fmap, lookup_empty; naive_solver.
  - by split.
Qed.

(** The counts of the sub-pools add up. *)
Lemma size_by_subpool (m : gmap TransactionId PoolInternalTransaction) :
  let n k := size (filter (λ e, subpool e.2 = k) m) in
  size m = (n Pending + n BaseFee + n Queued + n Blob)%nat.
Proof.
  cbv zeta. induction m as [|i t m Hi IH] using map_ind; [by rewrite !map_filter_empty, !map_size_empty|].
  rewrite map_size_insert_None by done.
  assert (Hf : ∀ k, size (filter (λ e, subpool e.2 = k) (<[i := t]> m)) =
    ((if decide (subpool t = k) then 1 else 0) + size (filter (λ e, subpool e.2 = k) m))%nat).
  { intros k. case_decide as E.
    - rewrite map_filter_insert_True by done. rewrite map_size_insert_None; [done|].
      apply map_lookup_filter_None. by left.
    - rewrite map_filter_insert_False, delete_id by done. done. }
  rewrite !Hf. destruct (subpool t); simpl; lia.
Qed.

Lemma sub_txs_filter p k :
  pool_wf p → sub_txs p k = itx <$> filter (λ e, subpool e.2 = k) (txs (all_transactions p)).
Proof.
  intros W. apply map_eq. intros i. apply option_eq. intros tx.
  rewrite (tr_sync _ _ W k i tx), lookup_fmap_Some. setoid_rewrite map_lookup_filter_Some.
  setoid_rewrite pool_wf_place. naive_solver.
Qed.

Lemma sub_size_filter p k :
  pool_wf p → size (sub_txs p k) = size (filter (λ e, subpool e.2 = k) (txs (all_transactions p))).
Proof. intros W. by rewrite (sub_txs_filter p k W), map_size_fmap. Qed.

(** A pool's reported counts are those of its content. *)
Lemma pool_sizes_spec p :
  pool_sizes p = mkPoolSize
    (Z.of_nat (size (sub_txs p Pending))) (Pending.pool_size (pending_pool p))
    (Z.of_nat (size (sub_txs p Blob))) (Blob.pool_size (blob_pool p))
    (Z.of_nat (size (sub_txs p BaseFee))) (Parked.pool_size (basefee_pool p))
    (Z.of_nat (size (sub_txs p Queued))) (Parked.pool_size (queued_pool p))
    (all_len (all_transactions p)).
Proof. unfold pool_sizes, sub_txs. by rewrite !map_size_fmap. Qed.

Lemma total_is_sum p : pool_wf p → size_assert_invariants (pool_sizes p) = true.
Proof.
  intros W. rewrite pool_sizes_spec. apply Z.eqb_eq. simpl. unfold all_len.
  rewrite (size_by_subpool (txs (all_transactions p))), !sub_size_filter by done. lia.
Qed.

Lemma fees_of_info info p :
  pool_wf p → is_u128 (bi_pending_basefee info) → (∀ fee, bi_pending_blob_fee info = Some fee → is_u128 fee) →
  Blob.fees_ok (mkPendingFees (bi_pending_basefee info)
    (default (pf_blob_fee (pending_fees (all_transactions p))) (bi_pending_blob_fee info))).
Proof. intros W Hb Hf. split; [|done]. simpl. destruct (bi_pending_blob_fee info); [by apply Hf|apply W]. Qed.

(** Every step that starts in a well-formed pool ends in one. *)
Lemma step_wf o p p' :
  pool_wf p → limits_ok (config p) → room p (2 * all_len (all_transactions p) + 2) → step o p p' →
  pool_wf p' ∧ config p' = config p.
Proof.
  intros W Hlim Hroom Hstep. assert (Hlen : 0 ≤ all_len (all_transactions p)) by (unfold all_len; lia).
  destruct Hstep as [p tx bal nonce r p' Hok Hn Hrun|p hashes removed p' Hrun|p info mined changed out p' Hb Hf Hrun
    |p info p' Hb Hf Hrun|p changed out p' Hrun|p fuel removed p' Hrun].
  - assert (Hr : room p (all_len (all_transactions p) + 2)) by (eapply room_weaken; [|exact Hroom]; lia).
    pose proof (add_transaction_lemma tx bal nonce p W Hok Hn Hr) as H.
    destruct (contains (hash tx) p); [rewrite H in Hrun; by injection Hrun as _ <-|]. destruct (insert_error _ _ _ _) as [e|].
    + rewrite H in Hrun. injection Hrun as _ <-. destruct W as [? [] Wy ?]. split; [|done]. split; [done|done| |done].
      revert Wy. by apply synced_same.
    + destruct H as (r' & p2 & H & Hadd). rewrite H in Hrun. injection Hrun as _ <-. split; apply Hadd.
  - destruct (remove_loop hashes [] p W) as (r & p2 & H & Hp & _). unfold remove_transactions in Hrun.
    rewrite H in Hrun. injection Hrun as _ <-. split; [apply Hp|apply (pr_env _ _ _ Hp)].
  - destruct (canonical_lemma info mined changed p W) as (o & p2 & H & W2 & Hc & _).
    + eapply room_weaken; [|exact Hroom]. lia.
    + by apply fees_of_info.
    + rewrite H in Hrun. injection Hrun as _ <-. done.
  - destruct (set_block_info_lemma info p W) as (p2 & H & W2 & Hc & _).
    + eapply room_weaken; [|exact Hroom]. lia.
    + by apply fees_of_info.
    + rewrite H in Hrun. injection Hrun as <-. done.
  - destruct (update_accounts_lemma changed p W) as (o & p2 & H & H2).
    + eapply room_weaken; [|exact Hroom]. lia.
    + rewrite H in Hrun. injection Hrun as _ <-. split; apply H2.
  - by destruct (discard_worst_returned fuel p removed p' W Hlim Hrun) as (? & ? & _).
Qed.

Lemma reachable_inv g cfg p : is_u128 g → limits_ok cfg → reachable g cfg p → pool_wf p ∧ config p = cfg.
Proof.
  intros Hg Hlim. induction 1 as [|p o p' _ [IH Hc] Hroom Hstep]; [by split; [apply new_wf|]|].
  rewrite <-Hc in Hlim. destruct (step_wf o p p' IH Hlim Hroom Hstep) as [W' Hc']. split; [done|congruence].
Qed.

(** C15. In every pool that additions, removals, new blocks, fee and account updates and
    evictions reach from the empty one, each transaction known by its hash is stored in
    exactly one sub-pool, each transaction of a sub-pool is known by its hash, a sender
    has at most one transaction per nonce, the sender counters count the sender's
    transactions, and the reported total is the sum of the four reported counts.  Every
    call that returns is a step, evictions with local transactions included.  The
    transactions added were validated, with a nonce that is not below the account's, fees
    have the width of their fields, and before each step the submission counters have room
    for its additions. *)
Theorem reachable_consistent g cfg p :
  is_u128 g → limits_ok cfg → reachable g cfg p →
  (∀ h tx, get_tx h p = Some tx →
    hash tx = h ∧ ∃ k, ∀ k', sub_txs p k' !! transaction_id tx = Some tx ↔ k' = k) ∧
  (∀ k i tx, sub_txs p k !! i = Some tx → transaction_id tx = i ∧ get_tx (hash tx) p = Some tx) ∧
  (∀ h h' tx tx', get_tx h p = Some tx → get_tx h' p = Some tx' → transaction_id tx = transaction_id tx' → tx = tx') ∧
  (∀ s, default 0 (tx_counter (all_transactions p) !! s) = nb_of_sender s (txs (all_transactions p))) ∧
  size_assert_invariants (pool_sizes p) = true.
Proof.
  intros Hg Hlim Hr. destruct (reachable_inv g cfg p Hg Hlim Hr) as [W _]. split_and!.
  - intros h tx [Hh Htx]%(pool_wf_hash p _ _ W). split; [done|]. apply fmap_Some in Htx as (t & Ht & ->).
    exists (subpool t). intros k'. rewrite (tr_sync _ _ W k' _ _). setoid_rewrite pool_wf_place. naive_solver.
  - intros k i tx (t & Ht & <- & _)%(tr_sync _ _ W). split; [apply (transit_entry _ _ _ _ W Ht)|].
    by apply (pool_wf_found p i t).
  - intros h h' tx tx' [_ H1]%(pool_wf_hash p _ _ W) [_ H2]%(pool_wf_hash p _ _ W) E. congruence.
  - apply (tr_all _ _ W).
  - by apply total_is_sum.
Qed.
End reach.

(** ** Refinement

    What a user of the pool sees is a map from sender and nonce to transactions.  The
    specification says how each kind of operation may change it. *)
Section refinement.
Context {TO : TransactionOrdering}.
Implicit Types (p : TxPool) (m : gmap TransactionId ValidPoolTransaction).

Definition result_tx (r : AddedTransaction) : ValidPoolTransaction :=
  match r with AddedPending tx _ _ _ | AddedParked tx _ _ => tx end.
Definition result_replaced (r : AddedTransaction) : option ValidPoolTransaction :=
  match r with AddedPending _ old _ _ | AddedParked _ old _ => old end.

(** How an operation with the given arguments changes the map, and what it returns. *)
Definition spec_step (o : op) (m m' : gmap TransactionId ValidPoolTransaction) : Prop :=
  match o with
  | AddTransaction tx _ _ (inl e) =>
    m' = m ∧ ((∃ i tx', m !! i = Some tx' ∧ hash tx' = hash tx) ↔ e = mkPoolError (hash tx) AlreadyImported)
  | AddTransaction tx _ _ (inr r) =>
    (∀ i tx', m !! i = Some tx' → hash tx' ≠ hash tx) ∧ m' = <[transaction_id tx := tx]> m ∧
    result_tx r = tx ∧ result_replaced r = m !! transaction_id tx
  | RemoveTransactions hashes removed =>
    m' = filter (λ e, hash e.2 ∉ hashes) m ∧ ∀ tx, tx ∈ removed ↔ m !! transaction_id tx = Some tx ∧ hash tx ∈ hashes
  | CanonicalStateChange info mined changed out =>
    m' = filter (λ e, hash e.2 ∉ mined ∧ stale changed e.1 = false) m ∧
    oc_block_hash out = bi_last_seen_block_hash info ∧ oc_mined out = mined ∧
    ∀ tx, tx ∈ oc_discarded out ↔
      m !! transaction_id tx = Some tx ∧ hash tx ∉ mined ∧ stale changed (transaction_id tx) = true
  | SetBlockInfo _ => m' = m
  | UpdateAccounts changed out =>
    m' = filter (λ e, stale changed e.1 = false) m ∧
    ∀ tx, tx ∈ discarded out ↔ m !! transaction_id tx = Some tx ∧ stale changed (transaction_id tx) = true
  | DiscardWorst removed =>
    m' = filter (λ e, e.2 ∉ removed) m ∧ (∀ tx, tx ∈ removed → m !! transaction_id tx = Some tx) ∧
    ∀ i j, is_Some (m !! i) → m' !! i = None → later i j → m' !! j = None
  end.

Definition content p : gmap TransactionId ValidPoolTransaction := itx <$> txs (all_transactions p).

Lemma content_hash p i tx :
  pool_wf p → content p !! i = Some tx ↔ transaction_id tx = i ∧ by_hash (all_transactions p) !! hash tx = Some tx.
Proof.
  intros W. unfold content. rewrite lookup_fmap, (pool_wf_hash p _ _ W). split.
  - intros H. pose proof H as (t & Ht & ->)%fmap_Some. rewrite (in_key _ _ (transit_entry _ _ _ _ W Ht)). done.
  - intros (<- & _ & ?). done.
Qed.

Lemma content_same p p' :
  (∀ i, itx <$> txs (all_transactions p') !! i = itx <$> txs (all_transactions p) !! i) → content p' = content p.
Proof. intros H. apply map_eq. intros i. unfold content. by rewrite !lookup_fmap. Qed.

Lemma added_content tx p r p' :
  pool_wf p → added tx p r p' → content p' = <[transaction_id tx := tx]> (content p).
Proof.
  intros W H. apply map_eq. intros i. destruct (decide (i = transaction_id tx)) as [->|Hne].
  - rewrite lookup_insert_eq. apply (content_hash p'); [apply H|]. split; [done|exact (ad_get _ _ _ _ H)].
  - rewrite lookup_insert_ne by done. unfold content. rewrite !lookup_fmap. by apply H.
Qed.

Lemma added_len tx p r p' :
  pool_wf p → added tx p r p' → all_len (all_transactions p') ≤ all_len (all_transactions p) + 1.
Proof.
  intros W H. pose proof (added_content tx p r p' W H) as E. unfold all_len.
  rewrite <-(map_size_fmap itx (txs (all_transactions p'))), <-(map_size_fmap itx (txs (all_transactions p))).
  fold (content p) (content p'). rewrite E, map_size_insert. destruct (content p !! transaction_id tx); simpl; lia.
Qed.

Lemma content_added tx bal nonce p r p' :
  pool_wf p → contains (hash tx) p = false → added tx p r p' →
  spec_step (AddTransaction tx bal nonce (inr r)) (content p) (content p').
Proof.
  intros W Hc H. split_and!; [|by apply (added_content tx p r)|..].
  - intros i tx' [_ Htx']%(content_hash p i tx' W) E. apply contains_hash_false in Hc. congruence.
  - by destruct r; destruct (ad_result _ _ _ _ H) as [-> _].
  - unfold content. rewrite lookup_fmap. pose proof (ad_result _ _ _ _ H) as Hr. destruct r; apply Hr.
Qed.

Lemma content_contains p h :
  pool_wf p → contains h p = true ↔ ∃ i tx, content p !! i = Some tx ∧ hash tx = h.
Proof.
  intros W. unfold contains, contains_hash. rewrite bool_decide_eq_true. split.
  - intros [tx Htx]. pose proof Htx as [<- _]%(pool_wf_hash p _ _ W). exists (transaction_id tx), tx.
    by rewrite (content_hash p _ _ W).
  - intros (i & tx & [_ Htx]%(content_hash p _ _ W) & <-). by eexists.
Qed.
Lemma insert_error_imported tx bal anc a e : insert_error tx bal anc a = Some e → pe_kind (pool_error e) ≠ AlreadyImported.
Proof.
  unfold insert_error, ensure_valid, ensure_valid_blob_transaction. intros H. repeat case_match; by simplify_eq/=.
Qed.

Lemma add_spec tx bal nonce p r p' :
  pool_wf p → vtx_ok tx → nonce ≤ vtx_nonce tx → room p (all_len (all_transactions p) + 2) →
  add_transaction tx bal nonce p = Done (r, p') → spec_step (AddTransaction tx bal nonce r) (content p) (content p').
Proof.
  intros W Hok Hn Hr Hrun. pose proof (add_transaction_lemma tx bal nonce p W Hok Hn Hr) as H.
  pose proof (content_contains p (hash tx) W) as Hin. destruct (contains (hash tx) p) eqn:Hc.
  { rewrite H in Hrun. injection Hrun as <- <-. simpl. naive_solver. }
  destruct (insert_error _ _ _ _) as [e|] eqn:Ee.
  - rewrite H in Hrun. injection Hrun as <- <-. split; [done|]. rewrite <-Hin. split; [done|]. intros E.
    by destruct (insert_error_imported _ _ _ _ _ Ee); rewrite E.
  - destruct H as (r' & p2 & H & Hadd). rewrite H in Hrun. injection Hrun as <- <-. by apply content_added.
Qed.
Lemma remove_spec hashes p removed p' :
  pool_wf p → remove_transactions hashes p = Done (removed, p') →
  spec_step (RemoveTransactions hashes removed) (content p) (content p').
Proof.
  intros W Hrun. destruct (remove_loop hashes [] p W) as (r & p2 & H & Hp & Hin). unfold remove_transactions in Hrun.
  rewrite H in Hrun. injection Hrun as <- <-. split.
  - unfold content. rewrite (pr_txs _ _ _ Hp). by rewrite map_filter_fmap.
  - intros tx. simpl. rewrite Hin, (content_hash p _ _ W). naive_solver.
Qed.
Lemma canonical_spec info mined changed p out p' :
  pool_wf p → room p (all_len (all_transactions p)) →
  is_u128 (bi_pending_basefee info) → (∀ fee, bi_pending_blob_fee info = Some fee → is_u128 fee) →
  on_canonical_state_change info mined changed p = Done (out, p') →
  spec_step (CanonicalStateChange info mined changed out) (content p) (content p').
Proof.
  intros W Hr Hb Hf Hrun. destruct (canonical_lemma info mined changed p W Hr) as (o & p2 & H & W2 & _ & _ & Hh & Hd & _);
    [by apply fees_of_info|]. pose proof Hrun as Hrun'. rewrite H in Hrun. injection Hrun as <- <-.
  assert (oc_block_hash o = bi_last_seen_block_hash info ∧ oc_mined o = mined) as [Eb Em].
  { unfold on_canonical_state_change in Hrun'. apply bind_Done_inv in Hrun' as (q & _ & Hrun').
    by apply bind_Done_inv in Hrun' as ([u q'] & _ & [= <- _]). }
  split_and!; [|done|done|].
  - apply map_eq. intros i. apply option_eq. intros tx.
    rewrite map_lookup_filter_Some, (content_hash p2), (content_hash p), Hh by done. simpl. naive_solver.
  - intros tx. rewrite Hd, (content_hash p _ _ W). unfold get_tx. naive_solver.
Qed.
Lemma accounts_spec changed p out p' :
  pool_wf p → room p (all_len (all_transactions p)) → update_accounts changed p = Done (out, p') →
  spec_step (UpdateAccounts changed out) (content p) (content p').
Proof.
  intros W Hr Hrun. destruct (update_accounts_lemma changed p W Hr) as (o & p2 & H & H2).
  rewrite H in Hrun. injection Hrun as <- <-. split.
  - apply map_eq. intros i. apply option_eq. intros tx.
    rewrite map_lookup_filter_Some. unfold content. rewrite !lookup_fmap, (au_txs _ _ _ _ H2). simpl.
    destruct (stale changed i); naive_solver.
  - intros tx. rewrite (au_discarded _ _ _ _ H2). unfold content. rewrite lookup_fmap. split; [|naive_solver].
    intros (i & Hs & (t & Ht & ->)%fmap_Some). by rewrite (in_key _ _ (transit_entry _ _ _ _ W Ht)), Ht.
Qed.
Lemma discard_spec fuel p removed p' :
  pool_wf p → limits_ok (config p) → discard_worst fuel p = Done (removed, p') →
  spec_step (DiscardWorst removed) (content p) (content p').
Proof.
  intros W Hlim (W' & _ & He & Hin & _)%discard_worst_returned; [|done|done].
  assert (∀ tx, tx ∈ removed → content p !! transaction_id tx = Some tx) as Hr.
  { intros tx [Htx _]%Hin. by apply (content_hash p _ _ W). }
  split_and!; [|done|].
  - apply map_eq. intros i. apply option_eq. intros tx. rewrite map_lookup_filter_Some. simpl. unfold content in *.
    rewrite !lookup_fmap, !fmap_Some. split.
    + intros (t & Ht & ->). split; [exists t; split; [by eapply lookup_weaken; [|apply He]|done]|].
      intros (j & t' & Hj & E & Hn)%(ex_removed _ _ _ He). pose proof (lookup_weaken _ _ _ _ Ht (ex_txs _ _ _ He)) as Ht2.
      apply (transit_entry _ _ _ _ W) in Ht2, Hj. rewrite <-(in_key _ _ Hj), E, (in_key _ _ Ht2) in Hn. congruence.
    + intros [(t & Ht & ->) Hn]. destruct (txs (all_transactions p') !! i) as [t'|] eqn:E.
      * exists t'. split; [done|]. pose proof (lookup_weaken _ _ _ _ E (ex_txs _ _ _ He)). congruence.
      * destruct Hn. apply (ex_removed _ _ _ He). by exists i, t.
  - intros i j. unfold content. rewrite !lookup_fmap, fmap_is_Some, !fmap_None. apply (ex_closed _ _ _ He).
Qed.

(** C1. The pool refines the specification, operation by operation: what a call with the
    given arguments does to the map a user sees, and what it returns, is what the
    specification says for this operation.  A refused transaction changes nothing, and it
    is refused as already imported exactly if its hash is in the map; an accepted one, new
    by its hash, is put under its sender and nonce, and the one it replaces is returned.
    Removals take out and return exactly the transactions with the given hashes, a block
    takes out exactly the mined ones and those it makes stale and reports the latter, an
    account update exactly the stale ones, a fee update none.  Eviction returns exactly
    what it takes out, takes out no transaction without its later ones, leaves a pool
    within its limits if the sizes add up to a 64-bit number, and takes out nothing if the
    pool was within its limits.  Hypotheses: the pool is well formed with room in its
    submission counters, and the call is a step: it returns, a transaction that is added
    was validated with a nonce not below the account's, and fees have the width of their
    fields. *)
Theorem step_refines o p p' :
  pool_wf p → limits_ok (config p) → room p (2 * all_len (all_transactions p) + 2) → step o p p' →
  spec_step o (content p) (content p') ∧
  ∀ removed, o = DiscardWorst removed →
    (fits p → is_exceeded p' = false) ∧ (is_exceeded p = false → removed = [] ∧ p' = p).
Proof.
  intros W Hlim Hroom Hstep. assert (Hlen : 0 ≤ all_len (all_transactions p)) by (unfold all_len; lia).
  assert (∀ n, n ≤ 2 * all_len (all_transactions p) + 2 → room p n) as Hr by (intros n ?; by eapply room_weaken).
  destruct Hstep as [p tx bal nonce r p' Hok Hn Hrun|p hashes removed p' Hrun|p info mined changed out p' Hb Hf Hrun
    |p info p' Hb Hf Hrun|p changed out p' Hrun|p fuel removed p' Hrun]; (split; [|try done]).
  - apply add_spec; [done..|apply Hr; lia|done].
  - by apply remove_spec.
  - apply canonical_spec; [done|apply Hr; lia|done..].
  - destruct (set_block_info_lemma info p W) as (p2 & H & W2 & _ & _ & Hh & _); [apply Hr; lia|by apply fees_of_info|].
    rewrite H in Hrun. injection Hrun as <-.
    apply map_eq. intros i. apply option_eq. intros tx. by rewrite (content_hash p2), (content_hash p), Hh.
  - apply accounts_spec; [done|apply Hr; lia|done].
  - by eapply discard_spec.
  - intros ? [= <-]. split; [apply (discard_worst_returned fuel p removed p' W Hlim Hrun)|].
    intros Hx. rewrite (discard_worst_within fuel p Hx) in Hrun. by injection Hrun as <- <-.
Qed.
End refinement.

(** ** The assertions hold *)
Section hold.
Context {TO : TransactionOrdering}.

Lemma same_elements_length {A} (l1 l2 : list A) :
  NoDup l1 → NoDup l2 → (∀ x, x ∈ l1 ↔ x ∈ l2) → length l1 = length l2.
Proof. intros H1 H2 H. by apply Permutation_length, NoDup_Permutation. Qed.

(** A map whose values are distinct has as many entries as the list of its values. *)
Lemma values_NoDup {K V} `{Countable K} (m : gmap K V) :
  (∀ i j v, m !! i = Some v → m !! j = Some v → i = j) → NoDup (map_to_list m).*2.
Proof.
  intros Hinj. apply NoDup_fmap_2_strong; [|apply NoDup_map_to_list].
  intros [i v] [j w] Hi%elem_of_map_to_list Hj%elem_of_map_to_list E. simpl in E. subst w.
  by rewrite (Hinj i j v Hi Hj).
Qed.

Lemma elem_of_values {K V} `{Countable K} (m : gmap K V) v : v ∈ (map_to_list m).*2 ↔ ∃ i, m !! i = Some v.
Proof.
  rewrite list_elem_of_fmap. split.
  - intros ([i w] & -> & Hi%elem_of_map_to_list). by exists i.
  - intros [i Hi]. exists (i, v). split; [done|]. by apply elem_of_map_to_list.
Qed.

Lemma values_length {K V} `{Countable K} (m : gmap K V) (l : list V) :
  NoDup l → (∀ i j v, m !! i = Some v → m !! j = Some v → i = j) → (∀ v, v ∈ l ↔ ∃ i, m !! i = Some v) →
  length l = size m.
Proof.
  intros Hl Hinj Hin. rewrite <-length_map_to_list, <-(length_fmap snd (map_to_list m)).
  apply same_elements_length; [done|by apply values_NoDup|]. intros v. by rewrite Hin, elem_of_values.
Qed.

Lemma index_length {E} `{CmpOrd E} (etx : E → ValidPoolTransaction) (esub : E → Z) m n b sz :
  index_wf etx esub m n b sz → length b = size m.
Proof.
  intros Wi. apply values_length; [apply bset_wf_NoDup, Wi| |apply Wi].
  intros i j v Hi Hj. destruct (iw_key Wi i v Hi) as [<- _], (iw_key Wi j v Hj) as [<- _]. done.
Qed.

Lemma senders_length m n lss counts :
  Parked.senders_wf m n lss counts → length lss = size counts.
Proof.
  intros W. rewrite <-length_map_to_list.
  rewrite <-(length_fmap (λ e, Parked.mkSubmissionSenderId e.1 (Parked.last_submission_id e.2)) (map_to_list counts)).
  apply same_elements_length; [apply bset_wf_NoDup, W| |].
  - apply NoDup_fmap_2_strong; [|apply NoDup_map_to_list].
    intros [i c] [j d] Hi%elem_of_map_to_list Hj%elem_of_map_to_list [= <- _]. congruence.
  - intros [s sub]. rewrite (Parked.sw_lss _ _ _ _ W), list_elem_of_fmap. simpl. split.
    + intros (c & Hc & <-). exists (s, c). split; [done|]. by apply elem_of_map_to_list.
    + intros ([s' c] & [= -> ->] & Hc%elem_of_map_to_list). by exists c.
Qed.

Lemma parked_asserts `{PO : Parked.ParkedOrd} p : Parked.parked_wf p → parked_assert_invariants p = true.
Proof.
  intros W. unfold parked_assert_invariants.
  rewrite (index_length _ _ _ _ _ _ (Parked.pw_index _ W)), (senders_length _ _ _ _ (Parked.pw_senders _ W)).
  by rewrite !Z.eqb_refl.
Qed.

Lemma hashes_size a : all_wf a → size (by_hash a) = size (txs a).
Proof.
  intros W. pose proof W as (He & Hh & _)%all_wf_parts.
  rewrite <-(length_map_to_list (txs a)), <-(length_fmap (λ e, itx e.2) (map_to_list (txs a))). symmetry.
  apply values_length.
  - apply NoDup_fmap_2_strong; [|apply NoDup_map_to_list].
    intros [i t] [j u] Hi%elem_of_map_to_list Hj%elem_of_map_to_list E. simpl in E.
    assert (i = j) as <- by (rewrite <-(in_key _ _ (He i t Hi)), <-(in_key _ _ (He j u Hj)), E; done). congruence.
  - intros h h' tx [<- _]%Hh [<- _]%Hh. done.
  - intros tx. rewrite list_elem_of_fmap. split.
    + intros ([i t] & -> & Ht%elem_of_map_to_list). exists (hash (itx t)). by eapply hash_ok_found.
    + intros [h [_ Htx]%Hh]. apply fmap_Some in Htx as (t & Ht & ->). exists (transaction_id (itx t), t).
      split; [done|]. by apply elem_of_map_to_list.
Qed.

(** On a well-formed pool the code's own consistency assertions hold, all but one:
    the outcome of [assert_invariants] is that of the comparison of the number of
    highest nonces with the number of independent transactions. *)
Theorem assert_invariants_ok p :
  pool_wf p →
  assert_invariants p =
    (Z.of_nat (length (Pending.highest_nonces (pending_pool p))) =?
     Z.of_nat (length (Pending.independent_transactions (pending_pool p)))).
Proof.
  intros W. destruct (tr_subs _ _ W) as [Wp Wq Wb Wl]. unfold assert_invariants.
  rewrite (total_is_sum p W), (parked_asserts _ Wq), (parked_asserts _ Wb). unfold all_assert_invariants, blob_assert_invariants.
  rewrite (hashes_size _ (tr_all _ _ W)), (index_length _ _ _ _ _ _ (Blob.bw_index _ Wl)), !Z.eqb_refl.
  unfold pending_assert_invariants. rewrite (index_length _ _ _ _ _ _ (Pending.pd_index _ Wp)), Z.eqb_refl.
  pose proof (Pending.view_length _ _ (Pending.pd_highest _ Wp)).
  pose proof (Pending.view_length _ _ (Pending.pd_independent _ Wp)).
  rewrite !(proj2 (Z.leb_le _ _)) by lia. simpl. by rewrite !andb_true_r.
Qed.
End hold.

