(* ===== verification/InnerOps.v ===== *)
(** * Correctness of the pool's outer layer

    Theorems about [PoolInner]: it keeps [TxPool]'s invariant and the assignment of
    identifiers to addresses, tells the subscribers of every transaction that leaves
    the pool, and never loses the sidecar of a transaction that stays. *)

From stdpp Require Import prelude gmap list sorting.
From S2P Require Import Prelude.
From S2P Require Import Ord.
From S2P Require Import Identifier.
From S2P Require Import State.
From S2P Require Import PoolTx.
From S2P Require Import AllTxs.
From S2P Require Import Errors.
From S2P Require Import Events.
From S2P Require Import BlobStore.
From S2P Require Import TxPool.
From S2P Require Import Inner.
From S2P Require Blob.
From S2P Require Import PoolOps.
From S2P Require Import PoolFees.
From S2P Require Import PoolEvict.
From S2P Require Import PoolReturns.
From S2P Require Import PoolSteps.

Section inner.
Context {TO : TransactionOrdering} {S : Type} {BS : BlobStore S} {BL : BlobStoreLaws S}.
Implicit Types (i : PoolInner S) (tx : ValidPoolTransaction).

(** The transactions by their hashes. *)
Definition known i : gmap Z ValidPoolTransaction := by_hash (all_transactions (pool i)).

Record inner_wf i : Prop := {
  iw_pool : pool_wf (pool i);
  iw_limits : limits_ok (config (pool i));
  iw_ids : identifiers_wf (identifiers i);
  iw_senders h tx : known i !! h = Some tx →
    sender_id (identifiers i) (tx_sender (transaction tx)) = Some (vtx_sender_id tx);
  iw_events : broadcast_wf (event_listener i) (world i);
}.

Definition says (evs : list (Z * TransactionEvent)) i i' : Prop :=
  emits evs (event_listener i) (world i) (event_listener i') (world i').

(** ** Steps that report nothing *)

(** Neither the pool nor the identifiers change, and nothing is said about a
    transaction to its subscribers. *)
Record silent i i' : Prop := {
  si_ids : identifiers i' = identifiers i;
  si_pool : pool i' = pool i;
  si_listener : event_listener i' = event_listener i;
  si_log : ∃ att, log (world i') = log (world i) ++ att ∧ Forall plain att;
  si_chan : (next_chan (world i) ≤ next_chan (world i'))%nat;
}.

Lemma silent_refl i : silent i i.
Proof. split; try done. exists []. by rewrite app_nil_r. Qed.

Lemma silent_trans i1 i2 i3 : silent i1 i2 → silent i2 i3 → silent i1 i3.
Proof.
  intros [A1 A2 A3 (a & A4 & A4') A5] [B1 B2 B3 (b & B4 & B4') B5]. split; try congruence; [|lia].
  exists (a ++ b). rewrite B4, A4, (assoc_L (++)). split; [done|]. by apply Forall_app.
Qed.

Lemma silent_says i i' : inner_wf i → silent i i' → says [] i i'.
Proof.
  intros Hwf [_ _ He (att & Hl & Hp) Hn]. unfold says. rewrite He.
  eapply emits_plain; [apply Hwf|done..].
Qed.

Lemma says_wf evs i i' : says evs i i' → broadcast_wf (event_listener i') (world i').
Proof. by intros (_ & _ & ? & _). Qed.

Lemma silent_wf i i' : inner_wf i → silent i i' → inner_wf i'.
Proof.
  intros Hwf Hs. pose proof (says_wf _ _ _ (silent_says _ _ Hwf Hs)) as Hb.
  destruct Hwf, Hs as [Ei Ep _ _ _]. split; unfold known in *; rewrite ?Ei, ?Ep; done.
Qed.

(** A call that only touches the world by sending messages that are not events. *)
Definition quiet {A} (f : A → World → bool * World) : Prop :=
  ∀ x w, ∃ att, (f x w).2 = extend att w ∧ Forall plain att.

Lemma retain_quiet {A} (f : A → World → bool * World) l w :
  quiet f → ∃ att, (retain f l w).2 = extend att w ∧ Forall plain att.
Proof.
  intros Hf. revert w. induction l as [|x l IH]; intros w; simpl.
  { exists []. by rewrite extend_nil. }
  destruct (Hf x w) as (att & He & Hp). destruct (f x w) as [k w1]. simpl in *. subst w1.
  destruct (IH (extend att w)) as (att' & He' & Hp'). destruct (retain f l (extend att w)) as [l' w2].
  simpl in *. subst w2. exists (att ++ att'). rewrite extend_extend. split; [done|]. by apply Forall_app.
Qed.

Definition plain_msg (m : Message) : Prop := match m with MsgEvent _ _ => False | _ => True end.

Lemma send_all_quiet c msgs w :
  Forall plain_msg msgs → ∃ att, (send_all c msgs w).2 = extend att w ∧ Forall plain att.
Proof.
  intros Hm. revert w. induction Hm as [|m msgs Hm _ IH]; intros w.
  { exists []. by rewrite extend_nil. }
  simpl. set (r := schedule w (length (log w))).
  set (w1 := mkWorld (schedule w) (log w ++ [mkAttempt c m r]) (next_chan w)).
  assert (Hw1 : w1 = extend [mkAttempt c m r] w) by done.
  assert (Hone : Forall plain [mkAttempt c m r]) by (repeat constructor; exact Hm).
  destruct r; [|by exists [mkAttempt c m Full]|by exists [mkAttempt c m Closed]].
  destruct (IH w1) as (att & -> & Hp). exists ([mkAttempt c m Sent] ++ att).
  rewrite Hw1, extend_extend. split; [done|]. by apply Forall_app.
Qed.

Lemma hashes_plain k l : Forall plain_msg (pending_hashes k l).
Proof. unfold pending_hashes. apply Forall_fmap, Forall_true. done. Qed.
Lemma full_plain k l : Forall plain_msg (full_pending k l).
Proof. unfold full_pending. apply Forall_fmap, Forall_true. done. Qed.

Lemma set_pending_silent i lw att :
  lw.2 = extend att (world i) → Forall plain att → silent i (set_pending_listeners lw i).
Proof. intros E Hp. split; simpl; rewrite ?E; try done. by exists att. Qed.
Lemma set_transaction_silent i lw att :
  lw.2 = extend att (world i) → Forall plain att → silent i (set_transaction_listeners lw i).
Proof. intros E Hp. split; simpl; rewrite ?E; try done. by exists att. Qed.
Lemma set_sidecar_silent i lw att :
  lw.2 = extend att (world i) → Forall plain att → silent i (set_sidecar_listeners lw i).
Proof. intros E Hp. split; simpl; rewrite ?E; try done. by exists att. Qed.
Lemma set_store_silent i s : silent i (set_store s i).
Proof. split; try done. exists []. by rewrite app_nil_r. Qed.

Lemma guarded_quiet (g : Listener → bool) (msgs : Listener → list Message) :
  (∀ l, Forall plain_msg (msgs l)) →
  quiet (λ l w, if g l then let '(closed, w) := is_closed (ls_sender l) w in (negb closed, w)
                else send_all (ls_sender l) (msgs l) w).
Proof.
  intros Hm l w. destruct (g l); [|by apply send_all_quiet].
  exists [mkAttempt (ls_sender l) Probe (schedule w (length (log w)))]. split; [done|by repeat constructor].
Qed.

Lemma on_new_pending_silent tx l i : silent i (on_new_pending_transaction tx l i).
Proof.
  unfold on_new_pending_transaction.
  destruct (retain_quiet _ (pending_transaction_listener i) (world i)
    (guarded_quiet (λ l0, is_propagate_only (ls_kind l0) && negb (propagate tx))
       (λ l0, pending_hashes (ls_kind l0) (tx :: l)) (λ _, hashes_plain _ _))) as (att & E & Hp).
  by eapply set_pending_silent.
Qed.

Lemma on_new_transaction_silent e i : silent i (on_new_transaction e i).
Proof.
  unfold on_new_transaction.
  destruct (retain_quiet _ (transaction_listener i) (world i)
    (guarded_quiet (λ l0, is_propagate_only (ls_kind l0) && negb (propagate (ne_transaction e)))
       (λ _, [MsgNew e]) ltac:(by repeat constructor))) as (att & E & Hp).
  by eapply set_transaction_silent.
Qed.

Lemma on_new_blob_sidecar_silent h d i : silent i (on_new_blob_sidecar h d i).
Proof.
  unfold on_new_blob_sidecar.
  destruct (retain_quiet (λ c w, send_all c [MsgSidecar h d] w) (blob_transaction_sidecar_listener i) (world i))
    as (att & E & Hp).
  { intros c w. apply send_all_quiet. by repeat constructor. }
  by eapply set_sidecar_silent.
Qed.

(** ** Steps that report *)

Lemma report_says ks i : inner_wf i → says (ks ≫= events_of) i (report ks i).
Proof. intros Hwf. apply calls_emits, Hwf. Qed.

Lemma report_wf ks i : inner_wf i → inner_wf (report ks i).
Proof. intros Hwf. pose proof (says_wf _ _ _ (report_says ks i Hwf)). by destruct Hwf. Qed.

Lemma closes_elem h e evs : (h, e) ∈ evs → is_final e = true → closes h evs = true.
Proof.
  intros Hin Hf. apply existsb_exists. exists (h, e). split; [by apply list_elem_of_In|].
  simpl. by rewrite Z.eqb_refl.
Qed.

Lemma closes_call h k ks : k ∈ ks → closes h (events_of k) = true → closes h (ks ≫= events_of) = true.
Proof.
  intros (l1 & l2 & ->)%list_elem_of_split Hk. rewrite bind_app, bind_cons, !closes_app, Hk.
  by rewrite orb_true_r.
Qed.

Lemma closes_discarded h tx txs (ks : list Call) :
  tx ∈ txs → hash tx = h → ((λ tx, CallDiscarded (hash tx)) <$> txs) ⊆ ks → closes h (ks ≫= events_of) = true.
Proof.
  intros Hin <- Hsub. eapply (closes_call _ (CallDiscarded (hash tx))).
  - apply Hsub, list_elem_of_fmap. eauto.
  - eapply closes_elem; [by left|done].
Qed.

Lemma says_trans evs evs' i1 i2 i3 : says evs i1 i2 → says evs' i2 i3 → says (evs ++ evs') i1 i3.
Proof. apply emits_trans. Qed.

Lemma says_silent evs i1 i2 i3 : inner_wf i2 → says evs i1 i2 → silent i2 i3 → says evs i1 i3.
Proof.
  intros W H12 H23. rewrite <-(app_nil_r evs). eapply says_trans; [exact H12|by apply silent_says].
Qed.

(** Reporting after a change of the pool. *)
Lemma set_pool_says p i : inner_wf i → says [] i (set_pool p i).
Proof. intros Hwf. apply emits_refl, Hwf. Qed.

(** The pool changes to one that only knows transactions it knew before. *)
Lemma set_pool_wf p i :
  inner_wf i → pool_wf p → config p = config (pool i) → by_hash (all_transactions p) ⊆ known i →
  inner_wf (set_pool p i).
Proof.
  intros [Wp Wl Wi Ws We] W Hc Hsub. split; simpl; [done|by rewrite Hc|done| |done].
  intros h tx Hh. apply (Ws h). by eapply lookup_weaken.
Qed.

(** ** Identifiers *)

Record same_but_ids i i' : Prop := {
  sb_pool : pool i' = pool i;
  sb_store : blob_store i' = blob_store i;
  sb_listener : event_listener i' = event_listener i;
  sb_world : world i' = world i;
  sb_stable a s : sender_id (identifiers i) a = Some s → sender_id (identifiers i') a = Some s;
}.

Lemma same_but_ids_refl i : same_but_ids i i.
Proof. by split. Qed.

Lemma same_but_ids_trans i1 i2 i3 : same_but_ids i1 i2 → same_but_ids i2 i3 → same_but_ids i1 i3.
Proof. intros [] []. split; try congruence. eauto. Qed.

Lemma same_but_ids_wf i i' :
  inner_wf i → identifiers_wf (identifiers i') → same_but_ids i i' → inner_wf i'.
Proof.
  intros [Wp Wl Wi Ws We] Wi' [Ep _ Ee Ew Hst]. split; unfold known in *; rewrite ?Ep, ?Ee, ?Ew; try done.
  intros h tx Hh. eapply Hst, Ws, Hh.
Qed.

Lemma get_sender_id_ok a i :
  inner_wf i → si_id (identifiers i) + 1 < U64 →
  inner_wf (get_sender_id a i).2 ∧ same_but_ids i (get_sender_id a i).2 ∧
  sender_id (identifiers (get_sender_id a i).2) a = Some (get_sender_id a i).1 ∧
  si_id (identifiers (get_sender_id a i).2) ≤ si_id (identifiers i) + 1 ∧
  (∀ b s, sender_id (identifiers (get_sender_id a i).2) b = Some s → b ≠ a → sender_id (identifiers i) b = Some s).
Proof.
  intros Hwf Hroom. pose proof (iw_ids _ Hwf) as Wi. unfold get_sender_id.
  pose proof (sender_id_or_create_wf (identifiers i) a Wi Hroom) as W.
  pose proof (sender_id_or_create_found (identifiers i) a) as Hf.
  pose proof (sender_id_or_create_next (identifiers i) a Wi) as Hn.
  pose proof (λ b s, sender_id_or_create_stable (identifiers i) a b s Wi) as Hst.
  pose proof (sender_id_or_create_only (identifiers i) a) as Hon.
  destruct (sender_id_or_create (identifiers i) a) as [s t]. simpl in *.
  assert (Hsb : same_but_ids i (set_ids t i)) by (split; simpl; auto).
  split_and!; [by eapply same_but_ids_wf|done..].
Qed.

(** The entry that counts for an account is the last one. *)
Definition last_entry (a : Address) (accs : list ChangedAccount) : option ChangedAccount :=
  last (filter (λ acc, ca_address acc = a) accs).

Lemma last_entry_snoc a accs acc :
  last_entry a (accs ++ [acc]) = if decide (ca_address acc = a) then Some acc else last_entry a accs.
Proof.
  unfold last_entry. rewrite filter_app, filter_cons, filter_nil.
  case_decide; [by rewrite last_snoc|by rewrite app_nil_r].
Qed.

Lemma changed_senders_snoc accs acc i :
  changed_senders (accs ++ [acc]) i =
  let '(m, i) := changed_senders accs i in
  let '(s, i) := get_sender_id (ca_address acc) i in
  (<[s := mkSenderInfo (ca_nonce acc) (ca_balance acc)]> m, i).
Proof. unfold changed_senders. by rewrite foldl_app. Qed.

Lemma changed_senders_ok accs i :
  inner_wf i → si_id (identifiers i) + Z.of_nat (length accs) < U64 →
  let '(m, i') := changed_senders accs i in
  inner_wf i' ∧ same_but_ids i i' ∧
  si_id (identifiers i') ≤ si_id (identifiers i) + Z.of_nat (length accs) ∧
  (∀ a s, sender_id (identifiers i') a = Some s →
    m !! s = (λ acc, mkSenderInfo (ca_nonce acc) (ca_balance acc)) <$> last_entry a accs) ∧
  (∀ s, is_Some (m !! s) → ∃ a, sender_id (identifiers i') a = Some s).
Proof.
  intros Hwf. induction accs as [|acc accs IH] using rev_ind; intros Hroom.
  { split_and!; [done|apply same_but_ids_refl|simpl; lia|..]; intros *; rewrite lookup_empty; [done|by intros []]. }
  rewrite length_app in Hroom. simpl in Hroom. specialize (IH ltac:(lia)).
  rewrite changed_senders_snoc. destruct (changed_senders accs i) as [m i1].
  destruct IH as (W1 & Hs1 & Hn1 & Hm1 & Hd1).
  destruct (get_sender_id_ok (ca_address acc) i1 W1 ltac:(lia)) as (W2 & Hs2 & Hf2 & Hn2 & Hon).
  destruct (get_sender_id (ca_address acc) i1) as [s i2]. simpl in *.
  split_and!; [done|by eapply same_but_ids_trans|rewrite length_app; simpl; lia|..].
  - intros a s' Ha. rewrite last_entry_snoc. pose proof (idwf_inv _ (iw_ids _ W2)) as Hinv.
    case_decide as Hd.
    + subst a. assert (s' = s) as -> by congruence. by rewrite lookup_insert_eq.
    + assert (s' ≠ s). { intros ->. apply Hd. apply Hinv in Ha, Hf2. congruence. }
      rewrite lookup_insert_ne by done.
      apply Hm1, Hon; congruence.
  - intros s' Hs'. destruct (decide (s' = s)) as [->|Hne]; [eauto|].
    rewrite lookup_insert_ne in Hs' by done. destruct (Hd1 s' Hs') as [a Ha]. exists a. by apply Hs2.
Qed.

(** ** Effects of the operations *)

(** A stretch that reports [evs]: a transaction that left is reported with a final
    event, and the sidecar of one that was there before and after is untouched. *)
Record stepped (evs : list (Z * TransactionEvent)) i i' : Prop := {
  sp_wf : inner_wf i';
  sp_says : says evs i i';
  sp_left h : is_Some (known i !! h) → known i' !! h = None → closes h evs = true;
  sp_keeps h : is_Some (known i !! h) → is_Some (known i' !! h) →
    (bs_get h (blob_store i')).1 = (bs_get h (blob_store i)).1;
}.

Lemma discarded_blobs_other txs i h :
  (∀ tx, tx ∈ txs → hash tx ≠ h) →
  (bs_get h (blob_store (delete_discarded_blobs txs i))).1 = (bs_get h (blob_store i)).1.
Proof.
  intros Hn. simpl. apply bs_delete_all_other. intros (tx & -> & [_ Htx]%list_elem_of_filter)%list_elem_of_fmap.
  by apply (Hn tx).
Qed.

Lemma delete_discarded_silent txs i : silent i (delete_discarded_blobs txs i).
Proof. apply set_store_silent. Qed.

Lemma known_subseteq p p' :
  pool_wf p → pool_wf p' →
  (∀ j, itx <$> txs (all_transactions p') !! j = None ∨
        itx <$> txs (all_transactions p') !! j = itx <$> txs (all_transactions p) !! j) →
  by_hash (all_transactions p') ⊆ by_hash (all_transactions p).
Proof.
  intros W W' Hs. apply map_subseteq_spec. intros h tx [Hh Htx]%(pool_wf_hash p' _ _ W').
  apply (pool_wf_hash p _ _ W). split; [done|]. destruct (Hs (transaction_id tx)); congruence.
Qed.

(** [remove_transactions]. *)
Lemma inner_remove_ok hashes i :
  inner_wf i →
  ∃ removed i' evs, inner_remove_transactions hashes i = Done (removed, i') ∧ stepped evs i i' ∧
    known i' = filter (λ e, e.1 ∉ hashes) (known i) ∧ blob_store i' = blob_store i ∧
    (∀ tx, tx ∈ removed ↔ hash tx ∈ hashes ∧ known i !! hash tx = Some tx).
Proof.
  intros Hwf. unfold inner_remove_transactions. destruct hashes as [|h0 hs].
  - exists [], i, []. assert (Hid : known i = filter (λ e, e.1 ∉ ([] : list Z)) (known i)).
    { symmetry. apply map_filter_id. set_solver. }
    split_and!; [done| |done|done|set_solver]. split; [done|by apply emits_refl, Hwf| |done].
    intros h [? ?]. congruence.
  - set (hashes := h0 :: hs). destruct (remove_loop hashes [] (pool i) (iw_pool _ Hwf)) as (removed & p' & E & Hp & Hin).
    unfold remove_transactions. rewrite E. cbn.
    eexists removed, _, (((λ tx, CallDiscarded (hash tx)) <$> removed) ≫= events_of). split; [reflexivity|].
    assert (W1 : inner_wf (set_pool p' i)).
    { apply set_pool_wf; [done|apply Hp|by destruct (pr_env _ _ _ Hp)|].
      rewrite (pr_hash _ _ _ Hp). apply map_filter_subseteq. }
    split_and!; [|apply Hp|done|done]. split.
    + by apply report_wf.
    + apply (says_trans [] _ i (set_pool p' i)); [by apply set_pool_says|by apply report_says].
    + intros h [tx Htx] Hn. unfold known in Hn. simpl in Hn. rewrite (pr_hash _ _ _ Hp) in Hn.
      apply map_lookup_filter_None in Hn as [Hn|Hn]; [unfold known in Htx; congruence|].
      specialize (Hn tx Htx). simpl in Hn. apply dec_stable in Hn.
      assert (hash tx = h) as Hh by (by apply (pool_wf_hash (pool i) _ _ (iw_pool _ Hwf)) in Htx as [? _]).
      eapply (closes_discarded h tx removed); [|done|done]. apply Hin. by rewrite Hh.
    + done.
Qed.

Lemma canonical_outcome info mined changed p out p' :
  on_canonical_state_change info mined changed p = Done (out, p') →
  oc_mined out = mined ∧ oc_block_hash out = bi_last_seen_block_hash info.
Proof.
  unfold on_canonical_state_change. intros (p1 & _ & H)%bind_Done_inv.
  apply bind_Done_inv in H as ([o p2] & _ & H). by injection H as <- _.
Qed.

(** A transaction whose nonce is below that of the last entry of its sender. *)
Definition outdated (accs : list ChangedAccount) tx : bool :=
  match last_entry (tx_sender (transaction tx)) accs with
  | Some acc => nonce (transaction_id tx) <? ca_nonce acc
  | None => false
  end.

Lemma stale_outdated accs m i i' h tx :
  inner_wf i' →
  (∀ a s, sender_id (identifiers i') a = Some s →
    m !! s = (λ acc, mkSenderInfo (ca_nonce acc) (ca_balance acc)) <$> last_entry a accs) →
  known i' !! h = Some tx → same_but_ids i i' → stale m (transaction_id tx) = outdated accs tx.
Proof.
  intros W Hm Htx _. unfold stale, outdated. pose proof (Hm _ _ (iw_senders _ W _ _ Htx)) as E.
  unfold vtx_sender_id in E. rewrite E. by destruct (last_entry _ accs).
Qed.

Lemma known_hash i h tx : inner_wf i → known i !! h = Some tx → hash tx = h.
Proof. intros Hwf Htx. by apply (pool_wf_hash (pool i) _ _ (iw_pool _ Hwf)) in Htx as [? _]. Qed.

Lemma same_says i i' : inner_wf i → same_but_ids i i' → says [] i i'.
Proof. intros Hwf [_ _ E1 E2 _]. unfold says. rewrite E1, E2. apply emits_refl, Hwf. Qed.

(** Sending to the listeners and then reporting. *)
Lemma notify_on_new_state_says o i :
  inner_wf i →
  inner_wf (notify_on_new_state o i) ∧ pool (notify_on_new_state o i) = pool i ∧
  blob_store (notify_on_new_state o i) = blob_store i ∧
  says (state_calls o ≫= events_of) i (notify_on_new_state o i).
Proof.
  intros Hwf. unfold notify_on_new_state. set (i1 := set_pending_listeners _ i).
  assert (H1 : silent i i1).
  { destruct (retain_quiet (λ l w, send_all (ls_sender l) (pending_hashes (ls_kind l) (oc_promoted o)) w)
      (pending_transaction_listener i) (world i)) as (att & E & Hp); [|by eapply set_pending_silent].
    intros l w. apply send_all_quiet, hashes_plain. }
  set (i2 := set_transaction_listeners _ i1).
  assert (H2 : silent i1 i2).
  { destruct (retain_quiet (λ l w, send_all (ls_sender l) (full_pending (ls_kind l) (oc_promoted o)) w)
      (transaction_listener i1) (world i1)) as (att & E & Hp); [|by eapply set_transaction_silent].
    intros l w. apply send_all_quiet, full_plain. }
  pose proof (silent_trans _ _ _ H1 H2) as H12. pose proof (silent_wf _ _ Hwf H12) as W2.
  split_and!; [by apply report_wf|done|done|].
  apply (says_trans [] _ i i2); [by apply silent_says|by apply report_says].
Qed.

Lemma inner_canonical_lemma u i :
  inner_wf i → room (pool i) (all_len (all_transactions (pool i))) →
  si_id (identifiers i) + Z.of_nat (length (cu_changed_accounts u)) < U64 →
  Blob.fees_ok (mkPendingFees (cu_pending_block_base_fee u)
    (default (pf_blob_fee (pending_fees (all_transactions (pool i)))) (cu_pending_block_blob_fee u))) →
  ∃ i' evs, inner_on_canonical_state_change u i = Done i' ∧ stepped evs i i' ∧
    (∀ h tx, known i' !! h = Some tx ↔
      known i !! h = Some tx ∧ h ∉ cu_mined_transactions u ∧ outdated (cu_changed_accounts u) tx = false) ∧
    (∀ h, h ∈ cu_mined_transactions u → closes h evs = true).
Proof.
  intros Hwf Hroom Hids Hfees. unfold inner_on_canonical_state_change.
  pose proof (changed_senders_ok (cu_changed_accounts u) i Hwf Hids) as Hch.
  destruct (changed_senders (cu_changed_accounts u) i) as [m i1].
  destruct Hch as (W1 & Hsb & _ & Hm & _). pose proof (sb_pool _ _ Hsb) as Ep.
  destruct (canonical_lemma (cu_block_info u) (cu_mined_transactions u) m (pool i1) (iw_pool _ W1))
    as (o & p' & E & Wp & Hc & _ & Hkn & Hdis & _); [by rewrite Ep|simpl; by rewrite Ep|].
  pose proof (canonical_outcome _ _ _ _ _ _ E) as [Hmined _]. rewrite E. cbn [mbind outcome_bind].
  assert (Hst : ∀ h tx, known i !! h = Some tx → stale m (transaction_id tx) = outdated (cu_changed_accounts u) tx).
  { intros h tx Htx. eapply stale_outdated; [exact W1|exact Hm| |exact Hsb]. unfold known. by rewrite Ep. }
  assert (W2 : inner_wf (set_pool p' i1)).
  { apply set_pool_wf; [done..|]. apply map_subseteq_spec. intros h tx Hh. by apply Hkn. }
  set (i2 := delete_discarded_blobs (oc_discarded o) (set_pool p' i1)).
  assert (S2 : silent (set_pool p' i1) i2) by apply delete_discarded_silent.
  destruct (notify_on_new_state_says o i2 (silent_wf _ _ W2 S2)) as (W3 & Ep3 & Es3 & Hs3).
  assert (Hk : ∀ h tx, known (notify_on_new_state o i2) !! h = Some tx ↔
    known i !! h = Some tx ∧ h ∉ cu_mined_transactions u ∧ outdated (cu_changed_accounts u) tx = false).
  { intros h tx. unfold known at 1. rewrite Ep3. simpl. rewrite Hkn, Ep. fold (known i).
    split; intros (Htx & ? & Ho); (split_and!; [done|done|]); by rewrite ?(Hst h tx Htx), <-?(Hst h tx Htx) in *. }
  eexists _, (state_calls o ≫= events_of). split; [reflexivity|].
  assert (Hcm : ∀ h, h ∈ cu_mined_transactions u → closes h (state_calls o ≫= events_of) = true).
  { intros h Hin. eapply (closes_call h (CallMined h (oc_block_hash o))).
    - apply elem_of_app. left. rewrite Hmined. apply list_elem_of_fmap. eauto.
    - eapply closes_elem; [by left|done]. }
  split_and!; [|exact Hk|exact Hcm].
  - split; [exact W3| | |].
    + apply (says_trans [] _ i i2); [|exact Hs3]. apply (says_trans [] [] i (set_pool p' i1)).
      * apply (says_trans [] [] i i1); [by apply same_says|by apply set_pool_says].
      * by apply silent_says.
    + intros h [tx Htx] Hn. destruct (decide (h ∈ cu_mined_transactions u)) as [Hin|Hnin].
      * by apply Hcm.
      * pose proof (known_hash i h tx Hwf Htx) as Hh. eapply (closes_discarded h tx (oc_discarded o)); [|done|set_solver].
        apply Hdis. unfold get_tx. rewrite Ep, Hh. split_and!; [done|done|]. rewrite (Hst h tx Htx).
        destruct (outdated _ tx) eqn:Ho; [done|]. exfalso. assert (known (notify_on_new_state o i2) !! h = Some tx)
          by by apply Hk. congruence.
    + intros h _ [tx Htx]. rewrite Es3. unfold i2. rewrite discarded_blobs_other; [simpl; by rewrite (sb_store _ _ Hsb)|].
      intros x (Hx & _ & Hsx)%Hdis <-. unfold get_tx in Hx. rewrite Ep in Hx.
      apply Hk in Htx as (Htx & _ & Ho). unfold known in Htx. rewrite Hx in Htx. injection Htx as <-.
      rewrite (Hst _ _ Hx) in Hsx. congruence.
Qed.

(** [update_accounts]. *)
Lemma inner_accounts_lemma accs i :
  inner_wf i → room (pool i) (all_len (all_transactions (pool i))) →
  si_id (identifiers i) + Z.of_nat (length accs) < U64 →
  ∃ i' evs, inner_update_accounts accs i = Done i' ∧ stepped evs i i' ∧
    (∀ h tx, known i' !! h = Some tx ↔ known i !! h = Some tx ∧ outdated accs tx = false).
Proof.
  intros Hwf Hroom Hids. unfold inner_update_accounts.
  pose proof (changed_senders_ok accs i Hwf Hids) as Hch. destruct (changed_senders accs i) as [m i1].
  destruct Hch as (W1 & Hsb & _ & Hm & _). pose proof (sb_pool _ _ Hsb) as Ep.
  destruct (update_accounts_lemma m (pool i1) (iw_pool _ W1)) as (o & p' & E & Hau); [by rewrite Ep|].
  rewrite E. cbn [mbind outcome_bind]. pose proof (au_wf _ _ _ _ Hau) as Wp. pose proof (iw_pool _ W1) as Wp1.
  assert (Hst : ∀ h tx, known i !! h = Some tx → stale m (transaction_id tx) = outdated accs tx).
  { intros h tx Htx. eapply stale_outdated; [exact W1|exact Hm| |exact Hsb]. unfold known. by rewrite Ep. }
  assert (Hkn : ∀ h tx, by_hash (all_transactions p') !! h = Some tx ↔
    known i !! h = Some tx ∧ outdated accs tx = false).
  { intros h tx. rewrite (pool_wf_hash p' _ _ Wp), (au_txs _ _ _ _ Hau). unfold known. rewrite <-Ep.
    assert (Hcase : itx <$> txs (all_transactions (pool i1)) !! transaction_id tx = Some tx → hash tx = h →
      stale m (transaction_id tx) = outdated accs tx).
    { intros Htx Hh. eapply Hst. unfold known. rewrite <-Ep. by apply (pool_wf_hash (pool i1) h tx Wp1). }
    rewrite (pool_wf_hash (pool i1) _ _ Wp1). split.
    - intros [Hh Htx]. destruct (stale m (transaction_id tx)) eqn:Es; [done|]. by rewrite <-Hcase.
    - intros [[Hh Htx] Ho]. rewrite Hcase, Ho by done. done. }
  assert (W2 : inner_wf (set_pool p' i1)).
  { apply set_pool_wf; [done|done|apply Hau|]. apply map_subseteq_spec. intros h tx Hh. unfold known. rewrite Ep.
    by apply Hkn. }
  set (ks := _ ++ _ : list Call). set (i2 := report ks (set_pool p' i1)).
  assert (Hgone : ∀ h tx, known i !! h = Some tx → outdated accs tx = true ↔ tx ∈ discarded o).
  { intros h tx Htx. rewrite <-(Hst h tx Htx), (au_discarded _ _ _ _ Hau).
    pose proof Htx as [Hh Hid]%(pool_wf_hash (pool i) _ _ (iw_pool _ Hwf)). rewrite <-Ep in Hid. split; [eauto|].
    intros (j & Hs & Hj). apply fmap_Some in Hj as (t & Ht & ->). by rewrite (in_key _ _ (transit_entry _ _ _ _ Wp1 Ht)). }
  eexists _, (ks ≫= events_of). split; [reflexivity|]. split; [|intros h tx; apply Hkn]. split.
  - eapply silent_wf; [by apply report_wf|apply delete_discarded_silent].
  - apply (says_trans [] _ i (set_pool p' i1)).
    { apply (says_trans [] [] i i1); [by apply same_says|by apply set_pool_says]. }
    apply (says_silent _ _ i2); [by apply report_wf|by apply report_says|apply delete_discarded_silent].
  - intros h [tx Htx] Hn. eapply (closes_discarded h tx (discarded o)); [|exact (known_hash i h tx Hwf Htx)|set_solver].
    apply (Hgone h tx Htx). destruct (outdated accs tx) eqn:Ho; [done|]. exfalso.
    assert (by_hash (all_transactions p') !! h = Some tx) by by apply Hkn. unfold known in Hn. simpl in Hn. congruence.
  - intros h _ [tx Htx]. rewrite discarded_blobs_other; [simpl; by rewrite (sb_store _ _ Hsb)|].
    intros x Hx Heq. apply Hkn in Htx as [Htx Ho]. apply (au_discarded _ _ _ _ Hau) in Hx as (j & Hs & Hj).
    assert (known i !! h = Some x) as Hx.
    { apply fmap_Some in Hj as (t & Ht & ->). unfold known. rewrite <-Ep, <-Heq. by apply (pool_wf_found _ j). }
    rewrite Hx in Htx. injection Htx as <-. assert (outdated accs x = true); [|congruence].
    apply (Hgone h x Hx). apply (au_discarded _ _ _ _ Hau). eauto.
Qed.

(** [discard_worst], whenever it returns, and with the notifications that follow it in
    [add_transactions]. *)
Lemma inner_discard_returned fuel i hs i' :
  inner_wf i → inner_discard_worst fuel i = Done (hs, i') →
  inner_wf i' ∧ stepped ((CallDiscarded <$> hs) ≫= events_of) i (report (CallDiscarded <$> hs) i') ∧
  (fits (pool i) → is_exceeded (pool i') = false) ∧ known i' ⊆ known i ∧
  (∀ h, h ∈ hs ↔ is_Some (known i !! h) ∧ known i' !! h = None).
Proof.
  intros Hwf. pose proof (iw_pool _ Hwf) as Wp. unfold inner_discard_worst.
  intros ([rem p'] & E & [= <- <-])%bind_Done_inv.
  destruct (discard_worst_returned fuel (pool i) rem p' Wp (iw_limits _ Hwf) E) as (Wp' & Hc & He & Hrem & Hx & _).
  assert (Hks : by_hash (all_transactions p') ⊆ known i).
  { apply known_subseteq; [done|done|]. intros j.
    destruct (txs (all_transactions p') !! j) as [t|] eqn:Ej; [right|by left].
    by rewrite (lookup_weaken _ _ _ _ Ej (ex_txs _ _ _ He)). }
  assert (W1 : inner_wf (set_pool p' i)) by by apply set_pool_wf.
  assert (S1 : silent (set_pool p' i) (delete_discarded_blobs rem (set_pool p' i))) by apply delete_discarded_silent.
  pose proof (silent_wf _ _ W1 S1) as W2.
  assert (Hin : ∀ h, h ∈ hash <$> rem ↔ is_Some (known i !! h) ∧ by_hash (all_transactions p') !! h = None).
  { intros h. rewrite list_elem_of_fmap. split.
    - intros (x & -> & [Hx1 Hx2]%Hrem). split; [eexists; exact Hx1|done].
    - intros [[x Hh] Hn]. exists x. pose proof (known_hash i h x Hwf Hh) as <-. split; [done|]. by apply Hrem. }
  split_and!; [done| |done|done|exact Hin]. split.
  - by apply report_wf.
  - apply (says_trans [] _ i (set_pool p' i)); [by apply set_pool_says|].
    eapply (says_trans []); [by apply silent_says|by apply report_says].
  - intros h Hh Hn. eapply (closes_call h (CallDiscarded h)).
    + apply list_elem_of_fmap. exists h. split; [done|]. by apply Hin.
    + eapply closes_elem; [by left|done].
  - intros h _ [tx Htx]. change (blob_store (report _ ?j)) with (blob_store j). rewrite discarded_blobs_other; [done|].
    intros x Hxin Hh. destruct (proj1 (Hin (hash x))) as [_ Hn]; [by apply list_elem_of_fmap; eauto|].
    unfold known in Htx. simpl in Htx. congruence.
Qed.

(** When it returns: the pool is within its limits, or eviction is known to end. *)
Definition evicts_in (fuel : nat) i : Prop :=
  is_exceeded (pool i) = false ∨
  fits (pool i) ∧ evictable (pool i) ∧ (size (txs (all_transactions (pool i))) < fuel)%nat.
Lemma inner_discard_ends fuel i : inner_wf i → evicts_in fuel i → ∃ r, inner_discard_worst fuel i = Done r.
Proof.
  intros Hwf Hev. unfold inner_discard_worst. destruct Hev as [Hx|(Hf & He & Hfuel)].
  - rewrite discard_worst_within by done. by eexists.
  - destruct (discard_worst_lemma fuel (pool i) (iw_pool _ Hwf) (iw_limits _ Hwf) Hf He Hfuel) as (r & p' & -> & _). by eexists.
Qed.

(** ** Adding *)

Lemma added_known tx p r p' h x :
  pool_wf p → added tx p r p' →
  by_hash (all_transactions p') !! h = Some x ↔
  h = hash tx ∧ x = tx ∨ by_hash (all_transactions p) !! h = Some x ∧ transaction_id x ≠ transaction_id tx.
Proof.
  intros W Ha. pose proof (ad_wf _ _ _ _ Ha) as W'. pose proof (ad_get _ _ _ _ Ha) as Hg. unfold get_tx in Hg.
  rewrite (pool_wf_hash p' h x W'), (pool_wf_hash p h x W).
  apply (pool_wf_hash p' _ _ W') in Hg as [_ Hg].
  destruct (decide (transaction_id x = transaction_id tx)) as [E|Hne].
  - rewrite E, Hg. naive_solver.
  - rewrite (ad_others _ _ _ _ Ha) by done. naive_solver.
Qed.

Lemma added_replaced_spec tx p r p' :
  added tx p r p' → added_tx r = tx ∧ added_replaced r = itx <$> txs (all_transactions p) !! transaction_id tx ∧
  match discarded_transactions r with Some d => d = [] | None => True end.
Proof. intros Ha. pose proof (ad_result _ _ _ _ Ha) as Hr. destruct r; naive_solver. Qed.

(** What follows an insertion: only the sidecars of the new and of a replaced
    transaction are touched, and the calls are those of the result. *)
Lemma after_insertion_ok a d i :
  inner_wf i →
  inner_wf (after_insertion a d i) ∧ pool (after_insertion a d i) = pool i ∧
  identifiers (after_insertion a d i) = identifiers i ∧
  says (added_calls a ≫= events_of) i (after_insertion a d i) ∧
  blob_store (after_insertion a d i) =
    let s := match d with Some x => (bs_insert (hash (added_tx a)) x (blob_store i)).2 | None => blob_store i end in
    let s := match replaced_blob_transaction a with Some r => (bs_delete r s).2 | None => s end in
    match discarded_transactions a with
    | Some l => (bs_delete_all (blob_hashes l) s).2
    | None => s
    end.
Proof.
  intros Hwf. unfold after_insertion. set (h := hash (added_tx a)).
  set (i1 := match d with Some x => insert_blob h x (on_new_blob_sidecar h x i) | None => i end).
  assert (S1 : silent i i1).
  { unfold i1. destruct d; [|apply silent_refl]. eapply silent_trans; [apply on_new_blob_sidecar_silent|].
    apply set_store_silent. }
  set (i2 := match replaced_blob_transaction a with Some r => delete_blob r i1 | None => i1 end).
  assert (S2 : silent i1 i2) by (unfold i2; destruct (replaced_blob_transaction a); [apply set_store_silent|apply silent_refl]).
  set (i3 := match a with AddedPending tx _ promoted _ => on_new_pending_transaction tx promoted i2 | AddedParked _ _ _ => i2 end).
  assert (S3 : silent i2 i3) by (unfold i3; destruct a; [apply on_new_pending_silent|apply silent_refl]).
  pose proof (silent_trans _ _ _ S1 (silent_trans _ _ _ S2 S3)) as S13. pose proof (silent_wf _ _ Hwf S13) as W3.
  set (i4 := notify_event_listeners a i3). assert (W4 : inner_wf i4) by by apply report_wf.
  set (i5 := match discarded_transactions a with Some l => delete_discarded_blobs l i4 | None => i4 end).
  assert (S5 : silent i4 i5) by (unfold i5; destruct (discarded_transactions a); [apply set_store_silent|apply silent_refl]).
  pose proof (on_new_transaction_silent (into_new_transaction_event a) i5) as S6.
  pose proof (silent_trans _ _ _ S5 S6) as S46.
  assert (Es : blob_store i3 = blob_store i2) by (unfold i3; by destruct a).
  split_and!.
  - by eapply silent_wf.
  - rewrite (si_pool _ _ S46). change (pool i4) with (pool i3). by rewrite (si_pool _ _ S13).
  - rewrite (si_ids _ _ S46). change (identifiers i4) with (identifiers i3). by rewrite (si_ids _ _ S13).
  - apply (says_silent _ _ i4); [done| |done]. apply (says_trans [] _ i i3); [by apply silent_says|by apply report_says].
  - change (blob_store (on_new_transaction ?e ?j)) with (blob_store j). unfold i5.
    assert (E2 : blob_store i4 = match replaced_blob_transaction a with
      | Some r => (bs_delete r (blob_store i1)).2 | None => blob_store i1 end).
    { change (blob_store i4) with (blob_store i3). rewrite Es. unfold i2. by destruct (replaced_blob_transaction a). }
    assert (E1 : blob_store i1 = match d with Some x => (bs_insert h x (blob_store i)).2 | None => blob_store i end).
    { unfold i1. by destruct d. }
    cbv zeta. rewrite <-E1, <-E2. by destruct (discarded_transactions a).
Qed.

(** What the validator promises of its outcomes: the numbers are in the range of their
    types, and the nonce is not below that of the account. *)
Definition outcome_ok (o : TransactionValidationOutcome) : Prop :=
  match o with
  | OutcomeValid _ state_nonce v _ =>
    let t := valid_tx v in
    0 ≤ tx_nonce t < u64_max ∧ is_u64 (tx_size t) ∧ is_u128 (tx_max_fee_per_gas t) ∧
    is_u128 (default 0 (tx_max_fee_per_blob_gas t)) ∧ state_nonce ≤ tx_nonce t
  | _ => True
  end.

Definition sidecar_of (v : ValidTransaction) : option Sidecar :=
  match v with Valid _ => None | ValidWithSidecar _ d => Some d end.

(** What one call of [add_transaction] does, by the outcome of the validation. *)
Definition add_result (o : TransactionValidationOutcome) (r : PoolError + Z) i i' : Prop :=
  match o with
  | OutcomeInvalid tx err => r = inl (mkPoolError (tx_hash tx) (InvalidTransaction err)) ∧ pool i' = pool i
  | OutcomeError h => r = inl (mkPoolError h KindOther) ∧ pool i' = pool i
  | OutcomeValid _ _ v prop =>
    match r with
    | inl e => pe_hash e = tx_hash (valid_tx v) ∧ known i' = known i
    | inr h => h = tx_hash (valid_tx v) ∧ known i !! h = None ∧
      ∃ tx, transaction tx = valid_tx v ∧ propagate tx = prop ∧
        (∀ h' x, known i' !! h' = Some x ↔
          h' = h ∧ x = tx ∨ known i !! h' = Some x ∧ transaction_id x ≠ transaction_id tx) ∧
        (∀ d, sidecar_of v = Some d → (bs_insert h d (blob_store i)).1 = None →
          (bs_get h (blob_store i')).1 = inr (Some d))
    end
  end.

Lemma report_stepped ks i : inner_wf i → stepped (ks ≫= events_of) i (report ks i).
Proof.
  intros Hwf. split; [by apply report_wf|by apply report_says| |done].
  intros h [tx Htx] Hn. unfold known in *. simpl in Hn. congruence.
Qed.

Lemma pool_error_hash e tx bal anc a :
  insert_error tx bal anc a = Some e → pe_hash (pool_error e) = hash tx.
Proof.
  unfold insert_error, ensure_valid, ensure_valid_blob_transaction. intros H.
  repeat case_match; simplify_eq/=; try done.
Qed.

(** The sidecars after an insertion. *)
Lemma after_insertion_blobs tx p r p' d i :
  added tx p r p' → pool_wf p → inner_wf i → by_hash (all_transactions p) !! hash tx = None →
  let s' := blob_store (after_insertion r d i) in
  (∀ h x, by_hash (all_transactions p') !! h = Some x → h ≠ hash tx → (bs_get h s').1 = (bs_get h (blob_store i)).1) ∧
  (∀ x, d = Some x → (bs_insert (hash tx) x (blob_store i)).1 = None → (bs_get (hash tx) s').1 = inr (Some x)).
Proof.
  intros Ha W Hwf Hn. destruct (after_insertion_ok r d i Hwf) as (_ & _ & _ & _ & ->).
  destruct (added_replaced_spec _ _ _ _ Ha) as (Et & Er & Ed). rewrite Et. cbv zeta.
  assert (Hrep : ∀ h, is_Some (by_hash (all_transactions p') !! h) → replaced_blob_transaction r ≠ Some h).
  { intros h [x Hx]. unfold replaced_blob_transaction. rewrite Er.
    destruct (txs (all_transactions p) !! transaction_id tx) as [t|] eqn:Eid; simpl; [|done].
    destruct (is_eip4844 (itx t)); [|done]. intros [= <-].
    pose proof (pool_wf_found p _ _ W Eid) as Hold. unfold get_tx in Hold.
    apply (added_known tx p r p' _ _ W Ha) in Hx as [[Hh _]|[Hx Hne]]; [congruence|].
    rewrite Hold in Hx. injection Hx as <-. by rewrite (in_key _ _ (transit_entry _ _ _ _ W Eid)) in Hne. }
  assert (Hdel : ∀ h s, is_Some (by_hash (all_transactions p') !! h) →
    (bs_get h match discarded_transactions r with
      | Some l => (bs_delete_all (blob_hashes l)
          match replaced_blob_transaction r with Some o => (bs_delete o s).2 | None => s end).2
      | None => match replaced_blob_transaction r with Some o => (bs_delete o s).2 | None => s end
      end).1 = (bs_get h s).1).
  { intros h s Hh. specialize (Hrep h Hh). destruct (discarded_transactions r) as [l|];
      [subst l; etrans; [apply bs_delete_all_other; apply not_elem_of_nil|]|];
      (destruct (replaced_blob_transaction r); [apply bs_delete_other; congruence|done]). }
  split.
  - intros h x Hx Hne. rewrite Hdel by eauto. destruct d; [|done]. by apply bs_insert_other.
  - intros x -> Hins. rewrite Hdel; [by apply bs_insert_get|].
    exists tx. exact (ad_get _ _ _ _ Ha).
Qed.

(** A refused transaction. *)
Lemma rejected_ok bal n v prop p' e i i1 :
  inner_wf i → inner_wf i1 → same_but_ids i i1 → pool_wf p' → config p' = config (pool i) →
  by_hash (all_transactions p') = known i → pe_hash e = tx_hash (valid_tx v) →
  stepped [] i (set_pool p' i1) ∧ add_result (OutcomeValid bal n v prop) (inl e) i (set_pool p' i1).
Proof.
  intros Hwf W1 Hsb Wp Hc Hk He. pose proof (sb_pool _ _ Hsb) as Ep. split; [|done]. split.
  - apply set_pool_wf; [done|done|by rewrite Ep|]. unfold known. by rewrite Ep, Hk.
  - apply (says_trans [] [] i i1); [by apply same_says|by apply set_pool_says].
  - intros h [x Hx] Hno. unfold known in Hno. simpl in Hno. rewrite Hk in Hno. congruence.
  - intros h _ _. simpl. by rewrite (sb_store _ _ Hsb).
Qed.

(** The subscribers of a replaced transaction are told. *)
Lemma replaced_closes tx p r p' h x :
  pool_wf p → added tx p r p' → by_hash (all_transactions p) !! h = Some x →
  by_hash (all_transactions p') !! h = None → closes h (added_calls r ≫= events_of) = true.
Proof.
  intros Wp Ha Hx Hno. destruct (added_replaced_spec _ _ _ _ Ha) as (_ & Er & _).
  assert (Hid : transaction_id x = transaction_id tx).
  { destruct (decide (transaction_id x = transaction_id tx)); [done|]. exfalso.
    assert (by_hash (all_transactions p') !! h = Some x) by (apply (added_known tx p r p' h x Wp Ha); by right).
    congruence. }
  apply (pool_wf_hash p _ _ Wp) in Hx as [<- Hx]. rewrite Hid in Hx. rewrite Hx in Er.
  destruct r as [t0 r0 pr di|t0 r0 k]; simpl in Er; subst r0.
  - eapply closes_call; [by left|]. eapply (closes_elem _ (EvReplaced (hash t0))); [|done]. simpl. set_solver.
  - eapply (closes_call _ (CallReplaced x (hash t0))); [simpl; set_solver|]. eapply closes_elem; [by left|done].
Qed.

(** An accepted one. *)
Lemma accepted_ok tx r p' bal n v i i1 :
  inner_wf i → inner_wf i1 → same_but_ids i i1 → added tx (pool i) r p' → known i !! hash tx = None →
  sender_id (identifiers i1) (tx_sender (transaction tx)) = Some (vtx_sender_id tx) → transaction tx = valid_tx v →
  let i' := after_insertion r (sidecar_of v) (set_pool p' i1) in
  stepped (added_calls r ≫= events_of) i i' ∧
  add_result (OutcomeValid bal n v (propagate tx)) (inr (hash (added_tx r))) i i' ∧
  pool i' = p' ∧ identifiers i' = identifiers i1.
Proof.
  intros Hwf W1 Hsb Ha Hc Hf Hv. cbv zeta. pose proof (iw_pool _ Hwf) as Wp. pose proof (sb_pool _ _ Hsb) as Ep.
  pose proof (λ h x, added_known tx (pool i) r p' h x Wp Ha) as Hkn.
  assert (W2 : inner_wf (set_pool p' i1)).
  { destruct W1 as [_ Wl Wi Ws We]. split; simpl; [apply Ha| |done| |done].
    - destruct (ad_env _ _ _ _ Ha) as [-> _]. by rewrite <-Ep.
    - intros h x [[-> ->]|[Hx _]]%Hkn; [exact Hf|]. apply (Ws h). unfold known. by rewrite Ep. }
  destruct (after_insertion_ok r (sidecar_of v) (set_pool p' i1) W2) as (W3 & Ep3 & Ei3 & Hs3 & _).
  destruct (after_insertion_blobs tx (pool i) r p' (sidecar_of v) (set_pool p' i1) Ha Wp W2 Hc) as [Hb1 Hb2].
  destruct (added_replaced_spec _ _ _ _ Ha) as (Et & _ & _). rewrite Et.
  assert (Hk3 : known (after_insertion r (sidecar_of v) (set_pool p' i1)) = by_hash (all_transactions p'))
    by (unfold known; by rewrite Ep3).
  split_and!; [split| |done|done].
  - done.
  - apply (says_trans [] _ i (set_pool p' i1)); [|done].
    apply (says_trans [] [] i i1); [by apply same_says|by apply set_pool_says].
  - intros h [x Hx] Hno. rewrite Hk3 in Hno. by eapply replaced_closes.
  - intros h [x Hx] [y Hy]. rewrite Hk3 in Hy.
    rewrite (Hb1 h y Hy); [simpl; by rewrite (sb_store _ _ Hsb)|]. intros ->. congruence.
  - split; [unfold hash; by rewrite Hv|]. split; [exact Hc|]. exists tx. split_and!; [done|done| |].
    + intros h' x. rewrite Hk3. apply Hkn.
    + intros d Hd Hi. apply (Hb2 d Hd). simpl. by rewrite (sb_store _ _ Hsb).
Qed.

Lemma inner_add_lemma now origin o i :
  inner_wf i → outcome_ok o → room (pool i) (all_len (all_transactions (pool i)) + 2) →
  si_id (identifiers i) + 1 < U64 →
  ∃ r i' evs, inner_add_transaction now origin o i = Done (r, i') ∧ stepped evs i i' ∧ add_result o r i i' ∧
    si_id (identifiers i') ≤ si_id (identifiers i) + 1 ∧
    all_len (all_transactions (pool i')) ≤ all_len (all_transactions (pool i)) + 1 ∧
    (∀ n, 0 ≤ n → room (pool i) (n + all_len (all_transactions (pool i)) + 2) → room (pool i') n) ∧
    (∀ a s, sender_id (identifiers i) a = Some s → sender_id (identifiers i') a = Some s).
Proof.
  intros Hwf Hok Hroom Hids.
  assert (Hw : ∀ n, 0 ≤ n → room (pool i) (n + all_len (all_transactions (pool i)) + 2) → room (pool i) n).
  { intros n ? ?. eapply room_weaken; [|done]. unfold all_len. lia. }
  destruct o as [bal n v prop|tx err|h].
  2, 3: eexists _, _, _; split; [reflexivity|]; split; [by apply report_stepped|];
    split; [done|]; split_and!; [simpl; lia..|exact Hw|done].
  destruct Hok as (Hu1 & Hu2 & Hu3 & Hu4 & Hn). unfold inner_add_transaction. cbv zeta.
  destruct (get_sender_id_ok (tx_sender (valid_tx v)) i Hwf Hids) as (W1 & Hsb & Hf & Hnx & _).
  destruct (get_sender_id (tx_sender (valid_tx v)) i) as [s i1]. simpl in W1, Hsb, Hf, Hnx.
  set (tx := mkValidPoolTransaction _ _ _ _ _). pose proof (sb_pool _ _ Hsb) as Ep.
  pose proof (add_transaction_lemma tx bal n (pool i1) (iw_pool _ W1) ltac:(by split) Hn) as Hadd.
  rewrite Ep in Hadd. specialize (Hadd Hroom). fold (sidecar_of v). rewrite Ep.
  destruct (contains (hash tx) (pool i)) eqn:Hc; [|destruct (insert_error tx bal _ _) as [e|] eqn:Hins].
  - rewrite Hadd. cbn [mbind outcome_bind]. eexists _, _, []. split; [reflexivity|].
    destruct (rejected_ok bal n v prop (pool i) (mkPoolError (hash tx) AlreadyImported) i i1) as [? ?];
      [done..|apply Hwf|done|done|done|]. split_and!; [done|done|done|simpl; lia|exact Hw|apply Hsb].
  - rewrite Hadd. cbn [mbind outcome_bind]. eexists _, _, []. split; [reflexivity|]. set (p' := set_sender_info _ (pool i)).
    assert (Wp' : pool_wf p').
    { destruct (iw_pool _ Hwf) as [? [] Wy ?]. split; [done|done| |done]. revert Wy. by apply synced_same. }
    destruct (rejected_ok bal n v prop p' (pool_error e) i i1) as [? ?]; [done..|by apply pool_error_hash in Hins|].
    split_and!; [done|done|done|simpl; lia|exact Hw|apply Hsb].
  - destruct Hadd as (r & p' & E & Ha). rewrite E. cbn [mbind outcome_bind]. apply contains_hash_false in Hc.
    destruct (accepted_ok tx r p' bal n v i i1 Hwf W1 Hsb Ha Hc Hf eq_refl) as (Hst & Hres & Ep3 & Ei3).
    eexists _, _, (added_calls r ≫= events_of). split; [reflexivity|]. split_and!; [exact Hst|exact Hres|..].
    + by rewrite Ei3.
    + rewrite Ep3. eapply added_len; [apply Hwf|exact Ha].
    + intros m Hm Hr. rewrite Ep3. by apply Ha.
    + rewrite Ei3. apply Hsb.
Qed.

(** ** Batches *)

(** The part of [stepped] that composes. *)
Record told (evs : list (Z * TransactionEvent)) i i' : Prop := {
  to_wf : inner_wf i';
  to_says : says evs i i';
  to_left h : is_Some (known i !! h) → known i' !! h = None → closes h evs = true;
}.

Lemma stepped_told evs i i' : stepped evs i i' → told evs i i'.
Proof. by intros []. Qed.

Lemma told_refl i : inner_wf i → told [] i i.
Proof. intros Hwf. split; [done|by apply emits_refl, Hwf|]. intros h [? ?]. congruence. Qed.

Lemma told_trans evs evs' i1 i2 i3 : told evs i1 i2 → told evs' i2 i3 → told (evs ++ evs') i1 i3.
Proof.
  intros [_ S12 L12] [W3 S23 L23]. split; [done|by eapply says_trans|].
  intros h Hh Hn. rewrite closes_app. destruct (known i2 !! h) eqn:E.
  - rewrite (L23 h); [by rewrite orb_true_r|eauto|done].
  - by rewrite (L12 h).
Qed.

(** A result belongs to its outcome. *)
Definition answers (o : TransactionValidationOutcome) (r : PoolError + Z) : Prop :=
  match r with
  | inl e => pe_hash e = outcome_hash o
  | inr h => h = outcome_hash o ∧ ∃ bal n v prop, o = OutcomeValid bal n v prop
  end.

Lemma add_result_answers o r i i' : add_result o r i i' → answers o r.
Proof. destruct o, r; simpl; try naive_solver. Qed.

Lemma add_result_refused o r i i' : add_result o r i i' → is_ok r = false → known i' = known i.
Proof. unfold known. destruct o, r; simpl; try done; intros [_ H]; by rewrite ?H. Qed.

Definition batch_room (n : nat) i : Prop :=
  room (pool i) (Z.of_nat n * (all_len (all_transactions (pool i)) + Z.of_nat n + 2)) ∧
  si_id (identifiers i) + Z.of_nat n < U64.

(** The two outcomes are valid transactions of the same sender with the same nonce. *)
Definition same_place (o o' : TransactionValidationOutcome) : Prop :=
  match o, o' with
  | OutcomeValid _ _ v _, OutcomeValid _ _ v' _ =>
    tx_sender (valid_tx v') = tx_sender (valid_tx v) ∧ tx_nonce (valid_tx v') = tx_nonce (valid_tx v)
  | _, _ => False
  end.
Lemma known_vtx i h tx : inner_wf i → known i !! h = Some tx → vtx_ok tx.
Proof.
  intros Hwf H. apply (pool_wf_hash _ _ _ (iw_pool _ Hwf)) in H as [_ H]. apply fmap_Some in H as (t & Ht & ->).
  apply (in_vtx _ _ (transit_entry _ _ _ _ (iw_pool _ Hwf) Ht)).
Qed.

(** A transaction leaves the pool with an addition only if it is the one replaced, whose
    place is that of the new one. *)
Lemma add_result_stays o r i i' h tx bal n v prop :
  inner_wf i → inner_wf i' → (∀ a s, sender_id (identifiers i) a = Some s → sender_id (identifiers i') a = Some s) →
  add_result o r i i' → known i !! h = Some tx → transaction tx = valid_tx v →
  known i' !! h = Some tx ∨ is_ok r = true ∧ same_place (OutcomeValid bal n v prop) o.
Proof.
  intros Hwf Hwf' Hids Hres Hk Hv.
  destruct o as [bal' n' v' prop'| |]; simpl in Hres; [|left; unfold known; destruct Hres as [_ ->]; exact Hk..].
  destruct r as [e|h1]; [left; destruct Hres as [_ ->]; exact Hk|].
  destruct Hres as (_ & _ & tx' & Hv' & _ & Hin & _).
  destruct (decide (transaction_id tx = transaction_id tx')) as [E|Hne]; [right|left; apply Hin; by right].
  split; [done|]. assert (known i' !! h1 = Some tx') as Hk' by (apply Hin; by left).
  pose proof (iw_senders _ Hwf' _ _ Hk') as Hs'. pose proof (Hids _ _ (iw_senders _ Hwf _ _ Hk)) as Hs.
  unfold vtx_sender_id in *. rewrite E in Hs. unfold sender_id in *. apply (idwf_inv _ (iw_ids _ Hwf')) in Hs, Hs'.
  simpl. rewrite <-Hv, <-Hv'. split; [congruence|].
  pose proof (vtx_ok_nonce _ (known_vtx i h tx Hwf Hk)) as E1.
  pose proof (vtx_ok_nonce _ (known_vtx i' h1 tx' Hwf' Hk')) as E2. unfold vtx_nonce in *. congruence.
Qed.
(** What is in the pool after an addition and is not the transaction added was there. *)
Lemma add_result_older o r i i' h :
  add_result o r i i' → h ≠ outcome_hash o → is_Some (known i' !! h) → is_Some (known i !! h).
Proof.
  intros Hres Hh [x Hx]. destruct o as [bal n v prop| |]; simpl in *;
    [|unfold known; destruct Hres as [_ <-]; by eexists..].
  destruct r as [e|h1]; [destruct Hres as [_ <-]; by eexists|]. destruct Hres as (-> & _ & tx & _ & _ & Hin & _).
  apply Hin in Hx as [[-> _]|[Hx _]]; [done|by eexists].
Qed.

(** The additions of a batch. *)
Record batch_added (os : list TransactionValidationOutcome) (rs : list (PoolError + Z)) i i' : Prop := {
  ba_answers : Forall2 answers os rs;
  ba_none : existsb is_ok rs = false → known i' = known i;
  ba_older h : h ∉ outcome_hash <$> os → is_Some (known i' !! h) →
    is_Some (known i !! h) ∧ (bs_get h (blob_store i')).1 = (bs_get h (blob_store i)).1;
  ba_single h : (length os ≤ 1)%nat → is_Some (known i !! h) → is_Some (known i' !! h) →
    (bs_get h (blob_store i')).1 = (bs_get h (blob_store i)).1;
  ba_stays h tx bal n v prop : known i !! h = Some tx → transaction tx = valid_tx v →
    known i' !! h = Some tx ∨
    ∃ k o h', os !! k = Some o ∧ rs !! k = Some (inr h') ∧ same_place (OutcomeValid bal n v prop) o;
  ba_accepted k o h : os !! k = Some o → rs !! k = Some (inr h) →
    is_Some (known i' !! h) ∨
    ∃ k' o' h', (k < k')%nat ∧ os !! k' = Some o' ∧ rs !! k' = Some (inr h') ∧ same_place o o';
}.
Lemma batch_added_nil i : batch_added [] [] i i.
Proof. split; [done|done|done|done|by left|done]. Qed.
Lemma batch_added_cons o os r rs evs i i1 i2 :
  inner_wf i → stepped evs i i1 → (∀ a s, sender_id (identifiers i) a = Some s → sender_id (identifiers i1) a = Some s) →
  add_result o r i i1 → batch_added os rs i1 i2 → batch_added (o :: os) (r :: rs) i i2.
Proof.
  intros Hwf Hst Hids Hres [A1 A2 A3 _ A4 A5]. pose proof (sp_wf _ _ _ Hst) as Hwf1. split.
  - constructor; [by eapply add_result_answers|done].
  - simpl. intros [Hr0 Hrs]%orb_false_iff. rewrite (A2 Hrs). by eapply add_result_refused.
  - intros h Hh Hk. rewrite fmap_cons, not_elem_of_cons in Hh. destruct Hh as [Hh1 Hh2].
    destruct (A3 h Hh2 Hk) as [Hk1 E]. pose proof (add_result_older _ _ _ _ h Hres Hh1 Hk1) as Hk0. split; [done|].
    rewrite E. by apply (sp_keeps _ _ _ Hst).
  - intros h Hl Hk Hk2. assert (os = []) as -> by (destruct os; [done|simpl in Hl; lia]).
    destruct (A3 h (not_elem_of_nil _) Hk2) as [Hk1 ->]. by apply (sp_keeps _ _ _ Hst).
  - intros h tx bal n v prop Hk Hv. destruct (add_result_stays o r i i1 h tx bal n v prop Hwf Hwf1 Hids Hres Hk Hv) as [Hk1|[Ho Hp]].
    + destruct (A4 h tx bal n v prop Hk1 Hv) as [?|(k & o' & h' & ? & ? & ?)]; [by left|right]. by exists (Datatypes.S k), o', h'.
    + right. destruct r as [|h']; [done|]. by exists 0%nat, o, h'.
  - intros [|k] o' h; simpl.
    + intros [= <-] [= ->]. destruct o as [bal n v prop| |]; simpl in Hres; [|by destruct Hres..].
      destruct Hres as (_ & _ & tx & Hv & _ & Hin & _).
      destruct (A4 h tx bal n v prop) as [?|(k & o' & h' & ? & ? & ?)]; [apply Hin; by left|done|left; by eexists|right].
      exists (Datatypes.S k), o', h'. split_and!; [lia|done..].
    + intros Ho Hr. destruct (A5 k o' h Ho Hr) as [?|(k' & o2 & h' & ? & ? & ? & ?)]; [by left|right].
      exists (Datatypes.S k'), o2, h'. split_and!; [lia|done..].
Qed.

Lemma add_each_ok now origin os acc i :
  inner_wf i → Forall outcome_ok os → batch_room (length os) i →
  ∃ rs i' evs, for_each (λ o st, '(r, i) ← inner_add_transaction now origin o st.2; Done (st.1 ++ [r], i)) os (acc, i)
      = Done (acc ++ rs, i') ∧ told evs i i' ∧ batch_added os rs i i'.
Proof.
  intros Hwf Hos. revert acc i Hwf. induction Hos as [|o os Ho _ IH]; intros acc i Hwf [Hroom Hids]; cbn [for_each fst snd].
  { exists [], i, []. rewrite app_nil_r. split_and!; [done|by apply told_refl|apply batch_added_nil]. }
  cbn [length] in *. assert (Hlen : 0 ≤ all_len (all_transactions (pool i))) by (unfold all_len; lia).
  destruct (inner_add_lemma now origin o i Hwf Ho) as (r & i1 & evs & -> & Hst & Hres & Hn & Hl & Hr & Hs).
  { eapply room_weaken; [|exact Hroom]. nia. }
  { lia. }
  cbn. destruct (IH (acc ++ [r]) i1) as (rs & i2 & evs' & -> & Ht & Ha).
  - apply Hst.
  - split; [|lia]. eapply room_weaken; [|apply Hr; [|eapply room_weaken; [|exact Hroom]]].
    + apply (Z.mul_le_mono_nonneg_l _ (all_len (all_transactions (pool i)) + 1 + Z.of_nat (length os) + 2)); lia.
    + nia.
    + nia.
  - exists (r :: rs), i2, (evs ++ evs'). split_and!.
    + by rewrite <-(assoc_L (++)).
    + eapply told_trans; [by apply stepped_told|exact Ht].
    + by eapply batch_added_cons.
Qed.

(** A result after the correction at the end of [add_transactions]. *)
Definition corrected (discarded : list Z) (r : PoolError + Z) : PoolError + Z :=
  match r with
  | inr h => if bool_decide (h ∈ discarded) then inl (mkPoolError h DiscardedOnInsert) else r
  | inl _ => r
  end.
End inner.
