(* ===== verification/InnerSteps.v ===== *)
(** * Properties of the pool's outer layer over its operations

    The methods of [PoolInner] as steps, and what holds of every step and of every
    reachable state: subscribers learn of every departure, sidecars of transactions
    that stay are kept, and addresses find their transactions. *)

From stdpp Require Import prelude gmap list sorting.
From S2P Require Import Prelude.
From S2P Require Import Ord.
From S2P Require Import Identifier.
From S2P Require Import State.
From S2P Require Import PoolTx.
From S2P Require Import SubPools.
From S2P Require Import AllTxs.
From S2P Require Import Errors.
From S2P Require Import Events.
From S2P Require Import BlobStore.
From S2P Require Import TxPool.
From S2P Require Import Inner.
From S2P Require Blob.
From S2P Require Import PoolOps.
From S2P Require Import PoolFees.
From S2P Require Import PoolEvict.
From S2P Require Import PoolReturns.
From S2P Require Import PoolSteps.
From S2P Require Import InnerOps.

(** ** Steps *)
Section steps.
Context {TO : TransactionOrdering} {S : Type} {BS : BlobStore S} {BL : BlobStoreLaws S}.
Implicit Types (i : PoolInner S) (tx : ValidPoolTransaction).

(** The fees of an update have the width of their fields. *)
Definition fees_in_range (base_fee : Z) (blob_fee : option Z) : Prop :=
  is_u128 base_fee ∧ ∀ fee, blob_fee = Some fee → is_u128 fee.

(** What the caller of a method asks for, as far as sidecars depend on it. *)
Inductive request :=
| ReqAdd (os : list TransactionValidationOutcome)
| ReqDeleteBlobs (hs : list Z)
| ReqCleanup
| ReqOther.

(** The methods of [PoolInner] that change its state, when they return.  Eviction is part of
    [add_transactions]. *)
Inductive inner_step : request → PoolInner S → PoolInner S → Prop :=
| InnerAdd i fuel now origin os results i' :
    Forall outcome_ok os → batch_room (length os) i →
    add_transactions fuel now origin os i = Done (results, i') → inner_step (ReqAdd os) i i'
| InnerAddSubscribe i fuel now origin o r i' :
    outcome_ok o → batch_room 1 i →
    add_transaction_and_subscribe fuel now origin o i = Done (r, i') → inner_step (ReqAdd [o]) i i'
| InnerRemove i hashes removed i' :
    inner_remove_transactions hashes i = Done (removed, i') → inner_step ReqOther i i'
| InnerBlock i u i' :
    fees_in_range (cu_pending_block_base_fee u) (cu_pending_block_blob_fee u) →
    si_id (identifiers i) + Z.of_nat (length (cu_changed_accounts u)) < U64 →
    inner_on_canonical_state_change u i = Done i' → inner_step ReqOther i i'
| InnerAccounts i accs i' :
    si_id (identifiers i) + Z.of_nat (length accs) < U64 →
    inner_update_accounts accs i = Done i' → inner_step ReqOther i i'
| InnerInfo i info i' :
    fees_in_range (bi_pending_basefee info) (bi_pending_blob_fee info) →
    inner_set_block_info info i = Done i' → inner_step ReqOther i i'
| InnerDeleteBlob i h : inner_step (ReqDeleteBlobs [h]) i (delete_blob h i)
| InnerDeleteBlobs i hs : inner_step (ReqDeleteBlobs hs) i (delete_blobs hs i)
| InnerCleanup i : inner_step ReqCleanup i (cleanup_blobs i)
| InnerBySender i a : inner_step ReqOther i (inner_get_transactions_by_sender a i).2
| InnerPropagated i txs : inner_step ReqOther i (on_propagated txs i)
| InnerSubscribe i h : inner_step ReqOther i (add_transaction_event_listener h i).2
| InnerSubscribeAll i : inner_step ReqOther i (add_all_transactions_event_listener i).2
| InnerListenPending i k : inner_step ReqOther i (add_pending_listener k i).2
| InnerListenNew i k : inner_step ReqOther i (add_new_transaction_listener k i).2
| InnerListenSidecar i : inner_step ReqOther i (add_blob_sidecar_listener i).2.

(** Room in the 64-bit counters for one step. *)
Definition inner_room i : Prop :=
  room (pool i) (2 * all_len (all_transactions (pool i)) + 2) ∧ si_id (identifiers i) + 1 < U64.

Inductive inner_reachable (g : Z) (cfg : PoolConfig) (store : S) (w : World) : PoolInner S → Prop :=
| InnerNew : inner_reachable g cfg store w (PoolInner_new g store cfg w)
| InnerNext i q i' :
    inner_reachable g cfg store w i → inner_room i → inner_step q i i' → inner_reachable g cfg store w i'.

Lemma silent_stepped i i' : inner_wf i → silent i i' → blob_store i' = blob_store i → stepped [] i i'.
Proof.
  intros Hwf Hs Eb. split; [by eapply silent_wf|by apply silent_says| |by rewrite Eb].
  intros h [x Hx] Hn. unfold known in *. rewrite (si_pool _ _ Hs) in Hn. congruence.
Qed.

Lemma info_stepped info i i' :
  inner_wf i → inner_room i → fees_in_range (bi_pending_basefee info) (bi_pending_blob_fee info) →
  inner_set_block_info info i = Done i' → stepped [] i i'.
Proof.
  intros Hwf [Hroom _] [Hb Hf] Hrun. unfold inner_set_block_info in Hrun.
  destruct (set_block_info_lemma info (pool i) (iw_pool _ Hwf)) as (p' & E & Wp & Hc & _ & Hk & _).
  - eapply room_weaken; [|exact Hroom]. unfold all_len. lia.
  - apply fees_of_info; [apply Hwf|done|done].
  - rewrite E in Hrun. injection Hrun as <-. split.
    + apply set_pool_wf; [done..|]. unfold known. by rewrite Hk.
    + by apply set_pool_says.
    + intros h [x Hx] Hn. unfold known in *. simpl in Hn. rewrite Hk in Hn. congruence.
    + done.
Qed.

Lemma subscribed_stepped i b w :
  inner_wf i → emits [] (event_listener i) (world i) b w → stepped [] i (set_events (b, w) i).
Proof.
  intros Hwf He. split; [|exact He| |done].
  - pose proof He as (_ & _ & ? & _). by destruct Hwf.
  - intros h [x Hx] Hn. unfold known in *. simpl in Hn. congruence.
Qed.

Lemma listening_stepped i i' :
  inner_wf i → identifiers i' = identifiers i → pool i' = pool i → event_listener i' = event_listener i →
  world i' = (channel (world i)).2 → blob_store i' = blob_store i → stepped [] i i'.
Proof.
  intros Hwf Ei Ep Ee Ew Eb. apply silent_stepped; [done| |done].
  split; [done..| |]; rewrite Ew; simpl; [|lia]. exists []. by rewrite app_nil_r.
Qed.

(** The sidecars a step may touch although their transactions stay: those it was asked to
    delete, those of the transactions of a batch of several, and on a cleanup those the store
    was told to delete before. *)
Definition touches (q : request) (h : Z) : Prop :=
  match q with
  | ReqAdd os => (1 < length os)%nat ∧ h ∈ outcome_hash <$> os
  | ReqDeleteBlobs hs => h ∈ hs
  | ReqCleanup => True
  | ReqOther => False
  end.
Definition keeps (q : request) i i' : Prop :=
  ∀ h, ¬ touches q h → is_Some (known i !! h) → is_Some (known i' !! h) →
    (bs_get h (blob_store i')).1 = (bs_get h (blob_store i)).1.

Lemma stepped_keeps evs q i i' : stepped evs i i' → told evs i i' ∧ keeps q i i'.
Proof. intros Hst. split; [by apply stepped_told|]. intros h _. apply (sp_keeps _ _ _ Hst). Qed.

Lemma report_nil i : report [] i = i.
Proof. by destruct i. Qed.

(** What [add_transactions] comes to, when it returns. *)
Lemma batch_returned fuel now origin os i results i' :
  inner_wf i → Forall outcome_ok os → batch_room (length os) i →
  add_transactions fuel now origin os i = Done (results, i') →
  ∃ added i1 hs i2 evs, add_each now origin os i = Done (added, i1) ∧ told evs i i1 ∧ batch_added os added i i1 ∧
    (if existsb is_ok added then inner_discard_worst fuel i1 = Done (hs, i2) else hs = [] ∧ i2 = i1) ∧
    results = (corrected hs <$> added) ∧ i' = report (CallDiscarded <$> hs) i2.
Proof.
  intros Hwf Hos Hroom. destruct (add_each_ok now origin os [] i Hwf Hos Hroom) as (added & i1 & evs & E & Ht & Ha).
  unfold add_transactions. unfold add_each at 1. rewrite E. cbn [mbind outcome_bind app].
  intros ([hs i2] & Hd & Hres)%bind_Done_inv. exists added, i1, hs, i2, evs. split_and!; [exact E|done|done| | |].
  - destruct (existsb is_ok added); [done|]. by injection Hd as <- <-.
  - destruct hs; injection Hres as <- _; [|done]. symmetry. rewrite <-(list_fmap_id added) at 2. apply list_fmap_ext.
    intros k [e|h] _; [done|]. unfold corrected. case_bool_decide as Hx; [by apply elem_of_nil in Hx|done].
  - destruct hs; injection Hres as _ <-; [|done]. by rewrite report_nil.
Qed.
Lemma batch_told fuel now origin os i results i' :
  inner_wf i → Forall outcome_ok os → batch_room (length os) i →
  add_transactions fuel now origin os i = Done (results, i') →
  (∃ evs, told evs i i') ∧ keeps (ReqAdd os) i i'.
Proof.
  intros Hwf Hos Hroom Hrun.
  destruct (batch_returned fuel now origin os i results i' Hwf Hos Hroom Hrun)
    as (added & i1 & hs & i2 & evs & _ & Ht & Ha & Hd & _ & ->).
  assert (∃ evs', stepped evs' i1 (report (CallDiscarded <$> hs) i2) ∧ known i2 ⊆ known i1) as (evs' & Hst & Hsub).
  { destruct (existsb is_ok added).
    - destruct (inner_discard_returned fuel i1 hs i2 (to_wf _ _ _ Ht) Hd) as (_ & Hst & _ & Hsub & _). eauto.
    - destruct Hd as [-> ->]. eexists. split; [apply report_stepped, Ht|done]. }
  split; [eexists; by eapply told_trans, stepped_told|]. intros h Hq Hk [x Hk'].
  assert (is_Some (known i1 !! h)) as Hk1 by (eexists; by eapply lookup_weaken).
  rewrite (sp_keeps _ _ _ Hst h Hk1) by by eexists. simpl in Hq.
  destruct (decide (1 < length os)%nat) as [Hl|Hl].
  - apply (ba_older _ _ _ _ Ha); [tauto|done].
  - apply (ba_single _ _ _ _ Ha); [lia|done|done].
Qed.

Lemma store_stepped st i : inner_wf i → told [] i (set_store st i).
Proof.
  intros Hwf. split; [by destruct Hwf|by apply emits_refl, Hwf|]. intros h [x Hx] Hn. unfold known in *. simpl in Hn. congruence.
Qed.

(** Every step keeps the invariant and tells the subscribers of what leaves. *)
Lemma inner_step_told q i i' :
  inner_wf i → inner_room i → inner_step q i i' → (∃ evs, told evs i i') ∧ keeps q i i'.
Proof.
  intros Hwf Hir Hstep. pose proof Hir as [Hroom Hids].
  assert (Hlen : 0 ≤ all_len (all_transactions (pool i))) by (unfold all_len; lia).
  assert (Hr1 : room (pool i) (all_len (all_transactions (pool i)))) by (eapply room_weaken; [|exact Hroom]; lia).
  assert (∀ q i', (∃ evs, stepped evs i i') → (∃ evs, told evs i i') ∧ keeps q i i') as Hs.
  { intros q0 j [evs Hst]. destruct (stepped_keeps evs q0 i j Hst). eauto. }
  destruct Hstep as [i fuel now origin os results i' Ho Hb Hrun|i fuel now origin o r i' Ho Hb Hrun|i hashes removed i' Hrun
    |i u i' [Hb Hf] Hu Hrun|i accs i' Hu Hrun|i info i' Hf Hrun|i h|i hs|i|i a|i txs|i h|i|i k|i k|i].
  - by eapply batch_told.
  - unfold add_transaction_and_subscribe in Hrun. pose proof (subscribe_emits (outcome_hash o) (event_listener i) (world i) (iw_events _ Hwf)) as He.
    destruct (subscribe _ _ _) as [[c b] w]. simpl in He. pose proof (subscribed_stepped i b w Hwf (proj1 He)) as Hst.
    apply bind_Done_inv in Hrun as ([results i2] & Hrun & Hrest). apply bind_Done_inv in Hrest as (x & _ & [= _ <-]).
    destruct (batch_told fuel now origin [o] _ results i2 (sp_wf _ _ _ Hst) ltac:(by constructor) Hb Hrun) as [[evs Ht] Hk].
    split; [eexists; eapply told_trans; [by apply stepped_told|done]|exact Hk].
  - apply Hs. destruct (inner_remove_ok hashes i Hwf) as (r & i1 & evs & E & Hst & _). rewrite E in Hrun.
    injection Hrun as _ <-. eauto.
  - apply Hs. destruct (inner_canonical_lemma u i Hwf Hr1 Hu) as (i1 & evs & E & Hst & _).
    + apply (fees_of_info (cu_block_info u)); [apply Hwf|done|done].
    + rewrite E in Hrun. injection Hrun as <-. eauto.
  - apply Hs. destruct (inner_accounts_lemma accs i Hwf Hr1 Hu) as (i1 & evs & E & Hst & _).
    rewrite E in Hrun. injection Hrun as <-. eauto.
  - apply Hs. exists []. by eapply info_stepped.
  - split; [exists []; by apply store_stepped|]. intros h' Hq _ _. simpl in *. apply bs_delete_other. set_solver.
  - split; [exists []; by apply store_stepped|]. intros h' Hq _ _. by apply bs_delete_all_other.
  - split; [exists []; by apply store_stepped|]. intros h' []. done.
  - destruct (get_sender_id_ok a i Hwf Hids) as (W1 & Hsb & _). unfold inner_get_transactions_by_sender.
    destruct (get_sender_id a i) as [s i1]. simpl in *. split.
    + exists []. split; [done|by apply same_says|]. intros h [x Hx] Hn. unfold known in *. rewrite (sb_pool _ _ Hsb) in Hn. congruence.
    + intros h _ _ _. by rewrite (sb_store _ _ Hsb).
  - apply Hs. destruct txs; [|by eexists; apply report_stepped]. exists [].
    by apply silent_stepped; [|apply silent_refl|].
  - apply Hs. exists []. unfold add_transaction_event_listener. destruct (contains h (pool i)).
    + apply subscribed_stepped; [done|]. apply (subscribe_emits h), Hwf.
    + by apply silent_stepped; [|apply silent_refl|].
  - apply Hs. exists []. apply subscribed_stepped; [done|]. apply subscribe_all_emits, Hwf.
  - apply Hs. exists []. by apply listening_stepped.
  - apply Hs. exists []. by apply listening_stepped.
  - apply Hs. exists []. by apply listening_stepped.
Qed.

Lemma inner_new_wf g cfg (store : S) w : is_u128 g → limits_ok cfg → inner_wf (PoolInner_new g store cfg w).
Proof.
  intros Hg Hl. split; simpl; [by apply new_wf|done|apply identifiers_default_wf| |apply default_wf].
  intros h tx. unfold known. simpl. by rewrite lookup_empty.
Qed.

Lemma inner_reachable_wf g cfg store w i :
  is_u128 g → limits_ok cfg → inner_reachable g cfg store w i → inner_wf i.
Proof.
  intros Hg Hl. induction 1 as [|i q i' _ IH Hroom Hstep]; [by apply inner_new_wf|].
  by destruct (inner_step_told q i i' IH Hroom Hstep) as [[evs []] _].
Qed.

(** ** Theorems *)

Lemma until_final_last h evs :
  closes h evs = true → ∃ l e, until_final (about h evs) = l ++ [(h, e)] ∧ is_final e = true.
Proof.
  induction evs as [|[h' e] evs IH]; [done|]. unfold about in *. simpl. rewrite filter_cons. simpl.
  destruct (Z.eqb_spec h' h) as [->|Hne]; simpl.
  - rewrite decide_True by done. simpl. destruct (is_final e) eqn:Ef; simpl.
    + intros _. by exists [], e.
    + intros Hc. destruct (IH Hc) as (l & e' & -> & He'). by exists ((h, e) :: l), e'.
  - intros Hc. rewrite decide_False by done. by apply IH.
Qed.

(** C26. Whoever subscribed to a transaction learns that it left: if a call of a method of
    the pool takes a transaction out, for whatever reason (mined, outdated, replaced by a
    transaction of a batch, evicted at the end of a batch, removed on request), then a
    subscriber that kept its receiver gets a final event of that transaction as the last
    one, and its subscription ends.  Hypotheses: the pool is well formed, its 64-bit
    counters have room, and the call is a step: it returns, the outcomes of a batch are
    those of a validator (widths of the fields, nonces not below the accounts'), and fees
    have the width of their fields.  No condition is put on what is evicted. *)
Theorem subscriber_learns_departure q i i' h c :
  inner_wf i → inner_room i → inner_step q i i' →
  is_Some (get_tx h (pool i)) → get_tx h (pool i') = None → listening c h (event_listener i) →
  ∃ att, log (world i') = log (world i) ++ att ∧
    (stays_open c att →
      gone c (event_listener i') (world i') ∧
      ∃ l e, received c att = l ++ [(h, e)] ∧ is_final e = true).
Proof.
  intros Hwf Hroom Hstep Hh Hn Hc. destruct (inner_step_told q i i' Hwf Hroom Hstep) as [[evs [_ Hs Hleft]] _].
  pose proof (Hleft h Hh Hn) as Hcl. destruct Hs as (att & Hl & _ & _ & Hin & _). exists att. split; [done|].
  intros Ho. destruct (Hin c h Hc Ho) as [-> Hg]. rewrite Hcl in Hg. split; [done|]. by apply until_final_last.
Qed.

(** C28. A method of the pool does not touch the sidecar of a transaction that is in the pool
    before and after the call: evictions, replacements, blocks and removals delete the
    sidecars of transactions that are gone only.  The exceptions are those the caller asks
    for: an explicit deletion of the sidecar by the hash of its transaction, a cleanup of
    the store, and a batch of several transactions that contains the transaction itself (it
    may be replaced and come back within the batch).  Hypotheses: a well-formed pool, room
    in its 64-bit counters, a call that returns with outcomes of a validator and fees of
    the width of their fields, and a store whose operations on one hash leave the others
    alone. *)
Theorem sidecars_kept q i i' h :
  inner_wf i → inner_room i → inner_step q i i' → ¬ touches q h →
  is_Some (get_tx h (pool i)) → is_Some (get_tx h (pool i')) →
  (bs_get h (blob_store i')).1 = (bs_get h (blob_store i)).1.
Proof.
  intros Hwf Hroom Hstep Hq Hh Hh'. destruct (inner_step_told q i i' Hwf Hroom Hstep) as [_ Hk]. by apply Hk.
Qed.

Lemma StronglySorted_fmap_in {A B} (R : relation A) (R' : relation B) (f : A → B) l :
  (∀ x y, x ∈ l → y ∈ l → R x y → R' (f x) (f y)) → StronglySorted R l → StronglySorted R' (f <$> l).
Proof.
  intros Hf Hs. induction Hs as [|x l Hs IH Hx]; [constructor|]. rewrite fmap_cons. constructor.
  - apply IH. intros y z Hy Hz. apply Hf; by right.
  - rewrite Forall_fmap. rewrite Forall_forall in Hx |- *. intros y Hy. apply Hf; [by left|by right|by apply Hx].
Qed.

(** The transactions of an identifier, from the set of all transactions. *)
Lemma by_sender_id s p tx :
  pool_wf p → tx ∈ get_transactions_by_sender s p ↔ get_tx (hash tx) p = Some tx ∧ vtx_sender_id tx = s.
Proof.
  intros W. unfold get_transactions_by_sender. rewrite list_elem_of_fmap. split.
  - intros ([j t] & -> & [Hj Hs]%elem_of_txs_of_sender_1). simpl. split; [by apply (pool_wf_found p j)|].
    unfold vtx_sender_id. by rewrite (in_key _ _ (transit_entry _ _ _ _ W Hj)).
  - intros [Htx Hs]. apply (pool_wf_hash p _ _ W) in Htx as [_ Htx]. apply fmap_Some in Htx as (t & Ht & Et).
    exists (transaction_id tx, t). split; [done|]. pose proof (transit_entry _ _ _ _ W Ht) as Hok.
    apply elem_of_txs_of_sender; [|done]. destruct (in_vtx _ _ Hok) as [_ Hu _ _ _].
    rewrite <-(in_key _ _ Hok). apply Hu.
Qed.

(** In every reachable state an address finds its transactions: the method returns
    exactly the transactions of the pool that the address has signed, in the order of
    their nonces, although the pool only stores the identifiers it has assigned. *)
Theorem by_sender_exact g cfg store w i a :
  is_u128 g → limits_ok cfg → inner_reachable g cfg store w i → si_id (identifiers i) + 1 < U64 →
  let l := (inner_get_transactions_by_sender a i).1 in
  StronglySorted (λ t u, vtx_nonce t < vtx_nonce u) l ∧
  ∀ tx, tx ∈ l ↔ get_tx (hash tx) (pool i) = Some tx ∧ tx_sender (transaction tx) = a.
Proof.
  intros Hg Hl Hr Hids. pose proof (inner_reachable_wf g cfg store w i Hg Hl Hr) as Hwf. cbv zeta.
  unfold inner_get_transactions_by_sender.
  destruct (get_sender_id_ok a i Hwf Hids) as (W1 & Hsb & Hf & _).
  destruct (get_sender_id a i) as [s i1]. simpl in *. rewrite (sb_pool _ _ Hsb). pose proof (iw_pool _ Hwf) as Wp. split.
  - apply (StronglySorted_fmap_in key_lt); [|apply txs_of_sender_sorted].
    intros [j t] [k u] [Hj Hsj]%elem_of_txs_of_sender_1 [Hk Hsk]%elem_of_txs_of_sender_1. unfold key_lt. simpl.
    pose proof (transit_entry _ _ _ _ Wp Hj) as Oj. pose proof (transit_entry _ _ _ _ Wp Hk) as Ok.
    rewrite <-(vtx_ok_nonce _ (in_vtx _ _ Oj)), <-(vtx_ok_nonce _ (in_vtx _ _ Ok)), (in_key _ _ Oj), (in_key _ _ Ok).
    destruct j, k. rewrite tid_cmp_lt. simpl in *. lia.
  - intros tx. rewrite (by_sender_id s _ tx Wp). pose proof (idwf_inv _ (iw_ids _ W1)) as Hinv.
    split; intros [Htx E]; (split; [done|]); pose proof (sb_stable _ _ Hsb _ _ (iw_senders _ Hwf _ _ Htx)) as Hs.
    + unfold sender_id in *. rewrite E in Hs. apply Hinv in Hs, Hf. congruence.
    + congruence.
Qed.

Lemma corrected_ok hs (added : list (PoolError + Z)) k h :
  (corrected hs <$> added) !! k = Some (inr h) ↔ added !! k = Some (inr h) ∧ h ∉ hs.
Proof.
  rewrite list_lookup_fmap_Some. split.
  - intros ([e|h'] & Hr & Hl); [done|]. simpl in Hr. case_bool_decide; simplify_eq. done.
  - intros [Hl Hn]. exists (inr h). split; [simpl; by rewrite bool_decide_false|done].
Qed.
Lemma corrected_answers hs os (added : list (PoolError + Z)) : Forall2 answers os added → Forall2 answers os (corrected hs <$> added).
Proof.
  intros Ha. apply Forall2_fmap_r. eapply Forall2_impl; [exact Ha|]. intros o [e|h]; simpl; [done|].
  intros [-> ?]. case_bool_decide; simpl; [done|eauto].
Qed.

(** C27. Adding a batch.  The additions themselves always return.  The whole call returns if
    none of them was accepted, or the pool after them is within its limits, or eviction
    ends for it (no pending transaction is local, no last one is missing from the set of
    highest nonces, the sizes add up to a 64-bit number).  Whenever it returns, it answers
    every outcome of the validation, in order, with an error about that transaction or with
    the hash of a valid one; if nothing was accepted the transactions of the pool are the
    same, and otherwise the limits are enforced, provided that the sizes after the
    additions add up to a 64-bit number; and a success is reported exactly for what was
    accepted and not evicted again: its transaction is in the pool afterwards, unless the
    batch has a later, accepted transaction of the same sender with the same nonce.
    Hypotheses: a well-formed pool, outcomes of a validator, and room in the 64-bit
    counters. *)
Theorem add_transactions_ok fuel now origin os i :
  inner_wf i → Forall outcome_ok os → batch_room (length os) i →
  ∃ added i1, add_each now origin os i = Done (added, i1) ∧
    (existsb is_ok added = false ∨ evicts_in fuel i1 → ∃ r, add_transactions fuel now origin os i = Done r) ∧
    ∀ results i', add_transactions fuel now origin os i = Done (results, i') →
      inner_wf i' ∧ Forall2 answers os results ∧
      (if existsb is_ok added then fits (pool i1) → is_exceeded (pool i') = false else known i' = known i) ∧
      (∀ k h, results !! k = Some (inr h) ↔
        added !! k = Some (inr h) ∧ ¬ (is_Some (known i1 !! h) ∧ known i' !! h = None)) ∧
      (∀ k o h, os !! k = Some o → results !! k = Some (inr h) →
        is_Some (known i' !! h) ∨
        ∃ k' o' h', (k < k')%nat ∧ os !! k' = Some o' ∧ added !! k' = Some (inr h') ∧ same_place o o').
Proof.
  intros Hwf Hos Hroom. destruct (add_each_ok now origin os [] i Hwf Hos Hroom) as (added & i1 & evs & E & Ht & _).
  exists added, i1. pose proof (to_wf _ _ _ Ht) as W1. split_and!; [exact E| |].
  - intros Hev. unfold add_transactions. unfold add_each at 1. rewrite E. cbn [mbind outcome_bind app].
    assert (∃ d i2, (if existsb is_ok added then inner_discard_worst fuel i1 else Done ([], i1)) = Done (d, i2)) as (d & i2 & ->).
    { destruct (existsb is_ok added); [|by exists [], i1]. destruct Hev as [?|Hev]; [done|].
      destruct (inner_discard_ends fuel i1 W1 Hev) as [[d i2] ->]. by exists d, i2. }
    cbn [mbind outcome_bind]. destruct d; by eexists.
  - intros results i' (added' & i1' & hs & i2 & evs' & E' & Ht' & Ha & Hd & -> & ->)%batch_returned; [|done..].
    unfold add_each in E'. rewrite E in E'. injection E' as <- <-. clear Ht'. change (known (report _ i2)) with (known i2).
    assert (inner_wf (report (CallDiscarded <$> hs) i2) ∧
      (if existsb is_ok added then fits (pool i1) → is_exceeded (pool i2) = false else known i2 = known i) ∧
      ∀ h, h ∈ hs ↔ is_Some (known i1 !! h) ∧ known i2 !! h = None) as (W2 & Hx & Hin).
    { destruct (existsb is_ok added) eqn:Eo.
      - destruct (inner_discard_returned fuel i1 hs i2 W1 Hd) as (_ & Hst & Hx & _ & Hin). split_and!; [apply Hst|done|done].
      - destruct Hd as [-> ->]. rewrite report_nil. split_and!; [done|by apply (ba_none _ _ _ _ Ha)|].
        intros h. split; [by intros ?%elem_of_nil|]. intros [[x Hx] Hn]. congruence. }
    split_and!; [done|by apply corrected_answers, Ha|done|intros k h; by rewrite corrected_ok, Hin|].
    intros k o h Ho [Hr Hn]%corrected_ok. destruct (ba_accepted _ _ _ _ Ha k o h Ho Hr) as [Hk|?]; [left|by right].
    rewrite Hin in Hn. destruct (known i2 !! h) eqn:E2; [by eexists|]. by destruct Hn.
Qed.

(** A new block, with account changes given by addresses: the call succeeds, keeps
    the invariant, and a transaction is in the pool afterwards exactly if it was before,
    was not mined, and its nonce is not below the one the last change of its sender's
    account names. *)
Theorem inner_block_ok u i :
  inner_wf i → inner_room i → fees_in_range (cu_pending_block_base_fee u) (cu_pending_block_blob_fee u) →
  si_id (identifiers i) + Z.of_nat (length (cu_changed_accounts u)) < U64 →
  ∃ i', inner_on_canonical_state_change u i = Done i' ∧ inner_wf i' ∧
    ∀ h tx, get_tx h (pool i') = Some tx ↔
      get_tx h (pool i) = Some tx ∧ h ∉ cu_mined_transactions u ∧ outdated (cu_changed_accounts u) tx = false.
Proof.
  intros Hwf [Hroom _] [Hb Hf] Hids.
  destruct (inner_canonical_lemma u i Hwf) as (i' & evs & E & Hst & Hk & _); [|done|..].
  - eapply room_weaken; [|exact Hroom]. unfold all_len. lia.
  - apply (fees_of_info (cu_block_info u)); [apply Hwf|done|done].
  - exists i'. split_and!; [done|apply Hst|exact Hk].
Qed.
End steps.

(** ** Transactions that must not be propagated *)
Section private.
Context {TO : TransactionOrdering} {S : Type} {BS : BlobStore S} {BL : BlobStoreLaws S}.
Implicit Types (i : PoolInner S) (tx : ValidPoolTransaction).

(** All listeners behind channel [c] only take transactions that may be propagated. *)
Definition network_channel (c : nat) i : Prop :=
  ∀ l, l ∈ pending_transaction_listener i ++ transaction_listener i → ls_sender l = c → ls_kind l = PropagateOnly.

(** A message about a transaction is about one of the pool that may be propagated. *)
Definition discreet (c : nat) (p : TxPool) (a : Attempt) : Prop :=
  at_chan a = c →
  match at_msg a with
  | MsgHash h => ∃ tx, get_tx h p = Some tx ∧ propagate tx = true
  | MsgNew e => get_tx (hash (ne_transaction e)) p = Some (ne_transaction e) ∧ propagate (ne_transaction e) = true
  | _ => True
  end.

Definition grows (P : Attempt → Prop) (w w' : World) : Prop := ∃ att, log w' = log w ++ att ∧ Forall P att.

Lemma grows_refl P w : grows P w w.
Proof. exists []. by rewrite app_nil_r. Qed.
Lemma grows_trans P w1 w2 w3 : grows P w1 w2 → grows P w2 w3 → grows P w1 w3.
Proof.
  intros (a & E & Ha) (b & E' & Hb). exists (a ++ b). rewrite E', E, (assoc_L (++)). split; [done|by apply Forall_app].
Qed.
Lemma grows_impl (P Q : Attempt → Prop) w w' : (∀ a, P a → Q a) → grows P w w' → grows Q w w'.
Proof. intros HPQ (a & E & Ha). exists a. split; [done|]. by eapply Forall_impl. Qed.

Lemma retain_grows {A} P (f : A → World → bool * World) l w :
  (∀ x w, x ∈ l → grows P w (f x w).2) → grows P w (retain f l w).2.
Proof.
  revert w. induction l as [|x l IH]; intros w Hf; simpl; [apply grows_refl|].
  pose proof (Hf x w ltac:(by left)) as H1. destruct (f x w) as [k w1]. simpl in *.
  specialize (IH w1). destruct (retain f l w1) as [l' w2]. simpl in *.
  eapply grows_trans; [exact H1|]. apply IH. intros y w' Hy. apply Hf. by right.
Qed.

Lemma try_send_grows P c m w : (∀ r, P (mkAttempt c m r)) → grows P w (try_send c m w).2.
Proof. intros Hp. eexists [_]. split; [reflexivity|]. by repeat constructor. Qed.

Lemma send_all_grows P c msgs w :
  (∀ m r, m ∈ msgs → P (mkAttempt c m r)) → grows P w (send_all c msgs w).2.
Proof.
  revert w. induction msgs as [|m msgs IH]; intros w Hp; simpl; [apply grows_refl|].
  pose proof (try_send_grows P c m w (λ r, Hp m r ltac:(by left))) as H1. unfold try_send in H1. simpl in H1.
  destruct (schedule w (length (log w))); simpl; [|done|done].
  eapply grows_trans; [exact H1|]. apply IH. intros m' r Hm. apply Hp. by right.
Qed.

(** Reports carry no hashes and no new transactions. *)
Definition report_msg (a : Attempt) : Prop :=
  match at_msg a with MsgEvent _ _ | MsgFull _ => True | _ => False end.

Lemma broadcast_event_grows h e pe b w : grows report_msg w (broadcast_event h e pe b w).2.
Proof.
  unfold broadcast_event.
  assert (H1 : ∀ l w, grows report_msg w (broadcast_by_hash h e l w).2).
  { intros l w0. apply retain_grows. intros c w1 _.
    pose proof (try_send_grows report_msg c (MsgEvent h e) w1 (λ _, I)). by destruct (try_send _ _ w1). }
  assert (H2 : ∀ l w, grows report_msg w (broadcast_all pe l w).2).
  { intros l w0. apply retain_grows. intros c w1 _.
    pose proof (try_send_grows report_msg c (MsgFull pe) w1 (λ _, I)). by destruct (try_send _ _ w1). }
  destruct (broadcasters_by_hash b !! h) as [l|]; [|specialize (H2 (all_events_broadcaster b) w); by destruct (broadcast_all _ _ _)].
  specialize (H1 l w). destruct (broadcast_by_hash h e l w) as [l' w1]. simpl in *.
  specialize (H2 (all_events_broadcaster b) w1). destruct (broadcast_all _ _ _). simpl in *. by eapply grows_trans.
Qed.

Lemma calls_grows ks b w : grows report_msg w (calls ks (b, w)).2.
Proof.
  revert b w. induction ks as [|k ks IH]; intros b w; [apply grows_refl|].
  change (calls (k :: ks) (b, w)) with (calls ks (call k (b, w))).
  assert (H1 : grows report_msg w (call k (b, w)).2).
  { destruct k as [h [tx|]|tx r|h|h peers|h|h bh|h|]; simpl; try apply broadcast_event_grows.
    - unfold ev_pending. pose proof (broadcast_event_grows h EvPending (FullPending h) b w) as H1.
      destruct (broadcast_event h EvPending _ b w) as [b1 w1]. eapply grows_trans; [exact H1|]. apply broadcast_event_grows.
    - unfold ev_pending. pose proof (broadcast_event_grows h EvPending (FullPending h) b w) as H1.
      by destruct (broadcast_event h EvPending _ b w) as [b1 w1].
    - exists []. by rewrite app_nil_r.
    - exists []. by rewrite app_nil_r. }
  destruct (call k (b, w)) as [b1 w1]. eapply grows_trans; [exact H1|apply IH].
Qed.

Lemma report_grows c p ks i : grows (discreet c p) (world i) (world (report ks i)).
Proof.
  eapply grows_impl; [|apply (calls_grows ks (event_listener i) (world i))].
  intros a Ha _. unfold report_msg in Ha. by destruct (at_msg a).
Qed.

Lemma retain_subseteq {A} (f : A → World → bool * World) l w : (retain f l w).1 ⊆ l.
Proof.
  revert w. induction l as [|x l IH]; intros w; simpl; [done|].
  destruct (f x w) as [k w1]. specialize (IH w1). destruct (retain f l w1) as [l' w2]. simpl in *.
  destruct k; set_solver.
Qed.

Lemma network_subseteq c i i' :
  pending_transaction_listener i' ⊆ pending_transaction_listener i →
  transaction_listener i' ⊆ transaction_listener i → network_channel c i → network_channel c i'.
Proof. intros H1 H2 Hn l Hl. apply Hn. set_solver. Qed.

(** What is filtered for a listener of the network may be propagated. *)
Lemma for_kind_propagate tx txs : tx ∈ for_kind PropagateOnly txs → tx ∈ txs ∧ propagate tx = true.
Proof.
  intros [Hp Hin]%list_elem_of_filter. split; [done|]. simpl in Hp. by destruct (propagate tx).
Qed.

Lemma hashes_discreet c p k l txs m r :
  (l = c → k = PropagateOnly) → (∀ tx, tx ∈ txs → get_tx (hash tx) p = Some tx) →
  m ∈ pending_hashes k txs → discreet c p (mkAttempt l m r).
Proof.
  intros Hk Hin (tx & -> & Htx)%list_elem_of_fmap Hc. simpl in *. rewrite (Hk Hc) in Htx.
  apply for_kind_propagate in Htx as [? ?]. exists tx. eauto.
Qed.

Lemma full_discreet c p k l txs m r :
  (l = c → k = PropagateOnly) → (∀ tx, tx ∈ txs → get_tx (hash tx) p = Some tx) →
  m ∈ full_pending k txs → discreet c p (mkAttempt l m r).
Proof.
  intros Hk Hin (tx & -> & Htx)%list_elem_of_fmap Hc. simpl in *. rewrite (Hk Hc) in Htx.
  apply for_kind_propagate in Htx as [? ?]. simpl. eauto.
Qed.

Lemma probe_grows c p l w : grows (discreet c p) w (is_closed l w).2.
Proof. apply (try_send_grows _ l Probe). done. Qed.

Lemma on_new_pending_grows c p tx promoted i :
  network_channel c i → (∀ x, x ∈ tx :: promoted → get_tx (hash x) p = Some x) →
  grows (discreet c p) (world i) (world (on_new_pending_transaction tx promoted i)).
Proof.
  intros Hn Hin. apply retain_grows. intros l w Hl. case_match.
  - pose proof (probe_grows c p (ls_sender l) w). by destruct (is_closed _ w).
  - apply send_all_grows. intros m r Hm. eapply hashes_discreet; [|exact Hin|exact Hm].
    apply Hn. set_solver.
Qed.

Lemma on_new_transaction_grows c p e i :
  network_channel c i → get_tx (hash (ne_transaction e)) p = Some (ne_transaction e) →
  grows (discreet c p) (world i) (world (on_new_transaction e i)).
Proof.
  intros Hn Hin. apply retain_grows. intros l w Hl. case_match eqn:Eg.
  - pose proof (probe_grows c p (ls_sender l) w). by destruct (is_closed _ w).
  - apply send_all_grows. intros m r ->%list_elem_of_singleton Hc. simpl in *. split; [done|].
    rewrite (Hn l) in Eg; [|set_solver|done]. simpl in Eg. by destruct (propagate _).
Qed.

Lemma on_new_blob_sidecar_grows c p h d i : grows (discreet c p) (world i) (world (on_new_blob_sidecar h d i)).
Proof. apply retain_grows. intros l w _. apply send_all_grows. intros m r ->%list_elem_of_singleton _. done. Qed.

Lemma notify_grows c p o i :
  network_channel c i → (∀ x, x ∈ oc_promoted o → get_tx (hash x) p = Some x) →
  grows (discreet c p) (world i) (world (notify_on_new_state o i)).
Proof.
  intros Hn Hin. unfold notify_on_new_state. set (i1 := set_pending_listeners _ i).
  set (i2 := set_transaction_listeners _ i1).
  apply (grows_trans _ _ (world i1)); [|apply (grows_trans _ _ (world i2)); [|apply report_grows]].
  - apply retain_grows. intros l w Hl. apply send_all_grows. intros m r Hm.
    eapply hashes_discreet; [|exact Hin|exact Hm]. apply Hn. set_solver.
  - apply retain_grows. intros l w Hl. apply send_all_grows. intros m r Hm.
    eapply full_discreet; [|exact Hin|exact Hm]. apply Hn. simpl in Hl. set_solver.
Qed.

Lemma after_insertion_grows c p a d i :
  network_channel c i → get_tx (hash (added_tx a)) p = Some (added_tx a) →
  (∀ tx r pr di, a = AddedPending tx r pr di → ∀ x, x ∈ pr → get_tx (hash x) p = Some x) →
  grows (discreet c p) (world i) (world (after_insertion a d i)).
Proof.
  intros Hn Ha Hp. unfold after_insertion. set (h := hash (added_tx a)).
  set (i1 := match d with Some x => insert_blob h x (on_new_blob_sidecar h x i) | None => i end).
  assert (G1 : grows (discreet c p) (world i) (world i1) ∧ network_channel c i1).
  { unfold i1. destruct d; [|split; [apply grows_refl|done]]. split; [apply on_new_blob_sidecar_grows|done]. }
  set (i2 := match replaced_blob_transaction a with Some r => delete_blob r i1 | None => i1 end).
  assert (E2 : world i2 = world i1 ∧ network_channel c i2)
    by (destruct G1 as [_ N1]; unfold i2; destruct (replaced_blob_transaction a); done).
  set (i3 := match a with AddedPending tx _ promoted _ => on_new_pending_transaction tx promoted i2 | AddedParked _ _ _ => i2 end).
  assert (G3 : grows (discreet c p) (world i2) (world i3) ∧ network_channel c i3).
  { unfold i3. destruct a as [tx r pr di|]; [|split; [apply grows_refl|apply E2]]. split.
    - apply on_new_pending_grows; [apply E2|]. intros x [->|Hx]%elem_of_cons; [done|by eapply Hp].
    - eapply network_subseteq; [| |apply E2]; [apply retain_subseteq|done]. }
  destruct G1 as [G1 N1], E2 as [E2 N2], G3 as [G3 N3]. rewrite E2 in G3.
  set (i4 := notify_event_listeners a i3).
  set (i5 := match discarded_transactions a with Some l => delete_discarded_blobs l i4 | None => i4 end).
  assert (E5 : world i5 = world i4 ∧ network_channel c i5) by (unfold i5; destruct (discarded_transactions a); split; done).
  destruct E5 as [E5 N5]. eapply grows_trans; [exact G1|]. eapply grows_trans; [exact G3|].
  eapply grows_trans; [apply (report_grows c p (added_calls a))|]. change (world (report _ i3)) with (world i4). rewrite <-E5.
  apply on_new_transaction_grows; [done|]. by destruct a.
Qed.

(** Promoted transactions are in the pool. *)
Lemma pending_known p j tx : pool_wf p → sub_txs p Pending !! j = Some tx → get_tx (hash tx) p = Some tx.
Proof. intros W (t & Ht & <- & _)%(tr_sync _ _ W). by apply (pool_wf_found p j). Qed.

Lemma add_grows c now origin o r i i' :
  inner_wf i → inner_room i → outcome_ok o → network_channel c i →
  inner_add_transaction now origin o i = Done (r, i') → grows (discreet c (pool i')) (world i) (world i').
Proof.
  intros Hwf [Hroom Hids] Hok Hn. destruct o as [bal n v prop|tx err|h]; simpl.
  2, 3: intros [= _ <-]; apply report_grows.
  destruct (get_sender_id_ok (tx_sender (valid_tx v)) i Hwf Hids) as (W1 & Hsb & _).
  destruct Hok as (Hu1 & Hu2 & Hu3 & Hu4 & Hle).
  assert (Hl : pending_transaction_listener (get_sender_id (tx_sender (valid_tx v)) i).2 = pending_transaction_listener i ∧
    transaction_listener (get_sender_id (tx_sender (valid_tx v)) i).2 = transaction_listener i).
  { unfold get_sender_id. by destruct (sender_id_or_create _ _). }
  destruct (get_sender_id (tx_sender (valid_tx v)) i) as [s i1]. simpl in *.
  set (tx := mkValidPoolTransaction _ _ _ _ _). pose proof (sb_pool _ _ Hsb) as Ep.
  pose proof (add_transaction_lemma tx bal n (pool i1) (iw_pool _ W1) ltac:(by split) Hle) as Hadd.
  rewrite Ep in Hadd |- *. assert (Hr : room (pool i) (all_len (all_transactions (pool i)) + 2)).
  { eapply room_weaken; [|exact Hroom]. unfold all_len. lia. }
  specialize (Hadd Hr).
  destruct (contains (hash tx) (pool i)); [|destruct (insert_error tx bal _ _) as [e|]].
  1, 2: rewrite Hadd; intros [= _ <-]; simpl; rewrite (sb_world _ _ Hsb); apply grows_refl.
  destruct Hadd as (a & p' & -> & Ha). cbn [mbind outcome_bind]. intros [= _ <-].
  pose proof (ad_wf _ _ _ _ Ha) as Wp'. destruct (added_replaced_spec _ _ _ _ Ha) as (Et & _ & _).
  assert (Epool : pool (after_insertion a (match v with Valid _ => None | ValidWithSidecar _ d => Some d end) (set_pool p' i1)) = p').
  { unfold after_insertion. by destruct (discarded_transactions a), a, (replaced_blob_transaction _), v. }
  rewrite Epool, <-(sb_world _ _ Hsb). apply (after_insertion_grows c p' a _ (set_pool p' i1)).
  - eapply network_subseteq; [| |exact Hn]; simpl; destruct Hl as [E1 E2]; by rewrite ?E1, ?E2.
  - rewrite Et. exact (ad_get _ _ _ _ Ha).
  - intros tx0 r0 pr di -> x Hx. pose proof (ad_result _ _ _ _ Ha) as (_ & _ & _ & _ & Hpr).
    apply Hpr in Hx as (j & _ & Hj & _). by eapply pending_known.
Qed.

Lemma changed_senders_listeners accs i :
  pending_transaction_listener (changed_senders accs i).2 = pending_transaction_listener i ∧
  transaction_listener (changed_senders accs i).2 = transaction_listener i.
Proof.
  induction accs as [|acc accs IH] using rev_ind; [done|]. rewrite changed_senders_snoc.
  destruct (changed_senders accs i) as [m i1]. unfold get_sender_id. by destruct (sender_id_or_create _ _).
Qed.

Lemma block_grows c u i i' :
  inner_wf i → inner_room i → fees_in_range (cu_pending_block_base_fee u) (cu_pending_block_blob_fee u) →
  si_id (identifiers i) + Z.of_nat (length (cu_changed_accounts u)) < U64 → network_channel c i →
  inner_on_canonical_state_change u i = Done i' → grows (discreet c (pool i')) (world i) (world i').
Proof.
  intros Hwf [Hroom _] [Hb Hf] Hids Hn. unfold inner_on_canonical_state_change.
  pose proof (changed_senders_ok (cu_changed_accounts u) i Hwf Hids) as Hch.
  pose proof (changed_senders_listeners (cu_changed_accounts u) i) as Hl.
  destruct (changed_senders (cu_changed_accounts u) i) as [m i1]. simpl in Hl.
  destruct Hch as (W1 & Hsb & _). pose proof (sb_pool _ _ Hsb) as Ep.
  destruct (canonical_lemma (cu_block_info u) (cu_mined_transactions u) m (pool i1) (iw_pool _ W1))
    as (o & p' & E & Wp & _ & _ & _ & _ & Hpr).
  { rewrite Ep. eapply room_weaken; [|exact Hroom]. unfold all_len. lia. }
  { rewrite Ep. apply (fees_of_info (cu_block_info u)); [apply Hwf|done|done]. }
  rewrite E. cbn [mbind outcome_bind]. intros [= <-]. rewrite <-(sb_world _ _ Hsb).
  set (i2 := delete_discarded_blobs (oc_discarded o) (set_pool p' i1)).
  change (grows (discreet c p') (world i2) (world (notify_on_new_state o i2))). apply notify_grows.
  - eapply network_subseteq; [| |exact Hn]; simpl; destruct Hl as [E1 E2]; by rewrite ?E1, ?E2.
  - intros x (j & Hj & _)%Hpr. by eapply pending_known.
Qed.

(** The actions a call is made of, as the network can tell them apart: a batch is its
    additions one after the other, the eviction and the notice about what was evicted; the
    other methods are one action. *)
Inductive inner_action : PoolInner S → PoolInner S → Prop :=
| ActAdd i now origin o r i' : outcome_ok o → inner_add_transaction now origin o i = Done (r, i') → inner_action i i'
| ActDiscard i fuel hs i' : inner_discard_worst fuel i = Done (hs, i') → inner_action i i'
| ActNotify i ks : inner_action i (report ks i)
| ActMethod q i i' : (∀ os, q ≠ ReqAdd os) → inner_step q i i' → inner_action i i'.

Lemma add_each_actions now origin os acc i added i1 :
  Forall outcome_ok os →
  for_each (λ o st, '(r, i) ← inner_add_transaction now origin o st.2; Done (st.1 ++ [r], i)) os (acc, i) = Done (added, i1) →
  rtc inner_action i i1.
Proof.
  intros Hos. revert acc i. induction Hos as [|o os Ho _ IH]; intros acc i; cbn [for_each]; [intros [= _ <-]; apply rtc_refl|].
  intros ([acc1 j] & ([r j1] & Ha & [= <- <-])%bind_Done_inv & E)%bind_Done_inv. simpl in *.
  eapply rtc_l; [by eapply ActAdd|by eapply IH].
Qed.
Lemma batch_actions fuel now origin os i results i' :
  Forall outcome_ok os → add_transactions fuel now origin os i = Done (results, i') → rtc inner_action i i'.
Proof.
  intros Hos. unfold add_transactions. intros ([added i1] & E & ([hs i2] & Hd & Hres)%bind_Done_inv)%bind_Done_inv.
  pose proof (add_each_actions _ _ _ _ _ _ _ Hos E) as H1.
  assert (rtc inner_action i1 i2) as H2.
  { destruct (existsb is_ok added); [apply rtc_once; by eapply ActDiscard|injection Hd as _ <-; apply rtc_refl]. }
  etrans; [exact H1|]. etrans; [exact H2|]. destruct hs; injection Hres as _ <-; [apply rtc_refl|apply rtc_once, ActNotify].
Qed.

(** C25. The network never learns of a private transaction: whatever the pool does, every
    hash and every transaction it sends over a channel whose listeners only take
    transactions that may be propagated belongs to a transaction that is in the pool and
    may be propagated.  Stated for each action: an addition of a batch, the eviction that
    follows, the notice about it, or a call of another method. *)
Theorem private_not_announced c i i' :
  inner_wf i → inner_room i → inner_action i i' → network_channel c i →
  ∃ att, log (world i') = log (world i) ++ att ∧ Forall (discreet c (pool i')) att.
Proof.
  intros Hwf Hir Hact. revert Hwf Hir.
  destruct Hact as [i now origin o r i' Ho Hrun|i fuel hs i' Hrun|i ks|q i i' Hq Hstep]; intros Hwf Hir Hn.
  { by eapply add_grows. }
  { unfold inner_discard_worst in Hrun. apply bind_Done_inv in Hrun as ([d p] & _ & [= <- <-]). apply grows_refl. }
  { apply report_grows. }
  destruct Hstep as [i fuel now origin os results i' Ho Hb Hrun|i fuel now origin o r i' Ho Hb Hrun|i hashes removed i' Hrun
    |i u i' Hf Hu Hrun|i accs i' Hu Hrun|i info i' Hf Hrun|i h|i hs|i|i a|i txs|i h|i|i k|i k|i].
  - by destruct (Hq os).
  - by destruct (Hq [o]).
  - unfold inner_remove_transactions in Hrun. destruct hashes; [injection Hrun as _ <-; apply grows_refl|].
    apply bind_Done_inv in Hrun as ([d p] & _ & [= _ <-]).
    apply (report_grows c _ _ (set_pool p i)).
  - by eapply block_grows.
  - unfold inner_update_accounts in Hrun. pose proof (changed_senders_ok accs i Hwf Hu) as Hch.
    destruct (changed_senders accs i) as [m i1]. destruct Hch as (_ & Hsb & _).
    apply bind_Done_inv in Hrun as ([o p] & _ & [= <-]). rewrite <-(sb_world _ _ Hsb).
    apply (report_grows c _ _ (set_pool p i1)).
  - unfold inner_set_block_info in Hrun. apply bind_Done_inv in Hrun as (p & _ & [= <-]). apply grows_refl.
  - apply grows_refl.
  - apply grows_refl.
  - apply grows_refl.
  - unfold inner_get_transactions_by_sender, get_sender_id. destruct (sender_id_or_create _ _). apply grows_refl.
  - destruct txs; [apply grows_refl|apply report_grows].
  - exists []. unfold add_transaction_event_listener. destruct (contains h (pool i)); by rewrite app_nil_r.
  - exists []. by rewrite app_nil_r.
  - exists []. by rewrite app_nil_r.
  - exists []. by rewrite app_nil_r.
  - exists []. by rewrite app_nil_r.
Qed.
End private.

(** ** Rejections *)
Section rejections.
Context {TO : TransactionOrdering} {S : Type} {BS : BlobStore S} {BL : BlobStoreLaws S}.
Implicit Types (i : PoolInner S).

Lemma insert_error_bad e tx bal anc a :
  insert_error tx bal anc a = Some e →
  (is_bad_transaction (pool_error e) = true ↔
    pe_kind (pool_error e) = InvalidTransaction (ExceedsGasLimit (block_gas_limit a) (gas_limit tx))) ∧
  (is_bad_transaction (pool_error e) = true → block_gas_limit a < gas_limit tx).
Proof.
  unfold insert_error, ensure_valid, ensure_valid_blob_transaction. intros H.
  repeat case_match; simplify_eq/=; (split; [by split|]); intros Hb; first [done|by apply Z.ltb_lt].
Qed.

Lemma rejection_reason now origin bal n v prop i e i' :
  inner_wf i → inner_room i → outcome_ok (OutcomeValid bal n v prop) →
  inner_add_transaction now origin (OutcomeValid bal n v prop) i = Done (inl e, i') →
  let limit := block_gas_limit (all_transactions (pool i)) in
  (is_bad_transaction e = true ↔
    pe_kind e = InvalidTransaction (ExceedsGasLimit limit (tx_gas_limit (valid_tx v)))) ∧
  (is_bad_transaction e = true → limit < tx_gas_limit (valid_tx v)).
Proof.
  intros Hwf [Hroom Hids] (Hu1 & Hu2 & Hu3 & Hu4 & Hle) Hrun. cbv zeta. unfold inner_add_transaction in Hrun.
  destruct (get_sender_id_ok (tx_sender (valid_tx v)) i Hwf Hids) as (W1 & Hsb & _).
  destruct (get_sender_id (tx_sender (valid_tx v)) i) as [s i1]. simpl in *.
  set (tx := mkValidPoolTransaction _ _ _ _ _) in *. pose proof (sb_pool _ _ Hsb) as Ep.
  pose proof (add_transaction_lemma tx bal n (pool i1) (iw_pool _ W1) ltac:(by split) Hle) as Hadd.
  rewrite Ep in Hadd, Hrun.
  assert (Hr : room (pool i) (all_len (all_transactions (pool i)) + 2)).
  { eapply room_weaken; [|exact Hroom]. unfold all_len. lia. }
  specialize (Hadd Hr).
  destruct (contains (hash tx) (pool i)); [|destruct (insert_error tx bal _ _) as [err|] eqn:Hins].
  - rewrite Hadd in Hrun. injection Hrun as <- _. done.
  - rewrite Hadd in Hrun. injection Hrun as <- _. exact (insert_error_bad _ _ _ _ _ Hins).
  - destruct Hadd as (a & p' & E & _). rewrite E in Hrun. done.
Qed.

(** C36. A peer that sends a transaction the validator accepts is held responsible for its
    rejection by the pool only if the gas limit of the transaction exceeds that of the
    block; all other rejections depend on the pool's state.  The error names the two
    limits in the order that its message has them reversed: the limit of the block
    stands where the message expects that of the transaction. *)
Theorem rejection_penalised now origin bal n v prop i e i' :
  inner_wf i → inner_room i → outcome_ok (OutcomeValid bal n v prop) →
  inner_add_transaction now origin (OutcomeValid bal n v prop) i = Done (inl e, i') →
  let limit := block_gas_limit (all_transactions (pool i)) in
  (is_bad_transaction e = true ↔
    pe_kind e = InvalidTransaction (ExceedsGasLimit limit (tx_gas_limit (valid_tx v)))) ∧
  (is_bad_transaction e = true → limit < tx_gas_limit (valid_tx v)).
Proof. exact (rejection_reason now origin bal n v prop i e i'). Qed.
End rejections.
