(* ===== verification/ValidateSteps.v ===== *)
(** * Validation and the pool

    The validator in front of the pool: whom the node blames for a rejection, what it
    says about private transactions, and which forks it applies. *)

From stdpp Require Import prelude gmap list sorting strings.
From S2P Require Import Prelude.
From S2P Require Import Ord.
From S2P Require Import Identifier.
From S2P Require Import State.
From S2P Require Import PoolTx.
From S2P Require Import AllTxs.
From S2P Require Import Forks.
From S2P Require Import Errors.
From S2P Require Import Events.
From S2P Require Import BlobStore.
From S2P Require Import Transaction.
From S2P Require Import TxPool.
From S2P Require Import Inner.
From S2P Require Import Validate.
From S2P Require Import PoolOps.
From S2P Require Import PoolFees.
From S2P Require Import PoolEvict.
From S2P Require Import PoolSteps.
From S2P Require Import InnerOps.
From S2P Require Import InnerSteps.

Section composed.
Context {TO : TransactionOrdering} {S : Type} {BS : BlobStore S} {BL : BlobStoreLaws S}.
Context (initial_gas : SpecId → list Z → bool → AccessList → Z → Z).
Context (kzg_ok : list Z → Sidecar → bool) (MAX_BLOBS_PER_BLOCK : Z).
Notation validate_one := (validate_one initial_gas kzg_ok MAX_BLOBS_PER_BLOCK).
Implicit Types (i : PoolInner S) (v : EthTransactionValidatorInner) (tx : EthPooledTransaction).

(** A transaction with fields of the widths of the code, whose nonce has a successor. *)
Record pooled_ok tx : Prop := {
  po_tx : Tx.tx_ok (ec_transaction (ep_transaction tx));
  po_nonce : Tx.nonce (ec_transaction (ep_transaction tx)) < u64_max;
  po_input : is_u64 (Z.of_nat (length (Tx.input (ec_transaction (ep_transaction tx)))));
}.

Lemma valid_tx_new p d : valid_tx (ValidTransaction_new p d) = p.
Proof. by destruct d. Qed.

(** What the validator lets through meets the conditions under which the pool is shown
    correct. *)
Lemma validated_outcome_ok v latest_account store origin tx :
  pooled_ok tx → outcome_ok (validate_one v latest_account store origin tx).
Proof.
  intros [[[? ?] ? Hf ? Hb ?] Hn Hi]. destruct (validate_one v latest_account store origin tx) as [bal n w prop|?|?] eqn:E; [|done..].
  apply validate_one_spec in E as (_ & maybe & d & _ & _ & Hle & _ & _ & _ & -> & -> & _).
  unfold outcome_ok. rewrite valid_tx_new. simpl. by split_and!.
Qed.

(** C40. Peers are blamed by the validator only: if the gas limit the validator enforces is
    not above the one of the pool, then adding what the validator returns ends in an error
    that counts against the sender of the transaction only if the validator has rejected
    it with an error of that kind. *)
Theorem blame_only_by_validator v latest_account now origin tx i e i' :
  inner_wf i → inner_room i → pooled_ok tx → v_block_gas_limit v ≤ block_gas_limit (all_transactions (pool i)) →
  inner_add_transaction now origin (validate_one v latest_account (blob_store i) origin tx) i = Done (inl e, i') →
  is_bad_transaction e = true →
  ∃ err, validate_one v latest_account (blob_store i) origin tx = OutcomeInvalid (pool_view tx) err ∧
    invalid_is_bad err = true ∧ e = mkPoolError (ec_hash (ep_transaction tx)) (InvalidTransaction err).
Proof.
  intros Hwf Hroom Hok Hgas Hrun Hbad. pose proof (validated_outcome_ok v latest_account (blob_store i) origin tx Hok) as Ho.
  destruct (validate_one v latest_account (blob_store i) origin tx) as [bal n w prop|p err|h] eqn:E.
  - exfalso. destruct (rejection_reason now origin bal n w prop i e i' Hwf Hroom Ho Hrun) as [_ Hlim].
    specialize (Hlim Hbad). apply validate_one_spec in E as ([_ _ _ Hg _ _ _ _ _] & maybe & d & _ & _ & _ & _ & _ & _ & _ & -> & _).
    rewrite valid_tx_new in Hlim. simpl in Hlim. lia.
  - injection Hrun as <- _. exists err. unfold Validate.validate_one in E. repeat case_match; simplify_eq/=; by split_and!.
  - by injection Hrun as <- _.
Qed.

(** Private transactions stay private: if a transaction that must not be propagated,
    one of private origin or a local one while local transactions are not propagated, is
    validated and added, then nothing sent over a channel of the network names it, and it
    is not among the hashes the node would announce to a new peer. *)
Theorem private_end_to_end c v latest_account now origin tx i h i' :
  inner_wf i → inner_room i → pooled_ok tx → network_channel c i → propagates v origin = false →
  inner_add_transaction now origin (validate_one v latest_account (blob_store i) origin tx) i = Done (inr h, i') →
  h = ec_hash (ep_transaction tx) ∧ h ∉ pooled_transactions_hashes i' ∧
  ∃ att, log (world i') = log (world i) ++ att ∧
    ∀ a, a ∈ att → at_chan a = c →
      match at_msg a with MsgHash h' => h' ≠ h | MsgNew e => hash (ne_transaction e) ≠ h | _ => True end.
Proof.
  intros Hwf Hroom Hok Hn Hp Hrun. pose proof Hroom as [Hr Hids].
  pose proof (validated_outcome_ok v latest_account (blob_store i) origin tx Hok) as Ho.
  set (o := validate_one v latest_account (blob_store i) origin tx) in *.
  destruct (add_grows c now origin o (inr h) i i' Hwf Hroom Ho Hn Hrun) as (att & Hl & Hatt).
  destruct (inner_add_lemma now origin o i Hwf Ho) as (r & i1 & evs & E & Hst & Hres & _); [|done|].
  { eapply room_weaken; [|exact Hr]. unfold all_len. lia. }
  rewrite Hrun in E. injection E as <- <-.
  destruct o as [bal n w prop|p err|h'] eqn:Eo; [|by destruct Hres..]. unfold o in Eo.
  apply validate_one_spec in Eo as (_ & maybe & d & _ & _ & _ & _ & _ & _ & _ & -> & ->).
  destruct Hres as (-> & Hnew & x & Hx & Hprop & Hk & _). rewrite valid_tx_new in *. rewrite Hp in Hprop.
  change (tx_hash (pool_view tx)) with (ec_hash (ep_transaction tx)) in *.
  assert (Hget : known i' !! ec_hash (ep_transaction tx) = Some x) by (apply Hk; by left).
  split_and!; [done| |].
  - unfold pooled_transactions_hashes, pooled_transactions, transactions_iter.
    intros (y & Ey & [Hy%Is_true_true Hin]%list_elem_of_filter)%list_elem_of_fmap.
    apply list_elem_of_fmap in Hin as ([h2 y2] & -> & Hin). apply elem_of_map_to_list in Hin. simpl in *.
    assert (h2 = hash y2) as ->.
    { pose proof (sp_wf _ _ _ Hst) as W'. by apply (pool_wf_hash _ _ _ (iw_pool _ W')) in Hin as [? _]. }
    rewrite <-Ey in Hin. unfold known in Hget. congruence.
  - exists att. split; [done|]. intros a Ha Hc. rewrite Forall_forall in Hatt. specialize (Hatt a Ha Hc).
    unfold known, get_tx in *. destruct (at_msg a); try done.
    + intros ->. destruct Hatt as (y & Hy & Hpy). congruence.
    + intros E. destruct Hatt as [Hy Hpy]. rewrite E in Hy. congruence.
Qed.
End composed.

(** ** Hard forks *)

(** The validator applies the forks of the chain: after it was built for a head and has
    seen any blocks, the Shanghai and Cancun rules apply exactly if one of those blocks
    lies at or after the fork; Prague is only looked up for the blocks seen since. *)
Theorem tracked_forks spec t0 ts :
  let h := vs_hardforks spec in
  let v := foldl (λ v t, on_new_head_block t v) (build (with_head_timestamp t0 (builder_new spec))) ts in
  shanghai (v_fork_tracker v) = existsb (λ t, is_shanghai_active_at_timestamp t h) (t0 :: ts) ∧
  cancun (v_fork_tracker v) = existsb (λ t, is_cancun_active_at_timestamp t h) (t0 :: ts) ∧
  prague (v_fork_tracker v) = existsb (λ t, is_prague_active_at_timestamp t h) ts ∧
  v_chain_spec v = spec.
Proof.
  intros h. induction ts as [|t ts IH] using rev_ind; [simpl; by rewrite !orb_false_r|].
  rewrite foldl_app. simpl. rewrite !existsb_app. simpl in IH.
  set (v := foldl _ _ ts) in *. destruct IH as (IHs & IHc & IHp & Es). unfold on_new_head_block. rewrite Es. fold h. simpl.
  rewrite !orb_false_r, <-IHp, !orb_assoc, <-IHs, <-IHc. clear IHs IHc IHp.
  destruct (is_cancun_active_at_timestamp t h), (is_shanghai_active_at_timestamp t h), (is_prague_active_at_timestamp t h);
    simpl; by rewrite ?orb_true_r, ?orb_false_r.
Qed.
