(* ===== verification/PoolExamples.v ===== *)
(** * Concrete pools

    Pools built with the pool's own operations.  They show that the hypotheses of
    the theorems about the pool can be met, and some of them end in states the
    documentation of the code rules out. *)

From stdpp Require Import prelude gmap list sorting.
From S2P Require Import Prelude.
From S2P Require Import Ord.
From S2P Require Import Identifier.
From S2P Require Import State.
From S2P Require Import PoolTx.
From S2P Require Import SubPools.
From S2P Require Parked.
From S2P Require Blob.
From S2P Require Pending.
From S2P Require Import AllTxs.
From S2P Require Import Errors.
From S2P Require Import TxPool.
From S2P Require Import PoolOps.
From S2P Require Import PoolFees.
From S2P Require Import PoolEvict.
From S2P Require Import PoolSteps.

#[local] Existing Instance CoinbaseTipOrdering.

(** ** Construction *)

(** Adding a transaction of an account with nonce 0 and one million wei. *)
Definition example_add (p : TxPool) (tx : ValidPoolTransaction) : TxPool :=
  run_or p (snd <$> add_transaction tx 1000000 0 p).
Definition example_remove (p : TxPool) (h : Z) : TxPool :=
  run_or p (snd <$> remove_transactions [h] p).

Section construction.
Context (cfg : PoolConfig) (Hcfg : limits_ok cfg).

Lemma reach_add p tx :
  reachable 1 cfg p → room p (2 * all_len (all_transactions p) + 2) → vtx_ok tx → 0 ≤ vtx_nonce tx →
  reachable 1 cfg (example_add p tx).
Proof using Hcfg.
  intros Hr Hroom Hok Hn. destruct (reachable_inv 1 _ p ltac:(done) Hcfg Hr) as [W _].
  unfold example_add.
  assert (Hroom' : room p (all_len (all_transactions p) + 2)).
  { eapply room_weaken; [|exact Hroom]. unfold all_len. lia. }
  pose proof (add_transaction_lemma tx 1000000 0 p W Hok Hn Hroom') as H.
  assert (∃ r p', add_transaction tx 1000000 0 p = Done (r, p')) as (r & p' & E).
  { destruct (contains (hash tx) p); [by eauto|]. destruct (insert_error _ _ _ _); [by eauto|].
    destruct H as (r & p' & -> & _). by eauto. }
  rewrite E. simpl. eapply ReachStep; [exact Hr|exact Hroom|by eapply StepAdd].
Qed.

Lemma remove_step p h : pool_wf p → ∃ removed, step (RemoveTransactions [h] removed) p (example_remove p h).
Proof using.
  intros W. unfold example_remove.
  destruct (remove_loop [h] [] p W) as (r & p' & E & _). unfold remove_transactions. rewrite E. simpl.
  eexists. eapply (StepRemove p [h]). exact E.
Qed.

Lemma reach_remove p h :
  reachable 1 cfg p → room p (2 * all_len (all_transactions p) + 2) → reachable 1 cfg (example_remove p h).
Proof using Hcfg.
  intros Hr Hroom. destruct (reachable_inv 1 _ p ltac:(done) Hcfg Hr) as [W _].
  destruct (remove_step p h W) as [r Hs]. by eapply ReachStep.
Qed.

Lemma reach_wf p : reachable 1 cfg p → pool_wf p.
Proof using Hcfg. intros Hr. by apply (reachable_inv 1 cfg). Qed.
End construction.

Ltac in_room := vm_compute; repeat split; first [reflexivity|discriminate].
Ltac reach_adds :=
  cbn [foldl]; repeat (apply reach_add; [| |in_room|first [by apply example_vtx_ok|by apply example_blob_vtx_ok]|done]).

(** A configuration with room for two pending transactions. *)
Definition small_config : PoolConfig :=
  mkPoolConfig (mkSubPoolLimit 2 1000) SubPoolLimit_default SubPoolLimit_default SubPoolLimit_default
    TXPOOL_MAX_ACCOUNT_SLOTS_PER_SENDER PriceBumpConfig_default LocalTransactionConfig_default.

Lemma default_limits_ok : limits_ok PoolConfig_default.
Proof. intros []; by vm_compute. Qed.
Lemma small_limits_ok : limits_ok small_config.
Proof. intros []; by vm_compute. Qed.

(** Three transactions of one sender, and one of another. *)
Definition example_txs : list ValidPoolTransaction :=
  [example_vtx 1 1 0 50; example_vtx 2 1 1 50; example_vtx 3 1 2 50; example_vtx 4 2 0 30].
Definition example_pool : TxPool := foldl example_add (TxPool_new 1 PoolConfig_default) example_txs.
Definition small_pool : TxPool := foldl example_add (TxPool_new 1 small_config) example_txs.

Lemma example_pool_reachable : reachable 1 PoolConfig_default example_pool.
Proof. unfold example_pool, example_txs. reach_adds; first [apply ReachNew|apply default_limits_ok]. Qed.

Lemma small_pool_reachable : reachable 1 small_config small_pool.
Proof. unfold small_pool, example_txs. reach_adds; first [apply ReachNew|apply small_limits_ok]. Qed.

Lemma example_pool_wf : pool_wf example_pool.
Proof. apply (reach_wf PoolConfig_default), example_pool_reachable. apply default_limits_ok. Qed.
Lemma small_pool_wf : pool_wf small_pool.
Proof. apply (reach_wf small_config), small_pool_reachable. apply small_limits_ok. Qed.

(** ** Witnesses *)
Lemma on_canonical_state_change_ok_witness :
  ∃ out p', on_canonical_state_change (mkBlockInfo 9 9 40 None) [1] {[1 := mkSenderInfo 2 1000000]} example_pool
      = Done (out, p') ∧ pool_wf p' ∧ get_tx 1 p' = None.
Proof.
  destruct (on_canonical_state_change_ok (mkBlockInfo 9 9 40 None) [1] {[1 := mkSenderInfo 2 1000000]} example_pool
    example_pool_wf ltac:(in_room) ltac:(in_room)) as (out & p' & E & W & _ & _ & Hh & _).
  exists out, p'. split_and!; [exact E|exact W|]. apply eq_None_not_Some. intros [tx (_ & Hn & _)%Hh]. apply Hn. left.
Defined.

Lemma add_transaction_ok_witness :
  ∃ r p', add_transaction (example_vtx 5 2 1 60) 1000000 0 example_pool = Done (inr r, p') ∧
    added (example_vtx 5 2 1 60) example_pool r p'.
Proof.
  pose proof (add_transaction_ok (example_vtx 5 2 1 60) 1000000 0 example_pool example_pool_wf
    ltac:(by apply example_vtx_ok) ltac:(done) ltac:(in_room)) as H.
  replace (contains (hash (example_vtx 5 2 1 60)) example_pool) with false in H by (by vm_compute).
  set (e := insert_error _ _ _ _) in H. replace e with (None : option InsertErr) in H by (by vm_compute). exact H.
Defined.

Lemma set_block_info_ok_witness :
  ∃ p', set_block_info (mkBlockInfo 9 9 40 (Some 3)) example_pool = Done p' ∧ pool_wf p' ∧
    by_hash (all_transactions p') = by_hash (all_transactions example_pool) ∧ affords p'.
Proof.
  destruct (set_block_info_ok (mkBlockInfo 9 9 40 (Some 3)) example_pool example_pool_wf ltac:(in_room) ltac:(in_room))
    as (p' & E & W & _ & _ & Hh & Ha).
  exists p'. split_and!; [exact E|exact W|exact Hh|apply Ha; right; by vm_compute].
Defined.

Lemma blob_fee_rise_parks_ordinary_witness :
  ∃ p', set_block_info (mkBlockInfo 9 9 0 (Some 2)) example_pool = Done p' ∧
    ∀ i tx, sub_txs p' Pending !! i = Some tx → is_Some (max_fee_per_blob_gas tx).
Proof.
  destruct (blob_fee_rise_parks_ordinary (mkBlockInfo 9 9 0 (Some 2)) 2 example_pool example_pool_wf ltac:(in_room)
    ltac:(done) eq_refl ltac:(done) ltac:(in_room) ltac:(in_room)) as (p' & E & Hb).
  exists p'. by split.
Defined.

Lemma reachable_consistent_witness :
  ∃ k, ∀ k', sub_txs example_pool k' !! mkTransactionId 1 2 = Some (example_vtx 3 1 2 50) ↔ k' = k.
Proof.
  destruct (reachable_consistent 1 PoolConfig_default example_pool ltac:(done) default_limits_ok
    example_pool_reachable) as (H & _).
  exact (proj2 (H 3 (example_vtx 3 1 2 50) ltac:(in_room))).
Defined.

Lemma step_refines_witness :
  spec_step (RemoveTransactions [2] [example_vtx 2 1 1 50]) (content example_pool) (content (example_remove example_pool 2)).
Proof.
  apply (step_refines (RemoveTransactions [2] [example_vtx 2 1 1 50]) example_pool (example_remove example_pool 2) example_pool_wf).
  - exact default_limits_ok.
  - in_room.
  - apply StepRemove. vm_compute. reflexivity.
Defined.

Lemma remove_transactions_ok_witness :
  ∃ removed p', remove_transactions [2; 7; 2] example_pool = Done (removed, p') ∧ pool_wf p' ∧
    (∀ tx, tx ∈ removed ↔ hash tx ∈ [2; 7; 2] ∧ get_tx (hash tx) example_pool = Some tx).
Proof.
  destruct (remove_transactions_ok [2; 7; 2] example_pool example_pool_wf) as (r & p' & E & W & _ & _ & Hr).
  exists r, p'. by split_and!.
Defined.

(** ** Deciding when a pool is evictable *)
Definition evictableb (x : Pending.PendingPool) : bool :=
  forallb (λ e, negb (is_local (Pending.ptransaction e.2)) &&
      match Pending.by_id x !! descendant e.1 with
      | Some _ => true
      | None => existsb (λ u, Pending.submission_id u =? Pending.submission_id e.2) (Pending.highest_nonces x)
      end) (map_to_list (Pending.by_id x)) &&
  (Pending.len x <? U64).

Lemma evictableb_sound p : pool_wf p → evictableb (pending_pool p) = true → evictable p.
Proof.
  intros W [H Hlen]%andb_true_iff. pose proof (so_pending _ (tr_subs _ _ W)) as Wp.
  rewrite forallb_forall in H.
  assert (He : ∀ i t, Pending.by_id (pending_pool p) !! i = Some t →
    is_local (Pending.ptransaction t) = false ∧
    (Pending.by_id (pending_pool p) !! descendant i = None → t ∈ Pending.highest_nonces (pending_pool p))).
  { intros i t Hi. specialize (H (i, t)). rewrite <-list_elem_of_In, elem_of_map_to_list in H.
    pose proof (H Hi) as [Hl Hb]%andb_true_iff. simpl in *. split; [by apply negb_true_iff|].
    intros Hd. rewrite Hd in Hb. apply existsb_exists in Hb as (u & Hu & E). apply Z.eqb_eq in E.
    apply list_elem_of_In in Hu. destruct (Pending.vw_sub _ _ (Pending.pd_highest _ Wp) u Hu) as [j Hj].
    pose proof (iw_inj (Pending.pd_index _ Wp) j i u t Hj Hi E) as ->. congruence. }
  split.
  - intros i t Hi Htop. by apply (He i t).
  - intros i t Hi. by apply (He i t).
  - by apply Z.ltb_lt.
Qed.

Lemma discard_worst_ok_witness :
  ∃ removed p', discard_worst 5 small_pool = Done (removed, p') ∧ pool_wf p' ∧ is_exceeded p' = false.
Proof.
  destruct (discard_worst_ok 5 small_pool small_pool_wf small_limits_ok ltac:(in_room)
    (evictableb_sound _ small_pool_wf ltac:(in_room)) ltac:(vm_compute; lia)) as (r & p' & E & W & _ & Hx & _ & _).
  exists r, p'. by split_and!.
Defined.

(** ** States the documentation rules out *)

(** A transaction between two of the same sender whose fee cap is low. *)
Definition dip_pool : TxPool :=
  foldl example_add (TxPool_new 1 PoolConfig_default)
    [example_vtx 1 1 0 50; example_vtx 2 1 1 10; example_vtx 3 1 2 50].

(** A block that raises the base fee above the fee cap of a sender's second
    transaction moves that transaction to the base-fee sub-pool but leaves the
    sender's third transaction in the pending sub-pool, although its ancestor is
    parked: the recheck decides whether a transaction has a parked ancestor before it
    applies the new base fee to the ancestor. *)
Theorem parked_ancestor_stays_pending :
  ((λ r, (sub_txs r.2 BaseFee !! mkTransactionId 1 1, sub_txs r.2 Pending !! mkTransactionId 1 2)) <$>
    on_canonical_state_change (mkBlockInfo 7 7 20 None) [] {[1 := mkSenderInfo 0 1000000]} dip_pool) =
  Done (Some (example_vtx 2 1 1 10), Some (example_vtx 3 1 2 50)).
Proof. vm_compute. reflexivity. Qed.

(** A rise of the blob fee parks ordinary transactions, and its fall does not
    bring them back: after the fee has returned to its old value and the accounts were
    rechecked, the first transaction of a sender is still in the base-fee sub-pool, at
    a base fee of zero. *)
Theorem blob_fee_dip_is_not_undone :
  (p ← set_block_info (mkBlockInfo 7 7 0 (Some 2)) example_pool;
   p ← set_block_info (mkBlockInfo 8 8 0 (Some 1)) p;
   '(_, p) ← on_canonical_state_change (mkBlockInfo 9 9 0 (Some 1)) [] {[1 := mkSenderInfo 0 1000000]} p;
   Done (pf_base_fee (pending_fees (all_transactions p)), bmap_iter (sub_txs p Pending),
         sub_txs p BaseFee !! mkTransactionId 1 0)) =
  Done (0, [], Some (example_vtx 1 1 0 50)).
Proof. vm_compute. reflexivity. Qed.

(** One phase of the truncation of a sub-pool whose set of highest nonces is empty. *)
Lemma remove_to_limit_no_tops fuel limit locals st :
  Pending.highest_nonces st.2 = [] → Pending.remove_to_limit (S fuel) limit locals st = Done st.
Proof.
  intros Hnil. unfold Pending.remove_to_limit. cbn [Pending.remove_loop]. rewrite Hnil.
  cbn -[Pending.exceeds]. by rewrite orb_true_r.
Qed.

(** If the pending sub-pool exceeds its limit while its set of highest nonces is
    empty, eviction never ends: no number of rounds suffices. *)
Theorem discard_worst_diverges fuel p :
  Pending.highest_nonces (pending_pool p) = [] → exceeds_limit Pending p = true →
  discard_worst fuel p = NoFuel.
Proof.
  intros Hnil Hx. unfold discard_worst. cbn [for_each].
  enough (Hloop : ∀ n acc, discard_loop n (exceeds_limit Pending) (truncate_subpool Pending) (acc, p) = NoFuel)
    by (by rewrite Hloop).
  induction n as [|n IH]; intros acc; cbn [discard_loop fst snd]; rewrite Hx; [done|].
  assert (truncate_subpool Pending (S n) p = Done ([], p)) as ->.
  { cbn [truncate_subpool]. unfold Pending.truncate_pool. cbn [exceeds_limit] in Hx. rewrite Hx. cbn [negb].
    rewrite remove_to_limit_no_tops by done. cbn [mbind outcome_bind snd]. rewrite Hx. cbn [negb].
    rewrite remove_to_limit_no_tops by done. cbn. by destruct p. }
  cbn [mbind outcome_bind for_each fst]. apply IH.
Qed.

(** Three senders with three transactions each, of which the second and then the third
    is removed by its hash. *)
Definition stuck_pool : TxPool :=
  foldl example_remove
    (foldl example_add (TxPool_new 1 small_config)
      [example_vtx 1 1 0 50; example_vtx 2 1 1 50; example_vtx 3 1 2 50;
       example_vtx 4 2 0 50; example_vtx 5 2 1 50; example_vtx 6 2 2 50;
       example_vtx 7 3 0 50; example_vtx 8 3 1 50; example_vtx 9 3 2 50]) [2; 3; 5; 6; 8; 9].

Lemma stuck_pool_reachable : reachable 1 small_config stuck_pool.
Proof.
  unfold stuck_pool. cbn [foldl]. do 6 (apply reach_remove; [apply small_limits_ok| |in_room]).
  reach_adds; first [apply ReachNew|apply small_limits_ok].
Qed.

Lemma discard_worst_diverges_witness :
  reachable 1 small_config stuck_pool ∧ Pending.highest_nonces (pending_pool stuck_pool) = [] ∧
  exceeds_limit Pending stuck_pool = true ∧ discard_worst 1000 stuck_pool = NoFuel.
Proof.
  split; [exact stuck_pool_reachable|]. split; [vm_compute; reflexivity|]. split; [vm_compute; reflexivity|].
  exact (discard_worst_diverges 1000 stuck_pool ltac:(vm_compute; reflexivity) ltac:(vm_compute; reflexivity)).
Defined.

Lemma assert_invariants_ok_witness :
  assert_invariants example_pool = true ∧ assert_invariants stuck_pool = false.
Proof.
  rewrite (assert_invariants_ok example_pool example_pool_wf).
  rewrite (assert_invariants_ok stuck_pool (reach_wf small_config small_limits_ok _ stuck_pool_reachable)).
  split; vm_compute; reflexivity.
Defined.

(** Adding a second transaction moves the sender's first one, which only lacked the
    base fee, from the base-fee sub-pool to the queued one: the traversal takes the
    state of the first transaction for that of its ancestor and marks it as having a
    parked one, although it has none. *)
Theorem successor_demotes_first :
  (p ← set_block_info (mkBlockInfo 7 7 20 None) (TxPool_new 1 PoolConfig_default);
   let p1 := example_add p (example_vtx 1 1 0 10) in
   let p2 := example_add p1 (example_vtx 2 1 1 30) in
   Done (sub_txs p1 BaseFee !! mkTransactionId 1 0, sub_txs p2 BaseFee !! mkTransactionId 1 0,
         sub_txs p2 Queued !! mkTransactionId 1 0)) =
  Done (Some (example_vtx 1 1 0 10), None, Some (example_vtx 1 1 0 10)).
Proof. vm_compute. reflexivity. Qed.
