(* ===== verification/InnerExamples.v ===== *)
(** * Concrete runs of the pool's outer layer

    [PoolInner] over the in-memory blob store.  The runs show that the hypotheses of the
    theorems about it can be met, and where its reports differ from what happened. *)

From stdpp Require Import prelude gmap list sorting.
From S2P Require Import Prelude.
From S2P Require Import Ord.
From S2P Require Import Identifier.
From S2P Require Import State.
From S2P Require Import PoolTx.
From S2P Require Import SubPools.
From S2P Require Import AllTxs.
From S2P Require Import Errors.
From S2P Require Import Events.
From S2P Require Import BlobStore.
From S2P Require Import TxPool.
From S2P Require Import Inner.
From S2P Require Import PoolOps.
From S2P Require Import PoolFees.
From S2P Require Import PoolEvict.
From S2P Require Import PoolSteps.
From S2P Require Import InnerOps.
From S2P Require Import InnerSteps.
From S2P Require Import PoolExamples.
From S2P Require Import Forks.
From S2P Require Import Transaction.
From S2P Require Import Header.
From S2P Require Import Validate.
From S2P Require Import ValidateSteps.

#[local] Existing Instance CoinbaseTipOrdering.

(** A store in which the size of a sidecar is its number. *)
#[local] Instance example_store : BlobStore InMemoryBlobStore := mem_blob_store id.
#[local] Instance example_store_laws : BlobStoreLaws InMemoryBlobStore := mem_laws id.
Notation Pool := (PoolInner InMemoryBlobStore).

Definition inner_new (cfg : PoolConfig) : Pool := PoolInner_new 1 InMemoryBlobStore_default cfg quiet_world.
Definition run_add (i : Pool) (o : TransactionValidationOutcome) : Pool :=
  run_or i (snd <$> add_transactions 10 0 External [o] i).

(** An ordinary and a blob transaction of an account with nonce 0. *)
Definition plain_outcome (h s n fee bal : Z) (prop : bool) : TransactionValidationOutcome :=
  OutcomeValid bal 0 (Valid (example_tx h s n fee)) prop.
Definition blob_outcome (h s n d : Z) : TransactionValidationOutcome :=
  OutcomeValid 1000000 0 (ValidWithSidecar (mkPoolTransaction h s n 100 21000 50 (Some 50) (Some 20) 128 3) d) true.

Section construction.
Context (cfg : PoolConfig) (Hcfg : limits_ok cfg).
Notation reached := (inner_reachable 1 cfg InMemoryBlobStore_default quiet_world).

Lemma reached_wf (i : Pool) : reached i → inner_wf i.
Proof using Hcfg. by apply inner_reachable_wf. Qed.

Lemma reached_step (i i' : Pool) q : reached i → inner_room i → inner_step q i i' → reached i'.
Proof using. intros. by eapply InnerNext. Qed.

Lemma reached_add (i : Pool) o : reached i → inner_room i → batch_room 1 i → outcome_ok o → reached (run_add i o).
Proof using.
  intros Hr Hroom Hb Hok. unfold run_add. destruct (add_transactions 10 0 External [o] i) as [[r i']| |] eqn:E; [|done|done].
  eapply reached_step; [exact Hr|exact Hroom|]. eapply InnerAdd; [by repeat constructor|exact Hb|exact E].
Qed.
End construction.

Ltac reached_adds := cbn [foldl]; repeat (apply reached_add; [|in_room|in_room|in_room]).

(** Two ordinary transactions of the accounts 11 and 12, the second private, a blob
    transaction of account 13, a subscriber of each, and a listener of either kind. *)
Definition example_inner : Pool :=
  let i := (add_pending_listener PropagateOnly (inner_new PoolConfig_default)).2 in
  let i := (add_new_transaction_listener ListenAll i).2 in
  let i := foldl run_add i
    [plain_outcome 1 11 0 50 1000000 true; plain_outcome 2 12 0 40 1000000 false; blob_outcome 3 13 0 7] in
  let i := (add_transaction_event_listener 1 i).2 in
  (add_transaction_event_listener 3 i).2.

Lemma example_inner_reachable :
  inner_reachable 1 PoolConfig_default InMemoryBlobStore_default quiet_world example_inner.
Proof.
  unfold example_inner.
  do 2 (eapply reached_step; [| |apply InnerSubscribe]; [|in_room]).
  reached_adds; try apply default_limits_ok.
  eapply reached_step; [| |apply InnerListenNew]; [|in_room].
  eapply reached_step; [| |apply InnerListenPending]; [|in_room]. apply InnerNew.
Qed.
Lemma example_inner_wf : inner_wf example_inner.
Proof. apply (reached_wf PoolConfig_default default_limits_ok), example_inner_reachable. Qed.

(** ** Witnesses *)

Definition example_block : CanonicalStateUpdate :=
  mkCanonicalStateUpdate 90 9 1 (Some 1) [mkChangedAccount 11 1 999999] [3].
Definition after_block : Pool := run_or example_inner (inner_on_canonical_state_change example_block example_inner).

Lemma after_block_step : inner_step ReqOther example_inner after_block.
Proof.
  apply (InnerBlock example_inner example_block); [split; [done|by intros ? [= <-]]|in_room|].
  vm_compute. reflexivity.
Qed.

Lemma subscriber_learns_departure_witness :
  ∃ att, log (world after_block) = log (world example_inner) ++ att ∧
    gone 3 (event_listener after_block) (world after_block) ∧
    ∃ l e, received 3 att = l ++ [(3, e)] ∧ is_final e = true.
Proof.
  destruct (subscriber_learns_departure ReqOther example_inner after_block 3 3%nat example_inner_wf ltac:(in_room)
    after_block_step) as (att & Hl & H).
  - vm_compute. by eexists.
  - by vm_compute.
  - vm_compute. left.
  - exists att. split; [exact Hl|]. apply H.
    replace att with (drop (length (log (world example_inner))) (log (world after_block)))
      by (by rewrite Hl, drop_app_length).
    vm_compute. repeat constructor.
Defined.

(** A pool with room for two pending transactions, one of them with a sidecar, and a batch
    of two after which one has to go. *)
Definition tight_inner : Pool :=
  foldl run_add (inner_new small_config) [plain_outcome 1 11 0 50 1000000 true; blob_outcome 3 13 0 7].
Definition tight_batch : list TransactionValidationOutcome :=
  [plain_outcome 5 14 0 5 1000000 true; plain_outcome 6 15 0 6 1000000 true].
Definition after_batch : Pool := run_or tight_inner (snd <$> add_transactions 10 0 External tight_batch tight_inner).

Lemma tight_inner_wf : inner_wf tight_inner.
Proof.
  apply (reached_wf small_config small_limits_ok). unfold tight_inner. reached_adds. apply InnerNew.
Qed.

Lemma sidecars_kept_witness :
  (bs_get 3 (blob_store after_batch)).1 = inr (Some 7) ∧
  (bs_get 3 (blob_store after_batch)).1 = (bs_get 3 (blob_store tight_inner)).1 ∧
  is_Some (get_tx 1 (pool tight_inner)) ∧ size (txs (all_transactions (pool after_batch))) = 2%nat.
Proof.
  split_and!; [vm_compute; reflexivity| |vm_compute; by eexists|vm_compute; reflexivity].
  apply (sidecars_kept (ReqAdd tight_batch) tight_inner); [exact tight_inner_wf|in_room| | |vm_compute; by eexists|vm_compute; by eexists].
  - eapply (InnerAdd tight_inner 10 0 External tight_batch); [by repeat constructor|in_room|vm_compute; reflexivity].
  - intros [_ Hin]. vm_compute in Hin. set_unfold in Hin. naive_solver.
Defined.

Lemma by_sender_exact_witness :
  length (inner_get_transactions_by_sender 13 example_inner).1 = 1%nat ∧
  ∀ tx, tx ∈ (inner_get_transactions_by_sender 13 example_inner).1 ↔
    get_tx (hash tx) (pool example_inner) = Some tx ∧ tx_sender (transaction tx) = 13.
Proof.
  split; [vm_compute; reflexivity|].
  apply (by_sender_exact 1 PoolConfig_default InMemoryBlobStore_default quiet_world example_inner 13 ltac:(done)
    default_limits_ok example_inner_reachable ltac:(in_room)).
Defined.

(** A batch of a valid transaction, an invalid one, and one that is in the pool. *)
Definition example_batch : list TransactionValidationOutcome :=
  [plain_outcome 5 11 1 50 1000000 true; OutcomeInvalid (example_tx 6 12 1 50) InvalidOverdraft;
   plain_outcome 1 11 0 50 1000000 true].

Lemma add_transactions_ok_witness :
  ∃ results i', add_transactions 6 0 External example_batch example_inner = Done (results, i') ∧ inner_wf i' ∧
    Forall2 answers example_batch results ∧ is_exceeded (pool i') = false ∧ is_Some (known i' !! 5).
Proof.
  destruct (add_transactions_ok 6 0 External example_batch example_inner example_inner_wf ltac:(by repeat constructor)
    ltac:(in_room)) as (added & i1 & E & Hret & H).
  vm_compute in E. injection E as <- <-.
  destruct Hret as [[results i'] Er]; [right; left; by vm_compute|].
  destruct (H results i' Er) as (W & Ha & Hx & _). exists results, i'. split_and!; [exact Er|exact W|exact Ha| |].
  - apply Hx. by vm_compute.
  - vm_compute in Er. injection Er as <- <-. vm_compute. by eexists.
Defined.

Lemma inner_block_ok_witness :
  ∃ i', inner_on_canonical_state_change example_block example_inner = Done i' ∧ inner_wf i' ∧
    get_tx 1 (pool i') = None.
Proof.
  destruct (inner_block_ok example_block example_inner example_inner_wf ltac:(in_room)
    ltac:(split; [done|by intros ? [= <-]]) ltac:(in_room)) as (i' & E & W & H).
  exists i'. split_and!; [exact E|exact W|]. apply eq_None_not_Some. intros [tx (Ht & _ & Ho)%H].
  vm_compute in Ht. injection Ht as <-. by vm_compute in Ho.
Defined.

Lemma private_not_announced_witness :
  let i' := run_or example_inner (snd <$> inner_add_transaction 0 External (plain_outcome 5 14 0 50 1000000 false) example_inner) in
  ∃ att, log (world i') = log (world example_inner) ++ att ∧ Forall (discreet 0 (pool i')) att.
Proof.
  apply (private_not_announced 0 example_inner); [exact example_inner_wf|in_room| |].
  - eapply (ActAdd example_inner 0 External (plain_outcome 5 14 0 50 1000000 false)); [in_room|vm_compute; reflexivity].
  - intros l Hl. vm_compute in Hl. set_unfold in Hl. naive_solver.
Defined.

(** A transaction whose gas limit exceeds that of a block. *)
Definition greedy_outcome : TransactionValidationOutcome :=
  OutcomeValid 1000000 0 (Valid (mkPoolTransaction 9 14 0 100 30000001 50 (Some 50) None 128 2)) true.

Lemma rejection_penalised_witness :
  ∃ e i', inner_add_transaction 0 External greedy_outcome example_inner = Done (inl e, i') ∧
    is_bad_transaction e = true.
Proof.
  eexists _, _. split; [vm_compute; reflexivity|].
  eapply (rejection_penalised 0 External _ _ _ _ example_inner _ _ example_inner_wf ltac:(in_room)).
  - instantiate (4 := 1000000). instantiate (3 := 0). instantiate (1 := true).
    instantiate (1 := Valid (mkPoolTransaction 9 14 0 100 30000001 50 (Some 50) None 128 2)). in_room.
  - vm_compute. reflexivity.
  - vm_compute. reflexivity.
Defined.

(** ** Reports and counters that differ from the state *)

(** Two transactions of one account that can pay for one, and a listener for pending
    transactions. *)
Definition poor_inner : Pool :=
  (add_pending_listener ListenAll (foldl run_add (inner_new PoolConfig_default)
    [plain_outcome 1 11 0 50 100 true; plain_outcome 2 11 1 50 100 true])).2.

(** A transaction that becomes pending because the next one of its sender is added is not
    announced if that next one is parked itself: the result for a parked transaction has
    no place for the promoted ones, and no listener hears of the promotion. *)
Theorem promotion_unannounced :
  let i' := run_add poor_inner (plain_outcome 3 11 5 50 1000000 true) in
  is_Some (sub_txs (pool poor_inner) Queued !! mkTransactionId 0 1) ∧
  is_Some (sub_txs (pool i') Pending !! mkTransactionId 0 1) ∧
  pending_transaction_listener i' = [mkListener 0 ListenAll] ∧ log (world i') = log (world poor_inner).
Proof. vm_compute. split_and!; by try eexists. Qed.

(** A transaction that fails a second validation is reported as discarded, and its
    subscriptions end, while it stays in the pool. *)
Theorem resubmission_ends_subscription :
  let i' := run_add example_inner (OutcomeError 1) in
  listening 2 1 (event_listener example_inner) ∧ is_Some (get_tx 1 (pool i')) ∧
  last (log (world i')) = Some (mkAttempt 2 (MsgEvent 1 EvDiscarded) Sent) ∧
  broadcasters_by_hash (event_listener i') !! 1 = None.
Proof. split_and!; [vm_compute; left|vm_compute; by eexists|by vm_compute..]. Qed.

(** Removing a blob transaction keeps its sidecar; if the transaction comes back, the
    in-memory store counts the size of the sidecar a second time. *)
Theorem returning_blob_counted_twice :
  let i1 := run_add (inner_new PoolConfig_default) (blob_outcome 3 13 0 7) in
  let i2 := run_or i1 (snd <$> inner_remove_transactions [3] i1) in
  let i3 := run_add i2 (blob_outcome 3 13 0 7) in
  bs_data_size_hint (blob_store i1) = Some 7 ∧ bs_data_size_hint (blob_store i3) = Some 14 ∧
  store (blob_store i3) = {[3 := 7]}.
Proof. split_and!; by vm_compute. Qed.

(** ** The validator in front of the pool *)
Module Validated.
Definition initial_gas : SpecId → list Z → bool → AccessList → Z → Z := λ _ _ _ _ _, 21000.
Definition kzg_ok : list Z → Sidecar → bool := λ _ _, true.
Definition validator : EthTransactionValidatorInner := build (builder_new (mkValidatorSpec 1 30000000 example_hardforks)).
Definition rich_account : Address → option (option Account) := λ _, Some (Some (mkAccount 0 1000000000 None)).
Definition transfer (h gas : Z) : EthPooledTransaction :=
  EthPooledTransaction_new 131072
    (mkEcRecovered 14 h (Tx.Eip1559 (Tx.mkTxEip1559 1 0 gas 50 2 (CallTo 12) 5 [] []))) 110.

Lemma transfer_ok h gas : is_u64 gas → pooled_ok (transfer h gas).
Proof. intros Hg. by split; [split| |]. Qed.

(** A gas limit above that of a block is held against the peer. *)
Lemma blame_only_by_validator_witness :
  ∃ e i', inner_add_transaction 0 External
      (validate_one initial_gas kzg_ok 6 validator rich_account (blob_store example_inner) External (transfer 9 30000001))
      example_inner = Done (inl e, i') ∧
    ∃ err, validate_one initial_gas kzg_ok 6 validator rich_account (blob_store example_inner) External
        (transfer 9 30000001) = OutcomeInvalid (pool_view (transfer 9 30000001)) err ∧ invalid_is_bad err = true.
Proof.
  eexists _, _. split; [vm_compute; reflexivity|].
  destruct (blame_only_by_validator initial_gas kzg_ok 6 validator rich_account 0 External (transfer 9 30000001) example_inner
    _ _ example_inner_wf ltac:(in_room) ltac:(by apply transfer_ok) ltac:(by vm_compute)
    ltac:(vm_compute; reflexivity) ltac:(vm_compute; reflexivity)) as (err & E & Hb & _).
  by exists err.
Defined.

Lemma private_end_to_end_witness :
  ∃ i', inner_add_transaction 0 Private
      (validate_one initial_gas kzg_ok 6 validator rich_account (blob_store example_inner) Private (transfer 9 21000))
      example_inner = Done (inr 9, i') ∧
    9 ∉ pooled_transactions_hashes i'.
Proof.
  eexists. split; [vm_compute; reflexivity|].
  eapply (private_end_to_end initial_gas kzg_ok 6 0 validator rich_account 0 Private (transfer 9 21000) example_inner 9).
  - exact example_inner_wf.
  - in_room.
  - by apply transfer_ok.
  - intros l Hl. vm_compute in Hl. set_unfold in Hl. naive_solver.
  - done.
  - vm_compute. reflexivity.
Defined.
End Validated.
