(* ===== verification/OpPool.v ===== *)
(** * The pool's iterators and the block builder

    The iterators of [transaction-pool/src/pool/best.rs] satisfy what the builder needs of an
    iterator, also while transactions arrive. *)

From stdpp Require Import prelude gmap list.
From S2P Require Import Prelude.
From S2P Require Import Ord.
From S2P Require Import Identifier.
From S2P Require Import PoolTx.
From S2P Require Import SubPools.
From S2P Require Import Pending.
From S2P Require Import Best.
From S2P Require Import State.
From S2P Require Import TxPool.
From S2P Require Import OpPayload.
From S2P Require Import OpPayloadSteps.

Section iterators.
Context {TO : TransactionOrdering} (P : ValidPoolTransaction → Prop).
Implicit Types (b : BestTransactions).

(** ** Receiving *)
Lemma receive_all_mark q t b : receive_all q (mark_invalid t b) = mark_invalid t (receive_all q b).
Proof. revert b. induction q as [|[u|] q IH]; intros b; [done|apply (IH (insert_new u b))|apply IH]. Qed.
Lemma drain_mark t b : add_new_transactions (mark_invalid t b) = mark_invalid t (add_new_transactions b).
Proof.
  unfold add_new_transactions. simpl. destruct (new_transaction_receiver b) as [q|]; [|done].
  exact (receive_all_mark q t (set_receiver (Some []) b)).
Qed.
Lemma drain_twice b : add_new_transactions (add_new_transactions b) = add_new_transactions b.
Proof.
  apply drained_receiver. unfold add_new_transactions. destruct (new_transaction_receiver b) as [q|] eqn:E; [|by left].
  right. by rewrite receive_all_receiver.
Qed.
Lemma next_drain fuel b : next fuel (add_new_transactions b) = next fuel b.
Proof. destruct fuel; [done|]. simpl. by rewrite drain_twice. Qed.

(** ** Fuel *)
Lemma next_more fuel b r : next fuel b = Done r → next (S fuel) b = Done r.
Proof.
  revert b. induction fuel as [|fuel IH]; intros b; [done|]. intros Hn. remember (S fuel) as f eqn:Ef. rewrite Ef in Hn.
  simpl in *. destruct (bset_pop_last _) as [[t ind]|]; [|done]. case_bool_decide; subst f; [by apply IH|].
  destruct (skip_blobs _ && _); [by apply IH|done].
Qed.
Lemma next_fuel fuel fuel' b r : (fuel ≤ fuel')%nat → next fuel b = Done r → next fuel' b = Done r.
Proof. induction 1; [done|]. intros Hn. by apply next_more, IHle. Qed.
Lemma next_with_fees_more fuel (b : BestTransactionsWithFees) r : next_with_fees fuel b = Done r → next_with_fees (S fuel) b = Done r.
Proof.
  revert b. induction fuel as [|fuel IH]; intros b; [done|]. intros Hn. remember (S fuel) as f eqn:Ef. rewrite Ef in Hn.
  cbn [next_with_fees] in *. destruct (next (S fuel) (wf_best b)) as [[otx b1]| |] eqn:En; [|done..].
  rewrite (next_more _ _ _ (eq_trans (f_equal (λ n, next n _) Ef) En)). simpl in *. destruct otx as [tx|]; [|done].
  destruct (satisfies_fees _ _ tx); [done|]. subst f. by apply IH.
Qed.
Lemma next_with_fees_fuel fuel fuel' (b : BestTransactionsWithFees) r : (fuel ≤ fuel')%nat → next_with_fees fuel b = Done r → next_with_fees fuel' b = Done r.
Proof. induction 1; [done|]. intros Hn. by apply next_with_fees_more, IHle. Qed.

(** ** What is offered *)
Record entries_ok b : Prop := {
  en_all i t : ball b !! i = Some t → P (ptransaction t);
  en_independent t : t ∈ independent b → P (ptransaction t);
}.
Lemma next_offered fuel b tx b' :
  entries_ok (add_new_transactions b) → next fuel b = Done (tx, b') →
  entries_ok b' ∧ ∀ t, tx = Some t → P t.
Proof.
  revert b. induction fuel as [|fuel IH]; [done|]. intros b Hb. simpl. set (b1 := add_new_transactions b) in *.
  assert (Hd : ∀ ind inv, add_new_transactions (mkBestTransactions (ball b1) ind inv (new_transaction_receiver b1) (skip_blobs b1)) =
                          mkBestTransactions (ball b1) ind inv (new_transaction_receiver b1) (skip_blobs b1)).
  { intros ind inv. apply drained_receiver. apply (drained_receiver b1), drain_twice. }
  destruct (bset_pop_last (independent b1)) as [[t ind]|] eqn:Hpop; [|by intros [= <- <-]].
  apply bset_pop_last_spec in Hpop. destruct Hb as [Ha Hi]. rewrite Hpop in Hi.
  assert (Hind : ∀ u, u ∈ ind → P (ptransaction u)) by set_solver. assert (Ht : P (ptransaction t)) by set_solver.
  case_bool_decide; [intros Hn; eapply IH; [|exact Hn]; rewrite Hd; by split|].
  set (ind' := match ball b1 !! unlocks t with Some u => bset_insert u ind | None => ind end).
  assert (Hind' : ∀ u, u ∈ ind' → P (ptransaction u)).
  { intros u. unfold ind'. destruct (ball b1 !! unlocks t) as [d|] eqn:Ed; [|apply Hind].
    intros [->|Hu]%bset_insert_incl; [by eapply Ha|by apply Hind]. }
  destruct (skip_blobs _ && _); [intros Hn; eapply IH; [|exact Hn]; rewrite drain_mark, Hd; by split|].
  intros [= <- <-]. split; [by split|]. by intros ? [= <-].
Qed.

(** ** The plain iterator *)
Definition best_ok b : Prop := iterator_ok (add_new_transactions b) ∧ entries_ok (add_new_transactions b).
Definition best_work b : nat := work_of (add_new_transactions b).

Lemma iterator_ok_mark t b : iterator_ok b → iterator_ok (mark_invalid t b).
Proof. intros [? ? ? Hd]. split; [done..|]. apply drained_receiver. by apply drained_receiver in Hd. Qed.
(** A call that returned is the one that a large fuel gives. *)
Lemma next_called fuel b r : best_ok b → next fuel b = Done r → next_result (add_new_transactions b) r.
Proof.
  intros [Hok _] Hn. rewrite <-next_drain in Hn.
  destruct (next_terminates (S (fuel + best_work b)) _ Hok ltac:(unfold best_work; lia)) as (r' & Hr & Hres).
  rewrite (next_fuel fuel (S (fuel + best_work b)) _ _ ltac:(lia) Hn) in Hr. by injection Hr as <-.
Qed.
#[export] Instance best_iterator : BestIteratorLaws BestTransactions P.
Proof.
  refine {| it_ok := best_ok; it_work := best_work |}.
  - intros b [Hok _]. destruct (next_terminates (S (best_work b)) _ Hok ltac:(unfold best_work; lia)) as (r & Hr & _).
    exists r. intros fuel Hf. simpl. rewrite <-next_drain. by apply (next_fuel (S (best_work b))).
  - intros fuel b r b' Hb Hn. simpl in Hn. destruct (next_called _ _ _ Hb Hn) as (Hok' & Hball & _ & _ & Hres). simpl in *.
    destruct (next_offered _ _ _ _ (proj2 Hb) Hn) as [He Hp]. pose proof (it_drained _ Hok') as Hd. split.
    { unfold best_ok. rewrite Hd. by split. }
    intros t ->. split; [by apply Hp|]. unfold best_work. rewrite Hd. apply Hres.
  - intros t b [Hok He]. simpl. unfold best_ok, best_work. rewrite drain_mark. split; [|done].
    split; [by apply iterator_ok_mark|]. by destruct He.
Defined.

(** ** The iterator that enforces fees *)
Lemma with_fees_offered fuel (b : BestTransactionsWithFees) tx (b' : BestTransactionsWithFees) :
  best_ok (wf_best b) → next_with_fees fuel b = Done (tx, b') →
  iterator_ok (wf_best b') ∧ entries_ok (wf_best b') ∧ ∀ t, tx = Some t → P t ∧ (work_of (wf_best b') < best_work (wf_best b))%nat.
Proof.
  revert b. induction fuel as [|fuel IH]; [done|]. intros b Hb. cbn [next_with_fees].
  destruct (next (S fuel) (wf_best b)) as [[otx b1]| |] eqn:En; [|done..]. simpl.
  destruct (next_called _ _ _ Hb En) as (Hok' & Hball & _ & _ & Hres). destruct (next_offered _ _ _ _ (proj2 Hb) En) as [He Hp]. simpl in *.
  destruct otx as [t|]; [|intros [= <- <-]; by split_and!].
  destruct (satisfies_fees _ _ t).
  { intros [= <- <-]. simpl. split_and!; [done..|]. intros ? [= <-]. split; [by apply Hp|apply Hres]. }
  intros Hn. pose proof (it_drained _ Hok') as Hd.
  destruct (IH (mkBestTransactionsWithFees (mark_invalid t b1) (wf_base_fee b) (wf_base_fee_per_blob_gas b))) as (K1 & K2 & K3); [|done|].
  { simpl. unfold best_ok. rewrite drain_mark, Hd. split; [by apply iterator_ok_mark|]. by destruct He. }
  split_and!; [done..|]. intros t' Et. destruct (K3 t' Et) as [HP Hw]. split; [done|]. simpl in Hw.
  unfold best_work in Hw. rewrite drain_mark, Hd in Hw. change (work_of (mark_invalid t b1)) with (work_of b1) in Hw.
  destruct Hres as (Hlt & _). unfold best_work. lia.
Qed.
#[export] Instance with_fees_iterator : BestIteratorLaws BestTransactionsWithFees P.
Proof.
  refine {| it_ok (b : BestTransactionsWithFees) := best_ok (wf_best b) ∧ add_new_transactions (wf_best b) = wf_best b;
            it_work (b : BestTransactionsWithFees) := best_work (wf_best b) |}.
  - intros b [[Hok He] Hd]. unfold best_work. rewrite Hd in *.
    destruct (next_with_fees_terminates (S (work_of (wf_best b))) b Hok ltac:(lia)) as (otx & b' & Hr & _).
    exists (otx, b'). intros fuel Hf. by apply (next_with_fees_fuel (S (work_of (wf_best b)))).
  - intros fuel b r b' [Hb Hdb] Hn. destruct (with_fees_offered _ _ _ _ Hb Hn) as (Hok & He & Hy). pose proof (it_drained _ Hok) as Hd.
    split; [split; [unfold best_ok; by rewrite Hd|done]|]. intros t Et. destruct (Hy t Et). unfold best_work at 1. by rewrite Hd.
  - intros t b [[Hok He] Hd]. simpl. unfold best_ok, best_work. rewrite drain_mark, Hd in *.
    split; [|done]. split; [|done]. split; [by apply iterator_ok_mark|]. by destruct He.
Defined.

(** A boxed iterator. *)
#[export] Instance sum_iterator A B `{BestTransactionsOps A} `{!BestIteratorLaws A P} `{BestTransactionsOps B} `{!BestIteratorLaws B P} :
  BestIteratorLaws (A + B) P.
Proof.
  refine {| it_ok (x : A + B) := match x with inl a => it_ok a | inr b => it_ok b end;
            it_work x := match x with inl a => it_work a | inr b => it_work b end |}.
  - intros [x|x] Hx; destruct (it_next x Hx) as [[r x'] Hn]; [exists (r, inl x')|exists (r, inr x')]; intros fuel Hf; simpl; by rewrite Hn.
  - intros fuel [x|x] r x' Hx; simpl; destruct (bt_next fuel x) as [[r1 x1]| |] eqn:En; try done; intros [= <- <-];
      by destruct (it_yields _ _ _ _ Hx En).
  - intros t [x|x] Hx; by apply it_mark.
Defined.

(** ** Arrivals *)

(** A transaction that becomes pending is put into the channel of the iterator. *)
Definition receive (t : PendingTransaction) b : BestTransactions :=
  match new_transaction_receiver b with Some q => set_receiver (Some (q ++ [Recv t])) b | None => b end.
Lemma insert_arrived_ok t b :
  nonce_ok (entry_id t) → P (ptransaction t) → iterator_ok b → entries_ok b → iterator_ok (insert_new t b) ∧ entries_ok (insert_new t b).
Proof.
  intros Hn HP [Hk Hi Ha Hd] [Ea Ei].
  assert (Hin : ∀ u, u ∈ independent (insert_new t b) → u = t ∨ u ∈ independent b).
  { intros u. unfold insert_new. simpl. destruct (ancestor_in _ _); [by right|]. apply bset_insert_incl. }
  split; split.
  - intros i u. simpl. rewrite lookup_insert_Some. intros [[<- <-]|[_ Hu]]; [done|by apply Hk].
  - intros u [->|Hu]%Hin; [done|by apply Hi].
  - intros i u. simpl. rewrite lookup_insert_Some. intros [[<- <-]|[_ Hu]]; [done|by eapply Ha].
  - apply drained_receiver. by apply drained_receiver in Hd.
  - intros i u. simpl. rewrite lookup_insert_Some. intros [[_ <-]|[_ Hu]]; [done|by eapply Ea].
  - intros u [->|Hu]%Hin; [done|by apply Ei].
Qed.
Lemma receive_all_app q1 q2 b : receive_all (q1 ++ q2) b = receive_all q2 (receive_all q1 b).
Proof. revert b. induction q1 as [|[u|] q1 IH]; intros b; [done|apply IH..]. Qed.
Lemma receive_ok t b : nonce_ok (entry_id t) → P (ptransaction t) → best_ok b → best_ok (receive t b).
Proof.
  intros Hn HP. unfold best_ok, receive, add_new_transactions. destruct (new_transaction_receiver b) as [q|] eqn:E; simpl.
  - change (set_receiver (Some []) (set_receiver _ b)) with (set_receiver (Some []) b). rewrite receive_all_app. simpl.
    intros [Hok He]. by apply insert_arrived_ok.
  - by rewrite E.
Qed.
(** The iterator over the pending sub-pool. *)
Lemma best_of_pending p : pending_wf p → (∀ i t, by_id p !! i = Some t → P (ptransaction t)) → best_ok (best p).
Proof.
  intros Wp Hp. unfold best_ok. pose proof (best_iterator_ok p Wp) as Hok. rewrite (it_drained _ Hok). split; [done|].
  split; simpl; [done|]. intros t [i Hi]%(vw_sub _ _ (pd_independent _ Wp)). by eapply Hp.
Qed.
End iterators.

(** ** The iterators of the pool *)
Section pool.
Context {TO : TransactionOrdering} (P : ValidPoolTransaction → Prop).
Implicit Types (p : TxPool).

Lemma best_with_unlocked_ok unlocked base_fee (p : PendingPool) :
  pending_wf p → (∀ i t, by_id p !! i = Some t → P (ptransaction t)) →
  Forall (λ t, nonce_ok (transaction_id t) ∧ P t) unlocked → best_ok P (best_with_unlocked unlocked base_fee p).
Proof.
  intros Wp Hp Hu. unfold best_with_unlocked.
  destruct (best_of_pending P p Wp Hp) as [Hok He]. rewrite (it_drained _ (best_iterator_ok p Wp)) in *.
  revert Hok He. generalize (best p), (pd_submission_id p). induction Hu as [|tx l [Hn HP] _ IH]; intros b sub Hok He; simpl.
  { unfold best_ok. by rewrite (it_drained _ Hok). }
  set (t := mkPendingTransaction _ tx _). destruct (insert_arrived_ok P t b) as [Hok' He']; [done..|]. by apply IH.
Qed.
Lemma unlocked_by_fee fee (q : Parked.ParkedPool) :
  ∃ l, Parked.satisfy_base_fee_transactions fee q = Done l ∧
    ∀ t, t ∈ l → ∃ i e, Parked.by_id q !! i = Some e ∧ Parked.ptransaction e = t.
Proof.
  unfold Parked.satisfy_base_fee_transactions.
  assert (Hin : ∀ i, i ∈ Parked.satisfy_base_fee_ids fee q → is_Some (Parked.by_id q !! i)) by (intros i; by rewrite Parked.elem_of_satisfy_base_fee_ids; intros [? _]).

  destruct (for_each_ind (λ ids l, (∀ i, i ∈ ids → is_Some (Parked.by_id q !! i)) ∧
    ∀ t, t ∈ l → ∃ i e, Parked.by_id q !! i = Some e ∧ Parked.ptransaction e = t)
    (λ i txs, t ← expect (Parked.by_id q !! i); Done (txs ++ [Parked.ptransaction t])) (Parked.satisfy_base_fee_ids fee q) [])
    as (l & E & _ & Hl); [|split; [done|by intros ? ?%elem_of_nil]|by exists l].
  intros i ids l [Hi Hl]. destruct (Hi i) as [e He]; [left|]. rewrite He. eexists. split; [done|].
  split; [intros j Hj; apply Hi; by right|]. intros t [Ht| ->%list_elem_of_singleton]%elem_of_app; [by apply Hl|by exists i, e].
Qed.

(** A consistent pool answers every request for its best transactions, with an iterator that is
    as the builder needs it. *)
Lemma pool_iterator attrs p :
  pool_wf p → (∀ k i tx, sub_txs p k !! i = Some tx → P tx) →
  ∃ it, best_transactions_with_attributes attrs p = Done it ∧ it_ok (P := P) it.
Proof.
  intros [_ [Wp _ Wb Wl] _ _] HP.
  assert (Hpend : ∀ i t, by_id (pending_pool p) !! i = Some t → P (ptransaction t)).
  { intros i t Ht. apply (HP Pending i). simpl. by rewrite lookup_fmap, Ht. }
  assert (Hblob : Forall (λ t, nonce_ok (transaction_id t) ∧ P t) (Blob.satisfy_attributes attrs (blob_pool p))).
  { unfold Blob.satisfy_attributes. destruct (blob_fee attrs); [|constructor]. apply Forall_forall.
    intros t ([i e] & -> & He)%list_elem_of_fmap. apply elem_of_cut_kept in He as [He _]; [|done..]. simpl. split.
    - by apply (iw_key (Blob.bw_index _ Wl)) in He as [_ [? ? _ _ _]].
    - apply (HP Blob i). simpl. by rewrite lookup_fmap, He. }
  unfold best_transactions_with_attributes. destruct (Z.compare _ _).
  - destruct (match blob_fee attrs with Some _ => _ | None => _ end); eexists; (split; [done|]); simpl.
    + by apply best_with_unlocked_ok.
    + by apply best_of_pending.
  - destruct (unlocked_by_fee (basefee attrs) (basefee_pool p)) as (l & -> & Hl). eexists. split; [done|]. simpl.
    apply best_with_unlocked_ok; [done..|]. apply Forall_app. split; [|done]. apply Forall_forall. intros t (i & e & He & <-)%Hl. split.
    + apply (iw_key (Parked.pw_index _ Wb)) in He as [_ [? ? _ _ _]]. done.
    + apply (HP BaseFee i). simpl. by rewrite lookup_fmap, He.
  - eexists. split; [done|]. simpl. split; [by apply best_of_pending|]. apply best_iterator_ok in Wp. apply Wp.
Qed.
End pool.
