(* ===== verification/OpValidate.v ===== *)
(** * Validation of transactions on the OP stack

    [OpTransactionValidator] ([optimism/node/src/txpool.rs]): the validator of the sequencer's
    pool.  It wraps that of Ethereum, refuses blob transactions, and requires that the sender can
    also pay the L1 fee, which it computes with the parameters of the last block it has seen. *)

From stdpp Require Import prelude gmap list strings.
From S2P Require Import Prelude.
From S2P Require Import Ord.
From S2P Require Import Identifier.
From S2P Require Import PoolTx.
From S2P Require Import Forks.
From S2P Require Import Header.
From S2P Require Import Errors.
From S2P Require Import BlobStore.
From S2P Require Import Transaction.
From S2P Require Import TxPool.
From S2P Require Import Inner.
From S2P Require Import Validate.
From S2P Require Import InnerOps.
From S2P Require Import InnerSteps.
From S2P Require Import ValidateSteps.
From S2P Require Import PayloadValidator.
From S2P Require Import Revm.
From S2P Require Import L1Info.

Record OpL1BlockInfo := mkOpL1BlockInfo { ob_l1_block_info : L1BlockInfo; ob_timestamp : Z }.
Definition OpL1BlockInfo_default : OpL1BlockInfo := mkOpL1BlockInfo L1BlockInfo_default 0.
Record OpTransactionValidator := mkOpValidator { ov_inner : EthTransactionValidatorInner; ov_block_info : OpL1BlockInfo }.
Definition with_block_info (inner : EthTransactionValidatorInner) (info : OpL1BlockInfo) : OpTransactionValidator :=
  mkOpValidator inner info.

(** ** Following the chain *)
Definition update_l1_block_info (block : Block) (v : OpTransactionValidator) : OpTransactionValidator :=
  let info := match extract_l1_info block with inr info => info | inl _ => ob_l1_block_info (ov_block_info v) end in
  mkOpValidator (ov_inner v) (mkOpL1BlockInfo info (h_timestamp (blk_header block))).
(** [latest] is the latest block of the node; [None] stands for an error or none. *)
Definition OpValidator_new (inner : EthTransactionValidatorInner) (latest : option Block) : OpTransactionValidator :=
  let this := with_block_info inner OpL1BlockInfo_default in
  match latest with
  | Some block =>
    if h_number (blk_header block) =? 0
    then mkOpValidator inner (mkOpL1BlockInfo L1BlockInfo_default (h_timestamp (blk_header block)))
    else update_l1_block_info block this
  | None => this
  end.
Definition op_on_new_head_block (block : Block) (v : OpTransactionValidator) : OpTransactionValidator :=
  update_l1_block_info block
    (mkOpValidator (on_new_head_block (h_timestamp (blk_header block)) (ov_inner v)) (ov_block_info v)).

(** ** Validation *)
Section validator.
Context {S : Type} {BS : BlobStore S} `{EvmState} `{L1Fees}.
Context (initial_gas : Validate.SpecId → list Z → bool → AccessList → Z → Z).
Context (kzg_ok : list Z → Sidecar → bool) (MAX_BLOBS_PER_BLOCK : Z).
Notation eth_validate := (validate_one initial_gas kzg_ok MAX_BLOBS_PER_BLOCK).
Implicit Types (v : OpTransactionValidator) (tx : EthPooledTransaction).

(** The L1 fee of a transaction, as validation computes it. *)
Definition l1_fee v tx : EngineTypes.BlockExecutionError + Z :=
  l1_tx_data_fee (ob_l1_block_info (ov_block_info v)) (vs_hardforks (v_chain_spec (ov_inner v))) (ob_timestamp (ov_block_info v))
    (encode_enveloped (ep_transaction tx)) false.
Definition op_validate_one v (latest_account : Address → option (option Account)) (store : S) (origin : TransactionOrigin) tx
  : TransactionValidationOutcome :=
  if tx_is_eip4844 (pool_view tx) then OutcomeInvalid (pool_view tx) (Consensus TxTypeNotSupported)
  else
    match eth_validate (ov_inner v) latest_account store origin tx with
    | OutcomeValid balance state_nonce valid_tx propagate =>
      match l1_fee v tx with
      | inl _ => OutcomeError (tx_hash (Inner.valid_tx valid_tx))
      | inr cost_addition =>
        let cost := sat_add_u256 (tx_cost (Inner.valid_tx valid_tx)) cost_addition in
        if balance <? cost
        then OutcomeInvalid (Inner.valid_tx valid_tx) (Consensus (InsufficientFunds balance cost))
        else OutcomeValid balance state_nonce valid_tx propagate
      end
    | outcome => outcome
    end.
Definition op_validate_all v (latest_account : Address → option (option Account)) (store : S)
  (txs : list (TransactionOrigin * EthPooledTransaction)) : list TransactionValidationOutcome :=
  (λ e, op_validate_one v latest_account store e.1 e.2) <$> txs.

(** ** Theorems *)

(** C19. What the validator of the sequencer accepts: exactly the transactions that are admissible
    by the rules of Ethereum, are not blob transactions and whose sender has no code, a nonce
    not above the transaction's and a balance that covers the cost together with the L1 fee,
    while a fork of the OP stack is active; the sum saturates at the largest number. *)
Theorem op_validate_one_valid v latest_account store origin tx bal n w prop :
  op_validate_one v latest_account store origin tx = OutcomeValid bal n w prop ↔
  admissible initial_gas MAX_BLOBS_PER_BLOCK (ov_inner v) origin tx ∧ tx_is_eip4844 (pool_view tx) = false ∧
  ∃ maybe fee, latest_account (ec_signer (ep_transaction tx)) = Some maybe ∧ l1_fee v tx = inr fee ∧
    let a := default Account_default maybe in
    acc_bytecode_hash a = None ∧ acc_nonce a ≤ Tx.nonce (ec_transaction (ep_transaction tx)) ∧ ep_cost tx ≤ acc_balance a ∧
    Z.min (ep_cost tx + fee) (U256 - 1) ≤ acc_balance a ∧
    bal = acc_balance a ∧ n = acc_nonce a ∧ w = ValidTransaction_new (pool_view tx) None ∧ prop = propagates (ov_inner v) origin.
Proof.
  unfold op_validate_one. destruct (tx_is_eip4844 (pool_view tx)) eqn:Eb; [naive_solver|].
  pose proof (λ bal n w prop, validate_one_spec initial_gas kzg_ok MAX_BLOBS_PER_BLOCK (ov_inner v) latest_account store origin tx bal n w prop) as Hs.
  assert (Hside : ∀ d, sidecar_rule kzg_ok store tx d ↔ d = None).
  { intros d. rewrite <-check_sidecar_spec. unfold check_sidecar. rewrite Eb. naive_solver. }
  destruct (eth_validate _ _ _ _ _) as [bal' n' w' prop'|p err|hash].
  - destruct (proj1 (Hs _ _ _ _) eq_refl) as (Hadm & maybe & d & Hacc & Hcode & Hn & Hc & Hd & -> & -> & -> & ->).
    apply Hside in Hd as ->. rewrite valid_tx_new. change (tx_cost (pool_view tx)) with (ep_cost tx). unfold sat_add_u256.
    destruct (l1_fee v tx) as [e|fee]; [naive_solver|].
    destruct (Z.ltb_spec (acc_balance (default Account_default maybe)) (Z.min (ep_cost tx + fee) (U256 - 1))) as [Hlt|Hle].
    + split; [done|]. intros (_ & _ & maybe' & fee' & Hacc' & [= <-] & _ & _ & _ & Hle & _). rewrite Hacc in Hacc'. injection Hacc' as <-. lia.
    + split.
      * intros [= <- <- <- <-]. split_and!; [done..|]. by exists maybe, fee.
      * intros (_ & _ & maybe' & fee' & Hacc' & _ & _ & _ & _ & _ & -> & -> & -> & ->). rewrite Hacc in Hacc'. by injection Hacc' as <-.
  - split; [done|]. intros (Hadm & _ & maybe & fee & Hacc & _ & Hcode & Hn & Hc & _ & -> & -> & -> & ->).
    assert (Hbad : OutcomeInvalid p err = OutcomeValid (acc_balance (default Account_default maybe)) (acc_nonce (default Account_default maybe))
      (ValidTransaction_new (pool_view tx) None) (propagates (ov_inner v) origin)); [|done]. apply Hs. split; [done|]. exists maybe, None. pose proof (proj2 (Hside None) eq_refl). by split_and!.
  - split; [done|]. intros (Hadm & _ & maybe & fee & Hacc & _ & Hcode & Hn & Hc & _ & -> & -> & -> & ->).
    assert (Hbad : OutcomeError hash = OutcomeValid (acc_balance (default Account_default maybe)) (acc_nonce (default Account_default maybe))
      (ValidTransaction_new (pool_view tx) None) (propagates (ov_inner v) origin)); [|done]. apply Hs. split; [done|]. exists maybe, None. pose proof (proj2 (Hside None) eq_refl). by split_and!.
Qed.
End validator.

(** The parameters the validator uses are those of the last block that carries any, and the
    time is that of the last block. *)
Lemma op_tracked_l1_info blocks v :
  let v' := foldl (λ v b, op_on_new_head_block b v) v blocks in
  ob_l1_block_info (ov_block_info v') =
    default (ob_l1_block_info (ov_block_info v)) (last (omap (λ b, match extract_l1_info b with inr i => Some i | inl _ => None end) blocks)) ∧
  ob_timestamp (ov_block_info v') = default (ob_timestamp (ov_block_info v)) ((λ b, h_timestamp (blk_header b)) <$> last blocks).
Proof.
  induction blocks as [|b blocks IH] using rev_ind; [done|]. simpl in *. rewrite foldl_app, omap_app, last_snoc. simpl.
  destruct IH as [IH _]. split; [|done]. destruct (extract_l1_info b) as [e|i]; simpl; [by rewrite app_nil_r|by rewrite last_snoc].
Qed.

(** Before the transition to Regolith by time every transaction is refused: Bedrock is a fork by
    block number, and a fork by block number is never active at a time. *)
Lemma bedrock_fee_refused `{EvmState} `{L1Fees} info forks timestamp input block :
  hf_fork "Bedrock" forks = Forks.Block block →
  (∀ fork, fork ∈ ["Fjord"; "Ecotone"; "Regolith"]%string → is_fork_active_at_timestamp fork timestamp forks = false) →
  l1_tx_data_fee info forks timestamp input false = inl (EngineTypes.into forks_inactive).
Proof.
  intros Hb Hf. unfold l1_tx_data_fee. rewrite !Hf by set_solver. unfold is_fork_active_at_timestamp at 1. by rewrite Hb.
Qed.
