(* ===== verification/OpExamples.v ===== *)
(** * A block of the sequencer

    A small virtual machine that counts the nonces of the senders, a chain of the OP stack, a pool
    with four transactions and a job to build a block from them: the theorems about the builder at
    a concrete job, and what the builder does with jobs that are not valid. *)

From stdpp Require Import prelude gmap list strings.
From S2P Require Import Prelude.
From S2P Require Import Ord.
From S2P Require Import Identifier.
From S2P Require Import PoolTx.
From S2P Require Import SubPools.
From S2P Require Pending.
From S2P Require Import Best.
From S2P Require Import Forks.
From S2P Require Import Transaction.
From S2P Require Import Header.
From S2P Require Import Codecs.
From S2P Require Import Consensus.
From S2P Require Import ConsensusSteps.
From S2P Require Import TreeState.
From S2P Require Import EngineTypes.
From S2P Require Import PayloadValidator.
From S2P Require Import Engine.
From S2P Require Import Revm.
From S2P Require Import L1Info.
From S2P Require Import OpExecute.
From S2P Require Import OpPayload.
From S2P Require Import OpPayloadSteps.
From S2P Require Import TxPool.
From S2P Require Import PoolFees.
From S2P Require Import PoolExamples.
From S2P Require Import OpPool.

#[local] Existing Instance CoinbaseTipOrdering.

(** ** The virtual machine *)
(** A transaction needs 21000 gas, the nonce of its sender and the base fee; a deposit and a
    system call need the gas only. *)
Definition nonce_of (a : Z) (db : gmap Z Z) : Z := default 0 (db !! a).
Definition refused (e : Env) (db : gmap Z Z) : option InvalidTx :=
  let tx := env_tx e in
  if te_gas_limit tx <? 21000 then Some (OtherInvalidTx 1)
  else if bool_decide (of_source_hash (te_optimism tx) = None) && (te_gas_price tx <? be_basefee (env_block e)) then Some (OtherInvalidTx 2)
  else
    match te_nonce tx with
    | Some n =>
      if n <? nonce_of (te_caller tx) db then Some NonceTooLow
      else if nonce_of (te_caller tx) db <? n then Some (OtherInvalidTx 3)
      else None
    | None => None
    end.
Definition spec_rank (s : SpecId) : Z :=
  match s with
  | Spec.FRONTIER => 0 | Spec.HOMESTEAD => 2 | Spec.TANGERINE => 4 | Spec.SPURIOUS_DRAGON => 5 | Spec.BYZANTIUM => 6
  | Spec.PETERSBURG => 8 | Spec.ISTANBUL => 9 | Spec.BERLIN => 11 | Spec.LONDON => 12 | Spec.MERGE => 15
  | Spec.BEDROCK => 16 | Spec.REGOLITH => 17 | Spec.SHANGHAI => 18 | Spec.CANYON => 19 | Spec.CANCUN => 20
  | Spec.ECOTONE => 21 | Spec.FJORD => 22 | Spec.GRANITE => 23 | Spec.PRAGUE => 24
  end.
#[local] Instance evm : EvmState := {|
  Db := gmap Z Z;
  StateProvider := gmap Z Z;
  EvmAccount := Z;
  AccountInfo := Z;
  AccountInfo_default := 0;
  ai_nonce n := n;
  with_code _ _ n := n;
  touched n := n;
  build_state sp _ := sp;
  set_state_clear_flag _ db := db;
  load_cache_account a db := inr (db !! a, db);
  commit changes db := changes ∪ db;
  increment_balances _ db := inr db;
  transact e db :=
    match refused e db with
    | Some err => (inl (EvmTransaction err), db)
    | None => (inr (mkExecutionResult true 21000 [], {[te_caller (env_tx e) := nonce_of (te_caller (env_tx e)) db + 1]}), db)
    end;
  take_bundle _ db := map_sum id db;
  TxEnv_default := mkTxEnv 0 U64 0 None (CallTo 0) 0 [] None None [] [] None None (mkOptimismFields None None None None);
  BlockEnv_default := mkBlockEnv 0 0 1 U64 0 0 (Some 0) (Some 0);
  CfgEnv_default := mkCfgEnv 1 Analyse Spec.CANCUN false;
  spec_at_least a b := spec_rank b <=? spec_rank a;
  encode_enveloped t := [ec_hash t];
  error_code _ := 0;
  op_error_code _ := 0;
  SYSTEM_ADDRESS := 90;
  BEACON_ROOTS_ADDRESS := 91;
|}.
Lemma refused_none e db :
  refused e db = None → 21000 ≤ te_gas_limit (env_tx e) ∧ (of_source_hash (te_optimism (env_tx e)) = None → be_basefee (env_block e) ≤ te_gas_price (env_tx e)).
Proof.
  unfold refused. destruct (Z.ltb_spec (te_gas_limit (env_tx e)) 21000); [done|]. case_bool_decide; [|done].
  destruct (Z.ltb_spec (te_gas_price (env_tx e)) (be_basefee (env_block e))); [done|]. done.
Qed.
#[local] Instance evm_laws : EvmStateLaws.
Proof.
  refine {| db_equiv := (@eq (gmap Z Z)) |}; simpl; unfold equiv.
  - by intros e d ? ->.
  - intros e d. by destruct (refused e d).
  - intros e d r c d'. destruct (refused e d) eqn:E; [done|]. apply refused_none in E as [? _]. intros [= <- _ _]. simpl. lia.
  - intros e d r c d'. destruct (refused e d) eqn:E; [done|]. by apply refused_none in E as [_ ?].
  - intros a d ? ->. done.
  - by intros a d x d' [= _ <-].
  - by intros m d ? ->.
  - intros d. by exists d.
  - done.
  - done.
  - done.
  - intros spec Hs. repeat (apply elem_of_cons in Hs as [->|Hs]; [done|]). by apply elem_of_nil in Hs.
  - intros spec Hs. repeat (apply elem_of_cons in Hs as [->|Hs]; [done|]). by apply elem_of_nil in Hs.
Defined.

(** ** Libraries *)
#[local] Instance sample_externals : Externals := {|
  calc_next_block_base_fee := Dev.next_base_fee;
  calculate_excess_blob_gas excess used := Z.max 0 (excess + used - 393216);
  DATA_GAS_PER_BLOB := 131072;
  MAX_DATA_GAS_PER_BLOCK := 786432;
  ethereum_base_fee_params := mkBaseFeeParams 8 2;
  hash_ommers l := EMPTY_OMMER_ROOT_HASH + Z.of_nat (length l);
  calculate_transaction_root l := EMPTY_ROOT_HASH + Z.of_nat (length l);
  calculate_withdrawals_root l := EMPTY_ROOT_HASH + Z.of_nat (length l);
  calculate_requests_root l := EMPTY_ROOT_HASH + Z.of_nat (length l);
  receipt_trie_root l := EMPTY_ROOT_HASH + foldr (λ r n, 1 + rc_cumulative_gas_used r + n) 0 l;
  m3_2048 bloom l := Z.lor bloom (Z.of_nat (length l));
|}.
#[local] Instance sample_externals_laws : ExternalsLaws.
Proof.
  split; simpl; [|done..]. intros l. f_equal. induction l as [|r l IH]; [done|]. rewrite fmap_cons. cbn [foldr]. by rewrite IH, clear_version_gas.
Qed.
#[local] Instance sample_payloads : Payloads := {|
  ExecutionPayload := PayloadValidator.Block;
  payload_block_hash b := 1000 + h_number (blk_header b);
  payload_parent_hash b := h_parent_hash (blk_header b);
  try_into_block b _ := inr b;
  hash_slow h := 1000 + h_number h;
|}.
#[local] Instance sample_builder : BuilderOps := {|
  recovers _ := true;
  state_by_block_hash _ := inr ∅;
  hash_bundle x := x;
  hashed_state_root_with_updates _ x := inr (x, 0);
  state_root_of _ x := inr x;
  blob_gasprice _ := 1;
|}.
#[local] Instance sample_builder_laws : BuilderLaws.
Proof. by split. Qed.
(** The transactions of the pool are transfers with dynamic fees. *)
#[local] Instance sample_conversion : PoolTransactionConversion := λ t,
  let tx := transaction t in
  mkEcRecovered (tx_sender tx) (tx_hash tx)
    (Tx.Eip1559 (Tx.mkTxEip1559 10 (tx_nonce tx) (tx_gas_limit tx) (tx_max_fee_per_gas tx)
       (default 0 (tx_max_priority_fee_per_gas tx)) (CallTo 1) 0 [] [])).
#[local] Instance sample_conversion_laws : ConversionLaws.
Proof. refine {| convertible t := tx_type (transaction t) = 2 |}; [done| |done]. by intros t ->. Defined.

(** ** The job *)
Definition forks : ChainHardforks :=
  ChainHardforks_new
    [("SpuriousDragon", Forks.Block 0); ("London", Forks.Block 0); ("Paris", TTD None 0); ("Bedrock", Forks.Block 0);
     ("Regolith", Timestamp 0); ("Shanghai", Timestamp 0); ("Canyon", Timestamp 0); ("Cancun", Timestamp 0);
     ("Ecotone", Timestamp 0); ("Fjord", Timestamp 0)]%string.
Definition chain : OpChainSpec := mkOpChainSpec 10 true 30000000 (mkConsensusSpec forks (Constant (mkBaseFeeParams 8 2))).
Definition parent : SealedHeader := mkSealedHeader 1010 (Dev.dev_header 10 1009 100 30000000 15000000 7).
Definition deposit (gas : Z) : TransactionSignedEcRecovered :=
  mkEcRecovered 9 70 (Tx.Deposit (Tx.mkTxDeposit 8 9 (CallTo 21) None 0 gas false [])).
Definition job (deposits : list TransactionSignedEcRecovered) (no_tx_pool : bool) (gas_limit : option Z)
  : OptimismPayloadBuilderAttributes :=
  mkOpAttributes (mkEthAttributes 5 1010 102 77 33 [] (Some 44)) no_tx_pool deposits gas_limit.
Definition attributes : OptimismPayloadBuilderAttributes := job [deposit 1000000] false (Some 30000000).
Definition config : PayloadConfig := PayloadConfig_new parent [1; 2] attributes chain.

(** The pool at the base fee of the block, and a transaction that becomes pending while it is built. *)
Definition info : BlockInfo := mkBlockInfo 9 10 7 None.
Definition pool : TxPool := run_or example_pool (set_block_info info example_pool).
Definition iterators (fee : Z) (blob : option Z) : outcome (BestTransactions + BestTransactionsWithFees) :=
  best_transactions_with_attributes (mkBestTransactionsAttributes fee blob) pool.
Definition late : Pending.PendingTransaction := @Pending.mkPendingTransaction CoinbaseTipOrdering 90 (example_vtx 9 4 0 45) (Value (38 : Z)).
Definition arrive (round : nat) (it : BestTransactions + BestTransactionsWithFees) : BestTransactions + BestTransactionsWithFees :=
  match round, it with 1%nat, inl b => inl (receive late b) | _, _ => it end.
Definition run (a : OptimismPayloadBuilderAttributes) : outcome (PayloadBuilderError + BuildOutcome) :=
  optimism_payload_builder (λ _, false) (PayloadConfig_new parent [1; 2] a chain) arrive 20 iterators 20 None.
Definition payload : OptimismBuiltPayload :=
  match run attributes with
  | Done (inr (Better p)) => p
  | _ => mkBuiltPayload 0 (seal_slow (mkBlock Header_default [] [] None None)) None 0 [] chain attributes
  end.
Example job_succeeds :
  optimism_payload_builder (λ _, false) (PayloadConfig_new parent [1; 2] attributes chain) arrive 20 iterators 20 None =
    Done (inr (Better payload)).
Proof. by vm_compute. Qed.
(** The deposit, then the four transactions of the pool and the late one by their priority. *)
Example block_contents :
  ec_hash <$> sb_body (bp_block payload) = [70; 1; 2; 3; 9; 4] ∧ bp_fees payload = 21000 * (50 + 50 + 50 + 45 + 30 - 5 * 7).
Proof. by vm_compute. Qed.

Lemma pool_consistent : pool_wf pool.
Proof.
  unfold pool. destruct (set_block_info_lemma info example_pool example_pool_wf ltac:(in_room) ltac:(in_room)) as (p & E & W & _).
  by rewrite E.
Qed.
Lemma pool_offered k i tx : sub_txs pool k !! i = Some tx → offered config tx.
Proof.
  intros Htx. assert (Hall : map_Forall (λ _ tx, tx_type (transaction tx) = 2 ∧ gas_limit tx = 21000) (sub_txs pool k)).
  { apply (bool_decide_unpack _). destruct k; by vm_compute. }
  destruct (Hall i tx Htx) as [Hty Hg]. unfold offered. rewrite Hg. by split_and!.
Qed.
Lemma job_valid : job_ok parent [1; 2] attributes chain 0.
Proof.
  split; [split|..]; try by vm_compute.
  - repeat constructor.
  - by eexists.
  - by split; eexists.
  - by constructor.
Qed.
Lemma late_ok n it : it_ok (P := offered config) it → it_ok (P := offered config) (arrive n it).
Proof.
  destruct n as [|[|n]], it as [b|b]; try done. simpl. apply receive_ok; [done|]. unfold offered. by split_and!.
Qed.
Lemma iterators_ok fee blob : ∃ it, iterators fee blob = Done it ∧ it_ok (P := offered config) it.
Proof. apply pool_iterator; [apply pool_consistent|apply pool_offered]. Qed.
Lemma iterators_only fee blob it : iterators fee blob = Done it → it_ok (P := offered config) it.
Proof. destruct (iterators_ok fee blob) as (it' & -> & Hit). by intros [= <-]. Qed.

(** ** Witnesses *)
Lemma built_block_executes_witness :
  ∃ output, op_execute chain ∅ (unseal (bp_block payload)) [9; 1; 1; 1; 4; 2] 0 = Done (inr output) ∧
    ex_gas_used output = 126000 ∧ ex_state output = h_state_root (sh_header (sb_header (bp_block payload))).
Proof.
  destruct (built_block_executes parent [1; 2] attributes chain 0 (λ _, false) arrive 20 20 iterators None payload
    job_valid late_ok iterators_only job_succeeds) as (sp & executed & output & [= <-] & He & _ & Hex & _ & Hg & _ & Hroot).
  assert (Hs : eb_senders executed = [9; 1; 1; 1; 4; 2]) by (vm_compute in He; by injection He as <-).
  rewrite Hs in Hex. exists output. split_and!; [exact Hex|rewrite Hg; by vm_compute|].
  exact (f_equal (λ r, match r with inr (root, _) => root | inl _ => 0 end) Hroot).
Defined.
Lemma built_block_valid_witness :
  let header := sb_header (bp_block payload) in
  op_validate_header_against_parent (mkOptimismBeaconConsensus (oc_spec chain)) header parent = None ∧
  block_pre_execution (bp_block payload) (oc_spec chain) = None.
Proof.
  destruct (built_block_valid parent [1; 2] attributes chain 0 (λ _, false) arrive 20 20 iterators 0 None payload
    job_valid late_ok iterators_only job_succeeds) as (_ & Hp & _ & Hb & _). by split.
Defined.
Lemma built_payload_contents_witness :
  ∃ l, ec_hash <$> sb_body (bp_block payload) = 70 :: l ∧ Forall (λ t, is_eip4844 t = false) (sb_body (bp_block payload)) ∧
    h_gas_used (sh_header (sb_header (bp_block payload))) ≤ 30000000.
Proof.
  destruct (built_payload_contents parent [1; 2] attributes chain 0 (λ _, false) arrive 20 20 iterators None payload
    job_valid late_ok iterators_only job_succeeds) as (executed & l' & l & before & rs & _ & _ & _ & _ & _ & Hb & _ & Hg & _).
  exists [1; 2; 3; 9; 4]. split_and!; [apply block_contents|exact Hb|exact Hg].
Defined.
Lemma builder_ends_witness :
  ∃ bound, ∀ next_fuel fuel best, (bound ≤ next_fuel)%nat → (bound ≤ fuel)%nat →
    ∃ r, optimism_payload_builder (λ _, false) config arrive next_fuel iterators fuel best = Done r.
Proof.
  apply (builder_ends parent [1; 2] attributes chain 0 (λ _, false) arrive iterators 2);
    [exact job_valid|exact late_ok| |exact iterators_ok].
  intros n it Hn. by destruct n as [|[|n]]; [lia..|].
Defined.

(** ** Jobs that are not valid *)
Definition built (a : OptimismPayloadBuilderAttributes) : option (SealedBlock * ExecutedBlock) :=
  match run a with
  | Done (inr (Better p)) => (λ e, (bp_block p, e)) <$> bp_executed_block p
  | _ => None
  end.
Definition executed_again (a : OptimismPayloadBuilderAttributes) : option (BlockExecutionError + BlockExecutionOutput) :=
  '(block, e) ← built a;
  match op_execute chain ∅ (unseal block) (eb_senders e) 0 with Done r => Some r | _ => None end.

(** The gas limit of the attributes sets that of the header, but not that of the environment in
    which the transactions run, so that the executor runs the block in another one. *)
Definition lower_limit : OptimismPayloadBuilderAttributes := job [deposit 1000000] false (Some 20000000).
Example environments_differ :
  ∃ block e, built lower_limit = Some (block, e) ∧
    be_gas_limit (pc_initialized_block_env (PayloadConfig_new parent [1; 2] lower_limit chain)) = 30000000 ∧
    ((λ r, be_gas_limit r.2) <$> match fill_cfg_and_block_env chain (sh_header (sb_header block)) 0 with Done r => Some r | _ => None end)
      = Some 20000000.
Proof. eexists _, _. split; [by vm_compute|]. by vm_compute. Qed.
(** The transactions of the attributes are not measured against the gas limit: the builder makes
    a block which the executor refuses. *)
Example attributes_over_limit :
  is_Some (built (job [deposit 1000000] true (Some 500000))) ∧
  executed_again (job [deposit 1000000] true (Some 500000)) =
    Some (inl (ExecutionValidation (TransactionGasLimitMoreThanAvailableBlockGas 1000000 500000))).
Proof. split; [vm_compute; by eexists|by vm_compute]. Qed.
(** Every transaction of the attributes gets a receipt with the version of deposits; the
    executor gives it to deposits only. *)
Definition transfer : TransactionSignedEcRecovered := to_recovered_transaction (example_vtx 8 6 0 45).
Example version_on_transfer :
  ((λ '(_, e), rc_deposit_receipt_version <$> eo_receipts (eb_execution_output e)) <$> built (job [deposit 1000000; transfer] true None),
   (λ r, match r with inr o => rc_deposit_receipt_version <$> ex_receipts o | inl _ => [] end) <$> executed_again (job [deposit 1000000; transfer] true None))
  = (Some [Some 1; Some 1], Some [Some 1; None]).
Proof. by vm_compute. Qed.
(** The environment of a deposit keeps the blob fields of the transaction before it. *)
Example deposit_keeps_blobs hashes fee e :
  te_blob_hashes e = hashes → te_max_fee_per_blob_gas e = fee →
  te_blob_hashes (fill_tx_env e (deposit 1000000) 9) = hashes ∧ te_max_fee_per_blob_gas (fill_tx_env e (deposit 1000000) 9) = fee.
Proof. by intros <- <-. Qed.
