(* ===== verification/JobsExamples.v ===== *)
(** * A run of the payload service

    The job of the sequencer's block as a job of the service: it is asked for, built, improved
    upon and resolved; the theorems about the service along that run, and what happens when the
    only build of a job fails. *)

From stdpp Require Import prelude gmap list strings.
From S2P Require Import Prelude.
From S2P Require Import PoolTx.
From S2P Require Import Best.
From S2P Require Import Header.
From S2P Require Import Consensus.
From S2P Require Import TreeState.
From S2P Require Import EngineTypes.
From S2P Require Import PayloadValidator.
From S2P Require Import Revm.
From S2P Require Import L1Info.
From S2P Require Import OpExecute.
From S2P Require Import OpPayload.
From S2P Require Import OpPayloadSteps.
From S2P Require Import OpPool.
From S2P Require Import PayloadService.
From S2P Require Import PayloadSteps.
From S2P Require Import OpJobs.
From S2P Require Import OpExamples.

#[local] Existing Instance CoinbaseTipOrdering.
#[local] Existing Instances evm evm_laws sample_externals sample_externals_laws sample_payloads sample_builder sample_builder_laws.
#[local] Existing Instances sample_conversion sample_conversion_laws.
Notation Iterator := (BestTransactions + BestTransactionsWithFees)%type.
#[local] Instance op_builder : PayloadBuilder := OptimismPayloadBuilder (It := Iterator).
#[local] Instance op_builder_laws (g : BasicPayloadJobGenerator) : PayloadBuilderLaws (valid_job g 0) := optimism_builder_laws g 0.

Definition generator : BasicPayloadJobGenerator := mkGenerator [1; 2] (12 * 10 ^ 9) chain.
Definition parent_block : Block := mkBlock (sh_header parent) [] [] (Some []) None.
Definition provider : Client := mkClient (inr (Some parent_block)) (λ h, inr (if h =? 1010 then Some parent_block else None)).
Definition after (o : outcome (list Reply * bool * System)) : System := match o with Done (_, _, s) => s | _ => System_new end.
Definition round (now : Z) (commands : list (Client * PayloadServiceCommand)) (s : System) : outcome (list Reply * bool * System) :=
  service_round now (101 * 10 ^ 9) (λ _, 1%nat) generator commands s.

(** The job is asked for, its first build ends, and its payload is asked for. *)
Definition asked : System := after (round 0 [(provider, BuildNewPayload attributes)] System_new).
Definition built_first : System := on_tasks (end_build 0 (Sent (inr (Better payload)))) asked.
Definition requests : list (Client * PayloadServiceCommand) :=
  [(provider, BuildNewPayload attributes); (provider, BestPayload 5); (provider, PayloadAttributes_ 5); (provider, Resolve 5); (provider, BestPayload 5)].
Definition resolved : System := after (round 1 requests built_first).

Lemma attributes_asked : asks_ok generator (valid_job generator 0) (provider, BuildNewPayload attributes).
Proof. intros p [= <-]. exists parent, attributes. split; [done|exact job_valid]. Qed.
Lemma asked_reachable : sys_reachable generator (valid_job generator 0) asked.
Proof.
  apply (ReachSystemStep _ _ System_new asked); [constructor|].
  eapply (StepRound _ _ _ 0 (101 * 10 ^ 9) (λ _, 1%nat) [(provider, BuildNewPayload attributes)]); [|by vm_compute].
  constructor; [exact attributes_asked|constructor].
Qed.
Lemma payload_build : try_build config None false (inr (Better payload)).
Proof.
  exists (λ _, false), arrive, 20%nat, 20%nat, iterators. split_and!; [done|exact late_ok|exact iterators_only|exact job_succeeds].
Qed.
Lemma built_first_reachable : sys_reachable generator (valid_job generator 0) built_first.
Proof.
  apply (ReachSystemStep _ _ asked); [exact asked_reachable|].
  apply (StepBuilt _ _ _ 0%nat (mkBuildTask config None false Empty)); [by vm_compute|done|exact payload_build].
Qed.
Lemma requests_asked : Forall (asks_ok generator (valid_job generator 0)) requests.
Proof. repeat constructor. exact attributes_asked. Qed.
Lemma resolved_reachable : sys_reachable generator (valid_job generator 0) resolved.
Proof.
  apply (ReachSystemStep _ _ built_first); [exact built_first_reachable|].
  eapply (StepRound _ _ _ 1 (101 * 10 ^ 9) (λ _, 1%nat) requests); [exact requests_asked|by vm_compute].
Qed.

(** ** Witnesses *)
Lemma service_round_ok_witness :
  ∃ replies new s1 s', round 1 requests built_first = Done (replies, new, s') ∧
    converses generator 1 (101 * 10 ^ 9) s1 requests replies s' ∧ NoDup (sy_jobs s').*2.
Proof.
  destruct (service_round_ok generator (valid_job generator 0) 1 (101 * 10 ^ 9) (λ _, 1%nat) requests built_first
    built_first_reachable requests_asked) as (replies & new & s1 & s' & E & Hp & _ & _ & Hc & Hn & _).
  exists replies, new, s1, s'. split_and!; [exact E|exact Hc|exact Hn].
Defined.
Lemma future_answered_witness :
  ∃ f, sy_futures resolved !! 0%nat = Some (config, f) ∧ rs_best_payload f = Some payload ∧
    sy_futures (await_future 0 resolved).2 !! 0%nat = None ∧ sy_events (await_future 0 resolved).2 = sy_events resolved ++ [EventBuiltPayload payload].
Proof.
  assert (En : sy_futures resolved !! 0%nat = Some (config, mkResolve (Some payload) None None)) by (by vm_compute).
  exists (mkResolve (Some payload) None None). split; [exact En|]. split; [done|].
  pose proof (future_answered generator (valid_job generator 0) 0%nat resolved config _ resolved_reachable En) as Ha.
  destruct (await_future 0 resolved) as [r s'] eqn:E. assert (Er : r = Some (inr payload)) by (by vm_compute in E; injection E as <- _).
  subst r. destruct Ha as (_ & Hf & He). simpl. rewrite Hf. split; [by rewrite lookup_delete_eq|exact He].
Defined.
Lemma served_block_valid_witness :
  ∃ p, (await_future 0 resolved).1 = Some (inr p) ∧ bp_fees p = 3990000 ∧ serves generator 0 0 config p.
Proof.
  assert (En : sy_futures resolved !! 0%nat = Some (config, mkResolve (Some payload) None None)) by (by vm_compute).
  pose proof (served_block_valid generator 0 0 0%nat resolved config _ resolved_reachable En) as Hs.
  assert (Ea : (await_future 0 resolved).1 = Some (inr payload)) by (by vm_compute). rewrite Ea in Hs.
  exists payload. split_and!; [exact Ea|by vm_compute|exact Hs].
Defined.

(** ** Builds that fail *)
(** A job whose only build has failed when it is resolved answers that there is no payload, since the
    builder of the OP stack has no fallback. *)
Definition failed : System := on_tasks (end_build 0 (Sent (inl (MissingParentBlock 3)))) asked.
Example failed_build :
  (await_future 0 (after (round 1 [(provider, Resolve 5)] (after (round 1 [] failed))))).1 = None ∧
  (await_future 0 (on_tasks (end_build 1 Closed) (after (round 1 [(provider, Resolve 5)] (after (round 1 [] failed)))))).1
    = Some (inl MissingPayload).
Proof. by vm_compute. Qed.
(** The empty payload that is reported before the first build ends has none of the transactions
    of the attributes. *)
Example empty_without_deposits :
  ∃ p, service_best_payload 5 asked = Done (Some (inr p)) ∧ sb_body (bp_block p) = [] ∧ length (oa_transactions attributes) = 1%nat.
Proof. vm_compute. eexists. by split_and!. Qed.
